(* ===== verification/_CoqProject ===== *)
-Q . S2P
Prelude.v
Coding.v
Hash.v
Swar.v
WormholeCore.v
Double.v
PmWormhole.v
PmCrash.v
FilterPolicy.v
WormholePolicy.v
Bloom.v
FilterBlock.v
Comparator.v
DbFormat.v
Crc32c.v
Env.v
FileSystem.v
MemEnv.v
MemFs.v
Logging.v
Filename.v
LogFormat.v
LogReader.v
Random.v
SkipList.v
Arena.v
MemTable.v
WriteBatch.v
Iterator.v
MemIter.v
Merger.v
TwoLevel.v
DbIter.v
Block.v
Format.v
TableBuilder.v
Table.v
VersionEdit.v
Version.v
VersionBuilder.v
VersionSet.v
Manifest.v
LiveVersions.v
Compaction.v
DropRule.v
DbImpl.v
DbWrite.v
WriteLiveness.v
GroupCommit.v
Obsolete.v
HandleTable.v
LruCache.v
LruInvariant.v
LruOps.v
CacheRun.v
CacheEntries.v
TableCache.v
BuildTable.v
DbRecover.v
LogRecovery.v
DbRead.v
