(* ===== verification/Prelude.v ===== *)
(** * Wormhole filters: a filter in persistent memory, and LevelDB with a wormhole
    filter policy

    This library models the persistent-memory wormhole filter of src/pm_wf and the
    fork of LevelDB under leveldb/ that uses a wormhole filter for its tables, and
    proves what makes them correct.  Paths below are relative to the root of the
    source tree.  This file also holds the vocabulary all others share: bytes and
    machine integers, lists as memory, total orders given by three-way comparisons.

    ** The program

    The filter (src/pm_wf/pmwormholefilter.hpp) is a table of buckets of four 16-bit
    tags in a pool of persistent memory, with insertion, lookup and deletion.

    LevelDB stores keys with sequence numbers.  A write goes through a queue of
    writers (db/db_impl.cc); the first of them writes a group of batches as one
    record to a log file (db/log_writer.cc) and then to the memtable, a skip list
    (db/memtable.cc, db/skiplist.h).  A full memtable becomes a table file
    (db/builder.cc, table/table_builder.cc) with data blocks, an index and a filter
    block (table/block_builder.cc, table/filter_block.cc) made by a filter policy
    (util/bloom.cc, util/wormhole.cc).  The files of the database are the versions
    of db/version_set.cc; each change is an edit (db/version_edit.cc), a record of
    the MANIFEST, and is read back when the database is opened.  Compactions merge
    files into the next level.  A read looks in the memtables and then in the files
    of the current version through a cache of open tables (db/table_cache.cc,
    util/cache.cc); a scan merges iterators over all of them (table/merger.cc,
    table/two_level_iterator.cc, db/db_iter.cc).  Files belong to an environment
    (include/leveldb/env.h), of which helpers/memenv/memenv.cc is one.

    ** How the code is modelled

    A function of the source is a function of the same name, or of that name with
    its class in front.  Bytes are [Byte.byte], buffers and strings are lists of
    them.  An integer is a [Z] whose wrap-around is written out ([u16], [u32],
    [u64] and the signed [s32]) wherever the source computes at that width.  A function that can fail an
    assertion, dereference null or read out of bounds returns an [option]; a
    [Status] is a value.  Objects that share or mutate state are explicit: nodes and
    links of the skip list, handles, hash chains and circular lists of the cache,
    reference counts of versions and files live in stores indexed by addresses.
    Code that takes turns under a mutex is a step relation.  An interface of the
    source is a type class with the operations, and a second class with the laws
    its clients rely on:

    - [TagStore] (WormholeCore), the buckets, either persistent or in a filter's
      bytes;
    - [FilterPolicy], [Comparator], [Iterator], [Handler], of include/leveldb;
    - [WritableFile], [SequentialFile], [RandomAccessFile] (Env) and [FileSystem]
      (FileSystem), the environment;
    - [CrashModel] (PmCrash), which stores a crash may lose.

    The client's theorems are proved from the laws; the laws are proved for the
    implementations in the source (bytewise and internal key comparators, Bloom and
    wormhole policies, memory files and InMemoryEnv, the iterators over memtables,
    blocks, tables and levels, the merging iterator and the database iterator).

    Code outside the source tree is an argument of the definitions that use it:
    allocation in persistent memory, [random] and [operator new], the compression
    libraries (with [codec_ok]: decompression undoes compression), addresses of
    buffers, where crc32c aligns its loops.

    ** The files and what they show

    Filters.
    - Hash, Swar, Double: hash functions (util/hash.cc), the word-parallel search of
      a bucket, and the floating-point arithmetic that sizes the tables.
    - WormholeCore: the insertion common to both wormhole filters and the multiset
      of (home bucket, fingerprint) items it implements.
    - PmWormhole, PmCrash: the persistent filter.  Every operation ends and
      implements the multiset; no key inserted is missed; a crash during an insertion
      loses no durable key, while a finished insertion may still be lost.
    - FilterPolicy, WormholePolicy, Bloom, FilterBlock: the policies and the filter
      block.  Neither policy misses a key it stored; the wormhole policy matches
      exactly the items whose insertion succeeded.

    Formats and files.
    - Coding, Logging, Crc32c: integers, numbers as text, checksums.  The four-stride
      loop computes CRC-32C, which detects changes inside four bytes.
    - Env, FileSystem, MemEnv, MemFs, Filename: status, files, the file system as an
      interface with laws, the in-memory environment as its implementation, names of
      database files.
    - LogFormat, LogReader: the write-ahead log.  A log cut anywhere reads back the
      records completely written; damaged records are rejected.
    - Block, Format, TableBuilder, Table: table files.  Entries written are read back
      by scans and lookups, with any state of the block cache.
    - VersionEdit: records of the MANIFEST, their round trip, and that decoding
      arbitrary bytes gives typed edits.

    Keys in memory.
    - Comparator, DbFormat: user keys and internal keys.
    - Random, Arena, SkipList, MemTable, MemIter, WriteBatch: the memtable refines a
      sorted sequence; reads see the newest visible entry; batches are applied in
      order.
    - Iterator, Merger, TwoLevel, DbIter: iterators as positions in a sequence.  The
      merging iterator runs over the sorted merge, the database iterator over the
      values visible at its sequence number, in both directions.

    Versions.
    - Version, VersionBuilder, VersionSet, LiveVersions, Manifest: lookups over all
      levels, applying edits, LogAndApply with its error paths, reference counts,
      recovery from the MANIFEST after any run of edits and after a crash.
    - Compaction, DropRule: inputs of a compaction whose replacement keeps newer
      entries first, and a rule that drops only entries no snapshot can see.

    The database.
    - DbImpl, DbWrite, GroupCommit, WriteLiveness: writers, groups, room for writes.
      The log always replays to the memtable, groups are as large as allowed, and
      every write returns under fair scheduling.
    - HandleTable, LruCache, LruInvariant, LruOps, CacheRun, CacheEntries, TableCache:
      the sharded LRU cache, its pointer structures and its promises to clients, and
      open tables in it.
    - BuildTable, DbRecover, LogRecovery: tables from memtables, and the recovery of
      a log file cut by a crash.
    - DbRead, Obsolete: reads with their references, and the removal of obsolete
      files.

    ** Bounds and fuel

    A loop whose recursion is not structural takes fuel.  Most compute it from their
    data: a search of the skip list gets its nodes and height, the loop over a block
    its bytes, the loop over overlapping files [overlap_fuel], hash chains and the
    eviction loop the size of the heap.  The theorems show these are enough: the
    operation returns a result.  Loops over input of unknown length (log records,
    scans, building a table from an iterator) have fuel as an argument, and their
    theorems hold for every fuel above a stated number.  Bounds that remain as
    hypotheses come from the widths of the source: sequence numbers below 2^56, file
    numbers below 2^64, records and batches below 2^31 or 2^32, blocks below 2^30
    bytes, caches of fewer than 2^31 entries.

    ** Not modelled

    The POSIX and Windows environments, direct I/O buffers and the portability layer
    are calls of the operating system and of other libraries.  Info logs, debug
    strings, statistics, dump tools, C bindings, repair, benchmarks and tests are left
    out.  Of db/db_impl.cc, [DB::Open], [DBImpl::Recover], [DestroyDB], the body of
    the background thread, [CompactRange] and [GetProperty] are not modelled, while
    most operations they are made of are.  [LogAndApply] is one step, although the mutex is
    released while the record is written: the database calls it from one thread at a
    time.  Memory orders of the skip list are not modelled: each operation is one
    step.  Three counters of type [int] are unbounded integers (the keys of one filter,
    the operations found in a batch, the seeks left of a file): the source relies on
    their staying in range. *)
From stdpp Require Export base list option numbers list_numbers sets strings.
From stdpp Require Import sorting.
From Stdlib Require Export ZArith Lia.
From Stdlib Require Export Strings.Byte.

#[global] Open Scope Z_scope.

(** ** Bytes *)

(** [u8 b] is the byte read as [uint8_t], [s8 b] read as the (signed) plain
    [char] of the x86-64 ABI, and [b8 z] the conversion of an integer to one
    byte. *)
Definition u8 (b : byte) : Z := Z.of_N (Byte.to_N b).
Definition s8 (b : byte) : Z := if u8 b <? 128 then u8 b else u8 b - 256.
Definition b8 (z : Z) : byte :=
  match Byte.of_N (Z.to_N (z mod 256)) with Some b => b | None => x00 end.

#[global] Instance byte_eq_dec : EqDecision byte := Byte.byte_eq_dec.
#[global] Instance byte_inhabited : Inhabited byte := populate x00.

Lemma u8_range b : 0 <= u8 b < 256.
Proof. destruct b; vm_compute; split; congruence. Qed.

Lemma b8_u8 b : b8 (u8 b) = b.
Proof. destruct b; reflexivity. Qed.

Lemma u8_b8 z : u8 (b8 z) = z mod 256.
Proof.
  unfold u8, b8. pose proof (Z.mod_pos_bound z 256 ltac:(lia)).
  destruct (Byte.of_N _) as [b|] eqn:E.
  - apply Byte.to_of_N in E. rewrite E. lia.
  - exfalso. apply Byte.of_N_None_iff in E. lia.
Qed.

Lemma u8_inj a b : u8 a = u8 b → a = b.
Proof. intros H. rewrite <- (b8_u8 a), <- (b8_u8 b). congruence. Qed.

Lemma b8_mod z : b8 (z mod 256) = b8 z.
Proof. apply u8_inj. rewrite !u8_b8. apply Z.mod_mod. lia. Qed.

(** ** Machine integers: wrap-around at the width *)

Definition u16 (z : Z) : Z := z mod 2 ^ 16.
Definition u32 (z : Z) : Z := z mod 2 ^ 32.
Definition u64 (z : Z) : Z := z mod 2 ^ 64.

Lemma u32_range z : 0 <= u32 z < 2 ^ 32.
Proof. apply Z.mod_pos_bound. lia. Qed.

Lemma u64_range z : 0 <= u64 z < 2 ^ 64.
Proof. apply Z.mod_pos_bound. lia. Qed.

Lemma u32_small z : 0 <= z < 2 ^ 32 → u32 z = z.
Proof. apply Z.mod_small. Qed.

Lemma u64_small z : 0 <= z < 2 ^ 64 → u64 z = z.
Proof. apply Z.mod_small. Qed.

(** ** Bits *)

Lemma testbit_small z n i : 0 <= z < 2 ^ n → n <= i → Z.testbit z i = false.
Proof.
  intros [H1 H2] Hi. destruct (decide (z = 0)) as [->|Hz]; [apply Z.testbit_0_l|].
  apply Z.bits_above_log2; [lia|]. apply Z.log2_lt_pow2; [lia|].
  eapply Z.lt_le_trans; [exact H2|]. apply Z.pow_le_mono_r; lia.
Qed.

Lemma lor_shiftl_add a b n :
  0 <= n → 0 <= a < 2 ^ n → Z.lor a (Z.shiftl b n) = a + b * 2 ^ n.
Proof.
  intros Hn Ha. rewrite <- Z.shiftl_mul_pow2 by lia.
  symmetry. apply Z.add_nocarry_lor, Z.bits_inj'. intros i Hi.
  rewrite Z.land_spec, Z.bits_0, Z.shiftl_spec by lia.
  destruct (Z.lt_ge_cases i n).
  - by rewrite (Z.testbit_neg_r b (i - n)), andb_false_r by lia.
  - by rewrite (testbit_small a n i).
Qed.

Lemma land_ones_mod a n : 0 <= n → Z.land a (2 ^ n - 1) = a mod 2 ^ n.
Proof. intros Hn. rewrite <- Z.land_ones, Z.ones_equiv by lia. f_equal. Qed.

(** A non-negative number whose bits vanish from [n] on is below [2^n]. *)
Lemma bits_range n z :
  0 <= n → 0 <= z → (∀ i, n <= i → Z.testbit z i = false) → 0 <= z < 2 ^ n.
Proof.
  intros Hn Hz Hb. split; [done|]. destruct (Z.lt_ge_cases z (2 ^ n)) as [|Hge]; [done|].
  assert (0 < 2 ^ n) by lia. exfalso.
  assert (Z.testbit z (Z.log2 z) = true) as Ht by (apply Z.bit_log2; lia).
  rewrite Hb in Ht; [done|]. apply Z.log2_le_pow2; lia.
Qed.

Lemma land_range n a b : 0 <= n → 0 <= a < 2 ^ n → 0 <= Z.land a b < 2 ^ n.
Proof.
  intros Hn Ha. apply bits_range; [done|apply Z.land_nonneg; lia|].
  intros i Hi. by rewrite Z.land_spec, (testbit_small a n).
Qed.

Lemma lor_range n a b : 0 <= n → 0 <= a < 2 ^ n → 0 <= b < 2 ^ n → 0 <= Z.lor a b < 2 ^ n.
Proof.
  intros Hn Ha Hb. apply bits_range; [done|apply Z.lor_nonneg; lia|].
  intros i Hi. by rewrite Z.lor_spec, (testbit_small a n), (testbit_small b n).
Qed.

Lemma lxor_range n a b : 0 <= n → 0 <= a < 2 ^ n → 0 <= b < 2 ^ n → 0 <= Z.lxor a b < 2 ^ n.
Proof.
  intros Hn Ha Hb. apply bits_range; [done|apply Z.lxor_nonneg; lia|].
  intros i Hi. by rewrite Z.lxor_spec, (testbit_small a n), (testbit_small b n).
Qed.

Lemma shiftr_range n a k : 0 <= k → 0 <= a < 2 ^ n → 0 <= a ≫ k < 2 ^ n.
Proof.
  intros Hk Ha. rewrite Z.shiftr_div_pow2 by lia. assert (0 < 2 ^ k) by lia.
  split; [apply Z.div_pos; lia|]. apply Z.div_lt_upper_bound; nia.
Qed.

(** ** Little-endian words *)

Fixpoint le_bytes (n : nat) (v : Z) : list byte :=
  match n with
  | O => []
  | S n => b8 v :: le_bytes n (Z.shiftr v 8)
  end.

Fixpoint le_val (l : list byte) : Z :=
  match l with
  | [] => 0
  | b :: l => Z.lor (u8 b) (Z.shiftl (le_val l) 8)
  end.

Lemma le_val_cons b l : le_val (b :: l) = u8 b + le_val l * 256.
Proof. simpl. apply (lor_shiftl_add _ _ 8); [lia|apply u8_range]. Qed.

Lemma length_le_bytes n v : length (le_bytes n v) = n.
Proof. revert v; induction n; simpl; auto. Qed.

Lemma le_val_bytes n v : le_val (le_bytes n v) = v mod 2 ^ (8 * Z.of_nat n).
Proof.
  revert v; induction n as [|n IH]; intros v.
  - simpl. symmetry. apply Z.mod_1_r.
  - cbn [le_bytes]. rewrite le_val_cons, IH, u8_b8, Z.shiftr_div_pow2 by lia.
    rewrite Nat2Z.inj_succ, Z.mul_succ_r, Z.add_comm, (Z.add_comm _ 8).
    rewrite Z.pow_add_r, Z.rem_mul_r by lia. change (2 ^ 8) with 256. lia.
Qed.

Lemma le_val_range l : 0 <= le_val l < 2 ^ (8 * Z.of_nat (length l)).
Proof.
  induction l as [|b l IH]; [simpl; lia|].
  rewrite le_val_cons. cbn [length]. rewrite Nat2Z.inj_succ, Z.mul_succ_r, Z.pow_add_r by lia.
  pose proof (u8_range b). change (2 ^ 8) with 256. lia.
Qed.

Lemma le_bytes_val l : le_bytes (length l) (le_val l) = l.
Proof.
  induction l as [|b l IH]; [done|].
  cbn [length le_bytes]. rewrite le_val_cons, Z.shiftr_div_pow2 by lia.
  pose proof (u8_range b). change (2 ^ 8) with 256.
  rewrite Z.div_add, Z.div_small, Z.add_0_l, IH by lia. f_equal.
  apply u8_inj. rewrite u8_b8, Z.mod_add, Z.mod_small; lia.
Qed.

(** ** Tables stored as rows of equal length *)

Section rows.
Context {A B : Type} (f : A → list B) (n : nat).
Hypothesis Hrow : ∀ a, length (f a) = n.

Lemma length_rows l : length (l ≫= f) = (n * length l)%nat.
Proof.
  induction l as [|a l IH]; simpl; [lia|]. rewrite length_app, Hrow. unfold mbind in IH. lia.
Qed.

Lemma lookup_rows l i j :
  (j < n)%nat → (l ≫= f) !! (n * i + j)%nat = a ← l !! i; f a !! j.
Proof.
  intros Hj. revert i; induction l as [|a l IH]; intros i; [done|].
  destruct i as [|i]; cbn [mbind list_bind].
  - rewrite lookup_app_l by (rewrite Hrow; lia). simpl. by rewrite Nat.mul_0_r.
  - rewrite lookup_app_r by (rewrite Hrow; lia). rewrite Hrow.
    replace (n * S i + j - n)%nat with (n * i + j)%nat by lia. apply IH.
Qed.

Lemma drop_rows l i : drop (n * i) (l ≫= f) = drop i l ≫= f.
Proof.
  revert i; induction l as [|a l IH]; intros i; [rewrite drop_nil; apply drop_nil|].
  destruct i as [|i]; [by rewrite Nat.mul_0_r|]. cbn [mbind list_bind drop].
  rewrite drop_app_ge by (rewrite Hrow; lia). rewrite Hrow.
  replace (n * S i - n)%nat with (n * i)%nat by lia. apply IH.
Qed.

Lemma insert_rows l i j a a' y :
  l !! i = Some a → (j < n)%nat → f a' = <[j:=y]> (f a) →
  <[i:=a']> l ≫= f = <[(n * i + j)%nat:=y]> (l ≫= f).
Proof.
  revert i; induction l as [|b l IH]; intros i Hi Hj Hf; [done|].
  destruct i as [|i]; simpl in Hi; cbn [mbind list_bind insert list_insert].
  - injection Hi as ->. rewrite Nat.mul_0_r. simpl.
    rewrite insert_app_l by (rewrite Hrow; lia). by rewrite Hf.
  - rewrite insert_app_r_alt by (rewrite Hrow; lia). rewrite Hrow.
    replace (n * S i + j - n)%nat with (n * i + j)%nat by lia.
    f_equal. by apply IH.
Qed.
End rows.

Lemma join_fmap {A B} (f : A → list B) (l : list A) : mjoin (f <$> l) = l ≫= f.
Proof. induction l as [|x l IH]; [done|]. cbn [fmap list_fmap mjoin list_join mbind list_bind]. f_equal. exact IH. Qed.

(** ** Writing into the middle of a buffer *)

(** [memcpy] of [new] over [l] at offset [off]. *)
Definition splice {A} (off : nat) (new l : list A) : list A :=
  take off l ++ new ++ drop (off + length new) l.

Section splice.
Context {A : Type}.
Implicit Types (l new : list A).

Lemma length_splice off new l :
  (off + length new ≤ length l)%nat → length (splice off new l) = length l.
Proof. intros H. unfold splice. rewrite !length_app, length_take, length_drop. lia. Qed.

Lemma slice_splice_eq off new l :
  (off + length new ≤ length l)%nat →
  take (length new) (drop off (splice off new l)) = new.
Proof.
  intros H. unfold splice.
  rewrite drop_app_length' by (rewrite length_take; lia). by rewrite take_app_length.
Qed.

Lemma slice_splice_ne off new l off' n :
  (off + length new ≤ length l)%nat →
  (off' + n ≤ off ∨ off + length new ≤ off')%nat →
  take n (drop off' (splice off new l)) = take n (drop off' l).
Proof.
  intros H Hd. apply list_eq. intros i.
  destruct (decide (i < n)%nat); [|by rewrite !lookup_take_ge by lia].
  rewrite !lookup_take_lt, !lookup_drop by done. unfold splice. destruct Hd as [Hd|Hd].
  - rewrite lookup_app_l by (rewrite length_take; lia). by rewrite lookup_take_lt by lia.
  - rewrite lookup_app_r, lookup_app_r by (rewrite ?length_take; lia).
    rewrite lookup_drop, length_take. f_equal. lia.
Qed.
End splice.

(** ** Prefixes *)

Lemma prefix_app_cases {A} (P l1 l2 : list A) :
  P `prefix_of` l1 ++ l2 →
  ((length P ≤ length l1)%nat → P `prefix_of` l1) ∧
  ((length l1 ≤ length P)%nat → ∃ P', P = l1 ++ P' ∧ P' `prefix_of` l2).
Proof.
  intros Hpre. assert (l1 `prefix_of` l1 ++ l2) as Hl by by exists l2.
  split; intros Hlen.
  - destruct (prefix_weak_total _ _ _ Hpre Hl) as [|Hl1]; [done|].
    by rewrite (prefix_length_eq _ _ Hl1).
  - destruct (prefix_weak_total _ _ _ Hpre Hl) as [HP|[P' ->]].
    + exists []. rewrite app_nil_r. split; [|apply prefix_nil]. by apply prefix_length_eq.
    + exists P'. split; [done|]. by apply prefix_app_inv in Hpre.
Qed.

(** ** Lengths *)

Create HintDb len.
#[export] Hint Rewrite @length_app @length_take @length_drop @length_replicate @length_insert
  @length_fmap @length_reverse @length_alter length_le_bytes : len.

(** Closes a bound on the length of a list built from others. *)
Ltac len := autorewrite with len; cbn [length]; lia.

(** ** Lists without duplicates under a projection *)

Lemma NoDup_fmap_eq {A B} (f : A → B) (l : list A) x y :
  NoDup (f <$> l) → x ∈ l → y ∈ l → f x = f y → x = y.
Proof.
  induction l as [|z l IH]; intros Hnd Hx Hy Heq; [by apply not_elem_of_nil in Hx|].
  rewrite fmap_cons in Hnd. apply NoDup_cons in Hnd as [Hz Hnd].
  assert (∀ w, w ∈ l → f w ≠ f z) as Hne.
  { intros w Hw Hfw. apply Hz. rewrite <- Hfw. by apply list_elem_of_fmap_2. }
  apply elem_of_cons in Hx as [->|Hx]; apply elem_of_cons in Hy as [->|Hy]; [done| | |by apply IH].
  - by destruct (Hne y Hy).
  - by destruct (Hne x Hx).
Qed.

(** ** Three-way comparison *)

Lemma filter_all {A} (P : A → Prop) `{!∀ x, Decision (P x)} (l : list A) : (∀ x, x ∈ l → P x) → filter P l = l.
Proof.
  induction l as [|x l IH]; intros Hp; [done|]. rewrite filter_cons, decide_True by (apply Hp; left). f_equal. apply IH. intros y Hy. apply Hp. by right.
Qed.

Lemma StronglySorted_filter {A} (R : A → A → Prop) (P : A → Prop) `{!∀ x, Decision (P x)} l :
  StronglySorted R l → StronglySorted R (filter P l).
Proof.
  induction 1 as [|x l Hl IH Hx]; [constructor|]. rewrite filter_cons. destruct (decide (P x)); [|done].
  constructor; [done|]. apply Forall_forall. intros y [_ Hy]%list_elem_of_filter. by apply (proj1 (Forall_forall _ _) Hx).
Qed.

Lemma StronglySorted_sublist {A} (R : A → A → Prop) (l l' : list A) : l `sublist_of` l' → StronglySorted R l' → StronglySorted R l.
Proof.
  induction 1 as [|x l l' Hs IH|x l l' Hs IH]; [done| |]; intros [H1 H2]%StronglySorted_inv; [|by apply IH].
  constructor; [by apply IH|]. apply Forall_forall. intros y Hy. apply (proj1 (Forall_forall _ _) H2). by eapply elem_of_sublist.
Qed.

Lemma filter_prefix {A} (P : A → Prop) `{∀ x, Decision (P x)} (l : list A) k :
  (∀ i x, l !! i = Some x → P x ↔ (i < k)%nat) → filter P l = take k l ∧ filter (λ x, ¬ P x) l = drop k l.
Proof.
  revert k; induction l as [|y l IH]; intros k Hk; [by destruct k|]. rewrite !filter_cons.
  pose proof (Hk 0%nat y eq_refl) as H0. destruct k as [|k].
  - rewrite decide_False, decide_True by (rewrite H0; lia).
    destruct (IH 0%nat) as [-> ->]; [|by destruct l]. intros i x Hi. rewrite (Hk (S i) x Hi). lia.
  - rewrite decide_True, decide_False by (rewrite H0; lia).
    destruct (IH k) as [-> ->]; [|done]. intros i x Hi. rewrite (Hk (S i) x Hi). lia.
Qed.

(** [compare_] orders the keys that are [valid]: its sign changes with the
    order of the arguments, and it is transitive. *)
Class KeyOrder {K : Type} (compare_ : K → K → Z) (valid : K → Prop) := {
  ko_sym a b : valid a → valid b → Z.sgn (compare_ a b) = - Z.sgn (compare_ b a);
  ko_trans a b c : valid a → valid b → valid c →
    compare_ a b < 0 → compare_ b c < 0 → compare_ a c < 0;
  ko_trans_eq a b c : valid a → valid b → valid c →
    compare_ a b < 0 → compare_ b c = 0 → compare_ a c < 0;
}.

Section key_order.
Context {K : Type} (compare_ : K → K → Z) (valid : K → Prop) `{!KeyOrder compare_ valid}.

Lemma ko_refl a : valid a → compare_ a a = 0.
Proof. intros Ha. pose proof (ko_sym a a Ha Ha). lia. Qed.

Lemma ko_lt_sym a b : valid a → valid b → compare_ a b < 0 ↔ 0 < compare_ b a.
Proof. intros Ha Hb. pose proof (ko_sym a b Ha Hb). lia. Qed.

Lemma ko_lt_le a b c : valid a → valid b → valid c →
  compare_ a b < 0 → compare_ b c <= 0 → compare_ a c < 0.
Proof.
  intros Ha Hb Hc Hab Hbc. destruct (decide (compare_ b c = 0)) as [H0|]; [by apply (ko_trans_eq a b c)|].
  apply (ko_trans a b c); [done..|lia].
Qed.

Lemma ko_le_lt a b c : valid a → valid b → valid c →
  compare_ a b <= 0 → compare_ b c < 0 → compare_ a c < 0.
Proof.
  intros Ha Hb Hc Hab Hbc. destruct (Z.lt_ge_cases (compare_ a c) 0) as [|Hge]; [done|exfalso].
  assert (compare_ c a <= 0) as Hca by (pose proof (ko_sym a c Ha Hc); lia).
  pose proof (ko_lt_le b c a Hb Hc Ha Hbc Hca). pose proof (ko_sym a b Ha Hb). lia.
Qed.
End key_order.
