(* ===== verification/Coding.v ===== *)
(** Fixed-width and variable-width integer encodings (util/coding.cc and
    util/coding.h).  A [char*] range or a [Slice] is a [list byte]; a routine
    that advances a pointer returns the remaining bytes; [None] is the null
    pointer, a [false] result, or (for the unchecked [DecodeFixed*]) a read
    past the memory the caller owns. *)
From S2P Require Import Prelude.

(** ** Fixed-width integers *)

Definition EncodeFixed32 (value : Z) : list byte :=
  [b8 value; b8 (value ≫ 8); b8 (value ≫ 16); b8 (value ≫ 24)].

Definition EncodeFixed64 (value : Z) : list byte :=
  [b8 value; b8 (value ≫ 8); b8 (value ≫ 16); b8 (value ≫ 24);
   b8 (value ≫ 32); b8 (value ≫ 40); b8 (value ≫ 48); b8 (value ≫ 56)].

Definition DecodeFixed32 (buffer : list byte) : option Z :=
  match buffer with
  | b0 :: b1 :: b2 :: b3 :: _ =>
      Some (Z.lor (Z.lor (Z.lor (u8 b0) (u8 b1 ≪ 8)) (u8 b2 ≪ 16)) (u8 b3 ≪ 24))
  | _ => None
  end.

Definition DecodeFixed64 (buffer : list byte) : option Z :=
  match buffer with
  | b0 :: b1 :: b2 :: b3 :: b4 :: b5 :: b6 :: b7 :: _ =>
      Some (Z.lor (Z.lor (Z.lor (Z.lor (Z.lor (Z.lor (Z.lor (u8 b0)
        (u8 b1 ≪ 8)) (u8 b2 ≪ 16)) (u8 b3 ≪ 24)) (u8 b4 ≪ 32)) (u8 b5 ≪ 40))
        (u8 b6 ≪ 48)) (u8 b7 ≪ 56))
  | _ => None
  end.

Definition PutFixed32 (dst : list byte) (value : Z) : list byte :=
  dst ++ EncodeFixed32 value.
Definition PutFixed64 (dst : list byte) (value : Z) : list byte :=
  dst ++ EncodeFixed64 value.

(** ** Variable-width integers *)

Definition EncodeVarint32 (v : Z) : list byte :=
  if v <? 1 ≪ 7 then [b8 v]
  else if v <? 1 ≪ 14 then [b8 (Z.lor v 128); b8 (v ≫ 7)]
  else if v <? 1 ≪ 21 then
    [b8 (Z.lor v 128); b8 (Z.lor (v ≫ 7) 128); b8 (v ≫ 14)]
  else if v <? 1 ≪ 28 then
    [b8 (Z.lor v 128); b8 (Z.lor (v ≫ 7) 128); b8 (Z.lor (v ≫ 14) 128);
     b8 (v ≫ 21)]
  else
    [b8 (Z.lor v 128); b8 (Z.lor (v ≫ 7) 128); b8 (Z.lor (v ≫ 14) 128);
     b8 (Z.lor (v ≫ 21) 128); b8 (v ≫ 28)].

Definition PutVarint32 (dst : list byte) (v : Z) : list byte :=
  dst ++ EncodeVarint32 v.

(** The [while (v >= B)] loop; ten rounds exhaust a 64-bit value. *)
Fixpoint EncodeVarint64_loop (fuel : nat) (v : Z) : list byte :=
  match fuel with
  | O => []
  | S fuel =>
      if 128 <=? v then b8 (Z.lor v 128) :: EncodeVarint64_loop fuel (v ≫ 7)
      else [b8 v]
  end.

Definition EncodeVarint64 (v : Z) : list byte := EncodeVarint64_loop 10 v.

Definition PutVarint64 (dst : list byte) (v : Z) : list byte :=
  dst ++ EncodeVarint64 v.

Definition PutLengthPrefixedSlice (dst value : list byte) : list byte :=
  PutVarint32 dst (u32 (Z.of_nat (length value))) ++ value.

Fixpoint VarintLength_loop (fuel : nat) (v len : Z) : Z :=
  match fuel with
  | O => len
  | S fuel => if 128 <=? v then VarintLength_loop fuel (v ≫ 7) (len + 1) else len
  end.

Definition VarintLength (v : Z) : Z := VarintLength_loop 10 v 1.

(** The decoding loop shared by the 32-bit and 64-bit readers, which differ in
    the width of [result] and in the last admissible shift. *)
Fixpoint get_varint_loop (wrap : Z → Z) (last : Z)
    (p : list byte) (shift result : Z) : option (Z * list byte) :=
  if last <? shift then None
  else match p with
       | [] => None
       | c :: p =>
           let byte := u8 c in
           if negb (Z.land byte 128 =? 0)
           then get_varint_loop wrap last p (shift + 7)
                  (Z.lor result (wrap (Z.land byte 127 ≪ shift)))
           else Some (Z.lor result (wrap (byte ≪ shift)), p)
       end.

Definition GetVarint32PtrFallback (p : list byte) : option (Z * list byte) :=
  get_varint_loop u32 28 p 0 0.

Definition GetVarint32Ptr (p : list byte) : option (Z * list byte) :=
  match p with
  | c :: p' =>
      if Z.land (u8 c) 128 =? 0 then Some (u8 c, p') else GetVarint32PtrFallback p
  | [] => GetVarint32PtrFallback p
  end.

Definition GetVarint64Ptr (p : list byte) : option (Z * list byte) :=
  get_varint_loop u64 63 p 0 0.

Definition GetVarint32 (input : list byte) : option (Z * list byte) :=
  GetVarint32Ptr input.
Definition GetVarint64 (input : list byte) : option (Z * list byte) :=
  GetVarint64Ptr input.

Definition GetLengthPrefixedSlice (input : list byte)
    : option (list byte * list byte) :=
  match GetVarint32 input with
  | Some (len, input') =>
      if len <=? Z.of_nat (length input')
      then Some (take (Z.to_nat len) input', drop (Z.to_nat len) input')
      else None
  | None => None
  end.

Lemma foldl_PutFixed32 dst offs :
  foldl PutFixed32 dst offs = dst ++ mjoin (EncodeFixed32 <$> offs).
Proof.
  revert dst; induction offs as [|o offs IH]; intros dst; simpl; [by rewrite app_nil_r|].
  rewrite IH. unfold PutFixed32. by rewrite <- app_assoc.
Qed.

(** ** Fixed-width round trips *)

Lemma EncodeFixed32_le v : EncodeFixed32 v = le_bytes 4 v.
Proof. unfold EncodeFixed32. simpl. by rewrite !Z.shiftr_shiftr by lia. Qed.

Lemma EncodeFixed64_le v : EncodeFixed64 v = le_bytes 8 v.
Proof. unfold EncodeFixed64. simpl. by rewrite !Z.shiftr_shiftr by lia. Qed.

Lemma DecodeFixed32_le l r : length l = 4%nat → DecodeFixed32 (l ++ r) = Some (le_val l).
Proof.
  destruct l as [|b0 [|b1 [|b2 [|b3 [|]]]]]; try done. intros _. simpl. f_equal.
  rewrite !Z.shiftl_lor, !Z.shiftl_shiftl, Z.shiftl_0_l, Z.lor_0_r by lia.
  by rewrite !Z.lor_assoc.
Qed.

Lemma DecodeFixed64_le l r : length l = 8%nat → DecodeFixed64 (l ++ r) = Some (le_val l).
Proof.
  destruct l as [|b0 [|b1 [|b2 [|b3 [|b4 [|b5 [|b6 [|b7 [|]]]]]]]]]; try done.
  intros _. simpl. f_equal.
  rewrite !Z.shiftl_lor, !Z.shiftl_shiftl, Z.shiftl_0_l, Z.lor_0_r by lia.
  by rewrite !Z.lor_assoc.
Qed.

Lemma Decode_EncodeFixed32 v r : DecodeFixed32 (EncodeFixed32 v ++ r) = Some (u32 v).
Proof. rewrite DecodeFixed32_le, EncodeFixed32_le by done. by rewrite le_val_bytes. Qed.

Lemma Decode_EncodeFixed64 v r : DecodeFixed64 (EncodeFixed64 v ++ r) = Some (u64 v).
Proof. rewrite DecodeFixed64_le, EncodeFixed64_le by done. by rewrite le_val_bytes. Qed.

Lemma length_EncodeFixed32 v : length (EncodeFixed32 v) = 4%nat.
Proof. done. Qed.

Lemma length_EncodeFixed64 v : length (EncodeFixed64 v) = 8%nat.
Proof. done. Qed.

Lemma DecodeFixed32_is_Some l :
  (4 ≤ length l)%nat → ∃ v, DecodeFixed32 l = Some v ∧ 0 <= v < 2 ^ 32.
Proof.
  intros Hl. rewrite <- (take_drop 4 l).
  rewrite DecodeFixed32_le by (rewrite length_take; lia). eexists; split; [done|].
  pose proof (le_val_range (take 4 l)) as H. rewrite length_take, Nat.min_l in H by lia.
  exact H.
Qed.

Lemma DecodeFixed64_is_Some l :
  (8 ≤ length l)%nat → ∃ v, DecodeFixed64 l = Some v ∧ 0 <= v < 2 ^ 64.
Proof.
  intros Hl. rewrite <- (take_drop 8 l).
  rewrite DecodeFixed64_le by (rewrite length_take; lia). eexists; split; [done|].
  pose proof (le_val_range (take 8 l)) as H. rewrite length_take, Nat.min_l in H by lia.
  exact H.
Qed.

(** ** Variable-width round trips *)

Lemma more_flag v : Z.land (u8 (b8 (Z.lor v 128))) 128 = 128.
Proof.
  rewrite u8_b8, <- (land_ones_mod _ 8) by lia.
  rewrite <- Z.land_assoc. change (Z.land (2 ^ 8 - 1) 128) with 128.
  rewrite Z.land_lor_distr_l. change (Z.land 128 128) with 128.
  apply Z.bits_inj'. intros i Hi. rewrite Z.lor_spec, Z.land_spec.
  by destruct (Z.testbit v i), (Z.testbit 128 i).
Qed.

Lemma more_payload v : Z.land (u8 (b8 (Z.lor v 128))) 127 = v mod 128.
Proof.
  rewrite u8_b8, <- (land_ones_mod _ 8), <- (land_ones_mod _ 7) by lia.
  rewrite <- Z.land_assoc. change (Z.land (2 ^ 8 - 1) 127) with 127.
  rewrite Z.land_lor_distr_l. change (Z.land 128 127) with 0. apply Z.lor_0_r.
Qed.

Lemma last_flag v : 0 <= v < 128 → Z.land v 128 = 0.
Proof.
  intros Hv. apply Z.bits_inj'. intros i Hi. rewrite Z.land_spec, Z.bits_0.
  destruct (decide (i = 7)) as [->|Hne].
  - by rewrite (testbit_small v 7).
  - change 128 with (2 ^ 7). by rewrite (Z.pow2_bits_false 7 i), andb_false_r by lia.
Qed.

Lemma pow7_S n : 2 ^ (7 * Z.of_nat (S n)) = 128 * 2 ^ (7 * Z.of_nat n).
Proof. by rewrite Nat2Z.inj_succ, Z.mul_succ_r, Z.add_comm, Z.pow_add_r by lia. Qed.

Lemma EncodeVarint64_loop_fuel n m v :
  0 <= v < 2 ^ (7 * Z.of_nat n) → (1 ≤ n ≤ m)%nat →
  EncodeVarint64_loop m v = EncodeVarint64_loop n v.
Proof.
  revert m v; induction n as [|n IH]; intros m v Hv Hnm; [lia|].
  destruct m as [|m]; [lia|]. simpl. case_match eqn:E; [|done]. f_equal.
  apply Z.leb_le in E. rewrite Z.shiftr_div_pow2 by lia.
  pose proof (pow7_S n) as Hp.
  destruct n as [|n]; [simpl in *; lia|]. apply IH; [|lia].
  change (2 ^ 7) with 128. split; [apply Z.div_pos; lia|apply Z.div_lt_upper_bound; lia].
Qed.

(** The unrolled 32-bit writer agrees with the 64-bit loop. *)
Lemma EncodeVarint32_64 v : 0 <= v < 2 ^ 32 → EncodeVarint32 v = EncodeVarint64 v.
Proof.
  intros Hv. unfold EncodeVarint32, EncodeVarint64. cbn [EncodeVarint64_loop].
  rewrite !Z.shiftr_shiftr by lia. simpl (7 + _).
  change (1 ≪ 7) with 128; change (1 ≪ 14) with 16384;
    change (1 ≪ 21) with 2097152; change (1 ≪ 28) with 268435456.
  rewrite !Z.shiftr_div_pow2 by lia.
  repeat (case_match; try done); exfalso; Z.div_mod_to_equations; lia.
Qed.

Lemma get_varint_loop_Encode w last n v shift result r :
  0 <= v < 2 ^ (7 * Z.of_nat n) → (1 ≤ n)%nat →
  0 <= shift → shift + 7 * (Z.of_nat n - 1) <= last →
  0 <= result < 2 ^ shift → v * 2 ^ shift < 2 ^ w → 0 <= w →
  get_varint_loop (λ z, z mod 2 ^ w) last
    (EncodeVarint64_loop n v ++ r) shift result = Some (result + v * 2 ^ shift, r).
Proof.
  revert v shift result; induction n as [|n IH];
    intros v shift result Hv Hn Hs Hl Hr Hw Hw0; [lia|].
  pose proof (pow7_S n) as Hp.
  assert (0 < 2 ^ shift) as Hps by lia.
  cbn [EncodeVarint64_loop]. destruct (Z.leb_spec 128 v) as [Hge|Hlt].
  - assert (1 ≤ n)%nat as Hn1 by (destruct n; [simpl in *; lia|lia]).
    cbn [app get_varint_loop]. destruct (Z.ltb_spec last shift); [lia|].
    rewrite more_flag, more_payload. simpl negb.
    rewrite Z.shiftl_mul_pow2 by lia.
    pose proof (Z.div_mod v 128 ltac:(lia)) as Hdm.
    pose proof (Z.mod_pos_bound v 128 ltac:(lia)) as Hm.
    assert (0 <= v / 128) by (apply Z.div_pos; lia).
    rewrite (Z.mod_small (v mod 128 * _)) by nia.
    rewrite <- Z.shiftl_mul_pow2, lor_shiftl_add by lia.
    rewrite Z.shiftr_div_pow2 by lia. change (2 ^ 7) with 128.
    assert (2 ^ (shift + 7) = 128 * 2 ^ shift) as Hs7.
    { rewrite Z.pow_add_r by lia. change (2 ^ 7) with 128. lia. }
    assert (v / 128 < 2 ^ (7 * Z.of_nat n)) by (apply Z.div_lt_upper_bound; lia).
    rewrite IH; rewrite ?Hs7; [|nia..]. do 2 f_equal. nia.
  - cbn [app get_varint_loop]. destruct (Z.ltb_spec last shift); [lia|].
    rewrite u8_b8, Z.mod_small by lia. rewrite last_flag by lia. simpl negb.
    cbn match. rewrite (Z.mod_small (v ≪ shift)) by (rewrite Z.shiftl_mul_pow2; nia).
    by rewrite lor_shiftl_add by lia.
Qed.

Lemma GetVarint64_Put v r :
  0 <= v < 2 ^ 64 → GetVarint64 (EncodeVarint64 v ++ r) = Some (v, r).
Proof.
  intros Hv. unfold GetVarint64, GetVarint64Ptr, EncodeVarint64.
  rewrite (get_varint_loop_Encode 64) by (simpl; lia). f_equal; f_equal; lia.
Qed.

Lemma GetVarint32Ptr_fallback p : GetVarint32Ptr p = GetVarint32PtrFallback p.
Proof.
  destruct p as [|c p]; [done|]. simpl. case_match eqn:E; [|done].
  unfold GetVarint32PtrFallback. simpl. rewrite E. simpl.
  rewrite Z.shiftl_0_r, u32_small; [done|]. pose proof (u8_range c). lia.
Qed.

Lemma GetVarint32_Put v r :
  0 <= v < 2 ^ 32 → GetVarint32 (EncodeVarint32 v ++ r) = Some (v, r).
Proof.
  intros Hv. unfold GetVarint32. rewrite GetVarint32Ptr_fallback, EncodeVarint32_64 by lia.
  unfold GetVarint32PtrFallback, EncodeVarint64.
  rewrite (EncodeVarint64_loop_fuel 5 10) by (simpl; lia).
  rewrite (get_varint_loop_Encode 32) by (simpl; lia). f_equal; f_equal; lia.
Qed.

Lemma GetLengthPrefixedSlice_Put v r :
  Z.of_nat (length v) < 2 ^ 32 →
  GetLengthPrefixedSlice (PutLengthPrefixedSlice [] v ++ r) = Some (v, r).
Proof.
  intros Hv. unfold GetLengthPrefixedSlice, PutLengthPrefixedSlice, PutVarint32.
  rewrite app_nil_l, <- app_assoc, u32_small, GetVarint32_Put by lia.
  rewrite length_app. destruct (Z.leb_spec (Z.of_nat (length v)) (Z.of_nat (length v + length r))); [|lia].
  by rewrite Nat2Z.id, take_app_length, drop_app_length.
Qed.

(** ** What the readers consume *)

Lemma get_varint_loop_consumes wrap last p shift result v r :
  get_varint_loop wrap last p shift result = Some (v, r) →
  ∃ pre, p = pre ++ r ∧ (1 ≤ length pre)%nat ∧ shift + 7 * (Z.of_nat (length pre) - 1) <= last.
Proof.
  revert shift result; induction p as [|c p IH]; intros shift result; simpl.
  - by case_match.
  - destruct (Z.ltb_spec last shift); [done|]. case_match.
    + intros (pre & -> & Hlen & Hb)%IH. exists (c :: pre). simpl. split_and!; [done|lia|lia].
    + intros [= <- <-]. exists [c]. simpl. split_and!; [done|lia|lia].
Qed.

Lemma get_varint_loop_range w last p shift result v r :
  0 <= w → 0 <= result < 2 ^ w →
  get_varint_loop (λ z, z mod 2 ^ w) last p shift result = Some (v, r) → 0 <= v < 2 ^ w.
Proof.
  intros Hw.
  assert (∀ a b, 0 <= a < 2 ^ w → 0 <= Z.lor a (b mod 2 ^ w) < 2 ^ w) as Hlor.
  { intros a b Ha. apply lor_range; [lia..|]. apply Z.mod_pos_bound. lia. }
  revert shift result; induction p as [|c p IH]; intros shift result Hr; simpl.
  - by case_match.
  - case_match; [done|]. case_match; [apply IH; by apply Hlor|].
    intros [= <- <-]. by apply Hlor.
Qed.

Lemma GetVarint32_consumes input v rest :
  GetVarint32 input = Some (v, rest) →
  0 <= v < 2 ^ 32 ∧ ∃ pre, input = pre ++ rest ∧ (1 ≤ length pre ≤ 5)%nat.
Proof.
  unfold GetVarint32. rewrite GetVarint32Ptr_fallback. intros H. split.
  - eapply (get_varint_loop_range 32); [lia| |exact H]. lia.
  - apply get_varint_loop_consumes in H as (pre & -> & ? & ?). exists pre. split; [done|lia].
Qed.

Lemma length_EncodeVarint32 v : (1 ≤ length (EncodeVarint32 v) ≤ 5)%nat.
Proof. unfold EncodeVarint32. repeat case_match; cbn; lia. Qed.

Lemma GetVarint64_consumes input v rest :
  GetVarint64 input = Some (v, rest) →
  0 <= v < 2 ^ 64 ∧ ∃ pre, input = pre ++ rest ∧ (1 ≤ length pre ≤ 10)%nat.
Proof.
  intros H. split.
  - eapply (get_varint_loop_range 64); [lia| |exact H]. lia.
  - apply get_varint_loop_consumes in H as (pre & -> & ? & ?). exists pre. split; [done|lia].
Qed.

Lemma GetLengthPrefixedSlice_consumes input s rest :
  GetLengthPrefixedSlice input = Some (s, rest) →
  ∃ pre, input = pre ++ s ++ rest ∧ (1 ≤ length pre ≤ 5)%nat.
Proof.
  unfold GetLengthPrefixedSlice. destruct (GetVarint32 input) as [[len i]|] eqn:E; [|done].
  apply GetVarint32_consumes in E as (? & pre & -> & ?). case_match; [|done].
  intros [= <- <-]. exists pre. by rewrite take_drop.
Qed.

(** [VarintLength] predicts the size of the 64-bit encoding. *)
Lemma VarintLength_loop_exact n v len :
  0 <= v < 2 ^ (7 * Z.of_nat n) → (1 ≤ n)%nat →
  VarintLength_loop n v len = len + Z.of_nat (length (EncodeVarint64_loop n v)) - 1.
Proof.
  revert v len; induction n as [|n IH]; intros v len Hv Hn; [lia|].
  pose proof (pow7_S n) as Hp.
  simpl. destruct (Z.leb_spec 128 v); simpl; [|lia].
  destruct n as [|n]; [simpl in *; lia|].
  rewrite IH; [lia| |lia]. rewrite Z.shiftr_div_pow2 by lia.
  change (2 ^ 7) with 128. split; [apply Z.div_pos; lia|apply Z.div_lt_upper_bound; lia].
Qed.
