(* ===== verification/Hash.v ===== *)
(** The two hash functions of util/hash.cc.  [Hash] is the Murmur-like 32-bit
    hash behind the Bloom filter; [Hash64] the 64-bit one behind the wormhole
    filter. *)
From S2P Require Import Prelude Coding.

(** ** [Hash] *)

(** The [while (data + 4 <= limit)] loop: the hash state and the (at most
    three) bytes left over. *)
Fixpoint Hash_loop (m : Z) (data : list byte) (h : Z) : Z * list byte :=
  match data with
  | b0 :: b1 :: b2 :: b3 :: data' =>
      let w := le_val [b0; b1; b2; b3] in
      let h := u32 (h + w) in
      let h := u32 (h * m) in
      let h := Z.lxor h (h ≫ 16) in
      Hash_loop m data' h
  | _ => (h, data)
  end.

Definition Hash (data : list byte) (seed : Z) : Z :=
  let m := 0xc6a4a793 in
  let r := 24 in
  let n := Z.of_nat (length data) in
  let h := u32 (Z.lxor seed (u64 (n * m))) in
  let '(h, rest) := Hash_loop m data h in
  let finish h := let h := u32 (h * m) in Z.lxor h (h ≫ r) in
  match rest with
  | [d0; d1; d2] =>
      finish (u32 (u32 (u32 (h + u8 d2 ≪ 16) + u8 d1 ≪ 8) + u8 d0))
  | [d0; d1] => finish (u32 (u32 (h + u8 d1 ≪ 8) + u8 d0))
  | [d0] => finish (u32 (h + u8 d0))
  | _ => h
  end.

(** ** [Hash64] *)

Fixpoint Hash64_loop (m r : Z) (data : list byte) (h : Z) : Z * list byte :=
  match data with
  | b0 :: b1 :: b2 :: b3 :: b4 :: b5 :: b6 :: b7 :: data' =>
      let k := le_val [b0; b1; b2; b3; b4; b5; b6; b7] in
      let k := u64 (k * m) in
      let k := Z.lxor k (k ≫ r) in
      let k := u64 (k * m) in
      let h := Z.lxor h k in
      let h := u64 (h * m) in
      Hash64_loop m r data' h
  | _ => (h, data)
  end.

(** [static_cast<uint64_t>(data[i])] sign-extends the plain [char]. *)
Definition char_u64 (b : byte) : Z := u64 (s8 b).

(** The fall-through [switch]: byte [i] of the tail is xored in at [8*i],
    highest byte first. *)
Fixpoint Hash64_tail (i : Z) (rest : list byte) (h : Z) : Z :=
  match rest with
  | [] => h
  | d :: rest => Z.lxor (Hash64_tail (i + 1) rest h) (u64 (char_u64 d ≪ (8 * i)))
  end.

Definition Hash64 (data : list byte) (seed : Z) : Z :=
  let m := 0xc6a4a7935bd1e995 in
  let r := 47 in
  let n := Z.of_nat (length data) in
  let h := Z.lxor seed (u64 (n * m)) in
  let '(h, rest) := Hash64_loop m r data h in
  let h := match rest with [] => h | _ => u64 (Hash64_tail 0 rest h * m) end in
  let h := Z.lxor h (h ≫ r) in
  let h := u64 (h * m) in
  Z.lxor h (h ≫ r).

(** ** Both stay within their width *)

Lemma xorshift_range n h k : 0 <= n → 0 <= k → 0 <= h < 2 ^ n → 0 <= Z.lxor h (h ≫ k) < 2 ^ n.
Proof. intros. apply lxor_range; [lia..|]. by apply shiftr_range. Qed.

Lemma Hash_loop_range m data h h' rest :
  0 <= h < 2 ^ 32 → Hash_loop m data h = (h', rest) →
  0 <= h' < 2 ^ 32 ∧ (length rest < 4)%nat.
Proof.
  remember (length data) as n eqn:Hn. revert data h Hn.
  induction (lt_wf n) as [n _ IH]; intros data h -> Hh.
  destruct data as [|b0 [|b1 [|b2 [|b3 data]]]];
    try (intros [= <- <-]; simpl; split; [done|lia]).
  cbn [Hash_loop]. intros H. eapply (IH (length data)); [simpl; lia|done| |exact H].
  apply xorshift_range; [lia..|apply u32_range].
Qed.

Lemma Hash_range data seed : 0 <= seed < 2 ^ 32 → 0 <= Hash data seed < 2 ^ 32.
Proof.
  intros Hs. unfold Hash. destruct (Hash_loop _ _ _) as [h rest] eqn:E.
  apply Hash_loop_range in E as [Hh Hl]; [|apply u32_range].
  destruct rest as [|d0 [|d1 [|d2 [|]]]]; try done;
    apply xorshift_range; try lia; apply u32_range.
Qed.

Lemma Hash64_range data seed : 0 <= Hash64 data seed < 2 ^ 64.
Proof.
  unfold Hash64. destruct (Hash64_loop _ _ _ _) as [h rest].
  apply xorshift_range; [lia..|apply u64_range].
Qed.
