(* ===== verification/Swar.v ===== *)
(** Four 16-bit tags packed in one 64-bit bucket, and the word-parallel test
    [hasvalue16] both wormhole filters use to search a bucket
    (src/pm_wf/pmwormholefilter.hpp, leveldb/util/wormhole.cc). *)
From S2P Require Import Prelude.

(** [haszero16(x)] and [hasvalue16(x, n)] in 64-bit arithmetic. *)
Definition haszero16 (x : Z) : Z :=
  Z.land (Z.land (u64 (x - 0x0001000100010001)) (u64 (Z.lnot x))) 0x8000800080008000.
Definition hasvalue16 (x n : Z) : Z :=
  haszero16 (Z.lxor x (u64 (0x0001000100010001 * n))).

(** A bucket seen as its four little-endian [uint16_t] lanes. *)
Definition lanes (w : Z) : list Z :=
  [w mod 2 ^ 16; (w ≫ 16) mod 2 ^ 16; (w ≫ 32) mod 2 ^ 16; (w ≫ 48) mod 2 ^ 16].

Fixpoint unlanes (l : list Z) : Z :=
  match l with [] => 0 | t :: l => t + 2 ^ 16 * unlanes l end.

Definition lane_ok (t : Z) : Prop := 0 <= t < 2 ^ 16.

Lemma length_lanes w : length (lanes w) = 4%nat.
Proof. done. Qed.

Lemma lanes_ok w : Forall lane_ok (lanes w).
Proof. repeat constructor; apply Z.mod_pos_bound; lia. Qed.

Lemma unlanes_range l :
  Forall lane_ok l → 0 <= unlanes l < 2 ^ (16 * Z.of_nat (length l)).
Proof.
  induction 1 as [|t l Ht _ IH]; [simpl; lia|].
  cbn [unlanes length]. unfold lane_ok in Ht.
  replace (16 * Z.of_nat (S (length l))) with (16 + 16 * Z.of_nat (length l)) by lia.
  rewrite Z.pow_add_r by lia. nia.
Qed.

Lemma unlanes_lanes w : 0 <= w < 2 ^ 64 → unlanes (lanes w) = w.
Proof.
  intros Hw. unfold lanes. cbn [unlanes]. rewrite !Z.shiftr_div_pow2 by lia.
  Z.div_mod_to_equations. lia.
Qed.

Lemma lanes_unlanes l : Forall lane_ok l → length l = 4%nat → lanes (unlanes l) = l.
Proof.
  destruct l as [|a [|b [|c [|d [|]]]]]; try done. intros Hl _.
  rewrite !Forall_cons in Hl. destruct Hl as (Ha & Hb & Hc & Hd & _).
  unfold lane_ok in *. unfold lanes. cbn [unlanes]. rewrite !Z.shiftr_div_pow2 by lia.
  repeat f_equal; Z.div_mod_to_equations; lia.
Qed.

(** ** Digit-wise bit operations *)

Lemma testbit_digits a b i :
  0 <= a < 2 ^ 16 → 0 <= i →
  Z.testbit (a + 2 ^ 16 * b) i = if i <? 16 then Z.testbit a i else Z.testbit b (i - 16).
Proof.
  intros Ha Hi. rewrite Z.mul_comm, <- lor_shiftl_add, Z.lor_spec, Z.shiftl_spec by lia.
  destruct (Z.ltb_spec i 16).
  - by rewrite (Z.testbit_neg_r b), orb_false_r by lia.
  - by rewrite (testbit_small a 16).
Qed.

Lemma land_digits a b c d :
  0 <= a < 2 ^ 16 → 0 <= c < 2 ^ 16 →
  Z.land (a + 2 ^ 16 * b) (c + 2 ^ 16 * d) = Z.land a c + 2 ^ 16 * Z.land b d.
Proof.
  intros Ha Hc. pose proof (land_range 16 a c ltac:(lia) Ha).
  apply Z.bits_inj'. intros i Hi.
  rewrite Z.land_spec, !testbit_digits by lia. case_match; by rewrite Z.land_spec.
Qed.

Lemma lxor_digits a b c d :
  0 <= a < 2 ^ 16 → 0 <= c < 2 ^ 16 → 0 <= Z.lxor a c < 2 ^ 16 →
  Z.lxor (a + 2 ^ 16 * b) (c + 2 ^ 16 * d) = Z.lxor a c + 2 ^ 16 * Z.lxor b d.
Proof.
  intros Ha Hc Hac. apply Z.bits_inj'. intros i Hi.
  rewrite Z.lxor_spec, !testbit_digits by lia. case_match; by rewrite Z.lxor_spec.
Qed.

Lemma lxor_lane a c : lane_ok a → lane_ok c → lane_ok (Z.lxor a c).
Proof. by apply (lxor_range 16). Qed.

Lemma bit15 z : 0 <= z < 2 ^ 16 → Z.testbit z 15 = (2 ^ 15 <=? z).
Proof.
  intros Hz. destruct (Z.leb_spec (2 ^ 15) z).
  - apply Z.testbit_true; [lia|]. Z.div_mod_to_equations. lia.
  - apply Z.testbit_false; [lia|]. Z.div_mod_to_equations. lia.
Qed.

Lemma land_bit15 z : Z.land z (2 ^ 15) = if Z.testbit z 15 then 2 ^ 15 else 0.
Proof.
  apply Z.bits_inj'. intros i Hi. rewrite Z.land_spec.
  destruct (decide (i = 15)) as [->|Hne].
  - rewrite Z.pow2_bits_true, andb_true_r by lia. case_match; [by rewrite Z.pow2_bits_true|done].
  - rewrite Z.pow2_bits_false, andb_false_r by lia.
    case_match; [by rewrite Z.pow2_bits_false by lia|by rewrite Z.bits_0].
Qed.

(** ** The zero-lane test over any number of lanes *)

Definition zero_test (n : nat) (x : Z) : Z :=
  let N := 2 ^ (16 * Z.of_nat n) in
  Z.land (Z.land ((x - unlanes (replicate n 1)) mod N) (N - 1 - x))
    (unlanes (replicate n (2 ^ 15))).

Lemma zero_test_spec l :
  Forall lane_ok l → zero_test (length l) (unlanes l) ≠ 0 ↔ 0 ∈ l.
Proof.
  induction 1 as [|t l Ht Hl IH]; [split; [done|by intros ?%elem_of_nil]|].
  pose proof (unlanes_range l Hl) as Hr. unfold zero_test in *. unfold lane_ok in Ht.
  cbn [length unlanes replicate].
  replace (16 * Z.of_nat (S (length l))) with (16 + 16 * Z.of_nat (length l)) by lia.
  rewrite Z.pow_add_r by lia. set (N := 2 ^ (16 * Z.of_nat (length l))) in *.
  set (x := unlanes l) in *. set (K := unlanes (replicate (length l) 1)) in *.
  set (M := unlanes (replicate (length l) (2 ^ 15))) in *.
  replace (2 ^ 16 * N - 1 - (t + 2 ^ 16 * x))
    with ((2 ^ 16 - 1 - t) + 2 ^ 16 * (N - 1 - x)) by lia.
  assert ((t + 2 ^ 16 * x - (1 + 2 ^ 16 * K)) mod (2 ^ 16 * N)
          = (t - 1) mod 2 ^ 16 + 2 ^ 16 * ((x - K + (t - 1) / 2 ^ 16) mod N)) as ->.
  { replace (t + 2 ^ 16 * x - (1 + 2 ^ 16 * K)) with ((t - 1) + (x - K) * 2 ^ 16) by lia.
    rewrite Z.rem_mul_r, Z.mod_add, Z.div_add by lia. do 3 f_equal. lia. }
  pose proof (Z.mod_pos_bound (t - 1) (2 ^ 16) ltac:(lia)).
  rewrite land_digits by lia.
  pose proof (land_range 16 ((t - 1) mod 2 ^ 16) (2 ^ 16 - 1 - t) ltac:(lia) ltac:(lia)).
  rewrite land_digits, land_bit15, Z.land_spec, !bit15 by lia.
  rewrite elem_of_cons. destruct (decide (t = 0)) as [->|Hne].
  - split; [by left|intros _].
    replace ((2 ^ 15 <=? (0 - 1) mod 2 ^ 16) && (2 ^ 15 <=? 2 ^ 16 - 1 - 0)) with true by done.
    assert (0 <= Z.land (Z.land ((x - K + (0 - 1) / 2 ^ 16) mod N) (N - 1 - x)) M); [|lia].
    apply Z.land_nonneg. left. apply Z.land_nonneg. left. apply Z.mod_pos_bound. lia.
  - rewrite (Z.mod_small (t - 1)), (Z.div_small (t - 1)), Z.add_0_r by lia.
    destruct (_ && _) eqn:E; [exfalso; apply andb_true_iff in E; lia|].
    rewrite Z.add_0_l. split; [intros Hz; right; apply IH; lia|].
    intros [?|Hin]; [done|]. apply IH in Hin. lia.
Qed.

(** ** [hasvalue16] finds exactly the buckets holding the tag *)

Lemma haszero16_zero_test x : 0 <= x < 2 ^ 64 → haszero16 x = zero_test 4 x.
Proof.
  intros Hx. unfold haszero16, zero_test.
  assert (u64 (Z.lnot x) = 2 ^ (16 * Z.of_nat 4) - 1 - x) as ->; [|done].
  unfold u64. change (16 * Z.of_nat 4) with 64.
  replace (Z.lnot x) with (2 ^ 64 - 1 - x + (-1) * 2 ^ 64)
    by (pose proof (Z.add_lnot_diag x); lia).
  rewrite Z.mod_add, Z.mod_small; lia.
Qed.

Lemma lxor_unlanes l n :
  Forall lane_ok l → lane_ok n →
  Z.lxor (unlanes l) (unlanes (replicate (length l) n)) = unlanes ((λ t, Z.lxor t n) <$> l).
Proof.
  intros Hl Hn. induction Hl as [|t l Ht Hl IH]; [done|].
  cbn [length replicate unlanes]. rewrite fmap_cons. cbn [unlanes].
  rewrite lxor_digits, IH; [done|done|done|]. by apply lxor_lane.
Qed.

Lemma hasvalue16_spec w n :
  0 <= w < 2 ^ 64 → lane_ok n → hasvalue16 w n ≠ 0 ↔ n ∈ lanes w.
Proof.
  intros Hw Hn. unfold hasvalue16.
  assert (u64 (0x0001000100010001 * n) = unlanes (replicate 4 n)) as ->.
  { cbn [replicate unlanes]. unfold lane_ok, u64 in *. rewrite Z.mod_small by lia. lia. }
  rewrite <- (unlanes_lanes w Hw) at 1. change 4%nat with (length (lanes w)).
  rewrite lxor_unlanes by (done || apply lanes_ok).
  assert (Forall lane_ok ((λ t, Z.lxor t n) <$> lanes w)) as Hx.
  { apply Forall_fmap, (Forall_impl _ _ _ (lanes_ok w)). intros t Ht. by apply lxor_lane. }
  rewrite haszero16_zero_test.
  - change 4%nat with (length ((λ t, Z.lxor t n) <$> lanes w)).
    rewrite zero_test_spec by done. rewrite list_elem_of_fmap.
    split; [intros (t & Ht & ?)|intros; exists n; by rewrite Z.lxor_nilpotent].
    symmetry in Ht. apply Z.lxor_eq in Ht. by subst.
  - by apply unlanes_range in Hx.
Qed.
