(* ===== verification/WormholeCore.v ===== *)
(** The insertion algorithm common to the persistent-memory wormhole filter
    (pmwormholefilter.hpp) and to the LevelDB filter policy (wormhole.cc),
    over any store of tags, and the multiset of items a table of tags denotes.

    A tag is a 16-bit value: the upper 12 bits are a non-zero fingerprint, the
    lower 4 bits the distance (in buckets) of the slot from the bucket the key
    hashes to. *)
From stdpp Require Import gmultiset.
From S2P Require Import Prelude Swar.

Definition SLOT_PER_BUK : Z := 4.
Definition MAX_PROB : Z := 16.
Definition DIS_MASK : Z := 0x000F.
Definition FPT_MASK : Z := 0xFFF0.

(** ** Stores of tags *)

(** [ReadTag s i j] reads slot [j] of bucket [i]; [i] is reduced to a bucket
    number by the store.  Insertion writes through two operations: [MoveTag]
    when it relocates a tag, [PutTag] when it stores the new one. *)
Class TagStore (St : Type) := {
  ReadTag : St → Z → Z → Z;
  MoveTag : St → Z → Z → Z → St;
  PutTag : St → Z → Z → Z → St;
}.

Section insertion.
Context {St : Type} `{TagStore St}.

(** [for (cadi_tag_idx ...)]: the first slot of the bucket whose tag may
    move [prob] buckets further. *)
Fixpoint find_cadi (s : St) (cadi_buck_idx prob : Z) (idxs : list Z)
    : option (Z * Z) :=
  match idxs with
  | [] => None
  | cadi_tag_idx :: idxs =>
      let cadi_tag := ReadTag s cadi_buck_idx cadi_tag_idx in
      if Z.land cadi_tag DIS_MASK + prob <? MAX_PROB
      then Some (cadi_tag_idx, cadi_tag)
      else find_cadi s cadi_buck_idx prob idxs
  end.

(** [for (prob = MAX_PROB - 1; prob > 0; prob--)]: the farthest bucket
    behind [curr_buck_idx] with such a slot. *)
Fixpoint find_cadi_prob (s : St) (curr_buck_idx : Z) (probs : list Z)
    : option (Z * Z * Z) :=
  match probs with
  | [] => None
  | prob :: probs =>
      match find_cadi s (u32 (curr_buck_idx - prob)) prob [0; 1; 2; 3] with
      | Some (cadi_tag_idx, cadi_tag) => Some (prob, cadi_tag_idx, cadi_tag)
      | None => find_cadi_prob s curr_buck_idx probs
      end
  end.

Definition probs : list Z := [15; 14; 13; 12; 11; 10; 9; 8; 7; 6; 5; 4; 3; 2; 1].

(** [while (curr_buck_idx - init_buck_idx >= MAX_PROB)]: hop the free slot
    backwards.  The result is the store and the slot reached, or no slot when
    no tag can move ([return false]). *)
Fixpoint relocate (fuel : nat) (s : St) (init_buck_idx curr_buck_idx curr_tag_idx : Z)
    : option (St * option (Z * Z)) :=
  if u64 (curr_buck_idx - init_buck_idx) <? MAX_PROB
  then Some (s, Some (curr_buck_idx, curr_tag_idx))
  else match fuel with
       | O => None
       | S fuel =>
           match find_cadi_prob s curr_buck_idx probs with
           | None => Some (s, None)
           | Some (prob, cadi_tag_idx, cadi_tag) =>
               let s := MoveTag s curr_buck_idx curr_tag_idx
                          (Z.lor (Z.land cadi_tag FPT_MASK)
                                 (Z.land cadi_tag DIS_MASK + prob)) in
               relocate fuel s init_buck_idx (u32 (curr_buck_idx - prob)) cadi_tag_idx
           end
       end.

(** The first empty slot of a bucket. *)
Fixpoint find_empty (s : St) (curr_buck_idx : Z) (idxs : list Z) : option Z :=
  match idxs with
  | [] => None
  | curr_tag_idx :: idxs =>
      if ReadTag s curr_buck_idx curr_tag_idx =? 0 then Some curr_tag_idx
      else find_empty s curr_buck_idx idxs
  end.

(** The outer [for] over buckets.  [None] is a run that does not end within
    [fuel] buckets (the 32-bit index can wrap when there are more than 2^31
    buckets). *)
Fixpoint insert_loop (fuel : nat) (s : St) (num_buckets init_buck_idx tag curr_buck_idx : Z)
    : option (St * bool) :=
  match fuel with
  | O => None
  | S fuel =>
      if curr_buck_idx <? u64 (init_buck_idx + num_buckets)
      then match find_empty s curr_buck_idx [0; 1; 2; 3] with
           | Some curr_tag_idx =>
               match relocate (Z.to_nat (curr_buck_idx - init_buck_idx)) s
                       init_buck_idx curr_buck_idx curr_tag_idx with
               | None => None
               | Some (s, None) => Some (s, false)
               | Some (s, Some (curr_buck_idx, curr_tag_idx)) =>
                   Some (PutTag s curr_buck_idx curr_tag_idx
                           (Z.lor tag (u64 (curr_buck_idx - init_buck_idx))), true)
               end
           | None =>
               insert_loop fuel s num_buckets init_buck_idx tag (u32 (curr_buck_idx + 1))
           end
      else Some (s, false)
  end.

Definition insert_item (s : St) (num_buckets init_buck_idx tag : Z) : option (St * bool) :=
  insert_loop (S (Z.to_nat num_buckets)) s num_buckets init_buck_idx tag (u32 init_buck_idx).
End insertion.

(** ** What the search loops return *)

Section search_loops.
Context {St : Type} `{TagStore St}.

Lemma find_cadi_spec s b prob idxs j t :
  find_cadi s b prob idxs = Some (j, t) →
  j ∈ idxs ∧ t = ReadTag s b j ∧ Z.land t DIS_MASK + prob < MAX_PROB.
Proof.
  induction idxs as [|k idxs IH]; [done|]. cbn [find_cadi].
  destruct (Z.ltb_spec (Z.land (ReadTag s b k) DIS_MASK + prob) MAX_PROB).
  - intros [= <- <-]. split_and!; [by left|done|done].
  - intros (? & ? & ?)%IH. split_and!; [by right|done|done].
Qed.

Lemma find_cadi_prob_spec s curr ps prob j t :
  find_cadi_prob s curr ps = Some (prob, j, t) →
  prob ∈ ps ∧ 0 <= j < 4 ∧ t = ReadTag s (u32 (curr - prob)) j
  ∧ Z.land t DIS_MASK + prob < MAX_PROB.
Proof.
  induction ps as [|p ps IH]; [done|]. cbn [find_cadi_prob].
  destruct (find_cadi s (u32 (curr - p)) p [0; 1; 2; 3]) as [[k t']|] eqn:E.
  - intros [= <- <- <-]. apply find_cadi_spec in E as (Hk & -> & ?).
    split_and!; try done; [by left|set_unfold; lia..].
  - intros (? & ? & ? & ?)%IH. split_and!; try done; [by right|lia..].
Qed.

Lemma probs_range prob : prob ∈ probs → 1 <= prob <= 15.
Proof. unfold probs. set_unfold. lia. Qed.

Lemma find_empty_spec s b idxs j :
  find_empty s b idxs = Some j → j ∈ idxs ∧ ReadTag s b j = 0.
Proof.
  induction idxs as [|k idxs IH]; [done|]. cbn [find_empty].
  destruct (Z.eqb_spec (ReadTag s b k) 0).
  - intros [= <-]. split; [by left|done].
  - intros [? ?]%IH. split; [by right|done].
Qed.
End search_loops.

(** ** What a table of tags denotes *)

(** The item stored in slot [p] (bucket [p / 4]): the home bucket of the key
    and its fingerprint.  Slots without a fingerprint hold nothing. *)
Definition item : Type := Z * Z.

Definition item_at (nb p t : Z) : option item :=
  if Z.land t FPT_MASK =? 0 then None
  else Some ((p / 4 - Z.land t DIS_MASK) mod nb, Z.land t FPT_MASK).

Definition bag (o : option item) : gmultiset item :=
  match o with Some x => {[+ x +]} | None => ∅ end.

Fixpoint contents_from (nb p : Z) (l : list Z) : gmultiset item :=
  match l with
  | [] => ∅
  | t :: l => bag (item_at nb p t) ⊎ contents_from nb (p + 1) l
  end.

Definition contents (nb : Z) (l : list Z) : gmultiset item := contents_from nb 0 l.

(** The laws a store owes to insertion: it denotes a table of [4 * nb] tags,
    and its operations read and update that table. *)
Class TagStoreLaws (St : Type) `{TagStore St} (nb : Z) (inv : St → Prop) (tags : St → list Z) := {
  tags_length s : inv s → Z.of_nat (length (tags s)) = 4 * nb;
  tags_lane s : inv s → Forall lane_ok (tags s);
  ReadTag_tags s i j : inv s → 0 <= i < 2 ^ 32 → 0 <= j < 4 →
    tags s !! Z.to_nat (4 * (i mod nb) + j) = Some (ReadTag s i j);
  MoveTag_tags s i j t : inv s → 0 <= i < 2 ^ 32 → 0 <= j < 4 → lane_ok t →
    inv (MoveTag s i j t) ∧
    tags (MoveTag s i j t) = <[Z.to_nat (4 * (i mod nb) + j) := t]> (tags s);
  PutTag_tags s i j t : inv s → 0 <= i < 2 ^ 32 → 0 <= j < 4 → lane_ok t →
    inv (PutTag s i j t) ∧
    tags (PutTag s i j t) = <[Z.to_nat (4 * (i mod nb) + j) := t]> (tags s);
}.

(** ** Fields of a tag *)

Lemma DIS_mod t : Z.land t DIS_MASK = t mod 16.
Proof. apply (land_ones_mod t 4). lia. Qed.

Lemma FPT_sub t : lane_ok t → Z.land t FPT_MASK = t - t mod 16.
Proof.
  intros Ht. unfold lane_ok in Ht. rewrite <- DIS_mod.
  assert (Z.land (Z.land t FPT_MASK) (Z.land t DIS_MASK) = 0) as Hd.
  { rewrite (Z.land_comm t DIS_MASK), Z.land_assoc, <- (Z.land_assoc t).
    change (Z.land FPT_MASK DIS_MASK) with 0. by rewrite Z.land_0_r. }
  apply Z.add_nocarry_lor in Hd. rewrite <- Z.land_lor_distr_r in Hd.
  change (Z.lor FPT_MASK DIS_MASK) with (2 ^ 16 - 1) in Hd.
  rewrite land_ones_mod, Z.mod_small in Hd by lia. lia.
Qed.

(** A fingerprint field: what [tag_hash] produces and [FPT_MASK] extracts. *)
Definition fpt_ok (f : Z) : Prop := 0 <= f < 2 ^ 16 ∧ f mod 16 = 0.

Lemma lor_fpt f d : fpt_ok f → 0 <= d < 16 → Z.lor f d = f + d.
Proof.
  intros [Hf Hm] Hd. assert (f = (f / 16) ≪ 4) as ->.
  { rewrite Z.shiftl_mul_pow2 by lia. change (2 ^ 4) with 16. Z.div_mod_to_equations. lia. }
  rewrite Z.lor_comm, lor_shiftl_add, Z.shiftl_mul_pow2 by lia. lia.
Qed.

Lemma FPT_ok t : lane_ok t → fpt_ok (Z.land t FPT_MASK).
Proof.
  intros Ht. rewrite FPT_sub by done. unfold fpt_ok, lane_ok in *.
  Z.div_mod_to_equations. lia.
Qed.

Lemma fpt_add_lane f d : fpt_ok f → 0 <= d < 16 → lane_ok (f + d).
Proof. unfold fpt_ok, lane_ok. intros ? ?. Z.div_mod_to_equations. lia. Qed.

Lemma fpt_add_FPT f d : fpt_ok f → 0 <= d < 16 → Z.land (f + d) FPT_MASK = f.
Proof.
  intros Hf Hd. rewrite FPT_sub by (by apply fpt_add_lane). destruct Hf as [Hf Hm].
  rewrite <- Z.add_mod_idemp_l, Hm, Z.add_0_l, Z.mod_small; lia.
Qed.

Lemma fpt_add_DIS f d : fpt_ok f → 0 <= d < 16 → Z.land (f + d) DIS_MASK = d.
Proof.
  intros [Hf Hm] Hd. rewrite DIS_mod, <- Z.add_mod_idemp_l, Hm, Z.add_0_l, Z.mod_small; lia.
Qed.

(** ** Contents under update *)

Lemma contents_from_app nb p l1 l2 :
  contents_from nb p (l1 ++ l2)
  = contents_from nb p l1 ⊎ contents_from nb (p + Z.of_nat (length l1)) l2.
Proof.
  revert p; induction l1 as [|t l1 IH]; intros p; cbn [app contents_from length].
  - by rewrite gmultiset_disj_union_left_id, Z.add_0_r.
  - replace (p + Z.of_nat (S (length l1))) with (p + 1 + Z.of_nat (length l1)) by lia.
    by rewrite IH, gmultiset_disj_union_assoc.
Qed.

Lemma multiset_swap (A B C D : gmultiset item) : A ⊎ B = C ⊎ B ⊎ D → A = C ⊎ D.
Proof. multiset_solver. Qed.

Lemma multiset_remove (x : item) (M C : gmultiset item) :
  {[+ x +]} ⊎ M ⊆ C → M ⊆ C ∖ {[+ x +]}.
Proof. multiset_solver. Qed.

Lemma contents_insert nb l p t t' :
  l !! p = Some t →
  contents nb (<[p:=t']> l) ⊎ bag (item_at nb (Z.of_nat p) t)
  = contents nb l ⊎ bag (item_at nb (Z.of_nat p) t').
Proof.
  intros Hp. pose proof (lookup_lt_Some _ _ _ Hp) as Hlt.
  rewrite insert_take_drop by done. rewrite <- (take_drop_middle l p t Hp) at 3.
  unfold contents. rewrite !contents_from_app. cbn [contents_from].
  rewrite length_take, Nat.min_l, Z.add_0_l by lia. multiset_solver.
Qed.

Lemma contents_lookup nb l p t :
  l !! p = Some t → bag (item_at nb (Z.of_nat p) t) ⊆ contents nb l.
Proof.
  intros Hp. rewrite <- (take_drop_middle l p t Hp). unfold contents.
  pose proof (lookup_lt_Some _ _ _ Hp) as Hlt.
  rewrite contents_from_app. cbn [contents_from].
  rewrite length_take, Nat.min_l, Z.add_0_l by lia. multiset_solver.
Qed.

Lemma contents_from_elem nb p l x :
  x ∈ contents_from nb p l →
  ∃ k t, l !! k = Some t ∧ item_at nb (p + Z.of_nat k) t = Some x.
Proof.
  revert p; induction l as [|t l IH]; intros p; [multiset_solver|].
  cbn [contents_from]. rewrite gmultiset_elem_of_disj_union. intros [Hx|Hx].
  - exists 0%nat, t. split; [done|]. rewrite Z.add_0_r. destruct (item_at nb p t); multiset_solver.
  - apply IH in Hx as (k & t' & Hk & Hi). exists (S k), t'. split; [done|].
    by replace (p + Z.of_nat (S k)) with (p + 1 + Z.of_nat k) by lia.
Qed.

Lemma contents_elem nb l x :
  x ∈ contents nb l ↔ ∃ k t, l !! k = Some t ∧ item_at nb (Z.of_nat k) t = Some x.
Proof.
  split; [apply contents_from_elem|]. intros (k & t & Hk & Hi).
  apply (contents_lookup nb) in Hk. rewrite Hi in Hk. simpl in Hk. multiset_solver.
Qed.

(** A tag moved [d] buckets forward denotes the same item. *)
Lemma item_at_move nb b j t d b' j' :
  0 < nb → lane_ok t → 0 <= j < 4 → 0 <= j' < 4 → 0 <= d → Z.land t DIS_MASK + d < 16 →
  b' mod nb = (b + d) mod nb →
  item_at nb (4 * (b' mod nb) + j')
    (Z.lor (Z.land t FPT_MASK) (Z.land t DIS_MASK + d))
  = item_at nb (4 * (b mod nb) + j) t.
Proof.
  intros Hnb Ht Hj Hj' Hd Hlt Hb. pose proof (FPT_ok t Ht) as Hf.
  assert (0 <= Z.land t DIS_MASK) by (rewrite DIS_mod; apply Z.mod_pos_bound; lia).
  unfold item_at. rewrite lor_fpt, fpt_add_FPT, fpt_add_DIS by (done || lia).
  case_match; [done|]. do 2 f_equal.
  rewrite !(Z.mul_comm 4), !Z.div_add_l, !Z.div_small, !Z.add_0_r, Hb by lia.
  rewrite !Zminus_mod_idemp_l. f_equal. lia.
Qed.

Lemma item_at_put nb b j f d :
  0 < nb → fpt_ok f → 0 < f → 0 <= j < 4 → 0 <= d < 16 →
  item_at nb (4 * (b mod nb) + j) (Z.lor f d) = Some ((b - d) mod nb, f).
Proof.
  intros Hnb Hf Hpos Hj Hd. unfold item_at.
  rewrite lor_fpt, fpt_add_FPT, fpt_add_DIS by (done || lia).
  destruct (Z.eqb_spec f 0); [lia|]. do 2 f_equal.
  rewrite (Z.mul_comm 4), Z.div_add_l, Z.div_small, Z.add_0_r by lia.
  by rewrite Zminus_mod_idemp_l.
Qed.

(** ** Insertion, over any lawful store *)

Section insertion_correct.
Context {St : Type} `{TagStore St} {nb : Z} {inv : St → Prop} {tags : St → list Z}.
Context `{!TagStoreLaws St nb inv tags}.
Hypothesis Hnb : 0 < nb <= 2 ^ 31.

Definition slot_item (s : St) (i j : Z) : option item :=
  item_at nb (4 * (i mod nb) + j) (ReadTag s i j).

Lemma pos_of_nat i j : 0 <= j < 4 → Z.of_nat (Z.to_nat (4 * (i mod nb) + j)) = 4 * (i mod nb) + j.
Proof. intros Hj. pose proof (Z.mod_pos_bound i nb). lia. Qed.

Lemma ReadTag_lane s i j : inv s → 0 <= i < 2 ^ 32 → 0 <= j < 4 → lane_ok (ReadTag s i j).
Proof.
  intros Hs Hi Hj. pose proof (tags_lane s Hs) as Hl. rewrite Forall_lookup in Hl.
  eapply Hl, ReadTag_tags; eauto.
Qed.

(** Reading back after a write. *)
Lemma ReadTag_update s s' i j t i' j' :
  inv s → inv s' → 0 <= i < 2 ^ 32 → 0 <= j < 4 → 0 <= i' < 2 ^ 32 → 0 <= j' < 4 →
  tags s' = <[Z.to_nat (4 * (i mod nb) + j) := t]> (tags s) →
  i mod nb ≠ i' mod nb → ReadTag s' i' j' = ReadTag s i' j'.
Proof.
  intros Hs Hs' Hi Hj Hi' Hj' Ht Hne.
  pose proof (ReadTag_tags s' i' j' Hs' Hi' Hj') as H1.
  pose proof (ReadTag_tags s i' j' Hs Hi' Hj') as H2.
  rewrite Ht, list_lookup_insert_ne in H1; [congruence|].
  pose proof (Z.mod_pos_bound i nb). pose proof (Z.mod_pos_bound i' nb). lia.
Qed.

Lemma contents_update s s' i j t :
  inv s → 0 <= i < 2 ^ 32 → 0 <= j < 4 →
  tags s' = <[Z.to_nat (4 * (i mod nb) + j) := t]> (tags s) →
  contents nb (tags s') ⊎ bag (slot_item s i j)
  = contents nb (tags s) ⊎ bag (item_at nb (4 * (i mod nb) + j) t).
Proof.
  intros Hs Hi Hj ->. pose proof (ReadTag_tags s i j Hs Hi Hj) as Hr.
  apply (contents_insert nb _ _ _ t) in Hr. by rewrite pos_of_nat in Hr.
Qed.

(** The tag a hop writes is a copy, one bucket group further on, of the
    candidate's. *)
Lemma moved_tag s init curr slot prob j t :
  inv s → 0 <= init < nb → 16 <= curr - init → curr < init + nb → 0 <= slot < 4 →
  prob ∈ probs → 0 <= j < 4 → t = ReadTag s (u32 (curr - prob)) j →
  Z.land t DIS_MASK + prob < MAX_PROB →
  let t' := Z.lor (Z.land t FPT_MASK) (Z.land t DIS_MASK + prob) in
  lane_ok t' ∧ curr mod nb ≠ (curr - prob) mod nb ∧
  item_at nb (4 * (curr mod nb) + slot) t' = slot_item s (curr - prob) j.
Proof.
  intros Hs Hinit Hge Hlt Hslot Hprob%probs_range Hj Ht Hdis t'.
  rewrite u32_small in Ht by lia. unfold MAX_PROB in Hdis.
  assert (lane_ok t) as Hlane by (subst t; apply ReadTag_lane; [done|lia..]).
  assert (0 <= Z.land t DIS_MASK) as Hd0 by (rewrite DIS_mod; apply Z.mod_pos_bound; lia).
  split_and!.
  - unfold t'. rewrite lor_fpt by (by apply FPT_ok || lia).
    apply fpt_add_lane; [by apply FPT_ok|lia].
  - intros Heq. assert ((curr - (curr - prob)) mod nb = 0) as Hz.
    { rewrite Zminus_mod, Heq, Z.sub_diag. done. }
    replace (curr - (curr - prob)) with prob in Hz by lia.
    rewrite Z.mod_small in Hz by lia. lia.
  - unfold slot_item. rewrite <- Ht. apply item_at_move; try done; try lia.
    f_equal. lia.
Qed.

(** One hop of the free slot keeps the items, the free slot's own aside. *)
Lemma hop_spec s init curr slot prob j t C :
  inv s → 0 <= init < nb → 16 <= curr - init → curr < init + nb → 0 <= slot < 4 →
  contents nb (tags s) = C ⊎ bag (slot_item s curr slot) →
  prob ∈ probs → 0 <= j < 4 → t = ReadTag s (u32 (curr - prob)) j →
  Z.land t DIS_MASK + prob < MAX_PROB →
  let s' := MoveTag s curr slot
              (Z.lor (Z.land t FPT_MASK) (Z.land t DIS_MASK + prob)) in
  inv s' ∧ contents nb (tags s') = C ⊎ bag (slot_item s' (curr - prob) j)
  ∧ bag (slot_item s' (curr - prob) j) ⊆ C.
Proof.
  intros Hs Hinit Hge Hlt Hslot HC Hprob Hj Ht Hdis.
  destruct (moved_tag s init curr slot prob j t) as (Ht' & Hne & Hcopy); try done.
  set (t' := Z.lor _ _) in *. intros s'. apply probs_range in Hprob.
  assert (0 <= curr < 2 ^ 32) as Hcurr by lia.
  destruct (MoveTag_tags s curr slot t' Hs Hcurr Hslot Ht') as [Hs' Htags]. fold s' in Hs', Htags.
  assert (slot_item s' (curr - prob) j = slot_item s (curr - prob) j) as Hsame.
  { unfold slot_item. erewrite (ReadTag_update s s' curr slot t'); try done; lia. }
  pose proof (contents_update s s' curr slot t' Hs Hcurr Hslot Htags) as Hup.
  rewrite Hcopy, HC in Hup. split; [done|]. rewrite Hsame.
  split; [by apply multiset_swap in Hup|].
  (* the candidate is an item of the table without the free slot *)
  pose proof (contents_insert nb (tags s) _ _ 0 (ReadTag_tags s curr slot Hs Hcurr Hslot)) as Hzero.
  rewrite pos_of_nat, HC in Hzero by done.
  change (bag (item_at nb (4 * (curr mod nb) + slot) 0)) with (∅ : gmultiset item) in Hzero.
  rewrite gmultiset_disj_union_right_id in Hzero. apply (inj (.⊎ _)) in Hzero.
  rewrite <- Hzero. unfold slot_item. rewrite <- (pos_of_nat (curr - prob) j) by done.
  apply contents_lookup. rewrite list_lookup_insert_ne.
  - apply ReadTag_tags; [done|lia..].
  - pose proof (Z.mod_pos_bound curr nb). pose proof (Z.mod_pos_bound (curr - prob) nb). lia.
Qed.

Lemma relocate_spec fuel s init curr slot C :
  inv s → 0 <= init < nb → init <= curr < init + nb → 0 <= slot < 4 →
  curr - init <= Z.of_nat fuel + 15 →
  contents nb (tags s) = C ⊎ bag (slot_item s curr slot) →
  bag (slot_item s curr slot) ⊆ C →
  ∃ s' r, relocate fuel s init curr slot = Some (s', r) ∧ inv s' ∧
    ∃ c j, init <= c < init + nb ∧ 0 <= j < 4 ∧
      contents nb (tags s') = C ⊎ bag (slot_item s' c j) ∧
      bag (slot_item s' c j) ⊆ C ∧
      match r with Some cj => cj = (c, j) ∧ c - init < 16 | None => True end.
Proof.
  revert s curr slot; induction fuel as [|fuel IH];
    intros s curr slot Hs Hinit Hcurr Hslot Hfuel HC Hsub; cbn [relocate].
  all: rewrite u64_small by lia; destruct (Z.ltb_spec (curr - init) MAX_PROB) as [Hlt|Hge].
  - eexists s, _. split; [done|]. split; [done|]. exists curr, slot. unfold MAX_PROB in *. split_and!; try done; lia.
  - unfold MAX_PROB in Hge. lia.
  - eexists s, _. split; [done|]. split; [done|]. exists curr, slot. unfold MAX_PROB in *. split_and!; try done; lia.
  - unfold MAX_PROB in Hge.
    destruct (find_cadi_prob s curr probs) as [[[prob j] t]|] eqn:E.
    + apply find_cadi_prob_spec in E as (Hprob & Hj & Ht & Hdis).
      pose proof (probs_range _ Hprob).
      destruct (hop_spec s init curr slot prob j t C) as (Hs' & HC' & Hsub'); try done; [lia..|].
      rewrite u32_small by lia. apply IH; try done; lia.
    + eexists s, _. split; [done|]. split; [done|]. exists curr, slot. unfold MAX_PROB in *. split_and!; try done; lia.
Qed.

(** The outcome of an insertion of fingerprint [f] at home bucket [init]:
    on success the item is added and nothing else changes; on failure nothing
    is lost, and at most one item that was present is duplicated. *)
Definition insert_outcome (init f : Z) (C C' : gmultiset item) (ok : bool) : Prop :=
  if ok then C' = C ⊎ {[+ (init, f) +]}
  else ∃ X, C' = C ⊎ bag X ∧ bag X ⊆ C.

Lemma insert_loop_spec fuel s init f curr :
  inv s → 0 <= init < nb → fpt_ok f → 0 < f → init <= curr <= init + nb →
  init + nb - curr < Z.of_nat fuel →
  ∃ s' ok, insert_loop fuel s nb init f curr = Some (s', ok) ∧ inv s' ∧
    insert_outcome init f (contents nb (tags s)) (contents nb (tags s')) ok.
Proof.
  revert curr; induction fuel as [|fuel IH]; intros curr Hs Hinit Hf Hpos Hcurr Hfuel; [lia|].
  cbn [insert_loop]. rewrite u64_small by lia.
  destruct (Z.ltb_spec curr (init + nb)) as [Hlt|Hge].
  2:{ exists s, false. split_and!; [done..|]. exists None. split; multiset_solver. }
  destruct (find_empty s curr [0; 1; 2; 3]) as [slot|] eqn:E.
  2:{ rewrite u32_small by lia. apply IH; try done; lia. }
  apply find_empty_spec in E as [Hslot Hzero].
  assert (0 <= slot < 4) as Hslot' by (set_unfold; lia).
  assert (slot_item s curr slot = None) as Hnone.
  { unfold slot_item. by rewrite Hzero. }
  destruct (relocate_spec (Z.to_nat (curr - init)) s init curr slot (contents nb (tags s)))
    as (s' & r & -> & Hs' & c & j & Hc & Hj & HC & Hsub & Hr); try done; try lia.
  { rewrite Hnone. multiset_solver. }
  { rewrite Hnone. multiset_solver. }
  destruct r as [[c' j']|].
  - destruct Hr as [[= -> ->] Hd]. rewrite u64_small by lia.
    assert (0 <= c < 2 ^ 32) as Hc' by lia.
    destruct (PutTag_tags s' c j (Z.lor f (c - init)) Hs' Hc' Hj) as [Hs'' Ht].
    { rewrite lor_fpt by (done || lia). apply fpt_add_lane; [done|lia]. }
    eexists _, true. split_and!; [done..|]. unfold insert_outcome.
    pose proof (contents_update s' _ c j _ Hs' Hc' Hj Ht) as Hup.
    rewrite item_at_put, HC in Hup by (done || lia).
    replace (c - (c - init)) with init in Hup by lia.
    rewrite (Z.mod_small init) in Hup by lia. simpl in Hup. multiset_solver.
  - eexists _, false. split_and!; [done..|]. exists (slot_item s' c j). done.
Qed.

Lemma insert_item_spec s init f :
  inv s → 0 <= init < nb → fpt_ok f → 0 < f →
  ∃ s' ok, insert_item s nb init f = Some (s', ok) ∧ inv s' ∧
    insert_outcome init f (contents nb (tags s)) (contents nb (tags s')) ok.
Proof.
  intros Hs Hinit Hf Hpos. unfold insert_item. rewrite u32_small by lia.
  apply insert_loop_spec; try done; lia.
Qed.
End insertion_correct.

(** ** Lookup: the sixteen probes *)

(** [for (prob = 0; prob < MAX_PROB; prob++)]. *)
Definition probe_seq : list Z := [0; 1; 2; 3; 4; 5; 6; 7; 8; 9; 10; 11; 12; 13; 14; 15].

Lemma probe_seq_range : Forall (λ d, 0 <= d < 16) probe_seq.
Proof. unfold probe_seq. repeat constructor; lia. Qed.

Lemma elem_of_probe_seq d : d ∈ probe_seq ↔ 0 <= d < 16.
Proof. unfold probe_seq. set_unfold. lia. Qed.

(** An item is in the table exactly when one of the sixteen buckets from its
    home on holds its fingerprint with the matching distance. *)
Lemma contents_probe nb l h f :
  0 < nb → Z.of_nat (length l) = 4 * nb → Forall lane_ok l →
  0 <= h < nb → fpt_ok f → 0 < f →
  (h, f) ∈ contents nb l ↔
  ∃ d j, 0 <= d < 16 ∧ 0 <= j < 4 ∧ l !! Z.to_nat (4 * ((h + d) mod nb) + j) = Some (Z.lor f d).
Proof.
  intros Hnb Hlen Hl Hh Hf Hpos. rewrite contents_elem. split.
  - intros (k & t & Hk & Hi). pose proof (lookup_lt_Some _ _ _ Hk) as Hlt.
    rewrite Forall_lookup in Hl. specialize (Hl _ _ Hk). unfold item_at in Hi.
    case_match; [done|]. injection Hi as Hh' Hf'.
    pose proof (Z.mod_pos_bound t 16 ltac:(lia)). rewrite DIS_mod in Hh'.
    exists (t mod 16), (Z.of_nat k mod 4).
    split_and!; try lia; try (apply Z.mod_pos_bound; lia).
    assert ((h + t mod 16) mod nb = Z.of_nat k / 4) as ->.
    { rewrite <- Hh', Zplus_mod_idemp_l, Z.sub_add. apply Z.mod_small.
      split; [apply Z.div_pos; lia|]. apply Z.div_lt_upper_bound; lia. }
    rewrite <- Z.div_mod, Nat2Z.id, Hk by lia. f_equal.
    rewrite <- Hf', lor_fpt, FPT_sub by (by apply FPT_ok || lia || done). lia.
  - intros (d & j & Hd & Hj & Hk). eexists _, _. split; [exact Hk|].
    pose proof (Z.mod_pos_bound (h + d) nb).
    rewrite Z2Nat.id, item_at_put by (done || lia).
    by rewrite Z.add_simpl_r, Z.mod_small.
Qed.
