(* ===== verification/Double.v ===== *)
(** IEEE-754 binary64, as far as the filters use it to size their tables. *)
From Stdlib Require Import Floats.SpecFloat.
From S2P Require Import Prelude.

Definition double : Type := spec_float.

Definition double_of_Z (z : Z) : double := binary_normalize 53 1024 z 0 false.
Definition double_div (a b : double) : double := SFdiv 53 1024 a b.
Definition double_mul (a b : double) : double := SFmul 53 1024 a b.
Definition double_ltb (a b : double) : bool := SFltb a b.

(** Conversion to an integer type truncates toward zero. *)
Definition double_trunc (a : double) : Z :=
  match a with
  | S754_finite s m e =>
      let v := if 0 <=? e then Z.pos m ≪ e else Z.pos m ≫ (- e) in
      if s then - v else v
  | _ => 0
  end.

(** The literal 0.8: 0x1.999999999999ap-1. *)
Definition double_0_8 : double := S754_finite false 7205759403792794 (-53).
(** The literal 0.69: 0x1.6147ae147ae14p-1. *)
Definition double_0_69 : double := S754_finite false 6214967485771284 (-53).
