(* ===== verification/PmWormhole.v ===== *)
(** The persistent-memory wormhole filter (src/pm_wf/pmwormholefilter.hpp).

    The pool's root object is an [option]: [None] is [TOID_NULL].  A filter is
    its bucket words together with the trace of its writes to persistent
    memory, newest first, which [PmCrash] interprets.  An API call answers
    [None] where the C++ has no defined behaviour (a null root, a table of zero
    buckets) or does not return. *)
From stdpp Require Import gmultiset.
From S2P Require Import Prelude Swar WormholeCore Double.

(** ** Hashing *)

Record PMWF_TwoIndependentMultiplyShift := { multiply_ : Z; add_ : Z }.

(** The constructor draws five 32-bit words per field from
    [std::random_device]; [random n] is the [n]-th draw. *)
Fixpoint draw128 (random : nat → Z) (first : nat) (n : nat) (v : Z) : Z :=
  match n with
  | O => v
  | S n => draw128 random (S first) n (Z.lor ((v ≪ 32) mod 2 ^ 128) (random first))
  end.

Definition PMWF_TwoIndependentMultiplyShift_new (random : nat → Z)
    : PMWF_TwoIndependentMultiplyShift :=
  {| multiply_ := draw128 random 1 4 (random 0%nat);
     add_ := draw128 random 6 4 (random 5%nat) |}.

(** [operator()]: the identity on the key. *)
Definition hasher_apply (h : PMWF_TwoIndependentMultiplyShift) (key : Z) : Z := key.

Definition index_hash (hv num_buckets_ : Z) : Z := hv mod num_buckets_.

Definition tag_hash (hv : Z) : Z :=
  let tag := Z.land hv ((1 ≪ 12) - 1) in
  let tag := tag + (if tag =? 0 then 1 else 0) in
  u32 (tag ≪ 4).

(** ** The filter object *)

Inductive pm_event := Store (bucket : nat) (word : Z) | Persist (bucket : nat).

Record pmwormholefilter := {
  num_buckets_ : Z;
  hasher_ : PMWF_TwoIndependentMultiplyShift;
  buckets_ : list Z;
  trace : list pm_event;
}.

(** [((uint16_t* )(&buckets_[i_m]))[j] = t]. *)
Definition store_tag (f : pmwormholefilter) (i_m j t : Z) : pmwormholefilter :=
  let b := Z.to_nat i_m in
  let w := unlanes (<[Z.to_nat j := u16 t]> (lanes (buckets_ f !!! b))) in
  {| num_buckets_ := num_buckets_ f; hasher_ := hasher_ f;
     buckets_ := <[b := w]> (buckets_ f); trace := Store b w :: trace f |}.

(** [pmemobj_persist(pop, &buckets_[i_m], sizeof(uint64_t))]. *)
Definition persist_bucket (f : pmwormholefilter) (i_m : Z) : pmwormholefilter :=
  {| num_buckets_ := num_buckets_ f; hasher_ := hasher_ f;
     buckets_ := buckets_ f; trace := Persist (Z.to_nat i_m) :: trace f |}.

Definition PM_ReadTag (f : pmwormholefilter) (i j : Z) : Z :=
  let i_m := i mod num_buckets_ f in
  lanes (buckets_ f !!! Z.to_nat i_m) !!! Z.to_nat j.

Definition PM_WriteTag (f : pmwormholefilter) (i j t : Z) : pmwormholefilter :=
  let i_m := i mod num_buckets_ f in
  store_tag f i_m j t.

Definition PMWriteTag (f : pmwormholefilter) (i j t : Z) : pmwormholefilter :=
  let i_m := i mod num_buckets_ f in
  persist_bucket (store_tag f i_m j t) i_m.

#[export] Instance pm_store : TagStore pmwormholefilter := {|
  ReadTag := PM_ReadTag;
  MoveTag := PMWriteTag;
  PutTag := PM_WriteTag;
|}.

(** ** The API *)

Definition pmwormholefilter_root : Type := option pmwormholefilter.

Definition num_buckets_for (max_num_keys : Z) : Z :=
  double_trunc (double_div (double_of_Z (max_num_keys / SLOT_PER_BUK)) double_0_8).

Section pm_api.
(** [TX_ZALLOC] inside a transaction: the words of a fresh object, or [None]
    when the allocation aborts the transaction. *)
Context (tx_zalloc : nat → option (list Z)) (random : nat → Z).

Definition pmwormholefilter_init (root : pmwormholefilter_root) (max_num_keys : Z)
    : pmwormholefilter_root :=
  match tx_zalloc (Z.to_nat (num_buckets_for max_num_keys)) with
  | None => root
  | Some words =>
      Some {| num_buckets_ := num_buckets_for max_num_keys;
              hasher_ := PMWF_TwoIndependentMultiplyShift_new random;
              buckets_ := words; trace := [] |}
  end.
End pm_api.

Definition pmwormholefilter_destroy (root : pmwormholefilter_root) : pmwormholefilter_root :=
  None.

(** The home bucket and the fingerprint of a key. *)
Definition key_index (f : pmwormholefilter) (key_ : Z) : Z :=
  index_hash (u32 (hasher_apply (hasher_ f) key_)) (num_buckets_ f).
Definition key_tag (f : pmwormholefilter) (key_ : Z) : Z :=
  tag_hash (u32 (hasher_apply (hasher_ f) key_ ≫ 32)).

Definition pmwormholefilter_insert (root : pmwormholefilter_root) (key_ : Z)
    : option (pmwormholefilter_root * bool) :=
  f ← root;
  if num_buckets_ f =? 0 then None
  else '(f', ok) ← insert_item f (num_buckets_ f) (key_index f key_) (key_tag f key_);
       Some (Some f', ok).

(** [for (prob = 0; prob < MAX_PROB; prob++)] of the lookup. *)
Fixpoint lookup_loop (f : pmwormholefilter) (init_buck_idx tag : Z) (ps : list Z) : bool :=
  match ps with
  | [] => false
  | prob :: ps =>
      let curr_buck_idx_mod := u32 (u64 (init_buck_idx + prob) mod num_buckets_ f) in
      if negb (hasvalue16 (buckets_ f !!! Z.to_nat curr_buck_idx_mod) (Z.lor tag prob) =? 0)
      then true
      else lookup_loop f init_buck_idx tag ps
  end.

Definition pmwormholefilter_lookup (root : pmwormholefilter_root) (key_ : Z) : option bool :=
  f ← root;
  if num_buckets_ f =? 0 then None
  else Some (lookup_loop f (key_index f key_) (key_tag f key_) probe_seq).

(** The inner slot loop of the deletion, then the probe loop. *)
Fixpoint find_tag (f : pmwormholefilter) (i v : Z) (idxs : list Z) : option Z :=
  match idxs with
  | [] => None
  | curr_tag_idx :: idxs =>
      if PM_ReadTag f i curr_tag_idx =? v then Some curr_tag_idx else find_tag f i v idxs
  end.

Fixpoint delete_loop (f : pmwormholefilter) (init_buck_idx tag : Z) (ps : list Z)
    : pmwormholefilter * bool :=
  match ps with
  | [] => (f, false)
  | prob :: ps =>
      let i := u32 (u64 (init_buck_idx + prob)) in
      match find_tag f i (Z.lor tag prob) [0; 1; 2; 3] with
      | Some curr_tag_idx => (PM_WriteTag f i curr_tag_idx 0, true)
      | None => delete_loop f init_buck_idx tag ps
      end
  end.

Definition pmwormholefilter_delete (root : pmwormholefilter_root) (key_ : Z)
    : option (pmwormholefilter_root * bool) :=
  f ← root;
  if num_buckets_ f =? 0 then None
  else let '(f', ok) := delete_loop f (key_index f key_) (key_tag f key_) probe_seq in
       Some (Some f', ok).

(** The result is an [int]: 8 bytes per bucket, wrapped to 32 bits. *)
Definition s32 (z : Z) : Z := (z + 2 ^ 31) mod 2 ^ 32 - 2 ^ 31.
Definition pmwormholefilter_bytes (root : pmwormholefilter_root) : option Z :=
  f ← root; Some (s32 (8 * num_buckets_ f)).

(** What [pmwormholefilter_info] prints: the hashes of 1 and 2. *)
Definition pmwormholefilter_info (root : pmwormholefilter_root) : option (Z * Z) :=
  f ← root; Some (hasher_apply (hasher_ f) 1, hasher_apply (hasher_ f) 2).

(** ** The store laws *)

Definition word_ok (w : Z) : Prop := 0 <= w < 2 ^ 64.

(** The type invariant: as many buckets as recorded, each a 64-bit word. *)
Definition pm_inv (nb : Z) (f : pmwormholefilter) : Prop :=
  num_buckets_ f = nb ∧ Z.of_nat (length (buckets_ f)) = nb ∧ Forall word_ok (buckets_ f).

Definition pm_tags (f : pmwormholefilter) : list Z := buckets_ f ≫= lanes.

Lemma rows_lane_ok l : Forall lane_ok (l ≫= lanes).
Proof.
  induction l as [|w l IH]; cbn [mbind list_bind]; [done|].
  apply Forall_app. split; [apply lanes_ok|apply IH].
Qed.

Lemma lanes_write w j t :
  lane_ok t → lanes (unlanes (<[j := u16 t]> (lanes w))) = <[j := t]> (lanes w).
Proof.
  intros Ht. unfold u16. rewrite Z.mod_small by exact Ht.
  apply lanes_unlanes; [|by rewrite length_insert].
  apply Forall_insert; [apply lanes_ok|done].
Qed.

Lemma word_ok_write w j t : lane_ok t → word_ok (unlanes (<[j := u16 t]> (lanes w))).
Proof.
  intros Ht. unfold u16. rewrite Z.mod_small by exact Ht.
  pose proof (unlanes_range (<[j := t]> (lanes w))) as Hr. rewrite length_insert in Hr.
  apply Hr, Forall_insert; [apply lanes_ok|done].
Qed.

Lemma pm_bucket_lookup nb f i :
  0 < nb → pm_inv nb f →
  buckets_ f !! Z.to_nat (i mod nb) = Some (buckets_ f !!! Z.to_nat (i mod nb)).
Proof.
  intros Hnb (Hn & Hlen & Hw). pose proof (Z.mod_pos_bound i nb Hnb).
  apply list_lookup_lookup_total_lt. lia.
Qed.

Lemma pos_split nb i j :
  0 < nb → 0 <= j < 4 →
  Z.to_nat (4 * (i mod nb) + j) = (4 * Z.to_nat (i mod nb) + Z.to_nat j)%nat.
Proof. intros Hnb Hj. pose proof (Z.mod_pos_bound i nb Hnb). lia. Qed.

Lemma PM_ReadTag_tags nb f i j :
  0 < nb → pm_inv nb f → 0 <= j < 4 →
  pm_tags f !! Z.to_nat (4 * (i mod nb) + j) = Some (PM_ReadTag f i j).
Proof.
  intros Hnb Hf Hj. rewrite pos_split by done. unfold pm_tags.
  rewrite (lookup_rows _ 4) by (done || lia).
  rewrite (pm_bucket_lookup nb) by done. cbn [mbind option_bind].
  unfold PM_ReadTag. destruct Hf as (-> & _ & _).
  apply list_lookup_lookup_total_lt. rewrite length_lanes. lia.
Qed.

Lemma store_tag_tags nb f i j t :
  0 < nb → pm_inv nb f → 0 <= j < 4 → lane_ok t →
  pm_inv nb (store_tag f (i mod nb) j t) ∧
  pm_tags (store_tag f (i mod nb) j t) = <[Z.to_nat (4 * (i mod nb) + j) := t]> (pm_tags f).
Proof.
  intros Hnb Hf Hj Ht. pose proof (pm_bucket_lookup nb f i Hnb Hf) as Hb. split.
  - destruct Hf as (Hn & Hlen & Hw). split_and!; simpl; [done|by rewrite length_insert|].
    apply Forall_insert; [done|by apply word_ok_write].
  - rewrite pos_split by done. unfold pm_tags. simpl.
    apply (insert_rows _ 4 length_lanes _ _ _ _ _ _ Hb); [lia|by apply lanes_write].
Qed.

Lemma pm_store_laws nb : 0 < nb → TagStoreLaws pmwormholefilter nb (pm_inv nb) pm_tags.
Proof.
  intros Hnb. split.
  - intros f (Hn & Hlen & Hw). unfold pm_tags. rewrite (length_rows _ 4) by done. lia.
  - intros f _. apply rows_lane_ok.
  - intros f i j Hf _ Hj. by apply PM_ReadTag_tags.
  - intros f i j t Hf _ Hj Ht. cbn. unfold PMWriteTag.
    destruct Hf as (Hn & Hrest). rewrite Hn. by apply store_tag_tags.
  - intros f i j t Hf _ Hj Ht. cbn. unfold PM_WriteTag.
    destruct Hf as (Hn & Hrest). rewrite Hn. by apply store_tag_tags.
Qed.

(** ** Hashing *)

Lemma tag_hash_ok hv : fpt_ok (tag_hash hv) ∧ 0 < tag_hash hv.
Proof.
  unfold tag_hash. change ((1 ≪ 12) - 1) with (2 ^ 12 - 1). rewrite land_ones_mod by lia.
  pose proof (Z.mod_pos_bound hv (2 ^ 12) ltac:(lia)).
  set (t := hv mod 2 ^ 12 + _). assert (1 <= t < 2 ^ 12).
  { unfold t. case_match eqn:E; [apply Z.eqb_eq in E|apply Z.eqb_neq in E]; lia. }
  rewrite Z.shiftl_mul_pow2, u32_small by lia. change (2 ^ 4) with 16. unfold fpt_ok.
  split_and!; try lia. by apply Z.mod_mul.
Qed.

Lemma key_index_range nb f k : 0 < nb → pm_inv nb f → 0 <= key_index f k < nb.
Proof. intros Hnb (Hn & _). unfold key_index, index_hash. rewrite Hn. apply Z.mod_pos_bound. lia. Qed.

Lemma key_tag_ok f k : fpt_ok (key_tag f k) ∧ 0 < key_tag f k.
Proof. apply tag_hash_ok. Qed.

(** The item a key stands for; it does not depend on the filter's contents. *)
Definition key_item (nb k : Z) : item := (index_hash (u32 k) nb, tag_hash (u32 (k ≫ 32))).

Definition pm_contents (nb : Z) (f : pmwormholefilter) : gmultiset item :=
  contents nb (pm_tags f).

Lemma key_item_eq nb f k : pm_inv nb f → key_item nb k = (key_index f k, key_tag f k).
Proof. intros (Hn & _). unfold key_item, key_index. by rewrite Hn. Qed.

(** ** The operations, on every branch *)

Section pm_operations.
Context (nb : Z) (Hnb : 0 < nb <= 2 ^ 31).

Lemma pm_insert_spec f k :
  pm_inv nb f →
  ∃ f' ok, pmwormholefilter_insert (Some f) k = Some (Some f', ok) ∧ pm_inv nb f' ∧
    insert_outcome (key_index f k) (key_tag f k) (pm_contents nb f) (pm_contents nb f') ok.
Proof.
  intros Hf. pose proof (pm_store_laws nb ltac:(lia)) as Hlaws.
  destruct (key_tag_ok f k) as [Ht Hpos].
  destruct (insert_item_spec Hnb f (key_index f k) (key_tag f k)) as (f' & ok & Heq & Hf' & Hout);
    try done; [by apply key_index_range; [lia|]|].
  exists f', ok. split_and!; try done. unfold pmwormholefilter_insert. cbn [mbind option_bind].
  destruct Hf as (Hn & _). rewrite Hn in *. destruct (Z.eqb_spec nb 0); [lia|].
  rewrite Heq. done.
Qed.

Lemma bucket_lanes_tags f b :
  pm_inv nb f → 0 <= b < nb →
  ∀ v, v ∈ lanes (buckets_ f !!! Z.to_nat b) ↔
    ∃ j, 0 <= j < 4 ∧ pm_tags f !! Z.to_nat (4 * b + j) = Some v.
Proof.
  intros Hf Hb v. rewrite list_elem_of_lookup.
  assert (∀ j, 0 <= j < 4 → pm_tags f !! Z.to_nat (4 * b + j)
               = lanes (buckets_ f !!! Z.to_nat b) !! Z.to_nat j) as Hj.
  { intros j Hj. rewrite <- (Z.mod_small b nb) at 1 by lia. rewrite pos_split by lia.
    rewrite (Z.mod_small b nb) by lia. unfold pm_tags.
    rewrite (lookup_rows _ 4) by (done || lia).
    rewrite list_lookup_lookup_total_lt; [done|]. destruct Hf as (_ & Hlen & _). lia. }
  split.
  - intros [j Hv]. pose proof (lookup_lt_Some _ _ _ Hv) as Hlt. rewrite length_lanes in Hlt.
    exists (Z.of_nat j). split; [lia|]. rewrite Hj by lia. by rewrite Nat2Z.id.
  - intros (j & Hr & Hv). exists (Z.to_nat j). by rewrite <- Hj.
Qed.

Lemma lookup_loop_spec f h t ps :
  pm_inv nb f → 0 <= h < nb → fpt_ok t → Forall (λ d, 0 <= d < 16) ps →
  lookup_loop f h t ps = true ↔
  ∃ d j, d ∈ ps ∧ 0 <= j < 4 ∧
    pm_tags f !! Z.to_nat (4 * ((h + d) mod nb) + j) = Some (Z.lor t d).
Proof.
  intros Hf Hh Ht. induction 1 as [|d ps Hd Hps IH]; cbn [lookup_loop].
  { split; [done|]. intros (d & _ & ?%elem_of_nil & _). done. }
  pose proof (Z.mod_pos_bound (h + d) nb ltac:(lia)) as Hb.
  pose proof Hf as (Hn & Hlen & Hw). rewrite Hn, u64_small, u32_small by lia.
  assert (word_ok (buckets_ f !!! Z.to_nat ((h + d) mod nb))) as Hwd.
  { rewrite Forall_lookup in Hw. apply (Hw (Z.to_nat ((h + d) mod nb))).
    apply list_lookup_lookup_total_lt. lia. }
  assert (lane_ok (Z.lor t d)) as Hl.
  { rewrite lor_fpt by done. by apply fpt_add_lane. }
  pose proof (hasvalue16_spec _ _ Hwd Hl) as Hhv.
  rewrite (bucket_lanes_tags f _ Hf Hb) in Hhv.
  setoid_rewrite elem_of_cons.
  destruct (Z.eqb_spec (hasvalue16 (buckets_ f !!! Z.to_nat ((h + d) mod nb)) (Z.lor t d)) 0)
    as [Hz|Hz]; cbn [negb].
  - rewrite IH. split; [naive_solver|]. intros (d' & j & [->|Hd'] & Hj & Hv); [|naive_solver].
    destruct Hhv as [_ Hhv]. exfalso. apply Hhv; [|done]. eauto.
  - split; [|done]. intros _. apply Hhv in Hz as (j & ? & ?). exists d, j. eauto.
Qed.

Lemma pm_contents_probe f k :
  pm_inv nb f →
  key_item nb k ∈ pm_contents nb f ↔
  ∃ d j, d ∈ probe_seq ∧ 0 <= j < 4 ∧
    pm_tags f !! Z.to_nat (4 * ((key_index f k + d) mod nb) + j) = Some (Z.lor (key_tag f k) d).
Proof.
  intros Hf. rewrite (key_item_eq nb f) by done. destruct (key_tag_ok f k) as [Ht Hpos].
  pose proof (pm_store_laws nb ltac:(lia)) as Hlaws. unfold pm_contents.
  rewrite contents_probe; try done; try lia.
  - by setoid_rewrite elem_of_probe_seq.
  - by apply (tags_length f).
  - by apply (tags_lane f).
  - apply key_index_range; [lia|done].
Qed.

Lemma pm_lookup_spec f k :
  pm_inv nb f →
  pmwormholefilter_lookup (Some f) k
  = Some (bool_decide (key_item nb k ∈ pm_contents nb f)).
Proof.
  intros Hf. unfold pmwormholefilter_lookup. cbn [mbind option_bind].
  destruct (key_tag_ok f k) as [Ht _]. pose proof (key_index_range nb f k ltac:(lia) Hf) as Hi.
  destruct (Z.eqb_spec (num_buckets_ f) 0); [destruct Hf as (Hn & _); lia|]. f_equal.
  apply eq_true_iff_eq. rewrite bool_decide_eq_true, pm_contents_probe by done.
  apply lookup_loop_spec; [done..|apply probe_seq_range].
Qed.

Lemma find_tag_spec f i v idxs :
  match find_tag f i v idxs with
  | Some j => j ∈ idxs ∧ PM_ReadTag f i j = v
  | None => ∀ j, j ∈ idxs → PM_ReadTag f i j ≠ v
  end.
Proof.
  induction idxs as [|k idxs IH]; cbn [find_tag]; [by intros j ?%elem_of_nil|].
  destruct (Z.eqb_spec (PM_ReadTag f i k) v) as [Hv|Hv]; [split; [by left|done]|].
  destruct (find_tag f i v idxs) as [j|]; [destruct IH; split; [by right|done]|].
  intros j [->|Hj]%elem_of_cons; auto.
Qed.

Lemma delete_loop_spec f h t ps :
  pm_inv nb f → 0 <= h < nb → fpt_ok t → 0 < t → Forall (λ d, 0 <= d < 16) ps →
  let '(f', ok) := delete_loop f h t ps in
  pm_inv nb f' ∧
  if ok then pm_contents nb f = pm_contents nb f' ⊎ {[+ (h, t) +]}
  else f' = f ∧ ∀ d j, d ∈ ps → 0 <= j < 4 →
         pm_tags f !! Z.to_nat (4 * ((h + d) mod nb) + j) ≠ Some (Z.lor t d).
Proof.
  intros Hf Hh Ht Hpos. induction 1 as [|d ps Hd Hps IH]; cbn [delete_loop].
  { split_and!; [done..|]. by intros d j ?%elem_of_nil. }
  rewrite u64_small, u32_small by lia.
  pose proof (find_tag_spec f (h + d) (Z.lor t d) [0; 1; 2; 3]) as Hfind.
  pose proof (pm_store_laws nb ltac:(lia)) as Hlaws.
  destruct (find_tag f (h + d) (Z.lor t d) [0; 1; 2; 3]) as [j|].
  - destruct Hfind as [Hj Hr]. assert (0 <= j < 4) as Hj' by (set_unfold; lia).
    assert (0 <= h + d < 2 ^ 32) as Hi by lia.
    destruct (PutTag_tags f (h + d) j 0 Hf Hi Hj') as [Hf' Htags]; [by unfold lane_ok|].
    split; [done|]. pose proof (contents_update Hnb f _ (h + d) j 0 Hf Hi Hj' Htags) as Hup.
    unfold slot_item in Hup. cbn [ReadTag pm_store] in Hup. rewrite Hr in Hup.
    rewrite item_at_put in Hup by (done || lia).
    rewrite Z.add_simpl_r, Z.mod_small in Hup by done. unfold pm_contents.
    change (bag (item_at nb (4 * ((h + d) mod nb) + j) 0)) with (∅ : gmultiset item) in Hup.
    rewrite gmultiset_disj_union_right_id in Hup. by symmetry.
  - destruct (delete_loop f h t ps) as [f' ok]. destruct IH as [Hf' IH]. split; [done|].
    destruct ok; [done|]. destruct IH as [-> IH]. split; [done|].
    intros d' j [->|Hd']%elem_of_cons Hj; [|by apply IH].
    rewrite PM_ReadTag_tags by (done || lia). intros [= Hv].
    eapply Hfind; [|exact Hv]. set_unfold. lia.
Qed.

Lemma pm_delete_spec f k :
  pm_inv nb f →
  ∃ f', pmwormholefilter_delete (Some f) k
        = Some (Some f', bool_decide (key_item nb k ∈ pm_contents nb f)) ∧ pm_inv nb f' ∧
    pm_contents nb f' = pm_contents nb f ∖ {[+ key_item nb k +]}.
Proof.
  intros Hf. unfold pmwormholefilter_delete. cbn [mbind option_bind].
  destruct (key_tag_ok f k) as [Ht Hpos].
  pose proof (key_index_range nb f k ltac:(lia) Hf) as Hi.
  destruct (Z.eqb_spec (num_buckets_ f) 0); [destruct Hf as (Hn & _); lia|].
  pose proof (delete_loop_spec f _ _ _ Hf Hi Ht Hpos probe_seq_range) as Hspec.
  pose proof (pm_contents_probe f k Hf) as Hprobe.
  rewrite (key_item_eq nb f) in * by done.
  destruct (delete_loop f _ _ probe_seq) as [f' ok]. destruct Hspec as [Hf' Hspec].
  exists f'. split_and!; [|done|].
  - do 2 f_equal. symmetry. destruct ok.
    + apply bool_decide_eq_true. rewrite Hspec. multiset_solver.
    + apply bool_decide_eq_false. rewrite Hprobe. destruct Hspec as [_ Hno]. naive_solver.
  - destruct ok; [rewrite Hspec; multiset_solver|]. destruct Hspec as [-> Hno].
    assert ((key_index f k, key_tag f k) ∉ pm_contents nb f); [|multiset_solver].
    rewrite Hprobe. naive_solver.
Qed.
End pm_operations.

(** ** Runs of the filter *)

(** The keys a client may rely on: those inserted successfully and not deleted
    since.  The filter cannot tell keys with the same home bucket and fingerprint
    apart: when a client deletes a key it does not rely on, it can no longer rely on
    the keys that share them. *)
Inductive pm_run (tx_zalloc : nat → option (list Z)) (random : nat → Z) (max_num_keys : Z)
    : pmwormholefilter_root → gmultiset Z → Prop :=
| run_init :
    pm_run tx_zalloc random max_num_keys
      (pmwormholefilter_init tx_zalloc random None max_num_keys) ∅
| run_insert root live k root' ok :
    pm_run tx_zalloc random max_num_keys root live →
    pmwormholefilter_insert root k = Some (root', ok) →
    pm_run tx_zalloc random max_num_keys root' (if ok then live ⊎ {[+ k +]} else live)
| run_delete root live k root' ok :
    pm_run tx_zalloc random max_num_keys root live → k ∈ live →
    pmwormholefilter_delete root k = Some (root', ok) →
    pm_run tx_zalloc random max_num_keys root' (live ∖ {[+ k +]})
| run_delete_other root live live' k root' ok :
    pm_run tx_zalloc random max_num_keys root live → live' ⊆ live →
    (∀ k', k' ∈ live' → key_item (num_buckets_for max_num_keys) k' ≠ key_item (num_buckets_for max_num_keys) k) →
    pmwormholefilter_delete root k = Some (root', ok) →
    pm_run tx_zalloc random max_num_keys root' live'.

Lemma contents_replicate_0 nb p n : contents_from nb p (replicate n 0) = ∅.
Proof.
  revert p; induction n as [|n IH]; intros p; simpl; [done|]. rewrite IH. multiset_solver.
Qed.

Lemma rows_replicate_0 n : replicate n 0 ≫= lanes = replicate (n * 4) 0.
Proof. induction n as [|n IH]; [done|]. simpl. unfold mbind in IH. by rewrite IH. Qed.

Section pm_runs.
Context (tx_zalloc : nat → option (list Z)) (random : nat → Z) (max_num_keys : Z).
(** [TX_ZALLOC] succeeds and zeroes the object. *)
Hypothesis zalloc_zeroes : ∀ n, tx_zalloc n = Some (replicate n 0).
Let nb := num_buckets_for max_num_keys.
Hypothesis Hnb : 0 < nb <= 2 ^ 31.

Lemma pm_init_spec :
  ∃ f, pmwormholefilter_init tx_zalloc random None max_num_keys = Some f ∧
    pm_inv nb f ∧ pm_contents nb f = ∅.
Proof.
  unfold pmwormholefilter_init. rewrite zalloc_zeroes. eexists. split; [done|]. split.
  - split_and!; simpl; [done|rewrite length_replicate; lia|].
    apply Forall_replicate. unfold word_ok. lia.
  - unfold pm_contents, pm_tags, contents. cbn [buckets_].
    by rewrite rows_replicate_0, contents_replicate_0.
Qed.

(** The run invariant: the items of the live keys are in the table. *)
Lemma pm_run_inv root live :
  pm_run tx_zalloc random max_num_keys root live →
  ∃ f, root = Some f ∧ pm_inv nb f ∧ gmultiset_map (key_item nb) live ⊆ pm_contents nb f.
Proof.
  induction 1 as [|root live k root' ok _ (f & -> & Hf & Hsub) Hins
                 |root live k root' ok _ (f & -> & Hf & Hsub) Hk Hdel
                 |root live live' k root' ok _ (f & -> & Hf & Hsub) Hlive Hother Hdel].
  - destruct pm_init_spec as (f & -> & Hf & HC). exists f. split_and!; [done..|].
    rewrite gmultiset_map_empty, HC. multiset_solver.
  - destruct (pm_insert_spec nb Hnb f k Hf) as (f' & ok' & Heq & Hf' & Hout).
    rewrite Heq in Hins. injection Hins as <- <-. exists f'. split_and!; [done..|].
    unfold insert_outcome in Hout. destruct ok'.
    + rewrite gmultiset_map_disj_union, gmultiset_map_singleton.
      rewrite <- (key_item_eq nb) in Hout by done. rewrite Hout. multiset_solver.
    + destruct Hout as (X & -> & _). multiset_solver.
  - destruct (pm_delete_spec nb Hnb f k Hf) as (f' & Heq & Hf' & HC).
    rewrite Heq in Hdel. injection Hdel as <- _. exists f'. split_and!; [done..|].
    rewrite HC. rewrite (gmultiset_disj_union_difference' k live) in Hsub by done.
    rewrite gmultiset_map_disj_union, gmultiset_map_singleton in Hsub.
    by apply multiset_remove.
  - destruct (pm_delete_spec nb Hnb f k Hf) as (f' & Heq & Hf' & HC).
    rewrite Heq in Hdel. injection Hdel as <- _. exists f'. split_and!; [done..|]. rewrite HC.
    assert (gmultiset_map (key_item nb) live' ⊆ pm_contents nb f) as Hsub'.
    { etrans; [|exact Hsub]. rewrite (gmultiset_disj_union_difference live' live Hlive), gmultiset_map_disj_union. apply gmultiset_disj_union_subseteq_l. }
    assert (key_item nb k ∉ gmultiset_map (key_item nb) live') as Hnot by (intros (k' & Heq' & Hk')%elem_of_gmultiset_map; by apply (Hother k' Hk')).
    intros x. specialize (Hsub' x). rewrite multiplicity_difference. destruct (decide (x = key_item nb k)) as [->|Hx].
    + apply not_elem_of_multiplicity in Hnot. lia.
    + rewrite multiplicity_singleton_ne by done. lia.
Qed.
End pm_runs.

(** ** The specification: a multiset of items *)

Inductive pm_op := OpInsert (k : Z) | OpLookup (k : Z) | OpDelete (k : Z).

Definition pm_step (root : pmwormholefilter_root) (op : pm_op)
    : option (pmwormholefilter_root * bool) :=
  match op with
  | OpInsert k => pmwormholefilter_insert root k
  | OpLookup k => b ← pmwormholefilter_lookup root k; Some (root, b)
  | OpDelete k => pmwormholefilter_delete root k
  end.

Fixpoint pm_exec (root : pmwormholefilter_root) (ops : list pm_op)
    : option (pmwormholefilter_root * list bool) :=
  match ops with
  | [] => Some (root, [])
  | op :: ops =>
      '(root, b) ← pm_step root op;
      '(root, bs) ← pm_exec root ops;
      Some (root, b :: bs)
  end.

(** One operation of the abstract filter.  An insertion may fail; it then loses
    nothing, but may leave a second copy of an item that was there. *)
Inductive abs_step (nb : Z) : gmultiset item → pm_op → bool → gmultiset item → Prop :=
| abs_insert C k : abs_step nb C (OpInsert k) true (C ⊎ {[+ key_item nb k +]})
| abs_insert_full C k X : bag X ⊆ C → abs_step nb C (OpInsert k) false (C ⊎ bag X)
| abs_lookup C k : abs_step nb C (OpLookup k) (bool_decide (key_item nb k ∈ C)) C
| abs_delete C k :
    abs_step nb C (OpDelete k) (bool_decide (key_item nb k ∈ C)) (C ∖ {[+ key_item nb k +]}).

Inductive abs_exec (nb : Z) : gmultiset item → list pm_op → list bool → gmultiset item → Prop :=
| abs_nil C : abs_exec nb C [] [] C
| abs_cons C op b C1 ops bs C2 :
    abs_step nb C op b C1 → abs_exec nb C1 ops bs C2 → abs_exec nb C (op :: ops) (b :: bs) C2.

Lemma pm_step_simulates nb f op :
  0 < nb <= 2 ^ 31 → pm_inv nb f →
  ∃ f' b, pm_step (Some f) op = Some (Some f', b) ∧ pm_inv nb f' ∧
    abs_step nb (pm_contents nb f) op b (pm_contents nb f').
Proof.
  intros Hnb Hf. destruct op as [k|k|k]; cbn [pm_step].
  - destruct (pm_insert_spec nb Hnb f k Hf) as (f' & ok & -> & Hf' & Hout).
    exists f', ok. split_and!; [done..|]. destruct ok; cbn [insert_outcome] in Hout.
    + rewrite Hout, <- (key_item_eq nb) by done. constructor.
    + destruct Hout as (X & -> & HX). by constructor.
  - rewrite (pm_lookup_spec nb Hnb) by done. exists f. eexists. split_and!; [done..|]. constructor.
  - destruct (pm_delete_spec nb Hnb f k Hf) as (f' & -> & Hf' & HC).
    eexists f', _. split_and!; [done..|]. rewrite HC. constructor.
Qed.

(** ** Claims *)

(** C4: no false negatives.  In every run of the persistent-memory filter that
    starts from [pmwormholefilter_init] and performs insertions (some of which
    may report failure) and deletions of any keys, every key inserted successfully
    and not deleted since is found by [pmwormholefilter_lookup], unless a key that
    was not inserted was deleted since and has the same home bucket and
    fingerprint. *)
Theorem pm_no_false_negative tx_zalloc random max_num_keys root live k :
  (∀ n, tx_zalloc n = Some (replicate n 0)) →
  0 < num_buckets_for max_num_keys <= 2 ^ 31 →
  pm_run tx_zalloc random max_num_keys root live →
  k ∈ live → pmwormholefilter_lookup root k = Some true.
Proof.
  intros Hz Hnb (f & -> & Hf & Hsub)%pm_run_inv Hk; [|done..].
  rewrite (pm_lookup_spec _ Hnb) by done. f_equal. apply bool_decide_eq_true.
  eapply gmultiset_elem_of_subseteq; [|exact Hsub]. apply elem_of_gmultiset_map. by exists k.
Qed.

Lemma pm_no_false_negative_witness :
  ∃ root, pm_run (λ n, Some (replicate n 0)) (λ _, 0) 80 root (∅ ⊎ {[+ 17 +]}) ∧
    pmwormholefilter_lookup root 17 = Some true.
Proof.
  assert (∃ root, pmwormholefilter_insert
    (pmwormholefilter_init (λ n, Some (replicate n 0)) (λ _, 0) None 80) 17 = Some (root, true))
    as [root Hroot] by (eexists; vm_compute; reflexivity).
  exists root. assert (pm_run (λ n, Some (replicate n 0)) (λ _, 0) 80 root (∅ ⊎ {[+ 17 +]})) as Hrun.
  { exact (run_insert _ _ _ _ _ _ _ _ (run_init _ _ _) Hroot). }
  split; [exact Hrun|].
  apply (pm_no_false_negative (λ n, Some (replicate n 0)) (λ _, 0) 80 root (∅ ⊎ {[+ 17 +]}) 17);
    [reflexivity|vm_compute; split; congruence|exact Hrun|].
  apply gmultiset_elem_of_disj_union. right. by apply gmultiset_elem_of_singleton.
Defined.

(** C21: refinement.  Any sequence of operations on a well-formed filter of at
    most 2^31 buckets terminates with defined behaviour, and its answers and
    final contents are those of the abstract multiset filter: an insertion
    adds exactly its item or fails without losing any, a lookup answers
    membership, a deletion removes one copy and reports whether there was one. *)
Theorem pm_refines_multiset nb f ops :
  0 < nb <= 2 ^ 31 → pm_inv nb f →
  ∃ f' bs, pm_exec (Some f) ops = Some (Some f', bs) ∧ pm_inv nb f' ∧
    abs_exec nb (pm_contents nb f) ops bs (pm_contents nb f').
Proof.
  intros Hnb. revert f; induction ops as [|op ops IH]; intros f Hf.
  - exists f, []. split_and!; [done..|constructor].
  - destruct (pm_step_simulates nb f op Hnb Hf) as (f1 & b & Hstep & Hf1 & Habs).
    destruct (IH f1 Hf1) as (f2 & bs & Hexec & Hf2 & Habs').
    exists f2, (b :: bs). cbn [pm_exec]. rewrite Hstep. cbn [mbind option_bind].
    rewrite Hexec. split_and!; [done..|]. by econstructor.
Qed.

Definition sample_filter : pmwormholefilter :=
  {| num_buckets_ := 2; hasher_ := {| multiply_ := 0; add_ := 0 |};
     buckets_ := [0; 0]; trace := [] |}.

Lemma pm_refines_multiset_witness :
  ∃ f' bs, pm_exec (Some sample_filter) [OpInsert 5; OpLookup 5; OpDelete 5; OpLookup 5]
             = Some (Some f', bs) ∧ bs = [true; true; true; false].
Proof.
  destruct (pm_refines_multiset 2 sample_filter [OpInsert 5; OpLookup 5; OpDelete 5; OpLookup 5])
    as (f' & bs & Heq & _).
  - lia.
  - split_and!; [done|done|]. cbn [buckets_ sample_filter].
    rewrite !Forall_cons, Forall_nil. unfold word_ok. lia.
  - exists f', bs. split; [exact Heq|]. vm_compute in Heq. congruence.
Defined.
