(* ===== verification/PmCrash.v ===== *)
(** Crash consistency of the persistent-memory filter's insertion.

    Persistent memory sits behind a volatile cache: a store becomes durable
    when the program flushes it with [pmemobj_persist], or earlier, whenever
    the cache evicts it.  The trace a filter carries therefore determines, for
    each bucket, which words a crash may leave behind. *)
From stdpp Require Import gmultiset.
From S2P Require Import Prelude Swar WormholeCore Double PmWormhole.

(** The words bucket [b] may hold after a crash, newest first: those stored
    since its last flush, and the word that flush made durable.  [base] is the
    durable image the trace starts from. *)
Fixpoint survivors (base : list Z) (tr : list pm_event) (b : nat) : list Z :=
  match tr with
  | [] => option_list (base !! b)
  | Store b' w :: tr =>
      if decide (b' = b) then w :: survivors base tr b else survivors base tr b
  | Persist b' :: tr =>
      if decide (b' = b) then take 1 (survivors base tr b) else survivors base tr b
  end.

(** What the filter relies on from libpmemobj: a word found after a crash is
    one of the survivors (8-byte stores are failure-atomic, and
    [pmemobj_persist] returns once the range is durable). *)
Class CrashModel := {
  crash_image : list Z → list pm_event → list Z → Prop;
  crash_survivors base tr img :
    crash_image base tr img →
    length img = length base ∧ Forall word_ok img ∧
    ∀ b w, img !! b = Some w → w ∈ survivors base tr b;
}.

Section crash.
Context (nb : Z) (Hnb : 0 < nb <= 2 ^ 31) (base : list Z).
Hypothesis Hbase : Z.of_nat (length base) = nb.

(** Bucket word [w] at index [b] holds item [x]. *)
Definition holds (b w : Z) (x : item) : Prop :=
  ∃ j, 0 <= j < 4 ∧ item_at nb (4 * b + j) (lanes w !!! Z.to_nat j) = Some x.

(** Item [x] survives any crash after [tr]: in some bucket, every word a
    crash may leave holds it. *)
Definition durable (tr : list pm_event) (x : item) : Prop :=
  ∃ b, 0 <= b < nb ∧ ∀ w, w ∈ survivors base tr (Z.to_nat b) → holds b w x.

Lemma durable_image `{CrashModel} tr x img :
  durable tr x → crash_image base tr img → x ∈ contents nb (img ≫= lanes).
Proof.
  intros (b & Hb & Hd) (Hlen & _ & Himg)%crash_survivors.
  destruct (lookup_lt_is_Some_2 img (Z.to_nat b)) as [w Hw]; [lia|].
  destruct (Hd w (Himg _ _ Hw)) as (j & Hj & Hx). apply contents_elem.
  exists (Z.to_nat (4 * b + j)), (lanes w !!! Z.to_nat j). split.
  - replace (Z.to_nat (4 * b + j)) with (4 * Z.to_nat b + Z.to_nat j)%nat by lia.
    rewrite (lookup_rows _ 4) by (done || lia). rewrite Hw. cbn [mbind option_bind].
    apply list_lookup_lookup_total_lt. rewrite length_lanes. lia.
  - by rewrite Z2Nat.id by lia.
Qed.

(** The cached word of every bucket is the newest survivor. *)
Definition coherent (f : pmwormholefilter) : Prop :=
  ∀ b, 0 <= b < nb →
    head (survivors base (trace f) (Z.to_nat b)) = Some (buckets_ f !!! Z.to_nat b).

(** Item [x] is durable through a slot other than [(i, slot)]. *)
Definition guarded (f : pmwormholefilter) (x : item) (i slot : Z) : Prop :=
  ∃ b j, 0 <= b < nb ∧ 0 <= j < 4 ∧ (b ≠ i mod nb ∨ j ≠ slot) ∧
    slot_item (nb := nb) f b j = Some x ∧
    ∀ w, w ∈ survivors base (trace f) (Z.to_nat b) → holds b w x.

Lemma guarded_durable f x i slot : guarded f x i slot → durable (trace f) x.
Proof. intros (b & j & Hb & _ & _ & _ & Hw). by exists b. Qed.

(** The traces an operation passes through, from [tr0] to [tr]. *)
Definition between (tr0 tr tr' : list pm_event) : Prop :=
  tr0 `suffix_of` tr' ∧ tr' `suffix_of` tr.

Lemma between_cons tr0 e tr tr' :
  between tr0 (e :: tr) tr' → tr' = e :: tr ∨ between tr0 tr tr'.
Proof.
  intros [H0 [[|e' k] H1]]; simplify_list_eq; [by left|right].
  split; [done|by exists k].
Qed.

(** ** A store to the free slot, and the flush after it *)

Lemma slot_item_word f b j :
  num_buckets_ f = nb → 0 <= b < nb →
  slot_item (nb := nb) f b j
  = item_at nb (4 * b + j) (lanes (buckets_ f !!! Z.to_nat b) !!! Z.to_nat j).
Proof.
  intros Hn Hb. unfold slot_item. cbn [ReadTag pm_store]. unfold PM_ReadTag.
  by rewrite Hn, Z.mod_small by lia.
Qed.

Section store.
Context (f : pmwormholefilter) (Hf : pm_inv nb f) (Hcoh : coherent f).
Context (i slot t : Z) (Hslot : 0 <= slot < 4) (Ht : lane_ok t).
Let f1 := store_tag f (i mod nb) slot t.

Lemma store_word : buckets_ f1 !!! Z.to_nat (i mod nb)
  = unlanes (<[Z.to_nat slot := u16 t]> (lanes (buckets_ f !!! Z.to_nat (i mod nb)))).
Proof.
  destruct Hf as (Hn & Hlen & _). pose proof (Z.mod_pos_bound i nb ltac:(lia)).
  unfold f1. simpl. apply list_lookup_total_insert_eq. lia.
Qed.

Lemma store_lanes j : 0 <= j < 4 →
  lanes (buckets_ f1 !!! Z.to_nat (i mod nb)) !!! Z.to_nat j
  = if decide (j = slot) then t
    else lanes (buckets_ f !!! Z.to_nat (i mod nb)) !!! Z.to_nat j.
Proof.
  intros Hj. rewrite store_word, lanes_write by done. case_decide as Heq.
  - subst j. apply list_lookup_total_insert_eq. rewrite length_lanes. lia.
  - apply list_lookup_total_insert_ne. lia.
Qed.

Lemma store_other b : 0 <= b → b ≠ i mod nb →
  buckets_ f1 !!! Z.to_nat b = buckets_ f !!! Z.to_nat b.
Proof.
  intros Hb Hne. pose proof (Z.mod_pos_bound i nb ltac:(lia)).
  unfold f1. simpl. apply list_lookup_total_insert_ne. lia.
Qed.

Lemma store_coherent : coherent f1.
Proof.
  intros b Hb. pose proof (Z.mod_pos_bound i nb ltac:(lia)). cbn [trace f1 store_tag survivors].
  case_decide as Heq.
  - rewrite <- Heq. simpl. f_equal. symmetry. apply store_word.
  - rewrite Hcoh by done. by rewrite store_other by (congruence || lia).
Qed.

Lemma store_slot_item b j : 0 <= b < nb → 0 <= j < 4 → b ≠ i mod nb ∨ j ≠ slot →
  slot_item (nb := nb) f1 b j = slot_item (nb := nb) f b j.
Proof.
  intros Hb Hj Hne. rewrite !slot_item_word by (apply Hf || lia). f_equal.
  destruct (decide (b = i mod nb)) as [->|]; [|by rewrite store_other by lia].
  rewrite store_lanes by done. case_decide; [naive_solver|done].
Qed.

Lemma store_slot_item_eq :
  slot_item (nb := nb) f1 i slot = item_at nb (4 * (i mod nb) + slot) t.
Proof.
  pose proof (Z.mod_pos_bound i nb ltac:(lia)).
  unfold slot_item. cbn [ReadTag pm_store]. unfold PM_ReadTag.
  destruct Hf as (Hn & _). change (num_buckets_ f1) with (num_buckets_ f). rewrite Hn.
  rewrite store_lanes by done. by rewrite decide_True.
Qed.

Lemma store_guarded x : guarded f x i slot → guarded f1 x i slot.
Proof.
  intros (b & j & Hb & Hj & Hne & Hx & Hw). exists b, j. split_and!; try done; try lia.
  - by rewrite store_slot_item.
  - intros w. cbn [trace f1 store_tag survivors]. case_decide as Heq; [|apply Hw].
    intros [->|?]%elem_of_cons; [|by apply Hw].
    pose proof (Z.mod_pos_bound i nb ltac:(lia)). assert (b = i mod nb) as -> by lia.
    exists j. split; [done|]. rewrite <- store_word, store_lanes by done.
    destruct (decide (j = slot)); [naive_solver|].
    rewrite slot_item_word in Hx by (apply Hf || lia). exact Hx.
Qed.
End store.

Lemma persist_coherent f i : coherent f → coherent (persist_bucket f i).
Proof.
  intros Hcoh b Hb. cbn [trace persist_bucket survivors buckets_]. rewrite <- Hcoh by done.
  case_decide; [|done]. by destruct (survivors base (trace f) (Z.to_nat b)).
Qed.

Lemma persist_guarded f x i i' slot :
  guarded f x i slot → guarded (persist_bucket f i') x i slot.
Proof.
  intros (b & j & Hb & Hj & Hne & Hx & Hw). exists b, j. split_and!; try done; try lia.
  intros w. cbn [trace persist_bucket survivors]. case_decide; [|apply Hw].
  intros (k & Hk & _)%elem_of_take. by eapply Hw, list_elem_of_lookup_2.
Qed.

(** ** Relocation and insertion *)

Lemma hop_crash f init curr slot prob j t x :
  pm_inv nb f → coherent f → guarded f x curr slot →
  0 <= init < nb → 16 <= curr - init → curr < init + nb → 0 <= slot < 4 →
  prob ∈ probs → 0 <= j < 4 → t = ReadTag f (u32 (curr - prob)) j →
  Z.land t DIS_MASK + prob < MAX_PROB →
  let f' := PMWriteTag f curr slot
              (Z.lor (Z.land t FPT_MASK) (Z.land t DIS_MASK + prob)) in
  coherent f' ∧ guarded f' x (curr - prob) j ∧ trace f `suffix_of` trace f' ∧
  ∀ tr', between (trace f) (trace f') tr' → durable tr' x.
Proof.
  intros Hf Hcoh Hg Hinit Hge Hlt Hslot Hprob Hj Ht Hdis.
  pose proof (pm_store_laws nb ltac:(lia)) as Hlaws.
  destruct (moved_tag (nb := nb) Hnb f init curr slot prob j t) as (Ht' & Hne & Hcopy); try done.
  set (t' := Z.lor _ _) in *. intros f'. unfold f', PMWriteTag.
  pose proof Hf as (Hn & _). rewrite Hn.
  set (f1 := store_tag f (curr mod nb) slot t').
  pose proof (store_coherent f Hf Hcoh curr slot t') as Hc1. fold f1 in Hc1.
  pose proof (store_guarded f Hf curr slot t' Hslot Ht' x Hg) as Hg1. fold f1 in Hg1.
  pose proof (persist_guarded f1 x curr (curr mod nb) slot Hg1) as Hg2.
  split_and!; [by apply persist_coherent| |by eexists [_; _]|].
  - pose proof Hg2 as (b & jb & Hb & Hjb & Hneb & Hx & Hw).
    destruct (decide (b = (curr - prob) mod nb ∧ jb = j)) as [[-> ->]|Hdiff].
    2:{ exists b, jb. split_and!; try done; lia. }
    pose proof (Z.mod_pos_bound curr nb ltac:(lia)) as Hm.
    change (slot_item (nb := nb) (persist_bucket f1 (curr mod nb)) ((curr - prob) mod nb) j)
      with (slot_item (nb := nb) f1 ((curr - prob) mod nb) j) in Hx.
    unfold f1 in Hx. rewrite (store_slot_item f Hf) in Hx by done.
    assert (item_at nb (4 * (curr mod nb) + slot) t' = Some x) as Hitem.
    { rewrite Hcopy, <- Hx. unfold slot_item. rewrite Z.mod_mod by lia.
      cbn [ReadTag pm_store]. unfold PM_ReadTag. by rewrite Hn, Z.mod_mod by lia. }
    assert (slot_item (nb := nb) f1 (curr mod nb) slot = Some x) as Hitem1.
    { rewrite slot_item_word by done. unfold f1. rewrite store_lanes by done.
      by rewrite decide_True. }
    exists (curr mod nb), slot. split_and!; try done; try lia.
    intros w. cbn [trace persist_bucket survivors]. rewrite decide_True by done.
    pose proof (Hc1 (curr mod nb) Hm) as Hhd.
    destruct (survivors base (trace f1) (Z.to_nat (curr mod nb))) as [|w0 l]; [done|].
    simpl in Hhd. injection Hhd as ->. intros ->%list_elem_of_singleton.
    exists slot. split; [done|]. by rewrite slot_item_word in Hitem1.
  - intros tr' [->|[->|[H1 H2]]%between_cons]%between_cons.
    + exact (guarded_durable _ _ _ _ Hg2).
    + exact (guarded_durable _ _ _ _ Hg1).
    + assert (tr' = trace f) as -> by (by apply suffix_length_eq; [|apply suffix_length]).
      exact (guarded_durable _ _ _ _ Hg).
Qed.

Lemma between_split (tr0 tr1 tr2 tr' : list pm_event) :
  tr0 `suffix_of` tr1 → tr1 `suffix_of` tr2 → between tr0 tr2 tr' →
  between tr0 tr1 tr' ∨ between tr1 tr2 tr'.
Proof.
  intros H01 H12 [H0 H2].
  destruct (suffix_weak_total tr' tr1 tr2); [done|done|left|right]; by split.
Qed.

Lemma relocate_crash fuel f init curr slot x f' r :
  pm_inv nb f → coherent f → guarded f x curr slot →
  0 <= init < nb → init <= curr < init + nb → 0 <= slot < 4 →
  relocate fuel f init curr slot = Some (f', r) →
  pm_inv nb f' ∧ coherent f' ∧ trace f `suffix_of` trace f' ∧
  (∀ tr', between (trace f) (trace f') tr' → durable tr' x) ∧
  ∃ c j, init <= c < init + nb ∧ 0 <= j < 4 ∧ guarded f' x c j ∧
    match r with Some cj => cj = (c, j) ∧ c - init < 16 | None => True end.
Proof.
  assert (∀ f curr slot, guarded f x curr slot →
    ∀ tr', between (trace f) (trace f) tr' → durable tr' x) as Hstay.
  { intros g c j Hg tr' [H1 H2].
    assert (tr' = trace g) as -> by (by apply suffix_length_eq; [|apply suffix_length]).
    exact (guarded_durable _ _ _ _ Hg). }
  revert f curr slot; induction fuel as [|fuel IH];
    intros f curr slot Hf Hcoh Hg Hinit Hcurr Hslot; cbn [relocate].
  all: rewrite u64_small by lia; destruct (Z.ltb_spec (curr - init) MAX_PROB) as [Hlt|Hge];
    unfold MAX_PROB in *.
  2: done.
  1,2: intros [= <- <-]; split_and!; try done; [by eapply Hstay|exists curr, slot; split_and!; try done; lia].
  destruct (find_cadi_prob f curr probs) as [[[prob j] t]|] eqn:E.
  2: intros [= <- <-]; split_and!; try done; [by eapply Hstay|exists curr, slot; split_and!; try done; lia].
  apply find_cadi_prob_spec in E as (Hprob & Hj & Ht & Hdis).
  pose proof (probs_range _ Hprob).
  pose proof (pm_store_laws nb ltac:(lia)) as Hlaws.
  destruct (hop_crash f init curr slot prob j t x) as (Hcoh' & Hg' & Hsuf & Hd); try done; [lia..|].
  destruct (moved_tag (nb := nb) Hnb f init curr slot prob j t) as (Hlane & _); try done; [lia..|].
  destruct (MoveTag_tags f curr slot _ Hf ltac:(lia) Hslot Hlane) as [Hf' _].
  rewrite u32_small by lia. intros Hrel.
  apply IH in Hrel as (Hf'' & Hcoh'' & Hsuf' & Hd' & Hend); try done; [|lia..].
  split_and!; try done; [by etrans|].
  intros tr' [?|?]%(between_split _ _ _ _ Hsuf Hsuf'); [by apply Hd|by apply Hd'].
Qed.

Lemma durable_guarded f x i slot :
  pm_inv nb f → coherent f → 0 <= slot < 4 → slot_item (nb := nb) f i slot = None →
  durable (trace f) x → guarded f x i slot.
Proof.
  intros Hf Hcoh Hslot Hnone (b & Hb & Hw).
  pose proof (Hcoh b Hb) as Hhd. pose proof (Z.mod_pos_bound i nb ltac:(lia)).
  destruct (survivors base (trace f) (Z.to_nat b)) as [|w l] eqn:Es; [done|].
  simpl in Hhd. injection Hhd as ->.
  destruct (Hw (buckets_ f !!! Z.to_nat b) ltac:(by left)) as (j & Hj & Hx).
  exists b, j. rewrite slot_item_word by (apply Hf || lia). rewrite Es. split_and!; try done; try lia.
  destruct (decide (b = i mod nb)) as [->|]; [right; intros ->|by left].
  rewrite <- slot_item_word in Hx by (apply Hf || lia). unfold slot_item in Hx, Hnone.
  rewrite Z.mod_mod in Hx by lia. cbn [ReadTag pm_store] in *. unfold PM_ReadTag in *.
  destruct Hf as (Hn & _). rewrite Hn in *. rewrite Z.mod_mod in Hx by lia. congruence.
Qed.

Lemma insert_loop_crash fuel f init tag curr x f' ok :
  pm_inv nb f → coherent f → durable (trace f) x →
  0 <= init < nb → fpt_ok tag → 0 < tag → init <= curr <= init + nb →
  insert_loop fuel f nb init tag curr = Some (f', ok) →
  coherent f' ∧ ∀ tr', between (trace f) (trace f') tr' → durable tr' x.
Proof.
  intros Hf Hcoh Hd Hinit Htag Hpos. revert curr. induction fuel as [|fuel IH]; [done|].
  intros curr Hcurr. cbn [insert_loop]. rewrite u64_small by lia.
  assert (∀ tr', between (trace f) (trace f) tr' → durable tr' x) as Hstay.
  { intros tr' [H1 H2].
    by assert (tr' = trace f) as -> by (by apply suffix_length_eq; [|apply suffix_length]). }
  destruct (Z.ltb_spec curr (init + nb)) as [Hlt|Hge]; [|by intros [= <- <-]].
  destruct (find_empty f curr [0; 1; 2; 3]) as [slot|] eqn:E.
  2:{ rewrite u32_small by lia. apply IH. lia. }
  apply find_empty_spec in E as [Hslot Hzero].
  assert (0 <= slot < 4) as Hslot' by (set_unfold; lia).
  assert (guarded f x curr slot) as Hg.
  { apply durable_guarded; try done. unfold slot_item. by rewrite Hzero. }
  destruct (relocate _ f init curr slot) as [[f1 r]|] eqn:Er; [|done].
  apply (relocate_crash _ _ _ _ _ x) in Er
    as (Hf1 & Hcoh1 & Hsuf & Hd1 & c & j & Hc & Hj & Hg1 & Hr); try done; [|lia..].
  destruct r as [[c' j']|]; [|by intros [= <- <-]].
  destruct Hr as [[= -> ->] Hdist]. rewrite u64_small by lia. intros [= <- <-].
  cbn [PutTag pm_store]. unfold PM_WriteTag. pose proof Hf1 as (Hn1 & _). rewrite Hn1.
  assert (lane_ok (Z.lor tag (c - init))) as Hlane.
  { rewrite lor_fpt by (done || lia). apply fpt_add_lane; [done|lia]. }
  split; [by apply store_coherent|].
  intros tr' [->|?]%between_cons; [|by apply Hd1].
  exact (guarded_durable _ _ _ _ (store_guarded f1 Hf1 c j _ Hj Hlane x Hg1)).
Qed.

(** ** The final store is not flushed *)

Lemma relocate_coherent fuel f init curr slot f' r :
  pm_inv nb f → coherent f → 0 <= init < nb → init <= curr < init + nb → 0 <= slot < 4 →
  relocate fuel f init curr slot = Some (f', r) → coherent f'.
Proof.
  revert f curr slot; induction fuel as [|fuel IH];
    intros f curr slot Hf Hcoh Hinit Hcurr Hslot; cbn [relocate].
  all: rewrite u64_small by lia; destruct (Z.ltb_spec (curr - init) MAX_PROB) as [Hlt|Hge];
    unfold MAX_PROB in *.
  2: done.
  1,2: by intros [= <- <-].
  destruct (find_cadi_prob f curr probs) as [[[prob j] t]|] eqn:E; [|by intros [= <- <-]].
  apply find_cadi_prob_spec in E as (Hprob & Hj & Ht & Hdis).
  pose proof (probs_range _ Hprob).
  pose proof (pm_store_laws nb ltac:(lia)) as Hlaws.
  destruct (moved_tag (nb := nb) Hnb f init curr slot prob j t) as (Hlane & _); try done; [lia..|].
  destruct (MoveTag_tags f curr slot _ Hf ltac:(lia) Hslot Hlane) as [Hf' _].
  rewrite u32_small by lia. intros Hrel.
  eapply IH; [exact Hf'| | |  | |exact Hrel]; try done; [|lia].
  cbn [MoveTag pm_store]. unfold PMWriteTag. pose proof Hf as (Hn & _). rewrite Hn.
  by apply persist_coherent, store_coherent.
Qed.

(** A successful insertion ends with an unflushed store into a coherent
    filter whose items were all there before. *)
Lemma insert_loop_final fuel f init tag curr f' :
  pm_inv nb f → coherent f → 0 <= init < nb → init <= curr <= init + nb →
  init + nb - curr < Z.of_nat fuel →
  insert_loop fuel f nb init tag curr = Some (f', true) →
  ∃ f1 c j t X, f' = store_tag f1 (c mod nb) j t ∧ pm_inv nb f1 ∧ coherent f1 ∧
    pm_contents nb f1 = pm_contents nb f ⊎ bag X ∧ bag X ⊆ pm_contents nb f.
Proof.
  intros Hf Hcoh Hinit. revert curr. induction fuel as [|fuel IH]; [done|].
  intros curr Hcurr Hfuel. cbn [insert_loop]. rewrite u64_small by lia.
  destruct (Z.ltb_spec curr (init + nb)) as [Hlt|Hge]; [|done].
  destruct (find_empty f curr [0; 1; 2; 3]) as [slot|] eqn:E.
  2:{ rewrite u32_small by lia. apply IH; lia. }
  apply find_empty_spec in E as [Hslot Hzero].
  assert (0 <= slot < 4) as Hslot' by (set_unfold; lia).
  assert (slot_item (nb := nb) f curr slot = None) as Hnone.
  { unfold slot_item. by rewrite Hzero. }
  pose proof (pm_store_laws nb ltac:(lia)) as Hlaws.
  destruct (relocate_spec Hnb (Z.to_nat (curr - init)) f init curr slot (pm_contents nb f))
    as (f1 & r & Hrel & Hf1 & c & j & Hc & Hj & HC & Hsub & Hr); try done; try lia.
  { rewrite Hnone. cbn [bag]. by rewrite gmultiset_disj_union_right_id. }
  { rewrite Hnone. apply gmultiset_empty_subseteq. }
  pose proof Hrel as Hcoh1. apply relocate_coherent in Hcoh1; try done; [|lia].
  rewrite Hrel. destruct r as [[c' j']|]; [|done]. destruct Hr as [[= -> ->] _].
  intros [= <-]. cbn [PutTag pm_store]. unfold PM_WriteTag.
  pose proof Hf1 as (Hn1 & _). rewrite Hn1. by eexists f1, c, j, _, _.
Qed.

(** The word each bucket held before the last store is still a survivor. *)
Lemma store_survives f i slot t b w :
  pm_inv nb f → coherent f → buckets_ f !! b = Some w →
  w ∈ survivors base (trace (store_tag f (i mod nb) slot t)) b.
Proof.
  intros (_ & Hlen & _) Hcoh Hw. pose proof (lookup_lt_Some _ _ _ Hw).
  specialize (Hcoh (Z.of_nat b) ltac:(lia)). rewrite Nat2Z.id in Hcoh.
  rewrite (list_lookup_total_correct _ _ _ Hw) in Hcoh.
  assert (w ∈ survivors base (trace f) b) as Hin.
  { destruct (survivors base (trace f) b) as [|w' l]; [done|].
    simpl in Hcoh. injection Hcoh as ->. by left. }
  cbn [trace store_tag survivors]. case_decide; [by right|done].
Qed.
End crash.

(** The filter a restart finds: the words that survived. *)
Definition recovered (f : pmwormholefilter) (img : list Z) : pmwormholefilter :=
  {| num_buckets_ := num_buckets_ f; hasher_ := hasher_ f; buckets_ := img; trace := [] |}.

(** The crash model that allows every survivor. *)
#[refine] #[export] Instance all_survivors : CrashModel := {|
  crash_image base tr img :=
    length img = length base ∧ Forall word_ok img ∧
    ∀ b w, img !! b = Some w → w ∈ survivors base tr b;
|}.
Proof. done. Defined.

Lemma insert_Some f k f' ok :
  pmwormholefilter_insert (Some f) k = Some (Some f', ok) →
  insert_item f (num_buckets_ f) (key_index f k) (key_tag f k) = Some (f', ok).
Proof.
  unfold pmwormholefilter_insert. cbn [mbind option_bind]. case_match; [done|].
  destruct (insert_item _ _ _ _) as [[f1 ok1]|]; [|done]. by intros [= -> ->].
Qed.

Lemma recovered_lookup nb f img k :
  0 < nb <= 2 ^ 31 → num_buckets_ f = nb → Z.of_nat (length img) = nb → Forall word_ok img →
  pmwormholefilter_lookup (Some (recovered f img)) k
  = Some (bool_decide (key_item nb k ∈ contents nb (img ≫= lanes))).
Proof.
  intros Hnb Hn Hlen Hw. rewrite (pm_lookup_spec nb Hnb); [done|]. by split_and!.
Qed.

(** ** Claims *)

(** C5: crash consistency.  Let a crash strike at any moment of an insertion,
    successful or not, under any crash model that respects stores and flushes.
    Every key whose item was durable before the insertion is still found by a
    lookup in the filter recovered from the surviving words: relocation copies
    a tag and flushes the copy before the original is overwritten. *)
Theorem pm_insert_crash_consistent `{CrashModel} nb base f k f' ok k0 tr img :
  0 < nb <= 2 ^ 31 → Z.of_nat (length base) = nb → pm_inv nb f → coherent nb base f →
  durable nb base (trace f) (key_item nb k0) →
  pmwormholefilter_insert (Some f) k = Some (Some f', ok) →
  between (trace f) (trace f') tr → crash_image base tr img →
  pmwormholefilter_lookup (Some (recovered f img)) k0 = Some true.
Proof.
  intros Hnb Hbase Hf Hcoh Hd Hins Htr Himg. pose proof Hf as (Hn & _).
  apply insert_Some in Hins. rewrite Hn in Hins. unfold insert_item in Hins.
  pose proof (key_index_range nb f k ltac:(lia) Hf) as Hi.
  destruct (key_tag_ok f k) as [Ht Hpos]. rewrite u32_small in Hins by lia.
  eapply (insert_loop_crash nb Hnb base) in Hins as [_ Hall]; try done; [|lia].
  pose proof (crash_survivors _ _ _ Himg) as (Hlen & Hw & _).
  rewrite (recovered_lookup nb) by (done || lia). f_equal. apply bool_decide_eq_true.
  eapply durable_image; [done|by apply Hall|done].
Qed.

(** A filter holding key 5 durably, and the insertion of key 4 into it. *)
Definition durable_filter : pmwormholefilter :=
  {| num_buckets_ := 2; hasher_ := {| multiply_ := 0; add_ := 0 |};
     buckets_ := [0; 16]; trace := [] |}.

Lemma pm_insert_crash_consistent_witness :
  ∃ f', pmwormholefilter_insert (Some durable_filter) 4 = Some (Some f', true) ∧
    pmwormholefilter_lookup (Some (recovered durable_filter [0; 16])) 5 = Some true.
Proof.
  eexists. split; [vm_compute; reflexivity|].
  eapply (pm_insert_crash_consistent (H := all_survivors) 2 [0; 16] durable_filter 4 _ true 5 []).
  - lia.
  - reflexivity.
  - split_and!; [done|done|]. cbn [buckets_ durable_filter].
    rewrite !Forall_cons, Forall_nil. unfold word_ok. lia.
  - intros b Hb. assert (b = 0 ∨ b = 1) as [-> | ->] by lia; reflexivity.
  - exists 1. split; [lia|]. intros w Hw. vm_compute in Hw.
    apply list_elem_of_singleton in Hw as ->. exists 0. split; [lia|reflexivity].
  - vm_compute. reflexivity.
  - split; [done|]. eexists. symmetry. apply app_nil_r.
  - split_and!; [done| |].
    + rewrite !Forall_cons, Forall_nil. unfold word_ok. lia.
    + intros [|[|b]] w Hw; simpl in Hw; simplify_eq; vm_compute; left.
Defined.

(** C38: the durability gap.  When an insertion reports success for a key that
    was not in the filter, the store of its tag has not been flushed: a crash
    right after the call may leave words in which the key is not found. *)
Theorem pm_insert_not_flushed nb base f k f' :
  0 < nb <= 2 ^ 31 → Z.of_nat (length base) = nb → pm_inv nb f → coherent nb base f →
  pmwormholefilter_lookup (Some f) k = Some false →
  pmwormholefilter_insert (Some f) k = Some (Some f', true) →
  ∃ img, crash_image (CrashModel := all_survivors) base (trace f') img ∧
    pmwormholefilter_lookup (Some (recovered f' img)) k = Some false.
Proof.
  intros Hnb Hbase Hf Hcoh Hno Hins. pose proof Hf as (Hn & _).
  apply insert_Some in Hins. rewrite Hn in Hins. unfold insert_item in Hins.
  pose proof (key_index_range nb f k ltac:(lia) Hf) as Hi. rewrite u32_small in Hins by lia.
  eapply (insert_loop_final nb Hnb base) in Hins
    as (f1 & c & j & t & X & -> & Hf1 & Hcoh1 & HC & HX); try done; [|lia..].
  pose proof Hf1 as (Hn1 & Hlen1 & Hw1).
  exists (buckets_ f1). split.
  - split_and!; [lia|done|]. intros b w Hw. by apply (store_survives nb).
  - rewrite (recovered_lookup nb) by done. f_equal. apply bool_decide_eq_false.
    rewrite (pm_lookup_spec nb Hnb) in Hno by done.
    injection Hno as Hno%bool_decide_eq_false.
    fold (pm_tags f1). fold (pm_contents nb f1). rewrite HC, gmultiset_elem_of_disj_union.
    intros [?|Hin]; [done|]. apply Hno. by eapply gmultiset_elem_of_subseteq.
Qed.

Lemma pm_insert_not_flushed_witness :
  ∃ f', pmwormholefilter_insert (Some durable_filter) 4 = Some (Some f', true) ∧
    ∃ img, pmwormholefilter_lookup (Some (recovered f' img)) 4 = Some false.
Proof.
  eexists. split; [vm_compute; reflexivity|].
  edestruct (pm_insert_not_flushed 2 [0; 16] durable_filter 4) as (img & _ & Hl);
    [lia|reflexivity| | |vm_compute; reflexivity|vm_compute; reflexivity|by exists img].
  - split_and!; [done|done|]. cbn [buckets_ durable_filter].
    rewrite !Forall_cons, Forall_nil. unfold word_ok. lia.
  - intros b Hb. assert (b = 0 ∨ b = 1) as [-> | ->] by lia; reflexivity.
Defined.
