(* ===== verification/FilterPolicy.v ===== *)
(** The interface LevelDB expects of a filter policy
    (include/leveldb/filter_policy.h). *)
From S2P Require Import Prelude.

(** [CreateFilter keys dst] appends a filter for [keys] to [dst];
    [KeyMayMatch key filter] queries it.  [None] is a run without defined
    behaviour (an access outside the filter, a loop that does not end). *)
Class FilterPolicy (P : Type) := {
  CreateFilter : P → list (list byte) → list byte → option (list byte);
  KeyMayMatch : P → list byte → list byte → option bool;
}.

(** The promise of the header: a filter matches every key it was created from.
    [good] says for which key lists a policy keeps it. *)
Class FilterPolicyLaws (P : Type) `{FilterPolicy P} (good : P → list (list byte) → Prop) := {
  create_matches p keys dst :
    good p keys →
    ∃ filter, CreateFilter p keys dst = Some (dst ++ filter) ∧
      ∀ key, key ∈ keys → KeyMayMatch p key filter = Some true;
}.
