(* ===== verification/WormholePolicy.v ===== *)
(** The wormhole filter as a LevelDB filter policy (util/wormhole.cc). *)
From stdpp Require Import gmultiset.
From S2P Require Import Prelude Coding Hash Swar WormholeCore Double FilterPolicy.

Definition BIT_PER_TAG : Z := 16.
Definition BIT_PER_FPT : Z := 12.
Definition TAG_PER_BUK : Z := 4.

Definition WormholeHash (key : list byte) : Z := Hash64 key 0xbc9f1d34bc9f1d34.

Definition IndexHash (hv num_buckets_ : Z) : Z := u32 (Z.land hv (u64 (num_buckets_ - 1))).

Definition TagHash (hv : Z) : Z :=
  let tag := Z.land hv ((1 ≪ BIT_PER_FPT) - 1) in
  tag + (if tag =? 0 then 1 else 0).

Definition upperpower2 (x : Z) : Z :=
  let x := u64 (x - 1) in
  let x := Z.lor x (x ≫ 1) in
  let x := Z.lor x (x ≫ 2) in
  let x := Z.lor x (x ≫ 4) in
  let x := Z.lor x (x ≫ 8) in
  let x := Z.lor x (x ≫ 16) in
  let x := Z.lor x (x ≫ 32) in
  u64 (x + 1).

(** ** The table: a region of the filter string *)

Record wh_array := { array : list byte; wh_num_buckets : Z; kTagMask : Z }.

(** [MOD(idx, num_buckets_)]. *)
Definition MOD (idx num_buckets_ : Z) : Z := u32 (Z.land idx (u64 (num_buckets_ - 1))).

(** The offset [i_m * 8] is computed in 32 bits. *)
Definition tag_offset (s : wh_array) (i j : Z) : nat :=
  Z.to_nat (u32 (MOD i (wh_num_buckets s) * 8) + j ≪ 1).

Definition WH_ReadTag (s : wh_array) (i j : Z) : Z :=
  Z.land (le_val (take 2 (drop (tag_offset s i j) (array s)))) (kTagMask s).

Definition WH_WriteTag (s : wh_array) (i j t : Z) : wh_array :=
  let off := tag_offset s i j in
  let tag := Z.land (u32 t) (kTagMask s) in
  {| array := splice off (le_bytes 2 tag) (array s);
     wh_num_buckets := wh_num_buckets s; kTagMask := kTagMask s |}.

#[export] Instance wh_store : TagStore wh_array := {|
  ReadTag := WH_ReadTag; MoveTag := WH_WriteTag; PutTag := WH_WriteTag;
|}.

Definition InsertItem (hashcode : Z) (s : wh_array) : option (wh_array * bool) :=
  let num_buckets_ := wh_num_buckets s in
  let init_buck_idx := IndexHash (u32 hashcode) num_buckets_ in
  let tag := TagHash (u32 (hashcode ≫ 32)) in
  insert_item s num_buckets_ init_buck_idx (u64 (tag ≪ 4)).

(** ** The policy *)

(** The number of buckets for [n] keys. *)
Definition num_buckets_of (n : Z) : Z :=
  let num_buckets_ := upperpower2 (Z.max 1 (n / TAG_PER_BUK)) in
  let frac := double_div (double_div (double_of_Z n) (double_of_Z num_buckets_))
                         (double_of_Z TAG_PER_BUK) in
  if double_ltb double_0_8 frac then u64 (num_buckets_ ≪ 1) else num_buckets_.

(** The insertion loop; the result of [InsertItem] is dropped. *)
Fixpoint insert_keys (keys : list (list byte)) (s : wh_array) : option wh_array :=
  match keys with
  | [] => Some s
  | key :: keys =>
      '(s, _) ← InsertItem (WormholeHash key) s;
      insert_keys keys s
  end.

Definition wh_CreateFilter (keys : list (list byte)) (dst : list byte) : option (list byte) :=
  let n := Z.of_nat (length keys) in
  let kBytesPerBucket := (BIT_PER_TAG * TAG_PER_BUK + 7) ≫ 3 in
  let num_buckets_ := num_buckets_of n in
  let bytes := u64 (kBytesPerBucket * num_buckets_) in
  s ← insert_keys keys
        {| array := replicate (Z.to_nat bytes) x00; wh_num_buckets := num_buckets_;
           kTagMask := (1 ≪ BIT_PER_TAG) - 1 |};
  Some (dst ++ array s ++ le_bytes 8 num_buckets_).

(** An 8-byte read at [off] of the filter. *)
Definition read_word (filter : list byte) (off : nat) : option Z :=
  if decide (off + 8 ≤ length filter)%nat
  then Some (le_val (take 8 (drop off filter))) else None.

Fixpoint match_loop (filter : list byte) (num_buckets_ init_buck_idx tag : Z) (ps : list Z)
    : option bool :=
  match ps with
  | [] => Some false
  | prob :: ps =>
      let curr_buck_idx_mod := MOD (u64 (init_buck_idx + prob)) num_buckets_ in
      w ← read_word filter (Z.to_nat (u32 (curr_buck_idx_mod * 8)));
      if negb (hasvalue16 w (Z.lor (u64 (tag ≪ 4)) prob) =? 0) then Some true
      else match_loop filter num_buckets_ init_buck_idx tag ps
  end.

Definition wh_KeyMayMatch (key Wormhole_filter : list byte) : option bool :=
  let len := length Wormhole_filter in
  if (len <? 2)%nat then Some false
  else if (len <? 8)%nat then None
  else let num_buckets_ := le_val (drop (len - 8) Wormhole_filter) in
       let hashcode := WormholeHash key in
       let init_buck_idx := IndexHash (u32 hashcode) num_buckets_ in
       let tag := TagHash (u32 (hashcode ≫ 32)) in
       match_loop Wormhole_filter num_buckets_ init_buck_idx tag probe_seq.

(** [NewWormholeFilterPolicy()]: the policy has no state. *)
Inductive WormholeFilterPolicy := NewWormholeFilterPolicy.

#[export] Instance wormhole_policy : FilterPolicy WormholeFilterPolicy := {|
  CreateFilter _ := wh_CreateFilter; KeyMayMatch _ := wh_KeyMayMatch;
|}.

(** ** [upperpower2] *)

(** Bits [m-k < i <= m] of [y] are set and those above [m] are not. *)
Definition smeared (m k y : Z) : Prop :=
  0 <= y ∧ (∀ i, 0 <= i → m - k < i <= m → Z.testbit y i = true) ∧
  (∀ i, m < i → Z.testbit y i = false).

Lemma smear_step m k k2 y :
  0 < k → k2 = 2 * k → smeared m k y → smeared m k2 (Z.lor y (y ≫ k)).
Proof.
  intros Hk -> (Hy & Hset & Hclr). split_and!.
  - apply Z.lor_nonneg. split; [done|]. by apply Z.shiftr_nonneg.
  - intros i Hi Hr. rewrite Z.lor_spec, Z.shiftr_spec by done.
    destruct (decide (m - k < i)); [by rewrite Hset by lia|].
    rewrite (Hset (i + k)) by lia. apply orb_true_r.
  - intros i Hi. destruct (decide (0 <= i)); [|by rewrite Z.testbit_neg_r by lia].
    by rewrite Z.lor_spec, Z.shiftr_spec, !Hclr by lia.
Qed.

Lemma smear_done m k y : 0 <= m < k → smeared m k y → y = 2 ^ (m + 1) - 1.
Proof.
  intros Hm (Hy & Hset & Hclr). rewrite <- (Z.sub_add 1 (2 ^ (m + 1))), Z.add_simpl_r.
  replace (2 ^ (m + 1) - 1) with (Z.ones (m + 1)) by (rewrite Z.ones_equiv; lia).
  apply Z.bits_inj'. intros i Hi. destruct (decide (i <= m)).
  - rewrite Hset, Z.ones_spec_low by lia. done.
  - rewrite Hclr, Z.ones_spec_high by lia. done.
Qed.

Lemma upperpower2_log2 x : 1 <= x <= 2 ^ 63 → upperpower2 x = 2 ^ Z.log2_up x.
Proof.
  intros Hx. unfold upperpower2. rewrite (u64_small (x - 1)) by lia.
  destruct (decide (x = 1)) as [->|Hne]; [done|].
  set (m := Z.log2 (x - 1)).
  assert (Z.log2_up x = m + 1) as ->.
  { unfold m. rewrite Z.log2_up_eqn by lia. by rewrite <- Z.sub_1_r. }
  assert (0 <= m < 63) as Hm.
  { split; [apply Z.log2_nonneg|]. apply Z.log2_lt_pow2; lia. }
  assert (smeared m 1 (x - 1)) as H1.
  { split_and!; [lia| |].
    - intros i _ Hi. replace i with m by lia. apply Z.bit_log2. lia.
    - intros i Hi. apply Z.bits_above_log2; [lia|done]. }
  apply (smear_step m 1 2) in H1; [|done..]. apply (smear_step m 2 4) in H1; [|done..].
  apply (smear_step m 4 8) in H1; [|done..]. apply (smear_step m 8 16) in H1; [|done..].
  apply (smear_step m 16 32) in H1; [|done..]. apply (smear_step m 32 64) in H1; [|done..].
  apply smear_done in H1; [|lia]. rewrite H1.
  rewrite Z.sub_add, u64_small; [done|]. split; [lia|]. apply Z.pow_lt_mono_r; lia.
Qed.

Lemma num_buckets_of_pow2 n :
  0 <= n < 2 ^ 30 → ∃ e, 0 <= e <= 29 ∧ num_buckets_of n = 2 ^ e.
Proof.
  intros Hn. unfold num_buckets_of.
  assert (1 <= Z.max 1 (n / TAG_PER_BUK) <= 2 ^ 28) as Hm.
  { unfold TAG_PER_BUK. Z.div_mod_to_equations. lia. }
  rewrite upperpower2_log2 by lia.
  assert (0 <= Z.log2_up (Z.max 1 (n / TAG_PER_BUK)) <= 28) as He.
  { split; [apply Z.log2_up_nonneg|]. apply Z.log2_up_le_pow2; lia. }
  set (e := Z.log2_up _) in *. case_match.
  - exists (e + 1). split; [lia|]. rewrite Z.shiftl_mul_pow2, <- Z.pow_add_r by lia.
    apply u64_small. split; [lia|]. apply Z.pow_lt_mono_r; lia.
  - by exists e; split; [lia|].
Qed.

(** ** The store laws *)

Section wh_laws.
Context (nb e : Z) (He : 0 <= e <= 29) (Hpow : nb = 2 ^ e).

Lemma nb_range : 1 <= nb <= 2 ^ 29.
Proof.
  rewrite Hpow. split; [assert (0 < 2 ^ e) by lia; lia|]. apply Z.pow_le_mono_r; lia.
Qed.

Lemma MOD_mod i : MOD i nb = i mod nb.
Proof.
  pose proof nb_range. unfold MOD. rewrite u64_small by lia.
  rewrite Hpow, land_ones_mod by lia. rewrite <- Hpow.
  pose proof (Z.mod_pos_bound i nb ltac:(lia)). apply u32_small. lia.
Qed.

Definition wh_inv (s : wh_array) : Prop :=
  wh_num_buckets s = nb ∧ kTagMask s = 2 ^ 16 - 1 ∧ Z.of_nat (length (array s)) = 8 * nb.

(** The tag stored at position [k] of a byte array. *)
Definition tag_of (arr : list byte) (k : nat) : Z := le_val (take 2 (drop (2 * k) arr)).

Definition wh_tags (s : wh_array) : list Z :=
  tag_of (array s) <$> seq 0 (Nat.div (length (array s)) 2).

Lemma wh_offset s i j :
  wh_inv s → 0 <= j < 4 →
  tag_offset s i j = (2 * Z.to_nat (4 * (i mod nb) + j))%nat ∧
  4 * (i mod nb) + j < 4 * nb ∧ 0 <= i mod nb < nb.
Proof.
  intros (Hn & _ & _) Hj. pose proof nb_range.
  pose proof (Z.mod_pos_bound i nb ltac:(lia)) as Hm.
  unfold tag_offset. rewrite Hn, MOD_mod, u32_small, Z.shiftl_mul_pow2 by lia. lia.
Qed.

Lemma wh_tags_lookup s k :
  wh_inv s → (k < Z.to_nat (4 * nb))%nat → wh_tags s !! k = Some (tag_of (array s) k).
Proof.
  intros (_ & _ & Hlen) Hk. unfold wh_tags.
  rewrite list_lookup_fmap, lookup_seq_lt; [done|].
  apply (Nat.div_le_lower_bound _ _ (S k)); lia.
Qed.

Lemma tag_of_lane arr k : lane_ok (tag_of arr k).
Proof.
  pose proof (le_val_range (take 2 (drop (2 * k) arr))) as H. unfold lane_ok, tag_of.
  split; [lia|]. eapply Z.lt_le_trans; [apply H|]. apply Z.pow_le_mono_r; [lia|].
  rewrite length_take. lia.
Qed.

Lemma WH_ReadTag_tag s i j :
  wh_inv s → 0 <= j < 4 → WH_ReadTag s i j = tag_of (array s) (Z.to_nat (4 * (i mod nb) + j)).
Proof.
  intros Hs Hj. destruct (wh_offset s i j Hs Hj) as (Ho & _). destruct Hs as (_ & Hmask & _).
  unfold WH_ReadTag. rewrite Ho, Hmask, land_ones_mod by lia. fold (tag_of (array s)).
  unfold tag_of at 1. apply Z.mod_small, tag_of_lane.
Qed.

Lemma WH_WriteTag_tags s i j t :
  wh_inv s → 0 <= j < 4 → lane_ok t →
  wh_inv (WH_WriteTag s i j t) ∧
  wh_tags (WH_WriteTag s i j t) = <[Z.to_nat (4 * (i mod nb) + j) := t]> (wh_tags s).
Proof.
  intros Hs Hj Ht. destruct (wh_offset s i j Hs Hj) as (Ho & Hlt & Hm).
  pose proof Hs as (Hn & Hmask & Hlen). unfold lane_ok in Ht.
  assert (tag_offset s i j + length (le_bytes 2 (Z.land (u32 t) (kTagMask s)))
          ≤ length (array s))%nat as Hfit by (rewrite length_le_bytes; lia).
  assert (length (array (WH_WriteTag s i j t)) = length (array s)) as Hlen'
    by (by apply length_splice).
  split; [split_and!; [done|done|by rewrite Hlen']|].
  set (p := Z.to_nat (4 * (i mod nb) + j)) in *.
  apply list_eq. intros k.
  unfold wh_tags at 1. rewrite Hlen'. destruct (decide (k < Nat.div (length (array s)) 2)%nat) as [Hk|Hk].
  2:{ rewrite !lookup_ge_None_2; [done| |];
        rewrite ?length_insert; unfold wh_tags; rewrite length_fmap, length_seq; lia. }
  assert (k < Z.to_nat (4 * nb))%nat as Hk4.
  { pose proof (Nat.div_mod_eq (length (array s)) 2). lia. }
  rewrite list_lookup_fmap, lookup_seq_lt by done. cbn [fmap option_fmap option_map Nat.add].
  destruct (decide (k = p)) as [->|Hne].
  - rewrite list_lookup_insert_eq by (unfold wh_tags; by rewrite length_fmap, length_seq).
    f_equal. unfold tag_of. cbn [array WH_WriteTag]. rewrite <- Ho.
    pose proof (slice_splice_eq _ _ _ Hfit) as Hsl. rewrite length_le_bytes in Hsl.
    rewrite Hsl, le_val_bytes, Hmask, land_ones_mod, u32_small by lia.
    rewrite Z.mod_mod by lia. by apply Z.mod_small.
  - rewrite list_lookup_insert_ne, wh_tags_lookup by (done || lia). f_equal.
    unfold tag_of. cbn [array WH_WriteTag]. f_equal. apply slice_splice_ne; [done|].
    rewrite length_le_bytes. lia.
Qed.

Lemma wh_store_laws : TagStoreLaws wh_array nb wh_inv wh_tags.
Proof.
  split.
  - intros s (_ & _ & Hlen). unfold wh_tags. rewrite length_fmap, length_seq.
    rewrite Nat2Z.inj_div, Hlen. change (Z.of_nat 2) with 2. Z.div_mod_to_equations. lia.
  - intros s _. apply Forall_fmap, Forall_true. intros k. apply tag_of_lane.
  - intros s i j Hs _ Hj. cbn [ReadTag wh_store]. rewrite WH_ReadTag_tag by done.
    destruct (wh_offset s i j Hs Hj) as (_ & ? & ?). apply wh_tags_lookup; [done|lia].
  - intros s i j t Hs _ Hj Ht. by apply WH_WriteTag_tags.
  - intros s i j t Hs _ Hj Ht. by apply WH_WriteTag_tags.
Qed.
End wh_laws.

(** ** Creating a filter *)

Lemma TagHash_ok hv : fpt_ok (u64 (TagHash hv ≪ 4)) ∧ 0 < u64 (TagHash hv ≪ 4).
Proof.
  unfold TagHash. change ((1 ≪ BIT_PER_FPT) - 1) with (2 ^ 12 - 1).
  rewrite land_ones_mod by lia. pose proof (Z.mod_pos_bound hv (2 ^ 12) ltac:(lia)).
  set (t := hv mod 2 ^ 12 + _). assert (1 <= t < 2 ^ 12).
  { unfold t. case_match eqn:E; [apply Z.eqb_eq in E|apply Z.eqb_neq in E]; lia. }
  rewrite Z.shiftl_mul_pow2, u64_small by lia. change (2 ^ 4) with 16. unfold fpt_ok.
  split_and!; try lia. by apply Z.mod_mul.
Qed.

(** The item a key stands for in a table of [nb] buckets. *)
Definition wh_item (nb : Z) (key : list byte) : item :=
  (IndexHash (u32 (WormholeHash key)) nb, u64 (TagHash (u32 (WormholeHash key ≫ 32)) ≪ 4)).

(** Whether every insertion of the loop reports success. *)
Fixpoint inserts_ok (keys : list (list byte)) (s : wh_array) : bool :=
  match keys with
  | [] => true
  | key :: keys =>
      match InsertItem (WormholeHash key) s with
      | Some (s, ok) => ok && inserts_ok keys s
      | None => false
      end
  end.

(** The keys whose insertion reports success. *)
Fixpoint stored_keys (keys : list (list byte)) (s : wh_array) : list (list byte) :=
  match keys with
  | [] => []
  | key :: keys =>
      match InsertItem (WormholeHash key) s with
      | Some (s, ok) => if ok then key :: stored_keys keys s else stored_keys keys s
      | None => []
      end
  end.

Section wh_policy.
Context (nb e : Z) (He : 0 <= e <= 29) (Hpow : nb = 2 ^ e).
Let inv := wh_inv nb.
Let C (s : wh_array) : gmultiset item := contents nb (wh_tags s).

Lemma wh_item_range key : 0 <= (wh_item nb key).1 < nb.
Proof.
  pose proof (nb_range nb e He Hpow).  unfold wh_item. simpl.
  change (IndexHash ?a nb) with (MOD a nb). rewrite (MOD_mod nb e He Hpow).
  apply Z.mod_pos_bound. lia.
Qed.

Lemma InsertItem_spec s key :
  inv s →
  ∃ s' ok, InsertItem (WormholeHash key) s = Some (s', ok) ∧ inv s' ∧
    insert_outcome (wh_item nb key).1 (wh_item nb key).2 (C s) (C s') ok.
Proof.
  intros Hs. pose proof (wh_store_laws nb e He Hpow) as Hlaws. pose proof (nb_range nb e He Hpow).
   pose proof (wh_item_range key) as Hi.
  destruct (TagHash_ok (u32 (WormholeHash key ≫ 32))) as [Ht Hpos].
  unfold InsertItem. destruct Hs as (Hn & Hrest) eqn:Es. rewrite Hn.
  apply (insert_item_spec (nb := nb) ltac:(lia) s); done.
Qed.

Lemma insert_keys_spec keys s :
  inv s →
  ∃ s', insert_keys keys s = Some s' ∧ inv s' ∧ C s ⊆ C s' ∧
    (inserts_ok keys s = true → ∀ key, key ∈ keys → wh_item nb key ∈ C s').
Proof.
  revert s; induction keys as [|key keys IH]; intros s Hs.
  { exists s. split_and!; try done. by intros _ key ?%elem_of_nil. }
  destruct (InsertItem_spec s key Hs) as (s1 & ok & Heq & Hs1 & Hout).
  destruct (IH s1 Hs1) as (s2 & Heq2 & Hs2 & Hsub & Hok).
  cbn [insert_keys inserts_ok]. rewrite Heq. cbn [mbind option_bind]. exists s2.
  assert (C s ⊆ C s1) as Hsub1.
  { destruct ok; [rewrite Hout; apply gmultiset_disj_union_subseteq_l|].
    destruct Hout as (X & -> & _). apply gmultiset_disj_union_subseteq_l. }
  split_and!; try done; [by etrans|].
  intros [-> Hrest]%andb_true_iff key' [->|Hin]%elem_of_cons; [|by apply Hok].
  eapply gmultiset_elem_of_subseteq; [|exact Hsub]. cbn [insert_outcome] in Hout.
  rewrite Hout. apply gmultiset_elem_of_disj_union. right.
  rewrite <- surjective_pairing. by apply gmultiset_elem_of_singleton.
Qed.

(** The table holds the items of the keys that were stored and no others. *)
Lemma insert_keys_contents keys : ∀ s s', inv s → insert_keys keys s = Some s' →
  ∀ x, x ∈ C s' ↔ x ∈ C s ∨ ∃ key, key ∈ stored_keys keys s ∧ wh_item nb key = x.
Proof.
  induction keys as [|key keys IH]; intros s s' Hs; cbn [insert_keys stored_keys].
  { intros [= <-] x. split; [by left|]. by intros [?|(key & ?%not_elem_of_nil & _)]. }
  destruct (InsertItem_spec s key Hs) as (s1 & ok & -> & Hs1 & Hout). cbn [mbind option_bind]. intros Hins x. rewrite (IH s1 s' Hs1 Hins). destruct ok; cbn [insert_outcome] in Hout.
  - rewrite Hout, gmultiset_elem_of_disj_union, gmultiset_elem_of_singleton, <- surjective_pairing. setoid_rewrite elem_of_cons.
    split; [intros [[?| ->]|(k & ? & ?)]; [by left|right; exists key; auto|right; exists k; auto]|intros [?|(k & [->|?] & <-)]; [by left; left|by left; right|right; by exists k]].
  - destruct Hout as (X & -> & Hsub). rewrite gmultiset_elem_of_disj_union. split; [|tauto]. intros [[?|Hx]|?]; [by left| |by right]. left. by eapply gmultiset_elem_of_subseteq.
Qed.

(** ** Querying it *)

Lemma lanes_le_val l :
  length l = 8%nat →
  lanes (le_val l) = (λ j, le_val (take 2 (drop (2 * j) l))) <$> [0; 1; 2; 3]%nat.
Proof.
  destruct l as [|b0 [|b1 [|b2 [|b3 [|b4 [|b5 [|b6 [|b7 [|]]]]]]]]]; try done. intros _.
  cbn [fmap list_fmap Nat.mul Nat.add drop take].
  rewrite <- (lanes_unlanes [le_val [b0; b1]; le_val [b2; b3]; le_val [b4; b5]; le_val [b6; b7]]).
  - f_equal. cbn [unlanes]. rewrite !le_val_cons. cbn [le_val]. lia.
  - repeat constructor; apply (le_val_range [_; _]).
  - done.
Qed.

Lemma read_word_lanes s b tail :
  inv s → 0 <= b < nb →
  ∃ w, read_word (array s ++ tail) (Z.to_nat (b * 8)) = Some w ∧ 0 <= w < 2 ^ 64 ∧
    ∀ v, v ∈ lanes w ↔ ∃ j, 0 <= j < 4 ∧ wh_tags s !! Z.to_nat (4 * b + j) = Some v.
Proof.
  intros Hs Hb. pose proof Hs as (_ & _ & Hlen). 
  unfold read_word. rewrite decide_True by (rewrite length_app; lia).
  rewrite drop_app_le, take_app_le by (rewrite ?length_drop; lia).
  set (l := take 8 _). assert (length l = 8%nat) as Hl.
  { unfold l. rewrite length_take, length_drop. lia. }
  eexists. split; [done|]. split.
  { pose proof (le_val_range l) as Hr. by rewrite Hl in Hr. }
  intros v. rewrite lanes_le_val, list_elem_of_fmap by done.
  assert (∀ j, (j < 4)%nat → wh_tags s !! Z.to_nat (4 * b + Z.of_nat j)
                = Some (le_val (take 2 (drop (2 * j) l)))) as Hj.
  { intros j Hj. rewrite (wh_tags_lookup nb e He Hpow) by (done || lia).
    f_equal. unfold tag_of, l. rewrite skipn_firstn_comm, drop_drop, take_take. f_equal.
    rewrite Nat.min_l by lia. f_equal. f_equal. lia. }
  split.
  - intros (j & -> & Hin). exists (Z.of_nat j).
    assert (j < 4)%nat by (set_unfold; lia). split; [lia|]. by apply Hj.
  - intros (j & Hr & Hv). exists (Z.to_nat j). split; [|set_unfold; lia].
    specialize (Hj (Z.to_nat j) ltac:(lia)). rewrite Z2Nat.id in Hj by lia. congruence.
Qed.

Lemma match_loop_spec s tail h t ps :
  inv s → 0 <= h < nb → fpt_ok (u64 (t ≪ 4)) → Forall (λ d, 0 <= d < 16) ps →
  ∃ b, match_loop (array s ++ tail) nb h t ps = Some b ∧
    (b = true ↔ ∃ d j, d ∈ ps ∧ 0 <= j < 4 ∧
      wh_tags s !! Z.to_nat (4 * ((h + d) mod nb) + j) = Some (Z.lor (u64 (t ≪ 4)) d)).
Proof.
  intros Hs Hh Ht. induction 1 as [|d ps Hd Hps (b & IH & Hb)]; cbn [match_loop].
  { exists false. split; [done|]. split; [done|]. by intros (d & _ & ?%elem_of_nil & _). }
  pose proof (nb_range nb e He Hpow) as Hnb. 
  rewrite (u64_small (h + d)) by lia. rewrite (MOD_mod nb e He Hpow). 
  pose proof (Z.mod_pos_bound (h + d) nb ltac:(lia)) as Hm. rewrite u32_small by lia.
  destruct (read_word_lanes s ((h + d) mod nb) tail Hs Hm) as (w & -> & Hw & Hlanes).
  cbn [mbind option_bind].
  assert (lane_ok (Z.lor (u64 (t ≪ 4)) d)) as Hl.
  { rewrite lor_fpt by done. by apply fpt_add_lane. }
  pose proof (hasvalue16_spec _ _ Hw Hl) as Hhv. rewrite Hlanes in Hhv.
  setoid_rewrite elem_of_cons.
  destruct (Z.eqb_spec (hasvalue16 w (Z.lor (u64 (t ≪ 4)) d)) 0) as [Hz|Hz]; cbn [negb].
  - exists b. split; [done|]. rewrite Hb.
    split; intros (d' & j & Hd' & Hj & Hv); [exists d', j; split; [by right|done]|].
    destruct Hd' as [->|Hd']; [|exists d', j; done].
    destruct Hhv as [_ Hhv]. exfalso. apply Hhv; [|done]. eauto.
  - exists true. split; [done|]. split; [|done]. intros _.
    apply Hhv in Hz as (j & ? & ?). exists d, j. eauto.
Qed.

Lemma wh_KeyMayMatch_spec s key :
  inv s →
  wh_KeyMayMatch key (array s ++ le_bytes 8 nb) = Some (bool_decide (wh_item nb key ∈ C s)).
Proof.
  intros Hs. pose proof Hs as (_ & _ & Hlen). pose proof (nb_range nb e He Hpow) as Hnb.
   unfold wh_KeyMayMatch.
  rewrite length_app, length_le_bytes.
  destruct (Nat.ltb_spec (length (array s) + 8) 2); [lia|].
  destruct (Nat.ltb_spec (length (array s) + 8) 8); [lia|].
  rewrite Nat.add_sub, drop_app_length, le_val_bytes, Z.mod_small by (simpl; lia).
  destruct (TagHash_ok (u32 (WormholeHash key ≫ 32))) as [Ht Hpos].
  pose proof (wh_item_range key) as Hi.
  destruct (match_loop_spec s (le_bytes 8 nb) _ _ _ Hs Hi Ht probe_seq_range) as (b & Heq & Hb).
  unfold wh_item in Heq, Hb. cbn [fst] in Heq, Hb. rewrite Heq. f_equal.
  apply eq_true_iff_eq. rewrite bool_decide_eq_true, Hb.
  pose proof (wh_store_laws nb e He Hpow) as Hlaws. 
  unfold C, wh_item. rewrite (contents_probe nb); try done; try lia.
  - by setoid_rewrite elem_of_probe_seq.
  - by apply (tags_length s).
  - by apply (tags_lane s).
Qed.
End wh_policy.

(** ** The policy keeps LevelDB's promise when every insertion succeeds *)

(** The empty table [CreateFilter] starts from. *)
Definition empty_table (n : Z) : wh_array :=
  {| array := replicate (Z.to_nat (8 * num_buckets_of n)) x00;
     wh_num_buckets := num_buckets_of n; kTagMask := 2 ^ 16 - 1 |}.

Definition wh_good (p : WormholeFilterPolicy) (keys : list (list byte)) : Prop :=
  Z.of_nat (length keys) < 2 ^ 30 ∧
  inserts_ok keys (empty_table (Z.of_nat (length keys))) = true.

Lemma empty_inv n : n < 2 ^ 30 → 0 <= n → wh_inv (num_buckets_of n) (empty_table n).
Proof.
  intros Hn H0. destruct (num_buckets_of_pow2 n) as (e & He & Hpow); [lia|]. pose proof (nb_range _ e He Hpow) as Hnb.
  split_and!; [done|done|]. cbn [array empty_table]. rewrite length_replicate. lia.
Qed.

Lemma wh_CreateFilter_spec keys dst :
  Z.of_nat (length keys) < 2 ^ 30 →
  let n := Z.of_nat (length keys) in
  ∃ e s, 0 <= e <= 29 ∧ num_buckets_of n = 2 ^ e ∧ wh_inv (num_buckets_of n) s ∧
    insert_keys keys (empty_table n) = Some s ∧
    wh_CreateFilter keys dst = Some (dst ++ array s ++ le_bytes 8 (num_buckets_of n)) ∧
    (inserts_ok keys (empty_table n) = true →
     ∀ key, key ∈ keys → wh_item (num_buckets_of n) key ∈ contents (num_buckets_of n) (wh_tags s)).
Proof.
  intros Hn n. destruct (num_buckets_of_pow2 n) as (e & He & Hpow); [lia|].
  pose proof (nb_range _ e He Hpow) as Hnb.
  assert (wh_inv (num_buckets_of n) (empty_table n)) as Hinit by (apply empty_inv; lia).
  destruct (insert_keys_spec _ e He Hpow keys _ Hinit) as (s & Heq & Hs & _ & Hok).
  exists e, s. split_and!; try done; try lia. unfold wh_CreateFilter. fold n.
  change ((BIT_PER_TAG * TAG_PER_BUK + 7) ≫ 3) with 8.
  change ((1 ≪ BIT_PER_TAG) - 1) with (2 ^ 16 - 1). rewrite u64_small by lia.
  fold (empty_table n). rewrite Heq. done.
Qed.

Lemma le_val_zero n : le_val (replicate n x00) = 0.
Proof. induction n as [|n IH]; [done|]. cbn [replicate]. by rewrite le_val_cons, IH. Qed.

Lemma empty_contents n x : x ∉ contents (num_buckets_of n) (wh_tags (empty_table n)).
Proof.
  intros (k & t & Hk & Hi)%contents_elem. unfold wh_tags in Hk. rewrite list_lookup_fmap in Hk. apply fmap_Some in Hk as (i & _ & ->).
  unfold tag_of in Hi. cbn [array empty_table] in Hi. by rewrite drop_replicate, take_replicate, le_val_zero in Hi.
Qed.

#[export] Instance wormhole_laws : FilterPolicyLaws WormholeFilterPolicy wh_good.
Proof.
  split. intros p keys dst [Hn Hok].
  destruct (wh_CreateFilter_spec keys dst Hn) as (e & s & He & Hpow & Hs & _ & Heq & Hin).
  eexists. split; [exact Heq|]. intros key Hkey. cbn [KeyMayMatch wormhole_policy].
  rewrite (wh_KeyMayMatch_spec _ e He Hpow s key Hs). f_equal.
  apply bool_decide_eq_true. by apply Hin.
Qed.

(** ** Claims *)

(** C22: the LevelDB wormhole policy returns a filter for every list of fewer
    than 2^30 keys, and when each insertion of the construction reports
    success, [KeyMayMatch] on that filter answers true for every key of the
    list. *)
Theorem wormhole_no_false_negative p keys dst :
  wh_good p keys →
  ∃ filter, CreateFilter p keys dst = Some (dst ++ filter) ∧
    ∀ key, key ∈ keys → KeyMayMatch p key filter = Some true.
Proof. apply create_matches. Qed.

Lemma wormhole_no_false_negative_witness :
  ∃ filter, CreateFilter NewWormholeFilterPolicy [[x61]; [x62]; [x63]] [x00] = Some (x00 :: filter) ∧
    KeyMayMatch NewWormholeFilterPolicy [x62] filter = Some true.
Proof.
  destruct (wormhole_no_false_negative NewWormholeFilterPolicy [[x61]; [x62]; [x63]] [x00])
    as (filter & Heq & Hall).
  - split; [cbn; lia|vm_compute; reflexivity].
  - exists filter. split; [exact Heq|]. apply Hall. right. left.
Defined.

(** C39: what a filter matches.  [CreateFilter] ignores the result of [InsertItem]:
    the filter it makes from fewer than 2^30 keys matches a key exactly when the
    insertion of some key with the same home bucket and fingerprint reported
    success.  So a key whose insertion failed is missed, although it was in the list
    the filter was made from, unless another key stands in for it. *)
Theorem wormhole_match_exact keys dst : Z.of_nat (length keys) < 2 ^ 30 →
  let n := Z.of_nat (length keys) in
  ∃ filter, wh_CreateFilter keys dst = Some (dst ++ filter) ∧
    ∀ key, ∃ b, wh_KeyMayMatch key filter = Some b ∧
      (b = true ↔ ∃ k, k ∈ stored_keys keys (empty_table n) ∧ wh_item (num_buckets_of n) k = wh_item (num_buckets_of n) key).
Proof.
  intros Hn n. destruct (wh_CreateFilter_spec keys dst Hn) as (e & s & He & Hpow & Hs & Hins & Heq & _). fold n in Hpow, Hs, Hins, Heq.
  eexists. split; [exact Heq|]. intros key. eexists. split; [apply (wh_KeyMayMatch_spec _ e He Hpow s key Hs)|].
  rewrite bool_decide_eq_true, (insert_keys_contents _ e He Hpow keys (empty_table n) s (empty_inv n Hn ltac:(lia)) Hins). split; [|by right].
  intros [Hx|Hx]; [|done]. by apply empty_contents in Hx.
Qed.

(** A block with 64 versions of one user key and another key with the same home
    bucket. *)
Lemma wormhole_match_exact_witness : ∃ filter, wh_CreateFilter (replicate 64 [x61] ++ [[x73]]) [] = Some filter ∧ wh_KeyMayMatch [x73] filter = Some false.
Proof.
  destruct (wormhole_match_exact (replicate 64 [x61] ++ [[x73]]) []) as (filter & Hf & Hm); [reflexivity|]. exists filter. split; [exact Hf|].
  destruct (Hm [x73]) as (b & Hb & Hiff). destruct b; [|exact Hb]. exfalso. destruct (proj1 Hiff eq_refl) as (k & Hk & Hi).
  change (stored_keys _ _) with (stored_keys (replicate 64 [x61] ++ [[x73]]) (empty_table 65)) in Hk.
  assert (stored_keys (replicate 64 [x61] ++ [[x73]]) (empty_table 65) = replicate 64 [x61]) as Hst by (vm_compute; reflexivity). rewrite Hst in Hk.
  apply elem_of_replicate_inv in Hk as ->. vm_compute in Hi. discriminate Hi.
Defined.

(** [upperpower2] rounds up to a power of two: for 1 <= x <= 2^63 the
    result is the least power of two not below [x]. *)
Theorem upperpower2_least x :
  1 <= x <= 2 ^ 63 →
  ∃ e, 0 <= e ∧ upperpower2 x = 2 ^ e ∧ x <= 2 ^ e ∧ ∀ e', 0 <= e' → x <= 2 ^ e' → 2 ^ e <= 2 ^ e'.
Proof.
  intros Hx. exists (Z.log2_up x). split_and!.
  - apply Z.log2_up_nonneg.
  - by apply upperpower2_log2.
  - destruct (decide (x = 1)) as [->|]; [done|]. apply Z.log2_up_spec. lia.
  - intros e' He' Hle. apply Z.pow_le_mono_r; [lia|]. apply Z.log2_up_le_pow2; [lia|done].
Qed.

Lemma upperpower2_least_witness :
  ∃ e, 0 <= e ∧ upperpower2 13 = 2 ^ e ∧ 13 <= 2 ^ e ∧
    ∀ e', 0 <= e' → 13 <= 2 ^ e' → 2 ^ e <= 2 ^ e'.
Proof. apply (upperpower2_least 13). lia. Defined.
