(* ===== verification/Bloom.v ===== *)
(** LevelDB's built-in Bloom filter policy (util/bloom.cc). *)
From Stdlib Require Import Floats.SpecFloat.
From S2P Require Import Prelude Hash Double FilterPolicy.

Definition BloomHash (key : list byte) : Z := Hash key 0xbc9f1d34.

Record BloomFilterPolicy := { bits_per_key_ : Z; k_ : Z }.

(** The constructor: the number of probes is 0.69 times the bits per key,
    rounded down and clamped to 1..30. *)
Definition NewBloomFilterPolicy (bits_per_key : Z) : BloomFilterPolicy :=
  let k := double_trunc (SFmul 53 1024 (double_of_Z bits_per_key) double_0_69) in
  let k := if k <? 1 then 1 else k in
  let k := if 30 <? k then 30 else k in
  {| bits_per_key_ := bits_per_key; k_ := k |}.

(** [(h >> 17) | (h << 15)] in 32 bits. *)
Definition rotate17 (h : Z) : Z := Z.lor (h ≫ 17) (u32 (h ≪ 15)).

(** [array[bitpos / 8] |= (1 << (bitpos % 8))]. *)
Definition set_bit (array : list byte) (bitpos : Z) : list byte :=
  let i := Z.to_nat (bitpos / 8) in
  <[i := b8 (Z.lor (u8 (array !!! i)) (1 ≪ (bitpos mod 8)))]> array.

Definition test_bit (array : list byte) (bitpos : Z) : bool :=
  negb (Z.land (u8 (array !!! Z.to_nat (bitpos / 8))) (1 ≪ (bitpos mod 8)) =? 0).

(** The probe loop of the construction. *)
Fixpoint set_probes (k : nat) (bits h delta : Z) (array : list byte) : list byte :=
  match k with
  | O => array
  | S k =>
      let bitpos := u32 (h mod bits) in
      set_probes k bits (u32 (h + delta)) delta (set_bit array bitpos)
  end.

Definition add_key (k : nat) (bits : Z) (array key : list byte) : list byte :=
  let h := BloomHash key in
  set_probes k bits h (rotate17 h) array.

Definition bloom_bytes (p : BloomFilterPolicy) (n : Z) : Z :=
  let bits := u64 (n * bits_per_key_ p) in
  let bits := if bits <? 64 then 64 else bits in
  u64 (bits + 7) / 8.

Definition bloom_CreateFilter (p : BloomFilterPolicy) (keys : list (list byte)) (dst : list byte)
    : option (list byte) :=
  let bytes := bloom_bytes p (Z.of_nat (length keys)) in
  let bits := u64 (bytes * 8) in
  let array := foldl (add_key (Z.to_nat (k_ p)) bits) (replicate (Z.to_nat bytes) x00) keys in
  Some (dst ++ array ++ [b8 (k_ p)]).

(** The probe loop of the query. *)
Fixpoint test_probes (k : nat) (bits h delta : Z) (array : list byte) : bool :=
  match k with
  | O => true
  | S k =>
      let bitpos := u32 (h mod bits) in
      if negb (test_bit array bitpos) then false
      else test_probes k bits (u32 (h + delta)) delta array
  end.

Definition bloom_KeyMayMatch (key bloom_filter : list byte) : option bool :=
  let len := length bloom_filter in
  if (len <? 2)%nat then Some false
  else let bits := u64 ((Z.of_nat len - 1) * 8) in
       (* the stored byte is a plain char, widened to size_t *)
       let k := u64 (s8 (bloom_filter !!! (len - 1)%nat)) in
       if 30 <? k then Some true
       else let h := BloomHash key in
            Some (test_probes (Z.to_nat k) bits h (rotate17 h) bloom_filter).

#[export] Instance bloom_policy : FilterPolicy BloomFilterPolicy := {|
  CreateFilter := bloom_CreateFilter; KeyMayMatch _ := bloom_KeyMayMatch;
|}.

(** ** Bits once set stay set *)

Lemma test_bit_testbit arr pos :
  test_bit arr pos = Z.testbit (u8 (arr !!! Z.to_nat (pos / 8))) (pos mod 8).
Proof.
  unfold test_bit. pose proof (Z.mod_pos_bound pos 8 ltac:(lia)) as Hm.
  rewrite Z.shiftl_1_l. set (i := pos mod 8) in *. set (v := u8 _).
  assert (Z.land v (2 ^ i) = if Z.testbit v i then 2 ^ i else 0) as ->.
  { apply Z.bits_inj'. intros j Hj. rewrite Z.land_spec, Z.pow2_bits_eqb by lia.
    destruct (Z.eqb_spec i j) as [<-|Hne].
    - destruct (Z.testbit v i); [by rewrite Z.pow2_bits_true|by rewrite Z.bits_0].
    - rewrite andb_false_r. destruct (Z.testbit v i); [by rewrite Z.pow2_bits_false by lia|].
      by rewrite Z.bits_0. }
  destruct (Z.testbit v i); [|done]. destruct (Z.eqb_spec (2 ^ i) 0); [lia|done].
Qed.

Lemma set_bit_test arr pos pos' :
  0 <= pos < 8 * Z.of_nat (length arr) → 0 <= pos' →
  test_bit (set_bit arr pos) pos' = (pos =? pos') || test_bit arr pos'.
Proof.
  intros Hp Hp'. rewrite !test_bit_testbit. unfold set_bit.
  pose proof (Z.mod_pos_bound pos 8 ltac:(lia)). pose proof (Z.mod_pos_bound pos' 8 ltac:(lia)).
  pose proof (Z.div_mod pos 8 ltac:(lia)). pose proof (Z.div_mod pos' 8 ltac:(lia)).
  destruct (decide (pos / 8 = pos' / 8)) as [Heq|Hne].
  - rewrite <- Heq, list_lookup_total_insert_eq.
    2:{ apply Nat2Z.inj_lt. rewrite Z2Nat.id by (apply Z.div_pos; lia).
        apply Z.div_lt_upper_bound; lia. }
    rewrite u8_b8. change 256 with (2 ^ 8). rewrite Z.mod_pow2_bits_low by lia.
    rewrite Z.lor_spec, Z.shiftl_1_l, Z.pow2_bits_eqb by lia. rewrite orb_comm. f_equal.
    destruct (Z.eqb_spec (pos mod 8) (pos' mod 8)), (Z.eqb_spec pos pos'); lia.
  - rewrite list_lookup_total_insert_ne.
    2:{ intros E. apply Hne. apply Z2Nat.inj in E; [done|apply Z.div_pos; lia..]. }
    destruct (Z.eqb_spec pos pos') as [->|]; [done|done].
Qed.

Lemma length_set_bit arr pos : length (set_bit arr pos) = length arr.
Proof. apply length_insert. Qed.

Lemma length_set_probes k bits h delta arr :
  length (set_probes k bits h delta arr) = length arr.
Proof.
  revert h arr; induction k as [|k IH]; intros h arr; [done|].
  cbn [set_probes]. by rewrite IH, length_set_bit.
Qed.

Section probes.
Context (bits : Z) (Hbits : 0 < bits).

Lemma bitpos_range h : 0 <= h < 2 ^ 32 → 0 <= u32 (h mod bits) < bits.
Proof.
  intros Hh. pose proof (Z.mod_pos_bound h bits Hbits).
  assert (h mod bits <= h) by (apply Z.mod_le; lia). rewrite u32_small; lia.
Qed.

Lemma set_probes_keeps k h delta arr pos :
  bits = 8 * Z.of_nat (length arr) → 0 <= h < 2 ^ 32 → 0 <= pos →
  test_bit arr pos = true → test_bit (set_probes k bits h delta arr) pos = true.
Proof.
  revert h arr; induction k as [|k IH]; intros h arr Hlen Hh Hp Ht; [done|].
  cbn [set_probes]. pose proof (bitpos_range h Hh). apply IH; try done.
  - by rewrite length_set_bit.
  - apply u32_range.
  - rewrite set_bit_test, Ht by lia. apply orb_true_r.
Qed.

Lemma test_probes_set k h delta arr tail :
  bits = 8 * Z.of_nat (length arr) → 0 <= h < 2 ^ 32 →
  ∀ arr', length arr' = length arr →
  (∀ pos, 0 <= pos < bits → test_bit (set_probes k bits h delta arr) pos = true →
          test_bit arr' pos = true) →
  test_probes k bits h delta (arr' ++ tail) = true.
Proof.
  revert h arr; induction k as [|k IH]; intros h arr Hlen Hh arr' Hlen' Hsub; [done|].
  cbn [set_probes test_probes] in *. pose proof (bitpos_range h Hh) as Hb.
  assert (test_bit (arr' ++ tail) (u32 (h mod bits)) = test_bit arr' (u32 (h mod bits))) as ->.
  { unfold test_bit. rewrite lookup_total_app_l; [done|].
    apply Nat2Z.inj_lt. rewrite Z2Nat.id by (apply Z.div_pos; lia).
    apply Z.div_lt_upper_bound; lia. }
  rewrite Hsub; [cbn [negb]| |].
  - eapply (IH _ (set_bit arr (u32 (h mod bits)))); try done.
    + by rewrite length_set_bit.
    + apply u32_range.
    + by rewrite length_set_bit.
  - done.
  - apply set_probes_keeps; try done.
    + by rewrite length_set_bit.
    + apply u32_range.
    + lia.
    + rewrite set_bit_test by lia. by rewrite Z.eqb_refl.
Qed.

Lemma length_add_keys k keys arr : length (foldl (add_key k bits) arr keys) = length arr.
Proof.
  revert arr; induction keys as [|key keys IH]; intros arr; [done|].
  cbn [foldl]. rewrite IH. apply length_set_probes.
Qed.

Lemma add_keys_keeps k keys arr pos :
  bits = 8 * Z.of_nat (length arr) → 0 <= pos → test_bit arr pos = true →
  test_bit (foldl (add_key k bits) arr keys) pos = true.
Proof.
  revert arr; induction keys as [|key keys IH]; intros arr Hlen Hp Ht; [done|].
  cbn [foldl]. apply IH; [|done|].
  - unfold add_key. by rewrite length_set_probes.
  - unfold add_key. apply set_probes_keeps; try done. apply Hash_range. lia.
Qed.

Lemma add_keys_match k keys arr tail key :
  bits = 8 * Z.of_nat (length arr) → key ∈ keys →
  test_probes k bits (BloomHash key) (rotate17 (BloomHash key))
    (foldl (add_key k bits) arr keys ++ tail) = true.
Proof.
  revert arr; induction keys as [|key' keys IH]; intros arr Hlen; [by intros ?%elem_of_nil|].
  assert (bits = 8 * Z.of_nat (length (add_key k bits arr key'))) as Hlen'.
  { unfold add_key. by rewrite length_set_probes. }
  intros [->|Hin]%elem_of_cons; cbn [foldl]; [|by apply IH].
  eapply (test_probes_set k _ _ arr); try done.
  - apply Hash_range. lia.
  - rewrite length_add_keys. unfold add_key. by rewrite length_set_probes.
  - intros pos Hp Ht. apply add_keys_keeps; [done|lia|exact Ht].
Qed.
End probes.

(** ** The policy keeps its promise *)

(** The sizes stay within [size_t], and [k_] is what the constructor set. *)
Definition bloom_good (p : BloomFilterPolicy) (keys : list (list byte)) : Prop :=
  0 <= bits_per_key_ p ∧ 1 <= k_ p <= 30 ∧
  Z.of_nat (length keys) * bits_per_key_ p + 71 < 2 ^ 64.

Lemma NewBloomFilterPolicy_k bits_per_key : 1 <= k_ (NewBloomFilterPolicy bits_per_key) <= 30.
Proof.
  unfold NewBloomFilterPolicy. cbn [k_]. set (k := double_trunc _).
  destruct (Z.ltb_spec k 1); [destruct (Z.ltb_spec 30 1)|destruct (Z.ltb_spec 30 k)]; lia.
Qed.

#[export] Instance bloom_laws : FilterPolicyLaws BloomFilterPolicy bloom_good.
Proof.
  split. intros p keys dst (Hb & Hk & Hfit).
  cbn [CreateFilter KeyMayMatch bloom_policy]. unfold bloom_CreateFilter.
  set (n := Z.of_nat (length keys)) in *. assert (0 <= n * bits_per_key_ p) by nia.
  assert (8 <= bloom_bytes p n ∧ bloom_bytes p n * 8 < 2 ^ 64) as [Hbytes Hbits].
  { unfold bloom_bytes. rewrite (u64_small (n * bits_per_key_ p)) by lia.
    destruct (Z.ltb_spec (n * bits_per_key_ p) 64); rewrite u64_small by lia;
      Z.div_mod_to_equations; lia. }
  set (bytes := bloom_bytes p n) in *. rewrite (u64_small (bytes * 8)) by lia.
  eexists. split; [done|]. intros key Hkey. set (arr := foldl _ _ _).
  assert (length arr = Z.to_nat bytes) as Hlen.
  { unfold arr. by rewrite length_add_keys, length_replicate. }
  unfold bloom_KeyMayMatch. rewrite length_app. cbn [length].
  destruct (Nat.ltb_spec (length arr + 1) 2); [lia|].
  rewrite Nat.add_sub, lookup_total_app_r, Nat.sub_diag by lia. cbn [lookup_total list_lookup_total].
  assert (s8 (b8 (k_ p)) = k_ p) as ->.
  { unfold s8. rewrite u8_b8, Z.mod_small by lia. destruct (Z.ltb_spec (k_ p) 128); lia. }
  rewrite (u64_small (k_ p)) by lia. destruct (Z.ltb_spec 30 (k_ p)); [lia|]. f_equal.
  replace (u64 ((Z.of_nat (length arr + 1) - 1) * 8)) with (bytes * 8)
    by (rewrite u64_small; lia).
  apply add_keys_match; [lia| |done]. rewrite length_replicate. lia.
Qed.

(** ** Claims *)

(** C37: for every setting of bits per key and every list of keys whose filter
    size fits [size_t], a filter built by the Bloom policy matches each key it
    was built from. *)
Theorem bloom_no_false_negative bits_per_key keys dst :
  0 <= bits_per_key → Z.of_nat (length keys) * bits_per_key + 71 < 2 ^ 64 →
  ∃ filter, CreateFilter (NewBloomFilterPolicy bits_per_key) keys dst = Some (dst ++ filter) ∧
    ∀ key, key ∈ keys → KeyMayMatch (NewBloomFilterPolicy bits_per_key) key filter = Some true.
Proof.
  intros Hb Hfit. apply create_matches. split_and!; [done|apply NewBloomFilterPolicy_k..|done].
Qed.

Lemma bloom_no_false_negative_witness :
  ∃ filter, CreateFilter (NewBloomFilterPolicy 10) [[x61]; [x62]] [] = Some filter ∧
    KeyMayMatch (NewBloomFilterPolicy 10) [x62] filter = Some true.
Proof.
  destruct (bloom_no_false_negative 10 [[x61]; [x62]] []) as (filter & Heq & Hall).
  - lia.
  - cbn. lia.
  - exists filter. split; [exact Heq|]. apply Hall. right. left.
Defined.
