(* ===== verification/FilterBlock.v ===== *)
(** The filter block of a table: one filter per 2 KB of data-block offsets
    (table/filter_block.cc), over any filter policy. *)
From stdpp Require Import sorting.
From S2P Require Import Prelude Coding FilterPolicy Bloom.

Definition kFilterBaseLg : Z := 11.
Definition kFilterBase : Z := 1 ≪ kFilterBaseLg.

Section filter_block.
Context {P : Type} `{FilterPolicy P}.

(** ** The builder *)

Record FilterBlockBuilder := {
  policy_ : P;
  keys_ : list byte;           (* flattened key contents *)
  start_ : list nat;           (* starting index in keys_ of each key *)
  result_ : list byte;         (* filter data computed so far *)
  filter_offsets_ : list Z;
}.

Definition FilterBlockBuilder_new (policy : P) : FilterBlockBuilder :=
  {| policy_ := policy; keys_ := []; start_ := []; result_ := []; filter_offsets_ := [] |}.

(** The key slices between consecutive starting indices. *)
Fixpoint key_slices (keys : list byte) (start : list nat) : list (list byte) :=
  match start with
  | s0 :: ((s1 :: _) as rest) => take (s1 - s0) (drop s0 keys) :: key_slices keys rest
  | _ => []
  end.

Definition GenerateFilter (b : FilterBlockBuilder) : option FilterBlockBuilder :=
  match start_ b with
  | [] =>
      Some {| policy_ := policy_ b; keys_ := keys_ b; start_ := start_ b; result_ := result_ b;
              filter_offsets_ := filter_offsets_ b ++ [u32 (Z.of_nat (length (result_ b)))] |}
  | _ =>
      let tmp_keys := key_slices (keys_ b) (start_ b ++ [length (keys_ b)]) in
      result ← CreateFilter (policy_ b) tmp_keys (result_ b);
      Some {| policy_ := policy_ b; keys_ := []; start_ := []; result_ := result;
              filter_offsets_ := filter_offsets_ b ++ [u32 (Z.of_nat (length (result_ b)))] |}
  end.

(** [while (filter_index > filter_offsets_.size()) GenerateFilter()]. *)
Fixpoint generate_until (n : nat) (b : FilterBlockBuilder) : option FilterBlockBuilder :=
  match n with
  | O => Some b
  | S n => b ← GenerateFilter b; generate_until n b
  end.

Definition StartBlock (block_offset : Z) (b : FilterBlockBuilder) : option FilterBlockBuilder :=
  let filter_index := block_offset / kFilterBase in
  generate_until (Z.to_nat filter_index - length (filter_offsets_ b)) b.

Definition AddKey (key : list byte) (b : FilterBlockBuilder) : FilterBlockBuilder :=
  {| policy_ := policy_ b; keys_ := keys_ b ++ key; start_ := start_ b ++ [length (keys_ b)];
     result_ := result_ b; filter_offsets_ := filter_offsets_ b |}.

Definition FilterBlock_Finish (b : FilterBlockBuilder) : option (list byte) :=
  b ← (match start_ b with [] => Some b | _ => GenerateFilter b end);
  let array_offset := u32 (Z.of_nat (length (result_ b))) in
  let result := foldl PutFixed32 (result_ b) (filter_offsets_ b) in
  Some (PutFixed32 result array_offset ++ [b8 kFilterBaseLg]).

(** ** The reader *)

Record FilterBlockReader := {
  rd_policy : P;
  rd_contents : list byte;
  rd_offset : nat;          (* offset_ - data_ *)
  rd_num : Z;
  rd_base_lg : Z;
}.

Definition FilterBlockReader_new (policy : P) (contents : list byte) : option FilterBlockReader :=
  let n := length contents in
  let fail base_lg :=
    Some {| rd_policy := policy; rd_contents := []; rd_offset := 0; rd_num := 0;
            rd_base_lg := base_lg |} in
  if (n <? 5)%nat then fail 0
  else let base_lg := u64 (s8 (contents !!! (n - 1)%nat)) in
       last_word ← DecodeFixed32 (drop (n - 5) contents);
       if Z.of_nat (n - 5) <? last_word then fail base_lg
       else Some {| rd_policy := policy; rd_contents := contents;
                    rd_offset := Z.to_nat last_word;
                    rd_num := (Z.of_nat (n - 5) - last_word) / 4;
                    rd_base_lg := base_lg |}.

Definition Reader_KeyMayMatch (r : FilterBlockReader) (block_offset : Z) (key : list byte)
    : option bool :=
  if 64 <=? rd_base_lg r then None
  else let index := block_offset ≫ rd_base_lg r in
       if index <? rd_num r
       then let at_ := (rd_offset r + Z.to_nat index * 4)%nat in
            start ← DecodeFixed32 (drop at_ (rd_contents r));
            limit ← DecodeFixed32 (drop (at_ + 4)%nat (rd_contents r));
            if (start <=? limit) && (limit <=? Z.of_nat (rd_offset r))
            then KeyMayMatch (rd_policy r) key
                   (take (Z.to_nat (limit - start)) (drop (Z.to_nat start) (rd_contents r)))
            else if start =? limit then Some false else Some true
       else Some true.

(** ** A whole build: for each data block, StartBlock and its AddKeys; then Finish. *)

Fixpoint build_blocks (blocks : list (Z * list (list byte))) (b : FilterBlockBuilder)
    : option FilterBlockBuilder :=
  match blocks with
  | [] => Some b
  | (off, keys) :: blocks =>
      b ← StartBlock off b;
      build_blocks blocks (foldl (λ b key, AddKey key b) b keys)
  end.

Definition build_filter_block (policy : P) (blocks : list (Z * list (list byte)))
    : option (list byte) :=
  b ← build_blocks blocks (FilterBlockBuilder_new policy);
  FilterBlock_Finish b.

(** ** The representation invariant *)

(** Starting offsets of consecutive strings. *)
Fixpoint starts (acc : nat) (ls : list (list byte)) : list nat :=
  match ls with
  | [] => []
  | l :: ls => acc :: starts (acc + length l) ls
  end.

Lemma starts_app acc ls1 ls2 :
  starts acc (ls1 ++ ls2) = starts acc ls1 ++ starts (acc + length (mjoin ls1)) ls2.
Proof.
  revert acc; induction ls1 as [|l ls1 IH]; intros acc; [simpl; f_equal; lia|].
  simpl. rewrite IH, length_app. do 3 f_equal. lia.
Qed.

Lemma length_starts acc ls : length (starts acc ls) = length ls.
Proof. revert acc; induction ls; intros acc; simpl; auto. Qed.

Lemma starts_lookup acc ls i :
  (i < length ls)%nat → starts acc ls !! i = Some (acc + length (mjoin (take i ls)))%nat.
Proof.
  revert acc i; induction ls as [|l ls IH]; intros acc i Hi; [simpl in Hi; lia|].
  destruct i as [|i]; simpl; [f_equal; lia|]. simpl in Hi. rewrite IH by lia.
  rewrite length_app. f_equal. lia.
Qed.

Lemma key_slices_cons keys s0 s1 rest :
  key_slices keys (s0 :: s1 :: rest)
  = take (s1 - s0) (drop s0 keys) :: key_slices keys (s1 :: rest).
Proof. done. Qed.

Lemma key_slices_starts pre ls tail :
  key_slices (pre ++ mjoin ls ++ tail) (starts (length pre) ls ++ [length (pre ++ mjoin ls)])
  = ls.
Proof.
  revert pre; induction ls as [|l ls IH]; intros pre; [done|].
  assert (∃ s1 rest, starts (length pre + length l) ls ++ [length (pre ++ mjoin (l :: ls))]
                     = s1 :: rest ∧ s1 = (length pre + length l)%nat) as (s1 & rest & Heq & ->).
  { destruct ls as [|l' ls]; simpl; eexists _, _; (split; [done|]); [|done].
    rewrite !length_app. simpl. lia. }
  cbn [starts app]. rewrite Heq, key_slices_cons, <- Heq. f_equal.
  - rewrite drop_app_length. replace (length pre + length l - length pre)%nat with (length l) by lia.
    simpl. by rewrite <- app_assoc, take_app_length.
  - specialize (IH (pre ++ l)). rewrite length_app in IH. simpl.
    rewrite <- (app_assoc pre l (mjoin ls)) in IH. rewrite <- !app_assoc in IH |- *. exact IH.
Qed.

(** [rep b cur filters]: [filters] are the filters written so far, one
    per closed index, and [cur] the keys waiting for the next one. *)
Record rep (b : FilterBlockBuilder) (cur filters : list (list byte)) : Prop := {
  rep_keys : keys_ b = mjoin cur;
  rep_start : start_ b = starts 0 cur;
  rep_result : result_ b = mjoin filters;
  rep_offsets : filter_offsets_ b = (λ n : nat, u32 (Z.of_nat n)) <$> starts 0 filters;
}.

Lemma rep_new policy : rep (FilterBlockBuilder_new policy) [] [].
Proof. by split. Qed.

Lemma rep_AddKey key b cur filters : rep b cur filters → rep (AddKey key b) (cur ++ [key]) filters.
Proof.
  intros [Hk Hs Hr Ho]. split; cbn [keys_ start_ result_ filter_offsets_ AddKey]; [| |done|done].
  - rewrite Hk, join_app. simpl. by rewrite app_nil_r.
  - by rewrite Hs, starts_app, Hk.
Qed.

Lemma rep_AddKeys keys b cur filters :
  rep b cur filters → rep (foldl (λ b key, AddKey key b) b keys) (cur ++ keys) filters.
Proof.
  revert b cur; induction keys as [|key keys IH]; intros b cur Hrep; cbn [foldl].
  - by rewrite app_nil_r.
  - rewrite cons_middle, app_assoc. apply IH. by apply rep_AddKey.
Qed.

Lemma AddKeys_policy keys b : policy_ (foldl (λ b key, AddKey key b) b keys) = policy_ b.
Proof. revert b; induction keys as [|key keys IH]; intros b; [done|]. cbn [foldl]. by rewrite IH. Qed.
End filter_block.

(** ** Correctness of a whole build *)

Section filter_block_laws.
Context {P : Type} `{!FilterPolicy P} {good : P → list (list byte) → Prop}
  `{!FilterPolicyLaws P good}.
Implicit Types b : @FilterBlockBuilder P.

Definition block_index (off : Z) : nat := Z.to_nat (off / kFilterBase).

(** The keys of the blocks that share filter [i]. *)
Definition group (blocks : list (Z * list (list byte))) (i : nat) : list (list byte) :=
  mjoin (snd <$> filter (λ blk, block_index blk.1 = i) blocks).

Lemma group_app blocks1 blocks2 i :
  group (blocks1 ++ blocks2) i = group blocks1 i ++ group blocks2 i.
Proof. unfold group. by rewrite filter_app, fmap_app, join_app. Qed.

Lemma group_nil blocks i :
  Forall (λ blk : Z * list (list byte), (block_index blk.1 ≠ i)%nat) blocks → group blocks i = [].
Proof.
  intros Hall. unfold group. induction Hall as [|blk blocks Hne _ IH]; [done|].
  by rewrite filter_cons_False.
Qed.

Lemma elem_of_group blocks off keys key :
  (off, keys) ∈ blocks → key ∈ keys → key ∈ group blocks (block_index off).
Proof.
  intros Hin Hkey. unfold group. apply list_elem_of_join. exists keys. split; [done|].
  apply list_elem_of_fmap. exists (off, keys). split; [done|].
  by apply list_elem_of_filter.
Qed.

Definition matches (p : P) (keys : list (list byte)) (f : list byte) : Prop :=
  ∀ key, key ∈ keys → KeyMayMatch p key f = Some true.

(** The state after the blocks [seen]: [filters] answers for the closed groups
    and the pending keys are the group of the next index. *)
Record built (p : P) (seen : list (Z * list (list byte))) (filters : list (list byte)) b : Prop := {
  built_policy : policy_ b = p;
  built_rep : rep b (group seen (length filters)) filters;
  built_match : ∀ i f, filters !! i = Some f → matches p (group seen i) f;
  built_index : Forall (λ blk, (block_index blk.1 ≤ length filters)%nat) seen;
}.

Lemma GenerateFilter_spec p cur filters b :
  policy_ b = p → rep b cur filters → (cur ≠ [] → good p cur) →
  ∃ f b', GenerateFilter b = Some b' ∧ policy_ b' = p ∧ rep b' [] (filters ++ [f]) ∧
    matches p cur f.
Proof.
  intros Hp [Hk Hs Hr Ho] Hgood. unfold GenerateFilter.
  assert (∀ f, (λ n : nat, u32 (Z.of_nat n)) <$> starts 0 (filters ++ [f]) =
    filter_offsets_ b ++ [u32 (Z.of_nat (length (result_ b)))]) as Hoffs.
  { intros f. by rewrite starts_app, fmap_app, Ho, Hr. }
  destruct cur as [|k cur].
  - rewrite Hs. simpl. exists [], {| policy_ := policy_ b; keys_ := keys_ b; start_ := [];
      result_ := result_ b;
      filter_offsets_ := filter_offsets_ b ++ [u32 (Z.of_nat (length (result_ b)))] |}.
    split_and!; [done|done| |by intros key ?%not_elem_of_nil].
    split; [done|done| |done]. simpl. by rewrite Hr, join_app, app_nil_r.
  - destruct (start_ b) as [|s0 ss] eqn:Hss; [done|]. rewrite Hs, Hk.
    pose proof (key_slices_starts [] (k :: cur) []) as Hslices.
    rewrite app_nil_r in Hslices. cbn [app length] in Hslices. rewrite Hslices, Hp.
    destruct (create_matches p (k :: cur) (result_ b) (Hgood ltac:(done))) as (f & Hf & Hm).
    rewrite Hf. cbn [mbind option_bind]. eexists f, _. split_and!; [done|done| |done].
    split; [done|done| |done]. cbn [result_]. rewrite Hr, join_app. simpl. by rewrite app_nil_r.
Qed.

Section run.
Context (p : P) (all : list (Z * list (list byte))).
Hypothesis Hgood : ∀ i, group all i ≠ [] → good p (group all i).

Lemma built_GenerateFilter seen todo filters b :
  all = seen ++ todo → built p seen filters b →
  Forall (λ blk, (length filters < block_index blk.1)%nat) todo →
  ∃ f b', GenerateFilter b = Some b' ∧ built p seen (filters ++ [f]) b'.
Proof.
  intros -> [Hp Hrep Hm Hidx] Htodo.
  destruct (GenerateFilter_spec p _ filters b Hp Hrep) as (f & b' & Hb' & Hp' & Hrep' & Hf).
  { specialize (Hgood (length filters)). rewrite group_app, (group_nil todo), app_nil_r in Hgood;
      [done|]. eapply Forall_impl; [exact Htodo|]. simpl. intros blk Hlt. lia. }
  exists f, b'. split; [done|]. split; [done| | |].
  - rewrite group_nil; [done|]. eapply Forall_impl; [exact Hidx|]. intros blk Hle. simpl in Hle.
    rewrite length_app. simpl. lia.
  - intros i g [Hi|[Hi Hg]]%lookup_app_Some; [by apply Hm|].
    apply list_lookup_singleton_Some in Hg as [Hz <-].
    by replace i with (length filters) by lia.
  - eapply Forall_impl; [exact Hidx|]. intros blk Hle. simpl in Hle. rewrite length_app. lia.
Qed.

Lemma built_generate_until seen todo n filters b :
  all = seen ++ todo → built p seen filters b →
  Forall (λ blk, (length filters + n ≤ block_index blk.1)%nat) todo →
  ∃ fs b', generate_until n b = Some b' ∧ built p seen (filters ++ fs) b' ∧ length fs = n.
Proof.
  intros Hall. revert filters b; induction n as [|n IH]; intros filters b Hb Htodo.
  - exists [], b. by rewrite app_nil_r.
  - destruct (built_GenerateFilter seen todo filters b) as (f & b1 & Hb1 & Hbuilt); [done|done| |].
    { eapply Forall_impl; [exact Htodo|]. simpl. intros blk. lia. }
    destruct (IH (filters ++ [f]) b1) as (fs & b' & Hb' & Hbuilt' & Hlen); [done| |].
    { eapply Forall_impl; [exact Htodo|]. simpl. intros blk. rewrite length_app. simpl. lia. }
    exists (f :: fs), b'. cbn [generate_until]. rewrite Hb1. split; [done|].
    rewrite <- app_assoc in Hbuilt'. split; [done|]. simpl. lia.
Qed.

Lemma built_AddKeys seen filters b off keys :
  built p seen filters b → block_index off = length filters →
  built p (seen ++ [(off, keys)]) filters (foldl (λ b key, AddKey key b) b keys).
Proof.
  intros [Hp Hrep Hm Hidx] Hoff. split.
  - by rewrite AddKeys_policy.
  - rewrite group_app. replace (group [(off, keys)] (length filters)) with keys.
    + by apply rep_AddKeys.
    + unfold group. rewrite filter_cons_True by done. simpl. by rewrite app_nil_r.
  - intros i f Hi. pose proof (lookup_lt_Some _ _ _ Hi).
    rewrite group_app, (group_nil [_]), app_nil_r; [by apply Hm|].
    constructor; [simpl; lia|done].
  - apply Forall_app. split; [done|]. constructor; [simpl; lia|done].
Qed.

Lemma build_blocks_spec seen todo filters b :
  all = seen ++ todo → built p seen filters b →
  StronglySorted (λ x y, block_index x.1 ≤ block_index y.1)%nat todo →
  Forall (λ blk, (length filters ≤ block_index blk.1)%nat) todo →
  ∃ fs b', build_blocks todo b = Some b' ∧ built p all fs b'.
Proof.
  revert seen filters b; induction todo as [|[off keys] todo IH]; intros seen filters b Hall Hb Hso Hge.
  - exists filters, b. rewrite app_nil_r in Hall. by subst.
  - apply StronglySorted_inv in Hso as [Hso Hmin]. apply Forall_cons in Hge as [Hoff Hge].
    simpl in Hoff. cbn [build_blocks]. unfold StartBlock.
    assert (length (filter_offsets_ b) = length filters) as ->.
    { rewrite (rep_offsets _ _ _ (built_rep _ _ _ _ Hb)), length_fmap. apply length_starts. }
    destruct (built_generate_until seen ((off, keys) :: todo) (block_index off - length filters)
      filters b) as (fs & b1 & Hb1 & Hbuilt & Hlen); [done|done| |].
    { constructor; [simpl; lia|]. eapply Forall_impl; [exact Hmin|]. simpl. intros. lia. }
    unfold block_index in Hb1 at 1. rewrite Hb1. cbn [mbind option_bind].
    assert (length (filters ++ fs) = block_index off) as Hidx by (rewrite length_app; lia).
    apply (IH (seen ++ [(off, keys)]) (filters ++ fs)).
    + by rewrite <- app_assoc.
    + by apply built_AddKeys.
    + done.
    + rewrite Hidx. exact Hmin.
Qed.

Definition finish_bytes (fs : list (list byte)) : list byte :=
  mjoin fs ++ mjoin ((λ n : nat, EncodeFixed32 (u32 (Z.of_nat n))) <$> starts 0 fs) ++
  EncodeFixed32 (u32 (Z.of_nat (length (mjoin fs)))) ++ [b8 kFilterBaseLg].

Lemma build_filter_block_spec :
  StronglySorted (λ x y, block_index x.1 ≤ block_index y.1)%nat all →
  ∃ fs, build_filter_block p all = Some (finish_bytes fs) ∧
    ∀ off keys key, (off, keys) ∈ all → key ∈ keys →
      ∃ f, fs !! block_index off = Some f ∧ KeyMayMatch p key f = Some true.
Proof.
  intros Hso. unfold build_filter_block.
  destruct (build_blocks_spec [] all [] (FilterBlockBuilder_new p)) as (fs & b & Hb & Hbuilt);
    [done|by split; try apply rep_new|done|by apply Forall_true; intros; simpl; lia|].
  rewrite Hb. cbn [mbind option_bind].
  assert (∃ fs' b' cur, (match start_ b with [] => Some b | _ => GenerateFilter b end) = Some b' ∧
    rep b' cur fs' ∧
    ∀ off keys key, (off, keys) ∈ all → key ∈ keys →
      ∃ f, fs' !! block_index off = Some f ∧ KeyMayMatch p key f = Some true)
    as (fs' & b' & cur & Hgen & Hrep & Hall).
  { destruct (start_ b) as [|s ss] eqn:Hs.
    - exists fs, b, (group all (length fs)). destruct Hbuilt as [Hp Hrep Hm Hidx].
      split_and!; [done|done|]. intros off keys key Hin Hkey.
      pose proof (elem_of_group _ _ _ _ Hin Hkey) as Hgrp.
      pose proof (proj1 (Forall_forall _ _) Hidx _ Hin) as Hle. simpl in Hle.
      destruct (lookup_lt_is_Some_2 fs (block_index off)) as [f Hf];
        [|exists f; split; [done|]; by eapply Hm].
      destruct (decide (block_index off = length fs)) as [Heq|]; [exfalso|lia].
      rewrite (rep_start _ _ _ Hrep) in Hs. rewrite Heq in Hgrp.
      destruct (group all (length fs)); [by apply not_elem_of_nil in Hgrp|done].
    - destruct (built_GenerateFilter all [] fs b) as (f & b' & Hb' & [Hp Hrep Hm Hidx]);
        [by rewrite app_nil_r|done|done|].
      eexists (fs ++ [f]), b', _. split_and!; [done|done|]. intros off keys key Hin Hkey.
      pose proof (proj1 (Forall_forall _ _) (built_index _ _ _ _ Hbuilt) _ Hin) as Hle.
      simpl in Hle.
      destruct (lookup_lt_is_Some_2 (fs ++ [f]) (block_index off)) as [g Hg];
        [rewrite length_app; simpl; lia|].
      exists g. split; [done|]. eapply Hm; [done|]. by eapply elem_of_group. }
  exists fs'. split; [|done]. unfold FilterBlock_Finish. rewrite Hgen. cbn [mbind option_bind].
  destruct Hrep as [_ _ Hr Ho]. rewrite foldl_PutFixed32, Hr, Ho, <- list_fmap_compose.
  unfold PutFixed32, finish_bytes. by rewrite <- !app_assoc.
Qed.
End run.

(** ** Reading a finished block *)

Section reader.
Context (fs : list (list byte)).
Hypothesis Hsize : Z.of_nat (length (finish_bytes fs)) < 2 ^ 32.

(** The offset array and the array offset after it, as one array of words. *)
Definition offset_words : list Z :=
  ((λ n : nat, u32 (Z.of_nat n)) <$> starts 0 fs) ++ [u32 (Z.of_nat (length (mjoin fs)))].

Lemma finish_bytes_words :
  finish_bytes fs = mjoin fs ++ (offset_words ≫= EncodeFixed32) ++ [b8 kFilterBaseLg].
Proof.
  unfold finish_bytes, offset_words. rewrite bind_app. cbn [mbind list_bind app].
  rewrite app_nil_r, <- app_assoc. do 2 f_equal. induction (starts 0 fs) as [|n l IH]; [done|].
  cbn [fmap list_fmap mjoin list_join mbind list_bind]. f_equal. exact IH.
Qed.

Lemma length_finish_bytes :
  length (finish_bytes fs) = (length (mjoin fs) + 4 * length fs + 5)%nat.
Proof.
  rewrite finish_bytes_words, !length_app, (length_rows EncodeFixed32 4) by done.
  unfold offset_words. rewrite length_app, length_fmap, length_starts. simpl. lia.
Qed.

Lemma decode_word i v :
  offset_words !! i = Some v →
  DecodeFixed32 (drop (length (mjoin fs) + 4 * i) (finish_bytes fs)) = Some (u32 v).
Proof.
  intros Hi. rewrite finish_bytes_words, <- drop_drop, drop_app_length.
  rewrite <- (take_drop_middle _ _ _ Hi), bind_app, <- app_assoc.
  pose proof (lookup_lt_Some _ _ _ Hi).
  replace (4 * i)%nat with (length (take i offset_words ≫= EncodeFixed32)).
  2:{ rewrite (length_rows EncodeFixed32 4) by done. rewrite length_take. lia. }
  rewrite drop_app_length. cbn [mbind list_bind]. rewrite <- app_assoc. apply Decode_EncodeFixed32.
Qed.

Lemma offset_words_lookup i :
  (i ≤ length fs)%nat → offset_words !! i = Some (Z.of_nat (length (mjoin (take i fs)))).
Proof.
  intros Hi. rewrite length_finish_bytes in Hsize. unfold offset_words.
  destruct (decide (i = length fs)) as [->|Hne].
  - rewrite lookup_app_r; rewrite length_fmap, length_starts; [|lia].
    rewrite Nat.sub_diag, firstn_all. simpl. by rewrite u32_small by lia.
  - rewrite lookup_app_l by (rewrite length_fmap, length_starts; lia).
    rewrite list_lookup_fmap, starts_lookup by lia. simpl. f_equal. apply u32_small.
    rewrite <- (take_drop i fs) in Hsize. rewrite join_app, length_app in Hsize. lia.
Qed.

Lemma reader_new (p : P) :
  FilterBlockReader_new p (finish_bytes fs) =
  Some {| rd_policy := p; rd_contents := finish_bytes fs; rd_offset := length (mjoin fs);
          rd_num := Z.of_nat (length fs); rd_base_lg := kFilterBaseLg |}.
Proof.
  pose proof length_finish_bytes as Hlen. unfold FilterBlockReader_new. rewrite Hlen.
  rewrite (proj2 (Nat.ltb_ge _ _)) by lia.
  replace (u64 _) with kFilterBaseLg.
  2:{ rewrite list_lookup_total_alt, finish_bytes_words, app_assoc, lookup_app_r.
      - rewrite length_app, (length_rows EncodeFixed32 4) by done. unfold offset_words.
        rewrite length_app, length_fmap, length_starts. cbn [length].
        match goal with |- context [[_] !! ?n] => replace n with 0%nat by lia end. done.
      - rewrite length_app, (length_rows EncodeFixed32 4) by done. unfold offset_words.
        rewrite length_app, length_fmap, length_starts. cbn [length]. lia. }
  replace (_ + _ + 5 - 5)%nat with (length (mjoin fs) + 4 * length fs)%nat by lia.
  rewrite (decode_word (length fs) _ (offset_words_lookup (length fs) ltac:(lia))).
  rewrite firstn_all. rewrite Hlen in Hsize. rewrite u32_small by lia. cbn [mbind option_bind].
  rewrite (proj2 (Z.ltb_ge _ _)) by lia. do 2 f_equal; [lia|].
  symmetry. apply Z.div_unique with 0; lia.
Qed.

Lemma reader_KeyMayMatch (p : P) r off key f :
  FilterBlockReader_new p (finish_bytes fs) = Some r → 0 <= off →
  fs !! block_index off = Some f →
  Reader_KeyMayMatch r off key = KeyMayMatch p key f.
Proof.
  rewrite reader_new. intros [= <-] Hoff Hf. pose proof (lookup_lt_Some _ _ _ Hf) as Hlt.
  unfold Reader_KeyMayMatch. cbn [rd_policy rd_contents rd_offset rd_num rd_base_lg].
  change (64 <=? kFilterBaseLg) with false. cbv iota.
  replace (off ≫ kFilterBaseLg) with (Z.of_nat (block_index off)).
  2:{ unfold block_index, kFilterBase, kFilterBaseLg. rewrite Z.shiftl_1_l, Z.shiftr_div_pow2 by lia.
      rewrite Z2Nat.id; [done|]. by apply Z.div_pos. }
  set (i := block_index off) in *. rewrite (proj2 (Z.ltb_lt _ _)) by lia. rewrite Nat2Z.id.
  rewrite (Nat.mul_comm i 4), (decode_word i _ (offset_words_lookup i ltac:(lia))).
  replace (length (mjoin fs) + 4 * i + 4)%nat with (length (mjoin fs) + 4 * S i)%nat by lia.
  rewrite (decode_word (S i) _ (offset_words_lookup (S i) ltac:(lia))). cbn [mbind option_bind].
  pose proof (take_drop_middle _ _ _ Hf) as Hsplit.
  assert (mjoin fs = mjoin (take i fs) ++ f ++ mjoin (drop (S i) fs)) as Hjoin.
  { rewrite <- Hsplit at 1. by rewrite join_app. }
  rewrite (take_S_r _ _ _ Hf), join_app. cbn [mjoin list_join]. rewrite app_nil_r.
  assert (length (mjoin fs) = length (mjoin (take i fs)) + length f +
    length (mjoin (drop (S i) fs)))%nat as Hlens by (rewrite Hjoin, !length_app; lia).
  rewrite length_finish_bytes in Hsize. rewrite length_app, !u32_small by lia.
  rewrite (proj2 (Z.leb_le _ _)), (proj2 (Z.leb_le _ _)) by lia. cbn [andb]. f_equal.
  replace (Z.to_nat (_ - _)) with (length f) by lia. rewrite Nat2Z.id, finish_bytes_words, Hjoin.
  by rewrite <- !app_assoc, drop_app_length, take_app_length.
Qed.
End reader.
End filter_block_laws.

Lemma index_sorted (blocks : list (Z * list (list byte))) :
  StronglySorted (λ x y, x.1 <= y.1) blocks → Forall (λ blk, 0 <= blk.1) blocks →
  StronglySorted (λ x y, block_index x.1 ≤ block_index y.1)%nat blocks.
Proof.
  intros Hso Hpos. induction Hso as [|blk blocks Hso IH Hmin]; [constructor|].
  apply Forall_cons in Hpos as [Hblk Hpos].
  constructor; [by apply IH|]. eapply Forall_impl; [exact Hmin|]. simpl. intros blk' Hle.
  apply Z2Nat.inj_le; [by apply Z.div_pos|apply Z.div_pos; [lia|done]|]. by apply Z.div_le_mono.
Qed.

Section whole.
Context {P : Type} `{!FilterPolicy P} {good : P → list (list byte) → Prop} `{!FilterPolicyLaws P good}.
Context (p : P) (blocks : list (Z * list (list byte))).
Hypothesis Hgood : ∀ i, group blocks i ≠ [] → good p (group blocks i).
Hypothesis Hso : StronglySorted (λ x y, x.1 <= y.1) blocks.
Hypothesis Hpos : Forall (λ blk, 0 <= blk.1) blocks.

Lemma build_blocks_ok : ∃ b, build_blocks blocks (FilterBlockBuilder_new p) = Some b.
Proof using All.
  destruct (build_blocks_spec p blocks Hgood [] blocks [] (FilterBlockBuilder_new p)) as (fs & b & Hb & _);
    [done|by split; try apply rep_new|by apply index_sorted|by apply Forall_true; intros; simpl; lia|by exists b].
Qed.

Lemma filter_block_matches :
  ∃ contents, build_filter_block p blocks = Some contents ∧
    (Z.of_nat (length contents) < 2 ^ 32 →
     ∃ r, FilterBlockReader_new p contents = Some r ∧
       ∀ off keys, (off, keys) ∈ blocks → keys ≠ [] → ∃ f,
         (∀ key, Reader_KeyMayMatch r off key = KeyMayMatch p key f) ∧
         ∀ key, key ∈ keys → KeyMayMatch p key f = Some true).
Proof using All.
  destruct (build_filter_block_spec p blocks Hgood) as (fs & Hfs & Hall); [by apply index_sorted|].
  eexists. split; [exact Hfs|]. intros Hsize. eexists. split; [by apply reader_new|]. intros off keys Hin Hne.
  destruct keys as [|k0 keys]; [done|]. destruct (Hall off (k0 :: keys) k0 Hin ltac:(left)) as (f & Hf & _).
  exists f. split.
  - intros key. apply (reader_KeyMayMatch fs Hsize); [by apply reader_new| |done].
    exact (proj1 (Forall_forall _ _) Hpos _ Hin).
  - intros key Hkey. destruct (Hall off (k0 :: keys) key Hin Hkey) as (f' & Hf' & Hm).
    rewrite Hf in Hf'. by injection Hf' as <-.
Qed.
End whole.

(** ** Claims *)

(** C20: a table's filter block has no false negatives.  Take any policy that
    matches the keys of the filters it creates, and any data blocks with
    nondecreasing offsets, such that the keys that share a 2 KB index are ones
    the policy promises to handle.  Building the block for them succeeds, and
    if it is smaller than 4 GB the reader opens it and answers true for every
    key at its block's offset, whatever the boundaries between filters. *)
Theorem filter_block_no_false_negative {P} `{!FilterPolicy P} {good}
    `{!FilterPolicyLaws P good} (p : P) (blocks : list (Z * list (list byte))) :
  (∀ i, group blocks i ≠ [] → good p (group blocks i)) →
  StronglySorted (λ x y, x.1 <= y.1) blocks → Forall (λ blk, 0 <= blk.1) blocks →
  ∃ contents, build_filter_block p blocks = Some contents ∧
    (Z.of_nat (length contents) < 2 ^ 32 →
     ∃ r, FilterBlockReader_new p contents = Some r ∧
       ∀ off keys key, (off, keys) ∈ blocks → key ∈ keys →
         Reader_KeyMayMatch r off key = Some true).
Proof.
  intros Hgood Hso Hpos. destruct (filter_block_matches p blocks Hgood Hso Hpos) as (contents & Hc & Hr).
  exists contents. split; [done|]. intros Hsize. destruct (Hr Hsize) as (r & Hr' & Hall). exists r. split; [done|].
  intros off keys key Hin Hkey. destruct (Hall off keys Hin) as (f & Hf & Hm); [by intros ->; apply not_elem_of_nil in Hkey|].
  rewrite Hf. by apply Hm.
Qed.

Definition example_blocks : list (Z * list (list byte)) :=
  [(0, [[x61]; [x62]]); (1000, [[x63]]); (5000, [[x64]])].

Lemma filter_block_no_false_negative_witness :
  ∃ contents r, build_filter_block (NewBloomFilterPolicy 10) example_blocks = Some contents ∧
    FilterBlockReader_new (NewBloomFilterPolicy 10) contents = Some r ∧
    Reader_KeyMayMatch r 5000 [x64] = Some true.
Proof.
  destruct (filter_block_no_false_negative (NewBloomFilterPolicy 10) example_blocks)
    as (contents & Hc & Hr).
  - intros [|[|[|i]]] Hne; try (by destruct Hne); split_and!; vm_compute; congruence.
  - repeat constructor; simpl; lia.
  - repeat constructor; simpl; lia.
  - assert (Some contents = build_filter_block (NewBloomFilterPolicy 10) example_blocks) as Hv by done.
    vm_compute in Hv. injection Hv as ->. destruct Hr as (r & Hr & Hall); [vm_compute; reflexivity|].
    eexists _, r. split; [exact Hc|]. split; [exact Hr|].
    apply (Hall 5000 [[x64]] [x64]); [do 2 right; left|left].
Defined.
