(* ===== verification/Comparator.v ===== *)
(** Slices and key order: the three-way comparison of include/leveldb/slice.h,
    the comparator interface of include/leveldb/comparator.h and the bytewise
    comparator of util/comparator.cc. *)
From S2P Require Import Prelude.

(** ** Slices *)

(** [memcmp] compares as unsigned bytes; callers use the sign only. *)
Fixpoint memcmp (a b : list byte) (n : nat) : Z :=
  match n, a, b with
  | S n, x :: a, y :: b => if u8 x =? u8 y then memcmp a b n else Z.sgn (u8 x - u8 y)
  | _, _, _ => 0
  end.

Definition slice_compare (a b : list byte) : Z :=
  let min_len := if (length a <? length b)%nat then length a else length b in
  let r := memcmp a b min_len in
  if r =? 0
  then if (length a <? length b)%nat then -1
       else if (length b <? length a)%nat then 1 else r
  else r.

Definition starts_with (a x : list byte) : bool :=
  (length x <=? length a)%nat && (memcmp a x (length x) =? 0).

Definition slice_eqb (x y : list byte) : bool :=
  (length x =? length y)%nat && (memcmp x y (length x) =? 0).

(** [remove_prefix n] asserts [n <= size()]. *)
Definition remove_prefix (n : nat) (a : list byte) : option (list byte) :=
  if (n <=? length a)%nat then Some (drop n a) else None.

(** ** The comparator interface *)

Class Comparator (C : Type) := {
  Compare : C → list byte → list byte → Z;
  FindShortestSeparator : C → list byte → list byte → list byte;
  FindShortSuccessor : C → list byte → list byte;
}.

(** What comparator.h asks of an implementation, on the keys it is [valid] for:
    a total preorder, separators inside [start, limit) and successors not
    below their key. *)
Class ComparatorLaws (C : Type) `{Comparator C} (valid : list byte → Prop) := {
  compare_sym c a b : valid a → valid b → Z.sgn (Compare c a b) = - Z.sgn (Compare c b a);
  compare_trans c a b d : valid a → valid b → valid d →
    Compare c a b <= 0 → Compare c b d <= 0 → Compare c a d <= 0;
  separator_valid c start limit : valid start → valid limit →
    valid (FindShortestSeparator c start limit);
  separator_between c start limit : valid start → valid limit → Compare c start limit < 0 →
    Compare c start (FindShortestSeparator c start limit) <= 0 ∧
    Compare c (FindShortestSeparator c start limit) limit < 0;
  separator_id c start limit : valid start → valid limit → 0 <= Compare c start limit →
    FindShortestSeparator c start limit = start;
  successor_valid c key : valid key → valid (FindShortSuccessor c key);
  successor_above c key : valid key → Compare c key (FindShortSuccessor c key) <= 0;
}.

(** ** The bytewise comparator *)

Inductive BytewiseComparatorImpl := BytewiseComparator.

#[export] Instance bytewise_eq_dec : EqDecision BytewiseComparatorImpl.
Proof. solve_decision. Defined.

(** [while (diff_index < min_length && start[diff_index] == limit[diff_index])]. *)
Fixpoint common_prefix (a b : list byte) : nat :=
  match a, b with
  | x :: a, y :: b => if u8 x =? u8 y then S (common_prefix a b) else 0
  | _, _ => 0
  end.

Definition bytewise_FindShortestSeparator (start limit : list byte) : list byte :=
  let min_length := Nat.min (length start) (length limit) in
  let diff_index := common_prefix start limit in
  if (min_length <=? diff_index)%nat then start
  else let diff_byte := u8 (start !!! diff_index) in
       if (diff_byte <? 255) && (diff_byte + 1 <? u8 (limit !!! diff_index))
       then take diff_index start ++ [b8 (diff_byte + 1)]
       else start.

(** The loop over [key]; [None] when every byte is 0xff. *)
Fixpoint short_successor (key : list byte) : option (list byte) :=
  match key with
  | [] => None
  | c :: key => if u8 c =? 255 then (λ r, c :: r) <$> short_successor key
                else Some [b8 (u8 c + 1)]
  end.

Definition bytewise_FindShortSuccessor (key : list byte) : list byte :=
  default key (short_successor key).

#[export] Instance bytewise_comparator : Comparator BytewiseComparatorImpl := {
  Compare _ := slice_compare;
  FindShortestSeparator _ := bytewise_FindShortestSeparator;
  FindShortSuccessor _ := bytewise_FindShortSuccessor;
}.

(** ** Lexicographic order as reference *)

Fixpoint lex (a b : list byte) : Z :=
  match a, b with
  | [], [] => 0
  | [], _ => -1
  | _, [] => 1
  | x :: a, y :: b => if u8 x =? u8 y then lex a b else Z.sgn (u8 x - u8 y)
  end.

Lemma slice_compare_lex a b : slice_compare a b = lex a b.
Proof.
  unfold slice_compare. revert b; induction a as [|x a IH]; intros [|y b]; [done..|].
  specialize (IH b). cbn [length lex]. rewrite !Nat.ltb_antisym in *. cbn [Nat.leb] in *.
  destruct (length b <=? length a)%nat; cbn [negb memcmp] in *;
    (destruct (u8 x =? u8 y) eqn:Hxy; [exact IH|]);
    apply Z.eqb_neq in Hxy; destruct (Z.sgn (u8 x - u8 y) =? 0) eqn:Hs; lia.
Qed.

Lemma lex_refl a : lex a a = 0.
Proof. induction a as [|x a IH]; [done|]. cbn [lex]. by rewrite Z.eqb_refl. Qed.

Lemma lex_eq a b : lex a b = 0 ↔ a = b.
Proof.
  split; [|intros ->; apply lex_refl].
  revert b; induction a as [|x a IH]; intros [|y b]; cbn [lex]; try done.
  destruct (Z.eqb_spec (u8 x) (u8 y)) as [Heq|]; [|lia].
  intros H. by rewrite (u8_inj x y Heq), (IH b H).
Qed.

Lemma lex_sym a b : lex a b = - lex b a.
Proof.
  revert b; induction a as [|x a IH]; intros [|y b]; cbn [lex]; try done.
  rewrite (Z.eqb_sym (u8 y)). destruct (Z.eqb_spec (u8 x) (u8 y)); [apply IH|lia].
Qed.

Lemma lex_trans a b d : lex a b <= 0 → lex b d <= 0 → lex a d <= 0.
Proof.
  revert b d; induction a as [|x a IH]; intros [|y b] [|z d]; cbn [lex]; try done.
  destruct (Z.eqb_spec (u8 x) (u8 y)) as [Hxy|Hxy], (Z.eqb_spec (u8 y) (u8 z)) as [Hyz|Hyz],
    (Z.eqb_spec (u8 x) (u8 z)) as [Hxz|Hxz]; intros; try lia. by apply (IH b).
Qed.

Lemma lex_app_l p a b : lex (p ++ a) (p ++ b) = lex a b.
Proof. induction p as [|x p IH]; [done|]. cbn [app lex]. by rewrite Z.eqb_refl. Qed.

(** Two strings split at their common prefix. *)
Lemma common_prefix_split a b :
  (common_prefix a b < Nat.min (length a) (length b))%nat →
  ∃ p x a' y b', a = p ++ x :: a' ∧ b = p ++ y :: b' ∧ u8 x ≠ u8 y ∧ length p = common_prefix a b.
Proof.
  revert b; induction a as [|x a IH]; intros [|y b]; cbn [common_prefix length]; intros H;
    [lia..|]. destruct (Z.eqb_spec (u8 x) (u8 y)) as [Heq|Hne].
  - destruct (IH b) as (p & x' & a' & y' & b' & -> & -> & Hne & Hlen); [lia|].
    exists (x :: p), x', a', y', b'. rewrite (u8_inj x y Heq). simpl. by rewrite Hlen.
  - by exists [], x, a, y, b.
Qed.

Lemma bytewise_separator_cases start limit :
  bytewise_FindShortestSeparator start limit = start ∨
  ∃ p x a y b z, start = p ++ x :: a ∧ limit = p ++ y :: b ∧
    bytewise_FindShortestSeparator start limit = p ++ [z] ∧
    u8 z = u8 x + 1 ∧ u8 z < u8 y.
Proof.
  unfold bytewise_FindShortestSeparator.
  destruct (_ <=? _)%nat eqn:Hd; [by left|]. apply Nat.leb_gt in Hd.
  destruct (common_prefix_split start limit Hd) as (p & x & a & y & b & Hs & Hl & Hne & Hp).
  rewrite <- Hp. rewrite Hs, Hl.
  rewrite !list_lookup_total_middle, take_app_length by done.
  destruct (_ && _) eqn:Hb; [right|by left]. apply andb_true_iff in Hb as [H1 H2].
  exists p, x, a, y, b, (b8 (u8 x + 1)). pose proof (u8_range x).
  rewrite u8_b8, Z.mod_small by lia. split_and!; [done..|lia].
Qed.

Lemma lex_neq_byte p x a y b : u8 x ≠ u8 y → lex (p ++ x :: a) (p ++ y :: b) = Z.sgn (u8 x - u8 y).
Proof. intros Hne. rewrite lex_app_l. cbn [lex]. by rewrite (proj2 (Z.eqb_neq _ _)). Qed.

Lemma short_successor_above key r : short_successor key = Some r → lex key r = -1.
Proof.
  revert r; induction key as [|c key IH]; intros r; cbn [short_successor]; [done|].
  destruct (Z.eqb_spec (u8 c) 255) as [Hc|Hc].
  - intros (r' & Hr' & ->)%fmap_Some. cbn [lex]. rewrite Z.eqb_refl. by apply IH.
  - intros [= <-]. cbn [lex]. pose proof (u8_range c). rewrite u8_b8, Z.mod_small by lia.
    rewrite (proj2 (Z.eqb_neq _ _)); lia.
Qed.

#[export] Instance bytewise_laws : ComparatorLaws BytewiseComparatorImpl (λ _, True).
Proof.
  split; cbn [Compare FindShortestSeparator FindShortSuccessor bytewise_comparator]; intros [];
    try done; intros *; rewrite ?slice_compare_lex.
  - intros _ _. rewrite (lex_sym a b). lia.
  - intros _ _ _. apply lex_trans.
  - intros _ _ Hlt. destruct (bytewise_separator_cases start limit)
      as [->|(p & x & a & y & b & z & -> & -> & -> & Hz & Hy)].
    + by rewrite lex_refl.
    + rewrite !lex_neq_byte by lia. lia.
  - intros _ _ Hge. destruct (bytewise_separator_cases start limit)
      as [->|(p & x & a & y & b & z & -> & -> & -> & Hz & Hy)]; [done|].
    rewrite lex_neq_byte in Hge by lia. lia.
  - intros _. unfold bytewise_FindShortSuccessor.
    destruct (short_successor key) as [r|] eqn:Hr; simpl; [|by rewrite lex_refl].
    by rewrite (short_successor_above _ _ Hr).
Qed.

(** ** Derived order facts, for any comparator *)

Section derived.
Context {C : Type} `{ComparatorLaws C valid}.
Implicit Types c : C.

Lemma compare_refl c a : valid a → Compare c a a = 0.
Proof. intros Ha. pose proof (compare_sym c a a Ha Ha). lia. Qed.

Lemma compare_le_sym c a b : valid a → valid b → 0 <= Compare c a b ↔ Compare c b a <= 0.
Proof. intros Ha Hb. pose proof (compare_sym c a b Ha Hb). lia. Qed.

Lemma compare_lt_sym c a b : valid a → valid b → 0 < Compare c a b ↔ Compare c b a < 0.
Proof. intros Ha Hb. pose proof (compare_sym c a b Ha Hb). lia. Qed.

Lemma compare_lt_le_trans c a b d : valid a → valid b → valid d →
  Compare c a b < 0 → Compare c b d <= 0 → Compare c a d < 0.
Proof.
  intros Ha Hb Hd Hab Hbd. destruct (Z.lt_ge_cases (Compare c a d) 0) as [|Hge]; [done|].
  apply (compare_le_sym c a d Ha Hd) in Hge.
  pose proof (compare_trans c b d a Hb Hd Ha Hbd Hge) as Hba.
  apply (compare_le_sym c a b Ha Hb) in Hba. lia.
Qed.

Lemma compare_le_lt_trans c a b d : valid a → valid b → valid d →
  Compare c a b <= 0 → Compare c b d < 0 → Compare c a d < 0.
Proof.
  intros Ha Hb Hd Hab Hbd. destruct (Z.lt_ge_cases (Compare c a d) 0) as [|Hge]; [done|].
  apply (compare_le_sym c a d Ha Hd) in Hge.
  pose proof (compare_trans c d a b Hd Ha Hb Hge Hab) as Hdb.
  apply (compare_le_sym c b d Hb Hd) in Hdb. lia.
Qed.

Lemma compare_eq_l c a a' b : valid a → valid a' → valid b →
  Compare c a a' = 0 → Z.sgn (Compare c a b) = Z.sgn (Compare c a' b).
Proof.
  intros Ha Ha' Hb Heq. pose proof (compare_sym c a a' Ha Ha') as Hs.
  assert (Compare c a a' <= 0) as H1 by lia. assert (Compare c a' a <= 0) as H2 by lia.
  pose proof (compare_trans c a a' b Ha Ha' Hb H1). pose proof (compare_trans c a' a b Ha' Ha Hb H2).
  pose proof (compare_le_lt_trans c a a' b Ha Ha' Hb H1).
  pose proof (compare_le_lt_trans c a' a b Ha' Ha Hb H2). lia.
Qed.

#[export] Instance comparator_order c : KeyOrder (Compare c) valid.
Proof.
  split.
  - intros a b. apply compare_sym.
  - intros a b d Ha Hb Hd Hab Hbd. apply (compare_lt_le_trans c a b d); [done..|lia].
  - intros a b d Ha Hb Hd Hab Hbd. apply (compare_lt_le_trans c a b d); [done..|lia].
Qed.
End derived.

Lemma slice_compare_eq a b : slice_compare a b = 0 → a = b.
Proof. rewrite slice_compare_lex. apply lex_eq. Qed.

#[export] Instance bytewise_order : KeyOrder slice_compare (λ _, True).
Proof. exact (comparator_order (valid := λ _, True) BytewiseComparator). Qed.

Lemma bytewise_separator_length start limit :
  (length (bytewise_FindShortestSeparator start limit) ≤ length start)%nat.
Proof.
  destruct (bytewise_separator_cases start limit)
    as [->|(p & x & a & y & b & z & -> & -> & -> & Hz & Hy)]; [done|]. rewrite !length_app. simpl. lia.
Qed.

Lemma bytewise_successor_length key : (length (bytewise_FindShortSuccessor key) ≤ length key)%nat.
Proof.
  unfold bytewise_FindShortSuccessor. destruct (short_successor key) as [r|] eqn:Hr; [|done]. simpl.
  revert r Hr; induction key as [|c key IH]; intros r; cbn [short_successor]; [done|].
  destruct (u8 c =? 255); [|intros [= <-]; simpl; lia].
  intros (r' & Hr' & ->)%fmap_Some. simpl. specialize (IH r' Hr'). lia.
Qed.

(** Keys short enough for a memtable. *)
Definition short_key (u : list byte) : Prop := Z.of_nat (length u) + 8 < 2 ^ 32.

Lemma bytewise_short_laws : ComparatorLaws BytewiseComparatorImpl short_key.
Proof.
  split.
  - intros c a b _ _. by apply compare_sym.
  - intros c a b d _ _ _. by apply compare_trans.
  - intros c a b Ha _. pose proof (bytewise_separator_length a b). unfold short_key in *. cbn. lia.
  - intros c a b _ _. by apply separator_between.
  - intros c a b _ _. by apply separator_id.
  - intros c a Ha. pose proof (bytewise_successor_length a). unfold short_key in *. cbn. lia.
  - intros c a _. by apply successor_above.
Qed.

(** ** Claims *)

(** the bytewise comparator's index keys are sound.  When [start] sorts
    before [limit], [FindShortestSeparator] returns a string no longer than
    [start] that lies in [start, limit); [FindShortSuccessor] returns a string
    no longer than its key and not below it.  Comparison is 0 exactly on equal
    strings. *)
Theorem bytewise_index_keys start limit :
  slice_compare start limit < 0 →
  let sep := bytewise_FindShortestSeparator start limit in
  let succ := bytewise_FindShortSuccessor start in
  (slice_compare start sep <= 0 ∧ slice_compare sep limit < 0 ∧
   (length sep ≤ length start)%nat) ∧
  (slice_compare start succ <= 0 ∧ (length succ ≤ length start)%nat) ∧
  (∀ b, slice_compare start b = 0 ↔ start = b).
Proof.
  intros Hlt sep succ. split_and!.
  - exact (proj1 (separator_between BytewiseComparator start limit I I Hlt)).
  - exact (proj2 (separator_between BytewiseComparator start limit I I Hlt)).
  - apply bytewise_separator_length.
  - exact (successor_above BytewiseComparator start I).
  - apply bytewise_successor_length.
  - intros b. rewrite slice_compare_lex. apply lex_eq.
Qed.

Lemma bytewise_index_keys_witness :
  let sep := bytewise_FindShortestSeparator [x61; x62; x63] [x61; x66] in
  sep = [x61; x63] ∧ slice_compare sep [x61; x66] < 0.
Proof.
  split; [vm_compute; reflexivity|].
  apply (bytewise_index_keys [x61; x62; x63] [x61; x66]). vm_compute. reflexivity.
Defined.

Lemma memcmp_eq a b : memcmp a b (length a) = 0 → length a = length b → a = b.
Proof.
  revert b; induction a as [|x a IH]; intros [|y b]; cbn [memcmp length]; try done.
  destruct (Z.eqb_spec (u8 x) (u8 y)) as [Heq|Hne]; [|lia].
  intros Hm Hl. rewrite (u8_inj _ _ Heq). f_equal. apply IH; [done|lia].
Qed.

Lemma memcmp_refl a r n : memcmp (a ++ r) a n = 0.
Proof.
  revert n; induction a as [|x a IH]; intros n; [by destruct n, r|].
  destruct n as [|n]; [done|]. cbn [memcmp app]. by rewrite Z.eqb_refl.
Qed.

Lemma starts_with_app a r : starts_with (a ++ r) a = true.
Proof.
  unfold starts_with. rewrite length_app, memcmp_refl.
  by rewrite (proj2 (Nat.leb_le _ _)) by lia.
Qed.

Lemma memcmp_zero a x : memcmp a x (length x) = 0 → (length x ≤ length a)%nat → ∃ r, a = x ++ r.
Proof.
  revert a; induction x as [|y x IH]; intros [|b a]; cbn [memcmp length]; intros Hm Hl; try (by eexists); [lia|].
  destruct (Z.eqb_spec (u8 b) (u8 y)) as [Heq|Hne]; [|lia].
  destruct (IH a Hm ltac:(lia)) as [r ->]. exists r. by rewrite (u8_inj _ _ Heq).
Qed.

Lemma starts_with_spec a x : starts_with a x = true ↔ ∃ r, a = x ++ r.
Proof.
  split; [|intros [r ->]; apply starts_with_app]. unfold starts_with.
  intros [Hl%Nat.leb_le Hm%Z.eqb_eq]%andb_true_iff. by apply memcmp_zero.
Qed.
