(* ===== verification/DbFormat.v ===== *)
(** Internal keys: user key, sequence number and value type (db/dbformat.h,
    db/dbformat.cc), their comparator, lookup keys and filter policy. *)
From S2P Require Import Prelude Coding Comparator FilterPolicy.

(** ** Constants and data *)

Definition kNumLevels : nat := 7.
Definition kL0_CompactionTrigger : Z := 4.
Definition kL0_SlowdownWritesTrigger : Z := 8.
Definition kL0_StopWritesTrigger : Z := 12.
Definition kMaxMemCompactLevel : nat := 2.
Definition kReadBytesPeriod : Z := 1048576.

Inductive ValueType := kTypeDeletion | kTypeValue.

#[export] Instance ValueType_eq_dec : EqDecision ValueType.
Proof. solve_decision. Defined.

Definition ValueType_num (t : ValueType) : Z :=
  match t with kTypeDeletion => 0 | kTypeValue => 1 end.

Definition kValueTypeForSeek : ValueType := kTypeValue.
Definition kMaxSequenceNumber : Z := (1 ≪ 56) - 1.

Record ParsedInternalKey := {
  user_key : list byte;
  sequence : Z;
  type : ValueType;
}.

Definition InternalKeyEncodingLength (key : ParsedInternalKey) : nat :=
  length (user_key key) + 8.

Definition PackSequenceAndType (seq : Z) (t : ValueType) : Z :=
  Z.lor (u64 (seq ≪ 8)) (ValueType_num t).

Definition AppendInternalKey (result : list byte) (key : ParsedInternalKey) : list byte :=
  PutFixed64 (result ++ user_key key) (PackSequenceAndType (sequence key) (type key)).

(** The accessors below assert that an internal key has at least 8 bytes; on
    shorter strings their value is arbitrary. *)
Definition ExtractUserKey (internal_key : list byte) : list byte :=
  take (length internal_key - 8) internal_key.

Definition ExtractNum (internal_key : list byte) : Z :=
  default 0 (DecodeFixed64 (drop (length internal_key - 8) internal_key)).

Definition ParseInternalKey (internal_key : list byte) : option ParsedInternalKey :=
  let n := length internal_key in
  if (n <? 8)%nat then None
  else num ← DecodeFixed64 (drop (n - 8) internal_key);
       let c := Z.land num 255 in
       let mk t := {| user_key := take (n - 8) internal_key; sequence := num ≫ 8; type := t |} in
       if c =? 0 then Some (mk kTypeDeletion)
       else if c =? 1 then Some (mk kTypeValue) else None.

(** ** [InternalKey] *)

Record InternalKey := { rep_ : list byte }.

#[export] Instance InternalKey_eq_dec : EqDecision InternalKey.
Proof. solve_decision. Defined.

Definition InternalKey_new (user_key : list byte) (s : Z) (t : ValueType) : InternalKey :=
  {| rep_ := AppendInternalKey [] {| user_key := user_key; sequence := s; type := t |} |}.

Definition InternalKey_DecodeFrom (s : list byte) : InternalKey * bool :=
  ({| rep_ := s |}, negb (match s with [] => true | _ => false end)).

Definition InternalKey_Encode (k : InternalKey) : list byte := rep_ k.
Definition InternalKey_user_key (k : InternalKey) : list byte := ExtractUserKey (rep_ k).
Definition InternalKey_SetFrom (p : ParsedInternalKey) : InternalKey :=
  {| rep_ := AppendInternalKey [] p |}.
Definition InternalKey_Clear : InternalKey := {| rep_ := [] |}.

(** ** The internal key comparator *)

Record InternalKeyComparator (C : Type) := { user_comparator_ : C }.
Arguments user_comparator_ {C} _.

#[export] Instance internal_comparator_eq_dec {C} `{!EqDecision C} : EqDecision (InternalKeyComparator C).
Proof. solve_decision. Defined.

Section comparator.
Context {C : Type} `{Comparator C}.

Definition internal_Compare (icmp : InternalKeyComparator C) (akey bkey : list byte) : Z :=
  let r := Compare (user_comparator_ icmp) (ExtractUserKey akey) (ExtractUserKey bkey) in
  if r =? 0
  then let anum := ExtractNum akey in
       let bnum := ExtractNum bkey in
       if bnum <? anum then -1 else if anum <? bnum then 1 else r
  else r.

Definition internal_FindShortestSeparator (icmp : InternalKeyComparator C)
    (start limit : list byte) : list byte :=
  let user_start := ExtractUserKey start in
  let user_limit := ExtractUserKey limit in
  let tmp := FindShortestSeparator (user_comparator_ icmp) user_start user_limit in
  if (length tmp <? length user_start)%nat &&
     (Compare (user_comparator_ icmp) user_start tmp <? 0)
  then PutFixed64 tmp (PackSequenceAndType kMaxSequenceNumber kValueTypeForSeek)
  else start.

Definition internal_FindShortSuccessor (icmp : InternalKeyComparator C)
    (key : list byte) : list byte :=
  let user_key := ExtractUserKey key in
  let tmp := FindShortSuccessor (user_comparator_ icmp) user_key in
  if (length tmp <? length user_key)%nat &&
     (Compare (user_comparator_ icmp) user_key tmp <? 0)
  then PutFixed64 tmp (PackSequenceAndType kMaxSequenceNumber kValueTypeForSeek)
  else key.

#[export] Instance internal_comparator : Comparator (InternalKeyComparator C) := {
  Compare := internal_Compare;
  FindShortestSeparator := internal_FindShortestSeparator;
  FindShortSuccessor := internal_FindShortSuccessor;
}.
End comparator.

(** ** The internal filter policy *)

Record InternalFilterPolicy (P : Type) := { user_policy_ : P }.
Arguments user_policy_ {P} _.

#[export] Instance internal_policy {P} `{FilterPolicy P} : FilterPolicy (InternalFilterPolicy P) := {
  CreateFilter p keys dst := CreateFilter (user_policy_ p) (ExtractUserKey <$> keys) dst;
  KeyMayMatch p key f := KeyMayMatch (user_policy_ p) (ExtractUserKey key) f;
}.

#[export] Instance internal_policy_laws {P} `{FilterPolicyLaws P good} :
  FilterPolicyLaws (InternalFilterPolicy P)
    (λ p keys, good (user_policy_ p) (ExtractUserKey <$> keys)).
Proof.
  split. intros p keys dst Hgood.
  destruct (create_matches (user_policy_ p) (ExtractUserKey <$> keys) dst Hgood) as (f & Hf & Hm).
  exists f. split; [exact Hf|]. intros key Hkey. apply Hm. by apply list_elem_of_fmap_2.
Qed.

(** ** Lookup keys *)

(** The array [start_, end_) and the position of [kstart_] in it. *)
Record LookupKey := { lk_data : list byte; lk_kstart : nat }.

Definition LookupKey_new (user_key : list byte) (s : Z) : LookupKey :=
  let head := EncodeVarint32 (u32 (Z.of_nat (length user_key) + 8)) in
  {| lk_data := head ++ user_key ++ EncodeFixed64 (PackSequenceAndType s kValueTypeForSeek);
     lk_kstart := length head |}.

Definition memtable_key (k : LookupKey) : list byte := lk_data k.
Definition lookup_internal_key (k : LookupKey) : list byte := drop (lk_kstart k) (lk_data k).
Definition lookup_user_key (k : LookupKey) : list byte :=
  take (length (lk_data k) - lk_kstart k - 8) (drop (lk_kstart k) (lk_data k)).

(** ** Keys as pairs *)

Definition valid_key (uvalid : list byte → Prop) (k : list byte) : Prop :=
  (8 ≤ length k)%nat ∧ uvalid (ExtractUserKey k).

Lemma pack_value s t : 0 <= s <= kMaxSequenceNumber →
  PackSequenceAndType s t = s * 256 + ValueType_num t ∧
  0 <= PackSequenceAndType s t < 2 ^ 64.
Proof.
  intros Hs. unfold PackSequenceAndType, kMaxSequenceNumber in *.
  change (1 ≪ 56) with (2 ^ 56) in Hs.
  rewrite Z.shiftl_mul_pow2, u64_small by lia. rewrite Z.lor_comm, <- Z.shiftl_mul_pow2 by lia.
  assert (0 <= ValueType_num t < 2 ^ 8) by (destruct t; simpl; lia).
  rewrite lor_shiftl_add by lia. lia.
Qed.

Lemma ExtractUserKey_app u v : ExtractUserKey (u ++ EncodeFixed64 v) = u.
Proof.
  unfold ExtractUserKey. rewrite length_app, length_EncodeFixed64, Nat.add_sub.
  apply take_app_length.
Qed.

Lemma user_key_new u s t : InternalKey_user_key (InternalKey_new u s t) = u.
Proof. apply ExtractUserKey_app. Qed.

Lemma ExtractNum_app u v : ExtractNum (u ++ EncodeFixed64 v) = u64 v.
Proof.
  unfold ExtractNum. rewrite length_app, length_EncodeFixed64, Nat.add_sub, drop_app_length.
  by rewrite <- (app_nil_r (EncodeFixed64 v)), Decode_EncodeFixed64.
Qed.

Lemma valid_key_app (uvalid : list byte → Prop) u v :
  uvalid u → valid_key uvalid (u ++ EncodeFixed64 v).
Proof.
  intros Hu. split; [rewrite length_app, length_EncodeFixed64; lia|]. by rewrite ExtractUserKey_app.
Qed.

(** An internal key is its user key followed by its 8-byte number. *)
Lemma internal_key_split k : (8 ≤ length k)%nat →
  k = ExtractUserKey k ++ EncodeFixed64 (ExtractNum k) ∧ 0 <= ExtractNum k < 2 ^ 64.
Proof.
  intros Hk. set (n := (length k - 8)%nat).
  assert (length (drop n k) = 8%nat) as Hlen by (rewrite length_drop; lia).
  unfold ExtractUserKey, ExtractNum. fold n.
  rewrite <- (app_nil_r (drop n k)), DecodeFixed64_le by done. simpl.
  pose proof (le_val_range (drop n k)) as Hr. rewrite Hlen in Hr. split; [|exact Hr].
  rewrite EncodeFixed64_le, <- Hlen, le_bytes_val. symmetry. apply take_drop.
Qed.

(** ** The comparator is lawful when the user comparator is *)

Section comparator_laws.
Context {C : Type} `{!Comparator C} {uvalid : list byte → Prop} `{!ComparatorLaws C uvalid}.
Implicit Types icmp : InternalKeyComparator C.

Lemma internal_Compare_app icmp u v u' v' :
  0 <= v < 2 ^ 64 → 0 <= v' < 2 ^ 64 →
  internal_Compare icmp (u ++ EncodeFixed64 v) (u' ++ EncodeFixed64 v') =
  (let r := Compare (user_comparator_ icmp) u u' in if r =? 0 then Z.sgn (v' - v) else r).
Proof.
  intros Hv Hv'. unfold internal_Compare. rewrite !ExtractUserKey_app, !ExtractNum_app.
  rewrite !u64_small by done. cbv zeta. destruct (Z.eqb_spec (Compare (user_comparator_ icmp) u u') 0)
    as [->|]; [|done]. destruct (Z.ltb_spec v' v), (Z.ltb_spec v v'); lia.
Qed.

Lemma pack_max : PackSequenceAndType kMaxSequenceNumber kValueTypeForSeek = 2 ^ 64 - 255.
Proof. reflexivity. Qed.

Lemma internal_le icmp a b :
  internal_Compare icmp a b <= 0 ↔
  let r := Compare (user_comparator_ icmp) (ExtractUserKey a) (ExtractUserKey b) in
  r < 0 ∨ r = 0 ∧ ExtractNum b <= ExtractNum a.
Proof.
  unfold internal_Compare. cbv zeta. destruct (Z.eqb_spec (Compare (user_comparator_ icmp)
    (ExtractUserKey a) (ExtractUserKey b)) 0) as [->|]; [|lia].
  destruct (Z.ltb_spec (ExtractNum b) (ExtractNum a)); [lia|].
  destruct (Z.ltb_spec (ExtractNum a) (ExtractNum b)); lia.
Qed.

Lemma internal_lt icmp a b :
  internal_Compare icmp a b < 0 ↔
  let r := Compare (user_comparator_ icmp) (ExtractUserKey a) (ExtractUserKey b) in
  r < 0 ∨ r = 0 ∧ ExtractNum b < ExtractNum a.
Proof.
  unfold internal_Compare. cbv zeta. destruct (Z.eqb_spec (Compare (user_comparator_ icmp)
    (ExtractUserKey a) (ExtractUserKey b)) 0) as [->|]; [|lia].
  destruct (Z.ltb_spec (ExtractNum b) (ExtractNum a)); [lia|].
  destruct (Z.ltb_spec (ExtractNum a) (ExtractNum b)); lia.
Qed.

Lemma internal_gt icmp a b :
  0 < internal_Compare icmp a b ↔
  let r := Compare (user_comparator_ icmp) (ExtractUserKey a) (ExtractUserKey b) in
  0 < r ∨ r = 0 ∧ ExtractNum a < ExtractNum b.
Proof.
  unfold internal_Compare. cbv zeta. destruct (Z.eqb_spec (Compare (user_comparator_ icmp)
    (ExtractUserKey a) (ExtractUserKey b)) 0) as [->|]; [|lia].
  destruct (Z.ltb_spec (ExtractNum b) (ExtractNum a)); [lia|].
  destruct (Z.ltb_spec (ExtractNum a) (ExtractNum b)); lia.
Qed.

Lemma internal_sym icmp a b :
  valid_key uvalid a → valid_key uvalid b →
  Z.sgn (internal_Compare icmp a b) = - Z.sgn (internal_Compare icmp b a).
Proof.
  intros [_ Ha] [_ Hb]. pose proof (compare_sym (user_comparator_ icmp) _ _ Ha Hb).
  pose proof (internal_lt icmp a b). pose proof (internal_lt icmp b a).
  pose proof (internal_gt icmp a b). pose proof (internal_gt icmp b a). cbv zeta in *. lia.
Qed.

Lemma internal_trans icmp a b d :
  valid_key uvalid a → valid_key uvalid b → valid_key uvalid d →
  internal_Compare icmp a b <= 0 → internal_Compare icmp b d <= 0 →
  internal_Compare icmp a d <= 0.
Proof.
  intros [_ Ha] [_ Hb] [_ Hd]. rewrite !internal_le. cbv zeta. set (c := user_comparator_ icmp).
  pose proof (compare_lt_le_trans c _ _ _ Ha Hb Hd).
  pose proof (compare_eq_l c _ _ _ Ha Hb Hd). lia.
Qed.

(** A user key that grew takes the largest number, the first of its key. *)
Lemma internal_grown icmp a u :
  valid_key uvalid a → Compare (user_comparator_ icmp) (ExtractUserKey a) u < 0 →
  internal_Compare icmp a
    (PutFixed64 u (PackSequenceAndType kMaxSequenceNumber kValueTypeForSeek)) < 0.
Proof.
  intros Ha Hlt. apply internal_lt. unfold PutFixed64. rewrite ExtractUserKey_app. by left.
Qed.

#[export] Instance internal_comparator_laws :
  ComparatorLaws (InternalKeyComparator C) (valid_key uvalid).
Proof.
  split; cbn [Compare FindShortestSeparator FindShortSuccessor internal_comparator]; intros icmp;
    [apply internal_sym|apply internal_trans|..];
    unfold internal_FindShortestSeparator, internal_FindShortSuccessor; cbv zeta.
  - intros a b Ha Hb. destruct (_ && _); [|done]. apply valid_key_app. apply separator_valid;
      [apply Ha|apply Hb].
  - intros a b Ha Hb Hlt. destruct (_ && _) eqn:Hg.
    + apply andb_true_iff in Hg as [_ Hg%Z.ltb_lt]. split.
      { apply Z.lt_le_incl. by apply internal_grown. }
      apply internal_lt. unfold PutFixed64. rewrite ExtractUserKey_app. left.
      apply separator_between; [apply Ha|apply Hb|].
      apply internal_lt in Hlt as [Hlt|[Heq _]]; [exact Hlt|exfalso].
      rewrite separator_id in Hg; [|apply Ha|apply Hb|lia].
      rewrite compare_refl in Hg; [lia|apply Ha].
    + split; [|done]. pose proof (internal_sym icmp a a Ha Ha). lia.
  - intros a b Ha Hb Hge. destruct (_ && _) eqn:Hg; [|done]. exfalso.
    apply andb_true_iff in Hg as [_ Hg%Z.ltb_lt].
    rewrite separator_id in Hg; [|apply Ha|apply Hb|].
    + rewrite compare_refl in Hg; [lia|apply Ha].
    + pose proof (internal_lt icmp a b). cbv zeta in *. lia.
  - intros k Hk. destruct (_ && _); [|done]. apply valid_key_app. apply successor_valid, Hk.
  - intros k Hk. destruct (_ && _) eqn:Hg.
    + apply andb_true_iff in Hg as [_ Hg%Z.ltb_lt].
      apply Z.lt_le_incl. by apply internal_grown.
    + pose proof (internal_sym icmp k k Hk Hk). lia.
Qed.

Lemma internal_separator_length icmp a b : valid_key uvalid a →
  (length (FindShortestSeparator icmp a b) ≤ length a)%nat ∧ (length (FindShortSuccessor icmp a) ≤ length a)%nat.
Proof.
  intros [Ha _]. cbn [FindShortestSeparator FindShortSuccessor internal_comparator].
  unfold internal_FindShortestSeparator, internal_FindShortSuccessor, PutFixed64. cbv zeta.
  assert (length (ExtractUserKey a) = length a - 8)%nat as Hu by (unfold ExtractUserKey; rewrite length_take; lia).
  split; (destruct (_ && _) eqn:Hg; [|done]); apply andb_true_iff in Hg as [Hg%Nat.ltb_lt _];
    rewrite length_app, length_EncodeFixed64; lia.
Qed.

(** A separator stays below the keys above [a] that have [b]'s user key. *)
Lemma internal_separator_below icmp a k b :
  valid_key uvalid a → valid_key uvalid k → valid_key uvalid b → Compare icmp a k < 0 →
  ExtractUserKey k = ExtractUserKey b → Compare icmp (FindShortestSeparator icmp a b) k < 0.
Proof.
  intros Ha Hk Hb Hlt Heq. cbn [Compare FindShortestSeparator internal_comparator] in *. unfold internal_FindShortestSeparator. cbv zeta.
  destruct (_ && _) eqn:Hg; [|done]. apply andb_true_iff in Hg as [_ Hg%Z.ltb_lt].
  apply internal_lt. unfold PutFixed64. rewrite ExtractUserKey_app. left. rewrite Heq.
  apply separator_between; [apply Ha|apply Hb|]. apply internal_lt in Hlt as [Hlt|[Heq' _]]; [by rewrite <- Heq|exfalso].
  rewrite Heq in Heq'. rewrite separator_id in Hg; [|apply Ha|apply Hb|lia]. rewrite compare_refl in Hg; [lia|apply Ha].
Qed.
End comparator_laws.

Lemma ValueType_num_range t : 0 <= ValueType_num t <= 1.
Proof. destruct t; simpl; lia. Qed.

Lemma ParseInternalKey_app u v : 0 <= v < 2 ^ 64 →
  ParseInternalKey (u ++ EncodeFixed64 v) =
  if v mod 256 =? 0 then Some {| user_key := u; sequence := v / 256; type := kTypeDeletion |}
  else if v mod 256 =? 1 then Some {| user_key := u; sequence := v / 256; type := kTypeValue |}
  else None.
Proof.
  intros Hv. unfold ParseInternalKey. rewrite length_app, length_EncodeFixed64.
  rewrite (proj2 (Nat.ltb_ge _ _)), Nat.add_sub, drop_app_length, take_app_length by lia.
  rewrite <- (app_nil_r (EncodeFixed64 v)), Decode_EncodeFixed64, u64_small by done.
  cbn [mbind option_bind]. change 255 with (2 ^ 8 - 1).
  rewrite (land_ones_mod v 8), Z.shiftr_div_pow2 by lia. done.
Qed.

Lemma lookup_user_key_new u s : lookup_user_key (LookupKey_new u s) = u.
Proof.
  unfold lookup_user_key, LookupKey_new. cbn [lk_data lk_kstart]. rewrite drop_app_length, !length_app, length_EncodeFixed64.
  rewrite take_app_le by lia. apply take_ge. lia.
Qed.

Lemma lookup_internal_key_app u s :
  lookup_internal_key (LookupKey_new u s) =
  u ++ EncodeFixed64 (PackSequenceAndType s kValueTypeForSeek).
Proof. unfold lookup_internal_key, LookupKey_new. cbn [lk_kstart lk_data]. apply drop_app_length. Qed.

(** ** Claims *)

(** internal keys round trip.  Parsing the encoding of a parsed key gives
    it back when its sequence number is at most [kMaxSequenceNumber], and every
    string that parses is the encoding of its result, which has a sequence
    number in range. *)
Theorem internal_key_roundtrip :
  (∀ p, 0 <= sequence p <= kMaxSequenceNumber → ParseInternalKey (AppendInternalKey [] p) = Some p) ∧
  (∀ k p, ParseInternalKey k = Some p →
     AppendInternalKey [] p = k ∧ 0 <= sequence p <= kMaxSequenceNumber).
Proof.
  split.
  - intros [u s t] Hs. cbn [sequence] in Hs. unfold AppendInternalKey, PutFixed64. cbn [app user_key].
    destruct (pack_value s t Hs) as [Heq Hr]. cbn [sequence type].
    rewrite ParseInternalKey_app, Heq by done. pose proof (ValueType_num_range t).
    rewrite Z.add_comm, Z_mod_plus_full, Z.mod_small, Z.div_add, Z.div_small by lia.
    by destruct t.
  - intros k p. destruct (Nat.ltb_spec (length k) 8) as [Hlt|Hge].
    { unfold ParseInternalKey. by rewrite (proj2 (Nat.ltb_lt _ _) Hlt). }
    destruct (internal_key_split k Hge) as [Hk Hv]. set (v := ExtractNum k) in *.
    rewrite Hk, ParseInternalKey_app by done.
    assert (0 <= v / 256 <= kMaxSequenceNumber) as Hs.
    { change kMaxSequenceNumber with (2 ^ 56 - 1). pose proof (Z.div_mod v 256).
      pose proof (Z.mod_pos_bound v 256). lia. }
    assert (∀ t, v mod 256 = ValueType_num t →
      AppendInternalKey [] {| user_key := ExtractUserKey k; sequence := v / 256; type := t |} =
      ExtractUserKey k ++ EncodeFixed64 v) as Happ.
    { intros t Ht. unfold AppendInternalKey, PutFixed64. cbn [app user_key sequence type].
      do 2 f_equal. rewrite (proj1 (pack_value _ t Hs)), <- Ht.
      rewrite (Z.div_mod v 256) at 3 by lia. lia. }
    destruct (Z.eqb_spec (v mod 256) 0) as [H0|]; [|destruct (Z.eqb_spec (v mod 256) 1) as [H1|]];
      [intros [= <-].. |done]; (split; [by apply Happ|exact Hs]).
Qed.

(** a lookup at sequence [s] separates visible from later versions.  For
    any lawful user comparator, the lookup key of [u] at [s] sorts strictly
    after every entry of [u] written after [s], and not after any entry of [u]
    written at or before [s]; it sorts before every entry of a larger user key.
    So the first entry not before the lookup key is the newest visible one. *)
Theorem lookup_key_seek {C} `{!Comparator C} {uvalid} `{!ComparatorLaws C uvalid}
    (icmp : InternalKeyComparator C) u s p :
  uvalid u → uvalid (user_key p) →
  0 <= s <= kMaxSequenceNumber → 0 <= sequence p <= kMaxSequenceNumber →
  let lk := lookup_internal_key (LookupKey_new u s) in
  let entry := AppendInternalKey [] p in
  (user_key p = u → s < sequence p → Compare icmp entry lk < 0) ∧
  (user_key p = u → sequence p <= s → Compare icmp lk entry <= 0) ∧
  (Compare (user_comparator_ icmp) u (user_key p) < 0 → Compare icmp lk entry < 0).
Proof.
  intros Hu Hpu Hs Hps lk entry. subst lk entry.
  rewrite lookup_internal_key_app. unfold AppendInternalKey, PutFixed64. cbn [app].
  destruct (pack_value s kValueTypeForSeek Hs) as [Hl Hlr].
  destruct (pack_value (sequence p) (type p) Hps) as [He Her].
  pose proof (ValueType_num_range (type p)). change (ValueType_num kValueTypeForSeek) with 1 in Hl.
  cbn [Compare internal_comparator]. rewrite !internal_Compare_app by done. cbv zeta.
  split_and!.
  - intros -> Hlt. rewrite compare_refl by done. simpl. lia.
  - intros -> Hle. rewrite compare_refl by done. simpl. lia.
  - intros Hlt. rewrite (proj2 (Z.eqb_neq _ _)); lia.
Qed.

Lemma lookup_key_seek_witness :
  Compare {| user_comparator_ := BytewiseComparator |}
    (lookup_internal_key (LookupKey_new [x61] 7))
    (AppendInternalKey [] {| user_key := [x61]; sequence := 5; type := kTypeDeletion |}) <= 0.
Proof.
  apply (lookup_key_seek {| user_comparator_ := BytewiseComparator |} [x61] 7
    {| user_key := [x61]; sequence := 5; type := kTypeDeletion |}); try done; vm_compute; split; congruence.
Defined.

(** shortening an index key keeps it between its neighbours in the internal
    order.  For a lawful user comparator and internal keys [start < limit],
    [FindShortestSeparator] yields an internal key in [start, limit), and
    [FindShortSuccessor] one not below [start]. *)
Theorem internal_separator {C} `{!Comparator C} {uvalid} `{!ComparatorLaws C uvalid}
    (icmp : InternalKeyComparator C) start limit :
  valid_key uvalid start → valid_key uvalid limit → Compare icmp start limit < 0 →
  let sep := FindShortestSeparator icmp start limit in
  let succ := FindShortSuccessor icmp start in
  (valid_key uvalid sep ∧ Compare icmp start sep <= 0 ∧ Compare icmp sep limit < 0) ∧
  (valid_key uvalid succ ∧ Compare icmp start succ <= 0).
Proof.
  intros Hs Hl Hlt. split_and!.
  - by apply separator_valid.
  - by apply separator_between.
  - by apply separator_between.
  - by apply successor_valid.
  - by apply successor_above.
Qed.

Lemma internal_separator_witness :
  let icmp := {| user_comparator_ := BytewiseComparator |} in
  let start := AppendInternalKey [] {| user_key := [x61; x62; x63]; sequence := 9; type := kTypeValue |} in
  let limit := AppendInternalKey [] {| user_key := [x61; x66]; sequence := 5; type := kTypeValue |} in
  Compare icmp (FindShortestSeparator icmp start limit) limit < 0.
Proof.
  intros icmp start limit. apply (internal_separator (uvalid := λ _, True) icmp start limit).
  - split; [vm_compute; lia|done].
  - split; [vm_compute; lia|done].
  - vm_compute. reflexivity.
Defined.
