(* ===== verification/Env.v ===== *)
(** Status values (include/leveldb/status.h, util/status.cc) and the file
    interfaces of include/leveldb/env.h with the behaviour their comments
    promise. *)
From S2P Require Import Prelude.

(** String literals as byte strings. *)
Definition str (s : string) : list byte := String.list_byte_of_string s.
Arguments str s%_string_scope.

(** ** Status *)

Inductive Code := kOk | kNotFound | kCorruption | kNotSupported | kInvalidArgument | kIOError.

#[export] Instance Code_eq_dec : EqDecision Code.
Proof. solve_decision. Defined.

(** [None] is the null [state_] of an OK status; otherwise the code and the
    message. *)
Record Status := { state_ : option (Code * list byte) }.

Definition Status_OK : Status := {| state_ := None |}.

(** The constructor joins the two messages with a colon when the second is
    not empty. *)
Definition Status_new (c : Code) (msg msg2 : list byte) : Status :=
  {| state_ := Some (c, msg ++ match msg2 with [] => [] | _ => str ": " ++ msg2 end) |}.

Definition NotFound (msg : list byte) : Status := Status_new kNotFound msg [].
Definition Corruption (msg : list byte) : Status := Status_new kCorruption msg [].
Definition NotSupported (msg msg2 : list byte) : Status := Status_new kNotSupported msg msg2.
Definition InvalidArgument (msg msg2 : list byte) : Status := Status_new kInvalidArgument msg msg2.
Definition IOError (msg msg2 : list byte) : Status := Status_new kIOError msg msg2.

Definition code (s : Status) : Code :=
  match state_ s with None => kOk | Some (c, _) => c end.

Definition ok (s : Status) : bool := match state_ s with None => true | Some _ => false end.

Definition IsNotFound (s : Status) : bool := bool_decide (code s = kNotFound).
Definition IsCorruption (s : Status) : bool := bool_decide (code s = kCorruption).
Definition IsIOError (s : Status) : bool := bool_decide (code s = kIOError).
Definition IsNotSupportedError (s : Status) : bool := bool_decide (code s = kNotSupported).
Definition IsInvalidArgument (s : Status) : bool := bool_decide (code s = kInvalidArgument).

Definition Status_ToString (s : Status) : list byte :=
  match state_ s with
  | None => str "OK"
  | Some (c, msg) =>
      match c with
      | kOk => str "OK"
      | kNotFound => str "NotFound: "
      | kCorruption => str "Corruption: "
      | kNotSupported => str "Not implemented: "
      | kInvalidArgument => str "Invalid argument: "
      | kIOError => str "IO error: "
      end ++ msg
  end.

(** ** Files *)

Class WritableFile (F : Type) := {
  Append : F → list byte → F * Status;
  Close : F → F * Status;
  Flush : F → F * Status;
  Sync : F → F * Status;
}.

Class SequentialFile (S : Type) := {
  Read : S → nat → S * (list byte * Status);
  Skip : S → Z → S * Status;
}.

Class RandomAccessFile (R : Type) := {
  PRead : R → Z → nat → list byte * Status;
}.

(** A writable file whose operations succeed: [content] is what was appended. *)
Class WritableFileLaws (F : Type) `{WritableFile F} (wf : F → Prop) (content : F → list byte) := {
  append_ok f data : wf f → ∃ f', Append f data = (f', Status_OK) ∧ wf f' ∧
    content f' = content f ++ data;
  close_ok f : wf f → ∃ f', Close f = (f', Status_OK) ∧ wf f' ∧ content f' = content f;
  flush_ok f : wf f → ∃ f', Flush f = (f', Status_OK) ∧ wf f' ∧ content f' = content f;
  sync_ok f : wf f → ∃ f', Sync f = (f', Status_OK) ∧ wf f' ∧ content f' = content f;
}.

(** A sequential file whose reads succeed: [rest] is what is still to be read,
    and only the end of the file makes a read short. *)
Class SequentialFileLaws (S : Type) `{SequentialFile S} (wf : S → Prop) (rest : S → list byte) := {
  read_ok s n : wf s → ∃ s', Read s n = (s', (take n (rest s), Status_OK)) ∧ wf s' ∧
    rest s' = drop n (rest s);
  skip_ok s n : wf s → 0 <= n → ∃ s', Skip s n = (s', Status_OK) ∧ wf s' ∧
    rest s' = drop (Z.to_nat n) (rest s);
}.

(** A random-access file with fixed [content]. *)
Class RandomAccessFileLaws (R : Type) `{RandomAccessFile R} (wf : R → Prop)
    (content : R → list byte) := {
  pread_ok r offset n : wf r → 0 <= offset <= Z.of_nat (length (content r)) →
    PRead r offset n = (take n (drop (Z.to_nat offset) (content r)), Status_OK);
}.

(** [ReadFileToString]: reads of 8192 bytes until an empty one or an error.
    The caller's fuel bounds the number of reads; [None] when it runs out. *)
Definition kBufferSize : nat := Z.to_nat 8192.

Fixpoint ReadFileToString_loop {S} `{SequentialFile S} (fuel : nat) (file : S) (data : list byte)
    : option (S * list byte * Status) :=
  match fuel with
  | O => None
  | Datatypes.S fuel =>
      let '(file, (fragment, s)) := Read file kBufferSize in
      if ok s
      then match fragment with
           | [] => Some (file, data, s)
           | _ => ReadFileToString_loop fuel file (data ++ fragment)
           end
      else Some (file, data, s)
  end.

Lemma ReadFileToString_loop_spec {S} `{!SequentialFile S} {wf rest} `{!SequentialFileLaws S wf rest}
    fuel file data :
  wf file → (length (rest file) < fuel)%nat →
  ∃ file', ReadFileToString_loop fuel file data = Some (file', data ++ rest file, Status_OK) ∧ wf file'.
Proof.
  revert file data; induction fuel as [|fuel IH]; intros file data Hwf Hlen; [lia|].
  cbn [ReadFileToString_loop].
  destruct (read_ok file kBufferSize Hwf) as (file' & -> & Hwf' & Hrest). cbn [ok state_ Status_OK].
  destruct (take kBufferSize (rest file)) as [|b l] eqn:Ht.
  - exists file'. split; [|done]. assert (rest file = []) as ->; [|by rewrite app_nil_r].
    destruct (rest file) as [|b l]; [done|]. unfold kBufferSize in Ht.
    destruct (Z.to_nat 8192) eqn:Hk; [lia|done].
  - destruct (IH file' (data ++ b :: l) Hwf') as (file'' & -> & Hwf'').
    + rewrite Hrest, length_drop. destruct (rest file) eqn:Hr; [by rewrite take_nil in Ht|].
      unfold kBufferSize. cbn [length] in *. lia.
    + exists file''. by rewrite <- Ht, Hrest, <- app_assoc, take_drop.
Qed.
