(* ===== verification/FileSystem.v ===== *)
(** The file system operations of an environment (include/leveldb/env.h) as an
    interface, what its clients rely on as laws, the whole-file helpers of
    util/env.cc over it, and open files as log files. *)
From S2P Require Import Prelude Env.

(** [E] is the state of the environment; [None] where a call is undefined.  An
    open file is [None] when the call reports an error. *)
Class FileSystem (E : Type) := {
  WFile : Type;
  SFile : Type;
  RFile : Type;
  FLock : Type;
  fs_NewSequentialFile : list byte → E → option (E * option SFile * Status);
  fs_NewRandomAccessFile : list byte → E → option (E * option RFile * Status);
  fs_NewDirectIORandomAccessFile : list byte → E → option (E * option RFile * Status);
  fs_NewWritableFile : list byte → E → option (E * option WFile * Status);
  fs_NewAppendableFile : list byte → E → option (E * option WFile * Status);
  fs_Append : WFile → list byte → E → option (E * Status);
  fs_Flush : WFile → E → option (E * Status);
  fs_Sync : WFile → E → option (E * Status);
  fs_Close : WFile → E → option (E * Status);
  fs_delete_writable : WFile → E → option E;
  fs_Read : SFile → nat → E → option (E * SFile * (list byte * Status));
  fs_Skip : SFile → Z → E → option (E * SFile * Status);
  fs_delete_sequential : SFile → E → option E;
  fs_PRead : RFile → Z → nat → E → option (list byte * Status);
  fs_delete_random : RFile → E → option E;
  fs_FileExists : list byte → E → bool;
  fs_GetChildren : list byte → E → list (list byte) * Status;
  fs_RemoveFile : list byte → E → option (E * Status);
  fs_GetFileSize : list byte → E → option (Z * Status);
  fs_RenameFile : list byte → list byte → E → option (E * Status);
  fs_CreateDir : list byte → E → option (E * Status);
  fs_RemoveDir : list byte → E → option (E * Status);
  fs_LockFile : list byte → E → option (E * option FLock * Status);
  fs_UnlockFile : FLock → E → option (E * Status);
}.
Arguments WFile E {_}.
Arguments SFile E {_}.
Arguments RFile E {_}.
Arguments FLock E {_}.

(** An open file as an object of its own: the environment goes with it. *)
Notation open_writable E := (option (E * WFile E)).
Notation open_sequential E := (option (E * SFile E)).

(** ** Whole-file helpers *)

Section helpers.
Context {E : Type} `{!FileSystem E}.

Definition DoWriteStringToFile (data fname : list byte) (should_sync : bool) (e : E) : option (E * Status) :=
  '(e, file, s) ← fs_NewWritableFile fname e;
  if negb (ok s) then Some (e, s)
  else
    file ← file;
    '(e, s) ← fs_Append file data e;
    '(e, s) ← (if ok s && should_sync then fs_Sync file e else Some (e, s));
    '(e, s) ← (if ok s then fs_Close file e else Some (e, s));
    e ← fs_delete_writable file e;
    if ok s then Some (e, s) else '(e, _) ← fs_RemoveFile fname e; Some (e, s).

Definition WriteStringToFile (data fname : list byte) := DoWriteStringToFile data fname false.
Definition WriteStringToFileSync (data fname : list byte) := DoWriteStringToFile data fname true.

Definition on_writable (op : WFile E → E → option (E * Status)) (o : open_writable E) : open_writable E * Status :=
  match o with
  | Some (e, h) => match op h e with Some (e, s) => (Some (e, h), s) | None => (None, Status_OK) end
  | None => (None, Status_OK)
  end.

#[export] Instance fs_writable : WritableFile (open_writable E) := {|
  Append o data := on_writable (λ h, fs_Append h data) o;
  Close := on_writable fs_Close;
  Flush := on_writable fs_Flush;
  Sync := on_writable fs_Sync;
|}.

#[export] Instance fs_sequential : SequentialFile (open_sequential E) := {|
  Read o n :=
    match o with
    | Some (e, h) => match fs_Read h n e with Some (e, h, r) => (Some (e, h), r) | None => (None, ([], Status_OK)) end
    | None => (None, ([], Status_OK))
    end;
  Skip o n :=
    match o with
    | Some (e, h) => match fs_Skip h n e with Some (e, h, s) => (Some (e, h), s) | None => (None, Status_OK) end
    | None => (None, Status_OK)
    end;
|}.

(** [ReadFileToString]; the loop ends within [fuel] reads or the result is [None]. *)
Definition ReadFileToString (fuel : nat) (fname : list byte) (e : E) : option (E * list byte * Status) :=
  '(e, file, s) ← fs_NewSequentialFile fname e;
  if negb (ok s) then Some (e, [], s)
  else
    file ← file;
    '(o, data, s) ← ReadFileToString_loop (S := open_sequential E) fuel (Some (e, file)) [];
    '(e, file) ← o;
    e ← fs_delete_sequential file e;
    Some (e, data, s).
End helpers.

(** A random-access file in the environment it is read in; an undefined read
    is an error. *)
#[export] Instance fs_random {E} `{!FileSystem E} : RandomAccessFile (E * RFile E) := {|
  PRead r offset n := default ([], IOError [] []) (fs_PRead r.2 offset n r.1);
|}.

(** ** Laws *)

(** A name that can be the last component of the name of a file. *)
Definition child_name (n : list byte) : Prop := x2f ∉ n ∧ n ≠ str "." ∧ n ≠ str "..".

(** [files] is the abstract file system; [writing e h n]: [h] appends to the file
    named [n]; [reading e h n]: [h] reads the file named [n], from [pos h] on.
    Every operation changes the named files only and leaves the handles on other
    files open. *)
Section frame.
Context {E W S : Type} (files : E → list byte → option (list byte)) (writing : E → W → list byte → Prop)
  (reading : E → S → list byte → Prop).

Record unchanged (names : list (list byte)) (e e' : E) : Prop := {
  un_files n : n ∉ names → files e' n = files e n;
  un_writing h n : n ∉ names → writing e h n → writing e' h n;
  un_reading h n : n ∉ names → reading e h n → reading e' h n;
}.

Lemma unchanged_refl names e : unchanged names e e.
Proof. by split. Qed.

Lemma unchanged_trans names e1 e2 e3 : unchanged names e1 e2 → unchanged names e2 e3 → unchanged names e1 e3.
Proof.
  intros H1 H2. split.
  - intros n Hn. by rewrite (un_files _ _ _ H2), (un_files _ _ _ H1).
  - intros h n Hn Hw. by apply (un_writing _ _ _ H2), (un_writing _ _ _ H1).
  - intros h n Hn Hw. by apply (un_reading _ _ _ H2), (un_reading _ _ _ H1).
Qed.

Lemma unchanged_weaken names names' e e' : names ⊆ names' → unchanged names e e' → unchanged names' e e'.
Proof.
  intros Hs H. split; intros *; intros Hn.
  - apply (un_files _ _ _ H). by intros ?%Hs.
  - apply (un_writing _ _ _ H). by intros ?%Hs.
  - apply (un_reading _ _ _ H). by intros ?%Hs.
Qed.
End frame.

Class FileSystemLaws (E : Type) `{!FileSystem E} (env_ok : E → Prop) (files : E → list byte → option (list byte))
    (writing : E → WFile E → list byte → Prop) (reading : E → SFile E → list byte → Prop) (pos : SFile E → nat) := {
  reading_file e h n : env_ok e → reading e h n → ∃ c, files e n = Some c ∧ (pos h ≤ length c)%nat;
  writing_file e h n : env_ok e → writing e h n → ∃ c, files e n = Some c;
  new_sequential_ok e n c : env_ok e → files e n = Some c →
    ∃ e' h, fs_NewSequentialFile n e = Some (e', Some h, Status_OK) ∧ env_ok e' ∧ reading e' h n ∧ pos h = 0%nat ∧
      files e' n = Some c ∧ unchanged files writing reading [n] e e';
  new_sequential_missing e n : env_ok e → files e n = None →
    ∃ s, fs_NewSequentialFile n e = Some (e, None, s) ∧ ok s = false;
  new_writable_ok e n : env_ok e →
    ∃ e' h, fs_NewWritableFile n e = Some (e', Some h, Status_OK) ∧ env_ok e' ∧ writing e' h n ∧
      files e' n = Some [] ∧ unchanged files writing reading [n] e e';
  new_appendable_ok e n c : env_ok e → files e n = Some c →
    ∃ e' h, fs_NewAppendableFile n e = Some (e', Some h, Status_OK) ∧ env_ok e' ∧ writing e' h n ∧
      files e' n = Some c ∧ unchanged files writing reading [n] e e';
  fs_append_ok e h n c data : env_ok e → writing e h n → files e n = Some c →
    ∃ e', fs_Append h data e = Some (e', Status_OK) ∧ env_ok e' ∧ writing e' h n ∧
      files e' n = Some (c ++ data) ∧ unchanged files writing reading [n] e e';
  fs_flush_ok e h n : env_ok e → writing e h n →
    ∃ e', fs_Flush h e = Some (e', Status_OK) ∧ env_ok e' ∧ writing e' h n ∧
      files e' n = files e n ∧ unchanged files writing reading [n] e e';
  fs_sync_ok e h n : env_ok e → writing e h n →
    ∃ e', fs_Sync h e = Some (e', Status_OK) ∧ env_ok e' ∧ writing e' h n ∧
      files e' n = files e n ∧ unchanged files writing reading [n] e e';
  fs_close_ok e h n : env_ok e → writing e h n →
    ∃ e', fs_Close h e = Some (e', Status_OK) ∧ env_ok e' ∧ writing e' h n ∧
      files e' n = files e n ∧ unchanged files writing reading [n] e e';
  delete_writable_ok e h n : env_ok e → writing e h n →
    ∃ e', fs_delete_writable h e = Some e' ∧ env_ok e' ∧
      files e' n = files e n ∧ unchanged files writing reading [n] e e';
  fs_read_ok e h n c k : env_ok e → reading e h n → files e n = Some c →
    ∃ e' h', fs_Read h k e = Some (e', h', (take k (drop (pos h) c), Status_OK)) ∧ env_ok e' ∧
      reading e' h' n ∧ pos h' = (pos h + length (take k (drop (pos h) c)))%nat ∧ files e' n = Some c ∧ unchanged files writing reading [n] e e';
  fs_skip_ok e h n c k : env_ok e → reading e h n → files e n = Some c → 0 <= k →
    ∃ e' h', fs_Skip h k e = Some (e', h', Status_OK) ∧ env_ok e' ∧
      reading e' h' n ∧ pos h' = (pos h + Z.to_nat k `min` (length c - pos h))%nat ∧ files e' n = Some c ∧ unchanged files writing reading [n] e e';
  delete_sequential_ok e h n : env_ok e → reading e h n →
    ∃ e', fs_delete_sequential h e = Some e' ∧ env_ok e' ∧
      files e' n = files e n ∧ unchanged files writing reading [n] e e';
  file_exists_ok e n : env_ok e → fs_FileExists n e = true ↔ is_Some (files e n);
  remove_ok e n c : env_ok e → files e n = Some c →
    ∃ e', fs_RemoveFile n e = Some (e', Status_OK) ∧ env_ok e' ∧ files e' n = None ∧ unchanged files writing reading [n] e e';
  remove_missing e n : env_ok e → files e n = None → ∃ s, fs_RemoveFile n e = Some (e, s) ∧ ok s = false;
  get_children_ok e dir : env_ok e →
    ∃ l, fs_GetChildren dir e = (l, Status_OK) ∧ NoDup l ∧
      ∀ n, child_name n → n ∈ l ↔ is_Some (files e (dir ++ x2f :: n));
  file_size_ok e n c : env_ok e → files e n = Some c → fs_GetFileSize n e = Some (Z.of_nat (length c), Status_OK);
  rename_ok e src target c : env_ok e → src ≠ target → files e src = Some c →
    ∃ e', fs_RenameFile src target e = Some (e', Status_OK) ∧ env_ok e' ∧
      files e' target = Some c ∧ files e' src = None ∧ unchanged files writing reading [src; target] e e';
  create_dir_ok e dir : env_ok e →
    ∃ e' s, fs_CreateDir dir e = Some (e', s) ∧ env_ok e' ∧ unchanged files writing reading [] e e';
  lock_file_ok e n : env_ok e →
    ∃ e' l, fs_LockFile n e = Some (e', Some l, Status_OK) ∧ env_ok e' ∧ unchanged files writing reading [n] e e';
}.

(** [viewing e h n]: [h] reads at any offset of the file named [n]. *)
Class RandomFileLaws (E : Type) `{!FileSystem E} (env_ok : E → Prop) (files : E → list byte → option (list byte))
    (writing : E → WFile E → list byte → Prop) (reading : E → SFile E → list byte → Prop) (viewing : E → RFile E → list byte → Prop) := {
  new_random_ok (direct : bool) e n c : env_ok e → files e n = Some c →
    ∃ e' h, (if direct then fs_NewDirectIORandomAccessFile else fs_NewRandomAccessFile) n e = Some (e', Some h, Status_OK) ∧ env_ok e' ∧
      viewing e' h n ∧ files e' n = Some c ∧ unchanged files writing reading [n] e e' ∧
      (∀ h n, viewing e h n → viewing e' h n);
  new_random_missing (direct : bool) e n : env_ok e → files e n = None →
    ∃ s, (if direct then fs_NewDirectIORandomAccessFile else fs_NewRandomAccessFile) n e = Some (e, None, s) ∧ ok s = false;
  fs_pread_ok e h n c offset k : env_ok e → viewing e h n → files e n = Some c → 0 <= offset <= Z.of_nat (length c) →
    fs_PRead h offset k e = Some (take k (drop (Z.to_nat offset) c), Status_OK);
  viewing_unchanged names e e' h n : env_ok e → env_ok e' → unchanged files writing reading names e e' → n ∉ names →
    viewing e h n → viewing e' h n;
  delete_random_ok e h n : env_ok e → viewing e h n →
    ∃ e', fs_delete_random h e = Some e' ∧ env_ok e' ∧ files e' n = files e n ∧ unchanged files writing reading [n] e e';
}.

(** ** Open files *)

Section open_files.
Context {E : Type} `{!FileSystem E} {env_ok : E → Prop} {files : E → list byte → option (list byte)}
  {writing : E → WFile E → list byte → Prop} {reading : E → SFile E → list byte → Prop} {pos : SFile E → nat}
  `{!FileSystemLaws E env_ok files writing reading pos}.
Context (n : list byte) (e0 : E).
Notation unchanged := (unchanged files writing reading).

(** The file named [n] is open; nothing else changed since [e0]. *)
Definition open_w (o : open_writable E) : Prop :=
  ∃ e h, o = Some (e, h) ∧ env_ok e ∧ writing e h n ∧ unchanged [n] e0 e.
Definition open_content (o : open_writable E) : list byte :=
  match o with Some (e, _) => default [] (files e n) | None => [] end.

Lemma on_writable_ok op : (∀ e h, env_ok e → writing e h n →
    ∃ e', op h e = Some (e', Status_OK) ∧ env_ok e' ∧ writing e' h n ∧ files e' n = files e n ∧ unchanged [n] e e') →
  ∀ o, open_w o → ∃ o', on_writable op o = (o', Status_OK) ∧ open_w o' ∧ open_content o' = open_content o.
Proof.
  intros Hop o (e & h & -> & He & Hw & Hu). destruct (Hop e h He Hw) as (e' & Hr & He' & Hw' & Hf & Hu').
  cbn. rewrite Hr. eexists. split; [done|]. split; [|cbn; by rewrite Hf].
  exists e', h. split_and!; try done. by eapply unchanged_trans.
Qed.

#[export] Instance fs_writable_laws : WritableFileLaws (open_writable E) open_w open_content.
Proof.
  split.
  - intros o data (e & h & -> & He & Hw & Hu). destruct (writing_file e h n He Hw) as (c & Hc).
    destruct (fs_append_ok e h n c data He Hw Hc) as (e' & Hr & He' & Hw' & Hf & Hu').
    cbn. rewrite Hr. eexists. split; [done|]. split; [|cbn; by rewrite Hf, Hc].
    exists e', h. split_and!; try done. by eapply unchanged_trans.
  - apply on_writable_ok. intros e h. apply fs_close_ok.
  - apply on_writable_ok. intros e h. apply fs_flush_ok.
  - apply on_writable_ok. intros e h. apply fs_sync_ok.
Qed.

Definition open_s (o : open_sequential E) : Prop :=
  ∃ e h, o = Some (e, h) ∧ env_ok e ∧ reading e h n ∧ files e n = files e0 n ∧ unchanged [n] e0 e.
Definition open_rest (o : open_sequential E) : list byte :=
  match o with Some (e, h) => drop (pos h) (default [] (files e n)) | None => [] end.

#[export] Instance fs_sequential_laws : SequentialFileLaws (open_sequential E) open_s open_rest.
Proof.
  split.
  - intros o k (e & h & -> & He & Hr & Hs & Hu). destruct (reading_file e h n He Hr) as (c & Hc & Hp).
    destruct (fs_read_ok e h n c k He Hr Hc) as (e' & h' & Ho & He' & Hr' & Hp' & Hc' & Hu').
    cbn [Read fs_sequential]. rewrite Ho. eexists. split; [cbn; rewrite Hc; done|]. split.
    + exists e', h'. split_and!; try done; [congruence|by eapply unchanged_trans].
    + cbn. rewrite Hc', Hc, Hp'. cbn. rewrite length_take, length_drop, drop_drop.
      destruct (decide (k ≤ length c - pos h)%nat); [f_equal; lia|]. rewrite !drop_ge; [done|lia|lia].
  - intros o k (e & h & -> & He & Hr & Hs & Hu) Hk. destruct (reading_file e h n He Hr) as (c & Hc & Hp).
    destruct (fs_skip_ok e h n c k He Hr Hc Hk) as (e' & h' & Ho & He' & Hr' & Hp' & Hc' & Hu').
    cbn [Skip fs_sequential]. rewrite Ho. eexists. split; [done|]. split.
    + exists e', h'. split_and!; try done; [congruence|by eapply unchanged_trans].
    + cbn. rewrite Hc', Hc, Hp'. cbn. rewrite drop_drop.
      destruct (decide (Z.to_nat k ≤ length c - pos h)%nat); [f_equal; lia|]. rewrite !drop_ge; [done|lia|lia].
Qed.
End open_files.

(** ** The helpers on a lawful file system *)

Section helper_laws.
Context {E : Type} `{!FileSystem E} {env_ok : E → Prop} {files : E → list byte → option (list byte)}
  {writing : E → WFile E → list byte → Prop} {reading : E → SFile E → list byte → Prop} {pos : SFile E → nat}
  `{!FileSystemLaws E env_ok files writing reading pos}.
Notation unchanged := (unchanged files writing reading).

Lemma DoWriteStringToFile_spec e fname data sync : env_ok e →
  ∃ e', DoWriteStringToFile data fname sync e = Some (e', Status_OK) ∧ env_ok e' ∧
    files e' fname = Some data ∧ unchanged [fname] e e'.
Proof.
  intros He. unfold DoWriteStringToFile. destruct (new_writable_ok e fname He) as (e1 & h & -> & He1 & Hw1 & Hf1 & Hu1).
  cbn [mbind option_bind ok state_ Status_OK negb].
  destruct (fs_append_ok e1 h fname [] data He1 Hw1 Hf1) as (e2 & -> & He2 & Hw2 & Hf2 & Hu2).
  cbn [mbind option_bind ok state_ Status_OK andb].
  assert (∃ e3, (if sync then fs_Sync h e2 else Some (e2, Status_OK)) = Some (e3, Status_OK) ∧ env_ok e3 ∧ writing e3 h fname ∧
    files e3 fname = files e2 fname ∧ unchanged [fname] e2 e3) as (e3 & -> & He3 & Hw3 & Hf3 & Hu3).
  { destruct sync; [by apply fs_sync_ok|]. exists e2. by split_and!. }
  cbn [mbind option_bind ok state_ Status_OK].
  destruct (fs_close_ok e3 h fname He3 Hw3) as (e4 & -> & He4 & Hw4 & Hf4 & Hu4). cbn [mbind option_bind].
  destruct (delete_writable_ok e4 h fname He4 Hw4) as (e5 & -> & He5 & Hf5 & Hu5). cbn [mbind option_bind ok state_ Status_OK].
  exists e5. do 2 (split; [done|]). split; [by rewrite Hf5, Hf4, Hf3, Hf2|].
  eauto using unchanged_trans.
Qed.

Lemma ReadFileToString_spec fuel e fname c : env_ok e → files e fname = Some c → (length c < fuel)%nat →
  ∃ e', ReadFileToString fuel fname e = Some (e', c, Status_OK) ∧ env_ok e' ∧
    files e' fname = Some c ∧ unchanged [fname] e e'.
Proof.
  intros He Hc Hfuel. unfold ReadFileToString. destruct (new_sequential_ok e fname c He Hc) as (e1 & h & -> & He1 & Hr1 & Hp1 & Hf1 & Hu1).
  cbn [mbind option_bind ok state_ Status_OK negb].
  destruct (ReadFileToString_loop_spec (wf := open_s fname e1) (S := open_sequential E) (rest := open_rest (pos := pos) (files := files) fname) fuel (Some (e1, h)) [])
    as (o & -> & (e2 & h2 & -> & He2 & Hr2 & Hf2 & Hu2)).
  - exists e1, h. by split_and!.
  - cbn. rewrite Hf1, Hp1. cbn. by rewrite drop_0.
  - cbn [mbind option_bind]. destruct (delete_sequential_ok e2 h2 fname He2 Hr2) as (e3 & -> & He3 & Hf3 & Hu3).
    cbn. rewrite Hf1, Hp1. cbn. rewrite drop_0. exists e3. split_and!; try done; [by rewrite Hf3, Hf2|].
    eauto using unchanged_trans.
Qed.
End helper_laws.
