(* ===== verification/MemEnv.v ===== *)
(** The in-memory file of helpers/memenv/memenv.cc: a file is a list of 8 KB
    blocks and a size.  It implements the file interfaces. *)
From S2P Require Import Prelude Env Comparator.

Definition kMemBlockSize : nat := Z.to_nat 8192.

Record FileState := {
  refs_ : Z;
  blocks_ : list (list byte);
  size_ : nat;
}.

Definition FileState_new : FileState := {| refs_ := 0; blocks_ := []; size_ := 0 |}.

Definition FileState_Ref (f : FileState) : FileState :=
  {| refs_ := refs_ f + 1; blocks_ := blocks_ f; size_ := size_ f |}.

(** [None] when the last reference is dropped and the file deleted. *)
Definition FileState_Unref (f : FileState) : option FileState :=
  if refs_ f - 1 <=? 0 then None
  else Some {| refs_ := refs_ f - 1; blocks_ := blocks_ f; size_ := size_ f |}.

Definition FileState_Truncate (f : FileState) : FileState :=
  {| refs_ := refs_ f; blocks_ := []; size_ := 0 |}.

(** The copy loop of [Read]; each round copies at least one byte. *)
Fixpoint read_loop (fuel : nat) (blocks : list (list byte)) (block block_offset bytes_to_copy : nat)
    : list byte :=
  match fuel with
  | O => []
  | S fuel =>
      if (0 <? bytes_to_copy)%nat
      then let avail := (kMemBlockSize - block_offset)%nat in
           let avail := if (bytes_to_copy <? avail)%nat then bytes_to_copy else avail in
           take avail (drop block_offset (default [] (blocks !! block))) ++
           read_loop fuel blocks (S block) 0 (bytes_to_copy - avail)%nat
      else []
  end.

Definition FileState_Read (f : FileState) (offset n : nat) : list byte * Status :=
  if (size_ f <? offset)%nat then ([], IOError (str "Offset greater than file size.") [])
  else let available := (size_ f - offset)%nat in
       let n := if (available <? n)%nat then available else n in
       if (n =? 0)%nat then ([], Status_OK)
       else (read_loop n (blocks_ f) (offset / kMemBlockSize)%nat
               (offset mod kMemBlockSize)%nat n, Status_OK).

(** The contents of a new block are unspecified; [size_] keeps them unread. *)
Fixpoint append_loop (fuel : nat) (f : FileState) (src : list byte) : FileState :=
  match fuel with
  | O => f
  | S fuel =>
      match src with
      | [] => f
      | _ =>
          let offset := (size_ f mod kMemBlockSize)%nat in
          let blocks := if (offset =? 0)%nat then blocks_ f ++ [replicate kMemBlockSize x00]
                        else blocks_ f in
          let avail := if (offset =? 0)%nat then kMemBlockSize else (kMemBlockSize - offset)%nat in
          let avail := if (length src <? avail)%nat then length src else avail in
          let back := (length blocks - 1)%nat in
          append_loop fuel
            {| refs_ := refs_ f;
               blocks_ := alter (splice offset (take avail src)) back blocks;
               size_ := (size_ f + avail)%nat |}
            (drop avail src)
      end
  end.

Definition FileState_Append (f : FileState) (data : list byte) : FileState * Status :=
  (append_loop (length data) f data, Status_OK).

(** ** The file objects *)

#[export] Instance mem_writable : WritableFile FileState := {
  Append := FileState_Append;
  Close f := (f, Status_OK);
  Flush f := (f, Status_OK);
  Sync f := (f, Status_OK);
}.

Record SequentialFileImpl := { file_ : FileState; pos_ : nat }.

Definition Sequential_Read (s : SequentialFileImpl) (n : nat)
    : SequentialFileImpl * (list byte * Status) :=
  let '(result, st) := FileState_Read (file_ s) (pos_ s) n in
  (if ok st then {| file_ := file_ s; pos_ := (pos_ s + length result)%nat |} else s, (result, st)).

Definition Sequential_Skip (s : SequentialFileImpl) (n : Z) : SequentialFileImpl * Status :=
  if (size_ (file_ s) <? pos_ s)%nat then (s, IOError (str "pos_ > file_->Size()") [])
  else let available := Z.of_nat (size_ (file_ s) - pos_ s) in
       let n := if available <? n then available else n in
       ({| file_ := file_ s; pos_ := (pos_ s + Z.to_nat n)%nat |}, Status_OK).

#[export] Instance mem_sequential : SequentialFile SequentialFileImpl := {
  Read := Sequential_Read;
  Skip := Sequential_Skip;
}.

#[export] Instance mem_random : RandomAccessFile FileState := {
  PRead f offset n := FileState_Read f (Z.to_nat offset) n;
}.

(** ** Representation *)

Definition flat (f : FileState) : list byte := mjoin (blocks_ f).
Definition content (f : FileState) : list byte := take (size_ f) (flat f).

Record fs_ok (f : FileState) : Prop := {
  fs_blocks : Forall (λ b, length b = kMemBlockSize) (blocks_ f);
  fs_lower : (size_ f ≤ kMemBlockSize * length (blocks_ f))%nat;
  fs_upper : (kMemBlockSize * length (blocks_ f) < size_ f + kMemBlockSize)%nat;
}.

Lemma kMemBlockSize_pos : (0 < kMemBlockSize)%nat.
Proof. unfold kMemBlockSize. lia. Qed.

#[local] Opaque kMemBlockSize.

Lemma length_join_blocks bs :
  Forall (λ b, length b = kMemBlockSize) bs → length (mjoin bs : list byte) = (kMemBlockSize * length bs)%nat.
Proof.
  induction 1 as [|b bs Hb _ IH]; [simpl; lia|].
  change (mjoin (b :: bs)) with (b ++ mjoin bs). rewrite length_app, Hb, IH. cbn [length]. lia.
Qed.

(** A range inside one block is a range of the flat view. *)
Lemma slice_block bs i off n :
  Forall (λ b, length b = kMemBlockSize) bs → (off + n ≤ kMemBlockSize)%nat → (i < length bs)%nat →
  take n (drop off (default [] (bs !! i))) = take n (drop (kMemBlockSize * i + off)%nat (mjoin bs : list byte)).
Proof.
  intros Hbs Hn. revert i; induction Hbs as [|b bs Hb _ IH]; intros i Hi; [simpl in Hi; lia|].
  change (mjoin (b :: bs)) with (b ++ mjoin bs).
  destruct i as [|i]; cbn [lookup list_lookup default].
  - rewrite Nat.mul_0_r, Nat.add_0_l, drop_app_le by lia.
    rewrite take_app_le; [done|]. rewrite length_drop. lia.
  - rewrite IH by (simpl in Hi; lia). rewrite drop_app_ge by lia. do 2 f_equal. lia.
Qed.

Lemma read_loop_spec fuel bs block off n :
  Forall (λ b, length b = kMemBlockSize) bs → (off < kMemBlockSize)%nat → (n ≤ fuel)%nat →
  (kMemBlockSize * block + off + n ≤ kMemBlockSize * length bs)%nat →
  read_loop fuel bs block off n = take n (drop (kMemBlockSize * block + off)%nat (mjoin bs : list byte)).
Proof.
  intros Hbs. revert block off n; induction fuel as [|fuel IH]; intros block off n Hoff Hn Hle.
  { by replace n with 0%nat by lia. }
  cbn [read_loop]. destruct (Nat.ltb_spec 0 n) as [Hpos|]; [|by replace n with 0%nat by lia].
  set (avail := if (n <? kMemBlockSize - off)%nat then n else (kMemBlockSize - off)%nat).
  assert (avail = Nat.min n (kMemBlockSize - off)) as Ha.
  { subst avail. destruct (Nat.ltb_spec n (kMemBlockSize - off)); lia. }
  clearbody avail.
  rewrite (slice_block bs block off avail) by (done || nia).
  destruct (decide (n = avail)) as [->|Hne].
  - rewrite Nat.sub_diag. replace (read_loop fuel bs (S block) 0 0) with (@nil byte).
    { apply app_nil_r. } by destruct fuel.
  - rewrite IH by lia.
    replace n with (avail + (n - avail))%nat at 2 by lia.
    rewrite <- take_take_drop, drop_drop. do 3 f_equal. lia.
Qed.

Lemma FileState_Read_spec f offset n :
  fs_ok f → (offset ≤ size_ f)%nat →
  FileState_Read f offset n = (take n (drop offset (content f)), Status_OK).
Proof.
  intros [Hbs Hlo Hup] Hoff. pose proof kMemBlockSize_pos as Hk. unfold FileState_Read.
  rewrite (proj2 (Nat.ltb_ge _ _)) by lia.
  set (m := if (size_ f - offset <? n)%nat then (size_ f - offset)%nat else n).
  assert (m = Nat.min n (size_ f - offset)) as Hm.
  { subst m. destruct (Nat.ltb_spec (size_ f - offset) n); lia. }
  clearbody m.
  assert (take n (drop offset (content f)) = take m (drop offset (flat f))) as ->.
  { unfold content. rewrite skipn_firstn_comm, take_take. f_equal. lia. }
  destruct (Nat.eqb_spec m 0) as [->|Hm0]; [done|]. f_equal.
  pose proof (Nat.div_mod_eq offset kMemBlockSize) as Hdm.
  pose proof (Nat.mod_upper_bound offset kMemBlockSize ltac:(lia)).
  rewrite read_loop_spec by (done || lia). by rewrite <- Hdm.
Qed.

Lemma join_alter_last bs b off c :
  Forall (λ b, length b = kMemBlockSize) bs → (off + length c ≤ length b)%nat →
  mjoin (bs ++ [splice off c b] : list (list byte)) =
  splice (kMemBlockSize * length bs + off)%nat c (mjoin (bs ++ [b])).
Proof.
  intros Hbs Hc. rewrite !join_app. cbn [mjoin list_join]. rewrite !app_nil_r.
  rewrite <- (length_join_blocks bs Hbs). unfold splice.
  rewrite take_app_add', <- app_assoc by done. f_equal. f_equal. f_equal.
  rewrite <- Nat.add_assoc, drop_app_add' by done. done.
Qed.

Lemma block_count k q o n : (o < k → k * q + o ≤ k * n → k * n < k * q + o + k →
  n = if o =? 0 then q else S q)%nat.
Proof.
  intros Ho Hlo Hup. assert (q ≤ n)%nat by nia. assert (n ≤ S q)%nat by nia.
  destruct (Nat.eqb_spec o 0); [nia|]. destruct (decide (n = q)) as [->|]; [nia|lia].
Qed.

Lemma append_step f src offset blocks avail :
  fs_ok f → offset = (size_ f mod kMemBlockSize)%nat →
  blocks = (if (offset =? 0)%nat then blocks_ f ++ [replicate kMemBlockSize x00] else blocks_ f) →
  (avail ≤ length src)%nat → (0 < avail ≤ kMemBlockSize - offset)%nat →
  let f' := {| refs_ := refs_ f;
     blocks_ := alter (splice offset (take avail src)) (length blocks - 1)%nat blocks;
     size_ := (size_ f + avail)%nat |} in
  fs_ok f' ∧ content f' = content f ++ take avail src.
Proof.
  intros [Hbs Hlo Hup] Hoff Hblocks Hsrc Ha f'. pose proof kMemBlockSize_pos as Hk.
  pose proof (Nat.div_mod_eq (size_ f) kMemBlockSize) as Hdm. rewrite <- Hoff in Hdm.
  pose proof (Nat.mod_upper_bound (size_ f) kMemBlockSize ltac:(lia)) as Hmod. rewrite <- Hoff in Hmod.
  assert (length (blocks_ f) = if (offset =? 0)%nat then size_ f / kMemBlockSize
    else S (size_ f / kMemBlockSize))%nat as Hcount by (apply (block_count kMemBlockSize); lia).
  assert (∃ bs b, blocks = bs ++ [b] ∧ Forall (λ b, length b = kMemBlockSize) bs ∧
    length b = kMemBlockSize ∧ size_ f = (kMemBlockSize * length bs + offset)%nat ∧
    take (size_ f) (mjoin blocks) = content f) as (bs & b & Heq & Hbs' & Hb & Hsize & Hcontent).
  { destruct (Nat.eqb_spec offset 0) as [->|Hne].
    - exists (blocks_ f), (replicate kMemBlockSize x00). rewrite length_replicate.
      assert (size_ f = (kMemBlockSize * length (blocks_ f))%nat) as Hs by (rewrite Hcount; cbn [Nat.eqb]; lia).
      split_and!; [done..|lia|]. unfold content, flat. rewrite Hblocks, join_app, take_app_le; [done|].
      rewrite length_join_blocks by done. lia.
    - destruct (blocks_ f) as [|b bs _] eqn:Hbf using rev_ind; [done|].
      apply Forall_app in Hbs as [Hbs Hb]. apply Forall_inv in Hb. exists bs, b.
      rewrite length_app in Hcount. cbn [length] in Hcount.
      split_and!; [done..|replace (length bs) with (size_ f / kMemBlockSize)%nat by lia; done|].
      unfold content, flat. by rewrite Hbf, Hblocks. }
  assert (blocks_ f' = bs ++ [splice offset (take avail src) b]) as Hf'.
  { unfold f'. cbn [blocks_]. rewrite Heq, length_app. cbn [length].
    replace (length bs + 1 - 1)%nat with (length bs + 0)%nat by lia. by rewrite alter_app_r. }
  assert (length (take avail src) = avail) as Hlt by (rewrite length_take; lia).
  assert (offset + length (take avail src) ≤ length b)%nat as Hfit by lia.
  split.
  - split; rewrite ?Hf'; cbn [size_ f'].
    + apply Forall_app. split; [done|]. apply Forall_singleton. rewrite length_splice; lia.
    + rewrite length_app. cbn [length]. lia.
    + rewrite length_app. cbn [length]. lia.
  - unfold content at 1, flat. rewrite Hf'. cbn [size_ f'].
    rewrite join_alter_last, <- Hsize, <- Heq by done. rewrite <- Hcontent. unfold splice.
    assert (size_ f ≤ length (mjoin blocks))%nat as Hle.
    { rewrite Heq, join_app, length_app, (length_join_blocks bs Hbs'). cbn [mjoin list_join].
      rewrite app_nil_r. lia. }
    rewrite take_app_ge by (rewrite length_take; lia).
    rewrite length_take, Nat.min_l by lia. f_equal.
    replace (size_ f + avail - size_ f)%nat with (length (take avail src)) by lia.
    apply take_app_length.
Qed.

Lemma append_loop_spec fuel f src :
  fs_ok f → (length src ≤ fuel)%nat →
  fs_ok (append_loop fuel f src) ∧ content (append_loop fuel f src) = content f ++ src.
Proof.
  revert f src; induction fuel as [|fuel IH]; intros f src Hf Hlen.
  { destruct src; [|simpl in Hlen; lia]. by rewrite app_nil_r. }
  cbn [append_loop]. destruct src as [|c src]; [by rewrite app_nil_r|].
  set (s := c :: src) in *. set (offset := (size_ f mod kMemBlockSize)%nat).
  set (blocks := if (offset =? 0)%nat then blocks_ f ++ [replicate kMemBlockSize x00] else blocks_ f).
  set (room := if (offset =? 0)%nat then kMemBlockSize else (kMemBlockSize - offset)%nat).
  set (avail := if (length s <? room)%nat then length s else room).
  pose proof kMemBlockSize_pos as Hk.
  pose proof (Nat.mod_upper_bound (size_ f) kMemBlockSize ltac:(lia)) as Hmod.
  assert (room = kMemBlockSize - offset)%nat as Hroom.
  { subst room. destruct (Nat.eqb_spec offset 0); lia. }
  assert (0 < length s)%nat by (simpl; lia).
  assert (avail ≤ length s ∧ 0 < avail ≤ room)%nat as [Ha1 Ha2].
  { subst avail. destruct (Nat.ltb_spec (length s) room); lia. }
  rewrite Hroom in Ha2.
  destruct (append_step f s offset blocks avail Hf eq_refl eq_refl Ha1 Ha2) as [Hok Hc].
  destruct (IH _ (drop avail s) Hok) as [Hok' Hc'].
  { rewrite length_drop. lia. }
  split; [exact Hok'|]. by rewrite Hc', Hc, <- app_assoc, take_drop.
Qed.

Lemma fs_ok_new : fs_ok FileState_new.
Proof. pose proof kMemBlockSize_pos. split; simpl; [constructor|lia|lia]. Qed.

Lemma length_content f : fs_ok f → length (content f) = size_ f.
Proof.
  intros [Hbs Hlo Hup]. unfold content, flat. rewrite length_take, length_join_blocks by done. lia.
Qed.

#[export] Instance mem_writable_laws : WritableFileLaws FileState fs_ok content.
Proof.
  split; try (intros f Hf; by exists f).
  intros f data Hf. destruct (append_loop_spec (length data) f data Hf ltac:(lia)) as [Hok Hc].
  eexists. split; [reflexivity|]. by split.
Qed.

Definition seq_ok (s : SequentialFileImpl) : Prop :=
  fs_ok (file_ s) ∧ (pos_ s ≤ size_ (file_ s))%nat.
Definition seq_rest (s : SequentialFileImpl) : list byte := drop (pos_ s) (content (file_ s)).

#[export] Instance mem_sequential_laws : SequentialFileLaws SequentialFileImpl seq_ok seq_rest.
Proof.
  split.
  - intros s n [Hf Hpos]. cbn [Read mem_sequential]. unfold Sequential_Read.
    rewrite FileState_Read_spec by done. cbn [ok state_ Status_OK]. eexists. split; [reflexivity|].
    pose proof (length_content _ Hf) as Hl. split.
    + split; [done|]. cbn [pos_ file_]. rewrite length_take, length_drop, Hl. lia.
    + unfold seq_rest. cbn [pos_ file_]. rewrite drop_drop, length_take, length_drop, Hl.
      destruct (Nat.le_gt_cases n (size_ (file_ s) - pos_ s)).
      * by rewrite Nat.min_l.
      * rewrite !drop_ge; [done|lia..].
  - intros s n [Hf Hpos] Hn. cbn [Skip mem_sequential]. unfold Sequential_Skip.
    rewrite (proj2 (Nat.ltb_ge _ _)) by lia. eexists. split; [reflexivity|].
    pose proof (length_content _ Hf) as Hl. unfold seq_ok, seq_rest. cbn [pos_ file_]. rewrite drop_drop.
    destruct (Z.ltb_spec (Z.of_nat (size_ (file_ s) - pos_ s)) n).
    + split; [split; [done|lia]|]. rewrite !drop_ge; [done|lia..].
    + split; [split; [done|lia]|done].
Qed.

#[export] Instance mem_random_laws : RandomAccessFileLaws FileState fs_ok content.
Proof.
  split. intros f offset n Hf Hoff. rewrite length_content in Hoff by done.
  apply FileState_Read_spec; [done|lia].
Qed.
