(* ===== verification/MemFs.v ===== *)
(** The name space of the in-memory environment (helpers/memenv/memenv.cc,
    class InMemoryEnv), an implementation of the file system interface. *)
From stdpp Require Import gmap sorting.
From S2P Require Import Prelude Env FileSystem Comparator MemEnv.

#[export] Instance byte_countable : Countable byte :=
  inj_countable Byte.to_N Byte.of_N Byte.of_to_N.

(** Addresses of FileState objects. *)
Definition loc := nat.

(** [file_map_] holds FileState pointers, possibly null; [heap] the live
    objects. *)
Record InMemoryEnv := {
  file_map_ : gmap (list byte) (option loc);
  heap : gmap loc FileState;
  next_loc : loc;
}.

Definition InMemoryEnv_new : InMemoryEnv := {| file_map_ := ∅; heap := ∅; next_loc := 0%nat |}.

Definition set_map (m : gmap (list byte) (option loc)) (e : InMemoryEnv) : InMemoryEnv :=
  {| file_map_ := m; heap := heap e; next_loc := next_loc e |}.
Definition set_heap (h : gmap loc FileState) (e : InMemoryEnv) : InMemoryEnv :=
  {| file_map_ := file_map_ e; heap := h; next_loc := next_loc e |}.

(** [new FileState()]. *)
Definition alloc (e : InMemoryEnv) : InMemoryEnv * loc :=
  ({| file_map_ := file_map_ e; heap := <[next_loc e := FileState_new]> (heap e);
      next_loc := S (next_loc e) |}, next_loc e).

(** A method call through a pointer: undefined when it is null or dangling. *)
Definition deref (p : option loc) (e : InMemoryEnv) : option (loc * FileState) :=
  l ← p; f ← heap e !! l; Some (l, f).

Definition env_Ref (p : option loc) (e : InMemoryEnv) : option InMemoryEnv :=
  '(l, f) ← deref p e; Some (set_heap (<[l := FileState_Ref f]> (heap e)) e).

Definition env_Unref (p : option loc) (e : InMemoryEnv) : option InMemoryEnv :=
  '(l, f) ← deref p e;
  Some (set_heap (match FileState_Unref f with
                  | Some f' => <[l := f']> (heap e)
                  | None => delete l (heap e)
                  end) e).

(** File objects hold a pointer; the constructors take a reference. *)
Definition NewSequentialFile (fname : list byte) (e : InMemoryEnv)
    : option (InMemoryEnv * option (option loc) * Status) :=
  match file_map_ e !! fname with
  | None => Some (e, None, IOError fname (str "File not found"))
  | Some p => e ← env_Ref p e; Some (e, Some p, Status_OK)
  end.

Definition NewRandomAccessFile (fname : list byte) (e : InMemoryEnv)
    : option (InMemoryEnv * option (option loc) * Status) :=
  match file_map_ e !! fname with
  | None => Some (e, None, IOError fname (str "File not found"))
  | Some p => e ← env_Ref p e; Some (e, Some p, Status_OK)
  end.

Definition NewDirectIORandomAccessFile (fname : list byte) (e : InMemoryEnv)
    : option (InMemoryEnv * option (option loc) * Status) :=
  match file_map_ e !! fname with
  | None => Some (e, None, IOError fname (str "File not found"))
  | Some p => e ← env_Ref p e; Some (e, Some p, Status_OK)
  end.

Definition NewWritableFile (fname : list byte) (e : InMemoryEnv)
    : option (InMemoryEnv * option loc * Status) :=
  '(e, file) ← (match file_map_ e !! fname with
                | None =>
                    let '(e, l) := alloc e in
                    e ← env_Ref (Some l) e;
                    Some (set_map (<[fname := Some l]> (file_map_ e)) e, Some l)
                | Some p =>
                    '(l, f) ← deref p e;
                    Some (set_heap (<[l := FileState_Truncate f]> (heap e)) e, p)
                end);
  e ← env_Ref file e;
  Some (e, file, Status_OK).

Definition NewAppendableFile (fname : list byte) (e : InMemoryEnv)
    : option (InMemoryEnv * option loc * Status) :=
  (* file_map_[fname] default-inserts a null pointer *)
  let sptr := default None (file_map_ e !! fname) in
  let e := set_map (<[fname := sptr]> (file_map_ e)) e in
  '(e, file) ← (match sptr with
                | None => let '(e, l) := alloc e in e ← env_Ref (Some l) e; Some (e, Some l)
                | Some l => Some (e, Some l)
                end);
  e ← env_Ref file e;
  Some (e, file, Status_OK).

Definition FileExists (fname : list byte) (e : InMemoryEnv) : bool :=
  bool_decide (is_Some (file_map_ e !! fname)).

Definition key_le (a b : list byte) : Prop := slice_compare a b <= 0.
#[export] Instance key_le_dec : RelDecision key_le.
Proof. intros a b. unfold key_le. apply _. Defined.

(** The keys of a [std::map] in iteration order. *)
Definition map_keys (e : InMemoryEnv) : list (list byte) :=
  merge_sort key_le (map_to_list (file_map_ e)).*1.

Definition is_child (dir filename : list byte) : bool :=
  (length dir + 1 <=? length filename)%nat &&
  bool_decide (filename !! length dir = Some x2f) && starts_with filename dir.

Definition GetChildren (dir : list byte) (e : InMemoryEnv) : list (list byte) * Status :=
  (drop (length dir + 1)%nat <$> filter (λ f, is_child dir f) (map_keys e), Status_OK).

Definition RemoveFileInternal (fname : list byte) (e : InMemoryEnv) : option InMemoryEnv :=
  match file_map_ e !! fname with
  | None => Some e
  | Some p => e ← env_Unref p e; Some (set_map (delete fname (file_map_ e)) e)
  end.

Definition RemoveFile (fname : list byte) (e : InMemoryEnv) : option (InMemoryEnv * Status) :=
  match file_map_ e !! fname with
  | None => Some (e, IOError fname (str "File not found"))
  | Some _ => e ← RemoveFileInternal fname e; Some (e, Status_OK)
  end.

Definition GetFileSize (fname : list byte) (e : InMemoryEnv) : option (Z * Status) :=
  match file_map_ e !! fname with
  | None => Some (0, IOError fname (str "File not found"))
  | Some p => '(_, f) ← deref p e; Some (Z.of_nat (size_ f), Status_OK)
  end.

Definition RenameFile (src target : list byte) (e : InMemoryEnv) : option (InMemoryEnv * Status) :=
  match file_map_ e !! src with
  | None => Some (e, IOError src (str "File not found"))
  | Some _ =>
      e ← RemoveFileInternal target e;
      (* file_map_[src] default-inserts when the line above erased it *)
      let p := default None (file_map_ e !! src) in
      let e := set_map (<[target := p]> (file_map_ e)) e in
      Some (set_map (delete src (file_map_ e)) e, Status_OK)
  end.

(** Methods of an open WritableFileImpl. *)
Definition env_Append (p : option loc) (data : list byte) (e : InMemoryEnv)
    : option (InMemoryEnv * Status) :=
  '(l, f) ← deref p e;
  let '(f, s) := Append f data in
  Some (set_heap (<[l := f]> (heap e)) e, s).

(** Methods of an open SequentialFileImpl. *)
Record SequentialHandle := { sh_file : option loc; sh_pos : nat }.

Definition env_Read (h : SequentialHandle) (n : nat) (e : InMemoryEnv)
    : option (InMemoryEnv * SequentialHandle * (list byte * Status)) :=
  '(_, f) ← deref (sh_file h) e;
  let '(s, r) := Sequential_Read {| file_ := f; pos_ := sh_pos h |} n in
  Some (e, {| sh_file := sh_file h; sh_pos := pos_ s |}, r).

Definition env_Skip (h : SequentialHandle) (n : Z) (e : InMemoryEnv)
    : option (InMemoryEnv * SequentialHandle * Status) :=
  '(_, f) ← deref (sh_file h) e;
  let '(s, r) := Sequential_Skip {| file_ := f; pos_ := sh_pos h |} n in
  Some (e, {| sh_file := sh_file h; sh_pos := pos_ s |}, r).

Definition open_for_reading (n : list byte) (e : InMemoryEnv) : option (InMemoryEnv * option SequentialHandle * Status) :=
  '(e, p, s) ← NewSequentialFile n e; Some (e, option_map (λ p, {| sh_file := p; sh_pos := 0 |}) p, s).

(** [Read] of an open RandomAccessFileImpl. *)
Definition env_PRead (p : option loc) (offset : Z) (n : nat) (e : InMemoryEnv) : option (list byte * Status) :=
  '(_, f) ← deref p e; Some (FileState_Read f (Z.to_nat offset) n).

Definition CreateDir (dirname : list byte) (e : InMemoryEnv) : option (InMemoryEnv * Status) := Some (e, Status_OK).
Definition RemoveDir (dirname : list byte) (e : InMemoryEnv) : option (InMemoryEnv * Status) := Some (e, Status_OK).
Definition LockFile (fname : list byte) (e : InMemoryEnv) : option (InMemoryEnv * option unit * Status) := Some (e, Some tt, Status_OK).
Definition UnlockFile (lock : unit) (e : InMemoryEnv) : option (InMemoryEnv * Status) := Some (e, Status_OK).

Definition opened_for_writing (r : option (InMemoryEnv * option loc * Status)) : option (InMemoryEnv * option (option loc) * Status) :=
  '(e, p, s) ← r; Some (e, Some p, s).

(** Flush, Sync and Close of a WritableFileImpl do nothing; the destructors drop
    the reference. *)
#[export] Instance mem_fs : FileSystem InMemoryEnv := {|
  WFile := option loc;
  SFile := SequentialHandle;
  RFile := option loc;
  FLock := unit;
  fs_NewSequentialFile := open_for_reading;
  fs_NewRandomAccessFile := NewRandomAccessFile;
  fs_NewDirectIORandomAccessFile := NewDirectIORandomAccessFile;
  fs_NewWritableFile n e := opened_for_writing (NewWritableFile n e);
  fs_NewAppendableFile n e := opened_for_writing (NewAppendableFile n e);
  fs_Append := env_Append;
  fs_Flush _ e := Some (e, Status_OK);
  fs_Sync _ e := Some (e, Status_OK);
  fs_Close _ e := Some (e, Status_OK);
  fs_delete_writable := env_Unref;
  fs_Read := env_Read;
  fs_Skip := env_Skip;
  fs_delete_sequential h := env_Unref (sh_file h);
  fs_PRead := env_PRead;
  fs_delete_random := env_Unref;
  fs_FileExists := FileExists;
  fs_GetChildren := GetChildren;
  fs_RemoveFile := RemoveFile;
  fs_GetFileSize := GetFileSize;
  fs_RenameFile := RenameFile;
  fs_CreateDir := CreateDir;
  fs_RemoveDir := RemoveDir;
  fs_LockFile := LockFile;
  fs_UnlockFile := UnlockFile;
|}.

(** ** Invariant *)

(** Every name points to a live, well-formed object of its own; names are only
    null after [NewAppendableFile] created them. *)
Record env_ok (e : InMemoryEnv) : Prop := {
  env_live n p : file_map_ e !! n = Some p →
    ∃ l f, p = Some l ∧ heap e !! l = Some f ∧ fs_ok f ∧ 1 <= refs_ f;
  env_inj n n' l : file_map_ e !! n = Some (Some l) → file_map_ e !! n' = Some (Some l) → n = n';
  env_next l : is_Some (heap e !! l) → (l < next_loc e)%nat;
}.

(** The abstract file system: contents by name. *)
Definition files (e : InMemoryEnv) (n : list byte) : option (list byte) :=
  p ← file_map_ e !! n; '(_, f) ← deref p e; Some (content f).

Lemma env_ok_new : env_ok InMemoryEnv_new.
Proof. split; intros *; cbn; rewrite ?lookup_empty; try done. Qed.

(** The handle has the file named [n] open, besides the name's own reference. *)
Definition opened (e : InMemoryEnv) (p : option loc) (n : list byte) : Prop :=
  file_map_ e !! n = Some p ∧ ∃ l f, p = Some l ∧ heap e !! l = Some f ∧ 2 <= refs_ f.

Definition reads (e : InMemoryEnv) (h : SequentialHandle) (n : list byte) : Prop :=
  opened e (sh_file h) n ∧ ∀ l f, sh_file h = Some l → heap e !! l = Some f → (sh_pos h ≤ size_ f)%nat.

Definition same_except (names : list (list byte)) (e e' : InMemoryEnv) : Prop :=
  ∀ n, n ∉ names → file_map_ e' !! n = file_map_ e !! n ∧
    ∀ l, file_map_ e !! n = Some (Some l) → heap e' !! l = heap e !! l.

Notation mem_unchanged := (unchanged files opened reads).

Lemma same_except_unchanged names e e' : same_except names e e' → mem_unchanged names e e'.
Proof.
  intros H. assert (∀ h n, n ∉ names → opened e h n → opened e' h n) as Hop.
  { intros h n Hn (Hm & l & f & -> & Hl & Hr). destruct (H n Hn) as [Hm' Hl']. split; [congruence|].
    exists l, f. split; [done|]. by rewrite (Hl' l Hm). }
  split; [|done|].
  - intros n Hn. destruct (H n Hn) as [Hm Hl]. unfold files. rewrite Hm.
    destruct (file_map_ e !! n) as [[l|]|]; [|done..]. cbn. by rewrite (Hl l eq_refl).
  - intros h n Hn [Ho Hp]. split; [by apply Hop|]. intros l f Hh. destruct Ho as (Hm & _).
    rewrite Hh in Hm. rewrite (proj2 (H n Hn) l Hm). by apply Hp.
Qed.

(** Replacing one object by another well-formed one keeps the invariant and
    changes the contents of its name only. *)
Lemma set_object e l f f' :
  env_ok e → heap e !! l = Some f → fs_ok f' → 1 <= refs_ f' →
  let e' := set_heap (<[l := f']> (heap e)) e in
  env_ok e' ∧ (∀ n, files e' n = if decide (file_map_ e !! n = Some (Some l))
                                 then Some (content f') else files e n).
Proof.
  intros [Hlive Hinj Hnext] Hl Hf' Hr e'. split; [split|].
  - intros n p Hn. destruct (Hlive n p Hn) as (l' & g & -> & Hg & Hok & Hge).
    destruct (decide (l' = l)) as [->|Hne].
    + exists l, f'. cbn. by rewrite lookup_insert_eq.
    + exists l', g. cbn. by rewrite lookup_insert_ne.
  - exact Hinj.
  - cbn. intros l' Hl'. apply Hnext. destruct (decide (l' = l)) as [->|Hne]; [by exists f|].
    by rewrite lookup_insert_ne in Hl'.
  - intros n. unfold files. cbn. destruct (file_map_ e !! n) as [[l'|]|] eqn:Hn; cbn.
    + destruct (decide (Some (Some l') = Some (Some l))) as [[= ->]|Hne].
      * by rewrite lookup_insert_eq.
      * rewrite lookup_insert_ne; [done|congruence].
    + by destruct (decide (Some None = Some (Some l))).
    + by destruct (decide (None = Some (Some l))).
Qed.

(** A new name with a fresh object. *)
Lemma new_object e n f :
  env_ok e → file_map_ e !! n = None → fs_ok f → 1 <= refs_ f →
  let e' := {| file_map_ := <[n := Some (next_loc e)]> (file_map_ e);
               heap := <[next_loc e := f]> (heap e); next_loc := S (next_loc e) |} in
  env_ok e' ∧ same_except [n] e e'.
Proof.
  intros [Hlive Hinj Hnext] Hn Hf Hr e'.
  assert (∀ n' l, file_map_ e !! n' = Some (Some l) → l ≠ next_loc e) as Hfresh.
  { intros n' l Hl ->. destruct (Hlive n' _ Hl) as (l & g & [= <-] & Hg & _).
    assert (next_loc e < next_loc e)%nat by (apply Hnext; by exists g). lia. }
  split; [split|].
  - cbn. intros n' p [[<- <-]|[Hne Hp]]%lookup_insert_Some.
    + exists (next_loc e), f. by rewrite lookup_insert_eq.
    + destruct (Hlive n' p Hp) as (l & g & -> & Hg & Hok & Hge). exists l, g.
      rewrite lookup_insert_ne; [done|]. intros <-. by apply (Hfresh n' (next_loc e) Hp).
  - cbn. intros n1 n2 l [[<- [= <-]]|[H1 H1']]%lookup_insert_Some [[<- H]|[H2 H2']]%lookup_insert_Some.
    + done.
    + by destruct (Hfresh n2 _ H2').
    + destruct (Hfresh n1 _ H1'). by injection H.
    + by apply (Hinj n1 n2 l).
  - cbn. intros l [g [[<- _]|[_ Hl]]%lookup_insert_Some]; [lia|].
    assert (l < next_loc e)%nat by (apply Hnext; by exists g). lia.
  - intros n' Hne. cbn. split; [apply lookup_insert_ne; intros <-; apply Hne; by left|].
    intros l Hl. apply lookup_insert_ne. intros <-. by apply (Hfresh n' _ Hl).
Qed.

Lemma files_lookup e n l f :
  file_map_ e !! n = Some (Some l) → heap e !! l = Some f → files e n = Some (content f).
Proof. intros Hn Hl. unfold files. rewrite Hn. cbn. by rewrite Hl. Qed.

Lemma fs_ok_Ref f : fs_ok f → fs_ok (FileState_Ref f).
Proof. by intros []. Qed.

Lemma fs_ok_Truncate f : fs_ok (FileState_Truncate f).
Proof. destruct fs_ok_new. by split. Qed.

Lemma set_object_except e n l f : env_ok e → file_map_ e !! n = Some (Some l) →
  same_except [n] e (set_heap (<[l := f]> (heap e)) e).
Proof.
  intros He Hn m Hm. split; [done|]. intros l' Hl'. cbn. apply lookup_insert_ne. intros <-.
  apply Hm. rewrite (env_inj e He m n l Hl' Hn). by left.
Qed.

(** Replacing the object of a name. *)
Lemma set_named e n l f f' : env_ok e → file_map_ e !! n = Some (Some l) → heap e !! l = Some f → fs_ok f' → 1 <= refs_ f' →
  let e' := set_heap (<[l := f']> (heap e)) e in
  env_ok e' ∧ files e' n = Some (content f') ∧ mem_unchanged [n] e e' ∧ heap e' !! l = Some f'.
Proof.
  intros He Hn Hl Hf' Hr e'. destruct (set_object e l f f' He Hl Hf' Hr) as [He' Hfiles]. split_and!; [done| | |apply lookup_insert_eq].
  - unfold e'. by rewrite Hfiles, decide_True.
  - by apply same_except_unchanged, set_object_except.
Qed.

Lemma NewWritableFile_spec e fname :
  env_ok e →
  ∃ e' l f, NewWritableFile fname e = Some (e', Some l, Status_OK) ∧
    file_map_ e' !! fname = Some (Some l) ∧ heap e' !! l = Some f ∧ fs_ok f ∧
    content f = [] ∧ 2 <= refs_ f ∧ env_ok e' ∧ mem_unchanged [fname] e e'.
Proof.
  intros He. unfold NewWritableFile. destruct (file_map_ e !! fname) as [p|] eqn:Hn.
  - destruct (env_live e He fname p Hn) as (l & f & -> & Hl & Hok & Hr).
    unfold deref at 1. cbn. rewrite Hl. cbn. unfold env_Ref, deref. cbn.
    rewrite lookup_insert_eq. cbn.
    set (f' := FileState_Ref (FileState_Truncate f)). unfold set_heap at 1. cbn.
    rewrite insert_insert_eq.
    destruct (set_object e l f f' He Hl) as [He' Hfiles].
    { apply fs_ok_Ref, fs_ok_Truncate. } { cbn. lia. }
    eexists _, l, f'. split; [reflexivity|]. cbn. rewrite lookup_insert_eq.
    split_and!; try done; [apply fs_ok_Ref, fs_ok_Truncate|lia|].
    by apply same_except_unchanged, set_object_except.
  - cbn. unfold env_Ref, deref. cbn. rewrite !lookup_insert_eq. cbn.
    rewrite !lookup_insert_eq. cbn. rewrite !insert_insert_eq.
    set (f' := FileState_Ref (FileState_Ref FileState_new)).
    assert (fs_ok f') as Hf' by apply fs_ok_Ref, fs_ok_Ref, fs_ok_new.
    destruct (new_object e fname f' He Hn Hf') as [He' Hfiles]; [cbn; lia|].
    eexists _, (next_loc e), f'. split; [reflexivity|]. cbn. rewrite !lookup_insert_eq.
    split_and!; try done. by apply same_except_unchanged.
Qed.

Lemma append_loop_refs fuel f src : refs_ (append_loop fuel f src) = refs_ f.
Proof.
  revert f src; induction fuel as [|fuel IH]; intros f src; [done|].
  cbn [append_loop]. destruct src; [done|]. by rewrite IH.
Qed.

Lemma fs_ok_Unref f : fs_ok f → 2 <= refs_ f →
  ∃ f', FileState_Unref f = Some f' ∧ fs_ok f' ∧ refs_ f' = refs_ f - 1 ∧ content f' = content f.
Proof.
  intros [] Hr. unfold FileState_Unref. rewrite (proj2 (Z.leb_gt _ _)) by lia.
  eexists. by split_and!.
Qed.

(** ** Removal and renaming *)

Lemma RemoveFileInternal_spec e n :
  env_ok e →
  ∃ e', RemoveFileInternal n e = Some e' ∧ env_ok e' ∧
    file_map_ e' = delete n (file_map_ e) ∧ mem_unchanged [n] e e'.
Proof.
  intros He. unfold RemoveFileInternal. destruct (file_map_ e !! n) as [p|] eqn:Hn.
  2:{ exists e. rewrite delete_id by done. by split_and!. }
  destruct (env_live e He n p Hn) as (l & f & -> & Hl & Hok & Hr).
  unfold env_Unref, deref. cbn. rewrite Hl. cbn. eexists. split; [reflexivity|].
  set (h := match FileState_Unref f with Some f' => _ | None => _ end).
  assert (∀ l', l' ≠ l → h !! l' = heap e !! l') as Hh.
  { intros l' Hne. subst h. destruct (FileState_Unref f);
      [by apply lookup_insert_ne|by apply lookup_delete_ne]. }
  assert (∀ n' l', n' ≠ n → file_map_ e !! n' = Some (Some l') → l' ≠ l) as Hsep.
  { intros n' l' Hne Hn' ->. by apply Hne, (env_inj e He n' n l). }
  split_and!; [split| |].
  - cbn. intros n' p [Hne Hp]%lookup_delete_Some.
    destruct (env_live e He n' p Hp) as (l' & f' & -> & Hl' & Hok' & Hr').
    exists l', f'. rewrite Hh; [done|]. by apply (Hsep n').
  - cbn. intros n1 n2 l' [_ H1]%lookup_delete_Some [_ H2]%lookup_delete_Some.
    by apply (env_inj e He n1 n2 l').
  - cbn. intros l' [g Hg]. apply (env_next e He). destruct (decide (l' = l)) as [->|Hne].
    + by exists f.
    + exists g. by rewrite <- Hh.
  - done.
  - apply same_except_unchanged. intros n' Hne. assert (n' ≠ n) by (intros ->; apply Hne; by left). cbn.
    split; [by rewrite lookup_delete_ne|]. intros l' Hl'. apply Hh. by apply (Hsep n').
Qed.

Lemma RenameFile_spec e src target data :
  env_ok e → src ≠ target → files e src = Some data →
  ∃ e', RenameFile src target e = Some (e', Status_OK) ∧ env_ok e' ∧
    files e' target = Some data ∧ files e' src = None ∧ mem_unchanged [src; target] e e'.
Proof.
  intros He Hne Hsrc. unfold RenameFile.
  destruct (file_map_ e !! src) as [p|] eqn:Hp; [|unfold files in Hsrc; by rewrite Hp in Hsrc].
  destruct (RemoveFileInternal_spec e target He) as (e1 & -> & He1 & Hmap & Hfiles).
  assert (file_map_ e1 !! src = Some p) as Hp1 by (by rewrite Hmap, lookup_delete_ne).
  cbn [mbind option_bind]. rewrite Hp1. cbn.
  destruct (env_live e1 He1 src p Hp1) as (l & f & -> & Hl & Hok & Hr).
  eexists. split; [reflexivity|].
  set (e2 := set_map _ _).
  assert (∀ n, file_map_ e2 !! n = if decide (n = src) then None
    else if decide (n = target) then Some (Some l) else file_map_ e1 !! n) as Hlook.
  { intros n. unfold e2. cbn. destruct (decide (n = src)) as [->|]; [apply lookup_delete_eq|].
    rewrite lookup_delete_ne by done. destruct (decide (n = target)) as [->|];
      [apply lookup_insert_eq|by apply lookup_insert_ne]. }
  split_and!; [split| | |].
  - intros n q. rewrite Hlook. destruct (decide (n = src)); [done|].
    destruct (decide (n = target)); [intros [= <-]; by exists l, f|]. apply (env_live e1 He1).
  - intros n n' l'. rewrite !Hlook. destruct (decide (n = src)), (decide (n' = src)); try done.
    destruct (decide (n = target)), (decide (n' = target)); try congruence.
    + intros [= <-] Hn'. by destruct (env_inj e1 He1 n' src l Hn' Hp1).
    + intros Hn' [= <-]. by destruct (env_inj e1 He1 n src l Hn' Hp1).
    + apply (env_inj e1 He1).
  - apply (env_next e1 He1).
  - unfold files. rewrite Hlook, decide_False, decide_True by done. cbn. rewrite Hl. cbn.
    rewrite <- Hsrc, <- (un_files _ _ _ _ _ _ Hfiles src) by (by intros ?%list_elem_of_singleton). symmetry. by eapply files_lookup.
  - unfold files. by rewrite Hlook, decide_True.
  - eapply unchanged_trans; [eapply unchanged_weaken; [|exact Hfiles]; intros n ?%list_elem_of_singleton; subst; right; left|].
    apply same_except_unchanged. intros n Hn. split; [|done].
    rewrite Hlook, !decide_False; [done|intros ->; apply Hn; right; left|intros ->; apply Hn; left].
Qed.

(** ** The laws of the interface *)

Lemma files_inv e n c : env_ok e → files e n = Some c →
  ∃ l f, file_map_ e !! n = Some (Some l) ∧ heap e !! l = Some f ∧ fs_ok f ∧ 1 <= refs_ f ∧ content f = c.
Proof.
  intros He. unfold files. destruct (file_map_ e !! n) as [p|] eqn:Hn; [|done].
  destruct (env_live e He n p Hn) as (l & f & -> & Hl & Hok & Hr). cbn. rewrite Hl. cbn. intros [= <-]. eauto 10.
Qed.

Lemma opened_inv e h n : env_ok e → opened e h n →
  ∃ l f, h = Some l ∧ file_map_ e !! n = Some (Some l) ∧ heap e !! l = Some f ∧ fs_ok f ∧ 2 <= refs_ f ∧ files e n = Some (content f).
Proof.
  intros He (Hm & l & f & -> & Hl & Hr). destruct (env_live e He n _ Hm) as (l' & f' & [= <-] & Hl' & Hok & _).
  exists l, f. assert (f' = f) as -> by congruence. split_and!; try done. by eapply files_lookup.
Qed.

Lemma files_none e n : env_ok e → files e n = None → file_map_ e !! n = None.
Proof.
  intros He Hc. destruct (file_map_ e !! n) as [p|] eqn:Hn; [|done].
  destruct (env_live e He n p Hn) as (l & f & -> & Hl & _). by rewrite (files_lookup e n l f Hn Hl) in Hc.
Qed.

Lemma ref_keeps e e' p h n : env_Ref p e = Some e' → opened e h n → opened e' h n.
Proof.
  unfold env_Ref, deref. destruct p as [l|]; [|done]. cbn. destruct (heap e !! l) as [f|] eqn:Hl; [|done]. cbn. intros [= <-].
  intros (Hm & l' & f' & -> & Hl' & Hr). split; [done|]. exists l'. cbn. destruct (decide (l' = l)) as [->|Hne].
  - exists (FileState_Ref f). rewrite lookup_insert_eq. assert (f' = f) as -> by congruence. split_and!; try done. cbn. lia.
  - exists f'. by rewrite lookup_insert_ne by congruence.
Qed.

(** Taking a reference opens the file. *)
Lemma ref_opens e n c : env_ok e → files e n = Some c →
  ∃ e' l, file_map_ e !! n = Some (Some l) ∧ env_Ref (Some l) e = Some e' ∧ env_ok e' ∧ opened e' (Some l) n ∧ files e' n = Some c ∧ mem_unchanged [n] e e'.
Proof.
  intros He Hc. destruct (files_inv e n c He Hc) as (l & f & Hn & Hl & Hok & Hr & <-).
  destruct (set_named e n l f (FileState_Ref f) He Hn Hl) as (He' & Hf' & Hu & Hl'); [by apply fs_ok_Ref|cbn; lia|].
  eexists _, l. split; [done|]. split; [unfold env_Ref, deref; cbn; by rewrite Hl|]. split_and!; try done.
  split; [done|]. exists l, (FileState_Ref f). split_and!; try done. cbn. lia.
Qed.

Lemma unref_ok e h n : env_ok e → opened e h n →
  ∃ e', env_Unref h e = Some e' ∧ env_ok e' ∧ files e' n = files e n ∧ mem_unchanged [n] e e'.
Proof.
  intros He Ho. destruct (opened_inv e h n He Ho) as (l & f & -> & Hn & Hl & Hok & Hr & Hc).
  destruct (fs_ok_Unref f Hok Hr) as (f' & Hun & Hok' & Hr' & Hc').
  destruct (set_named e n l f f' He Hn Hl Hok') as (He' & Hf' & Hu & Hl'); [lia|].
  eexists. split; [unfold env_Unref, deref; cbn; rewrite Hl; cbn; by rewrite Hun|]. split_and!; try done. by rewrite Hf', Hc', Hc.
Qed.

Lemma read_handle_ok e h n : env_ok e → reads e h n →
  ∃ l f, sh_file h = Some l ∧ deref (sh_file h) e = Some (l, f) ∧ fs_ok f ∧ files e n = Some (content f) ∧ length (content f) = size_ f ∧ (sh_pos h ≤ size_ f)%nat ∧ heap e !! l = Some f.
Proof.
  intros He [Ho Hp]. destruct (opened_inv e _ n He Ho) as (l & f & Hh & Hn & Hl & Hok & Hr & Hc). exists l, f.
  split_and!; try done; [|by apply length_content|by eapply Hp]. rewrite Hh. unfold deref. cbn. by rewrite Hl.
Qed.

Lemma reads_move e h n q : env_ok e → reads e h n → (∀ l f, sh_file h = Some l → heap e !! l = Some f → (q ≤ size_ f)%nat) →
  reads e {| sh_file := sh_file h; sh_pos := q |} n.
Proof. intros He [Ho _] Hq. by split. Qed.

Lemma is_child_spec dir f : is_child dir f = true ↔ ∃ n, f = dir ++ x2f :: n.
Proof.
  unfold is_child. rewrite !andb_true_iff, Nat.leb_le, bool_decide_eq_true, starts_with_spec. split.
  - intros [[Hl Hs] [r ->]]. rewrite lookup_app_r, Nat.sub_diag in Hs by lia. destruct r as [|b r]; [done|].
    injection Hs as ->. by exists r.
  - intros [n ->]. rewrite length_app. cbn. split_and!; [lia|by rewrite lookup_app_r, Nat.sub_diag by lia|by eexists].
Qed.

Lemma drop_child (dir n : list byte) : drop (length dir + 1) (dir ++ x2f :: n) = n.
Proof. rewrite drop_app_ge by lia. by replace (length dir + 1 - length dir)%nat with 1%nat by lia. Qed.

Lemma elem_of_map_keys e n : n ∈ map_keys e ↔ is_Some (file_map_ e !! n).
Proof.
  unfold map_keys. rewrite (merge_sort_Permutation key_le), list_elem_of_fmap. split.
  - intros ([m p] & -> & Hp%elem_of_map_to_list). by exists p.
  - intros [p Hp]. exists (n, p). split; [done|]. by apply elem_of_map_to_list.
Qed.

Lemma elem_of_children e dir n : n ∈ (GetChildren dir e).1 ↔ is_Some (file_map_ e !! (dir ++ x2f :: n)).
Proof.
  cbn. rewrite list_elem_of_fmap. split.
  - intros (f & -> & [Hc Hf]%list_elem_of_filter). apply Is_true_true, is_child_spec in Hc as [m ->]. apply elem_of_map_keys in Hf.
    by rewrite drop_child.
  - intros Hs. exists (dir ++ x2f :: n). split; [by rewrite drop_child|]. apply list_elem_of_filter. split; [|by apply elem_of_map_keys].
    apply Is_true_true, is_child_spec. by exists n.
Qed.

Lemma NoDup_children e dir : NoDup (GetChildren dir e).1.
Proof.
  cbn. apply NoDup_fmap_2_strong.
  - intros f g [Hf _]%list_elem_of_filter [Hg _]%list_elem_of_filter. apply Is_true_true, is_child_spec in Hf as [m ->], Hg as [m' ->].
    rewrite !drop_child. by intros ->.
  - apply NoDup_filter. unfold map_keys. rewrite (merge_sort_Permutation key_le). apply NoDup_fst_map_to_list.
Qed.

#[export] Instance mem_fs_laws : FileSystemLaws InMemoryEnv env_ok files opened reads sh_pos.
Proof.
  split.
  - intros e h n He Hr. destruct (read_handle_ok e h n He Hr) as (l & f & _ & _ & _ & Hc & Hlen & Hp & _). exists (content f). by rewrite Hlen.
  - intros e h n He Ho. destruct (opened_inv e h n He Ho) as (l & f & _ & _ & _ & _ & _ & Hc). eauto.
  - intros e n c He Hc. destruct (ref_opens e n c He Hc) as (e' & l & Hn & Hr & He' & Ho & Hf & Hu).
    exists e', {| sh_file := Some l; sh_pos := 0 |}. split_and!; try done; [|split; [done|cbn; lia]].
    cbn [fs_NewSequentialFile mem_fs]. unfold open_for_reading, NewSequentialFile. rewrite Hn. cbn [mbind option_bind]. by rewrite Hr.
  - intros e n He Hc. cbn [fs_NewSequentialFile mem_fs]. unfold open_for_reading, NewSequentialFile.
    destruct (file_map_ e !! n) as [p|] eqn:Hn; [|eexists; split; reflexivity].
    destruct (env_live e He n p Hn) as (l & f & -> & Hl & _). by rewrite (files_lookup e n l f Hn Hl) in Hc.
  - intros e n He. destruct (NewWritableFile_spec e n He) as (e' & l & f & Hw & Hn & Hl & Hok & Hc & Hr & He' & Hu).
    exists e', (Some l). cbn [fs_NewWritableFile mem_fs]. rewrite Hw. split_and!; try done; [split; eauto|by rewrite (files_lookup e' n l f Hn Hl), Hc].
  - intros e n c He Hc. destruct (ref_opens e n c He Hc) as (e' & l & Hn & Hr & He' & Ho & Hf & Hu).
    exists e', (Some l). split_and!; try done. cbn [fs_NewAppendableFile mem_fs]. unfold NewAppendableFile. rewrite Hn.
    cbn [default from_option]. unfold set_map. rewrite insert_id by done. destruct e. cbn in *. by rewrite Hr.
  - intros e h n c data He Ho Hc. destruct (opened_inv e h n He Ho) as (l & f & -> & Hn & Hl & Hok & Hr & Hc').
    destruct (append_loop_spec (length data) f data Hok ltac:(lia)) as [Hok1 Hc1]. pose proof (append_loop_refs (length data) f data) as Hr1.
    destruct (set_named e n l f _ He Hn Hl Hok1) as (He' & Hf' & Hu & Hl'); [lia|].
    eexists. split; [cbn [fs_Append mem_fs]; unfold env_Append, deref; cbn [mbind option_bind]; rewrite Hl; reflexivity|]. split_and!; try done.
    + split; [done|]. eexists l, _. split_and!; [done|exact Hl'|lia].
    + rewrite Hf', Hc1. congruence.
  - intros e h n He Ho. exists e. by split_and!.
  - intros e h n He Ho. exists e. by split_and!.
  - intros e h n He Ho. exists e. by split_and!.
  - intros e h n He Ho. by apply unref_ok.
  - intros e h n c k He Hr Hc. destruct (read_handle_ok e h n He Hr) as (l & f & Hh & Hd & Hok & Hc' & Hlen & Hp & Hl). assert (c = content f) as -> by congruence.
    exists e, {| sh_file := sh_file h; sh_pos := (sh_pos h + length (take k (drop (sh_pos h) (content f))))%nat |}. split_and!; try done.
    + cbn [fs_Read mem_fs]. unfold env_Read. rewrite Hd. cbn [mbind option_bind]. unfold Sequential_Read. cbn [file_ pos_]. by rewrite FileState_Read_spec.
    + apply reads_move; [done..|]. intros l' f' Hh' Hl'. assert (f' = f) as -> by congruence. rewrite length_take, length_drop. lia.
  - intros e h n c k He Hr Hc Hk. destruct (read_handle_ok e h n He Hr) as (l & f & Hh & Hd & Hok & Hc' & Hlen & Hp & Hl). assert (c = content f) as -> by congruence.
    exists e, {| sh_file := sh_file h; sh_pos := (sh_pos h + Z.to_nat k `min` (length (content f) - sh_pos h))%nat |}. split_and!; try done.
    + cbn [fs_Skip mem_fs]. unfold env_Skip. rewrite Hd. cbn [mbind option_bind]. unfold Sequential_Skip. cbn [file_ pos_].
      rewrite (proj2 (Nat.ltb_ge _ _)) by lia. cbn [pos_]. do 4 f_equal. rewrite Hlen. destruct (Z.ltb_spec (Z.of_nat (size_ f - sh_pos h)) k); lia.
    + apply reads_move; [done..|]. intros l' f' Hh' Hl'. assert (f' = f) as -> by congruence. lia.
  - intros e h n He [Ho _]. by apply unref_ok.
  - intros e n He. cbn [fs_FileExists mem_fs]. unfold FileExists. rewrite bool_decide_eq_true. split.
    + intros [p Hn]. destruct (env_live e He n p Hn) as (l & f & -> & Hl & _). rewrite (files_lookup e n l f Hn Hl). by eexists.
    + intros [c Hc]. destruct (files_inv e n c He Hc) as (l & f & Hn & _). by eexists.
  - intros e n c He Hc. destruct (files_inv e n c He Hc) as (l & f & Hn & _).
    destruct (RemoveFileInternal_spec e n He) as (e' & Hr & He' & Hm & Hu). exists e'.
    cbn [fs_RemoveFile mem_fs]. unfold RemoveFile. rewrite Hn, Hr. split_and!; try done.
    unfold files. by rewrite Hm, lookup_delete_eq.
  - intros e n He Hc. cbn [fs_RemoveFile mem_fs]. unfold RemoveFile. rewrite (files_none e n He Hc). eexists. split; reflexivity.
  - intros e dir He. eexists. split; [reflexivity|]. split; [apply NoDup_children|]. intros n _.
    change (n ∈ (GetChildren dir e).1 ↔ is_Some (files e (dir ++ x2f :: n))). rewrite elem_of_children. split.
    + intros [p Hn]. destruct (env_live e He _ p Hn) as (l & f & -> & Hl & _). rewrite (files_lookup e _ l f Hn Hl). by eexists.
    + intros [c Hc]. destruct (files_inv e _ c He Hc) as (l & f & Hn & _). by eexists.
  - intros e n c He Hc. destruct (files_inv e n c He Hc) as (l & f & Hn & Hl & Hok & _ & <-).
    cbn [fs_GetFileSize mem_fs]. unfold GetFileSize, deref. rewrite Hn. cbn [mbind option_bind]. rewrite Hl. cbn [mbind option_bind]. by rewrite length_content.
  - intros e a b c He Hne Hc. by apply RenameFile_spec.
  - intros e dir He. by exists e, Status_OK.
  - intros e n He. by exists e, tt.
Qed.

#[export] Instance mem_random_file_laws : RandomFileLaws InMemoryEnv env_ok files opened reads opened.
Proof.
  split.
  - intros direct e n c He Hc. destruct (ref_opens e n c He Hc) as (e' & l & Hn & Hr & He' & Ho & Hf & Hu). exists e', (Some l). split_and!; try done.
    + destruct direct; cbn [fs_NewRandomAccessFile fs_NewDirectIORandomAccessFile mem_fs]; unfold NewRandomAccessFile, NewDirectIORandomAccessFile; by rewrite Hn, Hr.
    + intros h m. by eapply ref_keeps.
  - intros direct e n He Hc. pose proof (files_none e n He Hc) as Hn.
    destruct direct; cbn [fs_NewRandomAccessFile fs_NewDirectIORandomAccessFile mem_fs]; unfold NewRandomAccessFile, NewDirectIORandomAccessFile; rewrite Hn; eexists; split; reflexivity.
  - intros e h n c offset k He Ho Hc Hoff. destruct (opened_inv e h n He Ho) as (l & f & -> & Hn & Hl & Hok & Hr & Hc').
    assert (c = content f) as -> by congruence. cbn [fs_PRead mem_fs]. unfold env_PRead, deref. cbn [mbind option_bind]. rewrite Hl. cbn [mbind option_bind].
    f_equal. change (PRead f offset k = (take k (drop (Z.to_nat offset) (content f)), Status_OK)). by apply (pread_ok (content := content)).
  - intros names e e' h n _ _ Hu Hn Ho. by apply (un_writing _ _ _ _ _ _ Hu).
  - intros e h n He Ho. by apply unref_ok.
Qed.

(** ** Claims *)

(** whole-file writes and reads round trip.  In every reachable name space,
    [WriteStringToFile] succeeds, leaves the invariant intact, changes no other
    file, and [ReadFileToString] then returns exactly the data, for any length
    relative to the 8 KB blocks. *)
Theorem write_read_file (e : InMemoryEnv) fname data sync :
  env_ok e →
  ∃ e', DoWriteStringToFile data fname sync e = Some (e', Status_OK) ∧ env_ok e' ∧
    (∀ n, n ≠ fname → files e' n = files e n) ∧
    ∀ fuel, (length data < fuel)%nat →
      ∃ e'', ReadFileToString fuel fname e' = Some (e'', data, Status_OK) ∧ env_ok e'' ∧ (∀ n, files e'' n = files e' n).
Proof.
  intros He. destruct (DoWriteStringToFile_spec e fname data sync He) as (e' & Hw & He' & Hf & Hu).
  exists e'. do 2 (split; [done|]). split; [intros n Hn; apply (un_files _ _ _ _ _ _ Hu); by intros ?%list_elem_of_singleton|].
  intros fuel Hfuel. destruct (ReadFileToString_spec fuel e' fname data He' Hf Hfuel) as (e'' & Hr & He'' & Hf'' & Hu'').
  exists e''. do 2 (split; [done|]). intros n. destruct (decide (n = fname)) as [->|Hne]; [congruence|].
  apply (un_files _ _ _ _ _ _ Hu''). by intros ?%list_elem_of_singleton.
Qed.

Lemma write_read_file_witness :
  ∃ e' e'', DoWriteStringToFile [x61; x62] [x66] true InMemoryEnv_new = Some (e', Status_OK) ∧
    ReadFileToString 3 [x66] e' = Some (e'', [x61; x62], Status_OK).
Proof.
  destruct (write_read_file InMemoryEnv_new [x66] [x61; x62] true env_ok_new) as (e' & H1 & _ & _ & H2).
  destruct (H2 3%nat) as (e'' & H3 & _); [apply Nat.ltb_lt; reflexivity|]. exists e', e''. by split.
Defined.

(** C40: [NewAppendableFile] on a name that does not exist loses the file.  It
    returns a writable file, but stores a null pointer under the name, so what
    is appended is not in the name space and opening the name again
    dereferences null. *)
Theorem appendable_file_lost fname e :
  env_ok e → file_map_ e !! fname = None →
  ∃ e' file, NewAppendableFile fname e = Some (e', file, Status_OK) ∧
    FileExists fname e' = true ∧
    (∀ data e'' s, env_Append file data e' = Some (e'', s) →
       NewSequentialFile fname e'' = None ∧ GetFileSize fname e'' = None).
Proof.
  intros He Hn. unfold NewAppendableFile. rewrite Hn. cbn. unfold env_Ref, deref. cbn.
  rewrite !lookup_insert_eq. cbn. rewrite !lookup_insert_eq. cbn. rewrite !insert_insert_eq.
  eexists _, (Some (next_loc e)). split; [reflexivity|]. split.
  - unfold FileExists. cbn. rewrite lookup_insert_eq. apply bool_decide_eq_true. by eexists.
  - intros data e'' s. unfold env_Append, deref. cbn. rewrite lookup_insert_eq. cbn.
    intros [= <- _]. unfold NewSequentialFile, GetFileSize. cbn. by rewrite lookup_insert_eq.
Qed.

Lemma appendable_file_lost_witness :
  ∃ e' file, NewAppendableFile [x66] InMemoryEnv_new = Some (e', file, Status_OK) ∧
    FileExists [x66] e' = true.
Proof.
  destruct (appendable_file_lost [x66] InMemoryEnv_new env_ok_new) as (e' & file & H1 & H2 & _);
    [reflexivity|]. by exists e', file.
Defined.

(** renaming a file to its own name deletes it: the call reports success
    and the name is gone. *)
Theorem rename_to_self_deletes fname e :
  env_ok e → FileExists fname e = true →
  ∃ e', RenameFile fname fname e = Some (e', Status_OK) ∧ FileExists fname e' = false.
Proof.
  intros He [p Hn]%bool_decide_eq_true. unfold RenameFile, RemoveFileInternal. rewrite Hn.
  destruct (env_live e He fname p Hn) as (l & f & -> & Hl & Hok & Hr).
  unfold env_Unref, deref. cbn. rewrite Hl. cbn. eexists. split; [reflexivity|].
  unfold FileExists. cbn. apply bool_decide_eq_false. rewrite lookup_delete_eq. by intros [].
Qed.

Lemma rename_to_self_deletes_witness :
  ∃ e e', RenameFile [x66] [x66] e = Some (e', Status_OK) ∧ FileExists [x66] e' = false.
Proof.
  destruct (NewWritableFile_spec InMemoryEnv_new [x66] env_ok_new)
    as (e & l & f & _ & Hn & _ & _ & _ & _ & He & _).
  exists e. apply (rename_to_self_deletes [x66] e He).
  unfold FileExists. rewrite Hn. apply bool_decide_eq_true. by eexists.
Defined.
