(* ===== verification/Logging.v ===== *)
(** Number and string formatting (util/logging.cc). *)
From S2P Require Import Prelude Env.

Definition digit (d : Z) : byte := b8 (48 + d).

(** The [%llu] conversion: decimal digits, most significant first.  Twenty
    rounds cover a 64-bit number. *)
Fixpoint decimal_loop (fuel : nat) (num : Z) : list byte :=
  match fuel with
  | O => []
  | S fuel => if num <? 10 then [digit num] else decimal_loop fuel (num / 10) ++ [digit (num mod 10)]
  end.

Definition decimal (num : Z) : list byte := decimal_loop 20 num.

(** The [%06llu] conversion. *)
Definition decimal_pad6 (num : Z) : list byte :=
  replicate (6 - length (decimal num)) (digit 0) ++ decimal num.

Definition AppendNumberTo (str : list byte) (num : Z) : list byte := str ++ decimal num.
Definition NumberToString (num : Z) : list byte := AppendNumberTo [] num.

Definition hex_digit (d : Z) : byte := if d <? 10 then b8 (48 + d) else b8 (87 + d).

Definition AppendEscapedStringTo (str value : list byte) : list byte :=
  foldl (λ str c,
    if (32 <=? s8 c) && (s8 c <=? 126) then str ++ [c]
    else str ++ [x5c; x78; hex_digit (u8 c / 16); hex_digit (u8 c mod 16)]) str value.

Definition EscapeString (value : list byte) : list byte := AppendEscapedStringTo [] value.

Definition kMaxUint64 : Z := 2 ^ 64 - 1.

(** The scanning loop: the value and the number of digits consumed, or [None]
    on overflow. *)
Fixpoint consume_loop (value : Z) (consumed : nat) (p : list byte) : option (Z * nat) :=
  match p with
  | [] => Some (value, consumed)
  | c :: p =>
      let ch := u8 c in
      if (ch <? 48) || (57 <? ch) then Some (value, consumed)
      else if (kMaxUint64 / 10 <? value) ||
              ((value =? kMaxUint64 / 10) && (48 + kMaxUint64 mod 10 <? ch))
           then None
           else consume_loop (u64 (u64 (value * 10) + (ch - 48))) (S consumed) p
  end.

(** The value and the rest of the input, or [None] when the call returns false. *)
Definition ConsumeDecimalNumber (input : list byte) : option (Z * list byte) :=
  '(value, digits_consumed) ← consume_loop 0 0 input;
  if (digits_consumed =? 0)%nat then None else Some (value, drop digits_consumed input).

(** ** Reference: the value of a digit string *)

Definition is_digit (c : byte) : bool := (48 <=? u8 c) && (u8 c <=? 57).

Definition dec_val (v : Z) (ds : list byte) : Z := foldl (λ v c, v * 10 + (u8 c - 48)) v ds.

Definition no_digit_head (rest : list byte) : Prop :=
  match rest with [] => True | c :: _ => is_digit c = false end.

Lemma dec_val_mono v ds : 0 <= v → Forall (λ c, is_digit c = true) ds → v <= dec_val v ds.
Proof.
  intros Hv Hds. revert v Hv; induction Hds as [|c ds Hc _ IH]; intros v Hv; [done|].
  apply andb_true_iff in Hc as [?%Z.leb_le ?%Z.leb_le].
  etrans; [|apply (IH (v * 10 + (u8 c - 48))); lia]. lia.
Qed.

Lemma consume_loop_spec v n ds rest :
  0 <= v < 2 ^ 64 → Forall (λ c, is_digit c = true) ds → no_digit_head rest →
  consume_loop v n (ds ++ rest) =
  if dec_val v ds <? 2 ^ 64 then Some (dec_val v ds, (n + length ds)%nat) else None.
Proof.
  intros Hv Hds Hrest. revert v n Hv; induction Hds as [|c ds Hc Hds IH]; intros v n Hv.
  - cbn [app length dec_val foldl]. rewrite Nat.add_0_r, (proj2 (Z.ltb_lt v (2 ^ 64))) by lia.
    destruct rest as [|c rest]; [done|]. cbn [consume_loop no_digit_head] in *.
    unfold is_digit in Hrest. destruct (Z.ltb_spec (u8 c) 48), (Z.ltb_spec 57 (u8 c)); try done.
    rewrite (proj2 (Z.leb_le 48 (u8 c))), (proj2 (Z.leb_le (u8 c) 57)) in Hrest by lia. done.
  - pose proof Hc as Hd. apply andb_true_iff in Hd as [Hlo%Z.leb_le Hhi%Z.leb_le].
    cbn [app consume_loop]. rewrite (proj2 (Z.ltb_ge (u8 c) 48)), (proj2 (Z.ltb_ge 57 (u8 c))) by lia.
    cbn [orb]. change (kMaxUint64 / 10) with 1844674407370955161.
    change (48 + kMaxUint64 mod 10) with 53.
    pose proof (dec_val_mono (v * 10 + (u8 c - 48)) ds) as Hm.
    change (dec_val v (c :: ds)) with (dec_val (v * 10 + (u8 c - 48)) ds).
    destruct (_ || _) eqn:Hov.
    + rewrite (proj2 (Z.ltb_ge _ _)); [done|]. apply orb_true_iff in Hov.
      rewrite andb_true_iff, !Z.ltb_lt, Z.eqb_eq in Hov.
      specialize (Hm ltac:(lia) Hds). lia.
    + apply orb_false_iff in Hov as [Hov1%Z.ltb_ge Hov2]. apply andb_false_iff in Hov2.
      rewrite Z.eqb_neq, Z.ltb_ge in Hov2.
      rewrite (u64_small (v * 10)) by lia. rewrite u64_small by lia.
      rewrite IH by lia. cbn [length]. by rewrite Nat.add_succ_r.
Qed.

Lemma ConsumeDecimalNumber_app ds rest :
  Forall (λ c, is_digit c = true) ds → no_digit_head rest →
  ConsumeDecimalNumber (ds ++ rest) =
  if bool_decide (ds = []) then None
  else if dec_val 0 ds <? 2 ^ 64 then Some (dec_val 0 ds, rest) else None.
Proof.
  intros Hds Hrest. unfold ConsumeDecimalNumber. rewrite consume_loop_spec by (done || lia).
  destruct ds as [|c ds]; [done|]. rewrite bool_decide_eq_false_2 by done.
  destruct (_ <? _); [|done]. cbn [mbind option_bind Nat.add].
  change (length (c :: ds) =? 0)%nat with false. cbv iota. by rewrite drop_app_length.
Qed.

(** ** Printing *)

Lemma digit_val d : 0 <= d < 10 → u8 (digit d) = 48 + d.
Proof. intros Hd. unfold digit. rewrite u8_b8. apply Z.mod_small. lia. Qed.

Lemma digit_is_digit d : 0 <= d < 10 → is_digit (digit d) = true.
Proof.
  intros Hd. unfold is_digit. rewrite digit_val by done.
  by rewrite (proj2 (Z.leb_le _ _)), (proj2 (Z.leb_le _ _)) by lia.
Qed.

Lemma decimal_loop_spec fuel num :
  0 <= num < 10 ^ Z.of_nat fuel → (0 < fuel)%nat →
  Forall (λ c, is_digit c = true) (decimal_loop fuel num) ∧
  dec_val 0 (decimal_loop fuel num) = num ∧ decimal_loop fuel num ≠ [].
Proof.
  revert num; induction fuel as [|fuel IH]; intros num Hnum Hf; [lia|]. cbn [decimal_loop].
  destruct (Z.ltb_spec num 10) as [Hlt|Hge].
  - split_and!; [|cbn; rewrite digit_val; lia|done].
    constructor; [|constructor]. apply digit_is_digit. lia.
  - rewrite Nat2Z.inj_succ, Z.pow_succ_r in Hnum by lia.
    pose proof (Z.div_mod num 10 ltac:(lia)). pose proof (Z.mod_pos_bound num 10 ltac:(lia)).
    assert (0 < fuel)%nat by (destruct fuel; [simpl in Hnum; lia|lia]).
    destruct (IH (num / 10)) as (Hall & Hval & Hne); [|done|].
    { split; [apply Z.div_pos; lia|]. apply Z.div_lt_upper_bound; lia. }
    split_and!.
    + apply Forall_app. split; [done|]. constructor; [|constructor]. by apply digit_is_digit.
    + unfold dec_val in *. rewrite foldl_app, Hval. cbn [foldl]. rewrite digit_val; lia.
    + by destruct (decimal_loop fuel (num / 10)).
Qed.

Lemma decimal_spec num :
  0 <= num < 2 ^ 64 →
  Forall (λ c, is_digit c = true) (decimal num) ∧ dec_val 0 (decimal num) = num ∧ decimal num ≠ [].
Proof. intros Hnum. apply decimal_loop_spec; lia. Qed.

Lemma dec_val_zeros n ds : dec_val 0 (replicate n (digit 0) ++ ds) = dec_val 0 ds.
Proof. induction n as [|n IH]; [done|]. exact IH. Qed.

Lemma decimal_pad6_spec num :
  0 <= num < 2 ^ 64 →
  Forall (λ c, is_digit c = true) (decimal_pad6 num) ∧ dec_val 0 (decimal_pad6 num) = num ∧
  decimal_pad6 num ≠ [].
Proof.
  intros Hnum. destruct (decimal_spec num Hnum) as (Hall & Hval & Hne). unfold decimal_pad6.
  split_and!.
  - apply Forall_app. split; [|done]. by apply Forall_replicate.
  - by rewrite dec_val_zeros.
  - by destruct (replicate _ _).
Qed.

Lemma Consume_pad6 num rest :
  0 <= num < 2 ^ 64 → no_digit_head rest →
  ConsumeDecimalNumber (decimal_pad6 num ++ rest) = Some (num, rest).
Proof.
  intros Hnum Hrest. destruct (decimal_pad6_spec num Hnum) as (Hall & Hval & Hne).
  rewrite ConsumeDecimalNumber_app by done. rewrite bool_decide_eq_false_2, Hval by done.
  by rewrite (proj2 (Z.ltb_lt _ _)) by lia.
Qed.

(** ** Claims *)

(** decimal parsing is exact and overflow-safe.  On a maximal run of digits
    followed by anything else, [ConsumeDecimalNumber] returns the value of the
    run and the rest of the input exactly when the run is non-empty and its
    value fits 64 bits, and false otherwise; and it reads back every number
    [NumberToString] prints. *)
Theorem ConsumeDecimalNumber_exact ds rest num :
  Forall (λ c, is_digit c = true) ds → no_digit_head rest → 0 <= num < 2 ^ 64 →
  ConsumeDecimalNumber (ds ++ rest) =
    (if bool_decide (ds = []) then None
     else if dec_val 0 ds <? 2 ^ 64 then Some (dec_val 0 ds, rest) else None) ∧
  ConsumeDecimalNumber (NumberToString num ++ rest) = Some (num, rest).
Proof.
  intros Hds Hrest Hnum. split; [by apply ConsumeDecimalNumber_app|].
  destruct (decimal_spec num Hnum) as (Hall & Hval & Hne).
  unfold NumberToString, AppendNumberTo. cbn [app]. rewrite ConsumeDecimalNumber_app by done.
  rewrite bool_decide_eq_false_2, Hval by done. by rewrite (proj2 (Z.ltb_lt _ _)) by lia.
Qed.

Lemma ConsumeDecimalNumber_exact_witness :
  ConsumeDecimalNumber (str "18446744073709551616" ++ str ".log") = None ∧
  ConsumeDecimalNumber (NumberToString 18446744073709551615 ++ str ".log")
    = Some (18446744073709551615, str ".log").
Proof.
  destruct (ConsumeDecimalNumber_exact (str "18446744073709551616") (str ".log") 18446744073709551615)
    as [H1 H2]; [repeat constructor|reflexivity|lia|].
  split; [rewrite H1; reflexivity|exact H2].
Defined.
