(* ===== verification/Filename.v ===== *)
(** Database file names and the CURRENT file (db/filename.cc). *)
From stdpp Require Import gmap.
From S2P Require Import Prelude Env FileSystem Comparator MemEnv MemFs Logging.

Inductive FileType :=
  kLogFile | kDBLockFile | kTableFile | kDescriptorFile | kCurrentFile | kTempFile | kInfoLogFile.

(** ** Names.  The 100-byte buffers hold the longest 64-bit number. *)

Definition MakeFileName (dbname : list byte) (number : Z) (suffix : list byte) : list byte :=
  dbname ++ str "/" ++ decimal_pad6 number ++ str "." ++ suffix.

Definition LogFileName (dbname : list byte) (number : Z) := MakeFileName dbname number (str "log").
Definition TableFileName (dbname : list byte) (number : Z) := MakeFileName dbname number (str "ldb").
Definition SSTTableFileName (dbname : list byte) (number : Z) := MakeFileName dbname number (str "sst").

Definition DescriptorFileName (dbname : list byte) (number : Z) : list byte :=
  dbname ++ str "/MANIFEST-" ++ decimal_pad6 number.

Definition CurrentFileName (dbname : list byte) : list byte := dbname ++ str "/CURRENT".
Definition LockFileName (dbname : list byte) : list byte := dbname ++ str "/LOCK".
Definition TempFileName (dbname : list byte) (number : Z) := MakeFileName dbname number (str "dbtmp").
Definition InfoLogFileName (dbname : list byte) : list byte := dbname ++ str "/LOG".
Definition OldInfoLogFileName (dbname : list byte) : list byte := dbname ++ str "/LOG.old".

(** ** Parsing *)

Definition ParseFileName (filename : list byte) : option (Z * FileType) :=
  let rest := filename in
  if slice_eqb rest (str "CURRENT") then Some (0, kCurrentFile)
  else if slice_eqb rest (str "LOCK") then Some (0, kDBLockFile)
  else if slice_eqb rest (str "LOG") || slice_eqb rest (str "LOG.old") then Some (0, kInfoLogFile)
  else if starts_with rest (str "MANIFEST-") then
    rest ← remove_prefix 9 rest;
    '(num, rest) ← ConsumeDecimalNumber rest;
    match rest with [] => Some (num, kDescriptorFile) | _ => None end
  else
    '(num, suffix) ← ConsumeDecimalNumber rest;
    if slice_eqb suffix (str ".log") then Some (num, kLogFile)
    else if slice_eqb suffix (str ".sst") || slice_eqb suffix (str ".ldb") then Some (num, kTableFile)
    else if slice_eqb suffix (str ".dbtmp") then Some (num, kTempFile)
    else None.

(** ** The CURRENT file *)

Definition SetCurrentFile {E : Type} `{!FileSystem E} (dbname : list byte) (descriptor_number : Z) (e : E)
    : option (E * Status) :=
  let manifest := DescriptorFileName dbname descriptor_number in
  contents ← remove_prefix (length dbname + 1) manifest;
  let tmp := TempFileName dbname descriptor_number in
  '(e, s) ← WriteStringToFileSync (contents ++ [x0a]) tmp e;
  '(e, s) ← (if ok s then fs_RenameFile tmp (CurrentFileName dbname) e else Some (e, s));
  if ok s then Some (e, s) else '(e, _) ← fs_RemoveFile tmp e; Some (e, s).

(** ** Slice comparison helpers *)

Lemma slice_eqb_spec a b : slice_eqb a b = true ↔ a = b.
Proof.
  unfold slice_eqb. rewrite andb_true_iff, Nat.eqb_eq, Z.eqb_eq. split.
  - intros [Hl Hm]. by apply memcmp_eq.
  - intros ->. split; [done|]. rewrite <- (app_nil_r b) at 1. apply memcmp_refl.
Qed.

Lemma slice_eqb_false a b : a ≠ b → slice_eqb a b = false.
Proof. intros Hne. apply not_true_iff_false. by rewrite slice_eqb_spec. Qed.

(** A name that begins with a digit is none of the fixed names. *)
Lemma starts_with_digit ds rest c r :
  Forall (λ c, is_digit c = true) ds → ds ≠ [] → is_digit c = false →
  starts_with (ds ++ rest) (c :: r) = false ∧ ds ++ rest ≠ c :: r.
Proof.
  intros Hds Hne Hc. destruct ds as [|d ds]; [done|]. apply Forall_cons in Hds as [Hd _].
  assert (u8 d ≠ u8 c) as Hu by (intros H%u8_inj; congruence).
  split; [|cbn; intros [= -> _]; congruence].
  unfold starts_with. cbn [app length memcmp]. rewrite (proj2 (Z.eqb_neq _ _) Hu).
  apply andb_false_iff. right. apply Z.eqb_neq. lia.
Qed.

Lemma ParseFileName_number num suffix :
  0 <= num < 2 ^ 64 → no_digit_head suffix →
  ParseFileName (decimal_pad6 num ++ suffix) =
  if slice_eqb suffix (str ".log") then Some (num, kLogFile)
  else if slice_eqb suffix (str ".sst") || slice_eqb suffix (str ".ldb") then Some (num, kTableFile)
  else if slice_eqb suffix (str ".dbtmp") then Some (num, kTempFile)
  else None.
Proof.
  intros Hnum Hsuf. destruct (decimal_pad6_spec num Hnum) as (Hall & _ & Hne).
  pose proof (λ c r, starts_with_digit _ suffix c r Hall Hne) as Hs. unfold ParseFileName.
  rewrite !slice_eqb_false by (apply Hs; reflexivity). cbn [orb].
  destruct (Hs x4d (drop 1 (str "MANIFEST-"))) as [HM _]; [reflexivity|].
  change (x4d :: drop 1 (str "MANIFEST-")) with (str "MANIFEST-") in HM.
  by rewrite HM, Consume_pad6.
Qed.

Lemma no_digit_dot s : no_digit_head (str "." ++ s).
Proof. done. Qed.

Lemma drop_dbname dbname s : drop (length dbname + 1)%nat (dbname ++ str "/" ++ s) = s.
Proof. by rewrite drop_app_add'. Qed.

Lemma ParseFileName_manifest num :
  0 <= num < 2 ^ 64 →
  ParseFileName (str "MANIFEST-" ++ decimal_pad6 num) = Some (num, kDescriptorFile).
Proof.
  intros Hnum. unfold ParseFileName. rewrite !slice_eqb_false by (cbn; congruence). cbn [orb].
  rewrite starts_with_app. unfold remove_prefix. rewrite length_app.
  rewrite (proj2 (Nat.leb_le _ _)) by (cbn; lia). cbn [mbind option_bind].
  change 9%nat with (length (str "MANIFEST-")). rewrite drop_app_length.
  pose proof (Consume_pad6 num [] Hnum I) as Hc. rewrite app_nil_r in Hc. by rewrite Hc.
Qed.

(** ** Claims *)

(** file names parse back.  For every database name and 64-bit number, the
    name of a log, table, legacy table, temporary or manifest file, without its
    directory, parses to its number and type, and the fixed names parse to
    their types. *)
Theorem ParseFileName_roundtrip dbname num :
  0 <= num < 2 ^ 64 →
  let base name := ParseFileName (drop (length dbname + 1)%nat name) in
  (base (LogFileName dbname num) = Some (num, kLogFile) ∧
   base (TableFileName dbname num) = Some (num, kTableFile) ∧
   base (SSTTableFileName dbname num) = Some (num, kTableFile)) ∧
  (base (TempFileName dbname num) = Some (num, kTempFile) ∧
   base (DescriptorFileName dbname num) = Some (num, kDescriptorFile)) ∧
  base (CurrentFileName dbname) = Some (0, kCurrentFile) ∧
  base (LockFileName dbname) = Some (0, kDBLockFile) ∧
  base (InfoLogFileName dbname) = Some (0, kInfoLogFile) ∧
  base (OldInfoLogFileName dbname) = Some (0, kInfoLogFile).
Proof.
  intros Hnum base. subst base. cbv beta.
  unfold LogFileName, TableFileName, SSTTableFileName, TempFileName, MakeFileName,
    DescriptorFileName, CurrentFileName, LockFileName, InfoLogFileName, OldInfoLogFileName.
  change (str "/MANIFEST-") with (str "/" ++ str "MANIFEST-").
  change (str "/CURRENT") with (str "/" ++ str "CURRENT").
  change (str "/LOCK") with (str "/" ++ str "LOCK").
  change (str "/LOG") with (str "/" ++ str "LOG").
  change (str "/LOG.old") with (str "/" ++ str "LOG.old").
  rewrite <- !app_assoc, !drop_dbname, ParseFileName_manifest by done.
  rewrite !ParseFileName_number by (done || apply no_digit_dot). by split_and!.
Qed.

Lemma ParseFileName_roundtrip_witness :
  ParseFileName (drop 5 (LogFileName (str "test") 18446744073709551615))
    = Some (18446744073709551615, kLogFile).
Proof. apply (ParseFileName_roundtrip (str "test") 18446744073709551615). lia. Defined.

Lemma temp_not_current dbname num : 0 <= num < 2 ^ 64 → TempFileName dbname num ≠ CurrentFileName dbname.
Proof.
  intros Hnum. unfold TempFileName, MakeFileName, CurrentFileName.
  change (str "/CURRENT") with (str "/" ++ str "CURRENT").
  intros H%app_inv_head%app_inv_head. destruct (decimal_pad6_spec num Hnum) as (Hall & _ & Hnil).
  destruct (decimal_pad6 num) as [|c ds]; [done|]. apply Forall_cons in Hall as [Hc _].
  by injection H as ->.
Qed.

Definition manifest_name (num : Z) : list byte := str "MANIFEST-" ++ decimal_pad6 num.

Section current_file.
Context {E : Type} `{!FileSystem E} {env_ok : E → Prop} {files : E → list byte → option (list byte)}
  {writing : E → WFile E → list byte → Prop} {reading : E → SFile E → list byte → Prop} {pos : SFile E → nat}
  `{!FileSystemLaws E env_ok files writing reading pos}.

Lemma SetCurrentFile_spec e dbname num : env_ok e → 0 <= num < 2 ^ 64 →
  ∃ e', SetCurrentFile dbname num e = Some (e', Status_OK) ∧ env_ok e' ∧
    files e' (CurrentFileName dbname) = Some (manifest_name num ++ [x0a]) ∧
    files e' (TempFileName dbname num) = None ∧
    unchanged files writing reading [TempFileName dbname num; CurrentFileName dbname] e e'.
Proof.
  intros He Hnum. assert (DescriptorFileName dbname num = dbname ++ str "/" ++ manifest_name num) as Hd by done.
  destruct (DoWriteStringToFile_spec e (TempFileName dbname num) (manifest_name num ++ [x0a]) true He)
    as (e1 & Hw & He1 & Hf1 & Hu1).
  destruct (rename_ok e1 _ _ _ He1 (temp_not_current dbname num Hnum) Hf1) as (e2 & Hr & He2 & Hf2 & Hg2 & Hu2).
  exists e2. split_and!; try done.
  - unfold SetCurrentFile, remove_prefix. rewrite Hd, !length_app.
    rewrite (proj2 (Nat.leb_le _ _)) by (cbn; lia). rewrite drop_dbname.
    cbn [mbind option_bind]. unfold WriteStringToFileSync. rewrite Hw.
    cbn [mbind option_bind ok state_ Status_OK]. by rewrite Hr.
  - eapply unchanged_trans; [|exact Hu2]. eapply unchanged_weaken; [|exact Hu1].
    intros n ->%list_elem_of_singleton. left.
Qed.

(** [SetCurrentFile] installs a manifest: on a lawful file
    system it succeeds, CURRENT then holds the manifest's base name and a
    newline, which parses back to the descriptor number, the temporary file is
    gone and every other file is unchanged. *)
Theorem SetCurrentFile_installs e dbname num :
  env_ok e → 0 <= num < 2 ^ 64 →
  ∃ e' manifest, SetCurrentFile dbname num e = Some (e', Status_OK) ∧ env_ok e' ∧
    files e' (CurrentFileName dbname) = Some (manifest ++ [x0a]) ∧
    ParseFileName manifest = Some (num, kDescriptorFile) ∧
    files e' (TempFileName dbname num) = None ∧
    (∀ n, n ≠ CurrentFileName dbname → n ≠ TempFileName dbname num → files e' n = files e n).
Proof.
  intros He Hnum. destruct (SetCurrentFile_spec e dbname num He Hnum) as (e' & Hs & He' & Hc & Ht & Hu).
  exists e', (manifest_name num). split_and!; try done; [by apply ParseFileName_manifest|].
  intros n Hn1 Hn2. apply (un_files _ _ _ _ _ _ Hu). rewrite !elem_of_cons. intros [->|[->|[]%not_elem_of_nil]]; done.
Qed.
End current_file.

Lemma SetCurrentFile_installs_witness :
  ∃ e' : InMemoryEnv, SetCurrentFile (str "db") 5 InMemoryEnv_new = Some (e', Status_OK) ∧
    files e' (str "db/CURRENT") = Some (str "MANIFEST-000005" ++ [x0a]).
Proof.
  destruct (SetCurrentFile_installs InMemoryEnv_new (str "db") 5 env_ok_new ltac:(lia))
    as (e' & m & H1 & _ & H2 & _).
  exists e'. split; [exact H1|]. vm_compute in H1. injection H1 as <-. vm_compute. reflexivity.
Defined.
