(* ===== verification/LogFormat.v ===== *)
(** Write-ahead log: physical record format and writer (db/log_format.h,
    db/log_writer.cc). *)
From S2P Require Import Prelude Coding Crc32c Env.

Definition kZeroType : Z := 0.
Definition kFullType : Z := 1.
Definition kFirstType : Z := 2.
Definition kMiddleType : Z := 3.
Definition kLastType : Z := 4.
Definition kMaxRecordType : Z := kLastType.
Definition kBlockSize : nat := Z.to_nat 32768.
Definition kHeaderSize : nat := 7.

(** ** Writer *)

(** Checksums do not depend on the address of the data
    (Crc32c.Extend_is_crc32c); the model places every buffer at 0. *)
Definition InitTypeCrc : list Z := (λ i, Value 0 [b8 i]) <$> seqZ 0 (kMaxRecordType + 1).

Record Writer (F : Type) := {
  dest_ : F;
  block_offset_ : nat;
  type_crc_ : list Z;
}.
Arguments dest_ {F} _.
Arguments block_offset_ {F} _.
Arguments type_crc_ {F} _.

Section writer.
Context {F : Type} `{WritableFile F}.

Definition Writer_new (dest : F) : Writer F :=
  {| dest_ := dest; block_offset_ := 0; type_crc_ := InitTypeCrc |}.

Definition Writer_append (dest : F) (dest_length : Z) : Writer F :=
  {| dest_ := dest; block_offset_ := Z.to_nat (dest_length mod 32768); type_crc_ := InitTypeCrc |}.

Definition record_header (type_crc : list Z) (t : Z) (payload : list byte) : list byte :=
  let length := Z.of_nat (length payload) in
  let crc := Mask (Extend 0 (type_crc !!! Z.to_nat t) payload) in
  EncodeFixed32 crc ++ [b8 (Z.land length 255); b8 (length ≫ 8); b8 t].

Definition EmitPhysicalRecord (t : Z) (payload : list byte) (w : Writer F) : Writer F * Status :=
  let '(dest, s) := Append (dest_ w) (record_header (type_crc_ w) t payload) in
  let '(dest, s) := if ok s
    then let '(dest, s) := Append dest payload in
         if ok s then Flush dest else (dest, s)
    else (dest, s) in
  ({| dest_ := dest; block_offset_ := (block_offset_ w + (kHeaderSize + length payload))%nat;
      type_crc_ := type_crc_ w |}, s).

(** The [do while] loop; [None] when [fuel] rounds are not enough. *)
Fixpoint AddRecord_loop (fuel : nat) (begin : bool) (data : list byte) (w : Writer F)
    : option (Writer F * Status) :=
  match fuel with
  | O => None
  | S fuel =>
      let leftover := (kBlockSize - block_offset_ w)%nat in
      let w :=
        if (leftover <? kHeaderSize)%nat
        then {| dest_ := if (0 <? leftover)%nat
                         then (Append (dest_ w) (replicate leftover x00)).1 else dest_ w;
                block_offset_ := 0; type_crc_ := type_crc_ w |}
        else w in
      let avail := (kBlockSize - block_offset_ w - kHeaderSize)%nat in
      let fragment_length := if (length data <? avail)%nat then length data else avail in
      let end_ := (length data =? fragment_length)%nat in
      let type := if begin && end_ then kFullType
                  else if begin then kFirstType
                  else if end_ then kLastType else kMiddleType in
      let '(w, s) := EmitPhysicalRecord type (take fragment_length data) w in
      let data := drop fragment_length data in
      if ok s && (0 <? length data)%nat then AddRecord_loop fuel false data w else Some (w, s)
  end.

(** A round emits at least one byte unless only the header fits its block. *)
Definition AddRecord (slice : list byte) (w : Writer F) : option (Writer F * Status) :=
  AddRecord_loop (length slice + 2) true slice w.
End writer.

(** ** The bytes of a record, without a file *)

(** Padding before a physical record at block offset [o], and where it starts. *)
Definition pad (o : nat) : list byte :=
  if (kBlockSize - o <? kHeaderSize)%nat then replicate (kBlockSize - o) x00 else [].
Definition start (o : nat) : nat := if (kBlockSize - o <? kHeaderSize)%nat then 0%nat else o.

Definition physical (t : Z) (payload : list byte) : list byte :=
  record_header InitTypeCrc t payload ++ payload.

Definition room (o : nat) : nat := (kBlockSize - start o - kHeaderSize)%nat.
Definition frag_len (o : nat) (data : list byte) : nat := Nat.min (length data) (room o).

Definition frag_type (begin : bool) (o : nat) (data : list byte) : Z :=
  let end_ := (length data =? frag_len o data)%nat in
  if begin && end_ then kFullType
  else if begin then kFirstType
  else if end_ then kLastType else kMiddleType.

(** The bytes of a record's fragments from offset [o], and the offset after. *)
Fixpoint encode (fuel : nat) (begin : bool) (o : nat) (data : list byte) : list byte * nat :=
  match fuel with
  | O => ([], o)
  | S fuel =>
      let n := frag_len o data in
      let out := pad o ++ physical (frag_type begin o data) (take n data) in
      let o' := (start o + (kHeaderSize + n))%nat in
      if (0 <? length (drop n data))%nat
      then let '(out', o'') := encode fuel false o' (drop n data) in (out ++ out', o'')
      else (out, o')
  end.

Definition encode_record (o : nat) (data : list byte) : list byte * nat :=
  encode (length data + 2) true o data.

Fixpoint encode_log (o : nat) (records : list (list byte)) : list byte * nat :=
  match records with
  | [] => ([], o)
  | r :: rs => let '(out, o) := encode_record o r in
               let '(out', o) := encode_log o rs in (out ++ out', o)
  end.

Lemma encode_log_snoc rs : ∀ o r, encode_log o (rs ++ [r]) =
  ((encode_log o rs).1 ++ (encode_record (encode_log o rs).2 r).1, (encode_record (encode_log o rs).2 r).2).
Proof.
  induction rs as [|r0 rs IH]; intros o r; cbn [app encode_log fst snd].
  - destruct (encode_record o r) as [out o']. cbn. by rewrite app_nil_r.
  - destruct (encode_record o r0) as [out o1]. rewrite IH. destruct (encode_log o1 rs) as [out' o2]. cbn. by rewrite app_assoc.
Qed.

Lemma kBlockSize_pos : (7 < kBlockSize)%nat ∧ Z.of_nat kBlockSize = 32768.
Proof. unfold kBlockSize. lia. Qed.

#[global] Opaque kBlockSize.

Lemma start_le o : (o ≤ kBlockSize → start o + kHeaderSize ≤ kBlockSize)%nat.
Proof.
  pose proof kBlockSize_pos. unfold start, kHeaderSize.
  destruct (Nat.ltb_spec (kBlockSize - o) 7); lia.
Qed.

Lemma frag_fits o data :
  (o ≤ kBlockSize → start o + (kHeaderSize + frag_len o data) ≤ kBlockSize)%nat.
Proof. intros Ho. pose proof (start_le o Ho). unfold frag_len, room. lia. Qed.

(** ** The writer appends the encoding *)

Section writer_spec.
Context {F : Type} `{!WritableFile F} {wf : F → Prop} {content : F → list byte}
  `{!WritableFileLaws F wf content}.
Implicit Types w : Writer F.

Definition writer_ok w (o : nat) : Prop :=
  wf (dest_ w) ∧ block_offset_ w = o ∧ type_crc_ w = InitTypeCrc ∧ (o ≤ kBlockSize)%nat.

Lemma EmitPhysicalRecord_spec t payload w o :
  writer_ok w o → (o + (kHeaderSize + length payload) ≤ kBlockSize)%nat →
  ∃ w', EmitPhysicalRecord t payload w = (w', Status_OK) ∧
    writer_ok w' (o + (kHeaderSize + length payload))%nat ∧
    content (dest_ w') = content (dest_ w) ++ physical t payload.
Proof.
  intros (Hwf & Ho & Hcrc & Hle) Hfit. unfold EmitPhysicalRecord. rewrite Ho, Hcrc.
  destruct (append_ok (dest_ w) (record_header InitTypeCrc t payload) Hwf) as (d1 & -> & Hwf1 & Hc1).
  cbn [ok state_ Status_OK].
  destruct (append_ok d1 payload Hwf1) as (d2 & -> & Hwf2 & Hc2). cbn [ok state_ Status_OK].
  destruct (flush_ok d2 Hwf2) as (d3 & -> & Hwf3 & Hc3).
  eexists. split; [reflexivity|]. split; [done|]. cbn [dest_].
  by rewrite Hc3, Hc2, Hc1, <- app_assoc.
Qed.

Lemma AddRecord_loop_spec fuel begin data w o :
  writer_ok w o → (length data + 1 ≤ fuel)%nat → (o ≤ kBlockSize)%nat →
  (length data + (if decide (room o = 0)%nat then 2 else 1) ≤ fuel)%nat →
  ∃ w', AddRecord_loop fuel begin data w = Some (w', Status_OK) ∧
    writer_ok w' (encode fuel begin o data).2 ∧
    content (dest_ w') = content (dest_ w) ++ (encode fuel begin o data).1.
Proof.
  revert begin data w o; induction fuel as [|fuel IH]; intros begin data w o Hw Hf Ho Hf2; [lia|].
  cbn [AddRecord_loop encode].
  destruct Hw as (Hwf & Hoff & Hcrc & _). rewrite Hoff.
  set (w1 := if (kBlockSize - o <? kHeaderSize)%nat then _ else _).
  assert (writer_ok w1 (start o) ∧ content (dest_ w1) = content (dest_ w) ++ pad o) as [Hw1 Hc1].
  { pose proof (start_le o Ho). subst w1. unfold start, pad, writer_ok in *.
    destruct (Nat.ltb_spec (kBlockSize - o) kHeaderSize).
    - cbn [dest_ block_offset_ type_crc_]. destruct (Nat.ltb_spec 0 (kBlockSize - o)).
      + destruct (append_ok (dest_ w) (replicate (kBlockSize - o) x00) Hwf) as (d & -> & Hwf' & Hc).
        cbn [fst]. split; [split_and!; [done..|lia]|done].
      + replace (kBlockSize - o)%nat with 0%nat by lia. rewrite app_nil_r.
        split; [split_and!; [done..|lia]|done].
    - rewrite app_nil_r. split; [by split_and!|done]. }
  clearbody w1. destruct Hw1 as (Hwf1 & Hoff1 & Hcrc1 & Hle1). rewrite Hoff1. fold (room o).
  set (n := if (length data <? room o)%nat then length data else room o).
  assert (n = frag_len o data) as Hn.
  { subst n. unfold frag_len. destruct (Nat.ltb_spec (length data) (room o)); lia. }
  rewrite Hn. clear n Hn. fold (frag_type begin o data).
  assert (length (take (frag_len o data) data) = frag_len o data) as Htake.
  { rewrite length_take. unfold frag_len. lia. }
  destruct (EmitPhysicalRecord_spec (frag_type begin o data) (take (frag_len o data) data) w1 (start o))
    as (w2 & -> & Hw2 & Hc2).
  { by split_and!. } { rewrite Htake. by apply frag_fits. }
  rewrite Htake in Hw2. cbn [ok state_ Status_OK andb].
  destruct (Nat.ltb_spec 0 (length (drop (frag_len o data) data))) as [Hpos|Hzero].
  - rewrite length_drop in Hpos. pose proof (frag_fits o data Ho) as Hfit.
    assert (frag_len o data = room o) as Hroom by (unfold frag_len in *; lia).
    assert (room (start o + (kHeaderSize + frag_len o data)) ≠ 0)%nat as Hnext.
    { pose proof kBlockSize_pos. rewrite Hroom. unfold room at 1. pose proof (start_le o Ho).
      replace (start o + (kHeaderSize + room o))%nat with kBlockSize by (unfold room; lia).
      unfold start. rewrite Nat.sub_diag. change (0 <? kHeaderSize)%nat with true. cbv iota.
      unfold kHeaderSize. lia. }
    destruct (IH false (drop (frag_len o data) data) w2 (start o + (kHeaderSize + frag_len o data))%nat)
      as (w' & Hw' & Hok & Hc); [done| |lia| |].
    + rewrite length_drop. destruct (decide (room o = 0)%nat); lia.
    + rewrite length_drop, decide_False by done. destruct (decide (room o = 0)%nat); lia.
    + exists w'. split; [done|]. destruct (encode fuel false _ _) as [out' o''] eqn:He.
      cbn [fst snd] in *. split; [done|]. by rewrite Hc, Hc2, Hc1, <- !app_assoc.
  - exists w2. split; [done|]. split; [done|]. cbn [fst]. by rewrite Hc2, Hc1, <- app_assoc.
Qed.

Lemma AddRecord_spec data w o :
  writer_ok w o →
  ∃ w', AddRecord data w = Some (w', Status_OK) ∧ writer_ok w' (encode_record o data).2 ∧
    content (dest_ w') = content (dest_ w) ++ (encode_record o data).1.
Proof.
  intros Hw. apply AddRecord_loop_spec; [done|lia|apply Hw|]. destruct (decide _); lia.
Qed.
End writer_spec.
