(* ===== verification/LogReader.v ===== *)
(** Write-ahead log reader (db/log_reader.cc), round trip with the writer,
    recovery of a truncated log and detection of corrupt records. *)
From S2P Require Import Prelude Coding Crc32c Env MemEnv Logging LogFormat.

Definition kEof : Z := kMaxRecordType + 1.
Definition kBadRecord : Z := kMaxRecordType + 2.

(** [reports] collects the calls of [reporter_->Corruption]; [has_reporter]
    says whether a reporter was given. *)
Record Reader (S : Type) := {
  file_ : S;
  has_reporter : bool;
  reports : list (Z * Status);
  checksum_ : bool;
  buffer_ : list byte;
  eof_ : bool;
  last_record_offset_ : Z;
  end_of_buffer_offset_ : Z;
  initial_offset_ : Z;
  resyncing_ : bool;
}.
Arguments file_ {S} _.
Arguments has_reporter {S} _.
Arguments reports {S} _.
Arguments checksum_ {S} _.
Arguments buffer_ {S} _.
Arguments eof_ {S} _.
Arguments last_record_offset_ {S} _.
Arguments end_of_buffer_offset_ {S} _.
Arguments initial_offset_ {S} _.
Arguments resyncing_ {S} _.

Section reader.
Context {F : Type} `{SequentialFile F}.
Implicit Types r : Reader F.

Definition Reader_new (file : F) (reporter checksum : bool) (initial_offset : Z) : Reader F :=
  {| file_ := file; has_reporter := reporter; reports := []; checksum_ := checksum;
     buffer_ := []; eof_ := false; last_record_offset_ := 0; end_of_buffer_offset_ := 0;
     initial_offset_ := initial_offset; resyncing_ := 0 <? initial_offset |}.

Definition set_buffer (b : list byte) r : Reader F :=
  {| file_ := file_ r; has_reporter := has_reporter r; reports := reports r;
     checksum_ := checksum_ r; buffer_ := b; eof_ := eof_ r;
     last_record_offset_ := last_record_offset_ r;
     end_of_buffer_offset_ := end_of_buffer_offset_ r;
     initial_offset_ := initial_offset_ r; resyncing_ := resyncing_ r |}.
Definition set_read (f : F) (b : list byte) (e : bool) (off : Z) r : Reader F :=
  {| file_ := f; has_reporter := has_reporter r; reports := reports r;
     checksum_ := checksum_ r; buffer_ := b; eof_ := e;
     last_record_offset_ := last_record_offset_ r; end_of_buffer_offset_ := off;
     initial_offset_ := initial_offset_ r; resyncing_ := resyncing_ r |}.
Definition set_resyncing (b : bool) r : Reader F :=
  {| file_ := file_ r; has_reporter := has_reporter r; reports := reports r;
     checksum_ := checksum_ r; buffer_ := buffer_ r; eof_ := eof_ r;
     last_record_offset_ := last_record_offset_ r;
     end_of_buffer_offset_ := end_of_buffer_offset_ r;
     initial_offset_ := initial_offset_ r; resyncing_ := b |}.
Definition set_last (o : Z) r : Reader F :=
  {| file_ := file_ r; has_reporter := has_reporter r; reports := reports r;
     checksum_ := checksum_ r; buffer_ := buffer_ r; eof_ := eof_ r;
     last_record_offset_ := o; end_of_buffer_offset_ := end_of_buffer_offset_ r;
     initial_offset_ := initial_offset_ r; resyncing_ := resyncing_ r |}.

Definition ReportDrop (bytes : Z) (reason : Status) r : Reader F :=
  if has_reporter r &&
     (initial_offset_ r <=?
      u64 (end_of_buffer_offset_ r - Z.of_nat (length (buffer_ r)) - bytes))
  then {| file_ := file_ r; has_reporter := has_reporter r;
          reports := reports r ++ [(bytes, reason)];
          checksum_ := checksum_ r; buffer_ := buffer_ r; eof_ := eof_ r;
          last_record_offset_ := last_record_offset_ r;
          end_of_buffer_offset_ := end_of_buffer_offset_ r;
          initial_offset_ := initial_offset_ r; resyncing_ := resyncing_ r |}
  else r.

Definition ReportCorruption (bytes : Z) (reason : list byte) r : Reader F :=
  ReportDrop bytes (Corruption reason) r.

Definition SkipToInitialBlock r : Reader F * bool :=
  let offset_in_block := initial_offset_ r mod 32768 in
  let block_start_location := initial_offset_ r - offset_in_block in
  let block_start_location :=
    if 32768 - 6 <? offset_in_block then u64 (block_start_location + 32768)
    else block_start_location in
  let r := set_read (file_ r) (buffer_ r) (eof_ r) block_start_location r in
  if 0 <? block_start_location
  then let '(f, skip_status) := Skip (file_ r) block_start_location in
       let r := set_read f (buffer_ r) (eof_ r) (end_of_buffer_offset_ r) r in
       if ok skip_status then (r, true) else (ReportDrop block_start_location skip_status r, false)
  else (r, true).

(** [result] is the caller's fragment, which most failures leave alone.  The
    loop reads at most one block, so three rounds are enough. *)
Fixpoint ReadPhysicalRecord_loop (fuel : nat) (result : list byte) r
    : option (Z * list byte * Reader F) :=
  match fuel with
  | O => None
  | S fuel =>
      if (length (buffer_ r) <? kHeaderSize)%nat
      then if negb (eof_ r)
           then let '(f, (buffer, status)) := Read (file_ r) kBlockSize in
                let r := set_read f buffer (eof_ r)
                  (u64 (end_of_buffer_offset_ r + Z.of_nat (length buffer))) r in
                if negb (ok status)
                then let r := ReportDrop 32768 status (set_buffer [] r) in
                     Some (kEof, result, set_read (file_ r) (buffer_ r) true (end_of_buffer_offset_ r) r)
                else ReadPhysicalRecord_loop fuel result
                       (set_read (file_ r) buffer
                          (eof_ r || (length buffer <? kBlockSize)%nat) (end_of_buffer_offset_ r) r)
           else Some (kEof, result, set_buffer [] r)
      else
        let header := buffer_ r in
        let a := u8 (header !!! 4%nat) in
        let b := u8 (header !!! 5%nat) in
        let type := u32 (s8 (header !!! 6%nat)) in
        let len := Z.lor a (b ≪ 8) in
        let drop_size := Z.of_nat (length (buffer_ r)) in
        if drop_size <? Z.of_nat kHeaderSize + len
        then let r := set_buffer [] r in
             if negb (eof_ r)
             then Some (kBadRecord, result, ReportCorruption drop_size (str "bad record length") r)
             else Some (kEof, result, r)
        else if (type =? kZeroType) && (len =? 0)
        then Some (kBadRecord, result, set_buffer [] r)
        else
          let n := Z.to_nat len in
          let expected_crc := Unmask (default 0 (DecodeFixed32 header)) in
          let actual_crc := Value 0 (take (1 + n) (drop 6 header)) in
          if checksum_ r && negb (actual_crc =? expected_crc)
          then Some (kBadRecord, result,
                     ReportCorruption drop_size (str "checksum mismatch") (set_buffer [] r))
          else
            let r := set_buffer (drop (kHeaderSize + n) (buffer_ r)) r in
            if u64 (end_of_buffer_offset_ r - Z.of_nat (length (buffer_ r))
                    - Z.of_nat kHeaderSize - len) <? initial_offset_ r
            then Some (kBadRecord, [], r)
            else Some (type, take n (drop kHeaderSize header), r)
  end.

Definition ReadPhysicalRecord (result : list byte) r : option (Z * list byte * Reader F) :=
  ReadPhysicalRecord_loop 3 result r.

(** The loop of [ReadRecord]: the record and the reader, no record at the end of
    the input, [None] when [fuel] physical records are not enough. *)
Fixpoint ReadRecord_loop (fuel : nat) (fragment scratch : list byte) (in_fragmented_record : bool)
    (prospective_record_offset : Z) r : option (option (list byte) * Reader F) :=
  match fuel with
  | O => None
  | S fuel =>
      '(record_type, fragment, r) ← ReadPhysicalRecord fragment r;
      let physical_record_offset :=
        u64 (end_of_buffer_offset_ r - Z.of_nat (length (buffer_ r)) - Z.of_nat kHeaderSize
             - Z.of_nat (length fragment)) in
      let size := Z.of_nat (length scratch) in
      let report_partial msg r :=
        if in_fragmented_record && (0 <? size) then ReportCorruption size msg r else r in
      if resyncing_ r && (record_type =? kMiddleType)
      then ReadRecord_loop fuel fragment scratch in_fragmented_record prospective_record_offset r
      else if resyncing_ r && (record_type =? kLastType)
      then ReadRecord_loop fuel fragment scratch in_fragmented_record prospective_record_offset
             (set_resyncing false r)
      else
        let r := set_resyncing false r in
        if record_type =? kFullType then
          let r := report_partial (str "partial record without end(1)") r in
          Some (Some fragment, set_last physical_record_offset r)
        else if record_type =? kFirstType then
          let r := report_partial (str "partial record without end(2)") r in
          ReadRecord_loop fuel fragment fragment true physical_record_offset r
        else if record_type =? kMiddleType then
          if negb in_fragmented_record
          then ReadRecord_loop fuel fragment scratch in_fragmented_record prospective_record_offset
                 (ReportCorruption (Z.of_nat (length fragment))
                    (str "missing start of fragmented record(1)") r)
          else ReadRecord_loop fuel fragment (scratch ++ fragment) in_fragmented_record
                 prospective_record_offset r
        else if record_type =? kLastType then
          if negb in_fragmented_record
          then ReadRecord_loop fuel fragment scratch in_fragmented_record prospective_record_offset
                 (ReportCorruption (Z.of_nat (length fragment))
                    (str "missing start of fragmented record(2)") r)
          else Some (Some (scratch ++ fragment), set_last prospective_record_offset r)
        else if record_type =? kEof then Some (None, r)
        else if record_type =? kBadRecord then
          if in_fragmented_record
          then ReadRecord_loop fuel fragment [] false prospective_record_offset
                 (ReportCorruption size (str "error in middle of record") r)
          else ReadRecord_loop fuel fragment scratch in_fragmented_record prospective_record_offset r
        else
          ReadRecord_loop fuel fragment [] false prospective_record_offset
            (ReportCorruption
               (Z.of_nat (length fragment) + (if in_fragmented_record then size else 0))
               (str "unknown record type " ++ decimal record_type) r)
  end.

Definition ReadRecord (fuel : nat) r : option (option (list byte) * Reader F) :=
  let '(r, go) := if last_record_offset_ r <? initial_offset_ r
                  then SkipToInitialBlock r else (r, true) in
  if go then ReadRecord_loop fuel [] [] false 0 r else Some (None, r).

(** Read records until the reader reports the end. *)
Fixpoint read_all (n fuel : nat) r : option (list (list byte) * Reader F) :=
  match n with
  | O => None
  | S n =>
      '(record, r) ← ReadRecord fuel r;
      match record with
      | None => Some ([], r)
      | Some rec => '(recs, r) ← read_all n fuel r; Some (rec :: recs, r)
      end
  end.
End reader.

(** ** Parsing a physical record back *)

Lemma type_crc_lookup t : 0 <= t <= kMaxRecordType →
  InitTypeCrc !!! Z.to_nat t = Value 0 [b8 t].
Proof.
  intros Ht. unfold InitTypeCrc, kMaxRecordType, kLastType in *. rewrite list_lookup_total_alt.
  rewrite list_lookup_fmap, lookup_seqZ_lt by lia. cbn. rewrite Z2Nat.id by lia. done.
Qed.

Lemma length_physical t payload :
  length (physical t payload) = (kHeaderSize + length payload)%nat.
Proof. unfold physical, record_header. rewrite !length_app, length_EncodeFixed32. done. Qed.

(** The stored checksum is the masked checksum of type and payload. *)
Lemma physical_bytes t payload : 0 <= t <= kMaxRecordType →
  physical t payload =
  EncodeFixed32 (Mask (Value 0 (b8 t :: payload))) ++
  [b8 (Z.land (Z.of_nat (length payload)) 255); b8 (Z.of_nat (length payload) ≫ 8)] ++
  b8 t :: payload.
Proof.
  intros Ht. unfold physical, record_header. rewrite type_crc_lookup by done.
  unfold Value at 1 2. rewrite !Extend_bits by (rewrite ?Extend_bits; auto using crc32c_range with lia).
  rewrite crc32c_app. cbn [app]. by rewrite <- app_assoc.
Qed.

Lemma length_decode n : 0 <= n < 65536 →
  Z.lor (u8 (b8 (Z.land n 255))) (u8 (b8 (n ≫ 8)) ≪ 8) = n.
Proof.
  intros Hn. rewrite !u8_b8, lor_shiftl_add by (try apply Z.mod_pos_bound; lia).
  change 255 with (2 ^ 8 - 1). rewrite land_ones_mod, Z.shiftr_div_pow2 by lia.
  change (2 ^ 8) with 256. rewrite Z.mod_mod by lia.
  rewrite (Z.mod_small (n / 256)); [pose proof (Z.div_mod n 256); lia|].
  split; [apply Z.div_pos; lia|]. apply Z.div_lt_upper_bound; lia.
Qed.

Lemma type_decode t : 0 <= t < 128 → u32 (s8 (b8 t)) = t.
Proof.
  intros Ht. unfold s8. rewrite u8_b8, Z.mod_small by lia.
  rewrite (proj2 (Z.ltb_lt _ _)) by lia. apply u32_small. lia.
Qed.

(** What the reader decodes from a buffer [crc ++ length ++ type ++ payload]. *)
Lemma decode_header crc t payload tail :
  0 <= crc < 2 ^ 32 → Z.of_nat (length payload) < 65536 →
  let buf := EncodeFixed32 crc ++
    [b8 (Z.land (Z.of_nat (length payload)) 255); b8 (Z.of_nat (length payload) ≫ 8)] ++
    t :: payload ++ tail in
  (length buf = kHeaderSize + length payload + length tail)%nat ∧
  Z.lor (u8 (buf !!! 4%nat)) (u8 (buf !!! 5%nat) ≪ 8) = Z.of_nat (length payload) ∧
  buf !!! 6%nat = t ∧ DecodeFixed32 buf = Some crc ∧
  take (1 + length payload) (drop 6 buf) = t :: payload ∧
  drop kHeaderSize buf = payload ++ tail ∧
  drop (kHeaderSize + length payload) buf = tail.
Proof.
  intros Hcrc Hlen buf. subst buf. split_and!.
  - rewrite length_app, length_EncodeFixed32. cbn [app length]. rewrite length_app.
    unfold kHeaderSize. lia.
  - rewrite !list_lookup_total_alt, !lookup_app_r by (rewrite length_EncodeFixed32; lia).
    rewrite length_EncodeFixed32. cbn. apply length_decode. lia.
  - rewrite list_lookup_total_alt, lookup_app_r by (rewrite length_EncodeFixed32; lia).
    by rewrite length_EncodeFixed32.
  - rewrite Decode_EncodeFixed32. f_equal. by apply u32_small.
  - rewrite drop_app_ge by (rewrite length_EncodeFixed32; lia). rewrite length_EncodeFixed32. cbn.
    by rewrite take_app_length.
  - rewrite drop_app_ge by (rewrite length_EncodeFixed32; unfold kHeaderSize; lia).
    by rewrite length_EncodeFixed32.
  - rewrite <- drop_drop, drop_app_ge by (rewrite length_EncodeFixed32; unfold kHeaderSize; lia).
    rewrite length_EncodeFixed32. cbn. apply drop_app_length.
Qed.

(** ** Reader steps *)

Section reader_spec.
Context {F : Type} `{!SequentialFile F} {wf : F → Prop} {rest : F → list byte}
  `{!SequentialFileLaws F wf rest}.
Implicit Types r : Reader F.

(** [R] is left to read and [o] bytes of the current block are behind: the file
    is at a block boundary, or at its end. *)
Record at_ r (o : nat) (R : list byte) : Prop := {
  at_wf : wf (file_ r);
  at_bytes : buffer_ r ++ rest (file_ r) = R;
  at_block : (eof_ r = false ∧ length (buffer_ r) = kBlockSize - o)%nat ∨
             (eof_ r = true ∧ rest (file_ r) = [] ∧ length (buffer_ r) < kBlockSize - o)%nat;
}.

(** A reader from the start of the file; [same] relates readers that made the
    same reports. *)
Definition quiet r : Prop := initial_offset_ r = 0 ∧ resyncing_ r = false.
Definition same r r' : Prop :=
  initial_offset_ r' = initial_offset_ r ∧ resyncing_ r' = resyncing_ r ∧ reports r' = reports r ∧
  checksum_ r' = checksum_ r.

#[local] Instance same_preorder : PreOrder same.
Proof. split; [by intros r|]. intros r1 r2 r3 (? & ? & ? & ?) (? & ? & ? & ?). split_and!; congruence. Qed.

Lemma same_quiet r r' : same r r' → quiet r → quiet r'.
Proof. intros (? & ? & _) []. split; congruence. Qed.

Lemma parse_physical fuel result r t payload tail :
  quiet r → 1 <= t <= kMaxRecordType → Z.of_nat (length payload) < 65536 →
  buffer_ r = physical t payload ++ tail →
  ReadPhysicalRecord_loop (S fuel) result r = Some (t, payload, set_buffer tail r).
Proof.
  intros [Hinit _] Ht Hlen Hbuf. unfold kMaxRecordType, kLastType in Ht.
  assert (0 <= Value 0 (b8 t :: payload) < 2 ^ 32) as Hcrc.
  { unfold Value. rewrite Extend_bits by lia. apply crc32c_range. lia. }
  rewrite physical_bytes in Hbuf by (unfold kMaxRecordType, kLastType; lia).
  rewrite <- !app_assoc in Hbuf. cbn [app] in Hbuf.
  destruct (decode_header (Mask (Value 0 (b8 t :: payload))) (b8 t) payload tail (Mask_range _) Hlen)
    as (H1 & H2 & H3 & H4 & H5 & H6 & H7).
  cbn [app] in *. cbn [ReadPhysicalRecord_loop]. rewrite !Hbuf, H1, H2, H3, H4. cbn [default from_option id].
  rewrite (proj2 (Nat.ltb_ge _ _)) by lia. rewrite (proj2 (Z.ltb_ge _ _)) by lia.
  rewrite type_decode by lia. rewrite (proj2 (Z.eqb_neq t kZeroType)) by (unfold kZeroType; lia).
  cbn [andb]. rewrite Nat2Z.id, H5, Unmask_Mask, Z.eqb_refl, andb_false_r by done.
  rewrite H6, H7. cbn [set_buffer initial_offset_]. rewrite Hinit.
  rewrite (proj2 (Z.ltb_ge _ 0)) by apply u64_range.
  by rewrite take_app_length.
Qed.

Lemma at_consume r o t payload R' :
  at_ r o (physical t payload ++ R') → (o + (kHeaderSize + length payload) ≤ kBlockSize)%nat →
  ∃ tail, buffer_ r = physical t payload ++ tail ∧
    at_ (set_buffer tail r) (o + (kHeaderSize + length payload)) R'.
Proof.
  intros [Hwf Hbytes Hblock] Hfit. pose proof (length_physical t payload) as Hl.
  assert (length (physical t payload) ≤ length (buffer_ r))%nat as Hle.
  { destruct Hblock as [[_ Hb]|(_ & Hr & Hb)]; [lia|].
    rewrite Hr, app_nil_r in Hbytes. rewrite Hbytes, length_app. lia. }
  assert (buffer_ r = physical t payload ++ drop (length (physical t payload)) (buffer_ r)) as Hbuf.
  { rewrite <- (take_drop (length (physical t payload)) (buffer_ r)) at 1. f_equal.
    rewrite <- (take_app_le _ (rest (file_ r))), Hbytes by done. apply take_app_length. }
  eexists. split; [exact Hbuf|]. split; cbn [file_ buffer_ eof_ set_buffer]; [done| |].
  - rewrite Hbuf, <- app_assoc in Hbytes. by apply app_inv_head in Hbytes.
  - rewrite length_drop. destruct Hblock as [[He Hb]|(He & Hr & Hb)]; [left|right].
    + split; [done|lia].
    + split_and!; [done..|lia].
Qed.

Lemma refill fuel result r o R :
  at_ r o R → eof_ r = false → (kBlockSize - o < kHeaderSize)%nat →
  ∃ r1, ReadPhysicalRecord_loop (S fuel) result r = ReadPhysicalRecord_loop fuel result r1 ∧
    at_ r1 0 (drop (kBlockSize - o) R) ∧ same r r1.
Proof.
  intros [Hwf Hbytes Hblock] Heof Ho. destruct Hblock as [[_ Hb]|(He & _)]; [|congruence].
  cbn [ReadPhysicalRecord_loop]. rewrite (proj2 (Nat.ltb_lt _ _)), Heof by lia. cbn [negb].
  destruct (read_ok (file_ r) kBlockSize Hwf) as (f' & -> & Hwf' & Hrest).
  cbn [ok state_ Status_OK negb]. eexists. split; [reflexivity|]. split; [|by split_and!].
  split; cbn [file_ buffer_ eof_ set_read].
  - done.
  - rewrite Hrest, take_drop, <- Hbytes, <- Hb. by rewrite drop_app_length.
  - rewrite Nat.sub_0_r. cbn [orb].
    destruct (Nat.ltb_spec (length (take kBlockSize (rest (file_ r)))) kBlockSize) as [Hlt|Hge].
    + right. rewrite length_take in Hlt. split_and!; [done| |by rewrite length_take].
      rewrite Hrest. apply drop_ge. lia.
    + left. split; [done|]. rewrite length_take in *. lia.
Qed.

Lemma pad_eq o : (kBlockSize - o < kHeaderSize)%nat →
  pad o = replicate (kBlockSize - o) x00 ∧ start o = 0%nat.
Proof. intros H. unfold pad, start. by rewrite (proj2 (Nat.ltb_lt _ _) H). Qed.

Lemma pad_nil o : (kHeaderSize ≤ kBlockSize - o)%nat → pad o = [] ∧ start o = o.
Proof. intros H. unfold pad, start. by rewrite (proj2 (Nat.ltb_ge _ _) H). Qed.

(** A complete physical record is returned, after its padding. *)
Lemma read_physical r o t payload R' result :
  at_ r o (pad o ++ physical t payload ++ R') → quiet r → 1 <= t <= kMaxRecordType →
  (start o + (kHeaderSize + length payload) ≤ kBlockSize)%nat →
  ∃ r', ReadPhysicalRecord result r = Some (t, payload, r') ∧
    at_ r' (start o + (kHeaderSize + length payload)) R' ∧ same r r'.
Proof.
  intros Hat Hq Ht Hfit. pose proof kBlockSize_pos as [_ HB].
  assert (Z.of_nat (length payload) < 65536) as Hlen by lia. unfold ReadPhysicalRecord.
  destruct (Nat.lt_ge_cases (kBlockSize - o) kHeaderSize) as [Ho|Ho].
  - destruct (pad_eq o Ho) as [Hp Hs]. rewrite Hp in Hat. rewrite Hs in *.
    assert (eof_ r = false) as Heof.
    { destruct Hat as [_ Hbytes [[He _]|(_ & Hr & Hb)]]; [done|].
      rewrite Hr, app_nil_r in Hbytes. rewrite Hbytes, length_app, length_replicate in Hb. lia. }
    destruct (refill 2 result r o _ Hat Heof Ho) as (r1 & -> & Hat1 & Hsame).
    rewrite drop_app_length' in Hat1 by (by rewrite length_replicate).
    destruct (at_consume r1 0 t payload R' Hat1 Hfit) as (tail & Hbuf & Hat2).
    exists (set_buffer tail r1). split; [|split; [exact Hat2|exact Hsame]].
    apply parse_physical; [by eapply same_quiet|done..].
  - destruct (pad_nil o Ho) as [Hp Hs]. rewrite Hp in Hat. rewrite Hs in *. cbn [app] in Hat.
    destruct (at_consume r o t payload R' Hat Hfit) as (tail & Hbuf & Hat2).
    exists (set_buffer tail r). split; [by apply parse_physical|split; [exact Hat2|by split_and!]].
Qed.

(** A cut physical record at the end of the file is the end of the log. *)
Lemma parse_cut fuel result r t payload :
  eof_ r = true → 0 <= t <= kMaxRecordType → Z.of_nat (length payload) < 65536 →
  buffer_ r `prefix_of` physical t payload →
  (length (buffer_ r) < kHeaderSize + length payload)%nat →
  ReadPhysicalRecord_loop (S fuel) result r = Some (kEof, result, set_buffer [] r).
Proof.
  intros Heof Ht Hlen [cut Hcut] Hshort. cbn [ReadPhysicalRecord_loop]. rewrite Heof. cbn [negb].
  destruct (Nat.ltb_spec (length (buffer_ r)) kHeaderSize) as [|H7]; [done|].
  unfold kHeaderSize in H7.
  assert (∀ i, (i < 7)%nat → buffer_ r !!! i = physical t payload !!! i) as Hi.
  { intros i Hi. rewrite !list_lookup_total_alt, Hcut, lookup_app_l by lia. done. }
  rewrite !Hi by lia. rewrite physical_bytes by done.
  destruct (decode_header (Mask (Value 0 (b8 t :: payload))) (b8 t) payload [] (Mask_range _) Hlen)
    as (_ & H2 & _). rewrite !app_nil_r in H2. rewrite H2.
  rewrite (proj2 (Z.ltb_lt _ _)); [|unfold kHeaderSize in *; lia].
  cbn [set_buffer eof_]. by rewrite Heof.
Qed.

Lemma read_cut r o t payload P result :
  at_ r o P → 0 <= t <= kMaxRecordType →
  (start o + (kHeaderSize + length payload) ≤ kBlockSize)%nat →
  P `prefix_of` pad o ++ physical t payload →
  (length P < length (pad o) + (kHeaderSize + length payload))%nat →
  ∃ r', ReadPhysicalRecord result r = Some (kEof, result, r') ∧ same r r'.
Proof.
  intros Hat Ht Hfit Hpre Hshort. pose proof kBlockSize_pos as [_ HB].
  assert (Z.of_nat (length payload) < 65536) as Hlen by lia. unfold ReadPhysicalRecord.
  destruct (Nat.lt_ge_cases (kBlockSize - o) kHeaderSize) as [Ho|Ho].
  - destruct (pad_eq o Ho) as [Hp Hs]. rewrite Hp, length_replicate in Hshort. rewrite Hp in Hpre.
    destruct (eof_ r) eqn:Heof.
    + destruct Hat as [_ _ [[? _]|(_ & _ & Hb)]]; [congruence|].
      eexists. split; [|by instantiate (1 := set_buffer [] r); split_and!].
      cbn [ReadPhysicalRecord_loop]. by rewrite (proj2 (Nat.ltb_lt _ _)), Heof by lia.
    + destruct (refill 2 result r o P Hat Heof Ho) as (r1 & -> & [Hwf1 Hb1 Hbl1] & Hsame).
      assert (length (drop (kBlockSize - o) P) < kBlockSize)%nat as Hdrop
        by (rewrite length_drop, Hs in *; lia).
      destruct Hbl1 as [[_ Hfull]|(He1 & Hr1 & _)].
      { rewrite <- Hb1, length_app, Nat.sub_0_r in *. lia. }
      rewrite Hr1, app_nil_r in Hb1.
      exists (set_buffer [] r1). split; [|exact Hsame].
      apply (parse_cut _ _ _ t payload); [done..| |rewrite Hb1, length_drop; lia].
      rewrite Hb1. destruct Hpre as [cut Hcut].
      assert (kBlockSize - o ≤ length P)%nat as HleP.
      { destruct Hat as [_ Hbytes [[_ Hb]|(? & _)]]; [|congruence].
        rewrite <- Hbytes, length_app. lia. }
      exists cut. rewrite <- drop_app_le, <- Hcut by done.
      rewrite drop_app_length' by (by rewrite length_replicate). done.
  - destruct (pad_nil o Ho) as [Hp Hs]. rewrite Hp in *. cbn [app length] in *. rewrite Hs in Hfit.
    destruct Hat as [_ Hbytes [[_ Hb]|(Heof & Hr & Hb)]].
    { rewrite <- Hbytes, length_app in Hshort. lia. }
    rewrite Hr, app_nil_r in Hbytes. exists (set_buffer [] r). split; [|by split_and!].
    apply (parse_cut _ _ _ t payload); [done..|by rewrite Hbytes|by rewrite Hbytes].
Qed.

(** ** Records *)

Lemma frag_type_range begin o data : 1 <= frag_type begin o data <= kMaxRecordType.
Proof.
  unfold frag_type, kMaxRecordType, kLastType, kFullType, kFirstType, kMiddleType.
  destruct begin; cbn [andb]; destruct (length data =? frag_len o data)%nat; lia.
Qed.

Definition enough (o : nat) (data : list byte) (n : nat) : Prop :=
  (length data + (if decide (room o = 0)%nat then 2 else 1) ≤ n)%nat.

(** One round of [encode]: a fragment, and more exactly when data is left. *)
Lemma encode_S n begin o data :
  (o ≤ kBlockSize)%nat → enough o data (S n) →
  let f := take (frag_len o data) data in
  let o1 := (start o + (kHeaderSize + length f))%nat in
  let out := pad o ++ physical (frag_type begin o data) f in
  (o1 ≤ kBlockSize)%nat ∧
  ((frag_len o data = length data ∧ f = data ∧ encode (S n) begin o data = (out, o1) ∧
    frag_type begin o data = (if begin then kFullType else kLastType)) ∨
   (enough o1 (drop (frag_len o data) data) n ∧
    encode (S n) begin o data =
      (out ++ (encode n false o1 (drop (frag_len o data) data)).1,
       (encode n false o1 (drop (frag_len o data) data)).2) ∧
    frag_type begin o data = (if begin then kFirstType else kMiddleType))).
Proof.
  intros Ho Hen f o1 out. pose proof (frag_fits o data Ho) as Hfit.
  assert (length f = frag_len o data) as Hf by (subst f; rewrite length_take; unfold frag_len; lia).
  split; [subst o1; lia|]. unfold frag_type. cbn [encode].
  destruct (Nat.eqb_spec (length data) (frag_len o data)) as [Heq|Hne].
  - left. assert (f = data) as Hfd by (subst f; apply take_ge; lia).
    rewrite length_drop, (proj2 (Nat.ltb_ge _ _)) by lia.
    split_and!; [done|done| |by destruct begin].
    subst out o1. rewrite Hf. unfold frag_type. by rewrite (proj2 (Nat.eqb_eq _ _) Heq).
  - right. assert (frag_len o data = room o ∧ frag_len o data < length data)%nat as [Hroom Hlt]
      by (unfold frag_len in *; lia).
    assert (o1 = kBlockSize) as Ho1.
    { subst o1. rewrite Hf, Hroom. unfold room. pose proof (start_le o Ho). lia. }
    split_and!.
    + unfold enough in *. rewrite length_drop, decide_False.
      * destruct (decide (room o = 0)%nat); lia.
      * rewrite Ho1. unfold room, start. pose proof kBlockSize_pos. rewrite Nat.sub_diag.
        change (0 <? kHeaderSize)%nat with true. unfold kHeaderSize. lia.
    + rewrite length_drop, (proj2 (Nat.ltb_lt _ _)) by lia. rewrite <- Hf. fold o1.
      rewrite Hf. destruct (encode n false o1 _) as [out' o'']. cbn [fst snd].
      subst out. unfold frag_type. by rewrite (proj2 (Nat.eqb_neq _ _) Hne).
    + by destruct begin.
Qed.

Lemma read_step fuel fragment scratch infrag off r t payload r' :
  quiet r' → 1 <= t <= kMaxRecordType →
  ReadPhysicalRecord fragment r = Some (t, payload, r') →
  ∃ off' last, 0 <= off' ∧ 0 <= last ∧ ReadRecord_loop (S fuel) fragment scratch infrag off r =
    if t =? kFullType then
      Some (Some payload, set_last last (if infrag && (0 <? Z.of_nat (length scratch))
        then ReportCorruption (Z.of_nat (length scratch)) (str "partial record without end(1)")
               (set_resyncing false r') else set_resyncing false r'))
    else if t =? kFirstType then
      ReadRecord_loop fuel payload payload true off'
        (if infrag && (0 <? Z.of_nat (length scratch))
         then ReportCorruption (Z.of_nat (length scratch)) (str "partial record without end(2)")
                (set_resyncing false r') else set_resyncing false r')
    else if negb infrag then
      ReadRecord_loop fuel payload scratch infrag off
        (ReportCorruption (Z.of_nat (length payload))
          (if t =? kMiddleType then str "missing start of fragmented record(1)"
           else str "missing start of fragmented record(2)") (set_resyncing false r'))
    else if t =? kMiddleType then
      ReadRecord_loop fuel payload (scratch ++ payload) infrag off (set_resyncing false r')
    else Some (Some (scratch ++ payload), set_last off (set_resyncing false r')).
Proof.
  intros [_ Hres] Ht Hread. cbn [ReadRecord_loop]. rewrite Hread. cbn [mbind option_bind].
  rewrite Hres. cbn [andb]. unfold kMaxRecordType, kLastType in Ht.
  set (poff := u64 _). exists poff, poff.
  split; [apply u64_range|]. split; [apply u64_range|].
  assert (t = 1 ∨ t = 2 ∨ t = 3 ∨ t = 4) as [-> | [-> | [-> | ->]]] by lia;
    destruct infrag; reflexivity.
Qed.

Lemma set_resyncing_false r : resyncing_ r = false → set_resyncing false r = r.
Proof. intros H. destruct r. cbn in *. by rewrite H. Qed.

Lemma at_set_last r o R last : at_ r o R → at_ (set_last last r) o R.
Proof. by intros []. Qed.

(** Reading back the fragments of one record. *)
Lemma read_encode n begin o data r R' fuel fragment scratch off :
  at_ r o ((encode n begin o data).1 ++ R') → quiet r → (o ≤ kBlockSize)%nat →
  enough o data n → (n ≤ fuel)%nat → (begin = true → scratch = []) → 0 <= off →
  ∃ r', ReadRecord_loop fuel fragment scratch (negb begin) off r = Some (Some (scratch ++ data), r') ∧
    at_ r' (encode n begin o data).2 R' ∧ same r r' ∧ ((encode n begin o data).2 ≤ kBlockSize)%nat ∧
    0 <= last_record_offset_ r'.
Proof.
  revert begin o data r fuel fragment scratch off;
    induction n as [|n IH]; intros begin o data r fuel fragment scratch off Hat Hq Ho Hen Hfuel Hbeg Hoff.
  { unfold enough in Hen. destruct (decide _); lia. }
  destruct fuel as [|fuel]; [lia|].
  destruct (encode_S n begin o data Ho Hen) as [Ho1 Hcases].
  set (f := take (frag_len o data) data) in *. set (t := frag_type begin o data) in *.
  set (o1 := (start o + (kHeaderSize + length f))%nat) in *.
  assert (∃ R1, (encode (S n) begin o data).1 ++ R' = pad o ++ physical t f ++ R1 ∧
    (R1 = R' ∨ R1 = (encode n false o1 (drop (frag_len o data) data)).1 ++ R')) as (R1 & HR & _).
  { destruct Hcases as [(_ & _ & -> & _)|(_ & -> & _)]; cbn [fst];
      rewrite <- !app_assoc; eexists; split; [reflexivity|by left|reflexivity|by right]. }
  pose proof (frag_type_range begin o data) as Ht. fold t in Ht.
  rewrite HR in Hat.
  destruct (read_physical r o t f R1 fragment Hat Hq Ht Ho1) as (r1 & Hread & Hat1 & Hsame1).
  pose proof (same_quiet _ _ Hsame1 Hq) as Hq1.
  destruct (read_step fuel fragment scratch (negb begin) off r t f r1 Hq1 Ht Hread) as (off' & last & Hoff' & Hlast & Hstep).
  rewrite (set_resyncing_false r1 (proj2 Hq1)) in Hstep.
  destruct Hcases as [(Hlen & Hfd & Henc & Htype)|(Hen' & Henc & Htype)].
  - rewrite Henc in HR |- *. cbn [fst snd] in *. rewrite <- app_assoc in HR.
    apply app_inv_head, app_inv_head in HR. subst R1. rewrite Htype in Hstep.
    destruct begin; cbn [negb] in *.
    + rewrite (Hbeg eq_refl) in *. cbn [Z.eqb Pos.eqb kFullType kFirstType kMiddleType kLastType negb andb] in Hstep.
      eexists. split; [rewrite Hstep, Hfd; reflexivity|].
      split; [by apply at_set_last|]. by split.
    + cbn [Z.eqb Pos.eqb kFullType kFirstType kMiddleType kLastType negb andb] in Hstep. eexists. split; [rewrite Hstep, Hfd; reflexivity|].
      split; [by apply at_set_last|]. by split.
  - rewrite Henc in HR |- *. cbn [fst snd] in *. rewrite <- !app_assoc in HR.
    apply app_inv_head, app_inv_head in HR. subst R1. rewrite Htype in Hstep.
    assert (data = f ++ drop (frag_len o data) data) as Hdata by (symmetry; apply take_drop).
    destruct begin; cbn [negb] in *.
    + rewrite (Hbeg eq_refl) in *. cbn [Z.eqb Pos.eqb kFullType kFirstType kMiddleType kLastType negb andb] in Hstep. rewrite Hstep.
      destruct (IH false o1 _ r1 fuel f f off' Hat1 Hq1 Ho1 Hen' ltac:(lia) ltac:(done) ltac:(lia))
        as (r' & Hr' & Hat' & Hsame' & Hle' & Hlast').
      exists r'. cbn [app]. rewrite Hdata at 1. split; [exact Hr'|].
      split; [done|]. split; [by etrans|by split].
    + cbn [Z.eqb Pos.eqb kFullType kFirstType kMiddleType kLastType negb andb] in Hstep. rewrite Hstep.
      destruct (IH false o1 _ r1 fuel f (scratch ++ f) off Hat1 Hq1 Ho1 Hen' ltac:(lia) ltac:(done) ltac:(lia))
        as (r' & Hr' & Hat' & Hsame' & Hle' & Hlast').
      exists r'. rewrite Hdata at 1. rewrite app_assoc. split; [exact Hr'|].
      split; [done|]. split; [by etrans|by split].
Qed.

Lemma read_eof fuel fragment scratch infrag off r r' :
  quiet r' → ReadPhysicalRecord fragment r = Some (kEof, fragment, r') →
  ReadRecord_loop (S fuel) fragment scratch infrag off r = Some (None, r').
Proof.
  intros [_ Hres] Hread. cbn [ReadRecord_loop]. rewrite Hread. cbn [mbind option_bind].
  rewrite Hres. cbn [andb]. rewrite set_resyncing_false by done. reflexivity.
Qed.

(** A record whose encoding is cut at the end of the file is not returned, and
    nothing is reported. *)
Lemma read_encode_cut n begin o data r P fuel fragment scratch off :
  at_ r o P → quiet r → (o ≤ kBlockSize)%nat → enough o data n → (n ≤ fuel)%nat →
  (begin = true → scratch = []) → P `prefix_of` (encode n begin o data).1 →
  (length P < length (encode n begin o data).1)%nat →
  ∃ r', ReadRecord_loop fuel fragment scratch (negb begin) off r = Some (None, r') ∧ same r r'.
Proof.
  revert begin o data r P fuel fragment scratch off;
    induction n as [|n IH]; intros begin o data r P fuel fragment scratch off Hat Hq Ho Hen Hfuel Hbeg
      Hpre Hshort.
  { unfold enough in Hen. destruct (decide _); lia. }
  destruct fuel as [|fuel]; [lia|].
  destruct (encode_S n begin o data Ho Hen) as [Ho1 Hcases].
  set (f := take (frag_len o data) data) in *. set (t := frag_type begin o data) in *.
  set (o1 := (start o + (kHeaderSize + length f))%nat) in *.
  pose proof (frag_type_range begin o data) as Ht. fold t in Ht.
  assert (∃ B, (encode (S n) begin o data).1 = (pad o ++ physical t f) ++ B) as [B HB].
  { destruct Hcases as [(_ & _ & -> & _)|(_ & -> & _)]; [|by eexists].
    exists []. cbn [fst]. by rewrite app_nil_r. }
  rewrite HB in Hpre. destruct (prefix_app_cases _ _ _ Hpre) as [Hin Hout].
  rewrite length_app, length_physical in Hin, Hout.
  destruct (Nat.lt_ge_cases (length P) (length (pad o) + (kHeaderSize + length f))) as [Hcut|Hfull].
  { destruct (read_cut r o t f P fragment) as (r' & Hread & Hsame); [done|lia|done|apply Hin; lia|done|].
    exists r'. split; [|done]. apply read_eof; [by eapply same_quiet|done]. }
  destruct (Hout Hfull) as (P1 & -> & Hpre1). rewrite <- app_assoc in Hat.
  destruct (read_physical r o t f P1 fragment Hat Hq Ht Ho1) as (r1 & Hread & Hat1 & Hsame1).
  pose proof (same_quiet _ _ Hsame1 Hq) as Hq1.
  destruct (read_step fuel fragment scratch (negb begin) off r t f r1 Hq1 Ht Hread)
    as (off' & last & _ & _ & Hstep).
  rewrite (set_resyncing_false r1 (proj2 Hq1)) in Hstep.
  destruct Hcases as [(_ & _ & Henc & _)|(Hen' & Henc & Htype)].
  { rewrite Henc in Hshort. cbn [fst] in Hshort. rewrite !length_app in Hshort. lia. }
  rewrite Henc in HB, Hshort. cbn [fst] in HB, Hshort. apply app_inv_head in HB. subst B.
  rewrite Htype in Hstep. rewrite !length_app in Hshort.
  assert (∀ sc off0, ∃ r', ReadRecord_loop fuel f sc true off0 r1 = Some (None, r') ∧ same r r') as Hrec.
  { intros sc off0. destruct (IH false o1 _ r1 P1 fuel f sc off0 Hat1 Hq1 Ho1 Hen' ltac:(lia)
      ltac:(done) Hpre1 ltac:(lia)) as (r' & Hr' & Hs'). exists r'. split; [done|by etrans]. }
  destruct begin; cbn [negb] in *;
    [rewrite (Hbeg eq_refl) in *|];
    cbn [Z.eqb Pos.eqb kFullType kFirstType kMiddleType kLastType negb andb] in Hstep;
    rewrite Hstep; apply Hrec.
Qed.

(** ** Whole logs *)

Definition ready r : Prop := quiet r ∧ 0 <= last_record_offset_ r.

Lemma ReadRecord_ready fuel r :
  ready r → ReadRecord fuel r = ReadRecord_loop fuel [] [] false 0 r.
Proof.
  intros [[Hi _] Hl]. unfold ReadRecord. rewrite Hi. by rewrite (proj2 (Z.ltb_ge _ _)).
Qed.

Lemma enough_record o data : enough o data (length data + 2).
Proof. unfold enough. destruct (decide _); lia. Qed.

(** Reading the next record of a log that ends anywhere: the record, when its
    encoding is complete. *)
Lemma read_log_step records fuel r o P :
  at_ r o P → ready r → (o ≤ kBlockSize)%nat → P `prefix_of` (encode_log o records).1 →
  (0 < fuel)%nat → Forall (λ d, (length d + 2 ≤ fuel)%nat) records →
  (∃ d records' r' P', records = d :: records' ∧ ReadRecord fuel r = Some (Some d, r') ∧ P = (encode_record o d).1 ++ P' ∧
     at_ r' (encode_record o d).2 P' ∧ ready r' ∧ same r r' ∧ ((encode_record o d).2 ≤ kBlockSize)%nat ∧
     P' `prefix_of` (encode_log (encode_record o d).2 records').1) ∨
  (∃ r', ReadRecord fuel r = Some (None, r') ∧ same r r' ∧
     ∀ d records', records = d :: records' → (length P < length (encode_record o d).1)%nat).
Proof.
  intros Hat Hr Ho Hpre Hfuel0 Hfuel. rewrite ReadRecord_ready by done. destruct records as [|d records].
  - right. apply prefix_nil_inv in Hpre as ->. destruct fuel as [|fuel]; [lia|]. pose proof (start_le o Ho).
    destruct (read_cut r o kFullType [] [] [] Hat) as (r' & Hread & Hsame);
      [unfold kFullType, kMaxRecordType, kLastType; lia|cbn [length]; lia|apply prefix_nil|
       cbn [length]; unfold kHeaderSize; lia|].
    exists r'. rewrite (read_eof _ _ _ _ _ _ r'); [|by eapply same_quiet; [|apply Hr]|done]. by split_and!.
  - apply Forall_cons in Hfuel as [Hd Hfuel]. cbn [encode_log] in Hpre. unfold encode_record in *.
    destruct (encode (length d + 2) true o d) as [out o1] eqn:Henc.
    destruct (encode_log o1 records) as [out' o2] eqn:Hlog. cbn [fst] in Hpre.
    destruct (prefix_app_cases _ _ _ Hpre) as [Hin Hout].
    destruct (Nat.lt_ge_cases (length P) (length out)) as [Hcut|Hfull].
    + right. destruct (read_encode_cut (length d + 2) true o d r P fuel [] [] 0 Hat (proj1 Hr) Ho
        (enough_record o d) Hd ltac:(done)) as (r' & Hr' & Hsame);
        [rewrite Henc; apply Hin; cbn; lia|by rewrite Henc|].
      exists r'. split; [done|]. split; [done|]. intros d' l' [= <- <-]. by rewrite Henc.
    + left. destruct (Hout Hfull) as (P1 & -> & Hpre1).
      destruct (read_encode (length d + 2) true o d r P1 fuel [] [] 0) as (r1 & Hr1 & Hat1 & Hsame1 & Ho1 & Hl1);
        [by rewrite Henc|apply Hr|done|apply enough_record|done|done|lia|].
      rewrite Henc in Hat1, Ho1. cbn [snd] in Hat1, Ho1. exists d, records, r1, P1. rewrite Henc. cbn [fst snd]. rewrite Hlog.
      split_and!; try done. split; [eapply same_quiet; [done|apply Hr]|done].
Qed.

(** Reading any prefix [P] of a log: the records whose encoding is inside it. *)
Lemma read_log_prefix records fuel r o P :
  at_ r o P → ready r → (o ≤ kBlockSize)%nat → P `prefix_of` (encode_log o records).1 →
  (0 < fuel)%nat → Forall (λ d, (length d + 2 ≤ fuel)%nat) records →
  ∃ k r', read_all (S (length records)) fuel r = Some (take k records, r') ∧
    reports r' = reports r ∧ (k ≤ length records)%nat ∧
    (length (encode_log o (take k records)).1 ≤ length P)%nat ∧
    (k < length records → length P < length (encode_log o (take (S k) records)).1)%nat.
Proof.
  revert r o P; induction records as [|d records IH]; intros r o P Hat Hr Ho Hpre Hfuel0 Hfuel;
    destruct (read_log_step _ fuel r o P Hat Hr Ho Hpre Hfuel0 Hfuel) as [(d' & l' & r1 & P1 & [= <- <-] & Hr1 & -> & Hat1 & Hrdy & Hsame & Ho1 & Hpre1)|(r' & Hr' & Hsame & Hcut)].
  - exists 0%nat, r'. cbn [read_all length]. rewrite Hr'. cbn. split_and!; [done|apply Hsame|lia..].
  - apply Forall_cons in Hfuel as [_ Hfuel]. destruct (IH r1 _ P1 Hat1 Hrdy Ho1 Hpre1 Hfuel0 Hfuel) as (k & r' & Hall & Hrep & Hk & Hlo & Hhi).
    exists (S k), r'. cbn [length]. remember (S (length records)) as m eqn:Hm. cbn [read_all]. rewrite Hr1. cbn [mbind option_bind]. rewrite Hall.
    cbn [mbind option_bind take encode_log]. destruct (encode_record o d) as [out o1]. cbn [fst snd] in *.
    split_and!; [done|rewrite Hrep; apply Hsame|lia| |].
    + destruct (encode_log o1 (take k records)). cbn [fst] in *. rewrite !length_app. lia.
    + intros Hlt. specialize (Hhi ltac:(lia)). destruct (encode_log o1 (take (S k) records)). cbn [fst] in *. rewrite !length_app. lia.
  - exists 0%nat, r'. cbn [read_all length]. rewrite Hr'. cbn [mbind option_bind]. specialize (Hcut d records eq_refl).
    split_and!; [done|apply Hsame|lia|cbn; lia|]. intros _. cbn [take encode_log]. rewrite take_0. destruct (encode_record o d). cbn [encode_log fst] in *. rewrite length_app. cbn. lia.
Qed.

Lemma at_start f reporter checksum :
  wf f → at_ (Reader_new f reporter checksum 0) kBlockSize (rest f) ∧
         ready (Reader_new f reporter checksum 0).
Proof.
  intros Hwf. split; [|by split].
  split; cbn [file_ buffer_ eof_ Reader_new length app]; [done|done|left]. split; [done|lia].
Qed.

(** ** Totality on arbitrary input *)

Definition unread r : nat := (length (buffer_ r) + length (rest (file_ r)))%nat.

Lemma ReportDrop_fields bytes reason r :
  buffer_ (ReportDrop bytes reason r) = buffer_ r ∧ file_ (ReportDrop bytes reason r) = file_ r ∧
  resyncing_ (ReportDrop bytes reason r) = resyncing_ r.
Proof. unfold ReportDrop. by destruct (_ && _). Qed.

Lemma parse_total fuel result r :
  (kHeaderSize ≤ length (buffer_ r))%nat →
  ∃ t frag r', ReadPhysicalRecord_loop (S fuel) result r = Some (t, frag, r') ∧
    file_ r' = file_ r ∧ (unread r' < unread r)%nat.
Proof.
  intros H7. cbn [ReadPhysicalRecord_loop]. rewrite (proj2 (Nat.ltb_ge _ _)) by done.
  unfold unread, kHeaderSize in *.
  set (len := Z.lor _ _). set (t := u32 _).
  destruct (_ <? _) eqn:Hlen.
  { destruct (negb _); [|eexists _, _, _; split; [done|]; cbn; split; [done|lia]].
    eexists _, _, _. split; [done|]. unfold ReportCorruption.
    destruct (ReportDrop_fields (Z.of_nat (length (buffer_ r))) (Corruption (str "bad record length"))
      (set_buffer [] r)) as (-> & -> & _). cbn. split; [done|lia]. }
  destruct (_ && (len =? 0)).
  { eexists _, _, _. split; [done|]. cbn. split; [done|lia]. }
  destruct (checksum_ r && _).
  { eexists _, _, _. split; [done|]. unfold ReportCorruption.
    destruct (ReportDrop_fields (Z.of_nat (length (buffer_ r))) (Corruption (str "checksum mismatch"))
      (set_buffer [] r)) as (-> & -> & _). cbn. split; [done|lia]. }
  destruct (_ <? initial_offset_ _); eexists _, _, _; (split; [done|]);
    cbn [file_ buffer_ set_buffer]; (split; [done|]); rewrite length_drop; lia.
Qed.

Lemma physical_total result r :
  wf (file_ r) →
  ∃ t frag r', ReadPhysicalRecord result r = Some (t, frag, r') ∧ wf (file_ r') ∧
    (t ≠ kEof → (unread r' < unread r)%nat).
Proof.
  intros Hwf. unfold ReadPhysicalRecord.
  destruct (Nat.lt_ge_cases (length (buffer_ r)) kHeaderSize) as [Hlt|Hge].
  2:{ destruct (parse_total 2 result r Hge) as (t & frag & r' & Heq & Hf & Hlt).
      exists t, frag, r'. by rewrite Hf. }
  cbn [ReadPhysicalRecord_loop]. rewrite (proj2 (Nat.ltb_lt _ _)) by done.
  destruct (eof_ r) eqn:Heof; cbn [negb]; [by eexists _, _, _|].
  destruct (read_ok (file_ r) kBlockSize Hwf) as (f' & -> & Hwf' & Hrest).
  cbn [ok state_ Status_OK negb]. set (buf := take kBlockSize (rest (file_ r))).
  set (r1 := set_read _ _ _ _ _).
  destruct (Nat.lt_ge_cases (length buf) kHeaderSize) as [Hlt1|Hge1].
  - assert (eof_ r1 = true) as He1.
    { unfold r1. cbn. apply Nat.ltb_lt. pose proof kBlockSize_pos. unfold kHeaderSize in *. lia. }
    eexists _, _, _. split.
    { change (buffer_ r1) with buf. rewrite (proj2 (Nat.ltb_lt _ _)) by done. rewrite He1. reflexivity. }
    done.
  - destruct (parse_total 1 result r1 Hge1) as (t & frag & r' & Heq & Hf & Hlt1).
    exists t, frag, r'. split; [exact Heq|]. rewrite Hf. split; [done|]. intros _.
    eapply Nat.lt_le_trans; [exact Hlt1|]. unfold unread, r1, buf. cbn [buffer_ file_ set_read].
    rewrite Hrest, <- length_app, take_drop. lia.
Qed.

Lemma ReadRecord_loop_total fuel fragment scratch infrag off r :
  wf (file_ r) → (unread r < fuel)%nat →
  is_Some (ReadRecord_loop fuel fragment scratch infrag off r).
Proof.
  revert fragment scratch infrag off r; induction fuel as [|fuel IH];
    intros fragment scratch infrag off r Hwf Hm; [lia|].
  destruct (physical_total fragment r Hwf) as (t & frag & r1 & Hread & Hwf1 & Hdec).
  cbn [ReadRecord_loop]. rewrite Hread. cbn [mbind option_bind].
  assert (t ≠ kEof → ∀ r2 fragment scratch infrag off, buffer_ r2 = buffer_ r1 → file_ r2 = file_ r1 →
    is_Some (ReadRecord_loop fuel fragment scratch infrag off r2)) as Hrec.
  { intros Ht r2 ? ? ? ? Hb Hf. apply IH; [by rewrite Hf|]. specialize (Hdec Ht).
    unfold unread in *. rewrite Hb, Hf. lia. }
  assert (∀ bytes reason r0, buffer_ (ReportCorruption bytes reason r0) = buffer_ r0 ∧
    file_ (ReportCorruption bytes reason r0) = file_ r0) as Hrep.
  { intros. unfold ReportCorruption. split; apply ReportDrop_fields. }
  destruct (decide (t = kEof)) as [->|Ht].
  { change (kEof =? kMiddleType) with false. change (kEof =? kLastType) with false.
    rewrite !andb_false_r. by eexists. }
  specialize (Hrec Ht). pose proof (proj2 (Z.eqb_neq t kEof) Ht) as HtE. rewrite HtE.
  repeat case_match; try (by eexists); try done;
    apply Hrec; repeat first [done | etrans; [apply Hrep|]].
Qed.

(** ** What every read keeps: the file is still open, reports are only added *)

Definition later r r' : Prop := (wf (file_ r) → wf (file_ r')) ∧ reports r `prefix_of` reports r'.

Lemma later_refl r r' : file_ r' = file_ r → reports r' = reports r → later r r'.
Proof. intros Hf Hr. split; [by rewrite Hf|by rewrite Hr]. Qed.

Lemma later_trans r1 r2 r3 : later r1 r2 → later r2 r3 → later r1 r3.
Proof. intros [H1 H2] [H3 H4]. split; [tauto|by etrans]. Qed.

Lemma later_drop bytes reason r r' : later r r' → later r (ReportDrop bytes reason r').
Proof. intros H. eapply later_trans; [exact H|]. unfold ReportDrop. destruct (_ && _); [|by apply later_refl]. split; [done|]. cbn. by apply prefix_app_r. Qed.

Lemma physical_later fuel result r t frag r' : wf (file_ r) → ReadPhysicalRecord_loop fuel result r = Some (t, frag, r') → later r r'.
Proof.
  revert r; induction fuel as [|fuel IH]; intros r Hwf; [done|]. cbn [ReadPhysicalRecord_loop].
  destruct (_ <? kHeaderSize)%nat.
  - destruct (negb (eof_ r)); [|intros [= <- <- <-]; by apply later_refl].
    destruct (read_ok (file_ r) kBlockSize Hwf) as (f' & -> & Hwf' & Hrest). cbn [ok state_ Status_OK negb]. intros Hr.
    eapply later_trans; [|by apply IH in Hr]. by split.
  - cbv zeta. repeat case_match; intros [= <- <- <-]; try (by apply later_refl); unfold ReportCorruption; apply later_drop; by apply later_refl.
Qed.

Lemma record_loop_later fuel : ∀ fragment scratch infrag off r res r', wf (file_ r) →
  ReadRecord_loop fuel fragment scratch infrag off r = Some (res, r') → later r r'.
Proof.
  induction fuel as [|fuel IH]; intros fragment scratch infrag off r res r' Hwf; [done|]. cbn [ReadRecord_loop].
  destruct (ReadPhysicalRecord fragment r) as [[[t frag] r1]|] eqn:Hp; [|done]. cbn [mbind option_bind]. apply physical_later in Hp; [|done].
  assert (∀ r2 fragment scratch infrag off, later r1 r2 → ReadRecord_loop fuel fragment scratch infrag off r2 = Some (res, r') → later r r') as Hrec.
  { intros r2 ? ? ? ? Hl Hr. apply later_trans with r2; [by eapply later_trans|]. eapply IH; [|exact Hr]. apply Hl, Hp, Hwf. }
  assert (∀ r2, later r1 r2 → r' = r2 → later r r') as Hend by (intros r2 Hl ->; by eapply later_trans).
  assert (later r1 (set_resyncing false r1)) as Hs by (by apply later_refl).
  cbv zeta. repeat case_match; intros Heq;
    first [eapply Hrec; [|exact Heq] | injection Heq as _ Heq; eapply Hend; [|by symmetry]];
    unfold ReportCorruption; repeat apply later_drop; try done; by apply later_refl.
Qed.

Lemma skip_later r : wf (file_ r) → later r (SkipToInitialBlock r).1.
Proof.
  intros Hwf. unfold SkipToInitialBlock. cbv zeta. set (loc := if 32768 - 6 <? _ then _ else _). cbn [file_ set_read].
  destruct (Z.ltb_spec 0 loc) as [Hpos|]; [|by apply later_refl].
  destruct (skip_ok (file_ r) loc Hwf ltac:(lia)) as (f' & -> & Hwf' & _). cbn. by split.
Qed.

Lemma ReadRecord_later fuel r res r' : wf (file_ r) → ReadRecord fuel r = Some (res, r') → later r r'.
Proof.
  intros Hwf. unfold ReadRecord. destruct (_ <? _).
  - pose proof (skip_later r Hwf) as Hs. destruct (SkipToInitialBlock r) as [r1 go]. cbn in Hs. destruct go; [|by intros [= _ <-]].
    intros Hr%record_loop_later; [by eapply later_trans|]. by apply Hs.
  - by apply record_loop_later.
Qed.

(** The records the reader returns, one call at a time. *)
Inductive reads_records (fuel : nat) : Reader F → list (list byte) → Reader F → Prop :=
  | reads_end r r' : ReadRecord fuel r = Some (None, r') → reads_records fuel r [] r'
  | reads_record r d r1 ds r' : ReadRecord fuel r = Some (Some d, r1) → reads_records fuel r1 ds r' → reads_records fuel r (d :: ds) r'.

Lemma read_all_reads n fuel : ∀ r ds r', read_all n fuel r = Some (ds, r') → reads_records fuel r ds r'.
Proof.
  induction n as [|n IH]; intros r ds r'; [done|]. cbn [read_all]. destruct (ReadRecord fuel r) as [[[d|] r1]|] eqn:E; cbn [mbind option_bind]; [| |done].
  - destruct (read_all n fuel r1) as [[ds' r2]|] eqn:E2; cbn; [|done]. intros [= <- <-]. econstructor; [done|by apply IH].
  - intros [= <- <-]. by constructor.
Qed.

Lemma reads_later fuel r ds r' : reads_records fuel r ds r' → wf (file_ r) → later r r'.
Proof.
  induction 1 as [r r' Hr|r d r1 ds r' Hr _ IH]; intros Hwf; [by eapply ReadRecord_later|].
  pose proof (ReadRecord_later _ _ _ _ Hwf Hr) as H1. eapply later_trans; [done|]. apply IH. by apply H1.
Qed.
End reader_spec.

(** ** Writing whole logs *)

Fixpoint write_all {W} `{WritableFile W} (records : list (list byte)) (w : Writer W)
    : option (Writer W * Status) :=
  match records with
  | [] => Some (w, Status_OK)
  | d :: records =>
      '(w, s) ← AddRecord d w;
      if ok s then write_all records w else Some (w, s)
  end.

Section log_laws.
Context {W : Type} `{!WritableFile W} {wwf : W → Prop} {content : W → list byte}
  `{!WritableFileLaws W wwf content}.
Context {F : Type} `{!SequentialFile F} {wf : F → Prop} {rest : F → list byte}
  `{!SequentialFileLaws F wf rest}.

Lemma write_all_spec records (w : Writer W) o :
  writer_ok (wf := wwf) w o →
  ∃ w', write_all records w = Some (w', Status_OK) ∧
    writer_ok (wf := wwf) w' (encode_log o records).2 ∧
    content (dest_ w') = content (dest_ w) ++ (encode_log o records).1.
Proof.
  revert w o; induction records as [|d records IH]; intros w o Hw.
  { exists w. by rewrite app_nil_r. }
  cbn [write_all encode_log].
  destruct (AddRecord_spec (content := content) d w o Hw) as (w1 & -> & Hw1 & Hc1).
  cbn [mbind option_bind ok state_ Status_OK].
  destruct (encode_record o d) as [out o1]. cbn [fst snd] in *.
  destruct (IH w1 o1 Hw1) as (w2 & -> & Hw2 & Hc2).
  destruct (encode_log o1 records) as [out' o2]. cbn [fst snd] in *.
  exists w2. split_and!; [done..|]. by rewrite Hc2, Hc1, <- app_assoc.
Qed.
End log_laws.

(** Offset 0 and the end of a block are the same place. *)
Lemma encode_log_boundary records : (encode_log kBlockSize records).1 = (encode_log 0 records).1.
Proof.
  destruct records as [|d records]; [done|]. cbn [encode_log].
  replace (encode_record kBlockSize d) with (encode_record 0 d); [done|].
  unfold encode_record. rewrite Nat.add_comm. cbn [Nat.add encode].
  pose proof kBlockSize_pos.
  destruct (pad_eq kBlockSize) as [Hp Hs]; [rewrite Nat.sub_diag; unfold kHeaderSize; lia|].
  destruct (pad_nil 0) as [Hp0 Hs0]; [rewrite Nat.sub_0_r; unfold kHeaderSize; lia|].
  rewrite Nat.sub_diag in Hp. unfold frag_type, frag_len, room. by rewrite Hp, Hs, Hp0, Hs0.
Qed.

Lemma encode_log_take o records k :
  (length (encode_log o (take k records)).1 ≤ length (encode_log o records).1)%nat.
Proof.
  revert o k; induction records as [|d records IH]; intros o [|k]; cbn [take encode_log]; [done..| |].
  - destruct (encode_record o d), (encode_log _ records). cbn. lia.
  - destruct (encode_record o d) as [out o1]. specialize (IH o1 k).
    destruct (encode_log o1 (take k records)), (encode_log o1 records). cbn [fst] in *.
    rewrite !length_app. lia.
Qed.

(** [P] is a prefix of the log of [records ++ more] that ends after [records] and
    before the first record of [more] does. *)
Definition cut_after (records more : list (list byte)) (P : list byte) : Prop :=
  P `prefix_of` (encode_log 0 (records ++ more)).1 ∧ (length (encode_log 0 records).1 ≤ length P)%nat ∧
  ∀ d l, more = d :: l → (length P < length (encode_log 0 (records ++ [d])).1)%nat.

(** The complete records of a log that ends anywhere read back. *)
Lemma read_cut_log {F} `{!SequentialFile F} {wf rest} `{!SequentialFileLaws F wf rest} (file : F) records more fuel reporter checksum :
  wf file → cut_after records more (rest file) → (0 < fuel)%nat → Forall (λ d, (length d + 2 ≤ fuel)%nat) (records ++ more) →
  ∃ r, reads_records fuel (Reader_new file reporter checksum 0) records r ∧ reports r = [].
Proof.
  intros Hf (Hpre & Hge & Hlt) Hfuel0 Hfuel. destruct (at_start (rest := rest) file reporter checksum Hf) as [Hat Hready].
  destruct (read_log_prefix (records ++ more) fuel _ kBlockSize _ Hat Hready ltac:(done)) as (k & r & Hr & Hrep & Hk & Hlo & Hhi); [by rewrite encode_log_boundary|done|done|].
  exists r. split; [|done]. apply read_all_reads in Hr. rewrite !encode_log_boundary in Hlo, Hhi. rewrite length_app in Hk, Hhi.
  destruct (Nat.lt_trichotomy k (length records)) as [Hlt'|[->|Hgt]]; [|by rewrite take_app_length in Hr|]; exfalso.
  - specialize (Hhi ltac:(lia)). rewrite take_app_le in Hhi by lia. pose proof (encode_log_take 0 records (S k)). lia.
  - destruct more as [|d more]; [cbn in Hk; lia|]. specialize (Hlt d more eq_refl). pose proof (encode_log_take 0 (take k (records ++ d :: more)) (length records + 1)) as Ht.
    rewrite take_take, Nat.min_l, take_app_add in Ht by lia. cbn [take] in Ht. rewrite take_0 in Ht. lia.
Qed.

(** ** Claims *)

(** C19: logs survive a crash of the writer.  Write any records with
    [AddRecord] to an empty file, through any file that appends what it is
    given; cut the file anywhere; read the rest with a reader from offset 0.
    Every call returns, the records read are exactly the records whose bytes
    were completely written, in order, and no corruption is reported.  In
    particular the uncut log reads back all records. *)
Theorem log_prefix_recovery {W F} `{!WritableFile W} {wwf content} `{!WritableFileLaws W wwf content}
    `{!SequentialFile F} {wf rest} `{!SequentialFileLaws F wf rest}
    (dest : W) (file : F) records fuel reporter checksum :
  wwf dest → content dest = [] → wf file → (0 < fuel)%nat →
  Forall (λ d, (length d + 2 ≤ fuel)%nat) records →
  ∃ w, write_all records (Writer_new dest) = Some (w, Status_OK) ∧
    (rest file `prefix_of` content (dest_ w) →
     ∃ k r, read_all (S (length records)) fuel (Reader_new file reporter checksum 0)
              = Some (take k records, r) ∧
       reports r = [] ∧ (k ≤ length records)%nat ∧
       (length (encode_log 0 (take k records)).1 ≤ length (rest file))%nat ∧
       (k < length records →
        length (rest file) < length (encode_log 0 (take (S k) records)).1)%nat ∧
       (rest file = content (dest_ w) → k = length records)).
Proof.
  intros Hd Hc Hf Hfuel0 Hfuel.
  destruct (write_all_spec (content := content) records (Writer_new dest) 0) as (w & Hw & _ & Hcw).
  { split_and!; [done..|lia]. }
  exists w. split; [done|]. cbn [dest_ Writer_new] in Hcw. rewrite Hc in Hcw. cbn [app] in Hcw.
  rewrite Hcw. intros Hpre.
  destruct (at_start (rest := rest) file reporter checksum Hf) as [Hat Hready].
  rewrite <- encode_log_boundary in Hpre.
  destruct (read_log_prefix records fuel _ kBlockSize _ Hat Hready ltac:(done) Hpre Hfuel0 Hfuel)
    as (k & r & Hr & Hrep & Hk & Hlo & Hhi).
  rewrite !encode_log_boundary in Hlo, Hhi.
  exists k, r. split_and!; [done..|]. intros Heq.
  destruct (Nat.lt_ge_cases k (length records)) as [Hlt|]; [|lia].
  specialize (Hhi Hlt). rewrite Heq in Hhi. pose proof (encode_log_take 0 records (S k)). lia.
Qed.

Definition example_records : list (list byte) := [str "put a"; []; str "delete b"].

(** The example log in an in-memory file. *)
Definition example_log : FileState :=
  match write_all example_records (Writer_new FileState_new) with
  | Some (w, _) => dest_ w
  | None => FileState_new
  end.

Lemma example_log_ok :
  ∃ w, write_all example_records (Writer_new FileState_new) = Some (w, Status_OK) ∧
    dest_ w = example_log ∧ fs_ok example_log.
Proof.
  destruct (write_all_spec (content := content) example_records (Writer_new FileState_new) 0)
    as (w & Hw & (Hwf & _) & _).
  { split_and!; [apply fs_ok_new|done..|lia]. }
  exists w. unfold example_log. by rewrite Hw.
Qed.

Lemma log_prefix_recovery_witness :
  ∃ r, read_all 4 10 (Reader_new {| MemEnv.file_ := example_log; pos_ := 0 |} true true 0)
    = Some (example_records, r) ∧ reports r = [].
Proof.
  destruct example_log_ok as (w0 & Hw0 & Hd0 & Hok).
  set (file := {| MemEnv.file_ := example_log; pos_ := 0 |}).
  destruct (log_prefix_recovery (content := content) FileState_new file example_records 10 true true)
    as (w & Hw & Hread).
  - apply fs_ok_new.
  - reflexivity.
  - split; [exact Hok|apply Nat.le_0_l].
  - lia.
  - repeat constructor.
  - rewrite Hw0 in Hw. injection Hw as <-.
    assert (seq_rest file = content (dest_ w0)) as Hrest by (by rewrite Hd0).
    destruct Hread as (k & r & Hr & Hrep & _ & _ & _ & Hk); [by rewrite Hrest|].
    exists r. rewrite (Hk Hrest) in Hr. split; [exact Hr|exact Hrep].
Defined.

(** How a physical record of type [t] is damaged: its checksum is changed in any
    way, or its type and payload are changed inside one window of at most four
    bytes.  The length stays. *)
Definition damaged (t : Z) (payload : list byte) (field body : list byte) : Prop :=
  (length field = 4%nat ∧ field ≠ take 4 (physical t payload) ∧ body = b8 t :: payload) ∨
  (field = take 4 (physical t payload) ∧
   ∃ pre w w' post, b8 t :: payload = pre ++ w ++ post ∧ length w = length w' ∧ (length w ≤ 4)%nat ∧ w ≠ w' ∧ body = pre ++ w' ++ post).

(** The checksum of a damaged record does not fit. *)
Lemma damaged_checksum t payload field body : 1 <= t <= kMaxRecordType → damaged t payload field body →
  ∃ masked c payload', field = EncodeFixed32 masked ∧ 0 <= masked < 2 ^ 32 ∧ body = c :: payload' ∧ length payload' = length payload ∧
    Value 0 body ≠ Unmask masked.
Proof.
  intros Ht Hd. set (crc := Value 0 (b8 t :: payload)).
  assert (0 <= crc < 2 ^ 32) as Hcrc.
  { unfold crc, Value. rewrite Extend_bits by lia. apply crc32c_range. lia. }
  assert (take 4 (physical t payload) = EncodeFixed32 (Mask crc)) as Htake by (rewrite physical_bytes by lia; reflexivity).
  destruct Hd as [(H4 & Hne & ->)|(-> & pre & w & w' & post & Hsplit & Hw & H4 & Hne & ->)].
  - assert (field = EncodeFixed32 (le_val field)) as Hf by (rewrite EncodeFixed32_le, <- H4; symmetry; apply le_bytes_val).
    assert (0 <= le_val field < 2 ^ 32) as Hr by (pose proof (le_val_range field) as Hr; rewrite H4 in Hr; exact Hr).
    exists (le_val field), (b8 t), payload. split_and!; [done|lia|lia|done|done|]. fold crc. intros Heq. apply Hne. rewrite Htake, Heq, Mask_Unmask by done. done.
  - exists (Mask crc). pose proof (f_equal length Hsplit) as Hl. rewrite !length_app in Hl. cbn [length] in Hl.
    destruct (pre ++ w' ++ post) as [|c payload'] eqn:He; [apply (f_equal length) in He; rewrite !length_app in He; cbn in He; lia|].
    exists c, payload'. split_and!; [done|apply Mask_range..|done| |].
    + apply (f_equal length) in He. rewrite !length_app in He. cbn in He. lia.
    + rewrite Unmask_Mask by done. unfold crc, Value. rewrite !Extend_bits, Hsplit, <- He by lia. intros Heq. by apply Hne, (crc32c_window 0 pre w w' post).
Qed.

(** C24: the reader never returns a record that a short burst corrupted.  When a
    record that was written has its checksum changed in any way, or its type byte
    and payload changed inside one window of at most four bytes, and the record is
    next in the buffer of a reader that verifies checksums, the reader rejects it
    and drops the rest of its block. *)
Theorem log_corruption_detected {F} `{!SequentialFile F} (r : Reader F) t payload field body tail result :
  checksum_ r = true → 1 <= t <= kMaxRecordType → Z.of_nat (length payload) < 65536 → damaged t payload field body →
  buffer_ r = field ++ take 2 (drop 4 (physical t payload)) ++ body ++ tail →
  ∃ r', ReadPhysicalRecord result r = Some (kBadRecord, result, r') ∧ buffer_ r' = [].
Proof.
  intros Hck Ht Hlen Hd Hbuf. destruct (damaged_checksum t payload field body Ht Hd) as (masked & c & payload' & -> & Hm & -> & Hlen' & Hdiff).
  assert (take 2 (drop 4 (physical t payload)) = [b8 (Z.land (Z.of_nat (length payload')) 255); b8 (Z.of_nat (length payload') ≫ 8)]) as Htake.
  { rewrite Hlen', physical_bytes by lia. reflexivity. }
  rewrite Htake in Hbuf. rewrite <- Hlen' in Hlen. destruct (decode_header masked c payload' tail Hm Hlen) as (H1 & H2 & H3 & H4' & H5 & H6 & H7).
  cbn [app] in *. unfold ReadPhysicalRecord. cbn [ReadPhysicalRecord_loop].
  rewrite !Hbuf, H1, H2, H3, H4'. cbn [default from_option id].
  rewrite (proj2 (Nat.ltb_ge _ _)) by lia. rewrite (proj2 (Z.ltb_ge _ _)) by lia.
  destruct (_ && (Z.of_nat (length payload') =? 0)); [by eexists|].
  rewrite Nat2Z.id, H5, Hck, (proj2 (Z.eqb_neq _ _) Hdiff). cbn [andb negb]. eexists. split; [reflexivity|].
  unfold ReportCorruption, ReportDrop. by destruct (_ && _).
Qed.

Lemma log_corruption_detected_witness :
  let buf := take 4 (physical kFullType (str "abc")) ++ take 2 (drop 4 (physical kFullType (str "abc"))) ++ ([x01; x61] ++ [x00] ++ [x63]) ++ [] in
  ∃ r', ReadPhysicalRecord []
    (set_buffer buf (Reader_new {| MemEnv.file_ := FileState_new; pos_ := 0 |} true true 0))
    = Some (kBadRecord, [], r') ∧ buffer_ r' = [].
Proof.
  intros buf.
  apply (log_corruption_detected
    (set_buffer buf (Reader_new {| MemEnv.file_ := FileState_new; pos_ := 0 |} true true 0))
    kFullType (str "abc") (take 4 (physical kFullType (str "abc"))) ([x01; x61] ++ [x00] ++ [x63]) []);
    [reflexivity|by vm_compute|reflexivity| |reflexivity].
  right. split; [reflexivity|]. exists [x01; x61], [x62], [x00], [x63]. split; [reflexivity|]. split; [reflexivity|]. split; [cbn; lia|]. split; [discriminate|reflexivity].
Defined.

(** reading terminates on every input.  Whatever bytes the file holds,
    [ReadRecord] returns within one physical record per unread byte. *)
Theorem log_reader_total {F} `{!SequentialFile F} {wf rest} `{!SequentialFileLaws F wf rest}
    (file : F) reporter checksum :
  wf file →
  is_Some (ReadRecord (S (length (rest file))) (Reader_new file reporter checksum 0)).
Proof.
  intros Hwf. destruct (at_start (rest := rest) file reporter checksum Hwf) as [_ Hready].
  rewrite ReadRecord_ready by done.
  apply (ReadRecord_loop_total (wf := wf) (rest := rest)); [done|]. cbn. lia.
Qed.

Lemma log_reader_total_witness :
  is_Some (ReadRecord (S (length (seq_rest {| MemEnv.file_ := FileState_new; pos_ := 0 |})))
    (Reader_new {| MemEnv.file_ := FileState_new; pos_ := 0 |} true true 0)).
Proof.
  apply (log_reader_total (rest := seq_rest) {| MemEnv.file_ := FileState_new; pos_ := 0 |}).
  split; [apply fs_ok_new|apply Nat.le_0_l].
Defined.
