(* ===== verification/Random.v ===== *)
(** The Lehmer generator of util/random.h. *)
From S2P Require Import Prelude.

Record Random := { seed_ : Z }.

Definition Random_new (s : Z) : Random :=
  let seed := Z.land s 0x7fffffff in
  {| seed_ := if (seed =? 0) || (seed =? 2147483647) then 1 else seed |}.

Definition random_M : Z := 2147483647.
Definition random_A : Z := 16807.

Definition Random_Next (r : Random) : Random * Z :=
  let product := u64 (seed_ r * random_A) in
  let seed := u32 ((product ≫ 31) + Z.land product random_M) in
  let seed := if random_M <? seed then seed - random_M else seed in
  ({| seed_ := seed |}, seed).

Definition Uniform (n : Z) (r : Random) : Random * Z :=
  let '(r, v) := Random_Next r in (r, v mod n).

Definition OneIn (n : Z) (r : Random) : Random * bool :=
  let '(r, v) := Random_Next r in (r, v mod n =? 0).

Definition Skewed (max_log : Z) (r : Random) : Random * Z :=
  let '(r, b) := Uniform (max_log + 1) r in Uniform (1 ≪ b) r.

(** ** Seeds *)

Definition seed_ok (r : Random) : Prop := 1 <= seed_ r < random_M.

Lemma Random_new_ok s : seed_ok (Random_new s).
Proof.
  unfold seed_ok, Random_new, random_M. cbn [seed_]. change 0x7fffffff with (2 ^ 31 - 1).
  rewrite land_ones_mod by lia. pose proof (Z.mod_pos_bound s (2 ^ 31) ltac:(lia)).
  destruct (Z.eqb_spec (s mod 2 ^ 31) 0), (Z.eqb_spec (s mod 2 ^ 31) (2 ^ 31 - 1)); cbn [orb]; lia.
Qed.

Lemma Next_value r :
  seed_ok r →
  let '(r', v) := Random_Next r in v = (seed_ r * random_A) mod random_M ∧ seed_ r' = v ∧ 1 <= v < random_M.
Proof.
  intros Hs. unfold seed_ok in Hs. unfold Random_Next. cbn [seed_]. set (p := seed_ r * random_A).
  assert (1 <= p < 2147483647 * 16807) as Hp by (unfold p, random_A, random_M in *; lia).
  rewrite u64_small by lia. rewrite Z.shiftr_div_pow2 by lia.
  change random_M with (2 ^ 31 - 1). rewrite land_ones_mod by lia.
  pose proof (Z.div_mod p (2 ^ 31) ltac:(lia)) as Hdm.
  pose proof (Z.mod_pos_bound p (2 ^ 31) ltac:(lia)) as Hmod.
  set (q := p / 2 ^ 31) in *. set (t := p mod 2 ^ 31) in *.
  assert (0 <= q < 16807) by lia. rewrite u32_small by lia.
  assert (¬ (2 ^ 31 - 1 | p)) as Hndiv.
  { unfold p. rewrite Z.mul_comm. intros Hdiv. apply Z.gauss in Hdiv; [|reflexivity].
    apply Z.divide_pos_le in Hdiv; unfold random_M in *; lia. }
  assert (p mod (2 ^ 31 - 1) ≠ 0) as Hnz by (by rewrite Z.mod_divide by lia).
  pose proof (Z.mod_pos_bound p (2 ^ 31 - 1) ltac:(lia)).
  assert (p = (2 ^ 31 - 1) * q + (q + t)) as Heq by lia.
  assert ((if 2 ^ 31 - 1 <? q + t then q + t - (2 ^ 31 - 1) else q + t) = p mod (2 ^ 31 - 1)) as ->.
  { destruct (Z.ltb_spec (2 ^ 31 - 1) (q + t)) as [Hlt|Hle].
    - apply Z.mod_unique with (q + 1); lia.
    - destruct (decide (q + t = 2 ^ 31 - 1)) as [Hm|Hne].
      + exfalso. apply Hndiv. exists (q + 1). lia.
      + apply Z.mod_unique with q; lia. }
  split_and!; lia.
Qed.


(** Draws of a multiple of [2^k], for k = 21, never come twice in a row. *)
Lemma Uniform_progress r :
  seed_ok r →
  let '(r1, v1) := Uniform 2097152 r in
  let '(r2, v2) := Uniform 2097152 r1 in
  seed_ok r1 ∧ seed_ok r2 ∧ 0 <= v1 ∧ 0 <= v2 ∧ 1 <= v1 + v2.
Proof.
  intros Hr. unfold Uniform. pose proof (Next_value r Hr) as H1. destruct (Random_Next r) as [r1 v1].
  destruct H1 as (_ & Hs1 & Hv1). assert (seed_ok r1) as Hr1 by (unfold seed_ok; lia).
  pose proof (Next_value r1 Hr1) as H2. destruct (Random_Next r1) as [r2 v2].
  destruct H2 as (Hv2 & Hs2 & Hr2). rewrite Hs1 in Hv2.
  pose proof (Z.mod_pos_bound v1 2097152 ltac:(lia)). pose proof (Z.mod_pos_bound v2 2097152 ltac:(lia)).
  split_and!; [done|unfold seed_ok; lia|lia|lia|].
  destruct (decide (v1 mod 2097152 = 0)) as [Hz|]; [|lia].
  assert (v2 mod 2097152 ≠ 0); [|lia].
  unfold random_A, random_M in *. pose proof (Z.div_mod v1 2097152 ltac:(lia)) as Hd. rewrite Hz in Hd.
  set (k := v1 / 2097152) in *. assert (1 <= k < 1024) as Hk by lia.
  (* v1 * A = (q * 1024 + c) * 2^21 = q * 2^31 + c * 2^21, which is q + c * 2^21 modulo 2^31 - 1 *)
  pose proof (Z.div_mod (k * 16807) 1024 ltac:(lia)) as Hq. pose proof (Z.mod_pos_bound (k * 16807) 1024 ltac:(lia)).
  set (q := k * 16807 / 1024) in *. set (c := (k * 16807) mod 1024) in *.
  assert (1 <= q < 2097152) by lia.
  assert (v2 = q + c * 2097152) as ->.
  { rewrite Hv2. symmetry. apply Z.mod_unique with q; [lia|]. rewrite Hd. lia. }
  rewrite Z.mod_add, Z.mod_small by lia. lia.
Qed.

(** ** Claims *)

(** the generator never degenerates.  From a seed in [1, M-1] the shift and
    mask reduction computes exactly seed * A mod M, without overflow, and the
    result is again in [1, M-1]; the constructor yields such a seed. *)
Theorem Random_Next_mod r s :
  1 <= seed_ r < random_M →
  let '(r', v) := Random_Next r in
  v = (seed_ r * random_A) mod random_M ∧ seed_ r' = v ∧ 1 <= v < random_M ∧
  1 <= seed_ (Random_new s) < random_M.
Proof.
  intros Hs. pose proof (Next_value r Hs) as H. pose proof (Random_new_ok s).
  destruct (Random_Next r). unfold seed_ok in *. tauto.
Qed.

Lemma Random_Next_mod_witness :
  let '(r', v) := Random_Next (Random_new 0xdeadbeef) in
  v = (seed_ (Random_new 0xdeadbeef) * random_A) mod random_M ∧ seed_ r' = v ∧ 1 <= v < random_M ∧
  1 <= seed_ (Random_new 0) < random_M.
Proof. apply (Random_Next_mod (Random_new 0xdeadbeef) 0). split; reflexivity || (vm_compute; congruence). Defined.
