(* ===== verification/SkipList.v ===== *)
(** The skip list of db/skiplist.h: nodes in a store, links as addresses, and
    the refinement of a sorted sequence of keys. *)
From stdpp Require Import sorting.
From S2P Require Import Prelude Random.

Definition kMaxHeight : nat := 12.
Definition kBranching : Z := 4.

(** A link is uninitialised ([None]), null ([Some None]) or an address.  The
    head has no key. *)
Record Node (K : Type) := { node_key : option K; next_ : list (option (option nat)) }.
Arguments node_key {K} _.
Arguments next_ {K} _.

Record SkipList (K : Type) := {
  nodes : list (Node K);
  max_height_ : nat;
  rnd_ : Random;
}.
Arguments nodes {K} _.
Arguments max_height_ {K} _.
Arguments rnd_ {K} _.

Definition head_ : nat := 0.

Section skiplist.
Context {K : Type} (compare_ : K → K → Z).
Implicit Types sl : SkipList K.

Definition SkipList_new : SkipList K :=
  {| nodes := [{| node_key := None; next_ := replicate kMaxHeight (Some None) |}];
     max_height_ := 1; rnd_ := Random_new 0xdeadbeef |}.

(** [x->Next(n)]: undefined on an address, level or link that does not exist. *)
Definition Next sl (x n : nat) : option (option nat) :=
  nd ← nodes sl !! x; mjoin (next_ nd !! n).

Definition SetNext (x n : nat) (v : option nat) sl : SkipList K :=
  {| nodes := alter (λ nd, {| node_key := node_key nd; next_ := <[n := Some v]> (next_ nd) |}) x (nodes sl);
     max_height_ := max_height_ sl; rnd_ := rnd_ sl |}.

Definition key_of sl (x : nat) : option K := nd ← nodes sl !! x; node_key nd.

Definition Equal (a b : K) : bool := compare_ a b =? 0.

Definition KeyIsAfterNode sl (key : K) (n : option nat) : option bool :=
  match n with
  | None => Some false
  | Some i => k ← key_of sl i; Some (compare_ k key <? 0)
  end.

(** [prev] is the caller's array (its entries start uninitialised); callers that
    pass a null [prev] ignore the result's second component. *)
Fixpoint FindGreaterOrEqual_loop (fuel : nat) sl (key : K) (prev : list (option nat)) (x level : nat)
    : option (option nat * list (option nat)) :=
  match fuel with
  | O => None
  | S fuel =>
      next ← Next sl x level;
      after ← KeyIsAfterNode sl key next;
      if after : bool
      then y ← next; FindGreaterOrEqual_loop fuel sl key prev y level
      else let prev := <[level := Some x]> prev in
           match level with
           | O => Some (next, prev)
           | S level => FindGreaterOrEqual_loop fuel sl key prev x level
           end
  end.

(** Each round moves along the list or down a level. *)
Definition search_fuel sl : nat := length (nodes sl) + max_height_ sl.

Definition FindGreaterOrEqual sl (key : K) (prev : list (option nat))
    : option (option nat * list (option nat)) :=
  FindGreaterOrEqual_loop (search_fuel sl) sl key prev head_ (max_height_ sl - 1).

Fixpoint FindLessThan_loop (fuel : nat) sl (key : K) (x level : nat) : option nat :=
  match fuel with
  | O => None
  | S fuel =>
      next ← Next sl x level;
      stop ← (match next with
              | None => Some true
              | Some y => k ← key_of sl y; Some (0 <=? compare_ k key)
              end);
      if stop : bool
      then match level with O => Some x | S level => FindLessThan_loop fuel sl key x level end
      else y ← next; FindLessThan_loop fuel sl key y level
  end.

Definition FindLessThan sl (key : K) : option nat :=
  FindLessThan_loop (search_fuel sl) sl key head_ (max_height_ sl - 1).

Fixpoint FindLast_loop (fuel : nat) sl (x level : nat) : option nat :=
  match fuel with
  | O => None
  | S fuel =>
      next ← Next sl x level;
      match next with
      | None => match level with O => Some x | S level => FindLast_loop fuel sl x level end
      | Some y => FindLast_loop fuel sl y level
      end
  end.

Definition FindLast sl : option nat :=
  FindLast_loop (search_fuel sl) sl head_ (max_height_ sl - 1).

Fixpoint RandomHeight_loop (fuel : nat) (height : nat) (rnd : Random) : nat * Random :=
  match fuel with
  | O => (height, rnd)
  | S fuel =>
      if (height <? kMaxHeight)%nat
      then let '(rnd, one) := OneIn kBranching rnd in
           if one then RandomHeight_loop fuel (S height) rnd else (height, rnd)
      else (height, rnd)
  end.

Definition RandomHeight (rnd : Random) : nat * Random := RandomHeight_loop kMaxHeight 1 rnd.

(** [NewNode]: the links of the new node are not initialised. *)
Definition NewNode (key : K) (height : nat) sl : SkipList K :=
  {| nodes := nodes sl ++ [{| node_key := Some key; next_ := replicate height None |}];
     max_height_ := max_height_ sl; rnd_ := rnd_ sl |}.

(** One round of the linking loop of [Insert]. *)
Definition link (prev : list (option nat)) (x i : nat) sl : option (SkipList K) :=
  p ← mjoin (prev !! i);
  nx ← Next sl p i;
  Some (SetNext p i (Some x) (SetNext x i nx sl)).

Fixpoint link_loop (n : nat) (prev : list (option nat)) (x i : nat) sl : option (SkipList K) :=
  match n with
  | O => Some sl
  | S n => sl ← link prev x i sl; link_loop n prev x (S i) sl
  end.

Definition fill_prev (prev : list (option nat)) (from height : nat) : list (option nat) :=
  take from prev ++ replicate (height - from) (Some head_) ++ drop height prev.

Definition Insert (key : K) sl : option (SkipList K) :=
  '(_, prev) ← FindGreaterOrEqual sl key (replicate kMaxHeight None);
  let '(height, rnd) := RandomHeight (rnd_ sl) in
  let prev := if (max_height_ sl <? height)%nat then fill_prev prev (max_height_ sl) height else prev in
  let sl := {| nodes := nodes sl; max_height_ := Nat.max (max_height_ sl) height; rnd_ := rnd |} in
  let x := length (nodes sl) in
  link_loop height prev x 0 (NewNode key height sl).

Definition Contains sl (key : K) : option bool :=
  '(x, _) ← FindGreaterOrEqual sl key [];
  match x with
  | Some i => k ← key_of sl i; Some (Equal key k)
  | None => Some false
  end.

(** ** Iterators: the node they are at *)

Definition Iter_Valid (node : option nat) : bool := match node with Some _ => true | None => false end.
Definition Iter_key sl (node : option nat) : option K := i ← node; key_of sl i.
Definition Iter_Next sl (node : option nat) : option (option nat) := i ← node; Next sl i 0.
Definition Iter_Prev sl (node : option nat) : option (option nat) :=
  i ← node; k ← key_of sl i;
  n ← FindLessThan sl k;
  Some (if (n =? head_)%nat then None else Some n).
Definition Iter_Seek sl (target : K) : option (option nat) :=
  fst <$> FindGreaterOrEqual sl target [].
Definition Iter_SeekToFirst sl : option (option nat) := Next sl head_ 0.
Definition Iter_SeekToLast sl : option (option nat) :=
  n ← FindLast sl; Some (if (n =? head_)%nat then None else Some n).

(** ** Invariant *)

Definition height sl (x : nat) : nat := from_option (λ nd, length (next_ nd)) 0%nat (nodes sl !! x).

Definition tall sl (l x : nat) : Prop := (l < height sl x)%nat.
#[export] Instance tall_dec sl l x : Decision (tall sl l x).
Proof. unfold tall. apply _. Defined.

Definition key_lt sl (x y : nat) : Prop :=
  ∃ kx ky, key_of sl x = Some kx ∧ key_of sl y = Some ky ∧ compare_ kx ky < 0.

(** Links along [M], ending in null. *)
Fixpoint chain (next : nat → option (option nat)) (M : list nat) : Prop :=
  match M with
  | [] => True
  | x :: M => next x = Some (head M) ∧ chain next M
  end.

(** [L] lists the nodes in order.  The links of level [l] go through the nodes
    that reach level [l], in the order of [L]. *)
Record inv sl (L : list nat) : Prop := {
  inv_nodup : NoDup (head_ :: L);
  inv_length : length (nodes sl) = S (length L);
  inv_dom x : x ∈ head_ :: L → (x < length (nodes sl))%nat;
  inv_head : height sl head_ = kMaxHeight;
  inv_key x : x ∈ L → is_Some (key_of sl x);
  inv_height x : x ∈ L → (1 ≤ height sl x ≤ max_height_ sl)%nat;
  inv_max : (1 ≤ max_height_ sl ≤ kMaxHeight)%nat;
  inv_chain l : chain (λ x, Next sl x l) (filter (tall sl l) (head_ :: L));
  inv_sorted : StronglySorted (key_lt sl) L;
}.

Lemma inv_new : inv SkipList_new [].
Proof.
  split; try done.
  - by apply NoDup_singleton.
  - intros x ->%list_elem_of_singleton. cbn. unfold head_. lia.
  - by intros x ?%not_elem_of_nil.
  - by intros x ?%not_elem_of_nil.
  - cbn. unfold kMaxHeight. lia.
  - intros l. rewrite filter_cons. destruct (decide (tall SkipList_new l head_)) as [Hl|]; [|done].
    unfold tall, height in Hl. cbn in Hl. split; [|done]. unfold Next. cbn.
    do 12 (destruct l as [|l]; [done|]). lia.
  - constructor.
Qed.

Lemma chain_lookup next pre x post : chain next (pre ++ x :: post) → next x = Some (head post).
Proof. induction pre as [|y pre IH]; cbn; [tauto|]. intros [_ H]. by apply IH. Qed.

Lemma inv_links sl L pre x post l :
  inv sl L → head_ :: L = pre ++ x :: post → tall sl l x →
  Next sl x l = Some (head (filter (tall sl l) post)).
Proof.
  intros Hinv Hsplit Hx. pose proof (inv_chain sl L Hinv l) as Hc.
  rewrite Hsplit, filter_app, filter_cons_True in Hc by done. by apply chain_lookup in Hc.
Qed.

(** ** The search loop *)

(** All searches walk right while [go] holds of the next node and then down;
    [go] holds exactly on the nodes [A] of [L = A ++ B]. *)
Fixpoint descend (fuel : nat) sl (go : nat → option bool) (prev : list (option nat)) (x level : nat)
    : option (nat * option nat * list (option nat)) :=
  match fuel with
  | O => None
  | S fuel =>
      next ← Next sl x level;
      right ← from_option go (Some false) next;
      if right : bool
      then y ← next; descend fuel sl go prev y level
      else let prev := <[level := Some x]> prev in
           match level with
           | O => Some (x, next, prev)
           | S level => descend fuel sl go prev x level
           end
  end.

Lemma filter_first (P : nat → Prop) `{∀ x, Decision (P x)} (l : list nat) y r :
  filter P l = y :: r → ∃ p1 p2, l = p1 ++ y :: p2 ∧ P y ∧ filter P p1 = [] ∧ r = filter P p2.
Proof.
  induction l as [|z l IH]; [done|]. rewrite filter_cons. destruct (decide (P z)) as [Hz|Hz].
  - intros [= <- <-]. by exists [], l.
  - intros (p1 & p2 & -> & Hy & Hp1 & Hr)%IH. exists (z :: p1), p2. rewrite filter_cons_False by done.
    by split_and!.
Qed.

(** The last node of [head_ :: A] that reaches level [l]. *)
Definition last_tall sl (l : nat) (A : list nat) : option nat := last (filter (tall sl l) (head_ :: A)).

Lemma descend_spec fuel sl L A B go prev pre x post level :
  inv sl L → L = A ++ B → (∀ y, y ∈ A → go y = Some true) → (∀ y, y ∈ B → go y = Some false) →
  head_ :: A = pre ++ x :: post → tall sl level x → (length post + level < fuel)%nat →
  ∃ prev' z, descend fuel sl go prev x level = Some (z, head B, prev') ∧
    last (head_ :: A) = Some z ∧ length prev' = length prev ∧
    (∀ l, (level < l)%nat → prev' !! l = prev !! l) ∧
    (∀ l, (l ≤ level)%nat → (l < length prev)%nat → prev' !! l = Some (last_tall sl l A)).
Proof.
  intros Hinv HL HA HB. revert prev pre x post level.
  induction fuel as [|fuel IH]; intros prev pre x post level Hsplit Htall Hfuel; [lia|].
  assert (Next sl x level = Some (head (filter (tall sl level) post ++ filter (tall sl level) B))) as Hnext.
  { rewrite <- filter_app. apply (inv_links sl L pre x (post ++ B)); [done| |done].
    rewrite HL. change (head_ :: A ++ B) with ((head_ :: A) ++ B). by rewrite Hsplit, <- app_assoc. }
  cbn [descend]. rewrite Hnext. cbn [mbind option_bind].
  destruct (filter (tall sl level) post) as [|y r] eqn:Hf.
  - assert (last_tall sl level A = Some x) as Hlast.
    { unfold last_tall. rewrite Hsplit, filter_app, filter_cons_True, Hf by done. apply last_snoc. }
    assert (from_option go (Some false) (head ([] ++ filter (tall sl level) B)) = Some false) as ->.
    { cbn [app]. destruct (filter (tall sl level) B) as [|y r] eqn:HfB; [done|].
      apply HB, (list_elem_of_filter (tall sl level)). rewrite HfB. left. }
    cbn [app mbind option_bind]. cbv zeta.
    destruct level as [|level].
    + assert (filter (tall sl 0) B = B) as HfB.
      { apply filter_all. intros y Hy. apply (inv_height sl L Hinv). rewrite HL.
        apply elem_of_app. by right. }
      assert (post = []) as ->.
      { destruct post as [|y post]; [done|]. rewrite filter_cons_True in Hf; [done|].
        apply (inv_height sl L Hinv). rewrite HL. apply elem_of_app. left.
        destruct pre; injection Hsplit as <- ->; [left|]. apply elem_of_app. right. right. left. }
      eexists _, x. rewrite HfB. split; [done|]. split; [rewrite Hsplit; apply last_snoc|].
      split; [by rewrite length_insert|]. split.
      * intros l Hl. rewrite list_lookup_insert_ne by lia. done.
      * intros l Hl Hlen. replace l with 0%nat in * by lia. by rewrite list_lookup_insert_eq, Hlast.
    + destruct (IH (<[S level := Some x]> prev) pre x post level Hsplit) as (prev' & z & Hd & Hz & Hlen & Hhi & Hlo).
      { unfold tall in *. lia. } { lia. }
      exists prev', z. split; [done|]. split; [done|]. rewrite length_insert in Hlen, Hlo.
      split; [done|]. split.
      * intros l Hl. rewrite Hhi by lia. by rewrite list_lookup_insert_ne by lia.
      * intros l Hl Hll. destruct (decide (l = S level)) as [->|Hne].
        -- rewrite Hhi by lia. by rewrite list_lookup_insert_eq, Hlast.
        -- apply Hlo; lia.
  - cbn [app head]. destruct (filter_first _ _ _ _ Hf) as (p1 & p2 & -> & Hy & _ & _).
    assert (y ∈ A) as HyA.
    { destruct pre; injection Hsplit as <- ->; rewrite ?elem_of_app, ?elem_of_cons; set_solver. }
    rewrite (HA y HyA : from_option go (Some false) (Some y) = Some true). cbn [mbind option_bind].
    apply (IH prev (pre ++ x :: p1) y p2 level).
    + rewrite Hsplit. by rewrite <- app_assoc.
    + done.
    + rewrite length_app in Hfuel. cbn [length] in Hfuel. lia.
Qed.

(** The tests of the three searches. *)
Definition go_key sl (key : K) (y : nat) : option bool :=
  k ← key_of sl y; Some (compare_ k key <? 0).

Lemma FGE_descend fuel sl key prev x level :
  FindGreaterOrEqual_loop fuel sl key prev x level =
  (λ r : nat * option nat * list (option nat), (r.1.2, r.2)) <$> descend fuel sl (go_key sl key) prev x level.
Proof.
  revert prev x level; induction fuel as [|fuel IH]; intros prev x level; [done|].
  cbn [FindGreaterOrEqual_loop descend]. destruct (Next sl x level) as [next|]; [|done].
  cbn [mbind option_bind].
  replace (KeyIsAfterNode sl key next) with (from_option (go_key sl key) (Some false) next)
    by (by destruct next).
  destruct (from_option _ _ next) as [[]|]; cbn [mbind option_bind]; [| |done].
  - destruct next; [apply IH|done].
  - destruct level; [done|apply IH].
Qed.

Lemma FLT_descend fuel sl key prev x level :
  FindLessThan_loop fuel sl key x level =
  (λ r : nat * option nat * list (option nat), r.1.1) <$> descend fuel sl (go_key sl key) prev x level.
Proof.
  revert prev x level; induction fuel as [|fuel IH]; intros prev x level; [done|].
  cbn [FindLessThan_loop descend]. destruct (Next sl x level) as [[y|]|]; cbn [mbind option_bind from_option];
    [| |done].
  - change (go_key sl key y) with (k ← key_of sl y; Some (compare_ k key <? 0)).
    destruct (key_of sl y) as [k|]; cbn [mbind option_bind]; [|done].
    rewrite Z.leb_antisym. destruct (compare_ k key <? 0); cbn [negb]; [apply IH|].
    destruct level; [done|apply IH].
  - destruct level; [done|apply IH].
Qed.

Lemma FL_descend fuel sl prev x level :
  FindLast_loop fuel sl x level =
  (λ r : nat * option nat * list (option nat), r.1.1) <$> descend fuel sl (λ _, Some true) prev x level.
Proof.
  revert prev x level; induction fuel as [|fuel IH]; intros prev x level; [done|].
  cbn [FindLast_loop descend]. destruct (Next sl x level) as [[y|]|]; cbn [mbind option_bind from_option];
    [apply IH| |done].
  destruct level; [done|apply IH].
Qed.

Section search.
Context (sl : SkipList K) (L A B : list nat) (Hinv : inv sl L) (HL : L = A ++ B).

Lemma descend_head go prev :
  (∀ y, y ∈ A → go y = Some true) → (∀ y, y ∈ B → go y = Some false) →
  ∃ prev' z, descend (search_fuel sl) sl go prev head_ (max_height_ sl - 1) = Some (z, head B, prev') ∧
    last (head_ :: A) = Some z ∧ length prev' = length prev ∧
    (∀ l, (l < max_height_ sl)%nat → (l < length prev)%nat → prev' !! l = Some (last_tall sl l A)).
Proof.
  intros HA HB. pose proof (inv_max sl L Hinv) as Hmax.
  destruct (descend_spec (search_fuel sl) sl L A B go prev [] head_ A (max_height_ sl - 1))
    as (prev' & z & Hd & Hz & Hlen & _ & Hlo); try done.
  - unfold tall. rewrite (inv_head sl L Hinv). lia.
  - unfold search_fuel. rewrite (inv_length sl L Hinv), HL, length_app. lia.
  - exists prev', z. split_and!; [done..|]. intros l Hl Hll. apply Hlo; [lia|done].
Qed.
End search.
End skiplist.

(** ** Ordered keys *)

Section ordered.
Context {K : Type} (compare_ : K → K → Z) (valid : K → Prop) `{!KeyOrder compare_ valid}.
Implicit Types sl : SkipList K.

Definition keys_valid sl (L : list nat) : Prop :=
  ∀ x k, x ∈ L → key_of sl x = Some k → valid k.

(** [L] split at [key]. *)
Definition split_at sl (key : K) (A B : list nat) : Prop :=
  (∀ y, y ∈ A → go_key compare_ sl key y = Some true) ∧
  (∀ y, y ∈ B → go_key compare_ sl key y = Some false).

Lemma split_exists sl L key :
  inv compare_ sl L → keys_valid sl L → valid key → ∃ A B, L = A ++ B ∧ split_at sl key A B.
Proof.
  intros Hinv Hvalid Hkey. pose proof (inv_sorted _ _ _ Hinv) as Hso.
  pose proof (inv_key _ _ _ Hinv) as Hk. clear Hinv.
  induction Hso as [|x L Hso IH Hmin].
  { exists [], []. by split; [|split; intros y ?%not_elem_of_nil]. }
  destruct (Hk x) as [kx Hkx]; [left|].
  destruct (Z.lt_ge_cases (compare_ kx key) 0) as [Hlt|Hge].
  - destruct IH as (A & B & -> & HA & HB).
    { intros y k Hy. apply Hvalid. by right. } { intros y Hy. apply Hk. by right. }
    exists (x :: A), B. split; [done|]. split; [|done]. intros y [->|Hy]%elem_of_cons; [|by apply HA].
    unfold go_key. rewrite Hkx. cbn. by rewrite (proj2 (Z.ltb_lt _ _) Hlt).
  - exists [], (x :: L). split; [done|]. split; [by intros y ?%not_elem_of_nil|].
    intros y [->|Hy]%elem_of_cons; unfold go_key.
    + rewrite Hkx. cbn. by rewrite (proj2 (Z.ltb_ge _ _) Hge).
    + pose proof (proj1 (Forall_forall _ _) Hmin y Hy) as (kx' & ky & Hkx' & Hky & Hxy).
      rewrite Hkx in Hkx'. injection Hkx' as <-. rewrite Hky. cbn.
      rewrite (proj2 (Z.ltb_ge _ _)); [done|]. apply Z.nlt_ge. intros Hyk.
      assert (compare_ kx key < 0) 
        by (apply (ko_trans kx ky key); [eapply Hvalid; [left|done]|eapply Hvalid; [by right|done]|done..]).
      lia.
Qed.

(** ** Linking a new node *)

Lemma height_lookup sl x nd : nodes sl !! x = Some nd → height sl x = length (next_ nd).
Proof. intros Hx. unfold height. by rewrite Hx. Qed.

Lemma Next_SetNext sl x n v y m :
  tall sl n x →
  Next (SetNext x n v sl) y m = if decide (y = x ∧ m = n) then Some v else Next sl y m.
Proof.
  intros Htall. unfold Next, SetNext. cbn [nodes].
  destruct (decide (y = x)) as [->|Hne].
  - rewrite list_lookup_alter_eq. unfold tall, height in Htall.
    destruct (nodes sl !! x) as [nd|] eqn:Hx; cbn in Htall |- *; [|lia].
    destruct (decide (m = n)) as [->|Hm].
    + rewrite decide_True by done. by rewrite list_lookup_insert_eq.
    + rewrite decide_False by naive_solver. by rewrite list_lookup_insert_ne.
  - rewrite decide_False by naive_solver. by rewrite list_lookup_alter_ne.
Qed.

Lemma SetNext_frame sl x n v :
  (∀ y, height (SetNext x n v sl) y = height sl y) ∧
  (∀ y, key_of (SetNext x n v sl) y = key_of sl y) ∧
  length (nodes (SetNext x n v sl)) = length (nodes sl) ∧
  max_height_ (SetNext x n v sl) = max_height_ sl.
Proof.
  unfold height, key_of, SetNext. cbn [nodes max_height_]. split_and!; [| |apply length_alter|done].
  - intros y. destruct (decide (y = x)) as [->|]; [|by rewrite list_lookup_alter_ne].
    rewrite list_lookup_alter_eq. destruct (nodes sl !! x); [|done]. cbn. apply length_insert.
  - intros y. destruct (decide (y = x)) as [->|]; [|by rewrite list_lookup_alter_ne].
    rewrite list_lookup_alter_eq. by destruct (nodes sl !! x).
Qed.

(** What the linking loop does to every link: at the levels [i, i + n) it puts
    [x] after [prev]'s node. *)
Lemma link_loop_spec n prev (p : nat → nat) (old : nat → option nat) x i sl :
  (∀ l, (i ≤ l < i + n)%nat → mjoin (prev !! l) = Some (p l) ∧ Next sl (p l) l = Some (old l) ∧
     p l ≠ x ∧ tall sl l (p l) ∧ tall sl l x) →
  ∃ sl', link_loop n prev x i sl = Some sl' ∧
    (∀ y, height sl' y = height sl y) ∧ (∀ y, key_of sl' y = key_of sl y) ∧
    length (nodes sl') = length (nodes sl) ∧ max_height_ sl' = max_height_ sl ∧
    (∀ y l, Next sl' y l =
       if decide (i ≤ l < i + n)%nat
       then if decide (y = x) then Some (old l) else if decide (y = p l) then Some (Some x) else Next sl y l
       else Next sl y l).
Proof.
  revert i sl; induction n as [|n IH]; intros i sl Hprev; cbn [link_loop].
  { exists sl. split_and!; try done. intros y l. rewrite decide_False; [done|lia]. }
  destruct (Hprev i) as (Hp & Hold & Hne & Ht & Htx); [lia|].
  unfold link. rewrite Hp. cbn [mbind option_bind]. rewrite Hold. cbn [mbind option_bind].
  set (sl1 := SetNext x i (old i) sl). set (sl2 := SetNext (p i) i (Some x) sl1).
  destruct (SetNext_frame sl x i (old i)) as (Hh1 & Hk1 & Hl1 & Hm1). fold sl1 in Hh1, Hk1, Hl1, Hm1.
  destruct (SetNext_frame sl1 (p i) i (Some x)) as (Hh2 & Hk2 & Hl2 & Hm2). fold sl2 in Hh2, Hk2, Hl2, Hm2.
  assert (∀ y m, Next sl2 y m = if decide (y = p i ∧ m = i) then Some (Some x)
    else if decide (y = x ∧ m = i) then Some (old i) else Next sl y m) as HN.
  { intros y m. unfold sl2. rewrite Next_SetNext by (unfold tall in *; by rewrite Hh1).
    unfold sl1. by rewrite Next_SetNext. }
  destruct (IH (S i) sl2) as (sl' & Hl' & Hh & Hk & Hlen & Hm & HNext).
  { intros l Hl. destruct (Hprev l) as (? & Hl1' & ? & ? & ?); [lia|]. unfold tall in *.
    rewrite HN, !Hh2, !Hh1. split_and!; try done.
    rewrite decide_False by lia. rewrite decide_False by lia. done. }
  exists sl'. split; [done|]. split_and!; [intros; by rewrite Hh, Hh2, Hh1|intros; by rewrite Hk, Hk2, Hk1|congruence..|].
  intros y l. rewrite HNext, HN.
  destruct (decide (l = i)) as [->|Hli].
  - rewrite decide_False by lia. rewrite (decide_True (P := (i ≤ i < i + S n)%nat)) by lia.
    destruct (decide (y = x)) as [->|]; [rewrite decide_False, decide_True by naive_solver; done|].
    destruct (decide (y = p i)) as [->|]; [by rewrite decide_True|].
    rewrite !decide_False by naive_solver. done.
  - rewrite (decide_False (P := y = p i ∧ l = i)), (decide_False (P := y = x ∧ l = i)) by naive_solver.
    destruct (decide (S i ≤ l < S i + n)%nat), (decide (i ≤ l < i + S n)%nat); try lia; done.
Qed.

Lemma RandomHeight_range rnd : (1 ≤ (RandomHeight rnd).1 ≤ kMaxHeight)%nat.
Proof.
  unfold RandomHeight.
  assert (∀ fuel h r, (1 ≤ h ≤ kMaxHeight)%nat → (1 ≤ (RandomHeight_loop fuel h r).1 ≤ kMaxHeight)%nat) as Hl.
  { induction fuel as [|fuel IH]; intros h r Hh; cbn [RandomHeight_loop]; [done|].
    destruct (Nat.ltb_spec h kMaxHeight); [|done].
    destruct (OneIn kBranching r) as [r' []]; [|done]. apply IH. lia. }
  apply Hl. unfold kMaxHeight. lia.
Qed.

Lemma filter_ext_in (P Q : nat → Prop) `{∀ x, Decision (P x)} `{∀ x, Decision (Q x)} (l : list nat) :
  (∀ y, y ∈ l → P y ↔ Q y) → filter P l = filter Q l.
Proof.
  induction l as [|y l IH]; intros Hl; [done|]. rewrite !filter_cons.
  assert (filter P l = filter Q l) as -> by (apply IH; intros z Hz; apply Hl; by right).
  destruct (decide (P y)) as [HP|HP], (decide (Q y)) as [HQ|HQ]; [done| | |done];
    destruct HP || destruct HQ; apply (Hl y); (left || done).
Qed.

(** The node [p] before position [A] at level [l]: nothing between is as tall. *)
Lemma last_tall_split sl L A B l :
  inv compare_ sl L → L = A ++ B → (l < kMaxHeight)%nat →
  ∃ pre p post, last_tall sl l A = Some p ∧ head_ :: A = pre ++ p :: post ∧ tall sl l p ∧
    filter (tall sl l) post = [].
Proof.
  intros Hinv HL Hl. unfold last_tall.
  destruct (last (filter (tall sl l) (head_ :: A))) as [p|] eqn:Hlast.
  - destruct (last_filter_Some _ _ _ Hlast) as (pre & post & Hsplit & Hpost).
    exists pre, p, post. split_and!; [done|done| |].
    + apply last_Some in Hlast as [r Hr].
      assert (p ∈ filter (tall sl l) (head_ :: A)) as Hp by (rewrite Hr; apply elem_of_app; right; left).
      by apply list_elem_of_filter in Hp as [? _].
    + clear -Hpost. induction Hpost as [|y post Hy _ IH]; [done|]. by rewrite filter_cons_False.
  - exfalso. apply last_None in Hlast. rewrite filter_cons_True in Hlast; [done|].
    unfold tall. by rewrite (inv_head _ _ _ Hinv).
Qed.

Lemma key_of_dom sl x k : key_of sl x = Some k → (x < length (nodes sl))%nat.
Proof. unfold key_of. destruct (nodes sl !! x) eqn:Hx; [|done]. intros _. by eapply lookup_lt_Some. Qed.

Lemma chain_ext next next' M :
  (∀ y, y ∈ M → next' y = next y) → chain next M → chain next' M.
Proof.
  induction M as [|y M IH]; intros Heq; [done|]. intros [Hy HM]. split.
  - by rewrite Heq by left.
  - apply IH; [|done]. intros z Hz. apply Heq. by right.
Qed.

(** Insertion into one linked list. *)
Lemma chain_insert next next' M1 M2 p x :
  chain next (M1 ++ M2) → NoDup (M1 ++ M2) → x ∉ M1 ++ M2 → last M1 = Some p →
  next' p = Some (Some x) → next' x = Some (head M2) →
  (∀ y, y ∈ M1 ++ M2 → y ≠ p → next' y = next y) →
  chain next' (M1 ++ x :: M2).
Proof.
  intros Hc Hnd Hx Hlast Hp Hx' Hother. induction M1 as [|y M1 IH]; [done|].
  cbn [app] in *. destruct Hc as [Hy Hc]. apply NoDup_cons in Hnd as [Hyn Hnd].
  destruct M1 as [|z M1].
  - injection Hlast as ->. split; [done|]. split; [done|]. eapply chain_ext; [|exact Hc].
    intros w Hw. apply Hother; [by right|]. intros ->. done.
  - split.
    + rewrite Hother; [done|left|]. intros ->. apply Hyn. change (last (z :: M1) = Some p) in Hlast.
      apply last_Some in Hlast as [q ->]. rewrite !elem_of_app. left. right. left.
    + apply IH; [done|done| |done|].
      * intros Hin. apply Hx. by right.
      * intros w Hw. apply Hother. by right.
Qed.

(** A state with node [x] linked between [A] and [B] satisfies the invariant. *)
Section insertion.
Context (sl sl' : SkipList K) (L A B : list nat) (x : nat) (key : K) (h : nat).
Hypothesis Hinv : inv compare_ sl L.
Hypothesis HL : L = A ++ B.
Hypothesis Hx : x = length (nodes sl).
Hypothesis Hh : (1 ≤ h ≤ kMaxHeight)%nat.
Hypothesis Hhy : ∀ y, y ≠ x → height sl' y = height sl y.
Hypothesis Hhx : height sl' x = h.
Hypothesis Hky : ∀ y, y ≠ x → key_of sl' y = key_of sl y.
Hypothesis Hkx : key_of sl' x = Some key.

Lemma ins_fresh y : y ∈ head_ :: L → y ≠ x.
Proof. intros Hy. pose proof (inv_dom _ _ _ Hinv y Hy). lia. Qed.

Lemma ins_in y : y ∈ head_ :: A ++ x :: B → y ≠ x → y ∈ head_ :: L.
Proof. rewrite HL, !elem_of_cons, !elem_of_app, elem_of_cons. tauto. Qed.

Lemma ins_filter l (M : list nat) : (∀ y, y ∈ M → y ∈ head_ :: L) → filter (tall sl' l) M = filter (tall sl l) M.
Proof.
  intros HM. apply filter_ext_in. intros y Hy. unfold tall. rewrite Hhy; [done|]. auto using ins_fresh.
Qed.

Lemma insertion_chain l :
  (∀ p, (l < h)%nat → last_tall sl l A = Some p → Next sl' p l = Some (Some x)) →
  ((l < h)%nat → Next sl' x l = Some (head (filter (tall sl l) B))) →
  (∀ y, y ≠ x → ((h ≤ l)%nat ∨ last_tall sl l A ≠ Some y) → Next sl' y l = Next sl y l) →
  chain (λ x, Next sl' x l) (filter (tall sl' l) (head_ :: A ++ x :: B)).
Proof.
  intros Hprev Hnew Hold. change (head_ :: A ++ x :: B) with ((head_ :: A) ++ x :: B).
  pose proof (inv_chain _ _ _ Hinv l) as Hc. pose proof (inv_nodup _ _ _ Hinv) as Hnd.
  pose proof ins_fresh as Hfr. rewrite HL in Hc, Hnd, Hfr.
  change (head_ :: A ++ B) with ((head_ :: A) ++ B) in Hc, Hnd, Hfr.
  rewrite filter_app in Hc.
  rewrite filter_app, (ins_filter l (head_ :: A)), (filter_cons (tall sl' l)), (ins_filter l B).
  2,3: intros y Hy; rewrite HL; change (head_ :: A ++ B) with ((head_ :: A) ++ B); apply elem_of_app; tauto.
  assert (∀ y, y ∈ filter (tall sl l) (head_ :: A) ++ filter (tall sl l) B → y ≠ x) as Hne.
  { intros y Hy. apply Hfr. rewrite <- filter_app in Hy. by apply list_elem_of_filter in Hy as [_ ?]. }
  destruct (decide (tall sl' l x)) as [Ht|Ht]; unfold tall in Ht; rewrite Hhx in Ht.
  - destruct (last_tall_split sl L A B l Hinv HL) as (_ & p & _ & Hp & _); [lia|].
    apply (chain_insert (λ x, Next sl x l) _ _ _ p); auto.
    + rewrite <- filter_app. by apply NoDup_filter.
    + intros Hin. by apply (Hne x).
    + intros y Hy Hyp. apply Hold; [auto|]. right. unfold last_tall in *. congruence.
  - eapply chain_ext; [|exact Hc]. intros y Hy. apply Hold; [auto|]. left. lia.
Qed.

Lemma insertion_sorted :
  keys_valid sl L → valid key → split_at sl key A B →
  (∀ y k, y ∈ L → key_of sl y = Some k → compare_ k key ≠ 0) →
  StronglySorted (key_lt compare_ sl') (A ++ x :: B).
Proof.
  intros Hvalid Hkey [HA HB] Hneq. pose proof (inv_sorted _ _ _ Hinv) as Hso. rewrite HL in Hso.
  assert (∀ y, y ∈ A ∨ y ∈ B → y ∈ L) as HinL by (intros y; rewrite HL, elem_of_app; tauto).
  assert (∀ y, y ∈ A ∨ y ∈ B → ∃ k, key_of sl y = Some k ∧ key_of sl' y = Some k ∧ valid k ∧
    go_key compare_ sl key y = Some (compare_ k key <? 0) ∧ compare_ k key ≠ 0) as Hk.
  { intros y Hy. destruct (inv_key _ _ _ Hinv y (HinL y Hy)) as [k Hyk]. exists k.
    assert (y ≠ x) by (apply ins_fresh; right; auto).
    rewrite Hky by done. split_and!; [done|done|by eapply Hvalid; [apply HinL|]| |by eapply Hneq; [apply HinL|]].
    unfold go_key. by rewrite Hyk. }
  assert (∀ a b, key_lt compare_ sl a b → key_lt compare_ sl' a b) as Hmono.
  { intros a b (ka & kb & Ha & Hb & Hlt). exists ka, kb.
    pose proof (key_of_dom _ _ _ Ha). pose proof (key_of_dom _ _ _ Hb).
    rewrite !Hky by lia. done. }
  apply (StronglySorted_fmap id _ (key_lt compare_ sl')) in Hso; [|exact Hmono].
  rewrite list_fmap_id in Hso. apply StronglySorted_app in Hso as (Hcross & HsA & HsB).
  assert (∀ a, a ∈ A → key_lt compare_ sl' a x) as HAx.
  { intros a Ha. destruct (Hk a (or_introl Ha)) as (k & _ & Hk' & _ & Hgo & _). exists k, key.
    split_and!; [done..|]. rewrite (HA a Ha) in Hgo. injection Hgo as Hgo. symmetry in Hgo.
    by apply Z.ltb_lt in Hgo. }
  assert (∀ b, b ∈ B → key_lt compare_ sl' x b) as HxB.
  { intros b Hb. destruct (Hk b (or_intror Hb)) as (k & _ & Hk' & Hv & Hgo & Hne). exists key, k.
    split_and!; [done..|]. rewrite (HB b Hb) in Hgo. injection Hgo as Hgo. symmetry in Hgo.
    apply Z.ltb_ge in Hgo. pose proof (ko_sym k key Hv Hkey). lia. }
  apply StronglySorted_app. split_and!; [|done|].
  - intros a b Ha [->|Hb]%elem_of_cons; auto.
  - constructor; [done|]. apply Forall_forall. auto.
Qed.

Lemma insertion_inv :
  keys_valid sl L → valid key → split_at sl key A B →
  (∀ y k, y ∈ L → key_of sl y = Some k → compare_ k key ≠ 0) →
  length (nodes sl') = S (length (nodes sl)) → max_height_ sl' = Nat.max (max_height_ sl) h →
  (∀ p l, (l < h)%nat → last_tall sl l A = Some p → Next sl' p l = Some (Some x)) →
  (∀ l, (l < h)%nat → Next sl' x l = Some (head (filter (tall sl l) B))) →
  (∀ y l, y ≠ x → ((h ≤ l)%nat ∨ last_tall sl l A ≠ Some y) → Next sl' y l = Next sl y l) →
  inv compare_ sl' (A ++ x :: B).
Proof.
  intros Hvalid Hkey Hsplit Hneq Hlen Hmax Hprev Hnew Hold. pose proof ins_in as Hin.
  assert (∀ y, y ∈ A ++ x :: B → y ≠ x → y ∈ L) as HinL'.
  { intros y. rewrite HL, !elem_of_app, elem_of_cons. tauto. }
  split.
  - pose proof (inv_nodup _ _ _ Hinv) as Hnd. rewrite HL in Hnd.
    change (head_ :: A ++ x :: B) with ((head_ :: A) ++ x :: B).
    rewrite <- (Permutation_middle (head_ :: A) B x). apply NoDup_cons. split; [|done].
    intros Hx'. apply (ins_fresh x); [|done]. by rewrite HL.
  - rewrite Hlen, (inv_length _ _ _ Hinv), HL, !length_app. cbn [length]. lia.
  - intros y Hy. rewrite Hlen. destruct (decide (y = x)) as [->|Hne]; [lia|].
    pose proof (inv_dom _ _ _ Hinv y (Hin y Hy Hne)). lia.
  - rewrite Hhy; [apply (inv_head _ _ _ Hinv)|]. apply ins_fresh. left.
  - intros y Hy. destruct (decide (y = x)) as [->|Hne]; [by eexists|].
    rewrite Hky by done. apply (inv_key _ _ _ Hinv). auto.
  - intros y Hy. rewrite Hmax. destruct (decide (y = x)) as [->|Hne]; [rewrite Hhx; lia|].
    rewrite Hhy by done. pose proof (inv_height _ _ _ Hinv y (HinL' y Hy Hne)). lia.
  - rewrite Hmax. pose proof (inv_max _ _ _ Hinv). lia.
  - intros l. apply insertion_chain; auto.
  - by apply insertion_sorted.
Qed.
End insertion.

Lemma fill_prev_lookup prev from h l :
  (from ≤ length prev)%nat → (from < h)%nat → (l < h)%nat →
  fill_prev prev from h !! l = if decide (l < from)%nat then prev !! l else Some (Some head_).
Proof.
  intros Hlen Hfh Hl. unfold fill_prev. destruct (decide (l < from)%nat).
  - rewrite lookup_app_l by (rewrite length_take; lia). by rewrite lookup_take_lt.
  - rewrite lookup_app_r by (rewrite length_take; lia). rewrite length_take, Nat.min_l by lia.
    rewrite lookup_app_l by (rewrite length_replicate; lia). apply lookup_replicate_2. lia.
Qed.

(** Above the tallest node, the head comes before every position. *)
Lemma last_tall_above sl L A B l :
  inv compare_ sl L → L = A ++ B → (max_height_ sl ≤ l < kMaxHeight)%nat →
  last_tall sl l A = Some head_.
Proof.
  intros Hinv HL Hl. unfold last_tall. rewrite filter_cons_True by (unfold tall; rewrite (inv_head _ _ _ Hinv); lia).
  replace (filter (tall sl l) A) with (@nil nat); [done|]. symmetry.
  destruct (filter (tall sl l) A) as [|y r] eqn:Hf; [done|].
  assert (y ∈ filter (tall sl l) A) as [Ht Hy]%list_elem_of_filter by (rewrite Hf; left).
  assert (y ∈ L) as HyL by (rewrite HL; apply elem_of_app; tauto).
  pose proof (inv_height _ _ _ Hinv y HyL). unfold tall in Ht. lia.
Qed.

Lemma Insert_spec sl L A B key :
  inv compare_ sl L → keys_valid sl L → valid key → L = A ++ B → split_at sl key A B →
  (∀ y k, y ∈ L → key_of sl y = Some k → compare_ k key ≠ 0) →
  ∃ sl' x, Insert compare_ key sl = Some sl' ∧ inv compare_ sl' (A ++ x :: B) ∧ x ∉ L ∧
    key_of sl' x = Some key ∧ (∀ y, y ≠ x → key_of sl' y = key_of sl y).
Proof.
  intros Hinv Hvalid Hkey HL Hsplit Hneq. unfold Insert, FindGreaterOrEqual.
  destruct (descend_head compare_ sl L A B Hinv HL (go_key compare_ sl key) (replicate kMaxHeight None)
    (proj1 Hsplit) (proj2 Hsplit)) as (prev & z & Hd & _ & Hplen & Hprev).
  rewrite FGE_descend, Hd. cbn [fmap option_fmap option_map mbind option_bind fst snd].
  rewrite length_replicate in Hplen, Hprev. pose proof (inv_max _ _ _ Hinv) as Hmax.
  pose proof (RandomHeight_range (rnd_ sl)) as Hh.
  destruct (RandomHeight (rnd_ sl)) as [h rnd]. cbn [fst] in Hh. cbn [nodes].
  set (x := length (nodes sl)). set (sl1 := NewNode key h _).
  set (prev' := if (max_height_ sl <? h)%nat then _ else _).
  assert (∀ y, y ≠ x → nodes sl1 !! y = nodes sl !! y) as Hnodes.
  { intros y Hy. cbn. destruct (decide (y < x)%nat).
    - by apply lookup_app_l.
    - rewrite !lookup_ge_None_2; [done|lia|rewrite length_app; cbn; lia]. }
  assert (nodes sl1 !! x = Some {| node_key := Some key; next_ := replicate h None |}) as Hnx.
  { cbn. by rewrite lookup_app_r, Nat.sub_diag by lia. }
  assert (∀ y, y ≠ x → height sl1 y = height sl y) as Hhy by (intros y Hy; unfold height; by rewrite Hnodes).
  assert (height sl1 x = h) as Hhx by (unfold height; rewrite Hnx; cbn; apply length_replicate).
  assert (∀ y, y ∈ head_ :: L → y ≠ x) as Hfresh.
  { intros y Hy. pose proof (inv_dom _ _ _ Hinv y Hy). lia. }
  assert (∀ y l, y ≠ x → Next sl1 y l = Next sl y l) as HN1 by (intros y l Hy; unfold Next; by rewrite Hnodes).
  set (p := λ l, default head_ (last_tall sl l A)).
  set (old := λ l, head (filter (tall sl l) B)).
  assert (∀ l, (l < h)%nat → last_tall sl l A = Some (p l) ∧ mjoin (prev' !! l) = Some (p l) ∧
    p l ≠ x ∧ tall sl l (p l) ∧ Next sl (p l) l = Some (old l)) as Hp.
  { intros l Hl. destruct (last_tall_split sl L A B l Hinv HL) as (pre & q & post & Hq & Hpre & Ht & Hpost); [lia|].
    assert (p l = q) as -> by (unfold p; by rewrite Hq). split; [done|]. split; [|split_and!; [|done|]].
    - unfold prev'. destruct (Nat.ltb_spec (max_height_ sl) h).
      + rewrite fill_prev_lookup by lia. destruct (decide (l < max_height_ sl)%nat).
        * by rewrite Hprev, Hq by lia.
        * rewrite <- Hq, (last_tall_above sl L A B l) by (done || lia). done.
      + by rewrite Hprev, Hq by lia.
    - apply Hfresh. assert (q ∈ head_ :: A) as Hin by (rewrite Hpre; apply elem_of_app; right; left).
      rewrite HL. change (head_ :: A ++ B) with ((head_ :: A) ++ B). apply elem_of_app. tauto.
    - rewrite (inv_links compare_ sl L pre q (post ++ B) l Hinv); [|by rewrite HL; change (head_ :: A ++ B) with ((head_ :: A) ++ B); rewrite Hpre, <- app_assoc|done].
      by rewrite filter_app, Hpost. }
  destruct (link_loop_spec h prev' p old x 0 sl1) as (sl' & Hl' & Hh' & Hk' & Hlen' & Hm' & HN').
  { intros l Hl. destruct (Hp l) as (_ & H1 & H2 & H3 & H4); [lia|].
    unfold tall in *. rewrite HN1, Hhx, Hhy by done. split_and!; try done. lia. }
  exists sl', x. split; [exact Hl'|].
  assert (key_of sl' x = Some key) as Hkx by (rewrite Hk'; unfold key_of; by rewrite Hnx).
  assert (∀ y, y ≠ x → key_of sl' y = key_of sl y) as Hky
    by (intros y Hy; rewrite Hk'; unfold key_of; by rewrite Hnodes).
  split; [|split_and!; [|done|done]].
  - apply (insertion_inv sl sl' L A B x key h); try done.
    + intros y Hy. by rewrite Hh', Hhy.
    + by rewrite Hh'.
    + rewrite Hlen'. cbn. rewrite length_app. cbn. unfold x. lia.
    + intros q l Hl Hq. destruct (Hp l Hl) as (Hq' & _ & Hne & _). rewrite Hq in Hq'. injection Hq' as ->.
      rewrite HN', decide_True, decide_False, decide_True by (done || lia). done.
    + intros l Hl. rewrite HN', decide_True, decide_True by (done || lia). done.
    + intros y l Hy Hor. rewrite HN'. destruct (decide (0 ≤ l < 0 + h)%nat) as [Hl|]; [|by apply HN1].
      rewrite decide_False by done. destruct (Hp l) as (Hq & _); [lia|].
      rewrite decide_False; [by apply HN1|]. intros ->. destruct Hor; [lia|done].
  - intros Hin. by apply (Hfresh x); [right|].
Qed.

(** ** Refinement of a sorted sequence *)

Definition keyed sl (x : nat) (k : K) : Prop := key_of sl x = Some k.

(** The list holds the keys [ks], in order. *)
Definition repr sl (ks : list K) : Prop :=
  ∃ L, inv compare_ sl L ∧ Forall2 (keyed sl) L ks ∧ Forall valid ks.

(** An iterator at node [n] has [before] behind it and [after] ahead. *)
Definition position sl (n : option nat) (before after : list K) : Prop :=
  ∃ A B, inv compare_ sl (A ++ B) ∧ Forall2 (keyed sl) A before ∧ Forall2 (keyed sl) B after ∧
    Forall valid (before ++ after) ∧ n = head B.

Definition keys_below (key : K) : list K → list K := filter (λ k, compare_ k key < 0).
Definition keys_from (key : K) : list K → list K := filter (λ k, 0 <= compare_ k key).

Lemma position_repr sl n before after : position sl n before after → repr sl (before ++ after).
Proof. intros (A & B & Hinv & HA & HB & Hv & _). exists (A ++ B). split_and!; [done|by apply Forall2_app|done]. Qed.

Lemma keyed_elem sl L ks x : Forall2 (keyed sl) L ks → x ∈ L → ∃ k, k ∈ ks ∧ key_of sl x = Some k.
Proof.
  intros HF Hx. apply list_elem_of_lookup in Hx as [i Hi].
  destruct (Forall2_lookup_l _ _ _ _ _ HF Hi) as (k & Hk & Hkk). exists k.
  split; [by eapply list_elem_of_lookup_2|done].
Qed.

Lemma keyed_valid sl L ks : Forall2 (keyed sl) L ks → Forall valid ks → keys_valid sl L.
Proof.
  intros HF Hv x k Hx Hk. destruct (keyed_elem _ _ _ _ HF Hx) as (k' & Hin & Hk'). rewrite Hk' in Hk.
  injection Hk as <-. by eapply Forall_forall.
Qed.

Lemma filter_none {A} (P : A → Prop) `{∀ x, Decision (P x)} (l : list A) :
  (∀ x, x ∈ l → ¬ P x) → filter P l = [].
Proof.
  induction l as [|y l IH]; intros Hl; [done|]. rewrite filter_cons_False by (apply Hl; left).
  apply IH. intros z Hz. apply Hl. by right.
Qed.

Lemma filter_every {A} (P : A → Prop) `{∀ x, Decision (P x)} (l : list A) :
  (∀ x, x ∈ l → P x) → filter P l = l.
Proof.
  induction l as [|y l IH]; intros Hl; [done|]. rewrite filter_cons_True by (apply Hl; left).
  f_equal. apply IH. intros z Hz. apply Hl. by right.
Qed.

Lemma keyed_elem_r sl L ks k : Forall2 (keyed sl) L ks → k ∈ ks → ∃ x, x ∈ L ∧ key_of sl x = Some k.
Proof.
  intros HF Hx. apply list_elem_of_lookup in Hx as [i Hi].
  destruct (Forall2_lookup_r _ _ _ _ _ HF Hi) as (x & Hk & Hkk). exists x.
  split; [by eapply list_elem_of_lookup_2|done].
Qed.

(** The nodes below a key carry the keys below it. *)
Lemma split_keys sl key A B ks :
  split_at sl key A B → Forall2 (keyed sl) (A ++ B) ks →
  Forall2 (keyed sl) A (keys_below key ks) ∧ Forall2 (keyed sl) B (keys_from key ks) ∧
  ks = keys_below key ks ++ keys_from key ks.
Proof.
  intros [HA HB] HF. apply Forall2_app_inv_l in HF as (ka & kb & HFA & HFB & ->).
  assert (∀ k, k ∈ ka → compare_ k key < 0) as Ha.
  { intros k Hk. destruct (keyed_elem_r _ _ _ _ HFA Hk) as (x & Hx & Hxk).
    specialize (HA x Hx). unfold go_key in HA. rewrite Hxk in HA. injection HA as HA. by apply Z.ltb_lt. }
  assert (∀ k, k ∈ kb → 0 <= compare_ k key) as Hb.
  { intros k Hk. destruct (keyed_elem_r _ _ _ _ HFB Hk) as (x & Hx & Hxk).
    specialize (HB x Hx). unfold go_key in HB. rewrite Hxk in HB. injection HB as HB. by apply Z.ltb_ge. }
  unfold keys_below, keys_from. rewrite !filter_app.
  rewrite (filter_every _ ka), (filter_none _ kb), (filter_none _ ka), (filter_every _ kb);
    [by rewrite app_nil_r|auto|intros k Hk; specialize (Ha k Hk); lia|intros k Hk; specialize (Hb k Hk); lia|auto].
Qed.

Lemma repr_split sl ks key :
  repr sl ks → valid key → ∃ A B, inv compare_ sl (A ++ B) ∧ keys_valid sl (A ++ B) ∧ split_at sl key A B ∧
    Forall2 (keyed sl) A (keys_below key ks) ∧ Forall2 (keyed sl) B (keys_from key ks) ∧
    ks = keys_below key ks ++ keys_from key ks.
Proof.
  intros (L & Hinv & HF & Hv) Hkey. pose proof (keyed_valid _ _ _ HF Hv) as HkL.
  destruct (split_exists sl L key Hinv HkL Hkey) as (A & B & -> & Hs). exists A, B.
  by destruct (split_keys _ _ _ _ _ Hs HF) as (? & ? & ?).
Qed.

Lemma repr_new : repr SkipList_new [].
Proof. exists []. split_and!; [apply inv_new|constructor|constructor]. Qed.

Lemma Insert_repr sl ks key :
  repr sl ks → valid key → (∀ k, k ∈ ks → compare_ k key ≠ 0) →
  ∃ sl', Insert compare_ key sl = Some sl' ∧ repr sl' (keys_below key ks ++ key :: keys_from key ks).
Proof.
  intros Hr Hkey Hne. destruct (repr_split sl ks key Hr Hkey) as (A & B & Hinv & HkL & Hs & HA & HB & Hks).
  assert (Forall valid ks) as Hv by (by destruct Hr as (? & _ & _ & ?)).
  destruct (Insert_spec sl (A ++ B) A B key Hinv HkL Hkey eq_refl Hs) as (sl' & x & Hi & Hinv' & Hx & Hkx & Hky).
  { intros y k Hy Hk. apply Hne. rewrite Hks.
    destruct (keyed_elem sl (A ++ B) (keys_below key ks ++ keys_from key ks) y) as (k' & Hk' & Hyk'); [by apply Forall2_app|done|].
    rewrite Hyk' in Hk. by injection Hk as <-. }
  exists sl'. split; [done|]. exists (A ++ x :: B). split; [done|].
  rewrite not_elem_of_app in Hx. destruct Hx as [HxA HxB].
  assert (∀ M ms, x ∉ M → Forall2 (keyed sl) M ms → Forall2 (keyed sl') M ms) as Hmono.
  { intros M ms HM. intros HF. apply Forall2_same_length_lookup.
    apply Forall2_same_length_lookup in HF as [Hlen HF]. split; [done|]. intros i y k Hy Hk.
    unfold keyed. rewrite Hky; [by eapply HF|]. intros ->. apply HM. by eapply list_elem_of_lookup_2. }
  split.
  - apply Forall2_app; [auto|]. constructor; auto.
  - rewrite Hks in Hv. apply Forall_app in Hv as [? ?]. apply Forall_app. auto.
Qed.

Lemma Seek_position sl ks t :
  repr sl ks → valid t →
  ∃ n, Iter_Seek compare_ sl t = Some n ∧ position sl n (keys_below t ks) (keys_from t ks).
Proof.
  intros Hr Ht. destruct (repr_split sl ks t Hr Ht) as (A & B & Hinv & HkL & Hs & HA & HB & Hks).
  unfold Iter_Seek, FindGreaterOrEqual.
  destruct (descend_head compare_ sl (A ++ B) A B Hinv eq_refl (go_key compare_ sl t) [] (proj1 Hs) (proj2 Hs))
    as (prev & z & Hd & _).
  rewrite FGE_descend, Hd. exists (head B). split; [done|]. exists A, B. split_and!; try done.
  rewrite <- Hks. by destruct Hr as (? & _ & _ & ?).
Qed.

Lemma SeekToFirst_position sl ks :
  repr sl ks → ∃ n, Iter_SeekToFirst sl = Some n ∧ position sl n [] ks.
Proof.
  intros (L & Hinv & HF & Hv). exists (head L). split.
  - unfold Iter_SeekToFirst. rewrite (inv_links compare_ sl L [] head_ L 0 Hinv); [|done|].
    + rewrite filter_all; [done|]. intros y Hy. pose proof (inv_height _ _ _ Hinv y Hy). unfold tall. lia.
    + unfold tall. rewrite (inv_head _ _ _ Hinv). unfold kMaxHeight. lia.
  - exists [], L. by split_and!.
Qed.

Lemma SeekToLast_position sl ks k :
  repr sl (ks ++ [k]) → ∃ n, Iter_SeekToLast sl = Some n ∧ position sl n ks [k].
Proof.
  intros (L & Hinv & HF & Hv). unfold Iter_SeekToLast, FindLast.
  destruct (descend_head compare_ sl L L [] Hinv (eq_sym (app_nil_r L)) (λ _, Some true) [])
    as (prev & z & Hd & Hz & _); [done|by intros y ?%not_elem_of_nil|].
  rewrite (FL_descend _ _ []), Hd. cbn [fmap option_fmap option_map mbind option_bind fst].
  apply Forall2_app_inv_r in HF as (A & B & HA & HB & ->).
  apply Forall2_cons_inv_r in HB as (x & B' & Hx & HB & ->). apply Forall2_nil_inv_r in HB as ->.
  change (head_ :: A ++ [x]) with ((head_ :: A) ++ [x]) in Hz. rewrite last_snoc in Hz. injection Hz as <-.
  destruct (Nat.eqb_spec x head_) as [->|].
  - exfalso. pose proof (inv_nodup _ _ _ Hinv) as Hnd. apply NoDup_cons in Hnd as [Hnd _].
    apply Hnd, elem_of_app. right. left.
  - exists (Some x). split; [done|]. exists A, [x]. split_and!; try done. by constructor.
Qed.

Lemma SeekToLast_empty sl : repr sl [] → Iter_SeekToLast sl = Some None.
Proof.
  intros (L & Hinv & HF & Hv). apply Forall2_nil_inv_r in HF as ->. unfold Iter_SeekToLast, FindLast.
  destruct (descend_head compare_ sl [] [] [] Hinv eq_refl (λ _, Some true) [])
    as (prev & z & Hd & Hz & _); [by intros y ?%not_elem_of_nil..|].
  rewrite (FL_descend _ _ []), Hd. by injection Hz as <-.
Qed.

Lemma Next_position sl n before k after :
  position sl n before (k :: after) →
  ∃ n', Iter_Next sl n = Some n' ∧ position sl n' (before ++ [k]) after.
Proof.
  intros (A & B & Hinv & HA & HB & Hv & ->). apply Forall2_cons_inv_r in HB as (x & B' & Hx & HB & ->).
  exists (head B'). split.
  - cbn [head Iter_Next mbind option_bind].
    assert (∀ y, y ∈ A ++ x :: B' → tall sl 0 y) as Htall.
    { intros y Hy. pose proof (inv_height _ _ _ Hinv y Hy). unfold tall. lia. }
    rewrite (inv_links compare_ sl (A ++ x :: B') (head_ :: A) x B' 0 Hinv eq_refl); [|apply Htall, elem_of_app; right; left].
    rewrite filter_all; [done|]. intros y Hy. apply Htall, elem_of_app. right. by right.
  - exists (A ++ [x]), B'. rewrite <- !app_assoc. cbn [app]. split_and!; try done.
    apply Forall2_app; [done|]. by constructor.
Qed.

Lemma position_key sl n before after : position sl n before after → Iter_key sl n = head after ∧
  Iter_Valid n = match after with [] => false | _ => true end.
Proof.
  intros (A & B & _ & _ & HB & _ & ->). by destruct HB as [|x k B' a Hx HB].
Qed.

(** [Prev] finds the node before by its key. *)
Lemma Prev_position sl n before k after :
  position sl n before (k :: after) →
  ∃ n', Iter_Prev compare_ sl n = Some n' ∧
    match reverse before with
    | [] => n' = None
    | k' :: r => position sl n' (reverse r) (k' :: k :: after)
    end.
Proof.
  intros (A & B & Hinv & HA & HB & Hv & ->). apply Forall2_cons_inv_r in HB as (x & B' & Hx & HB & ->).
  cbn [head Iter_Prev mbind option_bind]. unfold keyed in Hx. rewrite Hx. cbn [mbind option_bind].
  assert (split_at sl k A (x :: B')) as Hs.
  { pose proof (inv_sorted _ _ _ Hinv) as Hso. apply StronglySorted_app in Hso as (Hc & _ & Hso).
    apply StronglySorted_inv in Hso as [_ Hmin]. unfold split_at, go_key.
    assert (valid k) as Hk by (by apply Forall_app in Hv as [_ Hv]; apply Forall_inv in Hv).
    split; intros y Hy.
    - destruct (Hc y x Hy) as (ky & kx & Hky & Hkx & Hlt); [left|]. rewrite Hky. rewrite Hx in Hkx.
      injection Hkx as <-. cbn. by rewrite (proj2 (Z.ltb_lt _ _) Hlt).
    - assert (∃ ky, key_of sl y = Some ky ∧ 0 <= compare_ ky k) as (ky & Hky & Hge); [|rewrite Hky; cbn; by rewrite (proj2 (Z.ltb_ge _ _) Hge)].
      apply elem_of_cons in Hy as [->|Hy].
      + exists k. split; [done|]. pose proof (ko_sym k k Hk Hk). lia.
      + destruct (proj1 (Forall_forall _ _) Hmin y Hy) as (kx & ky & Hkx & Hky & Hlt). rewrite Hx in Hkx.
        injection Hkx as <-. exists ky. split; [done|].
        destruct (keyed_elem _ _ _ _ HB Hy) as (ky' & Hin & Hky'). rewrite Hky' in Hky. injection Hky as ->.
        assert (valid ky) as Hvy by (apply (proj1 (Forall_forall _ _) Hv); apply elem_of_app; right; by right).
        pose proof (ko_sym k ky Hk Hvy). lia. }
  unfold FindLessThan.
  destruct (descend_head compare_ sl _ A (x :: B') Hinv eq_refl (go_key compare_ sl k) [] (proj1 Hs) (proj2 Hs))
    as (prev & z & Hd & Hz & _).
  rewrite (FLT_descend _ _ _ _ []), Hd. cbn [fmap option_fmap option_map mbind option_bind fst].
  eexists. split; [done|]. destruct before as [|k' before _] using rev_ind.
  - apply Forall2_nil_inv_r in HA as ->. by injection Hz as <-.
  - rewrite reverse_snoc. apply Forall2_app_inv_r in HA as (A' & C & HA & HC & ->).
    apply Forall2_cons_inv_r in HC as (w & C' & Hw & HC & ->). apply Forall2_nil_inv_r in HC as ->.
    change (head_ :: A' ++ [w]) with ((head_ :: A') ++ [w]) in Hz. rewrite last_snoc in Hz. injection Hz as <-.
    rewrite reverse_involutive. destruct (Nat.eqb_spec w head_) as [->|].
    + exfalso. pose proof (inv_nodup _ _ _ Hinv) as Hnd. apply NoDup_cons in Hnd as [Hnd _].
      apply Hnd. rewrite !elem_of_app. left. right. left.
    + exists A', (w :: x :: B'). rewrite <- app_assoc in Hinv, Hv. split_and!; try done. by repeat constructor.
Qed.

Lemma Contains_spec sl ks key :
  repr sl ks → valid key →
  Contains compare_ sl key = Some (match keys_from key ks with k :: _ => compare_ key k =? 0 | [] => false end).
Proof.
  intros Hr Ht. destruct (repr_split sl ks key Hr Ht) as (A & B & Hinv & HkL & Hs & HA & HB & Hks).
  unfold Contains, FindGreaterOrEqual.
  destruct (descend_head compare_ sl (A ++ B) A B Hinv eq_refl (go_key compare_ sl key) [] (proj1 Hs) (proj2 Hs))
    as (prev & z & Hd & _).
  rewrite FGE_descend, Hd. cbn [fmap option_fmap option_map mbind option_bind fst snd].
  destruct HB as [|x k B' ks' Hx HB]; [done|]. cbn [head]. unfold keyed in Hx. by rewrite Hx.
Qed.

Lemma repr_sorted sl ks : repr sl ks → StronglySorted (λ a b, compare_ a b < 0) ks.
Proof.
  intros (L & Hinv & HF & _). pose proof (inv_sorted _ _ _ Hinv) as Hso. clear Hinv.
  induction HF as [|x k L ks Hx HF IH]; [constructor|].
  apply StronglySorted_inv in Hso as [Hso Hmin]. constructor; [by apply IH|].
  apply Forall_forall. intros k' Hk'. destruct (keyed_elem_r _ _ _ _ HF Hk') as (y & Hy & Hyk).
  destruct (proj1 (Forall_forall _ _) Hmin y Hy) as (kx & ky & Hkx & Hky & Hlt).
  unfold keyed in Hx. congruence.
Qed.

Lemma Contains_exact sl ks key :
  repr sl ks → valid key →
  Contains compare_ sl key = Some (existsb (λ k, compare_ key k =? 0) ks).
Proof.
  intros Hr Hkey. rewrite (Contains_spec sl ks) by done. f_equal.
  destruct (repr_split sl ks key Hr Hkey) as (_ & _ & _ & _ & _ & _ & _ & Hks).
  pose proof (repr_sorted _ _ Hr) as Hso. destruct Hr as (_ & _ & _ & Hv). rewrite Hks in Hso, Hv.
  apply Forall_app in Hv as [Hvb Hvf].
  rewrite Hks at 2. rewrite existsb_app.
  assert (existsb (λ k, compare_ key k =? 0) (keys_below key ks) = false) as ->.
  { apply not_true_iff_false. intros (k & Hk & Heq)%existsb_exists. apply list_elem_of_In in Hk.
    pose proof (proj1 (Forall_forall _ _) Hvb k Hk) as Hvk.
    apply list_elem_of_filter in Hk as [Hlt _]. pose proof (ko_sym k key Hvk Hkey). lia. }
  apply StronglySorted_app in Hso as (_ & _ & Hso). cbn [orb].
  destruct (keys_from key ks) as [|h r] eqn:Hf; [done|]. cbn [existsb].
  apply StronglySorted_inv in Hso as [_ Hmin]. apply Forall_cons in Hvf as [Hvh Hvr].
  assert (existsb (λ k, compare_ key k =? 0) r = false) as ->; [|by rewrite orb_false_r].
  apply not_true_iff_false. intros (k & Hk & Heq%Z.eqb_eq)%existsb_exists. apply list_elem_of_In in Hk.
  pose proof (proj1 (Forall_forall _ _) Hvr k Hk) as Hvk.
  assert (0 <= compare_ h key) as Hge.
  { assert (h ∈ keys_from key ks) as Hin by (rewrite Hf; left). by apply list_elem_of_filter in Hin as [? _]. }
  assert (compare_ h key < 0); [|lia].
  apply (ko_trans_eq h k key); [done..| |].
  - by eapply (proj1 (Forall_forall _ _) Hmin).
  - pose proof (ko_sym k key Hvk Hkey). lia.
Qed.

(** Insertions one after the other. *)
Fixpoint Insert_all (ks : list K) sl : option (SkipList K) :=
  match ks with
  | [] => Some sl
  | k :: ks => sl ← Insert compare_ k sl; Insert_all ks sl
  end.

Definition distinct : list K → Prop := ForallOrdPairs (λ a b, compare_ a b ≠ 0).

Lemma Insert_all_repr ks sl ks0 :
  repr sl ks0 → Forall valid ks → distinct ks → (∀ a b, a ∈ ks0 → b ∈ ks → compare_ a b ≠ 0) →
  ∃ sl' ks', Insert_all ks sl = Some sl' ∧ repr sl' ks' ∧ ks' ≡ₚ ks ++ ks0.
Proof.
  revert sl ks0; induction ks as [|k ks IH]; intros sl ks0 Hr Hv Hd Hne.
  { by exists sl, ks0. }
  apply Forall_cons in Hv as [Hvk Hv]. inversion Hd as [|? ? Hk Hd']; subst.
  destruct (Insert_repr sl ks0 k Hr Hvk) as (sl1 & Hi & Hr1).
  { intros a Ha. apply Hne; [done|left]. }
  assert (keys_below k ks0 ++ k :: keys_from k ks0 ≡ₚ k :: ks0) as Hperm.
  { rewrite <- Permutation_middle. constructor.
    by destruct (repr_split sl ks0 k Hr Hvk) as (_ & _ & _ & _ & _ & _ & _ & <-). }
  destruct (IH sl1 _ Hr1 Hv Hd') as (sl' & ks' & Hi' & Hr' & Hp').
  { intros a b Ha Hb. rewrite Hperm in Ha. apply elem_of_cons in Ha as [->|Ha].
    - by eapply (proj1 (Forall_forall _ _) Hk).
    - apply Hne; [done|by right]. }
  exists sl', ks'. split_and!; [cbn; by rewrite Hi|done|]. rewrite Hp', Hperm.
  by rewrite <- Permutation_middle.
Qed.

(** Inserting any keys that are pairwise different under the comparator
    succeeds in every state, whatever heights the random generator picks, and
    yields a list that satisfies the invariant, holds exactly those keys and
    holds them in strictly increasing order. *)
Theorem skiplist_inserts ks :
  Forall valid ks → distinct ks →
  ∃ sl L ks', Insert_all ks SkipList_new = Some sl ∧ inv compare_ sl L ∧ Forall2 (keyed sl) L ks' ∧
    ks' ≡ₚ ks ∧ StronglySorted (λ a b, compare_ a b < 0) ks'.
Proof.
  intros Hv Hd. destruct (Insert_all_repr ks SkipList_new [] repr_new Hv Hd) as (sl & ks' & Hi & Hr & Hp).
  { by intros a b ?%not_elem_of_nil. }
  pose proof (repr_sorted _ _ Hr) as Hso. destruct Hr as (L & Hinv & HF & _). exists sl, L, ks'.
  rewrite app_nil_r in Hp. by split_and!.
Qed.

(** The operations of a skip list that holds the sorted keys [ks] implement
    the sorted sequence: insertion puts the key between the smaller and the
    greater ones, [Contains] is membership, [Seek] stops at the first key not
    below the target, and [SeekToFirst], [SeekToLast], [Next] and [Prev] move
    one key at a time. *)
Theorem skiplist_refines_sorted sl ks key :
  repr sl ks → valid key →
  ((∀ k, k ∈ ks → compare_ k key ≠ 0) →
     ∃ sl', Insert compare_ key sl = Some sl' ∧ repr sl' (keys_below key ks ++ key :: keys_from key ks)) ∧
  Contains compare_ sl key = Some (existsb (λ k, compare_ key k =? 0) ks) ∧
  (∃ n, Iter_Seek compare_ sl key = Some n ∧ position sl n (keys_below key ks) (keys_from key ks)) ∧
  (∃ n, Iter_SeekToFirst sl = Some n ∧ position sl n [] ks) ∧
  (∃ n, Iter_SeekToLast sl = Some n ∧
     match reverse ks with [] => n = None | k :: r => position sl n (reverse r) [k] end) ∧
  (∀ n before after, position sl n before after → before ++ after = ks →
     Iter_key sl n = head after ∧
     match after with
     | [] => Iter_Valid n = false
     | k :: after' =>
         (∃ n', Iter_Next sl n = Some n' ∧ position sl n' (before ++ [k]) after') ∧
         (∃ n', Iter_Prev compare_ sl n = Some n' ∧
            match reverse before with [] => n' = None | k' :: r => position sl n' (reverse r) (k' :: after) end)
     end).
Proof.
  intros Hr Hkey. split_and!.
  - by apply Insert_repr.
  - by apply Contains_exact.
  - by apply Seek_position.
  - by apply SeekToFirst_position.
  - destruct ks as [|k ks _] using rev_ind.
    + exists None. split; [by apply SeekToLast_empty|done].
    + rewrite reverse_snoc, reverse_involutive. by apply SeekToLast_position.
  - intros n before after Hpos _. destruct (position_key _ _ _ _ Hpos) as [Hk Hval]. split; [done|].
    destruct after as [|k after]; [done|]. split; [by apply Next_position|by apply Prev_position].
Qed.
End ordered.

#[export] Instance Z_KeyOrder : KeyOrder Z.sub (λ _, True).
Proof. split; lia. Qed.

Lemma skiplist_inserts_witness :
  ∃ sl L ks', Insert_all Z.sub [30; 10; 20] SkipList_new = Some sl ∧ inv Z.sub sl L ∧
    Forall2 (keyed sl) L ks' ∧ ks' ≡ₚ [30; 10; 20] ∧ StronglySorted (λ a b, a - b < 0) ks'.
Proof.
  apply (skiplist_inserts Z.sub (λ _, True)); [by repeat constructor|].
  repeat (constructor; [repeat constructor; lia|]). constructor.
Defined.

Lemma skiplist_refines_sorted_witness :
  ∃ sl, Insert_all Z.sub [30; 10; 20] SkipList_new = Some sl ∧ Contains Z.sub sl 20 = Some true.
Proof.
  destruct (Insert_all_repr Z.sub (λ _, True) [30; 10; 20] SkipList_new [])
    as (sl & ks & Hi & Hr & Hp).
  - apply repr_new.
  - by repeat constructor.
  - repeat (constructor; [repeat constructor; lia|]). constructor.
  - by intros a b ?%not_elem_of_nil.
  - exists sl. split; [done|].
    destruct (skiplist_refines_sorted Z.sub (λ _, True) sl ks 20 Hr I) as (_ & -> & _). f_equal.
    apply existsb_exists. exists 20. split; [|done]. apply list_elem_of_In. rewrite Hp. right. right. left.
Defined.
