(* ===== verification/Arena.v ===== *)
(** The arena allocator (util/arena.h, util/arena.cc): pieces of blocks obtained
    from [new char[]]. *)
From S2P Require Import Prelude.

(** A piece of memory: its first address and its size. *)
Definition piece : Type := Z * Z.

Definition within (p q : piece) : Prop := q.1 <= p.1 ∧ p.1 + p.2 <= q.1 + q.2.
Definition apart (p q : piece) : Prop := p.1 + p.2 <= q.1 ∨ q.1 + q.2 <= p.1.

(** [new char[n]] next to the live blocks, when it does not throw.  The result
    is a non-null address, is aligned for every fundamental type and overlaps no
    live block. *)
Class Allocator (new_array : list piece → Z → Z) := {
  new_positive blocks n : 0 < n → 0 < new_array blocks n;
  new_aligned blocks n : 0 < n → new_array blocks n mod 16 = 0;
  new_fresh blocks n b : 0 < n → b ∈ blocks → apart (new_array blocks n, n) b;
}.

Definition kBlockSize : Z := 4096.

(** [blocks_] also keeps each block's size, which [delete[]] recovers from the
    heap. *)
Record Arena := {
  alloc_ptr_ : Z;
  alloc_bytes_remaining_ : Z;
  blocks_ : list piece;
  memory_usage_ : Z;
}.

Definition Arena_new : Arena :=
  {| alloc_ptr_ := 0; alloc_bytes_remaining_ := 0; blocks_ := []; memory_usage_ := 0 |}.

Section arena.
Context (new_array : list piece → Z → Z).
Implicit Types a : Arena.

Definition AllocateNewBlock (block_bytes : Z) a : Arena * Z :=
  let result := new_array (blocks_ a) block_bytes in
  ({| alloc_ptr_ := alloc_ptr_ a; alloc_bytes_remaining_ := alloc_bytes_remaining_ a;
      blocks_ := blocks_ a ++ [(result, block_bytes)];
      memory_usage_ := u64 (memory_usage_ a + (block_bytes + 8)) |}, result).

(** The next [bytes] bytes of the current block. *)
Definition bump (bytes : Z) a : Arena :=
  {| alloc_ptr_ := alloc_ptr_ a + bytes; alloc_bytes_remaining_ := alloc_bytes_remaining_ a - bytes;
     blocks_ := blocks_ a; memory_usage_ := memory_usage_ a |}.

Definition AllocateFallback (bytes : Z) a : Arena * Z :=
  if kBlockSize / 4 <? bytes then AllocateNewBlock bytes a
  else let '(a, ptr) := AllocateNewBlock kBlockSize a in
       let a := {| alloc_ptr_ := ptr; alloc_bytes_remaining_ := kBlockSize;
                   blocks_ := blocks_ a; memory_usage_ := memory_usage_ a |} in
       (bump bytes a, alloc_ptr_ a).

Definition Allocate (bytes : Z) a : Arena * Z :=
  if bytes <=? alloc_bytes_remaining_ a then (bump bytes a, alloc_ptr_ a)
  else AllocateFallback bytes a.

(** Pointers have 8 bytes. *)
Definition AllocateAligned (bytes : Z) a : Arena * Z :=
  let align := 8 in
  let current_mod := Z.land (alloc_ptr_ a) (align - 1) in
  let slop := if current_mod =? 0 then 0 else align - current_mod in
  let needed := u64 (bytes + slop) in
  if needed <=? alloc_bytes_remaining_ a then (bump needed a, alloc_ptr_ a + slop)
  else AllocateFallback bytes a.

Definition MemoryUsage a : Z := memory_usage_ a.

(** A run of requests: aligned or not, and how many bytes. *)
Fixpoint allocate_all (reqs : list (bool * Z)) a : Arena * list Z :=
  match reqs with
  | [] => (a, [])
  | (aligned, n) :: reqs =>
      let '(a, p) := if aligned : bool then AllocateAligned n a else Allocate n a in
      let '(a, ps) := allocate_all reqs a in (a, p :: ps)
  end.

Context `{!Allocator new_array}.

(** The unused rest of the current block. *)
Definition rest_of a : piece := (alloc_ptr_ a, alloc_bytes_remaining_ a).

Definition usage_of (blocks : list piece) : Z := foldr (λ b n, b.2 + 8 + n) 0 blocks.

(** Blocks do not overlap; each handed-out piece and the rest lie in a block and
    do not overlap each other. *)
Record arena_inv a (given : list piece) : Prop := {
  ai_blocks : ForallOrdPairs apart (blocks_ a);
  ai_sizes : Forall (λ b, 0 < b.1 ∧ 0 < b.2) (blocks_ a);
  ai_given : ForallOrdPairs apart given;
  ai_within : Forall (λ p, 0 < p.2 ∧ ∃ b, b ∈ blocks_ a ∧ within p b) given;
  ai_rest : 0 <= alloc_bytes_remaining_ a ∧
    (alloc_ptr_ a = 0 ∧ alloc_bytes_remaining_ a = 0 ∨ ∃ b, b ∈ blocks_ a ∧ within (rest_of a) b);
  ai_rest_apart : Forall (apart (rest_of a)) given;
  ai_usage : memory_usage_ a = u64 (usage_of (blocks_ a));
}.

Lemma arena_inv_new : arena_inv Arena_new [].
Proof. split; try constructor; try done. by left. Qed.

Lemma apart_sym p q : apart p q → apart q p.
Proof. unfold apart. lia. Qed.

Lemma within_apart p q b c : within p b → within q c → apart b c → apart p q.
Proof. unfold within, apart. lia. Qed.

Lemma ForallOrdPairs_snoc {A} (R : A → A → Prop) l x :
  ForallOrdPairs R l → Forall (λ y, R y x) l → ForallOrdPairs R (l ++ [x]).
Proof.
  induction 1 as [|y l Hy Hl IH]; intros HF; cbn [app].
  - by repeat constructor.
  - apply Forall_cons in HF as [? HF]. constructor; [|by apply IH]. apply Forall_app. by repeat constructor.
Qed.

Lemma usage_of_snoc l b : usage_of (l ++ [b]) = usage_of l + (b.2 + 8).
Proof. unfold usage_of. induction l as [|c l IH]; cbn [app foldr] in *; lia. Qed.

(** A piece cut from the rest. *)
Lemma carve a given off n :
  arena_inv a given → 0 <= off → 0 < n → off + n <= alloc_bytes_remaining_ a →
  arena_inv (bump (off + n) a) ((alloc_ptr_ a + off, n) :: given).
Proof.
  intros [Hb Hs Hg Hw [Hr0 Hr] Ha Hu] Hoff Hn Hfit. destruct Hr as [[_ Hr]|(b & Hbin & Hbw)]; [lia|].
  unfold rest_of, within in Hbw. cbn [fst snd] in Hbw. split; cbn [bump blocks_ alloc_ptr_ alloc_bytes_remaining_ memory_usage_]; try done.
  - constructor; [|done]. eapply Forall_impl; [exact Ha|]. unfold apart, rest_of. cbn [fst snd]. lia.
  - constructor; [|done]. split; [done|]. exists b. split; [done|]. unfold within. cbn [fst snd]. lia.
  - split; [lia|]. right. exists b. split; [done|]. unfold within, rest_of. cbn. lia.
  - constructor; [unfold apart, rest_of; cbn; lia|].
    apply (Forall_impl _ _ _ (proj2 (Forall_and _ _) (conj Ha Hw))). intros [q m] [Hq [Hm _]].
    unfold apart, rest_of in *. cbn in *. lia.
Qed.

(** A new block, not yet used. *)
Lemma new_block a given n :
  arena_inv a given → 0 < n →
  let '(a', p) := AllocateNewBlock n a in
  p mod 8 = 0 ∧ (p, n) ∈ blocks_ a' ∧ 0 < p ∧
  alloc_ptr_ a' = alloc_ptr_ a ∧ alloc_bytes_remaining_ a' = alloc_bytes_remaining_ a ∧
  arena_inv a' given ∧ Forall (apart (p, n)) given ∧ apart (rest_of a) (p, n).
Proof.
  intros [Hb Hs Hg Hw [Hr0 Hr] Ha Hu] Hn. cbn [AllocateNewBlock blocks_ alloc_ptr_ alloc_bytes_remaining_].
  set (p := new_array (blocks_ a) n).
  pose proof (new_positive (blocks_ a) n Hn) as Hp0. fold p in Hp0.
  pose proof (new_aligned (blocks_ a) n Hn) as Hal. fold p in Hal.
  assert (∀ b, b ∈ blocks_ a → apart (p, n) b) as Hfr by (intros b; by apply new_fresh).
  assert (∀ q b, b ∈ blocks_ a → within q b → apart (p, n) q) as Hapart.
  { intros q b Hbin Hq. eapply within_apart; [|exact Hq|by apply Hfr]. unfold within. lia. }
  split_and!; try done.
  - replace p with (16 * (p / 16)) by (pose proof (Z.div_mod p 16); lia).
    replace (16 * (p / 16)) with (p / 16 * 2 * 8) by lia. apply Z_mod_mult.
  - apply elem_of_app. right. left.
  - split; cbn [blocks_ alloc_ptr_ alloc_bytes_remaining_ memory_usage_]; try done.
    + apply ForallOrdPairs_snoc; [done|]. apply Forall_forall. intros b Hbin. by apply apart_sym, Hfr.
    + apply Forall_app. split; [done|]. by repeat constructor.
    + apply (Forall_impl _ _ _ Hw). intros q [Hq (b & Hbin & Hbw)]. split; [done|]. exists b. split; [|done].
      apply elem_of_app. by left.
    + split; [done|]. destruct Hr as [Hr|(b & Hbin & Hbw)]; [by left|]. right. exists b. split; [|done].
      apply elem_of_app. by left.
    + rewrite Hu, usage_of_snoc. cbn [snd]. unfold u64. by rewrite Zplus_mod_idemp_l.
  - apply (Forall_impl _ _ _ Hw). intros q [_ (b & Hbin & Hbw)]. by eapply Hapart.
  - apply apart_sym. destruct Hr as [[Hp Hr]|(b & Hbin & Hbw)]; [|by eapply Hapart].
    unfold apart, rest_of. cbn. lia.
Qed.

Lemma AllocateFallback_spec a given n :
  arena_inv a given → 0 < n →
  let '(a', p) := AllocateFallback n a in arena_inv a' ((p, n) :: given) ∧ p mod 8 = 0.
Proof.
  intros Hinv Hn. unfold AllocateFallback. destruct (Z.ltb_spec (kBlockSize / 4) n) as [Hbig|Hsmall].
  - pose proof (new_block a given n Hinv Hn) as Hnew.
    destruct (AllocateNewBlock n a) as [a' p]. destruct Hnew as (Hal & Hin & Hp & Hptr & Hrem & Hinv' & Hap & Hrap).
    split; [|done]. destruct Hinv' as [Hb Hs Hg Hw Hr Ha Hu]. split; try done.
    + by constructor.
    + constructor; [|done]. split; [done|]. exists (p, n). split; [done|]. unfold within. lia.
    + constructor; [|done]. unfold rest_of in *. by rewrite Hptr, Hrem.
  - pose proof (new_block a given kBlockSize Hinv eq_refl) as Hnew.
    destruct (AllocateNewBlock kBlockSize a) as [a' p].
    destruct Hnew as (Hal & Hin & Hp & Hptr & Hrem & Hinv' & Hap & Hrap). cbn [alloc_ptr_].
    split; [|done]. set (a1 := {| alloc_ptr_ := p; alloc_bytes_remaining_ := kBlockSize; blocks_ := _; memory_usage_ := _ |}).
    assert (arena_inv a1 given) as Hinv1.
    { destruct Hinv' as [Hb Hs Hg Hw Hr Ha Hu]. split; try done. split; [done|]. right.
      exists (p, kBlockSize). split; [done|]. unfold within, rest_of. cbn. lia. }
    pose proof (carve a1 given 0 n Hinv1) as Hc. rewrite !Z.add_0_l in Hc. cbn [alloc_ptr_ a1 alloc_bytes_remaining_] in Hc.
    rewrite Z.add_0_r in Hc. apply Hc; [lia|done|]. change (kBlockSize / 4) with 1024 in Hsmall. unfold kBlockSize. lia.
Qed.

Lemma Allocate_spec a given n :
  arena_inv a given → 0 < n →
  let '(a', p) := Allocate n a in arena_inv a' ((p, n) :: given).
Proof.
  intros Hinv Hn. unfold Allocate. destruct (Z.leb_spec n (alloc_bytes_remaining_ a)) as [Hfit|_].
  - pose proof (carve a given 0 n Hinv) as Hc. rewrite Z.add_0_l, Z.add_0_r in Hc. apply Hc; lia.
  - pose proof (AllocateFallback_spec a given n Hinv Hn) as Hf. destruct (AllocateFallback n a). by destruct Hf.
Qed.

Lemma AllocateAligned_spec a given n :
  arena_inv a given → 0 < n < 2 ^ 63 →
  let '(a', p) := AllocateAligned n a in arena_inv a' ((p, n) :: given) ∧ p mod 8 = 0.
Proof.
  intros Hinv Hn. unfold AllocateAligned. cbv zeta. change (8 - 1) with (2 ^ 3 - 1).
  rewrite land_ones_mod by lia. change (2 ^ 3) with 8.
  pose proof (Z.mod_pos_bound (alloc_ptr_ a) 8) as Hm. pose proof (Z.div_mod (alloc_ptr_ a) 8) as Hd.
  set (slop := if alloc_ptr_ a mod 8 =? 0 then 0 else 8 - alloc_ptr_ a mod 8).
  assert (0 <= slop < 8 ∧ (alloc_ptr_ a + slop) mod 8 = 0) as [Hslop Hal].
  { unfold slop. destruct (Z.eqb_spec (alloc_ptr_ a mod 8) 0) as [H0|H0]; [split; [lia|by rewrite Z.add_0_r]|].
    split; [lia|]. replace (alloc_ptr_ a + (8 - alloc_ptr_ a mod 8)) with ((alloc_ptr_ a / 8 + 1) * 8) by lia.
    apply Z_mod_mult. }
  rewrite u64_small by lia. destruct (Z.leb_spec (n + slop) (alloc_bytes_remaining_ a)) as [Hfit|_].
  - split; [|done]. rewrite (Z.add_comm n). apply carve; [done|lia..].
  - apply AllocateFallback_spec; [done|lia].
Qed.

Lemma allocate_all_spec reqs a given :
  arena_inv a given → Forall (λ r, 0 < r.2 < 2 ^ 63) reqs →
  let '(a', ps) := allocate_all reqs a in
  arena_inv a' (reverse (zip ps reqs.*2) ++ given) ∧ length ps = length reqs ∧
  Forall2 (λ p r, r.1 = true → p mod 8 = 0) ps reqs.
Proof.
  revert a given; induction reqs as [|[al n] reqs IH]; intros a given Hinv HF; cbn [allocate_all].
  { split_and!; [done|done|constructor]. }
  apply Forall_cons in HF as [Hn HF]. cbn [snd] in Hn.
  set (step := if al then AllocateAligned n a else Allocate n a).
  assert (let '(a', p) := step in arena_inv a' ((p, n) :: given) ∧ (al = true → p mod 8 = 0)) as Hstep.
  { unfold step. destruct al.
    - pose proof (AllocateAligned_spec a given n Hinv Hn). destruct (AllocateAligned n a). tauto.
    - pose proof (Allocate_spec a given n Hinv (proj1 Hn)). by destruct (Allocate n a). }
  destruct step as [a1 p]. destruct Hstep as [Hinv1 Hal]. specialize (IH a1 _ Hinv1 HF).
  destruct (allocate_all reqs a1) as [a2 ps]. destruct IH as (Hinv2 & Hlen & HF2).
  split_and!; [|cbn; lia|by constructor].
  cbn [fmap list_fmap snd zip zip_with]. rewrite reverse_cons, <- app_assoc. exact Hinv2.
Qed.
End arena.

(** Memory handed out by an arena.  For every allocator that returns fresh
    aligned blocks and every sequence of [Allocate] and [AllocateAligned]
    requests, the pieces returned do not overlap, each lies inside one block the
    arena owns, aligned requests get addresses divisible by 8, and
    [MemoryUsage] is the size of the blocks plus one pointer each. *)
Theorem arena_pieces_disjoint new_array `{!Allocator new_array} reqs :
  Forall (λ r, 0 < r.2 < 2 ^ 63) reqs →
  let '(a, ps) := allocate_all new_array reqs Arena_new in
  length ps = length reqs ∧
  ForallOrdPairs apart (reverse (zip ps reqs.*2)) ∧
  Forall (λ p, ∃ b, b ∈ blocks_ a ∧ within p b) (zip ps reqs.*2) ∧
  Forall2 (λ p r, r.1 = true → p mod 8 = 0) ps reqs ∧
  MemoryUsage a = u64 (usage_of (blocks_ a)).
Proof.
  intros HF. pose proof (allocate_all_spec new_array reqs Arena_new [] (arena_inv_new) HF) as Hspec.
  destruct (allocate_all new_array reqs Arena_new) as [a ps]. destruct Hspec as (Hinv & Hlen & Hal).
  rewrite app_nil_r in Hinv. split_and!; try done; [apply Hinv| |apply Hinv].
  pose proof (ai_within _ _ Hinv) as Hw. rewrite Forall_reverse in Hw.
  apply (Forall_impl _ _ _ Hw). tauto.
Qed.

(** An allocator that places each block after the last one. *)
Definition top_of (blocks : list piece) : Z := foldr (λ b m, Z.max (b.1 + b.2) m) 0 blocks.
Definition linear_new (blocks : list piece) (n : Z) : Z := 16 * (top_of blocks / 16 + 1).

Lemma top_of_ge blocks : 0 <= top_of blocks ∧ (∀ b, b ∈ blocks → b.1 + b.2 <= top_of blocks).
Proof.
  induction blocks as [|c blocks [IH0 IH]]; cbn [top_of foldr]; [split; [done|by intros b ?%not_elem_of_nil]|].
  fold (top_of blocks). split; [lia|]. intros b [->|Hb]%elem_of_cons; [lia|]. specialize (IH b Hb). lia.
Qed.

#[export] Instance linear_Allocator : Allocator linear_new.
Proof.
  split; unfold linear_new; intros bs n; destruct (top_of_ge bs) as [H0 Htop].
  - intros _. pose proof (Z.div_pos _ 16 H0 eq_refl). lia.
  - intros _. rewrite Z.mul_comm. apply Z_mod_mult.
  - intros b _ Hb. right. cbn [fst snd]. specialize (Htop b Hb).
    pose proof (Z.div_mod (top_of bs) 16). pose proof (Z.mod_pos_bound (top_of bs) 16). lia.
Qed.

Lemma arena_pieces_disjoint_witness :
  let '(a, ps) := allocate_all linear_new [(false, 5); (true, 40); (false, 5000); (true, 8)] Arena_new in
  ps = [16; 24; 4128; 64] ∧ MemoryUsage a = u64 (usage_of (blocks_ a)).
Proof.
  pose proof (arena_pieces_disjoint linear_new [(false, 5); (true, 40); (false, 5000); (true, 8)]
    ltac:(repeat constructor)) as H.
  destruct (allocate_all linear_new [(false, 5); (true, 40); (false, 5000); (true, 8)] Arena_new) as [a ps] eqn:E.
  split; [|apply H]. change ps with (snd (a, ps)). rewrite <- E. reflexivity.
Defined.
