(* ===== verification/MemTable.v ===== *)
(** The memtable (db/memtable.h, db/memtable.cc): a skip list of encoded
    entries, read through lookup keys. *)
From stdpp Require Import sorting.
From S2P Require Import Prelude Coding Comparator DbFormat Env Random SkipList Arena.

(** [GetVarint32Ptr(p, p + 5, &v)] on memory that goes on after the limit: the
    value and the memory from the returned pointer on. *)
Definition entry_varint (data : list byte) : option (Z * list byte) :=
  '(v, r) ← GetVarint32Ptr (take 5 data);
  Some (v, drop (length (take 5 data) - length r) data).

(** Undefined when the slice would leave the memory of [data]. *)
Definition mem_GetLengthPrefixedSlice (data : list byte) : option (list byte) :=
  '(len, p) ← entry_varint data;
  if len <=? Z.of_nat (length p) then Some (take (Z.to_nat len) p) else None.

Definition EncodeKey (target : list byte) : list byte :=
  PutVarint32 [] (u32 (Z.of_nat (length target))) ++ target.

(** [sizeof(Node) + sizeof(std::atomic<Node*>) * (height - 1)] for pointer keys. *)
Definition node_bytes (height : nat) : Z := 16 + 8 * (Z.of_nat height - 1).

(** An entry: its internal key, parsed, and its value. *)
Notation entry := (ParsedInternalKey * list byte)%type (only parsing).

Section memtable.
Context {C : Type} `{!Comparator C} (new_array : list piece → Z → Z).
Implicit Types icmp : InternalKeyComparator C.

(** The keys of the skip list point to entries, which are immutable: they are
    the entries' bytes here.  On memory that holds no entry the comparator's
    value is arbitrary. *)
Definition KeyComparator icmp (aptr bptr : list byte) : Z :=
  internal_Compare icmp (default [] (mem_GetLengthPrefixedSlice aptr))
                        (default [] (mem_GetLengthPrefixedSlice bptr)).

Record MemTable := {
  comparator_ : InternalKeyComparator C;
  refs_ : Z;
  arena_ : Arena;
  table_ : SkipList (list byte);
}.

Definition MemTable_new icmp : MemTable :=
  {| comparator_ := icmp; refs_ := 0;
     arena_ := (AllocateAligned new_array (node_bytes kMaxHeight) Arena_new).1;
     table_ := SkipList_new |}.

Definition MemTable_Ref (m : MemTable) : MemTable :=
  {| comparator_ := comparator_ m; refs_ := refs_ m + 1; arena_ := arena_ m; table_ := table_ m |}.

(** [None] when the last reference goes and the memtable is deleted. *)
Definition MemTable_Unref (m : MemTable) : option MemTable :=
  let m := {| comparator_ := comparator_ m; refs_ := refs_ m - 1; arena_ := arena_ m; table_ := table_ m |} in
  if refs_ m <=? 0 then None else Some m.

Definition ApproximateMemoryUsage (m : MemTable) : Z := MemoryUsage (arena_ m).

(** The size [Add] asks the arena for, and the bytes it writes. *)
Definition encoded_len (key value : list byte) : Z :=
  let internal_key_size := Z.of_nat (length key) + 8 in
  VarintLength internal_key_size + internal_key_size +
  VarintLength (Z.of_nat (length value)) + Z.of_nat (length value).

Definition encoded_entry (s : Z) (t : ValueType) (key value : list byte) : list byte :=
  EncodeVarint32 (u32 (Z.of_nat (length key) + 8)) ++ key ++
  EncodeFixed64 (Z.lor (u64 (s ≪ 8)) (ValueType_num t)) ++
  EncodeVarint32 (u32 (Z.of_nat (length value))) ++ value.

Definition MemTable_Add (s : Z) (t : ValueType) (key value : list byte) (m : MemTable) : option MemTable :=
  let buf := encoded_entry s t key value in
  let '(arena, _) := Allocate new_array (encoded_len key value) (arena_ m) in
  let '(height, _) := RandomHeight (rnd_ (table_ m)) in
  table ← Insert (KeyComparator (comparator_ m)) buf (table_ m);
  let '(arena, _) := AllocateAligned new_array (node_bytes height) arena in
  Some {| comparator_ := comparator_ m; refs_ := refs_ m; arena_ := arena; table_ := table |}.

(** What [Get] does with the entry the search stopped at; the result and the
    outputs [*value] and [*s]. *)
Definition Get_entry (c : C) (key : LookupKey) (value : list byte) (s : Status) (entry : list byte)
    : option (bool * list byte * Status) :=
  '(key_length, key_ptr) ← entry_varint entry;
  if (key_length <? 8) || (Z.of_nat (length key_ptr) <? key_length) then None else
  let n := Z.to_nat key_length in
  if Compare c (take (n - 8) key_ptr) (lookup_user_key key) =? 0
  then tag ← DecodeFixed64 (drop (n - 8) key_ptr);
       let c := Z.land tag 255 in
       if c =? ValueType_num kTypeValue
       then v ← mem_GetLengthPrefixedSlice (drop n key_ptr); Some (true, v, s)
       else if c =? ValueType_num kTypeDeletion then Some (true, value, NotFound [])
       else Some (false, value, s)
  else Some (false, value, s).

Definition MemTable_Get (m : MemTable) (key : LookupKey) (value : list byte) (s : Status)
    : option (bool * list byte * Status) :=
  let memkey := memtable_key key in
  iter ← Iter_Seek (KeyComparator (comparator_ m)) (table_ m) memkey;
  if Iter_Valid iter
  then entry ← Iter_key (table_ m) iter;
       Get_entry (user_comparator_ (comparator_ m)) key value s entry
  else Some (false, value, s).

(** ** Iterators over a memtable: the skip list's, on the entries' parts *)

Definition MemIter_Seek (m : MemTable) (k : list byte) : option (option nat) :=
  Iter_Seek (KeyComparator (comparator_ m)) (table_ m) (EncodeKey k).
Definition MemIter_SeekToFirst (m : MemTable) : option (option nat) := Iter_SeekToFirst (table_ m).
Definition MemIter_SeekToLast (m : MemTable) : option (option nat) := Iter_SeekToLast (table_ m).
Definition MemIter_Next (m : MemTable) (n : option nat) : option (option nat) := Iter_Next (table_ m) n.
Definition MemIter_Prev (m : MemTable) (n : option nat) : option (option nat) :=
  Iter_Prev (KeyComparator (comparator_ m)) (table_ m) n.
Definition MemIter_key (m : MemTable) (n : option nat) : option (list byte) :=
  e ← Iter_key (table_ m) n; mem_GetLengthPrefixedSlice e.
Definition MemIter_value (m : MemTable) (n : option nat) : option (list byte) :=
  e ← Iter_key (table_ m) n;
  '(len, p) ← entry_varint e;
  if len <=? Z.of_nat (length p) then mem_GetLengthPrefixedSlice (drop (Z.to_nat len) p) else None.

(** ** Entries *)

Definition ikey (e : entry) : list byte := AppendInternalKey [] e.1.
Definition encode (e : entry) : list byte := encoded_entry (sequence e.1) (type e.1) (user_key e.1) e.2.
Definition tag_of (e : entry) : Z := PackSequenceAndType (sequence e.1) (type e.1).

Definition entry_ok (uvalid : list byte → Prop) (e : entry) : Prop :=
  uvalid (user_key e.1) ∧ 0 <= sequence e.1 <= kMaxSequenceNumber ∧
  Z.of_nat (length (user_key e.1)) + 8 < 2 ^ 32 ∧ Z.of_nat (length e.2) < 2 ^ 32.

Fixpoint Add_all (es : list entry) (m : MemTable) : option MemTable :=
  match es with
  | [] => Some m
  | e :: es => m ← MemTable_Add (sequence e.1) (type e.1) (user_key e.1) e.2 m; Add_all es m
  end.

(** What a read of [u] at sequence [s] sees: the newest entry of [u] not newer
    than [s]. *)
Definition visible (c : C) (u : list byte) (s : Z) (e : entry) : bool :=
  (Compare c (user_key e.1) u =? 0) && (sequence e.1 <=? s).

Fixpoint newest (c : C) (u : list byte) (s : Z) (es : list entry) : option entry :=
  match es with
  | [] => None
  | e :: es =>
      let r := newest c u s es in
      if visible c u s e
      then match r with
           | Some e' => if tag_of e <? tag_of e' then r else Some e
           | None => Some e
           end
      else r
  end.
End memtable.
Arguments MemTable C : clear implicits.

(** ** Reading entries back *)

Lemma entry_varint_Encode v r : 0 <= v < 2 ^ 32 → entry_varint (EncodeVarint32 v ++ r) = Some (v, r).
Proof.
  intros Hv. pose proof (length_EncodeVarint32 v) as Hlen. unfold entry_varint.
  rewrite take_app_ge by lia. change GetVarint32Ptr with GetVarint32.
  rewrite GetVarint32_Put by done. cbn [mbind option_bind]. do 2 f_equal.
  rewrite length_app. rewrite Nat.add_sub. apply drop_app_length.
Qed.

Lemma prefixed_Encode s r :
  Z.of_nat (length s) < 2 ^ 32 →
  mem_GetLengthPrefixedSlice (EncodeVarint32 (Z.of_nat (length s)) ++ s ++ r) = Some s.
Proof.
  intros Hs. unfold mem_GetLengthPrefixedSlice. rewrite entry_varint_Encode by lia. cbn [mbind option_bind].
  rewrite length_app, (proj2 (Z.leb_le _ _)) by lia. by rewrite Nat2Z.id, take_app_length.
Qed.

(** An entry is its internal key and its value, each with its length. *)
Lemma encode_parts uvalid e :
  entry_ok uvalid e →
  encode e = EncodeVarint32 (Z.of_nat (length (ikey e))) ++ ikey e ++
             EncodeVarint32 (Z.of_nat (length e.2)) ++ e.2 ∧
  Z.of_nat (length (ikey e)) < 2 ^ 32.
Proof.
  intros (_ & _ & Hk & Hv). unfold ikey, AppendInternalKey, PutFixed64, PackSequenceAndType. cbn [app].
  rewrite length_app, length_EncodeFixed64, Nat2Z.inj_add. split; [|lia].
  unfold encode, encoded_entry. rewrite !u32_small by lia. by rewrite <- app_assoc.
Qed.

Lemma ikey_app e : ikey e = user_key e.1 ++ EncodeFixed64 (tag_of e).
Proof. done. Qed.

Lemma tag_of_range uvalid e : entry_ok uvalid e → tag_of e = sequence e.1 * 256 + ValueType_num (type e.1) ∧ 0 <= tag_of e < 2 ^ 64.
Proof. intros (_ & Hs & _). by apply pack_value. Qed.

(** The space [Add] asks the arena for is exactly the space its entry takes,
    and the entry read back gives the key and the value, for keys and values
    whose sizes fit in 32 bits. *)
Theorem memtable_entry_layout uvalid e :
  entry_ok uvalid e →
  Z.of_nat (length (encode e)) = encoded_len (user_key e.1) e.2 ∧
  mem_GetLengthPrefixedSlice (encode e) = Some (ikey e) ∧
  (∃ p, entry_varint (encode e) = Some (Z.of_nat (length (ikey e)), p) ∧
     mem_GetLengthPrefixedSlice (drop (length (ikey e)) p) = Some e.2).
Proof.
  intros Hok. destruct (encode_parts uvalid e Hok) as [He Hk]. pose proof Hok as (_ & _ & Hlen & Hv).
  split_and!.
  - rewrite He. unfold encoded_len. rewrite !length_app, ikey_app, !length_app, length_EncodeFixed64.
    rewrite !Nat2Z.inj_add. unfold VarintLength.
    rewrite !(VarintLength_loop_exact 10) by (simpl; lia). change (EncodeVarint64_loop 10) with EncodeVarint64.
    rewrite <- !EncodeVarint32_64 by lia. change (Z.of_nat 8) with 8. lia.
  - rewrite He. by apply prefixed_Encode.
  - rewrite He. rewrite entry_varint_Encode by lia. eexists. split; [done|].
    rewrite drop_app_length. pose proof (prefixed_Encode e.2 [] Hv) as H. by rewrite app_nil_r in H.
Qed.

Section memtable_proofs.
Context {C : Type} `{!Comparator C} {uvalid : list byte → Prop} `{!ComparatorLaws C uvalid}.
Context (new_array : list piece → Z → Z).
Implicit Types (icmp : InternalKeyComparator C) (m : MemTable C).

(** Memory that starts with an encoded internal key. *)
Definition valid_entry (d : list byte) : Prop :=
  ∃ k, mem_GetLengthPrefixedSlice d = Some k ∧ valid_key uvalid k.

#[export] Instance KeyComparator_order icmp : KeyOrder (KeyComparator icmp) valid_entry.
Proof.
  split; unfold KeyComparator; change (internal_Compare icmp) with (Compare icmp).
  - intros a b (ka & -> & Ha) (kb & -> & Hb). cbn [default id]. by apply (compare_sym icmp).
  - intros a b d (ka & -> & Ha) (kb & -> & Hb) (kd & -> & Hd) H1 H2.
    apply (compare_lt_le_trans icmp ka kb kd Ha Hb Hd); [done|by apply Z.lt_le_incl].
  - intros a b d (ka & -> & Ha) (kb & -> & Hb) (kd & -> & Hd) H1 H2.
    apply (compare_lt_le_trans icmp ka kb kd Ha Hb Hd); [done|by apply Z.eq_le_incl].
Qed.

Lemma prefixed_encode e : entry_ok uvalid e → mem_GetLengthPrefixedSlice (encode e) = Some (ikey e).
Proof. intros Hok. destruct (encode_parts uvalid e Hok) as [-> Hk]. by apply prefixed_Encode. Qed.

Lemma encode_valid e : entry_ok uvalid e → valid_entry (encode e).
Proof.
  intros Hok. exists (ikey e). split; [by apply prefixed_encode|]. rewrite ikey_app.
  apply valid_key_app, Hok.
Qed.

(** Entries compare by user key, then newest first. *)
Lemma KeyComparator_encode icmp e d k v :
  entry_ok uvalid e → mem_GetLengthPrefixedSlice d = Some (k ++ EncodeFixed64 v) → 0 <= v < 2 ^ 64 →
  KeyComparator icmp (encode e) d =
  (let r := Compare (user_comparator_ icmp) (user_key e.1) k in
   if r =? 0 then Z.sgn (v - tag_of e) else r).
Proof.
  intros Hok Hd Hv. unfold KeyComparator. rewrite prefixed_encode, Hd by done. cbn [default].
  rewrite ikey_app. apply internal_Compare_app; [by eapply tag_of_range|done].
Qed.

Lemma lookup_prefixed u s :
  Z.of_nat (length u) + 8 < 2 ^ 32 →
  mem_GetLengthPrefixedSlice (memtable_key (LookupKey_new u s)) =
  Some (u ++ EncodeFixed64 (PackSequenceAndType s kValueTypeForSeek)).
Proof.
  intros Hu. unfold memtable_key, LookupKey_new. cbn [lk_data]. rewrite u32_small by lia.
  set (k := u ++ EncodeFixed64 _).
  replace (Z.of_nat (length u) + 8) with (Z.of_nat (length k))
    by (unfold k; rewrite length_app, length_EncodeFixed64; lia).
  rewrite <- (app_nil_r k) at 2. apply prefixed_Encode.
  unfold k. rewrite length_app, length_EncodeFixed64. lia.
Qed.

Lemma EncodeFixed64_inj v w :
  0 <= v < 2 ^ 64 → 0 <= w < 2 ^ 64 → EncodeFixed64 v = EncodeFixed64 w → v = w.
Proof.
  intros Hv Hw Heq. pose proof (Decode_EncodeFixed64 v []) as H. rewrite Heq, Decode_EncodeFixed64 in H.
  injection H as H. by rewrite !u64_small in H.
Qed.

Lemma encode_inj e e' : entry_ok uvalid e → entry_ok uvalid e' → encode e = encode e' → e = e'.
Proof.
  intros Hok Hok' Heq.
  assert (ikey e = ikey e') as Hk.
  { pose proof (prefixed_encode e Hok) as H. rewrite Heq, prefixed_encode in H by done. by injection H as ->. }
  destruct (encode_parts _ _ Hok) as [He _], (encode_parts _ _ Hok') as [He' _].
  rewrite He, He', Hk in Heq. apply app_inv_head, app_inv_head in Heq.
  assert (e.2 = e'.2) as Hv.
  { destruct Hok as (_ & _ & _ & Hl), Hok' as (_ & _ & _ & Hl').
    pose proof (prefixed_Encode e.2 [] Hl) as H. rewrite app_nil_r, Heq in H.
    pose proof (prefixed_Encode e'.2 [] Hl') as H'. rewrite app_nil_r in H'. congruence. }
  rewrite !ikey_app in Hk. apply app_inj_2 in Hk as [Hu Ht]; [|done].
  apply EncodeFixed64_inj in Ht; [|by eapply tag_of_range..].
  destruct (tag_of_range _ _ Hok) as [H1 _], (tag_of_range _ _ Hok') as [H2 _].
  destruct e as [[u s t] v], e' as [[u' s' t'] v']. cbn in *. rewrite H1, H2 in Ht.
  assert (s = s' ∧ t = t') as [-> ->] by (destruct t, t'; cbn in Ht; split; done || lia). by subst.
Qed.

(** ** Contents *)

(** The memtable holds the entries [es]. *)
Definition mem_repr m (es : list entry) : Prop :=
  Forall (entry_ok uvalid) es ∧
  ∃ es', repr (KeyComparator (comparator_ m)) valid_entry (table_ m) (encode <$> es') ∧ es' ≡ₚ es.

Lemma mem_repr_new icmp : mem_repr (MemTable_new new_array icmp) [].
Proof. split; [constructor|]. exists []. split; [apply repr_new|done]. Qed.

Lemma filter_encode (P : list byte → Prop) `{∀ x, Decision (P x)} (es : list entry) :
  filter P (encode <$> es) = encode <$> filter (λ e, P (encode e)) es.
Proof.
  induction es as [|e es IH]; [done|]. rewrite fmap_cons, !filter_cons.
  destruct (decide (P (encode e))); [|done]. by rewrite fmap_cons, IH.
Qed.

Lemma Add_repr m es e :
  mem_repr m es → entry_ok uvalid e → (∀ e', e' ∈ es → sequence e'.1 ≠ sequence e.1) →
  ∃ m', MemTable_Add new_array (sequence e.1) (type e.1) (user_key e.1) e.2 m = Some m' ∧
    mem_repr m' (e :: es) ∧ comparator_ m' = comparator_ m.
Proof.
  intros (Hes & es' & Hr & Hp) Hok Hne. unfold MemTable_Add. fold (encode e).
  destruct (Allocate _ _ _) as [ar p]. destruct (RandomHeight _) as [h r].
  destruct (Insert_repr _ valid_entry (table_ m) (encode <$> es') (encode e) Hr (encode_valid e Hok)) as (sl & Hi & Hr').
  { intros k (e' & -> & He')%list_elem_of_fmap. rewrite Hp in He'.
    pose proof (proj1 (Forall_forall _ _) Hes e' He') as Hok'.
    rewrite (KeyComparator_encode _ e' _ (user_key e.1) (tag_of e));
      [|done|by rewrite prefixed_encode|by eapply tag_of_range].
    cbv zeta. destruct (Z.eqb_spec (Compare (user_comparator_ (comparator_ m)) (user_key e'.1) (user_key e.1)) 0); [|done].
    destruct (tag_of_range _ _ Hok) as [-> _]. destruct (tag_of_range _ _ Hok') as [-> _].
    specialize (Hne e' He'). pose proof (ValueType_num_range (type e.1)). pose proof (ValueType_num_range (type e'.1)). lia. }
  rewrite Hi. cbn [mbind option_bind]. destruct (AllocateAligned _ _ _) as [ar' p'].
  eexists. split; [done|]. split; [|done]. split; [by constructor|].
  unfold keys_below, keys_from in Hr'. rewrite !filter_encode in Hr'.
  rewrite <- fmap_cons, <- fmap_app in Hr'. cbn [comparator_ table_]. eexists. split; [exact Hr'|].
  rewrite <- Permutation_middle, <- Hp. constructor.
  rewrite <- (filter_app_complement (λ e', KeyComparator (comparator_ m) (encode e') (encode e) < 0) es') at 3.
  apply Permutation_app_head. apply reflexive_eq, list_filter_iff. intros e'. lia.
Qed.

Lemma Add_all_repr es m es0 :
  mem_repr m es0 → Forall (entry_ok uvalid) es → NoDup ((λ e : entry, sequence e.1) <$> es ++ es0) →
  ∃ m', Add_all new_array es m = Some m' ∧ mem_repr m' (reverse es ++ es0) ∧ comparator_ m' = comparator_ m.
Proof.
  revert m es0; induction es as [|e es IH]; intros m es0 Hm Hok Hnd; [by exists m|].
  apply Forall_cons in Hok as [He Hok]. cbn [app] in Hnd. rewrite fmap_cons in Hnd.
  apply NoDup_cons in Hnd as [Hin Hnd].
  destruct (Add_repr m es0 e Hm He) as (m1 & Ha & Hm1 & Hc1).
  { intros e' He' Heq. apply Hin. rewrite <- Heq. rewrite fmap_app. apply elem_of_app. right.
    by apply (list_elem_of_fmap_2 (λ e : entry, sequence e.1)). }
  destruct (IH m1 (e :: es0) Hm1 Hok) as (m' & Ha' & Hm' & Hc').
  { rewrite fmap_app, fmap_cons, <- Permutation_middle, <- fmap_app. by constructor. }
  exists m'. cbn [Add_all]. rewrite Ha. cbn [mbind option_bind]. split; [done|].
  split; [|congruence]. rewrite reverse_cons, <- app_assoc. done.
Qed.

(** ** Reads *)

Lemma newest_None c u s es :
  (∀ e, e ∈ es → visible c u s e = false) → newest c u s es = None.
Proof.
  induction es as [|e es IH]; intros Hall; [done|]. cbn [newest]. rewrite (Hall e) by left.
  apply IH. intros e' He'. apply Hall. by right.
Qed.

Lemma newest_Some c u s es e :
  e ∈ es → visible c u s e = true →
  (∀ e', e' ∈ es → visible c u s e' = true → e' = e ∨ tag_of e' < tag_of e) →
  newest c u s es = Some e.
Proof.
  intros Hin Hv Hmax.
  assert (∀ l, (∀ e', e' ∈ l → visible c u s e' = true → e' = e ∨ tag_of e' < tag_of e) →
    match newest c u s l with
    | Some e' => (e' = e ∨ e ∉ l ∧ tag_of e' < tag_of e)
    | None => e ∉ l
    end) as Hgen.
  { induction l as [|x l IH]; intros Hl; cbn [newest]; [apply not_elem_of_nil|].
    assert (∀ e', e' ∈ l → visible c u s e' = true → e' = e ∨ tag_of e' < tag_of e) as Hl'
      by (intros e' He'; apply Hl; by right).
    specialize (IH Hl'). destruct (visible c u s x) eqn:Hx.
    - destruct (Hl x ltac:(left) Hx) as [->|Hlt].
      + destruct (newest c u s l) as [e'|]; [|by left].
        destruct IH as [->|[_ Ht]]; [destruct (tag_of e <? tag_of e); by left|].
        rewrite (proj2 (Z.ltb_ge _ _)) by lia. by left.
      + destruct (newest c u s l) as [e'|].
        * destruct IH as [->|[Hn Ht]]; [rewrite (proj2 (Z.ltb_lt _ _)) by lia; by left|].
          destruct (tag_of x <? tag_of e'); right; (split; [|done]);
            intros [->|?]%elem_of_cons; [lia|done|lia|done].
        * right. split; [|done]. intros [->|?]%elem_of_cons; [lia|done].
    - assert (e ≠ x) as Hne by congruence. destruct (newest c u s l) as [e'|].
      + destruct IH as [->|[Hn Ht]]; [by left|]. right. split; [|done]. by intros [?|?]%elem_of_cons.
      + by intros [?|?]%elem_of_cons. }
  specialize (Hgen es Hmax). destruct (newest c u s es); [|done]. destruct Hgen as [->|[? _]]; done.
Qed.

(** What [Get] reports for the entry a read sees. *)
Definition get_result (o : option entry) (value : list byte) (st : Status) : bool * list byte * Status :=
  match o with
  | None => (false, value, st)
  | Some e => match type e.1 with
              | kTypeValue => (true, e.2, st)
              | kTypeDeletion => (true, value, NotFound [])
              end
  end.

(** Reading the parts of the entry under the iterator. *)
Lemma Get_entry_encode (c : C) e u s value st :
  entry_ok uvalid e →
  Get_entry c (LookupKey_new u s) value st (encode e) =
  Some (if Compare c (user_key e.1) u =? 0 then get_result (Some e) value st else (false, value, st)).
Proof.
  intros Hok. destruct (encode_parts uvalid e Hok) as [He Hk]. pose proof Hok as (_ & _ & _ & Hv).
  destruct (tag_of_range _ _ Hok) as [Htag Hr].
  unfold Get_entry. rewrite He, entry_varint_Encode by lia. cbn [mbind option_bind].
  assert (length (ikey e) = (length (user_key e.1) + 8)%nat) as Hlen
    by (rewrite ikey_app, length_app; done).
  rewrite (proj2 (Z.ltb_ge _ 8)), (proj2 (Z.ltb_ge _ (Z.of_nat (length (ikey e))))) by (rewrite ?length_app; lia).
  cbn [orb]. cbv zeta. rewrite Nat2Z.id, drop_app_length, lookup_user_key_new, Hlen, Nat.add_sub.
  rewrite ikey_app, <- app_assoc, take_app_length, drop_app_length.
  destruct (_ =? 0); [|done]. rewrite Decode_EncodeFixed64, u64_small by done. cbn [mbind option_bind].
  change 255 with (2 ^ 8 - 1). rewrite land_ones_mod, Htag by lia. change (2 ^ 8) with 256.
  pose proof (ValueType_num_range (type e.1)). rewrite Z.add_comm, Z_mod_plus_full, Z.mod_small by lia.
  pose proof (prefixed_Encode e.2 [] Hv) as Hp. rewrite app_nil_r in Hp. rewrite Hp.
  unfold get_result. by destruct (type e.1).
Qed.

Section get.
Context (m : MemTable C) (es : list entry) (Hm : mem_repr m es).
Context (u : list byte) (s : Z).
Hypothesis Hu : uvalid u.
Hypothesis Hlen : Z.of_nat (length u) + 8 < 2 ^ 32.
Hypothesis Hs : 0 <= s <= kMaxSequenceNumber.
Let c : C := user_comparator_ (comparator_ m).
Let lk : list byte := memtable_key (LookupKey_new u s).

Lemma lk_valid : valid_entry lk.
Proof.
  eexists. split; [by apply lookup_prefixed|]. by apply valid_key_app.
Qed.

Lemma compare_lk e : entry_ok uvalid e →
  KeyComparator (comparator_ m) (encode e) lk =
  (let r := Compare c (user_key e.1) u in if r =? 0 then Z.sgn (s * 256 + 1 - tag_of e) else r).
Proof.
  intros Hok. destruct (pack_value s kValueTypeForSeek Hs) as [Hp Hr].
  rewrite (KeyComparator_encode _ e lk u _ Hok (lookup_prefixed u s Hlen) Hr). by rewrite Hp.
Qed.

Lemma visible_from e : entry_ok uvalid e →
  visible c u s e = true ↔ Compare c (user_key e.1) u = 0 ∧ 0 <= KeyComparator (comparator_ m) (encode e) lk.
Proof.
  intros Hok. rewrite compare_lk by done. unfold visible. cbv zeta.
  destruct (tag_of_range _ _ Hok) as [-> _]. pose proof (ValueType_num_range (type e.1)).
  destruct (Z.eqb_spec (Compare c (user_key e.1) u) 0) as [Heq|Hne]; cbn [andb]; [|split; [done|lia]].
  rewrite Z.leb_le. lia.
Qed.

(** A visible entry that sorts after an entry not below the lookup key. *)
Lemma after_tags e e' :
  entry_ok uvalid e → entry_ok uvalid e' → visible c u s e' = true →
  0 <= KeyComparator (comparator_ m) (encode e) lk →
  KeyComparator (comparator_ m) (encode e) (encode e') < 0 →
  Compare c (user_key e.1) u = 0 ∧ tag_of e' < tag_of e.
Proof.
  intros Hok Hok' Hvis Hge Hlt. apply visible_from in Hvis as [Heq' _]; [|done].
  rewrite compare_lk in Hge by done.
  rewrite (KeyComparator_encode _ e _ (user_key e'.1) (tag_of e')) in Hlt;
    [|done|by apply prefixed_encode|by eapply tag_of_range]. cbv zeta in *. fold c in Hlt.
  pose proof Hok as (Hv & _). pose proof Hok' as (Hv' & _).
  destruct (Z.eqb_spec (Compare c (user_key e.1) (user_key e'.1)) 0) as [H0|H0].
  - pose proof (compare_eq_l c _ _ u Hv Hv' Hu H0). lia.
  - pose proof (compare_lt_le_trans c _ _ u Hv Hv' Hu Hlt) as Hl.
    destruct (Z.eqb_spec (Compare c (user_key e.1) u) 0); lia.
Qed.

Lemma Get_repr value st :
  MemTable_Get m (LookupKey_new u s) value st = Some (get_result (newest c u s es) value st).
Proof.
  destruct Hm as (Hes & es' & Hr & Hp).
  destruct (Seek_position _ _ _ _ lk Hr lk_valid) as (n & Hseek & Hpos).
  unfold MemTable_Get. fold lk. rewrite Hseek. cbn [mbind option_bind].
  destruct (position_key _ _ _ _ _ _ Hpos) as [Hkey Hval]. rewrite Hkey, Hval.
  pose proof (repr_sorted _ _ _ _ Hr) as Hso.
  destruct (repr_split _ _ _ _ lk Hr lk_valid) as (_ & _ & _ & _ & _ & _ & _ & Hks).
  rewrite Hks in Hso. apply StronglySorted_app in Hso as (_ & _ & Hso). clear Hks Hpos Hseek.
  assert (∀ e, e ∈ es → visible c u s e = true → encode e ∈ keys_from (KeyComparator (comparator_ m)) lk (encode <$> es')) as Hfrom.
  { intros e He Hvis. apply visible_from in Hvis as [_ Hge]; [|by eapply Forall_forall].
    apply list_elem_of_filter. split; [done|]. apply list_elem_of_fmap_2. by rewrite Hp. }
  unfold keys_from in *. rewrite filter_encode in *.
  set (F := filter _ es') in *.
  assert (∀ e, e ∈ F → e ∈ es ∧ entry_ok uvalid e ∧ 0 <= KeyComparator (comparator_ m) (encode e) lk) as HF.
  { intros e [Hge He]%list_elem_of_filter. rewrite Hp in He. split_and!; [done|by eapply Forall_forall|done]. }
  destruct F as [|e F].
  { cbn [fmap list_fmap]. rewrite newest_None; [done|]. intros e He. apply not_true_iff_false. intros Hvis.
    by apply (Hfrom e He), not_elem_of_nil in Hvis. }
  cbn [fmap list_fmap head mbind option_bind]. destruct (HF e) as (He & Hok & Hge); [left|].
  rewrite Get_entry_encode by done. fold c. f_equal.
  apply StronglySorted_inv in Hso as [_ Hmin].
  assert (∀ e', e' ∈ es → visible c u s e' = true → e' = e ∨
    KeyComparator (comparator_ m) (encode e) (encode e') < 0 ∧ entry_ok uvalid e') as Hafter.
  { intros e' He' Hvis. pose proof (proj1 (Forall_forall _ _) Hes e' He') as Hok'.
    specialize (Hfrom e' He' Hvis). rewrite fmap_cons in Hfrom.
    apply elem_of_cons in Hfrom as [Heq|Hin]; [|right; split; [by eapply (proj1 (Forall_forall _ _) Hmin)|done]].
    left. by apply encode_inj. }
  assert (∀ e', e' ∈ es → visible c u s e' = true → e' = e ∨ Compare c (user_key e.1) u = 0 ∧ tag_of e' < tag_of e) as Htags.
  { intros e' He' Hvis. destruct (Hafter e' He' Hvis) as [?|[Hlt Hok']]; [by left|right].
    by apply (after_tags e e'). }
  destruct (Z.eqb_spec (Compare c (user_key e.1) u) 0) as [Heq|Hne].
  - rewrite (newest_Some c u s es e He); [done|by apply visible_from|].
    intros e' He' Hvis. destruct (Htags e' He' Hvis); tauto.
  - rewrite newest_None; [done|]. intros e' He'. apply not_true_iff_false. intros Hvis.
    destruct (Htags e' He' Hvis) as [->|[? _]]; [|done]. apply Hne. by apply visible_from in Hvis as [? _].
Qed.
End get.

Lemma newest_max c u s es :
  match newest c u s es with
  | None => ∀ e, e ∈ es → visible c u s e = false
  | Some e => e ∈ es ∧ visible c u s e = true ∧ ∀ e', e' ∈ es → visible c u s e' = true → tag_of e' <= tag_of e
  end.
Proof.
  induction es as [|x l IH]; cbn [newest]; [by intros e ?%not_elem_of_nil|].
  destruct (visible c u s x) eqn:Hx, (newest c u s l) as [e'|].
  - destruct IH as (Hin & Hv & Hmax). destruct (Z.ltb_spec (tag_of x) (tag_of e')).
    + split_and!; [by right|done|]. intros y [->|Hy]%elem_of_cons; [lia|auto].
    + split_and!; [left|done|]. intros y [->|Hy]%elem_of_cons; [lia|]. intros Hvy. specialize (Hmax y Hy Hvy). lia.
  - split_and!; [left|done|]. intros y [->|Hy]%elem_of_cons; [lia|]. by rewrite IH.
  - destruct IH as (Hin & Hv & Hmax). split_and!; [by right|done|].
    intros y [->|Hy]%elem_of_cons; [congruence|auto].
  - intros y [->|Hy]%elem_of_cons; auto.
Qed.

Lemma newest_perm c u s es es' :
  Forall (entry_ok uvalid) es → NoDup ((λ e : entry, sequence e.1) <$> es) →
  es ≡ₚ es' → newest c u s es = newest c u s es'.
Proof.
  intros Hok Hnd Hp. pose proof (newest_max c u s es) as Hchar.
  symmetry. destruct (newest c u s es) as [e|] eqn:Hn.
  - destruct Hchar as (Hin & Hv & Hmax). apply newest_Some; [by rewrite <- Hp|done|].
    intros e' He' Hv'. rewrite <- Hp in He'. specialize (Hmax e' He' Hv').
    destruct (decide (tag_of e' = tag_of e)) as [Heq|]; [left|right; lia].
    pose proof (proj1 (Forall_forall _ _) Hok) as Hall.
    destruct (tag_of_range _ _ (Hall e Hin)) as [H1 _], (tag_of_range _ _ (Hall e' He')) as [H2 _].
    pose proof (ValueType_num_range (type e.1)). pose proof (ValueType_num_range (type e'.1)).
    apply (NoDup_fmap_eq (λ e : entry, sequence e.1) es); [done..|lia].
  - apply newest_None. intros e He. apply Hchar. by rewrite Hp.
Qed.

(** C36: Memtable reads.  After any additions with pairwise different sequence
    numbers, in any order, [Get] at sequence [s] finds the newest entry of the
    user key not newer than [s]: its value, or [NotFound] when that entry is a
    deletion, and reports false and changes no output when there is none. *)
Theorem memtable_get icmp es :
  Forall (entry_ok uvalid) es → NoDup ((λ e : entry, sequence e.1) <$> es) →
  ∃ m, Add_all new_array es (MemTable_new new_array icmp) = Some m ∧
    ∀ u s value st, uvalid u → Z.of_nat (length u) + 8 < 2 ^ 32 → 0 <= s <= kMaxSequenceNumber →
      MemTable_Get m (LookupKey_new u s) value st =
      Some (get_result (newest (user_comparator_ icmp) u s es) value st).
Proof.
  intros Hok Hnd.
  destruct (Add_all_repr es (MemTable_new new_array icmp) [] (mem_repr_new icmp) Hok) as (m & Ha & Hm & Hc).
  { by rewrite app_nil_r. }
  exists m. split; [done|]. intros u s value st Hu Hlen Hs. rewrite app_nil_r in Hm.
  rewrite (Get_repr m (reverse es)), Hc by done. do 2 f_equal. symmetry.
  apply newest_perm; [done..|]. by rewrite reverse_Permutation.
Qed.
End memtable_proofs.

Definition mem_example : list entry :=
  [({| user_key := str "k"; sequence := 7; type := kTypeValue |}, str "old");
   ({| user_key := str "k"; sequence := 9; type := kTypeDeletion |}, []);
   ({| user_key := str "j"; sequence := 8; type := kTypeValue |}, str "other")].

Lemma memtable_entry_layout_witness :
  mem_GetLengthPrefixedSlice (encode ({| user_key := str "k"; sequence := 7; type := kTypeValue |}, str "old")) =
  Some (str "k" ++ [x01; x07; x00; x00; x00; x00; x00; x00]).
Proof.
  apply (memtable_entry_layout (λ _, True) ({| user_key := str "k"; sequence := 7; type := kTypeValue |}, str "old")).
  split_and!; done.
Defined.

Lemma memtable_get_witness :
  ∃ m, Add_all linear_new mem_example (MemTable_new linear_new {| user_comparator_ := BytewiseComparator |}) = Some m ∧
    MemTable_Get m (LookupKey_new (str "k") 8) [] Status_OK = Some (true, str "old", Status_OK) ∧
    MemTable_Get m (LookupKey_new (str "k") 9) [] Status_OK = Some (true, [], NotFound []) ∧
    MemTable_Get m (LookupKey_new (str "k") 6) [] Status_OK = Some (false, [], Status_OK).
Proof.
  destruct (memtable_get linear_new {| user_comparator_ := BytewiseComparator |} mem_example) as (m & Hm & Hget).
  - repeat constructor; done.
  - apply (bool_decide_unpack _). vm_compute. exact I.
  - exists m. split; [done|]. split_and!; (rewrite Hget; [vm_compute; reflexivity|exact I|vm_compute; reflexivity|vm_compute; split; discriminate]).
Defined.
