(* ===== verification/WriteBatch.v ===== *)
(** Write batches (db/write_batch.cc, db/write_batch_internal.h): updates in the
    format that also goes to the log, and their application to a memtable. *)
From S2P Require Import Prelude Coding Comparator DbFormat Env Arena MemTable.

(** The value of an [int] with these 32 bits. *)
Definition s32 (z : Z) : Z := if z mod 2 ^ 32 <? 2 ^ 31 then z mod 2 ^ 32 else z mod 2 ^ 32 - 2 ^ 32.

Definition kHeader : nat := 12.

Record WriteBatch := { wb_rep : list byte }.

Definition WriteBatch_Clear : WriteBatch := {| wb_rep := replicate kHeader x00 |}.
Definition WriteBatch_new : WriteBatch := WriteBatch_Clear.

Definition ApproximateSize (b : WriteBatch) : Z := Z.of_nat (length (wb_rep b)).

(** The accessors are undefined on a string shorter than the header. *)
Definition Count (b : WriteBatch) : option Z := s32 <$> DecodeFixed32 (drop 8 (wb_rep b)).
Definition SetCount (b : WriteBatch) (n : Z) : WriteBatch :=
  {| wb_rep := splice 8 (EncodeFixed32 n) (wb_rep b) |}.
Definition Sequence (b : WriteBatch) : option Z := DecodeFixed64 (wb_rep b).
Definition SetSequence (b : WriteBatch) (seq : Z) : WriteBatch :=
  {| wb_rep := splice 0 (EncodeFixed64 seq) (wb_rep b) |}.
Definition Contents (b : WriteBatch) : list byte := wb_rep b.
Definition ByteSize (b : WriteBatch) : Z := Z.of_nat (length (wb_rep b)).
Definition SetContents (contents : list byte) : option WriteBatch :=
  if (length contents <? kHeader)%nat then None else Some {| wb_rep := contents |}.

Definition tag_byte (t : ValueType) : byte := b8 (ValueType_num t).

Definition WriteBatch_Put (key value : list byte) (b : WriteBatch) : option WriteBatch :=
  n ← Count b;
  let b := SetCount b (n + 1) in
  let rep := wb_rep b ++ [tag_byte kTypeValue] in
  let rep := PutLengthPrefixedSlice rep key in
  Some {| wb_rep := PutLengthPrefixedSlice rep value |}.

Definition WriteBatch_Delete (key : list byte) (b : WriteBatch) : option WriteBatch :=
  n ← Count b;
  let b := SetCount b (n + 1) in
  let rep := wb_rep b ++ [tag_byte kTypeDeletion] in
  Some {| wb_rep := PutLengthPrefixedSlice rep key |}.

Definition WriteBatch_Append (dst src : WriteBatch) : option WriteBatch :=
  n ← Count dst; k ← Count src;
  let dst := SetCount dst (n + k) in
  Some {| wb_rep := wb_rep dst ++ drop kHeader (wb_rep src) |}.

(** ** Handlers *)

(** A handler with state [S]; its methods are undefined where what they call
    is. *)
Class Handler (S : Type) := {
  handle_Put : list byte → list byte → S → option S;
  handle_Delete : list byte → S → option S;
}.

Section iterate.
Context {S : Type} `{!Handler S}.

(** The loop of [Iterate]: the handler's state and either the error or the
    number of records.  Every round consumes a byte. *)
Fixpoint Iterate_loop (fuel : nat) (input : list byte) (found : Z) (st : S) : option (S * (Status + Z)) :=
  match fuel with
  | O => None
  | Datatypes.S fuel =>
      match input with
      | [] => Some (st, inr found)
      | tag :: input =>
          let found := found + 1 in
          if s8 tag =? ValueType_num kTypeValue
          then match GetLengthPrefixedSlice input with
               | Some (key, input) =>
                   match GetLengthPrefixedSlice input with
                   | Some (value, input) => st ← handle_Put key value st; Iterate_loop fuel input found st
                   | None => Some (st, inl (Corruption (str "bad WriteBatch Put")))
                   end
               | None => Some (st, inl (Corruption (str "bad WriteBatch Put")))
               end
          else if s8 tag =? ValueType_num kTypeDeletion
          then match GetLengthPrefixedSlice input with
               | Some (key, input) => st ← handle_Delete key st; Iterate_loop fuel input found st
               | None => Some (st, inl (Corruption (str "bad WriteBatch Delete")))
               end
          else Some (st, inl (Corruption (str "unknown WriteBatch tag")))
      end
  end.

Definition Iterate (b : WriteBatch) (st : S) : option (S * Status) :=
  if (length (wb_rep b) <? kHeader)%nat
  then Some (st, Corruption (str "malformed WriteBatch (too small)"))
  else '(st, r) ← Iterate_loop (Datatypes.S (length (wb_rep b))) (drop kHeader (wb_rep b)) 0 st;
       match r with
       | inl e => Some (st, e)
       | inr found =>
           n ← Count b;
           Some (st, if found =? n then Status_OK else Corruption (str "WriteBatch has wrong count"))
       end.
End iterate.

(** ** Insertion into a memtable *)

Section inserter.
Context {C : Type} `{!Comparator C} (new_array : list piece → Z → Z).

Record MemTableInserter := { sequence_ : Z; mem_ : MemTable C }.

Definition inserter_add (t : ValueType) (key value : list byte) (i : MemTableInserter) : option MemTableInserter :=
  m ← MemTable_Add new_array (sequence_ i) t key value (mem_ i);
  Some {| sequence_ := u64 (sequence_ i + 1); mem_ := m |}.

Definition MemTableInserter_handler : Handler MemTableInserter := {|
  handle_Put key value := inserter_add kTypeValue key value;
  handle_Delete key := inserter_add kTypeDeletion key [];
|}.

Definition InsertInto (b : WriteBatch) (memtable : MemTable C) : option (MemTable C * Status) :=
  seq ← Sequence b;
  '(i, s) ← @Iterate _ MemTableInserter_handler b {| sequence_ := seq; mem_ := memtable |};
  Some (mem_ i, s).
End inserter.

(** ** Operations *)

Inductive Op := OpPut (key value : list byte) | OpDelete (key : list byte).

Definition apply_op (b : WriteBatch) (o : Op) : option WriteBatch :=
  match o with OpPut k v => WriteBatch_Put k v b | OpDelete k => WriteBatch_Delete k b end.

Fixpoint apply_ops (b : WriteBatch) (os : list Op) : option WriteBatch :=
  match os with [] => Some b | o :: os => b ← apply_op b o; apply_ops b os end.

Definition op_key (o : Op) : list byte := match o with OpPut k _ => k | OpDelete k => k end.

Definition op_ok (o : Op) : Prop :=
  match o with
  | OpPut k v => Z.of_nat (length k) < 2 ^ 32 ∧ Z.of_nat (length v) < 2 ^ 32
  | OpDelete k => Z.of_nat (length k) < 2 ^ 32
  end.

Definition encode_op (o : Op) : list byte :=
  match o with
  | OpPut k v => tag_byte kTypeValue :: PutLengthPrefixedSlice [] k ++ PutLengthPrefixedSlice [] v
  | OpDelete k => tag_byte kTypeDeletion :: PutLengthPrefixedSlice [] k
  end.

(** A batch with sequence number [seq] and the operations [os]. *)
Definition batch (seq : Z) (os : list Op) : WriteBatch :=
  {| wb_rep := EncodeFixed64 seq ++ EncodeFixed32 (Z.of_nat (length os)) ++ (os ≫= encode_op) |}.

Lemma batch_empty : WriteBatch_Clear = batch 0 [].
Proof. reflexivity. Qed.

Lemma length_header v n : length (EncodeFixed64 v ++ EncodeFixed32 n) = kHeader.
Proof. done. Qed.

Lemma Count_batch seq os : Z.of_nat (length os) < 2 ^ 31 → Count (batch seq os) = Some (Z.of_nat (length os)).
Proof.
  intros Hn. unfold Count, batch. cbn [wb_rep]. rewrite drop_app_length' by done.
  rewrite Decode_EncodeFixed32, u32_small by lia. cbn. unfold s32. rewrite Z.mod_small by lia.
  by rewrite (proj2 (Z.ltb_lt _ _)) by lia.
Qed.

Lemma SetCount_header seq n n' r :
  SetCount {| wb_rep := EncodeFixed64 seq ++ EncodeFixed32 n ++ r |} n' =
  {| wb_rep := EncodeFixed64 seq ++ EncodeFixed32 n' ++ r |}.
Proof. reflexivity. Qed.

Lemma PutLengthPrefixedSlice_app d s : PutLengthPrefixedSlice d s = d ++ PutLengthPrefixedSlice [] s.
Proof. unfold PutLengthPrefixedSlice, PutVarint32. by rewrite <- !app_assoc. Qed.

Lemma apply_op_batch seq os o :
  Z.of_nat (length os) + 1 < 2 ^ 31 → apply_op (batch seq os) o = Some (batch seq (os ++ [o])).
Proof.
  intros Hn. unfold batch. rewrite length_app, Nat2Z.inj_add, bind_app. cbn [mbind list_bind length].
  rewrite app_nil_r. destruct o as [k v|k]; cbn [apply_op WriteBatch_Put WriteBatch_Delete encode_op];
    unfold WriteBatch_Put, WriteBatch_Delete; fold (batch seq os); rewrite Count_batch by lia;
    cbn [mbind option_bind]; cbv zeta; unfold batch; rewrite SetCount_header; cbn [wb_rep]; do 2 f_equal;
    rewrite !(PutLengthPrefixedSlice_app (_ ++ _)), <- !app_assoc; done.
Qed.

Lemma apply_ops_batch seq os os' :
  Z.of_nat (length os + length os') < 2 ^ 31 → apply_ops (batch seq os) os' = Some (batch seq (os ++ os')).
Proof.
  revert os; induction os' as [|o os' IH]; intros os Hn; cbn [apply_ops]; [by rewrite app_nil_r|].
  cbn [length] in Hn. rewrite apply_op_batch by lia. cbn [mbind option_bind].
  rewrite IH by (rewrite length_app; cbn; lia). by rewrite <- app_assoc.
Qed.

Lemma Append_batch seq os seq' os' :
  Z.of_nat (length os + length os') < 2 ^ 31 →
  WriteBatch_Append (batch seq os) (batch seq' os') = Some (batch seq (os ++ os')).
Proof.
  intros Hn. unfold WriteBatch_Append. rewrite !Count_batch by lia. cbn [mbind option_bind]. cbv zeta.
  unfold batch at 1. rewrite SetCount_header. cbn [wb_rep]. unfold batch. do 2 f_equal. cbn [wb_rep].
  rewrite (app_assoc (EncodeFixed64 seq')), drop_app_length' by done.
  rewrite bind_app, length_app, Nat2Z.inj_add, <- !app_assoc. done.
Qed.

Lemma SetSequence_batch seq seq' os : SetSequence (batch seq os) seq' = batch seq' os.
Proof. reflexivity. Qed.

Lemma Sequence_batch seq os : 0 <= seq < 2 ^ 64 → Sequence (batch seq os) = Some seq.
Proof. intros Hs. unfold Sequence, batch. cbn [wb_rep]. by rewrite Decode_EncodeFixed64, u64_small. Qed.

(** ** Iteration *)

Section handled.
Context {S : Type} `{!Handler S}.

Definition handle_op (o : Op) (st : S) : option S :=
  match o with OpPut k v => handle_Put k v st | OpDelete k => handle_Delete k st end.

Fixpoint handle_ops (os : list Op) (st : S) : option S :=
  match os with [] => Some st | o :: os => st ← handle_op o st; handle_ops os st end.

Lemma Iterate_loop_ops fuel os found st :
  Forall op_ok os → (length (os ≫= encode_op) < fuel)%nat →
  Iterate_loop fuel (os ≫= encode_op) found st =
  (st' ← handle_ops os st; Some (st', inr (found + Z.of_nat (length os)))).
Proof.
  revert os found st; induction fuel as [|fuel IH]; intros os found st Hok Hf; [lia|].
  destruct os as [|o os]; [cbn; by rewrite Z.add_0_r|]. apply Forall_cons in Hok as [Ho Hok].
  rewrite bind_cons, length_app in Hf. rewrite bind_cons.
  destruct o as [k v|k]; cbn [encode_op app Iterate_loop handle_ops handle_op length] in *.
  - change (s8 (tag_byte kTypeValue) =? ValueType_num kTypeValue) with true. cbn iota.
    rewrite <- !app_assoc. rewrite GetLengthPrefixedSlice_Put by apply Ho.
    rewrite GetLengthPrefixedSlice_Put by apply Ho.
    destruct (handle_Put k v st) as [st'|]; cbn [mbind option_bind]; [|done].
    rewrite IH by (done || lia). replace (found + 1 + Z.of_nat (length os)) with (found + Z.of_nat (Datatypes.S (length os))) by lia.
    done.
  - change (s8 (tag_byte kTypeDeletion) =? ValueType_num kTypeValue) with false.
    change (s8 (tag_byte kTypeDeletion) =? ValueType_num kTypeDeletion) with true. cbn iota.
    rewrite GetLengthPrefixedSlice_Put by apply Ho.
    destruct (handle_Delete k st) as [st'|]; cbn [mbind option_bind]; [|done].
    rewrite IH by (done || lia). replace (found + 1 + Z.of_nat (length os)) with (found + Z.of_nat (Datatypes.S (length os))) by lia.
    done.
Qed.

Lemma Iterate_batch seq os st :
  Forall op_ok os → Z.of_nat (length os) < 2 ^ 31 →
  Iterate (batch seq os) st = (st' ← handle_ops os st; Some (st', Status_OK)).
Proof.
  intros Hok Hn. unfold Iterate. rewrite Count_batch by done.
  assert (drop kHeader (wb_rep (batch seq os)) = os ≫= encode_op) as ->.
  { unfold batch. cbn [wb_rep]. rewrite app_assoc. by rewrite drop_app_length'. }
  assert (length (wb_rep (batch seq os)) = (kHeader + length (os ≫= encode_op))%nat) as ->.
  { unfold batch. cbn [wb_rep]. by rewrite app_assoc, length_app. }
  rewrite (proj2 (Nat.ltb_ge _ _)) by lia. rewrite Iterate_loop_ops by (done || lia).
  destruct (handle_ops os st); cbn [mbind option_bind]; [|done]. by rewrite Z.eqb_refl.
Qed.

(** [Iterate] stops with a status on every string, however corrupt, when the
    handler is total. *)
Lemma Iterate_loop_total fuel input found st :
  (∀ k v s, is_Some (handle_Put k v s)) → (∀ k s, is_Some (handle_Delete k s)) →
  (length input < fuel)%nat → is_Some (Iterate_loop fuel input found st).
Proof.
  intros Hput Hdel. revert input found st; induction fuel as [|fuel IH]; intros input found st Hf; [lia|].
  destruct input as [|tag input]; cbn [Iterate_loop]; [done|]. cbn [length] in Hf.
  assert (∀ i k r, GetLengthPrefixedSlice i = Some (k, r) → (length r < length i)%nat) as Hless.
  { intros i k r (pre & -> & Hp)%GetLengthPrefixedSlice_consumes. rewrite !length_app. lia. }
  repeat case_match; try done; subst.
  - match goal with H1 : GetLengthPrefixedSlice _ = Some _, H2 : GetLengthPrefixedSlice _ = Some _ |- _ =>
      apply Hless in H1; apply Hless in H2 end.
    edestruct Hput as [st' ->]. cbn [mbind option_bind]. apply IH. lia.
  - match goal with H1 : GetLengthPrefixedSlice _ = Some _ |- _ => apply Hless in H1 end.
    edestruct Hdel as [st' ->]. cbn [mbind option_bind]. apply IH. lia.
Qed.
End handled.

(** The handler that lists the operations. *)
#[export] Instance Collector : Handler (list Op) := {|
  handle_Put k v os := Some (os ++ [OpPut k v]);
  handle_Delete k os := Some (os ++ [OpDelete k]);
|}.

Lemma collect_ops os acc : handle_ops os acc = Some (acc ++ os).
Proof.
  revert acc; induction os as [|o os IH]; intros acc; cbn [handle_ops]; [by rewrite app_nil_r|].
  replace (handle_op o acc) with (Some (acc ++ [o])) by (by destruct o). cbn [mbind option_bind].
  by rewrite IH, <- app_assoc.
Qed.

(** Write batches round trip.  Operations put into one batch, with the
    operations of another batch appended and the sequence number set, are what
    [Iterate] hands to the handler, in order and with status OK, and what
    [Count] and [Sequence] report. *)
Theorem write_batch_roundtrip os os' seq :
  Forall op_ok os → Forall op_ok os' → Z.of_nat (length os + length os') < 2 ^ 31 → 0 <= seq < 2 ^ 64 →
  ∃ b1 b2 b, apply_ops WriteBatch_new os = Some b1 ∧ apply_ops WriteBatch_new os' = Some b2 ∧
    WriteBatch_Append b1 b2 = Some b ∧
    Iterate (SetSequence b seq) [] = Some (os ++ os', Status_OK) ∧
    Count (SetSequence b seq) = Some (Z.of_nat (length (os ++ os'))) ∧
    Sequence (SetSequence b seq) = Some seq ∧
    SetContents (Contents (SetSequence b seq)) = Some (SetSequence b seq).
Proof.
  intros Hok Hok' Hn Hs. unfold WriteBatch_new. rewrite batch_empty.
  rewrite !apply_ops_batch by (cbn; lia). cbn [app]. eexists _, _, _. split; [done|]. split; [done|].
  rewrite Append_batch by lia. split; [done|]. rewrite !SetSequence_batch.
  rewrite Iterate_batch, collect_ops, Count_batch, Sequence_batch by (by apply Forall_app || (rewrite length_app; lia) || done).
  done.
Qed.

Lemma write_batch_roundtrip_witness :
  ∃ b1 b2 b, apply_ops WriteBatch_new [OpPut (str "a") (str "1")] = Some b1 ∧
    apply_ops WriteBatch_new [OpDelete (str "b")] = Some b2 ∧ WriteBatch_Append b1 b2 = Some b ∧
    Iterate (SetSequence b 5) [] = Some ([OpPut (str "a") (str "1"); OpDelete (str "b")], Status_OK).
Proof.
  destruct (write_batch_roundtrip [OpPut (str "a") (str "1")] [OpDelete (str "b")] 5)
    as (b1 & b2 & b & H1 & H2 & H3 & H4 & _); [repeat constructor..|done|done|].
  by exists b1, b2, b.
Defined.

(** ** Application to a memtable *)

Definition op_entry (seq : Z) (o : Op) : entry :=
  match o with
  | OpPut k v => ({| user_key := k; DbFormat.sequence := seq; type := kTypeValue |}, v)
  | OpDelete k => ({| user_key := k; DbFormat.sequence := seq; type := kTypeDeletion |}, [])
  end.

Fixpoint batch_entries (seq : Z) (os : list Op) : list entry :=
  match os with [] => [] | o :: os => op_entry seq o :: batch_entries (seq + 1) os end.

(** Keys a memtable can hold. *)
Definition mem_op (uvalid : list byte → Prop) (o : Op) : Prop :=
  op_ok o ∧ uvalid (op_key o) ∧ Z.of_nat (length (op_key o)) + 8 < 2 ^ 32.

Section apply.
Context {C : Type} `{!Comparator C} {uvalid : list byte → Prop} `{!ComparatorLaws C uvalid}.
Context (new_array : list piece → Z → Z).
#[local] Existing Instance MemTableInserter_handler.
Implicit Types m : MemTable C.

Lemma op_entry_ok q o : mem_op uvalid o → 0 <= q <= kMaxSequenceNumber → entry_ok uvalid (op_entry q o).
Proof.
  intros (Hok & Hv & Hl) Hq. destruct o as [k v|k]; cbn in *; (split_and!; [done|tauto|tauto|done|]); [tauto|done].
Qed.

Lemma insert_ops os q m es :
  mem_repr (uvalid := uvalid) m es → Forall (λ e : entry, DbFormat.sequence e.1 < q) es → Forall (mem_op uvalid) os →
  0 <= q → q + Z.of_nat (length os) <= kMaxSequenceNumber + 1 →
  ∃ m', @handle_ops _ (MemTableInserter_handler new_array) os {| sequence_ := q; mem_ := m |} =
    Some {| sequence_ := q + Z.of_nat (length os); mem_ := m' |} ∧
    mem_repr (uvalid := uvalid) m' (reverse (batch_entries q os) ++ es) ∧ comparator_ m' = comparator_ m.
Proof.
  revert q m es; induction os as [|o os IH]; intros q m es Hm Hlt Hok Hq Hmax.
  { exists m. cbn. by rewrite Z.add_0_r. }
  apply Forall_cons in Hok as [Ho Hok]. cbn [length] in Hmax.
  destruct (Add_repr new_array m es (op_entry q o) Hm) as (m1 & Ha & Hm1 & Hc1).
  { apply op_entry_ok; [done|lia]. }
  { intros e He. pose proof (proj1 (Forall_forall _ _) Hlt e He) as Hs. cbn beta in Hs. destruct o; cbn; lia. }
  destruct (IH (q + 1) m1 (op_entry q o :: es) Hm1) as (m' & Hh & Hm' & Hc'); [|done|lia|lia|].
  { constructor; [destruct o; cbn; lia|]. apply (Forall_impl _ _ _ Hlt). cbn. lia. }
  exists m'. cbn [handle_ops batch_entries length].
  assert (@handle_op _ (MemTableInserter_handler new_array) o {| sequence_ := q; mem_ := m |} =
    Some {| sequence_ := q + 1; mem_ := m1 |}) as ->.
  { rewrite <- (u64_small (q + 1)) by (change kMaxSequenceNumber with (2 ^ 56 - 1) in Hmax; lia).
    destruct o; cbn [handle_op handle_Put handle_Delete MemTableInserter_handler]; unfold inserter_add; cbn [sequence_ mem_];
      cbn [op_entry fst snd DbFormat.sequence type user_key] in Ha; by rewrite Ha. }
  cbn [mbind option_bind]. rewrite Hh. split; [|split; [by rewrite reverse_cons, <- app_assoc|congruence]].
  do 2 f_equal. lia.
Qed.

Lemma InsertInto_batch os q m es :
  mem_repr (uvalid := uvalid) m es → Forall (λ e : entry, DbFormat.sequence e.1 < q) es → Forall (mem_op uvalid) os →
  Z.of_nat (length os) < 2 ^ 31 → 0 <= q → q + Z.of_nat (length os) <= kMaxSequenceNumber + 1 →
  ∃ m', InsertInto new_array (batch q os) m = Some (m', Status_OK) ∧
    mem_repr (uvalid := uvalid) m' (reverse (batch_entries q os) ++ es) ∧ comparator_ m' = comparator_ m.
Proof.
  intros Hm Hlt Hok Hn Hq Hmax. destruct (insert_ops os q m es Hm Hlt Hok Hq Hmax) as (m' & Hh & Hm' & Hc).
  exists m'. split; [|done]. unfold InsertInto. change kMaxSequenceNumber with (2 ^ 56 - 1) in Hmax.
  rewrite Sequence_batch by lia. cbn [mbind option_bind].
  rewrite Iterate_batch; [|apply (Forall_impl _ _ _ Hok); unfold mem_op; tauto|done].
  by rewrite Hh.
Qed.

(** The last operation on a user key. *)
Definition last_op (c : C) (u : list byte) (os : list Op) : option Op :=
  List.find (λ o, Compare c (op_key o) u =? 0) (reverse os).

Definition op_result (o : Op) (value : list byte) (st : Status) : bool * list byte * Status :=
  match o with OpPut _ v => (true, v, st) | OpDelete _ => (true, value, NotFound []) end.

Lemma batch_entries_snoc q os o :
  batch_entries q (os ++ [o]) = batch_entries q os ++ [op_entry (q + Z.of_nat (length os)) o].
Proof.
  revert q; induction os as [|o' os IH]; intros q; cbn [app batch_entries length]; [by rewrite Z.add_0_r|].
  rewrite IH. do 4 f_equal. lia.
Qed.

Lemma batch_entries_range q os e :
  e ∈ batch_entries q os → q <= DbFormat.sequence e.1 < q + Z.of_nat (length os).
Proof.
  revert q; induction os as [|o os IH]; intros q; cbn [batch_entries length]; [by intros ?%not_elem_of_nil|].
  intros [->|He]%elem_of_cons; [destruct o; cbn; lia|]. specialize (IH _ He). lia.
Qed.

Lemma batch_entries_ok q os :
  Forall (mem_op uvalid) os → 0 <= q → q + Z.of_nat (length os) <= kMaxSequenceNumber + 1 →
  Forall (entry_ok uvalid) (batch_entries q os).
Proof.
  intros Hok. revert q. induction Hok as [|o os Ho Hok IH]; intros q Hq Hmax; cbn [batch_entries]; constructor.
  - cbn [length] in Hmax. apply op_entry_ok; [done|lia].
  - cbn [length] in Hmax. apply IH; lia.
Qed.

Lemma newest_cons_newer c u s e es :
  entry_ok uvalid e → Forall (entry_ok uvalid) es → (∀ e', e' ∈ es → DbFormat.sequence e'.1 < DbFormat.sequence e.1) →
  newest c u s (e :: es) = if visible c u s e then Some e else newest c u s es.
Proof.
  intros He Hok Hlt. cbn [newest]. destruct (visible c u s e); [|done].
  destruct (newest c u s es) as [e'|] eqn:Hn; [|done].
  assert (e' ∈ es) as Hin.
  { clear -Hn. induction es as [|x es IH]; [done|]. cbn [newest] in Hn.
    destruct (visible c u s x), (newest c u s es) as [y|]; try done.
    - destruct (_ <? _); injection Hn as <-; [right; by apply IH|left].
    - injection Hn as <-. left.
    - right. by apply IH. }
  destruct (tag_of_range _ _ He) as [-> _], (tag_of_range _ _ (proj1 (Forall_forall _ _) Hok _ Hin)) as [-> _].
  specialize (Hlt e' Hin). pose proof (ValueType_num_range (type e.1)). pose proof (ValueType_num_range (type e'.1)).
  by rewrite (proj2 (Z.ltb_ge _ _)) by lia.
Qed.

Lemma newest_batch c u s q os es value st :
  Forall (entry_ok uvalid) es → Forall (λ e : entry, DbFormat.sequence e.1 < q) es → Forall (mem_op uvalid) os →
  0 <= q → q + Z.of_nat (length os) <= kMaxSequenceNumber + 1 → q <= s + 1 →
  get_result (newest c u s (reverse (batch_entries q os) ++ es)) value st =
  match last_op c u (take (Z.to_nat (s - q + 1)) os) with
  | Some o => op_result o value st
  | None => get_result (newest c u s es) value st
  end.
Proof.
  intros Hes Hlt. induction os as [|o os IH] using rev_ind; intros Hok Hq Hmax Hs.
  { by rewrite take_nil. }
  apply Forall_app in Hok as [Hok Ho%Forall_inv]. rewrite length_app in Hmax. cbn [length] in Hmax.
  rewrite batch_entries_snoc, reverse_snoc. cbn [app]. set (n := q + Z.of_nat (length os)).
  rewrite newest_cons_newer.
  2:{ apply op_entry_ok; [done|lia]. }
  2:{ apply Forall_app. split; [|done]. apply Forall_reverse, batch_entries_ok; [done|lia..]. }
  2:{ intros e [He|He]%elem_of_app.
      - rewrite elem_of_reverse in He. apply batch_entries_range in He. destruct o; cbn; lia.
      - pose proof (proj1 (Forall_forall _ _) Hlt e He). destruct o; cbn in *; lia. }
  unfold visible.
  replace (user_key (op_entry n o).1) with (op_key o) by (by destruct o).
  replace (DbFormat.sequence (op_entry n o).1) with n by (by destruct o).
  destruct (Z.leb_spec n s) as [Hle|Hgt].
  - rewrite andb_true_r. rewrite take_ge by (rewrite length_app; cbn; lia). unfold last_op.
    rewrite reverse_snoc. cbn [List.find]. destruct (Compare c (op_key o) u =? 0); [by destruct o|].
    rewrite IH by (done || lia). by rewrite take_ge by lia.
  - rewrite andb_false_r. rewrite take_app_le by lia. apply IH; (done || lia).
Qed.

(** C32: A batch applied to a memtable.  Inserting a batch numbered from [q] into
    a memtable whose entries are all older succeeds with status OK, and a read
    at sequence [s] then sees the last operation on its key among the first
    [s - q + 1] operations of the batch, and what it saw before when there is
    none.  In particular a read at the last sequence number of the batch sees
    all of it and a read before [q] none of it. *)
Theorem write_batch_applied icmp es os q :
  Forall (entry_ok uvalid) es → NoDup ((λ e : entry, DbFormat.sequence e.1) <$> es) →
  Forall (λ e : entry, DbFormat.sequence e.1 < q) es → Forall (mem_op uvalid) os →
  Z.of_nat (length os) < 2 ^ 31 → 0 <= q → q + Z.of_nat (length os) <= kMaxSequenceNumber + 1 →
  ∃ b m m', apply_ops (SetSequence WriteBatch_new q) os = Some b ∧
    Add_all new_array es (MemTable_new new_array icmp) = Some m ∧
    InsertInto new_array b m = Some (m', Status_OK) ∧
    ∀ u s value st, uvalid u → Z.of_nat (length u) + 8 < 2 ^ 32 → q - 1 <= s <= kMaxSequenceNumber → 0 <= s →
      MemTable_Get m' (LookupKey_new u s) value st =
      match last_op (user_comparator_ icmp) u (take (Z.to_nat (s - q + 1)) os) with
      | Some o => Some (op_result o value st)
      | None => MemTable_Get m (LookupKey_new u s) value st
      end.
Proof.
  intros Hes Hnd Hlt Hok Hn Hq Hmax. unfold WriteBatch_new. rewrite batch_empty, SetSequence_batch.
  rewrite apply_ops_batch by (cbn; lia). cbn [app].
  destruct (Add_all_repr new_array es (MemTable_new new_array icmp) [] (mem_repr_new new_array icmp) Hes)
    as (m & Ha & Hm & Hc); [by rewrite app_nil_r|]. rewrite app_nil_r in Hm.
  destruct (InsertInto_batch os q m (reverse es) Hm) as (m' & Hi & Hm' & Hc'); [by apply Forall_reverse|done..|].
  eexists _, m, m'. split; [done|]. split; [done|]. split; [done|].
  intros u s value st Hu Hl Hs Hs0. rewrite (Get_repr m' _ Hm'), (Get_repr m _ Hm) by (done || lia).
  rewrite Hc', Hc, newest_batch by first [by apply Forall_reverse|done|lia]. cbn [comparator_ MemTable_new].
  by destruct (last_op _ _ _).
Qed.
End apply.

Lemma write_batch_applied_witness :
  ∃ b m m', apply_ops (SetSequence WriteBatch_new 10) [OpPut (str "k") (str "new"); OpDelete (str "k")] = Some b ∧
    Add_all linear_new mem_example (MemTable_new linear_new {| user_comparator_ := BytewiseComparator |}) = Some m ∧
    InsertInto linear_new b m = Some (m', Status_OK) ∧
    MemTable_Get m' (LookupKey_new (str "k") 10) [] Status_OK = Some (true, str "new", Status_OK) ∧
    MemTable_Get m' (LookupKey_new (str "k") 11) [] Status_OK = Some (true, [], NotFound []).
Proof.
  destruct (write_batch_applied linear_new {| user_comparator_ := BytewiseComparator |} mem_example
    [OpPut (str "k") (str "new"); OpDelete (str "k")] 10) as (b & m & m' & Hb & Hm & Hi & Hget).
  - repeat constructor; done.
  - apply (bool_decide_unpack _). vm_compute. exact I.
  - repeat constructor.
  - repeat constructor; done.
  - done.
  - done.
  - vm_compute. discriminate.
  - exists b, m, m'. split; [done|]. split; [done|]. split; [done|].
    split; (rewrite Hget; [vm_compute; reflexivity|exact I|vm_compute; reflexivity|
      vm_compute; split; discriminate|vm_compute; discriminate]).
Defined.
