(* ===== verification/Iterator.v ===== *)
(** The iterator interface (include/leveldb/iterator.h, table/iterator.cc,
    table/iterator_wrapper.h) and what an iterator over a sorted sequence
    promises to its clients. *)
From stdpp Require Import sorting.
From S2P Require Import Prelude Env.

(** Operations with an assertion are undefined where it fails. *)
Class Iterator (I : Type) := {
  it_Valid : I → bool;
  it_SeekToFirst : I → option I;
  it_SeekToLast : I → option I;
  it_Seek : list byte → I → option I;
  it_Next : I → option I;
  it_Prev : I → option I;
  it_key : I → option (list byte);
  it_value : I → option (list byte);
  it_status : I → Status;
}.

Notation kv := (list byte * list byte)%type (only parsing).

(** ** Positions in a sorted sequence *)

(** The index of the first entry not below [t]. *)
Fixpoint lower_bound (cmp : list byte → list byte → Z) (t : list byte) (l : list kv) : nat :=
  match l with
  | [] => 0
  | e :: l => if cmp e.1 t <? 0 then S (lower_bound cmp t l) else 0
  end.

(** A position: [None] when the iterator is not valid. *)
Definition pos_at (l : list kv) (i : nat) : option nat :=
  if (i <? length l)%nat then Some i else None.

Definition pos_first (l : list kv) : option nat := pos_at l 0.
Definition pos_last (l : list kv) : option nat :=
  match l with [] => None | _ => Some (length l - 1)%nat end.
Definition pos_seek (cmp : list byte → list byte → Z) (t : list byte) (l : list kv) : option nat :=
  pos_at l (lower_bound cmp t l).
Definition pos_next (l : list kv) (i : nat) : option nat := pos_at l (S i).
Definition pos_prev (i : nat) : option nat :=
  match i with O => None | S i => Some i end.

Definition sorted_kvs (cmp : list byte → list byte → Z) (l : list kv) : Prop :=
  StronglySorted (λ a b : kv, cmp a.1 b.1 < 0) l.

(** [R it l p]: the iterator runs over the entries [l] and is at [p].  [R] also
    says that no error has occurred. *)
Class IteratorLaws (I : Type) `{!Iterator I} (cmp : list byte → list byte → Z)
    (valid : list byte → Prop) (R : I → list kv → option nat → Prop) := {
  it_wf it l p : R it l p →
    sorted_kvs cmp l ∧ Forall (λ e, valid e.1) l ∧ (∀ i, p = Some i → (i < length l)%nat);
  it_ok it l p : R it l p → it_status it = Status_OK;
  it_valid it l p : R it l p → it_Valid it = bool_decide (is_Some p);
  it_entry it l i e : R it l (Some i) → l !! i = Some e →
    it_key it = Some e.1 ∧ it_value it = Some e.2;
  it_first it l p : R it l p → ∃ it', it_SeekToFirst it = Some it' ∧ R it' l (pos_first l);
  it_last it l p : R it l p → ∃ it', it_SeekToLast it = Some it' ∧ R it' l (pos_last l);
  it_seek it l p t : R it l p → valid t → ∃ it', it_Seek t it = Some it' ∧ R it' l (pos_seek cmp t l);
  it_next it l i : R it l (Some i) → ∃ it', it_Next it = Some it' ∧ R it' l (pos_next l i);
  it_prev it l i : R it l (Some i) → ∃ it', it_Prev it = Some it' ∧ R it' l (pos_prev i);
}.

Lemma lower_bound_le cmp t l : (lower_bound cmp t l ≤ length l)%nat.
Proof. induction l as [|e l IH]; cbn; [lia|]. destruct (_ <? _); cbn; lia. Qed.

Lemma lower_bound_below cmp t l i e :
  l !! i = Some e → (i < lower_bound cmp t l)%nat → cmp e.1 t < 0.
Proof.
  revert i; induction l as [|a l IH]; intros i Hi Hlt; [done|]. cbn [lower_bound] in Hlt.
  destruct (Z.ltb_spec (cmp a.1 t) 0); [|lia]. destruct i as [|i]; [by injection Hi as <-|].
  apply (IH i); [done|lia].
Qed.

Lemma lower_bound_at cmp t l e : l !! lower_bound cmp t l = Some e → 0 <= cmp e.1 t.
Proof.
  induction l as [|a l IH]; [done|]. cbn [lower_bound].
  destruct (Z.ltb_spec (cmp a.1 t) 0) as [|Hge]; cbn; [apply IH|]. intros [= <-]. done.
Qed.

Lemma pos_at_Some l i j : pos_at l i = Some j ↔ j = i ∧ (i < length l)%nat.
Proof. unfold pos_at. destruct (Nat.ltb_spec i (length l)); split; intros; simplify_eq; naive_solver lia. Qed.

Lemma pos_at_lt l i : (i < length l)%nat → pos_at l i = Some i.
Proof. intros Hi. by apply pos_at_Some. Qed.

Lemma pos_at_ge l i : (length l ≤ i)%nat → pos_at l i = None.
Proof. intros Hi. unfold pos_at. by rewrite (proj2 (Nat.ltb_ge _ _)). Qed.

(** ** [EmptyIterator] *)

Record EmptyIterator := { empty_status : Status }.

Definition NewEmptyIterator : EmptyIterator := {| empty_status := Status_OK |}.
Definition NewErrorIterator (s : Status) : EmptyIterator := {| empty_status := s |}.

#[export] Instance empty_iterator : Iterator EmptyIterator := {|
  it_Valid _ := false;
  it_SeekToFirst it := Some it;
  it_SeekToLast it := Some it;
  it_Seek _ it := Some it;
  it_Next _ := None;
  it_Prev _ := None;
  it_key _ := None;
  it_value _ := None;
  it_status := empty_status;
|}.

Definition empty_at (it : EmptyIterator) (l : list kv) (p : option nat) : Prop :=
  empty_status it = Status_OK ∧ l = [] ∧ p = None.

#[export] Instance empty_laws cmp valid : IteratorLaws EmptyIterator cmp valid empty_at.
Proof.
  split.
  - intros it l p (_ & -> & ->). split_and!; [constructor|constructor|done].
  - by intros it l p (? & _).
  - by intros it l p (_ & _ & ->).
  - by intros it l i e (_ & _ & ?).
  - intros it l p (? & -> & _). by exists it.
  - intros it l p (? & -> & _). by exists it.
  - intros it l p t (? & -> & _) _. by exists it.
  - by intros it l i (_ & _ & ?).
  - by intros it l i (_ & _ & ?).
Qed.

(** ** [IteratorWrapper]: cached validity and key *)

Record IteratorWrapper (I : Type) := { iter_ : option I; valid_ : bool; key_ : list byte }.
Arguments iter_ {I} _.
Arguments valid_ {I} _.
Arguments key_ {I} _.

Section wrapper.
Context {I : Type} `{!Iterator I}.
Implicit Types w : IteratorWrapper I.

(** A null pointer; [key_] starts empty. *)
Definition Wrapper_null : IteratorWrapper I := {| iter_ := None; valid_ := false; key_ := [] |}.

(** [Update] after [iter_] became [it]. *)
Definition Wrapper_Update (it : I) w : option (IteratorWrapper I) :=
  if it_Valid it
  then k ← it_key it; Some {| iter_ := Some it; valid_ := true; key_ := k |}
  else Some {| iter_ := Some it; valid_ := false; key_ := key_ w |}.

Definition Wrapper_Set (iter : option I) w : option (IteratorWrapper I) :=
  match iter with
  | None => Some {| iter_ := None; valid_ := false; key_ := key_ w |}
  | Some it => Wrapper_Update it w
  end.

Definition Wrapper_new (it : I) : option (IteratorWrapper I) := Wrapper_Set (Some it) Wrapper_null.

(** The methods require a non-null iterator. *)
Definition Wrapper_call (f : I → option I) w : option (IteratorWrapper I) :=
  it ← iter_ w; it ← f it; Wrapper_Update it w.

Definition Wrapper_key w : option (list byte) := if valid_ w then Some (key_ w) else None.
Definition Wrapper_value w : option (list byte) := if valid_ w then it ← iter_ w; it_value it else None.
Definition Wrapper_status w : Status := from_option it_status Status_OK (iter_ w).

#[export] Instance wrapper_iterator : Iterator (IteratorWrapper I) := {|
  it_Valid := valid_;
  it_SeekToFirst := Wrapper_call it_SeekToFirst;
  it_SeekToLast := Wrapper_call it_SeekToLast;
  it_Seek t := Wrapper_call (it_Seek t);
  it_Next := Wrapper_call it_Next;
  it_Prev := Wrapper_call it_Prev;
  it_key := Wrapper_key;
  it_value := Wrapper_value;
  it_status := Wrapper_status;
|}.

Context {cmp valid R} `{!IteratorLaws I cmp valid R}.

(** A wrapper over an iterator, with the cache up to date. *)
Definition wrapper_at w (l : list kv) (p : option nat) : Prop :=
  ∃ it, iter_ w = Some it ∧ R it l p ∧ valid_ w = bool_decide (is_Some p) ∧
    (∀ i e, p = Some i → l !! i = Some e → key_ w = e.1).

Lemma Wrapper_Update_at w it l p :
  R it l p → ∃ w', Wrapper_Update it w = Some w' ∧ wrapper_at w' l p.
Proof.
  intros HR. unfold Wrapper_Update. rewrite (it_valid _ _ _ HR). destruct p as [i|]; cbn.
  - destruct (it_wf _ _ _ HR) as (_ & _ & Hi). specialize (Hi i eq_refl).
    destruct (lookup_lt_is_Some_2 l i Hi) as [e He]. destruct (it_entry _ _ _ _ HR He) as [-> _].
    eexists. split; [done|]. exists it. split_and!; [done..|]. intros j e' [= <-] He'. cbn. congruence.
  - eexists. split; [done|]. exists it. by split_and!.
Qed.

Lemma Wrapper_call_at f w l p q :
  wrapper_at w l p → (∀ it, R it l p → ∃ it', f it = Some it' ∧ R it' l q) →
  ∃ w', Wrapper_call f w = Some w' ∧ wrapper_at w' l q.
Proof.
  intros (it & Hit & HR & _) Hf. destruct (Hf it HR) as (it' & Hf' & HR'). unfold Wrapper_call.
  rewrite Hit. cbn [mbind option_bind]. rewrite Hf'. by apply Wrapper_Update_at.
Qed.

(** A wrapper behaves as the iterator inside. *)
#[export] Instance wrapper_laws : IteratorLaws (IteratorWrapper I) cmp valid wrapper_at.
Proof.
  split; cbn [it_Valid it_SeekToFirst it_SeekToLast it_Seek it_Next it_Prev it_key it_value it_status wrapper_iterator].
  - intros w l p (it & _ & HR & _). by eapply it_wf.
  - intros w l p (it & Hit & HR & _). unfold Wrapper_status. rewrite Hit. by eapply it_ok.
  - by intros w l p (it & _ & _ & Hv & _).
  - intros w l i e (it & Hit & HR & Hv & Hk) He. unfold Wrapper_key, Wrapper_value. rewrite Hv, Hit. cbn.
    rewrite (Hk i e eq_refl He). split; [done|]. by eapply it_entry.
  - intros w l p Hw. eapply Wrapper_call_at; [done|]. intros it. apply it_first.
  - intros w l p Hw. eapply Wrapper_call_at; [done|]. intros it. apply it_last.
  - intros w l p t Hw Ht. eapply Wrapper_call_at; [done|]. intros it HR. by eapply it_seek.
  - intros w l i Hw. eapply Wrapper_call_at; [done|]. intros it. apply it_next.
  - intros w l i Hw. eapply Wrapper_call_at; [done|]. intros it. apply it_prev.
Qed.
End wrapper.
Arguments Wrapper_null {I}.

(** ** One of two kinds of iterator, behind the same interface *)

Section sum.
Context {I J : Type} `{!Iterator I, !Iterator J}.

#[export] Instance sum_iterator : Iterator (I + J) := {|
  it_Valid s := match s with inl i => it_Valid i | inr j => it_Valid j end;
  it_SeekToFirst s := match s with inl i => inl <$> it_SeekToFirst i | inr j => inr <$> it_SeekToFirst j end;
  it_SeekToLast s := match s with inl i => inl <$> it_SeekToLast i | inr j => inr <$> it_SeekToLast j end;
  it_Seek t s := match s with inl i => inl <$> it_Seek t i | inr j => inr <$> it_Seek t j end;
  it_Next s := match s with inl i => inl <$> it_Next i | inr j => inr <$> it_Next j end;
  it_Prev s := match s with inl i => inl <$> it_Prev i | inr j => inr <$> it_Prev j end;
  it_key s := match s with inl i => it_key i | inr j => it_key j end;
  it_value s := match s with inl i => it_value i | inr j => it_value j end;
  it_status s := match s with inl i => it_status i | inr j => it_status j end;
|}.

Context {cmp valid RI RJ} `{!IteratorLaws I cmp valid RI, !IteratorLaws J cmp valid RJ}.

Definition sum_at (s : I + J) (l : list kv) (p : option nat) : Prop :=
  match s with inl i => RI i l p | inr j => RJ j l p end.

#[export] Instance sum_laws : IteratorLaws (I + J) cmp valid sum_at.
Proof.
  split; cbn [it_Valid it_SeekToFirst it_SeekToLast it_Seek it_Next it_Prev it_key it_value it_status sum_iterator].
  - intros [i|j] l p; cbn; apply it_wf.
  - intros [i|j] l p; cbn; apply it_ok.
  - intros [i|j] l p; cbn; apply it_valid.
  - intros [i|j] l n e; cbn; apply it_entry.
  - intros [i|j] l p HR; cbn in HR; destruct (it_first _ _ _ HR) as (s' & -> & H'); [by exists (inl s')|by exists (inr s')].
  - intros [i|j] l p HR; cbn in HR; destruct (it_last _ _ _ HR) as (s' & -> & H'); [by exists (inl s')|by exists (inr s')].
  - intros [i|j] l p t HR Ht; cbn in HR; destruct (it_seek _ _ _ t HR Ht) as (s' & -> & H'); [by exists (inl s')|by exists (inr s')].
  - intros [i|j] l n HR; cbn in HR; destruct (it_next _ _ _ HR) as (s' & -> & H'); [by exists (inl s')|by exists (inr s')].
  - intros [i|j] l n HR; cbn in HR; destruct (it_prev _ _ _ HR) as (s' & -> & H'); [by exists (inl s')|by exists (inr s')].
Qed.
End sum.

(** ** Sorted sequences of entries *)

Section sorted.
Context {cmp : list byte → list byte → Z} {valid : list byte → Prop} `{!KeyOrder cmp valid}.
Implicit Types (l : list kv) (e : kv).

Lemma sorted_lookup l a b x y :
  sorted_kvs cmp l → l !! a = Some x → l !! b = Some y → (a < b)%nat → cmp x.1 y.1 < 0.
Proof.
  intros Hs. revert a b. induction Hs as [|z l Hs IH Hz]; intros a b Ha Hb Hab; [done|].
  destruct b as [|b]; [lia|]. cbn in Hb. destruct a as [|a]; [|by eapply (IH a b); [..|lia]].
  injection Ha as <-. apply (proj1 (Forall_forall _ _) Hz). by eapply list_elem_of_lookup_2.
Qed.

Lemma sorted_index l a b x y :
  sorted_kvs cmp l → Forall (λ e, valid e.1) l → l !! a = Some x → l !! b = Some y →
  cmp x.1 y.1 < 0 → (a < b)%nat.
Proof.
  intros Hs Hv Ha Hb Hlt. pose proof (Forall_lookup_1 _ _ _ _ Hv Ha) as Hx.
  pose proof (Forall_lookup_1 _ _ _ _ Hv Hb) as Hy. cbn in Hx, Hy.
  destruct (lt_eq_lt_dec a b) as [[|Heq]|Hgt]; [done| |].
  - subst. rewrite Ha in Hb. injection Hb as <-. rewrite (ko_refl cmp valid x.1) in Hlt by done. lia.
  - pose proof (sorted_lookup l b a y x Hs Hb Ha Hgt) as H1. apply (ko_lt_sym cmp valid) in H1; [lia|done..].
Qed.

Lemma sorted_inj l a b x y :
  sorted_kvs cmp l → Forall (λ e, valid e.1) l → l !! a = Some x → l !! b = Some y →
  cmp x.1 y.1 = 0 → a = b.
Proof.
  intros Hs Hv Ha Hb Heq. pose proof (Forall_lookup_1 _ _ _ _ Hv Ha) as Hx.
  pose proof (Forall_lookup_1 _ _ _ _ Hv Hb) as Hy. cbn in Hx, Hy.
  destruct (lt_eq_lt_dec a b) as [[Hlt|]|Hgt]; [|done|].
  - pose proof (sorted_lookup l a b x y Hs Ha Hb Hlt). lia.
  - pose proof (sorted_lookup l b a y x Hs Hb Ha Hgt). pose proof (ko_sym x.1 y.1 Hx Hy). lia.
Qed.

Lemma sorted_NoDup l : sorted_kvs cmp l → Forall (λ e, valid e.1) l → NoDup l.
Proof.
  intros Hs Hv. apply NoDup_alt. intros a b x Ha Hb. eapply (sorted_inj l a b x x); [done..|].
  apply (ko_refl cmp valid). by apply (Forall_lookup_1 _ _ _ _ Hv Ha).
Qed.

Lemma lower_bound_iff t l k e :
  sorted_kvs cmp l → Forall (λ e, valid e.1) l → valid t → l !! k = Some e →
  (k < lower_bound cmp t l)%nat ↔ cmp e.1 t < 0.
Proof.
  intros Hs Hv Ht Hk. split; [by eapply lower_bound_below|]. intros Hlt.
  destruct (decide (k < lower_bound cmp t l)%nat) as [|Hge]; [done|exfalso].
  pose proof (lookup_lt_Some _ _ _ Hk) as Hlen.
  destruct (lookup_lt_is_Some_2 l (lower_bound cmp t l)) as [e0 He0]; [lia|].
  pose proof (lower_bound_at _ _ _ _ He0) as H0.
  destruct (decide (k = lower_bound cmp t l)) as [->|]; [rewrite Hk in He0; injection He0 as <-; lia|].
  pose proof (sorted_lookup l _ k e0 e Hs He0 Hk ltac:(lia)) as H1.
  pose proof (ko_trans e0.1 e.1 t) as H2.
  assert (cmp e0.1 t < 0); [|lia]. apply H2; [|..|done|done]; try done.
  - by apply (Forall_lookup_1 _ _ _ _ Hv He0).
  - by apply (Forall_lookup_1 _ _ _ _ Hv Hk).
Qed.

Lemma lower_bound_self l k e :
  sorted_kvs cmp l → Forall (λ e, valid e.1) l → l !! k = Some e → lower_bound cmp e.1 l = k.
Proof.
  intros Hs Hv Hk. pose proof (Forall_lookup_1 _ _ _ _ Hv Hk) as He. cbn in He.
  pose proof (lower_bound_iff e.1 l k e Hs Hv He Hk) as Hiff. rewrite (ko_refl cmp valid) in Hiff by done.
  pose proof (lower_bound_le cmp e.1 l) as Hle. pose proof (lookup_lt_Some _ _ _ Hk) as Hlen.
  destruct (decide (lower_bound cmp e.1 l = k)) as [|Hne]; [done|].
  destruct (lookup_lt_is_Some_2 l (lower_bound cmp e.1 l)) as [e0 He0]; [lia|].
  pose proof (lower_bound_at _ _ _ _ He0) as H0.
  pose proof (sorted_lookup l _ k e0 e Hs He0 Hk ltac:(lia)). lia.
Qed.

Lemma lower_bound_unique t l g :
  (g ≤ length l)%nat → (∀ k e, l !! k = Some e → cmp e.1 t < 0 ↔ (k < g)%nat) → lower_bound cmp t l = g.
Proof.
  intros Hg Hiff. pose proof (lower_bound_le cmp t l) as Hle.
  destruct (lt_eq_lt_dec (lower_bound cmp t l) g) as [[Hlt|]|Hgt]; [|done|].
  - destruct (lookup_lt_is_Some_2 l (lower_bound cmp t l)) as [e He]; [lia|].
    pose proof (lower_bound_at _ _ _ _ He). apply (Hiff _ e He) in Hlt. lia.
  - destruct (lookup_lt_is_Some_2 l g) as [e He]; [lia|].
    pose proof (lower_bound_below _ _ _ _ _ He Hgt) as H. apply (Hiff g e He) in H. lia.
Qed.

Lemma sorted_of_lookup l :
  (∀ a b x y, l !! a = Some x → l !! b = Some y → (a < b)%nat → cmp x.1 y.1 < 0) → sorted_kvs cmp l.
Proof.
  induction l as [|z l IH]; intros H; constructor.
  - apply IH. intros a b x y Ha Hb Hab. apply (H (S a) (S b)); [done|done|lia].
  - apply Forall_forall. intros y [b Hb]%list_elem_of_lookup. apply (H 0%nat (S b)); [done|done|lia].
Qed.

(** ** Parts of a merged sequence *)

(** [n] entries of [l] are among the first [i] of [L]: the cut of [l] at [i]. *)
Definition cut (L : list kv) (i : nat) (l : list kv) (n : nat) : Prop :=
  (n ≤ length l)%nat ∧ ∀ k e, l !! k = Some e → (k < n)%nat ↔ e ∈ take i L.

Section cut.
Context (L l : list kv).
Hypothesis HL : sorted_kvs cmp L.
Hypothesis HvL : Forall (λ e, valid e.1) L.
Hypothesis Hl : sorted_kvs cmp l.
Hypothesis Hsub : ∀ e, e ∈ l → e ∈ L.

Lemma sub_valid : Forall (λ e, valid e.1) l.
Proof. apply Forall_forall. intros e He. by apply (proj1 (Forall_forall _ _) HvL e), Hsub. Qed.

Lemma cut_0 : cut L 0 l 0.
Proof. split; [lia|]. intros k e _. rewrite take_0. split; [lia|by intros ?%not_elem_of_nil]. Qed.

Lemma cut_end : cut L (length L) l (length l).
Proof.
  split; [lia|]. intros k e Hk. rewrite take_ge by lia. split; intros _.
  - apply Hsub. by eapply list_elem_of_lookup_2.
  - by eapply lookup_lt_Some.
Qed.

Lemma cut_seek t : valid t → cut L (lower_bound cmp t L) l (lower_bound cmp t l).
Proof.
  intros Ht. split; [apply lower_bound_le|]. intros k e Hk.
  rewrite (lower_bound_iff t l k e Hl sub_valid Ht Hk). split.
  - intros Hlt. assert (e ∈ L) as [a Ha]%list_elem_of_lookup by (apply Hsub; by eapply list_elem_of_lookup_2).
    apply elem_of_take. exists a. split; [done|]. by apply (lower_bound_iff t L a e HL HvL Ht Ha).
  - intros (a & Ha & Hlt)%elem_of_take. by apply (lower_bound_iff t L a e HL HvL Ht Ha).
Qed.

Lemma cut_out i n e : L !! i = Some e → e ∉ l → cut L i l n ↔ cut L (S i) l n.
Proof.
  intros Hi He. unfold cut. rewrite (take_S_r _ _ _ Hi).
  assert (∀ k e', l !! k = Some e' → e' ≠ e) as Hne.
  { intros k e' Hk ->. apply He. by eapply list_elem_of_lookup_2. }
  f_equiv. split; intros H k e' Hk; specialize (H k e' Hk); specialize (Hne k e' Hk);
    rewrite elem_of_app, list_elem_of_singleton in *; tauto.
Qed.

Lemma not_in_take i e : L !! i = Some e → e ∉ take i L.
Proof.
  intros Hi (a & Ha & Hlt)%elem_of_take. pose proof (sorted_NoDup L HL HvL) as Hnd.
  pose proof (NoDup_lookup _ _ _ _ Hnd Ha Hi). lia.
Qed.

Lemma cut_in i n e : L !! i = Some e → l !! n = Some e → cut L i l n ↔ cut L (S i) l (S n).
Proof.
  intros Hi Hn. pose proof (lookup_lt_Some _ _ _ Hn). pose proof (sorted_NoDup l Hl sub_valid) as Hnd.
  pose proof (not_in_take i e Hi) as Hout. unfold cut. rewrite (take_S_r _ _ _ Hi).
  assert (∀ k e', l !! k = Some e' → e' = e → k = n) as Huniq.
  { intros k e' Hk ->. by eapply NoDup_lookup. }
  split; intros [? Hc]; (split; [lia|]); intros k e' Hk; specialize (Hc k e' Hk); specialize (Huniq k e' Hk);
    rewrite elem_of_app, list_elem_of_singleton in *.
  - split.
    + intros Hlt. destruct (decide (k = n)) as [->|]; [right; congruence|left; apply Hc; lia].
    + intros [?%Hc|?%Huniq]; lia.
  - split.
    + intros Hlt. destruct (proj1 Hc ltac:(lia)) as [|?%Huniq]; [done|lia].
    + intros Hin. destruct (decide (k = n)) as [->|]; [|assert (k < S n)%nat by tauto; lia].
      rewrite Hn in Hk. injection Hk as <-. done.
Qed.

(** The first entry of [l] after a cut is not before the cut. *)
Lemma cut_head i n k e : cut L i l n → l !! k = Some e → (n ≤ k)%nat → ∃ a, L !! a = Some e ∧ (i ≤ a)%nat.
Proof.
  intros [_ Hc] Hk Hle. assert (e ∈ L) as [a Ha]%list_elem_of_lookup by (apply Hsub; by eapply list_elem_of_lookup_2).
  exists a. split; [done|]. destruct (decide (i ≤ a)%nat) as [|Hlt]; [done|].
  assert (k < n)%nat; [|lia]. apply (Hc k e Hk). apply elem_of_take. exists a. split; [done|lia].
Qed.

Lemma cut_last i n k e : cut L i l n → l !! k = Some e → (k < n)%nat → ∃ a, L !! a = Some e ∧ (a < i)%nat.
Proof. intros [_ Hc] Hk Hlt. apply (Hc k e Hk) in Hlt. by apply elem_of_take in Hlt. Qed.

(** The entry at the cut, when [l] has it, is where [l] is cut. *)
Lemma cut_at i n e : cut L i l n → L !! i = Some e → e ∈ l → l !! n = Some e.
Proof.
  intros Hc Hi [k Hk]%list_elem_of_lookup. destruct (decide (k = n)) as [->|Hne]; [done|exfalso].
  destruct (decide (k < n)%nat) as [Hlt|Hge].
  - destruct Hc as [_ Hc]. apply (Hc k e Hk) in Hlt. by apply (not_in_take i e).
  - pose proof (lookup_lt_Some _ _ _ Hk) as Hlen. destruct (lookup_lt_is_Some_2 l n) as [e' He']; [lia|].
    destruct (cut_head i n n e' Hc He') as (a & Ha & Hia); [lia|].
    pose proof (sorted_lookup l n k e' e Hl He' Hk ltac:(lia)) as Hlt.
    pose proof (sorted_index L a i e' e HL HvL Ha Hi Hlt). lia.
Qed.

Lemma cut_uniq i n n' : cut L i l n → cut L i l n' → n = n'.
Proof.
  intros [Hn Hc] [Hn' Hc']. destruct (lt_eq_lt_dec n n') as [[Hlt|]|Hlt]; [|done|].
  - destruct (lookup_lt_is_Some_2 l n) as [e He]; [lia|]. specialize (Hc n e He). specialize (Hc' n e He).
    assert (n < n)%nat by tauto. lia.
  - destruct (lookup_lt_is_Some_2 l n') as [e He]; [lia|]. specialize (Hc n' e He). specialize (Hc' n' e He).
    assert (n' < n')%nat by tauto. lia.
Qed.

(** An entry of both: the cut before it and the cut after it. *)
Lemma cut_around i e : L !! i = Some e → e ∈ l →
  ∃ k, l !! k = Some e ∧ cut L i l k ∧ cut L (S i) l (S k).
Proof.
  intros Hi He. exists (lower_bound cmp e.1 l).
  assert (valid e.1) as Hve by (by apply (Forall_lookup_1 _ _ _ _ HvL Hi)).
  pose proof (cut_seek e.1 Hve) as Hc. rewrite (lower_bound_self L i e HL HvL Hi) in Hc.
  pose proof (cut_at i _ e Hc Hi He) as Hk. split_and!; [done..|]. by apply (cut_in i _ e).
Qed.
End cut.
End sorted.

Lemma pos_last_prev (l : list kv) : pos_last l = pos_prev (length l).
Proof. destruct l as [|e l]; [done|]. cbn. f_equal. lia. Qed.

(** ** Scans *)

Section scan.
Context {I : Type} `{!Iterator I}.

(** The loop [for (...; it->Valid(); it->Next())], collecting the entries. *)
Fixpoint scan (fuel : nat) (it : I) : option (list kv) :=
  match fuel with
  | O => None
  | S fuel =>
      if it_Valid it
      then k ← it_key it; v ← it_value it; it ← it_Next it; r ← scan fuel it; Some ((k, v) :: r)
      else Some []
  end.

Context {cmp valid R} `{!IteratorLaws I cmp valid R}.

Lemma scan_spec fuel it l i :
  R it l (pos_at l i) → (length l < fuel + i)%nat → (i ≤ length l)%nat → scan fuel it = Some (drop i l).
Proof.
  revert it i; induction fuel as [|fuel IH]; intros it i HR Hf Hi; [lia|]. cbn [scan].
  rewrite (it_valid _ _ _ HR). destruct (decide (i < length l)%nat) as [Hlt|Hge].
  - rewrite pos_at_lt in HR |- * by done. rewrite bool_decide_true by done.
    destruct (lookup_lt_is_Some_2 l i Hlt) as [e He]. destruct (it_entry _ _ _ _ HR He) as [-> ->].
    cbn [mbind option_bind]. destruct (it_next _ _ _ HR) as (it' & -> & HR'). cbn [mbind option_bind].
    rewrite (IH it' (S i)) by (done || lia). cbn [mbind option_bind]. rewrite (drop_S _ _ _ He). by destruct e.
  - rewrite pos_at_ge by lia. by rewrite bool_decide_false, drop_ge by (lia || by intros [? ?]).
Qed.
End scan.

(** ** The reference iterator: a list and a position *)

Record ListIter := { li_entries : list kv; li_pos : option nat }.

Definition li_move (p : option nat) (it : ListIter) : ListIter := {| li_entries := li_entries it; li_pos := p |}.

Definition list_iterator (cmp : list byte → list byte → Z) : Iterator ListIter := {|
  it_Valid it := bool_decide (is_Some (li_pos it));
  it_SeekToFirst it := Some (li_move (pos_first (li_entries it)) it);
  it_SeekToLast it := Some (li_move (pos_last (li_entries it)) it);
  it_Seek t it := Some (li_move (pos_seek cmp t (li_entries it)) it);
  it_Next it := i ← li_pos it; Some (li_move (pos_next (li_entries it) i) it);
  it_Prev it := i ← li_pos it; Some (li_move (pos_prev i) it);
  it_key it := i ← li_pos it; fst <$> li_entries it !! i;
  it_value it := i ← li_pos it; snd <$> li_entries it !! i;
  it_status _ := Status_OK;
|}.

Definition list_at (cmp : list byte → list byte → Z) (valid : list byte → Prop)
    (it : ListIter) (l : list kv) (p : option nat) : Prop :=
  it = {| li_entries := l; li_pos := p |} ∧ sorted_kvs cmp l ∧ Forall (λ e, valid e.1) l ∧
  (∀ i, p = Some i → (i < length l)%nat).

Lemma list_laws cmp valid : IteratorLaws (Iterator0 := list_iterator cmp) ListIter cmp valid (list_at cmp valid).
Proof.
  split; cbn [it_Valid it_SeekToFirst it_SeekToLast it_Seek it_Next it_Prev it_key it_value it_status list_iterator];
    intros it l p; [by intros (_ & ?)|done|by intros (-> & _)|..].
  - intros e (-> & _) He. cbn. by rewrite He.
  - intros (-> & Hs & Hv & _). eexists. split; [done|]. split_and!; [done..|]. intros i [-> ?]%pos_at_Some. done.
  - intros (-> & Hs & Hv & _). eexists. split; [done|]. split_and!; [done..|].
    intros i. cbn. destruct l; [done|]. intros [= <-]. cbn. lia.
  - intros t (-> & Hs & Hv & _) _. eexists. split; [done|]. split_and!; [done..|]. intros i [-> ?]%pos_at_Some. done.
  - intros (-> & Hs & Hv & _). eexists. split; [done|]. split_and!; [done..|]. intros i [-> ?]%pos_at_Some. done.
  - intros (-> & Hs & Hv & Hp). eexists. split; [done|]. split_and!; [done..|].
    specialize (Hp p eq_refl). intros i. destruct p; [done|]. intros [= <-]. lia.
Qed.
