(* ===== verification/MemIter.v ===== *)
(** The memtable's iterator (db/memtable.cc, [MemTableIterator]) as an iterator
    over the memtable's entries in internal key order. *)
From stdpp Require Import sorting.
From S2P Require Import Prelude Coding Comparator DbFormat Env SkipList MemTable Iterator.

Record MemTableIterator (C : Type) := { mi_table : MemTable C; mi_node : option nat }.
Arguments mi_table {C} _.
Arguments mi_node {C} _.

Section memiter.
Context {C : Type} `{!Comparator C}.
Implicit Types it : MemTableIterator C.

Definition MemTable_NewIterator (m : MemTable C) : MemTableIterator C := {| mi_table := m; mi_node := None |}.

Definition mi_move it (n : option (option nat)) : option (MemTableIterator C) :=
  n ← n; Some {| mi_table := mi_table it; mi_node := n |}.

#[export] Instance mem_iterator : Iterator (MemTableIterator C) := {|
  it_Valid it := Iter_Valid (mi_node it);
  it_SeekToFirst it := mi_move it (MemIter_SeekToFirst (mi_table it));
  it_SeekToLast it := mi_move it (MemIter_SeekToLast (mi_table it));
  it_Seek k it := mi_move it (MemIter_Seek (mi_table it) k);
  it_Next it := mi_move it (MemIter_Next (mi_table it) (mi_node it));
  it_Prev it := mi_move it (MemIter_Prev (mi_table it) (mi_node it));
  it_key it := MemIter_key (mi_table it) (mi_node it);
  it_value it := MemIter_value (mi_table it) (mi_node it);
  it_status _ := Status_OK;
|}.
End memiter.

(** An entry as the iterator shows it. *)
Definition ikv (e : entry) : kv := (ikey e, e.2).

Lemma ikv_lookup (es : list entry) i e : es !! i = Some e → (ikv <$> es) !! i = Some (ikv e).
Proof. intros Hi. rewrite list_lookup_fmap. by rewrite Hi. Qed.

Section laws.
Context {C : Type} `{!Comparator C} {uvalid : list byte → Prop} `{!ComparatorLaws C uvalid}.
Context (icmp : InternalKeyComparator C).
Hypothesis Hshort : ∀ u, uvalid u → Z.of_nat (length u) + 8 < 2 ^ 32.

Definition mem_at (it : MemTableIterator C) (l : list kv) (p : option nat) : Prop :=
  ∃ es, l = ikv <$> es ∧ Forall (entry_ok uvalid) es ∧ comparator_ (mi_table it) = icmp ∧
    repr (KeyComparator icmp) (valid_entry (uvalid := uvalid)) (table_ (mi_table it)) (encode <$> es) ∧
    match p with
    | None => mi_node it = None
    | Some i => (i < length es)%nat ∧
        position (KeyComparator icmp) (valid_entry (uvalid := uvalid)) (table_ (mi_table it)) (mi_node it)
          (encode <$> take i es) (encode <$> drop i es)
    end.

(** A position in the skip list is a position in the entries. *)
Lemma position_at it es k n :
  Forall (entry_ok uvalid) es → comparator_ (mi_table it) = icmp → (k ≤ length es)%nat →
  position (KeyComparator icmp) (valid_entry (uvalid := uvalid)) (table_ (mi_table it)) n
    (encode <$> take k es) (encode <$> drop k es) →
  mem_at {| mi_table := mi_table it; mi_node := n |} (ikv <$> es) (pos_at (ikv <$> es) k).
Proof.
  intros Hok Hc Hk Hp. exists es. pose proof (position_repr _ _ _ _ _ _ Hp) as Hr.
  rewrite <- fmap_app, take_drop in Hr. split_and!; [done..|]. cbn [mi_table mi_node].
  unfold pos_at. rewrite length_fmap. destruct (Nat.ltb_spec k (length es)); [by split|].
  destruct Hp as (A & B & _ & _ & HB & _ & ->). rewrite drop_ge in HB by lia. by inversion HB.
Qed.

Lemma encode_order e e' : entry_ok uvalid e → entry_ok uvalid e' →
  KeyComparator icmp (encode e) (encode e') = internal_Compare icmp (ikey e) (ikey e').
Proof. intros He He'. unfold KeyComparator. by rewrite (prefixed_encode e He), (prefixed_encode e' He'). Qed.

Lemma mem_sorted it l p : mem_at it l p → sorted_kvs (internal_Compare icmp) l.
Proof.
  intros (es & -> & Hok & _ & Hr & _). apply repr_sorted in Hr.
  induction Hok as [|e es He Hok IH]; [constructor|]. rewrite fmap_cons in Hr. apply StronglySorted_inv in Hr as [Hr Hmin].
  constructor; [by apply IH|]. apply Forall_fmap. rewrite Forall_fmap in Hmin.
  apply Forall_forall. intros e' Hin. rewrite Forall_forall in Hmin, Hok. cbn [ikv fst compose]. unfold ikv. cbn [fst]. rewrite <- encode_order by auto. by apply Hmin.
Qed.

Lemma EncodeKey_prefixed t : Z.of_nat (length t) < 2 ^ 32 → mem_GetLengthPrefixedSlice (EncodeKey t) = Some t.
Proof.
  intros Ht. unfold EncodeKey, PutVarint32. cbn [app]. rewrite u32_small by lia.
  rewrite <- (app_nil_r t) at 2. by apply prefixed_Encode.
Qed.

Lemma ikey_valid e : entry_ok uvalid e → valid_key uvalid (ikey e).
Proof. intros He. rewrite ikey_app. apply valid_key_app, He. Qed.

Lemma mem_seek it l p t : mem_at it l p → valid_key uvalid t →
  ∃ it', it_Seek t it = Some it' ∧ mem_at it' l (pos_seek (internal_Compare icmp) t l).
Proof.
  intros Hat [Ht8 Ht]. pose proof (mem_sorted _ _ _ Hat) as Hso. destruct Hat as (es & -> & Hok & Hc & Hr & _).
  assert (mem_GetLengthPrefixedSlice (EncodeKey t) = Some t) as Hpt.
  { apply EncodeKey_prefixed. specialize (Hshort _ Ht). unfold ExtractUserKey in Hshort.
    rewrite length_take in Hshort. lia. }
  cbn [it_Seek mem_iterator]. unfold MemIter_Seek. rewrite Hc.
  destruct (Seek_position (KeyComparator icmp) (valid_entry (uvalid := uvalid)) (table_ (mi_table it))
    (encode <$> es) (EncodeKey t) Hr) as (n & -> & Hp); [by exists t|].
  cbn [mi_move mbind option_bind]. eexists. split; [done|]. apply position_at; [done..| |].
  { rewrite <- (length_fmap ikv es). apply lower_bound_le. }
  set (k := lower_bound _ _ _).
  destruct (filter_prefix (λ e, KeyComparator icmp (encode e) (EncodeKey t) < 0) es k) as [Hb Ha].
  { intros i e He. pose proof (comparator_order icmp : KeyOrder (internal_Compare icmp) (valid_key uvalid)) as Hord.
    unfold k. rewrite (lower_bound_iff (KeyOrder0 := Hord) t (ikv <$> es) i (ikv e));
      [|done| |done|by apply ikv_lookup].
    - unfold KeyComparator. rewrite Hpt, (prefixed_encode e (Forall_lookup_1 _ _ _ _ Hok He)). done.
    - apply Forall_fmap. apply (Forall_impl _ _ _ Hok). intros e' He'. by apply ikey_valid. }
  unfold keys_below, keys_from in Hp. rewrite !filter_encode in Hp. rewrite <- Hb, <- Ha.
  erewrite (list_filter_iff (λ e, ¬ _) _ es); [exact Hp|]. intros e. cbn. lia.
Qed.

#[export] Instance mem_laws :
  IteratorLaws (MemTableIterator C) (internal_Compare icmp) (valid_key uvalid) mem_at.
Proof.
  split.
  - intros it l p Hat. split; [by eapply mem_sorted|]. destruct Hat as (es & -> & Hok & _ & _ & Hp). split.
    + apply Forall_fmap. apply (Forall_impl _ _ _ Hok). intros e He. by apply ikey_valid.
    + intros i ->. rewrite length_fmap. apply Hp.
  - done.
  - intros it l p (es & -> & _ & _ & _ & Hp). cbn [it_Valid mem_iterator]. destruct p as [i|].
    + destruct Hp as [Hi Hp]. apply position_key in Hp as [_ ->].
      destruct (lookup_lt_is_Some_2 es i Hi) as [e He]. by rewrite (drop_S _ _ _ He).
    + by rewrite Hp.
  - intros it l i x (es & -> & Hok & _ & _ & Hi & Hp) Hx. rewrite list_lookup_fmap in Hx.
    apply fmap_Some in Hx as (e & He & ->). apply position_key in Hp as [Hk _].
    rewrite (drop_S _ _ _ He) in Hk. cbn [head fmap list_fmap] in Hk.
    cbn [it_key it_value mem_iterator]. unfold MemIter_key, MemIter_value. rewrite Hk. cbn [mbind option_bind].
    pose proof (Forall_lookup_1 _ _ _ _ Hok He) as Hoke. destruct (encode_parts uvalid e Hoke) as [Henc Hlen].
    split; [exact (prefixed_encode e Hoke)|]. rewrite Henc, entry_varint_Encode by lia. cbn [mbind option_bind].
    rewrite (proj2 (Z.leb_le _ _)), Nat2Z.id, drop_app_length by (rewrite length_app; lia).
    pose proof Hoke as (_ & _ & _ & Hv). pose proof (prefixed_Encode e.2 [] Hv) as Hpe. by rewrite app_nil_r in Hpe.
  - intros it l p (es & -> & Hok & Hc & Hr & _). cbn [it_SeekToFirst mem_iterator]. unfold MemIter_SeekToFirst.
    destruct (SeekToFirst_position _ _ _ _ Hr) as (n & -> & Hp). eexists. split; [done|].
    apply (position_at it es 0); [done..|lia|]. by rewrite take_0, drop_0.
  - intros it l p (es & -> & Hok & Hc & Hr & _). cbn [it_SeekToLast mem_iterator]. unfold MemIter_SeekToLast.
    destruct es as [|e es _] using rev_ind.
    + rewrite (SeekToLast_empty _ _ _ Hr). eexists. split; [done|]. by exists [].
    + rewrite fmap_app in Hr. destruct (SeekToLast_position _ _ _ _ _ Hr) as (n & -> & Hp). eexists. split; [done|].
      pose proof (position_at it (es ++ [e]) (length es) n Hok Hc) as Hpos.
      rewrite take_app_length, drop_app_length, pos_at_lt in Hpos by (rewrite length_fmap, length_app; cbn; lia).
      rewrite pos_last_prev, length_fmap, length_app, Nat.add_comm. apply Hpos; [rewrite length_app; lia|done].
  - apply mem_seek.
  - intros it l i (es & -> & Hok & Hc & Hr & Hi & Hp). cbn [it_Next mem_iterator]. unfold MemIter_Next.
    destruct (lookup_lt_is_Some_2 es i Hi) as [e He]. rewrite (drop_S _ _ _ He) in Hp.
    destruct (Next_position _ _ _ _ _ _ _ Hp) as (n & -> & Hp'). eexists. split; [done|].
    apply (position_at it es (S i)); [done..|lia|]. by rewrite (take_S_r _ _ _ He), fmap_app.
  - intros it l i (es & -> & Hok & Hc & Hr & Hi & Hp). cbn [it_Prev mem_iterator]. unfold MemIter_Prev.
    destruct (lookup_lt_is_Some_2 es i Hi) as [e He]. rewrite (drop_S _ _ _ He) in Hp. rewrite Hc.
    destruct (Prev_position _ _ _ _ _ _ _ Hp) as (n & -> & Hp'). eexists. split; [done|].
    destruct i as [|i]; cbn [pos_prev].
    + rewrite take_0 in Hp'. cbn in Hp'. subst n. exists es. by split_and!.
    + destruct (lookup_lt_is_Some_2 es i) as [e1 He1]; [lia|].
      rewrite (take_S_r _ _ _ He1), fmap_app in Hp'. cbn [fmap list_fmap] in Hp'. rewrite reverse_snoc, reverse_involutive in Hp'.
      rewrite <- (pos_at_lt (ikv <$> es) i) by (rewrite length_fmap; lia).
      apply (position_at it es i); [done..|lia|]. by rewrite (drop_S _ _ _ He1), (drop_S _ _ _ He).
Qed.
End laws.
