(* ===== verification/Merger.v ===== *)
(** The merging iterator (table/merger.cc) over iterators of sorted sequences. *)
From stdpp Require Import sorting.
From S2P Require Import Prelude Comparator Env Iterator.

Inductive Direction := kForward | kReverse.

Section merger.
Context {I : Type} `{!Iterator I} (cmp : list byte → list byte → Z).

(** [current_] is an index into [children_]. *)
Record MergingIterator := {
  children_ : list (IteratorWrapper I);
  current_ : option nat;
  direction_ : Direction;
}.
Implicit Types m : MergingIterator.

Definition MergingIterator_new (children : list I) : option MergingIterator :=
  ws ← mapM Wrapper_new children;
  Some {| children_ := ws; current_ := None; direction_ := kForward |}.

(** The loops of [FindSmallest] and [FindLargest]: [best] is the choice so far
    and its key; [better] decides whether the child's key replaces it. *)
Definition pick (better : Z → bool) (i : nat) (w : IteratorWrapper I) (best : option (nat * list byte))
    : option (option (nat * list byte)) :=
  if it_Valid w
  then k ← it_key w;
       match best with
       | None => Some (Some (i, k))
       | Some (_, b) => Some (if better (cmp k b) then Some (i, k) else best)
       end
  else Some best.

Fixpoint FindSmallest_loop (i : nat) (ws : list (IteratorWrapper I)) (best : option (nat * list byte))
    : option (option (nat * list byte)) :=
  match ws with
  | [] => Some best
  | w :: ws => best ← pick (λ c, c <? 0) i w best; FindSmallest_loop (S i) ws best
  end.

Fixpoint FindLargest_loop (i : nat) (ws : list (IteratorWrapper I)) (best : option (nat * list byte))
    : option (option (nat * list byte)) :=
  match ws with
  | [] => Some best
  | w :: ws => best ← FindLargest_loop (S i) ws best; pick (λ c, 0 <? c) i w best
  end.

Definition FindSmallest (ws : list (IteratorWrapper I)) (d : Direction) : option MergingIterator :=
  best ← FindSmallest_loop 0 ws None;
  Some {| children_ := ws; current_ := fst <$> best; direction_ := d |}.

Definition FindLargest (ws : list (IteratorWrapper I)) (d : Direction) : option MergingIterator :=
  best ← FindLargest_loop 0 ws None;
  Some {| children_ := ws; current_ := fst <$> best; direction_ := d |}.

Definition Merging_SeekToFirst m : option MergingIterator :=
  ws ← mapM it_SeekToFirst (children_ m); FindSmallest ws kForward.
Definition Merging_SeekToLast m : option MergingIterator :=
  ws ← mapM it_SeekToLast (children_ m); FindLargest ws kReverse.
Definition Merging_Seek (target : list byte) m : option MergingIterator :=
  ws ← mapM (it_Seek target) (children_ m); FindSmallest ws kForward.

Definition Merging_current m : option (IteratorWrapper I) := c ← current_ m; children_ m !! c.
Definition Merging_Valid m : bool := match current_ m with Some _ => true | None => false end.
Definition Merging_key m : option (list byte) := w ← Merging_current m; it_key w.
Definition Merging_value m : option (list byte) := w ← Merging_current m; it_value w.

Fixpoint Merging_status_loop (ws : list (IteratorWrapper I)) (s : Status) : Status :=
  match ws with
  | [] => s
  | w :: ws => let s := it_status w in if ok s then Merging_status_loop ws s else s
  end.
Definition Merging_status m : Status := Merging_status_loop (children_ m) Status_OK.

(** [f] on every child but the one at [cur], from the first to the last. *)
Fixpoint map_others (f : IteratorWrapper I → option (IteratorWrapper I)) (cur : nat)
    (ws : list (IteratorWrapper I)) {struct ws} : option (list (IteratorWrapper I)) :=
  match ws with
  | [] => Some []
  | w :: ws =>
      match cur with
      | O => ws ← mapM f ws; Some (w :: ws)
      | S cur => w ← f w; ws ← map_others f cur ws; Some (w :: ws)
      end
  end.

(** Repositioning of one other child when the direction changes. *)
Definition to_after (key : list byte) (w : IteratorWrapper I) : option (IteratorWrapper I) :=
  w ← it_Seek key w;
  if it_Valid w
  then k ← it_key w; if cmp key k =? 0 then it_Next w else Some w
  else Some w.

Definition to_before (key : list byte) (w : IteratorWrapper I) : option (IteratorWrapper I) :=
  w ← it_Seek key w;
  if it_Valid w then it_Prev w else it_SeekToLast w.

Definition step_current (f : IteratorWrapper I → option (IteratorWrapper I)) (c : nat)
    (ws : list (IteratorWrapper I)) : option (list (IteratorWrapper I)) :=
  w ← ws !! c; w ← f w; Some (<[c := w]> ws).

Definition Merging_Next m : option MergingIterator :=
  c ← current_ m; key ← Merging_key m;
  ws ← match direction_ m with
       | kForward => Some (children_ m)
       | kReverse => map_others (to_after key) c (children_ m)
       end;
  ws ← step_current it_Next c ws;
  FindSmallest ws kForward.

Definition Merging_Prev m : option MergingIterator :=
  c ← current_ m; key ← Merging_key m;
  ws ← match direction_ m with
       | kReverse => Some (children_ m)
       | kForward => map_others (to_before key) c (children_ m)
       end;
  ws ← step_current it_Prev c ws;
  FindLargest ws kReverse.

#[export] Instance merging_iterator : Iterator MergingIterator := {|
  it_Valid := Merging_Valid;
  it_SeekToFirst := Merging_SeekToFirst;
  it_SeekToLast := Merging_SeekToLast;
  it_Seek := Merging_Seek;
  it_Next := Merging_Next;
  it_Prev := Merging_Prev;
  it_key := Merging_key;
  it_value := Merging_value;
  it_status := Merging_status;
|}.

(** The iterator [NewMergingIterator] returns: none, the only child, or a merge. *)
Definition NewMergingIterator (children : list I) : option (EmptyIterator + (I + MergingIterator)) :=
  match children with
  | [] => Some (inl NewEmptyIterator)
  | [it] => Some (inr (inl it))
  | _ => (λ m, inr (inr m)) <$> MergingIterator_new children
  end.
End merger.
Arguments MergingIterator I : clear implicits.

(** ** Children *)

Section children.
Implicit Types ls : list (list kv).

(** [P] of each child, its index and its entries. *)
Definition each {W} (ws : list W) (ls : list (list kv)) (P : nat → W → list kv → Prop) : Prop :=
  length ws = length ls ∧ ∀ j w l, ws !! j = Some w → ls !! j = Some l → P j w l.

Lemma each_impl {W} (ws : list W) ls P Q : each ws ls P → (∀ j w l, ls !! j = Some l → P j w l → Q j w l) → each ws ls Q.
Proof. intros [Hlen HP] HPQ. split; [done|]. eauto. Qed.

Lemma each_nil {W} P : each (W := W) [] [] P.
Proof. by split. Qed.

Lemma each_cons {W} (w : W) ws l ls P : each (w :: ws) (l :: ls) P ↔ P 0%nat w l ∧ each ws ls (λ j, P (S j)).
Proof.
  split.
  - intros [Hlen HP]. split; [by apply (HP 0%nat)|]. split; [by injection Hlen|]. intros j. apply (HP (S j)).
  - intros [H0 [Hlen HP]]. split; [cbn; lia|]. intros [|j] w' l' Hw Hl; [by injection Hw as <-; injection Hl as <-|].
    by apply HP.
Qed.

Lemma each_app {W} (ws ws' : list W) ls ls' (P : W → list kv → Prop) : each ws ls (λ _, P) → each ws' ls' (λ _, P) → each (ws ++ ws') (ls ++ ls') (λ _, P).
Proof.
  revert ls; induction ws as [|w ws IH]; intros [|l ls] H H'; try done; try (by destruct H). apply each_cons in H as [H0 H]. cbn. apply each_cons. split; [done|]. by apply IH.
Qed.

Lemma mapM_each {W V} (f : W → option V) (ws : list W) ls P Q :
  each ws ls P → (∀ j w l, ls !! j = Some l → P j w l → ∃ w', f w = Some w' ∧ Q j w' l) →
  ∃ ws', mapM f ws = Some ws' ∧ each ws' ls Q.
Proof.
  revert ls P Q; induction ws as [|w ws IH]; intros [|l ls] P Q Heach Hf; try (by destruct Heach).
  { exists []. split; [done|apply each_nil]. }
  apply each_cons in Heach as [H0 Hr]. destruct (Hf 0%nat w l eq_refl H0) as (w' & Hw' & Hq).
  destruct (IH ls _ (λ j, Q (S j)) Hr) as (ws' & Hws' & Hqs).
  { intros j x y Hy. by apply (Hf (S j)). }
  exists (w' :: ws'). split; [|by apply each_cons]. cbn. rewrite Hw'. cbn. by rewrite Hws'.
Qed.
End children.

Section merger_proofs.
Context {I : Type} `{!Iterator I} {cmp : list byte → list byte → Z} {valid : list byte → Prop}.
Context {R : I → list kv → option nat → Prop} `{!IteratorLaws I cmp valid R} `{!KeyOrder cmp valid}.
Notation W := (IteratorWrapper I).
Notation at_ := (wrapper_at (R := R)).

Lemma map_others_each f c (ws : list W) ls P Q :
  each ws ls P → (∀ j w l, ls !! j = Some l → j ≠ c → P j w l → ∃ w', f w = Some w' ∧ Q j w' l) →
  ∃ ws', map_others f c ws = Some ws' ∧ each ws' ls (λ j w l, if decide (j = c) then P j w l else Q j w l).
Proof.
  revert ls c P Q; induction ws as [|w ws IH]; intros [|l ls] c P Q Heach Hf; try (by destruct Heach).
  { exists []. split; [done|apply each_nil]. }
  apply each_cons in Heach as [H0 Hr]. destruct c as [|c]; cbn [map_others].
  - destruct (mapM_each f ws ls _ (λ j, Q (S j)) Hr) as (ws' & Hws' & Hqs).
    { intros j x y Hy. by apply (Hf (S j)). }
    exists (w :: ws'). rewrite Hws'. split; [done|]. apply each_cons. split; [done|].
    eapply each_impl; [exact Hqs|]. intros j x y _ Hq. by rewrite decide_False.
  - destruct (Hf 0%nat w l eq_refl) as (w' & Hw' & Hq); [done..|]. rewrite Hw'. cbn [mbind option_bind].
    destruct (IH ls c _ (λ j, Q (S j)) Hr) as (ws' & Hws' & Hqs).
    { intros j x y Hy Hne. apply (Hf (S j)); [done|lia]. }
    rewrite Hws'. cbn [mbind option_bind]. exists (w' :: ws'). split; [done|]. apply each_cons. split; [done|].
    eapply each_impl; [exact Hqs|]. intros j x y _. cbn beta. destruct (decide (j = c)), (decide (S j = S c)); done || lia.
Qed.

Lemma step_current_each f c (ws : list W) ls l P Q :
  each ws ls P → ls !! c = Some l → (∀ w, P c w l → ∃ w', f w = Some w' ∧ Q w' l) →
  ∃ ws', step_current f c ws = Some ws' ∧ each ws' ls (λ j w l, if decide (j = c) then Q w l else P j w l).
Proof.
  intros [Hlen HP] Hc Hf. pose proof (lookup_lt_Some _ _ _ Hc) as Hlt.
  destruct (lookup_lt_is_Some_2 ws c) as [w Hw]; [lia|].
  destruct (Hf w (HP c w l Hw Hc)) as (w' & Hw' & Hq). unfold step_current. rewrite Hw. cbn [mbind option_bind].
  rewrite Hw'. eexists. split; [done|]. split; [by rewrite length_insert|]. intros j x y Hx Hy.
  destruct (decide (j = c)) as [->|Hne].
  - rewrite list_lookup_insert_eq in Hx by lia. injection Hx as <-. congruence.
  - rewrite list_lookup_insert_ne in Hx by done. by eapply HP.
Qed.

(** ** [FindSmallest] and [FindLargest] *)

(** What a wrapper shows: the key of the entry it is at. *)
Definition shows (w : W) (o : option (list byte)) : Prop :=
  it_Valid w = bool_decide (is_Some o) ∧ ∀ k, o = Some k → it_key w = Some k.

Definition shown (w : W) : option (list byte) := if it_Valid w then it_key w else None.

Lemma at_shown w l p : at_ w l p → shows w (shown w) ∧ shown w = fst <$> (i ← p; l !! i).
Proof.
  intros Hw. pose proof (it_valid _ _ _ Hw) as Hv. unfold shown, shows. rewrite Hv. destruct p as [i|]; [|done].
  destruct (it_wf _ _ _ Hw) as (_ & _ & Hi). destruct (lookup_lt_is_Some_2 l i (Hi i eq_refl)) as [e He].
  cbn [mbind option_bind]. rewrite bool_decide_true, (proj1 (it_entry _ _ _ _ Hw He)), He by done. done.
Qed.

Lemma pick_shows better i w o best :
  shows w o → pick cmp better i w best =
  Some (match o with
        | None => best
        | Some e => match best with
                    | None => Some (i, e)
                    | Some (_, b) => if better (cmp e b) then Some (i, e) else best
                    end
        end).
Proof.
  intros [Hv Hk]. unfold pick. rewrite Hv. destruct o as [e|]; [|done].
  rewrite bool_decide_true, (Hk e eq_refl) by done. by destruct best as [[? ?]|].
Qed.

Definition os_valid (os : list (option (list byte))) : Prop := ∀ j e, os !! j = Some (Some e) → valid e.

Lemma FindSmallest_keep i ws os c k :
  Forall2 shows ws os → os_valid os → valid k → (∀ j e, os !! j = Some (Some e) → cmp k e < 0) →
  FindSmallest_loop cmp i ws (Some (c, k)) = Some (Some (c, k)).
Proof.
  intros HF. revert i. induction HF as [|w o ws os Hw HF IH]; intros i Hv Hk Hlt; [done|].
  cbn [FindSmallest_loop]. rewrite (pick_shows _ _ _ _ _ Hw). cbn [mbind option_bind].
  assert (match o with Some e => if cmp e k <? 0 then Some (i, e) else Some (c, k) | None => Some (c, k) end = Some (c, k)) as ->.
  { destruct o as [e|]; [|done]. specialize (Hlt 0%nat e eq_refl). specialize (Hv 0%nat e eq_refl).
    apply (ko_lt_sym cmp valid) in Hlt; [|done..]. by rewrite (proj2 (Z.ltb_ge _ _)) by lia. }
  apply IH; [intros j; apply (Hv (S j))|done|intros j; apply (Hlt (S j))].
Qed.

Lemma FindSmallest_find i ws os best c e :
  Forall2 shows ws os → os_valid os → os !! c = Some (Some e) →
  (∀ j e', os !! j = Some (Some e') → j ≠ c → cmp e e' < 0) →
  (∀ b k, best = Some (b, k) → cmp e k < 0) →
  FindSmallest_loop cmp i ws best = Some (Some ((i + c)%nat, e)).
Proof.
  intros HF. revert i best c. induction HF as [|w o ws os Hw HF IH]; intros i best c Hv Hc Hmin Hbest; [done|].
  cbn [FindSmallest_loop]. rewrite (pick_shows _ _ _ _ _ Hw). cbn [mbind option_bind].
  destruct c as [|c].
  - injection Hc as ->. rewrite Nat.add_0_r.
    assert (match best with Some (_, b) => if cmp e b <? 0 then Some (i, e) else best | None => Some (i, e) end = Some (i, e)) as ->.
    { destruct best as [[b k]|]; [|done]. specialize (Hbest b k eq_refl). by rewrite (proj2 (Z.ltb_lt _ _)). }
    eapply FindSmallest_keep; [done|intros j; apply (Hv (S j))|by apply (Hv 0%nat)|].
    intros j e' He'. by apply (Hmin (S j)).
  - replace (i + S c)%nat with (S i + c)%nat by lia. apply IH; [intros j; apply (Hv (S j))|done|..].
    + intros j e' He' Hne. apply (Hmin (S j)); [done|lia].
    + intros b k. destruct o as [e'|]; [|apply Hbest].
      pose proof (Hmin 0%nat e' eq_refl ltac:(done)) as He'.
      destruct best as [[b' k']|]; [destruct (_ <? 0)|]; intros [= <- <-]; try done. by eapply Hbest.
Qed.

Lemma FindSmallest_none i ws os :
  Forall2 shows ws os → (∀ j e, os !! j ≠ Some (Some e)) → FindSmallest_loop cmp i ws None = Some None.
Proof.
  intros HF. revert i. induction HF as [|w o ws os Hw HF IH]; intros i Hno; [done|].
  cbn [FindSmallest_loop]. rewrite (pick_shows _ _ _ _ _ Hw). cbn [mbind option_bind].
  destruct o as [e|]; [by destruct (Hno 0%nat e)|]. apply IH. intros j. apply (Hno (S j)).
Qed.

Lemma FindLargest_none i ws os :
  Forall2 shows ws os → (∀ j e, os !! j ≠ Some (Some e)) → FindLargest_loop cmp i ws None = Some None.
Proof.
  intros HF. revert i. induction HF as [|w o ws os Hw HF IH]; intros i Hno; [done|].
  cbn [FindLargest_loop]. rewrite IH by (intros j; apply (Hno (S j))). cbn [mbind option_bind].
  rewrite (pick_shows _ _ _ _ _ Hw). destruct o as [e|]; [by destruct (Hno 0%nat e)|done].
Qed.

Lemma FindLargest_result i ws os :
  Forall2 shows ws os → ∃ r, FindLargest_loop cmp i ws None = Some r ∧
    ∀ b k, r = Some (b, k) → ∃ j e, os !! j = Some (Some e) ∧ k = e.
Proof.
  intros HF. revert i. induction HF as [|w o ws os Hw HF IH]; intros i; [by exists None|].
  cbn [FindLargest_loop]. destruct (IH (S i)) as (r & -> & Hr). cbn [mbind option_bind].
  rewrite (pick_shows _ _ _ _ _ Hw). eexists. split; [done|]. intros b k Hbk.
  assert (r = Some (b, k) ∨ ∃ e, o = Some e ∧ k = e) as [Hk|(e & -> & ->)].
  { destruct o as [e|]; [|by left]. destruct r as [[b' k']|]; [destruct (0 <? _)|]; simplify_eq; eauto. }
  - destruct (Hr b k Hk) as (j & e & Hj & ->). by exists (S j), e.
  - by exists 0%nat, e.
Qed.

Lemma FindLargest_find i ws os c e :
  Forall2 shows ws os → os_valid os → os !! c = Some (Some e) →
  (∀ j e', os !! j = Some (Some e') → j ≠ c → cmp e' e < 0) →
  FindLargest_loop cmp i ws None = Some (Some ((i + c)%nat, e)).
Proof.
  intros HF. revert i c. induction HF as [|w o ws os Hw HF IH]; intros i c Hv Hc Hmax; [done|].
  cbn [FindLargest_loop]. destruct c as [|c].
  - injection Hc as ->. destruct (FindLargest_result (S i) ws os HF) as (r & -> & Hr). cbn [mbind option_bind].
    rewrite (pick_shows _ _ _ _ _ Hw), Nat.add_0_r. destruct r as [[b k]|]; [|done].
    destruct (Hr b k eq_refl) as (j & e' & Hj & ->). pose proof (Hmax (S j) e' Hj ltac:(done)) as Hlt.
    apply (ko_lt_sym cmp valid) in Hlt; [|by apply (Hv (S j))|by apply (Hv 0%nat)]. by rewrite (proj2 (Z.ltb_lt _ _)).
  - rewrite (IH (S i) c); [|intros j; apply (Hv (S j))|done|].
    2:{ intros j e' He' Hne. apply (Hmax (S j)); [done|lia]. }
    cbn [mbind option_bind]. rewrite (pick_shows _ _ _ _ _ Hw). replace (S i + c)%nat with (i + S c)%nat by lia.
    destruct o as [e'|]; [|done]. pose proof (Hmax 0%nat e' eq_refl ltac:(done)) as Hlt.
    by rewrite (proj2 (Z.ltb_ge _ _)) by lia.
Qed.

(** ** The merged sequence *)

Definition merged (L : list kv) (ls : list (list kv)) : Prop :=
  sorted_kvs cmp L ∧ Forall (λ e, valid e.1) L ∧ L ≡ₚ mjoin ls.

Lemma concat_disjoint (ls : list (list kv)) a b l l' e :
  NoDup (mjoin ls) → ls !! a = Some l → ls !! b = Some l' → e ∈ l → e ∈ l' → a = b.
Proof.
  revert a b; induction ls as [|x ls IH]; intros a b Hnd Ha Hb He He'; [done|].
  cbn in Hnd. apply NoDup_app in Hnd as (_ & Hd & Hnd).
  assert (∀ k y, ls !! k = Some y → e ∈ y → e ∈ mjoin ls) as Hin.
  { intros k y Hk Hy. apply list_elem_of_join. exists y. split; [done|by eapply list_elem_of_lookup_2]. }
  destruct a as [|a], b as [|b]; cbn in Ha, Hb; [done| | |f_equal; by apply (IH a b)].
  - injection Ha as <-. destruct (Hd e He). by eapply Hin.
  - injection Hb as <-. destruct (Hd e He'). by eapply Hin.
Qed.

Section merged.
Context (L : list kv) (ls : list (list kv)).
Hypothesis HM : merged L ls.

Lemma merged_sub j l e : ls !! j = Some l → e ∈ l → e ∈ L.
Proof.
  destruct HM as (_ & _ & Hp). intros Hj He. rewrite Hp. apply list_elem_of_join. exists l.
  split; [done|by eapply list_elem_of_lookup_2].
Qed.

Lemma merged_child e : e ∈ L → ∃ c l, ls !! c = Some l ∧ e ∈ l.
Proof.
  destruct HM as (_ & _ & Hp). rewrite Hp. intros (l & He & [c Hc]%list_elem_of_lookup)%list_elem_of_join. eauto.
Qed.

Lemma merged_unique a b l l' e : ls !! a = Some l → ls !! b = Some l' → e ∈ l → e ∈ l' → a = b.
Proof.
  destruct HM as (Hs & Hv & Hp). apply concat_disjoint. rewrite <- Hp. by apply (sorted_NoDup (valid := valid)).
Qed.

(** All children just after, or just before, the first [i] entries. *)
Definition fwd (i : nat) (ws : list W) : Prop :=
  each ws ls (λ _ w l, ∃ n, at_ w l (pos_at l n) ∧ cut L i l n).
Definition bwd (i : nat) (ws : list W) : Prop :=
  each ws ls (λ _ w l, ∃ n, at_ w l (pos_prev n) ∧ cut L i l n).
Definition anywhere (ws : list W) : Prop := each ws ls (λ _ w l, ∃ q, at_ w l q).

Lemma fwd_anywhere i ws : fwd i ws → anywhere ws.
Proof. intros H. eapply each_impl; [exact H|]. intros j w l _ (n & Hw & _). eauto. Qed.

Lemma bwd_anywhere i ws : bwd i ws → anywhere ws.
Proof. intros H. eapply each_impl; [exact H|]. intros j w l _ (n & Hw & _). eauto. Qed.

(** The keys the children show. *)
Lemma shown_child ws (P : nat → W → list kv → Prop) j k :
  each ws ls P → (shown <$> ws) !! j = Some (Some k) →
  ∃ w l, ls !! j = Some l ∧ P j w l ∧ shown w = Some k.
Proof.
  intros [Hlen HP]. rewrite list_lookup_fmap. destruct (ws !! j) as [w|] eqn:Hw; [|done]. cbn. intros [= Hk].
  pose proof (lookup_lt_Some _ _ _ Hw). destruct (lookup_lt_is_Some_2 ls j) as [l Hl]; [lia|].
  exists w, l. by split_and!; [|apply HP|].
Qed.

Lemma shown_inv w l q k : at_ w l q → shown w = Some k → ∃ i e, q = Some i ∧ l !! i = Some e ∧ k = e.1.
Proof.
  intros Hat Hk. destruct (at_shown _ _ _ Hat) as [_ Hs]. rewrite Hk in Hs. destruct q as [i|]; [|done].
  cbn in Hs. destruct (l !! i) as [e|] eqn:He; [|done]. injection Hs as ->. by exists i, e.
Qed.

Lemma anywhere_shows ws :
  anywhere ws → Forall2 shows ws (shown <$> ws) ∧ os_valid (shown <$> ws).
Proof.
  intros Hany. split.
  - destruct Hany as [Hlen Hall]. apply Forall2_same_length_lookup. rewrite length_fmap. split; [done|].
    intros j w o Hw. rewrite list_lookup_fmap, Hw. intros [= <-]. pose proof (lookup_lt_Some _ _ _ Hw).
    destruct (lookup_lt_is_Some_2 ls j) as [l Hl]; [lia|]. destruct (Hall j w l Hw Hl) as [q Hq].
    by destruct (at_shown _ _ _ Hq).
  - intros j k Hj. destruct (shown_child _ _ _ _ Hany Hj) as (w & l & Hl & [q Hq] & Hk).
    destruct (shown_inv _ _ _ _ Hq Hk) as (i & e & -> & He & ->). destruct HM as (_ & Hv & _).
    apply (proj1 (Forall_forall _ _) Hv e). eapply merged_sub; [done|by eapply list_elem_of_lookup_2].
Qed.

Lemma shown_at (ws : list W) j w l i e :
  ws !! j = Some w → at_ w l (Some i) → l !! i = Some e → (shown <$> ws) !! j = Some (Some e.1).
Proof.
  intros Hw Hat He. rewrite list_lookup_fmap, Hw. cbn. destruct (at_shown _ _ _ Hat) as [_ ->]. cbn. by rewrite He.
Qed.
End merged.

(** An iterator over the merged sequence at [p]. *)
Definition merging_at (m : MergingIterator I) (L : list kv) (p : option nat) : Prop :=
  ∃ ls, merged L ls ∧ anywhere ls (children_ m) ∧
  match p with
  | None => current_ m = None
  | Some i => ∃ e c l, L !! i = Some e ∧ current_ m = Some c ∧ ls !! c = Some l ∧ e ∈ l ∧
      match direction_ m with
      | kForward => fwd L ls i (children_ m)
      | kReverse => bwd L ls (S i) (children_ m)
      end
  end.

Section results.
Context (L : list kv) (ls : list (list kv)).
Hypothesis HM : merged L ls.
Let HsL : sorted_kvs cmp L := proj1 HM.
Let HvL : Forall (λ e, valid e.1) L := proj1 (proj2 HM).

Lemma child_sorted w l q : at_ w l q → sorted_kvs cmp l.
Proof. intros Hw. by destruct (it_wf _ _ _ Hw). Qed.

(** Two entries of different children are at different places. *)
Lemma other_index c j l l' e e' a i :
  ls !! c = Some l → e ∈ l → ls !! j = Some l' → e' ∈ l' → j ≠ c →
  L !! i = Some e → L !! a = Some e' → a ≠ i.
Proof.
  intros Hc He Hj He' Hne Hi Ha ->. rewrite Hi in Ha. injection Ha as <-. apply Hne. by eapply merged_unique.
Qed.

Lemma fwd_result i ws :
  fwd L ls i ws → (i ≤ length L)%nat →
  ∃ m, FindSmallest cmp ws kForward = Some m ∧ merging_at m L (pos_at L i).
Proof.
  intros Hf Hi. pose proof (fwd_anywhere _ _ _ _ Hf) as Hany.
  destruct (anywhere_shows L ls HM ws Hany) as (Hsh & Hval). unfold FindSmallest.
  assert (∀ j k, (shown <$> ws) !! j = Some (Some k) → ∃ l e a, ls !! j = Some l ∧ e ∈ l ∧ k = e.1 ∧
    L !! a = Some e ∧ (i ≤ a)%nat) as Hks.
  { intros j k Hj. destruct (shown_child _ _ _ _ _ Hf Hj) as (w & l & Hl & (n & Hat & Hcut) & Hk).
    destruct (shown_inv _ _ _ _ Hat Hk) as (i' & e & [-> Hn]%pos_at_Some & He & ->).
    destruct (cut_head L l (λ x, merged_sub L ls HM j l x Hl) i n n e Hcut He) as (a & Ha & Hia); [done|].
    exists l, e, a. split_and!; try done. by eapply list_elem_of_lookup_2. }
  destruct (L !! i) as [e|] eqn:He.
  - destruct (merged_child L ls HM e) as (c & l & Hc & Hel); [by eapply list_elem_of_lookup_2|].
    pose proof Hf as [Hlen Hf']. pose proof (lookup_lt_Some _ _ _ Hc) as Hlt.
    destruct (lookup_lt_is_Some_2 ws c) as [w Hw]; [lia|]. destruct (Hf' c w l Hw Hc) as (n & Hat & Hcut).
    pose proof (cut_at L l HsL HvL (child_sorted _ _ _ Hat) (λ x, merged_sub L ls HM c l x Hc) i n e Hcut He Hel) as Hn.
    rewrite (pos_at_lt l n) in Hat by (by eapply lookup_lt_Some).
    rewrite (FindSmallest_find 0 ws (shown <$> ws) None c e.1 Hsh Hval (shown_at ws c w l n e Hw Hat Hn)); [|..|done].
    2:{ intros j k Hj Hne. destruct (Hks j k Hj) as (l' & e' & a & Hl' & He' & -> & Ha & Hia).
        pose proof (other_index c j l l' e e' a i Hc Hel Hl' He' Hne He Ha).
        apply (sorted_lookup L i a e e'); [done..|lia]. }
    cbn [mbind option_bind fst]. eexists. split; [done|]. exists ls. split; [done|]. cbn [children_ current_ direction_].
    split; [done|]. rewrite pos_at_lt by (by eapply lookup_lt_Some). by exists e, c, l.
  - apply lookup_ge_None in He. rewrite (FindSmallest_none 0 ws (shown <$> ws) Hsh).
    2:{ intros j k Hj. destruct (Hks j k Hj) as (l' & e' & a & _ & _ & _ & Ha & Hia).
        apply lookup_lt_Some in Ha. lia. }
    eexists. split; [done|]. exists ls. split; [done|]. split; [done|]. by rewrite pos_at_ge.
Qed.

Lemma bwd_result i ws :
  bwd L ls i ws → (i ≤ length L)%nat →
  ∃ m, FindLargest cmp ws kReverse = Some m ∧ merging_at m L (pos_prev i).
Proof.
  intros Hf Hi. pose proof (bwd_anywhere _ _ _ _ Hf) as Hany.
  destruct (anywhere_shows L ls HM ws Hany) as (Hsh & Hval). unfold FindLargest.
  assert (∀ j k, (shown <$> ws) !! j = Some (Some k) → ∃ l e a, ls !! j = Some l ∧ e ∈ l ∧ k = e.1 ∧
    L !! a = Some e ∧ (a < i)%nat) as Hks.
  { intros j k Hj. destruct (shown_child _ _ _ _ _ Hf Hj) as (w & l & Hl & (n & Hat & Hcut) & Hk).
    destruct (shown_inv _ _ _ _ Hat Hk) as (i' & e & Hn & He & ->). destruct n as [|n]; [done|]. injection Hn as <-.
    destruct (cut_last L l i (S n) n e Hcut He) as (a & Ha & Hia); [lia|].
    exists l, e, a. split_and!; try done. by eapply list_elem_of_lookup_2. }
  destruct i as [|i].
  - rewrite (FindLargest_none 0 ws (shown <$> ws) Hsh).
    2:{ intros j k Hj. destruct (Hks j k Hj) as (l' & e' & a & _ & _ & _ & Ha & Hia). lia. }
    eexists. split; [done|]. exists ls. by split_and!.
  - destruct (lookup_lt_is_Some_2 L i) as [e He]; [lia|].
    destruct (merged_child L ls HM e) as (c & l & Hc & Hel); [by eapply list_elem_of_lookup_2|].
    pose proof Hf as [Hlen Hf']. pose proof (lookup_lt_Some _ _ _ Hc) as Hlt.
    destruct (lookup_lt_is_Some_2 ws c) as [w Hw]; [lia|]. destruct (Hf' c w l Hw Hc) as (n & Hat & Hcut).
    destruct (cut_around L l HsL HvL (child_sorted _ _ _ Hat) (λ x, merged_sub L ls HM c l x Hc) i e He Hel) as (k & Hk & _ & Hck).
    rewrite (cut_uniq L l _ _ _ Hcut Hck) in Hat.
    rewrite (FindLargest_find 0 ws (shown <$> ws) c e.1 Hsh Hval (shown_at ws c w l k e Hw Hat Hk)).
    2:{ intros j k' Hj Hne. destruct (Hks j k' Hj) as (l' & e' & a & Hl' & He' & -> & Ha & Hia).
        pose proof (other_index c j l l' e e' a i Hc Hel Hl' He' Hne He Ha).
        apply (sorted_lookup L a i e' e); [done..|lia]. }
    cbn [mbind option_bind fst]. eexists. split; [done|]. exists ls. split; [done|]. split; [done|].
    cbn [pos_prev children_ current_ direction_]. by exists e, c, l.
Qed.

Lemma at_seek w l q t : at_ w l q → valid t → ∃ w', it_Seek t w = Some w' ∧ at_ w' l (pos_seek cmp t l).
Proof. intros Hw Ht. by apply (it_seek w l q t Hw). Qed.

(** A child without the current entry, moved to the other side of it. *)
Lemma to_after_at j w l q i e :
  ls !! j = Some l → at_ w l q → L !! i = Some e → e ∉ l →
  ∃ w', to_after cmp e.1 w = Some w' ∧ ∃ n, at_ w' l (pos_at l n) ∧ cut L i l n.
Proof.
  intros Hj Hat He Hel. assert (valid e.1) as Hve by (by apply (Forall_lookup_1 _ _ _ _ HvL He)).
  destruct (at_seek w l q e.1 Hat Hve) as (w' & Hs & Hat'). unfold to_after. rewrite Hs. cbn [mbind option_bind].
  pose proof (cut_seek L l HsL HvL (child_sorted _ _ _ Hat) (λ x, merged_sub L ls HM j l x Hj) e.1 Hve) as Hcut.
  rewrite (lower_bound_self L i e HsL HvL He) in Hcut.
  exists w'. split; [|by exists (lower_bound cmp e.1 l)].
  rewrite (it_valid _ _ _ Hat'). destruct (pos_seek cmp e.1 l) as [n|] eqn:Hp; [|done].
  rewrite bool_decide_true by done. destruct (it_wf _ _ _ Hat') as (_ & _ & Hn).
  destruct (lookup_lt_is_Some_2 l n (Hn n eq_refl)) as [e' He'].
  rewrite (proj1 (it_entry _ _ _ _ Hat' He')). cbn [mbind option_bind].
  destruct (Z.eqb_spec (cmp e.1 e'.1) 0) as [Heq|]; [|done]. exfalso. apply Hel.
  assert (e' ∈ l) as Hin by (by eapply list_elem_of_lookup_2).
  pose proof (merged_sub L ls HM j l e' Hj Hin) as [a Ha]%list_elem_of_lookup.
  pose proof (sorted_inj L i a e e' HsL HvL He Ha Heq) as ->. congruence.
Qed.

Lemma to_before_at j w l q i e :
  ls !! j = Some l → at_ w l q → L !! i = Some e →
  ∃ w', to_before e.1 w = Some w' ∧ ∃ n, at_ w' l (pos_prev n) ∧ cut L i l n.
Proof.
  intros Hj Hat He. assert (valid e.1) as Hve by (by apply (Forall_lookup_1 _ _ _ _ HvL He)).
  destruct (at_seek w l q e.1 Hat Hve) as (w' & Hs & Hat'). unfold to_before. rewrite Hs. cbn [mbind option_bind].
  pose proof (cut_seek L l HsL HvL (child_sorted _ _ _ Hat) (λ x, merged_sub L ls HM j l x Hj) e.1 Hve) as Hcut.
  rewrite (lower_bound_self L i e HsL HvL He) in Hcut.
  rewrite (it_valid _ _ _ Hat'). unfold pos_seek in *. destruct (pos_at l _) as [n|] eqn:Hp.
  - apply pos_at_Some in Hp as [-> Hlt]. rewrite bool_decide_true by done.
    destruct (it_prev _ _ _ Hat') as (w'' & Hw'' & Hat''). exists w''. split; [done|]. eauto.
  - rewrite bool_decide_false by (by intros [? ?]). destruct (it_last _ _ _ Hat') as (w'' & Hw'' & Hat'').
    exists w''. split; [done|]. exists (length l). rewrite <- pos_last_prev. split; [done|].
    pose proof (lower_bound_le cmp e.1 l). unfold pos_at in Hp. destruct (Nat.ltb_spec (lower_bound cmp e.1 l) (length l)); [done|].
    by replace (length l) with (lower_bound cmp e.1 l) by lia.
Qed.

Section step.
Context (i c : nat) (e : kv) (l : list kv).
Hypothesis He : L !! i = Some e.
Hypothesis Hc : ls !! c = Some l.
Hypothesis Hel : e ∈ l.

Lemma not_other j l' : ls !! j = Some l' → j ≠ c → e ∉ l'.
Proof. intros Hj Hne Hin. apply Hne. by eapply merged_unique. Qed.

(** [Next] when every child but the current one is past the entry. *)
Lemma next_result ws :
  each ws ls (λ j w l, if decide (j = c) then ∃ k, at_ w l (Some k) ∧ l !! k = Some e
                       else ∃ n, at_ w l (pos_at l n) ∧ cut L i l n) →
  ∃ m, (ws ← step_current it_Next c ws; FindSmallest cmp ws kForward) = Some m ∧
    merging_at m L (pos_next L i).
Proof.
  intros Hws.
  destruct (step_current_each it_Next c ws ls l _ (λ w l, ∃ n, at_ w l (pos_at l n) ∧ cut L (S i) l n) Hws Hc)
    as (ws' & -> & Hws').
  { intros w. rewrite decide_True by done. intros (k & Hat & Hk). destruct (it_next _ _ _ Hat) as (w' & Hw' & Hat').
    exists w'. split; [done|]. exists (S k). split; [done|].
    destruct (cut_around L l HsL HvL (child_sorted _ _ _ Hat) (λ x, merged_sub L ls HM c l x Hc) i e He Hel)
      as (k' & Hk' & _ & Hcut).
    pose proof (sorted_NoDup l (child_sorted _ _ _ Hat) (sub_valid L l HvL (λ x, merged_sub L ls HM c l x Hc))) as Hnd.
    by rewrite (NoDup_lookup _ _ _ _ Hnd Hk Hk'). }
  cbn [mbind option_bind]. apply fwd_result; [|by eapply lookup_lt_Some].
  eapply each_impl; [exact Hws'|]. intros j w l' Hl'. cbn beta. destruct (decide (j = c)) as [|Hne]; [done|].
  intros (n & Hat & Hcut). exists n. split; [done|]. apply (cut_out L l' i n e He); [|done]. by apply (not_other j).
Qed.

Lemma prev_result ws :
  each ws ls (λ j w l, if decide (j = c) then ∃ k, at_ w l (Some k) ∧ l !! k = Some e
                       else ∃ n, at_ w l (pos_prev n) ∧ cut L i l n) →
  ∃ m, (ws ← step_current it_Prev c ws; FindLargest cmp ws kReverse) = Some m ∧
    merging_at m L (pos_prev i).
Proof.
  intros Hws.
  destruct (step_current_each it_Prev c ws ls l _ (λ w l, ∃ n, at_ w l (pos_prev n) ∧ cut L i l n) Hws Hc)
    as (ws' & -> & Hws').
  { intros w. rewrite decide_True by done. intros (k & Hat & Hk). destruct (it_prev _ _ _ Hat) as (w' & Hw' & Hat').
    exists w'. split; [done|]. exists k. split; [done|].
    destruct (cut_around L l HsL HvL (child_sorted _ _ _ Hat) (λ x, merged_sub L ls HM c l x Hc) i e He Hel)
      as (k' & Hk' & Hcut & _).
    pose proof (sorted_NoDup l (child_sorted _ _ _ Hat) (sub_valid L l HvL (λ x, merged_sub L ls HM c l x Hc))) as Hnd.
    by rewrite (NoDup_lookup _ _ _ _ Hnd Hk Hk'). }
  cbn [mbind option_bind]. apply bwd_result; [|apply lookup_lt_Some in He; lia].
  eapply each_impl; [exact Hws'|]. intros j w l' Hl'. cbn beta. by destruct (decide (j = c)).
Qed.

(** The current child is at the entry, in both directions. *)
Lemma fwd_current ws : fwd L ls i ws → each ws ls (λ j w l, j = c → ∃ k, at_ w l (Some k) ∧ l !! k = Some e).
Proof.
  intros Hf. eapply each_impl; [exact Hf|]. intros j w l' Hl' (n & Hat & Hcut) ->. rewrite Hc in Hl'. injection Hl' as <-.
  pose proof (cut_at L l HsL HvL (child_sorted _ _ _ Hat) (λ x, merged_sub L ls HM c l x Hc) i n e Hcut He Hel) as Hn.
  rewrite pos_at_lt in Hat by (by eapply lookup_lt_Some). by exists n.
Qed.

Lemma bwd_current ws : bwd L ls (S i) ws → each ws ls (λ j w l, j = c → ∃ k, at_ w l (Some k) ∧ l !! k = Some e).
Proof.
  intros Hf. eapply each_impl; [exact Hf|]. intros j w l' Hl' (n & Hat & Hcut) ->. rewrite Hc in Hl'. injection Hl' as <-.
  destruct (cut_around L l HsL HvL (child_sorted _ _ _ Hat) (λ x, merged_sub L ls HM c l x Hc) i e He Hel) as (k & Hk & _ & Hck).
  rewrite (cut_uniq L l _ _ _ Hcut Hck) in Hat. by exists k.
Qed.
End step.
End results.

Lemma each_and {A} (ws : list A) ls P Q :
  each ws ls P → each ws ls Q → each ws ls (λ j w l, P j w l ∧ Q j w l).
Proof. intros [Hlen HP] [_ HQ]. split; [done|]. eauto. Qed.

(** The child [current_] points to shows the entry. *)
Lemma merging_entry m L i :
  merging_at m L (Some i) → ∃ e c w l k, L !! i = Some e ∧ current_ m = Some c ∧ children_ m !! c = Some w ∧
    at_ w l (Some k) ∧ l !! k = Some e.
Proof.
  intros (ls & HM & [Hlen _] & e & c & l & He & Hcur & Hc & Hel & Hd).
  assert (each (children_ m) ls (λ j w l, j = c → ∃ k, at_ w l (Some k) ∧ l !! k = Some e)) as [_ Hw].
  { destruct (direction_ m); [by eapply (fwd_current L ls HM i c e l)|by eapply (bwd_current L ls HM i c e l)]. }
  pose proof (lookup_lt_Some _ _ _ Hc). destruct (lookup_lt_is_Some_2 (children_ m) c) as [w Hwc]; [lia|].
  destruct (Hw c w l Hwc Hc eq_refl) as (k & Hat & Hk). by exists e, c, w, l, k.
Qed.

Lemma merging_key m L i e : merging_at m L (Some i) → L !! i = Some e →
  Merging_key m = Some e.1 ∧ Merging_value m = Some e.2.
Proof.
  intros Hm He. destruct (merging_entry m L i Hm) as (e' & c & w & l & k & He' & Hcur & Hw & Hat & Hk).
  rewrite He in He'. injection He' as <-. unfold Merging_key, Merging_value, Merging_current. rewrite Hcur.
  cbn [mbind option_bind]. rewrite Hw. cbn [mbind option_bind]. apply (it_entry _ _ _ _ Hat Hk).
Qed.

Lemma merging_next m L i :
  merging_at m L (Some i) → ∃ m', Merging_Next cmp m = Some m' ∧ merging_at m' L (pos_next L i).
Proof.
  intros Hm. pose proof Hm as (ls & HM & Hany & e & c & l & He & Hcur & Hc & Hel & Hd).
  unfold Merging_Next. rewrite Hcur, (proj1 (merging_key m L i e Hm He)). cbn [mbind option_bind].
  destruct (direction_ m).
  - cbn [mbind option_bind]. apply (next_result L ls HM i c e l He Hc Hel).
    eapply each_impl; [apply (each_and _ _ _ _ Hd (fwd_current L ls HM i c e l He Hc Hel _ Hd))|].
    intros j w l' _ [Hf Hcc]. cbn beta in *. destruct (decide (j = c)); auto.
  - destruct (map_others_each (to_after cmp e.1) c (children_ m) ls _
      (λ _ w l, ∃ n, at_ w l (pos_at l n) ∧ cut L i l n)
      (each_and _ _ _ _ Hany (bwd_current L ls HM i c e l He Hc Hel _ Hd))) as (ws & -> & Hws).
    { intros j w l' Hl' Hne [[q Hq] _]. apply (to_after_at L ls HM j w l' q i e Hl' Hq He).
      by apply (not_other L ls HM c e l Hc Hel j). }
    cbn [mbind option_bind]. apply (next_result L ls HM i c e l He Hc Hel).
    eapply each_impl; [exact Hws|]. intros j w l' _. cbn beta. destruct (decide (j = c)); [|done]. intros [_ H]. auto.
Qed.

Lemma merging_prev m L i :
  merging_at m L (Some i) → ∃ m', Merging_Prev cmp m = Some m' ∧ merging_at m' L (pos_prev i).
Proof.
  intros Hm. pose proof Hm as (ls & HM & Hany & e & c & l & He & Hcur & Hc & Hel & Hd).
  unfold Merging_Prev. rewrite Hcur, (proj1 (merging_key m L i e Hm He)). cbn [mbind option_bind].
  destruct (direction_ m).
  - destruct (map_others_each (to_before e.1) c (children_ m) ls _
      (λ _ w l, ∃ n, at_ w l (pos_prev n) ∧ cut L i l n)
      (each_and _ _ _ _ Hany (fwd_current L ls HM i c e l He Hc Hel _ Hd))) as (ws & -> & Hws).
    { intros j w l' Hl' Hne [[q Hq] _]. by apply (to_before_at L ls HM j w l' q i e Hl' Hq He). }
    cbn [mbind option_bind]. apply (prev_result L ls HM i c e l He Hc Hel).
    eapply each_impl; [exact Hws|]. intros j w l' _. cbn beta. destruct (decide (j = c)); [|done]. intros [_ H]. auto.
  - cbn [mbind option_bind]. apply (prev_result L ls HM i c e l He Hc Hel).
    eapply each_impl; [apply (each_and _ _ _ _ Hd (bwd_current L ls HM i c e l He Hc Hel _ Hd))|].
    intros j w l' Hl' [(n & Hat & Hcut) Hcc]. cbn beta in *. destruct (decide (j = c)) as [|Hne]; [auto|].
    exists n. split; [done|]. apply (cut_out L l' i n e He); [|done]. by apply (not_other L ls HM c e l Hc Hel j).
Qed.

#[export] Instance merging_laws : IteratorLaws (Iterator0 := merging_iterator cmp)
  (MergingIterator I) cmp valid merging_at.
Proof.
  split; cbn [it_Valid it_SeekToFirst it_SeekToLast it_Seek it_Next it_Prev it_key it_value it_status merging_iterator].
  - intros m L p (ls & (Hs & Hv & _) & _ & Hp). split_and!; [done..|]. intros i ->.
    destruct Hp as (e & _ & _ & He & _). by eapply lookup_lt_Some.
  - intros m L p (ls & _ & [Hlen Hall] & _). unfold Merging_status.
    assert (∀ w, w ∈ children_ m → it_status w = Status_OK) as Hst.
    { intros w [j Hj]%list_elem_of_lookup. pose proof (lookup_lt_Some _ _ _ Hj).
      destruct (lookup_lt_is_Some_2 ls j) as [l Hl]; [lia|]. destruct (Hall j w l Hj Hl) as [q Hq]. by eapply it_ok. }
    clear Hall Hlen. induction (children_ m) as [|w ws IH]; [done|]. cbn [Merging_status_loop].
    rewrite (Hst w) by left. apply IH. intros x Hx. apply Hst. by right.
  - intros m L p (ls & _ & _ & Hp). unfold Merging_Valid. destruct p as [i|].
    + by destruct Hp as (e & c & l & _ & -> & _).
    + by rewrite Hp.
  - intros m L i e Hm He. by apply (merging_key m L i).
  - intros m L p (ls & HM & Hany & _). unfold Merging_SeekToFirst.
    destruct (mapM_each it_SeekToFirst (children_ m) ls _ (λ _ w l, ∃ n, at_ w l (pos_at l n) ∧ cut L 0 l n) Hany) as (ws & -> & Hws).
    { intros j w l Hl [q Hq]. destruct (it_first _ _ _ Hq) as (w' & Hw' & Hat). exists w'. split; [done|].
      exists 0%nat. split; [done|apply cut_0]. }
    cbn [mbind option_bind]. apply (fwd_result L ls HM 0 ws Hws). lia.
  - intros m L p (ls & HM & Hany & _). unfold Merging_SeekToLast.
    destruct (mapM_each it_SeekToLast (children_ m) ls _ (λ _ w l, ∃ n, at_ w l (pos_prev n) ∧ cut L (length L) l n) Hany) as (ws & -> & Hws).
    { intros j w l Hl [q Hq]. destruct (it_last _ _ _ Hq) as (w' & Hw' & Hat). exists w'. split; [done|].
      exists (length l). rewrite <- pos_last_prev. split; [done|].
      apply cut_end. intros x. by eapply merged_sub. }
    cbn [mbind option_bind]. rewrite pos_last_prev. by apply (bwd_result L ls HM _ ws Hws).
  - intros m L p t (ls & HM & Hany & _) Ht. unfold Merging_Seek.
    destruct (mapM_each (it_Seek t) (children_ m) ls _
      (λ _ w l, ∃ n, at_ w l (pos_at l n) ∧ cut L (lower_bound cmp t L) l n) Hany) as (ws & -> & Hws).
    { intros j w l Hl [q Hq]. destruct (it_seek _ _ _ t Hq Ht) as (w' & Hw' & Hat). exists w'. split; [done|].
      exists (lower_bound cmp t l). split; [done|]. pose proof HM as (HsL & HvL & _).
      apply (cut_seek L l HsL HvL); [by eapply child_sorted|intros x; by eapply merged_sub|done]. }
    cbn [mbind option_bind]. apply (fwd_result L ls HM _ ws Hws), lower_bound_le.
  - apply merging_next.
  - apply merging_prev.
Qed.
End merger_proofs.

(** ** Sorted unions *)

Section union.
Context {cmp : list byte → list byte → Z} {valid : list byte → Prop} `{!KeyOrder cmp valid}.

Fixpoint insert_kv (e : kv) (l : list kv) : list kv :=
  match l with
  | [] => [e]
  | x :: l => if cmp e.1 x.1 <? 0 then e :: x :: l else x :: insert_kv e l
  end.

Lemma insert_kv_perm e l : insert_kv e l ≡ₚ e :: l.
Proof. induction l as [|x l IH]; [done|]. cbn. destruct (_ <? _); [done|]. rewrite IH. constructor. Qed.

Lemma insert_kv_sorted e l : valid e.1 → Forall (λ x, valid x.1) l → Forall (λ x, cmp e.1 x.1 ≠ 0) l → sorted_kvs cmp l → sorted_kvs cmp (insert_kv e l).
Proof.
  intros He Hv Hne Hs. induction Hs as [|x l Hs IH Hx]; cbn [insert_kv]; [repeat constructor|]. apply Forall_cons in Hv as [Hvx Hv]. apply Forall_cons in Hne as [Hex Hne].
  destruct (Z.ltb_spec (cmp e.1 x.1) 0) as [Hlt|Hge].
  - constructor; [by constructor|]. apply Forall_cons. split; [done|]. apply Forall_forall. intros y Hy. pose proof (proj1 (Forall_forall _ _) Hx y Hy) as Hxy.
    pose proof (proj1 (Forall_forall _ _) Hv y Hy). by apply (ko_trans e.1 x.1 y.1).
  - constructor; [by apply IH|]. apply Forall_forall. intros y Hy. rewrite insert_kv_perm in Hy. apply elem_of_cons in Hy as [->|Hy]; [|by apply (proj1 (Forall_forall _ _) Hx)].
    pose proof (ko_sym e.1 x.1 He Hvx). lia.
Qed.

(** Entries whose keys differ pairwise can be sorted. *)
Lemma sorted_union l : Forall (λ x, valid x.1) l → StronglySorted (λ a b, cmp a.1 b.1 ≠ 0) l → ∃ L, L ≡ₚ l ∧ sorted_kvs cmp L.
Proof.
  induction l as [|e l IH]; intros Hv Hd; [exists []; split; [done|constructor]|]. apply Forall_cons in Hv as [He Hv]. apply StronglySorted_inv in Hd as [Hd Hne].
  destruct (IH Hv Hd) as (L & HL & Hs). exists (insert_kv e L). split; [by rewrite insert_kv_perm, HL|]. apply insert_kv_sorted; [done|by rewrite HL|by rewrite HL|done].
Qed.

Lemma sorted_unique l l' : sorted_kvs cmp l → sorted_kvs cmp l' → Forall (λ e, valid e.1) l → l ≡ₚ l' → l = l'.
Proof.
  intros Hs Hs' Hv Hp. apply (StronglySorted_unique_strong (λ a b, cmp a.1 b.1 < 0)); [|done|done|done].
  intros a b Ha Hb Hab Hba. exfalso. assert (∀ x, x ∈ l → valid x.1) as Hv' by (by apply Forall_forall). rewrite <- Hp in Hb.
  pose proof (ko_sym a.1 b.1 (Hv' a Ha) (Hv' b Hb)). lia.
Qed.

Context {I : Type} `{!Iterator I} {R : I → list kv → option nat → Prop} `{!IteratorLaws I cmp valid R}.

(** What [NewMergingIterator] returns is positioned on the sorted union. *)
Definition merged_at : EmptyIterator + (I + MergingIterator I) → list kv → option nat → Prop :=
  sum_at (RI := empty_at) (RJ := sum_at (RI := R) (RJ := merging_at (cmp := cmp) (valid := valid) (R := R))).

Lemma NewMergingIterator_at (its : list I) (ls : list (list kv)) (L : list kv) :
  each its ls (λ _ it l, ∃ p, R it l p) → sorted_kvs cmp L → Forall (λ e, valid e.1) L → L ≡ₚ mjoin ls →
  ∃ m p, NewMergingIterator its = Some m ∧ merged_at m L p.
Proof.
  intros Hits Hs Hv Hp. pose proof (proj1 Hits) as Hlen. destruct its as [|it [|it2 its]].
  - destruct ls; [|done]. apply Permutation_nil_r in Hp as ->. by exists (inl NewEmptyIterator), None.
  - destruct ls as [|l [|]]; [done| |done]. apply each_cons in Hits as [[p Hit] _]. cbn in Hp. rewrite app_nil_r in Hp.
    destruct (it_wf it l p Hit) as (Hsl & Hvl & _). rewrite (sorted_unique L l Hs Hsl Hv Hp). by exists (inr (inl it)), p.
  - cbn [NewMergingIterator]. unfold MergingIterator_new.
    destruct (mapM_each Wrapper_new (it :: it2 :: its) ls _ (λ _ w l, ∃ q, wrapper_at (R := R) w l q) Hits) as (ws & -> & Hws).
    { intros j i l _ [q Hq]. destruct (Wrapper_Update_at Wrapper_null i l q Hq) as (w & Hw & Hat). by eauto. }
    cbn [mbind option_bind fmap option_fmap option_map]. eexists _, None. split; [done|]. by exists ls.
Qed.
End union.

(** C27: A merging iterator over iterators of sorted sequences that share no key
    is an iterator over the sorted union: it starts out invalid, [SeekToFirst],
    [SeekToLast] and [Seek] go to the first, the last and the first entry not
    below the target, [Next] and [Prev] go one entry forward and back in any
    order of calls, across changes of direction, and key and value are those of
    the entry. *)
Theorem merging_iterator_sorted {I} `{!Iterator I} {cmp valid R}
    `{!IteratorLaws I cmp valid R} `{!KeyOrder cmp valid} (its : list I) (ls : list (list kv)) (L : list kv) :
  each its ls (λ _ it l, ∃ p, R it l p) → sorted_kvs cmp L → Forall (λ e, valid e.1) L → L ≡ₚ mjoin ls →
  ∃ m, MergingIterator_new its = Some m ∧ merging_at (cmp := cmp) (valid := valid) (R := R) m L None ∧
    ∀ m p, merging_at (cmp := cmp) (valid := valid) (R := R) m L p →
      Merging_status m = Status_OK ∧ Merging_Valid m = bool_decide (is_Some p) ∧
      (∃ m', Merging_SeekToFirst cmp m = Some m' ∧ merging_at (cmp := cmp) (valid := valid) (R := R) m' L (pos_first L)) ∧
      (∃ m', Merging_SeekToLast cmp m = Some m' ∧ merging_at (cmp := cmp) (valid := valid) (R := R) m' L (pos_last L)) ∧
      (∀ t, valid t → ∃ m', Merging_Seek cmp t m = Some m' ∧
         merging_at (cmp := cmp) (valid := valid) (R := R) m' L (pos_seek cmp t L)) ∧
      (∀ i, p = Some i →
         Merging_key m = fst <$> L !! i ∧ Merging_value m = snd <$> L !! i ∧
         (∃ m', Merging_Next cmp m = Some m' ∧ merging_at (cmp := cmp) (valid := valid) (R := R) m' L (pos_next L i)) ∧
         (∃ m', Merging_Prev cmp m = Some m' ∧ merging_at (cmp := cmp) (valid := valid) (R := R) m' L (pos_prev i))).
Proof.
  intros Hits Hs Hv Hp. unfold MergingIterator_new.
  destruct (mapM_each Wrapper_new its ls _ (λ _ w l, ∃ q, wrapper_at (R := R) w l q) Hits) as (ws & -> & Hws).
  { intros j it l _ [q Hq]. destruct (Wrapper_Update_at Wrapper_null it l q Hq) as (w & Hw & Hat). by eauto. }
  cbn [mbind option_bind]. eexists. split; [done|]. split; [by exists ls|].
  intros m p Hm. pose proof (merging_laws (R := R)) as Hlaws.
  split_and!.
  - exact (@it_ok _ _ _ _ _ Hlaws m L p Hm).
  - exact (@it_valid _ _ _ _ _ Hlaws m L p Hm).
  - exact (@it_first _ _ _ _ _ Hlaws m L p Hm).
  - exact (@it_last _ _ _ _ _ Hlaws m L p Hm).
  - intros t Ht. exact (@it_seek _ _ _ _ _ Hlaws m L p t Hm Ht).
  - intros i ->. destruct (@it_wf _ _ _ _ _ Hlaws m L _ Hm) as (_ & _ & Hi).
    destruct (lookup_lt_is_Some_2 L i (Hi i eq_refl)) as [e He]. rewrite He.
    destruct (merging_key m L i e Hm He) as [-> ->].
    split_and!; [done..|by apply merging_next|by apply merging_prev].
Qed.

Definition merge_example (l : list (list byte)) : ListIter :=
  {| li_entries := (λ k, (k, str "v")) <$> l; li_pos := None |}.

Lemma merging_iterator_sorted_witness :
  ∃ m1 m2 m3 m4, MergingIterator_new (Iterator0 := list_iterator slice_compare)
      [merge_example [str "a"; str "d"]; merge_example [str "b"; str "c"]] = Some m1 ∧
    Merging_Seek (Iterator0 := list_iterator slice_compare) slice_compare (str "b") m1 = Some m2 ∧
    Merging_Next (Iterator0 := list_iterator slice_compare) slice_compare m2 = Some m3 ∧
    Merging_Prev (Iterator0 := list_iterator slice_compare) slice_compare m3 = Some m4 ∧
    Merging_key (Iterator0 := list_iterator slice_compare) m3 = Some (str "c") ∧
    Merging_key (Iterator0 := list_iterator slice_compare) m4 = Some (str "b").
Proof.
  pose proof (list_laws slice_compare (λ _, True)) as Hlaws.
  destruct (merging_iterator_sorted (Iterator0 := list_iterator slice_compare) (IteratorLaws0 := Hlaws)
    (KeyOrder0 := bytewise_order)
    [merge_example [str "a"; str "d"]; merge_example [str "b"; str "c"]]
    [(λ k, (k, str "v")) <$> [str "a"; str "d"]; (λ k, (k, str "v")) <$> [str "b"; str "c"]]
    ((λ k, (k, str "v")) <$> [str "a"; str "b"; str "c"; str "d"])) as (m1 & Hm1 & Hat1 & Hops).
  - repeat (apply each_cons; split; [exists None; split_and!; [done|repeat constructor|repeat constructor|done]|]). apply each_nil.
  - repeat constructor.
  - repeat constructor.
  - apply perm_skip. apply (Permutation_app_comm [(str "b", str "v"); (str "c", str "v")] [(str "d", str "v")]).
  - destruct (Hops m1 None Hat1) as (_ & _ & _ & _ & Hseek & _).
    destruct (Hseek (str "b") I) as (m2 & Hm2 & Hat2).
    destruct (Hops m2 _ Hat2) as (_ & _ & _ & _ & _ & Hmove2).
    destruct (Hmove2 1%nat eq_refl) as (_ & _ & (m3 & Hm3 & Hat3) & _).
    destruct (Hops m3 _ Hat3) as (_ & _ & _ & _ & _ & Hmove3).
    destruct (Hmove3 2%nat eq_refl) as (Hk3 & _ & _ & (m4 & Hm4 & Hat4)).
    destruct (Hops m4 _ Hat4) as (_ & _ & _ & _ & _ & Hmove4).
    destruct (Hmove4 1%nat eq_refl) as (Hk4 & _).
    exists m1, m2, m3, m4. by split_and!.
Defined.
