(* ===== verification/TwoLevel.v ===== *)
(** The two-level iterator (table/two_level_iterator.cc): an index iterator
    whose values name blocks, and an iterator over the current block. *)
From stdpp Require Import sorting.
From S2P Require Import Prelude Comparator Env Iterator.

Section two_level.
Context {I J : Type} `{!Iterator I, !Iterator J}.

(** [block_function] opens the block a handle names; it may be undefined.  [fuel] bounds the number
    of blocks skipped by one operation. *)
Context (block_function : list byte → option J) (fuel : nat).

Record TwoLevelIterator := {
  tl_status : Status;
  index_iter_ : IteratorWrapper I;
  data_iter_ : IteratorWrapper J;
  data_block_handle_ : list byte;
}.
Implicit Types t : TwoLevelIterator.

Definition NewTwoLevelIterator (index_iter : I) : option TwoLevelIterator :=
  index ← Wrapper_new index_iter;
  data ← Wrapper_Set None Wrapper_null;
  Some {| tl_status := Status_OK; index_iter_ := index; data_iter_ := data; data_block_handle_ := [] |}.

Definition SaveError (s : Status) t : TwoLevelIterator :=
  if ok (tl_status t) && negb (ok s)
  then {| tl_status := s; index_iter_ := index_iter_ t; data_iter_ := data_iter_ t;
          data_block_handle_ := data_block_handle_ t |}
  else t.

Definition SetDataIterator (data_iter : option J) t : option TwoLevelIterator :=
  let t := match iter_ (data_iter_ t) with
           | Some _ => SaveError (it_status (data_iter_ t)) t
           | None => t
           end in
  w ← Wrapper_Set data_iter (data_iter_ t);
  Some {| tl_status := tl_status t; index_iter_ := index_iter_ t; data_iter_ := w;
          data_block_handle_ := data_block_handle_ t |}.

Definition InitDataBlock t : option TwoLevelIterator :=
  if it_Valid (index_iter_ t)
  then handle ← it_value (index_iter_ t);
       let reuse := match iter_ (data_iter_ t) with
                    | Some _ => slice_compare handle (data_block_handle_ t) =? 0
                    | None => false
                    end in
       if reuse then Some t
       else iter ← block_function handle;
            SetDataIterator (Some iter)
              {| tl_status := tl_status t; index_iter_ := index_iter_ t; data_iter_ := data_iter_ t;
                 data_block_handle_ := handle |}
  else SetDataIterator None t.

Definition with_index (w : IteratorWrapper I) t : TwoLevelIterator :=
  {| tl_status := tl_status t; index_iter_ := w; data_iter_ := data_iter_ t;
     data_block_handle_ := data_block_handle_ t |}.

(** [if (data_iter_.iter() != nullptr) data_iter_.f()] *)
Definition data_call (f : IteratorWrapper J → option (IteratorWrapper J)) t : option TwoLevelIterator :=
  match iter_ (data_iter_ t) with
  | None => Some t
  | Some _ =>
      w ← f (data_iter_ t);
      Some {| tl_status := tl_status t; index_iter_ := index_iter_ t; data_iter_ := w;
              data_block_handle_ := data_block_handle_ t |}
  end.

Definition data_done t : bool :=
  match iter_ (data_iter_ t) with None => true | Some _ => negb (it_Valid (data_iter_ t)) end.

Fixpoint SkipEmptyDataBlocksForward (n : nat) t : option TwoLevelIterator :=
  match n with
  | O => None
  | S n =>
      if data_done t
      then if it_Valid (index_iter_ t)
           then w ← it_Next (index_iter_ t);
                t ← InitDataBlock (with_index w t);
                t ← data_call it_SeekToFirst t;
                SkipEmptyDataBlocksForward n t
           else SetDataIterator None t
      else Some t
  end.

Fixpoint SkipEmptyDataBlocksBackward (n : nat) t : option TwoLevelIterator :=
  match n with
  | O => None
  | S n =>
      if data_done t
      then if it_Valid (index_iter_ t)
           then w ← it_Prev (index_iter_ t);
                t ← InitDataBlock (with_index w t);
                t ← data_call it_SeekToLast t;
                SkipEmptyDataBlocksBackward n t
           else SetDataIterator None t
      else Some t
  end.

Definition TwoLevel_Seek (target : list byte) t : option TwoLevelIterator :=
  w ← it_Seek target (index_iter_ t);
  t ← InitDataBlock (with_index w t);
  t ← data_call (it_Seek target) t;
  SkipEmptyDataBlocksForward fuel t.

Definition TwoLevel_SeekToFirst t : option TwoLevelIterator :=
  w ← it_SeekToFirst (index_iter_ t);
  t ← InitDataBlock (with_index w t);
  t ← data_call it_SeekToFirst t;
  SkipEmptyDataBlocksForward fuel t.

Definition TwoLevel_SeekToLast t : option TwoLevelIterator :=
  w ← it_SeekToLast (index_iter_ t);
  t ← InitDataBlock (with_index w t);
  t ← data_call it_SeekToLast t;
  SkipEmptyDataBlocksBackward fuel t.

Definition TwoLevel_Valid t : bool := it_Valid (data_iter_ t).

Definition TwoLevel_Next t : option TwoLevelIterator :=
  if TwoLevel_Valid t then t ← data_call it_Next t; SkipEmptyDataBlocksForward fuel t else None.

Definition TwoLevel_Prev t : option TwoLevelIterator :=
  if TwoLevel_Valid t then t ← data_call it_Prev t; SkipEmptyDataBlocksBackward fuel t else None.

Definition TwoLevel_key t : option (list byte) := if TwoLevel_Valid t then it_key (data_iter_ t) else None.
Definition TwoLevel_value t : option (list byte) := if TwoLevel_Valid t then it_value (data_iter_ t) else None.

Definition TwoLevel_status t : Status :=
  if negb (ok (it_status (index_iter_ t))) then it_status (index_iter_ t)
  else match iter_ (data_iter_ t) with
       | Some _ => if negb (ok (it_status (data_iter_ t))) then it_status (data_iter_ t) else tl_status t
       | None => tl_status t
       end.

#[export] Instance two_level_iterator : Iterator TwoLevelIterator := {|
  it_Valid := TwoLevel_Valid;
  it_SeekToFirst := TwoLevel_SeekToFirst;
  it_SeekToLast := TwoLevel_SeekToLast;
  it_Seek := TwoLevel_Seek;
  it_Next := TwoLevel_Next;
  it_Prev := TwoLevel_Prev;
  it_key := TwoLevel_key;
  it_value := TwoLevel_value;
  it_status := TwoLevel_status;
|}.
End two_level.
Arguments TwoLevelIterator I J : clear implicits.

(** ** The blocks an index names *)

Notation flat := (mjoin : list (list kv) → list kv) (only parsing).

Section shape.
Context (cmp : list byte → list byte → Z) (valid : list byte → Prop) `{!KeyOrder cmp valid}.

(** The index has an entry (separator, handle) per block; the separator is not
    below the block's keys and below the keys of later blocks. *)
Record index_shape (ik : list kv) (blk : list (list kv)) : Prop := {
  is_length : length ik = length blk;
  is_sorted : sorted_kvs cmp (flat blk);
  is_valid : Forall (λ e, valid e.1) (flat blk);
  is_valid_sep : Forall (λ e, valid e.1) ik;
  is_handles : NoDup (snd <$> ik);
  is_upper j s h b e : ik !! j = Some (s, h) → blk !! j = Some b → e ∈ b → cmp e.1 s <= 0;
  is_lower j j' s h b e : ik !! j = Some (s, h) → (j < j')%nat → blk !! j' = Some b → e ∈ b → cmp s e.1 < 0;
}.

(** Where block [j] starts in the whole sequence. *)
Definition off (blk : list (list kv)) (j : nat) : nat := length (flat (take j blk)).

Lemma off_S blk j b : blk !! j = Some b → off blk (S j) = (off blk j + length b)%nat.
Proof.
  intros Hj. unfold off. rewrite (take_S_r _ _ _ Hj). rewrite join_app, length_app. cbn.
  by rewrite app_nil_r.
Qed.

Lemma off_0 blk : off blk 0 = 0%nat.
Proof. done. Qed.

Lemma off_end blk j : (length blk ≤ j)%nat → off blk j = length (flat blk).
Proof. intros Hj. unfold off. by rewrite take_ge. Qed.

Lemma join_split blk j b : blk !! j = Some b → flat blk = flat (take j blk) ++ b ++ flat (drop (S j) blk).
Proof. intros Hj. rewrite <- (take_drop_middle blk j b Hj) at 1. rewrite join_app. done. Qed.

Lemma join_lookup blk j b i : blk !! j = Some b → (i < length b)%nat → flat blk !! (off blk j + i)%nat = b !! i.
Proof.
  intros Hj Hi. rewrite (join_split blk j b Hj), lookup_app_r by (unfold off; lia).
  unfold off. rewrite Nat.add_comm, Nat.add_sub. by apply lookup_app_l.
Qed.

Lemma lower_bound_app t l1 l2 :
  (∀ e, e ∈ l1 → cmp e.1 t < 0) → lower_bound cmp t (l1 ++ l2) = (length l1 + lower_bound cmp t l2)%nat.
Proof.
  induction l1 as [|e l1 IH]; intros Hl; [done|]. cbn [app lower_bound length].
  rewrite (proj2 (Z.ltb_lt _ _)) by (apply Hl; left). rewrite IH; [done|]. intros x Hx. apply Hl. by right.
Qed.

Lemma lower_bound_app_l t l1 l2 :
  (∀ e, e ∈ l2 → 0 <= cmp e.1 t) → lower_bound cmp t (l1 ++ l2) = lower_bound cmp t l1.
Proof.
  intros Hl. induction l1 as [|e l1 IH]; cbn [app lower_bound].
  - destruct l2 as [|e l2]; [done|]. cbn. by rewrite (proj2 (Z.ltb_ge _ _)) by (apply Hl; left).
  - by rewrite IH.
Qed.

Section seek.
Context (ik : list kv) (blk : list (list kv)) (Hsh : index_shape ik blk) (t : list byte) (Ht : valid t).

Lemma before_block j e : (∀ s h k, (k < j)%nat → ik !! k = Some (s, h) → cmp s t < 0) →
  e ∈ flat (take j blk) → cmp e.1 t < 0.
Proof.
  intros Hbefore (b & He & [k Hk]%list_elem_of_lookup)%list_elem_of_join. apply lookup_take_Some in Hk as [Hk Hkj].
  pose proof (lookup_lt_Some _ _ _ Hk) as Hlt. rewrite <- (is_length _ _ Hsh) in Hlt.
  destruct (lookup_lt_is_Some_2 ik k Hlt) as [[s h] Hs].
  apply (ko_le_lt cmp valid e.1 s t); [|..|done|by eapply is_upper|by eapply Hbefore].
  - apply (proj1 (Forall_forall _ _) (is_valid _ _ Hsh) e). apply list_elem_of_join. exists b.
    split; [done|by eapply list_elem_of_lookup_2].
  - by apply (Forall_lookup_1 _ _ _ _ (is_valid_sep _ _ Hsh) Hs).
Qed.

Lemma after_block j s h e : ik !! j = Some (s, h) → 0 <= cmp s t → e ∈ flat (drop (S j) blk) → 0 <= cmp e.1 t.
Proof.
  intros Hs Hge (b & He & [k Hk]%list_elem_of_lookup)%list_elem_of_join. rewrite lookup_drop in Hk.
  pose proof (is_lower _ _ Hsh j (S j + k)%nat s h b e Hs ltac:(lia) Hk He) as Hlt.
  assert (valid e.1) as Hve.
  { apply (proj1 (Forall_forall _ _) (is_valid _ _ Hsh) e). apply list_elem_of_join. exists b.
    split; [done|by eapply list_elem_of_lookup_2]. }
  assert (valid s) as Hvs by (by apply (Forall_lookup_1 _ _ _ _ (is_valid_sep _ _ Hsh) Hs)).
  destruct (Z.lt_ge_cases (cmp e.1 t) 0) as [Hl|]; [|done].
  pose proof (ko_trans s e.1 t Hvs Hve Ht Hlt Hl). lia.
Qed.

(** The seek in the index finds the block of the seek in the whole sequence. *)
Lemma lower_bound_block j b :
  lower_bound cmp t ik = j → blk !! j = Some b →
  lower_bound cmp t (flat blk) = (off blk j + lower_bound cmp t b)%nat.
Proof.
  intros <- Hb. pose proof (lookup_lt_Some _ _ _ Hb) as Hlt. rewrite <- (is_length _ _ Hsh) in Hlt.
  destruct (lookup_lt_is_Some_2 ik _ Hlt) as [[s h] Hs]. rewrite (join_split _ _ _ Hb).
  rewrite lower_bound_app.
  - rewrite lower_bound_app_l; [done|]. intros e. apply (after_block _ s h e Hs). by apply (lower_bound_at _ _ _ _ Hs).
  - intros e. apply before_block. intros s' h' k Hk Hs'. by apply (lower_bound_below _ _ _ _ _ Hs').
Qed.

Lemma lower_bound_none :
  lower_bound cmp t ik = length ik → lower_bound cmp t (flat blk) = length (flat blk).
Proof.
  intros Heq. rewrite <- (app_nil_r (flat blk)) at 1. rewrite lower_bound_app; [cbn; lia|].
  intros e He. apply (before_block (length blk)); [|by rewrite take_ge].
  intros s h k Hk Hs. apply (lower_bound_below _ _ _ _ _ Hs). rewrite Heq. by eapply lookup_lt_Some.
Qed.
End seek.
End shape.

(** ** Correctness *)

Lemma slice_compare_refl a : slice_compare a a = 0.
Proof. exact (ko_refl slice_compare (λ _, True) a I). Qed.

Section two_level_proofs.
Context {I J : Type} `{!Iterator I, !Iterator J} {cmp : list byte → list byte → Z} {valid : list byte → Prop}.
Context {RI : I → list kv → option nat → Prop} {RJ : J → list kv → option nat → Prop}.
Context `{!IteratorLaws I cmp valid RI, !IteratorLaws J cmp valid RJ} `{!KeyOrder cmp valid}.
Context (block_function : list byte → option J) (fuel : nat).
Notation T := (TwoLevelIterator I J).
Notation at_I := (wrapper_at (R := RI)).
Notation at_J := (wrapper_at (R := RJ)).

Section fixed.
Context (ik : list kv) (blk : list (list kv)).
Hypothesis Hsh : index_shape cmp valid ik blk.
Hypothesis Hopen : ∀ j s h b, ik !! j = Some (s, h) → blk !! j = Some b → ∃ it p, block_function h = Some it ∧ RJ it b p.
Hypothesis Hfuel : (length ik + 1 < fuel)%nat.

(** The data iterator, when there is one, runs over the block its handle names. *)
Definition data_ok (t : T) : Prop :=
  tl_status t = Status_OK ∧
  match iter_ (data_iter_ t) with
  | None => valid_ (data_iter_ t) = false
  | Some _ => ∃ j s b q, ik !! j = Some (s, data_block_handle_ t) ∧ blk !! j = Some b ∧ at_J (data_iter_ t) b q
  end.

(** The index at block [j] and the data iterator over it, at [q]. *)
Definition in_block (t : T) (j : nat) (b : list kv) (q : option nat) : Prop :=
  tl_status t = Status_OK ∧ at_I (index_iter_ t) ik (Some j) ∧ blk !! j = Some b ∧
  (∃ s, ik !! j = Some (s, data_block_handle_ t)) ∧ at_J (data_iter_ t) b q.

(** No data iterator. *)
Definition no_block (t : T) : Prop :=
  tl_status t = Status_OK ∧ (∃ q, at_I (index_iter_ t) ik q) ∧
  iter_ (data_iter_ t) = None ∧ valid_ (data_iter_ t) = false.

Lemma SetDataIterator_None t q :
  data_ok t → at_I (index_iter_ t) ik q → ∃ t', SetDataIterator None t = Some t' ∧ no_block t' ∧
    index_iter_ t' = index_iter_ t.
Proof.
  intros [Hs Hd] Hi. unfold SetDataIterator. cbn [Wrapper_Set].
  assert (match iter_ (data_iter_ t) with Some _ => SaveError (it_status (data_iter_ t)) t | None => t end = t) as ->.
  { destruct (iter_ (data_iter_ t)) as [it|] eqn:Hit; [|done]. destruct Hd as (j & s & b & p & _ & _ & Hat).
    rewrite (it_ok _ _ _ Hat). unfold SaveError. by rewrite andb_false_r. }
  eexists. split; [done|]. split; [|done]. by split_and!; eauto.
Qed.

Lemma InitDataBlock_none t :
  data_ok t → at_I (index_iter_ t) ik None →
  ∃ t', InitDataBlock block_function t = Some t' ∧ no_block t' ∧ at_I (index_iter_ t') ik None.
Proof.
  intros Hd Hi. unfold InitDataBlock. rewrite (it_valid _ _ _ Hi). rewrite bool_decide_false by (by intros [? ?]).
  destruct (SetDataIterator_None t None Hd Hi) as (t' & Ht' & Hn & Heq). exists t'. by rewrite Heq.
Qed.

Lemma InitDataBlock_some t j :
  data_ok t → at_I (index_iter_ t) ik (Some j) →
  ∃ t' b q, InitDataBlock block_function t = Some t' ∧ in_block t' j b q.
Proof.
  intros [Hs Hd] Hi. unfold InitDataBlock. rewrite (it_valid _ _ _ Hi). rewrite bool_decide_true by done.
  destruct (it_wf _ _ _ Hi) as (_ & _ & Hj). specialize (Hj j eq_refl).
  destruct (lookup_lt_is_Some_2 ik j Hj) as [[sep h] He].
  rewrite (is_length _ _ _ _ Hsh) in Hj. destruct (lookup_lt_is_Some_2 blk j Hj) as [b Hb].
  rewrite (proj2 (it_entry _ _ _ _ Hi He)). cbn [mbind option_bind snd].
  destruct (iter_ (data_iter_ t)) as [it|] eqn:Hit; [destruct (Z.eqb_spec (slice_compare h (data_block_handle_ t)) 0) as [Heq|Hne]|].
  - apply slice_compare_eq in Heq as ->. destruct Hd as (j' & s' & b' & q & Hj' & Hb' & Hat).
    assert (j' = j) as ->.
    { apply (NoDup_lookup (snd <$> ik) j' j (data_block_handle_ t)); [apply (is_handles _ _ _ _ Hsh)| |];
        rewrite list_lookup_fmap; [by rewrite Hj'|by rewrite He]. }
    exists t, b, q. split; [done|]. rewrite Hb in Hb'. injection Hb' as <-. split_and!; eauto.
  - unfold SetDataIterator. cbn [data_iter_ tl_status index_iter_ data_block_handle_]. rewrite Hit.
    destruct Hd as (j' & s' & b' & q & _ & _ & Hat). rewrite (it_ok _ _ _ Hat). unfold SaveError.
    rewrite andb_false_r. cbn [Wrapper_Set data_iter_].
    destruct (Hopen j sep h b He Hb) as (it0 & p & Hit0 & Hp). rewrite Hit0. cbn [mbind option_bind]. destruct (Wrapper_Update_at (data_iter_ t) _ b p Hp) as (w & -> & Hw).
    cbn [mbind option_bind]. eexists _, b, p. split; [done|]. split_and!; cbn; eauto.
  - unfold SetDataIterator. cbn [data_iter_ tl_status index_iter_ data_block_handle_ Wrapper_Set]. rewrite Hit.
    destruct (Hopen j sep h b He Hb) as (it0 & p & Hit0 & Hp). rewrite Hit0. cbn [mbind option_bind]. cbn [data_iter_].
    destruct (Wrapper_Update_at (data_iter_ t) _ b p Hp) as (w & -> & Hw).
    cbn [mbind option_bind]. eexists _, b, p. split; [done|]. split_and!; cbn; eauto.
Qed.

Lemma in_block_ok t j b q : in_block t j b q → data_ok t.
Proof.
  intros (Hs & _ & Hb & (s & Hj) & Hat). split; [done|]. pose proof Hat as (it & -> & _). eauto 10.
Qed.

Lemma no_block_ok t : no_block t → data_ok t.
Proof. intros (Hs & _ & Hit & Hv). split; [done|]. by rewrite Hit. Qed.

Lemma data_call_at f t j b q q' :
  in_block t j b q → (∀ w, at_J w b q → ∃ w', f w = Some w' ∧ at_J w' b q') →
  ∃ t', data_call f t = Some t' ∧ in_block t' j b q'.
Proof.
  intros (Hs & Hi & Hb & Hh & Hat) Hf. unfold data_call. pose proof Hat as (it & -> & _).
  destruct (Hf _ Hat) as (w' & -> & Hw'). cbn [mbind option_bind]. eexists. split; [done|]. by split_and!.
Qed.

Lemma data_call_null f t : no_block t → data_call f t = Some t.
Proof. intros (_ & _ & Hit & _). unfold data_call. by rewrite Hit. Qed.

(** The index is past its ends: the loops stop. *)
Lemma skip_none n t :
  no_block t → at_I (index_iter_ t) ik None → (0 < n)%nat →
  (∃ t', SkipEmptyDataBlocksForward block_function n t = Some t' ∧ no_block t') ∧
  (∃ t', SkipEmptyDataBlocksBackward block_function n t = Some t' ∧ no_block t').
Proof.
  intros Hno Hi Hn. destruct n as [|n]; [lia|]. cbn [SkipEmptyDataBlocksForward SkipEmptyDataBlocksBackward].
  unfold data_done. pose proof Hno as (_ & _ & -> & _).
  rewrite (it_valid _ _ _ Hi), bool_decide_false by (by intros [? ?]).
  destruct (SetDataIterator_None t None (no_block_ok _ Hno) Hi) as (t' & -> & Hno' & _). by split; exists t'.
Qed.

(** The iterator at entry [g] of the whole sequence, or past its end. *)
Definition tl_fixed (t : T) (p : option nat) : Prop :=
  match p with
  | None => no_block t
  | Some g => ∃ j b i, in_block t j b (Some i) ∧ g = (off blk j + i)%nat
  end.

Lemma flat_lt j b i : blk !! j = Some b → (i < length b)%nat → (off blk j + i < length (flat blk))%nat.
Proof. intros Hb Hi. eapply lookup_lt_is_Some. rewrite (join_lookup _ _ b) by done. by apply lookup_lt_is_Some. Qed.

(** Moving forward from position [i] of block [j], which may be its end. *)
Lemma skip_forward n t j b i :
  in_block t j b (pos_at b i) → (i ≤ length b)%nat → (length ik < n + j)%nat →
  ∃ t', SkipEmptyDataBlocksForward block_function n t = Some t' ∧ tl_fixed t' (pos_at (flat blk) (off blk j + i)).
Proof.
  revert t j b i; induction n as [|n IH]; intros t j b i Hin Hi Hn.
  { destruct Hin as (_ & Hidx & _). destruct (it_wf _ _ _ Hidx) as (_ & _ & Hj). specialize (Hj j eq_refl). lia. }
  pose proof Hin as (Hs & Hidx & Hb & Hh & Hat). cbn [SkipEmptyDataBlocksForward].
  assert (data_done t = negb (bool_decide (is_Some (pos_at b i)))) as ->.
  { unfold data_done. rewrite (it_valid _ _ _ Hat). by destruct Hat as (it & -> & _). }
  destruct (decide (i < length b)%nat) as [Hlt|Hge].
  - rewrite pos_at_lt in Hin |- * by done. rewrite bool_decide_true by done. cbn [negb]. exists t. split; [done|].
    rewrite pos_at_lt by (by apply (flat_lt j b)). by exists j, b, i.
  - rewrite pos_at_ge by lia. rewrite bool_decide_false by (by intros [? ?]). cbn [negb].
    rewrite (it_valid _ _ _ Hidx), bool_decide_true by done.
    destruct (it_next _ _ _ Hidx) as (w & -> & Hidx'). cbn [mbind option_bind].
    assert (off blk j + i = off blk (S j))%nat as -> by (rewrite (off_S blk j b Hb); lia).
    unfold pos_next in Hidx'. destruct (decide (S j < length ik)%nat) as [Hlt|Hge'].
    + rewrite pos_at_lt in Hidx' by done.
      destruct (InitDataBlock_some (with_index w t) (S j)) as (t1 & b1 & q1 & -> & Hin1); [exact (in_block_ok _ _ _ _ Hin)|done|].
      cbn [mbind option_bind]. destruct (data_call_at it_SeekToFirst t1 (S j) b1 q1 (pos_at b1 0) Hin1) as (t2 & -> & Hin2).
      { intros x Hx. by eapply it_first. }
      cbn [mbind option_bind]. rewrite <- (Nat.add_0_r (off blk (S j))). apply (IH t2 (S j) b1); [done|lia..].
    + rewrite pos_at_ge in Hidx' by lia.
      destruct (InitDataBlock_none (with_index w t)) as (t1 & -> & Hno & Hi1); [exact (in_block_ok _ _ _ _ Hin)|done|].
      cbn [mbind option_bind]. rewrite data_call_null by done. cbn [mbind option_bind].
      destruct (it_wf _ _ _ Hidx) as (_ & _ & Hjl). specialize (Hjl j eq_refl).
      destruct (skip_none n t1 Hno Hi1) as [(t2 & -> & Hno2) _]; [lia|]. exists t2. split; [done|]. rewrite off_end by (rewrite <- (is_length _ _ _ _ Hsh); lia). by rewrite pos_at_ge.
Qed.

(** Moving backward to the entry before position [i] of block [j]. *)
Lemma skip_backward n t j b i :
  in_block t j b (pos_prev i) → (i ≤ length b)%nat → (j + 1 < n)%nat →
  ∃ t', SkipEmptyDataBlocksBackward block_function n t = Some t' ∧ tl_fixed t' (pos_prev (off blk j + i)).
Proof.
  revert t j b i; induction n as [|n IH]; intros t j b i Hin Hi Hn; [lia|].
  pose proof Hin as (Hs & Hidx & Hb & Hh & Hat). cbn [SkipEmptyDataBlocksBackward].
  assert (data_done t = negb (bool_decide (is_Some (pos_prev i)))) as ->.
  { unfold data_done. rewrite (it_valid _ _ _ Hat). by destruct Hat as (it & -> & _). }
  destruct i as [|i]; cbn [pos_prev].
  - rewrite bool_decide_false by (by intros [? ?]). cbn [negb]. rewrite (it_valid _ _ _ Hidx), bool_decide_true by done.
    destruct (it_prev _ _ _ Hidx) as (w & -> & Hidx'). cbn [mbind option_bind]. rewrite Nat.add_0_r.
    destruct j as [|j]; cbn [pos_prev] in Hidx'.
    + destruct (InitDataBlock_none (with_index w t)) as (t1 & -> & Hno & Hi1); [exact (in_block_ok _ _ _ _ Hin)|done|].
      cbn [mbind option_bind]. rewrite data_call_null by done. cbn [mbind option_bind].
      apply (skip_none n t1 Hno Hi1). lia.
    + destruct (InitDataBlock_some (with_index w t) j) as (t1 & b1 & q1 & -> & Hin1); [exact (in_block_ok _ _ _ _ Hin)|done|].
      cbn [mbind option_bind].
      destruct (data_call_at it_SeekToLast t1 j b1 q1 (pos_last b1) Hin1) as (t2 & -> & Hin2).
      { intros x Hx. by eapply it_last. }
      cbn [mbind option_bind]. rewrite pos_last_prev in Hin2. pose proof Hin2 as (_ & _ & Hb1 & _).
      rewrite (off_S blk j b1 Hb1). apply (IH t2 j b1); [done|lia..].
  - rewrite bool_decide_true by done. cbn [negb]. exists t. split; [done|]. rewrite Nat.add_succ_r. cbn [pos_prev tl_fixed].
    by exists j, b, i.
Qed.

Lemma tl_data_ok t p : tl_fixed t p → data_ok t ∧ ∃ q, at_I (index_iter_ t) ik q.
Proof.
  destruct p as [g|]; cbn [tl_fixed].
  - intros (j & b & i & Hin & _). split; [by eapply in_block_ok|]. destruct Hin as (_ & Hidx & _). eauto.
  - intros Hno. split; [by apply no_block_ok|]. by destruct Hno as (_ & ? & _).
Qed.

Lemma index_len t j b q : in_block t j b q → (j < length ik)%nat.
Proof. intros (_ & Hidx & _). destruct (it_wf _ _ _ Hidx) as (_ & _ & Hj). by apply Hj. Qed.

Lemma flat_empty_index : length ik = 0%nat → flat blk = [].
Proof.
  intros Hik. pose proof (is_length _ _ _ _ Hsh) as Hl. rewrite Hik in Hl. symmetry in Hl.
  apply length_zero_iff_nil in Hl. by rewrite Hl.
Qed.

Lemma tl_first t p : tl_fixed t p → ∃ t', TwoLevel_SeekToFirst block_function fuel t = Some t' ∧ tl_fixed t' (pos_first (flat blk)).
Proof.
  intros Ht. destruct (tl_data_ok t p Ht) as (Hd & q & Hidx). unfold TwoLevel_SeekToFirst.
  destruct (it_first _ _ _ Hidx) as (w & -> & Hw). cbn [mbind option_bind]. unfold pos_first in *.
  destruct (decide (0 < length ik)%nat) as [Hlt|Hge].
  - rewrite pos_at_lt in Hw by done.
    destruct (InitDataBlock_some (with_index w t) 0 Hd Hw) as (t1 & b & q1 & -> & Hin). cbn [mbind option_bind].
    destruct (data_call_at it_SeekToFirst t1 0 b q1 (pos_at b 0) Hin) as (t2 & -> & Hin2).
    { intros x Hx. by eapply it_first. }
    cbn [mbind option_bind]. apply (skip_forward fuel t2 0 b 0); [done|lia..].
  - rewrite pos_at_ge in Hw by lia. rewrite flat_empty_index by lia.
    destruct (InitDataBlock_none (with_index w t) Hd Hw) as (t1 & -> & Hno & Hi1).
    cbn [mbind option_bind]. rewrite data_call_null by done. apply (skip_none fuel t1 Hno Hi1). lia.
Qed.

Lemma tl_last t p : tl_fixed t p → ∃ t', TwoLevel_SeekToLast block_function fuel t = Some t' ∧ tl_fixed t' (pos_last (flat blk)).
Proof.
  intros Ht. destruct (tl_data_ok t p Ht) as (Hd & q & Hidx). unfold TwoLevel_SeekToLast.
  destruct (it_last _ _ _ Hidx) as (w & -> & Hw). cbn [mbind option_bind]. rewrite pos_last_prev in *.
  assert (∃ m, length ik = m) as [m Hlen] by eauto. rewrite Hlen in Hw. destruct m as [|n]; cbn [pos_prev] in Hw.
  - rewrite flat_empty_index by done.
    destruct (InitDataBlock_none (with_index w t) Hd Hw) as (t1 & -> & Hno & Hi1).
    cbn [mbind option_bind]. rewrite data_call_null by done. apply (skip_none fuel t1 Hno Hi1). lia.
  - destruct (InitDataBlock_some (with_index w t) n Hd Hw) as (t1 & b & q1 & -> & Hin). cbn [mbind option_bind].
    destruct (data_call_at it_SeekToLast t1 n b q1 (pos_last b) Hin) as (t2 & -> & Hin2).
    { intros x Hx. by eapply it_last. }
    cbn [mbind option_bind]. rewrite pos_last_prev in Hin2. pose proof Hin2 as (_ & _ & Hb & _).
    replace (length (flat blk)) with (off blk n + length b)%nat.
    + apply (skip_backward fuel t2 n b (length b)); [done|lia..].
    + rewrite <- (off_S blk n b Hb). apply off_end. rewrite <- (is_length _ _ _ _ Hsh). lia.
Qed.

Lemma tl_seek t p target : tl_fixed t p → valid target →
  ∃ t', TwoLevel_Seek block_function fuel target t = Some t' ∧ tl_fixed t' (pos_seek cmp target (flat blk)).
Proof.
  intros Ht Hv. destruct (tl_data_ok t p Ht) as (Hd & q & Hidx). unfold TwoLevel_Seek.
  destruct (it_seek _ _ _ target Hidx Hv) as (w & -> & Hw). cbn [mbind option_bind]. unfold pos_seek in *.
  pose proof (lower_bound_le cmp target ik) as Hle.
  destruct (decide (lower_bound cmp target ik < length ik)%nat) as [Hlt|Hge].
  - rewrite pos_at_lt in Hw by done. set (j := lower_bound cmp target ik) in *.
    destruct (InitDataBlock_some (with_index w t) j Hd Hw) as (t1 & b & q1 & -> & Hin). cbn [mbind option_bind].
    destruct (data_call_at (it_Seek target) t1 j b q1 (pos_seek cmp target b) Hin) as (t2 & -> & Hin2).
    { intros x Hx. by eapply it_seek. }
    cbn [mbind option_bind]. pose proof Hin2 as (_ & _ & Hb & _).
    rewrite (lower_bound_block cmp valid ik blk Hsh target Hv j b eq_refl Hb).
    apply (skip_forward fuel t2 j b); [done|apply lower_bound_le|lia].
  - rewrite pos_at_ge in Hw by lia. rewrite (lower_bound_none cmp valid ik blk Hsh target Hv) by lia.
    rewrite pos_at_ge by done.
    destruct (InitDataBlock_none (with_index w t) Hd Hw) as (t1 & -> & Hno & Hi1).
    cbn [mbind option_bind]. rewrite data_call_null by done. apply (skip_none fuel t1 Hno Hi1). lia.
Qed.

Lemma tl_valid t p : tl_fixed t p → TwoLevel_Valid t = bool_decide (is_Some p).
Proof.
  unfold TwoLevel_Valid. destruct p as [g|]; cbn [tl_fixed].
  - intros (j & b & i & (_ & _ & _ & _ & Hat) & _). by rewrite (it_valid _ _ _ Hat).
  - by intros (_ & _ & _ & Hv).
Qed.

Lemma tl_next t g : tl_fixed t (Some g) →
  ∃ t', TwoLevel_Next block_function fuel t = Some t' ∧ tl_fixed t' (pos_next (flat blk) g).
Proof.
  intros Ht. unfold TwoLevel_Next. rewrite (tl_valid _ _ Ht), bool_decide_true by done.
  destruct Ht as (j & b & i & Hin & ->).
  destruct (data_call_at it_Next t j b (Some i) (pos_next b i) Hin) as (t1 & -> & Hin1).
  { intros x Hx. by eapply it_next. }
  cbn [mbind option_bind]. unfold pos_next. rewrite <- Nat.add_succ_r.
  pose proof Hin as (_ & _ & _ & _ & Hat). destruct (it_wf _ _ _ Hat) as (_ & _ & Hi). specialize (Hi i eq_refl).
  apply (skip_forward fuel t1 j b (S i)); [done|lia|]. lia.
Qed.

Lemma tl_prev t g : tl_fixed t (Some g) →
  ∃ t', TwoLevel_Prev block_function fuel t = Some t' ∧ tl_fixed t' (pos_prev g).
Proof.
  intros Ht. unfold TwoLevel_Prev. rewrite (tl_valid _ _ Ht), bool_decide_true by done.
  destruct Ht as (j & b & i & Hin & ->).
  destruct (data_call_at it_Prev t j b (Some i) (pos_prev i) Hin) as (t1 & -> & Hin1).
  { intros x Hx. by eapply it_prev. }
  cbn [mbind option_bind]. pose proof (index_len _ _ _ _ Hin).
  pose proof Hin as (_ & _ & _ & _ & Hat). destruct (it_wf _ _ _ Hat) as (_ & _ & Hi). specialize (Hi i eq_refl).
  apply (skip_backward fuel t1 j b i); [done|lia..].
Qed.

Lemma tl_entry t g e : tl_fixed t (Some g) → flat blk !! g = Some e →
  TwoLevel_key t = Some e.1 ∧ TwoLevel_value t = Some e.2.
Proof.
  intros Ht He. unfold TwoLevel_key, TwoLevel_value. rewrite (tl_valid _ _ Ht), bool_decide_true by done.
  destruct Ht as (j & b & i & (_ & _ & Hb & _ & Hat) & ->). destruct (it_wf _ _ _ Hat) as (_ & _ & Hi).
  rewrite (join_lookup _ _ b) in He by auto. apply (it_entry _ _ _ _ Hat He).
Qed.

Lemma tl_ok t p : tl_fixed t p → TwoLevel_status t = Status_OK.
Proof.
  intros Ht. destruct (tl_data_ok t p Ht) as ([Hs Hd] & q & Hidx). unfold TwoLevel_status.
  rewrite (it_ok _ _ _ Hidx). cbn [ok state_ Status_OK negb]. destruct (iter_ (data_iter_ t)); [|done].
  destruct Hd as (j' & s & b & q' & _ & _ & Hat). by rewrite (it_ok _ _ _ Hat).
Qed.
End fixed.

(** An iterator over the blocks of an index, at [p] of the whole sequence. *)
Definition two_level_at (t : T) (l : list kv) (p : option nat) : Prop :=
  ∃ ik blk, index_shape cmp valid ik blk ∧ (length ik + 1 < fuel)%nat ∧
    (∀ j s h b, ik !! j = Some (s, h) → blk !! j = Some b → ∃ it p, block_function h = Some it ∧ RJ it b p) ∧
    l = flat blk ∧ tl_fixed ik blk t p.

Lemma NewTwoLevelIterator_at it ik blk q :
  index_shape cmp valid ik blk → (length ik + 1 < fuel)%nat →
  (∀ j s h b, ik !! j = Some (s, h) → blk !! j = Some b → ∃ it p, block_function h = Some it ∧ RJ it b p) →
  RI it ik q → ∃ t, NewTwoLevelIterator (J := J) it = Some t ∧ two_level_at t (flat blk) None.
Proof.
  intros Hsh Hf Ho Hit. unfold NewTwoLevelIterator, Wrapper_new. destruct (Wrapper_Update_at Wrapper_null it ik q Hit) as (w & Hw & Hat).
  cbn [Wrapper_Set]. rewrite Hw. cbn [mbind option_bind]. eexists. split; [done|]. exists ik, blk. do 4 (split; [done|]).
  split; [done|]. split; [by exists q|done].
Qed.

#[export] Instance two_level_laws : IteratorLaws (Iterator0 := two_level_iterator block_function fuel)
  (TwoLevelIterator I J) cmp valid two_level_at.
Proof.
  split; cbn [it_Valid it_SeekToFirst it_SeekToLast it_Seek it_Next it_Prev it_key it_value it_status two_level_iterator];
    intros t l p.
  - intros (ik & blk & Hsh & Hf & Ho & -> & Ht). split_and!; [apply Hsh..|]. intros g ->.
    destruct Ht as (j & b & i & (_ & _ & Hb & _ & Hat) & ->). destruct (it_wf _ _ _ Hat) as (_ & _ & Hi).
    apply (flat_lt blk j b); auto.
  - intros (ik & blk & Hsh & Hf & Ho & -> & Ht). by eapply tl_ok.
  - intros (ik & blk & Hsh & Hf & Ho & -> & Ht). by eapply tl_valid.
  - intros e (ik & blk & Hsh & Hf & Ho & -> & Ht). by eapply tl_entry.
  - intros (ik & blk & Hsh & Hf & Ho & -> & Ht). destruct (tl_first ik blk Hsh Ho Hf t p Ht) as (t' & H1 & H2).
    exists t'. split; [done|]. by exists ik, blk.
  - intros (ik & blk & Hsh & Hf & Ho & -> & Ht). destruct (tl_last ik blk Hsh Ho Hf t p Ht) as (t' & H1 & H2).
    exists t'. split; [done|]. by exists ik, blk.
  - intros target (ik & blk & Hsh & Hf & Ho & -> & Ht) Hv. destruct (tl_seek ik blk Hsh Ho Hf t p target Ht Hv) as (t' & H1 & H2).
    exists t'. split; [done|]. by exists ik, blk.
  - intros (ik & blk & Hsh & Hf & Ho & -> & Ht). destruct (tl_next ik blk Hsh Ho Hf t p Ht) as (t' & H1 & H2).
    exists t'. split; [done|]. by exists ik, blk.
  - intros (ik & blk & Hsh & Hf & Ho & -> & Ht). destruct (tl_prev ik blk Hsh Ho Hf t p Ht) as (t' & H1 & H2).
    exists t'. split; [done|]. by exists ik, blk.
Qed.
End two_level_proofs.
