(* ===== verification/DbIter.v ===== *)
(** The database iterator (db/db_iter.cc): the user's view, at one sequence
    number, of an iterator over internal keys. *)
From stdpp Require Import sorting.
From S2P Require Import Prelude Coding Comparator DbFormat Env Random Arena MemTable Iterator MemIter Merger.

Section dbiter.
Context {C I DB : Type} `{!Comparator C, !Iterator I}.

(** [RecordReadSample] is the method of the database the iterator reports reads
    to.  [fuel] bounds the internal entries one operation passes. *)
Context (RecordReadSample : list byte → DB → DB) (user_comparator : C) (fuel : nat).

Record DBIter := {
  db_ : DB;
  dbi_iter : I;
  dbi_sequence : Z;
  dbi_status : Status;
  saved_key_ : list byte;
  saved_value_ : list byte;
  dbi_direction : Direction;
  dbi_valid : bool;
  dbi_rnd : Random;
  bytes_until_read_sampling_ : Z;
}.
Implicit Types d : DBIter.

Definition RandomCompactionPeriod (r : Random) : Random * Z := Uniform (2 * kReadBytesPeriod) r.

Definition NewDBIterator (db : DB) (iter : I) (s seed : Z) : DBIter :=
  let '(rnd, period) := RandomCompactionPeriod (Random_new seed) in
  {| db_ := db; dbi_iter := iter; dbi_sequence := s; dbi_status := Status_OK; saved_key_ := [];
     saved_value_ := []; dbi_direction := kForward; dbi_valid := false; dbi_rnd := rnd;
     bytes_until_read_sampling_ := period |}.

Definition set_iter (it : I) d : DBIter :=
  {| db_ := db_ d; dbi_iter := it; dbi_sequence := dbi_sequence d; dbi_status := dbi_status d;
     saved_key_ := saved_key_ d; saved_value_ := saved_value_ d; dbi_direction := dbi_direction d;
     dbi_valid := dbi_valid d; dbi_rnd := dbi_rnd d; bytes_until_read_sampling_ := bytes_until_read_sampling_ d |}.

Definition set_saved (k v : list byte) d : DBIter :=
  {| db_ := db_ d; dbi_iter := dbi_iter d; dbi_sequence := dbi_sequence d; dbi_status := dbi_status d;
     saved_key_ := k; saved_value_ := v; dbi_direction := dbi_direction d;
     dbi_valid := dbi_valid d; dbi_rnd := dbi_rnd d; bytes_until_read_sampling_ := bytes_until_read_sampling_ d |}.

Definition set_dir (dir : Direction) (valid : bool) d : DBIter :=
  {| db_ := db_ d; dbi_iter := dbi_iter d; dbi_sequence := dbi_sequence d; dbi_status := dbi_status d;
     saved_key_ := saved_key_ d; saved_value_ := saved_value_ d; dbi_direction := dir;
     dbi_valid := valid; dbi_rnd := dbi_rnd d; bytes_until_read_sampling_ := bytes_until_read_sampling_ d |}.

Definition set_error (s : Status) d : DBIter :=
  {| db_ := db_ d; dbi_iter := dbi_iter d; dbi_sequence := dbi_sequence d; dbi_status := s;
     saved_key_ := saved_key_ d; saved_value_ := saved_value_ d; dbi_direction := dbi_direction d;
     dbi_valid := dbi_valid d; dbi_rnd := dbi_rnd d; bytes_until_read_sampling_ := bytes_until_read_sampling_ d |}.

Definition SaveKey (k : list byte) d : DBIter := set_saved k (saved_value_ d) d.
Definition ClearSavedKey d : DBIter := set_saved [] (saved_value_ d) d.
Definition ClearSavedValue d : DBIter := set_saved (saved_key_ d) [] d.

(** The sampling loop of [ParseKey]. *)
Fixpoint sample_loop (n : nat) (k : list byte) (bytes_read : Z) (db : DB) (rnd : Random) (budget : Z)
    : option (DB * Random * Z) :=
  match n with
  | O => None
  | S n =>
      if budget <? bytes_read
      then let '(rnd, period) := RandomCompactionPeriod rnd in
           sample_loop n k bytes_read (RecordReadSample k db) rnd (budget + period)
      else Some (db, rnd, budget)
  end.

(** A draw that is 0 is followed by one that is not, so two rounds add a byte. *)
Definition sample_fuel (bytes_read : Z) : nat := S (2 * Z.to_nat bytes_read).

Definition ParseKey d : option (DBIter * option ParsedInternalKey) :=
  k ← it_key (dbi_iter d); v ← it_value (dbi_iter d);
  let bytes_read := Z.of_nat (length k + length v) in
  '(db, rnd, budget) ← sample_loop (sample_fuel bytes_read) k bytes_read (db_ d) (dbi_rnd d) (bytes_until_read_sampling_ d);
  let d := {| db_ := db; dbi_iter := dbi_iter d; dbi_sequence := dbi_sequence d; dbi_status := dbi_status d;
              saved_key_ := saved_key_ d; saved_value_ := saved_value_ d; dbi_direction := dbi_direction d;
              dbi_valid := dbi_valid d; dbi_rnd := rnd; bytes_until_read_sampling_ := budget - bytes_read |} in
  match ParseInternalKey k with
  | None => Some (set_error (Corruption (str "corrupted internal key in DBIter")) d, None)
  | Some p => Some (d, Some p)
  end.

(** [skip] is always [saved_key_]. *)
Fixpoint FindNextUserEntry (n : nat) (skipping : bool) d : option DBIter :=
  match n with
  | O => None
  | S n =>
      '(d, p) ← ParseKey d;
      let advance (skipping : bool) (d : DBIter) :=
        it ← it_Next (dbi_iter d);
        let d := set_iter it d in
        if it_Valid it then FindNextUserEntry n skipping d
        else Some (set_dir (dbi_direction d) false (ClearSavedKey d)) in
      match p with
      | Some ikey =>
          if sequence ikey <=? dbi_sequence d
          then match type ikey with
               | kTypeDeletion => advance true (SaveKey (user_key ikey) d)
               | kTypeValue =>
                   if skipping && (Compare user_comparator (user_key ikey) (saved_key_ d) <=? 0)
                   then advance skipping d
                   else Some (set_dir (dbi_direction d) true (ClearSavedKey d))
               end
          else advance skipping d
      | None => advance skipping d
      end
  end.

(** The end of [FindPrevUserEntry]. *)
Definition prev_end (value_type : ValueType) d : DBIter :=
  match value_type with
  | kTypeDeletion => set_dir kForward false (ClearSavedValue (ClearSavedKey d))
  | kTypeValue => set_dir (dbi_direction d) true d
  end.

Fixpoint FindPrevUserEntry_loop (n : nat) (value_type : ValueType) d : option DBIter :=
  match n with
  | O => None
  | S n =>
      '(d, p) ← ParseKey d;
      let retreat (value_type : ValueType) (d : DBIter) :=
        it ← it_Prev (dbi_iter d);
        let d := set_iter it d in
        if it_Valid it then FindPrevUserEntry_loop n value_type d else Some (prev_end value_type d) in
      match p with
      | Some ikey =>
          if sequence ikey <=? dbi_sequence d
          then if bool_decide (value_type ≠ kTypeDeletion) &&
                  (Compare user_comparator (user_key ikey) (saved_key_ d) <? 0)
               then Some (prev_end value_type d)
               else match type ikey with
                    | kTypeDeletion => retreat kTypeDeletion (ClearSavedValue (ClearSavedKey d))
                    | kTypeValue =>
                        k ← it_key (dbi_iter d); v ← it_value (dbi_iter d);
                        retreat kTypeValue (set_saved (ExtractUserKey k) v d)
                    end
          else retreat value_type d
      | None => retreat value_type d
      end
  end.

Definition FindPrevUserEntry d : option DBIter :=
  if it_Valid (dbi_iter d) then FindPrevUserEntry_loop fuel kTypeDeletion d
  else Some (prev_end kTypeDeletion d).

Definition DBIter_Next d : option DBIter :=
  if negb (dbi_valid d) then None else
  let finish (d : DBIter) :=
    if it_Valid (dbi_iter d) then FindNextUserEntry fuel true d
    else Some (set_dir kForward false (ClearSavedKey d)) in
  match dbi_direction d with
  | kReverse =>
      it ← (if it_Valid (dbi_iter d) then it_Next (dbi_iter d) else it_SeekToFirst (dbi_iter d));
      finish (set_iter it (set_dir kForward (dbi_valid d) d))
  | kForward =>
      k ← it_key (dbi_iter d);
      it ← it_Next (dbi_iter d);
      finish (set_iter it (SaveKey (ExtractUserKey k) d))
  end.

(** The loop of [Prev] that leaves the entries of the current user key; [None]
    in the second component when the internal iterator ran off the front. *)
Fixpoint leave_key (n : nat) (key : list byte) (it : I) : option (I * bool) :=
  match n with
  | O => None
  | S n =>
      it ← it_Prev it;
      if it_Valid it
      then k ← it_key it;
           if Compare user_comparator (ExtractUserKey k) key <? 0 then Some (it, true) else leave_key n key it
      else Some (it, false)
  end.

Definition DBIter_Prev d : option DBIter :=
  if negb (dbi_valid d) then None else
  match dbi_direction d with
  | kForward =>
      k ← it_key (dbi_iter d);
      let d := SaveKey (ExtractUserKey k) d in
      '(it, found) ← leave_key fuel (saved_key_ d) (dbi_iter d);
      let d := set_iter it d in
      if found : bool then FindPrevUserEntry (set_dir kReverse (dbi_valid d) d)
      else Some (set_dir kForward false (ClearSavedValue (ClearSavedKey d)))
  | kReverse => FindPrevUserEntry d
  end.

Definition DBIter_Seek (target : list byte) d : option DBIter :=
  let k := AppendInternalKey [] {| user_key := target; sequence := dbi_sequence d; type := kValueTypeForSeek |} in
  let d := set_saved k [] (set_dir kForward (dbi_valid d) d) in
  it ← it_Seek k (dbi_iter d);
  let d := set_iter it d in
  if it_Valid it then FindNextUserEntry fuel false d else Some (set_dir kForward false d).

Definition DBIter_SeekToFirst d : option DBIter :=
  let d := ClearSavedValue (set_dir kForward (dbi_valid d) d) in
  it ← it_SeekToFirst (dbi_iter d);
  let d := set_iter it d in
  if it_Valid it then FindNextUserEntry fuel false d else Some (set_dir kForward false d).

Definition DBIter_SeekToLast d : option DBIter :=
  let d := ClearSavedValue (set_dir kReverse (dbi_valid d) d) in
  it ← it_SeekToLast (dbi_iter d);
  FindPrevUserEntry (set_iter it d).

Definition DBIter_key d : option (list byte) :=
  if dbi_valid d
  then match dbi_direction d with
       | kForward => ExtractUserKey <$> it_key (dbi_iter d)
       | kReverse => Some (saved_key_ d)
       end
  else None.

Definition DBIter_value d : option (list byte) :=
  if dbi_valid d
  then match dbi_direction d with
       | kForward => it_value (dbi_iter d)
       | kReverse => Some (saved_value_ d)
       end
  else None.

Definition DBIter_status d : Status := if ok (dbi_status d) then it_status (dbi_iter d) else dbi_status d.

#[export] Instance db_iterator : Iterator DBIter := {|
  it_Valid := dbi_valid;
  it_SeekToFirst := DBIter_SeekToFirst;
  it_SeekToLast := DBIter_SeekToLast;
  it_Seek := DBIter_Seek;
  it_Next := DBIter_Next;
  it_Prev := DBIter_Prev;
  it_key := DBIter_key;
  it_value := DBIter_value;
  it_status := DBIter_status;
|}.
End dbiter.
Arguments DBIter I DB : clear implicits.

(** ** The user's view *)

Section view.
Context {C : Type} `{!Comparator C} (c : C) (s : Z).
Implicit Types (es : list entry) (e : entry).

Definition seen e : bool := sequence e.1 <=? s.

(** Entry [i] is what a read at [s] returns for its user key: it is visible, it
    is a value, and no visible entry for the key comes before it. *)
Definition live es (i : nat) : bool :=
  match es !! i with
  | None => false
  | Some e => seen e && bool_decide (type e.1 = kTypeValue) &&
              negb (existsb (λ e', seen e' && (Compare c (user_key e'.1) (user_key e.1) =? 0)) (take i es))
  end.

Definition view_at es (i : nat) : option kv :=
  if live es i then (λ e, (user_key e.1, e.2)) <$> es !! i else None.

Definition user_view es : list kv := omap (view_at es) (seq 0 (length es)).

(** How many user entries come from the first [k] internal ones. *)
Definition rank es (k : nat) : nat := length (omap (view_at es) (seq 0 k)).

Lemma view_at_live es i : live es i = true → ∃ e, es !! i = Some e ∧ view_at es i = Some (user_key e.1, e.2).
Proof.
  intros Hl. unfold view_at. rewrite Hl. unfold live in Hl. destruct (es !! i) as [e|]; [|done]. by exists e.
Qed.

Lemma live_lt es i : live es i = true → (i < length es)%nat.
Proof. intros Hl. destruct (view_at_live es i Hl) as (e & He & _). by eapply lookup_lt_Some. Qed.

Lemma omap_app_list {A B} (f : A → option B) (l l' : list A) : omap f (l ++ l') = omap f l ++ omap f l'.
Proof. induction l as [|x l IH]; [done|]. cbn. destruct (f x); [|done]. cbn. by rewrite IH. Qed.

Lemma rank_S es k : rank es (S k) = (rank es k + if live es k then 1 else 0)%nat.
Proof.
  unfold rank. rewrite seq_S, omap_app_list, length_app. f_equal. cbn.
  destruct (live es k) eqn:Hl.
  - by destruct (view_at_live es k Hl) as (e & _ & ->).
  - unfold view_at. by rewrite Hl.
Qed.

Lemma rank_const es k i : (k ≤ i)%nat → (∀ j, (k ≤ j < i)%nat → live es j = false) → rank es i = rank es k.
Proof.
  intros Hki. induction Hki as [|i Hki IH]; intros Hno; [done|].
  rewrite rank_S, IH, (Hno i) by (intros; apply Hno || lia; lia). lia.
Qed.

Lemma rank_end es k : (length es ≤ k)%nat → rank es k = length (user_view es).
Proof.
  intros Hk. rewrite (rank_const es (length es) k Hk); [done|]. intros j Hj.
  unfold live. by rewrite lookup_ge_None_2 by lia.
Qed.

Lemma user_view_length es : (length (user_view es) ≤ length es)%nat.
Proof.
  unfold user_view. rewrite <- (length_seq (length es) 0) at 2.
  induction (seq 0 (length es)) as [|i l IH]; [done|]. cbn. destruct (view_at es i); cbn; lia.
Qed.

Lemma view_lookup es i : live es i = true → user_view es !! rank es i = view_at es i.
Proof.
  intros Hl. pose proof (live_lt es i Hl) as Hlt. destruct (view_at_live es i Hl) as (e & _ & Hv).
  unfold user_view, rank.
  replace (length es) with (i + S (length es - S i))%nat by lia.
  rewrite seq_app, omap_app_list, lookup_app_r by done. rewrite Nat.sub_diag. cbn [seq omap list_omap Nat.add].
  by rewrite Hv.
Qed.

Lemma rank_le es k : (rank es k ≤ length (user_view es))%nat.
Proof.
  destruct (decide (k ≤ length es)%nat) as [Hk|]; [|rewrite rank_end by lia; lia].
  unfold user_view, rank. replace (length es) with (k + (length es - k))%nat by lia.
  rewrite seq_app, omap_app_list, length_app. lia.
Qed.

(** Every position of the view comes from a live entry. *)
Lemma view_index es g kv0 : user_view es !! g = Some kv0 → ∃ i, live es i = true ∧ rank es i = g ∧ view_at es i = Some kv0.
Proof.
  unfold user_view. assert (∀ n, omap (view_at es) (seq 0 n) !! g = Some kv0 →
    ∃ i, live es i = true ∧ rank es i = g ∧ view_at es i = Some kv0) as Hn; [|apply Hn].
  induction n as [|n IH]; [done|]. rewrite seq_S, omap_app_list. cbn [Nat.add omap list_omap].
  destruct (decide (g < rank es n)%nat) as [Hlt|Hge].
  - rewrite lookup_app_l by done. apply IH.
  - rewrite lookup_app_r by (unfold rank in Hge; lia). fold (rank es n).
    destruct (view_at es n) as [x|] eqn:Hv; [|done]. intros Hg. apply list_lookup_singleton_Some in Hg as [Hg <-].
    exists n. assert (live es n = true) as Hl.
    { unfold view_at in Hv. by destruct (live es n). }
    split_and!; [done|lia|done].
Qed.

Lemma rank_live es i : live es i = true → rank es (S i) = S (rank es i).
Proof. intros Hl. rewrite rank_S, Hl. lia. Qed.

Lemma rank_dead es i : live es i = false → rank es (S i) = rank es i.
Proof. intros Hl. rewrite rank_S, Hl. lia. Qed.

Lemma rank_below es i : live es i = true → (rank es i < length (user_view es))%nat.
Proof. intros Hl. pose proof (rank_le es (S i)). rewrite rank_live in *; done || lia. Qed.

Lemma rank_lt es i k : live es i = true → (rank es i < rank es k)%nat ↔ (i < k)%nat.
Proof.
  assert (∀ a b, (a ≤ b)%nat → (rank es a ≤ rank es b)%nat) as Hmono.
  { intros a b Hab. induction Hab as [|b Hab IH]; [done|]. rewrite rank_S. lia. }
  intros Hl. split; intros Hlt.
  - destruct (decide (i < k)%nat) as [|Hge]; [done|]. pose proof (Hmono k i ltac:(lia)). lia.
  - pose proof (Hmono (S i) k Hlt). rewrite rank_live in *; done || lia.
Qed.

End view.

(** ** Sampling *)

Section proofs.
Context {C I DB : Type} `{!Comparator C, !Iterator I} {uvalid : list byte → Prop} `{!ComparatorLaws C uvalid}.
Context (icmp : InternalKeyComparator C) {R : I → list kv → option nat → Prop}.
Context `{!IteratorLaws I (internal_Compare icmp) (valid_key uvalid) R}.
Context (RecordReadSample : list byte → DB → DB) (fuel : nat).
Notation c := (user_comparator_ icmp).
Notation D := (DBIter I DB).

Lemma sample_loop_total m n k bytes db rnd budget :
  seed_ok rnd → (Z.to_nat (bytes - budget) ≤ m)%nat → (2 * m + 1 ≤ n)%nat →
  ∃ db' rnd' budget', sample_loop RecordReadSample n k bytes db rnd budget = Some (db', rnd', budget') ∧
    seed_ok rnd' ∧ bytes <= budget'.
Proof.
  revert n db rnd budget; induction m as [|m IH]; intros n db rnd budget Hr Hm Hn.
  { destruct n as [|n]; [lia|]. cbn [sample_loop]. rewrite (proj2 (Z.ltb_ge _ _)) by lia. eexists _, _, _.
    split; [done|]. split; [done|lia]. }
  destruct n as [|[|n]]; [lia|lia|]. cbn [sample_loop]. destruct (Z.ltb_spec budget bytes) as [Hlt|Hge].
  2:{ eexists _, _, _. split; [done|]. split; [done|lia]. }
  unfold RandomCompactionPeriod. change (2 * kReadBytesPeriod) with 2097152.
  pose proof (Uniform_progress rnd Hr) as Hp. destruct (Uniform 2097152 rnd) as [r1 v1].
  destruct (Uniform 2097152 r1) as [r2 v2] eqn:E2. destruct Hp as (Hr1 & Hr2 & H1 & H2 & H12).
  destruct (Z.ltb_spec (budget + v1) bytes) as [Hlt1|Hge1].
  - destruct (decide (v1 = 0)) as [->|Hne].
    + apply IH; [done|lia|lia].
    + destruct n as [|n]; [lia|]. 
      pose proof (IH (S (S n)) (RecordReadSample k db) r1 (budget + v1) Hr1 ltac:(lia) ltac:(lia)) as Hs.
      cbn [sample_loop] in Hs. rewrite (proj2 (Z.ltb_lt (budget + v1) bytes)) in Hs by done.
      unfold RandomCompactionPeriod in Hs. change (2 * kReadBytesPeriod) with 2097152 in Hs. by rewrite E2 in Hs.
  - eexists _, _, _. split; [done|]. split; [done|lia].
Qed.

(** ** Order of the internal entries *)

Lemma Parse_ikey e : entry_ok uvalid e → ParseInternalKey (ikey e) = Some e.1.
Proof.
  intros Hok. destruct (tag_of_range _ _ Hok) as [Ht Hr]. rewrite ikey_app, ParseInternalKey_app, Ht by done.
  rewrite Z.add_comm, Z_mod_plus_full, Z.div_add by lia.
  destruct e as [[u q t] v]. by destruct t.
Qed.

Section at_sequence.
Context (es : list entry) (s : Z).
Hypothesis Hes : Forall (entry_ok uvalid) es.
Hypothesis Hsorted : sorted_kvs (internal_Compare icmp) (ikv <$> es).
Hypothesis Hs : 0 <= s <= kMaxSequenceNumber.
Notation live := (live c s es).
Notation rank := (rank c s es).
Notation U := (user_view c s es).
Notation uk e := (user_key (fst e)).

Lemma es_ok i e : es !! i = Some e → entry_ok uvalid e ∧ uvalid (uk e).
Proof. intros Hi. pose proof (Forall_lookup_1 _ _ _ _ Hes Hi) as H. split; [done|apply H]. Qed.

Lemma es_order i j e e' : (i < j)%nat → es !! i = Some e → es !! j = Some e' →
  Compare c (uk e) (uk e') < 0 ∨ Compare c (uk e) (uk e') = 0 ∧ tag_of e' < tag_of e.
Proof.
  intros Hij Hi Hj. pose proof (sorted_lookup (ikv <$> es) i j (ikv e) (ikv e') Hsorted
    (ikv_lookup es i e Hi) (ikv_lookup es j e' Hj) Hij) as H. cbn [ikv fst] in H.
  destruct (es_ok i e Hi) as [He _], (es_ok j e' Hj) as [He' _].
  apply internal_lt in H. rewrite !ikey_app, !ExtractUserKey_app, !ExtractNum_app, !u64_small in H
    by (by eapply tag_of_range). done.
Qed.

Lemma uk_le i j e e' : (i ≤ j)%nat → es !! i = Some e → es !! j = Some e' → Compare c (uk e) (uk e') <= 0.
Proof.
  intros Hij Hi Hj. destruct (decide (i = j)) as [->|Hne].
  - assert (e' = e) as -> by congruence. rewrite compare_refl; [done|by eapply es_ok].
  - destruct (es_order i j e e'); [lia|done..|lia|lia].
Qed.

Lemma live_iff i e : es !! i = Some e →
  live i = true ↔ seen s e = true ∧ type e.1 = kTypeValue ∧
    ∀ j e', (j < i)%nat → es !! j = Some e' → seen s e' = true → Compare c (uk e') (uk e) < 0.
Proof.
  intros Hi. unfold DbIter.live. rewrite Hi, !andb_true_iff, negb_true_iff, bool_decide_eq_true.
  rewrite <- not_true_iff_false, existsb_exists. split.
  - intros [[? ?] Hno]. split_and!; [done..|]. intros j e' Hj He' Hseen.
    destruct (es_order j i e' e Hj He' Hi) as [|[Heq _]]; [done|]. exfalso. apply Hno. exists e'.
    rewrite Hseen, Heq. split; [|done]. apply list_elem_of_In, elem_of_take. by exists j.
  - intros (? & ? & Hno). split; [done|]. intros (e' & Hin & [Hseen Heq%Z.eqb_eq]%andb_true_iff).
    apply list_elem_of_In, elem_of_take in Hin as (j & He' & Hj). specialize (Hno j e' Hj He' Hseen). lia.
Qed.

Lemma live_seen i e : es !! i = Some e → seen s e = false → live i = false.
Proof. intros Hi Hn. apply not_true_iff_false. rewrite (live_iff i e Hi). rewrite Hn. naive_solver. Qed.

Lemma live_after i j e e' : live j = true → (i < j)%nat → es !! i = Some e → es !! j = Some e' →
  seen s e = true → Compare c (uk e) (uk e') < 0.
Proof. intros Hl Hij Hi Hj Hseen. apply (live_iff j e' Hj) in Hl as (_ & _ & H). by apply (H i e). Qed.

(** ** The state between operations *)

Definition core (d : D) (q : option nat) : Prop :=
  R (dbi_iter d) (ikv <$> es) q ∧ dbi_sequence d = s ∧ dbi_status d = Status_OK ∧
  seed_ok (dbi_rnd d) ∧ 0 <= bytes_until_read_sampling_ d.

(** Reading forward, the internal iterator is at the entry. *)
Definition fwd (d : D) (i : nat) : Prop :=
  core d (Some i) ∧ dbi_valid d = true ∧ dbi_direction d = kForward.

(** Reading backward, it is before the entry, with only entries the read cannot
    see between, and the entry is saved. *)
Definition rev (d : D) (i : nat) : Prop :=
  ∃ k e, core d (pos_prev k) ∧ (k ≤ i)%nat ∧ es !! i = Some e ∧
    (∀ j e', (k ≤ j < i)%nat → es !! j = Some e' → seen s e' = false) ∧
    saved_key_ d = uk e ∧ saved_value_ d = e.2 ∧ dbi_valid d = true ∧ dbi_direction d = kReverse.

Definition at_view (d : D) (p : option nat) : Prop :=
  (dbi_valid d = false ∧ p = None ∧ ∃ q, core d q) ∨
  (∃ i, live i = true ∧ p = Some (rank i) ∧ (fwd d i ∨ rev d i)).

(** [ParseKey] never fails on entries that are well formed. *)
Lemma ParseKey_spec d i e :
  core d (Some i) → es !! i = Some e →
  it_key (dbi_iter d) = Some (ikey e) ∧ it_value (dbi_iter d) = Some e.2 ∧
  ∃ d', ParseKey RecordReadSample d = Some (d', Some e.1) ∧ core d' (Some i) ∧
    dbi_iter d' = dbi_iter d ∧ saved_key_ d' = saved_key_ d ∧ saved_value_ d' = saved_value_ d ∧
    dbi_direction d' = dbi_direction d ∧ dbi_valid d' = dbi_valid d.
Proof.
  intros (HR & Hq & Hst & Hseed & Hb) Hi. destruct (it_entry _ _ i (ikv e) HR) as [Hk Hv].
  { by apply ikv_lookup. }
  cbn [ikv fst snd] in Hk, Hv. split; [done|]. split; [done|].
  unfold ParseKey. rewrite Hk, Hv. cbn [mbind option_bind]. cbv zeta.
  set (bytes := Z.of_nat (length (ikey e) + length e.2)).
  destruct (sample_loop_total (Z.to_nat bytes) (sample_fuel bytes) (ikey e) bytes (db_ d) (dbi_rnd d)
    (bytes_until_read_sampling_ d) Hseed) as (db' & rnd' & b' & -> & Hseed' & Hb');
    [lia|unfold sample_fuel; lia|]. cbn [mbind option_bind].
  rewrite Parse_ikey by (by eapply es_ok). eexists. split; [done|]. split_and!; [|done..].
  split_and!; [done..|]. by apply Z.le_0_sub.
Qed.

(** ** [FindNextUserEntry] *)

Definition skipped (skipping : bool) (skip : list byte) (e : entry) : bool :=
  skipping && (Compare c (uk e) skip <=? 0).

(** What the loop looks for. *)
Definition wanted (skipping : bool) (skip : list byte) (i : nat) : Prop :=
  live i = true ∧ ∃ e, es !! i = Some e ∧ skipped skipping skip e = false.

(** Entries hidden by an entry already passed are skipped, and no other live
    entry is. *)
Definition next_pre (k : nat) (skipping : bool) (skip : list byte) : Prop :=
  (∀ i j e e', (j < k)%nat → (k ≤ i)%nat → es !! j = Some e' → es !! i = Some e →
     seen s e' = true → Compare c (uk e') (uk e) = 0 → skipped skipping skip e = true) ∧
  (skipping = true → uvalid skip ∧
     ∀ i e, (k ≤ i)%nat → es !! i = Some e → seen s e = true → Compare c skip (uk e) <= 0).

Definition next_post (k : nat) (skipping : bool) (skip : list byte) (d : D) : Prop :=
  (∃ i, (k ≤ i)%nat ∧ wanted skipping skip i ∧ (∀ j, (k ≤ j < i)%nat → ¬ wanted skipping skip j) ∧ fwd d i) ∨
  ((∀ j, (k ≤ j)%nat → ¬ wanted skipping skip j) ∧ dbi_valid d = false ∧ ∃ q, core d q).

Lemma next_pre_pass k e b skip :
  next_pre k b skip → es !! k = Some e → seen s e = false ∨ skipped b skip e = true →
  next_pre (S k) b skip ∧ ¬ wanted b skip k.
Proof.
  intros [H1 H2] He Hcase. split; [split|].
  - intros i j e1 e' Hj Hi He' He1 Hseen Heq. destruct (decide (j = k)) as [->|Hne].
    2:{ apply (H1 i j e1 e'); [lia|lia|done..]. }
    assert (e' = e) as -> by congruence. destruct Hcase as [Hn|Hsk]; [congruence|].
    unfold skipped in *. apply andb_true_iff in Hsk as [-> Hle%Z.leb_le]. cbn. apply Z.leb_le.
    destruct (H2 eq_refl) as [Hv _]. destruct (es_ok _ _ He) as [_ Hve], (es_ok _ _ He1) as [_ Hv1].
    pose proof (compare_eq_l c _ _ skip Hve Hv1 Hv Heq). lia.
  - intros ->. destruct (H2 eq_refl) as [Hv H3]. split; [done|]. intros i e1 Hi. apply H3. lia.
  - intros (Hl & e1 & He1 & Hsk). assert (e1 = e) as -> by congruence.
    destruct Hcase as [Hn|?]; [|congruence]. by rewrite (live_seen k e He Hn) in Hl.
Qed.

(** A deletion hides the rest of its key. *)
Lemma next_pre_deletion k e b skip :
  next_pre k b skip → es !! k = Some e → seen s e = true → type e.1 = kTypeDeletion →
  next_pre (S k) true (uk e) ∧ ¬ wanted b skip k ∧
  (∀ j, (S k ≤ j)%nat → wanted true (uk e) j ↔ wanted b skip j).
Proof.
  intros [H1 H2] He Hseen Ht. destruct (es_ok _ _ He) as [_ Hve].
  assert (∀ e1, uvalid (uk e1) → skipped b skip e1 = true → Compare c (uk e1) (uk e) <= 0) as Hold.
  { intros e1 Hv1 [-> Hle%Z.leb_le]%andb_true_iff. destruct (H2 eq_refl) as [Hv H3].
    pose proof (H3 k e ltac:(lia) He Hseen). by apply (compare_trans c _ skip _). }
  split_and!; [split| |].
  - intros i j e1 e' Hj Hi He' He1 Hs' Heq. unfold skipped. cbn. apply Z.leb_le.
    destruct (es_ok _ _ He1) as [_ Hv1]. destruct (decide (j = k)) as [->|Hne].
    + assert (e' = e) as -> by congruence. pose proof (compare_sym c _ _ Hve Hv1). lia.
    + apply Hold; [done|]. apply (H1 i j e1 e'); [lia|lia|done..].
  - intros _. split; [done|]. intros i e1 Hi He1 _. apply (uk_le k i); [lia|done..].
  - intros (Hl & _). apply (live_iff k e He) in Hl as (_ & Hv & _). congruence.
  - intros j Hj. unfold wanted. split; intros (Hl & e1 & He1 & Hsk); (split; [done|]); exists e1; (split; [done|]).
    + apply not_true_iff_false. intros Ho. apply Hold in Ho; [|by eapply es_ok].
      unfold skipped in Hsk. cbn in Hsk. apply Z.leb_gt in Hsk. lia.
    + pose proof (live_after k j e e1 Hl ltac:(lia) He He1 Hseen) as Hlt. unfold skipped. cbn. apply Z.leb_gt.
      destruct (es_ok _ _ He1) as [_ Hv1]. pose proof (compare_sym c _ _ Hve Hv1). lia.
Qed.

Lemma next_post_step k b b' skip skip' d :
  ¬ wanted b skip k → (∀ j, (S k ≤ j)%nat → wanted b' skip' j ↔ wanted b skip j) →
  next_post (S k) b' skip' d → next_post k b skip d.
Proof.
  intros Hno Hiff [(i & Hi & Hw & Hmin & Hf)|(Hnone & Hrest)].
  - left. exists i. split_and!; [lia|by apply Hiff| |done]. intros j Hj.
    destruct (decide (j = k)) as [->|]; [done|]. rewrite <- Hiff by lia. apply Hmin. lia.
  - right. split; [|done]. intros j Hj. destruct (decide (j = k)) as [->|]; [done|].
    rewrite <- Hiff by lia. apply Hnone. lia.
Qed.

(** Moving the internal iterator on. *)
Lemma core_next d k : core d (Some k) →
  ∃ it, it_Next (dbi_iter d) = Some it ∧ core (set_iter it d) (pos_at (ikv <$> es) (S k)) ∧
    it_Valid it = bool_decide (S k < length es)%nat.
Proof.
  intros (HR & Hrest). destruct (it_next _ _ _ HR) as (it & Hit & HR'). exists it. split; [done|].
  split; [by split|]. rewrite (it_valid _ _ _ HR'). apply bool_decide_ext. unfold pos_next, pos_at.
  rewrite length_fmap. destruct (Nat.ltb_spec (S k) (length es)); split; intros H'; [done|done| |lia].
  by destruct H'.
Qed.

Lemma core_lt d k : core d (Some k) → ∃ e, es !! k = Some e.
Proof.
  intros (HR & _). destruct (it_wf _ _ _ HR) as (_ & _ & Hk). specialize (Hk k eq_refl).
  rewrite length_fmap in Hk. by apply lookup_lt_is_Some_2.
Qed.

Lemma FindNext_spec n k b d :
  (length es < n + k)%nat → core d (Some k) → dbi_direction d = kForward → next_pre k b (saved_key_ d) →
  ∃ d', FindNextUserEntry RecordReadSample c n b d = Some d' ∧ next_post k b (saved_key_ d) d'.
Proof.
  revert k b d; induction n as [|n IH]; intros k b d Hn Hc Hdir Hpre.
  { destruct (core_lt d k Hc) as [e He%lookup_lt_Some]. lia. }
  destruct (core_lt d k Hc) as [e He]. cbn [FindNextUserEntry].
  destruct (ParseKey_spec d k e Hc He) as (_ & _ & d1 & -> & Hc1 & _ & Hsk & _ & Hdir1 & _).
  cbn [mbind option_bind]. rewrite (proj1 (proj2 Hc1)). fold (seen s e). rewrite <- Hsk in Hpre |- *.
  assert (∀ b' skip', next_pre (S k) b' skip' → ¬ wanted b (saved_key_ d1) k →
    (∀ j, (S k ≤ j)%nat → wanted b' skip' j ↔ wanted b (saved_key_ d1) j) →
    ∀ d2, core d2 (Some k) → saved_key_ d2 = skip' → dbi_direction d2 = kForward →
    ∃ d', (it ← it_Next (dbi_iter d2);
       if it_Valid it then FindNextUserEntry RecordReadSample c n b' (set_iter it d2)
       else Some (set_dir (dbi_direction (set_iter it d2)) false (ClearSavedKey (set_iter it d2)))) = Some d' ∧
      next_post k b (saved_key_ d1) d') as Hadv.
  { intros b' skip' Hpre' Hno Hiff d2 Hc2 Hsk2 Hdir2. destruct (core_next d2 k Hc2) as (it & -> & Hc3 & Hv).
    cbn [mbind option_bind]. rewrite Hv. case_bool_decide as Hlt.
    - rewrite pos_at_lt in Hc3 by (rewrite length_fmap; done).
      destruct (IH (S k) b' (set_iter it d2)) as (d' & Hd' & Hpost); [lia|done|done|by cbn; rewrite Hsk2|].
      exists d'. split; [done|]. cbn [saved_key_ set_iter] in Hpost. rewrite Hsk2 in Hpost.
      by eapply next_post_step.
    - eexists. split; [done|]. eapply next_post_step; [done|done|]. right.
      split; [|by split; [|eexists; exact Hc3]].
      intros j Hj (_ & e1 & He1%lookup_lt_Some & _). lia. }
  destruct (seen s e) eqn:Hseen.
  - destruct (type e.1) eqn:Ht.
    + destruct (next_pre_deletion k e b _ Hpre He Hseen Ht) as (Hp' & Hno & Hiff).
      apply (Hadv true (uk e) Hp' Hno Hiff (SaveKey (uk e) d1)); [done|done|cbn; congruence].
    + fold (skipped b (saved_key_ d1) e). destruct (skipped b (saved_key_ d1) e) eqn:Hsk1.
      * destruct (next_pre_pass k e b _ Hpre He (or_intror Hsk1)) as [Hp' Hno].
        apply (Hadv b (saved_key_ d1) Hp' Hno ltac:(done) d1); [done|done|congruence].
      * eexists. split; [done|]. left. exists k. split_and!; [lia| |lia|by split_and!; [..|cbn; congruence]].
        split; [|by exists e]. apply (live_iff k e He). split_and!; [done..|]. intros j e' Hj He' Hs'.
        destruct (es_order j k e' e Hj He' He) as [|[Heq _]]; [done|].
        rewrite (proj1 Hpre k j e e') in Hsk1 by done. done.
  - destruct (next_pre_pass k e b _ Hpre He (or_introl Hseen)) as [Hp' Hno].
    apply (Hadv b (saved_key_ d1) Hp' Hno ltac:(done) d1); [done|done|congruence].
Qed.

(** ** [FindPrevUserEntry] *)

(** With the entries from [k] on passed, the answer is the last live entry
    before [m]: nothing live is left behind, or the newest entry so far of a key
    is saved. *)
Definition pending (k m : nat) (value_type : ValueType) (d : D) : Prop :=
  match value_type with
  | kTypeDeletion => rank m = rank k
  | kTypeValue => ∃ i e, m = S i ∧ (k ≤ i)%nat ∧ es !! i = Some e ∧ seen s e = true ∧ type e.1 = kTypeValue ∧
      saved_key_ d = uk e ∧ saved_value_ d = e.2 ∧
      ∀ j e', (k ≤ j < i)%nat → es !! j = Some e' → seen s e' = false
  end.

Definition prev_post (m : nat) (d : D) : Prop :=
  (∃ i, live i = true ∧ rank m = S (rank i) ∧ rev d i) ∨
  (rank m = 0%nat ∧ dbi_valid d = false ∧ ∃ q, core d q).

Lemma rank_unseen k i : (k ≤ i)%nat →
  (∀ j e', (k ≤ j < i)%nat → es !! j = Some e' → seen s e' = false) → rank i = rank k.
Proof.
  intros Hki Hno. apply rank_const; [done|]. intros j Hj. destruct (es !! j) as [e|] eqn:He.
  - apply (live_seen j e He). by apply (Hno j).
  - unfold DbIter.live. by rewrite He.
Qed.

(** The loop ends before the saved key, or at the front. *)
Lemma prev_end_spec k m vt d :
  core d (pos_prev k) → dbi_direction d = kReverse → pending k m vt d →
  (vt = kTypeDeletion → k = 0%nat) →
  (vt = kTypeValue → ∀ j e, (j < k)%nat → es !! j = Some e → Compare c (uk e) (saved_key_ d) < 0) →
  prev_post m (prev_end vt d).
Proof.
  intros Hc Hdir Hpend H0' Hbelow. destruct vt; cbn [pending prev_end] in *.
  - right. rewrite H0' in Hpend by done. split; [done|]. split; [done|]. by exists (pos_prev k).
  - destruct Hpend as (i & e & -> & Hki & He & Hseen & Ht & Hk & Hv & Hno). left. exists i.
    assert (live i = true) as Hl.
    { apply (live_iff i e He). split_and!; [done..|]. intros j e' Hj He' Hs'.
      destruct (decide (j < k)%nat) as [Hlt|Hge]; [rewrite <- Hk; by apply (Hbelow eq_refl j)|].
      rewrite (Hno j e') in Hs' by (done || lia). done. }
    split_and!; [done|by apply rank_live|]. exists k, e. by split_and!.
Qed.

(** A visible entry not below the saved key is a newer entry for it, which
    hides the saved one. *)
Lemma pending_hidden k m vt d e :
  pending (S k) m vt d → es !! k = Some e → seen s e = true →
  (vt = kTypeValue → 0 <= Compare c (uk e) (saved_key_ d)) → rank m = rank (S k).
Proof.
  intros Hpend He Hseen Hge. destruct vt; cbn [pending] in Hpend; [done|].
  destruct Hpend as (i & e0 & -> & Hki & He0 & _ & _ & Hk & _ & Hno). specialize (Hge eq_refl). rewrite Hk in Hge.
  rewrite rank_dead; [by apply rank_unseen|]. apply not_true_iff_false. intros Hl.
  pose proof (live_after k i e e0 Hl ltac:(lia) He He0 Hseen). lia.
Qed.

Lemma pending_unseen k m vt d e :
  pending (S k) m vt d → es !! k = Some e → seen s e = false → pending k m vt d.
Proof.
  intros Hpend He Hn. destruct vt; cbn [pending] in *.
  - rewrite Hpend. apply rank_dead. by apply (live_seen k e).
  - destruct Hpend as (i & e0 & -> & Hki & He0 & Hs0 & Ht0 & Hk & Hv & Hno). exists i, e0.
    split_and!; [done|lia|done..|]. intros j e' Hj He'. destruct (decide (j = k)) as [->|].
    + congruence.
    + apply (Hno j e'); [lia|done].
Qed.

Lemma core_prev d k : core d (Some k) →
  ∃ it, it_Prev (dbi_iter d) = Some it ∧ core (set_iter it d) (pos_prev k) ∧
    it_Valid it = bool_decide (is_Some (pos_prev k)).
Proof.
  intros (HR & Hrest). destruct (it_prev _ _ _ HR) as (it & Hit & HR'). exists it. split; [done|].
  split; [by split|]. by rewrite (it_valid _ _ _ HR').
Qed.

Lemma FindPrev_loop_spec n k m vt d :
  (k < n)%nat → core d (Some k) → dbi_direction d = kReverse → pending (S k) m vt d →
  ∃ d', FindPrevUserEntry_loop RecordReadSample c n vt d = Some d' ∧ prev_post m d'.
Proof.
  revert k m vt d; induction n as [|n IH]; intros k m vt d Hn Hc Hdir Hpend; [lia|].
  destruct (core_lt d k Hc) as [e He]. cbn [FindPrevUserEntry_loop].
  destruct (ParseKey_spec d k e Hc He) as (Hkey & Hval & d1 & -> & Hc1 & Hit1 & Hsk & Hsv & Hdir1 & _).
  cbn [mbind option_bind]. rewrite (proj1 (proj2 Hc1)). fold (seen s e).
  assert (pending (S k) m vt d1) as Hpend1.
  { destruct vt; [done|]. cbn [pending] in *. by rewrite Hsk, Hsv. }
  assert (∀ vt' m' d2, rank m' = rank m → pending k m' vt' d2 → core d2 (Some k) → dbi_direction d2 = kReverse →
    ∃ d', (it ← it_Prev (dbi_iter d2);
       if it_Valid it then FindPrevUserEntry_loop RecordReadSample c n vt' (set_iter it d2)
       else Some (prev_end vt' (set_iter it d2))) = Some d' ∧ prev_post m d') as Hret.
  { intros vt' m' d2 Hm Hpend2 Hc2 Hdir2. unfold prev_post. rewrite <- Hm.
    destruct (core_prev d2 k Hc2) as (it & -> & Hc3 & Hv). cbn [mbind option_bind]. rewrite Hv.
    assert (pending k m' vt' (set_iter it d2)) as Hpend3 by (by destruct vt').
    destruct k as [|k]; cbn [pos_prev] in *.
    - eexists. split; [done|]. apply (prev_end_spec 0); [done..|]. intros _ j e' Hj. lia.
    - apply (IH k m'); [lia|done..]. }
  destruct (seen s e) eqn:Hseen.
  - destruct (bool_decide (vt ≠ kTypeDeletion) && (Compare c (uk e) (saved_key_ d1) <? 0)) eqn:Hbrk.
    + apply andb_true_iff in Hbrk as [Hvt%bool_decide_eq_true Hlt%Z.ltb_lt]. eexists. split; [done|].
      apply (prev_end_spec (S k)); [done|congruence|done|by intros ->|]. intros -> j e' Hj He'.
      cbn [pending] in Hpend1. destruct Hpend1 as (i & e0 & _ & Hki & He0 & _ & _ & Hk & _). rewrite Hk in *.
      apply (compare_le_lt_trans c _ (uk e)); [by eapply es_ok..| |done].
      apply (uk_le j k); [lia|done..].
    + assert (rank m = rank (S k)) as Hm.
      { apply (pending_hidden k m vt d1 e); [done..|]. intros ->. rewrite bool_decide_true in Hbrk by done.
        cbn in Hbrk. by apply Z.ltb_ge in Hbrk. }
      destruct (type e.1) eqn:Ht.
      * apply (Hret kTypeDeletion k); [|done|done|cbn; congruence]. rewrite Hm. symmetry. apply rank_dead.
        apply not_true_iff_false. rewrite (live_iff k e He). intros (_ & ? & _). congruence.
      * rewrite Hit1, Hkey, Hval. cbn [mbind option_bind]. rewrite ikey_app, ExtractUserKey_app.
        apply (Hret kTypeValue (S k)); [done| |done|cbn; congruence].
        exists k, e. split_and!; [done|lia|done..|]. intros j e' Hj. lia.
  - apply (Hret vt m d1); [done|by apply (pending_unseen k m vt d1 e)|done|congruence].
Qed.

Hypothesis Hfuel : (length es < fuel)%nat.

Lemma FindPrev_spec k d :
  core d (pos_prev k) → dbi_direction d = kReverse →
  ∃ d', FindPrevUserEntry RecordReadSample c fuel d = Some d' ∧ prev_post k d'.
Proof.
  intros Hc Hdir. unfold FindPrevUserEntry. pose proof Hc as (HR & _). rewrite (it_valid _ _ _ HR).
  destruct k as [|k]; cbn [pos_prev] in *.
  - rewrite bool_decide_false by (by intros [? ?]). eexists. split; [done|]. by apply (prev_end_spec 0).
  - rewrite bool_decide_true by done. destruct (core_lt d k Hc) as [e He%lookup_lt_Some].
    apply (FindPrev_loop_spec fuel k (S k)); [lia|done..].
Qed.

Lemma prev_post_view m d : prev_post m d → at_view d (pos_prev (rank m)).
Proof.
  intros [(i & Hl & -> & Hr)|(-> & Hv & Hq)]; [right|by left]. exists i. by split_and!; [| |right].
Qed.

(** Going forward to the first live entry from [lo] on. *)
Lemma next_post_view k lo b skip d :
  (k ≤ lo)%nat → (∀ j, (k ≤ j)%nat → wanted b skip j ↔ live j = true ∧ (lo ≤ j)%nat) →
  next_post k b skip d → at_view d (pos_at U (rank lo)).
Proof.
  intros Hk Hiff [(i & Hi & Hw & Hmin & Hf)|(Hnone & Hv & Hq)].
  - apply Hiff in Hw as [Hl Hlo]; [|done]. right. exists i. split_and!; [done| |by left].
    rewrite <- (rank_const c s es lo i Hlo); [by apply pos_at_lt, rank_below|].
    intros j Hj. apply not_true_iff_false. intros Hlj. apply (Hmin j); [lia|]. apply Hiff; [lia|]. split; [done|lia].
  - left. split_and!; [done| |done]. apply pos_at_ge.
    rewrite <- (rank_end c s es (lo + length es)) by lia. apply reflexive_eq, rank_const; [lia|].
    intros j Hj. apply not_true_iff_false. intros Hlj. apply (Hnone j); [lia|]. apply Hiff; [lia|]. split; [done|lia].
Qed.

Lemma first_view k d :
  core d (Some k) → dbi_direction d = kForward → 
  (∀ i j e e', (j < k)%nat → (k ≤ i)%nat → es !! j = Some e' → es !! i = Some e →
     seen s e' = true → Compare c (uk e') (uk e) ≠ 0) →
  ∃ d', FindNextUserEntry RecordReadSample c fuel false d = Some d' ∧ at_view d' (pos_at U (rank k)).
Proof.
  intros Hc Hdir Hno. destruct (FindNext_spec fuel k false d) as (d' & Hd' & Hpost); [lia|done|done| |].
  { split; [|done]. intros i j e e' Hj Hi He' He Hseen Heq. by destruct (Hno i j e e'). }
  exists d'. split; [done|]. eapply next_post_view; [reflexivity| |exact Hpost].
  intros j Hj. split; [intros [Hl _]; done|]. intros [Hl _]. split; [done|].
  destruct (view_at_live c s es j Hl) as (e & He & _). by exists e.
Qed.

(** Leaving entry [i] from a position no visible entry separates from it. *)
Lemma next_after k i e d :
  live i = true → es !! i = Some e → (k ≤ S i)%nat →
  (∀ j e', (k ≤ j < i)%nat → es !! j = Some e' → seen s e' = false) →
  core d (pos_at (ikv <$> es) k) → dbi_direction d = kForward → saved_key_ d = uk e →
  ∃ d', (if it_Valid (dbi_iter d) then FindNextUserEntry RecordReadSample c fuel true d
         else Some (set_dir kForward false (ClearSavedKey d))) = Some d' ∧ at_view d' (pos_at U (rank (S i))).
Proof.
  intros Hl He Hki Hno Hc Hdir Hk. pose proof Hc as (HR & _). rewrite (it_valid _ _ _ HR).
  destruct (es_ok _ _ He) as [_ Hve]. destruct (proj1 (live_iff i e He) Hl) as (Hseen & _ & _).
  destruct (decide (k < length es)%nat) as [Hlt|Hge].
  - rewrite pos_at_lt in Hc |- * by (by rewrite length_fmap). rewrite bool_decide_true by done.
    destruct (FindNext_spec fuel k true d) as (d' & Hd' & Hpost); [lia|done|done|rewrite Hk; split|].
    + intros i1 j e1 e' Hj Hi1 He' He1 Hs' Heq. unfold skipped. cbn. apply Z.leb_le.
      destruct (es_ok _ _ He') as [_ Hv'], (es_ok _ _ He1) as [_ Hv1].
      pose proof (uk_le j i e' e ltac:(lia) He' He). pose proof (compare_eq_l c _ _ (uk e) Hv' Hv1 Hve Heq). lia.
    + intros _. split; [done|]. intros j e1 Hj He1 Hs1. apply (uk_le i j e e1); [|done..].
      destruct (decide (i ≤ j)%nat) as [|Hlt']; [done|]. rewrite (Hno j e1) in Hs1 by (done || lia). done.
    + exists d'. split; [done|]. rewrite Hk in Hpost. eapply next_post_view; [exact Hki| |exact Hpost].
      intros j Hj. unfold wanted, skipped. cbn [andb]. split.
      * intros (Hlj & e1 & He1 & Hgt%Z.leb_gt). split; [done|].
        destruct (decide (S i ≤ j)%nat) as [|Hle]; [done|]. pose proof (uk_le j i e1 e ltac:(lia) He1 He). lia.
      * intros [Hlj Hij]. split; [done|]. destruct (view_at_live c s es j Hlj) as (e1 & He1 & _).
        exists e1. split; [done|]. apply Z.leb_gt. destruct (es_ok _ _ He1) as [_ Hv1].
        pose proof (live_after i j e e1 Hlj ltac:(lia) He He1 Hseen). pose proof (compare_sym c _ _ Hve Hv1). lia.
  - rewrite pos_at_ge in Hc |- * by (rewrite length_fmap; lia). rewrite bool_decide_false by (by intros [? ?]).
    apply lookup_lt_Some in He. eexists. split; [done|]. left. split_and!; [done| |by exists None].
    apply pos_at_ge. rewrite rank_end; lia.
Qed.

(** [Prev] going forward: the entries of the current key. *)
Lemma leave_key_spec n j i e it :
  (j < n)%nat → (j ≤ i)%nat → es !! i = Some e → R it (ikv <$> es) (Some j) →
  (∀ j' e', (j ≤ j' ≤ i)%nat → es !! j' = Some e' → Compare c (uk e') (uk e) = 0) →
  ∃ it' k, leave_key c n (uk e) it = Some (it', bool_decide (is_Some (pos_prev k))) ∧
    R it' (ikv <$> es) (pos_prev k) ∧ (k ≤ i)%nat ∧
    (∀ j' e', (k ≤ j' ≤ i)%nat → es !! j' = Some e' → Compare c (uk e') (uk e) = 0).
Proof.
  revert j it; induction n as [|n IH]; intros j it Hn Hji He HR Hall; [lia|]. cbn [leave_key].
  destruct (it_prev _ _ _ HR) as (it1 & -> & HR1). cbn [mbind option_bind]. rewrite (it_valid _ _ _ HR1).
  destruct j as [|j]; cbn [pos_prev] in *.
  { rewrite bool_decide_false by (by intros [? ?]). exists it1, 0%nat. by split_and!. }
  rewrite bool_decide_true by done. pose proof (lookup_lt_Some _ _ _ He) as Hlen.
  destruct (lookup_lt_is_Some_2 es j) as [e1 He1]; [lia|].
  destruct (it_entry _ _ j (ikv e1) HR1 (ikv_lookup _ _ _ He1)) as [-> _].
  cbn [mbind option_bind ikv fst]. rewrite ikey_app, ExtractUserKey_app.
  destruct (Z.ltb_spec (Compare c (uk e1) (uk e)) 0) as [Hlt|Hge].
  - exists it1, (S j). by split_and!.
  - apply (IH j); [lia|lia|done..|]. intros j' e' Hj' He'. destruct (decide (j' = j)) as [->|].
    + assert (e' = e1) as -> by congruence. pose proof (uk_le j i e1 e ltac:(lia) He1 He). lia.
    + apply (Hall j' e'); [lia|done].
Qed.

(** ** The operations *)

Lemma at_view_core d p : at_view d p → ∃ q, core d q.
Proof. intros [(_ & _ & Hq)|(i & _ & _ & [[Hc _]|(k & e & Hc & _)])]; by eauto. Qed.

Lemma view_SeekToFirst d p : at_view d p →
  ∃ d', DBIter_SeekToFirst RecordReadSample c fuel d = Some d' ∧ at_view d' (pos_first U).
Proof.
  intros [q (HR & Hrest)]%at_view_core. unfold DBIter_SeekToFirst. cbn [dbi_iter ClearSavedValue set_saved set_dir].
  destruct (it_first _ _ _ HR) as (it & -> & HR1). cbn [mbind option_bind]. cbv zeta.
  rewrite (it_valid _ _ _ HR1). unfold pos_first in *. destruct (decide (0 < length es)%nat) as [Hlt|Hge].
  - rewrite pos_at_lt in HR1 |- * by (by rewrite length_fmap). rewrite bool_decide_true by done.
    apply (first_view 0); [by split|done|]. intros i j e e' Hj. lia.
  - rewrite pos_at_ge in HR1 |- * by (rewrite length_fmap; lia). rewrite bool_decide_false by (by intros [? ?]).
    eexists. split; [done|]. left. split_and!; [done| |exists None; by split].
    apply pos_at_ge. rewrite <- (rank_end c s es 0); [done|lia].
Qed.

Lemma view_SeekToLast d p : at_view d p →
  ∃ d', DBIter_SeekToLast RecordReadSample c fuel d = Some d' ∧ at_view d' (pos_last U).
Proof.
  intros [q (HR & Hrest)]%at_view_core. unfold DBIter_SeekToLast. cbn [dbi_iter ClearSavedValue set_saved set_dir].
  destruct (it_last _ _ _ HR) as (it & -> & HR1). cbn [mbind option_bind]. cbv zeta.
  rewrite pos_last_prev, length_fmap in HR1.
  edestruct (FindPrev_spec (length es)) as (d' & -> & Hpost); [by split|done|]. exists d'. split; [done|].
  rewrite pos_last_prev, <- (rank_end c s es (length es)) by done. by apply prev_post_view.
Qed.

(** Where the seek key falls. *)
Lemma seek_below t i e : uvalid t → es !! i = Some e →
  internal_Compare icmp (ikey e) (AppendInternalKey [] {| user_key := t; sequence := s; type := kValueTypeForSeek |}) < 0 ↔
  Compare c (uk e) t < 0 ∨ Compare c (uk e) t = 0 ∧ seen s e = false.
Proof.
  intros Ht He. destruct (es_ok _ _ He) as [Hok Hv]. unfold AppendInternalKey, PutFixed64. cbn [app user_key sequence type].
  destruct (pack_value s kValueTypeForSeek Hs) as [Hp Hr]. destruct (tag_of_range _ _ Hok) as [Hq Hr'].
  rewrite internal_lt, ikey_app, !ExtractUserKey_app, !ExtractNum_app, !u64_small, Hp, Hq by done.
  cbv zeta. unfold seen. rewrite Z.leb_gt. pose proof (ValueType_num_range (type e.1)). cbn [ValueType_num kValueTypeForSeek]. lia.
Qed.

Lemma view_Seek d p t : at_view d p → uvalid t →
  ∃ d', DBIter_Seek RecordReadSample c fuel t d = Some d' ∧ at_view d' (pos_seek (Compare c) t U).
Proof.
  intros [q (HR & Hseq & Hrest)]%at_view_core Ht. unfold DBIter_Seek. cbv zeta. rewrite Hseq.
  pose proof (λ i e, seek_below t i e Ht) as Hbelow.
  set (sk := AppendInternalKey [] _) in *. cbn [dbi_iter set_saved set_dir].
  assert (valid_key uvalid sk) as Hsk by (by apply valid_key_app).
  destruct (it_seek _ _ _ sk HR Hsk) as (it & -> & HR1). cbn [mbind option_bind].
  rewrite (it_valid _ _ _ HR1). set (k := lower_bound (internal_Compare icmp) sk (ikv <$> es)).
  destruct (it_wf _ _ _ HR) as (_ & HvL & _).
  assert (∀ i e, es !! i = Some e → (i < k)%nat ↔ Compare c (uk e) t < 0 ∨ Compare c (uk e) t = 0 ∧ seen s e = false) as Hk.
  { intros i e He. rewrite <- Hbelow by done.
    pose proof (comparator_order icmp : KeyOrder (internal_Compare icmp) (valid_key uvalid)) as Hord.
    apply (lower_bound_iff (KeyOrder0 := Hord) sk (ikv <$> es) i (ikv e)); [done..|by apply ikv_lookup]. }
  assert (pos_seek (Compare c) t U = pos_at U (rank k)) as ->.
  { unfold pos_seek. f_equal. apply lower_bound_unique; [apply rank_le|].
    intros g x Hg. destruct (view_index c s es g x Hg) as (i & Hl & <- & Hx).
    destruct (view_at_live c s es i Hl) as (e & He & Hx'). rewrite Hx in Hx'. injection Hx' as ->.
    rewrite rank_lt, (Hk i e He) by done. apply (live_iff i e He) in Hl as (Hseen & _). cbn. rewrite Hseen.
    split; [by left|]. by intros [?|[_ ?]]. }
  unfold pos_seek in *. fold k in HR1 |- *. destruct (decide (k < length es)%nat) as [Hlt|Hge].
  - rewrite pos_at_lt in HR1 |- * by (by rewrite length_fmap). rewrite bool_decide_true by done.
    apply (first_view k); [by split|done|]. intros i j e e' Hj Hi He' He Hseen Heq.
    apply (Hk j e' He') in Hj as [Hj|[_ ?]]; [|congruence].
    destruct (es_ok _ _ He') as [_ Hv'], (es_ok _ _ He) as [_ Hv].
    pose proof (compare_eq_l c _ _ t Hv' Hv Ht Heq). pose proof (Hk i e He). lia.
  - rewrite pos_at_ge in HR1 |- * by (rewrite length_fmap; lia). rewrite bool_decide_false by (by intros [? ?]).
    eexists. split; [done|]. left. split_and!; [done| |exists None; by split].
    apply pos_at_ge. rewrite rank_end; lia.
Qed.

Lemma view_entry d g x : at_view d (Some g) → U !! g = Some x → DBIter_key d = Some x.1 ∧ DBIter_value d = Some x.2.
Proof.
  intros [(_ & ? & _)|(i & Hl & [= ->] & Hst)] Hx; [done|]. rewrite view_lookup in Hx by done.
  destruct (view_at_live c s es i Hl) as (e & He & Hv). rewrite Hx in Hv. injection Hv as ->. cbn [fst snd].
  unfold DBIter_key, DBIter_value. destruct Hst as [((HR & _) & -> & ->)|(k & e1 & _ & _ & He1 & _ & -> & -> & -> & ->)].
  - destruct (it_entry _ _ i (ikv e) HR (ikv_lookup _ _ _ He)) as [-> ->]. cbn [fmap option_fmap option_map ikv fst snd].
    by rewrite ikey_app, ExtractUserKey_app.
  - by assert (e1 = e) as -> by congruence.
Qed.

Lemma view_Next d g : at_view d (Some g) →
  ∃ d', DBIter_Next RecordReadSample c fuel d = Some d' ∧ at_view d' (pos_next U g).
Proof.
  intros [(_ & ? & _)|(i & Hl & [= ->] & Hst)]; [done|]. unfold pos_next. rewrite <- rank_live by done.
  destruct (view_at_live c s es i Hl) as (e & He & _).
  unfold DBIter_Next. destruct Hst as [((HR & Hrest) & -> & Hdir)|(k & e1 & (HR & Hrest) & Hki & He1 & Hno & Hk & Hv & -> & ->)];
    cbn [negb].
  - rewrite Hdir. destruct (it_entry _ _ i (ikv e) HR (ikv_lookup _ _ _ He)) as [-> _].
    destruct (it_next _ _ _ HR) as (it & -> & HR1). cbn [mbind option_bind ikv fst].
    apply (next_after (S i) i e); [done..|lia|by split|exact Hdir|].
    cbn [saved_key_ SaveKey set_saved set_iter]. by rewrite ikey_app, ExtractUserKey_app.
  - assert (e1 = e) as -> by congruence.
    assert (∃ it, (if it_Valid (dbi_iter d) then it_Next (dbi_iter d) else it_SeekToFirst (dbi_iter d)) = Some it ∧
      R it (ikv <$> es) (pos_at (ikv <$> es) k)) as (it & -> & HR1).
    { rewrite (it_valid _ _ _ HR). destruct k as [|k]; cbn [pos_prev] in *.
      - rewrite bool_decide_false by (by intros [? ?]). by eapply it_first.
      - rewrite bool_decide_true by done. by eapply it_next. }
    cbn [mbind option_bind]. apply (next_after k i e); [done|done|lia|done|by split|done|done].
Qed.

Lemma view_Prev d g : at_view d (Some g) →
  ∃ d', DBIter_Prev RecordReadSample c fuel d = Some d' ∧ at_view d' (pos_prev g).
Proof.
  intros [(_ & ? & _)|(i & Hl & [= ->] & Hst)]; [done|].
  destruct (view_at_live c s es i Hl) as (e & He & _). pose proof (lookup_lt_Some _ _ _ He) as Hlen.
  unfold DBIter_Prev. destruct Hst as [((HR & Hrest) & -> & ->)|(k & e1 & Hc & Hki & He1 & Hno & Hk & Hv & -> & Hdir)];
    cbn [negb].
  - destruct (it_entry _ _ i (ikv e) HR (ikv_lookup _ _ _ He)) as [-> _]. cbn [mbind option_bind ikv fst].
    cbn [saved_key_ SaveKey set_saved dbi_iter]. rewrite ikey_app, ExtractUserKey_app.
    destruct (leave_key_spec fuel i i e (dbi_iter d)) as (it & k & -> & HR1 & Hki & Hall); [lia|done..| |].
    { intros j' e' Hj' He'. assert (j' = i) as -> by lia. assert (e' = e) as -> by congruence.
      apply compare_refl. by eapply es_ok. }
    cbn [mbind option_bind].
    assert (rank i = rank k) as ->.
    { apply rank_unseen; [done|]. intros j e' Hj He'. apply not_true_iff_false. intros Hseen.
      pose proof (live_after j i e' e Hl ltac:(lia) He' He Hseen). rewrite (Hall j e') in *; [lia|lia|done]. }
    case_bool_decide as Hsome.
    + edestruct (FindPrev_spec k) as (d' & -> & Hpost); [by split|done|]. exists d'. split; [done|]. by apply prev_post_view.
    + eexists. split; [done|]. left. destruct k; [|by destruct Hsome]. split_and!; [done..|]. exists None. by split.
  - rewrite Hdir. rewrite (rank_unseen k i Hki Hno). edestruct (FindPrev_spec k) as (d' & -> & Hpost); [done..|].
    exists d'. split; [done|]. by apply prev_post_view.
Qed.
End at_sequence.

(** ** The view and [newest] *)

Section newest.
Context (es : list entry) (s : Z).
Hypothesis Hes : Forall (entry_ok uvalid) es.
Hypothesis Hsorted : sorted_kvs (internal_Compare icmp) (ikv <$> es).

Lemma user_view_sorted : sorted_kvs (Compare c) (user_view c s es).
Proof using Hes Hsorted ComparatorLaws0.
  apply sorted_of_lookup. intros a b x y Ha Hb Hab.
  destruct (view_index c s es a x Ha) as (i & Hli & <- & Hx), (view_index c s es b y Hb) as (j & Hlj & <- & Hy).
  destruct (view_at_live c s es i Hli) as (e & He & Hx'), (view_at_live c s es j Hlj) as (e' & He' & Hy').
  rewrite Hx in Hx'. rewrite Hy in Hy'. injection Hx' as ->. injection Hy' as ->. cbn [fst].
  rewrite (rank_lt c s es i j Hli) in Hab. destruct (proj1 (live_iff es s Hes Hsorted i e He) Hli) as (Hseen & _ & _).
  by apply (live_after es s Hes Hsorted i j e e').
Qed.

Lemma user_view_valid : Forall (λ x, uvalid x.1) (user_view c s es).
Proof using Hes.
  apply Forall_forall. intros x [g Hg]%list_elem_of_lookup. destruct (view_index c s es g x Hg) as (i & Hl & _ & Hx).
  destruct (view_at_live c s es i Hl) as (e & He & Hx'). rewrite Hx in Hx'. injection Hx' as ->.
  by apply (es_ok es Hes i e He).
Qed.

(** A visible entry after entry [i] for the same key is older, and there is none
    before a live one. *)
Lemma live_newest i e u : live c s es i = true → es !! i = Some e → uvalid u → Compare c (user_key e.1) u = 0 →
  newest c u s es = Some e.
Proof using Hes Hsorted ComparatorLaws0.
  intros Hl He Hu Heq. destruct (proj1 (live_iff es s Hes Hsorted i e He) Hl) as (Hseen & _ & Hno).
  destruct (es_ok es Hes i e He) as [_ Hv].
  apply newest_Some; [by eapply list_elem_of_lookup_2|unfold visible; rewrite Heq; done|].
  intros e' [j He']%list_elem_of_lookup [Heq'%Z.eqb_eq Hs']%andb_true_iff.
  destruct (es_ok es Hes j e' He') as [_ Hv'].
  pose proof (compare_eq_l c _ _ (user_key e'.1) Hv Hu Hv' Heq). pose proof (compare_sym c _ _ Hv' Hu).
  pose proof (compare_sym c _ _ Hv Hv').
  destruct (lt_eq_lt_dec j i) as [[Hlt| ->]|Hgt]; [|left; congruence|right].
  - specialize (Hno j e' Hlt He' Hs'). lia.
  - destruct (es_order es Hes Hsorted i j e e' Hgt He He'); lia.
Qed.

Lemma newest_live e u : newest c u s es = Some e → type e.1 = kTypeValue → uvalid u →
  Compare c (user_key e.1) u = 0 ∧ ∃ i, es !! i = Some e ∧ live c s es i = true.
Proof using Hes Hsorted ComparatorLaws0.
  intros Hn Ht Hu. pose proof (newest_max c u s es) as Hmax. rewrite Hn in Hmax.
  destruct Hmax as ([i He]%list_elem_of_lookup & [Heq%Z.eqb_eq Hseen]%andb_true_iff & Hmax). split; [done|].
  exists i. split; [done|]. destruct (es_ok es Hes i e He) as [_ Hv].
  apply (live_iff es s Hes Hsorted i e He). split_and!; [done..|]. intros j e' Hj He' Hs'.
  destruct (es_order es Hes Hsorted j i e' e Hj He' He) as [|[Heq' Htag]]; [done|exfalso].
  destruct (es_ok es Hes j e' He') as [_ Hv'].
  pose proof (compare_eq_l c _ _ u Hv' Hv Hu Heq'). specialize (Hmax e' (list_elem_of_lookup_2 _ _ _ He')).
  unfold visible in Hmax. rewrite (proj2 (Z.eqb_eq _ 0)) in Hmax by lia. specialize (Hmax Hs'). lia.
Qed.

Lemma user_view_newest u v : uvalid u →
  (∃ u', (u', v) ∈ user_view c s es ∧ Compare c u' u = 0) ↔
  (∃ e, newest c u s es = Some e ∧ type e.1 = kTypeValue ∧ e.2 = v).
Proof using Hes Hsorted ComparatorLaws0.
  intros Hu. split.
  - intros (u' & [g Hg]%list_elem_of_lookup & Heq). destruct (view_index c s es g _ Hg) as (i & Hl & _ & Hx).
    destruct (view_at_live c s es i Hl) as (e & He & Hx'). rewrite Hx in Hx'. injection Hx' as -> ->.
    exists e. split_and!; [by apply (live_newest i)| |done]. by apply (live_iff es s Hes Hsorted i e He) in Hl as (_ & ? & _).
  - intros (e & Hn & Ht & <-). destruct (newest_live e u Hn Ht Hu) as (Heq & i & He & Hl).
    exists (user_key e.1). split; [|done]. eapply list_elem_of_lookup_2. rewrite (view_lookup c s es i Hl).
    destruct (view_at_live c s es i Hl) as (e1 & He1 & ->). by assert (e1 = e) as -> by congruence.
Qed.
End newest.

(** ** The laws *)

Definition db_at (d : D) (l : list kv) (p : option nat) : Prop :=
  ∃ es s, Forall (entry_ok uvalid) es ∧ sorted_kvs (internal_Compare icmp) (ikv <$> es) ∧
    0 <= s <= kMaxSequenceNumber ∧ (length es < fuel)%nat ∧ l = user_view c s es ∧ at_view es s d p.

Lemma at_view_lt es s d i : at_view es s d (Some i) → (i < length (user_view c s es))%nat.
Proof. intros [(_ & ? & _)|(j & Hl & [= ->] & _)]; [done|]. by apply rank_below. Qed.

#[export] Instance db_laws :
  IteratorLaws (Iterator0 := db_iterator RecordReadSample c fuel) D (Compare c) uvalid db_at.
Proof.
  split; cbn [it_Valid it_SeekToFirst it_SeekToLast it_Seek it_Next it_Prev it_key it_value it_status db_iterator].
  - intros d l p (es & s & Hes & Hso & Hs & Hf & -> & Hd).
    split_and!; [by apply user_view_sorted|by apply user_view_valid|]. intros i ->. by eapply at_view_lt.
  - intros d l p (es & s & Hes & Hso & Hs & Hf & -> & Hd).
    destruct (at_view_core es s d p Hd) as [q (HR & _ & Hst & _)]. unfold DBIter_status. rewrite Hst. by eapply it_ok.
  - intros d l p (es & s & Hes & Hso & Hs & Hf & -> & Hd).
    destruct Hd as [(-> & -> & _)|(i & _ & -> & [(_ & -> & _)|(k & e & _ & _ & _ & _ & _ & _ & -> & _)])]; done.
  - intros d l i x (es & s & Hes & Hso & Hs & Hf & -> & Hd). by apply (view_entry es s).
  - intros d l p (es & s & Hes & Hso & Hs & Hf & -> & Hd).
    destruct (view_SeekToFirst es s Hes Hso Hs Hf d p Hd) as (d' & Hd' & Hat). exists d'. split; [done|]. by exists es, s.
  - intros d l p (es & s & Hes & Hso & Hs & Hf & -> & Hd).
    destruct (view_SeekToLast es s Hes Hso Hs Hf d p Hd) as (d' & Hd' & Hat). exists d'. split; [done|]. by exists es, s.
  - intros d l p t (es & s & Hes & Hso & Hs & Hf & -> & Hd) Ht.
    destruct (view_Seek es s Hes Hso Hs Hf d p t Hd Ht) as (d' & Hd' & Hat). exists d'. split; [done|]. by exists es, s.
  - intros d l i (es & s & Hes & Hso & Hs & Hf & -> & Hd).
    destruct (view_Next es s Hes Hso Hs Hf d i Hd) as (d' & Hd' & Hat). exists d'. split; [done|]. by exists es, s.
  - intros d l i (es & s & Hes & Hso & Hs & Hf & -> & Hd).
    destruct (view_Prev es s Hes Hso Hs Hf d i Hd) as (d' & Hd' & Hat). exists d'. split; [done|]. by exists es, s.
Qed.

Lemma NewDBIterator_at es s it q db seed :
  Forall (entry_ok uvalid) es → 0 <= s <= kMaxSequenceNumber → (length es < fuel)%nat →
  R it (ikv <$> es) q → db_at (NewDBIterator db it s seed) (user_view c s es) None.
Proof.
  intros Hes Hs Hfuel HR. destruct (it_wf _ _ _ HR) as (Hsorted & _ & _). exists es, s. do 5 (split; [done|]).
  left. unfold NewDBIterator, RandomCompactionPeriod. change (2 * kReadBytesPeriod) with 2097152.
  pose proof (Uniform_progress _ (Random_new_ok seed)) as Hp.
  destruct (Uniform 2097152 (Random_new seed)) as [r1 v1]. destruct (Uniform 2097152 r1) as [r2 v2].
  destruct Hp as (Hr1 & _ & Hv1 & _). split_and!; [done..|]. exists q. by split_and!.
Qed.

(** ** Claims *)

(** C26: The database iterator.  Over an internal iterator that runs through
    well-formed entries in internal key order, a new iterator at sequence [s] is
    before the user's view of them, and from any state it reaches each operation
    moves it in that view as an iterator over a sorted sequence moves, in either
    direction and across changes of direction, reports the key and value there,
    and no error.  In particular no loop runs out and no assertion fails. *)
Theorem db_iterator_view es s it q db seed :
  Forall (entry_ok uvalid) es → 0 <= s <= kMaxSequenceNumber → (length es < fuel)%nat →
  R it (ikv <$> es) q →
  let U := user_view c s es in
  db_at (NewDBIterator db it s seed) U None ∧
  ∀ d p, db_at d U p →
    DBIter_status d = Status_OK ∧ dbi_valid d = bool_decide (is_Some p) ∧
    (∃ d', DBIter_SeekToFirst RecordReadSample c fuel d = Some d' ∧ db_at d' U (pos_first U)) ∧
    (∃ d', DBIter_SeekToLast RecordReadSample c fuel d = Some d' ∧ db_at d' U (pos_last U)) ∧
    (∀ t, uvalid t → ∃ d', DBIter_Seek RecordReadSample c fuel t d = Some d' ∧
       db_at d' U (pos_seek (Compare c) t U)) ∧
    (∀ i, p = Some i → (i < length U)%nat ∧
       DBIter_key d = fst <$> U !! i ∧ DBIter_value d = snd <$> U !! i ∧
       (∃ d', DBIter_Next RecordReadSample c fuel d = Some d' ∧ db_at d' U (pos_next U i)) ∧
       (∃ d', DBIter_Prev RecordReadSample c fuel d = Some d' ∧ db_at d' U (pos_prev i))).
Proof.
  intros Hes Hs Hfuel HR U. split; [by eapply NewDBIterator_at|]. intros d p Hd. pose proof db_laws as Hlaws. split_and!.
  - exact (@it_ok _ _ _ _ _ Hlaws d U p Hd).
  - exact (@it_valid _ _ _ _ _ Hlaws d U p Hd).
  - exact (@it_first _ _ _ _ _ Hlaws d U p Hd).
  - exact (@it_last _ _ _ _ _ Hlaws d U p Hd).
  - intros t Ht. exact (@it_seek _ _ _ _ _ Hlaws d U p t Hd Ht).
  - intros i ->. destruct (@it_wf _ _ _ _ _ Hlaws d U _ Hd) as (_ & _ & Hi). specialize (Hi i eq_refl).
    destruct (lookup_lt_is_Some_2 U i Hi) as [x Hx]. rewrite Hx.
    destruct (@it_entry _ _ _ _ _ Hlaws d U i x Hd Hx) as [Hk Hv].
    split_and!; [done|exact Hk|exact Hv|exact (@it_next _ _ _ _ _ Hlaws d U i Hd)|exact (@it_prev _ _ _ _ _ Hlaws d U i Hd)].
Qed.
End proofs.

Section over_memtable.
Context {C DB : Type} `{!Comparator C} {uvalid : list byte → Prop} `{!ComparatorLaws C uvalid}.
Context (icmp : InternalKeyComparator C) (new_array : list piece → Z → Z).
Context (RecordReadSample : list byte → DB → DB) (fuel : nat).
Hypothesis Hshort : ∀ u, uvalid u → short_key u.
Notation c := (user_comparator_ icmp).

(** C25: A scan of the database agrees with [Get].  After any additions to a
    memtable with pairwise different sequence numbers, [SeekToFirst] and then
    [Next] until the end, on a database iterator at [s] over the memtable's
    iterator, produce user keys in increasing order, and a value for a key exactly
    when the newest entry of the key not newer than [s], the one [Get] finds, is
    that value and not a deletion. *)
Theorem db_scan_memtable es s (db : DB) seed :
  Forall (entry_ok uvalid) es → NoDup ((λ e : entry, sequence e.1) <$> es) →
  0 <= s <= kMaxSequenceNumber → (length es < fuel)%nat →
  ∃ m U, Add_all new_array es (MemTable_new new_array icmp) = Some m ∧
    (d ← DBIter_SeekToFirst RecordReadSample c fuel (NewDBIterator db (MemTable_NewIterator m) s seed);
     scan (Iterator0 := db_iterator RecordReadSample c fuel) fuel d) = Some U ∧
    sorted_kvs (Compare c) U ∧
    ∀ u v, uvalid u →
      (∃ u', (u', v) ∈ U ∧ Compare c u' u = 0) ↔
      (∃ e, newest c u s es = Some e ∧ type e.1 = kTypeValue ∧ e.2 = v).
Proof.
  intros Hok Hnd Hs Hfuel.
  destruct (Add_all_repr new_array es (MemTable_new new_array icmp) [] (mem_repr_new new_array icmp) Hok)
    as (m & Ha & (_ & es' & Hr & Hp) & Hc); [by rewrite app_nil_r|].
  rewrite app_nil_r, reverse_Permutation in Hp. rewrite Hc in Hr.
  assert (Forall (entry_ok uvalid) es') as Hok' by (by rewrite Hp).
  assert (mem_at icmp (MemTable_NewIterator m) (ikv <$> es') None) as Hat by (by exists es').
  pose proof (mem_laws icmp Hshort) as Hmem. pose proof (mem_sorted icmp _ _ _ Hat) as Hso.
  exists m, (user_view c s es'). split; [done|].
  pose proof (db_laws (IteratorLaws0 := Hmem) icmp RecordReadSample fuel) as Hlaws.
  assert (length es' < fuel)%nat as Hfuel' by (by rewrite Hp).
  pose proof (NewDBIterator_at (IteratorLaws0 := Hmem) icmp fuel es' s _ _ db seed Hok' Hs Hfuel' Hat) as Hd.
  split_and!; [|by apply user_view_sorted|].
  - destruct (@it_first _ _ _ _ _ Hlaws _ _ _ Hd) as (d' & Hd' & Hat'). cbn [it_SeekToFirst db_iterator] in Hd'. rewrite Hd'. cbn [mbind option_bind].
    rewrite (scan_spec (IteratorLaws0 := Hlaws) fuel d' _ 0 Hat'); [by rewrite drop_0| |lia].
    rewrite Nat.add_0_r. eapply Nat.le_lt_trans; [|exact Hfuel']. apply user_view_length.
  - intros u v Hu. rewrite (user_view_newest icmp es' s Hok' Hso u v Hu). by rewrite (newest_perm c u s es es' Hok Hnd).
Qed.
End over_memtable.

(** [mem_example] in internal key order. *)
Definition sorted_example : list entry :=
  [({| user_key := str "j"; sequence := 8; type := kTypeValue |}, str "other");
   ({| user_key := str "k"; sequence := 9; type := kTypeDeletion |}, []);
   ({| user_key := str "k"; sequence := 7; type := kTypeValue |}, str "old")].

Definition bytewise_icmp : InternalKeyComparator BytewiseComparatorImpl := {| user_comparator_ := BytewiseComparator |}.

Lemma db_iterator_view_witness :
  let it := {| li_entries := ikv <$> sorted_example; li_pos := None |} in
  let ops := list_iterator (internal_Compare bytewise_icmp) in
  let d := NewDBIterator (I := ListIter) tt it 8 301 in
  ∃ d1 d2 d3, DBIter_Seek (Iterator0 := ops) (λ _ db, db) BytewiseComparator 4 (str "k") d = Some d1 ∧
    DBIter_key (Iterator0 := ops) d1 = Some (str "k") ∧
    DBIter_Prev (Iterator0 := ops) (λ _ db, db) BytewiseComparator 4 d1 = Some d2 ∧
    DBIter_value (Iterator0 := ops) d2 = Some (str "other") ∧
    DBIter_Next (Iterator0 := ops) (λ _ db, db) BytewiseComparator 4 d2 = Some d3 ∧
    DBIter_value (Iterator0 := ops) d3 = Some (str "old").
Proof.
  intros it ops d. pose proof (list_laws (internal_Compare bytewise_icmp) (valid_key (λ _, True))) as Hlaws.
  destruct (db_iterator_view (Iterator0 := ops) (IteratorLaws0 := Hlaws) bytewise_icmp (λ _ (db : unit), db) 4 sorted_example 8
    it None tt 301) as (Hd & Hops).
  - repeat constructor; done.
  - vm_compute. split; discriminate.
  - vm_compute. lia.
  - split_and!; [done|repeat constructor|repeat constructor; vm_compute; lia|done].
  - destruct (Hops d None Hd) as (_ & _ & _ & _ & Hseek & _).
    destruct (Hseek (str "k") I) as (d1 & Hd1 & Hat1). destruct (Hops d1 _ Hat1) as (_ & _ & _ & _ & _ & H1).
    destruct (H1 1%nat eq_refl) as (_ & Hk1 & _ & _ & d2 & Hd2 & Hat2).
    destruct (Hops d2 _ Hat2) as (_ & _ & _ & _ & _ & H2).
    destruct (H2 0%nat eq_refl) as (_ & _ & Hv2 & (d3 & Hd3 & Hat3) & _).
    destruct (Hops d3 _ Hat3) as (_ & _ & _ & _ & _ & H3).
    destruct (H3 1%nat eq_refl) as (_ & _ & Hv3 & _).
    exists d1, d2, d3. by split_and!.
Defined.

Lemma db_scan_memtable_witness :
  ∃ m, Add_all linear_new mem_example (MemTable_new linear_new bytewise_icmp) = Some m ∧
    (d ← DBIter_SeekToFirst (λ _ db, db) BytewiseComparator 4 (NewDBIterator tt (MemTable_NewIterator m) 9 301);
     scan (Iterator0 := db_iterator (λ _ db, db) BytewiseComparator 4) 4 d) = Some [(str "j", str "other")].
Proof.
  destruct (db_scan_memtable (ComparatorLaws0 := bytewise_short_laws) bytewise_icmp linear_new (λ _ (db : unit), db) 4 (λ _ H, H)
    mem_example 9 tt 301) as (m & U & Hm & Hscan & _).
  - repeat constructor; done.
  - apply (bool_decide_unpack _). vm_compute. exact I.
  - vm_compute. split; discriminate.
  - vm_compute. lia.
  - exists m. split; [done|]. cbn [user_comparator_ bytewise_icmp] in Hscan.
    assert ((m ← Add_all linear_new mem_example (MemTable_new linear_new bytewise_icmp);
      d ← DBIter_SeekToFirst (λ _ (db : unit), db) BytewiseComparator 4 (NewDBIterator tt (MemTable_NewIterator m) 9 301);
      scan (Iterator0 := db_iterator (λ _ (db : unit), db) BytewiseComparator 4) 4 d) = Some [(str "j", str "other")]) as Hrun
      by (vm_compute; reflexivity).
    rewrite Hm in Hrun. exact Hrun.
Defined.
