(* ===== verification/Block.v ===== *)
(** Blocks (table/block_builder.cc, table/block.cc): a sequence of entries with
    prefix-compressed keys and restart points, and the iterator over it. *)
From stdpp Require Import sorting.
From S2P Require Import Prelude Coding Comparator Env Iterator.

(** ** Building *)

Record BlockBuilder := {
  bb_buffer : list byte;
  bb_restarts : list Z;
  bb_counter : Z;
  bb_finished : bool;
  bb_last_key : list byte;
}.

Definition BlockBuilder_Reset : BlockBuilder :=
  {| bb_buffer := []; bb_restarts := [0]; bb_counter := 0; bb_finished := false; bb_last_key := [] |}.

(** Asserts that the interval is positive. *)
Definition BlockBuilder_new (block_restart_interval : Z) : option BlockBuilder :=
  if 1 <=? block_restart_interval then Some BlockBuilder_Reset else None.

Definition BlockBuilder_empty (b : BlockBuilder) : bool :=
  match bb_buffer b with [] => true | _ => false end.

Definition CurrentSizeEstimate (b : BlockBuilder) : Z :=
  Z.of_nat (length (bb_buffer b)) + Z.of_nat (length (bb_restarts b)) * 4 + 4.

Definition BlockBuilder_Finish (b : BlockBuilder) : BlockBuilder * list byte :=
  let buffer := foldl PutFixed32 (bb_buffer b) (bb_restarts b) in
  let buffer := PutFixed32 buffer (u32 (Z.of_nat (length (bb_restarts b)))) in
  ({| bb_buffer := buffer; bb_restarts := bb_restarts b; bb_counter := bb_counter b;
      bb_finished := true; bb_last_key := bb_last_key b |}, buffer).

Definition BlockBuilder_Add {C : Type} `{!Comparator C} (c : C) (block_restart_interval : Z)
    (key value : list byte) (b : BlockBuilder) : option BlockBuilder :=
  if bb_finished b then None else
  if block_restart_interval <? bb_counter b then None else
  if negb (BlockBuilder_empty b) && (Compare c key (bb_last_key b) <=? 0) then None else
  let '(shared, restarts, counter) :=
    if bb_counter b <? block_restart_interval
    then (common_prefix (bb_last_key b) key, bb_restarts b, bb_counter b)
    else (0%nat, bb_restarts b ++ [u32 (Z.of_nat (length (bb_buffer b)))], 0) in
  let non_shared := (length key - shared)%nat in
  let buffer := PutVarint32 (bb_buffer b) (u32 (Z.of_nat shared)) in
  let buffer := PutVarint32 buffer (u32 (Z.of_nat non_shared)) in
  let buffer := PutVarint32 buffer (u32 (Z.of_nat (length value))) in
  let buffer := buffer ++ drop shared key ++ value in
  let last_key := take shared (bb_last_key b) ++ drop shared key in
  if bool_decide (last_key = key)
  then Some {| bb_buffer := buffer; bb_restarts := restarts; bb_counter := counter + 1;
               bb_finished := bb_finished b; bb_last_key := last_key |}
  else None.

(** ** Blocks *)

(** [size_] is 0 when the contents are bad; [restart_offset_] is set otherwise. *)
Record Block := { blk_data : list byte; blk_size : Z; restart_offset_ : Z }.

Definition NumRestarts (data : list byte) (size : Z) : option Z :=
  if size <? 4 then None else DecodeFixed32 (drop (Z.to_nat (size - 4)) data).

Definition Block_new (contents : list byte) : option Block :=
  let size := Z.of_nat (length contents) in
  let bad := {| blk_data := contents; blk_size := 0; restart_offset_ := 0 |} in
  if size <? 4 then Some bad else
  n ← NumRestarts contents size;
  if (size - 4) / 4 <? n then Some bad
  else Some {| blk_data := contents; blk_size := size; restart_offset_ := u32 (size - (1 + n) * 4) |}.

(** [p] is the memory from the pointer to the limit; the result has the memory
    from the returned pointer on. *)
Definition DecodeEntry (p : list byte) : option (Z * Z * Z * list byte) :=
  match p with
  | b0 :: b1 :: b2 :: r =>
      '(shared, non_shared, value_length, p) ←
        (if Z.lor (Z.lor (u8 b0) (u8 b1)) (u8 b2) <? 128
         then Some (u8 b0, u8 b1, u8 b2, r)
         else '(shared, p) ← GetVarint32Ptr p;
              '(non_shared, p) ← GetVarint32Ptr p;
              '(value_length, p) ← GetVarint32Ptr p;
              Some (shared, non_shared, value_length, p));
      if u32 (Z.of_nat (length p)) <? u32 (non_shared + value_length) then None
      else Some (shared, non_shared, value_length, p)
  | _ => None
  end.

Section block.
Context {C : Type} `{!Comparator C} (comparator : C).

(** [bi_value] is the slice's offset in the data and its size; [None] when it
    does not point into the data. *)
Record BlockIter := {
  bi_data : list byte;
  bi_restarts : Z;
  bi_num_restarts : nat;
  bi_current : Z;
  bi_restart_index : nat;
  bi_key : list byte;
  bi_value : option (Z * Z);
  bi_status : Status;
}.
Implicit Types it : BlockIter.

(** The constructor asserts that there are restart points. *)
Definition BlockIter_new (data : list byte) (restarts : Z) (num_restarts : nat) : option BlockIter :=
  if (0 <? num_restarts)%nat
  then Some {| bi_data := data; bi_restarts := restarts; bi_num_restarts := num_restarts;
               bi_current := restarts; bi_restart_index := num_restarts; bi_key := []; bi_value := None;
               bi_status := Status_OK |}
  else None.

Definition bi_set (current : Z) (restart_index : nat) (key : list byte) (value : option (Z * Z)) (status : Status)
    it : BlockIter :=
  {| bi_data := bi_data it; bi_restarts := bi_restarts it; bi_num_restarts := bi_num_restarts it;
     bi_current := current; bi_restart_index := restart_index; bi_key := key; bi_value := value; bi_status := status |}.

Definition BlockIter_Valid it : bool := bi_current it <? bi_restarts it.

Definition NextEntryOffset it : option Z := '(off, len) ← bi_value it; Some (u32 (off + len)).

Definition GetRestartPoint it (index : nat) : option Z :=
  if (index <? bi_num_restarts it)%nat
  then DecodeFixed32 (drop (Z.to_nat (bi_restarts it) + index * 4) (bi_data it)) else None.

Definition SeekToRestartPoint (index : nat) it : option BlockIter :=
  offset ← GetRestartPoint it index;
  Some (bi_set (bi_current it) index [] (Some (offset, 0)) (bi_status it) it).

Definition CorruptionError it : BlockIter :=
  bi_set (bi_restarts it) (bi_num_restarts it) [] None (Corruption (str "bad entry in block")) it.

(** The end of the entries: key, value and status stay. *)
Definition bi_end it : BlockIter :=
  bi_set (bi_restarts it) (bi_num_restarts it) (bi_key it) (bi_value it) (bi_status it) it.

(** [while (restart_index_ + 1 < num_restarts_ && ...)]. *)
Fixpoint advance_restart (n : nat) it (current : Z) (r : nat) : option nat :=
  match n with
  | O => None
  | S n =>
      if (r + 1 <? bi_num_restarts it)%nat
      then p ← GetRestartPoint it (r + 1);
           if p <? current then advance_restart n it current (r + 1)%nat else Some r
      else Some r
  end.

(** Undefined when the key's bytes are not in the block. *)
Definition ParseNextKey it : option (bool * BlockIter) :=
  current ← NextEntryOffset it;
  if bi_restarts it <=? current then Some (false, bi_end it) else
  match DecodeEntry (drop (Z.to_nat current) (take (Z.to_nat (bi_restarts it)) (bi_data it))) with
  | None => Some (false, CorruptionError it)
  | Some (shared, non_shared, value_length, p) =>
      if Z.of_nat (length (bi_key it)) <? shared then Some (false, CorruptionError it) else
      let off := bi_restarts it - Z.of_nat (length p) in
      if Z.of_nat (length (bi_data it)) <? off + non_shared then None else
      let key := take (Z.to_nat shared) (bi_key it) ++ take (Z.to_nat non_shared) (drop (Z.to_nat off) (bi_data it)) in
      r ← advance_restart (bi_num_restarts it) it current (bi_restart_index it);
      Some (true, bi_set current r key (Some (off + non_shared, value_length)) (bi_status it) it)
  end.

(** [do {} while (ParseNextKey() && NextEntryOffset() < original)], also the loop
    of [SeekToLast]. *)
Fixpoint parse_until (n : nat) (original : Z) it : option BlockIter :=
  match n with
  | O => None
  | S n =>
      '(more, it) ← ParseNextKey it;
      if more : bool
      then next ← NextEntryOffset it;
           if next <? original then parse_until n original it else Some it
      else Some it
  end.

(** An entry takes at least one byte. *)
Definition bi_fuel it : nat := S (length (bi_data it)).

Definition BlockIter_Next it : option BlockIter :=
  if BlockIter_Valid it then '(_, it) ← ParseNextKey it; Some it else None.

(** The restart point before [original]; [None] inside when there is none. *)
Fixpoint restart_before it (original : Z) (r : nat) : option (option nat) :=
  p ← GetRestartPoint it r;
  if original <=? p
  then match r with
       | O => Some None
       | S r => restart_before it original r
       end
  else Some (Some r).

Definition BlockIter_Prev it : option BlockIter :=
  if negb (BlockIter_Valid it) then None else
  let original := bi_current it in
  r ← restart_before it original (bi_restart_index it);
  match r with
  | None => Some (bi_end it)
  | Some r => it ← SeekToRestartPoint r it; parse_until (bi_fuel it) original it
  end.

(** The binary search; [inl] is a corruption. *)
Fixpoint seek_restart (n : nat) it (target : list byte) (l r : nat) : option (unit + nat) :=
  if (l <? r)%nat
  then match n with
       | O => None
       | S n =>
           let mid := Z.to_nat (u32 (Z.of_nat (l + r + 1)) / 2) in
           region_offset ← GetRestartPoint it mid;
           match DecodeEntry (drop (Z.to_nat region_offset) (take (Z.to_nat (bi_restarts it)) (bi_data it))) with
           | None => Some (inl tt)
           | Some (shared, non_shared, _, p) =>
               if negb (shared =? 0) then Some (inl tt) else
               let off := bi_restarts it - Z.of_nat (length p) in
               if Z.of_nat (length (bi_data it)) <? off + non_shared then None else
               let mid_key := take (Z.to_nat non_shared) (drop (Z.to_nat off) (bi_data it)) in
               if Compare comparator mid_key target <? 0
               then seek_restart n it target mid r
               else seek_restart n it target l (mid - 1)
           end
       end
  else Some (inr l).

Fixpoint seek_linear (n : nat) (target : list byte) it : option BlockIter :=
  match n with
  | O => None
  | S n =>
      '(more, it) ← ParseNextKey it;
      if more : bool
      then if 0 <=? Compare comparator (bi_key it) target then Some it else seek_linear n target it
      else Some it
  end.

Definition BlockIter_Seek (target : list byte) it : option BlockIter :=
  let current_key_compare := if BlockIter_Valid it then Compare comparator (bi_key it) target else 0 in
  if BlockIter_Valid it && (current_key_compare =? 0) then Some it else
  let l := if current_key_compare <? 0 then bi_restart_index it else 0%nat in
  let r := if 0 <? current_key_compare then bi_restart_index it else (bi_num_restarts it - 1)%nat in
  found ← seek_restart (bi_num_restarts it) it target l r;
  match found with
  | inl _ => Some (CorruptionError it)
  | inr l =>
      let skip_seek := (l =? bi_restart_index it)%nat && (current_key_compare <? 0) in
      it ← (if skip_seek then Some it else SeekToRestartPoint l it);
      seek_linear (bi_fuel it) target it
  end.

Definition BlockIter_SeekToFirst it : option BlockIter :=
  it ← SeekToRestartPoint 0 it; '(_, it) ← ParseNextKey it; Some it.

Definition BlockIter_SeekToLast it : option BlockIter :=
  it ← SeekToRestartPoint (bi_num_restarts it - 1) it; parse_until (bi_fuel it) (bi_restarts it) it.

Definition BlockIter_value it : option (list byte) :=
  if BlockIter_Valid it
  then '(off, len) ← bi_value it;
       if off + len <=? Z.of_nat (length (bi_data it))
       then Some (take (Z.to_nat len) (drop (Z.to_nat off) (bi_data it))) else None
  else None.

#[export] Instance block_iterator : Iterator BlockIter := {|
  it_Valid := BlockIter_Valid;
  it_SeekToFirst := BlockIter_SeekToFirst;
  it_SeekToLast := BlockIter_SeekToLast;
  it_Seek := BlockIter_Seek;
  it_Next := BlockIter_Next;
  it_Prev := BlockIter_Prev;
  it_key it := if BlockIter_Valid it then Some (bi_key it) else None;
  it_value := BlockIter_value;
  it_status := bi_status;
|}.

Definition Block_NewIterator (b : Block) : option (EmptyIterator + BlockIter) :=
  if blk_size b <? 4 then Some (inl (NewErrorIterator (Corruption (str "bad block contents")))) else
  n ← NumRestarts (blk_data b) (blk_size b);
  if n =? 0 then Some (inl NewEmptyIterator)
  else inr <$> BlockIter_new (blk_data b) (restart_offset_ b) (Z.to_nat n).
End block.

(** ** The layout of a block *)

(** An entry with the number of key bytes it shares with the entry before. *)
Notation item := (list byte * list byte * nat)%type (only parsing).

Definition enc (x : item) : list byte :=
  EncodeVarint32 (Z.of_nat x.2) ++ EncodeVarint32 (Z.of_nat (length x.1.1 - x.2)) ++
  EncodeVarint32 (Z.of_nat (length x.1.2)) ++ drop x.2 x.1.1 ++ x.1.2.

Definition body (xs : list item) : list byte := xs ≫= enc.

(** Where entry [i] starts. *)
Definition offset (xs : list item) (i : nat) : nat := length (body (take i xs)).

Record layout (xs : list item) (rs : list nat) (data : list byte) : Prop := {
  ly_data : data = body xs ++ (rs ≫= λ i, EncodeFixed32 (Z.of_nat (offset xs i))) ++ EncodeFixed32 (Z.of_nat (length rs));
  ly_size : Z.of_nat (length data) < 2 ^ 32;
  ly_first : rs !! 0%nat = Some 0%nat;
  ly_sorted : StronglySorted lt rs;
  ly_range r i : rs !! r = Some i → i = 0%nat ∨ (i < length xs)%nat;
  ly_restart r i x : rs !! r = Some i → xs !! i = Some x → x.2 = 0%nat;
  ly_shared i x : xs !! i = Some x → (x.2 ≤ length x.1.1)%nat ∧ Z.of_nat (length x.1.1) < 2 ^ 32;
  ly_prefix i x y : xs !! i = Some x → xs !! S i = Some y → (y.2 ≤ length x.1.1)%nat ∧ take y.2 x.1.1 = take y.2 y.1.1;
}.

Lemma body_app xs ys : body (xs ++ ys) = body xs ++ body ys.
Proof. apply bind_app. Qed.

Lemma body_split xs i : body xs = body (take i xs) ++ body (drop i xs).
Proof. by rewrite <- body_app, take_drop. Qed.

Lemma drop_offset xs i : drop (offset xs i) (body xs) = body (drop i xs).
Proof. rewrite (body_split xs i). apply drop_app_length. Qed.

Lemma offset_S xs i x : xs !! i = Some x → offset xs (S i) = (offset xs i + length (enc x))%nat.
Proof.
  intros Hi. unfold offset. rewrite (take_S_r _ _ _ Hi), body_app, length_app. cbn. by rewrite app_nil_r.
Qed.

Lemma offset_le xs i : (offset xs i ≤ length (body xs))%nat.
Proof. unfold offset. rewrite (body_split xs i), length_app. lia. Qed.

Lemma offset_end xs : offset xs (length xs) = length (body xs).
Proof. unfold offset. by rewrite take_ge. Qed.

Lemma length_enc x : (3 + (length x.1.1 - x.2) + length x.1.2 ≤ length (enc x) ≤ 15 + (length x.1.1 - x.2) + length x.1.2)%nat.
Proof.
  unfold enc. rewrite !length_app, length_drop.
  pose proof (length_EncodeVarint32 (Z.of_nat x.2)). pose proof (length_EncodeVarint32 (Z.of_nat (length x.1.1 - x.2))).
  pose proof (length_EncodeVarint32 (Z.of_nat (length x.1.2))). lia.
Qed.

Lemma offset_lt xs i j x : xs !! i = Some x → (i < j)%nat → (offset xs i + length (enc x) ≤ offset xs j)%nat.
Proof.
  intros Hi Hij. rewrite <- (offset_S xs i x Hi). unfold offset.
  replace (take (S i) xs) with (take (S i) (take j xs)) by (rewrite take_take; f_equal; lia).
  rewrite (body_split (take j xs) (S i)), length_app. lia.
Qed.

Lemma offset_mono xs i j : (i ≤ j)%nat → (offset xs i ≤ offset xs j)%nat.
Proof.
  intros Hij. destruct (xs !! i) as [x|] eqn:Hi.
  - destruct (decide (i = j)) as [->|]; [done|]. pose proof (offset_lt xs i j x Hi ltac:(lia)). lia.
  - apply lookup_ge_None in Hi. unfold offset. rewrite !take_ge by lia. done.
Qed.

(** ** [DecodeEntry]: the fast path agrees with the varint reader *)

Lemma GetVarint32Ptr_byte b r : u8 b < 128 → GetVarint32Ptr (b :: r) = Some (u8 b, r).
Proof. intros Hb. unfold GetVarint32Ptr. pose proof (u8_range b). by rewrite last_flag by lia. Qed.

Lemma lor_lt_128 a b : 0 <= a → 0 <= b → Z.lor a b < 128 → a < 128 ∧ b < 128.
Proof.
  intros Ha Hb Hl. pose proof (Z.log2_lor a b Ha Hb) as Hlog.
  destruct (decide (Z.lor a b = 0)) as [[-> ->]%Z.lor_eq_0_iff|Hne]; [lia|].
  pose proof (Z.lor_nonneg a b). assert (Z.log2 (Z.lor a b) < 7) as H7 by (apply Z.log2_lt_pow2; lia).
  rewrite Hlog in H7. split.
  - destruct (decide (a = 0)); [lia|]. apply (Z.log2_lt_pow2 a 7); lia.
  - destruct (decide (b = 0)); [lia|]. apply (Z.log2_lt_pow2 b 7); lia.
Qed.

Definition DecodeEntry_slow (p : list byte) : option (Z * Z * Z * list byte) :=
  '(shared, p) ← GetVarint32Ptr p;
  '(non_shared, p) ← GetVarint32Ptr p;
  '(value_length, p) ← GetVarint32Ptr p;
  if u32 (Z.of_nat (length p)) <? u32 (non_shared + value_length) then None
  else Some (shared, non_shared, value_length, p).

Lemma DecodeEntry_eq p : (3 ≤ length p)%nat → DecodeEntry p = DecodeEntry_slow p.
Proof.
  intros Hp. destruct p as [|b0 [|b1 [|b2 r]]]; cbn in Hp; [lia..|]. unfold DecodeEntry, DecodeEntry_slow.
  pose proof (u8_range b0). pose proof (u8_range b1). pose proof (u8_range b2).
  destruct (Z.ltb_spec (Z.lor (Z.lor (u8 b0) (u8 b1)) (u8 b2)) 128) as [Hlt|_].
  - apply lor_lt_128 in Hlt as [Hlt Hb2]; [|apply Z.lor_nonneg; lia|lia]. apply lor_lt_128 in Hlt as [Hb0 Hb1]; [|lia..].
    do 3 (rewrite GetVarint32Ptr_byte by done; cbn [mbind option_bind]). done.
  - destruct (GetVarint32Ptr (b0 :: b1 :: b2 :: r)) as [[s1 p1]|]; [|done]. cbn [mbind option_bind].
    destruct (GetVarint32Ptr p1) as [[s2 p2]|]; [|done]. cbn [mbind option_bind].
    by destruct (GetVarint32Ptr p2) as [[s3 p3]|].
Qed.

Lemma DecodeEntry_enc x r :
  Z.of_nat (length (enc x ++ r)) < 2 ^ 32 → (x.2 ≤ length x.1.1)%nat → Z.of_nat (length x.1.1) < 2 ^ 32 →
  DecodeEntry (enc x ++ r) =
  Some (Z.of_nat x.2, Z.of_nat (length x.1.1 - x.2), Z.of_nat (length x.1.2), drop x.2 x.1.1 ++ x.1.2 ++ r).
Proof.
  intros Hs Hx Hk. pose proof (length_enc x). rewrite length_app in Hs.
  rewrite DecodeEntry_eq by (rewrite length_app; lia). unfold DecodeEntry_slow, enc. rewrite <- !app_assoc.
  change GetVarint32Ptr with GetVarint32.
  rewrite GetVarint32_Put by lia. cbn [mbind option_bind]. rewrite GetVarint32_Put by lia. cbn [mbind option_bind].
  rewrite GetVarint32_Put by lia. cbn [mbind option_bind].
  rewrite !length_app, length_drop, !u32_small by lia. by rewrite (proj2 (Z.ltb_ge _ _)) by lia.
Qed.

Section block_proofs.
Context {C : Type} `{!Comparator C} (c : C) {valid : list byte → Prop} `{!KeyOrder (Compare c) valid}.

Section layout.
Context (xs : list item) (rs : list nat) (data : list byte) (Hly : layout xs rs data).
Implicit Types it : BlockIter.
Notation off i := (Z.of_nat (offset xs i)).

Definition bi_ok it : Prop :=
  bi_data it = data ∧ bi_restarts it = Z.of_nat (length (body xs)) ∧ bi_num_restarts it = length rs ∧ bi_status it = Status_OK.

Lemma data_length : length data = (length (body xs) + 4 * length rs + 4)%nat.
Proof using Hly.
  rewrite (ly_data _ _ _ Hly), !length_app, (length_rows _ 4) by (intros; apply length_EncodeFixed32).
  rewrite length_EncodeFixed32. lia.
Qed.

Lemma off_small i : 0 <= off i < 2 ^ 32.
Proof using Hly.
  pose proof (offset_le xs i). pose proof data_length. pose proof (ly_size _ _ _ Hly). lia.
Qed.

Lemma GetRestartPoint_spec it r i : bi_ok it → rs !! r = Some i → GetRestartPoint it r = Some (off i).
Proof using Hly.
  intros (Hd & Hr & Hn & _) Hi. unfold GetRestartPoint. pose proof (lookup_lt_Some _ _ _ Hi) as Hlt.
  rewrite Hn, (proj2 (Nat.ltb_lt _ _)), Hr, Hd, Nat2Z.id by done.
  rewrite (ly_data _ _ _ Hly), drop_app_add, Nat.mul_comm, drop_app_le
    by (rewrite (length_rows _ 4) by (intros; apply length_EncodeFixed32); lia).
  rewrite (drop_rows _ 4) by (intros; apply length_EncodeFixed32). rewrite (drop_S _ _ _ Hi). cbn [mbind list_bind].
  rewrite <- app_assoc, Decode_EncodeFixed32, u32_small; [done|apply off_small].
Qed.

(** Ready to parse entry [i]. *)
Definition ready it (i : nat) : Prop :=
  bi_ok it ∧ (i ≤ length xs)%nat ∧ (∃ o n, bi_value it = Some (o, n) ∧ o + n = off i) ∧
  (∀ y, xs !! i = Some y → (y.2 ≤ length (bi_key it))%nat ∧ take y.2 (bi_key it) = take y.2 y.1.1) ∧
  ∃ k, rs !! bi_restart_index it = Some k ∧ (k ≤ i)%nat.

Definition at_item it (i : nat) : Prop :=
  bi_ok it ∧ ∃ x, xs !! i = Some x ∧ bi_current it = off i ∧ bi_key it = x.1.1 ∧
    bi_value it = Some (off (S i) - Z.of_nat (length x.1.2), Z.of_nat (length x.1.2)) ∧
    ∃ k, rs !! bi_restart_index it = Some k ∧ (k ≤ i)%nat.

Definition at_end it : Prop := bi_ok it ∧ bi_current it = bi_restarts it.

Lemma at_item_ready it i : at_item it i → ready it (S i).
Proof using Hly.
  intros (Hok & x & Hx & _ & Hk & Hv & k & Hr & Hle). split; [done|]. pose proof (lookup_lt_Some _ _ _ Hx).
  split; [lia|]. split; [|split].
  - eexists _, _. split; [exact Hv|]. lia.
  - intros y Hy. rewrite Hk. by apply (ly_prefix _ _ _ Hly i x y).
  - exists k. split; [done|lia].
Qed.

Lemma advance_restart_spec n it i r k :
  bi_ok it → rs !! r = Some k → (k ≤ i)%nat → (length rs ≤ n + r)%nat → (i < length xs)%nat →
  ∃ r' k', advance_restart n it (off i) r = Some r' ∧ rs !! r' = Some k' ∧ (k' ≤ i)%nat.
Proof using Hly.
  intros Hok. revert r k; induction n as [|n IH]; intros r k Hr Hk Hn Hi.
  { apply lookup_lt_Some in Hr. lia. }
  cbn [advance_restart]. pose proof Hok as (_ & _ & -> & _).
  destruct (Nat.ltb_spec (r + 1) (length rs)) as [Hlt|]; [|by exists r, k].
  destruct (lookup_lt_is_Some_2 rs (r + 1) Hlt) as [k1 Hk1].
  rewrite (GetRestartPoint_spec it _ k1 Hok Hk1). cbn [mbind option_bind].
  destruct (Z.ltb_spec (off k1) (off i)) as [Ho|]; [|by exists r, k].
  apply (IH (r + 1)%nat k1); [done| |lia|done].
  destruct (decide (k1 ≤ i)%nat); [done|]. pose proof (offset_mono xs i k1 ltac:(lia)). lia.
Qed.

(** The memory of an entry. *)
Lemma data_at i x : xs !! i = Some x →
  drop (offset xs i) (take (length (body xs)) data) = enc x ++ body (drop (S i) xs).
Proof using Hly.
  intros Hx. rewrite (ly_data _ _ _ Hly), take_app_length, drop_offset, (drop_S _ _ _ Hx). done.
Qed.

Lemma item_small i x : xs !! i = Some x →
  Z.of_nat (length (enc x ++ body (drop (S i) xs))) < 2 ^ 32 ∧ (x.2 ≤ length x.1.1)%nat ∧ Z.of_nat (length x.1.1) < 2 ^ 32.
Proof using Hly.
  intros Hx. split; [|by apply (ly_shared _ _ _ Hly i)].
  rewrite <- (data_at i x Hx), length_drop, length_take. pose proof (ly_size _ _ _ Hly). lia.
Qed.

(** The key bytes and the value in the whole block. *)
Lemma data_parts i x : xs !! i = Some x →
  ∃ pre post, data = pre ++ drop x.2 x.1.1 ++ x.1.2 ++ post ∧
    (length pre + length (drop x.2 x.1.1 ++ x.1.2 ++ body (drop (S i) xs)) = length (body xs))%nat ∧
    (length pre + (length x.1.1 - x.2) + length x.1.2 = offset xs (S i))%nat.
Proof using Hly.
  intros Hx. set (hd := EncodeVarint32 (Z.of_nat x.2) ++ EncodeVarint32 (Z.of_nat (length x.1.1 - x.2)) ++
    EncodeVarint32 (Z.of_nat (length x.1.2))).
  assert (enc x = hd ++ drop x.2 x.1.1 ++ x.1.2) as He by (unfold hd, enc; by rewrite <- !app_assoc).
  assert (body xs = (body (take i xs) ++ hd) ++ drop x.2 x.1.1 ++ x.1.2 ++ body (drop (S i) xs)) as Hb.
  { rewrite (body_split xs i) at 1. rewrite (drop_S _ _ _ Hx). unfold body at 2. cbn [mbind list_bind]. rewrite He.
    by rewrite <- !app_assoc. }
  exists (body (take i xs) ++ hd). eexists. split_and!.
  - rewrite (ly_data _ _ _ Hly), Hb at 1. rewrite <- !app_assoc. reflexivity.
  - rewrite Hb. by rewrite (length_app (_ ++ hd)).
  - rewrite (offset_S _ _ _ Hx), He. unfold offset. rewrite !length_app, length_drop. lia.
Qed.

Lemma ParseNextKey_spec it i : ready it i →
  ∃ it', ParseNextKey it = Some (bool_decide (i < length xs)%nat, it') ∧
    (if decide (i < length xs)%nat then at_item it' i else at_end it').
Proof using Hly.
  intros (Hok & Hi & (o & n & Hv & Hon) & Hshare & k & Hr & Hk). pose proof Hok as (Hd & Hrs & Hn & Hst).
  pose proof (off_small i) as Hsm. unfold ParseNextKey, NextEntryOffset. rewrite Hv. cbn [mbind option_bind].
  rewrite Hon, u32_small, Hrs by done. destruct (decide (i < length xs)%nat) as [Hlt|Hge].
  2:{ rewrite bool_decide_false by done. assert (i = length xs) as -> by lia. rewrite offset_end.
      rewrite (proj2 (Z.leb_le _ _)) by lia. eexists. split; [done|]. by split. }
  rewrite bool_decide_true by done. destruct (lookup_lt_is_Some_2 xs i Hlt) as [x Hx].
  pose proof (offset_lt xs i (length xs) x Hx Hlt) as Hol. rewrite offset_end in Hol. pose proof (length_enc x).
  rewrite (proj2 (Z.leb_gt _ _)) by lia. rewrite Hd, !Nat2Z.id, (data_at i x Hx).
  destruct (item_small i x Hx) as (H1 & H2 & H3). rewrite (DecodeEntry_enc x _ H1 H2 H3).
  destruct (Hshare x Hx) as [Hs1 Hs2]. rewrite (proj2 (Z.ltb_ge _ _)) by lia. cbv zeta.
  destruct (data_parts i x Hx) as (pre & post & Hdata & Hlen & Hend).
  replace (Z.of_nat (length (body xs)) - Z.of_nat (length (drop x.2 x.1.1 ++ x.1.2 ++ body (drop (S i) xs))))
    with (Z.of_nat (length pre)) by lia.
  rewrite (proj2 (Z.ltb_ge (Z.of_nat (length data)) _)) by (rewrite Hdata, !length_app, length_drop; lia).
  rewrite Hn. destruct (advance_restart_spec (length rs) it i (bi_restart_index it) k Hok Hr Hk ltac:(lia) Hlt)
    as (r' & k' & -> & Hr' & Hk'). cbn [mbind option_bind].
  eexists. split; [done|]. split; [by split_and!|]. exists x.
  cbn [bi_set bi_current bi_key bi_value bi_restart_index]. split_and!; [done|done| | |by exists k'].
  - rewrite !Nat2Z.id, Hs2. rewrite Hdata, drop_app_length.
    rewrite take_app_le by (rewrite length_drop; lia). rewrite (take_ge (drop x.2 x.1.1)) by (rewrite length_drop; lia). apply take_drop.
  - do 2 f_equal. lia.
Qed.

Lemma SeekToRestartPoint_spec it r k : bi_ok it → rs !! r = Some k →
  ∃ it', SeekToRestartPoint r it = Some it' ∧ ready it' k ∧ bi_fuel it' = S (length data).
Proof using Hly.
  intros Hok Hr. unfold SeekToRestartPoint. rewrite (GetRestartPoint_spec it r k Hok Hr). cbn [mbind option_bind].
  eexists. split; [done|]. pose proof Hok as (Hd & _). split; [|unfold bi_fuel; cbn; by rewrite Hd].
  split; [done|]. split_and!.
  - destruct (ly_range _ _ _ Hly r k Hr); lia.
  - eexists _, _. split; [done|]. lia.
  - intros y Hy. rewrite (ly_restart _ _ _ Hly r k y Hr Hy). cbn. by split; [lia|].
  - by exists k.
Qed.

Lemma count_small i : (i ≤ length xs)%nat → (i ≤ offset xs i)%nat.
Proof.
  induction i as [|i IH]; intros Hi; [lia|]. destruct (lookup_lt_is_Some_2 xs i Hi) as [x Hx].
  rewrite (offset_S _ _ _ Hx). pose proof (length_enc x). lia.
Qed.

Lemma parse_until_spec n it i m : ready it i → (i < m ≤ length xs)%nat → (m < n + i)%nat →
  ∃ it', parse_until n (off m) it = Some it' ∧ at_item it' (m - 1).
Proof using Hly.
  revert it i; induction n as [|n IH]; intros it i Hr Hm Hn; [lia|]. cbn [parse_until].
  destruct (ParseNextKey_spec it i Hr) as (it1 & -> & Hat). rewrite bool_decide_true by lia.
  destruct (decide (i < length xs)%nat) as [_|]; [|lia]. cbn [mbind option_bind].
  pose proof (at_item_ready it1 i Hat) as Hr1. pose proof Hr1 as (_ & _ & (o & k & Hv & Ho) & _).
  unfold NextEntryOffset. rewrite Hv. cbn [mbind option_bind]. rewrite Ho, u32_small by apply off_small.
  destruct (decide (S i = m)) as [<-|Hne].
  - rewrite Z.ltb_irrefl. exists it1. by rewrite Nat.sub_1_r.
  - destruct (lookup_lt_is_Some_2 xs (S i)) as [y Hy]; [lia|]. pose proof (offset_lt xs (S i) m y Hy ltac:(lia)).
    pose proof (length_enc y). rewrite (proj2 (Z.ltb_lt _ _)) by lia. apply (IH it1 (S i)); [done|lia|lia].
Qed.

(** ** Moving *)

Notation l := (fst <$> xs).

Definition pos_of it (p : option nat) : Prop :=
  match p with Some i => at_item it i | None => at_end it end.

Lemma pos_of_ok it p : pos_of it p → bi_ok it.
Proof. destruct p; by intros [? _]. Qed.

Lemma parse_pos it i : ready it i →
  ∃ b it', ParseNextKey it = Some (b, it') ∧ b = bool_decide (i < length xs)%nat ∧ pos_of it' (pos_at l i).
Proof using Hly.
  intros Hr. destruct (ParseNextKey_spec it i Hr) as (it' & -> & Hat). eexists _, it'. split; [done|]. split; [done|].
  unfold pos_at. rewrite length_fmap. destruct (decide (i < length xs)%nat) as [Hlt|Hge].
  - by rewrite (proj2 (Nat.ltb_lt _ _)).
  - by rewrite (proj2 (Nat.ltb_ge _ _)) by lia.
Qed.

Lemma block_Next it i : at_item it i → ∃ it', BlockIter_Next it = Some it' ∧ pos_of it' (pos_next l i).
Proof using Hly.
  intros Hat. unfold BlockIter_Next, BlockIter_Valid. pose proof Hat as ((_ & Hrs & _) & x & Hx & Hc & _).
  pose proof (offset_lt xs i (length xs) x Hx (lookup_lt_Some _ _ _ Hx)). pose proof (length_enc x).
  rewrite offset_end in *. rewrite (proj2 (Z.ltb_lt _ _)) by lia.
  destruct (parse_pos it (S i) (at_item_ready it i Hat)) as (b & it' & -> & _ & Hp). by exists it'.
Qed.

Lemma at_item_valid it i : at_item it i → BlockIter_Valid it = true.
Proof using Hly.
  intros ((_ & Hrs & _) & x & Hx & Hc & _). unfold BlockIter_Valid.
  pose proof (offset_lt xs i (length xs) x Hx (lookup_lt_Some _ _ _ Hx)). pose proof (length_enc x).
  rewrite offset_end in *. apply Z.ltb_lt. lia.
Qed.

Lemma restart_before_spec it i r k : bi_ok it → rs !! r = Some k →
  ∃ o, restart_before it (off i) r = Some o ∧
    match o with Some r' => ∃ k', rs !! r' = Some k' ∧ (k' < i)%nat | None => off i = 0 end.
Proof using Hly.
  intros Hok. revert k; induction r as [|r IH]; intros k Hr; cbn [restart_before];
    rewrite (GetRestartPoint_spec it _ k Hok Hr); cbn [mbind option_bind];
    destruct (Z.leb_spec (off i) (off k)) as [Hle|Hgt].
  - exists None. split; [done|]. rewrite (ly_first _ _ _ Hly) in Hr. injection Hr as <-.
    assert (offset xs 0 = 0%nat) by (unfold offset; by rewrite take_0). lia.
  - exists (Some 0%nat). split; [done|]. exists k. split; [done|]. destruct (decide (k < i)%nat); [done|].
    pose proof (offset_mono xs i k ltac:(lia)). lia.
  - destruct (lookup_lt_is_Some_2 rs r) as [k1 Hk1]; [apply lookup_lt_Some in Hr; lia|]. by apply (IH k1).
  - exists (Some (S r)). split; [done|]. exists k. split; [done|]. destruct (decide (k < i)%nat); [done|].
    pose proof (offset_mono xs i k ltac:(lia)). lia.
Qed.

Lemma block_Prev it i : at_item it i → ∃ it', BlockIter_Prev it = Some it' ∧ pos_of it' (pos_prev i).
Proof using Hly.
  intros Hat. unfold BlockIter_Prev. rewrite (at_item_valid it i Hat). cbn [negb]. cbv zeta.
  pose proof Hat as (Hok & x & Hx & -> & _ & _ & k & Hr & Hk). pose proof (lookup_lt_Some _ _ _ Hx) as Hlt.
  destruct (restart_before_spec it i (bi_restart_index it) k Hok Hr) as (o & -> & Ho). cbn [mbind option_bind].
  destruct o as [r|].
  - destruct Ho as (k' & Hk' & Hlt'). destruct (SeekToRestartPoint_spec it r k' Hok Hk') as (it1 & -> & Hr1 & Hfuel).
    cbn [mbind option_bind]. rewrite Hfuel.
    destruct (parse_until_spec (S (length data)) it1 k' i Hr1) as (it2 & -> & Hat2); [lia| |].
    { pose proof (count_small i ltac:(lia)). pose proof (offset_le xs i). pose proof data_length. lia. }
    exists it2. split; [done|]. destruct i as [|i]; [lia|]. by rewrite Nat.sub_1_r in Hat2.
  - eexists. split; [done|]. destruct i as [|i]; [by split|].
    pose proof (count_small (S i) ltac:(lia)). lia.
Qed.

Lemma block_SeekToFirst it : bi_ok it → ∃ it', BlockIter_SeekToFirst it = Some it' ∧ pos_of it' (pos_first l).
Proof using Hly.
  intros Hok. unfold BlockIter_SeekToFirst.
  destruct (SeekToRestartPoint_spec it 0 0 Hok (ly_first _ _ _ Hly)) as (it1 & -> & Hr1 & _). cbn [mbind option_bind].
  destruct (parse_pos it1 0 Hr1) as (b & it' & -> & _ & Hp). by exists it'.
Qed.

Lemma block_SeekToLast it : bi_ok it → ∃ it', BlockIter_SeekToLast it = Some it' ∧ pos_of it' (pos_last l).
Proof using Hly.
  intros Hok. unfold BlockIter_SeekToLast. pose proof Hok as (_ & _ & -> & _).
  pose proof (lookup_lt_Some _ _ _ (ly_first _ _ _ Hly)) as Hpos.
  destruct (lookup_lt_is_Some_2 rs (length rs - 1)) as [k Hk]; [lia|].
  destruct (SeekToRestartPoint_spec it _ k Hok Hk) as (it1 & -> & Hr1 & Hfuel). cbn [mbind option_bind]. rewrite Hfuel.
  pose proof Hr1 as ((_ & Hrs1 & _) & _). rewrite pos_last_prev, length_fmap, Hrs1, <- offset_end.
  destruct (decide (length xs = 0)%nat) as [H0'|Hne].
  - cbn [parse_until]. destruct (parse_pos it1 k Hr1) as (b & it' & -> & -> & Hp). cbn [mbind option_bind].
    rewrite bool_decide_false by lia. rewrite H0'. exists it'. split; [done|].
    rewrite pos_at_ge in Hp by (rewrite length_fmap; lia). done.
  - assert (k < length xs)%nat by (destruct (ly_range _ _ _ Hly _ k Hk); lia).
    destruct (parse_until_spec (S (length data)) it1 k (length xs) Hr1) as (it2 & -> & Hat2); [lia| |].
    { pose proof (count_small (length xs) ltac:(lia)). pose proof (offset_le xs (length xs)). pose proof data_length. lia. }
    exists it2. split; [done|]. destruct (length xs) as [|n]; [lia|]. by rewrite Nat.sub_1_r in Hat2.
Qed.

Lemma block_entry it i e : at_item it i → l !! i = Some e →
  (if BlockIter_Valid it then Some (bi_key it) else None) = Some e.1 ∧ BlockIter_value it = Some e.2.
Proof using Hly.
  intros Hat He. unfold BlockIter_value. rewrite (at_item_valid it i Hat).
  destruct Hat as ((Hd & _) & x & Hx & _ & -> & -> & _). rewrite list_lookup_fmap in He.
  apply fmap_Some in He as (x' & Hx' & ->). rewrite Hx in Hx'. injection Hx' as <-. split; [done|].
  cbn [mbind option_bind]. rewrite Hd. destruct (data_parts i x Hx) as (pre & post & Hdata & _ & Hend).
  pose proof (ly_shared _ _ _ Hly i x Hx) as [Hsh _].
  rewrite (proj2 (Z.leb_le _ _)) by (rewrite Hdata, !length_app, length_drop; lia). f_equal.
  replace (Z.to_nat (off (S i) - Z.of_nat (length x.1.2))) with (length (pre ++ drop x.2 x.1.1))
    by (rewrite length_app, length_drop; lia).
  rewrite Hdata, Nat2Z.id, app_assoc, drop_app_length. by rewrite take_app_length.
Qed.

(** ** Seeking *)

Hypothesis Hso : sorted_kvs (Compare c) l.
Hypothesis Hval : Forall (λ e, valid e.1) l.

Definition below (t : list byte) (i : nat) : Prop :=
  ∀ j e, (j < i)%nat → l !! j = Some e → Compare c e.1 t < 0.

Lemma lower_bound_below_at t i : valid t → (i ≤ length xs)%nat → below t i →
  (∀ e, l !! i = Some e → 0 <= Compare c e.1 t) → lower_bound (Compare c) t l = i.
Proof using Hso Hval KeyOrder0.
  intros Ht Hi Hb Hge. apply lower_bound_unique; [by rewrite length_fmap|]. intros j e Hj.
  split; [|intros Hlt; by apply (Hb j e)]. intros Hlt. destruct (decide (j < i)%nat) as [|Hji]; [done|exfalso].
  destruct (lookup_lt_is_Some_2 l i) as [ei Hei]; [apply lookup_lt_Some in Hj; lia|].
  specialize (Hge ei Hei). apply (lower_bound_iff (valid := valid) t l j e Hso Hval Ht Hj) in Hlt.
  assert (Compare c ei.1 t < 0); [|lia]. apply (lower_bound_iff (valid := valid) t l i ei Hso Hval Ht Hei). lia.
Qed.

Lemma seek_linear_spec t n it i : valid t → ready it i → below t i → (length xs < n + i)%nat →
  ∃ it', seek_linear c n t it = Some it' ∧ pos_of it' (pos_seek (Compare c) t l).
Proof using Hly Hso Hval KeyOrder0.
  intros Ht. revert it i; induction n as [|n IH]; intros it i Hr Hb Hn; [destruct Hr as (_ & ? & _); lia|].
  cbn [seek_linear]. pose proof Hr as (_ & Hi & _).
  destruct (ParseNextKey_spec it i Hr) as (it1 & -> & Hat). cbn [mbind option_bind].
  destruct (decide (i < length xs)%nat) as [Hlt|Hge].
  - rewrite bool_decide_true by done. pose proof Hat as (_ & x & Hx & _ & Hk & _).
    assert (l !! i = Some x.1) as Hl by (by rewrite list_lookup_fmap, Hx). rewrite Hk.
    destruct (Z.leb_spec 0 (Compare c x.1.1 t)) as [Hge|Hlt'].
    + exists it1. split; [done|]. unfold pos_seek. rewrite (lower_bound_below_at t i); [|done..|].
      * by rewrite pos_at_lt by (by rewrite length_fmap).
      * intros e He. rewrite Hl in He. by injection He as <-.
    + apply (IH it1 (S i)); [by apply at_item_ready| |lia]. intros j e Hj He.
      destruct (decide (j = i)) as [->|]; [rewrite Hl in He; by injection He as <-|]. apply (Hb j e); [lia|done].
  - rewrite bool_decide_false by done. exists it1. split; [done|]. unfold pos_seek.
    rewrite (lower_bound_below_at t i); [|done..|].
    + by rewrite pos_at_ge by (rewrite length_fmap; lia).
    + intros e He%lookup_lt_Some. rewrite length_fmap in He. lia.
Qed.

Lemma restart_item r k : rs !! r = Some k → (0 < r)%nat → ∃ x, xs !! k = Some x ∧ x.2 = 0%nat.
Proof using Hly.
  intros Hr Hpos. destruct (ly_range _ _ _ Hly r k Hr) as [->|Hlt].
  - exfalso. pose proof (ly_sorted _ _ _ Hly) as Hs. pose proof (ly_first _ _ _ Hly) as Hf.
    destruct rs as [|a rs']; [done|]. injection Hf as ->. apply StronglySorted_inv in Hs as [_ Hmin].
    destruct r as [|r]; [lia|]. cbn in Hr. pose proof (Forall_lookup_1 _ _ _ _ Hmin Hr). lia.
  - destruct (lookup_lt_is_Some_2 xs k Hlt) as [x Hx]. exists x. split; [done|]. by apply (ly_restart _ _ _ Hly r k).
Qed.

(** A restart key below the target puts everything before it below. *)
Lemma below_restart t k x : valid t → xs !! k = Some x → Compare c x.1.1 t < 0 → below t k.
Proof using Hso Hval KeyOrder0.
  intros Ht Hx Hlt j e Hj He. assert (l !! k = Some x.1) as Hl by (by rewrite list_lookup_fmap, Hx).
  apply (lower_bound_iff (valid := valid) t l j e Hso Hval Ht He).
  apply (lower_bound_iff (valid := valid) t l k x.1 Hso Hval Ht Hl) in Hlt. lia.
Qed.

Lemma seek_restart_spec t n it l0 r0 k0 : valid t → bi_ok it → (l0 ≤ r0 < length rs)%nat →
  rs !! l0 = Some k0 → below t k0 → (r0 ≤ n + l0)%nat →
  ∃ m k, seek_restart c n it t l0 r0 = Some (inr m) ∧ rs !! m = Some k ∧ below t k.
Proof using Hly Hso Hval KeyOrder0.
  intros Ht Hok. revert l0 r0 k0; induction n as [|n IH]; intros l0 r0 k0 Hlr Hl0 Hb Hn; cbn [seek_restart].
  { rewrite (proj2 (Nat.ltb_ge _ _)) by lia. by exists l0, k0. }
  destruct (Nat.ltb_spec l0 r0) as [Hlt|]; [|by exists l0, k0].
  pose proof data_length as Hdl. pose proof (ly_size _ _ _ Hly) as Hsz.
  rewrite u32_small by lia. set (mid := Z.to_nat (Z.of_nat (l0 + r0 + 1) / 2)).
  assert (l0 < mid ≤ r0)%nat as Hmid.
  { unfold mid. pose proof (Z.div_mod (Z.of_nat (l0 + r0 + 1)) 2 ltac:(lia)).
    pose proof (Z.mod_pos_bound (Z.of_nat (l0 + r0 + 1)) 2 ltac:(lia)). lia. }
  cbv zeta. destruct (lookup_lt_is_Some_2 rs mid) as [k Hk]; [lia|].
  rewrite (GetRestartPoint_spec it mid k Hok Hk). cbn [mbind option_bind]. pose proof Hok as (Hd & Hrs & _).
  destruct (restart_item mid k Hk ltac:(lia)) as (x & Hx & Hsh).
  rewrite Hd, Hrs, !Nat2Z.id, (data_at k x Hx). destruct (item_small k x Hx) as (H1 & H2 & H3).
  rewrite (DecodeEntry_enc x _ H1 H2 H3). rewrite Hsh. cbn [Z.of_nat Z.eqb negb].
  destruct (data_parts k x Hx) as (pre & post & Hdata & Hlen & Hend). rewrite Hsh, drop_0, ?Nat.sub_0_r in *.
  replace (Z.of_nat (length (body xs)) - Z.of_nat (length (x.1.1 ++ x.1.2 ++ body (drop (S k) xs))))
    with (Z.of_nat (length pre)) by lia.
  rewrite (proj2 (Z.ltb_ge (Z.of_nat (length data)) _)) by (rewrite Hdata, !length_app; lia).
  rewrite !Nat2Z.id. rewrite Hdata, drop_app_length, take_app_length.
  destruct (Z.ltb_spec (Compare c x.1.1 t) 0) as [Hc|Hc].
  - apply (IH mid r0 k); [lia|done|by eapply below_restart|lia].
  - apply (IH l0 (mid - 1)%nat k0); [lia|done|done|lia].
Qed.

Lemma seek_from_restart t it m k : valid t → bi_ok it → rs !! m = Some k → below t k →
  ∃ it', (it ← SeekToRestartPoint m it; seek_linear c (bi_fuel it) t it) = Some it' ∧
    pos_of it' (pos_seek (Compare c) t l).
Proof using Hly Hso Hval KeyOrder0.
  intros Ht Hok Hm Hb. pose proof data_length as Hdl. pose proof (count_small (length xs) ltac:(lia)) as Hcs.
  rewrite offset_end in Hcs. destruct (SeekToRestartPoint_spec it m k Hok Hm) as (it1 & -> & Hr1 & Hfuel).
  cbn [mbind option_bind]. rewrite Hfuel. apply (seek_linear_spec t _ it1 k); [done..|lia].
Qed.

Lemma seek_here t i x : valid t → xs !! i = Some x → Compare c x.1.1 t = 0 → pos_seek (Compare c) t l = Some i.
Proof using Hso Hval KeyOrder0.
  intros Ht Hx Heq. assert (l !! i = Some x.1) as Hl by (by rewrite list_lookup_fmap, Hx).
  pose proof (lookup_lt_Some _ _ _ Hx) as Hlt. unfold pos_seek. rewrite (lower_bound_below_at t i); [|done|lia| |].
  - by rewrite pos_at_lt by (by rewrite length_fmap).
  - intros j e Hj He'. pose proof (sorted_lookup l j i e x.1 Hso He' Hl Hj).
    apply (ko_trans_eq (valid := valid) e.1 x.1.1 t); [|..|done|done]; try done.
    + by apply (Forall_lookup_1 _ _ _ _ Hval He').
    + by apply (Forall_lookup_1 _ _ _ _ Hval Hl).
  - intros e He'. rewrite Hl in He'. injection He' as <-. lia.
Qed.

(** The search goes on from the current entry when it is in the block found. *)
Lemma seek_ahead t it i : valid t → at_item it i → below t (S i) →
  ∃ it', seek_linear c (bi_fuel it) t it = Some it' ∧ pos_of it' (pos_seek (Compare c) t l).
Proof using Hly Hso Hval KeyOrder0.
  intros Ht Hat Hb. pose proof data_length as Hdl. pose proof (count_small (length xs) ltac:(lia)) as Hcs.
  rewrite offset_end in Hcs. pose proof Hat as ((Hd & _) & _). unfold bi_fuel. rewrite Hd.
  apply (seek_linear_spec t _ it (S i)); [done|by apply at_item_ready|done|lia].
Qed.

Lemma block_Seek t it p : valid t → pos_of it p →
  ∃ it', BlockIter_Seek c t it = Some it' ∧ pos_of it' (pos_seek (Compare c) t l).
Proof using Hly Hso Hval KeyOrder0.
  intros Ht Hp. pose proof (pos_of_ok it p Hp) as Hok. pose proof Hok as (_ & _ & Hn & _).
  pose proof (ly_first _ _ _ Hly) as Hfirst. pose proof (lookup_lt_Some _ _ _ Hfirst) as Hpos.
  assert (below t 0) as Hb0 by (intros j e Hj; lia).
  unfold BlockIter_Seek. cbv zeta. rewrite Hn. destruct p as [i|].
  - cbn [pos_of] in Hp. rewrite (at_item_valid it i Hp). pose proof Hp as (_ & x & Hx & _ & Hk & _ & k & Hr & Hki).
    pose proof (lookup_lt_Some _ _ _ Hr) as Hrl. rewrite Hk. cbn [andb].
    destruct (Z.eqb_spec (Compare c x.1.1 t) 0) as [He|Hne].
    { exists it. split; [done|]. by rewrite (seek_here t i x Ht Hx He). }
    destruct (Z.ltb_spec (Compare c x.1.1 t) 0) as [Hlt|Hge].
    + rewrite (proj2 (Z.ltb_ge 0 _)) by lia. pose proof (below_restart t i x Ht Hx Hlt) as Hbi.
      destruct (seek_restart_spec t (length rs) it (bi_restart_index it) (length rs - 1) k) as (m & km & -> & Hm & Hbm);
        [done|done|lia|done|intros j e Hj; apply Hbi; lia|lia|].
      cbn [mbind option_bind]. rewrite andb_true_r.
      destruct (Nat.eqb_spec m (bi_restart_index it)) as [->|_]; [|by eapply seek_from_restart].
      apply (seek_ahead t it i Ht Hp). intros j e Hj He'. destruct (decide (j = i)) as [->|]; [|apply (Hbi j e); [lia|done]].
      rewrite list_lookup_fmap, Hx in He'. by injection He' as <-.
    + rewrite (proj2 (Z.ltb_lt 0 _)) by lia.
      destruct (seek_restart_spec t (length rs) it 0 (bi_restart_index it) 0) as (m & km & -> & Hm & Hbm); [done|done|lia|done|done|lia|].
      cbn [mbind option_bind]. rewrite andb_false_r. by eapply seek_from_restart.
  - destruct Hp as [_ Hc]. unfold BlockIter_Valid. rewrite Hc, Z.ltb_irrefl. cbn [andb Z.ltb Z.compare].
    destruct (seek_restart_spec t (length rs) it 0 (length rs - 1) 0) as (m & km & -> & Hm & Hbm); [done|done|lia|done|done|lia|].
    cbn [mbind option_bind]. rewrite andb_false_r. by eapply seek_from_restart.
Qed.
End layout.

(** ** The iterator's laws *)

Definition block_at (it : BlockIter) (l : list kv) (p : option nat) : Prop :=
  ∃ xs rs data, layout xs rs data ∧ l = fst <$> xs ∧ sorted_kvs (Compare c) l ∧ Forall (λ e, valid e.1) l ∧
    pos_of xs rs data it p.

#[export] Instance block_laws : IteratorLaws (Iterator0 := block_iterator c) BlockIter (Compare c) valid block_at.
Proof.
  split; cbn [it_Valid it_SeekToFirst it_SeekToLast it_Seek it_Next it_Prev it_key it_value it_status block_iterator].
  - intros it l p (xs & rs & data & Hly & -> & Hso & Hv & Hp). split_and!; [done..|]. intros i ->.
    destruct Hp as (_ & x & Hx & _). rewrite length_fmap. by eapply lookup_lt_Some.
  - intros it l p (xs & rs & data & Hly & -> & Hso & Hv & Hp). by apply pos_of_ok in Hp as (_ & _ & _ & ?).
  - intros it l p (xs & rs & data & Hly & -> & Hso & Hv & Hp). destruct p as [i|].
    + by rewrite (at_item_valid xs rs data Hly it i Hp).
    + destruct Hp as [_ Hc]. unfold BlockIter_Valid. by rewrite Hc, Z.ltb_irrefl.
  - intros it l i e (xs & rs & data & Hly & -> & Hso & Hv & Hp) He. by apply (block_entry xs rs data Hly it i).
  - intros it l p (xs & rs & data & Hly & -> & Hso & Hv & Hp).
    destruct (block_SeekToFirst xs rs data Hly it (pos_of_ok _ _ _ _ _ Hp)) as (it' & Hit & Hp').
    exists it'. split; [done|]. by exists xs, rs, data.
  - intros it l p (xs & rs & data & Hly & -> & Hso & Hv & Hp).
    destruct (block_SeekToLast xs rs data Hly it (pos_of_ok _ _ _ _ _ Hp)) as (it' & Hit & Hp').
    exists it'. split; [done|]. by exists xs, rs, data.
  - intros it l p t (xs & rs & data & Hly & -> & Hso & Hv & Hp) Ht.
    destruct (block_Seek xs rs data Hly Hso Hv t it p Ht Hp) as (it' & Hit & Hp').
    exists it'. split; [done|]. by exists xs, rs, data.
  - intros it l i (xs & rs & data & Hly & -> & Hso & Hv & Hp).
    destruct (block_Next xs rs data Hly it i Hp) as (it' & Hit & Hp').
    exists it'. split; [done|]. by exists xs, rs, data.
  - intros it l i (xs & rs & data & Hly & -> & Hso & Hv & Hp).
    destruct (block_Prev xs rs data Hly it i Hp) as (it' & Hit & Hp').
    exists it'. split; [done|]. by exists xs, rs, data.
Qed.

(** ** Built blocks *)

Section built.
Context (interval : Z).
Hypothesis Hinterval : 1 <= interval.

Fixpoint add_entries (l : list kv) (b : BlockBuilder) : option BlockBuilder :=
  match l with
  | [] => Some b
  | e :: l => b ← BlockBuilder_Add c interval e.1 e.2 b; add_entries l b
  end.

(** A bound on the size of a block with the entries [l]. *)
Definition block_bound (l : list kv) : Z :=
  fold_right (λ e n, 19 + Z.of_nat (length e.1) + Z.of_nat (length e.2) + n) 8 l.

(** The builder has laid out [xs], with restarts at [rs]. *)
Record block_built (b : BlockBuilder) (xs : list item) (rs : list nat) : Prop := {
  bu_buffer : bb_buffer b = body xs;
  bu_restarts : bb_restarts b = (λ i, Z.of_nat (offset xs i)) <$> rs;
  bu_counter : 0 <= bb_counter b <= interval;
  bu_finished : bb_finished b = false;
  bu_last : bb_last_key b = from_option (λ x, x.1.1) [] (last xs);
  bu_first : rs !! 0%nat = Some 0%nat;
  bu_sorted : StronglySorted lt rs;
  bu_range r i : rs !! r = Some i → i = 0%nat ∨ (i < length xs)%nat;
  bu_zero : xs = [] → bb_counter b < interval;
  bu_restart r i x : rs !! r = Some i → xs !! i = Some x → x.2 = 0%nat;
  bu_shared i x : xs !! i = Some x → (x.2 ≤ length x.1.1)%nat;
  bu_prefix i x y : xs !! i = Some x → xs !! S i = Some y → (y.2 ≤ length x.1.1)%nat ∧ take y.2 x.1.1 = take y.2 y.1.1;
  bu_count : (length rs ≤ S (length xs))%nat;
}.

Lemma built_Reset : block_built BlockBuilder_Reset [] [0%nat].
Proof using Hinterval.
  split; try done; cbn.
  - lia.
  - repeat constructor.
  - intros [|r] i; [by intros [= <-]; left|done].
  - lia.
Qed.

Lemma common_prefix_le a b : (common_prefix a b ≤ length a)%nat ∧ (common_prefix a b ≤ length b)%nat ∧
  take (common_prefix a b) a = take (common_prefix a b) b.
Proof.
  revert b; induction a as [|x a IH]; intros [|y b]; cbn; [split_and!; done || lia..|].
  destruct (Z.eqb_spec (u8 x) (u8 y)) as [Heq%u8_inj|]; [|split_and!; done || lia].
  destruct (IH b) as (? & ? & ?). cbn. subst y. split_and!; [lia|lia|by f_equal].
Qed.

Lemma offset_app xs ys i : (i ≤ length xs)%nat → offset (xs ++ ys) i = offset xs i.
Proof. intros Hi. unfold offset. by rewrite take_app_le. Qed.

Lemma body_bound xs : Z.of_nat (length (body xs)) + 4 * Z.of_nat (length xs) + 8 <= block_bound (fst <$> xs).
Proof.
  induction xs as [|x xs IH]; [done|]. unfold body in *. cbn [mbind list_bind] in *. rewrite length_app.
  pose proof (length_enc x). rewrite fmap_cons. cbn [block_bound fold_right]. fold (block_bound (fst <$> xs)). cbn [length]. lia.
Qed.

Lemma built_empty b xs rs : block_built b xs rs → BlockBuilder_empty b = bool_decide (xs = []).
Proof.
  intros Hb. unfold BlockBuilder_empty. rewrite (bu_buffer _ _ _ Hb). destruct xs as [|x xs]; [done|].
  rewrite bool_decide_false by done. unfold body. cbn [mbind list_bind]. pose proof (length_enc x).
  destruct (enc x); [cbn in *; lia|done].
Qed.

(** Adding an entry whose shared prefix is right, with a restart or without. *)
Lemma built_snoc b xs rs b' key value shared add :
  block_built b xs rs → (shared ≤ length key)%nat →
  (∀ x, last xs = Some x → (shared ≤ length x.1.1)%nat ∧ take shared x.1.1 = take shared key) →
  (xs = [] → shared = 0%nat) →
  bb_buffer b' = bb_buffer b ++ enc (key, value, shared) → bb_finished b' = false → bb_last_key b' = key →
  0 <= bb_counter b' <= interval →
  add = [] ∨ add = [length xs] ∧ xs ≠ [] ∧ shared = 0%nat →
  bb_restarts b' = bb_restarts b ++ ((λ _, Z.of_nat (length (bb_buffer b))) <$> add) →
  block_built b' (xs ++ [(key, value, shared)]) (rs ++ add).
Proof.
  intros Hb Hsh Hpre Hz Hbuf Hfin Hlast Hcount Hadd Hres.
  assert (∀ r i, (rs ++ add) !! r = Some i → rs !! r = Some i ∧ (i ≤ length xs)%nat ∧ (xs = [] ∨ i < length xs)%nat ∨
    i = length xs ∧ xs ≠ [] ∧ shared = 0%nat) as Hsplit.
  { intros r i [Hr|[Hge Hr]]%lookup_app_Some.
    - left. split; [done|]. destruct (bu_range _ _ _ Hb r i Hr) as [->|]; [|lia]. destruct xs; cbn; [naive_solver lia|lia].
    - right. destruct Hadd as [->|(-> & ? & ?)]; [done|]. apply list_lookup_singleton_Some in Hr as [_ <-]. done. }
  split.
  - by rewrite Hbuf, (bu_buffer _ _ _ Hb), body_app, <- (app_nil_r (enc _)).
  - rewrite Hres, (bu_restarts _ _ _ Hb), fmap_app. f_equal.
    + apply list_fmap_ext. intros r i Hr. rewrite offset_app; [done|]. destruct (bu_range _ _ _ Hb r i Hr); lia.
    + destruct Hadd as [->|(-> & _)]; [done|]. cbn. rewrite offset_app, offset_end by lia. by rewrite (bu_buffer _ _ _ Hb).
  - done.
  - done.
  - by rewrite Hlast, last_snoc.
  - apply lookup_app_l_Some, (bu_first _ _ _ Hb).
  - destruct Hadd as [->|(-> & Hne & _)]; [rewrite app_nil_r; apply (bu_sorted _ _ _ Hb)|].
    apply StronglySorted_app. split_and!; [|apply (bu_sorted _ _ _ Hb)|repeat constructor].
    intros i j [r Hr]%list_elem_of_lookup ->%list_elem_of_singleton.
    destruct (bu_range _ _ _ Hb r i Hr) as [->|]; [|done]. destruct xs; cbn; [done|lia].
  - intros r i Hr. rewrite length_app. cbn. destruct (Hsplit r i Hr) as [(_ & ? & _)|(-> & _)]; lia.
  - intros Heq. by destruct xs.
  - intros r i x Hr Hx. destruct (Hsplit r i Hr) as [(Hr' & Hi & Hlt)|(-> & Hne & ->)].
    + destruct Hlt as [->|Hlt].
      * destruct i; [|cbn in Hi; lia]. injection Hx as <-. by apply Hz.
      * rewrite lookup_app_l in Hx by done. by apply (bu_restart _ _ _ Hb r i).
    + rewrite lookup_app_r, Nat.sub_diag in Hx by lia. by injection Hx as <-.
  - intros i x [Hx|[_ Hx]]%lookup_app_Some; [by apply (bu_shared _ _ _ Hb i)|].
    by apply list_lookup_singleton_Some in Hx as [_ <-].
  - intros i x y Hx Hy. apply lookup_app_Some in Hy as [Hy|[Hge Hy]].
    + rewrite lookup_app_l in Hx by (apply lookup_lt_Some in Hy; lia). by apply (bu_prefix _ _ _ Hb i).
    + apply list_lookup_singleton_Some in Hy as [Hi <-]. cbn [fst snd]. apply Hpre. rewrite last_lookup.
      replace (pred (length xs)) with i by lia. rewrite lookup_app_l in Hx by lia. done.
  - pose proof (bu_count _ _ _ Hb). rewrite !length_app. destruct Hadd as [->|(-> & _)]; cbn; lia.
Qed.

Lemma built_Add b xs rs key value :
  block_built b xs rs → (∀ x, last xs = Some x → 0 < Compare c key x.1.1) →
  Z.of_nat (length (body xs)) + Z.of_nat (length key) + Z.of_nat (length value) < 2 ^ 32 →
  ∃ b' shared rs', BlockBuilder_Add c interval key value b = Some b' ∧ block_built b' (xs ++ [(key, value, shared)]) rs'.
Proof using Hinterval.
  intros Hb Hgt Hsize. unfold BlockBuilder_Add. rewrite (bu_finished _ _ _ Hb).
  pose proof (bu_counter _ _ _ Hb) as Hc. rewrite (proj2 (Z.ltb_ge _ _)) by lia.
  assert (negb (BlockBuilder_empty b) && (Compare c key (bb_last_key b) <=? 0) = false) as ->.
  { rewrite (built_empty _ _ _ Hb), (bu_last _ _ _ Hb). destruct xs as [|x xs _] using rev_ind; [done|].
    rewrite last_snoc, bool_decide_false by (by destruct xs). cbn. apply Z.leb_gt, Hgt. by rewrite last_snoc. }
  set (last_key := bb_last_key b).
  assert (∃ shared add counter, (if bb_counter b <? interval
      then (common_prefix last_key key, bb_restarts b, bb_counter b)
      else (0%nat, bb_restarts b ++ [u32 (Z.of_nat (length (bb_buffer b)))], 0)) =
      (shared, bb_restarts b ++ ((λ _, Z.of_nat (length (bb_buffer b))) <$> add), counter) ∧
    0 <= counter < interval ∧ (shared ≤ length key)%nat ∧ (shared ≤ length last_key)%nat ∧
    take shared last_key = take shared key ∧ (add = [] ∨ add = [length xs] ∧ xs ≠ [] ∧ shared = 0%nat))
    as (shared & add & counter & -> & Hcount & Hs1 & Hs2 & Hs3 & Hadd).
  { destruct (Z.ltb_spec (bb_counter b) interval) as [Hlt|Hge].
    - destruct (common_prefix_le last_key key) as (? & ? & ?). eexists _, [], _. cbn [fmap list_fmap]. rewrite app_nil_r.
      split; [done|]. split_and!; [lia|lia|done..|by left].
    - exists 0%nat, [length xs], 0. rewrite u32_small by (rewrite (bu_buffer _ _ _ Hb); lia). split; [done|].
      split_and!; [lia..|done|]. right. split_and!; [done| |done]. intros Hx. pose proof (bu_zero _ _ _ Hb Hx). lia. }
  rewrite bool_decide_true by (rewrite Hs3; apply take_drop). unfold last_key in *. rewrite (bu_last _ _ _ Hb) in *.
  eexists _, shared, (rs ++ add). split; [done|]. apply (built_snoc b); cbn [bb_buffer bb_finished bb_last_key bb_counter bb_restarts]; try done.
  - intros x Hx. by rewrite Hx in *.
  - intros ->. cbn in Hs2. lia.
  - unfold PutVarint32, enc. cbn [fst snd]. rewrite !u32_small by lia. by rewrite <- !app_assoc.
  - by rewrite Hs3, take_drop.
  - lia.
Qed.

Lemma block_bound_app l l' : block_bound (l ++ l') = block_bound l + block_bound l' - 8.
Proof.
  induction l as [|e l IH]; [change (block_bound []) with 8; cbn [app]; lia|]. unfold block_bound in *. cbn [app fold_right]. rewrite IH. lia.
Qed.

Lemma block_bound_pos l : 8 <= block_bound l.
Proof. induction l as [|e l IH]; [done|]. unfold block_bound in *. cbn [fold_right]. lia. Qed.

Lemma add_entries_built l b xs rs :
  block_built b xs rs → sorted_kvs (Compare c) ((fst <$> xs) ++ l) → Forall (λ e, valid e.1) ((fst <$> xs) ++ l) →
  block_bound ((fst <$> xs) ++ l) < 2 ^ 32 →
  ∃ b' ys rs', add_entries l b = Some b' ∧ block_built b' (xs ++ ys) rs' ∧ fst <$> ys = l.
Proof using Hinterval KeyOrder0.
  revert b xs rs; induction l as [|[key value] l IH]; intros b xs rs Hb Hso Hv Hbound.
  { exists b, [], rs. by rewrite app_nil_r. }
  cbn [add_entries fst snd]. rewrite block_bound_app in Hbound. pose proof (body_bound xs). pose proof (block_bound_pos l).
  assert (Z.of_nat (length (body xs)) + Z.of_nat (length key) + Z.of_nat (length value) < 2 ^ 32) as Hsize.
  { change (block_bound ((key, value) :: l)) with (19 + Z.of_nat (length key) + Z.of_nat (length value) + block_bound l) in Hbound. lia. }
  destruct (built_Add b xs rs key value Hb) as (b1 & shared & rs1 & -> & Hb1); [|done|].
  { intros x Hx. apply StronglySorted_app in Hso as (Hc & _ & _).
    apply last_Some_elem_of in Hx. pose proof (list_elem_of_fmap_2 fst _ _ Hx) as Hx'.
    specialize (Hc x.1 (key, value) Hx' ltac:(left)). cbn in Hc. apply (ko_lt_sym _ valid) in Hc; [done|..].
    - apply (proj1 (Forall_forall _ _) Hv). apply elem_of_app. by left.
    - apply (proj1 (Forall_forall _ _) Hv (key, value)). apply elem_of_app. right. left. }
  cbn [mbind option_bind].
  destruct (IH b1 (xs ++ [(key, value, shared)]) rs1 Hb1) as (b' & ys & rs' & -> & Hb' & Hys);
    rewrite ?fmap_app, <- ?app_assoc; cbn [fmap list_fmap fst app]; [done|done|by rewrite block_bound_app|].
  exists b', ((key, value, shared) :: ys), rs'. split; [done|]. rewrite <- app_assoc in Hb'. split; [done|]. by rewrite <- Hys.
Qed.

Lemma Finish_layout b xs rs : block_built b xs rs → block_bound (fst <$> xs) < 2 ^ 32 →
  (∀ e, e ∈ fst <$> xs → Z.of_nat (length e.1) < 2 ^ 32) → layout xs rs (BlockBuilder_Finish b).2.
Proof.
  intros Hb Hbound Hkeys. unfold BlockBuilder_Finish. cbn [snd]. unfold PutFixed32 at 1.
  pose proof (body_bound xs) as Hbb. pose proof (bu_count _ _ _ Hb) as Hcount.
  rewrite foldl_PutFixed32, (bu_restarts _ _ _ Hb), (bu_buffer _ _ _ Hb), length_fmap, u32_small by lia.
  rewrite <- list_fmap_compose, join_fmap. cbn [compose].
  split.
  - by rewrite <- app_assoc.
  - rewrite !length_app, (length_rows _ 4), length_EncodeFixed32 by (intros; apply length_EncodeFixed32). lia.
  - apply (bu_first _ _ _ Hb).
  - apply (bu_sorted _ _ _ Hb).
  - apply (bu_range _ _ _ Hb).
  - apply (bu_restart _ _ _ Hb).
  - intros i x Hx. split; [by apply (bu_shared _ _ _ Hb i)|]. apply Hkeys.
    apply list_elem_of_fmap_2. by eapply list_elem_of_lookup_2.
  - apply (bu_prefix _ _ _ Hb).
Qed.

Lemma block_bound_key l e : e ∈ l → Z.of_nat (length e.1) + Z.of_nat (length e.2) + 27 <= block_bound l.
Proof.
  induction l as [|x l IH]; intros Hin; [by apply not_elem_of_nil in Hin|].
  change (block_bound (x :: l)) with (19 + Z.of_nat (length x.1) + Z.of_nat (length x.2) + block_bound l).
  pose proof (block_bound_pos l). apply elem_of_cons in Hin as [->|Hin]; [lia|]. specialize (IH Hin). lia.
Qed.

(** Opening a block that is laid out. *)
Lemma open_layout xs rs data : layout xs rs data → sorted_kvs (Compare c) (fst <$> xs) → Forall (λ e, valid e.1) (fst <$> xs) →
  ∃ blk it, Block_new data = Some blk ∧ Block_NewIterator blk = Some (inr it) ∧ block_at it (fst <$> xs) None.
Proof.
  intros Hly Hso Hv. pose proof (data_length _ _ _ Hly) as Hdl. pose proof (ly_size _ _ _ Hly) as Hsz.
  pose proof (lookup_lt_Some _ _ _ (ly_first _ _ _ Hly)) as Hpos.
  assert (NumRestarts data (Z.of_nat (length data)) = Some (Z.of_nat (length rs))) as Hnr.
  { unfold NumRestarts. rewrite (proj2 (Z.ltb_ge _ _)) by lia. pose proof (ly_data _ _ _ Hly) as Hd.
    rewrite app_assoc in Hd.
    replace (Z.to_nat (Z.of_nat (length data) - 4)) with (length (body xs ++ (rs ≫= λ i, EncodeFixed32 (Z.of_nat (offset xs i))))).
    - rewrite Hd at 1. rewrite drop_app_length, <- (app_nil_r (EncodeFixed32 _)), Decode_EncodeFixed32, u32_small; [done|lia].
    - rewrite length_app, (length_rows _ 4) by (intros; apply length_EncodeFixed32). lia. }
  eexists _, _. split_and!.
  - unfold Block_new. cbv zeta. rewrite (proj2 (Z.ltb_ge _ _)), Hnr by lia. cbn [mbind option_bind].
    rewrite (proj2 (Z.ltb_ge _ _)); [done|]. apply Z.div_le_lower_bound; lia.
  - unfold Block_NewIterator. cbn [blk_size blk_data restart_offset_]. rewrite (proj2 (Z.ltb_ge _ _)), Hnr by lia.
    cbn [mbind option_bind]. rewrite (proj2 (Z.eqb_neq _ 0)) by lia. unfold BlockIter_new.
    by rewrite Nat2Z.id, (proj2 (Nat.ltb_lt _ _)) by lia.
  - exists xs, rs, data. split_and!; [done..|]. split; [|done].
    split_and!; [done| |done|done]. cbn. rewrite u32_small; lia.
Qed.

Lemma built_block l :
  sorted_kvs (Compare c) l → Forall (λ e, valid e.1) l → block_bound l < 2 ^ 32 →
  ∃ b blk it, add_entries l BlockBuilder_Reset = Some b ∧ bb_finished b = false ∧
    Block_new (BlockBuilder_Finish b).2 = Some blk ∧ Block_NewIterator blk = Some (inr it) ∧ block_at it l None.
Proof using Hinterval KeyOrder0.
  intros Hso Hv Hbound. destruct (add_entries_built l BlockBuilder_Reset [] [0%nat] built_Reset) as (b & ys & rs & Hadd & Hb & Hys);
    [done..|]. cbn [app] in Hb. assert (layout ys rs (BlockBuilder_Finish b).2) as Hly.
  { apply Finish_layout; [done|by rewrite Hys|]. rewrite Hys. intros e He. pose proof (block_bound_key l e He). lia. }
  destruct (open_layout ys rs _ Hly) as (blk & it & Hblk & Hit & Hat); [by rewrite Hys..|].
  exists b, blk, it. rewrite Hys in Hat. split_and!; try done. apply (bu_finished _ _ _ Hb).
Qed.

(** ** What users of the builder need *)

(** The builder holds the entries [l]. *)
Definition holding (b : BlockBuilder) (l : list kv) : Prop := ∃ xs rs, block_built b xs rs ∧ fst <$> xs = l.

(** The bytes [raw] open as a block with the entries [l]. *)
Definition block_of (raw : list byte) (l : list kv) : Prop :=
  ∃ blk it, Block_new raw = Some blk ∧ Block_NewIterator blk = Some (inr it) ∧ block_at it l None.

Lemma holding_Reset : holding BlockBuilder_Reset [].
Proof using Hinterval. exists [], [0%nat]. split; [by apply built_Reset|done]. Qed.

Lemma holding_empty b l : holding b l → BlockBuilder_empty b = bool_decide (l = []).
Proof.
  intros (xs & rs & Hb & <-). rewrite (built_empty _ _ _ Hb). apply bool_decide_ext. by destruct xs.
Qed.

Lemma holding_Add b l key value :
  holding b l → (∀ e, last l = Some e → 0 < Compare c key e.1) → block_bound (l ++ [(key, value)]) < 2 ^ 32 →
  ∃ b', BlockBuilder_Add c interval key value b = Some b' ∧ holding b' (l ++ [(key, value)]).
Proof using Hinterval.
  intros (xs & rs & Hb & <-) Hgt Hbound. rewrite block_bound_app in Hbound. pose proof (body_bound xs).
  change (block_bound [(key, value)]) with (19 + Z.of_nat (length key) + Z.of_nat (length value) + 8) in Hbound.
  destruct (built_Add b xs rs key value Hb) as (b' & shared & rs' & Hadd & Hb').
  - intros x Hx. apply Hgt. by rewrite fmap_last, Hx.
  - lia.
  - exists b'. split; [done|]. exists (xs ++ [(key, value, shared)]), rs'. split; [done|]. by rewrite fmap_app.
Qed.

Lemma holding_Finish b l :
  holding b l → sorted_kvs (Compare c) l → Forall (λ e, valid e.1) l → block_bound l < 2 ^ 32 →
  block_of (BlockBuilder_Finish b).2 l ∧ Z.of_nat (length (BlockBuilder_Finish b).2) <= block_bound l.
Proof.
  intros (xs & rs & Hb & <-) Hso Hv Hbound. assert (layout xs rs (BlockBuilder_Finish b).2) as Hly.
  { apply Finish_layout; [done..|]. intros e He. pose proof (block_bound_key _ e He). lia. }
  split; [by apply (open_layout xs rs)|]. rewrite (data_length _ _ _ Hly). pose proof (body_bound xs).
  pose proof (bu_count _ _ _ Hb). lia.
Qed.
End built.
End block_proofs.

(** ** Claims *)

(** C28: Blocks round trip.  For entries with strictly increasing keys whose block
    stays below 4 GiB and any restart interval, adding them never fails an
    assertion, and the finished block opens and gives an iterator over exactly
    those entries: every operation ends, moves as in a sorted sequence, in both
    directions and from any position, and reads back the keys and values, with no
    error. *)
Theorem block_roundtrip {C : Type} `{!Comparator C} (c : C) {valid : list byte → Prop} `{!KeyOrder (Compare c) valid}
    interval l :
  1 <= interval → sorted_kvs (Compare c) l → Forall (λ e, valid e.1) l → block_bound l < 2 ^ 32 →
  ∃ b blk it, add_entries c interval l BlockBuilder_Reset = Some b ∧
    Block_new (BlockBuilder_Finish b).2 = Some blk ∧ Block_NewIterator blk = Some (inr it) ∧
    block_at c (valid := valid) it l None ∧
    ∀ it p, block_at c (valid := valid) it l p →
      bi_status it = Status_OK ∧ BlockIter_Valid it = bool_decide (is_Some p) ∧
      (∃ it', BlockIter_SeekToFirst it = Some it' ∧ block_at c (valid := valid) it' l (pos_first l)) ∧
      (∃ it', BlockIter_SeekToLast it = Some it' ∧ block_at c (valid := valid) it' l (pos_last l)) ∧
      (∀ t, valid t → ∃ it', BlockIter_Seek c t it = Some it' ∧ block_at c (valid := valid) it' l (pos_seek (Compare c) t l)) ∧
      (∀ i e, p = Some i → l !! i = Some e →
         bi_key it = e.1 ∧ BlockIter_value it = Some e.2 ∧
         (∃ it', BlockIter_Next it = Some it' ∧ block_at c (valid := valid) it' l (pos_next l i)) ∧
         (∃ it', BlockIter_Prev it = Some it' ∧ block_at c (valid := valid) it' l (pos_prev i))).
Proof.
  intros Hi Hso Hv Hb. destruct (built_block c interval Hi l Hso Hv Hb) as (b & blk & it & Hadd & _ & Hblk & Hit & Hat).
  exists b, blk, it. split_and!; [done..|]. clear it Hit Hat. intros it p Hat. pose proof (block_laws c (valid := valid)) as Hlaws.
  split_and!.
  - exact (@it_ok _ _ _ _ _ Hlaws it l p Hat).
  - exact (@it_valid _ _ _ _ _ Hlaws it l p Hat).
  - exact (@it_first _ _ _ _ _ Hlaws it l p Hat).
  - exact (@it_last _ _ _ _ _ Hlaws it l p Hat).
  - intros t Ht. exact (@it_seek _ _ _ _ _ Hlaws it l p t Hat Ht).
  - intros i e -> He. destruct (@it_entry _ _ _ _ _ Hlaws it l i e Hat He) as [Hk Hval].
    split_and!; [|exact Hval|exact (@it_next _ _ _ _ _ Hlaws it l i Hat)|exact (@it_prev _ _ _ _ _ Hlaws it l i Hat)].
    cbn [it_key block_iterator] in Hk. destruct (BlockIter_Valid it); [by injection Hk|done].
Qed.

Definition block_example : list kv :=
  [(str "apple", str "1"); (str "apply", str "2"); (str "apt", str "3"); (str "bat", str "4")].

Lemma block_roundtrip_witness :
  ∃ b blk it it1 it2, add_entries BytewiseComparator 2 block_example BlockBuilder_Reset = Some b ∧
    length (BlockBuilder_Finish b).2 = 40%nat ∧
    Block_new (BlockBuilder_Finish b).2 = Some blk ∧ Block_NewIterator blk = Some (inr it) ∧
    BlockIter_Seek BytewiseComparator (str "apricot") it = Some it1 ∧ bi_key it1 = str "apt" ∧
    BlockIter_Prev it1 = Some it2 ∧ BlockIter_value it2 = Some (str "2").
Proof.
  destruct (block_roundtrip (KeyOrder0 := comparator_order (valid := λ _, True) BytewiseComparator)
    BytewiseComparator 2 block_example) as (b & blk & it & Hadd & Hblk & Hit & Hat & Hops).
  - lia.
  - repeat constructor.
  - repeat constructor.
  - vm_compute. reflexivity.
  - destruct (Hops it _ Hat) as (_ & _ & _ & _ & Hseek & _). destruct (Hseek (str "apricot") I) as (it1 & Hit1 & Hat1).
    destruct (Hops it1 _ Hat1) as (_ & _ & _ & _ & _ & Hm).
    destruct (Hm 2%nat (str "apt", str "3") eq_refl eq_refl) as (Hk & _ & _ & it2 & Hit2 & Hat2).
    destruct (Hops it2 _ Hat2) as (_ & _ & _ & _ & _ & Hm2).
    destruct (Hm2 1%nat (str "apply", str "2") eq_refl eq_refl) as (_ & Hv & _).
    exists b, blk, it, it1, it2. split_and!; try done.
    assert ((λ b, length (BlockBuilder_Finish b).2) <$> add_entries BytewiseComparator 2 block_example BlockBuilder_Reset = Some 40%nat)
      as Hlen by (vm_compute; reflexivity).
    rewrite Hadd in Hlen. by injection Hlen.
Defined.

(** [non_shared + value_length] wraps around in 32 bits: this block passes the
    check of [DecodeEntry] with a key of 4 GiB, and reading it leaves the block. *)
Lemma block_entry_size_wraps :
  let contents := [x00; xff; xff; xff; xff; x0f; x01; x00; x00; x00; x00; x01; x00; x00; x00] in
  ∃ blk it, Block_new contents = Some blk ∧ Block_NewIterator blk = Some (inr it) ∧ BlockIter_SeekToFirst it = None.
Proof. eexists _, _. split_and!; reflexivity. Qed.
