(* ===== verification/Format.v ===== *)
(** The table file format (table/format.h, table/format.cc): block handles, the
    footer, and reading a block with its trailer. *)
From S2P Require Import Prelude Coding Crc32c Env.

(** ** Block handles *)

Record BlockHandle := { bh_offset : Z; bh_size : Z }.

(** [~static_cast<uint64_t>(0)]. *)
Definition all_ones : Z := 2 ^ 64 - 1.
Definition kMaxEncodedLength : nat := 20.

Definition BlockHandle_new : BlockHandle := {| bh_offset := all_ones; bh_size := all_ones |}.

(** Asserts that both fields are set. *)
Definition BlockHandle_EncodeTo (dst : list byte) (h : BlockHandle) : option (list byte) :=
  if (bh_offset h =? all_ones) || (bh_size h =? all_ones) then None
  else Some (PutVarint64 (PutVarint64 dst (bh_offset h)) (bh_size h)).

Definition BlockHandle_DecodeFrom (input : list byte) : Status + (BlockHandle * list byte) :=
  match GetVarint64 input with
  | Some (offset, input) =>
      match GetVarint64 input with
      | Some (size, input) => inr ({| bh_offset := offset; bh_size := size |}, input)
      | None => inl (Corruption (str "bad block handle"))
      end
  | None => inl (Corruption (str "bad block handle"))
  end.

(** ** The footer *)

Record Footer := { metaindex_handle_ : BlockHandle; index_handle_ : BlockHandle }.

Definition kEncodedLength : nat := (2 * kMaxEncodedLength + 8)%nat.
Definition kTableMagicNumber : Z := 0xdb4775248b80fb57.
Definition kBlockTrailerSize : Z := 5.

(** [std::string::resize]. *)
Definition resize (n : nat) (s : list byte) : list byte := take n s ++ replicate (n - length s) x00.

Definition Footer_EncodeTo (dst : list byte) (f : Footer) : option (list byte) :=
  s ← BlockHandle_EncodeTo dst (metaindex_handle_ f);
  s ← BlockHandle_EncodeTo s (index_handle_ f);
  let s := resize (2 * kMaxEncodedLength) s in
  let s := PutFixed32 s (u32 (Z.land kTableMagicNumber 0xffffffff)) in
  let s := PutFixed32 s (u32 (kTableMagicNumber ≫ 32)) in
  if (length s =? length dst + kEncodedLength)%nat then Some s else None.

Definition Footer_DecodeFrom (input : list byte) : option (Status + (Footer * list byte)) :=
  if (length input <? kEncodedLength)%nat
  then Some (inl (Corruption (str "not an sstable (footer too short)"))) else
  magic_lo ← DecodeFixed32 (drop (kEncodedLength - 8) input);
  magic_hi ← DecodeFixed32 (drop (kEncodedLength - 4) input);
  if negb (Z.lor (magic_hi ≪ 32) magic_lo =? kTableMagicNumber)
  then Some (inl (Corruption (str "not an sstable (bad magic number)"))) else
  match BlockHandle_DecodeFrom input with
  | inl s => Some (inl s)
  | inr (metaindex, rest) =>
      match BlockHandle_DecodeFrom rest with
      | inl s => Some (inl s)
      | inr (index, _) =>
          Some (inr ({| metaindex_handle_ := metaindex; index_handle_ := index |}, drop kEncodedLength input))
      end
  end.

(** ** Reading a block *)

Inductive CompressionType := kNoCompression | kSnappyCompression | kZstdCompression.

Definition CompressionType_num (t : CompressionType) : Z :=
  match t with kNoCompression => 0 | kSnappyCompression => 1 | kZstdCompression => 2 end.

(** A compression library as port/port.h presents it; [None] when a function
    returns false. *)
Record Codec := {
  Compress : list byte → option (list byte);
  GetUncompressedLength : list byte → option Z;
  Uncompress : list byte → option (list byte);
}.

(** What is compressed can be read back. *)
Definition codec_ok (cd : Codec) : Prop :=
  ∀ raw z, Compress cd raw = Some z →
    GetUncompressedLength cd z = Some (Z.of_nat (length raw)) ∧ Uncompress cd z = Some raw.

(** [bc_data] is the memory the slice covers; the buffer that owns it is not
    modelled. *)
Record BlockContents := { bc_data : list byte; cachable : bool }.

Section read_block.
Context {R : Type} `{!RandomAccessFile R}.

(** [allocates]: a read of the file puts its bytes in memory of the buffer.
    [addr] is the address of the bytes read. *)
Context (snappy zstd : Codec) (allocates : R → bool) (addr : Z).

Definition uncompress (cd : Codec) (name : list byte) (data : list byte) : Status * BlockContents :=
  let none := {| bc_data := []; cachable := false |} in
  match GetUncompressedLength cd data with
  | None => (Corruption (str "corrupted " ++ name ++ str " compressed block length"), none)
  | Some ulength =>
      match Uncompress cd data with
      | None => (Corruption (str "corrupted " ++ name ++ str " compressed block contents"), none)
      | Some u => (Status_OK, {| bc_data := take (Z.to_nat ulength) u; cachable := false |})
      end
  end.

(** Undefined when the sum of the size and the trailer's wraps around and the
    block's bytes are not all read. *)
Definition ReadBlock (verify_checksums : bool) (file : R) (handle : BlockHandle) : option (Status * BlockContents) :=
  let none := {| bc_data := []; cachable := false |} in
  let n := bh_size handle in
  let '(contents, s) := PRead file (bh_offset handle) (Z.to_nat (u64 (n + kBlockTrailerSize))) in
  if negb (ok s) then Some (s, none) else
  if negb (Z.of_nat (length contents) =? u64 (n + kBlockTrailerSize))
  then Some (Corruption (str "truncated block read"), none) else
  if Z.of_nat (length contents) <? n + kBlockTrailerSize then None else
  let n := Z.to_nat n in
  good ← (if verify_checksums
          then crc ← DecodeFixed32 (drop (n + 1) contents);
               Some (Value addr (take (n + 1) contents) =? Unmask crc)
          else Some true);
  if negb (good : bool)
  then Some (Corruption (str "block checksum mismatch"), none) else
  let type := u8 (contents !!! n) in
  if type =? 0 then Some (Status_OK, {| bc_data := take n contents; cachable := allocates file |})
  else if type =? 1 then Some (uncompress snappy (str "snappy") (take n contents))
  else if type =? 2 then Some (uncompress zstd (str "zstd") (take n contents))
  else Some (Corruption (str "bad block type"), none).
End read_block.

(** ** Round trips *)

Definition handle_ok (h : BlockHandle) : Prop := 0 <= bh_offset h < all_ones ∧ 0 <= bh_size h < all_ones.

Definition handle_bytes (h : BlockHandle) : list byte := EncodeVarint64 (bh_offset h) ++ EncodeVarint64 (bh_size h).

Lemma EncodeTo_bytes h dst : handle_ok h → BlockHandle_EncodeTo dst h = Some (dst ++ handle_bytes h).
Proof.
  intros [Ho Hs]. unfold BlockHandle_EncodeTo. rewrite (proj2 (Z.eqb_neq _ _)), (proj2 (Z.eqb_neq _ _)) by lia.
  unfold PutVarint64. by rewrite <- app_assoc.
Qed.

Lemma handle_bytes_length h : handle_ok h → (length (handle_bytes h) ≤ 20)%nat.
Proof.
  unfold handle_ok, all_ones. intros [Ho Hs].
  pose proof (GetVarint64_Put (bh_offset h) [] ltac:(lia)) as H1. pose proof (GetVarint64_Put (bh_size h) [] ltac:(lia)) as H2.
  apply GetVarint64_consumes in H1 as [_ (p1 & E1 & L1)], H2 as [_ (p2 & E2 & L2)].
  rewrite !app_nil_r in E1, E2. unfold handle_bytes. rewrite E1, E2, length_app. lia.
Qed.

Lemma DecodeFrom_bytes h rest : handle_ok h → BlockHandle_DecodeFrom (handle_bytes h ++ rest) = inr (h, rest).
Proof.
  unfold handle_ok, all_ones. intros [Ho Hs]. unfold BlockHandle_DecodeFrom, handle_bytes.
  rewrite <- app_assoc, GetVarint64_Put, GetVarint64_Put by lia. by destruct h.
Qed.

Lemma handle_bytes_inj h h' : handle_ok h → handle_ok h' → handle_bytes h = handle_bytes h' → h = h'.
Proof.
  intros Hh Hh' Heq. pose proof (DecodeFrom_bytes h [] Hh) as H1. rewrite Heq, (DecodeFrom_bytes h' [] Hh') in H1. by injection H1.
Qed.

Definition footer_bytes (f : Footer) : list byte :=
  resize 40 (handle_bytes (metaindex_handle_ f) ++ handle_bytes (index_handle_ f)) ++
  EncodeFixed32 0x8b80fb57 ++ EncodeFixed32 0xdb477524.

Section footer.
Context (f : Footer) (Hm : handle_ok (metaindex_handle_ f)) (Hi : handle_ok (index_handle_ f)).
Let hs := handle_bytes (metaindex_handle_ f) ++ handle_bytes (index_handle_ f).

Lemma resize_hs : resize 40 hs = hs ++ replicate (40 - length hs) x00 ∧ length (resize 40 hs) = 40%nat.
Proof using Hm Hi.
  pose proof (handle_bytes_length _ Hm). pose proof (handle_bytes_length _ Hi).
  assert (length hs ≤ 40)%nat by (unfold hs; rewrite length_app; lia).
  unfold resize. rewrite take_ge by lia. split; [done|]. rewrite length_app, length_replicate. lia.
Qed.

Lemma footer_length : length (footer_bytes f) = kEncodedLength.
Proof using Hm Hi.
  unfold footer_bytes. fold hs. rewrite !length_app, (proj2 resize_hs), !length_EncodeFixed32. done.
Qed.

Lemma footer_EncodeTo : Footer_EncodeTo [] f = Some (footer_bytes f).
Proof using Hm Hi.
  unfold Footer_EncodeTo. rewrite EncodeTo_bytes by done. cbn [mbind option_bind app].
  rewrite EncodeTo_bytes by done. cbn [mbind option_bind]. cbv zeta. fold hs. unfold PutFixed32. rewrite <- app_assoc.
  change (2 * kMaxEncodedLength)%nat with 40%nat.
  change (u32 (Z.land kTableMagicNumber 0xffffffff)) with 0x8b80fb57. change (u32 (kTableMagicNumber ≫ 32)) with 0xdb477524.
  change (resize 40 hs ++ _ ++ _) with (footer_bytes f). rewrite footer_length. by rewrite Nat.eqb_refl.
Qed.

Lemma footer_DecodeFrom : Footer_DecodeFrom (footer_bytes f) = Some (inr (f, [])).
Proof using Hm Hi.
  destruct resize_hs as [Hr Hl]. unfold Footer_DecodeFrom. rewrite footer_length, Nat.ltb_irrefl.
  assert (∀ n, drop (40 + n) (footer_bytes f) = drop n (EncodeFixed32 0x8b80fb57 ++ EncodeFixed32 0xdb477524)) as Hd.
  { intros n. unfold footer_bytes. fold hs. by rewrite drop_app_add' by (by rewrite Hl). }
  change (kEncodedLength - 8)%nat with (40 + 0)%nat. change (kEncodedLength - 4)%nat with (40 + 4)%nat. rewrite !Hd.
  rewrite drop_0, Decode_EncodeFixed32. cbn [mbind option_bind].
  rewrite drop_app_length' by (by rewrite length_EncodeFixed32). rewrite <- (app_nil_r (EncodeFixed32 _)), Decode_EncodeFixed32.
  cbn [mbind option_bind]. change (negb _) with false. cbv iota.
  assert (footer_bytes f = handle_bytes (metaindex_handle_ f) ++ handle_bytes (index_handle_ f) ++
    replicate (40 - length hs) x00 ++ EncodeFixed32 0x8b80fb57 ++ EncodeFixed32 0xdb477524) as ->.
  { unfold footer_bytes. fold hs. rewrite Hr. unfold hs. by rewrite <- !app_assoc. }
  rewrite DecodeFrom_bytes, DecodeFrom_bytes by done. rewrite drop_ge; [by destruct f|].
  rewrite !length_app in *. pose proof footer_length as Hfl. unfold footer_bytes in Hfl. fold hs in Hfl. rewrite Hr in Hfl. unfold hs in *.
  rewrite !length_app, !length_replicate, !length_EncodeFixed32 in *. lia.
Qed.
End footer.

(** ** Blocks in a file *)

Section stored.
Context (snappy zstd : Codec) (Hsnappy : codec_ok snappy) (Hzstd : codec_ok zstd).

(** [z] of type [t] stands for the block [raw]. *)
Definition stands_for (t : CompressionType) (z raw : list byte) : Prop :=
  match t with
  | kNoCompression => z = raw
  | kSnappyCompression => Compress snappy raw = Some z
  | kZstdCompression => Compress zstd raw = Some z
  end.

(** The bytes of a stored block: its contents, their type and the masked
    checksum of both. *)
Definition block_image (t : CompressionType) (z : list byte) : list byte :=
  z ++ [b8 (CompressionType_num t)] ++ EncodeFixed32 (Mask (crc32c 0 (z ++ [b8 (CompressionType_num t)]))).

(** The block [raw] is in the file under the handle [h]. *)
Definition stored (content : list byte) (h : BlockHandle) (raw : list byte) : Prop :=
  ∃ t z post, stands_for t z raw ∧ handle_ok h ∧ bh_size h = Z.of_nat (length z) ∧
    (Z.to_nat (bh_offset h) ≤ length content)%nat ∧ Z.of_nat (length content) < 2 ^ 63 ∧
    drop (Z.to_nat (bh_offset h)) content = block_image t z ++ post.

Lemma length_block_image t z : length (block_image t z) = (length z + 5)%nat.
Proof. unfold block_image. rewrite !length_app, length_EncodeFixed32. cbn. lia. Qed.

Lemma stored_app content h raw more : Z.of_nat (length (content ++ more)) < 2 ^ 63 →
  stored content h raw → stored (content ++ more) h raw.
Proof.
  intros Hlen (t & z & post & Hz & Hh & Hs & Ho & _ & Hd). exists t, z, (post ++ more).
  do 3 (split; [done|]). split; [rewrite length_app; lia|]. split; [done|].
  rewrite drop_app_le by done. by rewrite Hd, <- app_assoc.
Qed.

Lemma stored_snoc content t z raw :
  stands_for t z raw → Z.of_nat (length (content ++ block_image t z)) < 2 ^ 63 →
  stored (content ++ block_image t z) {| bh_offset := Z.of_nat (length content); bh_size := Z.of_nat (length z) |} raw.
Proof.
  intros Hz Hlen. pose proof (length_block_image t z) as Hi. rewrite length_app, Hi in Hlen.
  exists t, z, []. split; [done|]. split; [split; cbn [bh_offset bh_size]; unfold all_ones; lia|]. split; [done|].
  cbn [bh_offset]. rewrite Nat2Z.id, !length_app, Hi. split; [lia|]. split; [lia|]. by rewrite drop_app_length, app_nil_r.
Qed.

Context {R : Type} `{!RandomAccessFile R} {wf : R → Prop} {content : R → list byte} `{!RandomAccessFileLaws R wf content}.
Context (allocates : R → bool) (addr : Z).

(** A stored block is read back, whatever its compression, with checksums
    verified or not. *)
Lemma ReadBlock_stored verify file h raw :
  wf file → stored (content file) h raw →
  ∃ c, ReadBlock snappy zstd allocates addr verify file h = Some (Status_OK, {| bc_data := raw; cachable := c |}).
Proof using All.
  intros Hwf (t & z & post & Hz & [Hh1 Hh2] & Hs & Ho & Hsz & Hd). unfold ReadBlock. cbv zeta. unfold kBlockTrailerSize.
  assert (length z + 5 ≤ length (content file))%nat as Hle.
  { apply (f_equal length) in Hd. rewrite length_drop, length_app, length_block_image in Hd. lia. }
  rewrite Hs, u64_small by lia. replace (Z.to_nat (Z.of_nat (length z) + 5)) with (length (block_image t z)) by (rewrite length_block_image; lia).
  rewrite (pread_ok file (bh_offset h)) by (done || lia). rewrite Hd, take_app_length. cbn [ok Status_OK state_ negb].
  rewrite length_block_image. rewrite (proj2 (Z.eqb_eq _ _)) by lia. cbn [negb]. rewrite (proj2 (Z.ltb_ge _ _)) by lia.
  rewrite Nat2Z.id. set (tb := b8 (CompressionType_num t)).
  assert (take (length z + 1) (block_image t z) = z ++ [tb]) as ->.
  { unfold block_image. fold tb. rewrite app_assoc. apply take_app_length'. by rewrite length_app. }
  assert (DecodeFixed32 (drop (length z + 1) (block_image t z)) = Some (Mask (crc32c 0 (z ++ [tb])))) as ->.
  { unfold block_image. fold tb. rewrite app_assoc, drop_app_length' by (by rewrite length_app).
    rewrite <- (app_nil_r (EncodeFixed32 _)), Decode_EncodeFixed32. by rewrite u32_small by apply Mask_range. }
  cbn [mbind option_bind]. rewrite Unmask_Mask by (apply crc32c_range; lia).
  unfold Value. rewrite Extend_bits by lia. rewrite Z.eqb_refl.
  assert ((if verify then Some true else Some true) = Some true) as -> by (by destruct verify). cbn [mbind option_bind negb].
  assert (block_image t z !!! length z = tb) as ->.
  { rewrite list_lookup_total_alt. unfold block_image. by rewrite lookup_app_r, Nat.sub_diag by lia. }
  assert (take (length z) (block_image t z) = z) as -> by (unfold block_image; apply take_app_length).
  unfold tb. rewrite u8_b8. destruct t; cbn [stands_for CompressionType_num] in *.
  - subst z. by eexists.
  - destruct (Hsnappy _ _ Hz) as [Hl Hu]. exists false. cbn -[uncompress]. unfold uncompress.
    by rewrite Hl, Hu, Nat2Z.id, take_ge.
  - destruct (Hzstd _ _ Hz) as [Hl Hu]. exists false. cbn -[uncompress]. unfold uncompress.
    by rewrite Hl, Hu, Nat2Z.id, take_ge.
Qed.
End stored.
