(* ===== verification/TableBuilder.v ===== *)
(** Building a table file (table/table_builder.cc). *)
From stdpp Require Import sorting.
From S2P Require Import Prelude Coding Crc32c Env Comparator FilterPolicy FilterBlock Iterator TwoLevel Block Format.

(** The options the table code reads. *)
Record Options (C P : Type) := {
  comparator : C;
  block_size : Z;
  block_restart_interval : Z;
  compression : CompressionType;
  filter_policy : option P;
  paranoid_checks : bool;
}.
Arguments comparator {C P} _.
Arguments block_size {C P} _.
Arguments block_restart_interval {C P} _.
Arguments compression {C P} _.
Arguments filter_policy {C P} _.
Arguments paranoid_checks {C P} _.

Section table_builder.
Context {C P F : Type} `{!Comparator C, !EqDecision C, !FilterPolicy P, !WritableFile F}.

(** [policy_name] is [FilterPolicy::Name]; [addr] the address of a buffer the
    checksum runs over. *)
Context (snappy zstd : Codec) (policy_name : P → list byte) (addr : Z).

Record Rep := {
  tb_options : Options C P;
  tb_file : F;
  tb_offset : Z;
  tb_status : Status;
  tb_data_block : BlockBuilder;
  tb_index_block : BlockBuilder;
  tb_last_key : list byte;
  tb_num_entries : Z;
  tb_closed : bool;
  tb_filter_block : option (@FilterBlockBuilder P);
  pending_index_entry : bool;
  pending_handle : BlockHandle;
}.
Implicit Types r : Rep.

Definition set_file (f : F) (offset : Z) (s : Status) r : Rep :=
  {| tb_options := tb_options r; tb_file := f; tb_offset := offset; tb_status := s;
     tb_data_block := tb_data_block r; tb_index_block := tb_index_block r; tb_last_key := tb_last_key r;
     tb_num_entries := tb_num_entries r; tb_closed := tb_closed r; tb_filter_block := tb_filter_block r;
     pending_index_entry := pending_index_entry r; pending_handle := pending_handle r |}.

Definition set_blocks (data index : BlockBuilder) (last_key : list byte) (num : Z) r : Rep :=
  {| tb_options := tb_options r; tb_file := tb_file r; tb_offset := tb_offset r; tb_status := tb_status r;
     tb_data_block := data; tb_index_block := index; tb_last_key := last_key;
     tb_num_entries := num; tb_closed := tb_closed r; tb_filter_block := tb_filter_block r;
     pending_index_entry := pending_index_entry r; pending_handle := pending_handle r |}.

Definition set_pending (pending : bool) (h : BlockHandle) r : Rep :=
  {| tb_options := tb_options r; tb_file := tb_file r; tb_offset := tb_offset r; tb_status := tb_status r;
     tb_data_block := tb_data_block r; tb_index_block := tb_index_block r; tb_last_key := tb_last_key r;
     tb_num_entries := tb_num_entries r; tb_closed := tb_closed r; tb_filter_block := tb_filter_block r;
     pending_index_entry := pending; pending_handle := h |}.

Definition set_filter (fb : option FilterBlockBuilder) r : Rep :=
  {| tb_options := tb_options r; tb_file := tb_file r; tb_offset := tb_offset r; tb_status := tb_status r;
     tb_data_block := tb_data_block r; tb_index_block := tb_index_block r; tb_last_key := tb_last_key r;
     tb_num_entries := tb_num_entries r; tb_closed := tb_closed r; tb_filter_block := fb;
     pending_index_entry := pending_index_entry r; pending_handle := pending_handle r |}.

Definition set_closed r : Rep :=
  {| tb_options := tb_options r; tb_file := tb_file r; tb_offset := tb_offset r; tb_status := tb_status r;
     tb_data_block := tb_data_block r; tb_index_block := tb_index_block r; tb_last_key := tb_last_key r;
     tb_num_entries := tb_num_entries r; tb_closed := true; tb_filter_block := tb_filter_block r;
     pending_index_entry := pending_index_entry r; pending_handle := pending_handle r |}.

(** [if (r->filter_block != nullptr) r->filter_block->StartBlock(offset)]. *)
Definition start_filter (offset : Z) r : option Rep :=
  match tb_filter_block r with
  | None => Some r
  | Some fb => fb ← StartBlock offset fb; Some (set_filter (Some fb) r)
  end.

Definition TableBuilder_new (options : Options C P) (file : F) : option Rep :=
  data ← BlockBuilder_new (block_restart_interval options);
  start_filter 0 {| tb_options := options; tb_file := file; tb_offset := 0; tb_status := Status_OK;
    tb_data_block := data; tb_index_block := BlockBuilder_Reset; tb_last_key := []; tb_num_entries := 0;
    tb_closed := false; tb_filter_block := FilterBlockBuilder_new <$> filter_policy options;
    pending_index_entry := false; pending_handle := BlockHandle_new |}.

Definition ChangeOptions (options : Options C P) r : Rep * Status :=
  if decide (comparator options = comparator (tb_options r))
  then ({| tb_options := options; tb_file := tb_file r; tb_offset := tb_offset r; tb_status := tb_status r;
           tb_data_block := tb_data_block r; tb_index_block := tb_index_block r; tb_last_key := tb_last_key r;
           tb_num_entries := tb_num_entries r; tb_closed := tb_closed r; tb_filter_block := tb_filter_block r;
           pending_index_entry := pending_index_entry r; pending_handle := pending_handle r |}, Status_OK)
  else (r, InvalidArgument (str "changing comparator while building table") []).

Definition WriteRawBlock (block_contents : list byte) (type : CompressionType) r : Rep * BlockHandle :=
  let handle := {| bh_offset := tb_offset r; bh_size := Z.of_nat (length block_contents) |} in
  let '(file, s) := Append (tb_file r) block_contents in
  if ok s
  then let tb := [b8 (CompressionType_num type)] in
       let crc := Extend addr (Value addr block_contents) tb in
       let '(file, s) := Append file (tb ++ EncodeFixed32 (Mask crc)) in
       (set_file file (if ok s then u64 (tb_offset r + Z.of_nat (length block_contents) + kBlockTrailerSize)
                       else tb_offset r) s r, handle)
  else (set_file file (tb_offset r) s r, handle).

(** What [WriteBlock] stores for a finished block. *)
Definition compress (type : CompressionType) (raw : list byte) : list byte * CompressionType :=
  let keep (z : option (list byte)) :=
    match z with
    | Some z => if Z.of_nat (length z) <? Z.of_nat (length raw) - Z.of_nat (length raw) / 8
                then (z, type) else (raw, kNoCompression)
    | None => (raw, kNoCompression)
    end in
  match type with
  | kNoCompression => (raw, kNoCompression)
  | kSnappyCompression => keep (Compress snappy raw)
  | kZstdCompression => keep (Compress zstd raw)
  end.

(** The block itself is reset by the caller, which holds it. *)
Definition WriteBlock (block : BlockBuilder) r : option (Rep * BlockHandle) :=
  if negb (ok (tb_status r)) then None else
  let '(_, raw) := BlockBuilder_Finish block in
  let '(contents, type) := compress (compression (tb_options r)) raw in
  Some (WriteRawBlock contents type r).

Definition TableBuilder_Flush r : option Rep :=
  if tb_closed r then None else
  if negb (ok (tb_status r)) then Some r else
  if BlockBuilder_empty (tb_data_block r) then Some r else
  if pending_index_entry r then None else
  '(r, handle) ← WriteBlock (tb_data_block r) r;
  let r := set_pending (pending_index_entry r) handle
             (set_blocks BlockBuilder_Reset (tb_index_block r) (tb_last_key r) (tb_num_entries r) r) in
  let r := if ok (tb_status r)
           then let '(file, s) := Flush (tb_file r) in
                set_file file (tb_offset r) s (set_pending true (pending_handle r) r)
           else r in
  start_filter (tb_offset r) r.

(** The index entry of the block before, under a key not below its keys. *)
Definition add_index (key : list byte) r : option Rep :=
  handle_encoding ← BlockHandle_EncodeTo [] (pending_handle r);
  index ← BlockBuilder_Add (comparator (tb_options r)) 1 key handle_encoding (tb_index_block r);
  Some (set_pending false (pending_handle r) (set_blocks (tb_data_block r) index key (tb_num_entries r) r)).

Definition TableBuilder_Add (key value : list byte) r : option Rep :=
  if tb_closed r then None else
  if negb (ok (tb_status r)) then Some r else
  if (0 <? tb_num_entries r) && (Compare (comparator (tb_options r)) key (tb_last_key r) <=? 0) then None else
  r ← (if pending_index_entry r
       then if BlockBuilder_empty (tb_data_block r)
            then add_index (FindShortestSeparator (comparator (tb_options r)) (tb_last_key r) key) r
            else None
       else Some r);
  let r := set_filter (AddKey key <$> tb_filter_block r) r in
  data ← BlockBuilder_Add (comparator (tb_options r)) (block_restart_interval (tb_options r)) key value (tb_data_block r);
  let r := set_blocks data (tb_index_block r) key (tb_num_entries r + 1) r in
  if block_size (tb_options r) <=? CurrentSizeEstimate (tb_data_block r) then TableBuilder_Flush r else Some r.

Definition TableBuilder_Finish r : option (Rep * Status) :=
  r ← TableBuilder_Flush r;
  if tb_closed r then None else
  let r := set_closed r in
  '(r, filter_block_handle) ←
    (match tb_filter_block r with
     | Some fb => if ok (tb_status r)
                  then contents ← FilterBlock_Finish fb; Some (WriteRawBlock contents kNoCompression r)
                  else Some (r, BlockHandle_new)
     | None => Some (r, BlockHandle_new)
     end);
  '(r, metaindex_block_handle) ←
    (if ok (tb_status r)
     then meta ← BlockBuilder_new (block_restart_interval (tb_options r));
          meta ← (match filter_policy (tb_options r), tb_filter_block r with
                  | Some p, Some _ =>
                      handle_encoding ← BlockHandle_EncodeTo [] filter_block_handle;
                      BlockBuilder_Add (comparator (tb_options r)) (block_restart_interval (tb_options r))
                        (str "filter." ++ policy_name p) handle_encoding meta
                  | _, _ => Some meta
                  end);
          WriteBlock meta r
     else Some (r, BlockHandle_new));
  '(r, index_block_handle) ←
    (if ok (tb_status r)
     then r ← (if pending_index_entry r
               then add_index (FindShortSuccessor (comparator (tb_options r)) (tb_last_key r)) r
               else Some r);
          '(r, h) ← WriteBlock (tb_index_block r) r;
          Some (set_blocks (tb_data_block r) BlockBuilder_Reset (tb_last_key r) (tb_num_entries r) r, h)
     else Some (r, BlockHandle_new));
  if ok (tb_status r)
  then footer_encoding ← Footer_EncodeTo [] {| metaindex_handle_ := metaindex_block_handle; index_handle_ := index_block_handle |};
       let '(file, s) := Append (tb_file r) footer_encoding in
       let r := set_file file (if ok s then u64 (tb_offset r + Z.of_nat (length footer_encoding)) else tb_offset r) s r in
       Some (r, tb_status r)
  else Some (r, tb_status r).

Definition Abandon r : option Rep := if tb_closed r then None else Some (set_closed r).
Definition NumEntries r : Z := tb_num_entries r.
Definition FileSize r : Z := tb_offset r.
End table_builder.
Arguments Rep C P F : clear implicits.

(** ** Writing blocks *)

Lemma build_blocks_app {P} `{!FilterPolicy P} l1 l2 (b : @FilterBlockBuilder P) :
  build_blocks (l1 ++ l2) b = b ← build_blocks l1 b; build_blocks l2 b.
Proof.
  revert b; induction l1 as [|[off keys] l1 IH]; intros b; [done|]. cbn [app build_blocks].
  destruct (StartBlock off b); [|done]. cbn [mbind option_bind]. apply IH.
Qed.

Lemma group_sublist blocks i : group blocks i `sublist_of` mjoin (snd <$> blocks).
Proof.
  unfold group. induction blocks as [|[off keys] blocks IH]; [done|]. rewrite fmap_cons, filter_cons.
  destruct (decide _); cbn [fmap list_fmap mjoin list_join snd].
  - by apply sublist_app.
  - by apply sublist_inserts_l.
Qed.

Section builder_proofs.
Context {C P F : Type} `{!Comparator C, !EqDecision C, !FilterPolicy P, !WritableFile F}.
Context {valid : list byte → Prop} `{!ComparatorLaws C valid}.
Context {wf : F → Prop} {content : F → list byte} `{!WritableFileLaws F wf content}.
Context {good : P → list (list byte) → Prop} `{!FilterPolicyLaws P good}.
Context (snappy zstd : Codec) (policy_name : P → list byte) (addr : Z) (opts : Options C P).

(** [same k k'] when a search for [k] is to find an entry with the key [k']. *)
Context (same : list byte → list byte → Prop).
Notation c := (comparator opts).
Notation clen f := (Z.of_nat (length (content f))).
Notation stored := (stored snappy zstd).
Notation interval := (block_restart_interval opts).
Implicit Types r : Rep C P F.

Lemma WriteRawBlock_spec r z t :
  wf (tb_file r) → tb_offset r = clen (tb_file r) → clen (tb_file r) + Z.of_nat (length z) + 5 < 2 ^ 63 →
  ∃ file, WriteRawBlock addr z t r =
      (set_file file (clen file) Status_OK r, {| bh_offset := clen (tb_file r); bh_size := Z.of_nat (length z) |}) ∧
    wf file ∧ content file = content (tb_file r) ++ block_image t z.
Proof.
  intros Hwf Hoff Hsz. unfold WriteRawBlock. destruct (append_ok (tb_file r) z Hwf) as (f1 & -> & Hwf1 & Hc1).
  cbn [ok Status_OK state_]. set (tb := [b8 (CompressionType_num t)]).
  set (trailer := tb ++ EncodeFixed32 (Mask (Extend addr (Value addr z) tb))).
  destruct (append_ok f1 trailer Hwf1) as (f2 & -> & Hwf2 & Hc2). cbn [ok Status_OK state_].
  assert (content f2 = content (tb_file r) ++ block_image t z) as Hc.
  { rewrite Hc2, Hc1, <- app_assoc. unfold trailer, block_image. fold tb. unfold Value.
    rewrite (Extend_bits addr 0 z), (Extend_bits addr), crc32c_app by (done || by apply crc32c_range). done. }
  exists f2. split; [|done]. rewrite Hoff. do 2 f_equal. rewrite Hc, length_app, length_block_image.
  unfold kBlockTrailerSize. rewrite u64_small; lia.
Qed.

Lemma compress_stands type raw :
  let '(z, t) := compress snappy zstd type raw in stands_for snappy zstd t z raw ∧ (length z ≤ length raw)%nat.
Proof.
  unfold compress. pose proof (Z.div_pos (Z.of_nat (length raw)) 8). destruct type; [done|..].
  - destruct (Compress snappy raw) as [z|] eqn:Hz; [|done]. destruct (Z.ltb_spec (Z.of_nat (length z))
      (Z.of_nat (length raw) - Z.of_nat (length raw) / 8)); [|done]. split; [done|lia].
  - destruct (Compress zstd raw) as [z|] eqn:Hz; [|done]. destruct (Z.ltb_spec (Z.of_nat (length z))
      (Z.of_nat (length raw) - Z.of_nat (length raw) / 8)); [|done]. split; [done|lia].
Qed.

Lemma WriteBlock_spec b r :
  let raw := (BlockBuilder_Finish b).2 in
  tb_status r = Status_OK → wf (tb_file r) → tb_offset r = clen (tb_file r) →
  clen (tb_file r) + Z.of_nat (length raw) + 5 < 2 ^ 63 →
  ∃ file h, WriteBlock snappy zstd addr b r = Some (set_file file (clen file) Status_OK r, h) ∧ wf file ∧
    bh_offset h = clen (tb_file r) ∧ stored (content file) h raw ∧ (∃ more, content file = content (tb_file r) ++ more) ∧
    clen (tb_file r) + 5 <= clen file <= clen (tb_file r) + Z.of_nat (length raw) + 5.
Proof.
  intros raw Hst Hwf Hoff Hsz. unfold WriteBlock. rewrite Hst. cbn [ok Status_OK state_ negb].
  destruct (BlockBuilder_Finish b) as [b' raw'] eqn:Hfin. cbn [snd] in raw. subst raw.
  pose proof (compress_stands (compression (tb_options r)) raw') as Hcs.
  destruct (compress _ _ _ raw') as [z t]. destruct Hcs as [Hz Hl].
  destruct (WriteRawBlock_spec r z t Hwf Hoff ltac:(lia)) as (file & -> & Hwf' & Hc).
  eexists file, _. split; [done|]. split; [done|]. split; [done|]. rewrite Hc, length_app, length_block_image.
  split_and!; [|by eexists|lia|lia]. apply stored_snoc; [done|]. rewrite length_app, length_block_image. lia.
Qed.

(** ** The builder's invariant *)

(** The blocks as the filter builder sees them. *)
Definition filter_blocks (hs : list BlockHandle) (blks : list (list kv)) (off : Z) (cur : list kv) : list (Z * list (list byte)) :=
  zip_with (λ h b, (bh_offset h, fst <$> b)) hs blks ++ [(off, fst <$> cur)].

(** A search for [k] above block [j] does not stop at [s] when the next entry is
    what it is to find. *)
Definition tight (b rest : list kv) (s : list byte) : Prop :=
  ∀ k f, head rest = Some f → valid k → (∀ x, x ∈ b → Compare c x.1 k < 0) → Compare c k f.1 <= 0 → same k f.1 → Compare c s k < 0.

(** [s] separates block [j] from what follows. *)
Definition separates (blks : list (list kv)) (cur : list kv) (j : nat) (s : list byte) : Prop :=
  valid s ∧ (∀ b e, blks !! j = Some b → e ∈ b → Compare c e.1 s <= 0) ∧
  (∀ j' b e, (j < j')%nat → blks !! j' = Some b → e ∈ b → Compare c s e.1 < 0) ∧
  (∀ e, e ∈ cur → Compare c s e.1 < 0) ∧
  (∀ b, blks !! j = Some b → tight b (flat (drop (S j) blks) ++ cur) s).

Record tb_inv r (blks : list (list kv)) (hs : list BlockHandle) (ik cur : list kv) : Prop := {
  ti_options : tb_options r = opts;
  ti_status : tb_status r = Status_OK;
  ti_closed : tb_closed r = false;
  ti_wf : wf (tb_file r);
  ti_offset : tb_offset r = clen (tb_file r);
  ti_size : clen (tb_file r) <= 2 * (block_bound (flat blks) - 8);
  ti_data : holding interval (tb_data_block r) cur;
  ti_index : holding 1 (tb_index_block r) ik;
  ti_pending : pending_index_entry r = bool_decide (cur = [] ∧ blks ≠ []);
  ti_handles : length hs = length blks;
  ti_ik : length ik = if pending_index_entry r then (length blks - 1)%nat else length blks;
  ti_bound : block_bound ik <= 3 * block_bound (flat (take (length ik) blks));
  ti_seps j s v : ik !! j = Some (s, v) → separates blks cur j s ∧ ∃ h, hs !! j = Some h ∧ v = handle_bytes h;
  ti_pending_handle : pending_index_entry r = true → last hs = Some (pending_handle r);
  ti_last e : last (flat blks ++ cur) = Some e → tb_last_key r = e.1;
  ti_num : 0 < tb_num_entries r → flat blks ++ cur ≠ [];
  ti_num0 : 0 <= tb_num_entries r;
  ti_stored j b h : blks !! j = Some b → hs !! j = Some h →
    b ≠ [] ∧ ∃ raw, stored (content (tb_file r)) h raw ∧ block_of c (valid := valid) raw b;
  ti_order i j h h' : hs !! i = Some h → hs !! j = Some h' → (i < j)%nat → bh_offset h < bh_offset h';
  ti_below i h : hs !! i = Some h → bh_offset h < clen (tb_file r);
  ti_filter : match filter_policy opts with
    | None => tb_filter_block r = None
    | Some p => ∃ fb, tb_filter_block r = Some fb ∧
        build_blocks (filter_blocks hs blks (tb_offset r) cur) (FilterBlockBuilder_new p) = Some fb
    end;
}.

(** What is asked of the entries of a table. *)
Record fine (l : list kv) : Prop := {
  fi_sorted : sorted_kvs (Compare c) l;
  fi_valid : Forall (λ e, valid e.1) l;
  fi_bound : block_bound l < 2 ^ 30;
  fi_good p ks : filter_policy opts = Some p → ks ≠ [] → ks `sublist_of` (fst <$> l) → good p ks;
}.

Lemma fine_prefix l1 l2 : fine (l1 ++ l2) → fine l1.
Proof.
  intros [Hs Hv Hb Hg]. split.
  - by apply StronglySorted_app in Hs as (_ & ? & _).
  - by apply Forall_app in Hv as [? _].
  - rewrite block_bound_app in Hb. pose proof (block_bound_pos l2). lia.
  - intros p ks Hp Hne Hsub. apply (Hg p ks Hp Hne). rewrite fmap_app. by apply sublist_inserts_r.
Qed.

Lemma fine_part l1 l2 : fine (l1 ++ l2) → sorted_kvs (Compare c) l2 ∧ Forall (λ e, valid e.1) l2 ∧ block_bound l2 < 2 ^ 30.
Proof.
  intros [Hs Hv Hb _]. split_and!.
  - by apply StronglySorted_app in Hs as (_ & _ & ?).
  - by apply Forall_app in Hv as [_ ?].
  - rewrite block_bound_app in Hb. pose proof (block_bound_pos l1). lia.
Qed.

Lemma filter_blocks_keys hs blks off cur : length hs = length blks →
  mjoin (snd <$> filter_blocks hs blks off cur) = fst <$> (flat blks ++ cur).
Proof.
  intros Hl. unfold filter_blocks. rewrite fmap_app, join_app, fmap_app. cbn. rewrite app_nil_r. f_equal.
  revert hs Hl; induction blks as [|b blks IH]; intros [|h hs] Hl; try done. cbn. rewrite fmap_app. f_equal. apply IH. by injection Hl.
Qed.

Lemma filter_blocks_sorted hs blks off cur :
  (∀ i j h h', hs !! i = Some h → hs !! j = Some h' → (i < j)%nat → bh_offset h < bh_offset h') →
  (∀ i h, hs !! i = Some h → 0 <= bh_offset h < off) → 0 <= off →
  StronglySorted (λ x y, x.1 <= y.1) (filter_blocks hs blks off cur) ∧ Forall (λ x, 0 <= x.1) (filter_blocks hs blks off cur).
Proof.
  intros Hord Hlt Hoff. unfold filter_blocks. revert blks; induction hs as [|h hs IH]; intros blks.
  { destruct blks; cbn; split; repeat constructor; done. }
  destruct blks as [|b blks]; [cbn; split; repeat constructor; done|]. cbn [zip_with app].
  destruct (IH (λ i j a a' Hi Hj Hij, Hord (S i) (S j) a a' Hi Hj ltac:(lia)) (λ i a Hi, Hlt (S i) a Hi) blks) as [IH1 IH2].
  split; constructor; [done| |by apply (Hlt 0%nat)|done].
  apply Forall_app. split; [|constructor; [pose proof (Hlt 0%nat h eq_refl); cbn; lia|done]].
  apply Forall_forall. intros x [k Hk]%list_elem_of_lookup. apply lookup_zip_with_Some in Hk as (h' & b' & -> & Hh' & _).
  cbn. apply Z.lt_le_incl. apply (Hord 0%nat (S k)); [done|done|lia].
Qed.

(** The filter builder can go through any run of these blocks. *)
Lemma filter_total p hs blks off cur :
  filter_policy opts = Some p → fine (flat blks ++ cur) → length hs = length blks →
  (∀ i j h h', hs !! i = Some h → hs !! j = Some h' → (i < j)%nat → bh_offset h < bh_offset h') →
  (∀ i h, hs !! i = Some h → 0 <= bh_offset h < off) → 0 <= off →
  ∃ fb, build_blocks (filter_blocks hs blks off cur) (FilterBlockBuilder_new p) = Some fb.
Proof.
  intros Hp Hf Hl Hord Hlt Hoff. destruct (filter_blocks_sorted hs blks off cur Hord Hlt Hoff) as [Hso Hpos].
  destruct (build_blocks_ok p (filter_blocks hs blks off cur)) as (fb & Hfb); [|done..|by exists fb].
  intros i Hne. apply (fi_good _ Hf p _ Hp Hne). rewrite <- (filter_blocks_keys hs blks off cur Hl). apply group_sublist.
Qed.

Lemma last_app_ne {A} (l1 l2 : list A) : l2 ≠ [] → last (l1 ++ l2) = last l2.
Proof. intros Hne. rewrite last_app. destruct l2 as [|x l2 _] using rev_ind; [done|]. by rewrite last_snoc. Qed.

Lemma handles_range r blks hs ik cur i h : tb_inv r blks hs ik cur → hs !! i = Some h → 0 <= bh_offset h < clen (tb_file r).
Proof.
  intros Hi Hh. split; [|by apply (ti_below _ _ _ _ _ Hi i)].
  destruct (lookup_lt_is_Some_2 blks i) as [b Hb]; [rewrite <- (ti_handles _ _ _ _ _ Hi); by eapply lookup_lt_Some|].
  destruct (ti_stored _ _ _ _ _ Hi i b h Hb Hh) as (_ & raw & (t & z & post & _ & [[? _] _] & _) & _). done.
Qed.

Lemma order_snoc (hs : list BlockHandle) h0 :
  (∀ i j h h', hs !! i = Some h → hs !! j = Some h' → (i < j)%nat → bh_offset h < bh_offset h') →
  (∀ i h, hs !! i = Some h → bh_offset h < bh_offset h0) →
  ∀ i j h h', (hs ++ [h0]) !! i = Some h → (hs ++ [h0]) !! j = Some h' → (i < j)%nat → bh_offset h < bh_offset h'.
Proof.
  intros Hord Hlt i j h h' Hi Hj Hij. apply lookup_app_Some in Hj as [Hj|[Hge Hj]].
  - rewrite lookup_app_l in Hi by (apply lookup_lt_Some in Hj; lia). by apply (Hord i j).
  - apply list_lookup_singleton_Some in Hj as [Hj <-]. rewrite lookup_app_l in Hi by lia. by apply (Hlt i).
Qed.

Lemma flush_empty r blks hs ik : tb_inv r blks hs ik [] → TableBuilder_Flush snappy zstd addr r = Some r.
Proof.
  intros Hi. unfold TableBuilder_Flush. rewrite (ti_closed _ _ _ _ _ Hi), (ti_status _ _ _ _ _ Hi). cbn [ok Status_OK state_ negb].
  by rewrite (holding_empty _ _ _ (ti_data _ _ _ _ _ Hi)).
Qed.

Lemma flat_snoc (blks : list (list kv)) cur : flat (blks ++ [cur]) = flat blks ++ cur.
Proof. rewrite join_app. cbn. by rewrite app_nil_r. Qed.

Lemma filter_blocks_snoc hs blks h cur off : length hs = length blks →
  filter_blocks (hs ++ [h]) (blks ++ [cur]) off [] = filter_blocks hs blks (bh_offset h) cur ++ [(off, [])].
Proof. intros Hl. unfold filter_blocks. rewrite zip_with_app by done. done. Qed.

(** Starting the filter of the next block. *)
Lemma start_filter_spec r blks hs ik cur h off :
  tb_inv r blks hs ik cur → fine (flat blks ++ cur) → bh_offset h = tb_offset r → tb_offset r < off →
  ∀ r2, tb_filter_block r2 = tb_filter_block r →
  ∃ fb, start_filter off r2 = Some (set_filter fb r2) ∧
    match filter_policy opts with
    | None => fb = None
    | Some p => ∃ b, fb = Some b ∧
        build_blocks (filter_blocks (hs ++ [h]) (blks ++ [cur]) off []) (FilterBlockBuilder_new p) = Some b
    end.
Proof.
  intros Hi Hf Hh Hoff r2 Hr2. pose proof (ti_filter _ _ _ _ _ Hi) as Hfilter. unfold start_filter. rewrite Hr2.
  pose proof (ti_handles _ _ _ _ _ Hi) as Hl. pose proof (ti_offset _ _ _ _ _ Hi) as Ho.
  destruct (filter_policy opts) as [p|] eqn:Hp.
  2:{ rewrite Hfilter. exists None. split; [|done]. f_equal. destruct r2. cbn in Hr2. unfold set_filter. cbn. by rewrite Hr2, Hfilter. }
  destruct Hfilter as (fb & -> & Hb).
  destruct (filter_total p (hs ++ [h]) (blks ++ [cur]) off []) as (fb' & Hfb').
  - done.
  - by rewrite app_nil_r, flat_snoc.
  - rewrite !length_app. cbn. lia.
  - apply order_snoc; [apply (ti_order _ _ _ _ _ Hi)|]. intros i h' Hh'. pose proof (handles_range _ _ _ _ _ i h' Hi Hh'). lia.
  - intros i h' [Hh'|[_ Hh']]%lookup_app_Some; [pose proof (handles_range _ _ _ _ _ i h' Hi Hh'); lia|].
    apply list_lookup_singleton_Some in Hh' as [_ <-]. lia.
  - lia.
  - pose proof Hfb' as Hrun. rewrite filter_blocks_snoc, build_blocks_app, Hh, Hb in Hrun by done. cbn [mbind option_bind build_blocks] in Hrun.
    destruct (StartBlock off fb) as [fb1|] eqn:Hs; [|done]. cbn in Hrun. injection Hrun as ->.
    exists (Some fb'). split; [done|]. by exists fb'.
Qed.

Hypothesis Hint : 1 <= interval.

Lemma flush_block r blks hs ik cur :
  tb_inv r blks hs ik cur → cur ≠ [] → fine (flat blks ++ cur) →
  ∃ r' h, TableBuilder_Flush snappy zstd addr r = Some r' ∧ tb_inv r' (blks ++ [cur]) (hs ++ [h]) ik [].
Proof.
  intros Hi Hne Hf. destruct (fine_part _ _ Hf) as (Hso & Hv & Hb). pose proof (fi_bound _ Hf) as Hbt.
  unfold TableBuilder_Flush. rewrite (ti_closed _ _ _ _ _ Hi), (ti_status _ _ _ _ _ Hi). cbn [ok Status_OK state_ negb].
  rewrite (holding_empty _ _ _ (ti_data _ _ _ _ _ Hi)), bool_decide_false by done.
  assert (pending_index_entry r = false) as Hp by (rewrite (ti_pending _ _ _ _ _ Hi); apply bool_decide_false; naive_solver).
  rewrite Hp. rewrite block_bound_app in Hbt. pose proof (ti_size _ _ _ _ _ Hi) as Hsz.
  assert (27 <= block_bound cur) as H27.
  { destruct cur as [|e cur]; [done|]. pose proof (block_bound_key (e :: cur) e ltac:(left)). lia. }
  destruct (holding_Finish c (valid := valid) interval _ cur (ti_data _ _ _ _ _ Hi) Hso Hv ltac:(lia)) as [Hof Hraw].
  destruct (WriteBlock_spec (tb_data_block r) r (ti_status _ _ _ _ _ Hi) (ti_wf _ _ _ _ _ Hi) (ti_offset _ _ _ _ _ Hi))
    as (file & h & -> & Hwf & Hho & Hst & (more & Hmore) & Hlen); [lia|].
  cbn [mbind option_bind tb_status set_file set_pending set_blocks tb_file tb_offset ok Status_OK state_].
  destruct (flush_ok file Hwf) as (file' & -> & Hwf' & Hc'). cbn [pending_handle pending_index_entry].
  rewrite <- Hc' in *. pose proof (ti_handles _ _ _ _ _ Hi) as Hl. pose proof (ti_offset _ _ _ _ _ Hi) as Ho.
  match goal with |- context [start_filter ?off ?r2] =>
    destruct (start_filter_spec r blks hs ik cur h off Hi Hf ltac:(congruence) ltac:(cbn; lia) r2 eq_refl) as (fb & -> & Hfb) end.
  eexists _, h. split; [done|]. cbn in Hfb.
  pose proof (ti_ik _ _ _ _ _ Hi) as Hik. rewrite Hp in Hik.
  split; cbn [set_filter set_file set_pending set_blocks tb_options tb_status tb_closed tb_file tb_offset tb_data_block
    tb_index_block pending_index_entry pending_handle tb_last_key tb_num_entries tb_filter_block].
  - apply (ti_options _ _ _ _ _ Hi).
  - done.
  - apply (ti_closed _ _ _ _ _ Hi).
  - done.
  - done.
  - rewrite flat_snoc, block_bound_app. lia.
  - by apply holding_Reset.
  - apply (ti_index _ _ _ _ _ Hi).
  - symmetry. apply bool_decide_true. split; [done|]. by destruct blks.
  - rewrite !length_app. cbn. lia.
  - rewrite length_app. cbn. lia.
  - rewrite Hik, take_app_le, take_ge by lia. pose proof (ti_bound _ _ _ _ _ Hi) as Htb.
    rewrite Hik, take_ge in Htb by lia. done.
  - intros j s v Hj. destruct (ti_seps _ _ _ _ _ Hi j s v Hj) as ((Hvs & Hup & Hlo & Hcur & Hti) & hj & Hhj & ->).
    pose proof (lookup_lt_Some _ _ _ Hj) as Hjl. split; [|exists hj; split; [by apply lookup_app_l_Some|done]].
    split_and!; [done| | |by intros e ?%not_elem_of_nil|].
    + intros b e Hbj. rewrite lookup_app_l in Hbj by lia. by apply Hup.
    + intros j' b e Hjj [Hb'|[_ Hb']]%lookup_app_Some; [by apply (Hlo j')|].
      apply list_lookup_singleton_Some in Hb' as [_ <-]. apply Hcur.
    + intros b Hbj. rewrite lookup_app_l in Hbj by lia. rewrite drop_app_le, flat_snoc, app_nil_r by lia. by apply Hti.
  - intros _. by rewrite last_snoc.
  - intros e He. apply (ti_last _ _ _ _ _ Hi e). by rewrite app_nil_r, flat_snoc in He.
  - intros Hn. rewrite app_nil_r, flat_snoc. by apply (ti_num _ _ _ _ _ Hi).
  - apply (ti_num0 _ _ _ _ _ Hi).
  - intros j b hj [Hbj|[Hge Hbj]]%lookup_app_Some Hhj.
    + rewrite lookup_app_l in Hhj by (apply lookup_lt_Some in Hbj; lia).
      destruct (ti_stored _ _ _ _ _ Hi j b hj Hbj Hhj) as (Hbne & raw & Hsr & Hbr). split; [done|]. exists raw. split; [|done].
      rewrite Hmore in *. apply stored_app; [|done]. lia.
    + apply list_lookup_singleton_Some in Hbj as [Hj <-]. rewrite lookup_app_r in Hhj by lia.
      apply list_lookup_singleton_Some in Hhj as [_ <-]. split; [done|]. by eexists.
  - apply order_snoc; [apply (ti_order _ _ _ _ _ Hi)|]. intros i h' Hh'. pose proof (handles_range _ _ _ _ _ i h' Hi Hh'). lia.
  - intros i h' [Hh'|[_ Hh']]%lookup_app_Some; [pose proof (handles_range _ _ _ _ _ i h' Hi Hh'); lia|].
    apply list_lookup_singleton_Some in Hh' as [_ <-]. lia.
  - exact Hfb.
Qed.

(** ** Adding an entry *)

Hypothesis Hsep : ∀ a b, valid a → valid b → (length (FindShortestSeparator c a b) ≤ length a)%nat.
Hypothesis Hsame : ∀ a k b, valid a → valid k → valid b → Compare c a k < 0 → Compare c k b <= 0 → same k b →
  Compare c (FindShortestSeparator c a b) k < 0.
Hypothesis Hsucc : ∀ a, valid a → (length (FindShortSuccessor c a) ≤ length a)%nat.

Lemma last_block r blks hs ik : tb_inv r blks hs ik [] → blks ≠ [] → fine (flat blks) →
  ∃ b h e, last blks = Some b ∧ last hs = Some h ∧ handle_ok h ∧ pending_handle r = h ∧
    length blks = S (length ik) ∧ flat blks = flat (take (length ik) blks) ++ b ∧ e ∈ b ∧ valid e.1 ∧
    tb_last_key r = e.1 ∧ last (flat blks) = Some e ∧ ∀ x, x ∈ b → valid x.1 ∧ Compare c x.1 e.1 <= 0.
Proof.
  intros Hi Hne Hf. assert (pending_index_entry r = true) as Hp by (rewrite (ti_pending _ _ _ _ _ Hi); by apply bool_decide_true).
  pose proof (ti_pending_handle _ _ _ _ _ Hi Hp) as Hh. pose proof (ti_ik _ _ _ _ _ Hi) as Hik. rewrite Hp in Hik.
  pose proof (ti_handles _ _ _ _ _ Hi) as Hl. destruct blks as [|b blks _] using rev_ind; [done|].
  rewrite length_app in Hik, Hl. cbn in Hik, Hl. rewrite last_lookup in Hh.
  destruct (ti_stored _ _ _ _ _ Hi (length blks) b (pending_handle r)) as (Hbne & raw & (t & z & post & _ & Hok & _) & _).
  { by rewrite lookup_app_r, Nat.sub_diag by lia. } { by replace (length blks) with (pred (length hs)) by lia. }
  destruct b as [|e b _] using rev_ind; [done|]. exists (b ++ [e]), (pending_handle r), e.
  rewrite last_snoc, length_app. assert (length ik = length blks) as -> by lia. rewrite take_app_length, flat_snoc in *.
  assert (∀ x, x ∈ b ++ [e] → valid x.1) as Hval.
  { intros x Hx. apply (proj1 (Forall_forall _ _) (fi_valid _ Hf)). apply elem_of_app. by right. }
  assert (e ∈ b ++ [e]) as Hin by (apply elem_of_app; right; left).
  split; [done|]. split; [by rewrite last_lookup|]. split; [done|]. split; [done|]. split; [cbn; lia|]. split; [done|].
  split; [done|]. split; [by apply Hval|]. assert (last (flat blks ++ b ++ [e]) = Some e) as Hlast by (by rewrite app_assoc, last_snoc).
  split; [by apply (ti_last _ _ _ _ _ Hi); rewrite app_nil_r, flat_snoc|]. split; [done|].
  intros x Hx. split; [by apply Hval|]. apply elem_of_app in Hx as [Hx|Hx].
  - apply Z.lt_le_incl. pose proof (fi_sorted _ Hf) as Hso. rewrite app_assoc in Hso. apply StronglySorted_app in Hso as (Hcross & _ & _).
    apply (Hcross x e); [apply elem_of_app; by right|left].
  - apply list_elem_of_singleton in Hx as ->. rewrite compare_refl; [done|]. by apply Hval.
Qed.

Lemma add_index_spec r blks hs ik sep :
  tb_inv r blks hs ik [] → blks ≠ [] → fine (flat blks) → valid sep →
  Compare c (tb_last_key r) sep <= 0 → (length sep ≤ length (tb_last_key r))%nat →
  ∃ index h, add_index sep r =
      Some (set_pending false h (set_blocks (tb_data_block r) index sep (tb_num_entries r) r)) ∧ last hs = Some h ∧
    holding 1 index (ik ++ [(sep, handle_bytes h)]) ∧ length blks = S (length ik) ∧
    block_bound (ik ++ [(sep, handle_bytes h)]) <= 3 * block_bound (flat blks) ∧
    (∀ b e, last blks = Some b → e ∈ b → Compare c e.1 sep <= 0).
Proof.
  intros Hi Hne Hf Hv Hup Hlen.
  destruct (last_block r blks hs ik Hi Hne Hf) as (b & h & e & Hb & Hh & Hok & Hph & Hik & Hflat & Hin & Hve & Hlk & _ & Hall).
  rewrite Hlk in *. pose proof (handle_bytes_length h Hok) as Hhl. pose proof (fi_bound _ Hf) as Hfb.
  assert (block_bound (ik ++ [(sep, handle_bytes h)]) <= 3 * block_bound (flat blks)) as Hbound.
  { rewrite block_bound_app, Hflat, block_bound_app. pose proof (ti_bound _ _ _ _ _ Hi). pose proof (block_bound_key b e Hin).
    change (block_bound [(sep, handle_bytes h)]) with (19 + Z.of_nat (length sep) + Z.of_nat (length (handle_bytes h)) + 8). lia. }
  unfold add_index. rewrite Hph, EncodeTo_bytes by done. cbn [mbind option_bind app]. rewrite (ti_options _ _ _ _ _ Hi).
  destruct (holding_Add c 1 ltac:(lia) (tb_index_block r) ik sep (handle_bytes h) (ti_index _ _ _ _ _ Hi)) as (index & -> & Hhold).
  - intros [s0 v0] Hl0. rewrite last_lookup in Hl0. pose proof (lookup_lt_Some _ _ _ Hl0) as Hlt0.
    destruct (ti_seps _ _ _ _ _ Hi _ s0 v0 Hl0) as ((Hv0 & _ & Hlo & _) & _). cbn [fst].
    assert (Compare c s0 e.1 < 0) as H1.
    { apply (Hlo (pred (length blks)) b e); [lia|by rewrite <- last_lookup|done]. }
    pose proof (compare_lt_le_trans c s0 e.1 sep Hv0 Hve Hv H1 Hup). pose proof (compare_sym c s0 sep Hv0 Hv). lia.
  - lia.
  - cbn [mbind option_bind]. exists index, h. do 5 (split; [done|]). intros b' x Hb' Hx. rewrite Hb in Hb'. injection Hb' as <-.
    destruct (Hall x Hx) as [Hvx Hxe]. by apply (compare_trans c x.1 e.1 sep).
Qed.

(** The new index entry separates the last block from a key it is below. *)
Lemma seps_snoc r blks hs ik sep h cur2 :
  tb_inv r blks hs ik [] → valid sep → last hs = Some h → length blks = S (length ik) →
  (∀ b e, last blks = Some b → e ∈ b → Compare c e.1 sep <= 0) → (∀ e, e ∈ cur2 → Compare c sep e.1 < 0) →
  (∀ b, last blks = Some b → tight b cur2 sep) → (∀ j s v, ik !! j = Some (s, v) → separates blks cur2 j s) →
  ∀ j s v, (ik ++ [(sep, handle_bytes h)]) !! j = Some (s, v) → separates blks cur2 j s ∧ ∃ h, hs !! j = Some h ∧ v = handle_bytes h.
Proof.
  intros Hi Hv Hh Hl Hup Hcur Hti Hold j s v [Hj|[Hge Hj]]%lookup_app_Some.
  - destruct (ti_seps _ _ _ _ _ Hi j s v Hj) as (_ & Hh'). split; [by apply (Hold j s v)|done].
  - apply list_lookup_singleton_Some in Hj as [Hj [= <- <-]]. assert (j = pred (length blks)) as -> by lia. split.
    + split_and!; [done| | |done|].
      * intros b e Hb. apply Hup. by rewrite last_lookup.
      * intros j' b e Hj' Hb%lookup_lt_Some. lia.
      * intros b Hb. rewrite drop_ge by lia. apply Hti. by rewrite last_lookup.
    + exists h. split; [|done]. by rewrite <- (ti_handles _ _ _ _ _ Hi), <- last_lookup.
Qed.

(** The state after the entry is in the data block. *)
Lemma tb_inv_add r r2 blks hs ik ik2 cur key value :
  tb_inv r blks hs ik cur → tb_options r2 = tb_options r → tb_status r2 = tb_status r → tb_closed r2 = tb_closed r →
  tb_file r2 = tb_file r → tb_offset r2 = tb_offset r → holding interval (tb_data_block r2) (cur ++ [(key, value)]) →
  holding 1 (tb_index_block r2) ik2 → length ik2 = length blks → block_bound ik2 <= 3 * block_bound (flat blks) →
  (∀ j s v, ik2 !! j = Some (s, v) → separates blks (cur ++ [(key, value)]) j s ∧ ∃ h, hs !! j = Some h ∧ v = handle_bytes h) →
  pending_index_entry r2 = false → tb_last_key r2 = key → tb_num_entries r2 = tb_num_entries r + 1 →
  tb_filter_block r2 = AddKey key <$> tb_filter_block r →
  tb_inv r2 blks hs ik2 (cur ++ [(key, value)]).
Proof.
  intros Hi Ho Hs Hc Hfi Hof Hd Hx Hl Hb Hsp Hp Hlk Hn Hfb.
  pose proof (ti_num0 _ _ _ _ _ Hi).
  split; rewrite ?Ho, ?Hs, ?Hc, ?Hfi, ?Hof, ?Hp, ?Hlk, ?Hn, ?Hfb; try apply Hi; try done.
  - symmetry. apply bool_decide_false. intros [Hcur _]. by destruct cur.
  - by rewrite Hl, take_ge.
  - intros e. rewrite app_assoc, last_snoc. by intros [= <-].
  - intros _. rewrite app_assoc. by destruct (flat blks ++ cur).
  - lia.
  - pose proof (ti_filter _ _ _ _ _ Hi) as Hf. destruct (filter_policy opts) as [p|]; [|by rewrite Hf].
    destruct Hf as (fb & -> & Hrun). eexists. split; [done|]. unfold filter_blocks in *. rewrite build_blocks_app in Hrun |- *.
    destruct (build_blocks _ (FilterBlockBuilder_new p)) as [b0|]; [|done]. cbn [mbind option_bind build_blocks] in *.
    destruct (StartBlock (tb_offset r) b0) as [b1|]; [|done]. cbn [mbind option_bind] in *.
    injection Hrun as <-. by rewrite fmap_app, foldl_app.
Qed.

Lemma fine_last l key value e : fine (l ++ [(key, value)]) → last l = Some e →
  Compare c e.1 key < 0 ∧ 0 < Compare c key e.1 ∧ valid e.1 ∧ valid key.
Proof.
  intros Hf He. apply last_Some_elem_of in He.
  assert (valid e.1) as Hve.
  { apply (proj1 (Forall_forall _ _) (fi_valid _ Hf)). apply elem_of_app. by left. }
  assert (valid key) as Hvk.
  { apply (proj1 (Forall_forall _ _) (fi_valid _ Hf) (key, value)). apply elem_of_app. right. left. }
  pose proof (fi_sorted _ Hf) as Hso. apply StronglySorted_app in Hso as (Hcross & _ & _).
  specialize (Hcross e (key, value) He ltac:(left)). cbn in Hcross. pose proof (compare_sym c e.1 key Hve Hvk). split_and!; [lia..|done|done].
Qed.

Lemma fine_before l key value e : fine (l ++ [(key, value)]) → e ∈ l → Compare c e.1 key < 0.
Proof.
  intros Hf He. pose proof (fi_sorted _ Hf) as Hso. apply StronglySorted_app in Hso as (Hcross & _ & _).
  apply (Hcross e (key, value) He). left.
Qed.

(** Separators stay below a new key. *)
Lemma separates_snoc blks cur j sep key value :
  separates blks cur j sep → fine ((flat blks ++ cur) ++ [(key, value)]) → (S j < length blks)%nat ∨ cur ≠ [] →
  (∀ j b, blks !! j = Some b → b ≠ []) → separates blks (cur ++ [(key, value)]) j sep.
Proof.
  intros (Hv & Hup & Hlo & Hcur & Hti) Hf Hex Hbne. split_and!; [done..| |].
  2:{ intros b Hb k f Hhd. apply (Hti b Hb k f). rewrite app_assoc in Hhd.
      destruct (flat (drop (S j) blks) ++ cur) as [|x L] eqn:HL; [|done]. exfalso. apply app_nil in HL as [HL ->].
      destruct Hex as [Hj|]; [|done]. destruct (lookup_lt_is_Some_2 blks (S j) Hj) as [b' Hb'].
      rewrite (drop_S _ _ _ Hb') in HL. cbn in HL. apply app_nil in HL as [-> _]. by apply Hbne in Hb'. }
  intros e [He|He]%elem_of_app; [by apply Hcur|]. apply list_elem_of_singleton in He as ->. cbn [fst].
  assert (valid key) as Hvk by (apply (proj1 (Forall_forall _ _) (fi_valid _ Hf) (key, value)); apply elem_of_app; right; left).
  assert (∃ x, x ∈ flat blks ++ cur ∧ Compare c sep x.1 < 0) as (x & Hx & Hsx).
  { destruct Hex as [Hj|Hne].
    - destruct (lookup_lt_is_Some_2 blks (S j) Hj) as [b Hb]. pose proof (Hbne _ _ Hb). destruct b as [|x b]; [done|].
      exists x. split; [|apply (Hlo (S j) (x :: b)); [lia|done|left]]. apply elem_of_app. left. apply list_elem_of_join.
      exists (x :: b). split; [left|by eapply list_elem_of_lookup_2].
    - destruct cur as [|x cur]; [done|]. exists x. split; [apply elem_of_app; right; left|]. apply Hcur. left. }
  assert (valid x.1) as Hvx by (apply (proj1 (Forall_forall _ _) (fi_valid _ Hf)); apply elem_of_app; by left).
  pose proof (fine_before _ _ _ x Hf Hx) as Hlt. apply (compare_lt_le_trans c sep x.1 key); [done..|lia].
Qed.

Lemma blocks_nonempty r blks hs ik cur j b : tb_inv r blks hs ik cur → blks !! j = Some b → b ≠ [].
Proof.
  intros Hi Hb. destruct (lookup_lt_is_Some_2 hs j) as [h Hh]; [rewrite (ti_handles _ _ _ _ _ Hi); by eapply lookup_lt_Some|].
  by apply (ti_stored _ _ _ _ _ Hi j b h).
Qed.

(** The pending index entry of the block before, when there is one. *)
Lemma index_before_add r blks hs ik cur key value :
  tb_inv r blks hs ik cur → fine ((flat blks ++ cur) ++ [(key, value)]) →
  ∃ index h sep ik2, (if pending_index_entry r
     then if BlockBuilder_empty (tb_data_block r)
          then add_index (FindShortestSeparator (comparator (tb_options r)) (tb_last_key r) key) r else None
     else Some r) = Some (set_pending false h (set_blocks (tb_data_block r) index sep (tb_num_entries r) r)) ∧
    holding 1 index ik2 ∧ length ik2 = length blks ∧ block_bound ik2 <= 3 * block_bound (flat blks) ∧
    (∀ j s v, ik2 !! j = Some (s, v) → separates blks (cur ++ [(key, value)]) j s ∧ ∃ h, hs !! j = Some h ∧ v = handle_bytes h).
Proof.
  intros Hi Hf. pose proof (fine_prefix _ _ Hf) as Hf0. pose proof (fine_prefix _ _ Hf0) as Hfb.
  destruct (pending_index_entry r) eqn:Hp.
  - pose proof (ti_pending _ _ _ _ _ Hi) as Hpd. rewrite Hp in Hpd. symmetry in Hpd. apply bool_decide_eq_true in Hpd as [-> Hne].
    rewrite (holding_empty _ _ _ (ti_data _ _ _ _ _ Hi)), bool_decide_true by done. rewrite (ti_options _ _ _ _ _ Hi).
    rewrite app_nil_r in *.
    destruct (last_block r blks hs ik Hi Hne Hfb) as (b & h0 & e & Hb & _ & _ & _ & _ & _ & Hin & _ & Hlk & Hle & _). rewrite Hlk.
    destruct (fine_last _ _ _ e Hf Hle) as (Hlt & _ & Hve & Hvk).
    destruct (separator_between c e.1 key Hve Hvk Hlt) as [Hs1 Hs2]. pose proof (separator_valid c e.1 key Hve Hvk) as Hvs.
    destruct (add_index_spec r blks hs ik (FindShortestSeparator c e.1 key) Hi Hne Hfb Hvs) as (index & h & -> & Hh & Hhold & Hl & Hbound & Hup).
    { by rewrite Hlk. } { rewrite Hlk. by apply Hsep. }
    eexists _, _, _, _. split; [done|]. split; [exact Hhold|]. split; [rewrite length_app; cbn; lia|]. split; [done|].
    apply (seps_snoc r); [done..| | |].
    + intros x Hx. apply list_elem_of_singleton in Hx as ->. done.
    + intros b' Hb' k f [= <-] Hvk' Hbk Hkf Hs. rewrite Hb in Hb'. injection Hb' as <-. apply Hsame; [done..|by apply Hbk|done|done].
    + intros j s v Hj. destruct (ti_seps _ _ _ _ _ Hi j s v Hj) as [Hs _]. apply lookup_lt_Some in Hj.
      apply (separates_snoc blks [] j s key value); [done|by rewrite app_nil_r|left; lia|]. intros j' b'. by apply (blocks_nonempty r _ hs ik []).
  - eexists (tb_index_block r), (pending_handle r), (tb_last_key r), ik. split; [destruct r; cbn in Hp; by rewrite Hp|].
    split; [apply (ti_index _ _ _ _ _ Hi)|]. pose proof (ti_ik _ _ _ _ _ Hi) as Hik. rewrite Hp in Hik. split; [done|].
    pose proof (ti_bound _ _ _ _ _ Hi) as Hb. rewrite Hik, take_ge in Hb by done. split; [done|].
    intros j s v Hj. destruct (ti_seps _ _ _ _ _ Hi j s v Hj) as [Hs Hh]. split; [|done].
    apply (separates_snoc blks cur j s key value); [done|done| |intros j' b'; by apply (blocks_nonempty r _ hs ik cur)].
    right. intros ->. pose proof (ti_pending _ _ _ _ _ Hi) as Hpd. rewrite Hp in Hpd. symmetry in Hpd.
    apply bool_decide_eq_false in Hpd. apply lookup_lt_Some in Hj. apply Hpd. split; [done|]. intros ->. cbn in *. lia.
Qed.

Lemma add_spec r blks hs ik cur key value :
  tb_inv r blks hs ik cur → fine ((flat blks ++ cur) ++ [(key, value)]) →
  ∃ r' blks' hs' ik' cur', TableBuilder_Add snappy zstd addr key value r = Some r' ∧ tb_inv r' blks' hs' ik' cur' ∧
    flat blks' ++ cur' = (flat blks ++ cur) ++ [(key, value)].
Proof.
  intros Hi Hf. unfold TableBuilder_Add. rewrite (ti_closed _ _ _ _ _ Hi), (ti_status _ _ _ _ _ Hi). cbn [ok Status_OK state_ negb].
  assert ((0 <? tb_num_entries r) && (Compare (comparator (tb_options r)) key (tb_last_key r) <=? 0) = false) as ->.
  { destruct (Z.ltb_spec 0 (tb_num_entries r)) as [Hn|]; [|done]. apply (ti_num _ _ _ _ _ Hi) in Hn. rewrite (ti_options _ _ _ _ _ Hi).
    destruct (last (flat blks ++ cur)) as [e|] eqn:He; [|by apply last_None in He].
    rewrite (ti_last _ _ _ _ _ Hi e He). apply Z.leb_gt. by eapply fine_last. }
  destruct (index_before_add r blks hs ik cur key value Hi Hf) as (index & h & sep & ik2 & -> & Hx & Hl & Hb & Hsp).
  cbn [mbind option_bind set_pending set_blocks set_filter tb_options tb_filter_block tb_data_block tb_index_block tb_num_entries].
  rewrite (ti_options _ _ _ _ _ Hi). pose proof Hf as Hf'. rewrite <- app_assoc in Hf'. destruct (fine_part _ _ Hf') as (_ & _ & Hbc).
  destruct (holding_Add c interval Hint (tb_data_block r) cur key value (ti_data _ _ _ _ _ Hi)) as (data & -> & Hhold).
  { intros e He. eapply fine_last; [exact Hf|]. by rewrite last_app, He. } { lia. }
  cbn [mbind option_bind tb_options].
  match goal with |- context [TableBuilder_Flush _ _ _ ?r0] => set (r2 := r0) end.
  assert (tb_inv r2 blks hs ik2 (cur ++ [(key, value)])) as Hi2.
  { apply (tb_inv_add r r2 blks hs ik ik2 cur key value Hi); done. }
  rewrite <- app_assoc. destruct (_ <=? _); [|by exists r2, blks, hs, ik2, (cur ++ [(key, value)])].
  destruct (flush_block r2 blks hs ik2 (cur ++ [(key, value)]) Hi2) as (r' & h' & Hr' & Hi'); [by destruct cur|done|].
  exists r', (blks ++ [cur ++ [(key, value)]]), (hs ++ [h']), ik2, []. split; [done|]. split; [done|]. by rewrite flat_snoc, app_nil_r.
Qed.

Fixpoint TableBuilder_Add_all (l : list kv) r : option (Rep C P F) :=
  match l with
  | [] => Some r
  | e :: l => r ← TableBuilder_Add snappy zstd addr e.1 e.2 r; TableBuilder_Add_all l r
  end.

Lemma add_all_spec l r blks hs ik cur :
  tb_inv r blks hs ik cur → fine ((flat blks ++ cur) ++ l) →
  ∃ r' blks' hs' ik' cur', TableBuilder_Add_all l r = Some r' ∧ tb_inv r' blks' hs' ik' cur' ∧
    flat blks' ++ cur' = (flat blks ++ cur) ++ l.
Proof.
  revert r blks hs ik cur; induction l as [|[key value] l IH]; intros r blks hs ik cur Hi Hf.
  { exists r, blks, hs, ik, cur. by rewrite app_nil_r. }
  cbn [TableBuilder_Add_all fst snd]. change ((key, value) :: l) with ([(key, value)] ++ l) in *. rewrite app_assoc in Hf |- *.
  destruct (add_spec r blks hs ik cur key value Hi (fine_prefix _ _ Hf)) as (r1 & blks1 & hs1 & ik1 & cur1 & -> & Hi1 & Heq).
  cbn [mbind option_bind]. rewrite <- Heq in Hf |- *. by apply (IH r1 blks1 hs1 ik1 cur1).
Qed.

(** ** Finishing the file *)

(** [f'] is [f] with at most [n] bytes more. *)
Definition extends (f f' : F) (n : Z) : Prop :=
  wf f' ∧ (∃ more, content f' = content f ++ more) ∧ clen f <= clen f' <= clen f + n.

Lemma stored_extends f f' n h raw : extends f f' n → clen f' < 2 ^ 63 → stored (content f) h raw → stored (content f') h raw.
Proof. intros (_ & (more & Hmore) & _) Hl. rewrite Hmore in *. by apply stored_app. Qed.

(** The blocks, the index, the filter and the footer of a finished table. *)
Record table_file (data : list byte) (footer : Footer) (blks : list (list kv)) (hs : list BlockHandle) (ik : list kv) : Prop := {
  tf_size : Z.of_nat (length data) < 2 ^ 63;
  tf_footer : ∃ body, data = body ++ footer_bytes footer;
  tf_handles_ok : handle_ok (metaindex_handle_ footer) ∧ handle_ok (index_handle_ footer);
  tf_handles : length hs = length blks;
  tf_index : ∃ raw, stored data (index_handle_ footer) raw ∧ block_of c (valid := valid) raw ik;
  tf_shape : index_shape (Compare c) valid ik blks;
  tf_tight j s v b : ik !! j = Some (s, v) → blks !! j = Some b → tight b (flat (drop (S j) blks)) s;
  tf_value j s v : ik !! j = Some (s, v) → ∃ h, hs !! j = Some h ∧ v = handle_bytes h;
  tf_blocks j b h : blks !! j = Some b → hs !! j = Some h →
    b ≠ [] ∧ handle_ok h ∧ ∃ raw, stored data h raw ∧ block_of c (valid := valid) raw b;
  tf_filter : ∃ raw, stored data (metaindex_handle_ footer) raw ∧
    match filter_policy opts with
    | None => block_of BytewiseComparator (valid := λ _, True) raw []
    | Some p => ∃ fh off contents,
        block_of BytewiseComparator (valid := λ _, True) raw [(str "filter." ++ policy_name p, handle_bytes fh)] ∧
        handle_ok fh ∧ stored data fh contents ∧
        build_filter_block p (filter_blocks hs blks off []) = Some contents ∧ Z.of_nat (length contents) < 2 ^ 32 ∧
        0 <= off ∧ (∀ i h, hs !! i = Some h → 0 <= bh_offset h < off)
    end;
  tf_meta i h : hs !! i = Some h → bh_offset h < bh_offset (metaindex_handle_ footer);
  tf_order i j h h' : hs !! i = Some h → hs !! j = Some h' → (i < j)%nat → bh_offset h < bh_offset h';
}.

Lemma stored_ok data h raw : stored data h raw → handle_ok h.
Proof. by intros (t & z & post & _ & ? & _). Qed.

Lemma index_complete r blks hs ik :
  tb_inv r blks hs ik [] → fine (flat blks) →
  ∃ r1 ik', (if pending_index_entry r then add_index (FindShortSuccessor (comparator (tb_options r)) (tb_last_key r)) r else Some r) = Some r1 ∧
    tb_file r1 = tb_file r ∧ tb_offset r1 = tb_offset r ∧ tb_status r1 = tb_status r ∧ tb_options r1 = tb_options r ∧
    holding 1 (tb_index_block r1) ik' ∧ block_bound ik' < 2 ^ 32 ∧ length ik' = length blks ∧
    (∀ j s v, ik' !! j = Some (s, v) → separates blks [] j s ∧ ∃ h, hs !! j = Some h ∧ v = handle_bytes h).
Proof.
  intros Hi Hf. pose proof (fi_bound _ Hf) as Hfb. destruct (pending_index_entry r) eqn:Hp.
  - pose proof (ti_pending _ _ _ _ _ Hi) as Hpd. rewrite Hp in Hpd. symmetry in Hpd. apply bool_decide_eq_true in Hpd as [_ Hne].
    destruct (last_block r blks hs ik Hi Hne Hf) as (b & h0 & e & _ & _ & _ & _ & _ & _ & _ & Hve & Hlk & _ & _).
    rewrite (ti_options _ _ _ _ _ Hi).
    destruct (add_index_spec r blks hs ik (FindShortSuccessor c (tb_last_key r)) Hi Hne Hf) as (index & h & -> & Hh & Hhold & Hl & Hbound & Hup).
    { rewrite Hlk. by apply successor_valid. } { rewrite Hlk. by apply successor_above. } { rewrite Hlk. by apply Hsucc. }
    eexists _, _. split; [done|]. cbn [set_pending set_blocks tb_file tb_offset tb_status tb_options tb_index_block].
    rewrite (ti_options _ _ _ _ _ Hi). do 4 (split; [done|]). split; [exact Hhold|]. split; [lia|].
    split; [rewrite length_app; cbn; lia|].
    apply (seps_snoc r); [done| |done..| | |].
    + rewrite Hlk. by apply successor_valid.
    + intros x Hx. by apply not_elem_of_nil in Hx.
    + by intros b' _ k f.
    + intros j s v Hj. by apply (ti_seps _ _ _ _ _ Hi j s v).
  - eexists r, ik. do 5 (split; [done|]). split; [apply (ti_index _ _ _ _ _ Hi)|].
    pose proof (ti_ik _ _ _ _ _ Hi) as Hik. rewrite Hp in Hik. pose proof (ti_bound _ _ _ _ _ Hi) as Hb. rewrite Hik, take_ge in Hb by done.
    split; [lia|]. split; [done|]. apply (ti_seps _ _ _ _ _ Hi).
Qed.

Lemma shape_of_separators blks (hs : list BlockHandle) ik :
  fine (flat blks) → length ik = length blks → (∀ j b, blks !! j = Some b → b ≠ []) →
  (∀ i h, hs !! i = Some h → handle_ok h) →
  (∀ i j h h', hs !! i = Some h → hs !! j = Some h' → (i < j)%nat → bh_offset h < bh_offset h') →
  (∀ j s v, ik !! j = Some (s, v) → separates blks [] j s ∧ ∃ h, hs !! j = Some h ∧ v = handle_bytes h) →
  index_shape (Compare c) valid ik blks ∧ sorted_kvs (Compare c) ik.
Proof.
  intros Hf Hl Hne Hok Hord Hsp. split; [split|].
  - done.
  - apply (fi_sorted _ Hf).
  - apply (fi_valid _ Hf).
  - apply Forall_lookup. intros j [s v] Hj. by apply (Hsp j s v).
  - apply NoDup_alt. intros i j x Hi Hj. rewrite list_lookup_fmap in Hi, Hj.
    destruct (ik !! i) as [[si vi]|] eqn:Ei; [|done]. destruct (ik !! j) as [[sj vj]|] eqn:Ej; [|done].
    cbn in Hi, Hj. simplify_eq. destruct (Hsp _ _ _ Ei) as (_ & hi & Hhi & ->). destruct (Hsp _ _ _ Ej) as (_ & hj & Hhj & Heq).
    apply handle_bytes_inj in Heq as ->; [|by eapply Hok..]. destruct (Nat.lt_trichotomy i j) as [Hlt|[Hlt|Hlt]]; [|done|].
    + pose proof (Hord _ _ _ _ Hhi Hhj Hlt). lia.
    + pose proof (Hord _ _ _ _ Hhj Hhi Hlt). lia.
  - intros j s v b e Hj Hb He. destruct (Hsp _ _ _ Hj) as [(_ & Hup & _) _]. by apply (Hup b).
  - intros j j' s v b e Hj Hlt Hb He. destruct (Hsp _ _ _ Hj) as [(_ & _ & Hlo & _) _]. by apply (Hlo j' b).
  - apply sorted_of_lookup. intros i j [si vi] [sj vj] Hi Hj Hij. cbn [fst].
    destruct (Hsp _ _ _ Hi) as [(Hvi & _ & Hlo & _) _], (Hsp _ _ _ Hj) as [(Hvj & Hup & _) _].
    destruct (lookup_lt_is_Some_2 blks j) as [b Hb]; [rewrite <- Hl; by eapply lookup_lt_Some|].
    destruct b as [|e b]; [by apply Hne in Hb|].
    assert (valid e.1). { apply (proj1 (Forall_forall _ _) (fi_valid _ Hf)). apply list_elem_of_join. exists (e :: b). split; [left|by eapply list_elem_of_lookup_2]. }
    eapply compare_lt_le_trans; [done| |done|..]; [|by apply (Hlo j _ e Hij Hb); left|by apply (Hup _ e Hb); left]. done.
Qed.

(** What [Finish] writes for the filter. *)
Definition finish_filter r : option (Rep C P F * BlockHandle) :=
  match tb_filter_block r with
  | Some fb => if ok (tb_status r)
               then contents ← FilterBlock_Finish fb; Some (WriteRawBlock addr contents kNoCompression r)
               else Some (r, BlockHandle_new)
  | None => Some (r, BlockHandle_new)
  end.

Lemma finish_filter_spec r blks hs ik :
  tb_inv r blks hs ik [] → fine (flat blks) →
  (∀ fb contents, tb_filter_block r = Some fb → FilterBlock_Finish fb = Some contents → Z.of_nat (length contents) < 2 ^ 32) →
  ∃ f fh, finish_filter (set_closed r) = Some (set_file f (clen f) Status_OK (set_closed r), fh) ∧ extends (tb_file r) f (2 ^ 32 + 5) ∧
    match filter_policy opts with
    | None => True
    | Some p => ∃ contents, stored (content f) fh contents ∧ Z.of_nat (length contents) < 2 ^ 32 ∧
        build_filter_block p (filter_blocks hs blks (tb_offset r) []) = Some contents
    end.
Proof.
  intros Hi Hf Hsize. pose proof (fi_bound _ Hf). pose proof (ti_size _ _ _ _ _ Hi) as Hsz. pose proof (ti_filter _ _ _ _ _ Hi) as Hfil.
  unfold finish_filter. change (tb_filter_block (set_closed r)) with (tb_filter_block r).
  destruct (filter_policy opts) as [p|] eqn:Hp.
  2:{ rewrite Hfil. exists (tb_file r), BlockHandle_new. split; [|split; [|done]].
      - rewrite <- (ti_offset _ _ _ _ _ Hi), <- (ti_status _ _ _ _ _ Hi). by destruct r.
      - split; [apply (ti_wf _ _ _ _ _ Hi)|]. split; [exists []; by rewrite app_nil_r|lia]. }
  destruct Hfil as (fb & Hfb & Hbuild). rewrite Hfb. cbn [set_closed tb_status]. rewrite (ti_status _ _ _ _ _ Hi). cbn [ok Status_OK state_].
  destruct (filter_blocks_sorted hs blks (tb_offset r) [] (ti_order _ _ _ _ _ Hi)) as [Hso Hpos].
  { intros i h Hh. rewrite (ti_offset _ _ _ _ _ Hi). by apply (handles_range r blks hs ik []  i). } { rewrite (ti_offset _ _ _ _ _ Hi). lia. }
  destruct (filter_block_matches p (filter_blocks hs blks (tb_offset r) [])) as (contents & Hc & _); [|done..|].
  { intros i Hne. apply (fi_good _ Hf p _ Hp Hne). rewrite <- (app_nil_r (flat blks)).
    rewrite <- (filter_blocks_keys hs blks (tb_offset r) [] (ti_handles _ _ _ _ _ Hi)). apply group_sublist. }
  pose proof Hc as Hc'. unfold build_filter_block in Hc'. rewrite Hbuild in Hc'. cbn [mbind option_bind] in Hc'. rewrite Hc'.
  cbn [mbind option_bind]. pose proof (Hsize fb contents Hfb Hc') as Hlen.
  destruct (WriteRawBlock_spec (set_closed r) contents kNoCompression (ti_wf _ _ _ _ _ Hi) (ti_offset _ _ _ _ _ Hi))
    as (f & -> & Hwf & Hcont); [cbn [set_closed tb_file]; lia|]. cbn [set_closed tb_file] in Hcont |- *.
  eexists f, _. split; [done|]. split.
  - split; [done|]. split; [by eexists|]. rewrite Hcont, length_app, length_block_image. lia.
  - exists contents. split; [|done]. rewrite Hcont. apply stored_snoc; [done|]. rewrite length_app, length_block_image. lia.
Qed.

(** What [Finish] writes for the metaindex block. *)
Definition finish_meta (fh : BlockHandle) r : option (Rep C P F * BlockHandle) :=
  if ok (tb_status r)
  then meta ← BlockBuilder_new (block_restart_interval (tb_options r));
       meta ← (match filter_policy (tb_options r), tb_filter_block r with
               | Some p, Some _ =>
                   handle_encoding ← BlockHandle_EncodeTo [] fh;
                   BlockBuilder_Add (comparator (tb_options r)) (block_restart_interval (tb_options r))
                     (str "filter." ++ policy_name p) handle_encoding meta
               | _, _ => Some meta
               end);
       WriteBlock snappy zstd addr meta r
  else Some (r, BlockHandle_new).

Hypothesis Hname : ∀ p, filter_policy opts = Some p → Z.of_nat (length (policy_name p)) < 2 ^ 30.

Lemma finish_meta_spec r fh :
  tb_options r = opts → tb_status r = Status_OK → wf (tb_file r) → tb_offset r = clen (tb_file r) → clen (tb_file r) < 2 ^ 40 →
  match filter_policy opts with None => True | Some p => is_Some (tb_filter_block r) ∧ handle_ok fh end →
  ∃ f mh raw, finish_meta fh r = Some (set_file f (clen f) Status_OK r, mh) ∧ extends (tb_file r) f (2 ^ 31) ∧
    stored (content f) mh raw ∧ bh_offset mh = clen (tb_file r) ∧
    block_of BytewiseComparator (valid := λ _, True) raw
      (match filter_policy opts with None => [] | Some p => [(str "filter." ++ policy_name p, handle_bytes fh)] end).
Proof.
  intros Ho Hst Hwf Hoff Hsz Hfil. unfold finish_meta. rewrite Hst, Ho. cbn [ok Status_OK state_].
  assert (BlockBuilder_new interval = Some BlockBuilder_Reset) as -> by (unfold BlockBuilder_new; by rewrite (proj2 (Z.leb_le _ _))).
  cbn [mbind option_bind]. set (l := match filter_policy opts with None => [] | Some p => [(str "filter." ++ policy_name p, handle_bytes fh)] end).
  assert (block_bound l < 2 ^ 31 - 5) as Hb.
  { unfold l. destruct (filter_policy opts) as [p|] eqn:Hp; [|done]. destruct Hfil as [_ Hok]. pose proof (Hname p eq_refl).
    pose proof (handle_bytes_length fh Hok). cbn [block_bound fold_right fst snd]. rewrite length_app.
    change (length (str "filter.")) with 7%nat. lia. }
  assert (∃ meta, (match filter_policy opts, tb_filter_block r with
      | Some p, Some _ => handle_encoding ← BlockHandle_EncodeTo [] fh;
          BlockBuilder_Add c interval (str "filter." ++ policy_name p) handle_encoding BlockBuilder_Reset
      | _, _ => Some BlockBuilder_Reset end) = Some meta ∧ holding interval meta l) as (meta & -> & Hm).
  { unfold l in *. destruct (filter_policy opts) as [p|]; [|exists BlockBuilder_Reset; split; [done|by apply holding_Reset]].
    destruct Hfil as [[fb ->] Hok]. rewrite EncodeTo_bytes by done. cbn [mbind option_bind app].
    apply (holding_Add c interval Hint BlockBuilder_Reset []); [by apply holding_Reset|done|cbn [app]; lia]. }
  cbn [mbind option_bind].
  destruct (holding_Finish BytewiseComparator (valid := λ _, True) interval meta l Hm) as [Hof Hlen].
  { unfold l. destruct (filter_policy opts); repeat constructor. } { by apply Forall_true. } { lia. }
  destruct (WriteBlock_spec meta r Hst Hwf Hoff) as (f & h & -> & Hwf' & Hho & Hstored & Hmore & Hl); [lia|].
  exists f, h, (BlockBuilder_Finish meta).2. split; [done|]. split; [|done]. split; [done|]. split; [done|lia].
Qed.

(** What [Finish] writes for the index. *)
Definition finish_index r : option (Rep C P F * BlockHandle) :=
  if ok (tb_status r)
  then r ← (if pending_index_entry r
            then add_index (FindShortSuccessor (comparator (tb_options r)) (tb_last_key r)) r
            else Some r);
       '(r, h) ← WriteBlock snappy zstd addr (tb_index_block r) r;
       Some (set_blocks (tb_data_block r) BlockBuilder_Reset (tb_last_key r) (tb_num_entries r) r, h)
  else Some (r, BlockHandle_new).

Lemma add_index_frame key f off (r : Rep C P F) :
  add_index key (set_file f off Status_OK (set_closed r)) = set_file f off Status_OK ∘ set_closed <$> add_index key r.
Proof.
  unfold add_index. cbn [set_file set_closed pending_handle tb_options tb_index_block]. destruct (BlockHandle_EncodeTo _ _); [|done].
  cbn [mbind option_bind]. by destruct (BlockBuilder_Add _ _ _ _ _).
Qed.

Lemma finish_index_spec r blks hs ik f :
  tb_inv r blks hs ik [] → fine (flat blks) → wf f → clen f < 2 ^ 40 →
  ∃ r' ih ik' raw, finish_index (set_file f (clen f) Status_OK (set_closed r)) = Some (r', ih) ∧ tb_status r' = Status_OK ∧
    tb_offset r' = clen (tb_file r') ∧ extends f (tb_file r') (2 ^ 33) ∧
    stored (content (tb_file r')) ih raw ∧ block_of c (valid := valid) raw ik' ∧ index_shape (Compare c) valid ik' blks ∧
    (∀ j s v, ik' !! j = Some (s, v) → ∃ h, hs !! j = Some h ∧ v = handle_bytes h) ∧
    ∀ j s v b, ik' !! j = Some (s, v) → blks !! j = Some b → tight b (flat (drop (S j) blks)) s.
Proof.
  intros Hi Hf Hwf Hsz. destruct (index_complete r blks hs ik Hi Hf) as (r1 & ik' & Hr1 & _ & _ & _ & _ & Hhold & Hb & Hl & Hsp).
  destruct (shape_of_separators blks hs ik' Hf Hl) as [Hsh Hso].
  { intros j b. by apply (blocks_nonempty r _ hs ik []). }
  { intros i h Hh. destruct (lookup_lt_is_Some_2 blks i) as [b Hb']; [rewrite <- (ti_handles _ _ _ _ _ Hi); by eapply lookup_lt_Some|].
    destruct (ti_stored _ _ _ _ _ Hi i b h Hb' Hh) as (_ & raw & Hst & _). by eapply stored_ok. }
  { apply (ti_order _ _ _ _ _ Hi). } { done. }
  destruct (holding_Finish c (valid := valid) 1 (tb_index_block r1) ik' Hhold Hso (is_valid_sep _ _ _ _ Hsh) Hb) as [Hof Hlen].
  unfold finish_index. set (r0 := set_file f (clen f) Status_OK (set_closed r)). set (r2 := set_file f (clen f) Status_OK (set_closed r1)).
  assert ((if pending_index_entry r0 then add_index (FindShortSuccessor (comparator (tb_options r0)) (tb_last_key r0)) r0 else Some r0)
    = Some r2) as ->.
  { change (tb_options r0) with (tb_options r). change (tb_last_key r0) with (tb_last_key r).
    change (pending_index_entry r0) with (pending_index_entry r). unfold r0, r2.
    destruct (pending_index_entry r); [rewrite add_index_frame, Hr1; done|by injection Hr1 as <-]. }
  change (ok (tb_status r0)) with true. cbn [mbind option_bind].
  destruct (WriteBlock_spec (tb_index_block r2) r2 eq_refl Hwf eq_refl) as (f' & ih & Hw & Hwf' & _ & Hstored & Hmore & Hl').
  { change (tb_file r2) with f. change (tb_index_block r2) with (tb_index_block r1). lia. }
  change (tb_file r2) with f in *. change (tb_index_block r2) with (tb_index_block r1) in *. rewrite Hw. cbn [mbind option_bind].
  eexists _, ih, ik', (BlockBuilder_Finish (tb_index_block r1)).2. split; [done|].
  cbn [set_blocks set_file tb_status tb_offset tb_file]. do 2 (split; [done|]). split; [split; [done|]; split; [done|lia]|].
  do 3 (split; [done|]). split; [intros j s v Hj; by apply (Hsp j s v)|].
  intros j s v b Hj Hbj. destruct (Hsp j s v Hj) as [(_ & _ & _ & _ & Hti) _]. rewrite <- (app_nil_r (flat _)). by apply Hti.
Qed.

Lemma finish_stages r : TableBuilder_Finish snappy zstd policy_name addr r =
  r ← TableBuilder_Flush snappy zstd addr r;
  if tb_closed r then None else
  '(r, fh) ← finish_filter (set_closed r);
  '(r, mh) ← finish_meta fh r;
  '(r, ih) ← finish_index r;
  if ok (tb_status r)
  then footer_encoding ← Footer_EncodeTo [] {| metaindex_handle_ := mh; index_handle_ := ih |};
       let '(file, s) := Append (tb_file r) footer_encoding in
       let r := set_file file (if ok s then u64 (tb_offset r + Z.of_nat (length footer_encoding)) else tb_offset r) s r in
       Some (r, tb_status r)
  else Some (r, tb_status r).
Proof. done. Qed.

Lemma extends_trans f1 f2 f3 n m : extends f1 f2 n → extends f2 f3 m → extends f1 f3 (n + m).
Proof.
  intros (_ & (m1 & H1) & Hl1) (Hwf & (m2 & H2) & Hl2). split; [done|]. split; [|lia].
  exists (m1 ++ m2). by rewrite H2, H1, app_assoc.
Qed.

Lemma data_blocks r blks hs ik f n : tb_inv r blks hs ik [] → extends (tb_file r) f n → clen f < 2 ^ 63 →
  ∀ j b h, blks !! j = Some b → hs !! j = Some h → b ≠ [] ∧ handle_ok h ∧ ∃ raw, stored (content f) h raw ∧ block_of c (valid := valid) raw b.
Proof.
  intros Hi He Hl j b h Hb Hh. destruct (ti_stored _ _ _ _ _ Hi j b h Hb Hh) as (Hne & raw & Hst & Hof).
  split; [done|]. split; [by eapply stored_ok|]. exists raw. split; [by eapply stored_extends|done].
Qed.

(** [Finish] leaves a complete table in the file. *)
Lemma finish_flushed r blks hs ik :
  tb_inv r blks hs ik [] → fine (flat blks) →
  (∀ fb contents, tb_filter_block r = Some fb → FilterBlock_Finish fb = Some contents → Z.of_nat (length contents) < 2 ^ 32) →
  ∃ r' footer ik', TableBuilder_Finish snappy zstd policy_name addr r = Some (r', Status_OK) ∧ wf (tb_file r') ∧
    FileSize r' = clen (tb_file r') ∧ table_file (content (tb_file r')) footer blks hs ik'.
Proof.
  intros Hi Hf Hfb. pose proof (fi_bound _ Hf) as Hbound. pose proof (ti_size _ _ _ _ _ Hi) as Hsz.
  rewrite finish_stages, (flush_empty _ _ _ _ Hi). cbn [mbind option_bind]. rewrite (ti_closed _ _ _ _ _ Hi).
  destruct (finish_filter_spec r blks hs ik Hi Hf Hfb) as (f1 & fh & -> & He1 & Hfil). cbn [mbind option_bind].
  destruct (finish_meta_spec (set_file f1 (clen f1) Status_OK (set_closed r)) fh) as (f2 & mh & mraw & -> & He2 & Hmst & Hmo & Hmof).
  { apply (ti_options _ _ _ _ _ Hi). } { done. } { apply He1. } { done. } { cbn. destruct He1 as (_ & _ & ?). lia. }
  { destruct (filter_policy opts) as [p|] eqn:Hp; [|done]. destruct Hfil as (contents & Hst & _). split; [|by eapply stored_ok].
    pose proof (ti_filter _ _ _ _ _ Hi) as Htf. rewrite Hp in Htf. destruct Htf as (fb & Htf & _). by exists fb. }
  cbn [mbind option_bind tb_file set_file] in *.
  change (set_file f2 (clen f2) Status_OK (set_file f1 (clen f1) Status_OK (set_closed r))) with (set_file f2 (clen f2) Status_OK (set_closed r)).
  destruct (finish_index_spec r blks hs ik f2 Hi Hf) as (r3 & ih & ik' & iraw & -> & Hst3 & Hoff3 & He3 & Hist & Hiof & Hsh & Hval & Hti).
  { apply He2. } { destruct He1 as (_ & _ & ?), He2 as (_ & _ & ?). lia. }
  cbn [mbind option_bind]. rewrite Hst3. cbn [ok Status_OK state_]. pose proof (stored_ok _ _ _ Hmst) as Hmok. pose proof (stored_ok _ _ _ Hist) as Hiok.
  rewrite footer_EncodeTo by done. cbn [mbind option_bind]. set (footer := {| metaindex_handle_ := mh; index_handle_ := ih |}).
  destruct (append_ok (tb_file r3) (footer_bytes footer)) as (f4 & -> & Hwf4 & Hc4); [apply He3|]. cbn [ok Status_OK state_].
  pose proof (footer_length footer Hmok Hiok) as Hfl. change kEncodedLength with 48%nat in Hfl.
  assert (extends (tb_file r3) f4 48) as He4. { split; [done|]. split; [by eexists|]. rewrite Hc4, length_app, Hfl. lia. }
  pose proof (extends_trans _ _ _ _ _ He3 He4) as He24. pose proof (extends_trans _ _ _ _ _ He2 He24) as He14.
  pose proof (extends_trans _ _ _ _ _ He1 He14) as He04.
  assert (clen f4 < 2 ^ 40) as H4 by (destruct He04 as (_ & _ & ?); lia).
  eexists _, footer, ik'. split; [done|]. cbn [set_file tb_file FileSize tb_offset]. split; [done|]. split.
  { unfold FileSize. cbn [tb_offset set_file]. rewrite Hoff3, Hfl. rewrite Hc4, length_app, Hfl in H4 |- *. rewrite u64_small; lia. }
  split.
  - lia.
  - by eexists.
  - done.
  - apply (ti_handles _ _ _ _ _ Hi).
  - exists iraw. split; [by eapply (stored_extends _ _ _ _ _ He4); [lia|]|done].
  - done.
  - exact Hti.
  - done.
  - by apply (data_blocks r blks hs ik f4 _ Hi He04); lia.
  - exists mraw. split; [by eapply (stored_extends _ _ _ _ _ He24); [lia|]|].
    destruct (filter_policy opts) as [p|]; [|done]. destruct Hfil as (contents & Hst & Hlen & Hbuild).
    exists fh, (tb_offset r), contents. split; [done|]. split; [by eapply stored_ok|].
    split; [by eapply (stored_extends _ _ _ _ _ He14); [lia|]|]. do 2 (split; [done|]). rewrite (ti_offset _ _ _ _ _ Hi). split; [lia|].
    intros i h Hh. by apply (handles_range r blks hs ik [] i).
  - intros i h Hh. cbn [metaindex_handle_ footer]. pose proof (handles_range r blks hs ik [] i h Hi Hh).
    destruct He1 as (_ & _ & ?). lia.
  - apply (ti_order _ _ _ _ _ Hi).
Qed.

Lemma finish_spec r blks hs ik cur :
  tb_inv r blks hs ik cur → fine (flat blks ++ cur) →
  (∀ r1 fb contents, TableBuilder_Flush snappy zstd addr r = Some r1 → tb_filter_block r1 = Some fb →
     FilterBlock_Finish fb = Some contents → Z.of_nat (length contents) < 2 ^ 32) →
  ∃ r' footer blks' hs' ik', TableBuilder_Finish snappy zstd policy_name addr r = Some (r', Status_OK) ∧ wf (tb_file r') ∧
    FileSize r' = clen (tb_file r') ∧ flat blks' = flat blks ++ cur ∧ table_file (content (tb_file r')) footer blks' hs' ik'.
Proof.
  intros Hi Hf Hfb. destruct (decide (cur = [])) as [->|Hne].
  - rewrite app_nil_r in *. destruct (finish_flushed r blks hs ik Hi Hf) as (r' & footer & ik' & ? & ? & ? & ?);
      [|by exists r', footer, blks, hs, ik'].
    intros fb contents. apply Hfb. by eapply flush_empty.
  - destruct (flush_block r blks hs ik cur Hi Hne Hf) as (r1 & h & Hr1 & Hi1).
    destruct (finish_flushed r1 (blks ++ [cur]) (hs ++ [h]) ik Hi1) as (r' & footer & ik' & Hfin & ? & ? & ?).
    { by rewrite flat_snoc. } { intros fb contents. by apply Hfb. }
    exists r', footer, (blks ++ [cur]), (hs ++ [h]), ik'. split; [|by rewrite flat_snoc].
    rewrite <- Hfin, !finish_stages, Hr1. cbn [mbind option_bind]. by rewrite (flush_empty _ _ _ _ Hi1).
Qed.

(** ** A whole table *)

Lemma new_spec file : wf file → content file = [] →
  ∃ r, TableBuilder_new opts file = Some r ∧ tb_inv r [] [] [] [].
Proof.
  intros Hwf Hc. unfold TableBuilder_new, BlockBuilder_new. rewrite (proj2 (Z.leb_le _ _)) by done. cbn [mbind option_bind].
  assert (∀ fb, match filter_policy opts with None => fb = None
      | Some p => ∃ b, fb = Some b ∧ build_blocks [(0, [])] (FilterBlockBuilder_new p) = Some b end →
    tb_inv {| tb_options := opts; tb_file := file; tb_offset := 0; tb_status := Status_OK;
      tb_data_block := BlockBuilder_Reset; tb_index_block := BlockBuilder_Reset; tb_last_key := []; tb_num_entries := 0;
      tb_closed := false; tb_filter_block := fb; pending_index_entry := false; pending_handle := BlockHandle_new |} [] [] [] []) as Hinv.
  { intros fb Hfb. split; cbn [tb_options tb_file tb_offset tb_status tb_data_block tb_index_block tb_last_key tb_num_entries
      tb_closed tb_filter_block pending_index_entry pending_handle]; rewrite ?Hc; try done; by apply holding_Reset. }
  unfold start_filter. cbn [tb_filter_block]. destruct (filter_policy opts) as [p|] eqn:Hp.
  - cbn [fmap option_fmap option_map].
    destruct (build_blocks_ok p [(0, [])]) as (fb & Hfb).
    { intros i Hne. exfalso. apply Hne. unfold group. rewrite filter_cons. by destruct (decide _). }
    { repeat constructor. } { by repeat constructor. }
    pose proof Hfb as Hfb'. cbn [build_blocks] in Hfb'. destruct (StartBlock 0 (FilterBlockBuilder_new p)) as [b|]; [|done].
    cbn in Hfb'. injection Hfb' as ->. cbn [mbind option_bind]. eexists. split; [done|]. apply Hinv. by exists fb.
  - cbn [fmap option_fmap option_map]. eexists. split; [done|]. by apply Hinv.
Qed.

(** A client's calls: a builder on a new file, an [Add] per entry, [Finish]. *)
Definition build_table (l : list kv) (file : F) : option (Rep C P F * Status) :=
  r ← TableBuilder_new opts file; r ← TableBuilder_Add_all l r; TableBuilder_Finish snappy zstd policy_name addr r.

(** The filter block [Finish] writes, if there is one. *)
Definition filter_of_table (l : list kv) (file : F) : option (list byte) :=
  r ← TableBuilder_new opts file; r ← TableBuilder_Add_all l r; r ← TableBuilder_Flush snappy zstd addr r;
  fb ← tb_filter_block r; FilterBlock_Finish fb.

Lemma build_spec l file :
  wf file → content file = [] → fine l →
  (∀ contents, filter_of_table l file = Some contents → Z.of_nat (length contents) < 2 ^ 32) →
  ∃ r footer blks hs ik, build_table l file = Some (r, Status_OK) ∧ wf (tb_file r) ∧
    FileSize r = clen (tb_file r) ∧ flat blks = l ∧ table_file (content (tb_file r)) footer blks hs ik.
Proof.
  intros Hwf Hc Hf Hfilter. unfold build_table, filter_of_table in *. destruct (new_spec file Hwf Hc) as (r0 & Hr0 & Hi0). rewrite Hr0 in *.
  cbn [mbind option_bind] in *. destruct (add_all_spec l r0 [] [] [] [] Hi0) as (r1 & blks & hs & ik & cur & Hr1 & Hi1 & Heq); [done|].
  cbn in Heq. rewrite Hr1 in *. cbn [mbind option_bind] in *. rewrite <- Heq in Hf |- *.
  destruct (finish_spec r1 blks hs ik cur Hi1 Hf) as (r' & footer & blks' & hs' & ik' & ? & ? & ? & ? & ?).
  { intros r2 fb contents Hr2 Hfb Hcon. apply Hfilter. rewrite Hr2. cbn [mbind option_bind]. rewrite Hfb. done. }
  by exists r', footer, blks', hs', ik'.
Qed.
End builder_proofs.
