(* ===== verification/Table.v ===== *)
(** Reading a table file (table/table.cc). *)
From stdpp Require Import sorting.
From S2P Require Import Prelude Coding Env Comparator FilterPolicy FilterBlock DbFormat MemEnv Bloom Iterator TwoLevel Block Format TableBuilder.

(** The options of a read. *)
Record ReadOptions := { verify_checksums : bool; fill_cache : bool }.

Section table.
Context {C P R : Type} `{!Comparator C, !FilterPolicy P, !RandomAccessFile R}.
Context (snappy zstd : Codec) (policy_name : P → list byte) (allocates : R → bool) (addr : Z).

(** [t_options] without the block cache, which the operations that use it take
    as an argument. *)
Record Table := {
  t_options : Options C P;
  t_file : R;
  t_cache_id : Z;
  t_filter : option (@FilterBlockReader P);
  t_metaindex_handle : BlockHandle;
  t_index_block : Block;
}.
Implicit Types t : Table.

Definition set_reader (r : FilterBlockReader) t : Table :=
  {| t_options := t_options t; t_file := t_file t; t_cache_id := t_cache_id t; t_filter := Some r;
     t_metaindex_handle := t_metaindex_handle t; t_index_block := t_index_block t |}.

Definition ReadFilter (policy : P) (filter_handle_value : list byte) t : option Table :=
  match BlockHandle_DecodeFrom filter_handle_value with
  | inl _ => Some t
  | inr (filter_handle, _) =>
      '(s, block) ← ReadBlock snappy zstd allocates addr (paranoid_checks (t_options t)) (t_file t) filter_handle;
      if negb (ok s) then Some t else
      r ← FilterBlockReader_new policy (bc_data block);
      Some (set_reader r t)
  end.

Definition ReadMeta (footer : Footer) t : option Table :=
  match filter_policy (t_options t) with
  | None => Some t
  | Some policy =>
      '(s, contents) ← ReadBlock snappy zstd allocates addr (paranoid_checks (t_options t)) (t_file t) (metaindex_handle_ footer);
      if negb (ok s) then Some t else
      meta ← Block_new (bc_data contents);
      iter ← Block_NewIterator meta;
      let key := str "filter." ++ policy_name policy in
      let meta_iterator := sum_iterator (Iterator1 := block_iterator BytewiseComparator) in
      iter ← it_Seek (Iterator := meta_iterator) key iter;
      if it_Valid (Iterator := meta_iterator) iter
      then k ← it_key (Iterator := meta_iterator) iter;
           if slice_compare k key =? 0
           then v ← it_value (Iterator := meta_iterator) iter; ReadFilter policy v t
           else Some t
      else Some t
  end.

(** [cache_id] is the block cache's new id, 0 without a cache. *)
Definition Table_Open (options : Options C P) (cache_id : Z) (file : R) (size : Z) : option (Status * option Table) :=
  if size <? Z.of_nat kEncodedLength then Some (Corruption (str "file is too short to be an sstable"), None) else
  let '(footer_input, s) := PRead file (size - Z.of_nat kEncodedLength) kEncodedLength in
  if negb (ok s) then Some (s, None) else
  decoded ← Footer_DecodeFrom footer_input;
  match decoded with
  | inl s => Some (s, None)
  | inr (footer, _) =>
      '(s, index_block_contents) ← ReadBlock snappy zstd allocates addr (paranoid_checks options) file (index_handle_ footer);
      if ok s
      then index_block ← Block_new (bc_data index_block_contents);
           t ← ReadMeta footer {| t_options := options; t_file := file; t_cache_id := cache_id; t_filter := None;
                                  t_metaindex_handle := metaindex_handle_ footer; t_index_block := index_block |};
           Some (s, Some t)
      else Some (s, None)
  end.

(** The iterators of blocks: an empty or error iterator, or one over entries. *)
Notation J := (EmptyIterator + BlockIter)%type.

Definition cache_key t (handle : BlockHandle) : list byte := EncodeFixed64 (t_cache_id t) ++ EncodeFixed64 (bh_offset handle).

(** [cache] is [Lookup] of the block cache, when there is one.  The result is the
    iterator and the block inserted in the cache, if one is. *)
Definition BlockReader (cache : option (list byte → option Block)) (options : ReadOptions) (index_value : list byte) t
    : option (J * option (list byte * Block)) :=
  match BlockHandle_DecodeFrom index_value with
  | inl s => Some (inl (NewErrorIterator s), None)
  | inr (handle, _) =>
      let key := cache_key t handle in
      let read (insert : BlockContents → bool) :=
        '(s, contents) ← ReadBlock snappy zstd allocates addr (verify_checksums options) (t_file t) handle;
        if ok s
        then block ← Block_new (bc_data contents);
             iter ← Block_NewIterator block;
             Some (iter, if insert contents then Some (key, block) else None)
        else Some (inl (NewErrorIterator s), None) in
      match cache with
      | Some Lookup =>
          match Lookup key with
          | Some block => iter ← Block_NewIterator block; Some (iter, None)
          | None => read (λ contents, cachable contents && fill_cache options)
          end
      | None => read (λ _, false)
      end
  end.

Definition block_opener (cache : option (list byte → option Block)) (options : ReadOptions) t (index_value : list byte) : option J :=
  fst <$> BlockReader cache options index_value t.

Definition table_block_iterator t : Iterator J := sum_iterator (Iterator1 := block_iterator (comparator (t_options t))).

Definition Table_NewIterator t : option (TwoLevelIterator J J) :=
  index_iter ← Block_NewIterator (t_index_block t);
  NewTwoLevelIterator (Iterator0 := table_block_iterator t) (Iterator1 := table_block_iterator t) index_iter.

(** The status, the entry [handle_result] is called with, if it is called, and
    the block inserted in the cache, if one is. *)
Definition InternalGet (cache : option (list byte → option Block)) (options : ReadOptions) (k : list byte) t
    : option (Status * option kv * option (list byte * Block)) :=
  let iterator := table_block_iterator t in
  iiter ← Block_NewIterator (t_index_block t);
  iiter ← it_Seek k iiter;
  '(s, res, inserted) ←
    (if it_Valid iiter
     then handle_value ← it_value iiter;
          skip ← (match t_filter t, BlockHandle_DecodeFrom handle_value with
                  | Some filter, inr (handle, _) => negb <$> Reader_KeyMayMatch filter (bh_offset handle) k
                  | _, _ => Some false
                  end);
          if (skip : bool) then Some (Status_OK, @None kv, None)
          else '(block_iter, inserted) ← BlockReader cache options handle_value t;
               block_iter ← it_Seek k block_iter;
               res ← (if it_Valid block_iter
                      then key ← it_key block_iter; value ← it_value block_iter; Some (Some (key, value))
                      else Some None);
               Some (it_status block_iter, res, inserted)
     else Some (Status_OK, None, None));
  Some (if ok s then it_status iiter else s, res, inserted).

Definition ApproximateOffsetOf (key : list byte) t : option Z :=
  let iterator := table_block_iterator t in
  index_iter ← Block_NewIterator (t_index_block t);
  index_iter ← it_Seek key index_iter;
  if it_Valid index_iter
  then v ← it_value index_iter;
       match BlockHandle_DecodeFrom v with
       | inr (handle, _) => Some (bh_offset handle)
       | inl _ => Some (bh_offset (t_metaindex_handle t))
       end
  else Some (bh_offset (t_metaindex_handle t)).
End table.
Arguments Table C P R : clear implicits.

(** ** Reading back a table *)

Section table_proofs.
Context {C P R : Type} `{!Comparator C, !FilterPolicy P, !RandomAccessFile R}.
Context {valid : list byte → Prop} `{!ComparatorLaws C valid}.
Context {wf : R → Prop} {content : R → list byte} `{!RandomAccessFileLaws R wf content}.
Context {good : P → list (list byte) → Prop} `{!FilterPolicyLaws P good}.
Context (snappy zstd : Codec) (Hsnappy : codec_ok snappy) (Hzstd : codec_ok zstd).
Context (policy_name : P → list byte) (allocates : R → bool) (addr : Z) (opts : Options C P).
Context (same : list byte → list byte → Prop).
Notation c := (comparator opts).
Notation T := (Table C P R).
Notation block_at := (block_at c (valid := valid)).
Notation table_file := (table_file (valid := valid) snappy zstd policy_name opts same).
Notation Open := (Table_Open snappy zstd policy_name allocates addr).
Implicit Types t : T.

Section opened.
Context (file : R) (footer : Footer) (blks : list (list kv)) (hs : list BlockHandle) (ik : list kv).
Hypothesis Hwf : wf file.
Hypothesis Htf : table_file (content file) footer blks hs ik.
Hypothesis Hfine : fine (valid := valid) (good := good) opts (flat blks).

(** The filter block answers for block [j] as some filter that has its keys. *)
Definition filter_answers (p : P) (rd : FilterBlockReader) : Prop :=
  ∀ j b h, blks !! j = Some b → hs !! j = Some h →
    ∃ f, (∀ key, Reader_KeyMayMatch rd (bh_offset h) key = KeyMayMatch p key f) ∧
      ∀ e, e ∈ b → KeyMayMatch p e.1 f = Some true.

(** The table is open. *)
Record opened t : Prop := {
  op_options : t_options t = opts;
  op_file : t_file t = file;
  op_meta : t_metaindex_handle t = metaindex_handle_ footer;
  op_index : ∃ it, Block_NewIterator (t_index_block t) = Some (inr it) ∧ block_at it ik None;
  op_filter : match filter_policy opts with
    | None => t_filter t = None
    | Some p => ∃ rd, t_filter t = Some rd ∧ filter_answers p rd
    end;
}.

Lemma read_stored verify h raw : stored snappy zstd (content file) h raw →
  ∃ cc, ReadBlock snappy zstd allocates addr verify file h = Some (Status_OK, {| bc_data := raw; cachable := cc |}).
Proof using All. intros Hst. by apply (ReadBlock_stored snappy zstd Hsnappy Hzstd (wf := wf) (content := content)). Qed.

Lemma handle_of j s v : ik !! j = Some (s, v) → ∃ h b, hs !! j = Some h ∧ blks !! j = Some b ∧ v = handle_bytes h ∧ handle_ok h ∧
  b ≠ [] ∧ ∃ raw, stored snappy zstd (content file) h raw ∧ block_of c (valid := valid) raw b.
Proof using Htf.
  intros Hj. destruct (tf_value _ _ _ _ _ _ _ _ _ _ Htf j s v Hj) as (h & Hh & ->).
  destruct (lookup_lt_is_Some_2 blks j) as [b Hb].
  { rewrite <- (is_length _ _ _ _ (tf_shape _ _ _ _ _ _ _ _ _ _ Htf)). by eapply lookup_lt_Some. }
  destruct (tf_blocks _ _ _ _ _ _ _ _ _ _ Htf j b h Hb Hh) as (Hne & Hok & Hraw). by exists h, b.
Qed.

Lemma filter_reads p contents off : filter_policy opts = Some p →
  build_filter_block p (filter_blocks hs blks off []) = Some contents → Z.of_nat (length contents) < 2 ^ 32 → 0 <= off →
  (∀ i h, hs !! i = Some h → 0 <= bh_offset h < off) →
  ∃ rd, FilterBlockReader_new p contents = Some rd ∧ filter_answers p rd.
Proof using Htf Hfine FilterPolicyLaws0.
  intros Hp Hbuild Hlen Hoff Hrange.
  destruct (filter_blocks_sorted hs blks off [] (tf_order _ _ _ _ _ _ _ _ _ _ Htf) Hrange Hoff) as [Hso Hpos].
  destruct (filter_block_matches p (filter_blocks hs blks off [])) as (contents' & Hc & Hr); [|done..|].
  { intros i Hne. apply (fi_good _ _ Hfine p _ Hp Hne). rewrite <- (app_nil_r (flat blks)).
    rewrite <- (filter_blocks_keys hs blks off [] (tf_handles _ _ _ _ _ _ _ _ _ _ Htf)). apply group_sublist. }
  rewrite Hbuild in Hc. injection Hc as <-. destruct (Hr Hlen) as (rd & Hrd & Hans). exists rd. split; [done|].
  intros j b h Hb Hh. destruct (tf_blocks _ _ _ _ _ _ _ _ _ _ Htf j b h Hb Hh) as (Hne & _).
  destruct (Hans (bh_offset h) (fst <$> b)) as (f & Hf & Hm).
  - unfold filter_blocks. apply elem_of_app. left. apply list_elem_of_lookup. exists j. apply lookup_zip_with_Some. by exists h, b.
  - by destruct b.
  - exists f. split; [done|]. intros e He. apply Hm. by apply list_elem_of_fmap_2.
Qed.

(** Reading the filter of a table that is open but for its filter. *)
Lemma ReadMeta_spec t : t_options t = opts → t_file t = file → t_filter t = None →
  ∃ t', ReadMeta snappy zstd policy_name allocates addr footer t = Some t' ∧
    t_options t' = opts ∧ t_file t' = file ∧ t_metaindex_handle t' = t_metaindex_handle t ∧ t_index_block t' = t_index_block t ∧
    match filter_policy opts with None => t_filter t' = None | Some p => ∃ rd, t_filter t' = Some rd ∧ filter_answers p rd end.
Proof using All.
  intros Ho Hfi Hno. unfold ReadMeta. rewrite Ho. destruct (tf_filter _ _ _ _ _ _ _ _ _ _ Htf) as (mraw & Hmst & Hmeta).
  destruct (filter_policy opts) as [p|] eqn:Hp; [|by exists t].
  destruct Hmeta as (fh & off & contents & (meta & it & Hblk & Hit & Hat) & Hfok & Hfst & Hbuild & Hlen & Hoff & Hrange).
  rewrite Hfi. destruct (read_stored (paranoid_checks opts) _ _ Hmst) as (cc & ->). cbn [mbind option_bind ok Status_OK state_ negb bc_data].
  rewrite Hblk. cbn [mbind option_bind]. rewrite Hit. cbn [mbind option_bind]. set (key := str "filter." ++ policy_name p) in *.
  pose proof (block_laws BytewiseComparator (valid := λ _, True)) as Hlaws.
  destruct (@it_seek _ _ _ _ _ Hlaws it _ _ key Hat I) as (it' & Hseek & Hat').
  assert (pos_seek (Compare BytewiseComparator) key [(key, handle_bytes fh)] = Some 0%nat) as Hpos.
  { unfold pos_seek. cbn [lower_bound fst]. change (Compare BytewiseComparator key key) with (slice_compare key key). by rewrite slice_compare_refl. }
  rewrite Hpos in Hat'. cbn [it_Seek sum_iterator]. rewrite Hseek. cbn [fmap option_fmap option_map mbind option_bind it_Valid it_key it_value sum_iterator].
  rewrite (@it_valid _ _ _ _ _ Hlaws it' _ _ Hat'). rewrite bool_decide_true by by eexists.
  destruct (@it_entry _ _ _ _ _ Hlaws it' _ 0%nat (key, handle_bytes fh) Hat' eq_refl) as [-> ->]. cbn [mbind option_bind fst snd].
  rewrite slice_compare_refl. cbn [Z.eqb]. unfold ReadFilter. rewrite <- (app_nil_r (handle_bytes fh)), DecodeFrom_bytes by done.
  rewrite Ho, Hfi. destruct (read_stored (paranoid_checks opts) _ _ Hfst) as (cc' & ->). cbn [mbind option_bind ok Status_OK state_ negb bc_data].
  destruct (filter_reads p contents off Hp Hbuild Hlen Hoff Hrange) as (rd & -> & Hans). cbn [mbind option_bind].
  eexists. split; [done|]. cbn [set_reader t_options t_file t_metaindex_handle t_index_block t_filter]. do 4 (split; [done|]). by exists rd.
Qed.

Lemma Open_spec cache_id :
  ∃ t, Open opts cache_id file (Z.of_nat (length (content file))) = Some (Status_OK, Some t) ∧ opened t.
Proof using All.
  unfold Table_Open. destruct (tf_footer _ _ _ _ _ _ _ _ _ _ Htf) as (body & Hbody).
  destruct (tf_handles_ok _ _ _ _ _ _ _ _ _ _ Htf) as [Hmok Hiok]. pose proof (footer_length footer Hmok Hiok) as Hfl.
  assert (length (content file) = (length body + kEncodedLength)%nat) as Hlen by (by rewrite Hbody, length_app, Hfl).
  rewrite (proj2 (Z.ltb_ge _ _)) by lia. rewrite pread_ok by (done || lia).
  replace (Z.to_nat (Z.of_nat (length (content file)) - Z.of_nat kEncodedLength)) with (length body) by lia.
  rewrite Hbody, drop_app_length, take_ge by lia. cbn [ok Status_OK state_ negb].
  rewrite footer_DecodeFrom by done. cbn [mbind option_bind].
  destruct (tf_index _ _ _ _ _ _ _ _ _ _ Htf) as (iraw & Hist & (iblk & it & Hiblk & Hit & Hat)).
  destruct (read_stored (paranoid_checks opts) _ _ Hist) as (cc & ->). cbn [mbind option_bind ok Status_OK state_ bc_data].
  rewrite Hiblk. cbn [mbind option_bind].
  match goal with |- context [ReadMeta _ _ _ _ _ _ ?t0] => destruct (ReadMeta_spec t0 eq_refl eq_refl eq_refl) as (t & -> & Ho & Hf & Hm & Hx & Hfil) end.
  cbn [mbind option_bind]. exists t. split; [done|]. split; [done..| |done]. exists it. by rewrite Hx.
Qed.

(** ** Operations on an open table *)

Section operations.
Context (t : T) (Ht : opened t) (cache : option (list byte → option Block)) (ro : ReadOptions).

(** What the block cache holds for this table are its blocks. *)
Definition cache_ok (lookup : option (list byte → option Block)) : Prop :=
  ∀ Lookup j h b blk, lookup = Some Lookup → hs !! j = Some h → blks !! j = Some b → Lookup (cache_key t h) = Some blk →
    ∃ it, Block_NewIterator blk = Some (inr it) ∧ block_at it b None.
Hypothesis Hcache : cache_ok cache.

(** What an operation inserts in the block cache is a block of the table. *)
Definition insert_ok (inserted : option (list byte * Block)) : Prop :=
  ∀ key blk, inserted = Some (key, blk) → ∃ j h b it, hs !! j = Some h ∧ blks !! j = Some b ∧ key = cache_key t h ∧
    Block_NewIterator blk = Some (inr it) ∧ block_at it b None.

Lemma BlockReader_spec j s v : ik !! j = Some (s, v) →
  ∃ h b it ins, hs !! j = Some h ∧ blks !! j = Some b ∧ BlockReader snappy zstd allocates addr cache ro v t = Some (inr it, ins) ∧
    block_at it b None ∧ insert_ok ins.
Proof using All.
  intros Hj. destruct (handle_of j s v Hj) as (h & b & Hh & Hb & -> & Hok & _ & raw & Hst & (blk & it & Hblk & Hit & Hat)).
  exists h, b. unfold BlockReader. rewrite <- (app_nil_r (handle_bytes h)), DecodeFrom_bytes by done.
  rewrite (op_file _ Ht). destruct (read_stored (verify_checksums ro) _ _ Hst) as (cc & ->).
  cbn [mbind option_bind ok Status_OK state_ bc_data]. rewrite Hblk. cbn [mbind option_bind]. rewrite Hit. cbn [mbind option_bind].
  destruct cache as [Lookup|] eqn:Hc; [destruct (Lookup _) as [blk'|] eqn:Hl|].
  - destruct (Hcache Lookup j h b blk' eq_refl Hh Hb Hl) as (it' & -> & Hat'). cbn [mbind option_bind]. by exists it', None.
  - eexists it, _. do 4 (split; [done|]). intros key blk'. destruct (_ && _); [|done]. intros [= <- <-]. by exists j, h, b, it.
  - by exists it, None.
Qed.

Notation RJ := (sum_at (RI := empty_at) (RJ := block_at)).
Notation jt := (table_block_iterator t).

Lemma table_block_laws : IteratorLaws (Iterator0 := jt) (EmptyIterator + BlockIter) (Compare c) valid RJ.
Proof using Ht ComparatorLaws0. unfold table_block_iterator. rewrite (op_options _ Ht). apply sum_laws. Qed.

Lemma Table_NewIterator_spec fuel : (length ik + 1 < fuel)%nat →
  ∃ it, Table_NewIterator t = Some it ∧
    two_level_at (cmp := Compare c) (valid := valid) (RI := RJ) (RJ := RJ)
      (block_opener snappy zstd allocates addr cache ro t) fuel it (flat blks) None.
Proof using All.
  intros Hfuel. unfold Table_NewIterator. destruct (op_index _ Ht) as (it & -> & Hat). cbn [mbind option_bind].
  pose proof table_block_laws as Hlaws.
  apply (NewTwoLevelIterator_at (Iterator0 := jt) (Iterator1 := jt) (RI := RJ) (RJ := RJ) (cmp := Compare c) (valid := valid) _ fuel (inr it) ik blks None);
    [apply (tf_shape _ _ _ _ _ _ _ _ _ _ Htf)|done| |exact Hat].
  intros j s v b Hj Hb. destruct (BlockReader_spec j s v Hj) as (h & b' & it' & ins & _ & Hb' & Hrd & Hat' & _).
  rewrite Hb in Hb'. injection Hb' as <-. exists (inr it'), None. split; [|exact Hat']. unfold block_opener. by rewrite Hrd.
Qed.

Notation Get := (InternalGet snappy zstd allocates addr cache ro).
Notation pos k l := (lower_bound (Compare c) k l).

(** The index iterator after a seek. *)
Lemma index_seek k : valid k → ∃ it0 it, Block_NewIterator (t_index_block t) = Some (inr it0) ∧
  it_Seek (Iterator := jt) k (inr it0) = Some it ∧ it_Valid (Iterator := jt) it = bool_decide (pos k ik < length ik)%nat ∧
  it_status (Iterator := jt) it = Status_OK ∧
  ∀ s v, ik !! pos k ik = Some (s, v) → it_value (Iterator := jt) it = Some v.
Proof using All.
  intros Hk. destruct (op_index _ Ht) as (it0 & Hit0 & Hat). pose proof table_block_laws as Hlaws.
  destruct (@it_seek _ _ _ _ _ Hlaws (inr it0) ik None k Hat Hk) as (it & Hs & Hat'). exists it0, it. split; [done|]. split; [done|].
  split; [|split].
  - rewrite (@it_valid _ _ _ _ _ Hlaws it _ _ Hat'). unfold pos_seek, pos_at. apply bool_decide_ext.
    destruct (Nat.ltb_spec (pos k ik) (length ik)); split; try done. lia.
  - apply (@it_ok _ _ _ _ _ Hlaws it _ _ Hat').
  - intros s v Hv. unfold pos_seek, pos_at in Hat'. rewrite (proj2 (Nat.ltb_lt _ _)) in Hat' by (by eapply lookup_lt_Some).
    by apply (@it_entry _ _ _ _ _ Hlaws it ik _ (s, v) Hat' Hv).
Qed.

Lemma get_past k : valid k → pos k ik = length ik → Get k t = Some (Status_OK, None, None).
Proof using All.
  intros Hk Heq. destruct (index_seek k Hk) as (it0 & it & Hit0 & Hs & Hv & Hst & _). unfold InternalGet. rewrite Hit0.
  cbn [mbind option_bind]. rewrite Hs. cbn [mbind option_bind]. rewrite Hv, bool_decide_false by lia. cbn [mbind option_bind ok Status_OK state_].
  by rewrite Hst.
Qed.

Lemma get_block k s v h b : valid k → ik !! pos k ik = Some (s, v) → hs !! pos k ik = Some h → blks !! pos k ik = Some b →
  ∃ ins, insert_ok ins ∧
  Get k t = skip ← (match t_filter t with Some rd => negb <$> Reader_KeyMayMatch rd (bh_offset h) k | None => Some false end);
            if (skip : bool) then Some (Status_OK, None, None) else Some (Status_OK, b !! pos k b, ins).
Proof using All.
  intros Hk Hs Hh Hb. destruct (index_seek k Hk) as (it0 & it & Hit0 & Hse & Hv & Hst & Hval). unfold InternalGet. rewrite Hit0.
  cbn [mbind option_bind]. rewrite Hse. cbn [mbind option_bind]. rewrite Hv, bool_decide_true by (by eapply lookup_lt_Some).
  rewrite (Hval s v Hs). cbn [mbind option_bind].
  destruct (BlockReader_spec _ s v Hs) as (h' & b' & bit & ins & Hh' & Hb' & Hrd & Hat & Hins). simplify_eq. exists ins. split; [done|].
  destruct (handle_of _ s v Hs) as (h' & b' & Hh' & Hb' & Hve & Hok & _). simplify_eq.
  replace (BlockHandle_DecodeFrom (handle_bytes h)) with (inr (h, []) : Status + (BlockHandle * list byte))
    by (by rewrite <- (app_nil_r (handle_bytes h)), DecodeFrom_bytes).
  destruct (match t_filter t with Some filter => negb <$> Reader_KeyMayMatch filter (bh_offset h) k | None => Some false end) as [[|]|];
    cbn [mbind option_bind]; [cbn [ok Status_OK state_]; by rewrite Hst| |done].
  rewrite Hrd. cbn [mbind option_bind]. pose proof table_block_laws as Hlaws.
  destruct (@it_seek _ _ _ _ _ Hlaws (inr bit) b None k Hat Hk) as (bit' & -> & Hat'). cbn [mbind option_bind].
  rewrite (@it_valid _ _ _ _ _ Hlaws bit' _ _ Hat'), (@it_ok _ _ _ _ _ Hlaws bit' _ _ Hat').
  unfold pos_seek, pos_at in Hat' |- *. destruct (Nat.ltb_spec (pos k b) (length b)) as [Hlt|Hge].
  - rewrite bool_decide_true by by eexists. destruct (lookup_lt_is_Some_2 b _ Hlt) as [[ek ev] He].
    destruct (@it_entry _ _ _ _ _ Hlaws bit' b _ (ek, ev) Hat' He) as [-> ->]. cbn [mbind option_bind ok Status_OK state_ fst snd].
    by rewrite Hst, He.
  - rewrite bool_decide_false by (by intros [? ?]). cbn [mbind option_bind ok Status_OK state_]. rewrite Hst.
    by rewrite lookup_ge_None_2.
Qed.

Lemma index_lookup k : (pos k ik < length ik)%nat → ∃ s v h b, ik !! pos k ik = Some (s, v) ∧ hs !! pos k ik = Some h ∧
  blks !! pos k ik = Some b ∧ v = handle_bytes h ∧ handle_ok h.
Proof using Htf.
  intros Hlt. destruct (lookup_lt_is_Some_2 ik _ Hlt) as [[s v] Hs].
  destruct (handle_of _ s v Hs) as (h & b & ? & ? & ? & ? & _). by exists s, v, h, b.
Qed.

(** The block the index names for [k] holds the first entry not below [k], when
    that entry is what the search is for. *)
Lemma hit_block k e : valid k → flat blks !! pos k (flat blks) = Some e → same k e.1 →
  ∃ s v h b, ik !! pos k ik = Some (s, v) ∧ hs !! pos k ik = Some h ∧ blks !! pos k ik = Some b ∧ b !! pos k b = Some e.
Proof using Htf ComparatorLaws0.
  intros Hk He Hsm. pose proof (tf_shape _ _ _ _ _ _ _ _ _ _ Htf) as Hsh.
  destruct (decide (pos k ik = length ik)) as [Heq|Hne].
  { rewrite (lower_bound_none (Compare c) valid ik blks Hsh k Hk Heq) in He. apply lookup_lt_Some in He. lia. }
  pose proof (lower_bound_le (Compare c) k ik). destruct (index_lookup k ltac:(lia)) as (s & v & h & b & Hs & Hh & Hb & _ & _).
  exists s, v, h, b. do 3 (split; [done|]). rewrite (lower_bound_block (Compare c) valid ik blks Hsh k Hk _ b eq_refl Hb) in He.
  pose proof (lower_bound_le (Compare c) k b). destruct (decide (pos k b < length b)%nat) as [Hlt|Hge].
  { by rewrite (join_lookup _ _ b) in He. }
  exfalso. assert (pos k b = length b) as Hpe by lia.
  rewrite Hpe, <- (off_S _ _ _ Hb) in He. unfold off in He. rewrite <- (take_drop (S (pos k ik)) blks) in He at 2.
  rewrite join_app, lookup_app_r, Nat.sub_diag, <- head_lookup in He by lia.
  assert (e ∈ flat blks) as Hin.
  { rewrite <- (take_drop (S (pos k ik)) blks), join_app. apply elem_of_app. right. by apply head_Some_elem_of. }
  pose proof (proj1 (Forall_forall _ _) (is_valid _ _ _ _ Hsh) e Hin) as Hve.
  assert (Compare c k e.1 <= 0) as Hke.
  { pose proof (compare_sym c k e.1 Hk Hve). apply head_Some_elem_of in He. pose proof (after_block (Compare c) valid ik blks Hsh k Hk _ s v e Hs (lower_bound_at _ _ _ _ Hs) He). lia. }
  pose proof (lower_bound_at _ _ _ _ Hs) as Hge'. cbn [fst] in Hge'.
  pose proof (tf_tight _ _ _ _ _ _ _ _ _ _ Htf _ s v b Hs Hb k e He Hk) as Hti.
  apply Z.le_ngt in Hge'. apply Hge', Hti; [|done..]. intros x [i Hx]%list_elem_of_lookup.
  apply (lower_bound_below _ _ _ _ _ Hx). rewrite Hpe. by eapply lookup_lt_Some.
Qed.

Lemma get_hit k e : valid k → flat blks !! pos k (flat blks) = Some e → same k e.1 →
  (∀ p f, filter_policy opts = Some p → KeyMayMatch p k f = KeyMayMatch p e.1 f) →
  ∃ ins, Get k t = Some (Status_OK, Some e, ins).
Proof using All.
  intros Hk He Hsm Hfl. destruct (hit_block k e Hk He Hsm) as (s & v & h & b & Hs & Hh & Hb & Hbe).
  destruct (get_block k s v h b Hk Hs Hh Hb) as (ins & _ & ->). exists ins. rewrite Hbe. pose proof (op_filter _ Ht) as Hof.
  destruct (filter_policy opts) as [p|]; [|by rewrite Hof]. destruct Hof as (rd & -> & Hans).
  destruct (Hans _ b h Hb Hh) as (f & Hf & Hm). rewrite Hf, (Hfl p f eq_refl), (Hm e) by (by eapply list_elem_of_lookup_2). done.
Qed.

Lemma get_any k : valid k → (∀ p f, filter_policy opts = Some p → is_Some (KeyMayMatch p k f)) →
  ∃ res ins, Get k t = Some (Status_OK, res, ins) ∧ ∀ e, res = Some e → flat blks !! pos k (flat blks) = Some e.
Proof using All.
  intros Hk Hdef. pose proof (tf_shape _ _ _ _ _ _ _ _ _ _ Htf) as Hsh. destruct (decide (pos k ik = length ik)) as [Heq|Hne].
  { exists None, None. split; [by apply get_past|done]. }
  pose proof (lower_bound_le (Compare c) k ik). destruct (index_lookup k ltac:(lia)) as (s & v & h & b & Hs & Hh & Hb & _ & _).
  destruct (get_block k s v h b Hk Hs Hh Hb) as (ins & _ & ->). pose proof (op_filter _ Ht) as Hof.
  assert (∃ skip, (match t_filter t with Some rd => negb <$> Reader_KeyMayMatch rd (bh_offset h) k | None => Some false end) = Some skip)
    as (skip & ->).
  { destruct (filter_policy opts) as [p|]; [|rewrite Hof; by exists false]. destruct Hof as (rd & -> & Hans).
    destruct (Hans _ b h Hb Hh) as (f & Hf & _). rewrite Hf. destruct (Hdef p f eq_refl) as [m ->]. by exists (negb m). }
  cbn [mbind option_bind]. destruct skip; [by exists None, None|]. eexists _, ins. split; [done|]. intros e He.
  rewrite (lower_bound_block (Compare c) valid ik blks Hsh k Hk _ b eq_refl Hb), (join_lookup _ _ b); [done..|].
  by eapply lookup_lt_Some.
Qed.

(** The offset of the block [k] would be in, or of the end of the blocks. *)
Definition offset_of (k : list byte) : Z :=
  match hs !! pos k ik with Some h => bh_offset h | None => bh_offset (metaindex_handle_ footer) end.

Lemma approximate_spec k : valid k → ApproximateOffsetOf k t = Some (offset_of k).
Proof using All.
  intros Hk. destruct (index_seek k Hk) as (it0 & it & Hit0 & Hs & Hv & Hst & Hval). unfold ApproximateOffsetOf, offset_of. rewrite Hit0.
  cbn [mbind option_bind]. rewrite Hs. cbn [mbind option_bind]. rewrite Hv. rewrite (op_meta _ Ht).
  case_bool_decide as Hlt.
  - destruct (index_lookup k Hlt) as (s & v & h & b & Hsv & -> & _ & -> & Hok). rewrite (Hval s _ Hsv). cbn [mbind option_bind].
    by rewrite <- (app_nil_r (handle_bytes h)), DecodeFrom_bytes.
  - rewrite lookup_ge_None_2; [done|]. rewrite (tf_handles _ _ _ _ _ _ _ _ _ _ Htf), <- (is_length _ _ _ _ (tf_shape _ _ _ _ _ _ _ _ _ _ Htf)). lia.
Qed.

Lemma offset_of_range k k' : valid k → valid k' → Compare c k k' <= 0 →
  0 <= offset_of k <= offset_of k' ∧ offset_of k' <= Z.of_nat (length (content file)).
Proof using Htf ComparatorLaws0.
  intros Hk Hk' Hle. pose proof (tf_shape _ _ _ _ _ _ _ _ _ _ Htf) as Hsh.
  assert (pos k ik ≤ pos k' ik)%nat as Hpos.
  { apply Nat.nlt_ge. intros Hlt. pose proof (lower_bound_le (Compare c) k ik).
    destruct (lookup_lt_is_Some_2 ik (pos k' ik)) as [[s v] Hs]; [lia|].
    pose proof (lower_bound_at _ _ _ _ Hs) as H1. pose proof (lower_bound_below _ _ _ _ _ Hs Hlt) as H2. cbn [fst] in *.
    pose proof (Forall_lookup_1 _ _ _ _ (is_valid_sep _ _ _ _ Hsh) Hs) as Hvs.
    pose proof (compare_lt_le_trans c s k k' Hvs Hk Hk' H2 Hle). lia. }
  assert (∀ i h, hs !! i = Some h → 0 <= bh_offset h) as Hnn.
  { intros i h Hh. destruct (lookup_lt_is_Some_2 blks i) as [b Hb]; [rewrite <- (tf_handles _ _ _ _ _ _ _ _ _ _ Htf); by eapply lookup_lt_Some|].
    by destruct (tf_blocks _ _ _ _ _ _ _ _ _ _ Htf i b h Hb Hh) as (_ & [[? _] _] & _). }
  destruct (tf_filter _ _ _ _ _ _ _ _ _ _ Htf) as (mraw & (mt & z & post & _ & [[Hm0 _] _] & _ & Hm & _) & _).
  pose proof (λ i h, tf_meta _ _ _ _ _ _ _ _ _ _ Htf i h) as Hmeta.
  unfold offset_of. destruct (hs !! pos k ik) as [h|] eqn:Eh, (hs !! pos k' ik) as [h'|] eqn:Eh'.
  - pose proof (Hnn _ _ Eh). pose proof (Hmeta _ _ Eh'). destruct (decide (pos k ik = pos k' ik)) as [Heq|Hne].
    { rewrite Heq in Eh. simplify_eq. lia. }
    pose proof (tf_order _ _ _ _ _ _ _ _ _ _ Htf _ _ _ _ Eh Eh' ltac:(lia)). lia.
  - pose proof (Hnn _ _ Eh). pose proof (Hmeta _ _ Eh). lia.
  - apply lookup_lt_Some in Eh'. apply lookup_ge_None_1 in Eh. lia.
  - lia.
Qed.
End operations.

(** ** The block cache *)

Definition cache_set (key : list byte) (blk : option Block) (L : list byte → option Block) : list byte → option Block :=
  λ k, if decide (k = key) then blk else L k.

(** The states of a block cache shared with other tables: lookups of this table
    insert blocks, entries are evicted at any time, and other tables insert under
    their own id. *)
Inductive cache_state t : (list byte → option Block) → Prop :=
  | cache_new : cache_state t (λ _, None)
  | cache_get L ro k s res key blk : cache_state t L → valid k →
      InternalGet snappy zstd allocates addr (Some L) ro k t = Some (s, res, Some (key, blk)) → cache_state t (cache_set key (Some blk) L)
  | cache_evict L key : cache_state t L → cache_state t (cache_set key None L)
  | cache_other L key blk : cache_state t L → take 8 key ≠ EncodeFixed64 (t_cache_id t) → cache_state t (cache_set key (Some blk) L).

Lemma cache_key_inj t i j h h' : hs !! i = Some h → hs !! j = Some h' → handle_ok h → handle_ok h' →
  cache_key t h = cache_key t h' → i = j.
Proof using Htf.
  intros Hi Hj Hok Hok' Heq. unfold cache_key in Heq. apply app_inv_head in Heq.
  pose proof (Decode_EncodeFixed64 (bh_offset h) []) as H1. rewrite Heq, Decode_EncodeFixed64 in H1. injection H1 as H1.
  unfold handle_ok, all_ones in *. rewrite !u64_small in H1 by lia.
  destruct (Nat.lt_trichotomy i j) as [Hlt|[Hlt|Hlt]]; [|done|].
  - pose proof (tf_order _ _ _ _ _ _ _ _ _ _ Htf _ _ _ _ Hi Hj Hlt). lia.
  - pose proof (tf_order _ _ _ _ _ _ _ _ _ _ Htf _ _ _ _ Hj Hi Hlt). lia.
Qed.

Lemma get_insert_ok t L ro k s res ins : opened t → cache_ok t (Some L) → valid k →
  InternalGet snappy zstd allocates addr (Some L) ro k t = Some (s, res, ins) → insert_ok t ins.
Proof using All.
  intros Ht Hc Hk Hget. destruct (decide (lower_bound (Compare c) k ik = length ik)) as [Heq|Hne].
  { rewrite (get_past t Ht (Some L) ro Hc k Hk Heq) in Hget. by injection Hget as <- <- <-. }
  pose proof (lower_bound_le (Compare c) k ik). destruct (index_lookup k ltac:(lia)) as (s' & v & h & b & Hs & Hh & Hb & _ & _).
  destruct (get_block t Ht (Some L) ro Hc k s' v h b Hk Hs Hh Hb) as (ins' & Hins & Heq). rewrite Heq in Hget.
  destruct (match t_filter t with Some _ => _ | None => _ end) as [[|]|]; cbn [mbind option_bind] in Hget; [|..|done];
    injection Hget as <- <- <-; done.
Qed.

Lemma cache_state_ok t L : opened t → cache_state t L → cache_ok t (Some L).
Proof using All.
  intros Ht Hst. induction Hst as [|L ro k s res key blk _ IH Hk Hget|L key _ IH|L key blk _ IH Hne];
    intros Lookup j h b blk' [= <-] Hh Hb Hl; [done|..].
  - unfold cache_set in Hl. destruct (decide _) as [Heq|]; [|by apply (IH L j h b blk')].
    injection Hl as <-. destruct (get_insert_ok t L ro k s res _ Ht IH Hk Hget key blk eq_refl) as (j' & h' & b' & it & Hh' & Hb' & -> & Hit & Hat).
    destruct (tf_blocks _ _ _ _ _ _ _ _ _ _ Htf j b h Hb Hh) as (_ & Hok & _).
    destruct (tf_blocks _ _ _ _ _ _ _ _ _ _ Htf j' b' h' Hb' Hh') as (_ & Hok' & _).
    pose proof (cache_key_inj t j j' h h' Hh Hh' Hok Hok' Heq) as ->. rewrite Hb in Hb'. injection Hb' as <-. by exists it.
  - unfold cache_set in Hl. destruct (decide _); [done|]. by apply (IH L j h b blk').
  - unfold cache_set in Hl. destruct (decide _) as [<-|]; [|by apply (IH L j h b blk')]. exfalso. apply Hne.
    unfold cache_key. by rewrite take_app_length' by done.
Qed.

Lemma get_cached t L ro k : opened t → cache_state t L → valid k →
  fst <$> InternalGet snappy zstd allocates addr (Some L) ro k t = fst <$> InternalGet snappy zstd allocates addr None ro k t.
Proof using All.
  intros Ht Hst Hk. pose proof (cache_state_ok t L Ht Hst) as Hc. assert (cache_ok t None) as Hn by (by intros L' j h b blk).
  destruct (decide (lower_bound (Compare c) k ik = length ik)) as [Heq|Hne].
  { rewrite (get_past t Ht (Some L) ro Hc k Hk Heq), (get_past t Ht None ro Hn k Hk Heq). done. }
  pose proof (lower_bound_le (Compare c) k ik). destruct (index_lookup k ltac:(lia)) as (s & v & h & b & Hs & Hh & Hb & _ & _).
  destruct (get_block t Ht (Some L) ro Hc k s v h b Hk Hs Hh Hb) as (ins1 & _ & ->).
  destruct (get_block t Ht None ro Hn k s v h b Hk Hs Hh Hb) as (ins2 & _ & ->).
  by destruct (match t_filter t with Some _ => _ | None => _ end) as [[|]|].
Qed.
End opened.
End table_proofs.

(** ** Claims *)

Section whole.
Context {C P F R : Type} `{!Comparator C, !EqDecision C, !FilterPolicy P, !WritableFile F, !RandomAccessFile R}.
Context {valid : list byte → Prop} `{!ComparatorLaws C valid}.
Context {wfF : F → Prop} {contentF : F → list byte} `{!WritableFileLaws F wfF contentF}.
Context {wfR : R → Prop} {contentR : R → list byte} `{!RandomAccessFileLaws R wfR contentR}.
Context {good : P → list (list byte) → Prop} `{!FilterPolicyLaws P good}.
Context (snappy zstd : Codec) (Hsnappy : codec_ok snappy) (Hzstd : codec_ok zstd).
Context (policy_name : P → list byte) (allocates : R → bool) (addr : Z) (opts : Options C P) (l : list kv) (file : F).
Context (same : list byte → list byte → Prop).
Notation c := (comparator opts).

(** What the table code needs of its clients. *)
Record table_ready : Prop := {
  tr_interval : 1 <= block_restart_interval opts;
  tr_separator a b : valid a → valid b → (length (FindShortestSeparator c a b) ≤ length a)%nat;
  tr_successor a : valid a → (length (FindShortSuccessor c a) ≤ length a)%nat;
  tr_name p : filter_policy opts = Some p → Z.of_nat (length (policy_name p)) < 2 ^ 30;
  tr_wf : wfF file;
  tr_empty : contentF file = [];
  tr_fine : fine (valid := valid) (good := good) opts l;
  tr_filter contents : filter_of_table snappy zstd addr opts l file = Some contents → Z.of_nat (length contents) < 2 ^ 32;
}.

Lemma build_and_open :
  table_ready →
  (∀ a k b, valid a → valid k → valid b → Compare c a k < 0 → Compare c k b <= 0 → same k b → Compare c (FindShortestSeparator c a b) k < 0) →
  ∃ r footer blks hs ik, build_table snappy zstd policy_name addr opts l file = Some (r, Status_OK) ∧ wfF (tb_file r) ∧ flat blks = l ∧
    ∀ rfile cache_id, wfR rfile → contentR rfile = contentF (tb_file r) →
    table_file (valid := valid) snappy zstd policy_name opts same (contentR rfile) footer blks hs ik ∧
    FileSize r = Z.of_nat (length (contentR rfile)) ∧
    ∃ t, Table_Open snappy zstd policy_name allocates addr opts cache_id rfile (FileSize r) = Some (Status_OK, Some t) ∧
      opened (valid := valid) opts rfile footer blks hs ik t.
Proof using All.
  intros [Hint Hsep Hsucc Hname Hwf Hc Hfine Hfil] Hsame.
  destruct (build_spec (wf := wfF) (content := contentF) snappy zstd policy_name addr opts same Hint Hsep Hsame Hsucc Hname l file Hwf Hc Hfine Hfil)
    as (r & footer & blks & hs & ik & Hb & Hwf' & Hsz & <- & Htf).
  exists r, footer, blks, hs, ik. split; [done|]. split; [done|]. split; [done|]. intros rfile cache_id Hwr Heq. rewrite <- Heq in Htf. split; [done|].
  rewrite Hsz, <- Heq. split; [done|]. by apply (Open_spec snappy zstd Hsnappy Hzstd policy_name allocates addr opts same rfile footer blks hs ik).
Qed.

Lemma index_short blks hs ik data footer : table_file (valid := valid) snappy zstd policy_name opts same data footer blks hs ik →
  (length ik ≤ length (flat blks))%nat.
Proof.
  intros Htf. rewrite (is_length _ _ _ _ (tf_shape _ _ _ _ _ _ _ _ _ _ Htf)).
  assert (∀ j b, blks !! j = Some b → b ≠ []) as Hne.
  { intros j b Hb. destruct (lookup_lt_is_Some_2 hs j) as [h Hh].
    { rewrite (tf_handles _ _ _ _ _ _ _ _ _ _ Htf). by eapply lookup_lt_Some. }
    by apply (tf_blocks _ _ _ _ _ _ _ _ _ _ Htf j b h Hb Hh). }
  clear Htf. induction blks as [|b blks IH]; [done|].
  change (flat (b :: blks)) with (b ++ flat blks). rewrite length_app. specialize (IH (λ j b', Hne (S j) b')).
  pose proof (Hne 0%nat b eq_refl). destruct b; [done|]. cbn [length] in *. lia.
Qed.
End whole.

Section table_claims.
Context {C P F R : Type} `{!Comparator C, !EqDecision C, !FilterPolicy P, !WritableFile F, !RandomAccessFile R}.
Context {valid : list byte → Prop} `{!ComparatorLaws C valid}.
Context {wfF : F → Prop} {contentF : F → list byte} `{!WritableFileLaws F wfF contentF}.
Context {wfR : R → Prop} {contentR : R → list byte} `{!RandomAccessFileLaws R wfR contentR}.
Context {good : P → list (list byte) → Prop} `{!FilterPolicyLaws P good}.
Context (snappy zstd : Codec) (policy_name : P → list byte) (allocates : R → bool) (addr : Z) (opts : Options C P).

(** C7: Tables round trip.  Entries with strictly increasing keys go into a
    table file, of any block size, restart interval, compression and filter
    policy, with no error, and any file with the same content opens as a table
    whose iterator runs over exactly those entries: a scan from the first one
    returns them all, and every operation of the iterator, in either direction,
    behaves as on the sorted sequence. *)
Theorem table_scan (l : list kv) (file : F) :
  codec_ok snappy → codec_ok zstd →
  table_ready (valid := valid) (wfF := wfF) (contentF := contentF) (good := good) snappy zstd policy_name addr opts l file →
  ∃ r, build_table snappy zstd policy_name addr opts l file = Some (r, Status_OK) ∧ wfF (tb_file r) ∧
    ∀ rfile cache_id, wfR rfile → contentR rfile = contentF (tb_file r) →
    ∃ t it, Table_Open snappy zstd policy_name allocates addr opts cache_id rfile (FileSize r) = Some (Status_OK, Some t) ∧
      Table_NewIterator t = Some it ∧
      ∀ ro fuel, (length l + 1 < fuel)%nat →
      let iterator := two_level_iterator (Iterator0 := table_block_iterator t) (Iterator1 := table_block_iterator t)
        (block_opener snappy zstd allocates addr None ro t) fuel in
      (it ← it_SeekToFirst it; scan fuel it) = Some l ∧
      ∃ at_pos, IteratorLaws _ (Compare (comparator opts)) valid at_pos ∧ at_pos it l None.
Proof.
  intros Hsnappy Hzstd Hready.
  destruct (build_and_open (wfR := wfR) (contentR := contentR) snappy zstd Hsnappy Hzstd policy_name allocates addr opts l file (λ _ _, False) Hready)
    as (r & footer & blks & hs & ik & Hb & Hwr0 & <- & Hopen); [done|].
  exists r. split; [done|]. split; [done|]. intros rfile cache_id Hwr Heq. destruct (Hopen rfile cache_id Hwr Heq) as (Htf & Hsz & t & Ht & Hop).
  assert (∀ ro fuel, (length (flat blks) + 1 < fuel)%nat → ∃ it, Table_NewIterator t = Some it ∧
    two_level_at (cmp := Compare (comparator opts)) (valid := valid) (RI := sum_at (RI := empty_at) (RJ := block_at (comparator opts) (valid := valid)))
      (RJ := sum_at (RI := empty_at) (RJ := block_at (comparator opts) (valid := valid)))
      (block_opener snappy zstd allocates addr None ro t) fuel it (flat blks) None) as Hit.
  { intros ro fuel Hf. pose proof (index_short _ _ _ _ _ _ _ _ _ _ Htf).
    apply (Table_NewIterator_spec snappy zstd Hsnappy Hzstd policy_name allocates addr opts (λ _ _, False) rfile footer blks hs ik Hwr Htf); [|done|by intros L|lia].
    apply (tr_fine _ _ _ _ _ _ _ Hready). }
  destruct (Hit {| verify_checksums := false; fill_cache := false |} (length (flat blks) + 2)%nat ltac:(lia)) as (it & Hnew & _).
  exists t, it. split; [done|]. split; [done|]. intros ro fuel Hf iterator. destruct (Hit ro fuel Hf) as (it' & Hnew' & Hat).
  rewrite Hnew in Hnew'. injection Hnew' as <-.
  pose proof (table_block_laws opts rfile footer blks hs ik t Hop) as HJ.
  pose proof (two_level_laws (IteratorLaws0 := HJ) (IteratorLaws1 := HJ) (block_opener snappy zstd allocates addr None ro t) fuel) as Hlaws.
  split; [|by eexists].
  destruct (@it_first _ _ _ _ _ Hlaws it _ _ Hat) as (it1 & Hf1 & Hat1). unfold iterator. rewrite Hf1. cbn [mbind option_bind].
  rewrite (scan_spec (IteratorLaws0 := Hlaws) fuel it1 _ 0 Hat1); [by rewrite drop_0|lia|lia].
Qed.

(** C31: The block cache is transparent.  However the cache came to its state (by
    lookups in this table that filled it, by evictions, by other tables under
    other ids), a lookup returns the status and calls the handler as it would
    with no cache. *)
Theorem table_cache_transparent (l : list kv) (file : F) :
  codec_ok snappy → codec_ok zstd →
  table_ready (valid := valid) (wfF := wfF) (contentF := contentF) (good := good) snappy zstd policy_name addr opts l file →
  ∃ r, build_table snappy zstd policy_name addr opts l file = Some (r, Status_OK) ∧ wfF (tb_file r) ∧
    ∀ rfile cache_id, wfR rfile → contentR rfile = contentF (tb_file r) →
    ∃ t, Table_Open snappy zstd policy_name allocates addr opts cache_id rfile (FileSize r) = Some (Status_OK, Some t) ∧
      ∀ L ro k, cache_state (valid := valid) snappy zstd allocates addr t L → valid k →
        fst <$> InternalGet snappy zstd allocates addr (Some L) ro k t = fst <$> InternalGet snappy zstd allocates addr None ro k t.
Proof.
  intros Hsnappy Hzstd Hready.
  destruct (build_and_open (wfR := wfR) (contentR := contentR) snappy zstd Hsnappy Hzstd policy_name allocates addr opts l file (λ _ _, False) Hready)
    as (r & footer & blks & hs & ik & Hb & Hwr0 & <- & Hopen); [done|].
  exists r. split; [done|]. split; [done|]. intros rfile cache_id Hwr Heq. destruct (Hopen rfile cache_id Hwr Heq) as (Htf & Hsz & t & Ht & Hop).
  exists t. split; [done|]. intros L ro k Hst Hk.
  apply (get_cached snappy zstd Hsnappy Hzstd policy_name allocates addr opts (λ _ _, False) rfile footer blks hs ik Hwr Htf); [|done..].
  apply (tr_fine _ _ _ _ _ _ _ Hready).
Qed.

(** Approximate offsets follow the keys.  [ApproximateOffsetOf] is defined for
    every key, never decreases as the key grows, and lies within the file. *)
Theorem approximate_offsets (l : list kv) (file : F) :
  codec_ok snappy → codec_ok zstd →
  table_ready (valid := valid) (wfF := wfF) (contentF := contentF) (good := good) snappy zstd policy_name addr opts l file →
  ∃ r, build_table snappy zstd policy_name addr opts l file = Some (r, Status_OK) ∧ wfF (tb_file r) ∧
    ∀ rfile cache_id, wfR rfile → contentR rfile = contentF (tb_file r) →
    ∃ t, Table_Open snappy zstd policy_name allocates addr opts cache_id rfile (FileSize r) = Some (Status_OK, Some t) ∧
      ∀ k k', valid k → valid k' → Compare (comparator opts) k k' <= 0 →
      ∃ o o', ApproximateOffsetOf k t = Some o ∧ ApproximateOffsetOf k' t = Some o' ∧ 0 <= o <= o' ∧ o' <= FileSize r.
Proof.
  intros Hsnappy Hzstd Hready.
  destruct (build_and_open (wfR := wfR) (contentR := contentR) snappy zstd Hsnappy Hzstd policy_name allocates addr opts l file (λ _ _, False) Hready)
    as (r & footer & blks & hs & ik & Hb & Hwr0 & <- & Hopen); [done|].
  exists r. split; [done|]. split; [done|]. intros rfile cache_id Hwr Heq. destruct (Hopen rfile cache_id Hwr Heq) as (Htf & Hsz & t & Ht & Hop).
  exists t. split; [done|]. intros k k' Hk Hk' Hle.
  pose proof (tr_fine _ _ _ _ _ _ _ Hready) as Hf.
  exists (offset_of opts footer hs ik k), (offset_of opts footer hs ik k').
  split; [|split]; [apply (approximate_spec snappy zstd Hsnappy Hzstd policy_name allocates addr opts (λ _ _, False) rfile footer blks hs ik Hwr Htf Hf t Hop
    None {| verify_checksums := false; fill_cache := false |}); [by intros L|done]..|].
  rewrite Hsz. by apply (offset_of_range snappy zstd policy_name opts (λ _ _, False) rfile footer blks hs ik Htf).
Qed.
End table_claims.

(** The table code over internal keys, as the database uses it. *)
Section internal_claims.
Context {C P F R : Type} `{!Comparator C, !EqDecision (InternalKeyComparator C), !FilterPolicy P, !WritableFile F, !RandomAccessFile R}.
Context {uvalid : list byte → Prop} `{!ComparatorLaws C uvalid}.
Context {wfF : F → Prop} {contentF : F → list byte} `{!WritableFileLaws F wfF contentF}.
Context {wfR : R → Prop} {contentR : R → list byte} `{!RandomAccessFileLaws R wfR contentR}.
Context {good : P → list (list byte) → Prop} `{!FilterPolicyLaws P good}.
Context (snappy zstd : Codec) (policy_name : InternalFilterPolicy P → list byte) (allocates : R → bool) (addr : Z).
Context (opts : Options (InternalKeyComparator C) (InternalFilterPolicy P)).

(** C6: Lookups in a table of internal keys are exact.  For a lookup key of a
    user key at a sequence number, let [e] be the first entry of the table not
    below it.  If [e] has that user key, [InternalGet] calls its handler with
    [e], with any filter policy that matches the keys it builds a filter from and
    wherever the block boundaries and shortened index keys fall: such a filter
    never hides an entry, and the index never points at the block before.
    Otherwise it calls its handler with [e] or not at all.  The status is OK. *)
Theorem table_get (l : list kv) (file : F) :
  codec_ok snappy → codec_ok zstd →
  table_ready (valid := valid_key uvalid) (wfF := wfF) (contentF := contentF)
    (good := λ p keys, good (user_policy_ p) (ExtractUserKey <$> keys)) snappy zstd policy_name addr opts l file →
  ∃ r, build_table snappy zstd policy_name addr opts l file = Some (r, Status_OK) ∧ wfF (tb_file r) ∧
    ∀ rfile cache_id, wfR rfile → contentR rfile = contentF (tb_file r) →
    ∃ t, Table_Open snappy zstd policy_name allocates addr opts cache_id rfile (FileSize r) = Some (Status_OK, Some t) ∧
      ∀ ro u s, uvalid u →
      let k := lookup_internal_key (LookupKey_new u s) in
      let first := l !! lower_bound (Compare (comparator opts)) k l in
      (∀ e, first = Some e → ExtractUserKey e.1 = u →
         fst <$> InternalGet snappy zstd allocates addr None ro k t = Some (Status_OK, Some e)) ∧
      ((∀ p f, filter_policy opts = Some p → is_Some (KeyMayMatch (user_policy_ p) u f)) →
       ∃ res, fst <$> InternalGet snappy zstd allocates addr None ro k t = Some (Status_OK, res) ∧ (res = None ∨ res = first)).
Proof.
  intros Hsnappy Hzstd Hready. set (same a b := ExtractUserKey a = ExtractUserKey b).
  destruct (build_and_open (wfR := wfR) (contentR := contentR) snappy zstd Hsnappy Hzstd policy_name allocates addr opts l file same Hready)
    as (r & footer & blks & hs & ik & Hb & Hwr0 & <- & Hopen).
  { intros a k b Ha Hk Hb' Hlt _ Hs. by apply (internal_separator_below (uvalid := uvalid)). }
  exists r. split; [done|]. split; [done|]. intros rfile cache_id Hwr Heq. destruct (Hopen rfile cache_id Hwr Heq) as (Htf & Hsz & t & Ht & Hop).
  exists t. split; [done|]. intros ro u s Hu k first.
  assert (k = u ++ EncodeFixed64 (PackSequenceAndType s kValueTypeForSeek)) as Hkeq.
  { unfold k, lookup_internal_key, LookupKey_new. cbn [lk_data lk_kstart]. apply drop_app_length. }
  assert (valid_key uvalid k) as Hk by (rewrite Hkeq; by apply valid_key_app).
  assert (ExtractUserKey k = u) as Huk by (rewrite Hkeq; apply ExtractUserKey_app).
  pose proof (tr_fine _ _ _ _ _ _ _ Hready) as Hf. split.
  - intros e He Hue. destruct (get_hit snappy zstd Hsnappy Hzstd policy_name allocates addr opts same rfile footer blks hs ik Hwr Htf Hf t Hop None ro)
      with (k := k) (e := e) as (ins & ->); [by intros L|done|done|unfold same; congruence| |done].
    intros p f _. cbn [KeyMayMatch internal_policy]. by rewrite Huk, Hue.
  - intros Hdef. destruct (get_any snappy zstd Hsnappy Hzstd policy_name allocates addr opts same rfile footer blks hs ik Hwr Htf Hf t Hop None ro)
      with (k := k) as (res & ins & -> & Hres); [by intros L|done|intros p f Hp; cbn [KeyMayMatch internal_policy]; rewrite Huk; by apply Hdef|].
    exists res. split; [done|]. destruct res as [e|]; [right|by left]. symmetry. by apply Hres.
Qed.
End internal_claims.

(** ** Instances *)

(** A codec that stores bytes as they are. *)
Definition plain_codec : Codec :=
  {| Compress raw := Some raw; GetUncompressedLength z := Some (Z.of_nat (length z)); Uncompress z := Some z |}.

Lemma plain_codec_ok : codec_ok plain_codec.
Proof. by intros raw z [= <-]. Qed.

Definition example_icmp : InternalKeyComparator BytewiseComparatorImpl := {| user_comparator_ := BytewiseComparator |}.

Definition example_options : Options (InternalKeyComparator BytewiseComparatorImpl) (InternalFilterPolicy BloomFilterPolicy) :=
  {| comparator := example_icmp; block_size := 40; block_restart_interval := 2; compression := kSnappyCompression;
     filter_policy := Some {| user_policy_ := NewBloomFilterPolicy 10 |}; paranoid_checks := true |}.

Definition example_name (p : InternalFilterPolicy BloomFilterPolicy) : list byte := str "leveldb.BuiltinBloomFilter2".

Definition example_ikey (u : list byte) (s : Z) : list byte :=
  AppendInternalKey [] {| user_key := u; sequence := s; type := kTypeValue |}.

Definition table_example : list kv :=
  [(example_ikey (str "apple") 9, str "new"); (example_ikey (str "apple") 5, str "old");
   (example_ikey (str "apply") 7, str "2"); (example_ikey (str "apricot") 2, str "3"); (example_ikey (str "bat") 4, str "4")].

Notation example_built := (build_table plain_codec plain_codec example_name 0 example_options table_example FileState_new).
Notation example_open r := (Table_Open plain_codec plain_codec example_name (λ _ : FileState, true) 0 example_options 1 (tb_file r) (FileSize r)).

Lemma example_ready : table_ready (valid := valid_key (λ _, True)) (wfF := fs_ok) (contentF := content)
  (good := λ p keys, bloom_good (user_policy_ p) (ExtractUserKey <$> keys))
  plain_codec plain_codec example_name 0 example_options table_example FileState_new.
Proof.
  split.
  - done.
  - intros a b Ha _. by apply (internal_separator_length (uvalid := λ _, True)).
  - intros a Ha. by apply (internal_separator_length (uvalid := λ _, True) example_icmp a a).
  - intros p _. vm_compute. reflexivity.
  - apply fs_ok_new.
  - reflexivity.
  - split.
    + repeat constructor; vm_compute; reflexivity.
    + repeat (apply Forall_cons; split; [split; [apply Nat.leb_le; reflexivity|done]|]). by apply Forall_nil.
    + vm_compute. reflexivity.
    + intros p ks [= <-] _ Hsub%sublist_length. change (length (fst <$> table_example)) with 5%nat in Hsub. cbn [user_policy_].
      split; [done|]. split; [apply NewBloomFilterPolicy_k|]. rewrite length_fmap.
      change (bits_per_key_ (NewBloomFilterPolicy 10)) with 10. lia.
  - intros contents Hc. vm_compute in Hc. injection Hc as <-. vm_compute. reflexivity.
Qed.

Definition example_read : ReadOptions := {| verify_checksums := true; fill_cache := true |}.

Lemma table_scan_witness :
  ∃ r t it, example_built = Some (r, Status_OK) ∧ FileSize r = 316 ∧ example_open r = Some (Status_OK, Some t) ∧
    Table_NewIterator t = Some it ∧
    let iterator := two_level_iterator (Iterator0 := table_block_iterator t) (Iterator1 := table_block_iterator t)
      (block_opener plain_codec plain_codec (λ _, true) 0 None example_read t) 10 in
    (it ← it_SeekToFirst it; scan 10 it) = Some table_example.
Proof.
  destruct (table_scan (wfR := fs_ok) (contentR := content) plain_codec plain_codec example_name (λ _, true) 0 example_options
    table_example FileState_new plain_codec_ok plain_codec_ok example_ready) as (r & Hr & Hwf & Hopen).
  assert ((λ x, FileSize x.1) <$> example_built = Some 316) as Hsz by (vm_compute; reflexivity).
  rewrite Hr in Hsz. injection Hsz as Hsz. destruct (Hopen (tb_file r) 1 Hwf eq_refl) as (t & it & Ht & Hit & Hops).
  exists r, t, it. split_and!; [done..|]. apply Hops. cbn. lia.
Defined.

Lemma table_cache_transparent_witness :
  ∃ r t, example_built = Some (r, Status_OK) ∧ example_open r = Some (Status_OK, Some t) ∧
    let get L := InternalGet plain_codec plain_codec (λ _, true) 0 L example_read (example_ikey (str "apply") 8) t in
    fst <$> get (Some (λ _, None)) = fst <$> get None.
Proof.
  destruct (table_cache_transparent (wfR := fs_ok) (contentR := content) plain_codec plain_codec example_name (λ _, true) 0 example_options
    table_example FileState_new plain_codec_ok plain_codec_ok example_ready) as (r & Hr & Hwf & Hopen).
  destruct (Hopen (tb_file r) 1 Hwf eq_refl) as (t & Ht & Hc). exists r, t. split; [done|]. split; [done|].
  apply Hc; [constructor|]. split; [apply Nat.leb_le; reflexivity|done].
Defined.

Lemma approximate_offsets_witness :
  ∃ r t o o', example_built = Some (r, Status_OK) ∧ example_open r = Some (Status_OK, Some t) ∧
    ApproximateOffsetOf (example_ikey (str "apple") 9) t = Some o ∧ ApproximateOffsetOf (example_ikey (str "bat") 4) t = Some o' ∧ o <= o'.
Proof.
  destruct (approximate_offsets (wfR := fs_ok) (contentR := content) plain_codec plain_codec example_name (λ _, true) 0 example_options
    table_example FileState_new plain_codec_ok plain_codec_ok example_ready) as (r & Hr & Hwf & Hopen).
  destruct (Hopen (tb_file r) 1 Hwf eq_refl) as (t & Ht & Hc).
  destruct (Hc (example_ikey (str "apple") 9) (example_ikey (str "bat") 4)) as (o & o' & Ho & Ho' & Hle & _).
  - split; [apply Nat.leb_le; reflexivity|done].
  - split; [apply Nat.leb_le; reflexivity|done].
  - vm_compute. discriminate.
  - exists r, t, o, o'. split_and!; [done..|apply Hle].
Defined.

(** At sequence 6 the older of the two versions of a key is found. *)
Lemma table_get_witness :
  ∃ r t, example_built = Some (r, Status_OK) ∧ example_open r = Some (Status_OK, Some t) ∧
    fst <$> InternalGet plain_codec plain_codec (λ _, true) 0 None example_read (lookup_internal_key (LookupKey_new (str "apple") 6)) t
      = Some (Status_OK, Some (example_ikey (str "apple") 5, str "old")).
Proof.
  destruct (table_get (uvalid := λ _, True) (wfR := fs_ok) (contentR := content) plain_codec plain_codec example_name (λ _, true) 0 example_options
    table_example FileState_new plain_codec_ok plain_codec_ok example_ready) as (r & Hr & Hwf & Hopen).
  destruct (Hopen (tb_file r) 1 Hwf eq_refl) as (t & Ht & Hget). exists r, t. split; [done|]. split; [done|].
  apply (Hget example_read (str "apple") 6 I); reflexivity.
Defined.
