(* ===== verification/VersionEdit.v ===== *)
(** Version edits: the records of the MANIFEST (db/version_edit.h,
    db/version_edit.cc). *)
From stdpp Require Import sorting.
From S2P Require Import Prelude Coding Env DbFormat.

(** The fields fixed when a file is added; the reference count and the seek
    budget belong to the object a version points to. *)
Record FileMetaData := {
  number : Z;
  file_size : Z;
  smallest : InternalKey;
  largest : InternalKey;
}.

#[export] Instance FileMetaData_eq_dec : EqDecision FileMetaData.
Proof. solve_decision. Defined.

(** [has_x_] and [x_] as one optional value; [deleted_files_] is a [std::set] of
    pairs, kept as its elements in increasing order. *)
Record VersionEdit := {
  comparator_ : option (list byte);
  log_number_ : option Z;
  prev_log_number_ : option Z;
  next_file_number_ : option Z;
  last_sequence_ : option Z;
  compact_pointers_ : list (Z * InternalKey);
  deleted_files_ : list (Z * Z);
  new_files_ : list (Z * FileMetaData);
}.
Implicit Types e : VersionEdit.

Definition VersionEdit_Clear : VersionEdit :=
  {| comparator_ := None; log_number_ := None; prev_log_number_ := None; next_file_number_ := None;
     last_sequence_ := None; compact_pointers_ := []; deleted_files_ := []; new_files_ := [] |}.

Definition SetComparatorName (name : list byte) e : VersionEdit :=
  {| comparator_ := Some name; log_number_ := log_number_ e; prev_log_number_ := prev_log_number_ e;
     next_file_number_ := next_file_number_ e; last_sequence_ := last_sequence_ e;
     compact_pointers_ := compact_pointers_ e; deleted_files_ := deleted_files_ e; new_files_ := new_files_ e |}.

Definition SetLogNumber (num : Z) e : VersionEdit :=
  {| comparator_ := comparator_ e; log_number_ := Some num; prev_log_number_ := prev_log_number_ e;
     next_file_number_ := next_file_number_ e; last_sequence_ := last_sequence_ e;
     compact_pointers_ := compact_pointers_ e; deleted_files_ := deleted_files_ e; new_files_ := new_files_ e |}.

Definition SetPrevLogNumber (num : Z) e : VersionEdit :=
  {| comparator_ := comparator_ e; log_number_ := log_number_ e; prev_log_number_ := Some num;
     next_file_number_ := next_file_number_ e; last_sequence_ := last_sequence_ e;
     compact_pointers_ := compact_pointers_ e; deleted_files_ := deleted_files_ e; new_files_ := new_files_ e |}.

Definition SetNextFile (num : Z) e : VersionEdit :=
  {| comparator_ := comparator_ e; log_number_ := log_number_ e; prev_log_number_ := prev_log_number_ e;
     next_file_number_ := Some num; last_sequence_ := last_sequence_ e;
     compact_pointers_ := compact_pointers_ e; deleted_files_ := deleted_files_ e; new_files_ := new_files_ e |}.

Definition SetLastSequence (seq : Z) e : VersionEdit :=
  {| comparator_ := comparator_ e; log_number_ := log_number_ e; prev_log_number_ := prev_log_number_ e;
     next_file_number_ := next_file_number_ e; last_sequence_ := Some seq;
     compact_pointers_ := compact_pointers_ e; deleted_files_ := deleted_files_ e; new_files_ := new_files_ e |}.

Definition SetCompactPointer (level : Z) (key : InternalKey) e : VersionEdit :=
  {| comparator_ := comparator_ e; log_number_ := log_number_ e; prev_log_number_ := prev_log_number_ e;
     next_file_number_ := next_file_number_ e; last_sequence_ := last_sequence_ e;
     compact_pointers_ := compact_pointers_ e ++ [(level, key)]; deleted_files_ := deleted_files_ e; new_files_ := new_files_ e |}.

Definition AddFile (level file size : Z) (small large : InternalKey) e : VersionEdit :=
  {| comparator_ := comparator_ e; log_number_ := log_number_ e; prev_log_number_ := prev_log_number_ e;
     next_file_number_ := next_file_number_ e; last_sequence_ := last_sequence_ e;
     compact_pointers_ := compact_pointers_ e; deleted_files_ := deleted_files_ e;
     new_files_ := new_files_ e ++ [(level, {| number := file; file_size := size; smallest := small; largest := large |})] |}.

(** [std::pair]'s order and [std::set::insert]. *)
Definition pair_lt (a b : Z * Z) : bool := (a.1 <? b.1) || ((a.1 =? b.1) && (a.2 <? b.2)).

Fixpoint set_insert (x : Z * Z) (l : list (Z * Z)) : list (Z * Z) :=
  match l with
  | [] => [x]
  | y :: l => if pair_lt x y then x :: y :: l else if pair_lt y x then y :: set_insert x l else y :: l
  end.

Definition RemoveFile (level file : Z) e : VersionEdit :=
  {| comparator_ := comparator_ e; log_number_ := log_number_ e; prev_log_number_ := prev_log_number_ e;
     next_file_number_ := next_file_number_ e; last_sequence_ := last_sequence_ e;
     compact_pointers_ := compact_pointers_ e; deleted_files_ := set_insert (level, file) (deleted_files_ e); new_files_ := new_files_ e |}.

Definition kComparator : Z := 1.
Definition kLogNumber : Z := 2.
Definition kNextFileNumber : Z := 3.
Definition kLastSequence : Z := 4.
Definition kCompactPointer : Z := 5.
Definition kDeletedFile : Z := 6.
Definition kNewFile : Z := 7.
Definition kPrevLogNumber : Z := 9.

(** [InternalKey::Encode] asserts that the key is set. *)
Definition put_key (dst : list byte) (k : InternalKey) : option (list byte) :=
  match InternalKey_Encode k with [] => None | s => Some (PutLengthPrefixedSlice dst s) end.

Definition put_tagged (tag : Z) (num : option Z) (dst : list byte) : list byte :=
  match num with Some n => PutVarint64 (PutVarint32 dst tag) n | None => dst end.

(** A loop over a vector, appending to the string. *)
Fixpoint put_all {A} (put : list byte → A → option (list byte)) (l : list A) (dst : list byte) : option (list byte) :=
  match l with
  | [] => Some dst
  | x :: l => dst ← put dst x; put_all put l dst
  end.

Definition put_compact_pointer (dst : list byte) (x : Z * InternalKey) : option (list byte) :=
  put_key (PutVarint32 (PutVarint32 dst kCompactPointer) (u32 x.1)) x.2.

Definition put_deleted (dst : list byte) (x : Z * Z) : option (list byte) :=
  Some (PutVarint64 (PutVarint32 (PutVarint32 dst kDeletedFile) (u32 x.1)) x.2).

Definition put_new_file (dst : list byte) (x : Z * FileMetaData) : option (list byte) :=
  let f := x.2 in
  let dst := PutVarint64 (PutVarint64 (PutVarint32 (PutVarint32 dst kNewFile) (u32 x.1)) (number f)) (file_size f) in
  dst ← put_key dst (smallest f); put_key dst (largest f).

Definition VersionEdit_EncodeTo (dst : list byte) e : option (list byte) :=
  let dst := match comparator_ e with
             | Some name => PutLengthPrefixedSlice (PutVarint32 dst kComparator) name
             | None => dst
             end in
  let dst := put_tagged kLogNumber (log_number_ e) dst in
  let dst := put_tagged kPrevLogNumber (prev_log_number_ e) dst in
  let dst := put_tagged kNextFileNumber (next_file_number_ e) dst in
  let dst := put_tagged kLastSequence (last_sequence_ e) dst in
  dst ← put_all put_compact_pointer (compact_pointers_ e) dst;
  dst ← put_all put_deleted (deleted_files_ e) dst;
  put_all put_new_file (new_files_ e) dst.

Definition GetInternalKey (input : list byte) : option (InternalKey * list byte) :=
  '(s, input) ← GetLengthPrefixedSlice input;
  let '(k, b) := InternalKey_DecodeFrom s in
  if b : bool then Some (k, input) else None.

Definition GetLevel (input : list byte) : option (Z * list byte) :=
  '(v, input) ← GetVarint32 input;
  if v <? Z.of_nat kNumLevels then Some (v, input) else None.

(** One round of the loop: the edit and what is left, or the message. *)
Definition decode_tag (tag : Z) (input : list byte) e : list byte + (VersionEdit * list byte) :=
  let or_msg (msg : list byte) (x : option (VersionEdit * list byte)) :=
    match x with Some r => inr r | None => inl msg end in
  if tag =? kComparator then
    or_msg (str "comparator name") ('(s, input) ← GetLengthPrefixedSlice input; Some (SetComparatorName s e, input))
  else if tag =? kLogNumber then
    or_msg (str "log number") ('(n, input) ← GetVarint64 input; Some (SetLogNumber n e, input))
  else if tag =? kPrevLogNumber then
    or_msg (str "previous log number") ('(n, input) ← GetVarint64 input; Some (SetPrevLogNumber n e, input))
  else if tag =? kNextFileNumber then
    or_msg (str "next file number") ('(n, input) ← GetVarint64 input; Some (SetNextFile n e, input))
  else if tag =? kLastSequence then
    or_msg (str "last sequence number") ('(n, input) ← GetVarint64 input; Some (SetLastSequence n e, input))
  else if tag =? kCompactPointer then
    or_msg (str "compaction pointer")
      ('(level, input) ← GetLevel input; '(key, input) ← GetInternalKey input; Some (SetCompactPointer level key e, input))
  else if tag =? kDeletedFile then
    or_msg (str "deleted file")
      ('(level, input) ← GetLevel input; '(n, input) ← GetVarint64 input; Some (RemoveFile level n e, input))
  else if tag =? kNewFile then
    or_msg (str "new-file entry")
      ('(level, input) ← GetLevel input; '(n, input) ← GetVarint64 input; '(size, input) ← GetVarint64 input;
       '(small, input) ← GetInternalKey input; '(large, input) ← GetInternalKey input;
       Some (AddFile level n size small large e, input))
  else inl (str "unknown tag").

(** Every round consumes a tag; [None] when [fuel] runs out. *)
Fixpoint decode_loop (fuel : nat) (input : list byte) e : option (VersionEdit * option (list byte)) :=
  match fuel with
  | O => None
  | S fuel =>
      match GetVarint32 input with
      | None => Some (e, match input with [] => None | _ => Some (str "invalid tag") end)
      | Some (tag, input) =>
          match decode_tag tag input e with
          | inl msg => Some (e, Some msg)
          | inr (e, input) => decode_loop fuel input e
          end
      end
  end.

(** The edit as far as it was decoded, and the status. *)
Definition VersionEdit_DecodeFrom (src : list byte) : option (VersionEdit * Status) :=
  '(e, msg) ← decode_loop (S (length src)) src VersionEdit_Clear;
  Some (e, match msg with Some msg => Status_new kCorruption (str "VersionEdit") msg | None => Status_OK end).

(** ** An edit as a sequence of fields *)

Inductive field :=
  | FComparator (name : list byte)
  | FLogNumber (n : Z)
  | FPrevLogNumber (n : Z)
  | FNextFile (n : Z)
  | FLastSequence (n : Z)
  | FPointer (level : Z) (k : InternalKey)
  | FDeleted (level n : Z)
  | FNew (level : Z) (f : FileMetaData).

Definition key_bytes (k : InternalKey) : list byte := PutLengthPrefixedSlice [] (rep_ k).

Definition field_tag (f : field) : Z :=
  match f with
  | FComparator _ => kComparator | FLogNumber _ => kLogNumber | FPrevLogNumber _ => kPrevLogNumber
  | FNextFile _ => kNextFileNumber | FLastSequence _ => kLastSequence | FPointer _ _ => kCompactPointer
  | FDeleted _ _ => kDeletedFile | FNew _ _ => kNewFile
  end.

Definition field_payload (f : field) : list byte :=
  match f with
  | FComparator name => PutLengthPrefixedSlice [] name
  | FLogNumber n | FPrevLogNumber n | FNextFile n | FLastSequence n => EncodeVarint64 n
  | FPointer level k => EncodeVarint32 level ++ key_bytes k
  | FDeleted level n => EncodeVarint32 level ++ EncodeVarint64 n
  | FNew level f => EncodeVarint32 level ++ EncodeVarint64 (number f) ++ EncodeVarint64 (file_size f) ++
                    key_bytes (smallest f) ++ key_bytes (largest f)
  end.

Definition field_bytes (f : field) : list byte := EncodeVarint32 (field_tag f) ++ field_payload f.

Definition field_apply (f : field) e : VersionEdit :=
  match f with
  | FComparator name => SetComparatorName name e
  | FLogNumber n => SetLogNumber n e
  | FPrevLogNumber n => SetPrevLogNumber n e
  | FNextFile n => SetNextFile n e
  | FLastSequence n => SetLastSequence n e
  | FPointer level k => SetCompactPointer level k e
  | FDeleted level n => RemoveFile level n e
  | FNew level f => AddFile level (number f) (file_size f) (smallest f) (largest f) e
  end.

Definition level_ok (level : Z) : Prop := 0 <= level < Z.of_nat kNumLevels.
Definition num_ok (n : Z) : Prop := 0 <= n < 2 ^ 64.
Definition key_ok (k : InternalKey) : Prop := rep_ k ≠ [] ∧ Z.of_nat (length (rep_ k)) < 2 ^ 32.

Definition field_ok (f : field) : Prop :=
  match f with
  | FComparator name => Z.of_nat (length name) < 2 ^ 32
  | FLogNumber n | FPrevLogNumber n | FNextFile n | FLastSequence n => num_ok n
  | FPointer level k => level_ok level ∧ key_ok k
  | FDeleted level n => level_ok level ∧ num_ok n
  | FNew level f => level_ok level ∧ num_ok (number f) ∧ num_ok (file_size f) ∧ key_ok (smallest f) ∧ key_ok (largest f)
  end.

Definition fields e : list field :=
  option_list (FComparator <$> comparator_ e) ++ option_list (FLogNumber <$> log_number_ e) ++
  option_list (FPrevLogNumber <$> prev_log_number_ e) ++ option_list (FNextFile <$> next_file_number_ e) ++
  option_list (FLastSequence <$> last_sequence_ e) ++ ((λ x, FPointer x.1 x.2) <$> compact_pointers_ e) ++
  ((λ x, FDeleted x.1 x.2) <$> deleted_files_ e) ++ ((λ x, FNew x.1 x.2) <$> new_files_ e).

(** Levels, numbers and keys in range, and the set of deleted files sorted. *)
Record edit_ok e : Prop := {
  eo_fields : Forall field_ok (fields e);
  eo_deleted : StronglySorted (λ a b, pair_lt a b = true) (deleted_files_ e);
}.

(** ** Encoding *)

Notation encoded fs := (mjoin (field_bytes <$> fs)) (only parsing).

Lemma put_key_bytes dst k : key_ok k → put_key dst k = Some (dst ++ key_bytes k).
Proof.
  intros [Hne _]. unfold put_key, key_bytes, InternalKey_Encode. destruct (rep_ k) as [|b s]; [done|].
  unfold PutLengthPrefixedSlice, PutVarint32. by rewrite !app_assoc, app_nil_r.
Qed.

Lemma put_all_fields {A} (put : list byte → A → option (list byte)) (mk : A → field) l dst :
  (∀ dst x, field_ok (mk x) → put dst x = Some (dst ++ field_bytes (mk x))) → Forall field_ok (mk <$> l) →
  put_all put l dst = Some (dst ++ encoded (mk <$> l)).
Proof.
  intros Hput. revert dst; induction l as [|x l IH]; intros dst Hl; cbn [put_all fmap list_fmap mjoin list_join].
  { by rewrite app_nil_r. }
  apply Forall_cons in Hl as [Hx Hl]. rewrite (Hput dst x Hx). cbn [mbind option_bind]. rewrite IH by done. by rewrite <- app_assoc.
Qed.

Lemma put_tagged_field tag (mk : Z → field) o dst : (∀ n, field_tag (mk n) = tag ∧ field_payload (mk n) = EncodeVarint64 n) →
  put_tagged tag o dst = dst ++ encoded (option_list (mk <$> o)).
Proof.
  intros Hmk. destruct o as [n|]; cbn; [|by rewrite app_nil_r]. destruct (Hmk n) as [Ht Hp].
  unfold field_bytes, PutVarint64, PutVarint32. by rewrite Ht, Hp, app_nil_r, <- app_assoc.
Qed.

Lemma EncodeTo_fields e dst : Forall field_ok (fields e) → VersionEdit_EncodeTo dst e = Some (dst ++ encoded (fields e)).
Proof.
  intros Hok. unfold VersionEdit_EncodeTo, fields in *. rewrite !Forall_app in Hok. destruct Hok as (_ & _ & _ & _ & _ & Hp & Hd & Hn).
  rewrite (put_tagged_field kLogNumber FLogNumber), (put_tagged_field kPrevLogNumber FPrevLogNumber),
    (put_tagged_field kNextFileNumber FNextFile), (put_tagged_field kLastSequence FLastSequence) by done.
  rewrite (put_all_fields put_compact_pointer (λ x, FPointer x.1 x.2)); [|intros d [lv k] [Hl Hk]|done].
  2:{ unfold put_compact_pointer. cbn [fst snd] in *. unfold level_ok, kNumLevels in Hl. rewrite u32_small, put_key_bytes by (done || lia).
      unfold field_bytes, PutVarint32. cbn [field_tag field_payload]. by rewrite <- !app_assoc. }
  cbn [mbind option_bind]. rewrite (put_all_fields put_deleted (λ x, FDeleted x.1 x.2)); [|intros d [lv n] [Hl Hk]|done].
  2:{ unfold put_deleted. cbn [fst snd] in *. unfold level_ok, kNumLevels in Hl. rewrite u32_small by lia.
      unfold field_bytes, PutVarint32, PutVarint64. cbn [field_tag field_payload]. by rewrite <- !app_assoc. }
  cbn [mbind option_bind]. rewrite (put_all_fields put_new_file (λ x, FNew x.1 x.2)); [|intros d [lv f] (Hl & _ & _ & Hs & Hg)|done].
  2:{ unfold put_new_file. cbn [fst snd] in *. unfold level_ok, kNumLevels in Hl. rewrite u32_small by lia. cbv zeta.
      rewrite put_key_bytes by done. cbn [mbind option_bind]. rewrite put_key_bytes by done.
      unfold field_bytes, PutVarint32, PutVarint64. cbn [field_tag field_payload]. by rewrite <- !app_assoc. }
  f_equal. rewrite !fmap_app, !join_app. destruct (comparator_ e) as [name|]; [|by rewrite <- !app_assoc].
  change (option_list (FComparator <$> Some name)) with [FComparator name].
  assert (encoded [FComparator name] = EncodeVarint32 kComparator ++ PutLengthPrefixedSlice [] name) as -> by (cbn; by rewrite app_nil_r).
  unfold PutLengthPrefixedSlice, PutVarint32. by rewrite <- !app_assoc.
Qed.

(** ** Decoding *)

Lemma decode_field f rest e : field_ok f → decode_tag (field_tag f) (field_payload f ++ rest) e = inr (field_apply f e, rest).
Proof.
  assert (∀ lv r, level_ok lv → GetLevel (EncodeVarint32 lv ++ r) = Some (lv, r)) as HL.
  { intros lv r Hl. unfold GetLevel. unfold level_ok, kNumLevels in *. rewrite GetVarint32_Put by lia. cbn [mbind option_bind].
    by rewrite (proj2 (Z.ltb_lt _ _)) by lia. }
  assert (∀ k r, key_ok k → GetInternalKey (key_bytes k ++ r) = Some (k, r)) as HK.
  { intros [s] r [Hne Hl]. unfold GetInternalKey, key_bytes. cbn [rep_] in *. rewrite GetLengthPrefixedSlice_Put by done. cbn [mbind option_bind].
    unfold InternalKey_DecodeFrom. by destruct s. }
  destruct f as [name|n|n|n|n|lv k|lv n|lv f]; cbn [field_tag field_payload field_ok field_apply]; intros Hok;
    unfold decode_tag, kComparator, kLogNumber, kPrevLogNumber, kNextFileNumber, kLastSequence, kCompactPointer, kDeletedFile, kNewFile;
    cbn [Z.eqb Pos.eqb].
  - by rewrite GetLengthPrefixedSlice_Put.
  - by rewrite GetVarint64_Put.
  - by rewrite GetVarint64_Put.
  - by rewrite GetVarint64_Put.
  - by rewrite GetVarint64_Put.
  - destruct Hok as [Hl Hk]. rewrite <- app_assoc, HL by done. cbn [mbind option_bind]. by rewrite HK.
  - destruct Hok as [Hl Hn]. rewrite <- app_assoc, HL by done. cbn [mbind option_bind]. by rewrite GetVarint64_Put.
  - destruct Hok as (Hl & Hn & Hz & Hs & Hg). rewrite <- !app_assoc, HL by done. cbn [mbind option_bind].
    rewrite GetVarint64_Put by done. cbn [mbind option_bind]. rewrite GetVarint64_Put by done. cbn [mbind option_bind].
    rewrite HK by done. cbn [mbind option_bind]. by rewrite HK.
Qed.

Lemma field_tag_range f : 0 <= field_tag f < 2 ^ 32.
Proof. by destruct f. Qed.

Lemma field_bytes_nonempty f : (1 ≤ length (field_bytes f))%nat.
Proof. unfold field_bytes. rewrite length_app. pose proof (length_EncodeVarint32 (field_tag f)). lia. Qed.

Lemma decode_fields fs e fuel : Forall field_ok fs → (length (encoded fs) < fuel)%nat →
  decode_loop fuel (encoded fs) e = Some (foldl (λ e f, field_apply f e) e fs, None).
Proof.
  revert e fuel; induction fs as [|f fs IH]; intros e fuel Hok Hf; (destruct fuel as [|fuel]; [lia|]).
  - done.
  - apply Forall_cons in Hok as [Hfo Hok]. cbn [fmap list_fmap mjoin list_join] in *. cbn [decode_loop].
    unfold field_bytes at 1. rewrite <- app_assoc, GetVarint32_Put, decode_field by (done || apply field_tag_range).
    apply IH; [done|]. rewrite length_app in Hf. pose proof (field_bytes_nonempty f). unfold mjoin in *. lia.
Qed.

Lemma set_insert_last l x : StronglySorted (λ a b, pair_lt a b = true) (l ++ [x]) → set_insert x l = l ++ [x].
Proof.
  induction l as [|y l IH]; [done|]. cbn [app set_insert]. intros [Hs Hy]%StronglySorted_inv.
  apply Forall_app in Hy as [_ Hy]. apply Forall_cons in Hy as [Hy _]. rewrite Hy, IH by done.
  assert (pair_lt x y = false) as ->; [|done]. unfold pair_lt in *. lia.
Qed.

Lemma deleted_fields e ds : StronglySorted (λ a b, pair_lt a b = true) (deleted_files_ e ++ ds) →
  foldl (λ e f, field_apply f e) e ((λ x, FDeleted x.1 x.2) <$> ds) =
  {| comparator_ := comparator_ e; log_number_ := log_number_ e; prev_log_number_ := prev_log_number_ e;
     next_file_number_ := next_file_number_ e; last_sequence_ := last_sequence_ e;
     compact_pointers_ := compact_pointers_ e; deleted_files_ := deleted_files_ e ++ ds; new_files_ := new_files_ e |}.
Proof.
  revert e; induction ds as [|[lv n] ds IH]; intros e Hs; cbn [fmap list_fmap foldl].
  { rewrite app_nil_r. by destruct e. }
  change ((lv, n) :: ds) with ([(lv, n)] ++ ds) in *. rewrite app_assoc in Hs. pose proof Hs as Hs'.
  apply StronglySorted_app in Hs' as (_ & Hs' & _).
  rewrite IH; cbn [field_apply RemoveFile deleted_files_ comparator_ log_number_ prev_log_number_ next_file_number_ last_sequence_
    compact_pointers_ new_files_ fst snd]; rewrite set_insert_last by done; [|done]. by rewrite <- app_assoc.
Qed.

Lemma pointer_fields e ps :
  foldl (λ e f, field_apply f e) e ((λ x, FPointer x.1 x.2) <$> ps) =
  {| comparator_ := comparator_ e; log_number_ := log_number_ e; prev_log_number_ := prev_log_number_ e;
     next_file_number_ := next_file_number_ e; last_sequence_ := last_sequence_ e;
     compact_pointers_ := compact_pointers_ e ++ ps; deleted_files_ := deleted_files_ e; new_files_ := new_files_ e |}.
Proof.
  revert e; induction ps as [|[lv k] ps IH]; intros e; cbn [fmap list_fmap foldl].
  { rewrite app_nil_r. by destruct e. }
  rewrite IH. cbn. by rewrite <- app_assoc.
Qed.

Lemma new_fields e ns :
  foldl (λ e f, field_apply f e) e ((λ x, FNew x.1 x.2) <$> ns) =
  {| comparator_ := comparator_ e; log_number_ := log_number_ e; prev_log_number_ := prev_log_number_ e;
     next_file_number_ := next_file_number_ e; last_sequence_ := last_sequence_ e;
     compact_pointers_ := compact_pointers_ e; deleted_files_ := deleted_files_ e; new_files_ := new_files_ e ++ ns |}.
Proof.
  revert e; induction ns as [|[lv f] ns IH]; intros e; cbn [fmap list_fmap foldl].
  { rewrite app_nil_r. by destruct e. }
  rewrite IH. cbn. rewrite <- app_assoc. by destruct f.
Qed.

Lemma apply_fields e : StronglySorted (λ a b, pair_lt a b = true) (deleted_files_ e) →
  foldl (λ e f, field_apply f e) VersionEdit_Clear (fields e) = e.
Proof.
  intros Hs. unfold fields. rewrite !foldl_app, new_fields, pointer_fields, deleted_fields.
  - destruct e as [c l p n q ps ds ns]. cbn. by destruct c, l, p, n, q.
  - destruct e as [c l p n q ps ds ns]. cbn. by destruct c, l, p, n, q.
Qed.

Lemma decode_encode e s : edit_ok e → VersionEdit_EncodeTo [] e = Some s → VersionEdit_DecodeFrom s = Some (e, Status_OK).
Proof.
  intros [Hf Hs]. rewrite EncodeTo_fields by done. intros [= <-]. unfold VersionEdit_DecodeFrom.
  cbn [app]. rewrite decode_fields by (done || lia). cbn [mbind option_bind]. by rewrite apply_fields.
Qed.

(** ** Decoded edits are well formed *)

Lemma GetLengthPrefixedSlice_short input s rest : GetLengthPrefixedSlice input = Some (s, rest) →
  Z.of_nat (length s) < 2 ^ 32 ∧ (length rest ≤ length input)%nat.
Proof.
  intros Hg. pose proof (GetLengthPrefixedSlice_consumes _ _ _ Hg) as (pre & -> & _). split; [|rewrite !length_app; lia].
  unfold GetLengthPrefixedSlice in Hg. destruct (GetVarint32 _) as [[len i]|] eqn:E; [|done]. apply GetVarint32_consumes in E as [Hl _].
  destruct (len <=? _); [|done]. injection Hg as <- _. rewrite length_take. lia.
Qed.

Lemma GetLevel_ok input level rest : GetLevel input = Some (level, rest) → level_ok level ∧ (length rest ≤ length input)%nat.
Proof.
  unfold GetLevel. destruct (GetVarint32 input) as [[v i]|] eqn:E; [|done]. cbn [mbind option_bind].
  apply GetVarint32_consumes in E as [Hv (pre & -> & _)]. destruct (Z.ltb_spec v (Z.of_nat kNumLevels)); [|done].
  intros [= <- <-]. unfold level_ok. rewrite length_app. lia.
Qed.

Lemma GetInternalKey_ok input k rest : GetInternalKey input = Some (k, rest) → key_ok k ∧ (length rest ≤ length input)%nat.
Proof.
  unfold GetInternalKey. destruct (GetLengthPrefixedSlice input) as [[s i]|] eqn:E; [|done]. cbn [mbind option_bind].
  apply GetLengthPrefixedSlice_short in E as [Hl Hr]. destruct s as [|b s]; [done|]. intros [= <- <-]. by split.
Qed.

Lemma GetVarint64_ok input n rest : GetVarint64 input = Some (n, rest) → num_ok n ∧ (length rest ≤ length input)%nat.
Proof. intros (Hn & pre & -> & _)%GetVarint64_consumes. split; [done|]. rewrite length_app. lia. Qed.

Ltac decode_step :=
  match goal with
  | |- context [GetLengthPrefixedSlice ?i] => let E := fresh "E" in
      destruct (GetLengthPrefixedSlice i) as [[? ?]|] eqn:E; [apply GetLengthPrefixedSlice_short in E as [? ?]|done]
  | |- context [GetLevel ?i] => let E := fresh "E" in
      destruct (GetLevel i) as [[? ?]|] eqn:E; [apply GetLevel_ok in E as [? ?]|done]
  | |- context [GetInternalKey ?i] => let E := fresh "E" in
      destruct (GetInternalKey i) as [[? ?]|] eqn:E; [apply GetInternalKey_ok in E as [? ?]|done]
  | |- context [GetVarint64 ?i] => let E := fresh "E" in
      destruct (GetVarint64 i) as [[? ?]|] eqn:E; [apply GetVarint64_ok in E as [? ?]|done]
  end; cbn [mbind option_bind].

(** A round of the loop decodes a field that is in range. *)
Lemma decode_tag_field tag input e e' rest : decode_tag tag input e = inr (e', rest) →
  ∃ f, field_ok f ∧ e' = field_apply f e ∧ (length rest ≤ length input)%nat.
Proof.
  unfold decode_tag. repeat (destruct (tag =? _)); repeat decode_step; try done; intros [= <- <-].
  - by eexists (FComparator _).
  - by eexists (FLogNumber _).
  - by eexists (FPrevLogNumber _).
  - by eexists (FNextFile _).
  - by eexists (FLastSequence _).
  - eexists (FPointer _ _). split; [done|]. split; [done|lia].
  - eexists (FDeleted _ _). split; [done|]. split; [done|lia].
  - eexists (FNew _ {| number := _; file_size := _; smallest := _; largest := _ |}). split; [|split; [reflexivity|lia]]. done.
Qed.

Lemma set_insert_elem x l y : y ∈ set_insert x l → y = x ∨ y ∈ l.
Proof.
  induction l as [|z l IH]; cbn [set_insert]; [by intros ->%list_elem_of_singleton; left|].
  destruct (pair_lt x z); [by intros [->|?]%elem_of_cons; [left|right]|]. destruct (pair_lt z x); [|by right].
  intros [->|[->|?]%IH]%elem_of_cons; [right; left|by left|right; by right].
Qed.

Lemma pair_lt_trans x y z : pair_lt x y = true → pair_lt y z = true → pair_lt x z = true.
Proof. unfold pair_lt. lia. Qed.

Lemma set_insert_sorted x l : StronglySorted (λ a b, pair_lt a b = true) l → StronglySorted (λ a b, pair_lt a b = true) (set_insert x l).
Proof.
  induction l as [|y l IH]; intros Hs; cbn [set_insert]; [by repeat constructor|]. pose proof Hs as [Hl Hy]%StronglySorted_inv.
  destruct (pair_lt x y) eqn:Hxy; [constructor; [done|]|destruct (pair_lt y x) eqn:Hyx; [|done]].
  - constructor; [done|]. eapply Forall_impl; [exact Hy|]. intros z Hz. cbn in *. by eapply pair_lt_trans.
  - constructor; [by apply IH|]. apply Forall_forall. intros z [->|Hz]%set_insert_elem; [done|].
    by apply (proj1 (Forall_forall _ _) Hy).
Qed.

Lemma field_apply_ok f e : field_ok f → edit_ok e → edit_ok (field_apply f e).
Proof.
  intros Hf [Hok Hs]. unfold fields in Hok. rewrite !Forall_app in Hok. destruct Hok as (H1 & H2 & H3 & H4 & H5 & H6 & H7 & H8).
  split; [|destruct f; cbn [field_apply deleted_files_]; try done; by apply set_insert_sorted].
  unfold fields. rewrite !Forall_app. destruct f; cbn [field_apply comparator_ log_number_ prev_log_number_ next_file_number_ last_sequence_
    compact_pointers_ deleted_files_ new_files_ SetComparatorName SetLogNumber SetPrevLogNumber SetNextFile SetLastSequence SetCompactPointer
    RemoveFile AddFile]; split_and!; try done; try (apply Forall_cons; by split).
  - rewrite fmap_app, Forall_app. split; [done|]. apply Forall_cons; by split; [|apply Forall_nil].
  - apply Forall_forall. intros g (x & -> & Hx)%list_elem_of_fmap. apply set_insert_elem in Hx as [->|Hx]; [done|].
    apply (proj1 (Forall_forall _ _) H7). by apply (list_elem_of_fmap_2 (λ x, FDeleted x.1 x.2)).
  - rewrite fmap_app, Forall_app. split; [done|]. apply Forall_cons. split; [|done]. by destruct f.
Qed.

Lemma decode_loop_ok fuel input e : edit_ok e → (length input < fuel)%nat →
  ∃ e' msg, decode_loop fuel input e = Some (e', msg) ∧ edit_ok e'.
Proof.
  revert input e; induction fuel as [|fuel IH]; intros input e Hok Hf; [lia|]. cbn [decode_loop].
  destruct (GetVarint32 input) as [[tag i]|] eqn:E; [|by eexists _, _].
  apply GetVarint32_consumes in E as [_ (pre & -> & Hpre)]. rewrite length_app in Hf.
  destruct (decode_tag tag i e) as [msg|[e' i']] eqn:Ed; [by eexists _, _|].
  apply decode_tag_field in Ed as (f & Hfo & -> & Hl). apply IH; [by apply field_apply_ok|lia].
Qed.

(** ** Claims *)

(** C18: Version edits round trip.  An edit whose levels, numbers and keys are in
    range is written to the MANIFEST without failing an assertion, and decoding
    the record gives the same edit and an OK status. *)
Theorem version_edit_roundtrip e :
  edit_ok e → ∃ s, VersionEdit_EncodeTo [] e = Some s ∧ VersionEdit_DecodeFrom s = Some (e, Status_OK).
Proof.
  intros Hok. exists (encoded (fields e)). rewrite EncodeTo_fields by apply Hok. split; [done|].
  apply decode_encode; [done|]. by rewrite EncodeTo_fields by apply Hok.
Qed.

Definition example_edit : VersionEdit :=
  RemoveFile 1 9 (RemoveFile 0 12 (AddFile 1 13 4096 (InternalKey_new (str "a") 5 kTypeValue) (InternalKey_new (str "m") 3 kTypeDeletion)
    (SetCompactPointer 1 (InternalKey_new (str "m") 3 kTypeDeletion) (SetLogNumber 11 (SetComparatorName (str "leveldb.BytewiseComparator")
      VersionEdit_Clear))))).

Lemma version_edit_roundtrip_witness :
  ∃ s, VersionEdit_EncodeTo [] example_edit = Some s ∧ VersionEdit_DecodeFrom s = Some (example_edit, Status_OK).
Proof.
  apply (version_edit_roundtrip example_edit). split.
  - repeat (apply Forall_cons; split; [vm_compute; repeat split; congruence|]). by apply Forall_nil.
  - repeat constructor.
Defined.

(** C30: Decoding is total and typed.  Whatever bytes a MANIFEST record holds,
    decoding ends with an edit whose levels are below the number of levels, whose
    numbers fit in 64 bits, whose keys are set and whose set of deleted files is
    sorted; such an edit can be written and read back. *)
Theorem version_edit_decode_typed src :
  ∃ e st, VersionEdit_DecodeFrom src = Some (e, st) ∧ edit_ok e ∧
    ∃ s, VersionEdit_EncodeTo [] e = Some s ∧ VersionEdit_DecodeFrom s = Some (e, Status_OK).
Proof.
  unfold VersionEdit_DecodeFrom. destruct (decode_loop_ok (S (length src)) src VersionEdit_Clear) as (e & msg & -> & Hok).
  { split; [by apply Forall_nil|constructor]. } { lia. }
  cbn [mbind option_bind]. eexists e, _. split; [done|]. split; [done|].
  exists (encoded (fields e)). rewrite EncodeTo_fields by apply Hok. split; [done|].
  apply decode_encode; [done|]. by rewrite EncodeTo_fields by apply Hok.
Qed.
