(* ===== verification/Version.v ===== *)
(** The files of a version and the reads over them (db/version_set.cc, class
    [Version]). *)
From stdpp Require Import sorting gmap.
From S2P Require Import Prelude Coding Double Env Comparator DbFormat Iterator TwoLevel VersionEdit.

(** A pointer to a file object, with the fields that never change. *)
Record File := { f_ptr : nat; f_meta :> FileMetaData }.

#[export] Instance File_eq_dec : EqDecision File.
Proof. solve_decision. Defined.

(** What a file object holds besides. *)
Record FileCounts := { refs : Z; allowed_seeks : Z }.

(** The objects the pointers name. *)
Notation FileHeap := (gmap nat FileCounts).

Definition TotalFileSize (files : list File) : Z := foldl (λ sum (f : File), sum + file_size f) 0 files.

Section search.
Context {C : Type} `{!Comparator C} (icmp : InternalKeyComparator C).
Notation ucmp := (user_comparator_ icmp).
Implicit Types (f : File) (files : list File).

(** The search halves [left, right). *)
Fixpoint FindFile_loop (fuel : nat) files (key : list byte) (left right : nat) : nat :=
  match fuel with
  | O => right
  | S fuel =>
      if (left <? right)%nat
      then let mid := ((left + right) / 2)%nat in
           match (files !! mid : option File) with
           | Some f => if Compare icmp (InternalKey_Encode (largest f)) key <? 0
                       then FindFile_loop fuel files key (mid + 1) right
                       else FindFile_loop fuel files key left mid
           | None => right
           end
      else right
  end.

Definition FindFile files (key : list byte) : nat := FindFile_loop (S (length files)) files key 0 (length files).

Definition AfterFile (user_key : option (list byte)) f : bool :=
  match user_key with
  | Some k => 0 <? Compare ucmp k (InternalKey_user_key (largest f))
  | None => false
  end.

Definition BeforeFile (user_key : option (list byte)) f : bool :=
  match user_key with
  | Some k => Compare ucmp k (InternalKey_user_key (smallest f)) <? 0
  | None => false
  end.

Fixpoint some_overlap files (small large : option (list byte)) : bool :=
  match files with
  | [] => false
  | f :: files => if AfterFile small f || BeforeFile large f then some_overlap files small large else true
  end.

Definition SomeFileOverlapsRange (disjoint_sorted_files : bool) files (smallest_user_key largest_user_key : option (list byte)) : bool :=
  if negb disjoint_sorted_files then some_overlap files smallest_user_key largest_user_key else
  let index := match smallest_user_key with
               | Some k => FindFile files (InternalKey_Encode (InternalKey_new k kMaxSequenceNumber kValueTypeForSeek))
               | None => 0%nat
               end in
  match (files !! index : option File) with
  | None => false
  | Some f => negb (BeforeFile largest_user_key f)
  end.

(** ** The iterator over the files of a level *)

Record LevelFileNumIterator := { flist_ : list File; index_ : nat }.
Implicit Types it : LevelFileNumIterator.

Definition LevelFileNumIterator_new files : LevelFileNumIterator := {| flist_ := files; index_ := length files |}.

Definition lf_at it (i : nat) : LevelFileNumIterator := {| flist_ := flist_ it; index_ := i |}.
Definition lf_Valid it : bool := (index_ it <? length (flist_ it))%nat.
Definition lf_Seek (target : list byte) it : LevelFileNumIterator := lf_at it (FindFile (flist_ it) target).
Definition lf_SeekToFirst it : LevelFileNumIterator := lf_at it 0.
Definition lf_SeekToLast it : LevelFileNumIterator :=
  lf_at it (match flist_ it with [] => 0%nat | _ => (length (flist_ it) - 1)%nat end).
Definition lf_Next it : option LevelFileNumIterator := if lf_Valid it then Some (lf_at it (index_ it + 1)) else None.
Definition lf_Prev it : option LevelFileNumIterator :=
  if lf_Valid it
  then Some (lf_at it (match index_ it with O => length (flist_ it) | S i => i end))
  else None.
Definition lf_key it : option (list byte) := (λ f : File, InternalKey_Encode (largest f)) <$> flist_ it !! index_ it.
Definition file_value f : list byte := EncodeFixed64 (number f) ++ EncodeFixed64 (file_size f).
Definition lf_value it : option (list byte) := file_value <$> flist_ it !! index_ it.

#[export] Instance level_file_iterator : Iterator LevelFileNumIterator := {|
  it_Valid := lf_Valid;
  it_SeekToFirst it := Some (lf_SeekToFirst it);
  it_SeekToLast it := Some (lf_SeekToLast it);
  it_Seek t it := Some (lf_Seek t it);
  it_Next := lf_Next;
  it_Prev := lf_Prev;
  it_key := lf_key;
  it_value := lf_value;
  it_status _ := Status_OK;
|}.

(** ** The iterator over the tables of a level *)

Section concatenating.
Context {J : Type} `{!Iterator J} (new_iterator : Z → Z → option J).

(** [new_iterator] is [TableCache::NewIterator]. *)
Definition GetFileIterator (file_value : list byte) : option (EmptyIterator + J) :=
  if negb (length file_value =? 16)%nat
  then Some (inl (NewErrorIterator (Corruption (str "FileReader invoked with unexpected value"))))
  else n ← DecodeFixed64 file_value; size ← DecodeFixed64 (drop 8 file_value); inr <$> new_iterator n size.

Definition NewConcatenatingIterator files : option (TwoLevelIterator LevelFileNumIterator (EmptyIterator + J)) :=
  NewTwoLevelIterator (Iterator0 := level_file_iterator) (LevelFileNumIterator_new files).
End concatenating.

(** ** A version *)

Record Version := {
  files_ : list (list File);
  file_to_compact_ : option File;
  file_to_compact_level_ : Z;
  compaction_score_ : double;
  compaction_level_ : Z;
}.
Implicit Types v : Version.

Definition level_files v (level : nat) : list File := default [] (files_ v !! level).

Definition NewestFirst (a b : File) : bool := number b <? number a.

(** [std::sort] with [NewestFirst]. *)
Fixpoint insert_newest f files : list File :=
  match files with
  | [] => [f]
  | g :: files => if NewestFirst g f then g :: insert_newest f files else f :: g :: files
  end.
Definition sort_newest files : list File := foldr insert_newest [] files.

Definition covers (user_key : list byte) f : bool :=
  (0 <=? Compare ucmp user_key (InternalKey_user_key (smallest f))) &&
  (Compare ucmp user_key (InternalKey_user_key (largest f)) <=? 0).

(** [func] returns the new state and whether to go on. *)
Section for_each.
Context {S : Type} (func : nat → File → S → option (S * bool)).

Fixpoint call_each (level : nat) files (s : S) : option (S * bool) :=
  match files with
  | [] => Some (s, true)
  | f :: files => '(s, go_on) ← func level f s; if go_on : bool then call_each level files s else Some (s, false)
  end.

Definition level_candidate (user_key internal_key : list byte) files : list File :=
  match (files !! FindFile files internal_key : option File) with
  | Some f => if Compare ucmp user_key (InternalKey_user_key (smallest f)) <? 0 then [] else [f]
  | None => []
  end.

Fixpoint call_levels (user_key internal_key : list byte) (level : nat) (levels : list (list File)) (s : S) : option S :=
  match levels with
  | [] => Some s
  | files :: levels =>
      '(s, go_on) ← call_each level (level_candidate user_key internal_key files) s;
      if go_on : bool then call_levels user_key internal_key (level + 1) levels s else Some s
  end.

Definition ForEachOverlapping v (user_key internal_key : list byte) (s : S) : option S :=
  let tmp := sort_newest (filter (λ f, covers user_key f = true) (level_files v 0)) in
  '(s, go_on) ← call_each 0 tmp s;
  if go_on : bool then call_levels user_key internal_key 1 (drop 1 (files_ v)) s else Some s.
End for_each.

Inductive SaverState := kNotFound | kFound | kDeleted | kCorrupt.

Record GetStats := { seek_file : option File; seek_file_level : Z }.

Record GetState := {
  saver_state : SaverState;
  saver_value : list byte;
  g_stats : GetStats;
  last_file_read : option File;
  last_file_read_level : Z;
  g_status : Status;
  g_found : bool;
}.

Definition SaveValue (user_key : list byte) (ikey v : list byte) (s : SaverState * list byte) : SaverState * list byte :=
  match ParseInternalKey ikey with
  | None => (kCorrupt, s.2)
  | Some parsed =>
      if Compare ucmp (DbFormat.user_key parsed) user_key =? 0
      then match type parsed with kTypeValue => (kFound, v) | kTypeDeletion => (kDeleted, s.2) end
      else s
  end.

(** [table_get] is [TableCache::Get] on a file: the status and the entry its
    handler is called with, if it is called. *)
Section get.
Context (table_get : File → list byte → option (Status * option (list byte * list byte))).

Definition Get_Match (user_key ikey : list byte) (level : nat) f (st : GetState) : option (GetState * bool) :=
  let stats := match seek_file (g_stats st), last_file_read st with
               | None, Some last => {| seek_file := Some last; seek_file_level := last_file_read_level st |}
               | _, _ => g_stats st
               end in
  '(s, entry) ← table_get f ikey;
  let '(state, value) := match entry with
                         | Some (k, v) => SaveValue user_key k v (saver_state st, saver_value st)
                         | None => (saver_state st, saver_value st)
                         end in
  let mk s found := {| saver_state := state; saver_value := value; g_stats := stats; last_file_read := Some f;
                       last_file_read_level := Z.of_nat level; g_status := s; g_found := found |} in
  if negb (ok s) then Some (mk s true, false) else
  match state with
  | kNotFound => Some (mk s (g_found st), true)
  | kFound => Some (mk s true, false)
  | kDeleted => Some (mk s (g_found st), false)
  | kCorrupt => Some (mk (Status_new Env.kCorruption (str "corrupted key for ") user_key) true, false)
  end.

(** The status, the value and the statistics. *)
Definition Version_Get v (k : LookupKey) (value : list byte) : option (Status * list byte * GetStats) :=
  let ikey := lookup_internal_key k in
  let user_key := lookup_user_key k in
  st ← ForEachOverlapping (Get_Match user_key ikey) v user_key ikey
         {| saver_state := kNotFound; saver_value := value;
            g_stats := {| seek_file := None; seek_file_level := -1 |};
            last_file_read := None; last_file_read_level := -1; g_status := Status_OK; g_found := false |};
  Some (if g_found st then g_status st else NotFound [], saver_value st, g_stats st).
End get.

(** ** Seek statistics *)

Definition UpdateStats (stats : GetStats) v (h : FileHeap) : option (Version * FileHeap * bool) :=
  match seek_file stats with
  | None => Some (v, h, false)
  | Some f =>
      o ← h !! f_ptr f;
      let o := {| refs := refs o; allowed_seeks := allowed_seeks o - 1 |} in
      let h := <[f_ptr f := o]> h in
      match file_to_compact_ v with
      | None =>
          if allowed_seeks o <=? 0
          then Some ({| files_ := files_ v; file_to_compact_ := Some f; file_to_compact_level_ := seek_file_level stats;
                        compaction_score_ := compaction_score_ v; compaction_level_ := compaction_level_ v |}, h, true)
          else Some (v, h, false)
      | Some _ => Some (v, h, false)
      end
  end.

Definition Sample_Match (level : nat) f (st : GetStats * Z) : option (GetStats * Z * bool) :=
  let matches := st.2 + 1 in
  Some ((if matches =? 1 then {| seek_file := Some f; seek_file_level := Z.of_nat level |} else st.1, matches), matches <? 2).

Definition Version_RecordReadSample (internal_key : list byte) v (h : FileHeap) : option (Version * FileHeap * bool) :=
  match ParseInternalKey internal_key with
  | None => Some (v, h, false)
  | Some ikey =>
      '(stats, matches) ← ForEachOverlapping Sample_Match v (DbFormat.user_key ikey) internal_key
                            ({| seek_file := None; seek_file_level := -1 |}, 0);
      if 2 <=? matches then UpdateStats stats v h else Some (v, h, false)
  end.

(** ** Overlapping files *)

Definition OverlapInLevel v (level : nat) (smallest_user_key largest_user_key : option (list byte)) : bool :=
  SomeFileOverlapsRange (0 <? level)%nat (level_files v level) smallest_user_key largest_user_key.

Definition before_range (user_begin : option (list byte)) f : bool :=
  match user_begin with Some b => Compare ucmp (InternalKey_user_key (largest f)) b <? 0 | None => false end.
Definition after_range (user_end : option (list byte)) f : bool :=
  match user_end with Some e => 0 <? Compare ucmp (InternalKey_user_key (smallest f)) e | None => false end.

(** The loop; in level 0 a file that grows the range restarts it.  [None] when
    [fuel] runs out. *)
Fixpoint overlap_loop (fuel : nat) (level0 : bool) files (i : nat) (user_begin user_end : option (list byte)) (inputs : list File)
    : option (list File) :=
  match fuel with
  | O => None
  | S fuel =>
      match (files !! i : option File) with
      | None => Some inputs
      | Some f =>
          let file_start := InternalKey_user_key (smallest f) in
          let file_limit := InternalKey_user_key (largest f) in
          if before_range user_begin f then overlap_loop fuel level0 files (i + 1) user_begin user_end inputs
          else if after_range user_end f then overlap_loop fuel level0 files (i + 1) user_begin user_end inputs
          else if level0 && (match user_begin with Some b => Compare ucmp file_start b <? 0 | None => false end)
          then overlap_loop fuel level0 files 0 (Some file_start) user_end []
          else if level0 && (match user_end with Some e => 0 <? Compare ucmp file_limit e | None => false end)
          then overlap_loop fuel level0 files 0 user_begin (Some file_limit) []
          else overlap_loop fuel level0 files (i + 1) user_begin user_end (inputs ++ [f])
      end
  end.

(** A restart moves one end of the range past a file, at most twice per file. *)
Definition overlap_fuel files : nat := ((2 * length files + 1) * (length files + 1))%nat.

Definition GetOverlappingInputs v (level : nat) (begin end_ : option InternalKey) : option (list File) :=
  let files := level_files v level in
  overlap_loop (overlap_fuel files) (level =? 0)%nat files 0
    (InternalKey_user_key <$> begin) (InternalKey_user_key <$> end_) [].

(** ** Where a new table goes *)

Definition MaxGrandParentOverlapBytes (max_file_size : Z) : Z := 10 * max_file_size.
Definition ExpandedCompactionByteSizeLimit (max_file_size : Z) : Z := 25 * max_file_size.

(** [n] more levels to try. *)
Fixpoint pick_level (n : nat) (max_file_size : Z) v (small large : list byte) (level : nat) : option nat :=
  match n with
  | O => Some level
  | S n =>
      if OverlapInLevel v (level + 1) (Some small) (Some large) then Some level else
      stop ← (if (level + 2 <? kNumLevels)%nat
              then overlaps ← GetOverlappingInputs v (level + 2)
                                (Some (InternalKey_new small kMaxSequenceNumber kValueTypeForSeek))
                                (Some (InternalKey_new large 0 kTypeDeletion));
                   Some (MaxGrandParentOverlapBytes max_file_size <? TotalFileSize overlaps)
              else Some false);
      if stop : bool then Some level else pick_level n max_file_size v small large (level + 1)
  end.

Definition PickLevelForMemTableOutput (max_file_size : Z) v (small large : list byte) : option nat :=
  if OverlapInLevel v 0 (Some small) (Some large) then Some 0%nat
  else pick_level kMaxMemCompactLevel max_file_size v small large 0.
End search.

(** ** Correctness of the searches *)

Section search_proofs.
Context {C : Type} `{!Comparator C} {uvalid : list byte → Prop} `{!ComparatorLaws C uvalid} (icmp : InternalKeyComparator C).
Notation ucmp := (user_comparator_ icmp).
Notation valid := (valid_key uvalid).
Notation small f := (rep_ (smallest (f_meta f))).
Notation large f := (rep_ (largest (f_meta f))).
Notation usmall f := (ExtractUserKey (small f)).
Notation ularge f := (ExtractUserKey (large f)).
Implicit Types (f : File) (files : list File).

(** The bounds of a file are internal keys, in order. *)
Record file_ok f : Prop := {
  fo_small : valid (small f);
  fo_large : valid (large f);
  fo_le : Compare icmp (small f) (large f) <= 0;
  fo_num : ExtractNum (large f) <= PackSequenceAndType kMaxSequenceNumber kValueTypeForSeek;
}.

(** Files that do not overlap, in order. *)
Record level_sorted files : Prop := {
  ls_ok : Forall file_ok files;
  ls_disjoint : StronglySorted (λ f g, Compare icmp (large f) (small g) < 0) files;
}.

Definition level_kv files : list kv := (λ f, (large f, file_value f)) <$> files.

Lemma file_user_le f : file_ok f → Compare ucmp (usmall f) (ularge f) <= 0.
Proof.
  intros Hf. pose proof (fo_le _ Hf) as Hle. apply internal_le in Hle. cbv zeta in Hle. lia.
Qed.

Lemma level_kv_sorted files : level_sorted files → sorted_kvs (Compare icmp) (level_kv files) ∧ Forall (λ e, valid e.1) (level_kv files).
Proof.
  intros [Hok Hd]. split.
  - induction Hd as [|f files Hd IH Hf]; [constructor|]. apply Forall_cons in Hok as [Ho Hok]. cbn. constructor; [by apply IH|].
    apply Forall_fmap. apply Forall_forall. intros g Hg. change (Compare icmp (large f) (large g) < 0).
    pose proof (proj1 (Forall_forall _ _) Hf g Hg) as Hlt. pose proof (proj1 (Forall_forall _ _) Hok g Hg) as Hgo.
    eapply (compare_lt_le_trans icmp); [apply Ho|apply Hgo|apply Hgo|exact Hlt|apply Hgo].
  - apply Forall_fmap. eapply Forall_impl; [exact Hok|]. intros f Hf. apply Hf.
Qed.

(** ** The binary search *)

Lemma FindFile_loop_spec files key fuel left right :
  level_sorted files → valid key → (right - left < fuel)%nat → (left ≤ right ≤ length files)%nat →
  (∀ i f, files !! i = Some f → (i < left)%nat → Compare icmp (large f) key < 0) →
  (∀ i f, files !! i = Some f → (right ≤ i)%nat → 0 <= Compare icmp (large f) key) →
  FindFile_loop icmp fuel files key left right = lower_bound (Compare icmp) key (level_kv files).
Proof.
  intros Hls Hk. revert left right; induction fuel as [|fuel IH]; intros left right Hf Hr Hlo Hhi; [lia|]. cbn [FindFile_loop].
  destruct (Nat.ltb_spec left right) as [Hlt|Hge].
  - assert (left ≤ (left + right) / 2 < right)%nat as Hm by (split; [apply Nat.div_le_lower_bound; lia|apply Nat.div_lt_upper_bound; lia]).
    set (mid := ((left + right) / 2)%nat) in *. destruct (lookup_lt_is_Some_2 files mid) as [f Hfm]; [lia|]. rewrite Hfm.
    destruct (level_kv_sorted files Hls) as [Hso Hva].
    assert (∀ i g, files !! i = Some g → level_kv files !! i = Some (large g, file_value g)) as Hkv
      by (intros i g Hg; unfold level_kv; by rewrite list_lookup_fmap, Hg).
    assert (∀ i g, files !! i = Some g → ((i < lower_bound (Compare icmp) key (level_kv files))%nat ↔ Compare icmp (large g) key < 0)) as Hiff.
    { intros i g Hg. apply (lower_bound_iff (cmp := Compare icmp) (valid := valid) key (level_kv files) i (large g, file_value g) Hso Hva Hk). by apply Hkv. }
    unfold InternalKey_Encode. destruct (Z.ltb_spec (Compare icmp (large f) key) 0) as [Hc|Hc].
    + apply IH; [lia|lia| |done]. intros i g Hg Hi. apply (Hiff i g Hg). apply (Hiff mid f Hfm) in Hc. lia.
    + apply IH; [lia|lia|done|]. intros i g Hg Hi. apply Z.nlt_ge. intros Hneg. apply (Hiff i g Hg) in Hneg.
      apply Z.le_ngt in Hc. apply Hc. apply (Hiff mid f Hfm). lia.
  - symmetry. apply lower_bound_unique; [unfold level_kv; rewrite length_fmap; lia|]. intros i e He. unfold level_kv in He.
    rewrite list_lookup_fmap in He. destruct (files !! i) as [g|] eqn:Hg; [|done]. injection He as <-. cbn [fst]. split.
    + intros Hneg. destruct (decide (i < right)%nat) as [|Hn]; [done|]. pose proof (Hhi i g Hg ltac:(lia)). lia.
    + intros Hi. apply (Hlo i g Hg). lia.
Qed.

(** [FindFile] is the first file whose largest key is not below the key. *)
Lemma FindFile_lower_bound files key : level_sorted files → valid key →
  FindFile icmp files key = lower_bound (Compare icmp) key (level_kv files).
Proof.
  intros Hls Hk. apply FindFile_loop_spec; [done..|lia|lia|lia|]. intros i f Hf%lookup_lt_Some Hi. lia.
Qed.

Lemma FindFile_spec files key : level_sorted files → valid key →
  (FindFile icmp files key ≤ length files)%nat ∧
  (∀ i f, files !! i = Some f → ((i < FindFile icmp files key)%nat ↔ Compare icmp (large f) key < 0)).
Proof.
  intros Hls Hk. rewrite FindFile_lower_bound by done. destruct (level_kv_sorted files Hls) as [Hso Hva]. split.
  - pose proof (lower_bound_le (Compare icmp) key (level_kv files)) as Hle. unfold level_kv in Hle at 2. by rewrite length_fmap in Hle.
  - intros i f Hf. apply (lower_bound_iff (cmp := Compare icmp) (valid := valid) key (level_kv files) i (large f, file_value f) Hso Hva Hk).
    unfold level_kv. by rewrite list_lookup_fmap, Hf.
Qed.

(** ** Overlap tests *)

(** Some key of the range could be in the file. *)
Definition overlaps (a b : option (list byte)) f : Prop :=
  (∀ k, a = Some k → Compare ucmp k (ularge f) <= 0) ∧ (∀ k, b = Some k → 0 <= Compare ucmp k (usmall f)).

Lemma overlaps_tests a b f : overlaps a b f ↔ AfterFile icmp a f || BeforeFile icmp b f = false.
Proof.
  unfold overlaps, AfterFile, BeforeFile, InternalKey_user_key. rewrite orb_false_iff. destruct a as [a|], b as [b|]; split.
  all: try (intros [H1 H2]; split; try done; first [apply Z.ltb_ge; by apply H1|apply Z.ltb_ge; by apply H2]).
  all: intros [H1 H2]; split; intros k [= <-]; lia.
Qed.

Lemma some_overlap_spec files a b : some_overlap icmp files a b = true ↔ ∃ f, f ∈ files ∧ overlaps a b f.
Proof.
  induction files as [|f files IH]; cbn [some_overlap]; [split; [done|by intros (f & ?%not_elem_of_nil & _)]|].
  destruct (AfterFile icmp a f || BeforeFile icmp b f) eqn:Ht.
  - rewrite IH. split; [intros (g & Hg & Ho); exists g; split; [by right|done]|].
    intros (g & [->|Hg]%elem_of_cons & Ho); [apply overlaps_tests in Ho; congruence|by exists g].
  - split; [|done]. intros _. exists f. split; [left|by apply overlaps_tests].
Qed.

Lemma first_key_seek u f : uvalid u → file_ok f →
  Compare icmp (large f) (InternalKey_Encode (InternalKey_new u kMaxSequenceNumber kValueTypeForSeek)) < 0 ↔ Compare ucmp (ularge f) u < 0.
Proof.
  intros Hu Hf. cbn [Compare internal_comparator]. unfold InternalKey_Encode, InternalKey_new, AppendInternalKey. cbn [rep_ user_key sequence type app].
  unfold PutFixed64. rewrite internal_lt. cbv zeta. rewrite ExtractUserKey_app, ExtractNum_app.
  assert (u64 (PackSequenceAndType kMaxSequenceNumber kValueTypeForSeek) = PackSequenceAndType kMaxSequenceNumber kValueTypeForSeek) as -> by reflexivity.
  pose proof (fo_num _ Hf). lia.
Qed.

Lemma first_key_valid u s t : uvalid u → valid (InternalKey_Encode (InternalKey_new u s t)).
Proof. intros Hu. unfold InternalKey_Encode, InternalKey_new, AppendInternalKey, PutFixed64. cbn. by apply valid_key_app. Qed.

Lemma level_lookup files i f : level_sorted files → files !! i = Some f → file_ok f.
Proof. intros Hls Hi. by apply (Forall_lookup_1 _ _ _ _ (ls_ok _ Hls) Hi). Qed.

Lemma level_order files i j f g : level_sorted files → files !! i = Some f → files !! j = Some g → (i < j)%nat →
  Compare icmp (large f) (small g) < 0.
Proof.
  intros Hls Hi Hj Hij. pose proof (ls_disjoint _ Hls) as Hs. rewrite <- (take_drop_middle _ _ _ Hi) in Hs.
  apply StronglySorted_app in Hs as (_ & _ & Hs). apply StronglySorted_inv in Hs as [_ Hs].
  apply (proj1 (Forall_forall _ _) Hs). apply list_elem_of_lookup. exists (j - S i)%nat. rewrite lookup_drop. by replace (S i + (j - S i))%nat with j by lia.
Qed.

Lemma level_user_order files i j f g : level_sorted files → files !! i = Some f → files !! j = Some g → (i ≤ j)%nat →
  Compare ucmp (usmall f) (usmall g) <= 0.
Proof.
  intros Hls Hi Hj Hij. pose proof (level_lookup _ _ _ Hls Hi) as Hf. pose proof (level_lookup _ _ _ Hls Hj) as Hg.
  destruct (decide (i = j)) as [->|Hne].
  { rewrite Hi in Hj. injection Hj as <-. rewrite compare_refl; [done|]. apply (fo_small _ Hf). }
  pose proof (level_order files i j f g Hls Hi Hj ltac:(lia)) as Hlt. apply internal_lt in Hlt. cbv zeta in Hlt.
  apply (compare_trans ucmp _ (ularge f)); [apply (fo_small _ Hf)|apply (fo_large _ Hf)|apply (fo_small _ Hg)|by apply file_user_le|lia].
Qed.

(** When the first file that can hold keys not below the range starts after it, no
    file overlaps it. *)
Lemma range_decided files a b i f :
  level_sorted files → (∀ k, b = Some k → uvalid k) → files !! i = Some f → overlaps a None f →
  (∀ j g, files !! j = Some g → (j < i)%nat → ¬ overlaps a b g) →
  negb (BeforeFile icmp b f) = true ↔ ∃ g, g ∈ files ∧ overlaps a b g.
Proof.
  intros Hls Hb Hi [Ho _] Hbefore. rewrite negb_true_iff. split.
  - intros Hbf. exists f. split; [by eapply list_elem_of_lookup_2|]. split; [done|]. intros k ->. cbn in Hbf. unfold InternalKey_user_key in Hbf. lia.
  - intros (g & [j Hj]%list_elem_of_lookup & Hg). destruct (decide (j < i)%nat) as [Hlt|Hge]; [by destruct (Hbefore j g Hj Hlt)|].
    destruct b as [k|]; [|done]. cbn. unfold InternalKey_user_key. apply Z.ltb_ge. destruct Hg as [_ Hg]. specialize (Hg k eq_refl).
    pose proof (level_user_order files i j f g Hls Hi Hj ltac:(lia)) as Hord.
    pose proof (fo_small _ (level_lookup _ _ _ Hls Hi)) as [_ Hvf]. pose proof (fo_small _ (level_lookup _ _ _ Hls Hj)) as [_ Hvg].
    specialize (Hb k eq_refl). apply compare_le_sym in Hg; [|done..]. apply compare_le_sym; [done..|]. by apply (compare_trans ucmp _ (usmall g)).
Qed.

Lemma range_search files a b :
  level_sorted files → (∀ k, a = Some k → uvalid k) → (∀ k, b = Some k → uvalid k) →
  SomeFileOverlapsRange icmp true files a b = true ↔ ∃ f, f ∈ files ∧ overlaps a b f.
Proof.
  intros Hls Ha Hb. unfold SomeFileOverlapsRange. cbn [negb]. destruct a as [k|].
  - specialize (Ha k eq_refl). set (key := InternalKey_Encode _).
    destruct (FindFile_spec files key Hls (first_key_valid k _ _ Ha)) as [Hle Hiff].
    assert (∀ j g, files !! j = Some g → (j < FindFile icmp files key)%nat → ¬ overlaps (Some k) b g) as Hbefore.
    { intros j g Hj Hlt [Ho _]. specialize (Ho k eq_refl). apply (Hiff j g Hj) in Hlt.
      pose proof (level_lookup _ _ _ Hls Hj) as Hg. apply (first_key_seek k g Ha Hg) in Hlt.
      pose proof (compare_sym ucmp k (ularge g) Ha (proj2 (fo_large _ Hg))). lia. }
    destruct (files !! FindFile icmp files key) as [f|] eqn:Hi.
    + apply (range_decided files (Some k) b _ f Hls Hb Hi); [|done]. split; [|done]. intros k' [= <-].
      pose proof (level_lookup _ _ _ Hls Hi) as Hf. apply Z.nlt_ge. intros Hgt.
      assert (FindFile icmp files key < FindFile icmp files key)%nat; [|lia]. apply (Hiff _ f Hi). apply (first_key_seek k f Ha Hf).
      pose proof (compare_sym ucmp k (ularge f) Ha (proj2 (fo_large _ Hf))). lia.
    + split; [done|]. intros (g & [j Hj]%list_elem_of_lookup & Hg). apply lookup_ge_None_1 in Hi.
      pose proof (lookup_lt_Some _ _ _ Hj). destruct (Hbefore j g Hj ltac:(lia) Hg).
  - destruct (files !! 0%nat) as [f|] eqn:Hi.
    + apply (range_decided files None b 0 f Hls Hb Hi); [done|]. intros j g _ Hlt. lia.
    + split; [done|]. intros (g & [j Hj]%list_elem_of_lookup & _). apply lookup_ge_None_1 in Hi. apply lookup_lt_Some in Hj. lia.
Qed.

(** ** The iterator over files *)

Definition level_file_at (it : LevelFileNumIterator) (l : list kv) (p : option nat) : Prop :=
  level_sorted (flist_ it) ∧ l = level_kv (flist_ it) ∧ p = pos_at l (index_ it) ∧ (index_ it ≤ length l)%nat.

Lemma length_level_kv files : length (level_kv files) = length files.
Proof. apply length_fmap. Qed.

#[local] Instance level_file_laws : IteratorLaws (Iterator0 := level_file_iterator icmp) LevelFileNumIterator (Compare icmp) valid level_file_at.
Proof.
  split; cbn [it_Valid it_SeekToFirst it_SeekToLast it_Seek it_Next it_Prev it_key it_value it_status level_file_iterator].
  - intros it l p (Hls & -> & -> & _). destruct (level_kv_sorted _ Hls). split_and!; [done..|].
    by intros i [-> ?]%pos_at_Some.
  - done.
  - intros it l p (Hls & -> & -> & _). unfold lf_Valid, pos_at. rewrite length_level_kv. by destruct (_ <? _)%nat.
  - intros it l i e (Hls & -> & Hp & _) He. symmetry in Hp. apply pos_at_Some in Hp as [-> _].
    unfold lf_key, lf_value, level_kv in *. rewrite list_lookup_fmap in He. destruct (flist_ it !! index_ it) as [f|]; [|done].
    injection He as <-. done.
  - intros it l p (Hls & -> & _). eexists. split; [done|]. split; [done|]. split; [done|]. split; [done|]. cbn. lia.
  - intros it l p (Hls & -> & _). eexists. split; [done|]. split; [done|]. split; [done|].
    cbn [lf_SeekToLast lf_at index_ flist_]. unfold pos_last. destruct (flist_ it) as [|f files]; [done|]. cbn [level_kv fmap list_fmap].
    rewrite <- length_level_kv. unfold level_kv. cbn [fmap list_fmap length]. split; [|lia]. symmetry. apply pos_at_Some. cbn [length]. lia.
  - intros it l p t (Hls & -> & _) Ht. eexists. split; [done|]. split; [done|]. split; [done|].
    cbn [lf_Seek lf_at index_ flist_]. rewrite FindFile_lower_bound by done. split; [done|]. apply lower_bound_le.
  - intros it l i (Hls & -> & Hp & _). symmetry in Hp. apply pos_at_Some in Hp as [-> Hlt]. unfold lf_Next, lf_Valid.
    rewrite length_level_kv in Hlt. rewrite (proj2 (Nat.ltb_lt _ _)) by done. eexists. split; [done|]. split; [done|]. split; [done|].
    cbn [lf_at index_ flist_]. unfold pos_next. rewrite Nat.add_1_r, length_level_kv. split; [done|lia].
  - intros it l i (Hls & -> & Hp & _). symmetry in Hp. apply pos_at_Some in Hp as [-> Hlt]. unfold lf_Prev, lf_Valid.
    rewrite length_level_kv in Hlt. rewrite (proj2 (Nat.ltb_lt _ _)) by done. eexists. split; [done|]. split; [done|]. split; [done|].
    cbn [lf_at index_ flist_]. unfold pos_prev, pos_at. rewrite !length_level_kv.
    destruct (index_ it) as [|i]; [by rewrite Nat.ltb_irrefl|]. rewrite (proj2 (Nat.ltb_lt _ _)) by lia. split; [done|lia].
Qed.

(** ** Tables and their contents *)

(** The entries of the table in a file: in order, the bounds being its first and
    last keys. *)
Record table_holds f (l : list kv) : Prop := {
  th_sorted : sorted_kvs (Compare icmp) l;
  th_valid : Forall (λ e, valid e.1) l;
  th_first : ∃ e, head l = Some e ∧ e.1 = small f;
  th_last : ∃ e, last l = Some e ∧ e.1 = large f;
}.

Lemma sorted_le l i j a b : sorted_kvs (Compare icmp) l → Forall (λ e, valid e.1) l → l !! i = Some a → l !! j = Some b → (i ≤ j)%nat →
  Compare icmp a.1 b.1 <= 0.
Proof.
  intros Hs Hv Ha Hb Hij. destruct (decide (i = j)) as [->|Hne].
  - rewrite Ha in Hb. injection Hb as <-. rewrite compare_refl; [done|]. by apply (Forall_lookup_1 _ _ _ _ Hv Ha).
  - apply Z.lt_le_incl. eapply (sorted_lookup l i j a b Hs Ha Hb). lia.
Qed.

Lemma holds_range f l e : table_holds f l → e ∈ l → valid e.1 ∧ Compare icmp (small f) e.1 <= 0 ∧ Compare icmp e.1 (large f) <= 0.
Proof.
  intros [Hs Hv (a & Ha & <-) (b & Hb & <-)] [i Hi]%list_elem_of_lookup. rewrite head_lookup in Ha. rewrite last_lookup in Hb.
  pose proof (lookup_lt_Some _ _ _ Hi). split; [by apply (Forall_lookup_1 _ _ _ _ Hv Hi)|].
  split; [apply (sorted_le l 0 i); [done..|lia]|apply (sorted_le l i (pred (length l))); [done..|lia]].
Qed.

(** ** The concatenating iterator *)

Section tables.
Context (contents : File → list kv).

Lemma level_flat_sorted files : level_sorted files → Forall (λ f, table_holds f (contents f)) files →
  sorted_kvs (Compare icmp) (flat (contents <$> files)).
Proof.
  intros Hls Hh. apply ls_disjoint in Hls as Hd. clear Hls. induction Hd as [|f files Hd IH Hf]; [constructor|].
  apply Forall_cons in Hh as [Hfh Hh]. change (flat (contents <$> f :: files)) with (contents f ++ flat (contents <$> files)).
  apply StronglySorted_app. split; [|split; [apply Hfh|by apply IH]]. intros a b Ha (l & Hb & (g & -> & Hg)%list_elem_of_fmap)%list_elem_of_join.
  pose proof (proj1 (Forall_forall _ _) Hf g Hg) as Hlt. pose proof (proj1 (Forall_forall _ _) Hh g Hg) as Hgh.
  destruct (holds_range f _ a Hfh Ha) as (Hva & _ & Hal). destruct (holds_range g _ b Hgh Hb) as (Hvb & Hbs & _).
  destruct (th_last _ _ Hfh) as (x & Hx & Hxl). apply last_Some_elem_of in Hx. destruct (holds_range f _ x Hfh Hx) as (Hvx & _).
  destruct (th_first _ _ Hgh) as (y & Hy & Hys). apply head_Some_elem_of in Hy. destruct (holds_range g _ y Hgh Hy) as (Hvy & _).
  rewrite Hxl in Hvx. rewrite Hys in Hvy. cbn beta in Hlt.
  apply (compare_le_lt_trans icmp _ (large f)); [done..|]. by apply (compare_lt_le_trans icmp _ (small g)).
Qed.

Lemma level_shape files : level_sorted files → Forall (λ f, table_holds f (contents f)) files → NoDup (file_value <$> files) →
  index_shape (Compare icmp) valid (level_kv files) (contents <$> files).
Proof.
  intros Hls Hh Hnd. destruct (level_kv_sorted files Hls) as [_ Hv].
  assert (∀ j f, files !! j = Some f → table_holds f (contents f)) as Hht by (intros j f Hj; by apply (Forall_lookup_1 _ _ _ _ Hh Hj)).
  assert (∀ j s h, level_kv files !! j = Some (s, h) → ∃ f, files !! j = Some f ∧ s = large f) as Hk.
  { intros j s h Hj. unfold level_kv in Hj. rewrite list_lookup_fmap in Hj. destruct (files !! j) as [f|]; [|done]. exists f. by injection Hj as <- _. }
  assert (∀ j b, (contents <$> files) !! j = Some b → ∃ f, files !! j = Some f ∧ b = contents f) as Hb.
  { intros j b Hj. rewrite list_lookup_fmap in Hj. destruct (files !! j) as [f|]; [|done]. exists f. by injection Hj as <-. }
  split.
  - by rewrite length_level_kv, length_fmap.
  - by apply level_flat_sorted.
  - apply Forall_forall. intros e (l & He & (f & -> & Hf)%list_elem_of_fmap)%list_elem_of_join.
    by destruct (holds_range f _ e (proj1 (Forall_forall _ _) Hh f Hf) He).
  - done.
  - unfold level_kv. by rewrite <- list_fmap_compose.
  - intros j s h b e Hj Hbj He. destruct (Hk j s h Hj) as (f & Hf & ->). destruct (Hb j b Hbj) as (g & Hg & ->). simplify_eq.
    by destruct (holds_range f _ e (Hht j f Hf) He) as (_ & _ & ?).
  - intros j j' s h b e Hj Hlt Hbj He. destruct (Hk j s h Hj) as (f & Hf & ->). destruct (Hb j' b Hbj) as (g & Hg & ->).
    destruct (holds_range g _ e (Hht j' g Hg) He) as (Hve & Hs & _). pose proof (level_order files j j' f g Hls Hf Hg Hlt).
    apply (compare_lt_le_trans icmp _ (small g)); [apply (level_lookup _ _ _ Hls Hf)|apply (level_lookup _ _ _ Hls Hg)|done..].
Qed.

Section concat_proofs.
Context {J : Type} `{!Iterator J} {RJ : J → list kv → option nat → Prop} `{!IteratorLaws J (Compare icmp) valid RJ}.
Context (new_iterator : Z → Z → option J).

Lemma GetFileIterator_value f : 0 <= number f < 2 ^ 64 → 0 <= file_size f < 2 ^ 64 →
  GetFileIterator new_iterator (file_value f) = inr <$> new_iterator (number f) (file_size f).
Proof.
  intros Hn Hs. unfold GetFileIterator, file_value. rewrite length_app, !length_EncodeFixed64. cbn [Nat.add Nat.eqb negb].
  rewrite Decode_EncodeFixed64, u64_small by lia. cbn [mbind option_bind]. rewrite drop_app_length' by done.
  rewrite <- (app_nil_r (EncodeFixed64 (file_size f))), Decode_EncodeFixed64, u64_small by lia. done.
Qed.

(** The concatenating iterator runs over the entries of the tables in turn. *)
Lemma NewConcatenatingIterator_at files fuel :
  level_sorted files → Forall (λ f, table_holds f (contents f)) files → NoDup (number ∘ f_meta <$> files) →
  Forall (λ f, 0 <= number f < 2 ^ 64 ∧ 0 <= file_size f < 2 ^ 64 ∧
            ∃ it p, new_iterator (number f) (file_size f) = Some it ∧ RJ it (contents f) p) files →
  (length files + 1 < fuel)%nat →
  ∃ it, NewConcatenatingIterator icmp files = Some it ∧
    two_level_at (cmp := Compare icmp) (valid := valid) (RI := level_file_at) (RJ := sum_at (RI := empty_at) (RJ := RJ))
      (GetFileIterator new_iterator) fuel it (flat (contents <$> files)) None.
Proof.
  intros Hls Hh Hnd Hopen Hfuel. pose proof level_file_laws as Hlaws. unfold NewConcatenatingIterator.
  assert (NoDup (file_value <$> files)) as Hnv.
  { apply NoDup_alt. intros i j x Hi Hj. rewrite list_lookup_fmap in Hi, Hj.
    destruct (files !! i) as [f|] eqn:Ei; [|done]. destruct (files !! j) as [g|] eqn:Ej; [|done]. cbn [fmap option_fmap option_map] in Hi, Hj. apply (inj Some) in Hi as <-. apply (inj Some) in Hj.
    destruct (Forall_lookup_1 _ _ _ _ Hopen Ei) as (Hf & _). destruct (Forall_lookup_1 _ _ _ _ Hopen Ej) as (Hg & _).
    unfold file_value in Hj. pose proof (Decode_EncodeFixed64 (number g) (EncodeFixed64 (file_size g))) as HD.
    rewrite Hj, Decode_EncodeFixed64 in HD. apply (inj Some) in HD. rewrite !u64_small in HD by lia.
    apply (NoDup_lookup _ i j (number f) Hnd); rewrite list_lookup_fmap; [by rewrite Ei|]. rewrite Ej. cbn. by f_equal. }
  apply (NewTwoLevelIterator_at (Iterator0 := level_file_iterator icmp) (cmp := Compare icmp) (valid := valid) _ fuel _ (level_kv files) (contents <$> files) None).
  - by apply level_shape.
  - by rewrite length_level_kv.
  - intros j s h b Hj Hb. unfold level_kv in Hj. rewrite list_lookup_fmap in Hj. rewrite list_lookup_fmap in Hb. destruct (files !! j) as [f|] eqn:Ef; [|done].
    injection Hj as <- <-. injection Hb as <-. destruct (Forall_lookup_1 _ _ _ _ Hopen Ef) as (Hn & Hs & it & p & Hit & HR).
    rewrite GetFileIterator_value, Hit by done. by exists (inr it), p.
  - split; [done|]. split; [done|]. unfold LevelFileNumIterator_new. cbn [flist_ index_]. rewrite <- length_level_kv.
    split; [|done]. unfold pos_at. by rewrite Nat.ltb_irrefl.
Qed.
End concat_proofs.

(** ** Files in the order of the search *)

Definition candidates (v : Version) (u k : list byte) : list (nat * File) :=
  (pair 0%nat <$> sort_newest (filter (λ f, covers icmp u f = true) (level_files v 0))) ++
  mjoin (imap (λ i files, pair (S i) <$> level_candidate icmp u k files) (drop 1 (files_ v))).

Section calls.
Context {St : Type} (func : nat → File → St → option (St * bool)).

Fixpoint call_list (l : list (nat * File)) (s : St) : option (St * bool) :=
  match l with
  | [] => Some (s, true)
  | c :: l => '(s, go_on) ← func c.1 c.2 s; if go_on : bool then call_list l s else Some (s, false)
  end.

Lemma call_list_app l1 l2 s : call_list (l1 ++ l2) s = '(s, go_on) ← call_list l1 s; if go_on : bool then call_list l2 s else Some (s, false).
Proof.
  revert s; induction l1 as [|c l1 IH]; intros s; cbn [app call_list]; [done|].
  destruct (func c.1 c.2 s) as [[s' [|]]|]; cbn [mbind option_bind]; [apply IH|done|done].
Qed.

Lemma call_each_list level files s : call_each func level files s = call_list (pair level <$> files) s.
Proof.
  revert s; induction files as [|f files IH]; intros s; cbn; [done|]. destruct (func level f s) as [[s' [|]]|]; cbn; [apply IH|done|done].
Qed.

Lemma call_levels_list u k level levels s :
  call_levels icmp func u k level levels s =
  fst <$> call_list (mjoin (imap (λ i files, pair (level + i)%nat <$> level_candidate icmp u k files) levels)) s.
Proof.
  revert level s; induction levels as [|files levels IH]; intros level s; [done|]. cbn [call_levels imap mjoin list_join].
  rewrite call_list_app, call_each_list. replace (level + 0)%nat with level by lia.
  destruct (call_list _ s) as [[s' [|]]|]; cbn [mbind option_bind]; [|done|done]. rewrite IH. do 2 f_equal.
  f_equal. apply imap_ext. intros i x _. unfold compose. by replace (level + S i)%nat with (level + 1 + i)%nat by lia.
Qed.

Lemma ForEachOverlapping_list v u k s : ForEachOverlapping icmp func v u k s = fst <$> call_list (candidates v u k) s.
Proof.
  unfold ForEachOverlapping, candidates. rewrite call_list_app, call_each_list.
  destruct (call_list _ s) as [[s' [|]]|]; cbn [mbind option_bind]; [|done|done]. apply (call_levels_list u k 1).
Qed.
End calls.

Lemma insert_newest_perm f files : insert_newest f files ≡ₚ f :: files.
Proof.
  induction files as [|g files IH]; cbn [insert_newest]; [done|]. destruct (NewestFirst g f); [|done]. rewrite IH. apply Permutation_swap.
Qed.

Lemma sort_newest_perm files : sort_newest files ≡ₚ files.
Proof. induction files as [|f files IH]; cbn; [done|]. by rewrite insert_newest_perm, IH. Qed.

Lemma insert_newest_sorted f files : StronglySorted (λ a b : File, number b < number a) files → Forall (λ g : File, number g ≠ number f) files →
  StronglySorted (λ a b : File, number b < number a) (insert_newest f files).
Proof.
  induction files as [|g files IH]; intros Hs Hne; cbn [insert_newest]; [by repeat constructor|].
  apply StronglySorted_inv in Hs as Hs'. destruct Hs' as [Hs' Hg]. apply Forall_cons in Hne as [Hgf Hne]. unfold NewestFirst.
  destruct (Z.ltb_spec (number f) (number g)) as [Hlt|Hge].
  - constructor; [by apply IH|]. apply Forall_forall. intros x Hx. rewrite insert_newest_perm in Hx.
    apply elem_of_cons in Hx as [->|Hx]; [done|]. by apply (proj1 (Forall_forall _ _) Hg).
  - constructor; [done|]. constructor; [lia|]. eapply Forall_impl; [exact Hg|]. intros x Hx. cbn in Hx. lia.
Qed.

Lemma sort_newest_sorted files : NoDup (number ∘ f_meta <$> files) → StronglySorted (λ a b : File, number b < number a) (sort_newest files).
Proof.
  induction files as [|f files IH]; intros Hnd; cbn; [constructor|]. cbn in Hnd. apply NoDup_cons in Hnd as [Hf Hnd].
  apply insert_newest_sorted; [by apply IH|]. apply Forall_forall. intros g Hg Heq. fold (sort_newest files) in Hg. rewrite sort_newest_perm in Hg.
  apply Hf. apply list_elem_of_fmap. by exists g.
Qed.

(** ** Versions *)

(** Every table holds its entries; files of a level above 0 are disjoint and in
    order; for a user key, the entries found earlier in the search are newer. *)
Record version_ok (v : Version) : Prop := {
  vo_holds level f : f ∈ level_files v level → table_holds f (contents f) ∧ file_ok f;
  vo_parse level f e : f ∈ level_files v level → e ∈ contents f → is_Some (ParseInternalKey e.1);
  vo_sorted level : (0 < level)%nat → level_sorted (level_files v level);
  vo_numbers : NoDup (number ∘ f_meta <$> level_files v 0);
  vo_newer0 (f g : File) a b : f ∈ level_files v 0 → g ∈ level_files v 0 → number g < number f → a ∈ contents f → b ∈ contents g →
    ExtractUserKey a.1 = ExtractUserKey b.1 → Compare icmp a.1 b.1 < 0;
  vo_newer i j (f g : File) a b : (i < j)%nat → f ∈ level_files v i → g ∈ level_files v j → a ∈ contents f → b ∈ contents g →
    ExtractUserKey a.1 = ExtractUserKey b.1 → Compare icmp a.1 b.1 < 0;
}.

Lemma level_files_S v i : level_files v (S i) = default [] (drop 1 (files_ v) !! i).
Proof. unfold level_files. by rewrite lookup_drop. Qed.

Lemma level_candidate_elem u k files f : f ∈ level_candidate icmp u k files → files !! FindFile icmp files k = Some f ∧ level_candidate icmp u k files = [f].
Proof.
  unfold level_candidate. destruct (files !! _) as [g|]; [|by intros ?%not_elem_of_nil]. destruct (_ <? 0); [by intros ?%not_elem_of_nil|].
  by intros ->%list_elem_of_singleton.
Qed.

Lemma candidates_elem v u k i f : (i, f) ∈ candidates v u k → f ∈ level_files v i ∧
  (if decide (i = 0%nat) then covers icmp u f = true else f ∈ level_candidate icmp u k (level_files v i)).
Proof.
  unfold candidates. intros [Hin|Hin]%elem_of_app.
  - apply list_elem_of_fmap in Hin as (g & [= -> ->] & Hg). rewrite sort_newest_perm in Hg. apply list_elem_of_filter in Hg as [Hc Hg]. done.
  - apply list_elem_of_join in Hin as (l & Hin & Hl). apply list_elem_of_lookup in Hl as [j Hj]. apply list_lookup_imap_Some in Hj as (files & Hj & ->).
    apply list_elem_of_fmap in Hin as (g & [= -> ->] & Hg). assert (level_files v (S j) = files) as -> by (by rewrite level_files_S, Hj).
    split; [|done]. apply level_candidate_elem in Hg as [Hg _]. by eapply list_elem_of_lookup_2.
Qed.

Definition searched_before (a b : nat * File) : Prop := (a.1 < b.1)%nat ∨ a.1 = 0%nat ∧ b.1 = 0%nat ∧ number b.2 < number a.2.

Lemma candidates_sorted v u k : NoDup (number ∘ f_meta <$> level_files v 0) → StronglySorted searched_before (candidates v u k).
Proof.
  intros Hnd. unfold candidates. apply StronglySorted_app. split; [|split].
  - intros a b (f & -> & _)%list_elem_of_fmap (l & Hb & (j & Hj)%list_elem_of_lookup)%list_elem_of_join.
    apply list_lookup_imap_Some in Hj as (files & _ & ->). apply list_elem_of_fmap in Hb as (g & -> & _). left. cbn. lia.
  - assert (NoDup (number ∘ f_meta <$> filter (λ f, covers icmp u f = true) (level_files v 0))) as Hnd'.
    { eapply sublist_NoDup; [exact Hnd|]. apply fmap_sublist, sublist_filter. }
    apply sort_newest_sorted in Hnd'. induction Hnd' as [|f l _ IH Hf]; cbn; constructor; [done|].
    apply Forall_fmap. eapply Forall_impl; [exact Hf|]. intros g Hg. right. by split.
  - generalize (drop 1 (files_ v)). clear Hnd. intros levels.
    assert (∀ m, StronglySorted searched_before (mjoin (imap (λ i files, pair (m + i)%nat <$> level_candidate icmp u k files) levels))) as Hall; [|apply (Hall 1%nat)].
    induction levels as [|files levels IH]; intros m; cbn [imap mjoin list_join]; [constructor|].
    apply StronglySorted_app. split; [|split].
    + intros a b (f & -> & _)%list_elem_of_fmap (l & Hb & (j & Hj)%list_elem_of_lookup)%list_elem_of_join.
      apply list_lookup_imap_Some in Hj as (files' & _ & ->). apply list_elem_of_fmap in Hb as (g & -> & _). left. cbn. lia.
    + unfold level_candidate. destruct (files !! _) as [f|]; [|constructor]. destruct (_ <? 0); by repeat constructor.
    + specialize (IH (m + 1)%nat). erewrite imap_ext; [exact IH|]. intros i x _. unfold compose. by replace (m + S i)%nat with (m + 1 + i)%nat by lia.
Qed.

(** ** Lookups *)

Section get_proofs.
Context (v : Version) (Hv : version_ok v).
Context (Hinj : ∀ a b, uvalid a → uvalid b → Compare ucmp a b = 0 → a = b).
Context (table_get : File → list byte → option (Status * option kv)) (u : list byte) (s : Z) (Hu : uvalid u).
Notation k := (lookup_internal_key (LookupKey_new u s)).
Notation first f := (contents f !! lower_bound (Compare icmp) k (contents f)).
Notation Match := (Get_Match icmp table_get u k).

(** A lookup in a table, as [Table::InternalGet] and the table cache provide it. *)
Definition reads_table f : Prop :=
  ∃ res, table_get f k = Some (Status_OK, res) ∧ (res = None ∨ res = first f) ∧
    ∀ e, first f = Some e → ExtractUserKey e.1 = u → res = Some e.
Hypothesis Hget : ∀ level f, f ∈ level_files v level → reads_table f.

(** The entry is of the user key and not newer than the snapshot. *)
Definition visible (e : kv) : Prop := ExtractUserKey e.1 = u ∧ Compare icmp k e.1 <= 0.

Lemma lookup_valid : valid k ∧ ExtractUserKey k = u.
Proof using Hu. rewrite lookup_internal_key_app. split; [by apply valid_key_app|apply ExtractUserKey_app]. Qed.

Lemma parse_user_key ik p : ParseInternalKey ik = Some p → DbFormat.user_key p = ExtractUserKey ik.
Proof.
  unfold ParseInternalKey, ExtractUserKey. destruct (_ <? 8)%nat; [done|]. destruct (DecodeFixed64 _); [|done]. cbn [mbind option_bind].
  repeat (destruct (_ =? _)); [by intros [= <-]|by intros [= <-]|done].
Qed.

Lemma match_miss level f st : f ∈ level_files v level → (∀ e, first f = Some e → ExtractUserKey e.1 ≠ u) → saver_state st = kNotFound →
  ∃ st', Match level f st = Some (st', true) ∧ saver_state st' = kNotFound ∧ saver_value st' = saver_value st ∧ g_found st' = g_found st.
Proof using All.
  intros Hf Hmiss Hst. destruct (Hget level f Hf) as (res & Hres & Hcase & _). unfold Get_Match. rewrite Hres. cbn [mbind option_bind].
  assert ((match res with Some (ik, w) => SaveValue icmp u ik w (saver_state st, saver_value st) | None => (saver_state st, saver_value st) end)
    = (kNotFound, saver_value st)) as ->; [|by eexists].
  rewrite Hst. destruct res as [[ik w]|]; [|done]. destruct Hcase as [?|Hfirst]; [done|]. symmetry in Hfirst. unfold SaveValue.
  assert ((ik, w) ∈ contents f) as Hin by (by eapply list_elem_of_lookup_2).
  destruct (vo_parse _ Hv level f _ Hf Hin) as [p Hp]. cbn [fst] in Hp. rewrite Hp. rewrite (proj2 (Z.eqb_neq _ _)); [done|].
  rewrite (parse_user_key _ _ Hp). intros Heq. apply (Hmiss _ Hfirst). cbn [fst]. apply Hinj; [|done|done].
  destruct (vo_holds _ Hv level f Hf) as [Hh _]. by destruct (holds_range f _ _ Hh Hin) as ([_ ?] & _).
Qed.

Lemma match_hit level f st e p : f ∈ level_files v level → first f = Some e → ExtractUserKey e.1 = u → ParseInternalKey e.1 = Some p →
  ∃ st', Match level f st = Some (st', false) ∧
    match type p with
    | kTypeValue => saver_value st' = e.2 ∧ g_found st' = true ∧ g_status st' = Status_OK
    | kTypeDeletion => saver_value st' = saver_value st ∧ g_found st' = g_found st
    end.
Proof using All.
  intros Hf Hfirst Hue Hp. destruct (Hget level f Hf) as (res & Hres & _ & Hhit). rewrite (Hhit e Hfirst Hue) in Hres.
  unfold Get_Match. rewrite Hres. cbn [mbind option_bind]. destruct e as [ik w]. cbn [fst snd] in *. unfold SaveValue. rewrite Hp.
  rewrite (parse_user_key _ _ Hp), Hue, compare_refl by done. cbn [Z.eqb]. destruct (type p); by eexists.
Qed.

Lemma call_misses l st : (∀ c, c ∈ l → c.2 ∈ level_files v c.1 ∧ ∀ e, first c.2 = Some e → ExtractUserKey e.1 ≠ u) → saver_state st = kNotFound →
  ∃ st', call_list Match l st = Some (st', true) ∧ saver_state st' = kNotFound ∧ saver_value st' = saver_value st ∧ g_found st' = g_found st.
Proof using All.
  revert st; induction l as [|[i f] l IH]; intros st Hl Hst; [by exists st|]. cbn [call_list fst snd].
  destruct (Hl (i, f) ltac:(left)) as [Hf Hmiss]. destruct (match_miss i f st Hf Hmiss Hst) as (st1 & -> & H1 & H2 & H3). cbn [mbind option_bind].
  destruct (IH st1) as (st' & -> & H4 & H5 & H6); [intros c Hc; apply Hl; by right|done|]. exists st'. split_and!; [done|done|congruence|congruence].
Qed.

(** An entry the search finds in a file is visible. *)
Lemma first_visible f e : first f = Some e → table_holds f (contents f) → ExtractUserKey e.1 = u → visible e ∧ e ∈ contents f.
Proof using Hu ComparatorLaws0.
  intros Hfirst Hh Hue. assert (e ∈ contents f) as Hin by (by eapply list_elem_of_lookup_2). split; [|done]. split; [done|].
  destruct (holds_range f _ e Hh Hin) as [Hve _]. apply compare_le_sym; [apply Hve|apply lookup_valid|]. by eapply lower_bound_at.
Qed.

(** Keys between two keys of one user key are of that user key. *)
Lemma between_user a b d : valid a → valid b → valid d → ExtractUserKey a = u → ExtractUserKey d = u →
  Compare icmp a b <= 0 → Compare icmp b d <= 0 → ExtractUserKey b = u.
Proof using Hinj Hu ComparatorLaws0.
  intros Ha Hb Hd Hua Hud Hab Hbd. apply internal_le in Hab, Hbd. cbv zeta in *. rewrite Hua in Hab. rewrite Hud in Hbd.
  apply Hinj; [apply Hb|done|]. pose proof (compare_sym ucmp u (ExtractUserKey b) Hu (proj2 Hb)). lia.
Qed.

(** The newest visible entry of the version. *)
Definition newest_visible (level : nat) f (e : kv) : Prop :=
  f ∈ level_files v level ∧ e ∈ contents f ∧ visible e ∧
  ∀ level' f' e', f' ∈ level_files v level' → e' ∈ contents f' → visible e' → Compare icmp e.1 e'.1 <= 0.

Lemma newest_first level f e : newest_visible level f e → first f = Some e.
Proof using Hv Hinj Hu ComparatorLaws0.
  intros (Hf & He & [Hue Hke] & Hmin). destruct (vo_holds _ Hv level f Hf) as [Hh _]. destruct (holds_range f _ e Hh He) as [Hve _].
  destruct lookup_valid as [Hvk Huk]. pose proof He as [i Hi]%list_elem_of_lookup.
  pose proof (lower_bound_iff (valid := valid) k (contents f) i e (th_sorted _ _ Hh) (th_valid _ _ Hh) Hvk Hi) as Hiff.
  assert (¬ (i < lower_bound (Compare icmp) k (contents f))%nat) as Hge.
  { intros Hlt%Hiff. pose proof (compare_sym icmp k e.1 Hvk Hve). lia. }
  destruct (lookup_lt_is_Some_2 (contents f) (lower_bound (Compare icmp) k (contents f))) as [e0 He0]; [apply lookup_lt_Some in Hi; lia|].
  rewrite He0. f_equal. assert (e0 ∈ contents f) as Hin0 by (by eapply list_elem_of_lookup_2). destruct (holds_range f _ e0 Hh Hin0) as [Hv0 _].
  pose proof (sorted_le _ _ _ _ _ (th_sorted _ _ Hh) (th_valid _ _ Hh) He0 Hi ltac:(lia)) as Hle.
  assert (Compare icmp k e0.1 <= 0) as Hk0 by (apply compare_le_sym; [done|done|]; by eapply lower_bound_at).
  assert (ExtractUserKey e0.1 = u) as Hu0 by (by apply (between_user k e0.1 e.1)).
  pose proof (Hmin level f e0 Hf Hin0 (conj Hu0 Hk0)) as Hge0.
  assert (Compare icmp e0.1 e.1 = 0) as Heq by (pose proof (compare_sym icmp e0.1 e.1 Hv0 Hve); lia).
  pose proof (sorted_inj (cmp := Compare icmp) (valid := valid) (contents f) _ _ e0 e (th_sorted _ _ Hh) (th_valid _ _ Hh) He0 Hi Heq) as <-. congruence.
Qed.

Lemma newest_covered level f e : newest_visible level f e → covers icmp u f = true.
Proof using Hv Hinj Hu ComparatorLaws0.
  intros (Hf & He & [Hue _] & _). destruct (vo_holds _ Hv level f Hf) as [Hh Hok]. destruct (holds_range f _ e Hh He) as (Hve & Hs & Hl).
  apply internal_le in Hs, Hl. cbv zeta in *. rewrite Hue in *. unfold covers, InternalKey_user_key.
  pose proof (compare_sym ucmp u (usmall f) Hu (proj2 (fo_small _ Hok))). apply andb_true_intro. split; lia.
Qed.

Lemma newest_candidate level f e : newest_visible level f e → (level, f) ∈ candidates v u k.
Proof using Hv Hinj Hu ComparatorLaws0.
  intros Hn. pose proof (newest_covered _ _ _ Hn) as Hcov. pose proof Hn as (Hf & He & [Hue Hke] & Hmin). unfold candidates. apply elem_of_app.
  destruct level as [|j]; [left|right].
  { apply list_elem_of_fmap_2. rewrite sort_newest_perm. by apply list_elem_of_filter. }
  pose proof (vo_sorted _ Hv (S j) ltac:(lia)) as Hls. destruct (vo_holds _ Hv _ f Hf) as [Hh Hok].
  destruct (holds_range f _ e Hh He) as (Hve & Hs & Hl). destruct lookup_valid as [Hvk Huk].
  pose proof Hf as [i Hi]%list_elem_of_lookup. destruct (FindFile_spec _ k Hls Hvk) as [Hle Hiff].
  assert (FindFile icmp (level_files v (S j)) k = i) as Hidx.
  { assert (¬ (i < FindFile icmp (level_files v (S j)) k)%nat) as Hn1.
    { intros Hlt%(Hiff i f Hi). pose proof (compare_lt_le_trans icmp (large f) k e.1 (fo_large _ Hok) Hvk Hve Hlt Hke).
      pose proof (compare_sym icmp (large f) e.1 (fo_large _ Hok) Hve). lia. }
    destruct (decide (FindFile icmp (level_files v (S j)) k < i)%nat) as [Hlt|]; [exfalso|lia].
    destruct (lookup_lt_is_Some_2 (level_files v (S j)) (FindFile icmp (level_files v (S j)) k)) as [g Hg]; [apply lookup_lt_Some in Hi; lia|].
    assert (g ∈ level_files v (S j)) as Hgin by (by eapply list_elem_of_lookup_2). destruct (vo_holds _ Hv _ g Hgin) as [Hgh Hgok].
    destruct (th_last _ _ Hgh) as (x & Hx%last_Some_elem_of & Hxl). destruct (holds_range g _ x Hgh Hx) as [Hvx _].
    pose proof (level_order _ _ _ g f Hls Hg Hi Hlt) as Hgf.
    assert (Compare icmp x.1 e.1 < 0) as Hxe by (rewrite Hxl in *; by apply (compare_lt_le_trans icmp _ (small f)); [..|apply Hok| | |]).
    assert (Compare icmp k x.1 <= 0) as Hkx.
    { apply compare_le_sym; [done|done|]. rewrite Hxl. apply Z.nlt_ge. intros Hneg%(Hiff _ g Hg). lia. }
    assert (ExtractUserKey x.1 = u) as Hux by (apply (between_user k x.1 e.1); try done; lia).
    pose proof (Hmin _ g x Hgin Hx (conj Hux Hkx)). pose proof (compare_sym icmp x.1 e.1 Hvx Hve). lia. }
  apply list_elem_of_join. exists (pair (S j) <$> level_candidate icmp u k (level_files v (S j))). split.
  - apply list_elem_of_fmap_2. unfold level_candidate. rewrite Hidx, Hi. unfold covers in Hcov. apply andb_true_iff in Hcov as [Hc _].
    rewrite (proj2 (Z.ltb_ge _ _)) by lia. left.
  - apply list_elem_of_lookup. exists j. apply list_lookup_imap_Some. exists (level_files v (S j)). split; [|done].
    rewrite level_files_S. rewrite level_files_S in Hi. destruct (drop 1 (files_ v) !! j); [done|by cbn in Hi].
Qed.

Lemma searched_newer i g level f a b : searched_before (i, g) (level, f) → g ∈ level_files v i → f ∈ level_files v level →
  a ∈ contents g → b ∈ contents f → ExtractUserKey a.1 = ExtractUserKey b.1 → Compare icmp a.1 b.1 < 0.
Proof using Hv.
  unfold searched_before. cbn [fst snd]. intros [Hlt|(-> & -> & Hlt)] Hg Hf Ha Hb Hab; [by apply (vo_newer _ Hv i level g f)|by apply (vo_newer0 _ Hv g f)].
Qed.

Definition get_start (value : list byte) : GetState :=
  {| saver_state := kNotFound; saver_value := value; g_stats := {| seek_file := None; seek_file_level := -1 |};
     last_file_read := None; last_file_read_level := -1; g_status := Status_OK; g_found := false |}.

Lemma Version_Get_calls value : Version_Get icmp table_get v (LookupKey_new u s) value =
  '(st, _) ← call_list Match (candidates v u k) (get_start value);
  Some (if g_found st then g_status st else NotFound [], saver_value st, g_stats st).
Proof using.
  unfold Version_Get. rewrite lookup_user_key_new, ForEachOverlapping_list. fold (get_start value). by destruct (call_list _ _ _) as [[st b]|].
Qed.

Lemma get_newest level f e p value : newest_visible level f e → ParseInternalKey e.1 = Some p →
  ∃ stats, Version_Get icmp table_get v (LookupKey_new u s) value =
    Some (match type p with kTypeValue => (Status_OK, e.2) | kTypeDeletion => (NotFound [], value) end, stats).
Proof using All.
  intros Hn Hp. pose proof (newest_candidate _ _ _ Hn) as Hin. pose proof (newest_first _ _ _ Hn) as Hfirst.
  pose proof Hn as (Hf & He & [Hue Hke] & Hmin). apply list_elem_of_split in Hin as (pre & post & Hsplit).
  pose proof (candidates_sorted v u k (vo_numbers _ Hv)) as Hso. rewrite Hsplit in Hso. apply StronglySorted_app in Hso as (Hbefore & _ & _).
  rewrite Version_Get_calls, Hsplit, call_list_app.
  destruct (call_misses pre (get_start value)) as (st & -> & _ & Hval & Hfound); [|done|].
  { intros [i g] Hc. assert ((i, g) ∈ candidates v u k) as Hcg by (rewrite Hsplit; apply elem_of_app; by left).
    apply candidates_elem in Hcg as [Hg _]. split; [done|]. cbn [snd]. intros e' He' Hue'. destruct (vo_holds _ Hv i g Hg) as [Hgh _].
    destruct (first_visible g e' He' Hgh Hue') as [Hvis Hin']. pose proof (Hmin i g e' Hg Hin' Hvis) as Hle.
    pose proof (searched_newer i g level f e' e (Hbefore _ _ Hc ltac:(left)) Hg Hf Hin' He ltac:(congruence)) as Hlt.
    destruct (vo_holds _ Hv level f Hf) as [Hh _]. destruct (holds_range f _ e Hh He) as [Hve _]. destruct (holds_range g _ e' Hgh Hin') as [Hve' _].
    pose proof (compare_sym icmp e'.1 e.1 Hve' Hve). lia. }
  cbn [mbind option_bind call_list fst snd].
  destruct (match_hit level f st e p Hf Hfirst Hue Hp) as (st' & -> & Hres). cbn [mbind option_bind]. exists (g_stats st').
  destruct (type p).
  - destruct Hres as [-> ->]. by rewrite Hfound, Hval.
  - by destruct Hres as (-> & -> & ->).
Qed.

Lemma get_nothing value : (∀ level f e, f ∈ level_files v level → e ∈ contents f → ¬ visible e) →
  ∃ stats, Version_Get icmp table_get v (LookupKey_new u s) value = Some (NotFound [], value, stats).
Proof using All.
  intros Hnone. rewrite Version_Get_calls. destruct (call_misses (candidates v u k) (get_start value)) as (st & -> & _ & Hval & Hfound); [|done|].
  - intros [i g] Hc. apply candidates_elem in Hc as [Hg _]. split; [done|]. intros e He Hue. destruct (vo_holds _ Hv i g Hg) as [Hh _].
    destruct (first_visible g e He Hh Hue) as [Hvis Hin]. by apply (Hnone i g e).
  - cbn [mbind option_bind]. exists (g_stats st). by rewrite Hfound, Hval.
Qed.
End get_proofs.
End tables.

(** ** Overlapping inputs *)

Definition in_range (a b : option (list byte)) f : bool := negb (before_range icmp a f) && negb (after_range icmp b f).

(** The file starts before the range, or ends after it. *)
Definition below (a : option (list byte)) f : bool :=
  match a with Some k => Compare ucmp (InternalKey_user_key (smallest f)) k <? 0 | None => false end.
Definition above (b : option (list byte)) f : bool :=
  match b with Some k => 0 <? Compare ucmp (InternalKey_user_key (largest f)) k | None => false end.

Notation hits a b := (filter (λ f, in_range a b f = true)).

Lemma in_range_overlaps a b f : file_ok f → (∀ x, a = Some x → uvalid x) → (∀ x, b = Some x → uvalid x) →
  in_range a b f = true ↔ overlaps a b f.
Proof.
  intros Hf Ha Hb. unfold in_range, before_range, after_range, overlaps, InternalKey_user_key. rewrite andb_true_iff, !negb_true_iff.
  destruct (fo_small _ Hf) as [_ Hs], (fo_large _ Hf) as [_ Hl].
  assert (∀ x, uvalid x → (Compare ucmp (ularge f) x <? 0) = false ↔ Compare ucmp x (ularge f) <= 0) as H1.
  { intros x Hx. rewrite Z.ltb_ge. by apply compare_le_sym. }
  assert (∀ x, uvalid x → (0 <? Compare ucmp (usmall f) x) = false ↔ 0 <= Compare ucmp x (usmall f)) as H2.
  { intros x Hx. rewrite Z.ltb_ge. symmetry. by apply compare_le_sym. }
  destruct a as [x|], b as [y|]; rewrite ?(H1 _ (Ha _ eq_refl)), ?(H2 _ (Hb _ eq_refl)); naive_solver.
Qed.

Lemma take_hits a b files i f : files !! i = Some f →
  hits a b (take (i + 1) files) = hits a b (take i files) ++ (if in_range a b f then [f] else []).
Proof.
  intros Hi. rewrite Nat.add_1_r, (take_S_r _ _ _ Hi), filter_app. f_equal. rewrite filter_cons. by destruct (in_range a b f).
Qed.

Lemma overlap_loop_plain files a b fuel i :
  (length files - i < fuel)%nat → (i ≤ length files)%nat →
  overlap_loop icmp fuel false files i a b (hits a b (take i files)) = Some (hits a b files).
Proof.
  revert i; induction fuel as [|fuel IH]; intros i Hf Hi; [lia|]. cbn [overlap_loop].
  destruct (files !! i) as [f|] eqn:Hfi; [|apply lookup_ge_None_1 in Hfi; by rewrite take_ge].
  pose proof (lookup_lt_Some _ _ _ Hfi). pose proof (take_hits a b files i f Hfi) as Ht.
  assert (in_range a b f = negb (before_range icmp a f) && negb (after_range icmp b f)) as Hir by done. rewrite Hir in Ht.
  destruct (before_range icmp a f); [|destruct (after_range icmp b f)]; cbn [negb andb] in *;
    rewrite ?app_nil_r in Ht; rewrite <- Ht; apply IH; lia.
Qed.

(** Files whose bounds make the range grow. *)
Definition growing (a b : option (list byte)) files : nat :=
  (length (filter (λ f, below a f = true) files) + length (filter (λ f, above b f = true) files))%nat.

Lemma filter_shrinks (P Q : File → bool) files f :
  (∀ g, g ∈ files → P g = true → Q g = true) → f ∈ files → Q f = true → P f = false →
  (length (filter (λ g, P g = true) files) < length (filter (λ g, Q g = true) files))%nat.
Proof.
  induction files as [|g files IH]; intros Himp Hf HQ HP; [by apply not_elem_of_nil in Hf|].
  rewrite !filter_cons. assert (length (filter (λ g, P g = true) files) ≤ length (filter (λ g, Q g = true) files))%nat as Hle.
  { clear IH Hf. induction files as [|h files IH]; [done|]. rewrite !filter_cons. pose proof (Himp h ltac:(right; left)) as Hh.
    assert (∀ g', g' ∈ g :: files → P g' = true → Q g' = true) as Himp' by (intros g' [->|?]%elem_of_cons; apply Himp; [left|by do 2 right]).
    specialize (IH Himp'). repeat case_decide; cbn [length]; try lia. naive_solver. }
  apply elem_of_cons in Hf as [->|Hf].
  - rewrite decide_False, decide_True by congruence. cbn [length]. lia.
  - assert (∀ g', g' ∈ files → P g' = true → Q g' = true) as Himp' by (intros g' ?; apply Himp; by right).
    specialize (IH Himp' Hf HQ HP). pose proof (Himp g ltac:(left)) as Hg. repeat case_decide; cbn [length]; try lia. naive_solver.
Qed.

Definition opt_valid (a : option (list byte)) : Prop := ∀ x, a = Some x → uvalid x.

(** The range [a', b'] contains [a, b]. *)
Definition range_grows (a b a' b' : option (list byte)) : Prop :=
  (∀ f, file_ok f → in_range a b f = true → in_range a' b' f = true) ∧ opt_valid a' ∧ opt_valid b'.

Lemma range_grows_refl a b : opt_valid a → opt_valid b → range_grows a b a b.
Proof. done. Qed.

Lemma range_grows_trans a b a' b' a'' b'' : range_grows a b a' b' → range_grows a' b' a'' b'' → range_grows a b a'' b''.
Proof. intros [H1 _] [H2 ?]. split; [|done]. intros f Hf Hr. apply H2; [done|]. by apply H1. Qed.

Lemma grow_below a b f : opt_valid a → opt_valid b → file_ok f → below a f = true →
  range_grows a b (Some (InternalKey_user_key (smallest f))) b ∧
  ∀ files, f ∈ files → Forall file_ok files → (growing (Some (InternalKey_user_key (smallest f))) b files < growing a b files)%nat.
Proof.
  intros Ha Hb Hf Hlt. unfold below in Hlt. destruct a as [x|]; [|done]. apply Z.ltb_lt in Hlt. specialize (Ha x eq_refl) as Hx.
  pose proof (fo_small _ Hf) as [_ Hs]. unfold InternalKey_user_key in *. split.
  - split; [|split; [by intros y [= <-]|done]]. intros g Hg Hr. apply in_range_overlaps in Hr as [H1 H2]; [|done|by intros ? [= <-]|done].
    apply in_range_overlaps; [done|by intros ? [= <-]|done|]. split; [|done]. intros y [= <-]. specialize (H1 x eq_refl).
    apply Z.lt_le_incl, (compare_lt_le_trans ucmp _ x); [done|done|apply (fo_large _ Hg)|done|done].
  - intros files Hin Hok. unfold growing. apply Nat.add_lt_mono_r. apply (filter_shrinks _ _ files f); [|done|by apply Z.ltb_lt|].
    + intros g Hg. unfold below, InternalKey_user_key. rewrite !Z.ltb_lt. intros Hgf.
      pose proof (proj1 (Forall_forall _ _) Hok g Hg) as Hgo. pose proof (fo_small _ Hgo) as [_ Hgs].
      apply (compare_lt_le_trans ucmp _ (usmall f)); [done..|lia].
    + unfold below, InternalKey_user_key. by rewrite compare_refl.
Qed.

Lemma grow_above a b f : opt_valid a → opt_valid b → file_ok f → above b f = true →
  range_grows a b a (Some (InternalKey_user_key (largest f))) ∧
  ∀ files, f ∈ files → Forall file_ok files → (growing a (Some (InternalKey_user_key (largest f))) files < growing a b files)%nat.
Proof.
  intros Ha Hb Hf Hlt. unfold above in Hlt. destruct b as [x|]; [|done]. apply Z.ltb_lt in Hlt. specialize (Hb x eq_refl) as Hx.
  pose proof (fo_large _ Hf) as [_ Hl]. unfold InternalKey_user_key in *. pose proof (compare_sym ucmp (ularge f) x Hl Hx) as Hsym. split.
  - split; [|split; [done|by intros y [= <-]]]. intros g Hg Hr. apply in_range_overlaps in Hr as [H1 H2]; [|done|done|by intros ? [= <-]].
    apply in_range_overlaps; [done|done|by intros ? [= <-]|]. split; [done|]. intros y [= <-]. specialize (H2 x eq_refl).
    pose proof (fo_small _ Hg) as [_ Hgs]. apply compare_le_sym; [done..|]. apply compare_le_sym in H2; [|done..].
    apply (compare_trans ucmp _ x); [done..|lia].
  - intros files Hin Hok. unfold growing. apply Nat.add_lt_mono_l. apply (filter_shrinks _ _ files f); [|done|by apply Z.ltb_lt|].
    + intros g Hg. unfold above, InternalKey_user_key. rewrite !Z.ltb_lt. intros Hgf.
      pose proof (proj1 (Forall_forall _ _) Hok g Hg) as Hgo. pose proof (fo_large _ Hgo) as [_ Hgs].
      apply compare_lt_sym; [done..|]. apply compare_lt_sym in Hgf; [|done..]. apply (compare_lt_le_trans ucmp _ (ularge f)); [done|done|done|lia|lia].
    + unfold above, InternalKey_user_key. by rewrite compare_refl.
Qed.

Lemma overlap_loop_level0 files fuel i a b :
  Forall file_ok files → opt_valid a → opt_valid b →
  (growing a b files * (length files + 1) + (length files - i) < fuel)%nat → (i ≤ length files)%nat →
  (∀ f, f ∈ hits a b (take i files) → below a f = false ∧ above b f = false) →
  ∃ a' b', overlap_loop icmp fuel true files i a b (hits a b (take i files)) = Some (hits a' b' files) ∧ range_grows a b a' b' ∧
    ∀ f, f ∈ hits a' b' files → below a' f = false ∧ above b' f = false.
Proof.
  intros Hok. revert i a b; induction fuel as [|fuel IH]; intros i a b Ha Hb Hf Hi Hin; [lia|]. cbn [overlap_loop].
  destruct (files !! i) as [f|] eqn:Hfi.
  2:{ apply lookup_ge_None_1 in Hfi. rewrite take_ge in * by done. exists a, b. split; [done|]. by split. }
  pose proof (lookup_lt_Some _ _ _ Hfi) as Hlt. pose proof (take_hits a b files i f Hfi) as Ht.
  pose proof (Forall_lookup_1 _ _ _ _ Hok Hfi) as Hfo. assert (f ∈ files) as Hfin by (by eapply list_elem_of_lookup_2).
  assert (in_range a b f = negb (before_range icmp a f) && negb (after_range icmp b f)) as Hir by done. rewrite Hir in Ht.
  destruct (before_range icmp a f); [|destruct (after_range icmp b f)]; cbn [negb andb] in *.
  1,2: rewrite app_nil_r in Ht; rewrite <- Ht in *; apply IH; [done|done|lia|lia|done].
  change (match a with Some b0 => _ | None => false end) with (below a f).
  change (match b with Some e => _ | None => false end) with (above b f).
  destruct (below a f) eqn:Hbe; [|destruct (above b f) eqn:Hab].
  - destruct (grow_below a b f Ha Hb Hfo Hbe) as [Hg Hm]. specialize (Hm files Hfin Hok).
    destruct (IH 0%nat (Some (InternalKey_user_key (smallest f))) b) as (a' & b' & Hr & Hg' & Hc); [apply Hg|done|nia|lia|by intros ? ?%not_elem_of_nil|].
    exists a', b'. split; [exact Hr|]. split; [by eapply range_grows_trans|done].
  - destruct (grow_above a b f Ha Hb Hfo Hab) as [Hg Hm]. specialize (Hm files Hfin Hok).
    destruct (IH 0%nat a (Some (InternalKey_user_key (largest f)))) as (a' & b' & Hr & Hg' & Hc); [done|apply Hg|nia|lia|by intros ? ?%not_elem_of_nil|].
    exists a', b'. split; [exact Hr|]. split; [by eapply range_grows_trans|done].
  - rewrite <- Ht. apply IH; [done|done|lia|lia|]. rewrite Ht. intros g [Hg|Hg]%elem_of_app; [by apply Hin|].
    apply list_elem_of_singleton in Hg as ->. done.
Qed.

Lemma growing_bound a b files : (growing a b files ≤ 2 * length files)%nat.
Proof.
  unfold growing. pose proof (length_filter (λ f, below a f = true) files). pose proof (length_filter (λ f, above b f = true) files). lia.
Qed.

(** Two files share a user key of their ranges. *)
Definition files_overlap f (g : File) : Prop := Compare ucmp (usmall f) (ularge g) <= 0 ∧ Compare ucmp (usmall g) (ularge f) <= 0.

Lemma hits_closed a b files f g : Forall file_ok files → opt_valid a → opt_valid b →
  (∀ f, f ∈ hits a b files → below a f = false ∧ above b f = false) →
  f ∈ hits a b files → g ∈ files → files_overlap f g → g ∈ hits a b files.
Proof.
  intros Hok Ha Hb Hin Hf Hg [H1 H2]. destruct (Hin f Hf) as [Hbe Hab]. apply list_elem_of_filter in Hf as [_ Hf].
  pose proof (proj1 (Forall_forall _ _) Hok f Hf) as Hfo. pose proof (proj1 (Forall_forall _ _) Hok g Hg) as Hgo.
  destruct (fo_small _ Hfo) as [_ Hfs], (fo_large _ Hfo) as [_ Hfl], (fo_small _ Hgo) as [_ Hgs], (fo_large _ Hgo) as [_ Hgl].
  apply list_elem_of_filter. split; [|done]. apply in_range_overlaps; [done..|]. unfold below, above, InternalKey_user_key in *. split.
  - intros x ->. pose proof (Ha x eq_refl) as Hx. apply Z.ltb_ge in Hbe. apply compare_le_sym in Hbe; [|done..]. by apply (compare_trans ucmp _ (usmall f)).
  - intros x ->. pose proof (Hb x eq_refl) as Hx. apply Z.ltb_ge in Hab. apply compare_le_sym; [done..|]. by apply (compare_trans ucmp _ (ularge f)).
Qed.

Lemma overlapping_inputs_spec v level (begin end_ : option InternalKey) :
  let files := level_files v level in
  let a := InternalKey_user_key <$> begin in
  let b := InternalKey_user_key <$> end_ in
  Forall file_ok files → opt_valid a → opt_valid b →
  ∃ a' b', GetOverlappingInputs icmp v level begin end_ = Some (hits a' b' files) ∧ range_grows a b a' b' ∧
    (level ≠ 0%nat → a' = a ∧ b' = b) ∧
    (level = 0%nat → ∀ f, f ∈ hits a' b' files → below a' f = false ∧ above b' f = false).
Proof.
  intros files a b Hok Ha Hb. unfold GetOverlappingInputs. fold files a b. destruct (Nat.eqb_spec level 0) as [Hz|Hnz].
  - destruct (overlap_loop_level0 files (overlap_fuel files) 0 a b Hok Ha Hb) as (a' & b' & Hr & Hg & Hc); [|lia|by intros ? ?%not_elem_of_nil|].
    { unfold overlap_fuel. pose proof (growing_bound a b files). nia. }
    exists a', b'. by split_and!.
  - exists a, b. split; [|done]. apply (overlap_loop_plain files a b _ 0); [unfold overlap_fuel; nia|lia].
Qed.

(** Every file of the version has valid bounds, and levels above 0 are sorted. *)
Definition version_files_ok (v : Version) : Prop :=
  (∀ level, Forall file_ok (level_files v level)) ∧ (∀ level, (0 < level)%nat → level_sorted (level_files v level)).

Lemma OverlapInLevel_spec v level a b : version_files_ok v → opt_valid a → opt_valid b →
  OverlapInLevel icmp v level a b = true ↔ ∃ f, f ∈ level_files v level ∧ overlaps a b f.
Proof.
  intros [_ Hs] Ha Hb. unfold OverlapInLevel. destruct level as [|level]; cbn [Nat.ltb Nat.leb].
  - unfold SomeFileOverlapsRange. cbn [negb]. apply some_overlap_spec.
  - apply range_search; [apply Hs; lia|done|done].
Qed.

Lemma pick_level_spec n max v sm lg level : version_files_ok v → uvalid sm → uvalid lg →
  (∀ l f, (l ≤ level)%nat → f ∈ level_files v l → ¬ overlaps (Some sm) (Some lg) f) →
  ∃ L, pick_level icmp n max v sm lg level = Some L ∧ (level ≤ L ≤ level + n)%nat ∧
    ∀ l f, (l ≤ L)%nat → f ∈ level_files v l → ¬ overlaps (Some sm) (Some lg) f.
Proof.
  intros Hv Hsm Hlg. assert (opt_valid (Some sm) ∧ opt_valid (Some lg)) as [Ha Hb] by (split; by intros ? [= <-]).
  revert level; induction n as [|n IH]; intros level Hno; cbn [pick_level]; [exists level; split; [done|]; split; [lia|done]|].
  destruct (OverlapInLevel icmp v (level + 1) (Some sm) (Some lg)) eqn:Ho; [exists level; split; [done|]; split; [lia|done]|].
  assert (∃ stop, (if (level + 2 <? kNumLevels)%nat
      then overlaps ← GetOverlappingInputs icmp v (level + 2) (Some (InternalKey_new sm kMaxSequenceNumber kValueTypeForSeek))
             (Some (InternalKey_new lg 0 kTypeDeletion)); Some (MaxGrandParentOverlapBytes max <? TotalFileSize overlaps)
      else Some false) = Some stop) as (stop & ->).
  { destruct (_ <? _)%nat; [|by exists false].
    destruct (overlapping_inputs_spec v (level + 2) (Some (InternalKey_new sm kMaxSequenceNumber kValueTypeForSeek)) (Some (InternalKey_new lg 0 kTypeDeletion)))
      as (a' & b' & -> & _); [apply (proj1 Hv)| | |by eexists].
    - intros x Hx. apply (inj Some) in Hx as <-. by rewrite user_key_new.
    - intros x Hx. apply (inj Some) in Hx as <-. by rewrite user_key_new. }
  cbn [mbind option_bind]. destruct stop; [exists level; split; [done|]; split; [lia|done]|].
  destruct (IH (level + 1)%nat) as (L & HL & Hr & HnoL); [|exists L; split; [done|]; split; [lia|done]].
  intros l f Hl Hf Hov. destruct (decide (l = level + 1)%nat) as [->|Hne]; [|apply (Hno l f); [lia|done|done]].
  assert (OverlapInLevel icmp v (level + 1) (Some sm) (Some lg) = true); [|congruence]. apply OverlapInLevel_spec; [done..|]. by exists f.
Qed.
End search_proofs.

(** ** Claims *)

Section version_claims.
Context {C : Type} `{!Comparator C} {uvalid : list byte → Prop} `{!ComparatorLaws C uvalid} (icmp : InternalKeyComparator C).

(** The binary overlap test is exact.  On disjoint sorted files it returns
    what the linear test returns, true exactly when some file's user-key range
    meets the given range, whose ends may be open. *)
Theorem overlap_search (files : list File) (a b : option (list byte)) :
  level_sorted (uvalid := uvalid) icmp files → opt_valid (uvalid := uvalid) a → opt_valid (uvalid := uvalid) b →
  SomeFileOverlapsRange icmp true files a b = SomeFileOverlapsRange icmp false files a b ∧
  (SomeFileOverlapsRange icmp true files a b = true ↔ ∃ f, f ∈ files ∧ overlaps icmp a b f).
Proof.
  intros Hls Ha Hb. pose proof (range_search icmp files a b Hls Ha Hb) as H1. pose proof (some_overlap_spec icmp files a b) as H2.
  change (SomeFileOverlapsRange icmp false files a b) with (some_overlap icmp files a b). split; [|done].
  destruct (SomeFileOverlapsRange icmp true files a b), (some_overlap icmp files a b); try done; [symmetry; tauto|tauto].
Qed.

(** C29: The inputs of a compaction are complete.  Collecting the files of a level
    that overlap a range ends, also in level 0 where the range grows and the
    scan restarts.  The result has every file that overlaps the range; above
    level 0 it has no other file; in level 0 it is closed: a file that shares a
    user key with a selected file is selected. *)
Theorem overlapping_inputs_complete (v : Version) level (begin end_ : option InternalKey) :
  let a := InternalKey_user_key <$> begin in
  let b := InternalKey_user_key <$> end_ in
  Forall (file_ok (uvalid := uvalid) icmp) (level_files v level) → opt_valid (uvalid := uvalid) a → opt_valid (uvalid := uvalid) b →
  ∃ inputs, GetOverlappingInputs icmp v level begin end_ = Some inputs ∧ inputs `sublist_of` level_files v level ∧
    (∀ f, f ∈ level_files v level → overlaps icmp a b f → f ∈ inputs) ∧
    (level ≠ 0%nat → ∀ f, f ∈ inputs → overlaps icmp a b f) ∧
    (level = 0%nat → ∀ f g, f ∈ inputs → g ∈ level_files v level → files_overlap icmp f g → g ∈ inputs).
Proof.
  intros a b Hok Ha Hb. destruct (overlapping_inputs_spec icmp v level begin end_ Hok Ha Hb) as (a' & b' & Hr & (Hg & Ha' & Hb') & Hpos & Hzero).
  eexists. split; [exact Hr|]. split; [apply sublist_filter|]. split_and!.
  - intros f Hf Ho. apply list_elem_of_filter. split; [|done]. pose proof (proj1 (Forall_forall _ _) Hok f Hf) as Hfo.
    apply Hg; [done|]. by apply (in_range_overlaps icmp a b f Hfo Ha Hb).
  - intros Hnz f [Hin Hf]%list_elem_of_filter. destruct (Hpos Hnz) as [-> ->]. pose proof (proj1 (Forall_forall _ _) Hok f Hf) as Hfo.
    by apply (in_range_overlaps icmp a b f Hfo Ha Hb).
  - intros Hz f g Hf Hgf Hov. by apply (hits_closed icmp a' b' (level_files v level) f g Hok Ha' Hb' (Hzero Hz)).
Qed.

(** A memtable's table goes to a safe level.  The level picked is at most 2;
    when it is above 0, no file of that level or of a level before it shares a
    user key with the new table, so that no older entry is searched before it. *)
Theorem pick_level_safe max (v : Version) sm lg :
  version_files_ok (uvalid := uvalid) icmp v → uvalid sm → uvalid lg →
  ∃ L, PickLevelForMemTableOutput icmp max v sm lg = Some L ∧ (L ≤ kMaxMemCompactLevel)%nat ∧
    ((0 < L)%nat → ∀ l f, (l ≤ L)%nat → f ∈ level_files v l → ¬ overlaps icmp (Some sm) (Some lg) f).
Proof.
  intros Hv Hsm Hlg. assert (opt_valid (uvalid := uvalid) (Some sm) ∧ opt_valid (uvalid := uvalid) (Some lg)) as [Ha Hb] by (split; by intros ? [= <-]).
  unfold PickLevelForMemTableOutput. destruct (OverlapInLevel icmp v 0 (Some sm) (Some lg)) eqn:Ho; [exists 0%nat; split; [done|]; split; lia|].
  destruct (pick_level_spec icmp kMaxMemCompactLevel max v sm lg 0 Hv Hsm Hlg) as (L & -> & Hr & Hno); [|exists L; split; [done|]; by split; [lia|]].
  intros l f Hl Hf Hov. assert (l = 0%nat) as -> by lia.
  assert (OverlapInLevel icmp v 0 (Some sm) (Some lg) = true); [|congruence]. apply OverlapInLevel_spec; [done..|]. by exists f.
Qed.

(** C8: A version finds the newest entry.  Let every table of the version answer
    lookups exactly.  If some file holds an entry of the user key not newer than
    the snapshot, [Get] returns what the newest such entry of the whole version
    says: its value, or not found for a deletion; if there is none, it returns
    not found.  Level 0 is searched from the newest file, and in the other levels
    only the one file the binary search picks is read. *)
Theorem version_get (contents : File → list kv) (v : Version) (table_get : File → list byte → option (Status * option kv)) u s value :
  version_ok (uvalid := uvalid) icmp contents v →
  (∀ a b, uvalid a → uvalid b → Compare (user_comparator_ icmp) a b = 0 → a = b) → uvalid u →
  (∀ level f, f ∈ level_files v level → reads_table icmp contents table_get u s f) →
  (∀ level f e p, newest_visible icmp contents v u s level f e → ParseInternalKey e.1 = Some p →
     ∃ stats, Version_Get icmp table_get v (LookupKey_new u s) value =
       Some (match type p with kTypeValue => (Status_OK, e.2) | kTypeDeletion => (NotFound [], value) end, stats)) ∧
  ((∀ level f e, f ∈ level_files v level → e ∈ contents f → ¬ visible icmp u s e) →
     ∃ stats, Version_Get icmp table_get v (LookupKey_new u s) value = Some (NotFound [], value, stats)).
Proof.
  intros Hv Hinj Hu Hget. split.
  - intros level f e p Hn Hp. by apply (get_newest icmp contents v Hv Hinj table_get u s Hu Hget level f e p).
  - intros Hnone. by apply (get_nothing icmp contents v Hv Hinj table_get u s Hu Hget).
Qed.
End version_claims.

(** ** Instances *)

Definition version_icmp : InternalKeyComparator BytewiseComparatorImpl := {| user_comparator_ := BytewiseComparator |}.

Definition version_key (u : list byte) (s : Z) : list byte := rep_ (InternalKey_new u s kTypeValue).

Definition version_file (n : nat) (a b : list byte) (s : Z) : File :=
  {| f_ptr := n; f_meta := {| number := Z.of_nat n; file_size := 100; smallest := InternalKey_new a s kTypeValue; largest := InternalKey_new b s kTypeValue |} |}.

(** Two level-0 files and a level-1 file. *)
Definition version_example : Version :=
  {| files_ := [[version_file 5 (str "a") (str "k") 9; version_file 4 (str "c") (str "k") 5]; [version_file 2 (str "b") (str "k") 3]; []; []; []; []; []];
     file_to_compact_ := None; file_to_compact_level_ := -1; compaction_score_ := double_of_Z (-1); compaction_level_ := -1 |}.

Definition version_contents (f : File) : list kv :=
  [(rep_ (smallest f), str "x"); (rep_ (largest f), EncodeFixed32 (number f))].

Definition version_table_get (f : File) (k : list byte) : option (Status * option kv) :=
  Some (Status_OK, version_contents f !! lower_bound (Compare version_icmp) k (version_contents f)).

Lemma version_example_level level f : f ∈ level_files version_example level →
  level = 0%nat ∧ f = version_file 5 (str "a") (str "k") 9 ∨ level = 0%nat ∧ f = version_file 4 (str "c") (str "k") 5 ∨
  level = 1%nat ∧ f = version_file 2 (str "b") (str "k") 3.
Proof.
  intros Hf. unfold level_files in Hf. cbn [version_example files_] in Hf.
  do 7 (destruct level as [|level]; [cbn in Hf; rewrite ?elem_of_cons in Hf; destruct_or? Hf; subst; try tauto; try (by apply not_elem_of_nil in Hf)|]).
  cbn in Hf. by apply not_elem_of_nil in Hf.
Qed.

Ltac version_cases :=
  repeat match goal with
  | H : _ ∈ level_files version_example _ |- _ => apply version_example_level in H; destruct H as [[??]|[[??]|[??]]]; simplify_eq
  | H : _ ∈ version_contents _ |- _ => unfold version_contents in H; rewrite !elem_of_cons in H; destruct H as [->|[->|[]%not_elem_of_nil]]
  end.

Lemma version_example_files : version_files_ok (uvalid := λ _, True) version_icmp version_example.
Proof.
  assert (∀ level f, f ∈ level_files version_example level → file_ok (uvalid := λ _, True) version_icmp f) as Hok.
  { intros level f Hf. version_cases; split; try (vm_compute; discriminate); split; first [done|apply Nat.leb_le; reflexivity]. }
  split; [intros level; by apply Forall_forall, Hok|]. intros level Hl. split; [by apply Forall_forall, Hok|].
  unfold level_files. do 7 (destruct level as [|level]; [first [lia|repeat constructor]|]). constructor.
Qed.

Lemma version_example_ok : version_ok (uvalid := λ _, True) version_icmp version_contents version_example.
Proof.
  destruct version_example_files as [Hok Hs]. split.
  - intros level f Hf. split; [|by apply (proj1 (Forall_forall _ _) (Hok level))]. version_cases; split.
    all: try (eexists; split; reflexivity).
    all: try (repeat constructor).
    all: apply Nat.leb_le; reflexivity.
  - intros level f e Hf He. version_cases; by eexists.
  - done.
  - cbn. apply NoDup_cons. split; [|apply NoDup_singleton]. intros H%list_elem_of_singleton. discriminate.
  - intros f g a b Hf Hg Hn Ha Hb Hu. version_cases; vm_compute in Hn, Hu; first [discriminate|reflexivity].
  - intros i j f g a b Hij Hf Hg Ha Hb Hu. version_cases; first [lia|vm_compute in Hu; first [discriminate|reflexivity]].
Qed.

Lemma overlap_search_witness :
  SomeFileOverlapsRange version_icmp true (level_files version_example 1) (Some (str "c")) (Some (str "d")) =
    SomeFileOverlapsRange version_icmp false (level_files version_example 1) (Some (str "c")) (Some (str "d")).
Proof.
  refine (proj1 (overlap_search (uvalid := λ _, True) version_icmp _ _ _ _ _ _)); [apply version_example_files; lia|done..].
Defined.

Lemma overlapping_inputs_complete_witness : ∃ inputs,
  GetOverlappingInputs version_icmp version_example 0 (Some (InternalKey_new (str "a") 9 kTypeValue)) (Some (InternalKey_new (str "b") 9 kTypeValue)) = Some inputs ∧
  inputs = level_files version_example 0.
Proof.
  destruct (overlapping_inputs_complete (uvalid := λ _, True) version_icmp version_example 0 (Some (InternalKey_new (str "a") 9 kTypeValue))
    (Some (InternalKey_new (str "b") 9 kTypeValue)) (proj1 version_example_files 0%nat) (λ _ _, I) (λ _ _, I)) as (inputs & Hi & _).
  exists inputs. split; [done|]. apply (inj Some). rewrite <- Hi. vm_compute. reflexivity.
Defined.

Lemma pick_level_safe_witness :
  ∃ L, PickLevelForMemTableOutput version_icmp 2097152 version_example (str "x") (str "z") = Some L ∧ L = 2%nat.
Proof.
  destruct (pick_level_safe (uvalid := λ _, True) version_icmp 2097152 version_example (str "x") (str "z") version_example_files I I) as (L & HL & _).
  exists L. split; [done|]. apply (inj Some). rewrite <- HL. vm_compute. reflexivity.
Defined.

Lemma version_get_witness : ∃ stats,
  Version_Get version_icmp version_table_get version_example (LookupKey_new (str "k") 6) [] = Some (Status_OK, EncodeFixed32 4, stats).
Proof.
  pose (f := version_file 4 (str "c") (str "k") 5).
  apply (proj1 (version_get (uvalid := λ _, True) version_icmp version_contents version_example version_table_get (str "k") 6 []
    version_example_ok (λ a b _ _, slice_compare_eq a b) I (λ level f _, ltac:(eexists; split; [done|]; split; [by right|done]))) 0%nat f
    (version_key (str "k") 5, EncodeFixed32 4) {| user_key := str "k"; sequence := 5; type := kTypeValue |}); [|reflexivity].
  split; [right; left|]. split; [right; left|]. split; [split; [reflexivity|vm_compute; discriminate]|].
  intros level g e Hg He [Hu Hk]. version_cases; vm_compute in Hu, Hk |- *; try discriminate; try (by contradiction Hk).
Defined.
