(* ===== verification/VersionBuilder.v ===== *)
(** Building a version from a base version and edits (db/version_set.cc, class
    [VersionSet::Builder]), with the reference counts of the file objects. *)
From stdpp Require Import sorting gmap.
From S2P Require Import Prelude Coding Double Env Comparator DbFormat VersionEdit Version.

(** ** File objects *)

Definition s32 (z : Z) : Z := if u32 z <? 2 ^ 31 then u32 z else u32 z - 2 ^ 32.

Definition add_refs (n : Z) (o : FileCounts) : FileCounts := {| refs := refs o + n; allowed_seeks := allowed_seeks o |}.

Definition file_Ref (f : File) (h : FileHeap) : option FileHeap :=
  o ← h !! f_ptr f; Some (<[f_ptr f := add_refs 1 o]> h).

(** [f->refs--; if (f->refs <= 0) delete f;] *)
Definition file_Unref (f : File) (h : FileHeap) : option FileHeap :=
  o ← h !! f_ptr f;
  Some (if refs o - 1 <=? 0 then delete (f_ptr f) h else <[f_ptr f := add_refs (-1) o]> h).

Fixpoint unref_all (fs : list File) (h : FileHeap) : option FileHeap :=
  match fs with
  | [] => Some h
  | f :: fs => h ← file_Unref f h; unref_all fs h
  end.

(** ** The builder *)

(** [added_files] is a [std::set], kept as its elements in order. *)
Record LevelState := { deleted_files : gset Z; added_files : list File }.

Record Builder := { base_ : Version; levels_ : list LevelState }.

Definition Builder_new (base : Version) : Builder :=
  {| base_ := base; levels_ := replicate kNumLevels {| deleted_files := ∅; added_files := [] |} |}.

(** An access to an array of levels; undefined out of range. *)
Definition at_level {A} (level : Z) (g : A → A) (l : list A) : option (list A) :=
  if bool_decide (0 <= level < Z.of_nat (length l)) then Some (alter g (Z.to_nat level) l) else None.

Section builder.
Context {C : Type} `{!Comparator C} (icmp : InternalKeyComparator C).
Implicit Types (f : File) (h : FileHeap).

Definition BySmallestKey (f1 f2 : FileMetaData) : bool :=
  let r := Compare icmp (InternalKey_Encode (smallest f1)) (InternalKey_Encode (smallest f2)) in
  if negb (r =? 0) then r <? 0 else number f1 <? number f2.

(** [std::set::insert]: nothing when an equivalent element is there. *)
Fixpoint fileset_insert f (l : list File) : list File :=
  match l with
  | [] => [f]
  | g :: l => if BySmallestKey f g then f :: g :: l else if BySmallestKey g f then g :: fileset_insert f l else g :: l
  end.

(** One seek per 16 KB, at least 100. *)
Definition seek_budget (size : Z) : Z :=
  let a := s32 (size / 16384) in if a <? 100 then 100 else a.

Definition apply_pointer (x : Z * InternalKey) (cp : list (list byte)) : option (list (list byte)) :=
  at_level x.1 (λ _, InternalKey_Encode x.2) cp.

Definition apply_deleted (x : Z * Z) (levels : list LevelState) : option (list LevelState) :=
  at_level x.1 (λ s, {| deleted_files := {[x.2]} ∪ deleted_files s; added_files := added_files s |}) levels.

Definition apply_new (x : Z * FileMetaData) (st : list LevelState * FileHeap) : option (list LevelState * FileHeap) :=
  let '(levels, h) := st in
  let f := {| f_ptr := fresh (dom h); f_meta := x.2 |} in
  let h := <[f_ptr f := {| refs := 1; allowed_seeks := seek_budget (file_size f) |}]> h in
  levels ← at_level x.1 (λ s, {| deleted_files := deleted_files s ∖ {[number f]};
                                 added_files := fileset_insert f (added_files s) |}) levels;
  Some (levels, h).

Fixpoint fold_opt {A B} (g : A → B → option B) (l : list A) (b : B) : option B :=
  match l with
  | [] => Some b
  | a :: l => b ← g a b; fold_opt g l b
  end.

(** [compact_pointer_] of the version set changes too. *)
Definition Builder_Apply (edit : VersionEdit) (b : Builder) (cp : list (list byte)) h
    : option (Builder * list (list byte) * FileHeap) :=
  cp ← fold_opt apply_pointer (compact_pointers_ edit) cp;
  levels ← fold_opt apply_deleted (deleted_files_ edit) (levels_ b);
  '(levels, h) ← fold_opt apply_new (new_files_ edit) (levels, h);
  Some ({| base_ := base_ b; levels_ := levels |}, cp, h).

(** [std::upper_bound] on a sorted range: the first file after [f]. *)
Fixpoint upper_bound f (l : list File) : nat :=
  match l with
  | [] => 0
  | g :: l => if BySmallestKey f g then 0 else S (upper_bound f l)
  end.

(** The files of a level of the new version so far, and the heap; [None] when
    the assertion fails. *)
Definition MaybeAddFile (level : nat) (deleted : gset Z) f (st : list File * FileHeap) : option (list File * FileHeap) :=
  let '(files, h) := st in
  if bool_decide (number f ∈ deleted) then Some (files, h) else
  if (0 <? level)%nat && (match last files with
                          | Some g => negb (Compare icmp (InternalKey_Encode (largest g)) (InternalKey_Encode (smallest f)) <? 0)
                          | None => false
                          end)
  then None
  else h ← file_Ref f h; Some (files ++ [f], h).

Fixpoint save_added (level : nat) (deleted : gset Z) (added base : list File) (st : list File * FileHeap)
    : option (list File * FileHeap) :=
  match added with
  | [] => fold_opt (MaybeAddFile level deleted) base st
  | f :: added =>
      let n := upper_bound f base in
      st ← fold_opt (MaybeAddFile level deleted) (take n base) st;
      st ← MaybeAddFile level deleted f st;
      save_added level deleted added (drop n base) st
  end.

(** The check of debug builds. *)
Fixpoint ranges_disjoint (files : list File) : bool :=
  match files with
  | f :: (g :: _) as files =>
      (Compare icmp (InternalKey_Encode (largest f)) (InternalKey_Encode (smallest g)) <? 0) && ranges_disjoint files
  | _ => true
  end.

Definition save_level (level : nat) (s : LevelState) (base : list File) h : option (list File * FileHeap) :=
  '(files, h) ← save_added level (deleted_files s) (added_files s) base ([], h);
  if (0 <? level)%nat && negb (ranges_disjoint files) then None else Some (files, h).

Fixpoint save_levels (level : nat) (levels : list LevelState) (v : Version) h : option (list (list File) * FileHeap) :=
  match levels with
  | [] => Some ([], h)
  | s :: levels =>
      '(files, h) ← save_level level s (level_files v level) h;
      '(rest, h) ← save_levels (level + 1) levels v h;
      Some (files :: rest, h)
  end.

(** A version as its constructor makes it. *)
Definition Version_new : Version :=
  {| files_ := replicate kNumLevels []; file_to_compact_ := None; file_to_compact_level_ := -1;
     compaction_score_ := double_of_Z (-1); compaction_level_ := -1 |}.

(** [SaveTo] fills a new version. *)
Definition Builder_SaveTo (b : Builder) h : option (Version * FileHeap) :=
  '(files, h) ← save_levels 0 (levels_ b) (base_ b) h;
  Some ({| files_ := files; file_to_compact_ := None; file_to_compact_level_ := -1;
           compaction_score_ := double_of_Z (-1); compaction_level_ := -1 |}, h).

(** The references of the added files are dropped. *)
Definition Builder_delete (b : Builder) h : option FileHeap :=
  unref_all (mjoin (added_files <$> levels_ b)) h.

(** Edits applied to a version, as [LogAndApply] does with one edit and [Recover]
    with all of a descriptor. *)
Definition apply_edits (edits : list VersionEdit) (st : Builder * list (list byte) * FileHeap) : option (Builder * list (list byte) * FileHeap) :=
  fold_opt (λ e '(b, cp, h), Builder_Apply e b cp h) edits st.
End builder.

(** ** The order of the files *)

Section builder_proofs.
Context {C : Type} `{!Comparator C} {uvalid : list byte → Prop} `{!ComparatorLaws C uvalid} (icmp : InternalKeyComparator C).
Notation valid := (valid_key uvalid).
Notation by_smallest := (λ f g : File, BySmallestKey icmp f g = true).
Implicit Types (f g : File) (files added base : list File) (h : FileHeap).

Definition has_small f : Prop := valid (rep_ (smallest f)).

Lemma bsk_spec (f g : FileMetaData) : BySmallestKey icmp f g = true ↔
  Compare icmp (rep_ (smallest f)) (rep_ (smallest g)) < 0 ∨
  Compare icmp (rep_ (smallest f)) (rep_ (smallest g)) = 0 ∧ number f < number g.
Proof.
  unfold BySmallestKey, InternalKey_Encode. destruct (Z.eqb_spec (Compare icmp (rep_ (smallest f)) (rep_ (smallest g))) 0) as [E|E]; cbn [negb].
  - rewrite Z.ltb_lt. lia.
  - rewrite Z.ltb_lt. lia.
Qed.

Lemma bsk_trans f g k : has_small f → has_small g → has_small k → by_smallest f g → by_smallest g k → by_smallest f k.
Proof.
  intros Hf Hg Hk H1%bsk_spec H2%bsk_spec. apply bsk_spec.
  pose proof (compare_trans icmp _ _ _ Hf Hg Hk) as Ht. pose proof (compare_trans icmp _ _ _ Hk Hg Hf) as Ht'.
  pose proof (compare_sym icmp _ _ Hf Hg). pose proof (compare_sym icmp _ _ Hg Hk). pose proof (compare_sym icmp _ _ Hf Hk).
  destruct H1 as [H1|[H1 N1]], H2 as [H2|[H2 N2]].
  - left. by apply (compare_lt_le_trans icmp _ _ _ Hf Hg Hk); [|lia].
  - left. by apply (compare_lt_le_trans icmp _ _ _ Hf Hg Hk); [|lia].
  - left. apply (compare_le_lt_trans icmp _ _ _ Hf Hg Hk); [lia|done].
  - right. split; [|lia]. specialize (Ht ltac:(lia) ltac:(lia)). specialize (Ht' ltac:(lia) ltac:(lia)). lia.
Qed.

Lemma bsk_total f g : has_small f → has_small g → number f ≠ number g → by_smallest f g ∨ by_smallest g f.
Proof.
  intros Hf Hg Hn. pose proof (compare_sym icmp _ _ Hf Hg).
  destruct (Z.lt_trichotomy (Compare icmp (rep_ (smallest f)) (rep_ (smallest g))) 0) as [|[|]];
    [left; apply bsk_spec; by left| |right; apply bsk_spec; left; lia].
  destruct (Z.lt_trichotomy (number f) (number g)) as [|[|]]; [left|done|right]; apply bsk_spec; right; lia.
Qed.

Lemma bsk_asym f g : has_small f → has_small g → by_smallest f g → ¬ by_smallest g f.
Proof. intros Hf Hg H1%bsk_spec H2%bsk_spec. pose proof (compare_sym icmp _ _ Hf Hg). lia. Qed.

Notation numbers files := (number ∘ f_meta <$> files).

(** ** Insertion into the set *)

Lemma fileset_insert_perm f files : has_small f → Forall has_small files → number f ∉ numbers files →
  fileset_insert icmp f files ≡ₚ f :: files.
Proof.
  intros Hf. induction files as [|g files IH]; intros Hs Hn; cbn; [done|].
  apply Forall_cons in Hs as [Hg Hs]. cbn in Hn. apply not_elem_of_cons in Hn as [Hng Hn].
  destruct (BySmallestKey icmp f g) eqn:E1; [done|]. destruct (BySmallestKey icmp g f) eqn:E2.
  - rewrite IH by done. constructor.
  - destruct (bsk_total f g Hf Hg Hng); congruence.
Qed.

Lemma fileset_insert_sorted f files : has_small f → Forall has_small files → number f ∉ numbers files →
  StronglySorted by_smallest files → StronglySorted by_smallest (fileset_insert icmp f files).
Proof.
  intros Hf. induction files as [|g files IH]; intros Hs Hn Hso; cbn; [by repeat constructor|].
  apply Forall_cons in Hs as [Hg Hs]. cbn in Hn. apply not_elem_of_cons in Hn as [Hng Hn]. apply StronglySorted_inv in Hso as [Hso Hall].
  destruct (BySmallestKey icmp f g) eqn:E1; [|destruct (BySmallestKey icmp g f) eqn:E2].
  - constructor; [by constructor|]. constructor; [done|]. apply Forall_forall. intros k Hk.
    apply (bsk_trans f g k); [done|done|by apply (proj1 (Forall_forall _ _) Hs)|done|by apply (proj1 (Forall_forall _ _) Hall)].
  - constructor; [by apply IH|]. rewrite fileset_insert_perm by done. by constructor.
  - destruct (bsk_total f g Hf Hg Hng); congruence.
Qed.

(** ** Merging the base files with the added ones *)

Fixpoint merged added base : list File :=
  match added with
  | [] => base
  | f :: added => let n := upper_bound icmp f base in take n base ++ f :: merged added (drop n base)
  end.

Lemma merged_perm added base : merged added base ≡ₚ added ++ base.
Proof.
  revert base; induction added as [|f added IH]; intros base; cbn; [done|].
  rewrite IH, <- Permutation_middle. constructor. rewrite (app_assoc _ added), (Permutation_app_comm _ added), <- app_assoc.
  by rewrite take_drop.
Qed.

(** The base files before the bound are smaller, the others greater. *)
Lemma upper_bound_split f base : has_small f → Forall has_small base → StronglySorted by_smallest base → number f ∉ numbers base →
  Forall (λ g, by_smallest g f) (take (upper_bound icmp f base) base) ∧ Forall (λ g, by_smallest f g) (drop (upper_bound icmp f base) base).
Proof.
  intros Hf. induction base as [|g base IH]; intros Hs Hso Hn; cbn [upper_bound]; [by split; constructor|].
  apply Forall_cons in Hs as [Hg Hs]. cbn in Hn. apply not_elem_of_cons in Hn as [Hng Hn]. apply StronglySorted_inv in Hso as [Hso Hall].
  destruct (BySmallestKey icmp f g) eqn:E1.
  - split; [constructor|]. rewrite drop_0. constructor; [done|]. apply Forall_forall. intros k Hk.
    apply (bsk_trans f g k); [done|done|by apply (proj1 (Forall_forall _ _) Hs)|done|by apply (proj1 (Forall_forall _ _) Hall)].
  - destruct (IH Hs Hso Hn) as [H1 H2]. cbn [take drop]. split; [|done]. constructor; [|done].
    destruct (bsk_total f g Hf Hg Hng); congruence.
Qed.

Lemma merged_sorted added base : Forall has_small added → Forall has_small base → NoDup (numbers (added ++ base)) →
  StronglySorted by_smallest added → StronglySorted by_smallest base → StronglySorted by_smallest (merged added base).
Proof.
  revert base; induction added as [|f added IH]; intros base Ha Hb Hnd Hsa Hsb; cbn [merged]; [done|].
  apply Forall_cons in Ha as [Hf Ha]. apply StronglySorted_inv in Hsa as [Hsa Hfa]. rewrite fmap_app in Hnd. cbn in Hnd.
  apply NoDup_cons in Hnd as [Hnf Hnd]. apply not_elem_of_app in Hnf as [Hnfa Hnfb].
  destruct (upper_bound_split f base Hf Hb Hsb Hnfb) as [Hlo Hhi]. set (n := upper_bound icmp f base) in *.
  rewrite <- (take_drop n base) in Hsb, Hb, Hnd. apply Forall_app in Hb as [Hb1 Hb2]. apply StronglySorted_app in Hsb as (Hx & Hs1 & Hs2).
  rewrite fmap_app, (app_assoc _ (numbers (take n base))) in Hnd.
  assert (StronglySorted by_smallest (f :: merged added (drop n base))) as Hrest.
  { constructor.
    - apply IH; try done. rewrite fmap_app. apply NoDup_app in Hnd as (H1 & H2 & H3). apply NoDup_app in H1 as (H1 & _ & _).
      apply NoDup_app. split; [done|]. split; [|done]. intros x Hxa. apply H2. apply elem_of_app. by left.
    - rewrite merged_perm. by apply Forall_app. }
  apply StronglySorted_app. split; [|done]. intros a b Hin Hin'. pose proof (proj1 (Forall_forall _ _) Hlo a Hin) as Haf.
  assert (has_small a) as Hsa' by (by apply (proj1 (Forall_forall _ _) Hb1)).
  apply elem_of_cons in Hin' as [->|Hin']; [done|]. pose proof Hin' as Hin2. rewrite merged_perm in Hin'.
  assert (has_small b) by (apply elem_of_app in Hin' as [?|?]; [by apply (proj1 (Forall_forall _ _) Ha)|by apply (proj1 (Forall_forall _ _) Hb2)]).
  apply (bsk_trans a f b); [done..|]. apply StronglySorted_inv in Hrest as [_ Hrest]. by apply (proj1 (Forall_forall _ _) Hrest).
Qed.

(** ** The files kept *)

Notation kept D := (filter (λ f : File, number f ∉ D)).
Notation disjoint := (λ f g : File, Compare icmp (rep_ (largest f)) (rep_ (smallest g)) < 0).

Lemma fold_opt_app {A B} (op : A → B → option B) l k b : fold_opt op (l ++ k) b = fold_opt op l b ≫= fold_opt op k.
Proof. revert b; induction l as [|a l IH]; intros b; cbn; [done|]. destruct (op a b); cbn; [apply IH|done]. Qed.

Lemma save_added_merged level D added base st :
  save_added icmp level D added base st = fold_opt (MaybeAddFile icmp level D) (merged added base) st.
Proof.
  revert base st; induction added as [|f added IH]; intros base st; cbn [save_added merged]; [done|].
  rewrite fold_opt_app. destruct (fold_opt _ (take _ base) st) as [st'|]; cbn; [|done]. destruct (MaybeAddFile _ _ _ f st'); cbn; [apply IH|done].
Qed.

(** References taken for a list of files. *)
Definition ref_all files h : FileHeap := foldl (λ h f, alter (add_refs 1) (f_ptr f) h) h files.

Definition live files h : Prop := ∀ f, f ∈ files → is_Some (h !! f_ptr f).

Lemma ref_all_dom files h : (dom (ref_all files h) : gset nat) = dom h.
Proof.
  unfold ref_all. revert h; induction files as [|f files IH]; intros h; cbn [foldl]; [done|]. rewrite IH. apply dom_alter_L.
Qed.

Lemma live_dom files h h' : (dom h : gset nat) = dom h' → live files h → live files h'.
Proof. intros Hd Hl f Hf. apply (elem_of_dom (D := gset nat)). rewrite <- Hd. apply elem_of_dom. by apply Hl. Qed.

Lemma maybe_add_kept level D f files h : number f ∉ D → is_Some (h !! f_ptr f) →
  ((0 < level)%nat → ∀ g, g ∈ files → disjoint g f) →
  MaybeAddFile icmp level D f (files, h) = Some (files ++ [f], alter (add_refs 1) (f_ptr f) h).
Proof.
  intros Hout [o Ho] Hd. unfold MaybeAddFile. rewrite bool_decide_false by done.
  assert ((0 <? level)%nat && match last files with Some g => negb (Compare icmp (InternalKey_Encode (largest g)) (InternalKey_Encode (smallest f)) <? 0) | None => false end = false) as ->.
  { destruct (Nat.ltb_spec 0 level) as [Hlev|]; [|done]. cbn [andb]. destruct (last files) as [g|] eqn:Hg; [|done].
    apply negb_false_iff, Z.ltb_lt. apply (Hd Hlev g). by apply last_Some_elem_of. }
  unfold file_Ref. rewrite Ho. cbn [mbind option_bind]. do 2 f_equal.
  apply map_eq. intros p. destruct (decide (p = f_ptr f)) as [->|]; [by rewrite lookup_insert_eq, lookup_alter_eq, Ho|].
  by rewrite lookup_insert_ne, lookup_alter_ne by done.
Qed.

Lemma maybe_all_spec level D l files h :
  ((0 < level)%nat → StronglySorted disjoint (files ++ kept D l)) → live l h →
  fold_opt (MaybeAddFile icmp level D) l (files, h) = Some (files ++ kept D l, ref_all (kept D l) h).
Proof.
  revert files h; induction l as [|f l IH]; intros files h Hs Hl; cbn [fold_opt]; [by rewrite app_nil_r|].
  rewrite filter_cons in *. destruct (decide (number f ∈ D)) as [Hin|Hout].
  - rewrite decide_False in * by auto. replace (MaybeAddFile icmp level D f (files, h)) with (Some (files, h)).
    2:{ unfold MaybeAddFile. by rewrite bool_decide_true. }
    cbn [mbind option_bind]. apply IH; [done|]. intros g Hg. apply Hl. by right.
  - rewrite decide_True in * by done. rewrite maybe_add_kept; [|done|apply Hl; left|].
    2:{ intros Hlev g Hg. destruct (proj1 (StronglySorted_app _ _ _) (Hs Hlev)) as (Hx & _). apply (Hx g f); [done|left]. }
    cbn [mbind option_bind]. rewrite IH.
    + by rewrite <- app_assoc.
    + by rewrite <- app_assoc.
    + apply (live_dom _ h); [by rewrite dom_alter_L|]. intros g Hg. apply Hl. by right.
Qed.

Lemma ranges_disjoint_sorted files : StronglySorted disjoint files → ranges_disjoint icmp files = true.
Proof.
  induction files as [|f [|g files] IH]; intros Hs; [done..|]. apply StronglySorted_inv in Hs as [Hs Hf].
  change (ranges_disjoint icmp (f :: g :: files)) with ((Compare icmp (rep_ (largest f)) (rep_ (smallest g)) <? 0) && ranges_disjoint icmp (g :: files)).
  rewrite IH by done. apply Forall_cons in Hf as [Hf _]. by rewrite (proj2 (Z.ltb_lt _ _) Hf).
Qed.

(** The files a level gets. *)
Definition saved (s : LevelState) base : list File := kept (deleted_files s) (merged (added_files s) base).

Lemma save_level_spec level s base h :
  ((0 < level)%nat → StronglySorted disjoint (saved s base)) → live (added_files s ++ base) h →
  save_level icmp level s base h = Some (saved s base, ref_all (saved s base) h).
Proof.
  intros Hs Hl. unfold save_level. rewrite save_added_merged, maybe_all_spec; [|done|].
  - cbn [mbind option_bind app]. destruct (Nat.ltb_spec 0 level) as [Hlev|]; [|done]. cbn [andb].
    rewrite ranges_disjoint_sorted; [done|by apply Hs].
  - intros f Hf. apply Hl. by rewrite merged_perm in Hf.
Qed.
Lemma ref_all_app l k h : ref_all (l ++ k) h = ref_all k (ref_all l h).
Proof. apply foldl_app. Qed.

Lemma save_levels_spec k levels v h :
  (∀ i s, levels !! i = Some s → ((0 < k + i)%nat → StronglySorted disjoint (saved s (level_files v (k + i)))) ∧
    live (added_files s ++ level_files v (k + i)) h) →
  let files := imap (λ i s, saved s (level_files v (k + i))) levels in
  save_levels icmp k levels v h = Some (files, ref_all (mjoin files) h).
Proof.
  revert k h; induction levels as [|s levels IH]; intros k h Hl; cbn [save_levels imap]; [done|]. cbn zeta.
  destruct (Hl 0%nat s eq_refl) as [Hs Hlive]. rewrite Nat.add_0_r in *. rewrite save_level_spec by done. cbn [mbind option_bind].
  rewrite IH.
  - cbn [mbind option_bind]. assert (imap (λ i s, saved s (level_files v (k + 1 + i))) levels =
      imap ((λ i s, saved s (level_files v (k + i))) ∘ S) levels) as ->.
    { apply imap_ext. intros i x _. unfold compose. by replace (k + S i)%nat with (k + 1 + i)%nat by lia. }
    cbn [mjoin list_join]. by rewrite ref_all_app.
  - intros i s' Hi. destruct (Hl (S i) s' Hi) as [Hs' Hl']. replace (k + 1 + i)%nat with (k + S i)%nat by lia. split; [done|].
    apply (live_dom _ h); [by rewrite ref_all_dom|done].
Qed.

(** ** The abstract effect of edits *)

(** The files of a version by level and number. *)
Notation file_map := (gmap (Z * Z) FileMetaData).
Implicit Types m : file_map.

Definition add_key (x : Z * FileMetaData) : Z * Z := (x.1, number x.2).

Definition spec_edit (e : VersionEdit) m : file_map :=
  foldl (λ m x, <[add_key x := x.2]> m) (foldl (λ m k, delete k m) m (deleted_files_ e)) (new_files_ e).

Record version_maps (v : Version) m : Prop := {
  vm_levels : length (files_ v) = kNumLevels;
  vm_iff (l : nat) n x : m !! (Z.of_nat l, n) = Some x ↔ ∃ f, f ∈ level_files v l ∧ number f = n ∧ f_meta f = x;
  vm_range l n : is_Some (m !! (l, n)) → 0 <= l;
  vm_nodup l : NoDup (numbers (level_files v l));
  vm_sorted l : StronglySorted by_smallest (level_files v l);
  vm_small l : Forall has_small (level_files v l);
}.

(** What the builder holds, for the map [m] of the edits applied so far. *)
Record level_building (s : LevelState) base (l : nat) m : Prop := {
  lb_sorted : StronglySorted by_smallest (added_files s);
  lb_small : Forall has_small (added_files s);
  lb_nodup : NoDup (numbers (added_files s ++ base));
  lb_iff n x : m !! (Z.of_nat l, n) = Some x ↔ n ∉ deleted_files s ∧ ∃ f, f ∈ added_files s ++ base ∧ number f = n ∧ f_meta f = x;
}.

Record building (b : Builder) m : Prop := {
  bd_levels : length (levels_ b) = kNumLevels;
  bd_range l n : is_Some (m !! (l, n)) → 0 <= l < Z.of_nat kNumLevels;
  bd_level l s : levels_ b !! l = Some s → level_building s (level_files (base_ b) l) l m;
}.

Lemma building_new (base : Version) m : version_maps base m → building (Builder_new base) m.
Proof.
  intros Hv. split.
  - apply length_replicate.
  - intros l n [x Hx]. assert (0 <= l) as Hl by (apply (vm_range _ _ Hv l n); by exists x). split; [done|].
    rewrite <- (Z2Nat.id l) in Hx by done. apply (vm_iff _ _ Hv) in Hx as (f & Hf & _). unfold level_files in Hf.
    destruct (files_ base !! Z.to_nat l) as [files|] eqn:E; [|by apply not_elem_of_nil in Hf].
    apply lookup_lt_Some in E. rewrite (vm_levels _ _ Hv) in E. lia.
  - intros l s [-> _]%lookup_replicate. split; cbn; [constructor|constructor|apply (vm_nodup _ _ Hv)|].
    intros n x. rewrite (vm_iff _ _ Hv). set_solver.
Qed.

Definition set_level (b : Builder) (levels : list LevelState) : Builder := {| base_ := base_ b; levels_ := levels |}.

Lemma at_level_ok {A} level (g : A → A) l : 0 <= level < Z.of_nat (length l) → at_level level g l = Some (alter g (Z.to_nat level) l).
Proof. intros H. unfold at_level. by rewrite bool_decide_true. Qed.

Lemma building_deleted b m x : building b m → level_ok x.1 →
  ∃ levels, apply_deleted x (levels_ b) = Some levels ∧ building (set_level b levels) (delete x m) ∧ added_files <$> levels = added_files <$> levels_ b.
Proof.
  intros Hb Hl. destruct x as [lev n0]. cbn [fst snd] in *. unfold level_ok in Hl. unfold apply_deleted. cbn [fst snd].
  rewrite at_level_ok by (rewrite (bd_levels _ _ Hb); lia). eexists. split; [done|]. split.
  2:{ apply list_eq. intros i. rewrite !list_lookup_fmap. destruct (decide (i = Z.to_nat lev)) as [->|];
      [rewrite list_lookup_alter_eq|by rewrite list_lookup_alter_ne by done]. by destruct (levels_ b !! _). }
  split; cbn [levels_ base_ set_level].
  - rewrite length_alter. apply Hb.
  - intros l n [y Hy]. apply lookup_delete_Some in Hy as [_ Hy]. apply (bd_range _ _ Hb l n). by exists y.
  - intros l s Hs. destruct (decide (l = Z.to_nat lev)) as [->|Hne].
    + rewrite list_lookup_alter_eq in Hs. apply fmap_Some in Hs as (s0 & Hs0 & ->). destruct (bd_level _ _ Hb _ _ Hs0) as [H1 H2 H3 H4].
      split; cbn [added_files deleted_files]; [done..|]. intros n x. rewrite Z2Nat.id by lia. rewrite lookup_delete_Some.
      specialize (H4 n x). rewrite Z2Nat.id in H4 by lia. rewrite H4, not_elem_of_union, not_elem_of_singleton.
      split; [intros (Hne & Hd & He); split; [split; [congruence|done]|done]|].
      intros ([Hne Hd] & He). split; [congruence|done].
    + rewrite list_lookup_alter_ne in Hs by done. destruct (bd_level _ _ Hb _ _ Hs) as [H1 H2 H3 H4].
      split; [done..|]. intros n x. rewrite lookup_delete_ne; [apply H4|]. intros [= He _]. lia.
Qed.

Lemma building_deletions b m l : building b m → Forall (λ x, level_ok x.1) l →
  ∃ levels, fold_opt apply_deleted l (levels_ b) = Some levels ∧ building (set_level b levels) (foldl (λ m k, delete k m) m l) ∧
    added_files <$> levels = added_files <$> levels_ b.
Proof.
  revert b m; induction l as [|x l IH]; intros b m Hb Hl; cbn [fold_opt foldl]; [exists (levels_ b); by destruct b|].
  apply Forall_cons in Hl as [Hx Hl]. destruct (building_deleted b m x Hb Hx) as (levels & -> & Hb' & Ha). cbn [mbind option_bind].
  destruct (IH _ _ Hb' Hl) as (levels' & Hf & Hb'' & Ha'). exists levels'. split_and!; [done..|]. by rewrite Ha'.
Qed.
(** ** Reference counts *)

(** Every object has as many references as [L] lists it, and an object that is
    not listed is freed. *)
Definition uses (p : nat) (L : list File) : Z := Z.of_nat (length (filter (λ f, f_ptr f = p) L)).

Definition counted (L : list File) h : Prop :=
  ∀ p, match h !! p with Some o => refs o = uses p L ∧ 0 < uses p L | None => uses p L = 0 end.

Lemma uses_cons p f L : uses p (f :: L) = (if decide (f_ptr f = p) then 1 else 0) + uses p L.
Proof. unfold uses. rewrite filter_cons. destruct (decide (f_ptr f = p)); cbn [length]; lia. Qed.

Lemma uses_nonneg p L : 0 <= uses p L.
Proof. unfold uses. lia. Qed.

#[export] Instance counted_proper : Proper ((≡ₚ) ==> (=) ==> iff) counted.
Proof.
  intros L L' HL h h' ->. assert (∀ p, uses p L = uses p L') as Hu by (intros p; unfold uses; by rewrite HL).
  unfold counted. split; intros H p; specialize (H p); [rewrite <- !Hu|rewrite !Hu]; done.
Qed.

Lemma counted_live L h : counted L h → live L h.
Proof.
  intros H f Hf. specialize (H (f_ptr f)). destruct (h !! f_ptr f); [by eexists|].
  apply list_elem_of_split in Hf as (l1 & l2 & ->). unfold uses in H. rewrite filter_app, filter_cons, decide_True, length_app in H by done. cbn in H. lia.
Qed.

Lemma counted_new L h f o : counted L h → h !! f_ptr f = None → refs o = 1 → counted (f :: L) (<[f_ptr f := o]> h).
Proof.
  intros H Hn Ho p. rewrite uses_cons. pose proof (H p) as Hp. destruct (decide (f_ptr f = p)) as [<-|Hne].
  - rewrite lookup_insert_eq. rewrite Hn in Hp. lia.
  - rewrite lookup_insert_ne by done. by destruct (h !! p).
Qed.

Lemma counted_ref L h f : counted L h → is_Some (h !! f_ptr f) → counted (f :: L) (alter (add_refs 1) (f_ptr f) h).
Proof.
  intros H [o Ho] p. rewrite uses_cons. pose proof (H p) as Hp. destruct (decide (f_ptr f = p)) as [<-|Hne].
  - rewrite lookup_alter_eq, Ho. rewrite Ho in Hp. cbn. lia.
  - rewrite lookup_alter_ne by done. by destruct (h !! p).
Qed.

Lemma counted_ref_all l L h : counted L h → live l h → counted (l ++ L) (ref_all l h).
Proof.
  revert L h; induction l as [|f l IH]; intros L h H Hl; [done|]. cbn [app].
  change (ref_all (f :: l) h) with (ref_all l (alter (add_refs 1) (f_ptr f) h)). rewrite Permutation_middle.
  apply IH; [apply counted_ref; [done|apply Hl; left]|]. apply (live_dom _ h); [by rewrite dom_alter_L|]. intros g Hg. apply Hl. by right.
Qed.

Lemma counted_unref L h f : counted (f :: L) h → ∃ h', file_Unref f h = Some h' ∧ counted L h'.
Proof.
  intros H. unfold file_Unref. pose proof (H (f_ptr f)) as Hf. rewrite uses_cons, decide_True in Hf by done. pose proof (uses_nonneg (f_ptr f) L).
  destruct (h !! f_ptr f) as [o|] eqn:Ho; [|lia]. cbn [mbind option_bind]. eexists. split; [done|]. intros p. specialize (H p). rewrite uses_cons in H.
  destruct (Z.leb_spec (refs o - 1) 0) as [Hz|Hz].
  - destruct (decide (f_ptr f = p)) as [<-|Hne]; [rewrite lookup_delete_eq; lia|]. by rewrite lookup_delete_ne by done.
  - destruct (decide (f_ptr f = p)) as [<-|Hne]; [rewrite lookup_insert_eq; cbn; lia|]. by rewrite lookup_insert_ne by done.
Qed.

Lemma counted_unref_all l L h : counted (l ++ L) h → ∃ h', unref_all l h = Some h' ∧ counted L h'.
Proof.
  revert h; induction l as [|f l IH]; intros h H; cbn [unref_all]; [by exists h|]. cbn [app] in H.
  destruct (counted_unref _ _ _ H) as (h1 & -> & H1). cbn [mbind option_bind]. by apply IH.
Qed.

(** ** Additions *)

Definition all_added (b : Builder) : list File := mjoin (added_files <$> levels_ b).

Lemma all_added_alter (levels : list LevelState) l s (g : LevelState → LevelState) f : levels !! l = Some s → added_files (g s) ≡ₚ f :: added_files s →
  mjoin (added_files <$> alter g l levels) ≡ₚ f :: mjoin (added_files <$> levels).
Proof.
  intros Hl Hg. rewrite <- (take_drop_middle _ _ _ Hl) at 2. rewrite <- (take_drop_middle levels l s Hl) at 1.
  assert (l = length (take l levels)) as Hlen by (rewrite length_take; apply lookup_lt_Some in Hl; lia).
  rewrite Hlen at 1. rewrite alter_app_r_alt by lia. rewrite Nat.sub_diag. cbn [alter list_alter].
  rewrite !fmap_app, !fmap_cons. rewrite !join_app. cbn [mjoin list_join]. rewrite Hg. cbn [app]. symmetry. apply Permutation_middle.
Qed.

Lemma level_building_add s base l m f :
  level_building s base l m → has_small f → (∀ g, g ∈ added_files s ++ base → number g ≠ number f) →
  level_building {| deleted_files := deleted_files s ∖ {[number f]}; added_files := fileset_insert icmp f (added_files s) |} base l
    (<[(Z.of_nat l, number f) := f_meta f]> m).
Proof.
  intros [H1 H2 H3 H4] Hf Hn. assert (number f ∉ numbers (added_files s ++ base)) as Hnf.
  { intros (g & Heq & Hg)%list_elem_of_fmap. by apply (Hn g Hg). }
  pose proof Hnf as Hnf'. rewrite fmap_app in Hnf'. apply not_elem_of_app in Hnf' as [Hna _].
  assert (fileset_insert icmp f (added_files s) ≡ₚ f :: added_files s) as Hperm by (by apply fileset_insert_perm).
  split; cbn [added_files deleted_files].
  - by apply fileset_insert_sorted.
  - rewrite Hperm. by constructor.
  - rewrite Hperm. cbn. by apply NoDup_cons.
  - intros n x. rewrite lookup_insert_Some. setoid_rewrite Hperm. cbn [app]. setoid_rewrite elem_of_cons.
    rewrite not_elem_of_difference, elem_of_singleton. split.
    + intros [[[= <-] <-]|[Hne Hx]]; [split; [by right|exists f; by split; [left|]]|].
      apply H4 in Hx as [Hd (g & Hg & Hng & Hm)]. split; [by left|]. exists g. by split; [right|].
    + intros [Hd (g & [->|Hg] & Hng & Hm)]; [left; by rewrite <- Hng, <- Hm|]. pose proof (Hn g Hg).
      right. split; [congruence|]. apply H4. split; [|by exists g]. destruct Hd as [Hd|Hd]; [done|congruence].
Qed.

Lemma building_new_file b m x L h :
  building b m → counted (all_added b ++ L) h → level_ok x.1 → valid (rep_ (smallest x.2)) →
  (∀ s f, levels_ b !! Z.to_nat x.1 = Some s → f ∈ added_files s ++ level_files (base_ b) (Z.to_nat x.1) → number f ≠ number x.2) →
  ∃ levels h', apply_new icmp x (levels_ b, h) = Some (levels, h') ∧
    building (set_level b levels) (<[add_key x := x.2]> m) ∧ counted (all_added (set_level b levels) ++ L) h' ∧
    ∀ l s' f, levels !! l = Some s' → f ∈ added_files s' →
      (∃ s, levels_ b !! l = Some s ∧ f ∈ added_files s) ∨ (l = Z.to_nat x.1 ∧ number f = number x.2).
Proof.
  intros Hb Hh Hl Hv Hn. destruct x as [lev meta]. cbn [fst snd] in *. unfold level_ok in Hl.
  set (f := {| f_ptr := fresh (dom h : gset nat); f_meta := meta |}).
  assert (h !! f_ptr f = None) as Hp. { apply (not_elem_of_dom (D := gset nat)). apply is_fresh. }
  set (g := λ s, {| deleted_files := deleted_files s ∖ {[number f]}; added_files := fileset_insert icmp f (added_files s) |}).
  destruct (lookup_lt_is_Some_2 (levels_ b) (Z.to_nat lev)) as [s Hs]; [rewrite (bd_levels _ _ Hb); lia|].
  pose proof (bd_level _ _ Hb _ _ Hs) as Hlb. pose proof (level_building_add s _ _ m f Hlb Hv (λ g Hg, Hn s g Hs Hg)) as Hadd.
  assert (fileset_insert icmp f (added_files s) ≡ₚ f :: added_files s) as Hperm.
  { apply fileset_insert_perm; [done|apply Hlb|]. intros (f' & Heq & Hf')%list_elem_of_fmap. apply (Hn s f' Hs); [apply elem_of_app; by left|done]. }
  eexists _, _. split; [unfold apply_new; cbn [fst snd]; rewrite at_level_ok by (rewrite (bd_levels _ _ Hb); lia); reflexivity|].
  fold f. change (alter _ (Z.to_nat lev) (levels_ b)) with (alter g (Z.to_nat lev) (levels_ b)). split; [|split].
  - split; cbn [levels_ base_ set_level].
    + rewrite length_alter. apply Hb.
    + intros l n [y Hy]. apply lookup_insert_Some in Hy as [[[= <- <-] _]|[_ Hy]]; [cbn; lia|]. apply (bd_range _ _ Hb l n). by exists y.
    + intros l s' Hs'. destruct (decide (l = Z.to_nat lev)) as [->|Hne].
      * rewrite list_lookup_alter_eq, Hs in Hs'. injection Hs' as <-. unfold add_key. cbn [fst snd]. rewrite <- (Z2Nat.id lev) at 3 by lia. exact Hadd.
      * rewrite list_lookup_alter_ne in Hs' by done. destruct (bd_level _ _ Hb _ _ Hs') as [K1 K2 K3 K4].
        split; [done..|]. intros n x. rewrite lookup_insert_ne; [apply K4|]. intros [= He _]. lia.
  - unfold all_added. cbn [levels_ set_level]. rewrite (all_added_alter _ _ s g f) by done. cbn [app]. by apply counted_new.
  - intros l s' f' Hs' Hf'. destruct (decide (l = Z.to_nat lev)) as [->|Hne].
    + rewrite list_lookup_alter_eq, Hs in Hs'. injection Hs' as <-. unfold g in Hf'. cbn [added_files] in Hf'.
      rewrite Hperm in Hf'. apply elem_of_cons in Hf' as [->|Hf']; [by right|left; by exists s].
    + rewrite list_lookup_alter_ne in Hs' by done. left. by exists s'.
Qed.
(** The keys of the files added so far are in [K]. *)
Definition added_keys (b : Builder) (K : list (Z * Z)) : Prop :=
  ∀ l s f, levels_ b !! l = Some s → f ∈ added_files s → (Z.of_nat l, number f) ∈ K.

Definition new_file_ok (x : Z * FileMetaData) : Prop := level_ok x.1 ∧ valid (rep_ (smallest x.2)).

(** The base version has no file of the level with the number. *)
Definition not_in_base (v : Version) (k : Z * Z) : Prop := ∀ f, f ∈ level_files v (Z.to_nat k.1) → number f ≠ k.2.

Lemma building_additions l : ∀ b m L h K,
  building b m → counted (all_added b ++ L) h → added_keys b K → Forall new_file_ok l →
  NoDup (add_key <$> l) → (∀ k, k ∈ add_key <$> l → k ∉ K ∧ not_in_base (base_ b) k) →
  ∃ levels h', fold_opt (apply_new icmp) l (levels_ b, h) = Some (levels, h') ∧
    building (set_level b levels) (foldl (λ m x, <[add_key x := x.2]> m) m l) ∧ counted (all_added (set_level b levels) ++ L) h' ∧
    added_keys (set_level b levels) ((add_key <$> l) ++ K).
Proof.
  induction l as [|x l IH]; intros b m L h K Hb Hc HK Hok Hnd Hfresh; cbn [fold_opt foldl].
  { exists (levels_ b), h. by destruct b. }
  apply Forall_cons in Hok as [[Hx1 Hx2] Hok]. cbn in Hnd. apply NoDup_cons in Hnd as [Hnx Hnd].
  destruct (Hfresh (add_key x)) as [HxK Hxb]; [cbn; left|].
  destruct (building_new_file b m x L h Hb Hc Hx1 Hx2) as (levels & h1 & -> & Hb1 & Hc1 & Hk1).
  { intros s f Hs [Hf|Hf]%elem_of_app; [|by apply Hxb]. intros Heq. apply HxK. pose proof (HK _ _ _ Hs Hf) as Hin.
    rewrite Z2Nat.id in Hin by (apply Hx1). unfold add_key. by rewrite <- Heq. }
  cbn [mbind option_bind].
  destruct (IH (set_level b levels) _ L h1 (add_key x :: K) Hb1 Hc1) as (levels2 & h2 & Hf2 & Hb2 & Hc2 & Hk2); [|done|done| |].
  - intros l' s f Hs Hf. destruct (Hk1 l' s f Hs Hf) as [(s0 & Hs0 & Hf0)|[-> Heq]]; [right; by apply (HK l' s0)|].
    unfold add_key. rewrite Heq, Z2Nat.id by (apply Hx1). left.
  - intros k Hk. destruct (Hfresh k) as [H1 H2]; [cbn; by right|]. split; [|done]. intros [->|?]%elem_of_cons; done.
  - exists levels2, h2. split_and!; try done. intros l' s f Hs Hf. specialize (Hk2 l' s f Hs Hf). cbn.
    rewrite elem_of_cons, elem_of_app. apply elem_of_app in Hk2 as [?|[?|?]%elem_of_cons]; tauto.
Qed.
(** ** A whole edit *)

Record edit_valid (e : VersionEdit) : Prop := {
  ev_pointers : Forall (λ x, level_ok x.1) (compact_pointers_ e);
  ev_deleted : Forall (λ x, level_ok x.1) (deleted_files_ e);
  ev_new : Forall new_file_ok (new_files_ e);
}.

Definition adds (e : VersionEdit) : list (Z * Z) := add_key <$> new_files_ e.

Definition spec_pointers (e : VersionEdit) (cp : list (list byte)) : list (list byte) :=
  foldl (λ cp x, <[Z.to_nat x.1 := rep_ x.2]> cp) cp (compact_pointers_ e).

Lemma apply_pointers_spec l : ∀ cp, length cp = kNumLevels → Forall (λ x, level_ok x.1) l →
  fold_opt apply_pointer l cp = Some (foldl (λ cp x, <[Z.to_nat x.1 := rep_ x.2]> cp) cp l) ∧
  length (foldl (λ cp x, <[Z.to_nat x.1 := rep_ x.2]> cp) cp l) = kNumLevels.
Proof.
  induction l as [|x l IH]; intros cp Hcp Hl; cbn [fold_opt foldl]; [done|]. apply Forall_cons in Hl as [Hx Hl].
  unfold apply_pointer at 2. unfold level_ok in Hx. rewrite at_level_ok by lia. cbn [mbind option_bind].
  assert (alter (λ _, InternalKey_Encode x.2) (Z.to_nat x.1) cp = <[Z.to_nat x.1 := rep_ x.2]> cp) as ->.
  { apply list_eq. intros i. destruct (decide (i = Z.to_nat x.1)) as [->|Hne].
    - rewrite list_lookup_alter_eq, list_lookup_insert_eq by lia. destruct (lookup_lt_is_Some_2 cp (Z.to_nat x.1)) as [y ->]; [lia|done].
    - by rewrite list_lookup_alter_ne, list_lookup_insert_ne by done. }
  apply IH; [by rewrite length_insert|done].
Qed.

Lemma Builder_Apply_spec e b m cp L h K :
  building b m → counted (all_added b ++ L) h → added_keys b K → length cp = kNumLevels → edit_valid e →
  NoDup (adds e) → (∀ k, k ∈ adds e → k ∉ K ∧ not_in_base (base_ b) k) →
  ∃ b' h', Builder_Apply icmp e b cp h = Some (b', spec_pointers e cp, h') ∧ base_ b' = base_ b ∧
    building b' (spec_edit e m) ∧ counted (all_added b' ++ L) h' ∧ added_keys b' (adds e ++ K) ∧ length (spec_pointers e cp) = kNumLevels.
Proof.
  intros Hb Hc HK Hcp He Hnd Hf. unfold Builder_Apply. destruct (apply_pointers_spec _ cp Hcp (ev_pointers _ He)) as [-> Hlen].
  cbn [mbind option_bind]. destruct (building_deletions b m _ Hb (ev_deleted _ He)) as (levels & Hd & Hb1 & Ha). rewrite Hd. cbn [mbind option_bind].
  destruct (building_additions (new_files_ e) (set_level b levels) _ L h K Hb1) as (levels2 & h2 & Hn & Hb2 & Hc2 & Hk2); [| |apply He|done|done|].
  - unfold all_added. cbn [levels_ set_level]. by rewrite Ha.
  - intros l s f Hs Hin. cbn in Hs. assert ((added_files <$> levels_ b) !! l = Some (added_files s)) as Hl by (by rewrite <- Ha, list_lookup_fmap, Hs).
    rewrite list_lookup_fmap in Hl. apply fmap_Some in Hl as (s0 & Hs0 & Heq). apply (HK l s0); [done|by rewrite <- Heq].
  - cbn [levels_ set_level] in Hn. rewrite Hn. cbn [mbind option_bind]. eexists _, h2. split; [done|]. by split_and!.
Qed.

(** ** The version saved *)

(** Files of one level above 0 do not overlap. *)
Definition map_disjoint m : Prop :=
  ∀ l n n' x y, 0 < l → m !! (l, n) = Some x → m !! (l, n') = Some y → n ≠ n' →
    Compare icmp (rep_ (largest x)) (rep_ (smallest y)) < 0 ∨ Compare icmp (rep_ (largest y)) (rep_ (smallest x)) < 0.

Definition map_ok m : Prop := ∀ k x, m !! k = Some x →
  valid (rep_ (smallest x)) ∧ valid (rep_ (largest x)) ∧ Compare icmp (rep_ (smallest x)) (rep_ (largest x)) <= 0.

Lemma saved_elem s base f : f ∈ saved s base ↔ number f ∉ deleted_files s ∧ f ∈ added_files s ++ base.
Proof. unfold saved. rewrite list_elem_of_filter, merged_perm. done. Qed.

Lemma saved_sorted s base l m : level_building s base l m → StronglySorted by_smallest base → Forall has_small base →
  StronglySorted by_smallest (saved s base) ∧ Forall has_small (saved s base) ∧ NoDup (numbers (saved s base)).
Proof.
  intros [H1 H2 H3 H4] Hs Hsm. split_and!.
  - apply StronglySorted_filter. by apply merged_sorted.
  - apply Forall_forall. intros f [_ [Hf|Hf]%elem_of_app]%saved_elem; [by apply (proj1 (Forall_forall _ _) H2)|by apply (proj1 (Forall_forall _ _) Hsm)].
  - eapply sublist_NoDup; [|apply fmap_sublist, sublist_filter]. by rewrite merged_perm.
Qed.

Lemma saved_disjoint s base l m : level_building s base l m → StronglySorted by_smallest base → Forall has_small base →
  map_ok m → map_disjoint m → (0 < l)%nat → StronglySorted disjoint (saved s base).
Proof.
  intros Hb Hs Hsm Hok Hdis Hl. destruct (saved_sorted s base l m Hb Hs Hsm) as (Hso & _ & Hnd).
  assert (∀ f, f ∈ saved s base → m !! (Z.of_nat l, number f) = Some (f_meta f)) as Hm.
  { intros f [Hd Hf]%saved_elem. apply (lb_iff _ _ _ _ Hb). split; [done|]. by exists f. }
  revert Hm Hnd. induction Hso as [|f files Hso IH Hf]; intros Hm Hnd; [constructor|]. cbn in Hnd. apply NoDup_cons in Hnd as [Hnf Hnd].
  constructor; [apply IH; [intros g Hg; apply Hm; by right|done]|]. apply Forall_forall. intros g Hg.
  pose proof (Hm f ltac:(left)) as Hmf. pose proof (Hm g ltac:(by right)) as Hmg.
  destruct (Hdis (Z.of_nat l) _ _ _ _ ltac:(lia) Hmf Hmg) as [|Hlt]; [|done|].
  { intros Heq. apply Hnf. rewrite list_elem_of_fmap. exists g. by split. }
  destruct (Hok _ _ Hmf) as (Vf & _ & _), (Hok _ _ Hmg) as (Vg & Vlg & Hle).
  pose proof (proj1 (Forall_forall _ _) Hf g Hg) as Hfg%bsk_spec.
  pose proof (compare_le_lt_trans icmp _ _ _ Vg Vlg Vf Hle Hlt). pose proof (compare_sym icmp _ _ Vf Vg). lia.
Qed.
Lemma saved_maps b m m0 (v : Version) : building b m → version_maps (base_ b) m0 →
  files_ v = imap (λ i s, saved s (level_files (base_ b) (0 + i))) (levels_ b) → version_maps v m.
Proof.
  intros Hb Hbase Hv.
  assert (∀ l, level_files v l = match levels_ b !! l with Some s => saved s (level_files (base_ b) l) | None => [] end) as Hfiles.
  { intros l. unfold level_files at 1. rewrite Hv, list_lookup_imap. by destruct (levels_ b !! l). }
  pose proof (λ l s Hs, saved_sorted s _ l m (bd_level _ _ Hb l s Hs) (vm_sorted _ _ Hbase l) (vm_small _ _ Hbase l)) as Hso.
  split.
  - rewrite Hv, length_imap. apply Hb.
  - intros l n x. rewrite Hfiles. destruct (levels_ b !! l) as [s|] eqn:Hs.
    + rewrite (lb_iff _ _ _ _ (bd_level _ _ Hb l s Hs)). split.
      * intros (Hd & f & Hf & <- & <-). exists f. split; [by apply saved_elem|done].
      * intros (f & [Hd Hf]%saved_elem & <- & <-). split; [done|]. by exists f.
    + split; [|by intros (f & ?%not_elem_of_nil & _)]. intros Hx. apply lookup_ge_None in Hs. rewrite (bd_levels _ _ Hb) in Hs.
      pose proof (bd_range _ _ Hb (Z.of_nat l) n (mk_is_Some _ _ Hx)). lia.
  - intros l n Hx. pose proof (bd_range _ _ Hb l n Hx). lia.
  - intros l. rewrite Hfiles. destruct (levels_ b !! l) as [s|] eqn:Hs; [by apply (Hso l s)|constructor].
  - intros l. rewrite Hfiles. destruct (levels_ b !! l) as [s|] eqn:Hs; [by apply (Hso l s)|constructor].
  - intros l. rewrite Hfiles. destruct (levels_ b !! l) as [s|] eqn:Hs; [by apply (Hso l s)|constructor].
Qed.

Lemma Builder_SaveTo_spec b m m0 L h :
  building b m → version_maps (base_ b) m0 → map_ok m → map_disjoint m →
  counted (all_added b ++ L) h → live (mjoin (files_ (base_ b))) h →
  ∃ v h', Builder_SaveTo icmp b h = Some (v, h') ∧ version_maps v m ∧ counted (mjoin (files_ v) ++ all_added b ++ L) h' ∧
    (∀ l, (0 < l)%nat → StronglySorted disjoint (level_files v l)).
Proof.
  intros Hb Hbase Hok Hdis Hc Hl. set (files := imap (λ i s, saved s (level_files (base_ b) (0 + i))) (levels_ b)).
  assert (∀ l, default [] (files !! l) = match levels_ b !! l with Some s => saved s (level_files (base_ b) l) | None => [] end) as Hfiles.
  { intros l. unfold files. rewrite list_lookup_imap. by destruct (levels_ b !! l). }
  assert (∀ l s, levels_ b !! l = Some s → (0 < l)%nat → StronglySorted disjoint (saved s (level_files (base_ b) l))) as Hsorted.
  { intros l s Hs. apply (saved_disjoint _ _ l m); [by apply Hb|apply Hbase..|done|done]. }
  assert (∀ l s, levels_ b !! l = Some s → live (added_files s ++ level_files (base_ b) l) h) as Hlive.
  { intros l s Hs f [Hf|Hf]%elem_of_app.
    - apply (counted_live _ _ Hc). apply elem_of_app. left. apply list_elem_of_join. exists (added_files s). split; [done|].
      apply list_elem_of_fmap. exists s. split; [done|]. by eapply list_elem_of_lookup_2.
    - apply Hl. unfold level_files in Hf. destruct (files_ (base_ b) !! l) as [fs|] eqn:E; [|by apply not_elem_of_nil in Hf].
      apply list_elem_of_join. exists fs. split; [done|]. by eapply list_elem_of_lookup_2. }
  unfold Builder_SaveTo. rewrite (save_levels_spec 0); [|intros i s Hs; split; [intros Hi; by apply Hsorted|by apply Hlive]].
  cbn [mbind option_bind]. fold files. eexists _, _. split; [done|]. cbn [files_]. split_and!.
  - by apply (saved_maps b m m0).
  - apply counted_ref_all; [done|]. intros f (fs & Hf & (l & Hfs)%list_elem_of_lookup)%list_elem_of_join.
    specialize (Hfiles l). rewrite Hfs in Hfiles. cbn in Hfiles. subst fs. destruct (levels_ b !! l) as [s|] eqn:Hs; [|by apply not_elem_of_nil in Hf].
    apply (Hlive l s Hs). by apply saved_elem in Hf as [_ Hf].
  - intros l Hl0. unfold level_files. cbn [files_]. rewrite Hfiles. destruct (levels_ b !! l) as [s|] eqn:Hs; [by apply Hsorted|constructor].
Qed.
(** ** Sequences of edits *)

Definition spec_edits (es : list VersionEdit) m : file_map := foldl (λ m e, spec_edit e m) m es.
Definition spec_all_pointers (es : list VersionEdit) (cp : list (list byte)) : list (list byte) := foldl (λ cp e, spec_pointers e cp) cp es.

(** No file is added to a level under a number the level has or had. *)
Definition fresh_adds (v : Version) (es : list VersionEdit) : Prop :=
  NoDup (mjoin (adds <$> es)) ∧ ∀ k, k ∈ mjoin (adds <$> es) → not_in_base v k.

Lemma apply_edits_spec es : ∀ b m cp L h K,
  building b m → counted (all_added b ++ L) h → added_keys b K → length cp = kNumLevels → Forall edit_valid es →
  NoDup (mjoin (adds <$> es)) → (∀ k, k ∈ mjoin (adds <$> es) → k ∉ K ∧ not_in_base (base_ b) k) →
  ∃ b' h', apply_edits icmp es (b, cp, h) = Some (b', spec_all_pointers es cp, h') ∧ base_ b' = base_ b ∧
    building b' (spec_edits es m) ∧ counted (all_added b' ++ L) h' ∧ length (spec_all_pointers es cp) = kNumLevels.
Proof.
  induction es as [|e es IH]; intros b m cp L h K Hb Hc HK Hcp Hes Hnd Hf; [by exists b, h|].
  apply Forall_cons in Hes as [He Hes]. cbn in Hnd. apply NoDup_app in Hnd as (Hnd1 & Hx & Hnd2).
  destruct (Builder_Apply_spec e b m cp L h K Hb Hc HK Hcp He Hnd1) as (b1 & h1 & Ha & Hbase & Hb1 & Hc1 & HK1 & Hcp1).
  { intros k Hk. apply Hf. cbn. apply elem_of_app. by left. }
  destruct (IH b1 _ _ L h1 _ Hb1 Hc1 HK1 Hcp1 Hes Hnd2) as (b2 & h2 & Ha2 & Hbase2 & Hb2 & Hc2 & Hcp2).
  { intros k Hk. destruct (Hf k) as [HkK Hkb]; [cbn; apply elem_of_app; by right|]. rewrite Hbase. split; [|done].
    intros [Hk'|Hk']%elem_of_app; [by apply (Hx k)|done]. }
  exists b2, h2. unfold apply_edits in *. cbn [fold_opt]. rewrite Ha. cbn [mbind option_bind]. split_and!; [done|congruence|done..].
Qed.

(** A version is determined by its map, up to the objects. *)
Lemma version_maps_unique v v' m l : version_maps v m → version_maps v' m → f_meta <$> level_files v l = f_meta <$> level_files v' l.
Proof.
  intros Hv Hv'. assert (∀ w, version_maps w m → NoDup (f_meta <$> level_files w l) ∧ StronglySorted (λ a b, BySmallestKey icmp a b = true) (f_meta <$> level_files w l)) as Hw.
  { intros w Hm. split.
    - apply (NoDup_fmap_1 number). rewrite <- list_fmap_compose. apply Hm.
    - pose proof (vm_sorted _ _ Hm l) as Hs. induction Hs as [|f fs Hs IH Hf]; cbn; constructor; [done|]. by apply Forall_fmap. }
  assert (∀ w x, version_maps w m → x ∈ f_meta <$> level_files w l ↔ m !! (Z.of_nat l, number x) = Some x) as Hin.
  { intros w x Hm. rewrite (vm_iff _ _ Hm), list_elem_of_fmap. split; [intros (f & -> & Hf); by exists f|intros (f & Hf & _ & <-); by exists f]. }
  destruct (Hw v Hv) as [Hn Hs], (Hw v' Hv') as [Hn' Hs'].
  apply (StronglySorted_unique_strong (λ a b, BySmallestKey icmp a b = true)); [|done|done|].
  - intros a b (f & -> & Hf)%list_elem_of_fmap (g & -> & Hg)%list_elem_of_fmap Hab Hba. exfalso.
    apply (bsk_asym f g); [by apply (proj1 (Forall_forall _ _) (vm_small _ _ Hv l))|by apply (proj1 (Forall_forall _ _) (vm_small _ _ Hv' l))|done|done].
  - apply NoDup_Permutation; [done..|]. intros x. by rewrite !Hin.
Qed.
End builder_proofs.
