(* ===== verification/VersionSet.v ===== *)
(** The set of live versions and the MANIFEST (db/version_set.cc, classes
    [Version] and [VersionSet]).  The file system is an interface; messages to
    the info log are not modelled. *)
From stdpp Require Import sorting gmap.
From S2P Require Import Prelude Coding Double Env FileSystem MemEnv MemFs Comparator DbFormat Logging Filename LogFormat LogReader VersionEdit Version VersionBuilder.

(** ** Versions and their references *)

Record VersionObject := { v_version : Version; v_refs : Z }.

(** The linked list of versions, oldest first; the objects by address; the file
    objects they share; the current version. *)
Record VersionList := {
  vl_list : list nat;
  vl_objects : gmap nat VersionObject;
  vl_files : FileHeap;
  vl_current : option nat;
}.

Definition all_files (v : Version) : list File := mjoin (files_ v).

Definition with_files (h : FileHeap) (vl : VersionList) : VersionList :=
  {| vl_list := vl_list vl; vl_objects := vl_objects vl; vl_files := h; vl_current := vl_current vl |}.

Definition Version_Ref (id : nat) (vl : VersionList) : option VersionList :=
  o ← vl_objects vl !! id;
  Some {| vl_list := vl_list vl; vl_objects := <[id := {| v_version := v_version o; v_refs := v_refs o + 1 |}]> (vl_objects vl);
          vl_files := vl_files vl; vl_current := vl_current vl |}.

(** The destructor drops the references to the files. *)
Definition Version_Unref (id : nat) (vl : VersionList) : option VersionList :=
  o ← vl_objects vl !! id;
  if negb (1 <=? v_refs o) then None else
  if v_refs o - 1 =? 0
  then h ← unref_all (all_files (v_version o)) (vl_files vl);
       Some {| vl_list := filter (λ x, x ≠ id) (vl_list vl); vl_objects := delete id (vl_objects vl);
               vl_files := h; vl_current := vl_current vl |}
  else Some {| vl_list := vl_list vl; vl_objects := <[id := {| v_version := v_version o; v_refs := v_refs o - 1 |}]> (vl_objects vl);
               vl_files := vl_files vl; vl_current := vl_current vl |}.

(** [v] is a version with no references yet. *)
Definition AppendVersion (v : Version) (vl : VersionList) : option VersionList :=
  let id := fresh (dom (vl_objects vl)) in
  vl ← (match vl_current vl with Some c => Version_Unref c vl | None => Some vl end);
  Some {| vl_list := vl_list vl ++ [id]; vl_objects := <[id := {| v_version := v; v_refs := 1 |}]> (vl_objects vl);
          vl_files := vl_files vl; vl_current := Some id |}.

Definition current_version (vl : VersionList) : option Version :=
  c ← vl_current vl; v_version <$> vl_objects vl !! c.

(** ** Scores *)

Definition TargetFileSize (max_file_size : Z) : Z := max_file_size.

Fixpoint max_bytes_loop (n : nat) (result : double) : double :=
  match n with
  | O => result
  | S n => max_bytes_loop n (double_mul result (double_of_Z 10))
  end.

Definition MaxBytesForLevel (level : nat) : double :=
  max_bytes_loop (level - 1) (double_mul (double_of_Z 10) (double_of_Z 1048576)).

Definition level_score (v : Version) (level : nat) : double :=
  if (level =? 0)%nat
  then double_div (double_of_Z (Z.of_nat (length (level_files v level)))) (double_of_Z kL0_CompactionTrigger)
  else double_div (double_of_Z (TotalFileSize (level_files v level))) (MaxBytesForLevel level).

Definition Finalize (v : Version) : Version :=
  let '(best_level, best_score) :=
    foldl (λ '(bl, bs) level, let score := level_score v level in
             if double_ltb bs score then (Z.of_nat level, score) else (bl, bs))
          (-1, double_of_Z (-1)) (seq 0 (kNumLevels - 1)) in
  {| files_ := files_ v; file_to_compact_ := file_to_compact_ v; file_to_compact_level_ := file_to_compact_level_ v;
     compaction_score_ := best_score; compaction_level_ := best_level |}.

(** ** The version set *)

Section version_set.
Context {C : Type} `{!Comparator C} (icmp : InternalKeyComparator C).
Context {E : Type} `{!FileSystem E}.

(** [comparator_name] is the name of the user comparator. *)
Context (dbname comparator_name : list byte) (max_file_size : Z) (reuse_logs : bool).

(** The log writer is its place in the block; it writes to [vs_descriptor_file_]. *)
Record VersionSet := {
  vs_next_file_number_ : Z;
  vs_manifest_file_number_ : Z;
  vs_last_sequence_ : Z;
  vs_log_number_ : Z;
  vs_prev_log_number_ : Z;
  vs_descriptor_file_ : option (WFile E);
  vs_descriptor_log_ : option nat;
  vs_versions : VersionList;
  vs_compact_pointer_ : list (list byte);
}.
Implicit Types vs : VersionSet.

Definition set_numbers (next manifest last log prev : Z) vs : VersionSet :=
  {| vs_next_file_number_ := next; vs_manifest_file_number_ := manifest; vs_last_sequence_ := last; vs_log_number_ := log;
     vs_prev_log_number_ := prev; vs_descriptor_file_ := vs_descriptor_file_ vs; vs_descriptor_log_ := vs_descriptor_log_ vs;
     vs_versions := vs_versions vs; vs_compact_pointer_ := vs_compact_pointer_ vs |}.
Definition set_descriptor (file : option (WFile E)) (log : option nat) vs : VersionSet :=
  {| vs_next_file_number_ := vs_next_file_number_ vs; vs_manifest_file_number_ := vs_manifest_file_number_ vs;
     vs_last_sequence_ := vs_last_sequence_ vs; vs_log_number_ := vs_log_number_ vs; vs_prev_log_number_ := vs_prev_log_number_ vs;
     vs_descriptor_file_ := file; vs_descriptor_log_ := log; vs_versions := vs_versions vs; vs_compact_pointer_ := vs_compact_pointer_ vs |}.
Definition set_versions (vl : VersionList) (cp : list (list byte)) vs : VersionSet :=
  {| vs_next_file_number_ := vs_next_file_number_ vs; vs_manifest_file_number_ := vs_manifest_file_number_ vs;
     vs_last_sequence_ := vs_last_sequence_ vs; vs_log_number_ := vs_log_number_ vs; vs_prev_log_number_ := vs_prev_log_number_ vs;
     vs_descriptor_file_ := vs_descriptor_file_ vs; vs_descriptor_log_ := vs_descriptor_log_ vs; vs_versions := vl; vs_compact_pointer_ := cp |}.

Definition VersionSet_new : option VersionSet :=
  vl ← AppendVersion Version_new {| vl_list := []; vl_objects := ∅; vl_files := ∅; vl_current := None |};
  Some {| vs_next_file_number_ := 2; vs_manifest_file_number_ := 0; vs_last_sequence_ := 0; vs_log_number_ := 0; vs_prev_log_number_ := 0;
          vs_descriptor_file_ := None; vs_descriptor_log_ := None; vs_versions := vl; vs_compact_pointer_ := replicate kNumLevels [] |}.

(** [None] when a version is still referenced. *)
Definition VersionSet_delete vs e : option E :=
  c ← vl_current (vs_versions vs);
  vl ← Version_Unref c (vs_versions vs);
  match vl_list vl with
  | [] => match vs_descriptor_file_ vs with Some file => fs_delete_writable file e | None => Some e end
  | _ => None
  end.

(** ** Numbers *)

Definition NewFileNumber vs : Z * VersionSet :=
  (vs_next_file_number_ vs, set_numbers (u64 (vs_next_file_number_ vs + 1)) (vs_manifest_file_number_ vs) (vs_last_sequence_ vs)
                              (vs_log_number_ vs) (vs_prev_log_number_ vs) vs).

Definition ReuseFileNumber (file_number : Z) vs : VersionSet :=
  if vs_next_file_number_ vs =? u64 (file_number + 1)
  then set_numbers file_number (vs_manifest_file_number_ vs) (vs_last_sequence_ vs) (vs_log_number_ vs) (vs_prev_log_number_ vs) vs
  else vs.

Definition MarkFileNumberUsed (number : Z) vs : VersionSet :=
  if vs_next_file_number_ vs <=? number
  then set_numbers (u64 (number + 1)) (vs_manifest_file_number_ vs) (vs_last_sequence_ vs) (vs_log_number_ vs) (vs_prev_log_number_ vs) vs
  else vs.

Definition VersionSet_SetLastSequence (s : Z) vs : option VersionSet :=
  if vs_last_sequence_ vs <=? s
  then Some (set_numbers (vs_next_file_number_ vs) (vs_manifest_file_number_ vs) s (vs_log_number_ vs) (vs_prev_log_number_ vs) vs)
  else None.

(** ** Summaries of the current version *)

Definition NumLevelFiles (level : nat) vs : option Z :=
  v ← current_version (vs_versions vs); (λ files : list File, Z.of_nat (length files)) <$> files_ v !! level.

Definition NumLevelBytes (level : nat) vs : option Z :=
  v ← current_version (vs_versions vs); TotalFileSize <$> files_ v !! level.

Definition NeedsCompaction vs : option bool :=
  v ← current_version (vs_versions vs);
  Some (negb (double_ltb (compaction_score_ v) (double_of_Z 1)) || bool_decide (is_Some (file_to_compact_ v))).

(** The numbers of the files of every live version. *)
Fixpoint live_numbers (ids : list nat) (objects : gmap nat VersionObject) (live : gset Z) : option (gset Z) :=
  match ids with
  | [] => Some live
  | id :: ids => o ← objects !! id; live_numbers ids objects (live ∪ list_to_set (number ∘ f_meta <$> all_files (v_version o)))
  end.

Definition AddLiveFiles (live : gset Z) vs : option (gset Z) :=
  live_numbers (vl_list (vs_versions vs)) (vl_objects (vs_versions vs)) live.

Fixpoint max_overlap (v : Version) (level : nat) (files : list File) (result : Z) : option Z :=
  match files with
  | [] => Some result
  | f :: files =>
      overlaps ← GetOverlappingInputs icmp v (level + 1) (Some (smallest f)) (Some (largest f));
      let sum := TotalFileSize overlaps in
      max_overlap v level files (if result <? sum then sum else result)
  end.

Definition MaxNextLevelOverlappingBytes vs : option Z :=
  v ← current_version (vs_versions vs);
  fold_opt (λ level result, max_overlap v level (level_files v level) result) (seq 1 (kNumLevels - 2)) 0.

(** ** The MANIFEST *)

Definition snapshot_pointers (cp : list (list byte)) (edit : VersionEdit) : VersionEdit :=
  foldl (λ edit x, if (length x.2 =? 0)%nat then edit else SetCompactPointer (Z.of_nat x.1) (InternalKey_DecodeFrom x.2).1 edit)
        edit (imap (λ level k, (level, k)) cp).

Definition snapshot_files (files : list (list File)) (edit : VersionEdit) : VersionEdit :=
  foldl (λ edit x, foldl (λ edit (f : File), AddFile (Z.of_nat x.1) (number f) (file_size f) (smallest f) (largest f) edit) edit x.2)
        edit (imap (λ level fs, (level, fs)) files).

Definition snapshot_edit vs (v : Version) : VersionEdit :=
  snapshot_files (files_ v) (snapshot_pointers (vs_compact_pointer_ vs) (SetComparatorName comparator_name VersionEdit_Clear)).

Definition WriteSnapshot vs (log : Writer (open_writable E)) : option (Writer (open_writable E) * Status) :=
  v ← current_version (vs_versions vs);
  record ← VersionEdit_EncodeTo [] (snapshot_edit vs v);
  AddRecord record log.

(** The edit as it is logged. *)
Definition complete_edit (edit : VersionEdit) vs : option VersionEdit :=
  edit ← (match log_number_ edit with
          | Some n => if (vs_log_number_ vs <=? n) && (n <? vs_next_file_number_ vs) then Some edit else None
          | None => Some (SetLogNumber (vs_log_number_ vs) edit)
          end);
  let edit := match prev_log_number_ edit with Some _ => edit | None => SetPrevLogNumber (vs_prev_log_number_ vs) edit end in
  Some (VersionEdit.SetLastSequence (vs_last_sequence_ vs) (SetNextFile (vs_next_file_number_ vs) edit)).

(** The new version, before it is finalized; the builder holds a reference to the
    current version while it works. *)
Definition build_next (edit : VersionEdit) vs : option (Version * VersionSet) :=
  c ← vl_current (vs_versions vs);
  vl ← Version_Ref c (vs_versions vs);
  base ← current_version vl;
  '(b, cp, h) ← Builder_Apply icmp edit (Builder_new base) (vs_compact_pointer_ vs) (vl_files vl);
  '(v, h) ← Builder_SaveTo icmp b h;
  h ← Builder_delete b h;
  vl ← Version_Unref c (with_files h vl);
  Some (v, set_versions vl cp vs).

Definition open_log (file : WFile E) (offset : nat) (e : E) : Writer (open_writable E) :=
  {| dest_ := Some (e, file); block_offset_ := offset; type_crc_ := InitTypeCrc |}.

(** A new descriptor, with a snapshot; the name is returned. *)
Definition new_descriptor vs e : option (VersionSet * E * Status * option (list byte)) :=
  match vs_descriptor_log_ vs with
  | Some _ => Some (vs, e, Status_OK, None)
  | None =>
      match vs_descriptor_file_ vs with
      | Some _ => None
      | None =>
          let name := DescriptorFileName dbname (vs_manifest_file_number_ vs) in
          '(e, file, s) ← fs_NewWritableFile name e;
          if ok s
          then file ← file;
               '(log, s) ← WriteSnapshot vs (open_log file 0 e);
               '(e, file) ← dest_ log;
               Some (set_descriptor (Some file) (Some (block_offset_ log)) vs, e, s, Some name)
          else Some (set_descriptor file None vs, e, s, Some name)
      end
  end.

Definition log_edit (edit : VersionEdit) vs e : option (VersionSet * E * Status) :=
  record ← VersionEdit_EncodeTo [] edit;
  file ← vs_descriptor_file_ vs;
  offset ← vs_descriptor_log_ vs;
  '(log, s) ← AddRecord record (open_log file offset e);
  '(e, file) ← dest_ log;
  '(e, s) ← (if ok s then fs_Sync file e else Some (e, s));
  Some (set_descriptor (Some file) (Some (block_offset_ log)) vs, e, s).

Definition LogAndApply (edit : VersionEdit) vs e : option (VersionSet * E * Status) :=
  edit ← complete_edit edit vs;
  '(v, vs) ← build_next edit vs;
  let v := Finalize v in
  '(vs, e, s, new_manifest) ← new_descriptor vs e;
  '(vs, e, s) ← (if ok s then log_edit edit vs e else Some (vs, e, s));
  '(e, s) ← (if ok s && bool_decide (is_Some new_manifest) then SetCurrentFile dbname (vs_manifest_file_number_ vs) e else Some (e, s));
  if ok s
  then vl ← AppendVersion v (vs_versions vs);
       log ← log_number_ edit;
       prev ← prev_log_number_ edit;
       Some (set_versions vl (vs_compact_pointer_ vs)
               (set_numbers (vs_next_file_number_ vs) (vs_manifest_file_number_ vs) (vs_last_sequence_ vs) log prev vs), e, s)
  else h ← unref_all (all_files v) (vl_files (vs_versions vs));
       let vs := set_versions (with_files h (vs_versions vs)) (vs_compact_pointer_ vs) vs in
       match new_manifest with
       | None => Some (vs, e, s)
       | Some name =>
           e ← (match vs_descriptor_file_ vs with Some file => fs_delete_writable file e | None => Some e end);
           '(e, _) ← fs_RemoveFile name e;
           Some (set_descriptor None None vs, e, s)
       end.

(** ** Recovery *)

Record recovered := {
  r_log_number : option Z;
  r_prev_log_number : option Z;
  r_next_file : option Z;
  r_last_sequence : option Z;
}.

(** The reporter keeps the first error. *)
Definition reporter_status (s : Status) (new : list (Z * Status)) : Status :=
  foldl (λ s r, if ok s then r.2 else s) s new.

(** Fields of later edits win. *)
Definition newer {A} (x y : option A) : option A := match x with Some _ => x | None => y end.

(** The loop over the records; [n] bounds their number and [fuel] the fragments
    of one record. *)
Fixpoint recover_loop (n fuel : nat) (reader : Reader (open_sequential E)) (s : Status) (b : Builder) (cp : list (list byte)) (h : FileHeap)
    (r : recovered) : option (Reader (open_sequential E) * Status * Builder * list (list byte) * FileHeap * recovered) :=
  match n with
  | O => None
  | S n =>
      '(record, reader') ← ReadRecord fuel reader;
      let s := reporter_status s (drop (length (reports reader)) (reports reader')) in
      match record with
      | None => Some (reader', s, b, cp, h, r)
      | Some record =>
          if negb (ok s) then Some (reader', s, b, cp, h, r) else
          '(edit, s) ← VersionEdit_DecodeFrom record;
          let s := if ok s
                   then match comparator_ edit with
                        | Some name =>
                            if bool_decide (name = comparator_name) then s
                            else InvalidArgument (name ++ str " does not match existing comparator ") comparator_name
                        | None => s
                        end
                   else s in
          '(b, cp, h) ← (if ok s then Builder_Apply icmp edit b cp h else Some (b, cp, h));
          recover_loop n fuel reader' s b cp h
            {| r_log_number := newer (log_number_ edit) (r_log_number r);
               r_prev_log_number := newer (prev_log_number_ edit) (r_prev_log_number r);
               r_next_file := newer (next_file_number_ edit) (r_next_file r);
               r_last_sequence := newer (last_sequence_ edit) (r_last_sequence r) |}
      end
  end.

Definition ReuseManifest (dscname dscbase : list byte) vs e : option (bool * VersionSet * E) :=
  if negb reuse_logs then Some (false, vs, e) else
  match ParseFileName dscbase with
  | Some (manifest_number, kDescriptorFile) =>
      '(manifest_size, s) ← fs_GetFileSize dscname e;
      if negb (ok s) || (TargetFileSize max_file_size <=? manifest_size) then Some (false, vs, e) else
      match vs_descriptor_file_ vs, vs_descriptor_log_ vs with
      | None, None =>
          '(e, file, r) ← fs_NewAppendableFile dscname e;
          if negb (ok r) then match file with None => Some (false, vs, e) | Some _ => None end else
          file ← file;
          let vs := set_descriptor (Some file) (Some (block_offset_ (Writer_append (Some (e, file) : open_writable E) manifest_size))) vs in
          Some (true, set_numbers (vs_next_file_number_ vs) manifest_number (vs_last_sequence_ vs) (vs_log_number_ vs) (vs_prev_log_number_ vs) vs, e)
      | _, _ => None
      end
  | _ => Some (false, vs, e)
  end.

Definition recovered_status (s : Status) (r : recovered) : Status :=
  if ok s
  then match r_next_file r, r_log_number r, r_last_sequence r with
       | None, _, _ => Corruption (str "no meta-nextfile entry in descriptor")
       | _, None, _ => Corruption (str "no meta-lognumber entry in descriptor")
       | _, _, None => Corruption (str "no last-sequence-number entry in descriptor")
       | _, _, _ => s
       end
  else s.

(** Reading the descriptor named by CURRENT: the status, the builder and what
    the edits recorded. *)
Definition read_descriptor (n fuel : nat) (dscname : list byte) vs e
    : option (E * Status * option (Builder * list (list byte) * FileHeap * recovered)) :=
  '(e, file, s) ← fs_NewSequentialFile dscname e;
  if negb (ok s)
  then Some (e, if IsNotFound s then Status_new Env.kCorruption (str "CURRENT points to a non-existent file") (Status_ToString s) else s, None)
  else
    file ← file;
    base ← current_version (vs_versions vs);
    '(reader, s, b, cp, h, r) ← recover_loop n fuel (Reader_new (Some (e, file) : open_sequential E) true true 0) s (Builder_new base)
                               (vs_compact_pointer_ vs) (vl_files (vs_versions vs))
                               {| r_log_number := None; r_prev_log_number := None; r_next_file := None; r_last_sequence := None |};
    '(e, file) ← file_ reader;
    e ← fs_delete_sequential file e;
    Some (e, s, Some (b, cp, h, r)).

(** The builder is destroyed on every return, and with it its reference to the
    version it started from. *)
Definition finish_builder (base : nat) (b : Builder) vs : option VersionSet :=
  h ← Builder_delete b (vl_files (vs_versions vs));
  vl ← Version_Unref base (with_files h (vs_versions vs));
  Some (set_versions vl (vs_compact_pointer_ vs) vs).

(** The result says whether a new descriptor has to be written. *)
Definition Recover (n fuel : nat) vs e : option (VersionSet * E * Status * bool) :=
  '(e, current, s) ← ReadFileToString fuel (CurrentFileName dbname) e;
  if negb (ok s) then Some (vs, e, s, false) else
  match last current with
  | Some x0a =>
      let current := take (length current - 1) current in
      let dscname := dbname ++ str "/" ++ current in
      base ← vl_current (vs_versions vs);
      '(e, s, result) ← read_descriptor n fuel dscname vs e;
      match result with
      | None => Some (vs, e, s, false)
      | Some (b, cp, h, r) =>
          vl ← Version_Ref base (vs_versions vs);
          let vs := set_versions (with_files h vl) cp vs in
          let s' := recovered_status s r in
          let prev := default 0 (r_prev_log_number r) in
          let vs := if ok s then MarkFileNumberUsed (default 0 (r_log_number r)) (MarkFileNumberUsed prev vs) else vs in
          match ok s', r_next_file r, r_last_sequence r, r_log_number r with
          | true, Some next_file, Some last_sequence, Some log_number =>
              '(v, h) ← Builder_SaveTo icmp b (vl_files (vs_versions vs));
              vl ← AppendVersion (Finalize v) (with_files h (vs_versions vs));
              let vs := set_numbers (u64 (next_file + 1)) next_file last_sequence log_number prev (set_versions vl (vs_compact_pointer_ vs) vs) in
              '(reused, vs, e) ← ReuseManifest dscname current vs e;
              vs ← finish_builder base b vs;
              Some (vs, e, s', negb reused)
          | _, _, _, _ => vs ← finish_builder base b vs; Some (vs, e, s', false)
          end
      end
  | _ => Some (vs, e, Corruption (str "CURRENT file does not end with newline"), false)
  end.
End version_set.

(** ** References to versions *)

(** The files of the live versions. *)
Definition version_files (objects : gmap nat VersionObject) (id : nat) : list File :=
  match objects !! id with Some o => all_files (v_version o) | None => [] end.
Definition listed (vl : VersionList) : list File := mjoin (version_files (vl_objects vl) <$> vl_list vl).

Definition owned (id : nat) (owners : list nat) : Z := Z.of_nat (length (filter (λ x, x = id) owners)).

(** [owners] are the references held outside the list, besides the current
    version's own; [X] are the file references held outside the versions. *)
Record vl_ok (owners : list nat) (X : list File) (vl : VersionList) : Prop := {
  vo_nodup : NoDup (vl_list vl);
  vo_live id : id ∈ vl_list vl ↔ is_Some (vl_objects vl !! id);
  vo_refs id o : vl_objects vl !! id = Some o →
    v_refs o = owned id owners + (if decide (vl_current vl = Some id) then 1 else 0) ∧ 1 <= v_refs o;
  vo_owned id : id ∈ owners → is_Some (vl_objects vl !! id);
  vo_current id : vl_current vl = Some id → is_Some (vl_objects vl !! id);
  vo_counted : counted (X ++ listed vl) (vl_files vl);
}.

Lemma owned_cons id x owners : owned id (x :: owners) = (if decide (x = id) then 1 else 0) + owned id owners.
Proof. unfold owned. rewrite filter_cons. destruct (decide (x = id)); cbn [length]; lia. Qed.

Lemma listed_insert vl id o o' : vl_objects vl !! id = Some o → v_version o' = v_version o →
  mjoin (version_files (<[id := o']> (vl_objects vl)) <$> vl_list vl) = listed vl.
Proof.
  intros Ho Hv. unfold listed. f_equal. apply list_fmap_ext. intros i x _. unfold version_files.
  destruct (decide (x = id)) as [->|]; [by rewrite lookup_insert_eq, Ho, Hv|by rewrite lookup_insert_ne].
Qed.

Lemma Version_Ref_listed id vl vl' : Version_Ref id vl = Some vl' → listed vl' = listed vl.
Proof.
  unfold Version_Ref. destruct (vl_objects vl !! id) as [o|] eqn:Ho; [|done]. intros [= <-]. unfold listed at 1. cbn [vl_objects vl_list]. by apply (listed_insert vl id o).
Qed.

Lemma Version_Ref_ok owners X vl id : vl_ok owners X vl → is_Some (vl_objects vl !! id) →
  ∃ vl', Version_Ref id vl = Some vl' ∧ vl_ok (id :: owners) X vl' ∧ vl_current vl' = vl_current vl ∧ vl_files vl' = vl_files vl ∧
    ∀ x, v_version <$> vl_objects vl' !! x = v_version <$> vl_objects vl !! x.
Proof.
  intros Hv [o Ho]. unfold Version_Ref. rewrite Ho. cbn [mbind option_bind]. eexists. split; [done|].
  assert (∀ x, is_Some (<[id := {| v_version := v_version o; v_refs := v_refs o + 1 |}]> (vl_objects vl) !! x) ↔ is_Some (vl_objects vl !! x)) as Hdom.
  { intros x. destruct (decide (x = id)) as [->|]; [rewrite lookup_insert_eq, Ho; by split; eexists|by rewrite lookup_insert_ne]. }
  split; [|split; [done|split; [done|]]].
  - split; cbn [vl_list vl_objects vl_files vl_current]; [apply Hv| | | | |].
    + intros x. rewrite Hdom. apply Hv.
    + intros x o' Hx. rewrite owned_cons. destruct (decide (id = x)) as [<-|Hne].
      * rewrite lookup_insert_eq in Hx. injection Hx as <-. destruct (vo_refs _ _ _ Hv id o Ho). cbn [v_refs]. lia.
      * rewrite lookup_insert_ne in Hx by done. rewrite Z.add_0_l. by apply Hv.
    + intros x [->|Hx]%elem_of_cons; apply Hdom; [by eexists|by apply (vo_owned _ _ _ Hv)].
    + intros x Hx. apply Hdom. by apply (vo_current _ _ _ Hv).
    + unfold listed. cbn [vl_objects vl_list]. rewrite (listed_insert vl id o) by done. apply Hv.
  - intros x. cbn. destruct (decide (x = id)) as [->|]; [by rewrite lookup_insert_eq, Ho|by rewrite lookup_insert_ne].
Qed.

Lemma listed_remove vl id o : NoDup (vl_list vl) → id ∈ vl_list vl → vl_objects vl !! id = Some o →
  listed vl ≡ₚ all_files (v_version o) ++ mjoin (version_files (delete id (vl_objects vl)) <$> filter (λ x, x ≠ id) (vl_list vl)).
Proof.
  intros Hnd Hin Ho. apply list_elem_of_split in Hin as (l1 & l2 & Hl). unfold listed. rewrite Hl in *.
  apply NoDup_app in Hnd as (_ & H1 & [H2 _]%NoDup_cons).
  assert (∀ l, id ∉ l → filter (λ x, x ≠ id) l = l ∧ mjoin (version_files (delete id (vl_objects vl)) <$> l) = mjoin (version_files (vl_objects vl) <$> l)) as Hsame.
  { intros l Hl'. split.
    - apply filter_all. by intros x Hx ->.
    - f_equal. apply list_fmap_ext. intros i x Hx. unfold version_files. rewrite lookup_delete_ne; [done|]. intros ->. apply Hl'. by eapply list_elem_of_lookup_2. }
  destruct (Hsame l1) as [F1 M1]; [intros Hx; apply (H1 id Hx); left|]. destruct (Hsame l2 H2) as [F2 M2].
  rewrite filter_app, filter_cons, decide_False, F1, F2 by auto.
  rewrite !fmap_app, fmap_cons, !join_app, M1, M2. cbn [mjoin list_join]. unfold version_files at 2. rewrite Ho.
  rewrite !app_assoc. apply Permutation_app; [|done]. apply Permutation_app_comm.
Qed.

Lemma Version_Unref_ok owners X vl id : vl_ok (id :: owners) X vl →
  ∃ vl', Version_Unref id vl = Some vl' ∧ vl_ok owners X vl' ∧ vl_current vl' = vl_current vl ∧
    (∀ x, vl_objects vl !! x = None → vl_objects vl' !! x = None) ∧
    ∀ x, vl_current vl = Some x ∨ x ∈ owners → v_version <$> vl_objects vl' !! x = v_version <$> vl_objects vl !! x.
Proof.
  intros Hv. destruct (vo_owned _ _ _ Hv id ltac:(left)) as [o Ho]. unfold Version_Unref. rewrite Ho. cbn [mbind option_bind].
  destruct (vo_refs _ _ _ Hv id o Ho) as [Hr Hge]. rewrite owned_cons, decide_True in Hr by done. rewrite (proj2 (Z.leb_le _ _) Hge). cbn [negb].
  destruct (Z.eqb_spec (v_refs o - 1) 0) as [Hz|Hz].
  - assert (id ∉ owners ∧ vl_current vl ≠ Some id) as [Hno Hnc].
    { unfold owned in Hr. split; [|intros Hc; rewrite decide_True in Hr by done; lia]. intros Hin%list_elem_of_split. destruct Hin as (l1 & l2 & ->).
      rewrite filter_app, filter_cons, decide_True, length_app in Hr by done. cbn in Hr. destruct (decide _); lia. }
    pose proof (vo_counted _ _ _ Hv) as Hc. assert (id ∈ vl_list vl) as Hin by (apply (vo_live _ _ _ Hv); by eexists).
    rewrite (listed_remove vl id o (vo_nodup _ _ _ Hv) Hin Ho), (Permutation_app_swap_app X) in Hc.
    destruct (counted_unref_all _ _ _ Hc) as (h & -> & Hc'). cbn [mbind option_bind]. eexists. split; [done|].
    assert (∀ x, x ≠ id → delete id (vl_objects vl) !! x = vl_objects vl !! x) as Hne by (intros; by apply lookup_delete_ne).
    split; [|split; [done|split; [intros x Hx; cbn; destruct (decide (x = id)) as [->|]; [apply lookup_delete_eq|by rewrite Hne]|]]].
    + split; cbn [vl_list vl_objects vl_files vl_current].
      * eapply sublist_NoDup; [apply Hv|apply sublist_filter].
      * intros x. rewrite list_elem_of_filter. destruct (decide (x = id)) as [->|Hx]; [rewrite lookup_delete_eq; split; [by intros [? _]|by intros [? ?]]|].
        rewrite Hne, <- (vo_live _ _ _ Hv) by done. tauto.
      * intros x o' Hx. destruct (decide (x = id)) as [->|Hx']; [by rewrite lookup_delete_eq in Hx|]. rewrite Hne in Hx by done.
        pose proof (vo_refs _ _ _ Hv x o' Hx) as Hx2. by rewrite owned_cons, decide_False, Z.add_0_l in Hx2 by done.
      * intros x Hx. rewrite Hne by (intros ->; done). apply (vo_owned _ _ _ Hv). by right.
      * intros x Hx. rewrite Hne by (intros ->; done). by apply (vo_current _ _ _ Hv).
      * done.
    + intros x Hx. cbn. rewrite Hne; [done|]. intros ->. by destruct Hx.
  - eexists. split; [done|].
    assert (∀ x, is_Some (<[id := {| v_version := v_version o; v_refs := v_refs o - 1 |}]> (vl_objects vl) !! x) ↔ is_Some (vl_objects vl !! x)) as Hdom.
    { intros x. destruct (decide (x = id)) as [->|]; [rewrite lookup_insert_eq, Ho; by split; eexists|by rewrite lookup_insert_ne]. }
    split; [|split; [done|split; [intros x Hx; cbn; rewrite lookup_insert_ne; [done|congruence]|]]].
    + split; cbn [vl_list vl_objects vl_files vl_current]; [apply Hv| | | | |].
      * intros x. rewrite Hdom. apply Hv.
      * intros x o' Hx. destruct (decide (id = x)) as [<-|Hne].
        -- rewrite lookup_insert_eq in Hx. injection Hx as <-. cbn [v_refs]. lia.
        -- rewrite lookup_insert_ne in Hx by done. pose proof (vo_refs _ _ _ Hv x o' Hx) as Hx2. by rewrite owned_cons, decide_False, Z.add_0_l in Hx2 by done.
      * intros x Hx. apply Hdom, (vo_owned _ _ _ Hv). by right.
      * intros x Hx. apply Hdom. by apply (vo_current _ _ _ Hv).
      * unfold listed. cbn [vl_objects vl_list]. rewrite (listed_insert vl id o) by done. apply Hv.
    + intros x _. cbn. destruct (decide (x = id)) as [->|]; [by rewrite lookup_insert_eq, Ho|by rewrite lookup_insert_ne].
Qed.

Definition with_current (c : option nat) (vl : VersionList) : VersionList :=
  {| vl_list := vl_list vl; vl_objects := vl_objects vl; vl_files := vl_files vl; vl_current := c |}.

Lemma Unref_with_current id c vl : Version_Unref id (with_current c vl) = with_current c <$> Version_Unref id vl.
Proof.
  unfold Version_Unref. cbn [vl_objects with_current vl_files vl_list]. destruct (vl_objects vl !! id) as [o|]; [|done]. cbn [mbind option_bind].
  destruct (negb _); [done|]. destruct (_ =? _); [|done]. by destruct (unref_all _ _).
Qed.

Lemma add_version owners X vl id v : vl_ok owners (all_files v ++ X) vl → vl_current vl = None → vl_objects vl !! id = None →
  vl_ok owners X {| vl_list := vl_list vl ++ [id]; vl_objects := <[id := {| v_version := v; v_refs := 1 |}]> (vl_objects vl);
                    vl_files := vl_files vl; vl_current := Some id |}.
Proof.
  intros Hv Hc Hid. assert (id ∉ vl_list vl) as Hni by (intros [o Ho]%(vo_live _ _ _ Hv); congruence).
  assert (owned id owners = 0) as Hown.
  { unfold owned. destruct (filter (λ x, x = id) owners) as [|y l] eqn:E; [done|]. assert (y ∈ filter (λ x, x = id) owners) as [-> Hy]%list_elem_of_filter by (rewrite E; left).
    destruct (vo_owned _ _ _ Hv id Hy). congruence. }
  split; cbn [vl_list vl_objects vl_files vl_current].
  - apply NoDup_app. split; [apply Hv|]. split; [|apply NoDup_singleton]. by intros x Hx ->%list_elem_of_singleton.
  - intros x. rewrite elem_of_app, list_elem_of_singleton, (vo_live _ _ _ Hv). destruct (decide (x = id)) as [->|Hne].
    + rewrite lookup_insert_eq. split; [by eexists|by right].
    + rewrite lookup_insert_ne by done. split; [by intros [?|?]|by left].
  - intros x o. destruct (decide (x = id)) as [->|Hne].
    + rewrite lookup_insert_eq. intros [= <-]. rewrite decide_True by done. cbn. lia.
    + rewrite lookup_insert_ne by done. intros Ho. pose proof (vo_refs _ _ _ Hv x o Ho) as Hr. rewrite Hc in Hr.
      rewrite decide_False in Hr by done. by rewrite decide_False by congruence.
  - intros x Hx. rewrite lookup_insert_ne; [by apply (vo_owned _ _ _ Hv)|]. intros <-. destruct (vo_owned _ _ _ Hv id Hx). congruence.
  - intros x [= <-]. rewrite lookup_insert_eq. by eexists.
  - pose proof (vo_counted _ _ _ Hv) as Hcount. unfold listed in *. cbn [vl_objects vl_list]. rewrite fmap_app, join_app.
    assert (version_files (<[id := {| v_version := v; v_refs := 1 |}]> (vl_objects vl)) <$> vl_list vl = version_files (vl_objects vl) <$> vl_list vl) as ->.
    { apply list_fmap_ext. intros i x Hx. unfold version_files. rewrite lookup_insert_ne; [done|]. intros <-. apply Hni. by eapply list_elem_of_lookup_2. }
    cbn [fmap list_fmap mjoin list_join]. unfold version_files at 2. rewrite lookup_insert_eq. cbn [v_version]. rewrite app_nil_r.
    rewrite <- app_assoc in Hcount. by rewrite app_assoc, (Permutation_app_comm _ (all_files v)).
Qed.

Lemma AppendVersion_ok owners X vl v : vl_ok owners (all_files v ++ X) vl →
  ∃ vl', AppendVersion v vl = Some vl' ∧ vl_ok owners X vl' ∧ current_version vl' = Some v ∧
    ∀ x, x ∈ owners → v_version <$> vl_objects vl' !! x = v_version <$> vl_objects vl !! x.
Proof.
  intros Hv. set (id := fresh (dom (vl_objects vl) : gset nat)).
  assert (vl_objects vl !! id = None) as Hid. { apply (not_elem_of_dom (D := gset nat)). apply is_fresh. }
  assert (∀ vl', vl_ok owners (all_files v ++ X) (with_current None vl') → vl_objects vl' !! id = None →
    (∀ x, x ∈ owners → v_version <$> vl_objects vl' !! x = v_version <$> vl_objects vl !! x) →
    let w := {| vl_list := vl_list vl' ++ [id]; vl_objects := <[id := {| v_version := v; v_refs := 1 |}]> (vl_objects vl');
                vl_files := vl_files vl'; vl_current := Some id |} in
    vl_ok owners X w ∧ current_version w = Some v ∧ ∀ x, x ∈ owners → v_version <$> vl_objects w !! x = v_version <$> vl_objects vl !! x) as Hadd.
  { intros vl' Hv' Hid' Hsame w. split; [by apply (add_version owners X (with_current None vl'))|].
    split; [unfold current_version; cbn; by rewrite lookup_insert_eq|]. intros x Hx. cbn. rewrite lookup_insert_ne; [by apply Hsame|].
    intros <-. destruct (vo_owned _ _ _ Hv' id Hx) as [o Ho]. cbn in Ho. congruence. }
  unfold AppendVersion. fold id. destruct (vl_current vl) as [c|] eqn:Hc.
  - assert (vl_ok (c :: owners) (all_files v ++ X) (with_current None vl)) as Hv1.
    { split; cbn [with_current vl_list vl_objects vl_files vl_current]; [apply Hv|apply (vo_live _ _ _ Hv)| | |done|apply Hv].
      - intros x o Ho. destruct (vo_refs _ _ _ Hv x o Ho) as [Hr Hge]. rewrite owned_cons. rewrite Hc in Hr.
        destruct (decide (c = x)) as [->|]; [rewrite decide_True in Hr by done|rewrite decide_False in Hr by congruence]; destruct (decide (None = Some x)); (done || lia).
      - intros x [->|Hx]%elem_of_cons; [by apply (vo_current _ _ _ Hv)|by apply (vo_owned _ _ _ Hv)]. }
    destruct (Version_Unref_ok _ _ _ _ Hv1) as (vl1 & Hu & Hok1 & Hc1 & Hnone & Hsame). rewrite Unref_with_current in Hu.
    destruct (Version_Unref c vl) as [vl2|] eqn:E; [|done]. injection Hu as <-. cbn [mbind option_bind].
    destruct (Hadd vl2) as (H1 & H2 & H3); [done|by apply Hnone|intros x Hx; apply Hsame; by right|]. by eexists.
  - cbn [mbind option_bind]. destruct (Hadd vl) as (H1 & H2 & H3); [|done|done|by eexists].
    by destruct vl; cbn in Hc; subst.
Qed.

(** ** Installing a version *)

Section version_set_proofs.
Context {C : Type} `{!Comparator C} {uvalid : list byte → Prop} `{!ComparatorLaws C uvalid} (icmp : InternalKeyComparator C).
Context {E : Type} `{!FileSystem E}.
Context (dbname comparator_name : list byte) (max_file_size : Z) (reuse_logs : bool).
Notation VersionSet := (VersionSet (E := E)).
Notation version_maps := (version_maps (uvalid := uvalid) icmp).
Notation file_map := (gmap (Z * Z) FileMetaData).
Implicit Types (vs : VersionSet) (m : file_map) (e : E).

(** The current version holds the files of [m]. *)
Record vs_ok (owners : list nat) m vs : Prop := {
  vk_list : vl_ok owners [] (vs_versions vs);
  vk_current : ∃ v, current_version (vs_versions vs) = Some v ∧ version_maps v m;
  vk_pointers : length (vs_compact_pointer_ vs) = kNumLevels;
}.

(** An edit that can follow: its levels and keys are in range, the files it adds
    are new to their levels, and the files it leaves do not overlap. *)
Record edit_follows (edit : VersionEdit) m : Prop := {
  ef_valid : edit_valid (uvalid := uvalid) edit;
  ef_nodup : NoDup (adds edit);
  ef_new k : k ∈ adds edit → m !! k = None;
  ef_ok : map_ok (uvalid := uvalid) icmp (spec_edit edit m);
  ef_disjoint : map_disjoint icmp (spec_edit edit m);
}.

Lemma version_maps_files v v' m : files_ v = files_ v' → version_maps v m → version_maps v' m.
Proof.
  intros Hf Hv. assert (∀ l, level_files v' l = level_files v l) as Hl by (intros l; unfold level_files; by rewrite Hf).
  destruct Hv as [H1 H2 H3 H4 H5 H6]. split; [congruence| |done|intros l; rewrite Hl..]; try done. intros l n x. by rewrite Hl.
Qed.

Lemma Finalize_files v : files_ (Finalize v) = files_ v.
Proof. unfold Finalize. by destruct (foldl _ _ _). Qed.

Lemma follows_not_in_base edit m v : edit_follows edit m → version_maps v m → ∀ k, k ∈ adds edit → not_in_base v k.
Proof.
  intros Hf Hv [l n] Hk f Hin Hn. cbn in *. pose proof (ef_new _ _ Hf _ Hk) as Hnone.
  assert (0 <= l) as Hl. { apply list_elem_of_fmap in Hk as (x & [= -> ->] & Hx). by destruct (proj1 (Forall_forall _ _) (ev_new _ (ef_valid _ _ Hf)) x Hx) as [[? ?] _]. }
  assert (m !! (Z.of_nat (Z.to_nat l), n) = Some (f_meta f)) as Hm by (apply (vm_iff _ _ _ Hv); by exists f).
  rewrite Z2Nat.id in Hm by done. congruence.
Qed.

Lemma current_inv vl v : current_version vl = Some v → ∃ c o, vl_current vl = Some c ∧ vl_objects vl !! c = Some o ∧ v_version o = v.
Proof.
  unfold current_version. destruct (vl_current vl) as [c|]; [|done]. cbn. intros (o & Ho & Hv)%fmap_Some. eauto.
Qed.

Lemma current_eq vl vl' : vl_current vl' = vl_current vl →
  (∀ x, vl_current vl = Some x → v_version <$> vl_objects vl' !! x = v_version <$> vl_objects vl !! x) → current_version vl' = current_version vl.
Proof. intros Hc Hs. unfold current_version. rewrite Hc. destruct (vl_current vl) as [c|]; [|done]. cbn. by apply Hs. Qed.

Lemma live_version owners X vl id o : vl_ok owners X vl → vl_objects vl !! id = Some o → live (all_files (v_version o)) (vl_files vl).
Proof.
  intros Hv Ho f Hf. apply (counted_live _ _ (vo_counted _ _ _ Hv)). apply elem_of_app. right. apply list_elem_of_join.
  exists (all_files (v_version o)). split; [done|]. apply list_elem_of_fmap. exists id. unfold version_files. rewrite Ho. split; [done|].
  apply (vo_live _ _ _ Hv). by eexists.
Qed.

Lemma build_next_spec owners m vs edit : vs_ok owners m vs → edit_follows edit m →
  ∃ v vl, build_next icmp edit vs = Some (v, set_versions vl (spec_pointers edit (vs_compact_pointer_ vs)) vs) ∧
    version_maps v (spec_edit edit m) ∧ (∀ l, (0 < l)%nat → StronglySorted (λ f g : File, Compare icmp (rep_ (largest f)) (rep_ (smallest g)) < 0) (level_files v l)) ∧
    vl_ok owners (all_files v) vl ∧ current_version vl = current_version (vs_versions vs) ∧
    (∀ x, x ∈ owners → v_version <$> vl_objects vl !! x = v_version <$> vl_objects (vs_versions vs) !! x) ∧
    length (spec_pointers edit (vs_compact_pointer_ vs)) = kNumLevels.
Proof.
  intros [Hl (base & Hcur & Hm) Hcp] Hf. destruct (current_inv _ _ Hcur) as (c & o & Hc & Ho & Hb).
  unfold build_next. rewrite Hc. cbn [mbind option_bind].
  destruct (Version_Ref_ok _ _ _ c Hl ltac:(by eexists)) as (vl1 & -> & Hl1 & Hc1 & Hf1 & Hs1). cbn [mbind option_bind].
  rewrite (current_eq (vs_versions vs) vl1 Hc1) by (intros; apply Hs1). rewrite Hcur. cbn [mbind option_bind].
  pose proof (vo_counted _ _ _ Hl1) as Hcount.
  destruct (Builder_Apply_spec icmp edit (Builder_new base) m (vs_compact_pointer_ vs) (listed vl1) (vl_files vl1) [])
    as (b & h1 & -> & Hbase & Hb1 & Hcount1 & _ & Hlen); [by apply building_new|done| |done|apply Hf|apply Hf| |].
  { intros l s f [-> _]%lookup_replicate. by intros ?%not_elem_of_nil. }
  { intros k Hk. split; [apply not_elem_of_nil|]. by apply (follows_not_in_base edit m). }
  cbn [mbind option_bind].
  assert (v_version <$> vl_objects vl1 !! c = Some base) as (o1 & Ho1 & Hv1)%fmap_Some by (by rewrite Hs1, Ho, <- Hb).
  assert (∀ f, f ∈ all_files base → f ∈ all_added b ++ listed vl1) as Hin.
  { intros f Hfb. apply elem_of_app. right. apply list_elem_of_join. exists (all_files base). split; [done|].
    apply list_elem_of_fmap. exists c. unfold version_files. rewrite Ho1, Hv1. split; [done|]. apply (vo_live _ _ _ Hl1). by eexists. }
  destruct (Builder_SaveTo_spec icmp b (spec_edit edit m) m (listed vl1) h1 Hb1) as (v & h2 & -> & Hv & Hcount2 & Hsorted);
    [by rewrite Hbase|apply Hf|apply Hf|done| |].
  { rewrite Hbase. intros f Hfb. apply (counted_live _ _ Hcount1). by apply Hin. }
  cbn [mbind option_bind]. rewrite (Permutation_app_swap_app (mjoin (files_ v))) in Hcount2.
  destruct (counted_unref_all _ _ _ Hcount2) as (h3 & Hu & Hcount3). change (Builder_delete b h2) with (unref_all (all_added b) h2). rewrite Hu. cbn [mbind option_bind].
  assert (vl_ok (c :: owners) (all_files v) (with_files h3 vl1)) as Hl3.
  { split; cbn [with_files vl_list vl_objects vl_files vl_current];
      [apply Hl1|apply (vo_live _ _ _ Hl1)|apply (vo_refs _ _ _ Hl1)|apply (vo_owned _ _ _ Hl1)|apply (vo_current _ _ _ Hl1)|done]. }
  destruct (Version_Unref_ok _ _ _ _ Hl3) as (vl4 & -> & Hl4 & Hc4 & _ & Hs4). cbn [mbind option_bind].
  exists v, vl4. split; [done|]. split; [done|]. split; [done|]. split; [done|]. split; [|split; [|done]].
  - rewrite <- Hcur. transitivity (current_version (with_files h3 vl1)); [apply current_eq; [done|intros x Hx; apply Hs4; by left]|].
    transitivity (current_version vl1); [done|]. apply current_eq; [done|intros; apply Hs1].
  - intros x Hx. rewrite Hs4 by (by right). cbn. apply Hs1.
Qed.

(** Writing the descriptor changes the descriptor only. *)
Definition same_state vs vs' : Prop :=
  vs_versions vs' = vs_versions vs ∧ vs_compact_pointer_ vs' = vs_compact_pointer_ vs ∧ vs_next_file_number_ vs' = vs_next_file_number_ vs ∧
  vs_manifest_file_number_ vs' = vs_manifest_file_number_ vs ∧ vs_last_sequence_ vs' = vs_last_sequence_ vs ∧
  vs_log_number_ vs' = vs_log_number_ vs ∧ vs_prev_log_number_ vs' = vs_prev_log_number_ vs.

Lemma same_state_trans vs1 vs2 vs3 : same_state vs1 vs2 → same_state vs2 vs3 → same_state vs1 vs3.
Proof. unfold same_state. intros H1 H2. destruct_and!. split_and!; congruence. Qed.

Lemma new_descriptor_same vs e vs' e' s name : new_descriptor dbname comparator_name vs e = Some (vs', e', s, name) → same_state vs vs'.
Proof.
  unfold new_descriptor. destruct (vs_descriptor_log_ vs); [intros [= <- <- <- <-]; by split_and!|]. destruct (vs_descriptor_file_ vs); [done|].
  destruct (fs_NewWritableFile _ e) as [[[e1 file] s1]|]; [|done]. cbn [mbind option_bind]. destruct (ok s1); [|intros [= <- <- <- <-]; by split_and!].
  destruct file as [file|]; [|done]. cbn [mbind option_bind]. destruct (WriteSnapshot _ _ _) as [[log s2]|]; [|done]. cbn [mbind option_bind].
  destruct (dest_ log) as [[e2 file2]|]; [|done]. intros [= <- <- <- <-]; by split_and!.
Qed.

Lemma log_edit_same edit vs e vs' e' s : log_edit edit vs e = Some (vs', e', s) → same_state vs vs'.
Proof.
  unfold log_edit. destruct (VersionEdit_EncodeTo [] edit); [|done]. cbn [mbind option_bind]. destruct (vs_descriptor_file_ vs); [|done]. cbn [mbind option_bind].
  destruct (vs_descriptor_log_ vs); [|done]. cbn [mbind option_bind]. destruct (AddRecord _ _) as [[log s1]|]; [|done]. cbn [mbind option_bind].
  destruct (dest_ log) as [[e1 file]|]; [|done]. cbn [mbind option_bind]. destruct (if ok s1 then _ else _) as [[e2 s2]|]; [|done].
  intros [= <- <- <-]; by split_and!.
Qed.

Lemma complete_edit_same edit edit' vs : complete_edit edit vs = Some edit' →
  compact_pointers_ edit' = compact_pointers_ edit ∧ deleted_files_ edit' = deleted_files_ edit ∧ new_files_ edit' = new_files_ edit ∧
  (log_number_ edit' = Some (default (vs_log_number_ vs) (log_number_ edit))) ∧ prev_log_number_ edit' = Some (default (vs_prev_log_number_ vs) (prev_log_number_ edit)) ∧
  next_file_number_ edit' = Some (vs_next_file_number_ vs) ∧ last_sequence_ edit' = Some (vs_last_sequence_ vs) ∧ comparator_ edit' = comparator_ edit.
Proof.
  unfold complete_edit. destruct (log_number_ edit) as [n|] eqn:El.
  - destruct (_ && _); [|done]. cbn [mbind option_bind]. destruct (prev_log_number_ edit) as [p|] eqn:Ep; intros [= <-]; by rewrite ?El, ?Ep.
  - cbn [mbind option_bind prev_log_number_ SetLogNumber]. destruct (prev_log_number_ edit) as [p|] eqn:Ep; intros [= <-]; by rewrite ?El, ?Ep.
Qed.

Lemma follows_complete edit edit' vs m : complete_edit edit vs = Some edit' → edit_follows edit m → edit_follows edit' m ∧ spec_edit edit' m = spec_edit edit m ∧
  spec_pointers edit' = spec_pointers edit ∧ adds edit' = adds edit.
Proof.
  intros (Hp & Hd & Hn & _)%complete_edit_same [H1 H2 H3 H4 H5]. assert (spec_edit edit' m = spec_edit edit m) as Hs by (unfold spec_edit; by rewrite Hd, Hn).
  assert (adds edit' = adds edit) as Ha by (unfold adds; by rewrite Hn). split; [|split_and!; [done| |done]].
  - split; rewrite ?Ha, ?Hs; try done. destruct H1 as [K1 K2 K3]. split; by rewrite ?Hp, ?Hd, ?Hn.
  - unfold spec_pointers. by rewrite Hp.
Qed.

(** Whatever the file system does. *)
Lemma LogAndApply_effect owners m vs edit e vs' e' s : vs_ok owners m vs → edit_follows edit m →
  LogAndApply icmp dbname comparator_name edit vs e = Some (vs', e', s) →
  vs_ok owners (if ok s then spec_edit edit m else m) vs' ∧
  (ok s = false → current_version (vs_versions vs') = current_version (vs_versions vs)) ∧
  (∀ x, x ∈ owners → v_version <$> vl_objects (vs_versions vs') !! x = v_version <$> vl_objects (vs_versions vs) !! x) ∧
  vs_log_number_ vs' = (if ok s then default (vs_log_number_ vs) (log_number_ edit) else vs_log_number_ vs) ∧
  vs_prev_log_number_ vs' = (if ok s then default (vs_prev_log_number_ vs) (prev_log_number_ edit) else vs_prev_log_number_ vs).
Proof.
  intros Hok Hf. unfold LogAndApply. destruct (complete_edit edit vs) as [edit'|] eqn:Hce; [|done]. cbn [mbind option_bind].
  destruct (follows_complete _ _ _ _ Hce Hf) as (Hf' & Hse & Hsp & _). destruct (complete_edit_same _ _ _ Hce) as (_ & _ & _ & Hlog & Hprev & _).
  destruct (build_next_spec owners m vs edit' Hok Hf') as (v & vl & -> & Hv & _ & Hl & Hcur & Hsame & Hcp). cbn [mbind option_bind].
  destruct (new_descriptor _ _ _ _) as [[[[vs1 e1] s1] name]|] eqn:Hnd; [|done]. cbn [mbind option_bind]. apply new_descriptor_same in Hnd.
  destruct (if ok s1 then log_edit edit' vs1 e1 else _) as [[[vs2 e2] s2]|] eqn:Hle; [|done]. cbn [mbind option_bind].
  assert (same_state vs1 vs2) as Hle'. { destruct (ok s1); [by apply log_edit_same in Hle|]. injection Hle as <- <- <-. by split_and!. }
  destruct (same_state_trans _ _ _ Hnd Hle') as (Hs1 & Hs2 & _ & _ & _ & Hs3 & Hs4). cbn [vs_versions vs_compact_pointer_ set_versions vs_log_number_ vs_prev_log_number_] in Hs1, Hs2, Hs3, Hs4.
  destruct (if ok s2 && _ then _ else _) as [[e3 s3]|]; [|done]. cbn [mbind option_bind]. rewrite Hs1, Hs2.
  assert (vl_ok owners (all_files (Finalize v) ++ []) vl) as Hl' by (unfold all_files; by rewrite Finalize_files, app_nil_r).
  destruct (ok s3) eqn:Hs.
  - destruct (AppendVersion_ok _ _ _ _ Hl') as (vl' & -> & Hl'' & Hcur' & Hsame'). rewrite Hlog, Hprev. cbn [mbind option_bind].
    intros [= <- <- <-]. rewrite Hs. split_and!; try done; [|by intros x Hx; cbn; rewrite Hsame', Hsame].
    split; [done| |done]. exists (Finalize v). split; [done|]. rewrite <- Hse. by apply (version_maps_files v); [rewrite Finalize_files|].
  - pose proof (vo_counted _ _ _ Hl') as Hc. rewrite app_nil_r in Hc. destruct (counted_unref_all _ _ _ Hc) as (h & -> & Hc'). cbn [mbind option_bind].
    assert (vs_ok owners m (set_versions (with_files h vl) (spec_pointers edit' (vs_compact_pointer_ vs)) vs2)) as Hok'.
    { destruct Hok as [Hok1 (v0 & Hv0 & Hm0) Hok3]. split; [|exists v0; split; [cbn; by rewrite <- Hv0, <- Hcur|done]|done].
      destruct Hl as [K1 K2 K3 K4 K5 K6]. by split. }
    destruct name as [name|].
    + destruct (match vs_descriptor_file_ _ with Some _ => _ | None => _ end) as [e4|]; [|done]. cbn [mbind option_bind].
      destruct (fs_RemoveFile name e4) as [[e5 ?]|]; [|done]. cbn [mbind option_bind]. intros [= <- <- <-]. rewrite Hs. split_and!; try done.
      by destruct Hok'.
    + intros [= <- <- <-]. rewrite Hs. by split_and!.
Qed.

(** ** Reading a descriptor back *)

Definition name_matches (edit : VersionEdit) : Prop := comparator_ edit = None ∨ comparator_ edit = Some comparator_name.

Definition note (r : recovered) (edit : VersionEdit) : recovered :=
  {| r_log_number := newer (log_number_ edit) (r_log_number r); r_prev_log_number := newer (prev_log_number_ edit) (r_prev_log_number r);
     r_next_file := newer (next_file_number_ edit) (r_next_file r); r_last_sequence := newer (last_sequence_ edit) (r_last_sequence r) |}.

Definition decodes (record : list byte) (edit : VersionEdit) : Prop :=
  VersionEdit_DecodeFrom record = Some (edit, Status_OK) ∧ name_matches edit.

Lemma name_matches_status edit s : name_matches edit →
  match comparator_ edit with
  | Some name => if bool_decide (name = comparator_name) then s else InvalidArgument (name ++ str " does not match existing comparator ") comparator_name
  | None => s
  end = s.
Proof. intros [->| ->]; [done|]. by rewrite bool_decide_true. Qed.

Lemma recover_loop_reads {wf : open_sequential E → Prop} {rest : open_sequential E → list byte} `{!SequentialFileLaws (open_sequential E) wf rest}
    fuel reader ds reader' : reads_records fuel reader ds reader' →
  wf (file_ reader) → reports reader' = reports reader → ∀ es b cp h b' cp' h' r n,
  Forall2 decodes ds es → apply_edits icmp es (b, cp, h) = Some (b', cp', h') → (length ds < n)%nat →
  recover_loop icmp comparator_name n fuel reader Status_OK b cp h r = Some (reader', Status_OK, b', cp', h', foldl note r es).
Proof.
  induction 1 as [reader reader' Hr|reader d reader1 ds reader' Hr Hrs IH]; intros Hwf Hrep es b cp h b' cp' h' r n Hd Ha Hn; (destruct n as [|n]; [lia|]).
  - apply Forall2_nil_inv_l in Hd as ->. injection Ha as <- <- <-. cbn [recover_loop]. rewrite Hr. cbn [mbind option_bind]. by rewrite Hrep, drop_all.
  - pose proof (ReadRecord_later (rest := rest) _ _ _ _ Hwf Hr) as [Hw1 Hp1]. pose proof (reads_later (rest := rest) _ _ _ _ Hrs (Hw1 Hwf)) as [_ Hp2].
    assert (reports reader1 = reports reader) as Hrep1. { rewrite Hrep in Hp2. apply prefix_length_eq; [done|]. by apply prefix_length. }
    apply Forall2_cons_inv_l in Hd as (edit & es' & [Hdec Hname] & Hd & ->).
    unfold apply_edits in Ha. cbn [fold_opt] in Ha. destruct (Builder_Apply icmp edit b cp h) as [[[b1 cp1] h1]|] eqn:Hb; [|done]. cbn [mbind option_bind] in Ha.
    cbn [recover_loop]. rewrite Hr. cbn [mbind option_bind]. rewrite Hrep1, drop_all. cbn [reporter_status foldl ok state_ Status_OK negb].
    rewrite Hdec. cbn [mbind option_bind ok state_ Status_OK]. rewrite name_matches_status by done. cbn [ok state_ Status_OK]. rewrite Hb. cbn [mbind option_bind].
    apply IH; [by apply Hw1|congruence|done|done|cbn in Hn; lia].
Qed.

(** ** The snapshot *)

Definition level_adds (files : list (list File)) : list (Z * FileMetaData) :=
  mjoin (imap (λ l fs, (λ f : File, (Z.of_nat l, f_meta f)) <$> fs) files).

Lemma add_file_fold l fs : ∀ edit,
  foldl (λ edit (f : File), AddFile l (number f) (file_size f) (smallest f) (largest f) edit) edit fs =
  {| comparator_ := comparator_ edit; log_number_ := log_number_ edit; prev_log_number_ := prev_log_number_ edit;
     next_file_number_ := next_file_number_ edit; last_sequence_ := last_sequence_ edit; compact_pointers_ := compact_pointers_ edit;
     deleted_files_ := deleted_files_ edit; new_files_ := new_files_ edit ++ ((λ f : File, (l, f_meta f)) <$> fs) |}.
Proof.
  induction fs as [|f fs IH]; intros edit; cbn [foldl fmap list_fmap]; [destruct edit; cbn; by rewrite app_nil_r|].
  rewrite IH. cbn [AddFile comparator_ log_number_ prev_log_number_ next_file_number_ last_sequence_ compact_pointers_ deleted_files_ new_files_].
  rewrite <- app_assoc. cbn [app]. destruct f as [p [? ? ? ?]]. done.
Qed.

Lemma snapshot_files_spec files edit :
  snapshot_files files edit =
  {| comparator_ := comparator_ edit; log_number_ := log_number_ edit; prev_log_number_ := prev_log_number_ edit;
     next_file_number_ := next_file_number_ edit; last_sequence_ := last_sequence_ edit; compact_pointers_ := compact_pointers_ edit;
     deleted_files_ := deleted_files_ edit; new_files_ := new_files_ edit ++ level_adds files |}.
Proof.
  unfold snapshot_files, level_adds.
  assert (∀ k edit, foldl (λ edit x, foldl (λ edit (f : File), AddFile (Z.of_nat x.1) (number f) (file_size f) (smallest f) (largest f) edit) edit x.2)
        edit (imap (λ level (fs : list File), ((k + level)%nat, fs)) files) =
    {| comparator_ := comparator_ edit; log_number_ := log_number_ edit; prev_log_number_ := prev_log_number_ edit;
       next_file_number_ := next_file_number_ edit; last_sequence_ := last_sequence_ edit; compact_pointers_ := compact_pointers_ edit;
       deleted_files_ := deleted_files_ edit;
       new_files_ := new_files_ edit ++ mjoin (imap (λ l fs, (λ f : File, (Z.of_nat (k + l), f_meta f)) <$> fs) files) |}) as Hgen; [|apply (Hgen 0%nat)].
  induction files as [|fs files IH]; intros k e'; cbn [imap foldl mjoin list_join]; [destruct e'; cbn; by rewrite app_nil_r|].
  rewrite add_file_fold. cbn [fst snd]. rewrite Nat.add_0_r.
  rewrite (imap_ext ((λ level fs, ((k + level)%nat, fs)) ∘ S) (λ level (fs : list File), ((S k + level)%nat, fs))) by (intros j x _; unfold compose; f_equal; lia).
  rewrite IH. cbn [comparator_ log_number_ prev_log_number_ next_file_number_ last_sequence_ compact_pointers_ deleted_files_ new_files_].
  rewrite <- app_assoc. do 4 f_equal. apply imap_ext. intros j x _. unfold compose. by replace (S k + j)%nat with (k + S j)%nat by lia.
Qed.

Definition stored_pointers (cp : list (list byte)) : list (Z * InternalKey) :=
  mjoin (imap (λ l k, if (length k =? 0)%nat then [] else [(Z.of_nat l, {| rep_ := k |})]) cp).

Lemma snapshot_pointers_spec cp edit :
  snapshot_pointers cp edit =
  {| comparator_ := comparator_ edit; log_number_ := log_number_ edit; prev_log_number_ := prev_log_number_ edit;
     next_file_number_ := next_file_number_ edit; last_sequence_ := last_sequence_ edit; compact_pointers_ := compact_pointers_ edit ++ stored_pointers cp;
     deleted_files_ := deleted_files_ edit; new_files_ := new_files_ edit |}.
Proof.
  unfold snapshot_pointers, stored_pointers.
  assert (∀ k edit, foldl (λ edit x, if (length x.2 =? 0)%nat then edit else SetCompactPointer (Z.of_nat x.1) (InternalKey_DecodeFrom x.2).1 edit)
        edit (imap (λ level (s : list byte), ((k + level)%nat, s)) cp) =
    {| comparator_ := comparator_ edit; log_number_ := log_number_ edit; prev_log_number_ := prev_log_number_ edit;
       next_file_number_ := next_file_number_ edit; last_sequence_ := last_sequence_ edit;
       compact_pointers_ := compact_pointers_ edit ++ mjoin (imap (λ l s, if (length s =? 0)%nat then [] else [(Z.of_nat (k + l), {| rep_ := s |})]) cp);
       deleted_files_ := deleted_files_ edit; new_files_ := new_files_ edit |}) as Hgen; [|apply (Hgen 0%nat)].
  induction cp as [|s cp IH]; intros k e'; cbn [imap foldl mjoin list_join]; [destruct e'; cbn; by rewrite app_nil_r|].
  rewrite (imap_ext ((λ level s, ((k + level)%nat, s)) ∘ S) (λ level (s : list byte), ((S k + level)%nat, s))) by (intros j x _; unfold compose; f_equal; lia).
  rewrite IH. cbn [fst snd]. rewrite Nat.add_0_r.
  rewrite (imap_ext ((λ l s, if (length s =? 0)%nat then [] else [(Z.of_nat (k + l), {| rep_ := s |})]) ∘ S)
    (λ l (s : list byte), if (length s =? 0)%nat then [] else [(Z.of_nat (S k + l), {| rep_ := s |})]))
    by (intros j x _; unfold compose; by replace (S k + j)%nat with (k + S j)%nat by lia).
  destruct (length s =? 0)%nat; [done|].
  cbn [SetCompactPointer comparator_ log_number_ prev_log_number_ next_file_number_ last_sequence_ compact_pointers_ deleted_files_ new_files_ InternalKey_DecodeFrom fst].
  by rewrite <- app_assoc.
Qed.

(** Pointers: the last one written for a level counts. *)
Definition write_pointers (l : list (Z * InternalKey)) (cp : list (list byte)) : list (list byte) :=
  foldl (λ cp x, <[Z.to_nat x.1 := rep_ x.2]> cp) cp l.
Definition last_pointer (i : nat) (l : list (Z * InternalKey)) : option (list byte) :=
  foldl (λ acc x, if decide (Z.to_nat x.1 = i) then Some (rep_ x.2) else acc) None l.

Lemma length_write_pointers l cp : length (write_pointers l cp) = length cp.
Proof. unfold write_pointers. induction l as [|x l IH] using rev_ind; [done|]. rewrite foldl_snoc. by rewrite length_insert. Qed.

Lemma write_pointers_lookup l cp i k : cp !! i = Some k → write_pointers l cp !! i = Some (default k (last_pointer i l)).
Proof.
  intros Hi. induction l as [|x l IH] using rev_ind; [done|]. pose proof (length_write_pointers l cp) as Hlen.
  unfold write_pointers, last_pointer in *. rewrite !foldl_snoc. apply lookup_lt_Some in Hi.
  destruct (decide (Z.to_nat x.1 = i)) as [<-|Hne]; [by rewrite list_lookup_insert_eq by lia|by rewrite list_lookup_insert_ne].
Qed.

Lemma write_pointers_eq l cp cp' : length cp' = length cp →
  (∀ i k k', cp !! i = Some k → cp' !! i = Some k' → default k (last_pointer i l) = k') → write_pointers l cp = cp'.
Proof.
  intros Hlen H. apply list_eq. intros i. destruct (cp !! i) as [k|] eqn:Hk.
  - rewrite (write_pointers_lookup l cp i k Hk). destruct (lookup_lt_is_Some_2 cp' i) as [k' Hk']; [apply lookup_lt_Some in Hk; lia|].
    rewrite Hk'. f_equal. by eapply H.
  - apply lookup_ge_None in Hk. rewrite !lookup_ge_None_2; [done|lia|by rewrite length_write_pointers].
Qed.

Lemma write_pointers_idem l cp : write_pointers l (write_pointers l cp) = write_pointers l cp.
Proof.
  apply write_pointers_eq; [done|]. intros i k k' Hk Hk'. rewrite Hk in Hk'. injection Hk' as <-.
  destruct (cp !! i) as [k0|] eqn:Hk0; [|apply lookup_ge_None in Hk0; rewrite lookup_ge_None_2 in Hk by (by rewrite length_write_pointers); done].
  rewrite (write_pointers_lookup l cp i k0 Hk0) in Hk. injection Hk as <-. by destruct (last_pointer i l).
Qed.

Lemma last_pointer_stored cp i : last_pointer i (stored_pointers cp) =
  match cp !! i with Some k => if (length k =? 0)%nat then None else Some k | None => None end.
Proof.
  assert (∀ cp k, stored_pointers (cp ++ [k]) = stored_pointers cp ++ (if (length k =? 0)%nat then [] else [(Z.of_nat (length cp), {| rep_ := k |})])) as Hsnoc.
  { intros cp' k. unfold stored_pointers. rewrite imap_app, join_app. cbn. rewrite app_nil_r, Nat.add_0_r. done. }
  induction cp as [|k cp IH] using rev_ind; [done|]. rewrite Hsnoc. destruct (decide (i = length cp)) as [->|Hne].
  - rewrite list_lookup_middle by done. rewrite lookup_ge_None_2 in IH by lia. destruct (length k =? 0)%nat; [by rewrite app_nil_r|].
    unfold last_pointer in *. rewrite foldl_snoc. cbn. by rewrite Nat2Z.id, decide_True.
  - assert ((cp ++ [k]) !! i = cp !! i) as ->.
    { destruct (decide (i < length cp)%nat); [by rewrite lookup_app_l|]. rewrite !lookup_ge_None_2; [done|lia|rewrite length_app; cbn; lia]. }
    rewrite <- IH. destruct (length k =? 0)%nat; [by rewrite app_nil_r|]. unfold last_pointer. rewrite foldl_snoc. cbn. by rewrite Nat2Z.id, decide_False.
Qed.

Lemma write_stored_pointers cp : length cp = kNumLevels → write_pointers (stored_pointers cp) (replicate kNumLevels []) = cp.
Proof.
  intros Hlen. apply write_pointers_eq; [by rewrite length_replicate|]. intros i k k' [-> _]%lookup_replicate Hk'. rewrite last_pointer_stored, Hk'.
  destruct (Nat.eqb_spec (length k') 0) as [Hz|]; [|done]. cbn. symmetry. by apply nil_length_inv.
Qed.

(** The files: every file of the map once. *)
Lemma level_adds_elem files x : x ∈ level_adds files ↔ ∃ l fs f, files !! l = Some fs ∧ f ∈ fs ∧ x = (Z.of_nat l, f_meta f).
Proof.
  unfold level_adds. rewrite list_elem_of_join. split.
  - intros (xs & Hx & (l & Hl)%list_elem_of_lookup). apply list_lookup_imap_Some in Hl as (fs & Hfs & ->).
    apply list_elem_of_fmap in Hx as (f & -> & Hf). by exists l, fs, f.
  - intros (l & fs & f & Hl & Hf & ->). exists ((λ f : File, (Z.of_nat l, f_meta f)) <$> fs). split; [apply list_elem_of_fmap; by exists f|].
    apply list_elem_of_lookup. exists l. by rewrite list_lookup_imap, Hl.
Qed.

Lemma insert_all_lookup L : ∀ m k x, NoDup (add_key <$> L) → (∀ y, y ∈ L → m !! add_key y = None) →
  foldl (λ m y, <[add_key y := y.2]> m) m L !! k = Some x ↔ m !! k = Some x ∨ ∃ y, y ∈ L ∧ add_key y = k ∧ y.2 = x.
Proof.
  induction L as [|y L IH]; intros m k x Hnd Hnone; cbn [foldl].
  - split; [by left|intros [?|(y & ?%not_elem_of_nil & _)]; done].
  - cbn in Hnd. apply NoDup_cons in Hnd as [Hy Hnd]. rewrite IH; [|done|].
    + rewrite lookup_insert_Some. setoid_rewrite elem_of_cons. split.
      * intros [[[<- <-]|[Hne Hm]]|(z & Hz & Hk)]; [right; exists y; by split; [left|]|by left|right; exists z; by split; [right|]].
      * intros [Hm|(z & [->|Hz] & <- & <-)]; [|left; by left|right; by exists z]. left. right. split; [|done].
        intros <-. rewrite Hnone in Hm; [done|left].
    + intros z Hz. rewrite lookup_insert_ne; [apply Hnone; by right|]. intros Heq. apply Hy. rewrite Heq. by apply list_elem_of_fmap_2.
Qed.

Lemma level_adds_nodup v m : version_maps v m → NoDup (add_key <$> level_adds (files_ v)).
Proof.
  intros Hv. assert (∀ k, NoDup (add_key <$> mjoin (imap (λ l fs, (λ f : File, (Z.of_nat (k + l), f_meta f)) <$> fs) (drop k (files_ v))))) as Hgen; [|apply (Hgen 0%nat)].
  assert (∀ l fs, files_ v !! l = Some fs → NoDup (number ∘ f_meta <$> fs)) as Hlev.
  { intros l fs Hl. pose proof (vm_nodup _ _ _ Hv l) as Hn. unfold level_files in Hn. by rewrite Hl in Hn. }
  intros k. remember (drop k (files_ v)) as l eqn:Hl. revert k Hl. induction l as [|fs l IH]; intros k Hl; cbn [imap mjoin list_join]; [constructor|].
  assert (files_ v !! k = Some fs) as Hk by (rewrite <- (Nat.add_0_r k), <- lookup_drop, <- Hl; done).
  assert (l = drop (S k) (files_ v)) as Hl' by (rewrite <- Nat.add_1_r, <- drop_drop, <- Hl; done).
  rewrite (imap_ext ((λ l fs, (λ f : File, (Z.of_nat (k + l), f_meta f)) <$> fs) ∘ S) (λ l fs, (λ f : File, (Z.of_nat (S k + l), f_meta f)) <$> fs))
    by (intros j x _; unfold compose; by replace (S k + j)%nat with (k + S j)%nat by lia).
  rewrite fmap_app. apply NoDup_app. split_and!; [| |by apply IH].
  - rewrite <- list_fmap_compose. specialize (Hlev k fs Hk). clear Hl Hk. induction fs as [|f fs IHf]; cbn; [constructor|]. cbn in Hlev.
    apply NoDup_cons in Hlev as [Hf Hlev]. apply NoDup_cons. split; [|by apply IHf]. intros (g & [= Heq] & Hg)%list_elem_of_fmap. apply Hf. cbn in Heq. rewrite Heq. by apply (list_elem_of_fmap_2 (number ∘ f_meta)).
  - intros x (y & -> & (f & -> & _)%list_elem_of_fmap)%list_elem_of_fmap (z & Heq & (xs & Hz & (j & Hj)%list_elem_of_lookup)%list_elem_of_join)%list_elem_of_fmap.
    apply list_lookup_imap_Some in Hj as (fs' & _ & ->). apply list_elem_of_fmap in Hz as (g & -> & _). unfold add_key in Heq. cbn [fst snd] in Heq. injection Heq as Heq _. lia.
Qed.

Lemma snapshot_adds v m : version_maps v m → ∀ k x, m !! k = Some x ↔ ∃ y, y ∈ level_adds (files_ v) ∧ add_key y = k ∧ y.2 = x.
Proof.
  intros Hv [l n] x. split.
  - intros Hm. pose proof (vm_range _ _ _ Hv l n ltac:(by eexists)) as Hl. rewrite <- (Z2Nat.id l) in Hm by done.
    apply (vm_iff _ _ _ Hv) in Hm as (f & Hf & <- & <-). exists (l, f_meta f). split; [|done]. unfold level_files in Hf.
    destruct (files_ v !! Z.to_nat l) as [fs|] eqn:El; [|by apply not_elem_of_nil in Hf]. apply level_adds_elem. exists (Z.to_nat l), fs, f. by rewrite Z2Nat.id.
  - intros (y & (l' & fs & f & Hl & Hf & ->)%level_adds_elem & [= <- <-] & <-). cbn. apply (vm_iff _ _ _ Hv). exists f. unfold level_files. by rewrite Hl.
Qed.

Lemma snapshot_map v m : version_maps v m → foldl (λ m y, <[add_key y := y.2]> m) ∅ (level_adds (files_ v)) = m.
Proof.
  intros Hv. apply map_eq. intros k. apply option_eq. intros x. rewrite insert_all_lookup; [|by apply (level_adds_nodup v m)|done].
  rewrite (snapshot_adds v m Hv). split; [intros [?|?]; done|by right].
Qed.

Lemma VersionSet_new_ok : ∃ vs : VersionSet, VersionSet_new = Some vs ∧ vs_ok [] ∅ vs ∧ vs_compact_pointer_ vs = replicate kNumLevels [] ∧
  vs_descriptor_file_ vs = None ∧ vs_descriptor_log_ vs = None.
Proof.
  unfold VersionSet_new. destruct (AppendVersion_ok [] [] {| vl_list := []; vl_objects := ∅; vl_files := ∅; vl_current := None |} Version_new) as (vl & -> & Hl & Hcur & _).
  { split; cbn [vl_list vl_objects vl_files vl_current]; [apply NoDup_nil_2|intros id; rewrite lookup_empty; by split; [intros ?%not_elem_of_nil|intros [? ?]]|done|by intros id ?%not_elem_of_nil|done|intros p; by rewrite lookup_empty]. }
  cbn [mbind option_bind]. eexists. split; [done|]. split_and!; try done. split; [done| |done]. exists Version_new. split; [done|].
  assert (∀ l, level_files Version_new l = []) as He by (intros l; by do 7 (destruct l as [|l]; [done|])).
  split; [done| | |intros l; rewrite He; (apply NoDup_nil_2 || constructor)..].
  - intros l n x. rewrite He, lookup_empty. split; [done|]. by intros (f & ?%not_elem_of_nil & _).
  - intros l n [x Hx]. by rewrite lookup_empty in Hx.
Qed.

(** ** Holders of versions *)

#[export] Instance vl_ok_proper : Proper ((≡ₚ) ==> eq ==> eq ==> iff) vl_ok.
Proof.
  intros o1 o2 Ho X ? <- vl ? <-. assert (∀ o1 o2, o1 ≡ₚ o2 → vl_ok o1 X vl → vl_ok o2 X vl) as H; [|by split; apply H].
  clear. intros o1 o2 Ho [H1 H2 H3 H4 H5 H6]. split; try done; [|intros id Hid; apply H4; by rewrite Ho].
  intros id o Hid. unfold owned. rewrite <- Ho. by apply H3.
Qed.

Lemma live_numbers_spec ids objects : ∀ live, (∀ id, id ∈ ids → is_Some (objects !! id)) →
  ∃ live', live_numbers ids objects live = Some live' ∧ ∀ n, n ∈ live' ↔ n ∈ live ∨ ∃ f : File, f ∈ mjoin (version_files objects <$> ids) ∧ number f = n.
Proof.
  induction ids as [|id ids IH]; intros live Hids; cbn [live_numbers].
  - exists live. split; [done|]. intros n. split; [by left|]. by intros [?|(f & ?%not_elem_of_nil & _)].
  - destruct (Hids id ltac:(left)) as [o Ho]. rewrite Ho. cbn [mbind option_bind].
    destruct (IH (live ∪ list_to_set (number ∘ f_meta <$> all_files (v_version o)))) as (live' & -> & Hn); [intros x Hx; apply Hids; by right|].
    exists live'. split; [done|]. intros n. cbn [fmap list_fmap mjoin list_join]. rewrite Hn, elem_of_union, elem_of_list_to_set, list_elem_of_fmap. unfold version_files at 2. rewrite Ho.
    setoid_rewrite elem_of_app. split; [intros [[?|(f & -> & Hf)]|(f & Hf & <-)]|intros [?|(f & [Hf|Hf] & <-)]]; [by left|right; exists f; tauto|right; exists f; tauto|by left; left|left; right; by exists f|right; by exists f].
Qed.

Lemma listed_elem owners X vl f : vl_ok owners X vl → f ∈ listed vl ↔ ∃ id o, vl_objects vl !! id = Some o ∧ f ∈ all_files (v_version o).
Proof.
  intros Hv. unfold listed. rewrite list_elem_of_join. split.
  - intros (fs & Hf & (id & -> & Hid)%list_elem_of_fmap). apply (vo_live _ _ _ Hv) in Hid as [o Ho]. exists id, o. unfold version_files in Hf. by rewrite Ho in Hf.
  - intros (id & o & Ho & Hf). exists (all_files (v_version o)). split; [done|]. apply list_elem_of_fmap. exists id. unfold version_files. rewrite Ho.
    split; [done|]. apply (vo_live _ _ _ Hv). by eexists.
Qed.

Lemma held_iff owners X vl id : vl_ok owners X vl → is_Some (vl_objects vl !! id) ↔ id ∈ owners ∨ vl_current vl = Some id.
Proof.
  intros Hv. split; [|intros [?|?]; [by apply (vo_owned _ _ _ Hv)|by apply (vo_current _ _ _ Hv)]].
  intros [o Ho]. destruct (vo_refs _ _ _ Hv id o Ho) as [Hr Hge]. destruct (decide (vl_current vl = Some id)); [by right|left].
  unfold owned in Hr. destruct (filter (λ x, x = id) owners) as [|x l] eqn:Hfil; [cbn in Hr; lia|].
  assert (x ∈ filter (λ x, x = id) owners) as Hx by (rewrite Hfil; left). by apply list_elem_of_filter in Hx as [-> ?].
Qed.

(** ** Claims *)

(** C16: applying an edit is all or nothing.  Whatever the file system answers,
    [LogAndApply] either succeeds and the current version then holds exactly the
    files the edit leaves, sorted by smallest key, or it fails
    and the current version and the log numbers are what they were.  The
    versions others hold do not change, and every reference count stays exact. *)
Theorem log_and_apply_atomic owners m vs edit e vs' e' s v :
  vs_ok owners m vs → edit_follows edit m → current_version (vs_versions vs) = Some v →
  LogAndApply icmp dbname comparator_name edit vs e = Some (vs', e', s) →
  ∃ v', current_version (vs_versions vs') = Some v' ∧ vl_ok owners [] (vs_versions vs') ∧
    (if ok s then version_maps v' (spec_edit edit m) ∧
       vs_log_number_ vs' = default (vs_log_number_ vs) (log_number_ edit) ∧ vs_prev_log_number_ vs' = default (vs_prev_log_number_ vs) (prev_log_number_ edit)
     else v' = v ∧ vs_log_number_ vs' = vs_log_number_ vs ∧ vs_prev_log_number_ vs' = vs_prev_log_number_ vs) ∧
    ∀ id, id ∈ owners → v_version <$> vl_objects (vs_versions vs') !! id = v_version <$> vl_objects (vs_versions vs) !! id.
Proof.
  intros Hok Hf Hv Hla. destruct (LogAndApply_effect owners m vs edit e vs' e' s Hok Hf Hla) as ([Hl (v' & Hc & Hm) _] & Hsame & Hown & H1 & H2).
  exists v'. split; [done|]. split; [done|]. split; [|done]. destruct (ok s); [done|]. split; [|done]. rewrite (Hsame eq_refl) in Hc. congruence.
Qed.
End version_set_proofs.

(** ** Examples *)

(** The first edit of a database: a file at level 1. *)
Definition first_edit : VersionEdit :=
  SetLogNumber 1 (AddFile 1 7 100 (InternalKey_new (str "a") 5 kTypeValue) (InternalKey_new (str "k") 3 kTypeValue) VersionEdit_Clear).

Lemma first_edit_map : spec_edit first_edit ∅ = {[(1, 7) := {| number := 7; file_size := 100; smallest := InternalKey_new (str "a") 5 kTypeValue; largest := InternalKey_new (str "k") 3 kTypeValue |}]}.
Proof. done. Qed.

Lemma first_edit_follows : edit_follows (uvalid := λ _, True) version_icmp first_edit ∅.
Proof.
  split.
  - split; [constructor..|]. constructor; [|constructor]. split; [split; [done|reflexivity]|]. split; [|done]. apply Nat.leb_le. reflexivity.
  - repeat constructor. apply not_elem_of_nil.
  - done.
  - rewrite first_edit_map. intros k x [<- <-]%lookup_singleton_Some. split_and!; [split; [apply Nat.leb_le; reflexivity|done]..|]. vm_compute. discriminate.
  - rewrite first_edit_map. intros l n n' x y _ [[= <- <-] <-]%lookup_singleton_Some [[= <-] <-]%lookup_singleton_Some Hn. done.
Qed.

(** The set of versions of a new database. *)
Definition example_set : VersionSet (E := InMemoryEnv) :=
  default {| vs_next_file_number_ := 0; vs_manifest_file_number_ := 0; vs_last_sequence_ := 0; vs_log_number_ := 0; vs_prev_log_number_ := 0;
             vs_descriptor_file_ := None; vs_descriptor_log_ := None; vs_versions := {| vl_list := []; vl_objects := ∅; vl_files := ∅; vl_current := None |};
             vs_compact_pointer_ := [] |} VersionSet_new.

Lemma example_set_new : VersionSet_new = Some example_set.
Proof. destruct (VersionSet_new_ok (E := InMemoryEnv) (uvalid := λ _, True) version_icmp) as (vs & H & _). unfold example_set. by rewrite H. Qed.

Lemma example_set_ok : vs_ok (uvalid := λ _, True) version_icmp [] ∅ example_set.
Proof. destruct (VersionSet_new_ok (E := InMemoryEnv) (uvalid := λ _, True) version_icmp) as (vs & H & Hok & _). rewrite example_set_new in H. by injection H as <-. Qed.

Lemma log_and_apply_atomic_witness : ∃ vs' e' s v',
  LogAndApply version_icmp (str "db") (str "cmp") first_edit example_set InMemoryEnv_new = Some (vs', e', s) ∧ ok s = true ∧
  current_version (vs_versions vs') = Some v' ∧ version_maps (uvalid := λ _, True) version_icmp v' (spec_edit first_edit ∅).
Proof.
  assert (match LogAndApply version_icmp (str "db") (str "cmp") first_edit example_set InMemoryEnv_new with Some (_, _, s) => ok s | None => false end = true) as Hs
    by (vm_compute; reflexivity).
  destruct (LogAndApply version_icmp (str "db") (str "cmp") first_edit example_set InMemoryEnv_new) as [[[vs' e'] s]|] eqn:Hla; [|discriminate Hs].
  destruct (vk_current _ _ _ _ example_set_ok) as (v & Hv & _).
  destruct (log_and_apply_atomic (uvalid := λ _, True) version_icmp (str "db") (str "cmp") [] ∅ example_set first_edit InMemoryEnv_new vs' e' s v example_set_ok first_edit_follows Hv Hla)
    as (v' & Hc & _ & Hm & _). rewrite Hs in Hm. exists vs', e', s, v'. split; [reflexivity|]. split; [exact Hs|]. split; [exact Hc|apply Hm].
Defined.
