(* ===== verification/Manifest.v ===== *)
(** The MANIFEST survives: what [LogAndApply] writes, [Recover] reads back
    (db/version_set.cc). *)
From stdpp Require Import sorting gmap.
From S2P Require Import Prelude Coding Double Env FileSystem MemEnv MemFs Comparator DbFormat Logging Filename LogFormat LogReader VersionEdit Version VersionBuilder VersionSet.

Lemma descriptor_not_current dbname num : DescriptorFileName dbname num ≠ CurrentFileName dbname.
Proof. unfold DescriptorFileName, CurrentFileName. intros H%app_inv_head. discriminate. Qed.

Lemma descriptor_not_temp dbname num num' : 0 <= num' < 2 ^ 64 → DescriptorFileName dbname num ≠ TempFileName dbname num'.
Proof.
  intros Hn. unfold DescriptorFileName, TempFileName, MakeFileName. change (str "/MANIFEST-") with (str "/" ++ str "MANIFEST-").
  rewrite <- app_assoc. intros H%app_inv_head%app_inv_head. destruct (decimal_pad6_spec num' Hn) as (Hall & _ & Hnil).
  destruct (decimal_pad6 num') as [|c ds]; [done|]. apply Forall_cons in Hall as [Hc _]. by injection H as <-.
Qed.

Definition edit_bytes (e : VersionEdit) : list byte := default [] (VersionEdit_EncodeTo [] e).
Definition manifest_log (es : list VersionEdit) : list byte * nat := encode_log 0 (edit_bytes <$> es).

Lemma edit_bytes_ok e : edit_ok e → VersionEdit_EncodeTo [] e = Some (edit_bytes e) ∧ VersionEdit_DecodeFrom (edit_bytes e) = Some (e, Status_OK).
Proof.
  intros He. assert (VersionEdit_EncodeTo [] e = Some (edit_bytes e)) as H; [|split; [done|by apply decode_encode]].
  unfold edit_bytes. by rewrite EncodeTo_fields by apply He.
Qed.

Section manifest.
Context {C : Type} `{!Comparator C} {uvalid : list byte → Prop} `{!ComparatorLaws C uvalid} (icmp : InternalKeyComparator C).
Context {E : Type} `{!FileSystem E} {env_ok : E → Prop} {files : E → list byte → option (list byte)}
  {writing : E → WFile E → list byte → Prop} {reading : E → SFile E → list byte → Prop} {pos : SFile E → nat}
  `{!FileSystemLaws E env_ok files writing reading pos}.
Context (dbname comparator_name : list byte) (max_file_size : Z) (reuse_logs : bool).
Notation VersionSet := (VersionSet (E := E)).
Notation version_maps := (version_maps (uvalid := uvalid) icmp).
Notation file_map := (gmap (Z * Z) FileMetaData).
Notation unchanged := (unchanged files writing reading).
Implicit Types (vs : VersionSet) (m : file_map) (e : E).

(** ** Appending a record *)

Lemma append_record e h n c o record :
  env_ok e → writing e h n → files e n = Some c → (o ≤ kBlockSize)%nat →
  ∃ e' h', AddRecord record (open_log h o e) = Some ({| dest_ := Some (e', h'); block_offset_ := (encode_record o record).2; type_crc_ := InitTypeCrc |}, Status_OK) ∧
    env_ok e' ∧ writing e' h' n ∧ files e' n = Some (c ++ (encode_record o record).1) ∧ unchanged [n] e e' ∧ ((encode_record o record).2 ≤ kBlockSize)%nat.
Proof.
  intros He Hw Hc Ho.
  destruct (AddRecord_spec (wf := open_w n e) (content := open_content (files := files) n) record (open_log h o e) o) as (w & Hw1 & Hok & Hcont).
  { split_and!; try done. exists e, h. by split_and!. }
  destruct Hok as ((e' & h' & Hd & He' & Hw' & Hu) & Hoff & Hcrc & Hle). exists e', h'. destruct w as [d off crc]. cbn in *. subst.
  split; [done|]. split_and!; try done. destruct (writing_file e' h' n He' Hw') as (c' & Hc'). unfold open_content in Hcont. rewrite Hc', Hc in Hcont. cbn in Hcont. by rewrite Hc', Hcont.
Qed.

Lemma log_edit_spec edit vs e h n c o : env_ok e → writing e h n → files e n = Some c → (o ≤ kBlockSize)%nat →
  vs_descriptor_file_ vs = Some h → vs_descriptor_log_ vs = Some o → edit_ok edit →
  ∃ e' h', log_edit edit vs e = Some (set_descriptor (Some h') (Some (encode_record o (edit_bytes edit)).2) vs, e', Status_OK) ∧ env_ok e' ∧ writing e' h' n ∧
    files e' n = Some (c ++ (encode_record o (edit_bytes edit)).1) ∧ unchanged [n] e e' ∧ ((encode_record o (edit_bytes edit)).2 ≤ kBlockSize)%nat.
Proof.
  intros He Hw Hc Ho Hf Hl Hok. destruct (edit_bytes_ok edit Hok) as [Henc _]. unfold log_edit. rewrite Henc, Hf, Hl. cbn [mbind option_bind].
  destruct (append_record e h n c o (edit_bytes edit) He Hw Hc Ho) as (e1 & h1 & -> & He1 & Hw1 & Hc1 & Hu1 & Hle). cbn [mbind option_bind dest_ ok state_ Status_OK block_offset_].
  destruct (fs_sync_ok e1 h1 n He1 Hw1) as (e2 & -> & He2 & Hw2 & Hc2 & Hu2). cbn [mbind option_bind].
  exists e2, h1. split_and!; try done; [by rewrite Hc2|by eapply unchanged_trans].
Qed.

Lemma new_descriptor_spec vs e v :
  env_ok e → vs_descriptor_file_ vs = None → vs_descriptor_log_ vs = None → current_version (vs_versions vs) = Some v →
  edit_ok (snapshot_edit comparator_name vs v) →
  let name := DescriptorFileName dbname (vs_manifest_file_number_ vs) in
  let record := edit_bytes (snapshot_edit comparator_name vs v) in
  ∃ e' h, new_descriptor dbname comparator_name vs e = Some (set_descriptor (Some h) (Some (encode_record 0 record).2) vs, e', Status_OK, Some name) ∧
    env_ok e' ∧ writing e' h name ∧ files e' name = Some (encode_record 0 record).1 ∧ unchanged [name] e e' ∧ ((encode_record 0 record).2 ≤ kBlockSize)%nat.
Proof.
  intros He Hf Hl Hcur Hok name record. destruct (edit_bytes_ok _ Hok) as [Henc _]. unfold new_descriptor. rewrite Hf, Hl.
  destruct (new_writable_ok e name He) as (e1 & h1 & Hn & He1 & Hw1 & Hc1 & Hu1). fold name. rewrite Hn. cbn [mbind option_bind ok state_ Status_OK].
  unfold WriteSnapshot. rewrite Hcur. cbn [mbind option_bind]. rewrite Henc. cbn [mbind option_bind]. fold record.
  destruct (append_record e1 h1 name [] 0 record He1 Hw1 Hc1 ltac:(lia)) as (e2 & h2 & -> & He2 & Hw2 & Hc2 & Hu2 & Hle). cbn [mbind option_bind dest_ block_offset_].
  exists e2, h2. split_and!; try done. by eapply unchanged_trans.
Qed.
(** ** Edits a descriptor holds *)

Definition loggable (edit : VersionEdit) : Prop := edit_ok edit ∧ name_matches comparator_name edit ∧ edit_valid (uvalid := uvalid) edit.

(** The edits say that the files are [m], the pointers [cp] and the numbers
    those of [r]. *)
Record described (es : list VersionEdit) m (cp : list (list byte)) (r : recovered) : Prop := {
  ds_ok : Forall loggable es;
  ds_nodup : NoDup (mjoin (adds <$> es));
  ds_map : spec_edits es ∅ = m;
  ds_pointers : spec_all_pointers es (replicate kNumLevels []) = cp;
  ds_numbers : foldl note {| r_log_number := None; r_prev_log_number := None; r_next_file := None; r_last_sequence := None |} es = r;
}.

Lemma described_snoc es m cp r edit log prev next last :
  described es m cp r → loggable edit → NoDup (adds edit) → (∀ k, k ∈ adds edit → k ∉ mjoin (adds <$> es)) →
  log_number_ edit = Some log → prev_log_number_ edit = Some prev → next_file_number_ edit = Some next → last_sequence_ edit = Some last →
  described (es ++ [edit]) (spec_edit edit m) (spec_pointers edit cp)
    {| r_log_number := Some log; r_prev_log_number := Some prev; r_next_file := Some next; r_last_sequence := Some last |}.
Proof.
  intros [H1 H2 H3 H4 H5] Hl Hnd Hf E1 E2 E3 E4. split.
  - apply Forall_app. split; [done|]. by apply Forall_singleton.
  - rewrite fmap_app, join_app. cbn. rewrite app_nil_r. apply NoDup_app. split; [done|]. split; [|done]. intros k Hk Hk'. by apply (Hf k).
  - unfold spec_edits in *. rewrite foldl_snoc. by rewrite H3.
  - unfold spec_all_pointers in *. rewrite foldl_snoc. by rewrite H4.
  - rewrite foldl_snoc. unfold note. by rewrite E1, E2, E3, E4.
Qed.

(** What can be stored in a descriptor. *)
Definition map_storable m : Prop := ∀ k x, m !! k = Some x → num_ok (number x) ∧ num_ok (file_size x) ∧ key_ok (smallest x) ∧ key_ok (largest x).
Definition pointers_storable (cp : list (list byte)) : Prop := Forall (λ k, Z.of_nat (length k) < 2 ^ 32) cp.

Lemma snapshot_edit_eq vs v : snapshot_edit comparator_name vs v =
  {| comparator_ := Some comparator_name; log_number_ := None; prev_log_number_ := None; next_file_number_ := None; last_sequence_ := None;
     compact_pointers_ := stored_pointers (vs_compact_pointer_ vs); deleted_files_ := []; new_files_ := level_adds (files_ v) |}.
Proof. unfold snapshot_edit. by rewrite snapshot_files_spec, snapshot_pointers_spec. Qed.

Lemma stored_pointers_elem cp x : x ∈ stored_pointers cp → ∃ l k, cp !! l = Some k ∧ k ≠ [] ∧ x = (Z.of_nat l, {| rep_ := k |}).
Proof.
  intros (xs & Hx & (l & Hl)%list_elem_of_lookup)%list_elem_of_join. apply list_lookup_imap_Some in Hl as (k & Hk & ->).
  destruct (Nat.eqb_spec (length k) 0); [by apply not_elem_of_nil in Hx|]. apply list_elem_of_singleton in Hx as ->. exists l, k. split_and!; try done. by intros ->.
Qed.

Lemma snapshot_loggable vs v m : version_maps v m → map_storable m → pointers_storable (vs_compact_pointer_ vs) → length (vs_compact_pointer_ vs) = kNumLevels →
  Z.of_nat (length comparator_name) < 2 ^ 32 → map_ok (uvalid := uvalid) icmp m → loggable (snapshot_edit comparator_name vs v).
Proof.
  intros Hv Hst Hcp Hlen Hname Hok. rewrite snapshot_edit_eq.
  assert (∀ x, x ∈ stored_pointers (vs_compact_pointer_ vs) → level_ok x.1 ∧ key_ok x.2) as Hp.
  { intros x (l & k & Hk & Hne & ->)%stored_pointers_elem. split; [apply lookup_lt_Some in Hk; rewrite Hlen in Hk; unfold level_ok; cbn; lia|].
    split; [done|]. by apply (Forall_lookup_1 _ _ _ _ Hcp Hk). }
  assert (∀ x, x ∈ level_adds (files_ v) → level_ok x.1 ∧ m !! add_key x = Some x.2) as Hn.
  { intros x Hx. split; [|apply (snapshot_adds icmp v m Hv); by exists x]. apply level_adds_elem in Hx as (l & fs & f & Hl & _ & ->).
    apply lookup_lt_Some in Hl. rewrite (vm_levels _ _ _ Hv) in Hl. unfold level_ok. cbn. lia. }
  split_and!.
  - split; cbn [deleted_files_]; [|constructor]. unfold fields. cbn. apply Forall_cons. split; [done|]. rewrite Forall_app, !Forall_fmap, !Forall_forall.
    split; intros x Hx; cbn; [by apply Hp|]. destruct (Hn x Hx) as [Hl Hm]. destruct (Hst _ _ Hm) as (? & ? & ? & ?). by split_and!.
  - by right.
  - split; cbn; [apply Forall_forall; intros x Hx; by apply Hp|constructor|].
    apply Forall_forall. intros x Hx. destruct (Hn x Hx) as [Hl Hm]. split; [done|]. by apply (Hok _ _ Hm).
Qed.

Lemma described_snapshot vs v m : version_maps v m → length (vs_compact_pointer_ vs) = kNumLevels → loggable (snapshot_edit comparator_name vs v) →
  described [snapshot_edit comparator_name vs v] m (vs_compact_pointer_ vs)
    {| r_log_number := None; r_prev_log_number := None; r_next_file := None; r_last_sequence := None |} ∧
  ∀ k, k ∈ adds (snapshot_edit comparator_name vs v) → is_Some (m !! k).
Proof.
  intros Hv Hlen Hl. assert (adds (snapshot_edit comparator_name vs v) = add_key <$> level_adds (files_ v)) as Ha by (by rewrite snapshot_edit_eq).
  split; [split|].
  - by apply Forall_singleton.
  - cbn. rewrite app_nil_r, Ha. by apply (level_adds_nodup icmp v m Hv).
  - cbn. rewrite snapshot_edit_eq. by apply (snapshot_map icmp v m Hv).
  - cbn. rewrite snapshot_edit_eq. by apply write_stored_pointers.
  - by rewrite snapshot_edit_eq.
  - rewrite Ha. intros k (x & -> & Hx)%list_elem_of_fmap. exists x.2. apply (snapshot_adds icmp v m Hv). by exists x.
Qed.
(** ** The descriptor on disk *)

(** No descriptor is open ([es] is empty), or [es] is what the open one holds and
    CURRENT names it. *)
Record on_disk (es : list VersionEdit) vs e : Prop := {
  od_file : files e (DescriptorFileName dbname (vs_manifest_file_number_ vs)) = Some (manifest_log es).1;
  od_current : files e (CurrentFileName dbname) = Some (manifest_name (vs_manifest_file_number_ vs) ++ [x0a]);
  od_handle : ∃ h, vs_descriptor_file_ vs = Some h ∧ writing e h (DescriptorFileName dbname (vs_manifest_file_number_ vs)) ∧
    vs_descriptor_log_ vs = Some (manifest_log es).2 ∧ ((manifest_log es).2 ≤ kBlockSize)%nat;
}.

Definition numbers_ok vs : Prop :=
  num_ok (vs_next_file_number_ vs) ∧ num_ok (vs_manifest_file_number_ vs) ∧ num_ok (vs_last_sequence_ vs) ∧ num_ok (vs_log_number_ vs) ∧ num_ok (vs_prev_log_number_ vs).

(** The log number an edit sets is between the current one and the next number. *)
Definition log_in_range (edit : VersionEdit) vs : Prop :=
  ∀ n, log_number_ edit = Some n → vs_log_number_ vs <= n < vs_next_file_number_ vs.

Lemma complete_edit_ok edit vs : numbers_ok vs → edit_ok edit → log_in_range edit vs →
  ∃ edit', complete_edit edit vs = Some edit' ∧ edit_ok edit'.
Proof.
  intros (H1 & _ & H2 & H3 & H4) Hok Hr. unfold complete_edit.
  assert (∃ e1 : VersionEdit, match log_number_ edit with Some n => if (vs_log_number_ vs <=? n) && (n <? vs_next_file_number_ vs) then Some edit else None
    | None => Some (SetLogNumber (vs_log_number_ vs) edit) end = Some e1 ∧ edit_ok e1) as (e1 & -> & He1).
  { destruct (log_number_ edit) as [n|] eqn:El; [|eexists; split; [done|]; by apply (field_apply_ok (FLogNumber _))].
    destruct (Hr n El). rewrite (proj2 (Z.leb_le _ _)), (proj2 (Z.ltb_lt _ _)) by lia. by exists edit. }
  cbn [mbind option_bind]. eexists. split; [done|]. apply (field_apply_ok (FLastSequence _)); [done|]. apply (field_apply_ok (FNextFile _)); [done|].
  destruct (prev_log_number_ e1); [done|]. by apply (field_apply_ok (FPrevLogNumber _)).
Qed.

(** The descriptor that the edit goes to. *)
Lemma open_descriptor es m cp vs e v r : env_ok e → current_version (vs_versions vs) = Some v → version_maps v m →
  loggable (snapshot_edit comparator_name vs v) → length (vs_compact_pointer_ vs) = kNumLevels →
  (es = [] ∧ vs_descriptor_file_ vs = None ∧ vs_descriptor_log_ vs = None ∨ described es m cp r ∧ on_disk es vs e) →
  let name := DescriptorFileName dbname (vs_manifest_file_number_ vs) in
  ∃ es' cp' h e' new r', new_descriptor dbname comparator_name vs e = Some (set_descriptor (Some h) (Some (manifest_log es').2) vs, e', Status_OK, new) ∧
    env_ok e' ∧ writing e' h name ∧ files e' name = Some (manifest_log es').1 ∧ unchanged [name] e e' ∧ ((manifest_log es').2 ≤ kBlockSize)%nat ∧
    described es' m cp' r' ∧ (cp' = cp ∨ cp' = vs_compact_pointer_ vs) ∧ (∀ k, k ∈ mjoin (adds <$> es') → k ∈ mjoin (adds <$> es) ∨ is_Some (m !! k)) ∧
    (new = None → files e' (CurrentFileName dbname) = Some (manifest_name (vs_manifest_file_number_ vs) ++ [x0a])) ∧ (is_Some (vs_descriptor_log_ vs) → es' = es).
Proof.
  intros He Hcur Hv Hsnap Hlen Hes name. destruct Hes as [(-> & Hf & Hl)|[Hds [Hfile Hcurr (h & Hh & Hw & Ho & Hle)]]].
  - destruct (new_descriptor_spec vs e v He Hf Hl Hcur ltac:(apply Hsnap)) as (e' & h & Hn & He' & Hw & Hc & Hu & Hle).
    destruct (described_snapshot vs v m Hv Hlen Hsnap) as [Hd Hk].
    assert (manifest_log [snapshot_edit comparator_name vs v] = encode_record 0 (edit_bytes (snapshot_edit comparator_name vs v))) as Hm.
    { unfold manifest_log. cbn. destruct (encode_record _ _). by rewrite app_nil_r. }
    eexists [snapshot_edit comparator_name vs v], (vs_compact_pointer_ vs), h, e', (Some name), _. rewrite Hm. split_and!; try done; [by right| |rewrite Hl; by intros [? ?]].
    cbn. rewrite app_nil_r. intros k Hk'. right. by apply Hk.
  - exists es, cp, h, e, None, r. split_and!; try done.
    + unfold new_descriptor. rewrite Ho. do 4 f_equal. destruct vs; cbn in *. by subst.
    + by left.
    + by left.
Qed.
Definition numbers_of (edit : VersionEdit) vs : recovered :=
  {| r_log_number := Some (default (vs_log_number_ vs) (log_number_ edit)); r_prev_log_number := Some (default (vs_prev_log_number_ vs) (prev_log_number_ edit));
     r_next_file := Some (vs_next_file_number_ vs); r_last_sequence := Some (vs_last_sequence_ vs) |}.

(** The state the next edit meets: the current version holds [m], and the open
    descriptor, if any, says so. *)
Record can_log (es : list VersionEdit) m vs e : Prop := {
  cl_env : env_ok e;
  cl_numbers : numbers_ok vs;
  cl_name : Z.of_nat (length comparator_name) < 2 ^ 32;
  cl_storable : map_storable m;
  cl_pointers : pointers_storable (vs_compact_pointer_ vs);
  cl_ok : map_ok (uvalid := uvalid) icmp m;
  cl_descriptor : es = [] ∧ vs_descriptor_file_ vs = None ∧ vs_descriptor_log_ vs = None ∨ ∃ r, described es m (vs_compact_pointer_ vs) r ∧ on_disk es vs e;
}.

(** An edit that can be logged. *)
Record can_follow (edit : VersionEdit) (es : list VersionEdit) m vs : Prop := {
  cf_follows : edit_follows (uvalid := uvalid) icmp edit m;
  cf_ok : edit_ok edit;
  cf_name : name_matches comparator_name edit;
  cf_range : log_in_range edit vs;
  cf_fresh k : k ∈ adds edit → k ∉ mjoin (adds <$> es);
}.

Lemma spec_pointers_idem edit cp : spec_pointers edit (spec_pointers edit cp) = spec_pointers edit cp.
Proof. apply (write_pointers_idem (compact_pointers_ edit)). Qed.

Lemma written_pointers_storable edit cp : edit_ok edit → pointers_storable cp → pointers_storable (spec_pointers edit cp).
Proof.
  intros [Hf _] Hcp. assert (Forall (λ x, Z.of_nat (length (rep_ x.2)) < 2 ^ 32) (compact_pointers_ edit)) as Hp.
  { apply Forall_forall. intros x Hx. assert (field_ok (FPointer x.1 x.2)) as [_ [_ ?]]; [|done]. apply (proj1 (Forall_forall _ _) Hf).
    unfold fields. rewrite !elem_of_app. do 5 right. left. apply list_elem_of_fmap. by exists x. }
  unfold spec_pointers. clear Hf. revert cp Hcp. induction (compact_pointers_ edit) as [|x l IH]; intros cp Hcp; [done|]. cbn. apply Forall_cons in Hp as [Hx Hp].
  apply (IH Hp). by apply Forall_insert.
Qed.

(** A new descriptor is installed in CURRENT. *)
Lemma install_current (new : option (list byte)) num h e1 e2 : let name := DescriptorFileName dbname num in
  env_ok e2 → num_ok num → writing e2 h name → unchanged [name] e1 e2 →
  (new = None → files e1 (CurrentFileName dbname) = Some (manifest_name num ++ [x0a])) →
  ∃ e3, (if bool_decide (is_Some new) then SetCurrentFile dbname num e2 else Some (e2, Status_OK)) = Some (e3, Status_OK) ∧
    env_ok e3 ∧ writing e3 h name ∧ files e3 name = files e2 name ∧ files e3 (CurrentFileName dbname) = Some (manifest_name num ++ [x0a]).
Proof.
  intros name He2 Hmn Hw2 Hu2 Hcur1. assert (name ∉ [TempFileName dbname num; CurrentFileName dbname]) as Hni.
  { rewrite !elem_of_cons. intros [Hx|[Hx|[]%not_elem_of_nil]]; [by apply descriptor_not_temp in Hx|by apply descriptor_not_current in Hx]. }
  destruct new as [new|]; [rewrite bool_decide_true by done|rewrite bool_decide_false by (by intros [? ?])].
  - destruct (SetCurrentFile_spec e2 dbname num He2 Hmn) as (e3 & Hs & He3 & Hcf3 & _ & Hu3). exists e3. split_and!; try done.
    + by apply (un_writing _ _ _ _ _ _ Hu3).
    + by apply (un_files _ _ _ _ _ _ Hu3).
  - exists e2. split_and!; try done. rewrite (un_files _ _ _ _ _ _ Hu2), Hcur1; [done|done|].
    intros Hx%list_elem_of_singleton. symmetry in Hx. by apply descriptor_not_current in Hx.
Qed.

(** On a lawful file system the edit is logged, CURRENT names the descriptor,
    and the descriptor describes the new version. *)
Lemma LogAndApply_logs owners es m vs e edit : vs_ok (uvalid := uvalid) icmp owners m vs → can_log es m vs e → can_follow edit es m vs →
  ∃ vs' e' es', LogAndApply icmp dbname comparator_name edit vs e = Some (vs', e', Status_OK) ∧ env_ok e' ∧
    described es' (spec_edit edit m) (vs_compact_pointer_ vs') (numbers_of edit vs) ∧ on_disk es' vs' e' ∧
    (∀ k, k ∈ mjoin (adds <$> es') → k ∈ mjoin (adds <$> es) ∨ is_Some (m !! k) ∨ k ∈ adds edit) ∧
    vs_compact_pointer_ vs' = spec_pointers edit (vs_compact_pointer_ vs) ∧ vs_next_file_number_ vs' = vs_next_file_number_ vs ∧
    vs_last_sequence_ vs' = vs_last_sequence_ vs ∧ vs_manifest_file_number_ vs' = vs_manifest_file_number_ vs ∧
    (is_Some (vs_descriptor_log_ vs) → ∃ edit', es' = es ++ [edit']).
Proof.
  intros Hok Hcl Hcf. destruct (complete_edit_ok edit vs (cl_numbers _ _ _ _ Hcl) (cf_ok _ _ _ _ Hcf) (cf_range _ _ _ _ Hcf)) as (edit' & Hce & Hok').
  destruct (follows_complete icmp _ _ _ _ Hce (cf_follows _ _ _ _ Hcf)) as (Hf' & Hse & Hsp & Hadds).
  destruct (complete_edit_same _ _ _ Hce) as (_ & _ & _ & Hlog & Hprev & Hnext & Hlast & Hname).
  unfold LogAndApply. rewrite Hce. cbn [mbind option_bind].
  destruct (build_next_spec icmp owners m vs edit' Hok Hf') as (v & vl & -> & Hv & _ & Hl & Hcur & _ & Hlen). cbn [mbind option_bind].
  set (vs1 := set_versions vl _ vs). destruct Hok as [_ (v0 & Hv0 & Hm0) Hlen0].
  assert (pointers_storable (spec_pointers edit' (vs_compact_pointer_ vs))) as Hps by (apply written_pointers_storable; [done|apply Hcl]).
  assert (loggable (snapshot_edit comparator_name vs1 v0)) as Hsnap by (apply (snapshot_loggable vs1 v0 m); [done|apply Hcl|done|done|apply Hcl|apply Hcl]).
  assert (num_ok (vs_manifest_file_number_ vs)) as Hmn by apply Hcl.
  assert (∃ r, es = [] ∧ vs_descriptor_file_ vs1 = None ∧ vs_descriptor_log_ vs1 = None ∨ described es m (vs_compact_pointer_ vs) r ∧ on_disk es vs1 e) as (r & Hdesc).
  { destruct (cl_descriptor _ _ _ _ Hcl) as [?|(r & Hd & Ho)]; [exists (numbers_of edit vs); by left|]. exists r. right. split; [done|]. by destruct Ho. }
  destruct (open_descriptor es m (vs_compact_pointer_ vs) vs1 e v0 r (cl_env _ _ _ _ Hcl) ltac:(cbn; congruence) Hm0 Hsnap Hlen Hdesc)
    as (es' & cp' & h & e1 & new & r' & -> & He1 & Hw1 & Hc1 & Hu1 & Hle1 & Hd1 & Hcp' & Hk1 & Hcur1 & Hes1). cbn [mbind option_bind ok state_ Status_OK].
  set (name := DescriptorFileName dbname (vs_manifest_file_number_ vs1)) in *.
  destruct (log_edit_spec edit' (set_descriptor (Some h) (Some (manifest_log es').2) vs1) e1 h name (manifest_log es').1 (manifest_log es').2
    He1 Hw1 Hc1 Hle1 eq_refl eq_refl Hok') as (e2 & h2 & -> & He2 & Hw2 & Hc2 & Hu2 & Hle2). cbn [mbind option_bind ok state_ Status_OK andb].
  destruct (install_current new (vs_manifest_file_number_ vs) h2 e1 e2 He2 Hmn Hw2 Hu2 Hcur1) as (e3 & Hset & He3 & Hw3 & Hc3 & Hcur3).
  change (vs_manifest_file_number_ (set_descriptor _ _ _)) with (vs_manifest_file_number_ vs). rewrite Hset. cbn [mbind option_bind ok state_ Status_OK].
  change (vs_versions (set_descriptor _ _ _)) with vl.
  assert (vl_ok owners (all_files (Finalize v) ++ []) vl) as Hl' by (unfold all_files; by rewrite Finalize_files, app_nil_r).
  destruct (AppendVersion_ok _ _ _ _ Hl') as (vl' & -> & _ & _ & _). rewrite Hlog, Hprev. cbn [mbind option_bind].
  assert (manifest_log (es' ++ [edit']) = ((manifest_log es').1 ++ (encode_record (manifest_log es').2 (edit_bytes edit')).1, (encode_record (manifest_log es').2 (edit_bytes edit')).2)) as Hml.
  { unfold manifest_log. rewrite fmap_app. apply encode_log_snoc. }
  eexists _, e3, (es' ++ [edit']). split; [reflexivity|]. split; [done|]. cbn [vs_compact_pointer_ set_versions set_numbers set_descriptor vs_next_file_number_ vs_last_sequence_ vs_manifest_file_number_ vs1].
  split_and!; try done.
  - rewrite <- Hse. replace (spec_pointers edit' (vs_compact_pointer_ vs)) with (spec_pointers edit' cp') by (destruct Hcp' as [->| ->]; [done|apply spec_pointers_idem]).
    apply (described_snoc es' m cp' r'); try done; [|by rewrite Hadds; apply Hcf|].
    + split_and!; [done|unfold name_matches; rewrite Hname; apply Hcf|apply Hf'].
    + rewrite Hadds. intros k Hk Hk'. destruct (Hk1 k Hk') as [Hk2|[x Hx]]; [by apply (cf_fresh _ _ _ _ Hcf k)|].
      pose proof (ef_new _ _ _ (cf_follows _ _ _ _ Hcf) k Hk). congruence.
  - split; cbn [vs_manifest_file_number_ set_versions set_numbers set_descriptor vs_descriptor_file_ vs_descriptor_log_].
    + rewrite Hml. exact (eq_trans Hc3 Hc2).
    + done.
    + exists h2. by rewrite Hml.
  - intros k. rewrite fmap_app, join_app. cbn. rewrite app_nil_r, Hadds. intros [Hk|Hk]%elem_of_app; [destruct (Hk1 k Hk); tauto|tauto].
  - by rewrite Hsp.
  - intros Hlog1. rewrite (Hes1 Hlog1). by eexists.
Qed.
(** ** Recovery *)

(** What a descriptor cut short holds: all of [es], and less than the next of
    [more]. *)
Definition holds (es more : list VersionEdit) (P : list byte) : Prop := cut_after (edit_bytes <$> es) (edit_bytes <$> more) P.

(** The fuel covers the records, the name in CURRENT and the number of edits. *)
Definition enough_fuel (es more : list VersionEdit) (num : Z) (n fuel : nat) : Prop :=
  (length es < n)%nat ∧ (length (manifest_name num) + 1 < fuel)%nat ∧ Forall (λ edit, (length (edit_bytes edit) + 2 ≤ fuel)%nat) (es ++ more).

Lemma holds_all es : holds es [] (manifest_log es).1.
Proof. split; [by rewrite app_nil_r|done]. Qed.

Lemma read_descriptor_spec es more P num vs e n fuel b cp h :
  env_ok e → Forall loggable es → files e (DescriptorFileName dbname num) = Some P → holds es more P → enough_fuel es more num n fuel →
  (∃ base, current_version (vs_versions vs) = Some base ∧
    apply_edits icmp es (Builder_new base, vs_compact_pointer_ vs, vl_files (vs_versions vs)) = Some (b, cp, h)) →
  ∃ e', read_descriptor icmp comparator_name n fuel (DescriptorFileName dbname num) vs e =
      Some (e', Status_OK, Some (b, cp, h, foldl note {| r_log_number := None; r_prev_log_number := None; r_next_file := None; r_last_sequence := None |} es)) ∧
    env_ok e' ∧ (∀ x, files e' x = files e x).
Proof.
  intros He Hes Hf HP (Hn & Hfu & Hfuel) (base & Hcur & Ha). set (name := DescriptorFileName dbname num) in *. unfold read_descriptor.
  destruct (new_sequential_ok e name _ He Hf) as (e1 & h1 & -> & He1 & Hr1 & Hp1 & Hf1 & Hu1). cbn [mbind option_bind ok state_ Status_OK negb].
  rewrite Hcur. cbn [mbind option_bind].
  assert (open_s (files := files) (reading := reading) (writing := writing) (env_ok := env_ok) name e1 (Some (e1, h1))) as Hopen by (exists e1, h1; by split_and!).
  destruct (read_cut_log (rest := open_rest (pos := pos) (files := files) name) (Some (e1, h1)) (edit_bytes <$> es) (edit_bytes <$> more) fuel true true Hopen) as (r & Hrs & Hrep).
  { unfold open_rest. rewrite Hp1, Hf1. exact HP. } { lia. } { rewrite <- fmap_app. by apply Forall_fmap. }
  pose proof (reads_later (rest := open_rest (pos := pos) (files := files) name) _ _ _ _ Hrs Hopen) as [(e2 & h2 & Hfile & He2 & Hr2 & Hf2 & Hu2) _]; [done|].
  rewrite (recover_loop_reads (rest := open_rest (pos := pos) (files := files) name) icmp comparator_name _ _ _ _ Hrs Hopen Hrep es _ _ _ b cp h _ n); [| |done|by rewrite length_fmap].
  - cbn [mbind option_bind]. rewrite Hfile. cbn [mbind option_bind]. destruct (delete_sequential_ok e2 h2 name He2 Hr2) as (e3 & -> & He3 & Hf3 & Hu3). cbn [mbind option_bind].
    exists e3. split; [done|]. split; [done|]. intros x. destruct (decide (x = name)) as [->|Hne]; [congruence|].
    assert (x ∉ [name]) by (by intros ?%list_elem_of_singleton). by rewrite (un_files _ _ _ _ _ _ Hu3), (un_files _ _ _ _ _ _ Hu2), (un_files _ _ _ _ _ _ Hu1).
  - apply Forall2_fmap_l. apply Forall_Forall2_diag. eapply Forall_impl; [exact Hes|]. intros edit (Hok & Hname & _). split; [by apply edit_bytes_ok|done].
Qed.

(** Replaying the edits of a descriptor on the empty version. *)
Lemma apply_described es m cp r owners vs base : vs_ok (uvalid := uvalid) icmp owners ∅ vs → vs_compact_pointer_ vs = replicate kNumLevels [] →
  current_version (vs_versions vs) = Some base → described es m cp r →
  ∃ b h, apply_edits icmp es (Builder_new base, vs_compact_pointer_ vs, vl_files (vs_versions vs)) = Some (b, cp, h) ∧
    base_ b = base ∧ building (uvalid := uvalid) icmp b m ∧ counted (all_added b ++ listed (vs_versions vs)) h ∧ length cp = kNumLevels.
Proof.
  intros [Hl (base' & Hcur' & Hm) Hlen] Hcp Hcur [Hes Hnd <- <- _]. assert (base' = base) as -> by congruence. rewrite Hcp.
  destruct (apply_edits_spec icmp es (Builder_new base) ∅ (replicate kNumLevels []) (listed (vs_versions vs)) (vl_files (vs_versions vs)) [])
    as (b & h & Ha & Hb & Hbm & Hc & Hlen'); [by apply building_new|apply Hl| |done| |done| |by exists b, h].
  - intros l s f [-> _]%lookup_replicate. by intros ?%not_elem_of_nil.
  - eapply Forall_impl; [exact Hes|]. by intros edit (_ & _ & ?).
  - intros k Hk. split; [apply not_elem_of_nil|]. intros f Hf Hn.
    assert ((∅ : file_map) !! (Z.of_nat (Z.to_nat k.1), number f) = Some (f_meta f)) as Hx; [|by rewrite lookup_empty in Hx].
    apply (vm_iff _ _ _ Hm). exists f. done.
Qed.

Lemma ReuseManifest_spec num vs e : env_ok e → num_ok num → is_Some (files e (DescriptorFileName dbname num)) →
  vs_descriptor_file_ vs = None → vs_descriptor_log_ vs = None →
  ∃ reused vs' e', ReuseManifest max_file_size reuse_logs (DescriptorFileName dbname num) (manifest_name num) vs e = Some (reused, vs', e') ∧ env_ok e' ∧
    vs_versions vs' = vs_versions vs ∧ vs_compact_pointer_ vs' = vs_compact_pointer_ vs ∧ vs_next_file_number_ vs' = vs_next_file_number_ vs ∧
    vs_last_sequence_ vs' = vs_last_sequence_ vs ∧ vs_log_number_ vs' = vs_log_number_ vs ∧ vs_prev_log_number_ vs' = vs_prev_log_number_ vs ∧
    vs_manifest_file_number_ vs' = (if reused then num else vs_manifest_file_number_ vs) ∧
    (is_Some (vs_descriptor_log_ vs') ↔ reused = true) ∧ (∀ x, files e' x = files e x) ∧ (reuse_logs = false → reused = false ∧ vs' = vs).
Proof.
  intros He Hnum [c Hc] Hf Hl. unfold ReuseManifest.
  assert (∀ b : bool, (is_Some (vs_descriptor_log_ vs) ↔ b = true) ↔ b = false) as Hnone by (intros []; rewrite Hl; split; [intros [_ H]; by destruct H|done|done|split; [by intros [? ?]|done]]).
  destruct reuse_logs; cbn [negb]; [|exists false, vs, e; split_and!; try done; by apply Hnone].
  unfold manifest_name. rewrite ParseFileName_manifest by done. rewrite (file_size_ok e _ c He Hc). cbn [mbind option_bind ok state_ Status_OK negb orb].
  destruct (_ <=? _); [exists false, vs, e; split_and!; try done; by apply Hnone|]. rewrite Hf, Hl.
  destruct (new_appendable_ok e _ c He Hc) as (e1 & h & -> & He1 & Hw1 & Hf1 & Hu1). cbn [mbind option_bind ok state_ Status_OK negb].
  eexists true, _, e1. split; [done|]. cbn [set_descriptor set_numbers vs_versions vs_compact_pointer_ vs_next_file_number_ vs_last_sequence_ vs_log_number_ vs_prev_log_number_ vs_manifest_file_number_ vs_descriptor_log_].
  split_and!; try done. intros x. destruct (decide (x = DescriptorFileName dbname num)) as [->|]; [congruence|].
  apply (un_files _ _ _ _ _ _ Hu1). by intros ?%list_elem_of_singleton.
Qed.

(** The version the builder has is saved, becomes current, and the builder goes. *)
Lemma install_recovered owners vl base c b m m0 h :
  vl_ok owners [] vl → vl_current vl = Some c → current_version vl = Some base → version_maps base m0 →
  base_ b = base → building (uvalid := uvalid) icmp b m → map_ok (uvalid := uvalid) icmp m → map_disjoint icmp m → counted (all_added b ++ listed vl) h →
  ∃ vl1 v h2 vl2 h3 vl3, Version_Ref c vl = Some vl1 ∧ Builder_SaveTo icmp b h = Some (v, h2) ∧
    AppendVersion (Finalize v) (with_files h2 (with_files h vl1)) = Some vl2 ∧ Builder_delete b (vl_files vl2) = Some h3 ∧
    Version_Unref c (with_files h3 vl2) = Some vl3 ∧ vl_ok owners [] vl3 ∧ current_version vl3 = Some (Finalize v) ∧ version_maps (Finalize v) m.
Proof.
  intros Hl Hc Hcur Hm0 Hbase Hb Hok Hdis Hcount. destruct (current_inv _ _ Hcur) as (c' & o & Hc' & Ho & Hv0). assert (c' = c) as -> by congruence.
  destruct (Version_Ref_ok _ _ _ c Hl ltac:(by eexists)) as (vl1 & Href & Hl1 & Hc1 & Hf1 & Hs1). exists vl1.
  rewrite <- (Version_Ref_listed _ _ _ Href) in Hcount.
  assert (v_version <$> vl_objects vl1 !! c = Some base) as (o1 & Ho1 & Hv1)%fmap_Some by (by rewrite Hs1, Ho, <- Hv0).
  destruct (Builder_SaveTo_spec icmp b m m0 (listed vl1) h Hb) as (v & h2 & Hsave & Hv & Hcount2 & Hsorted); [by rewrite Hbase|done|done|done| |].
  { rewrite Hbase. intros f Hfb. apply (counted_live _ _ Hcount). apply elem_of_app. right. apply list_elem_of_join. exists (all_files base). split; [done|].
    apply list_elem_of_fmap. exists c. unfold version_files. rewrite Ho1, Hv1. split; [done|]. apply (vo_live _ _ _ Hl1). by eexists. }
  exists v, h2. assert (vl_ok (c :: owners) (all_files (Finalize v) ++ all_added b) (with_files h2 (with_files h vl1))) as Hl2.
  { split; cbn [with_files vl_list vl_objects vl_files vl_current];
      [apply Hl1|apply (vo_live _ _ _ Hl1)|apply (vo_refs _ _ _ Hl1)|apply (vo_owned _ _ _ Hl1)|apply (vo_current _ _ _ Hl1)|].
    unfold all_files. rewrite Finalize_files, <- app_assoc. exact Hcount2. }
  destruct (AppendVersion_ok _ _ _ _ Hl2) as (vl2 & Happ & Hl3 & Hcur2 & _). exists vl2.
  destruct (counted_unref_all _ _ _ (vo_counted _ _ _ Hl3)) as (h3 & Hdel & Hcount3). exists h3.
  assert (vl_ok (c :: owners) [] (with_files h3 vl2)) as Hl4.
  { split; cbn [with_files vl_list vl_objects vl_files vl_current];
      [apply Hl3|apply (vo_live _ _ _ Hl3)|apply (vo_refs _ _ _ Hl3)|apply (vo_owned _ _ _ Hl3)|apply (vo_current _ _ _ Hl3)|done]. }
  destruct (Version_Unref_ok _ _ _ _ Hl4) as (vl3 & Hun & Hl5 & Hc5 & _ & Hs5). exists vl3. split_and!; try done.
  - rewrite <- Hcur2. transitivity (current_version (with_files h3 vl2)); [|done]. apply current_eq; [done|]. intros x Hx. apply Hs5. by left.
  - eapply version_maps_files; [symmetry; apply Finalize_files|done].
Qed.

Lemma Recover_spec es more P m cp log prev next last num vs e n fuel : 
  vs_ok (uvalid := uvalid) icmp [] ∅ vs → vs_compact_pointer_ vs = replicate kNumLevels [] → vs_descriptor_file_ vs = None → vs_descriptor_log_ vs = None →
  env_ok e → num_ok num → map_ok (uvalid := uvalid) icmp m → map_disjoint icmp m → enough_fuel es more num n fuel →
  described es m cp {| r_log_number := Some log; r_prev_log_number := Some prev; r_next_file := Some next; r_last_sequence := Some last |} →
  files e (DescriptorFileName dbname num) = Some P → holds es more P → files e (CurrentFileName dbname) = Some (manifest_name num ++ [x0a]) →
  ∃ vs' e' save, Recover icmp dbname comparator_name max_file_size reuse_logs n fuel vs e = Some (vs', e', Status_OK, save) ∧ env_ok e' ∧
    vs_ok (uvalid := uvalid) icmp [] m vs' ∧ vs_compact_pointer_ vs' = cp ∧ vs_log_number_ vs' = log ∧ vs_prev_log_number_ vs' = prev ∧
    vs_last_sequence_ vs' = last ∧ vs_next_file_number_ vs' = u64 (next + 1) ∧ vs_manifest_file_number_ vs' = (if save then next else num) ∧
    (∀ x, files e' x = files e x) ∧ (reuse_logs = false → save = true ∧ vs_descriptor_file_ vs' = None ∧ vs_descriptor_log_ vs' = None).
Proof.
  intros Hvs Hcp0 Hdf Hdl He Hnum Hmok Hdis Hfuel Hd Hfile HP Hcurrent. unfold Recover.
  destruct (ReadFileToString_spec fuel e _ _ He Hcurrent) as (e1 & -> & He1 & Hf1 & Hu1); [rewrite length_app; apply Hfuel|].
  assert (∀ x, files e1 x = files e x) as Hsame1.
  { intros x. destruct (decide (x = CurrentFileName dbname)) as [->|]; [congruence|]. apply (un_files _ _ _ _ _ _ Hu1). by intros ?%list_elem_of_singleton. }
  cbn [mbind option_bind ok state_ Status_OK negb]. rewrite last_snoc.
  replace (take (length (manifest_name num ++ [x0a]) - 1) (manifest_name num ++ [x0a])) with (manifest_name num)
    by (rewrite length_app; cbn [length]; rewrite Nat.add_sub, take_app_length; done).
  change (dbname ++ str "/" ++ manifest_name num) with (DescriptorFileName dbname num).
  destruct (vk_current _ _ _ _ Hvs) as (base & Hcur & Hm0). destruct (current_inv _ _ Hcur) as (c & o & Hc & Ho & Hv0). rewrite Hc. cbn [mbind option_bind].
  destruct (apply_described es m cp _ [] vs base Hvs Hcp0 Hcur Hd) as (b & h & Ha & Hbase & Hb & Hcount & Hlen).
  destruct (read_descriptor_spec es more P num vs e1 n fuel b cp h He1 (ds_ok _ _ _ _ Hd)) as (e2 & -> & He2 & Hsame2); [by rewrite Hsame1|done|done|by exists base|].
  rewrite (ds_numbers _ _ _ _ Hd). cbn [mbind option_bind].
  destruct (install_recovered [] (vs_versions vs) base c b m ∅ h (vk_list _ _ _ _ Hvs) Hc Hcur Hm0 Hbase Hb Hmok Hdis Hcount)
    as (vl1 & v & h2 & vl2 & h3 & vl3 & Href & Hsave & Happ & Hdel & Hun & Hl3 & Hcur3 & Hvm).
  rewrite Href. cbn [mbind option_bind]. unfold recovered_status. cbn [ok state_ Status_OK r_log_number r_prev_log_number r_next_file r_last_sequence default].
  match goal with |- context [Builder_SaveTo icmp b (vl_files (vs_versions ?x))] => set (vs1 := x); assert (vs_versions vs1 = with_files h vl1 ∧ vs_compact_pointer_ vs1 = cp ∧ vs_descriptor_file_ vs1 = None ∧ vs_descriptor_log_ vs1 = None) as (Hv1 & Hcp1 & Hdf1 & Hdl1) end.
  { unfold vs1, MarkFileNumberUsed, id. repeat case_match; by split_and!. }
  rewrite Hv1. cbn [with_files vl_files]. rewrite Hsave. cbn [mbind option_bind]. unfold with_files in Happ. cbn [vl_list vl_objects vl_current vl_files] in Happ. unfold with_files. cbn [vl_list vl_objects vl_current vl_files].
  rewrite Happ. cbn [mbind option_bind].
  set (vs2 := set_numbers _ _ _ _ _ _).
  destruct (ReuseManifest_spec num vs2 e2 He2 Hnum) as (reused & vs3 & e3 & -> & He3 & Hr1 & Hr2 & Hr3 & Hr4 & Hr5 & Hr6 & Hr7 & Hr8 & Hr9 & Hr10); [by rewrite Hsame2, Hsame1, Hfile|done|done|].
  cbn [mbind option_bind]. unfold finish_builder. rewrite Hr1. change (vs_versions vs2) with vl2. rewrite Hdel. cbn [mbind option_bind]. rewrite Hun. cbn [mbind option_bind].
  eexists _, e3, (negb reused). split; [done|]. split; [done|]. cbn [set_versions vs_compact_pointer_ vs_log_number_ vs_prev_log_number_ vs_last_sequence_ vs_next_file_number_ vs_manifest_file_number_].
  split; [split; cbn [set_versions vs_versions vs_compact_pointer_]; [done|by exists (Finalize v)|by rewrite Hr2; cbn; rewrite Hcp1]|].
  split_and!; [by rewrite Hr2|done..|rewrite Hr7; by destruct reused|intros x; by rewrite Hr9, Hsame2, Hsame1|].
  intros [-> ->]%Hr10. by split_and!.
Qed.

(** ** Runs *)

Lemma spec_edit_inv (edit : VersionEdit) m k x : spec_edit edit m !! k = Some x → m !! k = Some x ∨ ∃ y, y ∈ new_files_ edit ∧ add_key y = k ∧ y.2 = x.
Proof.
  unfold spec_edit. assert (∀ l m', foldl (λ m (k : Z * Z), delete k m) m' l !! k = Some x → m' !! k = Some x) as Hdel.
  { induction l as [|k' l IH]; intros m' H; [done|]. cbn in H. apply IH in H. by apply lookup_delete_Some in H as [_ ?]. }
  assert (∀ l m', foldl (λ m (y : Z * FileMetaData), <[add_key y := y.2]> m) m' l !! k = Some x → m' !! k = Some x ∨ ∃ y, y ∈ l ∧ add_key y = k ∧ y.2 = x) as Hins.
  { induction l as [|y l IH]; intros m' H; [by left|]. cbn in H. apply IH in H as [H|(z & Hz & ?)]; [|right; exists z; by split; [right|]].
    apply lookup_insert_Some in H as [[<- <-]|[_ H]]; [|by left]. right. exists y. by split; [left|]. }
  intros [H|H]%Hins; [left; by apply Hdel in H|by right].
Qed.

Lemma spec_edit_storable (edit : VersionEdit) m : edit_ok edit → map_storable m → map_storable (spec_edit edit m).
Proof.
  intros [Hf _] Hm k x [Hx|(y & Hy & <- & <-)]%spec_edit_inv; [by eapply Hm|]. assert (field_ok (FNew y.1 y.2)) as [_ ?]; [|done]. apply (proj1 (Forall_forall _ _) Hf).
  unfold fields. rewrite !elem_of_app. do 7 right. apply list_elem_of_fmap. by exists y.
Qed.

(** An edit that may come next: well formed, with files whose keys were never
    used before ([K] has those that were), leaving files that do not overlap. *)
Record may_log (edit : VersionEdit) (K : gset (Z * Z)) m vs : Prop := {
  ml_valid : edit_valid (uvalid := uvalid) edit;
  ml_ok : edit_ok edit;
  ml_name : name_matches comparator_name edit;
  ml_range : log_in_range edit vs;
  ml_nodup : NoDup (adds edit);
  ml_fresh k : k ∈ adds edit → k ∉ K;
  ml_map_ok : map_ok (uvalid := uvalid) icmp (spec_edit edit m);
  ml_disjoint : map_disjoint icmp (spec_edit edit m);
}.

(** A set of versions with no descriptor open yet. *)
Record opened_set m vs e : Prop := {
  os_ok : vs_ok (uvalid := uvalid) icmp [] m vs;
  os_env : env_ok e;
  os_numbers : numbers_ok vs;
  os_name : Z.of_nat (length comparator_name) < 2 ^ 32;
  os_storable : map_storable m;
  os_pointers : pointers_storable (vs_compact_pointer_ vs);
  os_map_ok : map_ok (uvalid := uvalid) icmp m;
  os_disjoint : map_disjoint icmp m;
  os_file : vs_descriptor_file_ vs = None;
  os_log : vs_descriptor_log_ vs = None;
}.

(** What a database does with its set of versions: it logs edits, takes file
    numbers and advances the sequence number.  [m] is the abstract state, and [d]
    the numbers of the last edit logged. *)
Inductive manifest_run : gset (Z * Z) → file_map → option recovered → VersionSet → E → Prop :=
  | run_open m vs e : opened_set m vs e → manifest_run (dom m) m None vs e
  | run_log K m d vs e edit vs' e' s : manifest_run K m d vs e → may_log edit K m vs →
      LogAndApply icmp dbname comparator_name edit vs e = Some (vs', e', s) →
      manifest_run (list_to_set (adds edit) ∪ K) (spec_edit edit m) (Some (numbers_of edit vs)) vs' e'
  | run_number K m d vs e : manifest_run K m d vs e → vs_next_file_number_ vs + 1 < 2 ^ 64 → manifest_run K m d (NewFileNumber vs).2 e
  | run_sequence K m d vs e q vs' : manifest_run K m d vs e → q < 2 ^ 64 → VersionSet_SetLastSequence q vs = Some vs' → manifest_run K m d vs' e.

(** The invariant of runs. *)
Record run_inv (es : list VersionEdit) (K : gset (Z * Z)) m (d : option recovered) vs e : Prop := {
  ri_ok : vs_ok (uvalid := uvalid) icmp [] m vs;
  ri_can : can_log es m vs e;
  ri_disjoint : map_disjoint icmp m;
  ri_keys k : k ∈ mjoin (adds <$> es) ∨ is_Some (m !! k) → k ∈ K;
  ri_described r : d = Some r → described es m (vs_compact_pointer_ vs) r ∧ on_disk es vs e;
}.

Lemma may_log_follow edit es K m d vs e : run_inv es K m d vs e → may_log edit K m vs → can_follow edit es m vs.
Proof.
  intros Hinv Hm. split; [split|..]; try apply Hm.
  - intros k Hk. destruct (m !! k) eqn:Hmk; [|done]. exfalso. apply (ml_fresh _ _ _ _ Hm k Hk). apply (ri_keys _ _ _ _ _ _ Hinv). right. by rewrite Hmk.
  - intros k Hk Hin. apply (ml_fresh _ _ _ _ Hm k Hk). apply (ri_keys _ _ _ _ _ _ Hinv). by left.
Qed.

(** Changing numbers other than the manifest's keeps the invariant. *)
Lemma run_inv_numbers es K m d vs e next last :
  run_inv es K m d vs e → num_ok next → num_ok last →
  run_inv es K m d (set_numbers next (vs_manifest_file_number_ vs) last (vs_log_number_ vs) (vs_prev_log_number_ vs) vs) e.
Proof.
  intros [[Hl Hc Hp] [H1 (_ & Hn2 & _ & Hn4 & Hn5) H3 H4 H5 H6 H7] Hdis Hk Hd] Hnext Hlast. split; try done; [split; try done|].
  - destruct H7 as [?|(r & Hr & [? ? ?])]; [by left|]. right. by exists r.
  - intros r Hr. destruct (Hd r Hr) as [? [? ? ?]]. done.
Qed.

Lemma log_numbers_ok edit vs : numbers_ok vs → edit_ok edit → log_in_range edit vs →
  num_ok (default (vs_log_number_ vs) (log_number_ edit)) ∧ num_ok (default (vs_prev_log_number_ vs) (prev_log_number_ edit)).
Proof.
  intros (Hn1 & _ & _ & Hn4 & Hn5) [Hf _] Hr. split.
  - destruct (log_number_ edit) as [n|] eqn:El; [|done]. cbn. specialize (Hr n El). unfold num_ok in *. lia.
  - destruct (prev_log_number_ edit) as [n|] eqn:El; [|done]. cbn. apply (proj1 (Forall_forall _ _) Hf (FPrevLogNumber n)).
    unfold fields. rewrite !elem_of_app. do 2 right. left. rewrite El. by left.
Qed.

Lemma run_inv_log es K m d vs e edit : run_inv es K m d vs e → may_log edit K m vs →
  ∃ vs' e' es', LogAndApply icmp dbname comparator_name edit vs e = Some (vs', e', Status_OK) ∧
    run_inv es' (list_to_set (adds edit) ∪ K) (spec_edit edit m) (Some (numbers_of edit vs)) vs' e' ∧
    vs_manifest_file_number_ vs' = vs_manifest_file_number_ vs ∧ (is_Some (vs_descriptor_log_ vs) → ∃ edit', es' = es ++ [edit']).
Proof.
  intros Hinv Hml. pose proof (may_log_follow _ _ _ _ _ _ _ Hinv Hml) as Hcf. pose proof (ri_ok _ _ _ _ _ _ Hinv) as Hok. pose proof (ri_can _ _ _ _ _ _ Hinv) as Hcl.
  destruct (LogAndApply_logs [] es m vs e edit Hok Hcl Hcf) as (vs' & e' & es' & Hla & He' & Hd & Ho & Hk & Hp & Hn & Hs & Hm & Happ).
  destruct (LogAndApply_effect icmp dbname comparator_name [] m vs edit e _ _ _ Hok (cf_follows _ _ _ _ Hcf) Hla) as (Hok' & _ & _ & Hlog & Hprev). cbn in Hok', Hlog, Hprev.
  destruct (log_numbers_ok edit vs (cl_numbers _ _ _ _ Hcl) (ml_ok _ _ _ _ Hml) (ml_range _ _ _ _ Hml)) as [Hln Hpn].
  destruct (cl_numbers _ _ _ _ Hcl) as (Hn1 & Hn2 & Hn3 & _). exists vs', e', es'. split; [done|]. split; [|done]. split.
  - done.
  - split; [done| |apply Hcl| | |apply Hml|right; by eexists].
    + unfold numbers_ok. by rewrite Hn, Hm, Hs, Hlog, Hprev.
    + apply spec_edit_storable; [apply Hml|apply Hcl].
    + rewrite Hp. apply written_pointers_storable; [apply Hml|apply Hcl].
  - apply Hml.
  - intros k Hkk. apply elem_of_union. rewrite elem_of_list_to_set. destruct Hkk as [Hk1|[x Hx]].
    + destruct (Hk k Hk1) as [?|[?|?]]; [right; apply (ri_keys _ _ _ _ _ _ Hinv); by left|right; apply (ri_keys _ _ _ _ _ _ Hinv); by right|by left].
    + apply spec_edit_inv in Hx as [Hx|(y & Hy & <- & _)]; [right; apply (ri_keys _ _ _ _ _ _ Hinv); right; by eexists|left]. apply list_elem_of_fmap. by exists y.
  - intros r [= <-]. done.
Qed.

Lemma run_invariant K m d vs e : manifest_run K m d vs e → ∃ es, run_inv es K m d vs e.
Proof.
  induction 1 as [m vs e [? ? ? ? ? ? ? ? ? ?]|K m d vs e edit vs' e' s _ [es Hinv] Hml Hla|K m d vs e _ [es Hinv] Hn|K m d vs e q vs' _ [es Hinv] Hq Hs].
  - exists []. split; try done. { split; try done. by left. } intros k [?%not_elem_of_nil|Hk]; [done|]. by apply elem_of_dom.
  - destruct (run_inv_log es K m d vs e edit Hinv Hml) as (vs1 & e1 & es' & Hla' & Hinv' & _). rewrite Hla in Hla'. injection Hla' as -> -> ->. by exists es'.
  - exists es. destruct (cl_numbers _ _ _ _ (ri_can _ _ _ _ _ _ Hinv)) as (Hn1 & _ & Hn3 & _). unfold num_ok in Hn1. unfold NewFileNumber. cbn [snd].
    rewrite u64_small by lia. apply run_inv_numbers; [done|unfold num_ok; lia|done].
  - exists es. destruct (cl_numbers _ _ _ _ (ri_can _ _ _ _ _ _ Hinv)) as (Hn1 & _ & Hn3 & _). unfold num_ok in Hn3.
    unfold VersionSet_SetLastSequence in Hs. destruct (Z.leb_spec (vs_last_sequence_ vs) q); [|done]. injection Hs as <-. apply run_inv_numbers; [done|done|unfold num_ok; lia].
Qed.

(** ** Recovery after a run *)

(** Opening the database again gives a version with the same files, and the
    pointers and numbers that were logged. *)
Definition restored (n fuel : nat) e (v : Version) (cp : list (list byte)) (r : recovered) : Prop :=
  ∃ vs0 vs' e' save v', VersionSet_new = Some vs0 ∧
    Recover icmp dbname comparator_name max_file_size reuse_logs n fuel vs0 e = Some (vs', e', Status_OK, save) ∧
    current_version (vs_versions vs') = Some v' ∧ (∀ l, f_meta <$> level_files v' l = f_meta <$> level_files v l) ∧
    vs_compact_pointer_ vs' = cp ∧ Some (vs_log_number_ vs') = r_log_number r ∧ Some (vs_prev_log_number_ vs') = r_prev_log_number r ∧
    Some (vs_last_sequence_ vs') = r_last_sequence r ∧ Some (vs_next_file_number_ vs') = (λ next, u64 (next + 1)) <$> r_next_file r.

Definition complete_numbers (r : recovered) : Prop :=
  is_Some (r_log_number r) ∧ is_Some (r_prev_log_number r) ∧ is_Some (r_next_file r) ∧ is_Some (r_last_sequence r).

Lemma fuel_bound es more num : ∃ bound, ∀ n fuel, (bound ≤ n)%nat → (bound ≤ fuel)%nat → enough_fuel es more num n fuel.
Proof.
  exists (S (length es) + (length (manifest_name num) + 2) + sum_list_with (λ edit, length (edit_bytes edit) + 2) (es ++ more))%nat. intros n fuel Hn Hf.
  split; [lia|]. split; [lia|]. apply Forall_forall. intros x Hx. apply (sum_list_with_in _ (λ edit, length (edit_bytes edit) + 2)%nat) in Hx. lia.
Qed.

Lemma restored_from es more P m v cp r num e : env_ok e → num_ok num → map_ok (uvalid := uvalid) icmp m → map_disjoint icmp m → version_maps v m →
  described es m cp r → complete_numbers r →
  files e (DescriptorFileName dbname num) = Some P → holds es more P → files e (CurrentFileName dbname) = Some (manifest_name num ++ [x0a]) →
  ∃ bound, ∀ n fuel, (bound ≤ n)%nat → (bound ≤ fuel)%nat → restored n fuel e v cp r.
Proof.
  intros He Hnum Hok Hdis Hv Hd ([log Hlog] & [prev Hprev] & [next Hnext] & [last Hlast]) Hf HP Hcur. destruct (fuel_bound es more num) as (bound & Hbound).
  exists bound. intros n fuel Hn Hfu. destruct (VersionSet_new_ok (uvalid := uvalid) icmp) as (vs0 & Hnew & Hok0 & Hcp0 & Hf0 & Hl0). destruct r as [r1 r2 r3 r4]. cbn in *. subst.
  destruct (Recover_spec es more P m cp log prev next last num vs0 e n fuel Hok0 Hcp0 Hf0 Hl0 He Hnum Hok Hdis (Hbound n fuel Hn Hfu) Hd Hf HP Hcur)
    as (vs' & e' & save & Hr & _ & Hok' & Hcp & H1 & H2 & H3 & H4 & _). destruct (vk_current _ _ _ _ Hok') as (v' & Hc' & Hv').
  exists vs0, vs', e', save, v'. cbn. split_and!; try done; [|by rewrite ?H1, ?H2, ?H3, ?H4..]. intros l. by apply (version_maps_unique icmp v' v m l).
Qed.

Lemma run_complete K m r vs e : manifest_run K m (Some r) vs e → complete_numbers r.
Proof.
  intros H. remember (Some r) as d eqn:Hd. induction H as [|K m d vs e edit vs' e' s _ _ _ _|K m d vs e _ IH _|K m d vs e q vs' _ IH _ _]; [done| |by apply IH..].
  injection Hd as <-. by split_and!.
Qed.

(** C14: the MANIFEST survives a restart.  However many edits a database has
    logged, however many numbers it has taken, opening the database again from
    the files it left reads the descriptor CURRENT names, and gives a current
    version with the same files at every level, the same compaction pointers, and
    the log, file and sequence numbers of the last edit. *)
Theorem manifest_recovery K m r vs e : manifest_run K m (Some r) vs e →
  ∃ v bound, current_version (vs_versions vs) = Some v ∧
    ∀ n fuel, (bound ≤ n)%nat → (bound ≤ fuel)%nat → restored n fuel e v (vs_compact_pointer_ vs) r.
Proof.
  intros Hrun. pose proof (run_complete _ _ _ _ _ Hrun) as Hr. destruct (run_invariant _ _ _ _ _ Hrun) as (es & [Hok Hcl Hdis _ Hd]).
  destruct (Hd r eq_refl) as [Hds [Hf Hcur _]]. destruct (vk_current _ _ _ _ Hok) as (v & Hcv & Hv). exists v.
  destruct (restored_from es [] (manifest_log es).1 m v (vs_compact_pointer_ vs) r (vs_manifest_file_number_ vs) e) as (bound & Hb); try done.
  - apply Hcl.
  - apply (cl_numbers _ _ _ _ Hcl).
  - apply Hcl.
  - apply holds_all.
  - by exists bound.
Qed.

(** C15: logging an edit is atomic across a crash.  If the machine stops while the
    descriptor is written, leaving any part of the new record after what was
    there, recovery gives the files, pointers and numbers of the version before
    the edit, or, when the whole record reached the file, those after it. *)
Theorem manifest_crash_atomic K m r vs e edit vs1 e1 s old new P e2 :
  manifest_run K m (Some r) vs e → may_log edit K m vs →
  LogAndApply icmp dbname comparator_name edit vs e = Some (vs1, e1, s) →
  let name := DescriptorFileName dbname (vs_manifest_file_number_ vs) in
  files e name = Some old → files e1 name = Some new → old `prefix_of` P → P `prefix_of` new →
  env_ok e2 → files e2 name = Some P → files e2 (CurrentFileName dbname) = files e1 (CurrentFileName dbname) →
  ∃ v v1 bound, current_version (vs_versions vs) = Some v ∧ current_version (vs_versions vs1) = Some v1 ∧
    ∀ n fuel, (bound ≤ n)%nat → (bound ≤ fuel)%nat →
      if decide (P = new) then restored n fuel e2 v1 (vs_compact_pointer_ vs1) (numbers_of edit vs)
      else restored n fuel e2 v (vs_compact_pointer_ vs) r.
Proof.
  intros Hrun Hml Hla name Hold Hnew HoP HPn He2 HP Hcur2. pose proof (run_complete _ _ _ _ _ Hrun) as Hr.
  destruct (run_invariant _ _ _ _ _ Hrun) as (es & Hinv). pose proof Hinv as [Hok Hcl Hdis _ Hd].
  destruct (Hd r eq_refl) as [Hds [Hf _ (hh & _ & _ & Hlogo & _)]]. destruct (run_inv_log es K m _ vs e edit Hinv Hml) as (vs1' & e1' & es' & Hla' & Hinv' & Hmn & Happ).
  rewrite Hla in Hla'. injection Hla' as <- <- ->. destruct Happ as (edit' & ->); [by rewrite Hlogo|]. pose proof Hinv' as [Hok' Hcl' Hdis' _ Hd'].
  destruct (Hd' _ eq_refl) as [Hds' [Hf' Hcur' _]]. rewrite Hmn in Hf', Hcur'. fold name in Hf, Hf'. rewrite Hf in Hold. injection Hold as <-. rewrite Hf' in Hnew. injection Hnew as <-.
  destruct (vk_current _ _ _ _ Hok) as (v & Hcv & Hv). destruct (vk_current _ _ _ _ Hok') as (v1 & Hcv1 & Hv1). exists v, v1. rewrite Hcur' in Hcur2.
  pose proof (cl_numbers _ _ _ _ Hcl) as (_ & Hmok & _). destruct (decide (P = _)) as [->|Hne].
  - destruct (restored_from (es ++ [edit']) [] (manifest_log (es ++ [edit'])).1 _ v1 (vs_compact_pointer_ vs1) (numbers_of edit vs) (vs_manifest_file_number_ vs) e2 He2 Hmok (cl_ok _ _ _ _ Hcl') Hdis' Hv1 Hds')
      as (bound & Hb); [by split_and!|done|apply holds_all|done|]. by exists bound.
  - destruct (restored_from es [edit'] P _ v (vs_compact_pointer_ vs) r (vs_manifest_file_number_ vs) e2 He2 Hmok (cl_ok _ _ _ _ Hcl) Hdis Hv Hds Hr) as (bound & Hb); [done| |done|by exists bound].
    split; [unfold manifest_log in HPn; by rewrite fmap_app in HPn|]. split; [by apply prefix_length|]. intros d l [= <- <-]. unfold manifest_log in Hne, HPn. rewrite fmap_app in Hne, HPn.
    apply Nat.le_neq. split; [by apply prefix_length|]. intros Hlen. apply Hne. by apply prefix_length_eq; [|cbn in Hlen; rewrite Hlen].
Qed.
End manifest.

(** ** Examples *)

Definition second_edit : VersionEdit :=
  RemoveFile 1 7 (AddFile 2 7 100 (InternalKey_new (str "a") 5 kTypeValue) (InternalKey_new (str "k") 3 kTypeValue) VersionEdit_Clear).

Notation example_run := (manifest_run (uvalid := λ _, True) (env_ok := env_ok) version_icmp (str "db") (str "cmp")).
Notation example_may_log := (may_log (uvalid := λ _, True) version_icmp (str "cmp")).

Lemma example_numbers : vs_next_file_number_ example_set = 2 ∧ vs_manifest_file_number_ example_set = 0 ∧ vs_last_sequence_ example_set = 0 ∧
  vs_log_number_ example_set = 0 ∧ vs_prev_log_number_ example_set = 0.
Proof. by split_and!. Qed.

Lemma example_opened : opened_set (uvalid := λ _, True) (env_ok := env_ok) version_icmp (str "cmp") ∅ example_set InMemoryEnv_new.
Proof.
  destruct (VersionSet_new_ok (E := InMemoryEnv) (uvalid := λ _, True) version_icmp) as (vs & Hnew & Hok & Hp & Hf & Hl).
  rewrite example_set_new in Hnew. injection Hnew as <-. split; [done|..]; try done.
  - apply env_ok_new.
  - rewrite Hp. unfold pointers_storable. by apply Forall_replicate.
Qed.

Lemma first_edit_may_log : example_may_log first_edit ∅ ∅ example_set.
Proof.
  destruct first_edit_follows as [H1 H2 _ H4 H5]. split; try done.
  - split; [|constructor]. repeat (constructor; [split_and!; vm_compute; done|]). constructor.
  - by left.
  - intros n [= <-]. destruct example_numbers as (-> & _ & _ & -> & _). lia.
Qed.

Lemma first_run : ∃ vs e, LogAndApply version_icmp (str "db") (str "cmp") first_edit example_set InMemoryEnv_new = Some (vs, e, Status_OK) ∧
  example_run {[(1, 7)]} (spec_edit first_edit ∅) (Some (numbers_of first_edit example_set)) vs e.
Proof.
  pose proof (run_open (uvalid := λ _, True) (env_ok := env_ok) version_icmp (str "db") (str "cmp") _ _ _ example_opened) as Hrun.
  destruct (run_invariant (uvalid := λ _, True) version_icmp (str "db") (str "cmp") _ _ _ _ _ Hrun) as (es & Hinv).
  destruct (run_inv_log version_icmp (str "db") (str "cmp") es _ _ _ _ _ first_edit Hinv first_edit_may_log) as (vs & e & es' & Hla & _).
  exists vs, e. split; [done|]. eapply (run_log (uvalid := λ _, True) version_icmp (str "db") (str "cmp") (dom ∅) ∅ None) in Hrun; [|exact first_edit_may_log|exact Hla].
  rewrite dom_empty_L in Hrun. unfold adds in Hrun. cbn in Hrun. by rewrite !union_empty_r_L in Hrun.
Qed.

Lemma manifest_recovery_witness : ∃ vs e v bound, LogAndApply version_icmp (str "db") (str "cmp") first_edit example_set InMemoryEnv_new = Some (vs, e, Status_OK) ∧
  current_version (vs_versions vs) = Some v ∧
  restored version_icmp (str "db") (str "cmp") 2097152 false bound bound e v (vs_compact_pointer_ vs) (numbers_of first_edit example_set).
Proof.
  destruct first_run as (vs & e & Hla & Hrun).
  destruct (manifest_recovery version_icmp (str "db") (str "cmp") 2097152 false _ _ _ vs e Hrun) as (v & bound & Hv & Hb).
  exists vs, e, v, bound. split; [exact Hla|]. split; [exact Hv|]. by apply Hb.
Defined.

Lemma second_edit_map : spec_edit second_edit (spec_edit first_edit ∅) =
  {[(2, 7) := {| number := 7; file_size := 100; smallest := InternalKey_new (str "a") 5 kTypeValue; largest := InternalKey_new (str "k") 3 kTypeValue |}]}.
Proof. vm_compute. reflexivity. Qed.

Lemma second_edit_may_log (vs : VersionSet (E := InMemoryEnv)) : example_may_log second_edit {[(1, 7)]} (spec_edit first_edit ∅) vs.
Proof.
  split.
  - split; [constructor|constructor; [|constructor]; by split|]. constructor; [|constructor]. split; [by split|]. split; [|done]. apply Nat.leb_le. reflexivity.
  - split; [|repeat constructor]. repeat (constructor; [split_and!; vm_compute; done|]). constructor.
  - by left.
  - done.
  - repeat constructor. apply not_elem_of_nil.
  - intros k [->|?%not_elem_of_nil]%elem_of_cons; [|done]. by intros ?%elem_of_singleton.
  - rewrite second_edit_map. intros k x [<- <-]%lookup_singleton_Some. split_and!; [split; [apply Nat.leb_le; reflexivity|done]..|]. vm_compute. discriminate.
  - rewrite second_edit_map. intros l n n' x y _ [[= <- <-] <-]%lookup_singleton_Some [[= <-] <-]%lookup_singleton_Some Hn. done.
Qed.

(** The machine stops before any of the second record is written. *)
Lemma manifest_crash_atomic_witness : ∃ vs e v cp r bound, LogAndApply version_icmp (str "db") (str "cmp") first_edit example_set InMemoryEnv_new = Some (vs, e, Status_OK) ∧
  restored version_icmp (str "db") (str "cmp") 2097152 true bound bound e v cp r.
Proof.
  destruct first_run as (vs & e & Hla & Hrun). destruct (run_invariant version_icmp (str "db") (str "cmp") _ _ _ _ _ Hrun) as (es & Hinv).
  destruct (run_inv_log version_icmp (str "db") (str "cmp") es _ _ _ _ _ second_edit Hinv (second_edit_may_log vs)) as (vs1 & e1 & es1 & Hla1 & Hinv1 & Hm1 & Happ).
  destruct (ri_described _ _ _ _ _ _ _ _ _ Hinv _ eq_refl) as [_ [Hf Hc (h & _ & _ & Hl & _)]]. destruct Happ as (edit' & ->); [by rewrite Hl|].
  destruct (ri_described _ _ _ _ _ _ _ _ _ Hinv1 _ eq_refl) as [_ [Hf1 Hc1 _]]. rewrite Hm1 in Hf1, Hc1.
  assert (manifest_log (es ++ [edit']) = ((manifest_log es).1 ++ (encode_record (manifest_log es).2 (edit_bytes edit')).1, (encode_record (manifest_log es).2 (edit_bytes edit')).2)) as Hml.
  { unfold manifest_log. rewrite fmap_app. apply encode_log_snoc. }
  destruct (manifest_crash_atomic version_icmp (str "db") (str "cmp") 2097152 true _ _ _ vs e second_edit vs1 e1 Status_OK _ _ (manifest_log es).1 e
    Hrun (second_edit_may_log vs) Hla1 Hf Hf1) as (v & v1 & bound & _ & _ & Hb).
  - reflexivity.
  - rewrite Hml. by apply prefix_app_r.
  - apply (cl_env _ _ _ _ _ _ _ (ri_can _ _ _ _ _ _ _ _ _ Hinv)).
  - exact Hf.
  - by rewrite Hc, Hc1.
  - exists vs, e. specialize (Hb bound bound (Nat.le_refl _) (Nat.le_refl _)). destruct (decide _) in Hb.
    + eexists v1, _, _, bound. split; [exact Hla|exact Hb].
    + eexists v, _, _, bound. split; [exact Hla|exact Hb].
Defined.
