(* ===== verification/LiveVersions.v ===== *)
(** The life of versions ([VersionSet], db/version_set.cc and db/version_set.h): what
    is alive at every point of a run of the database. *)
From stdpp Require Import gmap.
From S2P Require Import Prelude Coding Env FileSystem MemEnv MemFs Comparator DbFormat Filename LogFormat LogReader VersionEdit Version VersionBuilder VersionSet Manifest.

(** ** Statistics of reads *)

Lemma UpdateStats_keeps stats v h v' h' compact : UpdateStats stats v h = Some (v', h', compact) → files_ v' = files_ v ∧ ∀ p, refs <$> h' !! p = refs <$> h !! p.
Proof.
  unfold UpdateStats. destruct (seek_file stats) as [f|]; [|by intros [= <- <- <-]]. destruct (h !! f_ptr f) as [c|] eqn:Hc; [|done]. cbn [mbind option_bind]. intros H.
  assert (files_ v' = files_ v ∧ h' = <[f_ptr f := {| refs := refs c; allowed_seeks := allowed_seeks c - 1 |}]> h) as [Hv ->] by (repeat case_match; by injection H as <- <- <-).
  split; [done|]. intros p. destruct (decide (p = f_ptr f)) as [->|]; [by rewrite lookup_insert_eq, Hc|by rewrite lookup_insert_ne].
Qed.

Lemma vl_ok_replace owners X vl id o v h : vl_ok owners X vl → vl_objects vl !! id = Some o → files_ v = files_ (v_version o) → (∀ p, refs <$> h !! p = refs <$> vl_files vl !! p) →
  vl_ok owners X {| vl_list := vl_list vl; vl_objects := <[id := {| v_version := v; v_refs := v_refs o |}]> (vl_objects vl); vl_files := h; vl_current := vl_current vl |}.
Proof.
  intros [Hnd Hlive Hrefs Hown Hcu Hcount] Ho Hfiles Hh.
  assert (∀ x, is_Some (<[id := {| v_version := v; v_refs := v_refs o |}]> (vl_objects vl) !! x) ↔ is_Some (vl_objects vl !! x)) as Hdom.
  { intros x. destruct (decide (x = id)) as [->|]; [rewrite lookup_insert_eq, Ho; by split; eexists|by rewrite lookup_insert_ne]. }
  split; cbn [vl_list vl_objects vl_files vl_current]; [done| | | | |].
  - intros x. by rewrite Hlive, Hdom.
  - intros x o'. destruct (decide (x = id)) as [->|]; [rewrite lookup_insert_eq; intros [= <-]; by apply (Hrefs _ o)|rewrite lookup_insert_ne by done; apply Hrefs].
  - intros x Hin. by apply Hdom, Hown.
  - intros x Hin. by apply Hdom, Hcu.
  - unfold listed. cbn [vl_objects vl_list]. assert (version_files (<[id := {| v_version := v; v_refs := v_refs o |}]> (vl_objects vl)) <$> vl_list vl
      = version_files (vl_objects vl) <$> vl_list vl) as ->.
    { apply list_fmap_ext. intros i x _. unfold version_files. destruct (decide (x = id)) as [->|]; [|by rewrite lookup_insert_ne]. rewrite lookup_insert_eq, Ho. cbn [v_version]. unfold all_files. by rewrite Hfiles. }
    intros p. specialize (Hcount p). specialize (Hh p). destruct (h !! p), (vl_files vl !! p); cbn in Hh; try done. by injection Hh as ->.
Qed.

(** ** Runs *)

Section live_versions.
Context {C : Type} `{!Comparator C} {uvalid : list byte → Prop} `{!ComparatorLaws C uvalid} (icmp : InternalKeyComparator C).
Context {E : Type} `{!FileSystem E} {env_ok : E → Prop} {files : E → list byte → option (list byte)}
  {writing : E → WFile E → list byte → Prop} {reading : E → SFile E → list byte → Prop} {pos : SFile E → nat}
  `{!FileSystemLaws E env_ok files writing reading pos}.
Context (dbname comparator_name : list byte) (max_file_size : Z) (reuse_logs : bool).
Notation VersionSet := (VersionSet (E := E)).
Notation file_map := (gmap (Z * Z) FileMetaData).
Implicit Types (vs : VersionSet) (m : file_map) (e : E).

(** The files of a database whose descriptor describes [m]: CURRENT names a
    descriptor that holds the records of edits with that outcome, maybe with a part
    of a further record at its end. *)
Definition recoverable m (n fuel : nat) e : Prop :=
  env_ok e ∧ map_ok (uvalid := uvalid) icmp m ∧ map_disjoint icmp m ∧ ∃ es more P cp r num, num_ok num ∧ complete_numbers r ∧
    described (uvalid := uvalid) comparator_name es m cp r ∧ enough_fuel es more num n fuel ∧ holds es more P ∧
    files e (DescriptorFileName dbname num) = Some P ∧ files e (CurrentFileName dbname) = Some (manifest_name num ++ [x0a]).

(** The statistics of a read of version [id] are noted. *)
Definition with_stats (id : nat) (o : VersionObject) (v : Version) (h : FileHeap) (vl : VersionList) : VersionList :=
  {| vl_list := vl_list vl; vl_objects := <[id := {| v_version := v; v_refs := v_refs o |}]> (vl_objects vl); vl_files := h; vl_current := vl_current vl |}.

(** A set of versions in use.  A database is new or recovered from its files;
    then edits are applied, with any outcome on any file system; callers take a
    reference to the current version and drop the references they hold; file
    numbers are taken, given back and skipped, the sequence number advances, reads
    note statistics and compactions move the compaction pointers. *)
Inductive version_run : list nat → file_map → VersionSet → Prop :=
  | vr_new vs : VersionSet_new = Some vs → version_run [] ∅ vs
  | vr_recover m vs n fuel e vs' e' save : VersionSet_new = Some vs → recoverable m n fuel e →
      Recover icmp dbname comparator_name max_file_size reuse_logs n fuel vs e = Some (vs', e', Status_OK, save) → version_run [] m vs'
  | vr_log owners m vs edit e vs' e' s : version_run owners m vs → edit_follows (uvalid := uvalid) icmp edit m →
      LogAndApply icmp dbname comparator_name edit vs e = Some (vs', e', s) → version_run owners (if ok s then spec_edit edit m else m) vs'
  | vr_ref owners m vs id vl : version_run owners m vs → vl_current (vs_versions vs) = Some id → Version_Ref id (vs_versions vs) = Some vl →
      version_run (id :: owners) m (set_versions vl (vs_compact_pointer_ vs) vs)
  | vr_unref owners owners' m vs id vl : version_run owners m vs → owners ≡ₚ id :: owners' → Version_Unref id (vs_versions vs) = Some vl →
      version_run owners' m (set_versions vl (vs_compact_pointer_ vs) vs)
  | vr_number owners m vs : version_run owners m vs → version_run owners m (NewFileNumber vs).2
  | vr_reuse_number owners m vs num : version_run owners m vs → version_run owners m (ReuseFileNumber num vs)
  | vr_mark_number owners m vs num : version_run owners m vs → version_run owners m (MarkFileNumberUsed num vs)
  | vr_sequence owners m vs q vs' : version_run owners m vs → VersionSet_SetLastSequence q vs = Some vs' → version_run owners m vs'
  | vr_stats owners m vs id o stats v h compact : version_run owners m vs → vl_objects (vs_versions vs) !! id = Some o →
      UpdateStats stats (v_version o) (vl_files (vs_versions vs)) = Some (v, h, compact) →
      version_run owners m (set_versions (with_stats id o v h (vs_versions vs)) (vs_compact_pointer_ vs) vs)
  | vr_pointer owners m vs level key : version_run owners m vs → version_run owners m (set_versions (vs_versions vs) (<[level := key]> (vs_compact_pointer_ vs)) vs).

Lemma recover_ok m vs n fuel e vs' e' s save : VersionSet_new = Some vs → recoverable m n fuel e →
  Recover icmp dbname comparator_name max_file_size reuse_logs n fuel vs e = Some (vs', e', s, save) → vs_ok (uvalid := uvalid) icmp [] m vs'.
Proof.
  intros Hnew (He & Hok & Hdis & es & more & P & cp & r & num & Hnum & ([log Hlog] & [prev Hprev] & [next Hnext] & [last Hlast]) & Hd & Hfuel & HP & Hf & Hcur) Hr.
  destruct (VersionSet_new_ok (uvalid := uvalid) icmp) as (vs0 & Hnew0 & Hok0 & Hcp0 & Hf0 & Hl0). rewrite Hnew in Hnew0. injection Hnew0 as <-. destruct r as [r1 r2 r3 r4]. cbn in *. subst.
  destruct (Recover_spec icmp dbname comparator_name max_file_size reuse_logs es more P m cp log prev next last num vs e n fuel Hok0 Hcp0 Hf0 Hl0 He Hnum Hok Hdis Hfuel Hd Hf HP Hcur)
    as (vs1 & e1 & save1 & Hr1 & _ & Hok1 & _). rewrite Hr in Hr1. by injection Hr1 as <- _ _ _.
Qed.

(** The invariant of runs does not depend on the numbers. *)
Lemma vs_ok_numbers owners m vs next manifest last log prev : vs_ok (uvalid := uvalid) icmp owners m vs → vs_ok (uvalid := uvalid) icmp owners m (set_numbers next manifest last log prev vs).
Proof. by intros [Hl Hc Hp]. Qed.

Lemma vs_ok_stats owners m vs id o stats v h compact : vs_ok (uvalid := uvalid) icmp owners m vs → vl_objects (vs_versions vs) !! id = Some o →
  UpdateStats stats (v_version o) (vl_files (vs_versions vs)) = Some (v, h, compact) →
  vs_ok (uvalid := uvalid) icmp owners m (set_versions (with_stats id o v h (vs_versions vs)) (vs_compact_pointer_ vs) vs).
Proof.
  intros [Hl (v0 & Hc & Hv) Hp] Ho Hu. destruct (UpdateStats_keeps _ _ _ _ _ _ Hu) as [Hf Hh]. split; [by eapply vl_ok_replace| |done].
  destruct (current_inv _ _ Hc) as (c & o0 & Hcur & Hoc & <-). unfold current_version. cbn [set_versions vs_versions with_stats vl_current vl_objects]. rewrite Hcur. cbn [mbind option_bind].
  destruct (decide (c = id)) as [->|]; [|rewrite lookup_insert_ne by done; rewrite Hoc; by eexists].
  rewrite lookup_insert_eq. eexists. split; [done|]. cbn [v_version]. rewrite Ho in Hoc. injection Hoc as ->. by eapply version_maps_files.
Qed.

Lemma version_run_ok owners m vs : version_run owners m vs → vs_ok (uvalid := uvalid) icmp owners m vs.
Proof.
  induction 1 as [vs Hnew|m vs n fuel e vs' e' save Hnew Hrec Hr|owners m vs edit e vs' e' s _ IH Hf Hla|owners m vs id vl _ [Hl (v & Hc & Hv) Hp] Hid Href
    |owners owners' m vs id vl _ [Hl (v & Hc & Hv) Hp] Ho Hun|owners m vs _ IH|owners m vs num _ IH|owners m vs num _ IH|owners m vs q vs' _ IH Hq
    |owners m vs id o stats v h compact _ IH Ho Hu|owners m vs level key _ [Hl Hc Hp]].
  - destruct (VersionSet_new_ok (uvalid := uvalid) icmp) as (vs0 & Hnew' & Hok & _). congruence.
  - by eapply recover_ok.
  - by destruct (LogAndApply_effect icmp dbname comparator_name owners m vs edit e vs' e' s IH Hf Hla) as [Hok _].
  - destruct (Version_Ref_ok owners [] _ id Hl) as (vl' & Href' & Hl' & Hc' & _ & Hs'); [by apply (vo_current _ _ _ Hl)|]. assert (vl' = vl) as -> by congruence.
    split; [done| |done]. exists v. split; [|done]. rewrite <- Hc. by apply current_eq.
  - rewrite Ho in Hl. destruct (Version_Unref_ok owners' [] _ id Hl) as (vl' & Hun' & Hl' & Hc' & _ & Hs'). assert (vl' = vl) as -> by congruence.
    split; [done| |done]. exists v. split; [|done]. rewrite <- Hc. apply current_eq; [done|]. intros x Hx. apply Hs'. by left.
  - by apply vs_ok_numbers.
  - unfold ReuseFileNumber. case_match; [by apply vs_ok_numbers|done].
  - unfold MarkFileNumberUsed. case_match; [by apply vs_ok_numbers|done].
  - unfold VersionSet_SetLastSequence in Hq. case_match; [|done]. injection Hq as <-. by apply vs_ok_numbers.
  - by eapply vs_ok_stats.
  - split; [done|done|]. cbn. by rewrite length_insert.
Qed.

(** ** Claims *)

(** C17: a version someone holds keeps its files.  At every point of a run, a
    version is live exactly when it is current or someone holds a reference to
    it, and dropping a held reference never fails; a file record is live exactly
    when a live version has the file; and [AddLiveFiles], from which obsolete
    files are told, lists exactly the numbers of those files. *)
Theorem live_versions_exact owners m vs : version_run owners m vs →
  (∀ id, is_Some (vl_objects (vs_versions vs) !! id) ↔ id ∈ owners ∨ vl_current (vs_versions vs) = Some id) ∧
  (∀ id, id ∈ owners → is_Some (Version_Unref id (vs_versions vs))) ∧
  (∀ p, is_Some (vl_files (vs_versions vs) !! p) ↔
    ∃ id o f, vl_objects (vs_versions vs) !! id = Some o ∧ f ∈ all_files (v_version o) ∧ f_ptr f = p) ∧
  ∃ live, AddLiveFiles ∅ vs = Some live ∧
    ∀ n, n ∈ live ↔ ∃ id o (f : File), vl_objects (vs_versions vs) !! id = Some o ∧ f ∈ all_files (v_version o) ∧ number f = n.
Proof.
  intros [Hl _ _]%version_run_ok. split; [intros id; by eapply held_iff|]. split_and!.
  - intros id Hid. apply elem_of_Permutation in Hid as (owners' & Ho). rewrite Ho in Hl. destruct (Version_Unref_ok _ _ _ _ Hl) as (vl' & -> & _). done.
  - intros p. pose proof (vo_counted _ _ _ Hl p) as Hp. cbn [app] in Hp. split.
    + intros [o Ho]. rewrite Ho in Hp. destruct Hp as [_ Hp]. unfold uses in Hp. destruct (filter (λ f, f_ptr f = p) (listed (vs_versions vs))) as [|f l] eqn:Hfil; [cbn in Hp; lia|].
      assert (f ∈ filter (λ f, f_ptr f = p) (listed (vs_versions vs))) as Hf by (rewrite Hfil; left). apply list_elem_of_filter in Hf as [<- Hf].
      apply (listed_elem _ _ _ _ Hl) in Hf as (id & o' & ? & ?). by exists id, o', f.
    + intros (id & o & f & Ho & Hf & <-). apply (counted_live _ _ (vo_counted _ _ _ Hl)). apply (listed_elem _ _ _ _ Hl). by exists id, o.
  - destruct (live_numbers_spec (vl_list (vs_versions vs)) (vl_objects (vs_versions vs)) ∅) as (live & Hlive & Hn); [intros id; apply (vo_live _ _ _ Hl)|].
    exists live. split; [done|]. intros n. rewrite Hn. setoid_rewrite (listed_elem _ _ _ _ Hl). split.
    + intros [?%not_elem_of_empty|(f & (id & o & Ho & Hf) & <-)]; [done|]. by exists id, o, f.
    + intros (id & o & f & Ho & Hf & <-). right. exists f. split; [by exists id, o|done].
Qed.
End live_versions.

(** ** Examples *)

Notation example_version_run := (version_run (uvalid := λ _, True) (env_ok := MemFs.env_ok) (files := MemFs.files) version_icmp (str "db") (str "cmp") 2097152 false).

(** What opening a database logs after recovery. *)
Definition open_edit : VersionEdit := SetLogNumber 3 (SetPrevLogNumber 0 VersionEdit_Clear).

Lemma open_edit_map : spec_edit open_edit (spec_edit first_edit ∅) = spec_edit first_edit ∅.
Proof. vm_compute. reflexivity. Qed.

Lemma open_edit_follows : edit_follows (uvalid := λ _, True) version_icmp open_edit (spec_edit first_edit ∅).
Proof.
  destruct first_edit_follows as [_ _ _ H4 H5]. split.
  - split; constructor.
  - constructor.
  - by intros k ?%not_elem_of_nil.
  - by rewrite open_edit_map.
  - by rewrite open_edit_map.
Qed.

(** A database that was written, closed and opened again: a new MANIFEST is in use. *)
Lemma reopened_run : ∃ vs e, example_version_run [] (spec_edit first_edit ∅) vs ∧ MemFs.env_ok e ∧ vs_manifest_file_number_ vs = 2 ∧ vs_next_file_number_ vs = 4.
Proof.
  destruct first_run as (vs0 & e0 & _ & Hrun0). destruct (run_invariant version_icmp (str "db") (str "cmp") _ _ _ _ _ Hrun0) as (es & [_ Hcl Hdis _ Hd]).
  destruct (Hd _ eq_refl) as [Hds [Hf Hcur _]]. destruct (fuel_bound es [] (vs_manifest_file_number_ vs0)) as (bound & Hb).
  pose proof (Hb bound bound (Nat.le_refl _) (Nat.le_refl _)) as Hfuel. pose proof (cl_numbers _ _ _ _ _ _ _ Hcl) as (_ & Hnum & _).
  assert (numbers_of first_edit example_set = {| r_log_number := Some 1; r_prev_log_number := Some 0; r_next_file := Some 2; r_last_sequence := Some 0 |}) as Hn by reflexivity.
  destruct (VersionSet_new_ok (E := InMemoryEnv) (uvalid := λ _, True) version_icmp) as (vs & Hnew & Hok0 & Hcp0 & Hf0 & Hl0). rewrite example_set_new in Hnew. injection Hnew as <-.
  rewrite Hn in Hds. destruct (Recover_spec version_icmp (str "db") (str "cmp") 2097152 false es [] _ _ _ 1 0 2 0 _ example_set e0 bound bound Hok0 Hcp0 Hf0 Hl0 (cl_env _ _ _ _ _ _ _ Hcl) Hnum
    (cl_ok _ _ _ _ _ _ _ Hcl) Hdis Hfuel Hds Hf (holds_all es) Hcur) as (vs1 & e1 & save & Hr & He1 & Hok1 & Hcp & H1 & H2 & H3 & H4 & H5 & _ & Hsave). destruct (Hsave eq_refl) as (-> & Hd1 & Hd2).
  assert (example_version_run [] (spec_edit first_edit ∅) vs1) as Hrun1.
  { eapply vr_recover; [apply example_set_new| |exact Hr]. split; [apply Hcl|]. split; [apply Hcl|]. split; [done|]. eexists es, [], _, _, _, _. split; [exact Hnum|]. split; [|by split_and!; try apply holds_all]. by split_and!. }
  destruct (LogAndApply_logs (env_ok := MemFs.env_ok) version_icmp (str "db") (str "cmp") [] [] (spec_edit first_edit ∅) (NewFileNumber vs1).2 e1 open_edit) as (vs2 & e2 & es2 & Hla & He2 & _ & _ & _ & _ & Hnext & _ & Hman & _).
  - by apply vs_ok_numbers.
  - split; [done| |done|apply Hcl|cbn; rewrite Hcp; apply Hcl|apply Hcl|by left]. unfold numbers_ok. cbn. rewrite H1, H2, H3, H4, H5. by vm_compute.
  - split; [apply open_edit_follows| |by left| |by intros k ?%not_elem_of_nil].
    + split; [|constructor]. repeat (constructor; [vm_compute; done|]). constructor.
    + intros n [= <-]. cbn. rewrite H1, H4. by vm_compute.
  - exists vs2, e2. split_and!; [|done|rewrite Hman; cbn; by rewrite H5|rewrite Hnext; cbn; by rewrite H4].
    rewrite <- open_edit_map. apply (vr_log (uvalid := λ _, True) version_icmp (str "db") (str "cmp") 2097152 false [] (spec_edit first_edit ∅) (NewFileNumber vs1).2 open_edit e1 vs2 e2 Status_OK); [by apply vr_number|apply open_edit_follows|done].
Qed.

(** A reader holds the version of a reopened database. *)
Lemma live_versions_exact_witness : ∃ vs id vl, vs_manifest_file_number_ vs = 2 ∧ Version_Ref id (vs_versions (E := InMemoryEnv) vs) = Some vl ∧ is_Some (Version_Unref id vl).
Proof.
  destruct reopened_run as (vs & e & Hrun & _ & Hman & _). destruct (version_run_ok _ _ _ _ _ _ _ _ Hrun) as [Hl (v & Hc & _) _]. destruct (current_inv _ _ Hc) as (id & o & Hid & Ho & _).
  destruct (Version_Ref_ok [] [] _ id Hl) as (vl & Href & _); [by eexists|]. exists vs, id, vl. split; [exact Hman|]. split; [exact Href|].
  apply (live_versions_exact (uvalid := λ _, True) (env_ok := MemFs.env_ok) version_icmp (str "db") (str "cmp") 2097152 false [id] (spec_edit first_edit ∅) (set_versions vl (vs_compact_pointer_ vs) vs)); [|left].
  by apply vr_ref.
Defined.
