(* ===== verification/Compaction.v ===== *)
(** Picking compactions (db/version_set.cc: [VersionSet::PickCompaction],
    [CompactRange], [SetupOtherInputs] and class [Compaction]).  The files chosen
    can be replaced by any tables with their entries: what remains stays searched
    in the right order. *)
From stdpp Require Import sorting gmap.
From S2P Require Import Prelude Coding Double Env FileSystem MemEnv MemFs Comparator DbFormat Iterator Merger TwoLevel VersionEdit Version VersionBuilder VersionSet.

Definition MaxFileSizeForLevel (max_file_size : Z) (level : nat) : Z := TargetFileSize max_file_size.

(** ** Compactions *)

Record Compaction := {
  c_level : nat;
  max_output_file_size_ : Z;
  input_version_ : option nat;
  c_edit : VersionEdit;
  inputs0 : list File;
  inputs1 : list File;
  grandparents_ : list File;
  grandparent_index_ : nat;
  seen_key_ : bool;
  overlapped_bytes_ : Z;
  level_ptrs_ : list nat;
}.
Implicit Types (c : Compaction) (f : File).

Definition set_inputs (in0 in1 : list File) c : Compaction :=
  {| c_level := c_level c; max_output_file_size_ := max_output_file_size_ c; input_version_ := input_version_ c; c_edit := c_edit c;
     inputs0 := in0; inputs1 := in1; grandparents_ := grandparents_ c; grandparent_index_ := grandparent_index_ c;
     seen_key_ := seen_key_ c; overlapped_bytes_ := overlapped_bytes_ c; level_ptrs_ := level_ptrs_ c |}.

Definition set_grandparents (files : list File) c : Compaction :=
  {| c_level := c_level c; max_output_file_size_ := max_output_file_size_ c; input_version_ := input_version_ c; c_edit := c_edit c;
     inputs0 := inputs0 c; inputs1 := inputs1 c; grandparents_ := files; grandparent_index_ := grandparent_index_ c;
     seen_key_ := seen_key_ c; overlapped_bytes_ := overlapped_bytes_ c; level_ptrs_ := level_ptrs_ c |}.

Definition set_edit (edit : VersionEdit) c : Compaction :=
  {| c_level := c_level c; max_output_file_size_ := max_output_file_size_ c; input_version_ := input_version_ c; c_edit := edit;
     inputs0 := inputs0 c; inputs1 := inputs1 c; grandparents_ := grandparents_ c; grandparent_index_ := grandparent_index_ c;
     seen_key_ := seen_key_ c; overlapped_bytes_ := overlapped_bytes_ c; level_ptrs_ := level_ptrs_ c |}.

Definition set_input_version (id : option nat) c : Compaction :=
  {| c_level := c_level c; max_output_file_size_ := max_output_file_size_ c; input_version_ := id; c_edit := c_edit c;
     inputs0 := inputs0 c; inputs1 := inputs1 c; grandparents_ := grandparents_ c; grandparent_index_ := grandparent_index_ c;
     seen_key_ := seen_key_ c; overlapped_bytes_ := overlapped_bytes_ c; level_ptrs_ := level_ptrs_ c |}.

Definition set_overlap (index : nat) (seen : bool) (bytes : Z) c : Compaction :=
  {| c_level := c_level c; max_output_file_size_ := max_output_file_size_ c; input_version_ := input_version_ c; c_edit := c_edit c;
     inputs0 := inputs0 c; inputs1 := inputs1 c; grandparents_ := grandparents_ c; grandparent_index_ := index;
     seen_key_ := seen; overlapped_bytes_ := bytes; level_ptrs_ := level_ptrs_ c |}.

Definition set_level_ptrs (ptrs : list nat) c : Compaction :=
  {| c_level := c_level c; max_output_file_size_ := max_output_file_size_ c; input_version_ := input_version_ c; c_edit := c_edit c;
     inputs0 := inputs0 c; inputs1 := inputs1 c; grandparents_ := grandparents_ c; grandparent_index_ := grandparent_index_ c;
     seen_key_ := seen_key_ c; overlapped_bytes_ := overlapped_bytes_ c; level_ptrs_ := ptrs |}.

Definition Compaction_new (max_file_size : Z) (level : nat) : Compaction :=
  {| c_level := level; max_output_file_size_ := MaxFileSizeForLevel max_file_size level; input_version_ := None; c_edit := VersionEdit_Clear;
     inputs0 := []; inputs1 := []; grandparents_ := []; grandparent_index_ := 0; seen_key_ := false; overlapped_bytes_ := 0;
     level_ptrs_ := replicate kNumLevels 0%nat |}.

(** The destructor and [ReleaseInputs]. *)
Definition ReleaseInputs c (vl : VersionList) : option (Compaction * VersionList) :=
  match input_version_ c with
  | Some id => vl ← Version_Unref id vl; Some (set_input_version None c, vl)
  | None => Some (c, vl)
  end.

Definition Compaction_delete c (vl : VersionList) : option VersionList :=
  match input_version_ c with Some id => Version_Unref id vl | None => Some vl end.

Definition IsTrivialMove (max_file_size : Z) c : bool :=
  (length (inputs0 c) =? 1)%nat && (length (inputs1 c) =? 0)%nat &&
  (TotalFileSize (grandparents_ c) <=? MaxGrandParentOverlapBytes max_file_size).

Definition AddInputDeletions c (edit : VersionEdit) : VersionEdit :=
  foldl (λ edit f, RemoveFile (Z.of_nat (c_level c) + 1) (number f) edit)
        (foldl (λ edit f, RemoveFile (Z.of_nat (c_level c)) (number f) edit) edit (inputs0 c)) (inputs1 c).

Section compaction.
Context {C : Type} `{!Comparator C} (icmp : InternalKeyComparator C) (max_file_size : Z).
Notation ucmp := (user_comparator_ icmp).
Implicit Types (files : list File) (v : Version).

Definition compare_keys (a b : InternalKey) : Z := Compare icmp (InternalKey_Encode a) (InternalKey_Encode b).

(** ** Ranges *)

Definition grow_range (r : InternalKey * InternalKey) f : InternalKey * InternalKey :=
  (if compare_keys (smallest f) r.1 <? 0 then smallest f else r.1,
   if 0 <? compare_keys (largest f) r.2 then largest f else r.2).

Definition GetRange (inputs : list File) : option (InternalKey * InternalKey) :=
  match inputs with
  | [] => None
  | f :: files => Some (foldl grow_range (smallest f, largest f) files)
  end.

Definition GetRange2 (inputs1 inputs2 : list File) : option (InternalKey * InternalKey) := GetRange (inputs1 ++ inputs2).

(** ** Boundary files *)

Definition FindLargestKey files : option InternalKey :=
  match files with
  | [] => None
  | f :: files => Some (foldl (λ k f, if 0 <? compare_keys (largest f) k then largest f else k) (largest f) files)
  end.

Definition boundary_file (largest_key : InternalKey) f : bool :=
  (0 <? compare_keys (smallest f) largest_key) &&
  (Compare ucmp (InternalKey_user_key (smallest f)) (InternalKey_user_key largest_key) =? 0).

Definition FindSmallestBoundaryFile files (largest_key : InternalKey) : option File :=
  foldl (λ best f, if boundary_file largest_key f
                   then match best with
                        | None => Some f
                        | Some b => if compare_keys (smallest f) (smallest (f_meta b)) <? 0 then Some f else best
                        end
                   else best) None files.

Fixpoint boundary_loop (fuel : nat) files (compaction_files : list File) (largest_key : InternalKey) : option (list File) :=
  match fuel with
  | O => None
  | S fuel =>
      match FindSmallestBoundaryFile files largest_key with
      | Some f => boundary_loop fuel files (compaction_files ++ [f]) (largest f)
      | None => Some compaction_files
      end
  end.

(** Every round adds a file that starts after the ones before it. *)
Definition AddBoundaryInputs files (compaction_files : list File) : option (list File) :=
  match FindLargestKey compaction_files with
  | None => Some compaction_files
  | Some largest_key => boundary_loop (S (length files)) files compaction_files largest_key
  end.

(** ** The inputs *)

(** The files of a level; out of range is undefined. *)
Definition version_level v (level : nat) : option (list File) := files_ v !! level.

(** The inputs of the next level for inputs of this one, with the range. *)
Definition other_inputs v (level : nat) (in0 : list File) : option (InternalKey * InternalKey * list File) :=
  '(smallest, largest) ← GetRange in0;
  in1 ← GetOverlappingInputs icmp v (level + 1) (Some smallest) (Some largest);
  files1 ← version_level v (level + 1);
  in1 ← AddBoundaryInputs files1 in1;
  Some (smallest, largest, in1).

(** Growing the inputs of this level without growing those of the next. *)
Definition expand_inputs v (level : nat) (in0 in1 : list File) (r : InternalKey * InternalKey) (all : InternalKey * InternalKey)
    : option (list File * list File * (InternalKey * InternalKey) * (InternalKey * InternalKey)) :=
  files0 ← version_level v level;
  expanded0 ← GetOverlappingInputs icmp v level (Some all.1) (Some all.2);
  expanded0 ← AddBoundaryInputs files0 expanded0;
  if (length in0 <? length expanded0)%nat &&
     (TotalFileSize in1 + TotalFileSize expanded0 <? ExpandedCompactionByteSizeLimit max_file_size)
  then '(new_start, new_limit, expanded1) ← other_inputs v level expanded0;
       if (length expanded1 =? length in1)%nat
       then all ← GetRange2 expanded0 expanded1; Some (expanded0, expanded1, (new_start, new_limit), all)
       else Some (in0, in1, r, all)
  else Some (in0, in1, r, all).

(** The compaction pointers change with the compaction. *)
Definition SetupOtherInputs v c (cp : list (list byte)) : option (Compaction * list (list byte)) :=
  let level := c_level c in
  files0 ← version_level v level;
  in0 ← AddBoundaryInputs files0 (inputs0 c);
  '(smallest, largest, in1) ← other_inputs v level in0;
  all ← GetRange2 in0 in1;
  '(in0, in1, r, all) ← (match in1 with
                         | [] => Some (in0, in1, (smallest, largest), all)
                         | _ => expand_inputs v level in0 in1 (smallest, largest) all
                         end);
  grandparents ← (if (level + 2 <? kNumLevels)%nat then GetOverlappingInputs icmp v (level + 2) (Some all.1) (Some all.2) else Some (grandparents_ c));
  if bool_decide (level < length cp)%nat
  then Some (set_edit (SetCompactPointer (Z.of_nat level) r.2 (c_edit c)) (set_grandparents grandparents (set_inputs in0 in1 c)),
             <[level := InternalKey_Encode r.2]> cp)
  else None.

(** The first file after the compaction pointer, or else the first file. *)
Definition next_file files (pointer : list byte) : option File :=
  match filter (λ f, (length pointer =? 0)%nat || (0 <? Compare icmp (InternalKey_Encode (largest f)) pointer) = true) files with
  | f :: _ => Some f
  | [] => head files
  end.

(** The level and the file a compaction starts from. *)
Definition compaction_start v (cp : list (list byte)) : option (option (nat * File)) :=
  if negb (double_ltb (compaction_score_ v) (double_of_Z 1)) then
    if bool_decide (0 <= compaction_level_ v ∧ compaction_level_ v + 1 < Z.of_nat kNumLevels) then
      let level := Z.to_nat (compaction_level_ v) in
      files ← version_level v level;
      pointer ← cp !! level;
      f ← next_file files pointer;
      Some (Some (level, f))
    else None
  else
    match file_to_compact_ v with
    | Some f => if bool_decide (0 <= file_to_compact_level_ v) then Some (Some (Z.to_nat (file_to_compact_level_ v), f)) else None
    | None => Some None
    end.

Context {E : Type} `{!FileSystem E}.
Implicit Types vs : VersionSet (E := E).

(** A compaction holds a reference to the version it reads. *)
Definition start_compaction (level : nat) (in0 : list File) vs : option (Compaction * VersionSet (E := E)) :=
  id ← vl_current (vs_versions vs);
  v ← current_version (vs_versions vs);
  vl ← Version_Ref id (vs_versions vs);
  let c := set_inputs in0 [] (set_input_version (Some id) (Compaction_new max_file_size level)) in
  '(c, cp) ← SetupOtherInputs v c (vs_compact_pointer_ vs);
  Some (c, set_versions vl cp vs).

Definition PickCompaction vs : option (option Compaction * VersionSet (E := E)) :=
  v ← current_version (vs_versions vs);
  start ← compaction_start v (vs_compact_pointer_ vs);
  match start with
  | None => Some (None, vs)
  | Some (level, f) =>
      in0 ← (if (level =? 0)%nat
             then '(smallest, largest) ← GetRange [f];
                  in0 ← GetOverlappingInputs icmp v 0 (Some smallest) (Some largest);
                  (match in0 with [] => None | _ => Some in0 end)
             else Some [f]);
      '(c, vs) ← start_compaction level in0 vs;
      Some (Some c, vs)
  end.

(** The files up to the one that reaches the limit. *)
Fixpoint limit_inputs (limit total : Z) (inputs : list File) : list File :=
  match inputs with
  | [] => []
  | f :: inputs =>
      let total := u64 (total + file_size f) in
      if limit <=? total then [f] else f :: limit_inputs limit total inputs
  end.

Definition CompactRange (level : nat) (begin end_ : option InternalKey) vs : option (option Compaction * VersionSet (E := E)) :=
  v ← current_version (vs_versions vs);
  inputs ← GetOverlappingInputs icmp v level begin end_;
  match inputs with
  | [] => Some (None, vs)
  | _ =>
      let in0 := if (0 <? level)%nat then limit_inputs (MaxFileSizeForLevel max_file_size level) 0 inputs else inputs in
      '(c, vs) ← start_compaction level in0 vs;
      Some (Some c, vs)
  end.

(** ** Output decisions *)

(** Advance the pointer of a level past the files that end before the key: the
    new pointer, and whether the key falls in the file there. *)
Fixpoint advance_level (user_key : list byte) files (ptr : nat) (fuel : nat) : option (nat * bool) :=
  match fuel with
  | O => None
  | S fuel =>
      match (files !! ptr : option File) with
      | None => Some (ptr, false)
      | Some f =>
          if Compare ucmp user_key (InternalKey_user_key (largest f)) <=? 0
          then Some (ptr, 0 <=? Compare ucmp user_key (InternalKey_user_key (smallest f)))
          else advance_level user_key files (S ptr) fuel
      end
  end.

Fixpoint base_level_loop (user_key : list byte) v (lvls : list nat) (ptrs : list nat) : option (bool * list nat) :=
  match lvls with
  | [] => Some (true, ptrs)
  | lvl :: lvls =>
      files ← version_level v lvl;
      ptr ← ptrs !! lvl;
      '(ptr, inside) ← advance_level user_key files ptr (S (length files));
      let ptrs := <[lvl := ptr]> ptrs in
      if inside : bool then Some (false, ptrs) else base_level_loop user_key v lvls ptrs
  end.

(** [v] is the input version. *)
Definition IsBaseLevelForKey (user_key : list byte) v c : option (bool * Compaction) :=
  '(base, ptrs) ← base_level_loop user_key v (seq (c_level c + 2) (kNumLevels - (c_level c + 2))) (level_ptrs_ c);
  Some (base, set_level_ptrs ptrs c).

(** The grandparents passed; the bytes of those passed are counted once a key has
    been seen. *)
Fixpoint pass_grandparents (internal_key : list byte) (seen : bool) (rest : list File) (index : nat) (bytes : Z) : nat * Z :=
  match rest with
  | f :: rest =>
      if 0 <? Compare icmp internal_key (InternalKey_Encode (largest f))
      then pass_grandparents internal_key seen rest (S index) (if seen then bytes + file_size f else bytes)
      else (index, bytes)
  | [] => (index, bytes)
  end.

Definition ShouldStopBefore (internal_key : list byte) c : bool * Compaction :=
  let '(index, bytes) := pass_grandparents internal_key (seen_key_ c) (drop (grandparent_index_ c) (grandparents_ c))
                           (grandparent_index_ c) (overlapped_bytes_ c) in
  if MaxGrandParentOverlapBytes max_file_size <? bytes
  then (true, set_overlap index true 0 c)
  else (false, set_overlap index true bytes c).
End compaction.

(** ** Iterators over the inputs and over a version *)

Section iterators.
Context {C : Type} `{!Comparator C} (icmp : InternalKeyComparator C).
Context {J : Type} `{!Iterator J} (new_iterator : Z → Z → option J).

(** [new_iterator] is [TableCache::NewIterator]; the tables of a sorted level are
    read by a concatenating iterator. *)
Notation child := (J + TwoLevelIterator LevelFileNumIterator (EmptyIterator + J))%type.

(** [fuel] bounds the tables skipped by one step of a concatenating iterator. *)
Definition child_iterator (fuel : nat) : Iterator child :=
  sum_iterator (Iterator1 := two_level_iterator (Iterator0 := level_file_iterator icmp) (GetFileIterator new_iterator) fuel).

Definition table_child (f : File) : option child := inl <$> new_iterator (number f) (file_size f).
Definition level_child (files : list File) : option child := inr <$> NewConcatenatingIterator icmp (J := J) files.

Definition input_children (level : nat) (files : list File) : option (list child) :=
  match files with
  | [] => Some []
  | _ => if (level =? 0)%nat then mapM table_child files else c ← level_child files; Some [c]
  end.

Definition MakeInputIterator (fuel : nat) c : option (EmptyIterator + (child + MergingIterator child)) :=
  list0 ← input_children (c_level c) (inputs0 c);
  list1 ← input_children (c_level c + 1) (inputs1 c);
  NewMergingIterator (Iterator0 := child_iterator fuel) (list0 ++ list1).

Fixpoint level_children (levels : list (list File)) : option (list child) :=
  match levels with
  | [] => Some []
  | files :: levels =>
      rest ← level_children levels;
      match files with
      | [] => Some rest
      | _ => c ← level_child files; Some (c :: rest)
      end
  end.

Definition AddIterators (v : Version) : option (list child) :=
  tables ← mapM table_child (level_files v 0);
  levels ← level_children (drop 1 (files_ v));
  Some (tables ++ levels).
End iterators.

(** ** Offsets *)

Section offsets.
Context {C : Type} `{!Comparator C} (icmp : InternalKeyComparator C) (table_offset : Z → Z → list byte → option Z).

(** [table_offset] is [Table::ApproximateOffsetOf] of the table in the cache, and
    [None] when the table cannot be opened. *)
Fixpoint level_offset (level : nat) (files : list File) (ikey : InternalKey) (result : Z) : Z :=
  match files with
  | [] => result
  | f :: files =>
      if Compare icmp (InternalKey_Encode (largest f)) (InternalKey_Encode ikey) <=? 0
      then level_offset level files ikey (u64 (result + file_size f))
      else if 0 <? Compare icmp (InternalKey_Encode (smallest f)) (InternalKey_Encode ikey)
      then if (0 <? level)%nat then result else level_offset level files ikey result
      else level_offset level files ikey
             (match table_offset (number f) (file_size f) (InternalKey_Encode ikey) with
              | Some o => u64 (result + o)
              | None => result
              end)
  end.

Definition ApproximateOffsetOf (v : Version) (ikey : InternalKey) : Z :=
  foldl (λ result '(level, files), level_offset level files ikey result) 0 (imap (λ level files, (level, files)) (files_ v)).
End offsets.

(** ** Correctness of the choice *)

Section compaction_proofs.
Context {C : Type} `{!Comparator C} {uvalid : list byte → Prop} `{!ComparatorLaws C uvalid} (icmp : InternalKeyComparator C) (max_file_size : Z).
Notation ucmp := (user_comparator_ icmp).
Notation valid := (valid_key uvalid).
Notation small f := (rep_ (smallest (f_meta f))).
Notation large f := (rep_ (largest (f_meta f))).
Notation usmall f := (ExtractUserKey (small f)).
Notation ularge f := (ExtractUserKey (large f)).
Notation file_ok := (file_ok (uvalid := uvalid) icmp).
Notation level_sorted := (level_sorted (uvalid := uvalid) icmp).
Implicit Types (files ins : list File) (v : Version).

Definition before f (g : File) : Prop := Compare icmp (large f) (small g) < 0.

Lemma level_file_ok files f : level_sorted files → f ∈ files → file_ok f.
Proof. intros Hs Hf. by apply (proj1 (Forall_forall _ _) (ls_ok _ _ Hs)). Qed.

Lemma level_cases files f g : level_sorted files → f ∈ files → g ∈ files → f = g ∨ before f g ∨ before g f.
Proof.
  intros Hs [i Hi]%list_elem_of_lookup [j Hj]%list_elem_of_lookup. destruct (Nat.lt_trichotomy i j) as [?|[->|?]].
  - right; left. by apply (level_order icmp files i j f g Hs).
  - left. congruence.
  - right; right. by apply (level_order icmp files j i g f Hs).
Qed.

Lemma before_trans f g h : file_ok f → file_ok g → file_ok h → before f g → before g h → before f h.
Proof.
  intros Hf Hg Hh H1 H2. unfold before in *. apply (compare_lt_le_trans icmp _ (small g)); [apply Hf|apply Hg|apply Hh|done|].
  apply Z.lt_le_incl. apply (compare_le_lt_trans icmp _ (large g)); [apply Hg|apply Hg|apply Hh|apply Hg|done].
Qed.

Lemma before_irrefl f : file_ok f → ¬ before f f.
Proof. intros Hf H. unfold before in H. apply (compare_lt_sym icmp) in H; [|apply Hf..]. pose proof (fo_le _ _ Hf). lia. Qed.

Lemma before_not f g : file_ok f → file_ok g → before f g → ¬ Compare icmp (small g) (large f) <= 0.
Proof. intros Hf Hg H. unfold before in H. apply (compare_lt_sym icmp) in H; [|apply Hg|apply Hf]. lia. Qed.

Lemma before_user f g : before f g → Compare ucmp (ularge f) (usmall g) <= 0.
Proof. unfold before. intros H%internal_lt. cbv zeta in H. lia. Qed.

(** *** Ranges *)

(** [k] is the largest key of [ins]. *)
Definition is_top ins (k : InternalKey) : Prop := ∃ f, f ∈ ins ∧ k = largest f ∧ ∀ g, g ∈ ins → Compare icmp (large g) (large f) <= 0.
Definition is_bottom ins (k : InternalKey) : Prop := ∃ f, f ∈ ins ∧ k = smallest f ∧ ∀ g, g ∈ ins → Compare icmp (small f) (small g) <= 0.

Lemma top_snoc ins k f : Forall file_ok ins → file_ok f → is_top ins k →
  is_top (ins ++ [f]) (if 0 <? compare_keys icmp (largest f) k then largest f else k).
Proof.
  intros Hins Hf (g & Hg & -> & Hmax). pose proof (proj1 (Forall_forall _ _) Hins g Hg) as Hgo. unfold compare_keys, InternalKey_Encode.
  destruct (Z.ltb_spec 0 (Compare icmp (large f) (large g))) as [Hlt|Hge].
  - exists f. split; [apply elem_of_app; right; by left|]. split; [done|]. intros h [Hh|Hh%list_elem_of_singleton]%elem_of_app; [|subst; rewrite compare_refl; [done|apply Hf]].
    pose proof (proj1 (Forall_forall _ _) Hins h Hh) as Hho. apply (compare_trans icmp _ (large g)); [apply Hho|apply Hgo|apply Hf|by apply Hmax|].
    apply (compare_lt_sym icmp) in Hlt; [lia|apply Hf|apply Hgo].
  - exists g. split; [apply elem_of_app; by left|]. split; [done|]. intros h [Hh|Hh%list_elem_of_singleton]%elem_of_app; [by apply Hmax|subst; lia].
Qed.

Lemma bottom_snoc ins k f : Forall file_ok ins → file_ok f → is_bottom ins k →
  is_bottom (ins ++ [f]) (if compare_keys icmp (smallest f) k <? 0 then smallest f else k).
Proof.
  intros Hins Hf (g & Hg & -> & Hmin). pose proof (proj1 (Forall_forall _ _) Hins g Hg) as Hgo. unfold compare_keys, InternalKey_Encode.
  destruct (Z.ltb_spec (Compare icmp (small f) (small g)) 0) as [Hlt|Hge].
  - exists f. split; [apply elem_of_app; right; by left|]. split; [done|]. intros h [Hh|Hh%list_elem_of_singleton]%elem_of_app; [|subst; rewrite compare_refl; [done|apply Hf]].
    pose proof (proj1 (Forall_forall _ _) Hins h Hh) as Hho. apply (compare_trans icmp _ (small g)); [apply Hf|apply Hgo|apply Hho|lia|by apply Hmin].
  - exists g. split; [apply elem_of_app; by left|]. split; [done|]. intros h [Hh|Hh%list_elem_of_singleton]%elem_of_app; [by apply Hmin|].
    subst. by apply (compare_le_sym icmp); [apply Hf|apply Hgo|].
Qed.

Lemma top_one f : file_ok f → is_top [f] (largest f) ∧ is_bottom [f] (smallest f).
Proof. intros Hf. split; exists f; (split; [left|split; [done|]]); intros g ->%list_elem_of_singleton; rewrite compare_refl; try done; apply Hf. Qed.

Lemma GetRange_spec ins : Forall file_ok ins → ins ≠ [] → ∃ s l, GetRange icmp ins = Some (s, l) ∧ is_bottom ins s ∧ is_top ins l.
Proof.
  intros Hins Hne. destruct ins as [|f files]; [done|]. cbn [GetRange]. apply Forall_cons in Hins as [Hf Hins].
  assert (∀ files ins s l, Forall file_ok files → Forall file_ok ins → is_bottom ins s → is_top ins l →
    is_bottom (ins ++ files) (foldl (grow_range icmp) (s, l) files).1 ∧ is_top (ins ++ files) (foldl (grow_range icmp) (s, l) files).2) as Hfold.
  { clear f files Hf Hins Hne. induction files as [|f files IH]; intros ins s l Hfs Hins Hs Hl; [by rewrite app_nil_r|]. apply Forall_cons in Hfs as [Hf Hfs]. cbn [foldl].
    rewrite cons_middle, app_assoc. apply IH; [done|by apply Forall_app; split; [|apply Forall_singleton]|by apply bottom_snoc|by apply top_snoc]. }
  destruct (top_one f Hf) as [Ht Hb]. destruct (Hfold files [f] _ _ Hins ltac:(by apply Forall_singleton) Hb Ht) as [H1 H2].
  destruct (foldl _ _ files) as [s l]. by exists s, l.
Qed.

Lemma FindLargestKey_spec ins : Forall file_ok ins → ins ≠ [] → ∃ k, FindLargestKey icmp ins = Some k ∧ is_top ins k.
Proof.
  intros Hins Hne. destruct ins as [|f files]; [done|]. cbn [FindLargestKey]. eexists. split; [done|]. apply Forall_cons in Hins as [Hf Hins].
  assert (∀ files ins l, Forall file_ok files → Forall file_ok ins → is_top ins l →
    is_top (ins ++ files) (foldl (λ k f, if 0 <? compare_keys icmp (largest f) k then largest f else k) l files)) as Hfold.
  { clear f files Hf Hins Hne. induction files as [|f files IH]; intros ins l Hfs Hins Hl; [by rewrite app_nil_r|]. apply Forall_cons in Hfs as [Hf Hfs]. cbn [foldl].
    rewrite cons_middle, app_assoc. apply IH; [done|by apply Forall_app; split; [|apply Forall_singleton]|by apply top_snoc]. }
  apply (Hfold files [f]); [done|by apply Forall_singleton|by apply top_one].
Qed.

(** *** Boundary files *)

Definition smallest_boundary files (k : InternalKey) f : Prop :=
  f ∈ files ∧ boundary_file icmp k f = true ∧ ∀ g, g ∈ files → boundary_file icmp k g = true → Compare icmp (small f) (small g) <= 0.

Lemma FindSmallestBoundaryFile_spec files k : Forall file_ok files →
  match FindSmallestBoundaryFile icmp files k with
  | Some f => smallest_boundary files k f
  | None => ∀ f, f ∈ files → boundary_file icmp k f = false
  end.
Proof.
  unfold FindSmallestBoundaryFile. induction files as [|f files IH] using rev_ind; intros Hok; [by intros f ?%not_elem_of_nil|].
  apply Forall_app in Hok as [Hok [Hf _]%Forall_cons]. specialize (IH Hok). rewrite foldl_snoc.
  assert (∀ g, g ∈ files → file_ok g) as Hfo by (by apply Forall_forall).
  destruct (foldl _ None files) as [b|] eqn:Hb, (boundary_file icmp k f) eqn:Hbf.
  - destruct IH as (Hin & Hbb & Hmin). unfold compare_keys, InternalKey_Encode. destruct (Z.ltb_spec (Compare icmp (small f) (small b)) 0) as [Hlt|Hge].
    + split; [apply elem_of_app; right; left|]. split; [done|]. intros g [Hg|Hg%list_elem_of_singleton]%elem_of_app Hgb; [|subst; rewrite compare_refl; [done|apply Hf]].
      apply (compare_trans icmp _ (small b)); [apply Hf|by apply Hfo|by apply Hfo|lia|by apply Hmin].
    + split; [apply elem_of_app; by left|]. split; [done|]. intros g [Hg|Hg%list_elem_of_singleton]%elem_of_app Hgb; [by apply Hmin|].
      subst. apply (compare_le_sym icmp); [apply Hf|by apply Hfo|done].
  - destruct IH as (Hin & Hbb & Hmin). split; [apply elem_of_app; by left|]. split; [done|]. intros g [Hg|Hg%list_elem_of_singleton]%elem_of_app Hgb; [by apply Hmin|congruence].
  - split; [apply elem_of_app; right; left|]. split; [done|]. intros g [Hg|Hg%list_elem_of_singleton]%elem_of_app Hgb; [rewrite IH in Hgb; done|subst; rewrite compare_refl; [done|apply Hf]].
  - intros g [Hg|Hg%list_elem_of_singleton]%elem_of_app; [by apply IH|congruence].
Qed.

Lemma boundary_after k f : boundary_file icmp k f = true → 0 < Compare icmp (small f) (rep_ k) ∧ Compare ucmp (usmall f) (ExtractUserKey (rep_ k)) = 0.
Proof. unfold boundary_file, compare_keys, InternalKey_Encode, InternalKey_user_key. intros [H1%Z.ltb_lt H2%Z.eqb_eq]%andb_true_iff. done. Qed.

Lemma top_valid ins k : Forall file_ok ins → is_top ins k → valid (rep_ k).
Proof. intros Hins (f & Hf & -> & _). by apply (proj1 (Forall_forall _ _) Hins f). Qed.

Lemma boundary_top ins k f : Forall file_ok ins → file_ok f → is_top ins k → boundary_file icmp k f = true → is_top (ins ++ [f]) (largest f).
Proof.
  intros Hins Hf Ht Hb. pose proof (top_snoc ins k f Hins Hf Ht) as Hs. apply boundary_after in Hb as [Hlt _]. unfold compare_keys, InternalKey_Encode in Hs.
  pose proof (top_valid _ _ Hins Ht) as Hk. apply (compare_lt_sym icmp) in Hlt; [|apply Hf|done].
  assert (0 < Compare icmp (large f) (rep_ k)) as Hl. { apply (compare_lt_sym icmp); [apply Hf|done|]. apply (compare_lt_le_trans icmp _ (small f)); [done|apply Hf|apply Hf|done|apply Hf]. }
  by rewrite (proj2 (Z.ltb_lt _ _) Hl) in Hs.
Qed.

Definition starts_after (k : InternalKey) f : bool := 0 <? compare_keys icmp (smallest f) k.

(** The loop ends, with a largest key that no file continues. *)
Lemma boundary_loop_spec files (P : list File → Prop) : Forall file_ok files →
  (∀ ins k f, P ins → is_top ins k → Forall file_ok ins → smallest_boundary files k f → P (ins ++ [f])) →
  ∀ fuel ins k, (length (filter (λ f, starts_after k f = true) files) < fuel)%nat → P ins → is_top ins k → Forall file_ok ins →
  ∃ ins' k', boundary_loop icmp fuel files ins k = Some ins' ∧ P ins' ∧ is_top ins' k' ∧ Forall file_ok ins' ∧ ins `prefix_of` ins' ∧
    ∀ f, f ∈ files → boundary_file icmp k' f = false.
Proof.
  intros Hok Hstep. induction fuel as [|fuel IH]; intros ins k Hfuel HP Ht Hins; [lia|]. cbn [boundary_loop].
  pose proof (FindSmallestBoundaryFile_spec files k Hok) as Hfind. destruct (FindSmallestBoundaryFile icmp files k) as [f|]; [|exists ins, k; by split_and!].
  destruct Hfind as (Hin & Hb & Hmin). pose proof (proj1 (Forall_forall _ _) Hok f Hin) as Hf. pose proof (top_valid _ _ Hins Ht) as Hk.
  destruct (boundary_after k f Hb) as [Hlt _].
  destruct (IH (ins ++ [f]) (largest f)) as (ins' & k' & Hl & HP' & Ht' & Hins' & Hpre & Hend).
  - eapply Nat.lt_le_trans; [|apply Nat.lt_succ_r; exact Hfuel].
    apply (filter_shrinks (starts_after (largest f)) (starts_after k) files f); [|done|by apply Z.ltb_lt|].
    + intros g Hg Hgt%Z.ltb_lt. apply Z.ltb_lt. pose proof (proj1 (Forall_forall _ _) Hok g Hg) as Hgo. unfold compare_keys, InternalKey_Encode in *.
      apply (compare_lt_sym icmp); [apply Hgo|done|]. apply (compare_lt_sym icmp) in Hgt; [|apply Hgo|apply Hf]. apply (compare_lt_sym icmp) in Hlt; [|apply Hf|done].
      apply (compare_lt_le_trans icmp _ (small f)); [done|apply Hf|apply Hgo|done|]. apply Z.lt_le_incl. apply (compare_le_lt_trans icmp _ (large f)); [apply Hf|apply Hf|apply Hgo|apply Hf|done].
    + apply Z.ltb_ge. apply Hf.
  - apply (Hstep ins k); [done..|]. by split_and!.
  - by apply (boundary_top ins k).
  - apply Forall_app. by split; [|apply Forall_singleton].
  - exists ins', k'. split_and!; try done. etrans; [|exact Hpre]. by apply prefix_app_r.
Qed.

(** The set has every file of the level between two of its files. *)
Definition convex files ins : Prop := ∀ f g h, f ∈ ins → h ∈ ins → g ∈ files → before f g → before g h → g ∈ ins.

Lemma convex_boundary files ins k f : level_sorted files → ins ⊆ files → convex files ins → is_top ins k → smallest_boundary files k f → convex files (ins ++ [f]).
Proof.
  intros Hs Hsub Hc (t & Ht & -> & Hmax) (Hf & Hb & Hmin) a g h Ha Hh Hg Hag Hgh. apply boundary_after in Hb as [Hlt Hu].
  assert (∀ x, x ∈ files → file_ok x) as Hok by (intros x; by apply level_file_ok). pose proof (Hok f Hf) as Hfo. pose proof (Hok t (Hsub t Ht)) as Hto. pose proof (Hok g Hg) as Hgo.
  assert (before t f) as Htf by (by apply (compare_lt_sym icmp); [apply Hfo|apply Hto|]). apply elem_of_app.
  apply elem_of_app in Ha as [Ha|Ha%list_elem_of_singleton], Hh as [Hh|Hh%list_elem_of_singleton]; subst.
  - left. by apply (Hc a g h).
  - destruct (level_cases files g t Hs Hg (Hsub t Ht)) as [->|[Hgt|Htg]]; [by left|left; by apply (Hc a g t)|]. exfalso.
    assert (boundary_file icmp (largest t) g = true) as Hgb.
    { unfold boundary_file, compare_keys, InternalKey_Encode, InternalKey_user_key. apply andb_true_iff. split; [apply Z.ltb_lt; by apply (compare_lt_sym icmp); [apply Hgo|apply Hto|]|].
      apply Z.eqb_eq. assert (Compare ucmp (usmall g) (ularge t) <= 0); [|pose proof (before_user _ _ Htg) as Hx; apply (compare_le_sym ucmp) in Hx; [lia|apply Hgo|apply Hto]].
      apply (compare_trans ucmp _ (usmall f)); [apply Hgo|apply Hfo|apply Hto| |lia].
      apply (compare_trans ucmp _ (ularge g)); [apply Hgo|apply Hgo|apply Hfo|by apply (file_user_le icmp g Hgo)|by apply before_user]. }
    apply (before_not g f); [done..|]. apply (compare_trans icmp _ (small g)); [apply Hfo|apply Hgo|apply Hgo|by apply Hmin|apply Hgo].
  - exfalso. apply (before_not f g); [done|done|done|]. apply Z.lt_le_incl. apply (compare_le_lt_trans icmp _ (large g)); [apply Hgo|apply Hgo|apply Hfo|apply Hgo|].
    apply (compare_lt_le_trans icmp _ (small h)); [apply Hgo|apply Hok, Hsub, Hh|apply Hfo|done|]. apply (compare_trans icmp _ (large h)); [apply Hok, Hsub, Hh|apply Hok, Hsub, Hh|apply Hfo|apply Hok, Hsub, Hh|].
    apply (compare_trans icmp _ (large t)); [apply Hok, Hsub, Hh|apply Hto|apply Hfo|by apply Hmax|]. apply (compare_trans icmp _ (small f)); [apply Hto|apply Hfo|apply Hfo|unfold before in Htf; lia|apply Hfo].
  - exfalso. apply (before_irrefl f Hfo). by apply (before_trans f g f).
Qed.

Lemma level_nodup files : level_sorted files → NoDup files.
Proof.
  intros Hs. apply NoDup_alt. intros i j f Hi Hj. pose proof (level_lookup icmp files i f Hs Hi) as Hf.
  destruct (Nat.lt_trichotomy i j) as [?|[?|?]]; [|done|]; exfalso; apply (before_irrefl f Hf);
    [by apply (level_order icmp files i j f f Hs)|by apply (level_order icmp files j i f f Hs)].
Qed.

(** A set of files of a level that inputs can start from: in level 0 it has every
    file that shares a user key with one of its files; in other levels it has no
    gaps. *)
Record start_ok (level : nat) files ins : Prop := {
  so_sub : ins ⊆ files;
  so_nonempty : ins ≠ [];
  so_nodup : NoDup ins;
  so_closed : level = 0%nat → ∀ f g, f ∈ ins → g ∈ files → files_overlap icmp f g → g ∈ ins;
  so_convex : level ≠ 0%nat → convex files ins;
  so_sorted : level ≠ 0%nat → StronglySorted before ins;
}.

(** A file that stays is searched before the ones that go, or shares no user key
    with them. *)
Definition stays_newer files ins : Prop := ∀ f g, f ∈ ins → g ∈ files → g ∉ ins → before g f ∨ ¬ files_overlap icmp g f.

Lemma filter_length_lt (k : InternalKey) files : (length (filter (λ f, starts_after k f = true) files) < S (length files))%nat.
Proof. apply Nat.lt_succ_r. apply length_filter. Qed.

Lemma AddBoundaryInputs_sorted files ins : level_sorted files → ins ⊆ files → NoDup ins → convex files ins → StronglySorted before ins →
  ∃ ins', AddBoundaryInputs icmp files ins = Some ins' ∧ ins `prefix_of` ins' ∧ ins' ⊆ files ∧ NoDup ins' ∧ convex files ins' ∧ stays_newer files ins' ∧
    (∀ f, f ∈ ins' → f ∉ ins → ∃ h, h ∈ ins ∧ before h f) ∧ StronglySorted before ins'.
Proof.
  intros Hs Hsub Hnd Hc Hso. assert (∀ x, x ∈ files → file_ok x) as Hok by (intros x; by apply level_file_ok).
  destruct (decide (ins = [])) as [->|Hne]; [exists []; split_and!; try done; by intros f g ?%not_elem_of_nil|]. unfold AddBoundaryInputs.
  assert (Forall file_ok ins) as Hins by (apply Forall_forall; intros x Hx; by apply Hok, Hsub). destruct (FindLargestKey_spec ins Hins Hne) as (k & -> & Ht).
  destruct (boundary_loop_spec files (λ ins1, ins1 ⊆ files ∧ NoDup ins1 ∧ convex files ins1 ∧ (∀ f, f ∈ ins1 → f ∉ ins → ∃ h, h ∈ ins ∧ before h f) ∧ StronglySorted before ins1) (ls_ok _ _ Hs)) with (fuel := S (length files)) (ins := ins) (k := k)
    as (ins' & k' & -> & (Hsub' & Hnd' & Hc' & Hext & Hso') & (t & Ht' & -> & Hmax) & Hins' & Hpre & Hend); [|apply filter_length_lt|by split_and!|done|done|].
  - intros ins1 k1 f (Hsub1 & Hnd1 & Hc1 & Hext1 & Hso1) Ht1 Hok1 Hb. split_and!; [|apply NoDup_app; split_and!; [done| |apply NoDup_singleton]|by apply (convex_boundary files ins1 k1)| |].
    + intros x [Hx|Hx%list_elem_of_singleton]%elem_of_app; [by apply Hsub1|subst; apply Hb].
    + intros x Hx ->%list_elem_of_singleton. destruct Hb as (Hf & [Hlt _]%boundary_after & _), Ht1 as (t & Ht1 & -> & Hmax). pose proof (Hok f Hf) as Hfo.
      pose proof (Hok t (Hsub1 t Ht1)) as Hto. apply (compare_lt_sym icmp) in Hlt; [|apply Hfo|apply Hto]. specialize (Hmax f Hx). apply (before_irrefl f Hfo).
      apply (compare_le_lt_trans icmp _ (large t)); [apply Hfo|apply Hto|apply Hfo|done|done].
    + intros x [Hx|Hx%list_elem_of_singleton]%elem_of_app Hnx; [by apply Hext1|]. subst x. destruct Hb as (Hf & [Hlt _]%boundary_after & _), Ht1 as (t & Ht1 & -> & _).
      pose proof (Hok f Hf) as Hfo. pose proof (Hok t (Hsub1 t Ht1)) as Hto. apply (compare_lt_sym icmp) in Hlt; [|apply Hfo|apply Hto].
      destruct (decide (t ∈ ins)) as [Hti|Hti]; [by exists t|]. destruct (Hext1 t Ht1 Hti) as (h & Hh & Hht). exists h. split; [done|]. by apply (before_trans h t f); [apply Hok, Hsub, Hh|..].
    + apply StronglySorted_app. split; [|split; [done|repeat constructor]]. intros x y Hx ->%list_elem_of_singleton. destruct Hb as (Hf & [Hlt _]%boundary_after & _), Ht1 as (t & Ht1 & -> & Hmax).
      pose proof (Hok f Hf) as Hfo. pose proof (Hok t (Hsub1 t Ht1)) as Hto. pose proof (Hok x (Hsub1 x Hx)) as Hxo. apply (compare_lt_sym icmp) in Hlt; [|apply Hfo|apply Hto].
      apply (compare_le_lt_trans icmp _ (large t)); [apply Hxo|apply Hto|apply Hfo|by apply Hmax|done].
  - exists ins'. split_and!; try done. intros f g Hf Hg Hng. pose proof (Hok g Hg) as Hgo. pose proof (Hok f (Hsub' f Hf)) as Hfo. pose proof (Hok t (Hsub' t Ht')) as Hto.
    destruct (level_cases files f g Hs (Hsub' f Hf) Hg) as [->|[Hfg|Hgf]]; [done| |by left]. right. intros [Ho _].
    destruct (level_cases files t g Hs (Hsub' t Ht') Hg) as [->|[Htg|Hgt]]; [done| |by apply Hng, (Hc' f g t)].
    pose proof (Hend g Hg) as Hnb. unfold boundary_file, compare_keys, InternalKey_Encode, InternalKey_user_key in Hnb.
    assert (0 < Compare icmp (small g) (large t)) as Hlt by (by apply (compare_lt_sym icmp); [apply Hgo|apply Hto|]). rewrite (proj2 (Z.ltb_lt _ _) Hlt) in Hnb. cbn [andb] in Hnb.
    apply Z.eqb_neq in Hnb. pose proof (before_user _ _ Htg) as Hle. apply (compare_le_sym ucmp) in Hle; [|apply Hgo|apply Hto].
    assert (Compare ucmp (usmall g) (ularge t) <= 0); [|lia]. apply (compare_trans ucmp _ (ularge f)); [apply Hgo|apply Hfo|apply Hto|done|].
    specialize (Hmax f Hf). apply internal_le in Hmax. cbv zeta in Hmax. lia.
Qed.

Lemma AddBoundaryInputs_level0 files ins : Forall file_ok files → start_ok 0 files ins → AddBoundaryInputs icmp files ins = Some ins.
Proof.
  intros Hok [Hsub Hne Hnd Hc _]. specialize (Hc eq_refl). assert (∀ x, x ∈ files → file_ok x) as Hok' by (by apply Forall_forall).
  assert (Forall file_ok ins) as Hins by (apply Forall_forall; intros x Hx; by apply Hok', Hsub). unfold AddBoundaryInputs.
  destruct (FindLargestKey_spec ins Hins Hne) as (k & -> & (t & Ht & -> & Hmax)). cbn [boundary_loop].
  pose proof (FindSmallestBoundaryFile_spec files (largest t) Hok) as Hfind. destruct (FindSmallestBoundaryFile icmp files (largest t)) as [f|]; [|done]. exfalso.
  destruct Hfind as (Hf & [Hlt Hu]%boundary_after & _). pose proof (Hok' f Hf) as Hfo. pose proof (Hok' t (Hsub t Ht)) as Hto.
  assert (f ∈ ins) as Hin.
  { apply (Hc t f Ht Hf). split; [|lia]. apply (compare_trans ucmp _ (ularge t)); [apply Hto|apply Hto|apply Hfo|by apply (file_user_le icmp t Hto)|].
    apply (compare_trans ucmp _ (usmall f)); [apply Hto|apply Hfo|apply Hfo| |by apply (file_user_le icmp f Hfo)]. apply (compare_le_sym ucmp); [apply Hfo|apply Hto|lia]. }
  specialize (Hmax f Hin). apply (compare_lt_sym icmp) in Hlt; [|apply Hfo|apply Hto]. apply (before_irrefl f Hfo).
  apply (compare_le_lt_trans icmp _ (large t)); [apply Hfo|apply Hto|apply Hfo|done|done].
Qed.

Lemma start_boundary v level ins : version_files_ok (uvalid := uvalid) icmp v → start_ok level (level_files v level) ins →
  ∃ ins', AddBoundaryInputs icmp (level_files v level) ins = Some ins' ∧ start_ok level (level_files v level) ins' ∧ stays_newer (level_files v level) ins'.
Proof.
  intros [Hall Hsorted] Hst. destruct (decide (level = 0%nat)) as [->|Hl].
  - exists ins. split; [by apply AddBoundaryInputs_level0|]. split; [done|]. intros f g Hf Hg Hng. right. intros [H1 H2]. apply Hng. by apply (so_closed _ _ _ Hst eq_refl f).
  - destruct (AddBoundaryInputs_sorted (level_files v level) ins) as (ins' & Ha & Hpre & Hsub & Hnd & Hc & Hn & _ & Hso); [apply Hsorted; lia|apply Hst|apply Hst|by apply (so_convex _ _ _ Hst)|by apply (so_sorted _ _ _ Hst)|].
    exists ins'. split; [done|]. split; [|done]. split; try done. intros ->. apply prefix_nil_inv in Hpre. by apply (so_nonempty _ _ _ Hst).
Qed.

(** *** Overlapping inputs *)

Lemma overlapping_start v level a b ins : version_files_ok (uvalid := uvalid) icmp v → NoDup (level_files v 0) →
  opt_valid (uvalid := uvalid) (InternalKey_user_key <$> a) → opt_valid (uvalid := uvalid) (InternalKey_user_key <$> b) →
  GetOverlappingInputs icmp v level a b = Some ins → ins ≠ [] → start_ok level (level_files v level) ins.
Proof.
  intros [Hall Hsorted] Hnd0 Hva Hvb Hg Hne. destruct (overlapping_inputs_spec icmp v level a b (Hall level) Hva Hvb) as (a' & b' & Hr & (_ & Ha' & Hb') & Hpos & Hzero).
  rewrite Hg in Hr. injection Hr as ->. assert (NoDup (level_files v level)) as Hnd.
  { destruct (decide (level = 0%nat)) as [->|]; [done|]. apply level_nodup, Hsorted. lia. }
  assert (∀ f, f ∈ level_files v level → file_ok f) as Hok by (by apply Forall_forall).
  split; [by intros f [_ ?]%list_elem_of_filter|done|by apply NoDup_filter| | |intros Hnz; apply StronglySorted_filter, Hsorted; lia].
  - intros Hz f g Hf Hgf Ho. apply (hits_closed icmp a' b' (level_files v level) f g (Hall level) Ha' Hb' (Hzero Hz)); done.
  - intros Hnz f g h Hf Hh Hgf Hfg Hgh. destruct (Hpos Hnz) as [-> ->]. apply list_elem_of_filter in Hf as [Hrf Hf]. apply list_elem_of_filter in Hh as [Hrh Hh].
    pose proof (Hok f Hf) as Hfo. pose proof (Hok g Hgf) as Hgo. pose proof (Hok h Hh) as Hho.
    apply list_elem_of_filter. split; [|done]. apply (in_range_overlaps icmp _ _ g Hgo Hva Hvb).
    apply (in_range_overlaps icmp _ _ f Hfo Hva Hvb) in Hrf as [Hrf _]. apply (in_range_overlaps icmp _ _ h Hho Hva Hvb) in Hrh as [_ Hrh].
    pose proof (before_user _ _ Hfg) as H1. pose proof (before_user _ _ Hgh) as H2. split; intros k Hk.
    + specialize (Hrf k Hk). apply Hva in Hk. apply (compare_trans ucmp _ (ularge f)); [done|apply Hfo|apply Hgo|done|].
      apply (compare_trans ucmp _ (usmall g)); [apply Hfo|apply Hgo|apply Hgo|done|by apply (file_user_le icmp g Hgo)].
    + specialize (Hrh k Hk). apply Hvb in Hk. apply (compare_le_sym ucmp); [done|apply Hgo|]. apply (compare_le_sym ucmp) in Hrh; [|done|apply Hho].
      apply (compare_trans ucmp _ (ularge g)); [apply Hgo|apply Hgo|done|by apply (file_user_le icmp g Hgo)|]. apply (compare_trans ucmp _ (usmall h)); [apply Hgo|apply Hho|done|done|done].
Qed.

(** *** The inputs of the next level *)

(** Every file of the next level that stays lies before all the inputs, or after
    all their user keys. *)
Definition aside files1 (in0 in1 : list File) : Prop :=
  ∀ g, g ∈ files1 → g ∉ in1 → (∀ f, f ∈ in0 ++ in1 → before g f) ∨ (∀ f, f ∈ in0 ++ in1 → Compare ucmp (ularge f) (usmall g) < 0).

Lemma user_before f g : Compare ucmp (ularge f) (usmall g) < 0 → before f g.
Proof. intros H. apply internal_lt. cbv zeta. by left. Qed.

Lemma bottom_user ins s : Forall file_ok ins → is_bottom ins s → valid (rep_ s) ∧ ∀ f, f ∈ ins → Compare ucmp (InternalKey_user_key s) (usmall f) <= 0.
Proof.
  intros Hok (b & Hb & -> & Hmin). pose proof (proj1 (Forall_forall _ _) Hok b Hb) as Hbo. split; [apply Hbo|].
  intros f Hf. specialize (Hmin f Hf). apply internal_le in Hmin. cbv zeta in Hmin. unfold InternalKey_user_key. lia.
Qed.

Lemma top_user ins l : Forall file_ok ins → is_top ins l → valid (rep_ l) ∧ ∀ f, f ∈ ins → Compare ucmp (ularge f) (InternalKey_user_key l) <= 0.
Proof.
  intros Hok (b & Hb & -> & Hmax). pose proof (proj1 (Forall_forall _ _) Hok b Hb) as Hbo. split; [apply Hbo|].
  intros f Hf. specialize (Hmax f Hf). apply internal_le in Hmax. cbv zeta in Hmax. unfold InternalKey_user_key. lia.
Qed.

Lemma aside_spec files1 in0 base in1 s l : level_sorted files1 → Forall file_ok in0 → is_bottom in0 s → is_top in0 l →
  base ⊆ in1 → in1 ⊆ files1 → convex files1 in1 → stays_newer files1 in1 →
  (∀ f, f ∈ files1 → f ∈ base ↔ overlaps icmp (Some (InternalKey_user_key s)) (Some (InternalKey_user_key l)) f) →
  (∀ f, f ∈ in1 → f ∉ base → ∃ h, h ∈ base ∧ before h f) → aside files1 in0 in1.
Proof.
  intros Hs Hok0 Hbot Htop Hb1 Hsub Hc Hst Hbase Hext g Hg Hng. destruct (bottom_user _ _ Hok0 Hbot) as ([_ Hus] & Hmin). destruct (top_user _ _ Hok0 Htop) as ([_ Hul] & Hmax).
  assert (∀ x, x ∈ files1 → file_ok x) as Hok1 by (intros x; by apply level_file_ok). pose proof (Hok1 g Hg) as Hgo. assert (∀ x, x ∈ in0 → file_ok x) as Hok0' by (by apply Forall_forall).
  pose proof (file_user_le icmp g Hgo) as Hgle. destruct (Z.lt_ge_cases (Compare ucmp (ularge g) (InternalKey_user_key s)) 0) as [Hlt|Hge].
  - left. assert (∀ h, h ∈ base → before g h) as Hgb.
    { intros h Hh. pose proof (Hsub h (Hb1 h Hh)) as Hhf. pose proof (Hok1 h Hhf) as Hho. pose proof (proj1 (Hbase h Hhf) Hh) as [Ho _]. specialize (Ho _ eq_refl).
      destruct (level_cases files1 g h Hs Hg Hhf) as [->|[?|Hhg]]; [by exfalso; apply Hng, Hb1|done|]. exfalso. pose proof (before_user _ _ Hhg) as Hx.
      assert (Compare ucmp (InternalKey_user_key s) (ularge g) <= 0) as Hy; [|apply (compare_le_sym ucmp) in Hy; [lia|apply Hgo|done]].
      apply (compare_trans ucmp _ (ularge h)); [done|apply Hho|apply Hgo|done|]. apply (compare_trans ucmp _ (usmall g)); [apply Hho|apply Hgo|apply Hgo|done|done]. }
    intros f [Hf|Hf]%elem_of_app; [apply user_before; apply (compare_lt_le_trans ucmp _ (InternalKey_user_key s)); [apply Hgo|done|by apply Hok0'|done|by apply Hmin]|].
    destruct (decide (f ∈ base)) as [Hfb|Hfb]; [by apply Hgb|]. destruct (Hext f Hf Hfb) as (h & Hh & Hhf). apply (before_trans g h f); [done|by apply Hok1, Hsub, Hb1|by apply Hok1, Hsub|by apply Hgb|done].
  - right. assert (Compare ucmp (InternalKey_user_key l) (usmall g) < 0) as Hlg.
    { destruct (Z.lt_ge_cases (Compare ucmp (InternalKey_user_key l) (usmall g)) 0) as [|Hge']; [done|]. exfalso. apply Hng, Hb1, Hbase; [done|].
      split; intros k [= <-]; [by apply (compare_le_sym ucmp); [apply Hgo|done|lia]|lia]. }
    assert (∀ h, h ∈ base → before h g) as Hbg.
    { intros h Hh. pose proof (Hsub h (Hb1 h Hh)) as Hhf. pose proof (Hok1 h Hhf) as Hho. pose proof (proj1 (Hbase h Hhf) Hh) as [_ Ho]. specialize (Ho _ eq_refl).
      destruct (level_cases files1 g h Hs Hg Hhf) as [->|[Hgh|?]]; [by exfalso; apply Hng, Hb1| |done]. exfalso. pose proof (before_user _ _ Hgh) as Hx.
      apply (compare_le_sym ucmp) in Ho; [|done|apply Hho]. assert (Compare ucmp (usmall g) (InternalKey_user_key l) <= 0) as Hy.
      { apply (compare_trans ucmp _ (ularge g)); [apply Hgo|apply Hgo|done|done|]. apply (compare_trans ucmp _ (usmall h)); [apply Hgo|apply Hho|done|done|done]. }
      apply (compare_le_sym ucmp) in Hy; [lia|done|apply Hgo]. }
    assert (∀ f, f ∈ in1 → before f g) as Hfg.
    { intros f Hf. destruct (decide (f ∈ base)) as [Hfb|Hfb]; [by apply Hbg|]. destruct (Hext f Hf Hfb) as (h & Hh & Hhf).
      destruct (level_cases files1 f g Hs (Hsub f Hf) Hg) as [->|[?|Hgf]]; [done|done|]. exfalso. apply Hng. apply (Hc h g f); [by apply Hb1|done|done|by apply Hbg|done]. }
    intros f [Hf|Hf]%elem_of_app; [apply (compare_le_lt_trans ucmp _ (InternalKey_user_key l)); [by apply Hok0'|done|apply Hgo|by apply Hmax|done]|].
    pose proof (Hok1 f (Hsub f Hf)) as Hfo. destruct (Hst f g Hf Hg Hng) as [Hgf|Hno]; [exfalso; apply (before_irrefl f Hfo); by apply (before_trans f g f); [..|apply Hfg|]|].
    destruct (Z.lt_ge_cases (Compare ucmp (ularge f) (usmall g)) 0) as [|Hge']; [done|]. exfalso. apply Hno. split; [by apply (compare_le_sym ucmp); [apply Hfo|apply Hgo|lia]|].
    pose proof (before_user _ _ (Hfg f Hf)) as Hx. apply (compare_trans ucmp _ (ularge f)); [apply Hfo|apply Hfo|apply Hgo|by apply (file_user_le icmp f Hfo)|].
    apply (compare_trans ucmp _ (usmall g)); [apply Hfo|apply Hgo|apply Hgo|done|done].
Qed.

(** *** Setting up the inputs *)

(** Inputs that can be replaced by their merge. *)
Record inputs_ok v (level : nat) (in0 in1 : list File) : Prop := {
  io_start : start_ok level (level_files v level) in0;
  io_newer : stays_newer (level_files v level) in0;
  io_sub : in1 ⊆ level_files v (level + 1);
  io_nodup : NoDup in1;
  io_sorted : StronglySorted before in1;
  io_aside : aside (level_files v (level + 1)) in0 in1;
}.

Section version.
Context v (Hv : version_files_ok (uvalid := uvalid) icmp v) (Hnd : NoDup (level_files v 0)) (Hlen : length (files_ v) = kNumLevels).

Lemma version_level_eq level : (level < kNumLevels)%nat → version_level v level = Some (level_files v level).
Proof using Hlen. intros Hl. unfold version_level, level_files. destruct (files_ v !! level) eqn:E; [done|]. apply lookup_ge_None in E. lia. Qed.

Lemma sub_ok level ins : ins ⊆ level_files v level → Forall file_ok ins.
Proof using Hv. intros Hs. apply Forall_forall. intros f Hf. by apply (proj1 (Forall_forall _ _) (proj1 Hv level)), Hs. Qed.

Lemma other_inputs_spec level in0 : (level + 1 < kNumLevels)%nat → start_ok level (level_files v level) in0 →
  ∃ s l in1, other_inputs icmp v level in0 = Some (s, l, in1) ∧ is_bottom in0 s ∧ is_top in0 l ∧
    in1 ⊆ level_files v (level + 1) ∧ NoDup in1 ∧ StronglySorted before in1 ∧ aside (level_files v (level + 1)) in0 in1.
Proof using Hv Hnd Hlen ComparatorLaws0.
  intros Hl Hst. pose proof (sub_ok level in0 (so_sub _ _ _ Hst)) as Hok0. unfold other_inputs.
  destruct (GetRange_spec in0 Hok0 (so_nonempty _ _ _ Hst)) as (s & l & -> & Hb & Ht). cbn [mbind option_bind].
  destruct (bottom_user _ _ Hok0 Hb) as (Hvs & _). destruct (top_user _ _ Hok0 Ht) as (Hvl & _).
  assert (opt_valid (uvalid := uvalid) (InternalKey_user_key <$> Some s) ∧ opt_valid (uvalid := uvalid) (InternalKey_user_key <$> Some l)) as [Hus Hul] by (split; intros x [= <-]; [apply Hvs|apply Hvl]).
  destruct (overlapping_inputs_spec icmp v (level + 1) (Some s) (Some l) (proj1 Hv _) Hus Hul) as (a' & b' & Hg & _ & Hpos & _). rewrite Hg.
  cbn [mbind option_bind]. destruct (Hpos ltac:(lia)) as [-> ->]. set (base := filter _ _) in *. rewrite version_level_eq by done. cbn [mbind option_bind].
  assert (level_sorted (level_files v (level + 1))) as Hs by (apply (proj2 Hv); lia).
  assert (base ⊆ level_files v (level + 1)) as Hbs by (by intros f [_ ?]%list_elem_of_filter).
  assert (convex (level_files v (level + 1)) base) as Hcb.
  { destruct (decide (base = [])) as [->|Hne]; [by intros f g h ?%not_elem_of_nil|]. apply (so_convex (level + 1)); [|lia]. by apply (overlapping_start v (level + 1) (Some s) (Some l)). }
  destruct (AddBoundaryInputs_sorted (level_files v (level + 1)) base Hs Hbs (NoDup_filter _ _ (level_nodup _ Hs)) Hcb (StronglySorted_filter _ _ _ (ls_disjoint _ _ Hs))) as (in1 & -> & Hpre & Hsub & Hnd1 & Hc & Hst1 & Hext & Hso).
  cbn [mbind option_bind]. exists s, l, in1. split_and!; try done. apply (aside_spec _ in0 base in1 s l); try done.
  - destruct Hpre as [l' ->]. intros x Hx. apply elem_of_app. by left.
  - intros f Hf. unfold base. rewrite list_elem_of_filter. rewrite (in_range_overlaps icmp _ _ f (level_file_ok _ _ Hs Hf) Hus Hul). naive_solver.
Qed.

Lemma GetOverlappingInputs_total level a b : valid (rep_ a) → valid (rep_ b) → ∃ ins, GetOverlappingInputs icmp v level (Some a) (Some b) = Some ins.
Proof using Hv ComparatorLaws0.
  intros [_ Ha] [_ Hb]. destruct (overlapping_inputs_spec icmp v level (Some a) (Some b) (proj1 Hv level)) as (a' & b' & -> & _); [by intros x [= <-]..|by eexists].
Qed.

Lemma range2_valid in0 in1 all : Forall file_ok (in0 ++ in1) → GetRange2 icmp in0 in1 = Some all → valid (rep_ all.1) ∧ valid (rep_ all.2).
Proof using ComparatorLaws0.
  intros Hok Hr. unfold GetRange2 in Hr. destruct (decide (in0 ++ in1 = [])) as [He|He]; [by rewrite He in Hr|].
  destruct (GetRange_spec _ Hok He) as (s & l & Hr' & Hb & Ht). rewrite Hr in Hr'. injection Hr' as ->.
  destruct (bottom_user _ _ Hok Hb) as [? _]. destruct (top_user _ _ Hok Ht) as [? _]. done.
Qed.

Lemma inputs_files level in0 in1 : inputs_ok v level in0 in1 → Forall file_ok (in0 ++ in1).
Proof using Hv. intros Hi. apply Forall_app. split; [apply (sub_ok level), (so_sub _ _ _ (io_start _ _ _ _ Hi))|apply (sub_ok (level + 1)), Hi]. Qed.

Lemma range2_total level in0 in1 : inputs_ok v level in0 in1 → ∃ all, GetRange2 icmp in0 in1 = Some all.
Proof using Hv ComparatorLaws0.
  intros Hi. destruct (GetRange_spec (in0 ++ in1) (inputs_files _ _ _ Hi)) as (s & l & Hr & _); [|by eexists]. intros [He _]%app_eq_nil.
  by apply (so_nonempty _ _ _ (io_start _ _ _ _ Hi)).
Qed.

Lemma expand_inputs_spec level in0 in1 r all : (level + 1 < kNumLevels)%nat → inputs_ok v level in0 in1 → valid (rep_ r.2) → GetRange2 icmp in0 in1 = Some all →
  ∃ in0' in1' r' all', expand_inputs icmp max_file_size v level in0 in1 r all = Some (in0', in1', r', all') ∧ inputs_ok v level in0' in1' ∧
    valid (rep_ r'.2) ∧ GetRange2 icmp in0' in1' = Some all'.
Proof using Hv Hnd Hlen ComparatorLaws0.
  intros Hl Hi Hr Hall. unfold expand_inputs. rewrite version_level_eq by lia. cbn [mbind option_bind].
  destruct (range2_valid _ _ _ (inputs_files _ _ _ Hi) Hall) as [Hv1 Hv2]. destruct (GetOverlappingInputs_total level all.1 all.2 Hv1 Hv2) as (exp0 & He0). rewrite He0. cbn [mbind option_bind].
  destruct (decide (exp0 = [])) as [->|Hne].
  { cbn [AddBoundaryInputs FindLargestKey mbind option_bind length]. exists in0, in1, r, all. by rewrite (proj2 (Nat.ltb_ge _ _)) by lia. }
  destruct (start_boundary v level exp0 Hv) as (exp0' & -> & Hst & Hnewer); [apply (overlapping_start v level (Some all.1) (Some all.2)); [done|done|by intros x [= <-]; apply Hv1|by intros x [= <-]; apply Hv2|done|done]|]. cbn [mbind option_bind].
  destruct (_ && _); [|by exists in0, in1, r, all]. destruct (other_inputs_spec level exp0' Hl Hst) as (s & l & exp1 & -> & Hb & Ht & Hsub & Hnd1 & Hso1 & Has). cbn [mbind option_bind].
  destruct (_ =? _)%nat; [|by exists in0, in1, r, all]. assert (inputs_ok v level exp0' exp1) as Hi' by done. destruct (range2_total _ _ _ Hi') as (all' & Hall').
  rewrite Hall'. cbn [mbind option_bind]. exists exp0', exp1, (s, l), all'. split_and!; try done. by apply (top_user exp0'); [apply (sub_ok level), Hst|].
Qed.

(** The compaction of the inputs, with those of the next level and the pointer. *)
Lemma SetupOtherInputs_spec c cp : (c_level c + 1 < kNumLevels)%nat → length cp = kNumLevels → start_ok (c_level c) (level_files v (c_level c)) (inputs0 c) →
  ∃ c' cp', SetupOtherInputs icmp max_file_size v c cp = Some (c', cp') ∧ inputs_ok v (c_level c) (inputs0 c') (inputs1 c') ∧ c_level c' = c_level c ∧
    input_version_ c' = input_version_ c ∧ length cp' = kNumLevels.
Proof using Hv Hnd Hlen ComparatorLaws0.
  intros Hl Hcp Hst. unfold SetupOtherInputs. rewrite version_level_eq by lia. cbn [mbind option_bind].
  destruct (start_boundary v (c_level c) (inputs0 c) Hv Hst) as (in0 & -> & Hst0 & Hnewer). cbn [mbind option_bind].
  destruct (other_inputs_spec (c_level c) in0 Hl Hst0) as (s & l & in1 & -> & Hb & Ht & Hsub & Hnd1 & Hso1 & Has). cbn [mbind option_bind].
  assert (inputs_ok v (c_level c) in0 in1) as Hi by done. destruct (range2_total _ _ _ Hi) as (all & Hall). rewrite Hall. cbn [mbind option_bind].
  assert (valid (rep_ l)) as Hvl by (apply (top_user in0); [apply (sub_ok (c_level c)), Hst0|done]).
  assert (∃ in0' in1' r all', match in1 with [] => Some (in0, in1, (s, l), all) | _ => expand_inputs icmp max_file_size v (c_level c) in0 in1 (s, l) all end = Some (in0', in1', r, all') ∧
    inputs_ok v (c_level c) in0' in1' ∧ GetRange2 icmp in0' in1' = Some all') as (in0' & in1' & r & all' & -> & Hi' & Hall').
  { destruct in1 as [|f in1]; [by exists in0, [], (s, l), all|]. destruct (expand_inputs_spec (c_level c) in0 (f :: in1) (s, l) all Hl Hi Hvl Hall) as (? & ? & ? & ? & ? & ? & _ & ?). by eexists _, _, _, _. }
  cbn [mbind option_bind]. destruct (range2_valid _ _ _ (inputs_files _ _ _ Hi') Hall') as [Hv1 Hv2].
  assert (∃ gp, (if (c_level c + 2 <? kNumLevels)%nat then GetOverlappingInputs icmp v (c_level c + 2) (Some all'.1) (Some all'.2) else Some (grandparents_ c)) = Some gp) as (gp & ->).
  { destruct (_ <? _)%nat; [by apply GetOverlappingInputs_total|by eexists]. }
  cbn [mbind option_bind]. rewrite bool_decide_true by lia. eexists _, _. split; [done|]. cbn. split_and!; try done. by rewrite length_insert.
Qed.
End version.

(** *** Replacing the inputs *)

Section replace.
Context (contents : File → list kv) v (Hv : version_ok (uvalid := uvalid) icmp contents v).
Context (level : nat) (in0 in1 outs : list File) (v' : Version).

(** [v'] has the outputs in the next level in place of the inputs. *)
Record replaces : Prop := {
  rp_files l f : f ∈ level_files v' l ↔
    f ∈ level_files v l ∧ ¬ (l = level ∧ f ∈ in0) ∧ ¬ (l = (level + 1)%nat ∧ f ∈ in1) ∨ l = (level + 1)%nat ∧ f ∈ outs;
  rp_nodup l : NoDup (number ∘ f_meta <$> level_files v' l);
  rp_sorted l : StronglySorted (λ f g : File, Compare icmp (small f) (small g) <= 0) (level_files v' l);
}.

(** Tables with entries of the inputs only, disjoint. *)
Record outputs_ok : Prop := {
  oo_holds o : o ∈ outs → table_holds (uvalid := uvalid) icmp o (contents o) ∧ file_ok o;
  oo_entries o e : o ∈ outs → e ∈ contents o → ∃ f, f ∈ in0 ++ in1 ∧ e ∈ contents f;
  oo_disjoint o o' : o ∈ outs → o' ∈ outs → o = o' ∨ before o o' ∨ before o' o;
}.

Lemma files_of_version : version_files_ok (uvalid := uvalid) icmp v.
Proof using Hv. split; [|apply Hv]. intros l. apply Forall_forall. intros f Hf. by apply (vo_holds _ _ _ Hv l f). Qed.

Lemma holds_bounds f l e : f ∈ level_files v l → e ∈ contents f → valid e.1 ∧ Compare icmp (small f) e.1 <= 0 ∧ Compare icmp e.1 (large f) <= 0.
Proof using Hv ComparatorLaws0. intros Hf He. destruct (vo_holds _ _ _ Hv l f Hf) as [Hh _]. by apply (holds_range icmp f (contents f)). Qed.

Lemma entries_share l l' f g a b : f ∈ level_files v l → g ∈ level_files v l' → a ∈ contents f → b ∈ contents g →
  ExtractUserKey a.1 = ExtractUserKey b.1 → files_overlap icmp f g.
Proof using Hv ComparatorLaws0.
  intros Hf Hg Ha Hb Heq. destruct (holds_bounds f l a Hf Ha) as ([_ Hua] & Ha1 & Ha2). destruct (holds_bounds g l' b Hg Hb) as ([_ Hub] & Hb1 & Hb2).
  destruct (vo_holds _ _ _ Hv l f Hf) as [_ Hfo], (vo_holds _ _ _ Hv l' g Hg) as [_ Hgo].
  apply internal_le in Ha1, Ha2, Hb1, Hb2. cbv zeta in *. rewrite Heq in Ha1, Ha2. split.
  - apply (compare_trans ucmp _ (ExtractUserKey b.1)); [apply Hfo|done|apply Hgo|lia|lia].
  - apply (compare_trans ucmp _ (ExtractUserKey b.1)); [apply Hgo|done|apply Hfo|lia|lia].
Qed.

Lemma before_entries l l' f g a b : f ∈ level_files v l → g ∈ level_files v l' → a ∈ contents f → b ∈ contents g → before f g → Compare icmp a.1 b.1 < 0.
Proof using Hv ComparatorLaws0.
  intros Hf Hg Ha Hb Hfg. destruct (holds_bounds f l a Hf Ha) as (Hva & _ & Ha2). destruct (holds_bounds g l' b Hg Hb) as (Hvb & Hb1 & _).
  destruct (vo_holds _ _ _ Hv l f Hf) as [_ Hfo], (vo_holds _ _ _ Hv l' g Hg) as [_ Hgo].
  apply (compare_le_lt_trans icmp _ (large f)); [done|apply Hfo|done|done|]. apply (compare_lt_le_trans icmp _ (small g)); [apply Hfo|apply Hgo|done|done|done].
Qed.

Context (Hi : inputs_ok v level in0 in1) (Hr : replaces) (Ho : outputs_ok).

Lemma input_level f : f ∈ in0 ++ in1 → f ∈ in0 ∧ f ∈ level_files v level ∨ f ∈ in1 ∧ f ∈ level_files v (level + 1).
Proof using Hi. intros [Hf|Hf]%elem_of_app; [left; split; [done|by apply (so_sub _ _ _ (io_start _ _ _ _ Hi))]|right; split; [done|by apply (io_sub _ _ _ _ Hi)]]. Qed.

(** A file that stays in the next level and an output do not overlap. *)
Lemma stays_disjoint g o : g ∈ level_files v (level + 1) → g ∉ in1 → o ∈ outs → before g o ∨ before o g.
Proof using Hv Hi Ho ComparatorLaws0.
  intros Hg Hng Hout. destruct (oo_holds Ho o Hout) as [[_ _ (a & Ha & Has) (b & Hb & Hbl)] _].
  assert (a ∈ contents o ∧ b ∈ contents o) as [Hain Hbin] by (split; [by apply head_Some_elem_of|by apply last_Some_elem_of]).
  destruct (oo_entries Ho o a Hout Hain) as (fa & Hfa & Hafa), (oo_entries Ho o b Hout Hbin) as (fb & Hfb & Hbfb).
  destruct (vo_holds _ _ _ Hv _ g Hg) as [_ Hgo]. destruct (io_aside _ _ _ _ Hi g Hg Hng) as [Hb4|Haf].
  - left. unfold before. rewrite <- Has. specialize (Hb4 fa Hfa).
    assert (∃ l, fa ∈ level_files v l) as [l Hl] by (destruct (input_level fa Hfa) as [[_ ?]|[_ ?]]; by eexists). destruct (vo_holds _ _ _ Hv l fa Hl) as [_ Hfao].
    destruct (holds_bounds fa l a Hl Hafa) as (Hva & Ha1 & _). apply (compare_lt_le_trans icmp _ (small fa)); [apply Hgo|apply Hfao|done|done|done].
  - right. unfold before. rewrite <- Hbl. specialize (Haf fb Hfb). apply user_before in Haf.
    assert (∃ l, fb ∈ level_files v l) as [l Hl] by (destruct (input_level fb Hfb) as [[_ ?]|[_ ?]]; by eexists). destruct (vo_holds _ _ _ Hv l fb Hl) as [_ Hfbo].
    destruct (holds_bounds fb l b Hl Hbfb) as (Hvb & _ & Hb2). apply (compare_le_lt_trans icmp _ (large fb)); [done|apply Hfbo|apply Hgo|done|done].
Qed.

Lemma replaced_file l f : f ∈ level_files v' l → table_holds (uvalid := uvalid) icmp f (contents f) ∧ file_ok f.
Proof using Hv Hr Ho. intros [(Hf & _)|[_ Hf]]%(rp_files Hr); [by apply (vo_holds _ _ _ Hv l)|by apply (oo_holds Ho)]. Qed.

Lemma replaced_disjoint l f g : (0 < l)%nat → f ∈ level_files v' l → g ∈ level_files v' l → f = g ∨ before f g ∨ before g f.
Proof using Hv Hi Hr Ho ComparatorLaws0.
  intros Hl [(Hf & _ & Hnf)|[-> Hf]]%(rp_files Hr) [(Hg & _ & Hng)|[Hl' Hg]]%(rp_files Hr); [| | |by apply (oo_disjoint Ho)].
  - apply (level_cases (level_files v l)); [by apply (vo_sorted _ _ _ Hv)|done|done].
  - subst l. right. apply stays_disjoint; [done|tauto|done].
  - right. destruct (stays_disjoint g f Hg); [tauto|done|by right|by left].
Qed.

Lemma replaced_sorted l : (0 < l)%nat → level_sorted (level_files v' l).
Proof using Hv Hi Hr Ho ComparatorLaws0.
  intros Hl. split; [apply Forall_forall; intros f Hf; by apply (replaced_file l f)|].
  pose proof (rp_sorted Hr l) as Hs. pose proof (rp_nodup Hr l) as Hn. assert (∀ f g, f ∈ level_files v' l → g ∈ level_files v' l → f = g ∨ before f g ∨ before g f) as Hd by (intros; by apply (replaced_disjoint l)).
  assert (∀ f, f ∈ level_files v' l → file_ok f) as Hok by (intros f Hf; by apply (replaced_file l f)).
  induction Hs as [|f fs Hs IH Hf]; [constructor|]. cbn in Hn. apply NoDup_cons in Hn as [Hnf Hn]. constructor.
  - apply IH; [done|intros; apply Hd; by right|intros; apply Hok; by right].
  - apply Forall_forall. intros g Hg. pose proof (proj1 (Forall_forall _ _) Hf g Hg) as Hle. cbn in Hle. destruct (Hd f g ltac:(left) ltac:(by right)) as [->|[?|Hgf]]; [|done|].
    + exfalso. apply Hnf. apply list_elem_of_fmap. by exists g.
    + exfalso. pose proof (Hok f ltac:(left)) as Hfo. pose proof (Hok g ltac:(by right)) as Hgo. apply (before_not g f Hgo Hfo Hgf).
      apply (compare_trans icmp _ (small g)); [apply Hfo|apply Hgo|apply Hgo|done|apply Hgo].
Qed.

(** An entry of an output comes from a file searched no later. *)
Lemma output_entry o e : o ∈ outs → e ∈ contents o → ∃ l f, f ∈ level_files v l ∧ e ∈ contents f ∧ (l = level ∧ f ∈ in0 ∨ l = (level + 1)%nat ∧ f ∈ in1).
Proof using Hi Ho.
  intros Hout He. destruct (oo_entries Ho o e Hout He) as (f & Hf & Hef). destruct (input_level f Hf) as [[? ?]|[? ?]]; [exists level, f|exists (level + 1)%nat, f]; split_and!; try done; [by left|by right].
Qed.

Lemma replaced_ok : version_ok (uvalid := uvalid) icmp contents v'.
Proof using Hv Hi Hr Ho ComparatorLaws0.
  split.
  - apply replaced_file.
  - intros l f e [(Hf & _)|[_ Hf]]%(rp_files Hr) He; [by apply (vo_parse _ _ _ Hv l f)|]. destruct (output_entry f e Hf He) as (l' & g & Hg & Hge & _). by apply (vo_parse _ _ _ Hv l' g).
  - apply replaced_sorted.
  - apply (rp_nodup Hr).
  - intros f g a b [(Hf & _)|[? _]]%(rp_files Hr) [(Hg & _)|[? _]]%(rp_files Hr); [|lia..]. by apply (vo_newer0 _ _ _ Hv).
  - intros i j f g a b Hij [(Hf & Hnf & _)|[-> Hf]]%(rp_files Hr) [(Hg & _ & Hng)|[-> Hg]]%(rp_files Hr) Ha Hb Heq; [by apply (vo_newer _ _ _ Hv i j f g)| | |lia].
    + destruct (output_entry g b Hg Hb) as (l & h & Hh & Hbh & [[-> Hh0]|[-> Hh1]]); [|by apply (vo_newer _ _ _ Hv i (level + 1) f h)].
      destruct (decide (i = level)) as [->|Hne]; [|apply (vo_newer _ _ _ Hv i level f h); [lia|done..]].
      destruct (io_newer _ _ _ _ Hi h f Hh0 Hf ltac:(tauto)) as [Hfh|Hno]; [by apply (before_entries level level f h)|]. exfalso. apply Hno. by apply (entries_share level level f h a b).
    + destruct (output_entry f a Hf Ha) as (l & h & Hh & Hah & Hl). apply (vo_newer _ _ _ Hv l j h g); [lia|done..].
Qed.
End replace.

(** *** Base levels *)

(** The user key is in the range of the file. *)
Definition in_file (key : list byte) f : Prop := Compare ucmp (usmall f) key <= 0 ∧ Compare ucmp key (ularge f) <= 0.

(** The files before the pointer end before the key. *)
Definition passed (key : list byte) files (ptr : nat) : Prop := ∀ i f, (i < ptr)%nat → files !! i = Some f → Compare ucmp (ularge f) key < 0.

Lemma advance_level_spec key files : level_sorted files → uvalid key → ∀ fuel ptr, (length files < fuel + ptr)%nat → (ptr ≤ length files)%nat → passed key files ptr →
  ∃ ptr' inside, advance_level icmp key files ptr fuel = Some (ptr', inside) ∧ (ptr' ≤ length files)%nat ∧ passed key files ptr' ∧
    (inside = true ↔ ∃ f, f ∈ files ∧ in_file key f).
Proof.
  intros Hs Hk. induction fuel as [|fuel IH]; intros ptr Hfuel Hp Hpass; [lia|]. cbn [advance_level]. destruct (files !! ptr) as [f|] eqn:Hf.
  - pose proof (level_lookup icmp files ptr f Hs Hf) as Hfo. unfold InternalKey_user_key. destruct (Z.leb_spec (Compare ucmp key (ularge f)) 0) as [Hle|Hgt].
    + eexists ptr, _. split; [done|]. split; [done|]. split; [done|]. rewrite Z.leb_le, (compare_le_sym ucmp) by (done || apply Hfo). split.
      * intros Hc. exists f. split; [by eapply list_elem_of_lookup_2|done].
      * intros (g & [i Hi]%list_elem_of_lookup & Hg1 & Hg2). pose proof (level_lookup icmp files i g Hs Hi) as Hgo. destruct (Nat.lt_ge_cases i ptr) as [Hlt|Hge].
        -- specialize (Hpass i g Hlt Hi). apply (compare_le_sym ucmp) in Hg2; [lia|apply Hgo|done].
        -- apply (compare_trans ucmp _ (usmall g)); [apply Hfo|apply Hgo|done| |done]. by apply (level_user_order icmp files ptr i f g Hs).
    + pose proof (lookup_lt_Some _ _ _ Hf). apply IH; [lia|lia|]. intros i g Hi Hg. destruct (decide (i = ptr)) as [->|]; [|apply (Hpass i g); [lia|done]].
      assert (g = f) as -> by congruence. apply (compare_lt_sym ucmp) in Hgt; [done|done|apply Hfo].
  - exists ptr, false. split; [done|]. split; [done|]. split; [done|]. split; [done|]. intros (g & [i Hi]%list_elem_of_lookup & _ & Hg2). apply lookup_ge_None in Hf.
    pose proof (lookup_lt_Some _ _ _ Hi). specialize (Hpass i g ltac:(lia) Hi). pose proof (level_lookup icmp files i g Hs Hi) as Hgo. apply (compare_le_sym ucmp) in Hg2; [lia|apply Hgo|done].
Qed.

(** The pointers of the deeper levels are at files not before the key. *)
Record pointers_ok v (key : list byte) (ptrs : list nat) : Prop := {
  po_length : length ptrs = kNumLevels;
  po_range l ptr : ptrs !! l = Some ptr → (ptr ≤ length (level_files v l))%nat;
  po_passed l ptr : ptrs !! l = Some ptr → passed key (level_files v l) ptr;
}.

Lemma pointers_later v key key' ptrs : version_files_ok (uvalid := uvalid) icmp v → uvalid key → uvalid key' → Compare ucmp key key' <= 0 → pointers_ok v key ptrs → pointers_ok v key' ptrs.
Proof.
  intros [Hall _] Hk Hk' Hle [H1 H2 H3]. split; [done|done|]. intros l ptr Hl i f Hi Hf. apply (compare_lt_le_trans ucmp _ key); [|done|done|by apply (H3 l ptr Hl i)|done].
  assert (file_ok f) as Hfo by (apply (proj1 (Forall_forall _ _) (Hall l)); by eapply list_elem_of_lookup_2). apply Hfo.
Qed.

Lemma pointers_start v key : pointers_ok v key (replicate kNumLevels 0%nat).
Proof. split; [by rewrite length_replicate|intros l ptr [-> _]%lookup_replicate; lia|intros l ptr [-> _]%lookup_replicate i f Hi; lia]. Qed.

Lemma base_level_loop_spec v key lvls : version_files_ok (uvalid := uvalid) icmp v → length (files_ v) = kNumLevels → uvalid key → Forall (λ l, 0 < l < kNumLevels)%nat lvls →
  ∀ ptrs, pointers_ok v key ptrs → ∃ base ptrs', base_level_loop icmp key v lvls ptrs = Some (base, ptrs') ∧ pointers_ok v key ptrs' ∧
    (base = true ↔ ∀ l f, l ∈ lvls → f ∈ level_files v l → ¬ in_file key f).
Proof.
  intros Hv Hlen Hk. induction lvls as [|lvl lvls IH]; intros Hl ptrs Hp; cbn [base_level_loop].
  - exists true, ptrs. split; [done|]. split; [done|]. split; [|done]. by intros _ l f ?%not_elem_of_nil.
  - apply Forall_cons in Hl as [Hl0 Hl]. rewrite (version_level_eq v Hlen) by lia. cbn [mbind option_bind].
    destruct (ptrs !! lvl) as [ptr|] eqn:Hptr; [|apply lookup_ge_None in Hptr; rewrite (po_length _ _ _ Hp) in Hptr; lia]. cbn [mbind option_bind].
    destruct (advance_level_spec key (level_files v lvl) ltac:(apply (proj2 Hv); lia) Hk (S (length (level_files v lvl))) ptr) as (ptr' & inside & -> & Hle & Hpass & Hin);
      [lia|by apply (po_range _ _ _ Hp)|by apply (po_passed _ _ _ Hp)|]. cbn [mbind option_bind].
    assert (pointers_ok v key (<[lvl := ptr']> ptrs)) as Hp'.
    { split; [rewrite length_insert; apply Hp|..]; intros l x; destruct (decide (l = lvl)) as [->|Hne].
      - rewrite list_lookup_insert_eq by (rewrite (po_length _ _ _ Hp); lia). by intros [= <-].
      - rewrite list_lookup_insert_ne by done. apply (po_range _ _ _ Hp).
      - rewrite list_lookup_insert_eq by (rewrite (po_length _ _ _ Hp); lia). by intros [= <-].
      - rewrite list_lookup_insert_ne by done. apply (po_passed _ _ _ Hp). }
    destruct inside.
    + exists false, (<[lvl := ptr']> ptrs). split; [done|]. split; [done|]. split; [done|]. intros Hno. destruct (proj1 Hin eq_refl) as (f & Hf & Hfk). exfalso. by apply (Hno lvl f ltac:(left)).
    + destruct (IH Hl _ Hp') as (base & ptrs' & -> & Hp'' & Hb). exists base, ptrs'. split; [done|]. split; [done|]. rewrite Hb. split.
      * intros Hno l f [->|Hl']%elem_of_cons Hf Hfk; [|by apply (Hno l f)]. assert (false = true); [|done]. apply Hin. by exists f.
      * intros Hno l f Hl' Hf. apply (Hno l f); [by right|done].
Qed.

Lemma IsBaseLevelForKey_spec v key c : version_files_ok (uvalid := uvalid) icmp v → length (files_ v) = kNumLevels → uvalid key → pointers_ok v key (level_ptrs_ c) →
  ∃ base ptrs, IsBaseLevelForKey icmp key v c = Some (base, set_level_ptrs ptrs c) ∧ pointers_ok v key ptrs ∧
    (base = true ↔ ∀ l f, (c_level c + 2 ≤ l)%nat → f ∈ level_files v l → ¬ in_file key f).
Proof.
  intros Hv Hlen Hk Hp. unfold IsBaseLevelForKey. destruct (base_level_loop_spec v key (seq (c_level c + 2) (kNumLevels - (c_level c + 2))) Hv Hlen Hk) with (ptrs := level_ptrs_ c)
    as (base & ptrs & -> & Hp' & Hb); [|done|].
  - apply Forall_forall. intros l Hl%elem_of_seq. lia.
  - cbn [mbind option_bind]. exists base, ptrs. split; [done|]. split; [done|]. rewrite Hb. split.
    + intros Hno l f Hl Hf. apply (Hno l f); [|done]. apply elem_of_seq. unfold level_files in Hf. destruct (files_ v !! l) eqn:E; [|by apply not_elem_of_nil in Hf]. pose proof (lookup_lt_Some _ _ _ E). lia.
    + intros Hno l f Hl%elem_of_seq. apply (Hno l f). lia.
Qed.

(** *** Picking a compaction *)

(** The score and the seek statistics name files of the version. *)
Record can_compact v : Prop := {
  cc_score : double_ltb (compaction_score_ v) (double_of_Z 1) = false →
    0 <= compaction_level_ v ∧ compaction_level_ v + 1 < Z.of_nat kNumLevels ∧ level_files v (Z.to_nat (compaction_level_ v)) ≠ [];
  cc_seek f : file_to_compact_ v = Some f →
    0 <= file_to_compact_level_ v ∧ file_to_compact_level_ v + 1 < Z.of_nat kNumLevels ∧ f ∈ level_files v (Z.to_nat (file_to_compact_level_ v));
}.

Lemma level_score_empty v l : (l < 6)%nat → level_files v l = [] → double_ltb (level_score v l) (double_of_Z 1) = true.
Proof.
  intros Hl He. unfold level_score. rewrite He. change (TotalFileSize []) with 0. change (length ([] : list File)) with 0%nat.
  do 6 (destruct l as [|l]; [vm_compute; reflexivity|]). lia.
Qed.

(** A finalized version has a level to compact when its score says so. *)
Lemma Finalize_can_compact v : file_to_compact_ v = None → can_compact (Finalize v).
Proof.
  intros Hn. assert (∀ ls p, Forall (λ l, l < 6)%nat ls → (∀ bl bs, p = (bl, bs) → double_ltb bs (double_of_Z 1) = false → ∃ l, (l < 6)%nat ∧ bl = Z.of_nat l ∧ level_files v l ≠ []) →
    ∀ bl bs, foldl (λ '(bl, bs) level, let score := level_score v level in if double_ltb bs score then (Z.of_nat level, score) else (bl, bs)) p ls = (bl, bs) →
      double_ltb bs (double_of_Z 1) = false → ∃ l, (l < 6)%nat ∧ bl = Z.of_nat l ∧ level_files v l ≠ []) as Hfold.
  { induction ls as [|l ls IH]; intros [bl0 bs0] Hls Hp bl bs; [by apply Hp|]. apply Forall_cons in Hls as [Hl Hls]. cbn [foldl]. apply IH; [done|]. intros bl1 bs1 Heq Hs.
    cbv zeta in Heq. destruct (double_ltb bs0 (level_score v l)); injection Heq as <- <-; [|by apply (Hp bl0 bs0)]. exists l. split_and!; try done.
    intros He. by rewrite (level_score_empty v l Hl He) in Hs. }
  unfold Finalize. destruct (foldl _ _ _) as [bl bs] eqn:Hf. split; cbn [compaction_score_ compaction_level_ file_to_compact_]; [|congruence].
  intros Hs. destruct (Hfold (seq 0 (kNumLevels - 1)) (-1, double_of_Z (-1))) with (bl := bl) (bs := bs) as (l & Hl & -> & Hne); [| |done|done|].
  - apply Forall_forall. intros l Hl%elem_of_seq. unfold kNumLevels in Hl. lia.
  - intros bl' bs' [= <- <-] Hx. vm_compute in Hx. discriminate.
  - unfold kNumLevels. rewrite Nat2Z.id. split_and!; [lia|lia|]. unfold level_files in *. done.
Qed.

Context {E : Type} `{!FileSystem E}.
Implicit Types (vs : VersionSet (E := E)) (m : gmap (Z * Z) FileMetaData).
Notation vs_ok := (vs_ok (uvalid := uvalid) icmp).

Lemma version_maps_nodup v m l : version_maps (uvalid := uvalid) icmp v m → NoDup (level_files v l).
Proof. intros Hm. apply (NoDup_fmap_1 (number ∘ f_meta)). apply (vm_nodup _ _ _ Hm). Qed.

Lemma start_compaction_spec owners m vs v level in0 : vs_ok owners m vs → current_version (vs_versions vs) = Some v → version_files_ok (uvalid := uvalid) icmp v →
  (level + 1 < kNumLevels)%nat → start_ok level (level_files v level) in0 →
  ∃ c vs' id, start_compaction icmp max_file_size level in0 vs = Some (c, vs') ∧ vl_current (vs_versions vs) = Some id ∧ vs_ok (id :: owners) m vs' ∧
    current_version (vs_versions vs') = Some v ∧ inputs_ok v level (inputs0 c) (inputs1 c) ∧ c_level c = level ∧ input_version_ c = Some id.
Proof.
  intros [Hl (v' & Hc & Hm) Hp] Hcur Hv Hlev Hst. assert (v' = v) as -> by congruence. destruct (current_inv _ _ Hcur) as (id & o & Hid & Ho & Hov).
  unfold start_compaction. rewrite Hid, Hcur. cbn [mbind option_bind]. destruct (Version_Ref_ok owners [] _ id Hl ltac:(by eexists)) as (vl & -> & Hl' & Hc' & _ & Hs). cbn [mbind option_bind].
  destruct (SetupOtherInputs_spec v Hv (version_maps_nodup v m 0 Hm) (vm_levels _ _ _ Hm) (set_inputs in0 [] (set_input_version (Some id) (Compaction_new max_file_size level)))
    (vs_compact_pointer_ vs) Hlev Hp Hst) as (c & cp & -> & Hi & Hcl & Hiv & Hlen). cbn [mbind option_bind].
  assert (current_version vl = Some v) as Hcv by (rewrite <- Hcur; apply current_eq; [done|intros; apply Hs]).
  eexists c, _, id. split; [done|]. split; [done|]. split; [|done]. split; [done|by exists v|done].
Qed.

Lemma single_start level files f : (∀ x, x ∈ files → file_ok x) → (0 < level)%nat → f ∈ files → start_ok level files [f].
Proof.
  intros Hok Hl Hf. split; [by intros x ->%list_elem_of_singleton|done|apply NoDup_singleton|lia| |repeat constructor].
  intros _ a g h ->%list_elem_of_singleton ->%list_elem_of_singleton Hg H1 H2. exfalso. apply (before_irrefl f); [by apply Hok|]. apply (before_trans f g f); [by apply Hok..|done|done].
Qed.

(** What a compaction that was picked is. *)
Definition picked (owners : list nat) m vs v c vs' : Prop :=
  ∃ id, vl_current (vs_versions vs) = Some id ∧ input_version_ c = Some id ∧ vs_ok (id :: owners) m vs' ∧ current_version (vs_versions vs') = Some v ∧
    (c_level c + 1 < kNumLevels)%nat ∧ inputs_ok v (c_level c) (inputs0 c) (inputs1 c).

Lemma next_file_spec files pointer : files ≠ [] → ∃ f, next_file icmp files pointer = Some f ∧ f ∈ files.
Proof.
  intros Hne. unfold next_file. destruct (filter _ files) as [|f fs] eqn:Hfil.
  - destruct files as [|f files]; [done|]. exists f. split; [done|left].
  - exists f. split; [done|]. assert (f ∈ f :: fs) as Hf by left. rewrite <- Hfil in Hf. by apply list_elem_of_filter in Hf as [_ ?].
Qed.

Lemma compaction_start_spec v cp : can_compact v → length cp = kNumLevels → length (files_ v) = kNumLevels →
  ∃ start, compaction_start icmp v cp = Some start ∧ ∀ level f, start = Some (level, f) → (level + 1 < kNumLevels)%nat ∧ f ∈ level_files v level.
Proof.
  intros Hcc Hcp Hlen. unfold compaction_start. destruct (double_ltb (compaction_score_ v) (double_of_Z 1)) eqn:Hs; cbn [negb].
  - destruct (file_to_compact_ v) as [f|] eqn:Hf; [|by exists None]. destruct (cc_seek _ Hcc f Hf) as (H0 & H1 & Hin). rewrite bool_decide_true by done.
    eexists. split; [done|]. intros level g [= <- <-]. split; [lia|done].
  - destruct (cc_score _ Hcc Hs) as (H0 & H1 & Hne). rewrite bool_decide_true by done. rewrite (version_level_eq v Hlen) by lia. cbn [mbind option_bind].
    destruct (cp !! Z.to_nat (compaction_level_ v)) as [pointer|] eqn:Hptr; [|apply lookup_ge_None in Hptr; lia]. cbn [mbind option_bind].
    destruct (next_file_spec _ pointer Hne) as (f & -> & Hin). cbn [mbind option_bind]. eexists. split; [done|]. intros level g [= <- <-]. split; [lia|done].
Qed.

Lemma PickCompaction_spec owners m vs v : vs_ok owners m vs → current_version (vs_versions vs) = Some v → version_files_ok (uvalid := uvalid) icmp v → can_compact v →
  ∃ r vs', PickCompaction icmp max_file_size vs = Some (r, vs') ∧ match r with None => vs' = vs | Some c => picked owners m vs v c vs' end.
Proof.
  intros Hok Hcur Hv Hcc. pose proof Hok as [Hl (v' & Hc & Hm) Hp]. assert (v' = v) as -> by congruence. unfold PickCompaction. rewrite Hcur. cbn [mbind option_bind].
  destruct (compaction_start_spec v (vs_compact_pointer_ vs) Hcc Hp (vm_levels _ _ _ Hm)) as (start & -> & Hst). cbn [mbind option_bind].
  destruct start as [[level f]|]; [|by exists None, vs]. destruct (Hst level f eq_refl) as [Hlev Hf]. pose proof (proj1 (Forall_forall _ _) (proj1 Hv level)) as Hfo.
  assert (∃ in0, (if (level =? 0)%nat then '(smallest, largest) ← GetRange icmp [f]; in0 ← GetOverlappingInputs icmp v 0 (Some smallest) (Some largest);
    (match in0 with [] => None | _ => Some in0 end) else Some [f]) = Some in0 ∧ start_ok level (level_files v level) in0) as (in0 & -> & Hin0).
  { destruct (Nat.eqb_spec level 0) as [->|Hne]; [|exists [f]; split; [done|apply single_start; [done|lia|done]]]. cbn [GetRange foldl mbind option_bind].
    pose proof (Hfo f Hf) as Hfok. destruct (overlapping_inputs_spec icmp v 0 (Some (smallest f)) (Some (largest f)) (proj1 Hv 0%nat)) as (a' & b' & Hg & (Hgrow & _) & _); [intros x [= <-]; apply Hfok..|].
    assert (f ∈ filter (λ f, in_range icmp a' b' f = true) (level_files v 0)) as Hin.
    { apply list_elem_of_filter. split; [|done]. apply Hgrow; [done|]. apply (in_range_overlaps icmp _ _ f Hfok); [intros x [= <-]; apply Hfok..|].
      split; intros x [= <-]; unfold InternalKey_user_key; [by apply (file_user_le icmp f Hfok)|]. apply (compare_le_sym ucmp); [apply Hfok|apply Hfok|by apply (file_user_le icmp f Hfok)]. }
    assert (filter (λ f, in_range icmp a' b' f = true) (level_files v 0) ≠ []) as Hne by (intros He; rewrite He in Hin; by apply not_elem_of_nil in Hin).
    eexists. split; [|apply (overlapping_start v 0 (Some (smallest f)) (Some (largest f))); [done|by apply (version_maps_nodup v m)|intros x [= <-]; apply Hfok..|exact Hg|done]].
    rewrite Hg. cbn [mbind option_bind]. by destruct (filter _ (level_files v 0)). }
  cbn [mbind option_bind]. destruct (start_compaction_spec owners m vs v level in0 Hok Hcur Hv Hlev Hin0) as (c & vs' & id & -> & Hid & Hok' & Hcur' & Hi & Hcl & Hiv). cbn [mbind option_bind].
  exists (Some c), vs'. split; [done|]. exists id. rewrite Hcl. done.
Qed.

Lemma limit_inputs_take limit ins : ∀ total, ∃ k, limit_inputs limit total ins = take k ins ∧ (ins ≠ [] → limit_inputs limit total ins ≠ []).
Proof.
  induction ins as [|f ins IH]; intros total; cbn [limit_inputs]; [by exists 0%nat|]. cbv zeta. destruct (_ <=? _); [by exists 1%nat|].
  destruct (IH (u64 (total + file_size f))) as (k & -> & _). by exists (S k).
Qed.

(** Part of a sorted level from its beginning has no gaps. *)
Lemma convex_take files ins k : level_sorted files → ins `sublist_of` files → convex files ins → convex files (take k ins).
Proof.
  intros Hs Hsub Hc f g h Hf Hh Hg Hfg Hgh. assert (∀ x, x ∈ take k ins → x ∈ ins) as Htake by (intros x Hx; eapply elem_of_sublist; [exact Hx|apply sublist_take]).
  assert (∀ x, x ∈ ins → x ∈ files) as Hin by (intros x Hx; by eapply elem_of_sublist). assert (∀ x, x ∈ files → file_ok x) as Hok by (intros x; by apply level_file_ok).
  pose proof (Hc f g h (Htake f Hf) (Htake h Hh) Hg Hfg Hgh) as Hgi. rewrite <- (take_drop k ins) in Hgi. apply elem_of_app in Hgi as [|Hgd]; [done|]. exfalso.
  assert (StronglySorted before ins) as Hss. { eapply StronglySorted_sublist; [exact Hsub|]. apply Hs. }
  rewrite <- (take_drop k ins) in Hss. apply StronglySorted_app in Hss as [Hcross _]. pose proof (Hcross h g Hh Hgd) as Hhg.
  apply (before_irrefl g); [by apply Hok|]. apply (before_trans g h g); [by apply Hok|by apply Hok, Hin, Htake|by apply Hok|done|done].
Qed.

Lemma CompactRange_spec owners m vs v level begin end_ : vs_ok owners m vs → current_version (vs_versions vs) = Some v → version_files_ok (uvalid := uvalid) icmp v →
  (level + 1 < kNumLevels)%nat → opt_valid (uvalid := uvalid) (InternalKey_user_key <$> begin) → opt_valid (uvalid := uvalid) (InternalKey_user_key <$> end_) →
  ∃ r vs', CompactRange icmp max_file_size level begin end_ vs = Some (r, vs') ∧ match r with None => vs' = vs | Some c => picked owners m vs v c vs' end.
Proof.
  intros Hok Hcur Hv Hlev Ha Hb. pose proof Hok as [Hl (v' & Hc & Hm) Hp]. assert (v' = v) as -> by congruence. unfold CompactRange. rewrite Hcur. cbn [mbind option_bind].
  destruct (overlapping_inputs_spec icmp v level begin end_ (proj1 Hv level) Ha Hb) as (a' & b' & Hg & _). rewrite Hg. cbn [mbind option_bind]. set (ins := filter _ _) in *.
  destruct (decide (ins = [])) as [He|Hne]; [rewrite He; by exists None, vs|].
  pose proof (overlapping_start v level begin end_ ins Hv (version_maps_nodup v m 0 Hm) Ha Hb Hg Hne) as Hst.
  assert (start_ok level (level_files v level) (if (0 <? level)%nat then limit_inputs (MaxFileSizeForLevel max_file_size level) 0 ins else ins)) as Hst'.
  { destruct (Nat.ltb_spec 0 level) as [Hlt|]; [|done]. destruct (limit_inputs_take (MaxFileSizeForLevel max_file_size level) ins 0) as (k & Hk & Hkne).
    split; [|by apply Hkne|rewrite Hk; eapply sublist_NoDup; [apply Hst|apply sublist_take]|lia| |intros _; rewrite Hk; eapply StronglySorted_sublist; [apply sublist_take|apply (so_sorted _ _ _ Hst); lia]].
    - rewrite Hk. intros x Hx. apply (so_sub _ _ _ Hst). eapply elem_of_sublist; [exact Hx|apply sublist_take].
    - intros _. rewrite Hk. apply convex_take; [apply (proj2 Hv); lia|apply sublist_filter|apply (so_convex _ _ _ Hst); lia]. }
  destruct (start_compaction_spec owners m vs v level _ Hok Hcur Hv Hlev Hst') as (c & vs' & id & Hsc & Hid & Hok' & Hcur' & Hi & Hcl & Hiv).
  exists (Some c), vs'. split; [destruct ins; [done|]; by rewrite Hsc|]. exists id. rewrite Hcl. done.
Qed.

(** *** Reading the inputs *)

Section reading.
Context (contents : File → list kv) v (Hv : version_ok (uvalid := uvalid) icmp contents v).
Context (Hinj : ∀ a b, uvalid a → uvalid b → Compare ucmp a b = 0 → a = b).

Lemma entries_differ l l' f g a b : f ∈ level_files v l → g ∈ level_files v l' → (l, f) ≠ (l', g) → a ∈ contents f → b ∈ contents g → Compare icmp a.1 b.1 ≠ 0.
Proof using Hv Hinj ComparatorLaws0.
  intros Hf Hg Hne Ha Hb Heq. destruct (holds_bounds contents v Hv f l a Hf Ha) as (Hva & _). destruct (holds_bounds contents v Hv g l' b Hg Hb) as (Hvb & _).
  pose proof (compare_sym icmp a.1 b.1 Hva Hvb) as Hsym. assert (ExtractUserKey a.1 = ExtractUserKey b.1) as Hu.
  { apply Hinj; [apply Hva|apply Hvb|]. assert (Compare icmp a.1 b.1 <= 0) as H1 by lia. assert (Compare icmp b.1 a.1 <= 0) as H2 by lia. apply internal_le in H1, H2. cbv zeta in *.
    pose proof (compare_sym ucmp _ _ (proj2 Hva) (proj2 Hvb)). lia. }
  destruct (Nat.lt_trichotomy l l') as [Hl|[<-|Hl]].
  - pose proof (vo_newer _ _ _ Hv l l' f g a b Hl Hf Hg Ha Hb Hu). lia.
  - destruct (decide (l = 0%nat)) as [->|Hl0].
    + destruct (Z.lt_trichotomy (number f) (number g)) as [Hn|[Hn|Hn]].
      * pose proof (vo_newer0 _ _ _ Hv g f b a Hg Hf Hn Hb Ha (eq_sym Hu)). lia.
      * apply Hne. f_equal. apply list_elem_of_lookup in Hf as [i Hi], Hg as [j Hj].
        assert (i = j) as ->; [|congruence]. apply (NoDup_lookup _ i j (number f) (vo_numbers _ _ _ Hv)); rewrite list_lookup_fmap, ?Hi, ?Hj; cbn; congruence.
      * pose proof (vo_newer0 _ _ _ Hv f g a b Hf Hg Hn Ha Hb Hu). lia.
    + destruct (level_cases (level_files v l) f g) as [->|[Hx|Hx]]; [apply (vo_sorted _ _ _ Hv); lia|done|done|done| |].
      * pose proof (before_entries contents v Hv l l f g a b Hf Hg Ha Hb Hx). lia.
      * pose proof (before_entries contents v Hv l l g f b a Hg Hf Hb Ha Hx). lia.
  - pose proof (vo_newer _ _ _ Hv l' l g f b a Hl Hg Hf Hb Ha (eq_sym Hu)). lia.
Qed.

(** Files with the levels they are in. *)
Notation placed := (Forall (λ x : nat * File, x.2 ∈ level_files v x.1)).

Lemma placed_differ (l : list (nat * File)) : placed l → NoDup l → StronglySorted (λ a b, Compare icmp a.1 b.1 ≠ 0) (mjoin (contents ∘ snd <$> l)).
Proof using Hv Hinj ComparatorLaws0.
  induction l as [|[n f] l IH]; intros Hp Hn; cbn; [constructor|]. apply Forall_cons in Hp as [Hf Hp]. apply NoDup_cons in Hn as [Hnf Hn]. cbn [snd fst] in *.
  apply StronglySorted_app. split; [|split; [|by apply IH]].
  - intros a b Ha (bs & Hb & ([n' g] & -> & Hg)%list_elem_of_fmap)%list_elem_of_join. cbn in Hb. pose proof (proj1 (Forall_forall _ _) Hp _ Hg) as Hgl. cbn in Hgl.
    apply (entries_differ n n' f g a b Hf Hgl); [|done|done]. by intros [= -> ->].
  - destruct (vo_holds _ _ _ Hv n f Hf) as [Hh _]. pose proof (th_sorted _ _ _ Hh) as Hs. clear -Hs. induction Hs as [|x xs Hs IH Hx]; constructor; [done|].
    eapply Forall_impl; [exact Hx|]. cbn. lia.
Qed.

Lemma placed_valid (l : list (nat * File)) : placed l → Forall (λ e, valid e.1) (mjoin (contents ∘ snd <$> l)).
Proof using Hv ComparatorLaws0.
  intros Hp. apply Forall_forall. intros e (es & He & ([n f] & -> & Hf)%list_elem_of_fmap)%list_elem_of_join. apply (proj1 (Forall_forall _ _) Hp) in Hf. cbn in *.
  by destruct (holds_bounds contents v Hv f n e Hf He).
Qed.

Context {J : Type} `{!Iterator J} {RJ : J → list kv → option nat → Prop} `{!IteratorLaws J (Compare icmp) valid RJ} (new_iterator : Z → Z → option J) (fuel : nat).

Definition opens f : Prop :=
  0 <= number f < 2 ^ 64 ∧ 0 <= file_size f < 2 ^ 64 ∧ ∃ it p, new_iterator (number f) (file_size f) = Some it ∧ RJ it (contents f) p.

Notation child := (J + TwoLevelIterator LevelFileNumIterator (EmptyIterator + J))%type.

Definition child_at : child → list kv → option nat → Prop :=
  sum_at (RI := RJ) (RJ := two_level_at (cmp := Compare icmp) (valid := valid) (RI := level_file_at (uvalid := uvalid) icmp)
    (RJ := sum_at (RI := empty_at) (RJ := RJ)) (GetFileIterator new_iterator) fuel).

#[local] Instance child_laws : IteratorLaws (Iterator0 := child_iterator icmp new_iterator fuel) child (Compare icmp) valid child_at.
Proof using IteratorLaws0 ComparatorLaws0.
  pose proof (level_file_laws (uvalid := uvalid) icmp) as Hl.
  apply (sum_laws (Iterator1 := two_level_iterator (Iterator0 := level_file_iterator icmp) (GetFileIterator new_iterator) fuel)).
Qed.

Lemma table_children_at files : Forall opens files →
  ∃ cs, mapM (table_child new_iterator) files = Some cs ∧ each cs (contents <$> files) (λ _ it l, ∃ p, child_at it l p).
Proof using.
  induction files as [|f files IH]; intros Ho; [exists []; split; [done|apply each_nil]|]. apply Forall_cons in Ho as [(_ & _ & it & p & Hit & HR) Ho].
  destruct (IH Ho) as (cs & Hcs & Heach). exists (inl it :: cs). split.
  { cbn [mapM]. assert (table_child new_iterator f = Some (inl it)) as -> by (unfold table_child; by rewrite Hit). cbn [mbind option_bind]. by rewrite Hcs. }
  cbn [fmap list_fmap]. apply each_cons. split; [by exists p|done].
Qed.

Lemma level_child_at files : level_sorted files → Forall (λ f, table_holds (uvalid := uvalid) icmp f (contents f)) files → NoDup (number ∘ f_meta <$> files) → Forall opens files →
  (length files + 1 < fuel)%nat → ∃ ch, level_child icmp files = Some ch ∧ child_at ch (mjoin (contents <$> files)) None.
Proof using IteratorLaws0 ComparatorLaws0.
  intros Hs Hh Hn Ho Hf. destruct (NewConcatenatingIterator_at icmp contents new_iterator files fuel Hs Hh Hn Ho Hf) as (it & Hit & Hat).
  unfold level_child. rewrite Hit. by exists (inr it).
Qed.

(** The children for the inputs of a level. *)
Lemma input_children_at level files : files ⊆ level_files v level → NoDup files → (level ≠ 0%nat → StronglySorted before files) → NoDup (number ∘ f_meta <$> files) →
  Forall opens files → (length files + 1 < fuel)%nat →
  ∃ cs ls, input_children icmp new_iterator level files = Some cs ∧ each cs ls (λ _ it l, ∃ p, child_at it l p) ∧ mjoin ls = mjoin (contents <$> files).
Proof using Hv IteratorLaws0 ComparatorLaws0.
  intros Hsub Hnd Hs Hn Ho Hf. unfold input_children. destruct files as [|f files]; [exists [], []; split; [done|split; [apply each_nil|done]]|]. set (fs := f :: files) in *.
  destruct (Nat.eqb_spec level 0) as [->|Hne]; [destruct (table_children_at fs Ho) as (cs & Hcs & Heach); by exists cs, (contents <$> fs)|].
  assert (∀ x, x ∈ fs → table_holds (uvalid := uvalid) icmp x (contents x) ∧ file_ok x) as Hok by (intros x Hx; by apply (vo_holds _ _ _ Hv level), Hsub).
  destruct (level_child_at fs) as (ch & -> & Hat); [split; [apply Forall_forall; intros x Hx; by apply Hok|by apply Hs]|apply Forall_forall; intros x Hx; by apply Hok|done|done|done|].
  cbn [mbind option_bind]. exists [ch], [mjoin (contents <$> fs)]. split; [done|]. split; [apply each_cons; split; [by exists None|apply each_nil]|]. cbn. by rewrite app_nil_r.
Qed.

(** The merging iterator of a compaction runs over the entries of all its inputs,
    in order. *)
Lemma MakeInputIterator_at c : inputs_ok v (c_level c) (inputs0 c) (inputs1 c) → NoDup (number ∘ f_meta <$> inputs0 c) → NoDup (number ∘ f_meta <$> inputs1 c) →
  Forall opens (inputs0 c ++ inputs1 c) → (length (inputs0 c ++ inputs1 c) + 1 < fuel)%nat →
  ∃ L it p, L ≡ₚ mjoin (contents <$> inputs0 c ++ inputs1 c) ∧ sorted_kvs (Compare icmp) L ∧ Forall (λ e, valid e.1) L ∧
    MakeInputIterator icmp new_iterator fuel c = Some it ∧
    merged_at (cmp := Compare icmp) (valid := valid) (R := child_at) it L p.
Proof using Hv Hinj IteratorLaws0 ComparatorLaws0.
  intros Hi Hn0 Hn1 [Ho0 Ho1]%Forall_app Hf. rewrite length_app in Hf. set (l := ((λ f, (c_level c, f)) <$> inputs0 c) ++ ((λ f, ((c_level c + 1)%nat, f)) <$> inputs1 c)).
  assert (contents ∘ snd <$> l = contents <$> inputs0 c ++ inputs1 c) as Hl by (unfold l; rewrite !fmap_app, <- !list_fmap_compose; done).
  assert (Forall (λ x : nat * File, x.2 ∈ level_files v x.1) l) as Hpl.
  { apply Forall_app. split; apply Forall_fmap, Forall_forall; intros x Hx; cbn; [by apply (so_sub _ _ _ (io_start _ _ _ _ Hi))|by apply (io_sub _ _ _ _ Hi)]. }
  assert (NoDup l) as Hnl.
  { apply NoDup_app. split_and!; [|intros x (f & -> & _)%list_elem_of_fmap (g & [=] & _)%list_elem_of_fmap; lia|]; apply NoDup_fmap_2; [by intros ? ? [=]|apply Hi|by intros ? ? [=]|apply Hi]. }
  pose proof (placed_valid l Hpl) as Hval. pose proof (placed_differ l Hpl Hnl) as Hdiff. rewrite Hl in Hval, Hdiff. destruct (sorted_union _ Hval Hdiff) as (L & HL & Hs). exists L.
  destruct (input_children_at (c_level c) (inputs0 c)) as (cs0 & ls0 & Hc0 & He0 & Hj0); [apply Hi|apply Hi|intros; by apply (so_sorted _ _ _ (io_start _ _ _ _ Hi))|done|done|lia|].
  destruct (input_children_at (c_level c + 1) (inputs1 c)) as (cs1 & ls1 & Hc1 & He1 & Hj1); [apply Hi|apply Hi|intros; apply Hi|done|done|lia|].
  assert (Forall (λ e, valid e.1) L) as HvL by (by rewrite HL). unfold MakeInputIterator. rewrite Hc0, Hc1. cbn [mbind option_bind]. pose proof child_laws as Hlaws.
  destruct (NewMergingIterator_at (Iterator0 := child_iterator icmp new_iterator fuel) (IteratorLaws0 := Hlaws) (cs0 ++ cs1) (ls0 ++ ls1) L) as (it & p & Hm & Hat); [|done|done| |by exists it, p].
  - by apply each_app.
  - by rewrite join_app, Hj0, Hj1, HL, fmap_app, join_app.
Qed.
End reading.

(** ** Claims *)

(** What can be done with a compaction that was picked: its inputs, which stay
    referenced, can be replaced by any disjoint tables with entries of theirs. *)
Definition replaceable (contents : File → list kv) (owners : list nat) m vs v (r : option Compaction) vs' : Prop :=
  match r with
  | None => vs' = vs
  | Some c => picked owners m vs v c vs' ∧
      ∀ outs v', outputs_ok contents (inputs0 c) (inputs1 c) outs → replaces v (c_level c) (inputs0 c) (inputs1 c) outs v' →
        version_ok (uvalid := uvalid) icmp contents v'
  end.

(** C13: compactions pick safe inputs.  Picking by score or by seeks and compacting
    a range both end without an error and leave the current version in place,
    referenced.  If the tables of the inputs are replaced by disjoint tables one
    level down that have only entries of the inputs, the new version is searched
    in the right order again: levels above 0 stay sorted and disjoint, and for
    every user key newer entries are found first. *)
Theorem compaction_inputs_safe (contents : File → list kv) owners m vs v :
  vs_ok owners m vs → current_version (vs_versions vs) = Some v → version_ok (uvalid := uvalid) icmp contents v → can_compact v →
  (∃ r vs', PickCompaction icmp max_file_size vs = Some (r, vs') ∧ replaceable contents owners m vs v r vs') ∧
  ∀ level begin end_, (level + 1 < kNumLevels)%nat → opt_valid (uvalid := uvalid) (InternalKey_user_key <$> begin) → opt_valid (uvalid := uvalid) (InternalKey_user_key <$> end_) →
    ∃ r vs', CompactRange icmp max_file_size level begin end_ vs = Some (r, vs') ∧ replaceable contents owners m vs v r vs'.
Proof.
  intros Hok Hcur Hv Hcc. pose proof (files_of_version contents v Hv) as Hfv.
  assert (∀ r vs', match r with None => vs' = vs | Some c => picked owners m vs v c vs' end → replaceable contents owners m vs v r vs') as Hsafe.
  { intros [c|] vs' Hp; [|done]. split; [done|]. intros outs v' Ho Hr. destruct Hp as (id & _ & _ & _ & _ & _ & Hi). by apply (replaced_ok contents v Hv (c_level c) (inputs0 c) (inputs1 c) outs). }
  split.
  - destruct (PickCompaction_spec owners m vs v Hok Hcur Hfv Hcc) as (r & vs' & Hp & Hr). exists r, vs'. split; [done|by apply Hsafe].
  - intros level begin end_ Hl Hb He. destruct (CompactRange_spec owners m vs v level begin end_ Hok Hcur Hfv Hl Hb He) as (r & vs' & Hp & Hr). exists r, vs'. split; [done|by apply Hsafe].
Qed.
End compaction_proofs.

(** ** Examples *)

(** A set of versions with [version_example]. *)
Definition example_list : VersionList :=
  {| vl_list := [0%nat]; vl_objects := {[0%nat := {| v_version := version_example; v_refs := 1 |}]};
     vl_files := list_to_map ((λ n, (n, {| refs := 1; allowed_seeks := 100 |})) <$> [5; 4; 2]%nat); vl_current := Some 0%nat |}.

Definition compaction_set : VersionSet (E := InMemoryEnv) := set_versions example_list (replicate kNumLevels []) example_set.

Definition example_map : gmap (Z * Z) FileMetaData :=
  list_to_map [((0, 5), f_meta (version_file 5 (str "a") (str "k") 9)); ((0, 4), f_meta (version_file 4 (str "c") (str "k") 5));
               ((1, 2), f_meta (version_file 2 (str "b") (str "k") 3))].

Lemma example_map_lookup l n x : example_map !! (l, n) = Some x ↔
  l = 0 ∧ n = 5 ∧ x = f_meta (version_file 5 (str "a") (str "k") 9) ∨ l = 0 ∧ n = 4 ∧ x = f_meta (version_file 4 (str "c") (str "k") 5) ∨
  l = 1 ∧ n = 2 ∧ x = f_meta (version_file 2 (str "b") (str "k") 3).
Proof.
  unfold example_map. rewrite <- elem_of_list_to_map by (apply (bool_decide_unpack _); reflexivity). rewrite !elem_of_cons, elem_of_nil. naive_solver.
Qed.

Lemma example_maps : version_maps (uvalid := λ _, True) version_icmp version_example example_map.
Proof.
  destruct version_example_files as [Hok _]. split.
  - done.
  - intros l n x. rewrite example_map_lookup. split.
    + intros [(Hl & -> & ->)|[(Hl & -> & ->)|(Hl & -> & ->)]].
      * assert (l = 0%nat) as -> by lia. exists (version_file 5 (str "a") (str "k") 9). split; [left|done].
      * assert (l = 0%nat) as -> by lia. exists (version_file 4 (str "c") (str "k") 5). split; [right; left|done].
      * assert (l = 1%nat) as -> by lia. exists (version_file 2 (str "b") (str "k") 3). split; [left|done].
    + intros (f & Hf & <- & <-). apply version_example_level in Hf as [[-> ->]|[[-> ->]|[-> ->]]]; [left|right; left|right; right]; done.
  - intros l n [x [(-> & _)|[(-> & _)|(-> & _)]]%example_map_lookup]; lia.
  - intros l. do 2 (destruct l as [|l]; [apply (bool_decide_unpack _); reflexivity|]). do 5 (destruct l as [|l]; [apply NoDup_nil_2|]). apply NoDup_nil_2.
  - intros l. do 7 (destruct l as [|l]; [repeat constructor|]). constructor.
  - intros l. eapply Forall_impl; [apply (Hok l)|]. intros f Hf. apply Hf.
Qed.

Lemma compaction_set_ok : vs_ok (uvalid := λ _, True) version_icmp [] example_map compaction_set.
Proof.
  split; [|exists version_example; split; [done|apply example_maps]|done]. split; cbn [compaction_set set_versions vs_versions example_list vl_list vl_objects vl_files vl_current].
  - apply NoDup_singleton.
  - intros id. rewrite list_elem_of_singleton, lookup_singleton_is_Some. naive_solver.
  - intros id o [<- <-]%lookup_singleton_Some. split; [|done]. rewrite decide_True by done. done.
  - by intros id ?%not_elem_of_nil.
  - intros id [= <-]. by rewrite lookup_singleton_eq.
  - intros p. do 6 (destruct p as [|p]; [vm_compute; done|]). unfold example_list. cbn [vl_files app].
    assert (list_to_map ((λ n, (n, {| refs := 1; allowed_seeks := 100 |})) <$> [5; 4; 2]%nat) !! S (S (S (S (S (S p))))) = (None : option FileCounts)) as ->.
    { apply not_elem_of_list_to_map. cbn. rewrite !elem_of_cons, elem_of_nil. lia. }
    done.
Qed.

Lemma compaction_inputs_safe_witness : ∃ c vs', CompactRange version_icmp 2097152 0 None None compaction_set = Some (Some c, vs') ∧
  length (inputs0 c) = 2%nat ∧ length (inputs1 c) = 1%nat ∧ input_version_ c = Some 0%nat.
Proof.
  assert (can_compact version_example) as Hcc by (split; [vm_compute; discriminate|done]).
  destruct (compaction_inputs_safe (uvalid := λ _, True) version_icmp 2097152 version_contents [] example_map compaction_set version_example
    compaction_set_ok eq_refl version_example_ok Hcc) as [_ Hrange].
  destruct (Hrange 0%nat None None) as (r & vs' & Hr & Hs); [apply Nat.ltb_lt; reflexivity|done|done|].
  assert (match CompactRange version_icmp 2097152 0 None None compaction_set with Some (Some c, _) => (length (inputs0 c) =? 2)%nat && (length (inputs1 c) =? 1)%nat | _ => false end = true) as Hc
    by (vm_compute; reflexivity).
  rewrite Hr in Hc. destruct r as [c|]; [|discriminate Hc]. exists c, vs'. split; [exact Hr|]. destruct Hs as [(id & Hid & Hv & _) _].
  apply andb_true_iff in Hc as [H0%Nat.eqb_eq H1%Nat.eqb_eq]. split_and!; [exact H0|exact H1|]. rewrite Hv. symmetry. exact Hid.
Defined.
