(* ===== verification/DropRule.v ===== *)
(** What a compaction keeps (db/db_impl.cc, the decision in
    [DBImpl::DoCompactionWork]): entries hidden at every live snapshot and
    deletion markers with nothing below them go, and no read can tell. *)
From stdpp Require Import sorting gmap.
From S2P Require Import Prelude Coding Double Env FileSystem MemEnv MemFs Comparator DbFormat Iterator Merger TwoLevel VersionEdit Version VersionBuilder VersionSet Compaction.

(** ** The decision *)

(** The local variables of the loop. *)
Record DropState := {
  current_user_key : list byte;
  has_current_user_key : bool;
  last_sequence_for_key : Z;
}.

Definition DropState_new : DropState :=
  {| current_user_key := []; has_current_user_key := false; last_sequence_for_key := kMaxSequenceNumber |}.

Section decision.
Context {C : Type} `{!Comparator C} (icmp : InternalKeyComparator C) (smallest_snapshot : Z).
Notation ucmp := (user_comparator_ icmp).
Implicit Types (c : Compaction) (v : Version) (ds : DropState).

(** Whether the entry is dropped; [v] is the input version. *)
Definition drop_entry v (key : list byte) ds c : option (bool * DropState * Compaction) :=
  match ParseInternalKey key with
  | None => Some (false, DropState_new, c)
  | Some ikey =>
      let ds := if negb (has_current_user_key ds) || negb (Compare ucmp (user_key ikey) (current_user_key ds) =? 0)
                then {| current_user_key := user_key ikey; has_current_user_key := true; last_sequence_for_key := kMaxSequenceNumber |}
                else ds in
      '(drop, c) ← (if last_sequence_for_key ds <=? smallest_snapshot then Some (true, c)
                    else if bool_decide (type ikey = kTypeDeletion) && (sequence ikey <=? smallest_snapshot)
                    then IsBaseLevelForKey icmp (user_key ikey) v c
                    else Some (false, c));
      Some (drop : bool, {| current_user_key := current_user_key ds; has_current_user_key := has_current_user_key ds;
                            last_sequence_for_key := sequence ikey |}, c)
  end.

(** The decision over a sequence of entries: those kept. *)
Fixpoint keep_entries v (l : list kv) ds c : option (list kv * DropState * Compaction) :=
  match l with
  | [] => Some ([], ds, c)
  | e :: l =>
      '(drop, ds, c) ← drop_entry v e.1 ds c;
      '(kept, ds, c) ← keep_entries v l ds c;
      Some (if drop : bool then kept else e :: kept, ds, c)
  end.
End decision.

(** ** Sequence numbers of entries *)

Definition entry_seq (e : kv) : Z := ExtractNum e.1 `div` 256.

Lemma parse_num e p : ParseInternalKey e.1 = Some p →
  user_key p = ExtractUserKey e.1 ∧ sequence p = entry_seq e ∧ ExtractNum e.1 = 256 * entry_seq e + ValueType_num (type p).
Proof.
  intros H. split; [by apply parse_user_key|]. destruct (Nat.ltb_spec (length e.1) 8) as [Hl|Hl].
  { unfold ParseInternalKey in H. by rewrite (proj2 (Nat.ltb_lt _ _) Hl) in H. }
  destruct (internal_key_split _ Hl) as [Hk Hn]. rewrite Hk, ParseInternalKey_app in H by done. unfold entry_seq.
  pose proof (Z.div_mod (ExtractNum e.1) 256 ltac:(lia)) as Hd.
  destruct (Z.eqb_spec (ExtractNum e.1 mod 256) 0); [|destruct (Z.eqb_spec (ExtractNum e.1 mod 256) 1); [|done]]; injection H as <-; cbn [sequence type ValueType_num]; (split; [done|lia]).
Qed.

Section drop_proofs.
Context {C : Type} `{!Comparator C} {uvalid : list byte → Prop} `{!ComparatorLaws C uvalid} (icmp : InternalKeyComparator C).
Context (Hinj : ∀ a b, uvalid a → uvalid b → Compare (user_comparator_ icmp) a b = 0 → a = b).
Notation ucmp := (user_comparator_ icmp).
Notation valid := (valid_key uvalid).
Notation ukey e := (ExtractUserKey (fst e)).
Notation parses := (Forall (λ e : kv, valid e.1 ∧ is_Some (ParseInternalKey e.1))).
Context (smallest_snapshot : Z) (Hsnap : smallest_snapshot < kMaxSequenceNumber).

(** Entries of one user key are ordered by sequence number. *)
Lemma older_seq (a b : kv) : valid a.1 → ukey a = ukey b → is_Some (ParseInternalKey a.1) → is_Some (ParseInternalKey b.1) → Compare icmp a.1 b.1 <= 0 → entry_seq b <= entry_seq a.
Proof using ComparatorLaws0.
  intros [_ Hu] He [p Hp] [q Hq] Hle. apply internal_le in Hle. cbv zeta in Hle. rewrite <- He, compare_refl in Hle by done.
  unfold entry_seq. apply Z.div_le_mono; lia.
Qed.

Lemma visible_seq u s e : uvalid u → 0 <= s <= kMaxSequenceNumber → is_Some (ParseInternalKey e.1) → visible icmp u s e ↔ ukey e = u ∧ entry_seq e <= s.
Proof using ComparatorLaws0.
  intros Hu Hs [p Hp]. unfold visible. destruct (parse_num e p Hp) as (_ & _ & Hn). pose proof (ValueType_num_range (type p)) as Ht.
  rewrite lookup_internal_key_app. destruct (pack_value s kValueTypeForSeek Hs) as [Hpk Hr]. change (ValueType_num kValueTypeForSeek) with 1 in Hpk.
  split; intros [He Hle]; (split; [done|]).
  - apply internal_le in Hle. cbv zeta in Hle. rewrite ExtractUserKey_app, ExtractNum_app, He, compare_refl, u64_small in Hle by done. lia.
  - apply internal_le. cbv zeta. rewrite ExtractUserKey_app, ExtractNum_app, He, compare_refl, u64_small by done. lia.
Qed.

(** *** What is dropped *)

Section entries.
Context (v : Version) (Hfv : version_files_ok (uvalid := uvalid) icmp v) (Hlen : length (files_ v) = kNumLevels) (level : nat).

(** A newer entry of the same user key is visible at the oldest snapshot. *)
Definition hidden (l : list kv) (e : kv) : Prop :=
  ∃ e', e' ∈ l ∧ ukey e' = ukey e ∧ entry_seq e' <= smallest_snapshot ∧ Compare icmp e'.1 e.1 < 0.

(** A deletion marker, visible at the oldest snapshot, of a key no deeper level has. *)
Definition useless_deletion (e : kv) : Prop :=
  (type <$> ParseInternalKey e.1) = Some kTypeDeletion ∧ entry_seq e <= smallest_snapshot ∧
  ∀ l f, (level + 2 ≤ l)%nat → f ∈ level_files v l → ¬ in_file icmp (ukey e) f.

Definition dropped (l : list kv) (e : kv) : Prop := hidden l e ∨ useless_deletion e.

(** The state of the loop after the entries [pre]. *)
Definition drop_state_ok (pre : list kv) (ds : DropState) : Prop :=
  match last pre with
  | None => has_current_user_key ds = false
  | Some e => has_current_user_key ds = true ∧ current_user_key ds = ukey e ∧ last_sequence_for_key ds = entry_seq e
  end.

(** Only the entry just before can hide an entry it is the first to hide. *)
Lemma hidden_last pre e : sorted_kvs (Compare icmp) (pre ++ [e]) → parses (pre ++ [e]) →
  hidden (pre ++ [e]) e ↔ ∃ e', last pre = Some e' ∧ ukey e' = ukey e ∧ entry_seq e' <= smallest_snapshot.
Proof using Hinj ComparatorLaws0.
  clear Hlen. intros Hs Hp. split.
  - intros (e' & He' & Hu & Hseq & Hlt). apply Forall_app in Hp as [Hp [[Hve Hpe] _]%Forall_cons].
    apply elem_of_app in He' as [He'|He']; [|apply list_elem_of_singleton in He' as ->; by rewrite compare_refl in Hlt].
    destruct (last pre) as [d|] eqn:Hd; [|apply last_None in Hd as ->; by apply not_elem_of_nil in He'].
    apply last_Some in Hd as [pre' ->]. exists d. split; [done|].
    apply StronglySorted_app in Hs as (Hcross & Hs & _). assert (Compare icmp d.1 e.1 < 0) as Hde by (apply Hcross; [apply elem_of_app; right; left|left]).
    apply Forall_app in Hp as [Hp [[Hvd Hpd] _]%Forall_cons]. apply elem_of_app in He' as [He'|He']; [|by apply list_elem_of_singleton in He' as ->].
    destruct (proj1 (Forall_forall _ _) Hp e' He') as [Hv' Hp']. apply StronglySorted_app in Hs as (Hc & _ & _).
    assert (Compare icmp e'.1 d.1 < 0) as Hed by (apply Hc; [done|left]).
    assert (ukey d = ukey e) as Hud.
    { apply internal_lt in Hde, Hed. cbv zeta in *. rewrite Hu in Hed. pose proof (compare_sym ucmp _ _ (proj2 Hvd) (proj2 Hve)). apply Hinj; [apply Hvd|apply Hve|lia]. }
    split; [done|]. pose proof (older_seq e' d Hv' ltac:(congruence) Hp' Hpd ltac:(lia)). lia.
  - intros (e' & Hl & Hu & Hseq). exists e'. assert (e' ∈ pre) as Hin by (by apply last_Some_elem_of). split_and!; [apply elem_of_app; by left|done|done|].
    apply StronglySorted_app in Hs as (Hcross & _ & _). apply Hcross; [done|left].
Qed.

(** The decision on one entry. *)
Lemma drop_entry_spec pre e ds c : sorted_kvs (Compare icmp) (pre ++ [e]) → parses (pre ++ [e]) → drop_state_ok pre ds →
  c_level c = level → pointers_ok icmp v (ukey e) (level_ptrs_ c) →
  ∃ (drop : bool) ds' ptrs, drop_entry icmp smallest_snapshot v e.1 ds c = Some (drop, ds', set_level_ptrs ptrs c) ∧
    drop_state_ok (pre ++ [e]) ds' ∧ pointers_ok icmp v (ukey e) ptrs ∧ (drop = true ↔ dropped (pre ++ [e]) e).
Proof using Hinj Hsnap Hfv Hlen ComparatorLaws0.
  intros Hs Hp Hds Hc Hptr. pose proof (hidden_last pre e Hs Hp) as Hhid. pose proof Hp as [Hpre [[[_ Hve] [p Hpe]] _]%Forall_cons]%Forall_app.
  assert (useless_deletion e ↔ type p = kTypeDeletion ∧ entry_seq e <= smallest_snapshot ∧ ∀ l f, (level + 2 ≤ l)%nat → f ∈ level_files v l → ¬ in_file icmp (ukey e) f) as Hus
    by (unfold useless_deletion; rewrite Hpe; cbn; split; intros [Ht ?]; (split; [congruence|done])).
  unfold drop_entry, dropped. rewrite Hpe. destruct (parse_num e p Hpe) as (-> & -> & _). cbn [fmap option_fmap option_map].
  set (ds1 := if _ || _ then _ else ds).
  assert (current_user_key ds1 = ukey e ∧ has_current_user_key ds1 = true ∧ (last_sequence_for_key ds1 <= smallest_snapshot ↔ hidden (pre ++ [e]) e)) as (Hcur & Hhas & Hlast).
  { rewrite Hhid. unfold ds1, drop_state_ok in *. destruct (last pre) as [d|] eqn:Hd.
    - destruct Hds as (Hhc & Hcu & Hsq). rewrite Hhc, Hcu. cbn [negb orb]. destruct (proj1 (Forall_forall _ _) Hpre d (last_Some_elem_of _ _ Hd)) as [[_ Hvd] _].
      destruct (Z.eqb_spec (Compare ucmp (ukey e) (ukey d)) 0) as [Heq|Hne]; cbn [negb current_user_key has_current_user_key last_sequence_for_key].
      + apply Hinj in Heq as Heq; [|done|done]. split_and!; [congruence|done|]. rewrite Hsq. split; [intros Hle; by exists d|by intros (? & [= <-] & _ & ?)].
      + split_and!; [done|done|]. split; [lia|]. intros (? & [= <-] & Hu & _). by rewrite Hu, compare_refl in Hne.
    - rewrite Hds. cbn. split_and!; [done|done|]. split; [lia|by intros (? & ? & _)]. }
  clearbody ds1. clear Hhid. rewrite Hcur, Hhas. set (ds2 := {| last_sequence_for_key := entry_seq e |}).
  assert (drop_state_ok (pre ++ [e]) ds2) as Hst by (unfold drop_state_ok; by rewrite last_snoc).
  assert (c = set_level_ptrs (level_ptrs_ c) c) as Hsame by (by destruct c).
  destruct (Z.leb_spec (last_sequence_for_key ds1) smallest_snapshot) as [Hle|Hgt]; cbn [mbind option_bind].
  { exists true, ds2, (level_ptrs_ c). rewrite <- Hsame. split_and!; try done. split; [|done]. intros _. left. by apply Hlast. }
  assert (¬ hidden (pre ++ [e]) e) as Hnl by (rewrite <- Hlast; lia).
  destruct (bool_decide_reflect (type p = kTypeDeletion)) as [Hdel|Hdel]; [destruct (Z.leb_spec (entry_seq e) smallest_snapshot) as [Hes|Hes]|]; cbn [andb].
  - destruct (IsBaseLevelForKey_spec icmp v (ukey e) c Hfv Hlen Hve Hptr) as (base & ptrs & -> & Hp' & Hb). cbn [mbind option_bind]. exists base, ds2, ptrs.
    split_and!; try done. rewrite Hus, Hb, Hc. tauto.
  - exists false, ds2, (level_ptrs_ c). rewrite <- Hsame. split_and!; try done. split; [done|]. intros [?|(_ & ? & _)%Hus]; [done|lia].
  - exists false, ds2, (level_ptrs_ c). rewrite <- Hsame. split_and!; try done. split; [done|]. intros [?|(? & _)%Hus]; done.
Qed.

(** Exactly the hidden entries and the useless deletion markers are dropped. *)
Lemma keep_entries_spec l pre ds c : sorted_kvs (Compare icmp) (pre ++ l) → parses (pre ++ l) → drop_state_ok pre ds → c_level c = level →
  (∀ e, e ∈ l → pointers_ok icmp v (ukey e) (level_ptrs_ c)) →
  ∃ kept ds' ptrs, keep_entries icmp smallest_snapshot v l ds c = Some (kept, ds', set_level_ptrs ptrs c) ∧
    kept `sublist_of` l ∧ ∀ e, e ∈ l → e ∈ kept ∧ ¬ dropped (pre ++ l) e ∨ e ∉ kept ∧ dropped (pre ++ l) e.
Proof using Hinj Hsnap Hfv Hlen ComparatorLaws0.
  revert pre ds c. induction l as [|e l IH]; intros pre ds c Hs Hp Hds Hc Hptr.
  { exists [], ds, (level_ptrs_ c). split; [by destruct c|]. split; [constructor|]. by intros e ?%not_elem_of_nil. }
  rewrite cons_middle, (assoc_L (++)) in Hs, Hp. pose proof Hs as (Hafter & Hs1 & _)%StronglySorted_app. pose proof Hp as [Hp1 Hpl]%Forall_app.
  assert (∀ x, x ∈ l → Compare icmp e.1 x.1 < 0) as Hex by (intros x Hx; apply Hafter; [apply elem_of_app; right; left|done]).
  assert (valid e.1) as Hve by (apply Forall_app in Hp1 as [_ [[? _] _]%Forall_cons]; done).
  assert (∀ x, x ∈ l → valid x.1) as Hvl by (intros x Hx; by apply (proj1 (Forall_forall _ _) Hpl)).
  assert (hidden (pre ++ e :: l) e ↔ hidden (pre ++ [e]) e) as Hhid.
  { rewrite cons_middle, (assoc_L (++)). split; intros (x & Hx & ? & ? & Hlt); exists x; (split; [|done]); [|apply elem_of_app; by left].
    apply elem_of_app in Hx as [?|Hx]; [done|]. pose proof (Hex x Hx). pose proof (compare_sym icmp e.1 x.1 Hve (Hvl x Hx)). lia. }
  destruct (drop_entry_spec pre e ds c Hs1 Hp1 Hds Hc (Hptr e ltac:(left))) as (drop & ds1 & ptrs & Hd & Hds1 & Hptr1 & Hdrop).
  destruct (IH (pre ++ [e]) ds1 (set_level_ptrs ptrs c) Hs Hp Hds1) as (kept & ds2 & ptrs2 & Hk & Hsub & Hin); [done| |].
  { intros x Hx. cbn [level_ptrs_ set_level_ptrs]. eapply (pointers_later icmp v (ukey e)); [done|apply Hve|by apply Hvl| |done].
    pose proof (Hex x Hx) as Hlt%internal_lt. cbv zeta in Hlt. lia. }
  cbn [keep_entries]. rewrite Hd. cbn [mbind option_bind]. rewrite Hk. cbn [mbind option_bind].
  exists (if drop then kept else e :: kept), ds2, ptrs2. split; [by destruct c|]. split; [destruct drop; by constructor|].
  assert (e ∉ kept) as Hne.
  { intros He. apply (elem_of_sublist _ _ _ He) in Hsub. specialize (Hex e Hsub). by rewrite compare_refl in Hex. }
  intros x [->|Hx]%elem_of_cons.
  - unfold dropped in *. rewrite Hhid. destruct drop; [right|left; rewrite elem_of_cons]; destruct Hdrop as [Hd1 Hd2]; (split; [tauto|]); [tauto|].
    intros ?. assert (false = true) by tauto. done.
  - rewrite cons_middle, (assoc_L (++)). assert (x ∈ (if drop then kept else e :: kept) ↔ x ∈ kept) as ->; [|by apply Hin].
    destruct drop; [done|]. rewrite elem_of_cons. split; [|by right]. intros [->|?]; [|done]. specialize (Hex e Hx). by rewrite compare_refl in Hex.
Qed.
End entries.

(** *** Reads after the compaction *)

Lemma least_entry (P : kv → Prop) `{!∀ e, Decision (P e)} (l : list kv) : Forall (λ e, valid e.1) l →
  (∀ e, e ∈ l → ¬ P e) ∨ ∃ e, e ∈ l ∧ P e ∧ ∀ e', e' ∈ l → P e' → Compare icmp e.1 e'.1 <= 0.
Proof using ComparatorLaws0.
  induction 1 as [|e l He Hl IH]; [left; by intros ? ?%not_elem_of_nil|]. destruct (decide (P e)) as [HP|HP].
  - right. destruct IH as [Hno|(d & Hd & Hpd & Hmin)].
    + exists e. split; [left|]. split; [done|]. intros e' [->|He']%elem_of_cons Hp'; [by rewrite compare_refl|]. by destruct (Hno e').
    + pose proof (proj1 (Forall_forall _ _) Hl d Hd) as Hvd. pose proof (compare_sym icmp e.1 d.1 He Hvd) as Hsym.
      destruct (Z.le_gt_cases (Compare icmp e.1 d.1) 0) as [Hle|Hgt]; [exists e|exists d]; (split; [by constructor|]); (split; [done|]); intros e' [->|He']%elem_of_cons Hp'.
      * by rewrite compare_refl.
      * apply (compare_trans icmp e.1 d.1); [done|done|by apply (proj1 (Forall_forall _ _) Hl)|done|by apply Hmin].
      * lia.
      * by apply Hmin.
  - destruct IH as [Hno|(d & Hd & Hpd & Hmin)].
    + left. intros e' [->|He']%elem_of_cons; [done|by apply Hno].
    + right. exists d. split; [by right|]. split; [done|]. intros e' [->|He']%elem_of_cons ?; [done|by apply Hmin].
Qed.

Section version.
Context (contents : File → list kv) (v : Version) (Hv : version_ok (uvalid := uvalid) icmp contents v).

Lemma newest_or_none u s : uvalid u → (∀ l f e, f ∈ level_files v l → e ∈ contents f → ¬ visible icmp u s e) ∨
  ∃ l f e, newest_visible icmp contents v u s l f e.
Proof using Hv ComparatorLaws0.
  intros Hu. assert (∀ e, Decision (visible icmp u s e)) as Hdec by (intros; unfold visible; apply _).
  assert (∀ e, e ∈ mjoin (contents <$> mjoin (files_ v)) ↔ ∃ l f, f ∈ level_files v l ∧ e ∈ contents f) as Hall.
  { intros e. rewrite list_elem_of_join. split.
    - intros (x & He & (f & -> & (fs & Hf & [l Hl]%list_elem_of_lookup)%list_elem_of_join)%list_elem_of_fmap). exists l, f. split; [|done]. unfold level_files. by rewrite Hl.
    - intros (l & f & Hf & He). exists (contents f). split; [done|]. apply list_elem_of_fmap_2, list_elem_of_join. unfold level_files in Hf.
      destruct (files_ v !! l) as [fs|] eqn:Hl; [|by apply not_elem_of_nil in Hf]. exists fs. split; [done|]. by eapply list_elem_of_lookup_2. }
  destruct (least_entry (visible icmp u s) (mjoin (contents <$> mjoin (files_ v)))) as [Hno|(e & He & Hvis & Hmin)].
  - apply Forall_forall. intros e (l & f & Hf & He)%Hall. by apply (holds_bounds icmp contents v Hv f l e).
  - left. intros l f e Hf He. apply Hno, Hall. by exists l, f.
  - right. apply Hall in He as (l & f & Hf & He). exists l, f, e. split_and!; try done. intros l' f' e' Hf' He' Hvis'. apply Hmin; [|done]. apply Hall. by exists l', f'.
Qed.

(** The entries in the files of a key are in the range of the file. *)
Lemma entry_in_file l f e : f ∈ level_files v l → e ∈ contents f → in_file icmp (ukey e) f.
Proof using Hv ComparatorLaws0.
  intros Hf He. destruct (holds_bounds icmp contents v Hv f l e Hf He) as (_ & H1%internal_le & H2%internal_le). cbv zeta in *. split; lia.
Qed.

Context (level : nat) (in0 in1 outs : list File) (v' : Version) (L kept : list kv).
Context (Hi : inputs_ok icmp v level in0 in1) (HL : L ≡ₚ mjoin (contents <$> in0 ++ in1)) (HsL : sorted_kvs (Compare icmp) L).
Context (Hkept : ∀ e, e ∈ L → e ∈ kept ∧ ¬ dropped v level L e ∨ e ∉ kept ∧ dropped v level L e).
Context (Hout : ∀ e, e ∈ kept ↔ ∃ o, o ∈ outs ∧ e ∈ contents o) (Hsub : kept ⊆ L).
Context (Hr : replaces icmp v level in0 in1 outs v').

Lemma input_entry e : e ∈ L ↔ ∃ f, f ∈ in0 ++ in1 ∧ e ∈ contents f.
Proof using HL.
  rewrite HL, list_elem_of_join. split; [intros (x & He & (f & -> & Hf)%list_elem_of_fmap); by exists f|].
  intros (f & Hf & He). exists (contents f). split; [done|by apply list_elem_of_fmap_2].
Qed.

(** An entry is an input's, or its file stays. *)
Lemma entry_after e : (∃ l f, f ∈ level_files v' l ∧ e ∈ contents f) ↔ e ∈ kept ∨
  ∃ l f, f ∈ level_files v l ∧ ¬ (l = level ∧ f ∈ in0) ∧ ¬ (l = (level + 1)%nat ∧ f ∈ in1) ∧ e ∈ contents f.
Proof using Hr Hout.
  rewrite Hout. split.
  - intros (l & f & Hf & He). apply (rp_files _ _ _ _ _ _ _ Hr) in Hf as [(Hf & H0 & H1)|[_ Hf]]; [right; by exists l, f|left; by exists f].
  - intros [(o & Ho & He)|(l & f & Hf & H0 & H1 & He)]; [exists (level + 1)%nat, o|exists l, f]; (split; [|done]); apply (rp_files _ _ _ _ _ _ _ Hr); [by right|by left].
Qed.

Lemma input_place f : f ∈ in0 ++ in1 → ∃ l, f ∈ level_files v l ∧ (l = level ∧ f ∈ in0 ∨ l = (level + 1)%nat ∧ f ∈ in1).
Proof using Hi.
  intros [Hf|Hf]%elem_of_app; [exists level|exists (level + 1)%nat]; (split; [|by auto]); [by apply (so_sub _ _ _ _ (io_start _ _ _ _ _ Hi))|by apply (io_sub _ _ _ _ _ Hi)].
Qed.

Lemma entry_before e : (∃ l f, f ∈ level_files v' l ∧ e ∈ contents f) → ∃ l f, f ∈ level_files v l ∧ e ∈ contents f.
Proof using Hi HL Hr Hout Hsub.
  intros [Hk|(l & f & Hf & _ & _ & He)]%entry_after; [|by exists l, f]. apply Hsub, input_entry in Hk as (f & Hf & He).
  apply input_place in Hf as (l & Hl & _). by exists l, f.
Qed.

(** A file that stays and has an entry of the user key of an input's is searched
    before it, or is deep. *)
Lemma stays_cases l g f e e' : g ∈ level_files v l → ¬ (l = level ∧ g ∈ in0) → ¬ (l = (level + 1)%nat ∧ g ∈ in1) → f ∈ in0 ++ in1 →
  e ∈ contents f → e' ∈ contents g → ukey e = ukey e' → (level + 2 ≤ l)%nat ∨ Compare icmp e'.1 e.1 < 0.
Proof using Hv Hi ComparatorLaws0.
  clear Hkept Hout. intros Hg H0 H1 Hf He He' Hu. destruct (input_place f Hf) as (lf & Hlf & Hplace).
  destruct (decide (level + 2 ≤ l)%nat) as [|Hl]; [by left|]. right. destruct (decide (l < lf)%nat) as [Hlt|Hge].
  { by apply (vo_newer _ _ _ Hv l lf g f e' e). }
  assert (l = level ∧ f ∈ in0 ∧ g ∉ in0 ∨ l = (level + 1)%nat ∧ g ∉ in1) as [(-> & Hf0 & Hg0)|[-> Hg1]] by (destruct Hplace as [[-> ?]|[-> ?]]; destruct (decide (l = level)); [left|right|lia|right]; split_and!; try done; try lia; naive_solver lia).
  - assert (lf = level) as -> by (destruct Hplace as [[-> ?]|[-> ?]]; lia). destruct (io_newer _ _ _ _ _ Hi f g Hf0 Hg Hg0) as [Hb|Hno].
    + by apply (before_entries icmp contents v Hv level level g f).
    + destruct Hno. by apply (entries_share icmp contents v Hv level level g f e' e).
  - destruct (io_aside _ _ _ _ _ Hi g Hg Hg1) as [Hb|Hb].
    + apply (before_entries icmp contents v Hv (level + 1) lf g f); [done|done|done|done|by apply Hb].
    + exfalso. specialize (Hb f Hf). destruct (entry_in_file lf f e Hlf He) as [_ H2], (entry_in_file _ g e' Hg He') as [H3 _].
      destruct (holds_bounds icmp contents v Hv f lf e Hlf He) as ([_ Hue] & _). destruct (vo_holds _ _ _ Hv lf f Hlf) as [_ Hfo], (vo_holds _ _ _ Hv _ g Hg) as [_ Hgo].
      rewrite <- Hu in H3. pose proof (compare_le_lt_trans ucmp _ _ _ Hue (proj2 (fo_large _ _ Hfo)) (proj2 (fo_small _ _ Hgo)) H2 Hb).
      pose proof (compare_sym ucmp _ _ Hue (proj2 (fo_small _ _ Hgo))). lia.
Qed.

(** The newest visible entry stays, or it is a deletion marker and nothing
    visible stays. *)
Lemma newest_kept u s l f e : uvalid u → smallest_snapshot <= s <= kMaxSequenceNumber → 0 <= s → newest_visible icmp contents v u s l f e →
  (∃ l' f', newest_visible icmp contents v' u s l' f' e) ∨
  (type <$> ParseInternalKey e.1) = Some kTypeDeletion ∧ ∀ l' f' e', f' ∈ level_files v' l' → e' ∈ contents f' → ¬ visible icmp u s e'.
Proof using Hv Hinj Hi HL HsL Hkept Hout Hsub Hr ComparatorLaws0.
  intros Hu Hss Hs (Hf & He & Hvis & Hmin).
  assert (∀ x, (∃ l f, f ∈ level_files v l ∧ x ∈ contents f) → is_Some (ParseInternalKey x.1) ∧ valid x.1 ∧ (visible icmp u s x → Compare icmp e.1 x.1 <= 0)) as Hx.
  { intros x (lx & fx & Hfx & Hx). split_and!; [by apply (vo_parse _ _ _ Hv lx fx)|by apply (holds_bounds icmp contents v Hv fx lx)|by apply (Hmin lx fx)]. }
  destruct (Hx e ltac:(by exists l, f)) as (Hpe & Hve & _). pose proof (proj1 (visible_seq u s e Hu ltac:(lia) Hpe) Hvis) as [Hue Hse].
  assert (∀ x, x ∈ L → ∃ l f, f ∈ level_files v l ∧ x ∈ contents f) as HLv.
  { intros x (fx & Hfx & Hx')%input_entry. apply input_place in Hfx as (lx & ? & _). by exists lx, fx. }
  assert (∀ l' f', f' ∈ level_files v' l' → e ∈ contents f' → newest_visible icmp contents v' u s l' f' e) as Hstay.
  { intros l' f' Hf' He'. split_and!; try done. intros l'' f'' x Hf'' Hx'' Hvx. apply Hx; [|done]. apply entry_before. by exists l'', f''. }
  destruct (decide (f ∈ in0 ++ in1)) as [Hfin|Hfin]; [destruct (Hkept e) as [[Hek _]|[Hek [Hhid|Hdel]]]; [apply input_entry; by exists f|..]|].
  - left. destruct (proj2 (entry_after e) (or_introl Hek)) as (l' & f' & ? & ?). exists l', f'. by apply Hstay.
  - exfalso. destruct Hhid as (x & Hxl & Hux & Hsx & Hlt). destruct (Hx x (HLv x Hxl)) as (Hpx & Hvx & Hle).
    pose proof (compare_sym icmp _ _ Hve Hvx). enough (Compare icmp e.1 x.1 <= 0) by lia. apply Hle, visible_seq; [done|lia|done|]. split; [congruence|lia].
  - right. destruct Hdel as (Hty & Hss' & Hdeep). split; [done|]. intros l' f' x Hf' Hx' Hvx.
    destruct (Hx x (entry_before x ltac:(by exists l', f'))) as (Hpx & Hvlx & Hle). specialize (Hle Hvx). pose proof (proj1 (visible_seq u s x Hu ltac:(lia) Hpx) Hvx) as [Hux _].
    destruct (proj1 (entry_after x) ltac:(by exists l', f')) as [Hxk|(lx & fx & Hfx & H0 & H1 & Hxf)].
    + assert (x ∈ L) as HxL by (by apply Hsub). assert (e ∈ L) as HeL by (apply input_entry; by exists f). destruct (Hkept x HxL) as [[_ Hnd]|[? _]]; [|done].
      apply Hnd. left. exists e. split_and!; [done|congruence|done|]. assert (e ≠ x) as Hne by congruence.
      apply list_elem_of_lookup in HeL as [i Hi'], HxL as [j Hj]. destruct (Nat.lt_trichotomy i j) as [Hij|[<-|Hij]]; [by apply (sorted_lookup L i j)|congruence|].
      pose proof (sorted_lookup L j i x e HsL Hj Hi' Hij). pose proof (compare_sym icmp _ _ Hve Hvlx). lia.
    + destruct (stays_cases lx fx f e x Hfx H0 H1 Hfin He Hxf ltac:(congruence)) as [Hdp|Hlt].
      * apply (Hdeep lx fx Hdp Hfx). replace (ukey e) with (ukey x) by congruence. by apply (entry_in_file lx).
      * pose proof (compare_sym icmp _ _ Hve Hvlx). lia.
  - left. destruct (proj2 (entry_after e)) as (l' & f' & ? & ?); [|exists l', f'; by apply Hstay].
    right. exists l, f. split_and!; [done| | |done]; intros [_ ?]; apply Hfin, elem_of_app; auto.
Qed.
End version.

(** Only the entries of the version's own files matter. *)
Lemma version_ok_ext (contents contents' : File → list kv) (v : Version) : (∀ l f, f ∈ level_files v l → contents f = contents' f) →
  version_ok (uvalid := uvalid) icmp contents v → version_ok (uvalid := uvalid) icmp contents' v.
Proof.
  intros Heq [H1 H2 H3 H4 H5 H6]. split.
  - intros l f Hf. rewrite <- (Heq l f Hf). by apply (H1 l).
  - intros l f e Hf He. rewrite <- (Heq l f Hf) in He. by apply (H2 l f).
  - done.
  - done.
  - intros f g a b Hf Hg Hn Ha Hb. rewrite <- (Heq 0%nat f Hf) in Ha. rewrite <- (Heq 0%nat g Hg) in Hb. by apply (H5 f g).
  - intros i j f g a b Hij Hf Hg Ha Hb. rewrite <- (Heq i f Hf) in Ha. rewrite <- (Heq j g Hg) in Hb. by apply (H6 i j f g).
Qed.

(** ** Claims *)

(** C12: compactions preserve reads.  For inputs that were picked safely, the loop
    decides on every entry without an error, and keeps a subsequence of the merged
    entries.  Once tables with exactly the entries kept replace the inputs, a
    lookup at any snapshot from the oldest live one on gives the same status and
    value as before, for every user key: dropping overwritten entries and deletion
    markers cannot be observed. *)
Theorem compaction_preserves_reads (contents : File → list kv) (v : Version) (c : Compaction) (L : list kv) :
  version_ok (uvalid := uvalid) icmp contents v → length (files_ v) = kNumLevels →
  inputs_ok icmp v (c_level c) (inputs0 c) (inputs1 c) → level_ptrs_ c = replicate kNumLevels 0%nat →
  L ≡ₚ mjoin (contents <$> inputs0 c ++ inputs1 c) → sorted_kvs (Compare icmp) L →
  ∃ kept ds c', keep_entries icmp smallest_snapshot v L DropState_new c = Some (kept, ds, c') ∧ kept `sublist_of` L ∧
  ∀ outs v', outputs_ok (uvalid := uvalid) icmp contents (inputs0 c) (inputs1 c) outs → (∀ e, e ∈ kept ↔ ∃ o, o ∈ outs ∧ e ∈ contents o) →
    replaces icmp v (c_level c) (inputs0 c) (inputs1 c) outs v' →
  ∀ u s table_get value, uvalid u → 0 <= s → smallest_snapshot <= s <= kMaxSequenceNumber →
    (∀ l f, f ∈ level_files v l ∨ f ∈ level_files v' l → reads_table icmp contents table_get u s f) →
  ∃ r stats stats', Version_Get icmp table_get v (LookupKey_new u s) value = Some (r, stats) ∧
    Version_Get icmp table_get v' (LookupKey_new u s) value = Some (r, stats').
Proof using Hinj Hsnap ComparatorLaws0.
  intros Hv Hlen Hi Hptr HL HsL. pose proof (files_of_version icmp contents v Hv) as Hfv.
  assert (parses L) as Hp.
  { apply Forall_forall. intros e (f & Hf & He)%(input_entry contents (inputs0 c) (inputs1 c) L HL). destruct (input_place v (c_level c) _ _ Hi f Hf) as (l & Hl & _).
    split; [by apply (holds_bounds icmp contents v Hv f l)|by apply (vo_parse _ _ _ Hv l f)]. }
  destruct (keep_entries_spec v Hfv Hlen (c_level c) L [] DropState_new c) as (kept & ds & ptrs & Hk & Hsub & Hkept);
    [done|done|done|done|intros e _; rewrite Hptr; apply pointers_start|].
  exists kept, ds, (set_level_ptrs ptrs c). split; [done|]. split; [done|]. intros outs v' Ho Hout Hr u s table_get value Hu Hs Hss Hget.
  assert (kept ⊆ L) as Hsub' by (intros e He; by eapply elem_of_sublist).
  pose proof (replaced_ok icmp contents v Hv (c_level c) (inputs0 c) (inputs1 c) outs v' Hi Hr Ho) as Hv'.
  assert (∀ l f, f ∈ level_files v l → reads_table icmp contents table_get u s f) as Hg by (intros; eapply Hget; by left).
  assert (∀ l f, f ∈ level_files v' l → reads_table icmp contents table_get u s f) as Hg' by (intros; eapply Hget; by right).
  destruct (newest_or_none contents v Hv u s Hu) as [Hno|(l & f & e & Hn)].
  - destruct (get_nothing icmp contents v Hv Hinj table_get u s Hu Hg value Hno) as [st Hst].
    destruct (get_nothing icmp contents v' Hv' Hinj table_get u s Hu Hg' value) as [st' Hst']; [|by exists (NotFound [], value), st, st'].
    intros l f e Hf He. destruct (entry_before contents v (c_level c) _ _ outs v' L kept Hi HL Hout Hsub' Hr e) as (l1 & f1 & Hf1 & He1); [by exists l, f|by apply (Hno l1 f1)].
  - pose proof Hn as (Hf & He & _). destruct (vo_parse _ _ _ Hv l f e Hf He) as [p Hpe].
    destruct (get_newest icmp contents v Hv Hinj table_get u s Hu Hg l f e p value Hn Hpe) as [st Hst].
    destruct (newest_kept contents v Hv (c_level c) _ _ outs v' L kept Hi HL HsL Hkept Hout Hsub' Hr u s l f e Hu Hss Hs Hn) as [(l' & f' & Hn')|[Hty Hno]].
    + destruct (get_newest icmp contents v' Hv' Hinj table_get u s Hu Hg' l' f' e p value Hn' Hpe) as [st' Hst']. eauto.
    + destruct (get_nothing icmp contents v' Hv' Hinj table_get u s Hu Hg' value Hno) as [st' Hst']. exists (NotFound [], value), st, st'. split; [|done].
      rewrite Hpe in Hty. injection Hty as Hty. by rewrite Hty in Hst.
Qed.
End drop_proofs.

(** ** Examples *)

Definition drop_entries : list kv :=
  [(version_key (str "a") 9, str "x"); (version_key (str "b") 3, str "x"); (version_key (str "c") 5, str "x");
   (version_key (str "k") 9, EncodeFixed32 5); (version_key (str "k") 5, EncodeFixed32 4); (version_key (str "k") 3, EncodeFixed32 2)].

(** The output of compacting all of [version_example] at snapshot 5. *)
Definition drop_output : File :=
  {| f_ptr := 7; f_meta := {| number := 7; file_size := 100; smallest := InternalKey_new (str "a") 9 kTypeValue; largest := InternalKey_new (str "k") 5 kTypeValue |} |}.

Definition drop_contents (f : File) : list kv := if decide (f = drop_output) then take 5 drop_entries else version_contents f.

Definition drop_table_get (f : File) (k : list byte) : option (Status * option kv) :=
  Some (Status_OK, drop_contents f !! lower_bound (Compare version_icmp) k (drop_contents f)).

Definition drop_compaction : Compaction :=
  set_inputs (level_files version_example 0) (level_files version_example 1) (Compaction_new 2097152 0).

Definition drop_version : Version :=
  {| files_ := [[]; [drop_output]; []; []; []; []; []]; file_to_compact_ := None; file_to_compact_level_ := -1; compaction_score_ := double_of_Z (-1); compaction_level_ := -1 |}.

Lemma drop_contents_same l f : f ∈ level_files version_example l → drop_contents f = version_contents f.
Proof. intros Hf. unfold drop_contents. rewrite decide_False; [done|]. intros ->. by version_cases. Qed.

Lemma drop_example_ok : version_ok (uvalid := λ _, True) version_icmp drop_contents version_example.
Proof. apply (version_ok_ext _ version_contents); [intros l f Hf; symmetry; by apply (drop_contents_same l)|apply version_example_ok]. Qed.

Lemma drop_inputs_ok : inputs_ok version_icmp version_example 0 (level_files version_example 0) (level_files version_example 1).
Proof.
  split.
  - split; [done|done|apply (bool_decide_unpack _); reflexivity|done|done|done].
  - by intros f g Hf Hg Hng.
  - done.
  - apply NoDup_singleton.
  - repeat constructor.
  - by intros g Hg Hng.
Qed.

Lemma drop_outputs_ok : outputs_ok (uvalid := λ _, True) version_icmp drop_contents (level_files version_example 0) (level_files version_example 1) [drop_output].
Proof.
  split.
  - intros o ->%list_elem_of_singleton. split.
    + split; [repeat constructor| |by eexists|by eexists]. repeat constructor; apply Nat.leb_le; reflexivity.
    + split; try (vm_compute; discriminate); split; first [done|apply Nat.leb_le; reflexivity].
  - intros o e ->%list_elem_of_singleton He.
    assert (∀ x, x ∈ take 5 drop_entries → ∃ f, f ∈ level_files version_example 0 ++ level_files version_example 1 ∧ x ∈ drop_contents f) as Hall; [|by apply Hall].
    apply Forall_forall. repeat constructor; apply Exists_exists; apply (bool_decide_unpack _); vm_compute; reflexivity.
  - intros o o' ->%list_elem_of_singleton ->%list_elem_of_singleton. by left.
Qed.

Lemma drop_replaces : replaces version_icmp version_example 0 (level_files version_example 0) (level_files version_example 1) [drop_output] drop_version.
Proof.
  split.
  - intros l f. destruct l as [|[|l]].
    { split; [by intros ?%not_elem_of_nil|]. intros [(Hf & H0 & _)|[? _]]; [by destruct H0|lia]. }
    { split; [intros Hf; by right|]. intros [(Hf & _ & H1)|[_ ?]]; [by destruct H1|done]. }
    split; [|intros [[Hf _]|[? _]]; [by version_cases|lia]].
    intros Hf. exfalso. unfold level_files in Hf. cbn in Hf. do 5 (destruct l as [|l]; [by apply not_elem_of_nil in Hf|]). by apply not_elem_of_nil in Hf.
  - intros l. do 7 (destruct l as [|l]; [apply (bool_decide_unpack _); reflexivity|]). apply NoDup_nil_2.
  - intros l. do 7 (destruct l as [|l]; [repeat constructor|]). constructor.
Qed.

Lemma compaction_preserves_reads_witness :
  ∃ r stats stats', Version_Get version_icmp drop_table_get version_example (LookupKey_new (str "k") 6) [] = Some (r, stats) ∧
    Version_Get version_icmp drop_table_get drop_version (LookupKey_new (str "k") 6) [] = Some (r, stats').
Proof.
  assert (∀ a b, True → True → Compare (user_comparator_ version_icmp) a b = 0 → a = b) as Hinj by (intros a b _ _; apply slice_compare_eq).
  destruct (compaction_preserves_reads (uvalid := λ _, True) version_icmp Hinj 5 ltac:(reflexivity) drop_contents version_example drop_compaction drop_entries
    drop_example_ok eq_refl drop_inputs_ok eq_refl) as (kept & ds & c' & Hk & _ & Hreads).
  - apply (bool_decide_unpack _). vm_compute. reflexivity.
  - repeat constructor.
  - assert (Some (take 5 drop_entries) = Some kept) as [= <-].
    { transitivity (fst ∘ fst <$> keep_entries version_icmp 5 version_example drop_entries DropState_new drop_compaction); [vm_compute; reflexivity|by rewrite Hk]. }
    apply (Hreads [drop_output] drop_version drop_outputs_ok); [|apply drop_replaces|done|lia|vm_compute; split; discriminate|].
    + intros e. split; [intros He; exists drop_output; split; [left|done]|by intros (o & ->%list_elem_of_singleton & He)].
    + intros l f _. eexists. split; [done|]. split; [by right|done].
Defined.
