(* ===== verification/DbImpl.v ===== *)
(** The database object (db/db_impl.cc, db/db_impl.h, db/snapshot.h): its state,
    snapshots, background errors and scheduling, and the loop that makes room for
    writes. *)
From stdpp Require Import gmap.
From S2P Require Import Prelude Env FileSystem Comparator DbFormat Filename LogFormat SkipList Arena MemTable WriteBatch VersionEdit Version VersionBuilder VersionSet.

(** ** Snapshots *)

(** [SnapshotImpl] objects, oldest first: the list between [head_.next_] and
    [head_.prev_]. *)
Record SnapshotImpl := { snap_id : nat; sequence_number_ : Z }.

Record SnapshotList := { snaps : list SnapshotImpl; snap_next : nat }.

Definition SnapshotList_new : SnapshotList := {| snaps := []; snap_next := 0%nat |}.

Definition snapshots_empty (l : SnapshotList) : bool := bool_decide (snaps l = []).

(** [None] where an assertion fails. *)
Definition oldest (l : SnapshotList) : option SnapshotImpl := head (snaps l).
Definition newest_snapshot (l : SnapshotList) : option SnapshotImpl := last (snaps l).

Definition SnapshotList_New (sequence_number : Z) (l : SnapshotList) : option (SnapshotImpl * SnapshotList) :=
  let snapshot := {| snap_id := snap_next l; sequence_number_ := sequence_number |} in
  if match newest_snapshot l with Some s => sequence_number_ s <=? sequence_number | None => true end
  then Some (snapshot, {| snaps := snaps l ++ [snapshot]; snap_next := S (snap_next l) |})
  else None.

(** Unlinking an object that is not in a list is undefined. *)
Definition SnapshotList_Delete (id : nat) (l : SnapshotList) : option SnapshotList :=
  if decide (id ∈ snap_id <$> snaps l)
  then Some {| snaps := filter (λ s, snap_id s ≠ id) (snaps l); snap_next := snap_next l |}
  else None.

(** ** The database *)

(** [DBImpl::ManualCompaction], without the storage its keys point into. *)
Record ManualCompaction := {
  mc_level : nat;
  mc_done : bool;
  mc_begin : option InternalKey;
  mc_end : option InternalKey;
}.

Section dbimpl.
Context {C : Type} `{!Comparator C} (icmp : InternalKeyComparator C) (new_array : list piece → Z → Z).
Context {E : Type} `{!FileSystem E} (dbname : list byte) (write_buffer_size : Z).

(** The memtables are objects at addresses, counted by their references;
    [has_imm_] says whether [imm_] is null.  [log_] is the log writer's place in
    its block; it writes to [logfile_]. *)
Record DBImpl := {
  db_env : E;
  db_versions : VersionSet (E := E);
  db_mems : gmap nat (MemTable C);
  db_next_mem : nat;
  db_mem : option nat;
  db_imm : option nat;
  db_logfile : option (WFile E);
  db_log : option nat;
  db_logfile_number : Z;
  db_pending_outputs : gset Z;
  db_bg_error : Status;
  db_scheduled : bool;
  db_shutting_down : bool;
  db_manual : option ManualCompaction;
  db_snapshots : SnapshotList;
  db_tmp_batch : WriteBatch;
}.
Implicit Types db : DBImpl.

(** The environment and the versions. *)
Definition set_env (e : E) (vs : VersionSet (E := E)) db : DBImpl :=
  {| db_env := e; db_versions := vs; db_mems := db_mems db; db_next_mem := db_next_mem db; db_mem := db_mem db; db_imm := db_imm db;
     db_logfile := db_logfile db; db_log := db_log db; db_logfile_number := db_logfile_number db; db_pending_outputs := db_pending_outputs db;
     db_bg_error := db_bg_error db; db_scheduled := db_scheduled db; db_shutting_down := db_shutting_down db; db_manual := db_manual db;
     db_snapshots := db_snapshots db; db_tmp_batch := db_tmp_batch db |}.

Definition set_mems (mems : gmap nat (MemTable C)) (next : nat) (mem imm : option nat) db : DBImpl :=
  {| db_env := db_env db; db_versions := db_versions db; db_mems := mems; db_next_mem := next; db_mem := mem; db_imm := imm;
     db_logfile := db_logfile db; db_log := db_log db; db_logfile_number := db_logfile_number db; db_pending_outputs := db_pending_outputs db;
     db_bg_error := db_bg_error db; db_scheduled := db_scheduled db; db_shutting_down := db_shutting_down db; db_manual := db_manual db;
     db_snapshots := db_snapshots db; db_tmp_batch := db_tmp_batch db |}.

Definition set_logfile (file : option (WFile E)) (log : option nat) (number : Z) db : DBImpl :=
  {| db_env := db_env db; db_versions := db_versions db; db_mems := db_mems db; db_next_mem := db_next_mem db; db_mem := db_mem db; db_imm := db_imm db;
     db_logfile := file; db_log := log; db_logfile_number := number; db_pending_outputs := db_pending_outputs db;
     db_bg_error := db_bg_error db; db_scheduled := db_scheduled db; db_shutting_down := db_shutting_down db; db_manual := db_manual db;
     db_snapshots := db_snapshots db; db_tmp_batch := db_tmp_batch db |}.

(** The pending outputs, the background error, the schedule and the manual compaction. *)
Definition set_background (pending : gset Z) (s : Status) (scheduled : bool) (manual : option ManualCompaction) db : DBImpl :=
  {| db_env := db_env db; db_versions := db_versions db; db_mems := db_mems db; db_next_mem := db_next_mem db; db_mem := db_mem db; db_imm := db_imm db;
     db_logfile := db_logfile db; db_log := db_log db; db_logfile_number := db_logfile_number db; db_pending_outputs := pending;
     db_bg_error := s; db_scheduled := scheduled; db_shutting_down := db_shutting_down db; db_manual := manual;
     db_snapshots := db_snapshots db; db_tmp_batch := db_tmp_batch db |}.

Definition set_client (snapshots : SnapshotList) (tmp : WriteBatch) (shutting_down : bool) db : DBImpl :=
  {| db_env := db_env db; db_versions := db_versions db; db_mems := db_mems db; db_next_mem := db_next_mem db; db_mem := db_mem db; db_imm := db_imm db;
     db_logfile := db_logfile db; db_log := db_log db; db_logfile_number := db_logfile_number db; db_pending_outputs := db_pending_outputs db;
     db_bg_error := db_bg_error db; db_scheduled := db_scheduled db; db_shutting_down := shutting_down; db_manual := db_manual db;
     db_snapshots := snapshots; db_tmp_batch := tmp |}.

Definition DBImpl_new (e : E) : option DBImpl :=
  vs ← VersionSet_new;
  Some {| db_env := e; db_versions := vs; db_mems := ∅; db_next_mem := 0%nat; db_mem := None; db_imm := None; db_logfile := None; db_log := None;
          db_logfile_number := 0; db_pending_outputs := ∅; db_bg_error := Status_OK; db_scheduled := false; db_shutting_down := false;
          db_manual := None; db_snapshots := SnapshotList_new; db_tmp_batch := WriteBatch_new |}.

(** *** Memtables *)

(** [new MemTable(internal_comparator_)], referenced. *)
Definition new_memtable db : nat * DBImpl :=
  (db_next_mem db, set_mems (<[db_next_mem db := MemTable_Ref (MemTable_new new_array icmp)]> (db_mems db)) (S (db_next_mem db)) (db_mem db) (db_imm db) db).

Definition ref_memtable (id : nat) db : option DBImpl :=
  m ← db_mems db !! id; Some (set_mems (<[id := MemTable_Ref m]> (db_mems db)) (db_next_mem db) (db_mem db) (db_imm db) db).

Definition unref_memtable (id : nat) db : option DBImpl :=
  m ← db_mems db !! id;
  Some (set_mems (match MemTable_Unref m with Some m => <[id := m]> (db_mems db) | None => delete id (db_mems db) end)
          (db_next_mem db) (db_mem db) (db_imm db) db).

(** *** Snapshots of the database *)

Definition GetSnapshot db : option (SnapshotImpl * DBImpl) :=
  '(s, l) ← SnapshotList_New (vs_last_sequence_ (db_versions db)) (db_snapshots db);
  Some (s, set_client l (db_tmp_batch db) (db_shutting_down db) db).

Definition ReleaseSnapshot (id : nat) db : option DBImpl :=
  l ← SnapshotList_Delete id (db_snapshots db); Some (set_client l (db_tmp_batch db) (db_shutting_down db) db).

(** The oldest sequence number a compaction must keep readable. *)
Definition smallest_snapshot db : option Z :=
  if snapshots_empty (db_snapshots db) then Some (vs_last_sequence_ (db_versions db))
  else sequence_number_ <$> oldest (db_snapshots db).

(** *** Background work *)

Definition RecordBackgroundError (s : Status) db : DBImpl :=
  if ok (db_bg_error db) then set_background (db_pending_outputs db) s (db_scheduled db) (db_manual db) db else db.

Definition MaybeScheduleCompaction db : option DBImpl :=
  if db_scheduled db then Some db
  else if db_shutting_down db then Some db
  else if negb (ok (db_bg_error db)) then Some db
  else
    needed ← NeedsCompaction (db_versions db);
    if bool_decide (db_imm db = None) && bool_decide (db_manual db = None :> option ManualCompaction) && negb needed then Some db
    else Some (set_background (db_pending_outputs db) (db_bg_error db) true (db_manual db) db).

(** *** Room for writes *)

(** How an iteration of the loop of [MakeRoomForWrite] ends: out of the loop,
    asleep, waiting for background work, or with a new memtable. *)
Inductive Room := HasRoom (s : Status) | Delay | WaitForBackground | NewMemTable.

(** Switching to a new memtable and log. *)
Definition switch_memtable db : option (Room * DBImpl) :=
  let '(new_log_number, vs) := NewFileNumber (db_versions db) in
  '(e, lfile, s) ← fs_NewWritableFile (LogFileName dbname new_log_number) (db_env db);
  if negb (ok s) then Some (HasRoom s, set_env e (ReuseFileNumber new_log_number vs) db)
  else
    lfile ← lfile;
    logfile ← db_logfile db;
    '(e, s) ← fs_Close logfile e;
    let db := if ok s then db else RecordBackgroundError s db in
    e ← fs_delete_writable logfile e;
    let db := set_logfile (Some lfile) (Some 0%nat) new_log_number (set_env e vs db) in
    let '(id, db) := new_memtable db in
    let db := set_mems (db_mems db) (db_next_mem db) (Some id) (db_mem db) db in
    db ← MaybeScheduleCompaction db;
    Some (NewMemTable, db).

(** An iteration of the loop. *)
Definition MakeRoom (allow_delay force : bool) db : option (Room * DBImpl) :=
  if negb (ok (db_bg_error db)) then Some (HasRoom (db_bg_error db), db)
  else
    level0 ← NumLevelFiles 0 (db_versions db);
    id ← db_mem db;
    mem ← db_mems db !! id;
    if allow_delay && (kL0_SlowdownWritesTrigger <=? level0) then Some (Delay, db)
    else if negb force && (ApproximateMemoryUsage mem <=? write_buffer_size) then Some (HasRoom Status_OK, db)
    else if bool_decide (is_Some (db_imm db)) then Some (WaitForBackground, db)
    else if kL0_StopWritesTrigger <=? level0 then Some (WaitForBackground, db)
    else if vs_prev_log_number_ (db_versions db) =? 0 then switch_memtable db else None.
(** ** Lemmas *)

Lemma MaybeScheduleCompaction_cases db db' : MaybeScheduleCompaction db = Some db' →
  db' = db ∨ db' = set_background (db_pending_outputs db) (db_bg_error db) true (db_manual db) db.
Proof.
  unfold MaybeScheduleCompaction. destruct (db_scheduled db); [intros [= <-]; by left|]. destruct (db_shutting_down db); [intros [= <-]; by left|].
  destruct (negb (ok (db_bg_error db))); [intros [= <-]; by left|]. intros (needed & _ & H)%bind_Some. destruct (_ && negb needed); injection H as <-; [by left|by right].
Qed.
End dbimpl.
