(* ===== verification/DbWrite.v ===== *)
(** Writes (db/db_impl.cc: [DBImpl::Write], [BuildBatchGroup], [MakeRoomForWrite]):
    the queue of writers, group commit, and the threads that wait in it. *)
From stdpp Require Import gmap.
From S2P Require Import Prelude Env FileSystem Comparator DbFormat Filename LogFormat SkipList Arena MemTable WriteBatch VersionEdit Version VersionBuilder VersionSet DbImpl.

(** ** Definitions *)

(** Where a thread is in [Write]: waiting on its condition variable; signalled,
    about to test the condition; in the loop of [MakeRoomForWrite], asleep there
    or waiting for background work there; writing the group with the mutex
    released; done with that; returned. *)
Inductive Position :=
  | Waiting
  | Notified
  | MakingRoom (allow_delay force : bool)
  | Sleeping (force : bool)
  | RoomWaiting (allow_delay force : bool)
  | Logging (write_batch : WriteBatch) (is_tmp : bool) (last_sequence : Z) (last_writer : nat)
  | Logged (is_tmp : bool) (s : Status) (sync_error : bool) (last_sequence : Z) (last_writer : nat)
  | Returned (s : Status).

(** [DBImpl::Writer] and its thread. *)
Record Writer := {
  w_batch : option WriteBatch;
  w_sync : bool;
  w_status : Status;
  w_done : bool;
  w_at : Position;
}.

Definition move_to (p : Position) (w : Writer) : Writer :=
  {| w_batch := w_batch w; w_sync := w_sync w; w_status := w_status w; w_done := w_done w; w_at := p |}.

(** [cv.Signal()]. *)
Definition Signal (w : Writer) : Writer := match w_at w with Waiting => move_to Notified w | _ => w end.

(** [ready->status = status; ready->done = true; ready->cv.Signal()]. *)
Definition finish_writer (s : Status) (w : Writer) : Writer :=
  Signal {| w_batch := w_batch w; w_sync := w_sync w; w_status := s; w_done := true; w_at := w_at w |}.

(** The loop of [BuildBatchGroup] over the writers after the first. *)
Fixpoint group_loop (first : Writer) (first_batch : WriteBatch) (max_size : Z) (rest : list (nat * Writer)) (size : Z)
    (result : WriteBatch) (is_tmp : bool) (tmp : WriteBatch) (last_writer : nat) : option (WriteBatch * bool * nat) :=
  match rest with
  | [] => Some (result, is_tmp, last_writer)
  | (id, w) :: rest =>
      if w_sync w && negb (w_sync first) then Some (result, is_tmp, last_writer)
      else
        match w_batch w with
        | None => group_loop first first_batch max_size rest size result is_tmp tmp id
        | Some b =>
            let size := size + ByteSize b in
            if max_size <? size then Some (result, is_tmp, last_writer)
            else
              result ← (if is_tmp then Some result
                        else n ← Count tmp; if n =? 0 then WriteBatch_Append tmp first_batch else None);
              result ← WriteBatch_Append result b;
              group_loop first first_batch max_size rest size result true tmp id
        end
  end.

Definition group_limit (size : Z) : Z := if size <=? Z.shiftl 128 10 then size + Z.shiftl 128 10 else Z.shiftl 1 20.

(** The batch, whether it is [tmp_batch_], and the last writer of the group. *)
Definition BuildBatchGroup (writers : list (nat * Writer)) (tmp : WriteBatch) : option (WriteBatch * bool * nat) :=
  match writers with
  | [] => None
  | (id, first) :: rest =>
      first_batch ← w_batch first;
      let size := ByteSize first_batch in
      group_loop first first_batch (group_limit size) rest size first_batch false tmp id
  end.

Section write.
Context {C : Type} `{!Comparator C} (icmp : InternalKeyComparator C) (new_array : list piece → Z → Z).
Context {E : Type} `{!FileSystem E} (dbname : list byte) (write_buffer_size : Z).
Notation DBImpl := (DBImpl (C := C) (E := E)).

(** The database, the queue [writers_] and the threads. *)
Record System := {
  sy_db : DBImpl;
  sy_writers : list nat;
  sy_threads : gmap nat Writer;
}.
Implicit Types (sy : System) (t : nat).

Definition set_thread t (w : Writer) sy : System :=
  {| sy_db := sy_db sy; sy_writers := sy_writers sy; sy_threads := <[t := w]> (sy_threads sy) |}.

(** The condition of [while (!w.done && &w != writers_.front())] and what follows. *)
Definition wait_test t (w : Writer) sy : System :=
  set_thread t (move_to (if w_done w then Returned (w_status w)
                         else if bool_decide (head (sy_writers sy) = Some t)
                         then let force := bool_decide (w_batch w = None) in MakingRoom (negb force) force
                         else Waiting) w) sy.

(** A thread calls [Write]. *)
Definition Write_call t (updates : option WriteBatch) (sync : bool) sy : option System :=
  match sy_threads sy !! t with
  | Some _ => None
  | None =>
      let w := {| w_batch := updates; w_sync := sync; w_status := Status_OK; w_done := false; w_at := Notified |} in
      Some (wait_test t w {| sy_db := sy_db sy; sy_writers := sy_writers sy ++ [t]; sy_threads := sy_threads sy |})
  end.

(** The loop that takes the group off the queue. *)
Fixpoint pop_group t (s : Status) (last_writer : nat) (writers : list nat) (threads : gmap nat Writer) : option (list nat * gmap nat Writer) :=
  match writers with
  | [] => None
  | ready :: writers =>
      threads ← (if decide (ready = t) then Some threads
                 else w ← threads !! ready; Some (<[ready := finish_writer s w]> threads));
      if decide (ready = last_writer) then Some (writers, threads) else pop_group t s last_writer writers threads
  end.

(** From there to the end of [Write]. *)
Definition finish_write t (s : Status) (last_writer : nat) sy : option System :=
  '(writers, threads) ← pop_group t s last_writer (sy_writers sy) (sy_threads sy);
  let threads := match writers with [] => threads | front :: _ => alter Signal front threads end in
  Some {| sy_db := sy_db sy; sy_writers := writers; sy_threads := alter (move_to (Returned s)) t threads |}.

(** [log_->AddRecord], [logfile_->Sync] and [InsertInto], with the mutex released. *)
Definition log_group (write_batch : WriteBatch) (sync : bool) (db : DBImpl) : option (Status * bool * DBImpl) :=
  logfile ← db_logfile db;
  offset ← db_log db;
  '(log, s) ← AddRecord (Contents write_batch) (open_log logfile offset (db_env db));
  '(e, logfile) ← dest_ log;
  let offset := block_offset_ log in
  '(e, s, sync_error) ← (if ok s && sync then '(e, s) ← fs_Sync logfile e; Some (e, s, negb (ok s)) else Some (e, s, false));
  let db := set_logfile (Some logfile) (Some offset) (db_logfile_number db) (set_env e (db_versions db) db) in
  if ok s
  then id ← db_mem db;
       mem ← db_mems db !! id;
       '(mem, s) ← InsertInto new_array write_batch mem;
       Some (s, sync_error, set_mems (<[id := mem]> (db_mems db)) (db_next_mem db) (db_mem db) (db_imm db) db)
  else Some (s, sync_error, db).

Definition with_db (db : DBImpl) sy : System := {| sy_db := db; sy_writers := sy_writers sy; sy_threads := sy_threads sy |}.

(** A group of more than one batch is built in [tmp_batch_]. *)
Definition store_group (is_tmp : bool) (write_batch : WriteBatch) (db : DBImpl) : DBImpl :=
  if is_tmp then set_client (db_snapshots db) write_batch (db_shutting_down db) db else db.

(** What [Write] does when [MakeRoomForWrite] has returned. *)
Definition start_group t (w : Writer) (s : Status) (sy : System) : option System :=
  let last_sequence := vs_last_sequence_ (db_versions (sy_db sy)) in
  match w_batch w with
  | Some _ =>
      if ok s
      then writers ← mapM (λ id, w ← sy_threads sy !! id; Some (id, w)) (sy_writers sy);
           '(write_batch, is_tmp, last_writer) ← BuildBatchGroup writers (db_tmp_batch (sy_db sy));
           let write_batch := SetSequence write_batch (u64 (last_sequence + 1)) in
           n ← Count write_batch;
           Some (set_thread t (move_to (Logging write_batch is_tmp (u64 (last_sequence + n)) last_writer) w) (with_db (store_group is_tmp write_batch (sy_db sy)) sy))
      else finish_write t s t sy
  | None => finish_write t s t sy
  end.

(** A step of a thread that can run. *)
Definition run t sy : option System :=
  w ← sy_threads sy !! t;
  match w_at w with
  | Notified => Some (wait_test t w sy)
  | MakingRoom allow_delay force =>
      '(r, db) ← MakeRoom icmp new_array dbname write_buffer_size allow_delay force (sy_db sy);
      let sy := with_db db sy in
      match r with
      | HasRoom s => start_group t w s sy
      | Delay => Some (set_thread t (move_to (Sleeping force) w) sy)
      | WaitForBackground => Some (set_thread t (move_to (RoomWaiting allow_delay force) w) sy)
      | NewMemTable => Some (set_thread t (move_to (MakingRoom allow_delay false) w) sy)
      end
  | Sleeping force => Some (set_thread t (move_to (MakingRoom false force) w) sy)
  | Logging write_batch is_tmp last_sequence last_writer =>
      '(s, sync_error, db) ← log_group write_batch (w_sync w) (sy_db sy);
      Some (set_thread t (move_to (Logged is_tmp s sync_error last_sequence last_writer) w) (with_db db sy))
  | Logged is_tmp s sync_error last_sequence last_writer =>
      let db := if sync_error then RecordBackgroundError s (sy_db sy) else sy_db sy in
      let db := store_group is_tmp WriteBatch_Clear db in
      vs ← VersionSet_SetLastSequence last_sequence (db_versions db);
      finish_write t s last_writer (with_db (set_env (db_env db) vs db) sy)
  | Waiting | RoomWaiting _ _ | Returned _ => None
  end.

(** A waiting thread wakes: [background_work_finished_signal_.SignalAll()] wakes
    the one in [MakeRoomForWrite]; a condition variable may also wake a thread for
    no reason. *)
Definition wake (w : Writer) : Writer :=
  match w_at w with
  | Waiting => move_to Notified w
  | RoomWaiting allow_delay force => move_to (MakingRoom allow_delay force) w
  | _ => w
  end.

Definition background_signal (w : Writer) : Writer :=
  match w_at w with RoomWaiting allow_delay force => move_to (MakingRoom allow_delay force) w | _ => w end.

(** What other threads may change while the mutex is not held: not the current
    memtable, the log or the numbers a writer owns. *)
Record others (db db' : DBImpl) : Prop := {
  ot_mem : db_mem db' = db_mem db;
  ot_table id : db_mem db = Some id → db_mems db' !! id = db_mems db !! id;
  ot_logfile : db_logfile db' = db_logfile db;
  ot_log : db_log db' = db_log db;
  ot_number : db_logfile_number db' = db_logfile_number db;
  ot_tmp : db_tmp_batch db' = db_tmp_batch db;
  ot_sequence : vs_last_sequence_ (db_versions db') = vs_last_sequence_ (db_versions db);
  ot_error : ok (db_bg_error db) = false → db_bg_error db' = db_bg_error db;
}.

#[export] Instance WriteBatch_eq_dec : EqDecision WriteBatch.
Proof. solve_decision. Defined.

Inductive Label := Call (t : nat) (updates : option WriteBatch) (sync : bool) | Run (t : nat) | Wake (t : nat) | Background.

#[export] Instance Label_eq_dec : EqDecision Label.
Proof. solve_decision. Defined.

Inductive step : Label → System → System → Prop :=
  | step_call t updates sync sy sy' : Write_call t updates sync sy = Some sy' → step (Call t updates sync) sy sy'
  | step_run t sy sy' : run t sy = Some sy' → step (Run t) sy sy'
  | step_wake t sy : step (Wake t) sy {| sy_db := sy_db sy; sy_writers := sy_writers sy; sy_threads := alter wake t (sy_threads sy) |}
  | step_background sy db' : others (sy_db sy) db' →
      step Background sy {| sy_db := db'; sy_writers := sy_writers sy; sy_threads := background_signal <$> sy_threads sy |}.

Inductive reachable : System → Prop :=
  | reachable_start db : reachable {| sy_db := db; sy_writers := []; sy_threads := ∅ |}
  | reachable_step l sy sy' : reachable sy → step l sy sy' → reachable sy'.
End write.

(** ** The queue *)

Section queue_proofs.
Context {C : Type} `{!Comparator C} (icmp : InternalKeyComparator C) (new_array : list piece → Z → Z).
Context {E : Type} `{!FileSystem E} (dbname : list byte) (write_buffer_size : Z).
Notation System := (System (C := C) (E := E)).
Notation run := (run icmp new_array dbname write_buffer_size).
Notation step := (step icmp new_array dbname write_buffer_size).
Notation reachable := (reachable icmp new_array dbname write_buffer_size).
Implicit Types (sy : System) (t : nat) (w : Writer).

(** The places only the front of the queue can be in; those of a group being
    written know its last writer. *)
Definition leads (queue : list nat) (p : Position) : Prop :=
  match p with
  | Notified | MakingRoom _ _ | Sleeping _ | RoomWaiting _ _ => True
  | Logging _ _ _ last_writer | Logged _ _ _ _ last_writer => last_writer ∈ queue
  | Waiting | Returned _ => False
  end.

(** The first writer is not waiting for a signal; the others wait, or have been
    signalled; a writer off the queue has its result and is not waiting. *)
Definition writer_ok (queue : list nat) t w : Prop :=
  if decide (head queue = Some t) then w_done w = false ∧ leads queue (w_at w)
  else if decide (t ∈ queue) then w_done w = false ∧ (w_at w = Waiting ∨ w_at w = Notified)
  else w_done w = true ∧ w_at w = Notified ∨ ∃ s, w_at w = Returned s.

Record queue_ok sy : Prop := {
  qo_nodup : NoDup (sy_writers sy);
  qo_threads t : t ∈ sy_writers sy → is_Some (sy_threads sy !! t);
  qo_writer t w : sy_threads sy !! t = Some w → writer_ok (sy_writers sy) t w;
}.

Lemma writer_front queue t w : head queue = Some t → writer_ok queue t w ↔ w_done w = false ∧ leads queue (w_at w).
Proof. intros H. unfold writer_ok. by rewrite decide_True. Qed.

Lemma writer_queued queue t w : head queue ≠ Some t → t ∈ queue → writer_ok queue t w ↔ w_done w = false ∧ (w_at w = Waiting ∨ w_at w = Notified).
Proof. intros H1 H2. unfold writer_ok. by rewrite decide_False, decide_True. Qed.

Lemma writer_gone queue t w : t ∉ queue → writer_ok queue t w ↔ w_done w = true ∧ w_at w = Notified ∨ ∃ s, w_at w = Returned s.
Proof. intros H. unfold writer_ok. rewrite decide_False by (intros Hh%head_Some_elem_of; done). by rewrite decide_False. Qed.

Lemma leads_mono queue queue' p : queue ⊆ queue' → leads queue p → leads queue' p.
Proof. intros H. destruct p; cbn; auto. Qed.

(** Changing one writer. *)
Lemma set_thread_ok t w sy : queue_ok sy → is_Some (sy_threads sy !! t) → writer_ok (sy_writers sy) t w → queue_ok (set_thread t w sy).
Proof.
  intros [H1 H2 H3] Ht Hw. split; cbn [set_thread sy_writers sy_threads]; [done| |].
  - intros t' Ht'. destruct (decide (t = t')) as [->|Hne]; [by rewrite lookup_insert_eq|]. rewrite lookup_insert_ne by done. by apply H2.
  - intros t' w' [[<- <-]|[Hne Hl]]%lookup_insert_Some; [done|by apply H3].
Qed.

(** Waking writers. *)
Lemma wake_ok queue t w : writer_ok queue t w → writer_ok queue t (wake w) ∧ writer_ok queue t (background_signal w) ∧ writer_ok queue t (Signal w).
Proof.
  unfold writer_ok, wake, background_signal, Signal. destruct (decide (head queue = Some t)); [|destruct (decide (t ∈ queue))].
  - intros [Hd Hl]. destruct (w_at w) eqn:Hat; cbn [leads move_to w_done w_at] in *; rewrite ?Hat; by split_and!.
  - intros [Hd [Hat|Hat]]; rewrite Hat; cbn [move_to w_done w_at]; rewrite ?Hat; split_and!; auto.
  - intros [[Hd Hat]|[s Hat]]; rewrite !Hat; split_and!; eauto.
Qed.

Lemma map_threads_ok (f : nat → Writer → Writer) db sy threads : queue_ok sy →
  (∀ t w, writer_ok (sy_writers sy) t w → writer_ok (sy_writers sy) t (f t w)) →
  (∀ t, threads !! t = f t <$> sy_threads sy !! t) → queue_ok {| sy_db := db; sy_writers := sy_writers sy; sy_threads := threads |}.
Proof.
  intros [H1 H2 H3] Hf Ht. split; cbn [sy_writers sy_threads]; [done| |].
  - intros t [w Hw]%H2. rewrite Ht, Hw. by eexists.
  - intros t w Hw. rewrite Ht in Hw. apply fmap_Some in Hw as (w' & Hw' & ->). by apply Hf, H3.
Qed.

Lemma wait_test_ok t w sy : queue_ok sy → sy_threads sy !! t = Some w → w_at w = Notified → queue_ok (wait_test t w sy).
Proof.
  intros Hq Hw Hat. apply set_thread_ok; [done|by eexists|]. pose proof (qo_writer _ Hq t w Hw) as Hok. unfold writer_ok in *.
  destruct (decide (head (sy_writers sy) = Some t)) as [Hh|Hh]; [|destruct (decide (t ∈ sy_writers sy)) as [Hin|Hin]].
  - destruct Hok as [Hd _]. rewrite Hd, bool_decide_true by done. by cbn.
  - destruct Hok as [Hd _]. rewrite Hd, bool_decide_false by done. split; [done|by left].
  - destruct Hok as [[Hd _]|[s Hr]]; [|congruence]. rewrite Hd. right. by eexists.
Qed.

(** *** Taking a group off the queue *)

Lemma pop_group_spec t s last_writer queue : ∀ threads, NoDup queue → last_writer ∈ queue → (∀ id, id ∈ queue → is_Some (threads !! id)) →
  ∃ group rest threads', queue = group ++ rest ∧ last group = Some last_writer ∧ pop_group t s last_writer queue threads = Some (rest, threads') ∧
    ∀ id, threads' !! id = if decide (id ∈ group ∧ id ≠ t) then finish_writer s <$> threads !! id else threads !! id.
Proof.
  induction queue as [|r queue IH]; intros threads Hnd Hin Hth; [by apply not_elem_of_nil in Hin|].
  apply NoDup_cons in Hnd as [Hr Hnd]. cbn [pop_group].
  assert (∃ threads1, (if decide (r = t) then Some threads else w ← threads !! r; Some (<[r := finish_writer s w]> threads)) = Some threads1 ∧
    ∀ id, threads1 !! id = if decide (id = r ∧ id ≠ t) then finish_writer s <$> threads !! id else threads !! id) as (threads1 & -> & H1).
  { destruct (decide (r = t)) as [->|Hrt]; [exists threads; split; [done|]; intros id; by rewrite decide_False by naive_solver|].
    destruct (Hth r ltac:(left)) as [w Hw]. rewrite Hw. eexists. split; [done|]. intros id. destruct (decide (id = r)) as [->|Hne].
    - by rewrite lookup_insert_eq, decide_True, Hw.
    - by rewrite lookup_insert_ne, decide_False by naive_solver. }
  cbn [mbind option_bind]. destruct (decide (r = last_writer)) as [->|Hne].
  - exists [last_writer], queue, threads1. split_and!; [done|done|done|]. intros id. rewrite H1. apply decide_ext. by rewrite list_elem_of_singleton.
  - destruct (IH threads1 Hnd) as (group & rest & threads' & -> & Hlast & Hp & Ht).
    + apply elem_of_cons in Hin as [?|?]; [congruence|done].
    + intros id Hid. rewrite H1. assert (is_Some (threads !! id)) as [w Hw] by (apply Hth; by right). rewrite Hw. destruct (decide _); by eexists.
    + exists (r :: group), rest, threads'. split_and!; [done| |done|].
      * destruct group as [|x group]; [done|]. exact Hlast.
      * intros id. rewrite Ht, H1. destruct (decide (id ∈ group ∧ id ≠ t)) as [[Hg Ht']|Hng].
        -- rewrite decide_False by (intros [-> _]; apply Hr, elem_of_app; by left). rewrite decide_True; [done|]. split; [by right|done].
        -- destruct (decide (id = r ∧ id ≠ t)) as [[-> ?]|Hnr].
           ++ rewrite decide_True; [done|]. split; [left|done].
           ++ rewrite decide_False; [done|]. intros [[->|?]%elem_of_cons ?]; naive_solver.
Qed.

Lemma finish_write_ok t s last_writer sy : queue_ok sy → head (sy_writers sy) = Some t → last_writer ∈ sy_writers sy →
  ∃ group rest sy', sy_writers sy = group ++ rest ∧ finish_write t s last_writer sy = Some sy' ∧ sy_writers sy' = rest ∧ last group = Some last_writer ∧ t ∈ group ∧ t ∉ rest ∧
    queue_ok sy' ∧ sy_db sy' = sy_db sy ∧ (∀ id, id ∈ group → ∃ w, sy_threads sy' !! id = Some w ∧
      if decide (id = t) then w_at w = Returned s else w_done w = true ∧ w_status w = s).
Proof.
  intros [Hnd Hth Hwr] Hhd Hlast. destruct (pop_group_spec t s last_writer _ (sy_threads sy) Hnd Hlast Hth) as (group & rest & threads' & Hq & Hlg & Hp & Ht).
  destruct group as [|t' group']; [done|]. rewrite Hq in Hhd. injection Hhd as ->. set (group := t :: group') in *.
  rewrite Hq in Hnd. pose proof Hnd as (_ & Hcross & Hndr)%NoDup_app.
  unfold finish_write. rewrite Hp. cbn [mbind option_bind]. set (threads2 := match rest with [] => threads' | _ => _ end).
  assert (∀ id, threads2 !! id = (if decide (head rest = Some id) then Signal else (λ w, w)) <$> threads' !! id) as H2.
  { intros id. unfold threads2. destruct rest as [|r rest']; cbn [head]; [rewrite decide_False by done; by rewrite option_fmap_id|].
    destruct (decide (id = r)) as [->|Hne]; [rewrite lookup_alter_eq, decide_True; done|]. rewrite lookup_alter_ne, decide_False by congruence. by rewrite option_fmap_id. }
  eexists group, rest, _. split; [done|]. split; [reflexivity|]. cbn [sy_writers sy_threads sy_db].
  assert (t ∉ rest) as Htr by (apply Hcross; left).
  assert (∀ id w, id ∈ group → id ≠ t → sy_threads sy !! id = Some w → w_done w = false ∧ (w_at w = Waiting ∨ w_at w = Notified)) as Hgrp.
  { intros id w Hid Hne Hw. apply Hwr, writer_queued in Hw; [done| |]; rewrite Hq; [unfold group; cbn; congruence|apply elem_of_app; by left]. }
  assert (∀ id, (alter (move_to (Returned s)) t threads2) !! id =
    if decide (id = t) then move_to (Returned s) <$> sy_threads sy !! t
    else if decide (id ∈ group) then finish_writer s <$> sy_threads sy !! id
    else (if decide (head rest = Some id) then Signal else (λ w, w)) <$> sy_threads sy !! id) as Hall.
  { intros id. destruct (decide (id = t)) as [->|Hne].
    - rewrite lookup_alter_eq, H2, Ht. rewrite (decide_False (P := head rest = Some t)) by (intros Hx%head_Some_elem_of; done). rewrite decide_False by naive_solver. by rewrite option_fmap_id.
    - rewrite lookup_alter_ne, H2, Ht by done. destruct (decide (id ∈ group)) as [Hid|Hid].
      + rewrite (decide_True (P := id ∈ group ∧ id ≠ t)) by done. rewrite decide_False; [by rewrite option_fmap_id|]. intros Hx%head_Some_elem_of. by apply (Hcross id).
      + by rewrite (decide_False (P := id ∈ group ∧ id ≠ t)) by naive_solver. }
  split_and!; [done|done|left|done| |done|].
  - split; cbn [sy_writers sy_threads]; [done| |].
    + intros id Hid. rewrite Hall. destruct (decide (id = t)) as [->|?]; [done|]. destruct (Hth id) as [w Hw]; [rewrite Hq; apply elem_of_app; by right|]. rewrite Hw. destruct (decide _); by eexists.
    + intros id w. rewrite Hall. destruct (decide (id = t)) as [->|Hne].
      { intros (w' & _ & ->)%fmap_Some. apply writer_gone; [done|]. right. by exists s. }
      destruct (decide (id ∈ group)) as [Hid|Hid].
      { intros (w' & Hw' & ->)%fmap_Some. apply writer_gone; [by apply Hcross|]. left. destruct (Hgrp id w' Hid Hne Hw') as [_ Hat].
        unfold finish_writer, Signal. cbn. destruct Hat as [Hat|Hat]; by rewrite Hat. }
      intros (w' & Hw' & ->)%fmap_Some. pose proof (Hwr id w' Hw') as Hok. destruct (decide (id ∈ rest)) as [Hir|Hir].
      * apply writer_queued in Hok as [Hd Hat]; [|rewrite Hq; unfold group; cbn; congruence|rewrite Hq; apply elem_of_app; by right].
        destruct (decide (head rest = Some id)) as [Hh|Hh]; [apply writer_front|apply writer_queued]; try done. unfold Signal. destruct Hat as [Hat|Hat]; rewrite Hat; cbn; by rewrite ?Hat.
      * rewrite decide_False by (intros Hx%head_Some_elem_of; done). apply writer_gone; [done|]. apply writer_gone in Hok; [done|]. rewrite Hq. intros [?|?]%elem_of_app; done.
  - intros id Hid. rewrite Hall. destruct (Hth id) as [w Hw]; [rewrite Hq; apply elem_of_app; by left|]. destruct (decide (id = t)) as [->|Hne].
    + rewrite Hw. eexists. split; done.
    + rewrite decide_True, Hw by done. eexists. split; [done|]. unfold finish_writer, Signal. cbn. by destruct (w_at w).
Qed.
(** *** Steps *)

Lemma group_loop_last first fb max rest : ∀ size result is_tmp tmp last_writer b tmp' last',
  group_loop first fb max rest size result is_tmp tmp last_writer = Some (b, tmp', last') → last' = last_writer ∨ last' ∈ rest.*1.
Proof.
  induction rest as [|[id w] rest IH]; intros size result is_tmp tmp last_writer b tmp' last'; cbn [group_loop]; [intros [= _ _ <-]; by left|].
  destruct (_ && _); [intros [= _ _ <-]; by left|]. destruct (w_batch w) as [wb|].
  - cbv zeta. destruct (_ <? _); [intros [= _ _ <-]; by left|]. intros (r1 & _ & (r2 & _ & H)%bind_Some)%bind_Some. apply IH in H as [->|H]; right; [left|by right].
  - intros H. apply IH in H as [->|H]; right; [left|by right].
Qed.

Lemma queued_writers (threads : gmap nat Writer) queue writers : mapM (λ id, w ← threads !! id; Some (id, w)) queue = Some writers →
  writers.*1 = queue ∧ Forall (λ x : nat * Writer, threads !! x.1 = Some x.2) writers.
Proof.
  intros H%mapM_Some_1. induction H as [|id [id' w] queue writers Hx _ [IH1 IH2]]; [done|]. apply bind_Some in Hx as (w' & Hw & [= <- <-]). cbn. split; [by f_equal|by constructor].
Qed.

Lemma BuildBatchGroup_last (threads : gmap nat Writer) queue writers tmp b is_tmp last_writer :
  mapM (λ id, w ← threads !! id; Some (id, w)) queue = Some writers → BuildBatchGroup writers tmp = Some (b, is_tmp, last_writer) → last_writer ∈ queue.
Proof.
  intros [<- _]%queued_writers. unfold BuildBatchGroup. destruct writers as [|[id w] rest]; [done|]. intros (fb & _ & H)%bind_Some.
  apply group_loop_last in H as [->|H]; cbn; [left|by right].
Qed.

(** The thread that leads stays at the front until its group is done. *)
Definition led sy t : Prop := head (sy_writers sy) = Some t.
#[local] Instance led_dec sy t : Decision (led sy t) := decide (head (sy_writers sy) = Some t).

Lemma start_group_ok t w s sy sy' : queue_ok sy → led sy t → sy_threads sy !! t = Some w → start_group t w s sy = Some sy' →
  queue_ok sy' ∧ (sy_writers sy' = sy_writers sy ∧ (∃ b tmp seq lw, sy_threads sy' !! t = Some (move_to (Logging b tmp seq lw) w)) ∨
    (∃ group, group ≠ [] ∧ sy_writers sy = group ++ sy_writers sy') ∧ ∃ w', sy_threads sy' !! t = Some w' ∧ w_at w' = Returned s).
Proof.
  intros Hq Hl Hw Hs. assert (t ∈ sy_writers sy) as Ht by (by apply head_Some_elem_of).
  assert (finish_write t s t sy = Some sy' → queue_ok sy' ∧ ((∃ group, group ≠ [] ∧ sy_writers sy = group ++ sy_writers sy') ∧ ∃ w', sy_threads sy' !! t = Some w' ∧ w_at w' = Returned s)) as Hfin.
  { destruct (finish_write_ok t s t sy Hq Hl Ht) as (g & r & sy1 & Hqq & -> & Hr & _ & Htg & _ & Hok & _ & Hres). intros [= <-]. split; [done|].
    split; [exists g; rewrite Hr; split; [intros ->; by apply not_elem_of_nil in Htg|done]|]. destruct (Hres t Htg) as (w' & Hw' & Hat). rewrite decide_True in Hat by done. by exists w'. }
  unfold start_group in Hs. destruct (w_batch w) as [b|]; [|destruct (Hfin Hs); by auto]. destruct (ok s); [|destruct (Hfin Hs); by auto].
  apply bind_Some in Hs as (writers & Hm & ([[wb tmp] lw] & Hb & (n & _ & [= <-])%bind_Some)%bind_Some).
  pose proof (BuildBatchGroup_last _ _ _ _ _ _ _ Hm Hb) as Hlw. split.
  - apply set_thread_ok; [by destruct Hq|by eexists|]. apply writer_front; [done|]. apply (qo_writer _ Hq), writer_front in Hw as [Hd _]; [|done]. by cbn.
  - left. split; [done|]. eexists _, _, _, _. cbn. by rewrite lookup_insert_eq.
Qed.

(** Other threads keep a writer's batch, and keep it signalled and done. *)
Record stays w w' : Prop := {
  st_batch : w_batch w' = w_batch w;
  st_sync : w_sync w' = w_sync w;
  st_notified : w_at w = Notified → w_at w' = Notified;
  st_waiting : w_at w = Waiting → w_at w' = Waiting ∨ w_at w' = Notified;
  st_done : w_done w = true → w_done w' = true;
}.

Lemma stays_refl w : stays w w.
Proof. split; auto. Qed.

Lemma stays_trans w1 w2 w3 : stays w1 w2 → stays w2 w3 → stays w1 w3.
Proof. intros [] []. split; try congruence; auto. intros [?|?]%st_waiting0; auto. Qed.

Lemma signal_stays s w : stays w (Signal w) ∧ stays w (finish_writer s w) ∧ stays w (wake w) ∧ stays w (background_signal w).
Proof. unfold finish_writer, Signal, wake, background_signal. cbn. destruct (w_at w) eqn:Hat; split_and!; split; cbn; rewrite ?Hat; try done; auto. Qed.

(** The writer of the thread that runs keeps its batch as well. *)
Definition stays_for t x w w' : Prop := w_batch w' = w_batch w ∧ w_sync w' = w_sync w ∧ (x ≠ t → stays w w').

Lemma stays_any t x w w' : stays w w' → stays_for t x w w'.
Proof. intros H. split; [apply H|]. split; [apply H|done]. Qed.

Lemma pop_group_stays t s lw queue : ∀ threads rest threads', pop_group t s lw queue threads = Some (rest, threads') →
  ∀ x w, threads !! x = Some w → ∃ w', threads' !! x = Some w' ∧ stays w w'.
Proof.
  induction queue as [|r queue IH]; intros threads rest threads' H x w Hw; [done|]. cbn [pop_group] in H. apply bind_Some in H as (threads1 & H1 & H).
  assert (∃ w1, threads1 !! x = Some w1 ∧ stays w w1) as (w1 & Hw1 & Hs1).
  { destruct (decide (r = t)); [injection H1 as <-; exists w; split; [done|apply stays_refl]|]. apply bind_Some in H1 as (wr & Hwr & [= <-]). destruct (decide (r = x)) as [->|Hne].
    - rewrite lookup_insert_eq. rewrite Hw in Hwr. injection Hwr as <-. eexists. split; [done|apply signal_stays].
    - rewrite lookup_insert_ne by done. exists w. split; [done|apply stays_refl]. }
  destruct (decide (r = lw)); [injection H as <- <-; by exists w1|]. destruct (IH _ _ _ H x w1 Hw1) as (w2 & Hw2 & Hs2). exists w2. split; [done|by eapply stays_trans].
Qed.

Lemma finish_write_stays t s lw sy sy' : finish_write t s lw sy = Some sy' →
  ∀ x w, sy_threads sy !! x = Some w → ∃ w', sy_threads sy' !! x = Some w' ∧ stays_for t x w w'.
Proof.
  intros ([rest threads] & Hp & [= <-])%bind_Some x w Hw. destruct (pop_group_stays _ _ _ _ _ _ _ Hp x w Hw) as (w1 & Hw1 & Hs1). cbn.
  set (threads2 := match rest with [] => threads | _ => _ end).
  assert (∃ w2, threads2 !! x = Some w2 ∧ stays w w2) as (w2 & Hw2 & Hs2).
  { unfold threads2. destruct rest as [|r rest]; [by exists w1|]. destruct (decide (x = r)) as [->|Hne].
    - rewrite lookup_alter_eq, Hw1. eexists. split; [done|]. eapply stays_trans; [done|apply (signal_stays s)].
    - rewrite lookup_alter_ne, Hw1 by done. by eexists. }
  destruct (decide (x = t)) as [->|Hne]; [rewrite lookup_alter_eq, Hw2; eexists; split; [done|]; split; [apply Hs2|]; split; [apply Hs2|done]|].
  rewrite lookup_alter_ne, Hw2 by done. eexists. split; [done|by apply stays_any].
Qed.

Lemma run_stays t sy sy' : run t sy = Some sy' → ∀ x w, sy_threads sy !! x = Some w → ∃ w', sy_threads sy' !! x = Some w' ∧ stays_for t x w w'.
Proof.
  unfold DbWrite.run. intros (w & Hw & H)%bind_Some x wx Hx.
  assert (∀ p sy0, sy_threads sy0 = sy_threads sy → set_thread t (move_to p w) sy0 = sy' → ∃ w', sy_threads sy' !! x = Some w' ∧ stays_for t x wx w') as Hset.
  { intros p sy0 Heq <-. cbn. rewrite Heq. destruct (decide (x = t)) as [->|Hne].
    - rewrite lookup_insert_eq. eexists. split; [done|]. rewrite Hw in Hx. injection Hx as ->. done.
    - rewrite lookup_insert_ne, Hx by done. eexists. split; [done|]. apply stays_any, stays_refl. }
  destruct (w_at w) as [| |a f|f|a f|b tmp seq lw|tmp s se seq lw|s]; try done.
  - injection H as H. (eapply Hset; [|exact H]; done).
  - apply bind_Some in H as ([r db] & _ & H). destruct r as [s| | |]; [|injection H as H; (eapply Hset; [|exact H]; done)..].
    unfold start_group in H. destruct (w_batch w) as [b|]; [destruct (ok s)|].
    + apply bind_Some in H as (writers & _ & ([[wb tmp] lw] & _ & (n & _ & [= H])%bind_Some)%bind_Some). (eapply Hset; [|exact H]; done).
    + eapply finish_write_stays; [exact H|done].
    + eapply finish_write_stays; [exact H|done].
  - injection H as H. (eapply Hset; [|exact H]; done).
  - apply bind_Some in H as ([[s se] db] & _ & [= H]). (eapply Hset; [|exact H]; done).
  - apply bind_Some in H as (vs & _ & H). eapply finish_write_stays; [exact H|done].
Qed.

(** No thread comes up in a step of another. *)
Lemma finish_write_none t s lw sy sy' x : finish_write t s lw sy = Some sy' → sy_threads sy !! x = None → sy_threads sy' !! x = None.
Proof.
  intros ([rest threads] & Hp & [= <-])%bind_Some Hx. cbn.
  assert (threads !! x = None) as Ht.
  { revert Hx Hp. generalize (sy_threads sy). induction (sy_writers sy) as [|r queue IH]; intros threads0 Hx Hp; [done|]. cbn [pop_group] in Hp. apply bind_Some in Hp as (threads1 & H1 & Hp).
    assert (threads1 !! x = None) as Hx1.
    { destruct (decide (r = t)); [by injection H1 as <-|]. apply bind_Some in H1 as (wr & Hwr & [= <-]). rewrite lookup_insert_ne; [done|]. intros ->. congruence. }
    destruct (decide (r = lw)); [by injection Hp as <- <-|by apply (IH threads1)]. }
  assert (∀ (f : Writer → Writer) y (m : gmap nat Writer), m !! x = None → alter f y m !! x = None) as Ha.
  { intros f y m Hm. destruct (decide (x = y)) as [->|Hne]; [by rewrite lookup_alter_eq, Hm|by rewrite lookup_alter_ne]. }
  destruct rest; by repeat apply Ha.
Qed.

Lemma run_none t sy sy' x : run t sy = Some sy' → sy_threads sy !! x = None → sy_threads sy' !! x = None.
Proof.
  unfold DbWrite.run. intros (w & Hw & H)%bind_Some Hx.
  assert (∀ wt sy0, sy_threads sy0 = sy_threads sy → set_thread t wt sy0 = sy' → sy_threads sy' !! x = None) as Hset.
  { intros wt sy0 Heq <-. cbn. rewrite Heq, lookup_insert_ne; [done|]. intros ->. congruence. }
  destruct (w_at w) as [| |a f|f|a f|b tmp seq lw|tmp s se seq lw|s]; try done.
  - injection H as H. (eapply Hset; [|exact H]; done).
  - apply bind_Some in H as ([r db] & _ & H). destruct r as [s| | |]; [|injection H as H; (eapply Hset; [|exact H]; done)..].
    unfold start_group in H. destruct (w_batch w) as [b|]; [destruct (ok s)|]; [|eapply finish_write_none; [exact H|done]..].
    apply bind_Some in H as (writers & _ & ([[wb tmp] lw] & _ & (n & _ & [= H])%bind_Some)%bind_Some). (eapply Hset; [|exact H]; done).
  - injection H as H. (eapply Hset; [|exact H]; done).
  - apply bind_Some in H as ([[s se] db] & _ & [= H]). (eapply Hset; [|exact H]; done).
  - apply bind_Some in H as (vs & _ & H). eapply finish_write_none; [exact H|done].
Qed.

(** What a step of a thread does to the queue and to its own place. *)
Lemma run_cases t sy sy' : queue_ok sy → run t sy = Some sy' → ∃ w w', sy_threads sy !! t = Some w ∧ sy_threads sy' !! t = Some w' ∧ queue_ok sy' ∧
  (sy_writers sy' = sy_writers sy ∨ led sy t ∧ ∃ group, group ≠ [] ∧ sy_writers sy = group ++ sy_writers sy') ∧
  match w_at w with
  | Notified => if w_done w then w_at w' = Returned (w_status w) else if decide (led sy t) then ∃ a f, w_at w' = MakingRoom a f else w_at w' = Waiting
  | MakingRoom a f => (sy_writers sy' = sy_writers sy ∧ (∃ b tmp seq lw, w_at w' = Logging b tmp seq lw) ∨ t ∉ sy_writers sy' ∨ sy_writers sy' = sy_writers sy ∧
      ∃ db r, MakeRoom icmp new_array dbname write_buffer_size a f (sy_db sy) = Some (r, db) ∧ sy_db sy' = db ∧
      match r with Delay => w_at w' = Sleeping f | WaitForBackground => w_at w' = RoomWaiting a f | NewMemTable => w_at w' = MakingRoom a false | HasRoom _ => False end)
  | Sleeping f => w_at w' = MakingRoom false f ∧ sy_db sy' = sy_db sy
  | Logging _ _ _ _ => ∃ tmp s se seq lw, w_at w' = Logged tmp s se seq lw
  | Logged _ _ _ _ _ => t ∉ sy_writers sy'
  | _ => False
  end.
Proof.
  intros Hq Hr. unfold DbWrite.run in Hr. apply bind_Some in Hr as (w & Hw & Hr). exists w. pose proof (qo_writer _ Hq t w Hw) as Hok.
  assert (w_at w ≠ Notified → w_at w ≠ Waiting → (∀ s, w_at w ≠ Returned s) → led sy t ∧ w_done w = false ∧ leads (sy_writers sy) (w_at w)) as Hlead.
  { intros H1 H2 H3. unfold writer_ok in Hok. destruct (decide (head (sy_writers sy) = Some t)); [by split|].
    destruct (decide (t ∈ sy_writers sy)); [by destruct Hok as [_ [?|?]]|]. destruct Hok as [[_ ?]|[s ?]]; [done|by destruct (H3 s)]. }
  assert (∀ p db, led sy t → w_done w = false → leads (sy_writers sy) p → queue_ok (set_thread t (move_to p w) (with_db db sy))) as Hset.
  { intros p db Hl Hd Hp. apply set_thread_ok; [by destruct Hq|by eexists|]. apply writer_front; [done|]. by cbn. }
  assert (∀ w0 sy0, set_thread t w0 sy0 = sy' → sy_threads sy' !! t = Some w0) as Hat by (intros w0 sy0 <-; cbn; by rewrite lookup_insert_eq).
  assert (∀ s lw sy0, queue_ok sy0 → led sy0 t → lw ∈ sy_writers sy0 → finish_write t s lw sy0 = Some sy' →
    ∃ w', sy_threads sy' !! t = Some w' ∧ queue_ok sy' ∧ (∃ group, group ≠ [] ∧ sy_writers sy0 = group ++ sy_writers sy') ∧ t ∉ sy_writers sy') as Hfin.
  { intros s lw sy0 Hq0 Hl0 Hlw Hf. destruct (finish_write_ok t s lw sy0 Hq0 Hl0 Hlw) as (g & r & sy1 & Hqq & Hf' & Hrr & _ & Htg & Htr & Hok1 & _ & Hres).
    rewrite Hf in Hf'. injection Hf' as <-. destruct (Hres t Htg) as (w' & Hw' & _). exists w'. rewrite Hrr. split_and!; try done. exists g. split; [intros ->; by apply not_elem_of_nil in Htg|done]. }
  destruct (w_at w) as [| |a f|f|a f|b tmp seq lw|tmp s se seq lw|s] eqn:Hp; try done.
  - injection Hr as Hr. eexists. split; [done|]. split; [by apply (Hat _ sy)|]. split; [rewrite <- Hr; by apply wait_test_ok|]. split; [left; by rewrite <- Hr|].
    cbn [move_to w_at]. destruct (w_done w); [done|]. destruct (decide (led sy t)) as [Hl|Hl]; [rewrite bool_decide_true by done; by eexists _, _|by rewrite bool_decide_false].
  - destruct Hlead as (Hl & Hd & Hls); [done|done|done|]. apply bind_Some in Hr as ([r db] & Hroom & Hr). cbv beta iota zeta in Hr. destruct r as [s| | |].
    + destruct (start_group_ok t w s (with_db db sy) sy') as [Hok' Hc]; [by destruct Hq|done|done|done|].
      destruct Hc as [[Hqq (b & tmp & seq & lw & Hw')]|[(g & Hg & Hqq) (w' & Hw' & Hat')]].
      * eexists. split; [done|]. split; [done|]. split; [done|]. split; [by left|]. left. split; [done|]. by eexists _, _, _, _.
      * exists w'. split; [done|]. split; [done|]. split; [done|]. split; [right; split; [done|]; by exists g|]. right. left.
        destruct g as [|x g]; [done|]. intros Hin. pose proof (qo_nodup _ Hq) as Hnd. cbn in Hqq. rewrite Hqq in Hnd. unfold led in Hl. rewrite Hqq in Hl. injection Hl as ->.
        apply NoDup_cons in Hnd as [Hnd _]. apply Hnd, elem_of_app. by right.
    + injection Hr as Hr. eexists. split; [done|]. split; [by eapply Hat|]. split; [rewrite <- Hr; by apply Hset|]. split; [left; by rewrite <- Hr|]. right; right. split; [by rewrite <- Hr|]. exists db, Delay. split; [done|]. by rewrite <- Hr.
    + injection Hr as Hr. eexists. split; [done|]. split; [by eapply Hat|]. split; [rewrite <- Hr; by apply Hset|]. split; [left; by rewrite <- Hr|]. right; right. split; [by rewrite <- Hr|]. exists db, WaitForBackground. split; [done|]. by rewrite <- Hr.
    + injection Hr as Hr. eexists. split; [done|]. split; [by eapply Hat|]. split; [rewrite <- Hr; by apply Hset|]. split; [left; by rewrite <- Hr|]. right; right. split; [by rewrite <- Hr|]. exists db, NewMemTable. split; [done|]. by rewrite <- Hr.
  - destruct Hlead as (Hl & Hd & Hls); [done|done|done|]. injection Hr as Hr. eexists. split; [done|]. split; [by eapply Hat|]. split; [|split; [left; by rewrite <- Hr|by rewrite <- Hr]].
    rewrite <- Hr. pose proof (Hset (MakingRoom false f) (sy_db sy) Hl Hd I) as H. by destruct sy.
  - destruct Hlead as (Hl & Hd & Hls); [done|done|done|]. apply bind_Some in Hr as ([[s se] db] & _ & [= Hr]). eexists. split; [done|]. split; [by eapply Hat|]. split; [rewrite <- Hr; by apply Hset|].
    split; [left; by rewrite <- Hr|]. by eexists _, _, _, _, _.
  - destruct Hlead as (Hl & Hd & Hls); [done|done|done|]. apply bind_Some in Hr as (vs & _ & Hr).
    edestruct Hfin as (w' & Hw' & Hok' & (g & Hg & Hgq) & Hno); [| | |exact Hr|]; [by destruct Hq|exact Hl|exact Hls|].
    exists w'. split; [done|]. split; [done|]. split; [done|]. split; [|done]. right. split; [done|]. by exists g.
Qed.

Lemma Write_call_ok t updates sync sy sy' : queue_ok sy → Write_call t updates sync sy = Some sy' →
  queue_ok sy' ∧ sy_writers sy' = sy_writers sy ++ [t] ∧ sy_threads sy !! t = None ∧ ∀ t', t' ≠ t → sy_threads sy' !! t' = sy_threads sy !! t'.
Proof.
  unfold Write_call. intros Hq. destruct (sy_threads sy !! t) eqn:Ht; [done|]. intros [= <-].
  assert (t ∉ sy_writers sy) as Hnt by (intros [w Hw]%(qo_threads _ Hq); congruence).
  split; [|split; [done|split; [done|intros t' Hne; cbn; by rewrite lookup_insert_ne]]].
  unfold wait_test, set_thread. cbn [sy_writers sy_db sy_threads w_done]. split; cbn [sy_writers sy_threads].
  - apply NoDup_app. split_and!; [apply Hq|intros x Hx ->%list_elem_of_singleton; done|apply NoDup_singleton].
  - intros t' [Hin| ->%list_elem_of_singleton]%elem_of_app; [|by rewrite lookup_insert_eq]. rewrite lookup_insert_ne by (intros ->; done). by apply (qo_threads _ Hq).
  - intros t' w' [[<- <-]|[Hne Hl]]%lookup_insert_Some.
    + unfold writer_ok. destruct (decide (head (sy_writers sy ++ [t]) = Some t)) as [Hh|Hh].
      * rewrite bool_decide_true by done. by cbn.
      * rewrite bool_decide_false by done. rewrite decide_True by (apply elem_of_app; right; left). cbn. split; [done|by left].
    + pose proof (qo_writer _ Hq t' w' Hl) as Hok. unfold writer_ok in *. rewrite head_app. destruct (head (sy_writers sy)) as [h|] eqn:Hh; cbn.
      * destruct (decide (Some h = Some t')) as [[= ->]|Hnh]; [destruct Hok as [? Hx]; split; [done|]; by eapply leads_mono; [|exact Hx]; intros x Hx'; apply elem_of_app; left|].
        destruct (decide (t' ∈ sy_writers sy)) as [Hin|Hin]; [rewrite decide_True by (apply elem_of_app; by left); done|].
        rewrite decide_False; [done|]. intros [?|?%list_elem_of_singleton]%elem_of_app; congruence.
      * apply head_None in Hh. rewrite Hh in Hok |- *. cbn in *. rewrite decide_False in Hok by done. rewrite decide_False in Hok by apply not_elem_of_nil.
        rewrite decide_False by congruence. rewrite decide_False; [done|]. intros ?%list_elem_of_singleton. congruence.
Qed.

Lemma step_ok l sy sy' : queue_ok sy → step l sy sy' → queue_ok sy'.
Proof.
  intros Hq Hs. destruct Hs as [t updates sync sy sy' Hc|t sy sy' Hr|t sy|sy db' Ho].
  - by apply (Write_call_ok t updates sync sy).
  - by destruct (run_cases t sy sy' Hq Hr) as (w & w' & _ & _ & ? & _).
  - apply (map_threads_ok (λ t' w, if decide (t' = t) then wake w else w)); [done| |].
    + intros t' w Hw. destruct (decide _); [by apply wake_ok|done].
    + intros t'. destruct (decide (t' = t)) as [->|Hne]; [by rewrite lookup_alter_eq|]. rewrite lookup_alter_ne by done. by rewrite option_fmap_id.
  - apply (map_threads_ok (λ _ w, background_signal w)); [done|intros t w Hw; by apply wake_ok|]. intros t. by rewrite lookup_fmap.
Qed.

Lemma reachable_ok sy : reachable sy → queue_ok sy.
Proof.
  induction 1 as [db|l sy sy' _ IH Hs]; [|by eapply step_ok]. split; cbn; [apply NoDup_nil_2|by intros t ?%not_elem_of_nil|by intros t w].
Qed.
End queue_proofs.
