(* ===== verification/WriteLiveness.v ===== *)
(** Every write returns (db/db_impl.cc, [DBImpl::Write]): in a fair execution no
    writer waits in the queue for ever. *)
From stdpp Require Import gmap.
From S2P Require Import Prelude Env FileSystem MemEnv MemFs Comparator DbFormat Filename LogFormat SkipList Arena MemTable WriteBatch VersionEdit Version VersionBuilder VersionSet DbImpl DbWrite.

Section liveness.
Context {C : Type} `{!Comparator C} (icmp : InternalKeyComparator C) (new_array : list piece → Z → Z).
Context {E : Type} `{!FileSystem E} (dbname : list byte) (write_buffer_size : Z).
Notation System := (System (C := C) (E := E)).
Notation DBImpl := (DBImpl (C := C) (E := E)).
Notation run := (run icmp new_array dbname write_buffer_size).
Notation step := (step icmp new_array dbname write_buffer_size).
Notation MakeRoom := (MakeRoom icmp new_array dbname write_buffer_size).
Implicit Types (sy : System) (t : nat) (w : Writer) (db : DBImpl).

(** ** Executions *)

Definition runnable (p : Position) : bool :=
  match p with Waiting | RoomWaiting _ _ | Returned _ => false | _ => true end.

(** What is left of the loop of [MakeRoomForWrite]: may it delay, must it switch. *)
Definition room_flags (p : Position) : option (bool * bool) :=
  match p with
  | MakingRoom allow_delay force | RoomWaiting allow_delay force => Some (allow_delay, force)
  | Sleeping force => Some (false, force)
  | _ => None
  end.

(** Background work is not in the way: no memtable waits to be compacted, and
    level 0 has not too many files. *)
Definition can_make_room db : Prop :=
  ok (db_bg_error db) = false ∨ db_imm db = None ∧ ∃ n, NumLevelFiles 0 (db_versions db) = Some n ∧ n < kL0_StopWritesTrigger.

Record execution (σ : nat → System) (lab : nat → option Label) : Prop := {
  ex_start : sy_writers (σ 0%nat) = [] ∧ sy_threads (σ 0%nat) = ∅;
  ex_step n : match lab n with Some l => step l (σ n) (σ (S n)) | None => σ (S n) = σ n end;
}.

(** Every thread that can run does. *)
Definition fair (σ : nat → System) (lab : nat → option Label) : Prop :=
  ∀ n t w, sy_threads (σ n) !! t = Some w → runnable (w_at w) = true → ∃ m, (n ≤ m)%nat ∧ lab m = Some (Run t).

(** Background work catches up: a writer that needs room leaves the loop, or finds
    nothing in the way at some later iteration. *)
Definition background_catches_up (σ : nat → System) (lab : nat → option Label) : Prop :=
  ∀ n t w, sy_threads (σ n) !! t = Some w → is_Some (room_flags (w_at w)) →
    ∃ m w', (n ≤ m)%nat ∧ sy_threads (σ m) !! t = Some w' ∧
      (room_flags (w_at w') = None ∨ lab m = Some (Run t) ∧ (∃ a f, w_at w' = MakingRoom a f) ∧ can_make_room (sy_db (σ m))).

(** ** Steps of others *)

Lemma others_refl db : others db db.
Proof. by split. Qed.

Lemma other_step l sy sy' t w : queue_ok sy → led sy t → sy_threads sy !! t = Some w → step l sy sy' → l ≠ Run t →
  led sy' t ∧ others (sy_db sy) (sy_db sy') ∧ ∃ w', sy_threads sy' !! t = Some w' ∧ (w' = w ∨ w' = wake w).
Proof.
  intros Hq Hl Hw Hs Hne. destruct Hs as [t' updates sync sy sy' Hc|t' sy sy' Hr|t' sy|sy db' Ho].
  - destruct (Write_call_ok t' updates sync sy sy' Hq Hc) as (_ & Hqq & Hnone & Hsame). split.
    + unfold led in *. by rewrite Hqq, head_app, Hl.
    + unfold Write_call in Hc. rewrite Hnone in Hc. injection Hc as <-. split; [by apply others_refl|]. exists w. split; [|by left]. rewrite Hsame; [done|]. intros ->. congruence.
  - assert (t' ≠ t) as Hnt by congruence. unfold DbWrite.run in Hr. apply bind_Some in Hr as (w' & Hw' & Hr). pose proof (qo_writer _ Hq t' w' Hw') as Hok. unfold writer_ok in Hok.
    rewrite decide_False in Hok by (unfold led in Hl; congruence).
    assert (w_at w' = Notified) as Hat.
    { destruct (decide (t' ∈ sy_writers sy)); [destruct Hok as [_ [Hat|Hat]]|destruct Hok as [[_ Hat]|[s Hat]]]; rewrite Hat in Hr; done. }
    rewrite Hat in Hr. injection Hr as <-. split; [done|]. split; [by apply others_refl|]. exists w. split; [cbn; by rewrite lookup_insert_ne|by left].
  - split; [done|]. split; [by apply others_refl|]. cbn. destruct (decide (t = t')) as [->|Hnt].
    + rewrite lookup_alter_eq, Hw. eexists. split; [done|by right].
    + rewrite lookup_alter_ne, Hw by done. eexists. split; [done|by left].
  - split; [done|]. split; [done|]. cbn. rewrite lookup_fmap, Hw. eexists. split; [done|]. unfold background_signal, wake.
    pose proof (proj1 (writer_front _ _ w Hl) (qo_writer _ Hq t w Hw)) as [_ Hld]. destruct (w_at w); cbn in Hld; try done; [by left|by left|by left|by right|by left|by left].
Qed.

(** ** Making room ends *)

Definition mem_full db : bool :=
  match db_mem db with
  | Some id => match db_mems db !! id with Some m => negb (ApproximateMemoryUsage m <=? write_buffer_size) | None => true end
  | None => true
  end.

Definition room_left (flags : bool * bool) db : nat :=
  ((if flags.1 then 1 else 0) + (if flags.2 || mem_full db then 1 else 0))%nat.

Lemma mem_full_others db db' : others db db' → mem_full db' = mem_full db.
Proof.
  intros Ho. unfold mem_full. rewrite (ot_mem _ _ Ho). destruct (db_mem db) as [id|] eqn:Hid; [|done]. by rewrite (ot_table _ _ Ho id Hid).
Qed.

Context (Hsize : ApproximateMemoryUsage (MemTable_new new_array icmp) <= write_buffer_size).

Lemma switch_memtable_full db r db' : switch_memtable icmp new_array dbname db = Some (r, db') →
  match r with HasRoom _ => True | NewMemTable => mem_full db' = false | _ => False end.
Proof using Hsize.
  unfold switch_memtable. destruct (NewFileNumber _) as [n vs]. intros ([[e lfile] s] & _ & H)%bind_Some. destruct (negb (ok s)); [injection H as <- <-; done|].
  apply bind_Some in H as (lf & _ & (lg & _ & ([e1 s1] & _ & (e2 & _ & (db1 & Hdb1 & H)%bind_Some)%bind_Some)%bind_Some)%bind_Some). injection H as <- <-.
  assert (∀ x : DBImpl, mem_full x = false → ∀ y, MaybeScheduleCompaction x = Some y → mem_full y = false) as Hms.
  { by intros x Hx y [->| ->]%MaybeScheduleCompaction_cases. }
  eapply Hms; [|exact Hdb1]. unfold mem_full. cbn. rewrite lookup_insert_eq. unfold ApproximateMemoryUsage in *. cbn in *. by rewrite (proj2 (Z.leb_le _ _) Hsize).
Qed.

Lemma MakeRoom_left a f db r db' : MakeRoom a f db = Some (r, db') →
  match r with
  | HasRoom _ => True
  | Delay => db' = db ∧ a = true
  | WaitForBackground => db' = db ∧ ¬ can_make_room db
  | NewMemTable => (f || mem_full db) = true ∧ mem_full db' = false
  end.
Proof using Hsize.
  unfold DbImpl.MakeRoom. destruct (ok (db_bg_error db)) eqn:Hbg; cbn [negb]; [|by intros [= <- <-]].
  intros (l0 & Hl0 & (id & Hid & (m & Hm & H)%bind_Some)%bind_Some)%bind_Some.
  destruct a; cbn [andb] in H; [destruct (kL0_SlowdownWritesTrigger <=? l0); [by injection H as <- <-|]|].
  all: destruct (negb f && (ApproximateMemoryUsage m <=? write_buffer_size)) eqn:Hroom; [by injection H as <- <-|].
  all: destruct (bool_decide_reflect (is_Some (db_imm db))) as [[i Hi]|Hni]; [injection H as <- <-; split; [done|]; intros [?|[? _]]; congruence|].
  all: destruct (Z.leb_spec kL0_StopWritesTrigger l0); [injection H as <- <-; split; [done|]; intros [?|(_ & n & Hn & Hlt)]; [congruence|rewrite Hl0 in Hn; injection Hn as <-; lia]|].
  all: destruct (_ =? 0); [|done]; pose proof (switch_memtable_full _ _ _ H) as Hsw; destruct r; try done; split; [|done].
  all: unfold mem_full; rewrite Hid, Hm; destruct f; [done|]; cbn in *; by rewrite Hroom.
Qed.

(** ** Executions run on *)

Section run_on.
Context (σ : nat → System) (lab : nat → option Label) (Hex : execution σ lab) (Hfair : fair σ lab) (Hbg : background_catches_up σ lab).
Notation thread n t := (sy_threads (σ n) !! t).
Notation queue n := (sy_writers (σ n)).

Lemma queue_always n : queue_ok (σ n).
Proof using Hex.
  induction n as [|n IH].
  - destruct (ex_start _ _ Hex) as [H1 H2]. split; [rewrite H1; apply NoDup_nil_2|rewrite H1; by intros t ?%not_elem_of_nil|rewrite H2; by intros t w].
  - pose proof (ex_step _ _ Hex n) as Hs. destruct (lab n) as [l|]; [by eapply step_ok|by rewrite Hs].
Qed.

(** A property that steps other than [t]'s keep holds when [t] next runs. *)
Lemma until_run (P : System → Prop) t n : P (σ n) → (∃ m, (n ≤ m)%nat ∧ lab m = Some (Run t)) →
  (∀ k, P (σ k) → lab k ≠ Some (Run t) → P (σ (S k))) → ∃ m, (n ≤ m)%nat ∧ lab m = Some (Run t) ∧ P (σ m) ∧ run t (σ m) = Some (σ (S m)).
Proof using Hex.
  intros HP (m & Hm & Hl) Hk. assert (∃ k, m = (n + k)%nat) as [k ->] by (exists (m - n)%nat; lia). clear Hm. revert n HP Hl. induction k as [|k IH]; intros n HP Hl.
  - rewrite Nat.add_0_r in Hl. exists n. pose proof (ex_step _ _ Hex n) as Hs. rewrite Hl in Hs. split_and!; [lia|done|done|]. by inversion Hs.
  - destruct (decide (lab n = Some (Run t))) as [Hn|Hn].
    + exists n. pose proof (ex_step _ _ Hex n) as Hs. rewrite Hn in Hs. split_and!; [lia|done|done|]. by inversion Hs.
    + destruct (IH (S n)) as (m & Hm & ?); [by apply Hk|by replace (S n + k)%nat with (n + S k)%nat by lia|]. exists m. split; [lia|done].
Qed.

(** The front of the queue keeps its place while others run. *)
Definition front_at t p sy : Prop := led sy t ∧ ∃ w, sy_threads sy !! t = Some w ∧ w_at w = p.

Lemma front_next n t w : led (σ n) t → thread n t = Some w → lab n ≠ Some (Run t) →
  led (σ (S n)) t ∧ others (sy_db (σ n)) (sy_db (σ (S n))) ∧ ∃ w', thread (S n) t = Some w' ∧ (w' = w ∨ w' = wake w).
Proof using Hex.
  intros Hl Hw Hlab. pose proof (ex_step _ _ Hex n) as Hs. destruct (lab n) as [l|].
  - apply (other_step l (σ n)); [by apply queue_always|done|done|done|congruence].
  - rewrite Hs. split; [done|]. split; [apply others_refl|]. exists w. by auto.
Qed.

Lemma wake_runnable w : runnable (w_at w) = true → wake w = w.
Proof. unfold wake. by destruct (w_at w). Qed.

Lemma front_run t p n : runnable p = true → front_at t p (σ n) → ∃ m, (n ≤ m)%nat ∧ lab m = Some (Run t) ∧ front_at t p (σ m) ∧ run t (σ m) = Some (σ (S m)).
Proof using Hex Hfair.
  intros Hp Hf. pose proof Hf as (Hl & w & Hw & Hat). apply until_run; [done|apply (Hfair n t w Hw); by rewrite Hat|].
  intros k (Hlk & wk & Hwk & Hatk) Hnr. destruct (front_next k t wk Hlk Hwk Hnr) as (Hl' & _ & w' & Hw' & Hor). split; [done|]. exists w'. split; [done|].
  destruct Hor as [->| ->]; [done|]. by rewrite wake_runnable by (by rewrite Hatk).
Qed.

(** The loop that makes room is left, sooner or later. *)
Definition in_room t sy : Prop := led sy t ∧ ∃ w fl, sy_threads sy !! t = Some w ∧ room_flags (w_at w) = Some fl.
Definition out_of_room t sy : Prop := t ∉ sy_writers sy ∨ ∃ b tmp seq lw, front_at t (Logging b tmp seq lw) sy.

Lemma wake_flags w : room_flags (w_at (wake w)) = room_flags (w_at w).
Proof. unfold wake. destruct (w_at w) eqn:Hat; cbn; by rewrite ?Hat. Qed.

(** One step in the loop; the measure does not grow, and shrinks when nothing is
    in the way. *)
Lemma room_step n t w fl : led (σ n) t → thread n t = Some w → room_flags (w_at w) = Some fl →
  out_of_room t (σ (S n)) ∨ ∃ w' fl', led (σ (S n)) t ∧ thread (S n) t = Some w' ∧ room_flags (w_at w') = Some fl' ∧
    (room_left fl' (sy_db (σ (S n))) ≤ room_left fl (sy_db (σ n)))%nat ∧
    (lab n = Some (Run t) → (∃ a f, w_at w = MakingRoom a f) → can_make_room (sy_db (σ n)) → (room_left fl' (sy_db (σ (S n))) < room_left fl (sy_db (σ n)))%nat).
Proof using Hex Hsize.
  intros Hl Hw Hfl. destruct (decide (lab n = Some (Run t))) as [Hlab|Hlab].
  - pose proof (ex_step _ _ Hex n) as Hs. rewrite Hlab in Hs. inversion Hs as [|? ? ? Hr| |]; subst.
    destruct (run_cases _ _ _ _ t _ _ (queue_always n) Hr) as (w0 & w' & Hw0 & Hw' & _ & Hqq & Hc). rewrite Hw in Hw0. injection Hw0 as <-.
    destruct (w_at w) as [| |a f|f|a f| | |] eqn:Hat; try done; injection Hfl as <-.
    + destruct Hc as [[Hq (b & tmp & seq & lw & Hat')]|[Hno|(Hq & db & r & Hroom & Hdb & Hr')]].
      * left. right. exists b, tmp, seq, lw. split; [unfold led; by rewrite Hq|]. by exists w'.
      * left. by left.
      * right. apply MakeRoom_left in Hroom. exists w'. destruct r as [s| | |]; [done|..]; rewrite Hr', Hdb; eexists; (split; [unfold led; by rewrite Hq|]); (split; [done|]); (split; [reflexivity|]); unfold room_left; cbn [fst snd].
        -- destruct Hroom as [-> ->]. split; [lia|]. lia.
        -- destruct Hroom as [-> Hno]. split; [lia|]. by intros _ _ ?.
        -- destruct Hroom as [-> ->]. cbn. split; [destruct a; lia|destruct a; lia].
    + right. destruct Hc as [Hat' ->]. exists w', (false, f). destruct Hqq as [Hq|[_ (g & Hg & Hq)]].
      * split; [unfold led; by rewrite Hq|]. split; [done|]. split; [by rewrite Hat'|]. split; [lia|]. intros _ (? & ? & ?). congruence.
      * exfalso. unfold DbWrite.run in Hr. rewrite Hw in Hr. cbn in Hr. rewrite Hat in Hr. injection Hr as Hr. rewrite <- Hr in Hq. cbn in Hq.
        apply (f_equal length) in Hq. rewrite length_app in Hq. destruct g; [done|]. cbn in Hq. lia.
  - right. destruct (front_next n t w Hl Hw Hlab) as (Hl' & Ho & w' & Hw' & Hor). exists w', fl. split; [done|]. split; [done|].
    split; [destruct Hor as [->| ->]; [done|by rewrite wake_flags]|]. unfold room_left. rewrite (mem_full_others _ _ Ho). split; [lia|done].
Qed.

Lemma room_until t d : ∀ n w fl, led (σ n) t → thread n t = Some w → room_flags (w_at w) = Some fl →
  (∃ j, (n ≤ j)%nat ∧ out_of_room t (σ j)) ∨ ∃ w' fl', led (σ (n + d)%nat) t ∧ thread (n + d)%nat t = Some w' ∧ room_flags (w_at w') = Some fl' ∧
    (room_left fl' (sy_db (σ (n + d)%nat)) ≤ room_left fl (sy_db (σ n)))%nat.
Proof using Hex Hsize.
  induction d as [|d IH]; intros n w fl Hl Hw Hfl; [right; exists w, fl; by rewrite Nat.add_0_r|].
  destruct (room_step n t w fl Hl Hw Hfl) as [Hout|(w1 & fl1 & Hl1 & Hw1 & Hfl1 & Hle & _)]; [left; exists (S n); split; [lia|done]|].
  destruct (IH (S n) w1 fl1 Hl1 Hw1 Hfl1) as [(j & Hj & Hout)|(w2 & fl2 & H)]; [left; exists j; split; [lia|done]|].
  right. exists w2, fl2. replace (n + S d)%nat with (S n + d)%nat by lia. destruct H as (? & ? & ? & ?). split_and!; try done. lia.
Qed.

Lemma room_ends t k : ∀ n w fl, (room_left fl (sy_db (σ n)) < k)%nat → led (σ n) t → thread n t = Some w → room_flags (w_at w) = Some fl →
  ∃ m, (n ≤ m)%nat ∧ out_of_room t (σ m).
Proof using Hex Hbg Hsize.
  induction k as [|k IH]; intros n w fl Hk Hl Hw Hfl; [lia|]. destruct (Hbg n t w Hw ltac:(rewrite Hfl; by eexists)) as (m & wm & Hm & Hwm & Hcase).
  destruct (room_until t (m - n) n w fl Hl Hw Hfl) as [(j & Hj & Hout)|(w1 & fl1 & Hl1 & Hw1 & Hfl1 & Hle)]; [by exists j|].
  replace (n + (m - n))%nat with m in * by lia. rewrite Hwm in Hw1. injection Hw1 as <-. destruct Hcase as [Hnone|(Hlab & Hat & Hcan)]; [congruence|].
  destruct (room_step m t wm fl1 Hl1 Hwm Hfl1) as [Hout|(w2 & fl2 & Hl2 & Hw2 & Hfl2 & _ & Hlt)]; [exists (S m); split; [lia|done]|].
  specialize (Hlt Hlab Hat Hcan). destruct (IH (S m) w2 fl2 ltac:(lia) Hl2 Hw2 Hfl2) as (j & Hj & Hout). exists j. split; [lia|done].
Qed.

(** *** The front leaves the queue *)

Lemma logging_ends t b tmp seq lw n : front_at t (Logging b tmp seq lw) (σ n) → ∃ m, (n ≤ m)%nat ∧ t ∉ queue m.
Proof using Hex Hfair.
  intros Hf. destruct (front_run t (Logging b tmp seq lw) n eq_refl Hf) as (m & Hm & _ & (Hl & w & Hw & Hat) & Hr).
  destruct (run_cases _ _ _ _ t _ _ (queue_always m) Hr) as (w0 & w' & Hw0 & Hw' & _ & Hqq & Hc). rewrite Hw in Hw0. injection Hw0 as <-. rewrite Hat in Hc.
  destruct Hc as (tmp' & s & se & seq' & lw' & Hat'). assert (queue (S m) = queue m) as Hq.
  { unfold DbWrite.run in Hr. rewrite Hw in Hr. cbn in Hr. rewrite Hat in Hr. apply bind_Some in Hr as ([[? ?] ?] & _ & [= <-]). done. }
  destruct (front_run t (Logged tmp' s se seq' lw') (S m)) as (m' & Hm' & _ & (Hl2 & w2 & Hw2 & Hat2) & Hr2); [done|split; [unfold led; by rewrite Hq|by exists w']|].
  destruct (run_cases _ _ _ _ t _ _ (queue_always m') Hr2) as (w3 & w4 & Hw3 & _ & _ & _ & Hc2). rewrite Hw2 in Hw3. injection Hw3 as <-. rewrite Hat2 in Hc2.
  exists (S m'). split; [lia|done].
Qed.

Lemma front_leaves t n : led (σ n) t → ∃ m, (n ≤ m)%nat ∧ t ∉ queue m.
Proof using Hex Hfair Hbg Hsize.
  intros Hl. destruct (qo_threads _ (queue_always n) t (head_Some_elem_of _ _ Hl)) as [w Hw].
  assert (∀ n w fl, led (σ n) t → thread n t = Some w → room_flags (w_at w) = Some fl → ∃ m, (n ≤ m)%nat ∧ t ∉ queue m) as Hroom.
  { intros n' w' fl Hl' Hw' Hfl. destruct (room_ends t (S (room_left fl (sy_db (σ n')))) n' w' fl ltac:(lia) Hl' Hw' Hfl) as (m & Hm & [Hout|(b & tmp & seq & lw & Hf)]); [by exists m|].
    destruct (logging_ends _ _ _ _ _ _ Hf) as (m' & ? & ?). exists m'. split; [lia|done]. }
  pose proof (proj1 (writer_front _ _ w Hl) (qo_writer _ (queue_always n) t w Hw)) as [Hd Hld].
  destruct (w_at w) as [| |a f|f|a f|b tmp seq lw|tmp s se seq lw|s] eqn:Hat; try done.
  - destruct (until_run (λ sy, led sy t ∧ ∃ w, sy_threads sy !! t = Some w ∧ w_at w = Notified ∧ w_done w = false) t n) as (m & Hm & _ & (Hl1 & w1 & Hw1 & Hat1 & Hd1) & Hr).
    + split; [done|]. by exists w.
    + apply (Hfair n t w Hw). by rewrite Hat.
    + intros k (Hlk & wk & Hwk & Hatk & Hdk) Hnr. destruct (front_next k t wk Hlk Hwk Hnr) as (Hl' & _ & w' & Hw' & Hor). split; [done|]. exists w'. split; [done|].
      destruct Hor as [->| ->]; [done|]. by rewrite wake_runnable by (by rewrite Hatk).
    + destruct (run_cases _ _ _ _ t _ _ (queue_always m) Hr) as (w0 & w' & Hw0 & Hw' & _ & Hqq & Hc). rewrite Hw1 in Hw0. injection Hw0 as <-. rewrite Hat1, Hd1 in Hc.
      rewrite decide_True in Hc by done. destruct Hc as (a & f & Hat').
      assert (queue (S m) = queue m) as Hq by (unfold DbWrite.run in Hr; rewrite Hw1 in Hr; cbn in Hr; rewrite Hat1 in Hr; by injection Hr as <-).
      destruct (Hroom (S m) w' (a, f)) as (j & Hj & ?); [unfold led; by rewrite Hq|done|by rewrite Hat'|]. exists j. split; [lia|done].
  - apply (Hroom n w (a, f)); [done|done|by rewrite Hat].
  - apply (Hroom n w (false, f)); [done|done|by rewrite Hat].
  - apply (Hroom n w (a, f)); [done|done|by rewrite Hat].
  - apply (logging_ends t b tmp seq lw). split; [done|]. by exists w.
  - destruct (front_run t (Logged tmp s se seq lw) n) as (m & Hm & _ & (Hl2 & w2 & Hw2 & Hat2) & Hr2); [done|split; [done|by exists w]|].
    destruct (run_cases _ _ _ _ t _ _ (queue_always m) Hr2) as (w3 & w4 & Hw3 & _ & _ & _ & Hc2). rewrite Hw2 in Hw3. injection Hw3 as <-. rewrite Hat2 in Hc2.
    exists (S m). split; [lia|done].
Qed.

(** *** The queue moves on *)

(** A finished writer stays signalled until it runs. *)
Lemma notified_stays k t w : thread k t = Some w → w_at w = Notified → w_done w = true → lab k ≠ Some (Run t) →
  ∃ w', thread (S k) t = Some w' ∧ w_at w' = Notified ∧ w_done w' = true.
Proof using Hex.
  intros Hw Hat Hd Hlab. assert (∃ w', thread (S k) t = Some w' ∧ stays w w') as (w' & Hw' & Hst); [|exists w'; split_and!; [done|by apply (st_notified _ _ Hst)|by apply (st_done _ _ Hst)]].
  pose proof (ex_step _ _ Hex k) as Hs. destruct (lab k) as [l|]; [|rewrite Hs; exists w; split; [done|apply stays_refl]].
  inversion Hs as [t' updates sync sy sy' Hc|t' sy sy' Hr|t' sy|sy db' Ho]; subst.
  - destruct (Write_call_ok t' updates sync _ _ (queue_always k) Hc) as (_ & _ & Hnone & Hsame). rewrite Hsame by congruence. exists w. split; [done|apply stays_refl].
  - destruct (run_stays _ _ _ _ _ _ _ Hr t w Hw) as (w' & Hw' & Hst). exists w'. split; [done|]. apply Hst. congruence.
  - cbn. destruct (decide (t = t')) as [->|Hne]; [rewrite lookup_alter_eq, Hw; eexists; split; [done|apply (signal_stays Status_OK)]|rewrite lookup_alter_ne by done; exists w; split; [done|apply stays_refl]].
  - cbn. rewrite lookup_fmap, Hw. eexists. split; [done|apply (signal_stays Status_OK)].
Qed.

(** Writers leave at the front and come in at the end. *)
Lemma queue_next n : ∃ pre ext, queue n ++ ext = pre ++ queue (S n) ∧ (∀ t, t ∈ ext → thread n t = None) ∧ ∀ t, is_Some (thread n t) → is_Some (thread (S n) t).
Proof using Hex.
  pose proof (ex_step _ _ Hex n) as Hs. pose proof (queue_always n) as Hq. destruct (lab n) as [l|]; [|rewrite Hs; exists [], []; rewrite app_nil_r; split_and!; [done|by intros t ?%not_elem_of_nil|done]].
  inversion Hs as [t updates sync sy sy' Hc|t sy sy' Hr|t sy|sy db' Ho]; subst.
  - destruct (Write_call_ok t updates sync _ _ Hq Hc) as (_ & Hqq & Hnone & Hsame). exists [], [t]. split; [done|]. split; [by intros x ->%list_elem_of_singleton|].
    intros x Hx. rewrite Hsame; [done|]. intros ->. rewrite Hnone in Hx. by destruct Hx.
  - destruct (run_cases _ _ _ _ t _ _ Hq Hr) as (w & w' & _ & _ & _ & Hqq & _).
    assert (∀ x, is_Some (thread n x) → is_Some (thread (S n) x)) as Hth by (intros x [wx Hx]; destruct (run_stays _ _ _ _ _ _ _ Hr x wx Hx) as (? & -> & _); by eexists).
    destruct Hqq as [->|[_ (g & _ & ->)]]; [exists [], []|exists g, []]; rewrite app_nil_r; split_and!; try done; by intros x ?%not_elem_of_nil.
  - exists [], []. cbn. rewrite app_nil_r. split_and!; [done|by intros x ?%not_elem_of_nil|]. intros x Hx. destruct (decide (x = t)) as [->|Hne]; [rewrite lookup_alter_eq; by apply fmap_is_Some|by rewrite lookup_alter_ne].
  - exists [], []. cbn. rewrite app_nil_r. split_and!; [done|by intros x ?%not_elem_of_nil|]. intros x Hx. rewrite lookup_fmap. by apply fmap_is_Some.
Qed.

Lemma queue_later n d : ∃ pre ext, queue n ++ ext = pre ++ queue (n + d)%nat ∧ (∀ t, t ∈ ext → thread n t = None) ∧ ∀ t, is_Some (thread n t) → is_Some (thread (n + d)%nat t).
Proof using Hex.
  induction d as [|d (pre & ext & IH1 & IH2 & IH3)]; [exists [], []; rewrite Nat.add_0_r, app_nil_r; split_and!; [done|by intros t ?%not_elem_of_nil|done]|].
  rewrite Nat.add_succ_r. destruct (queue_next (n + d)) as (pre' & ext' & H1 & H2 & H3). exists (pre ++ pre'), (ext ++ ext'). split_and!.
  - by rewrite (assoc_L (++)), IH1, <- !(assoc_L (++)), H1.
  - intros t [Ht|Ht]%elem_of_app; [by apply IH2|]. destruct (thread n t) as [wx|] eqn:Hx; [|done]. destruct (IH3 t ltac:(by eexists)) as [w Hw]. rewrite H2 in Hw by done. done.
  - intros t Ht. by apply H3, IH3.
Qed.

(** A writer off the queue returns. *)
Lemma gone_returns t n w : thread n t = Some w → t ∉ queue n → ∃ m s w', (n ≤ m)%nat ∧ thread m t = Some w' ∧ w_at w' = Returned s.
Proof using Hex Hfair.
  intros Hw Hno. pose proof (proj1 (writer_gone _ _ w Hno) (qo_writer _ (queue_always n) t w Hw)) as [[Hd Hat]|[s Hat]]; [|by exists n, s, w].
  destruct (until_run (λ sy, ∃ w, sy_threads sy !! t = Some w ∧ w_at w = Notified ∧ w_done w = true) t n) as (m & Hm & _ & (w1 & Hw1 & Hat1 & Hd1) & Hr).
  - by exists w.
  - apply (Hfair n t w Hw). by rewrite Hat.
  - intros k (wk & Hwk & Hatk & Hdk) Hnr. apply (notified_stays k t wk); done.
  - destruct (run_cases _ _ _ _ t _ _ (queue_always m) Hr) as (w0 & w' & Hw0 & Hw' & _ & _ & Hc). rewrite Hw1 in Hw0. injection Hw0 as <-. rewrite Hat1, Hd1 in Hc.
    exists (S m), (w_status w1), w'. split_and!; [lia|done|done].
Qed.

Lemma queued_returns t : ∀ i n, queue n !! i = Some t → ∃ m s w', (n ≤ m)%nat ∧ thread m t = Some w' ∧ w_at w' = Returned s.
Proof using Hex Hfair Hbg Hsize.
  intros i. induction (lt_wf i) as [i _ IH]. intros n Hi. destruct (queue n) as [|f q] eqn:Hqn; [done|].
  destruct (front_leaves f n) as (m & Hm & Hf); [unfold led; by rewrite Hqn|].
  destruct (queue_later n (m - n)) as (pre & ext & Hpre & Hext & Hth). replace (n + (m - n))%nat with m in * by lia.
  assert (t ∈ queue n) as Hin by (rewrite Hqn; by eapply list_elem_of_lookup_2). destruct (qo_threads _ (queue_always n) t Hin) as [w Hw].
  destruct (Hth t ltac:(by eexists)) as [wm Hwm]. destruct (decide (t ∈ queue m)) as [Hqm|Hqm].
  - assert (pre ≠ []) as Hne by (intros ->; apply Hf; cbn in Hpre; rewrite <- Hpre, Hqn; left). apply list_elem_of_lookup in Hqm as [j Hj].
    assert ((pre ++ queue m) !! (length pre + j)%nat = Some t) as Hj' by (rewrite lookup_app_r by lia; by replace (length pre + j - length pre)%nat with j by lia).
    rewrite <- Hpre in Hj'. assert (length pre + j = i)%nat as Hij.
    { apply lookup_app_Some in Hj' as [Hj'|[_ Hj']]; [|apply list_elem_of_lookup_2, Hext in Hj'; congruence].
      apply (NoDup_lookup _ _ _ _ (qo_nodup _ (queue_always n)) Hj'). by rewrite Hqn. }
    destruct pre as [|x pre]; [done|]. cbn in Hij. destruct (IH j ltac:(lia) m Hj) as (m' & s & w' & ? & ? & ?). exists m', s, w'. split_and!; [lia|done|done].
  - destruct (gone_returns t m wm Hwm Hqm) as (m' & s & w' & ? & ? & ?). exists m', s, w'. split_and!; [lia|done|done].
Qed.
End run_on.

(** ** Claims *)

(** C10: every write returns.  In every execution that starts with no writers, in
    which threads that can run do, and in which background work keeps letting a
    writer that needs room have it, every thread that calls [Write] returns from it
    with a status: the group commit loses no writer and no wake-up, whatever the
    interleaving of callers, sync and non-sync writes, errors and spurious wake-ups. *)
Theorem write_returns (σ : nat → System) (lab : nat → option Label) : execution σ lab → fair σ lab → background_catches_up σ lab →
  ∀ n t w, sy_threads (σ n) !! t = Some w → ∃ m s w', (n ≤ m)%nat ∧ sy_threads (σ m) !! t = Some w' ∧ w_at w' = Returned s.
Proof using Hsize.
  intros Hex Hfair Hbg n t w Hw. destruct (decide (t ∈ sy_writers (σ n))) as [[i Hi]%list_elem_of_lookup|Hno].
  - by apply (queued_returns σ lab Hex Hfair Hbg t i n).
  - by apply (gone_returns σ lab Hex Hfair t n w).
Qed.
End liveness.

(** ** Examples *)

(** Executions given by a finite schedule: nothing happens after it. *)
Section schedules.
Context {C : Type} `{!Comparator C} (icmp : InternalKeyComparator C) (new_array : list piece → Z → Z).
Context {E : Type} `{!FileSystem E} (dbname : list byte) (write_buffer_size : Z).
Notation System := (System (C := C) (E := E)).
Notation run := (run icmp new_array dbname write_buffer_size).
Context (start : System) (sched : list Label).

Definition next_state (sy : System) (l : Label) : option System :=
  match l with Call t updates sync => Write_call t updates sync sy | Run t => run t sy | _ => None end.

Fixpoint states (sy : System) (l : list Label) : option (list System) :=
  match l with
  | [] => Some [sy]
  | a :: l => sy' ← next_state sy a; rest ← states sy' l; Some (sy :: rest)
  end.

Definition state_at (l : list System) (n : nat) : System := nth n l (List.last l start).

(** Every thread that can run, runs again in the schedule; one that makes room is
    out of the loop at the end. *)
Definition check_schedule (l : list System) : bool :=
  forallb (λ x : nat * System, forallb (λ y : nat * Writer,
    (negb (runnable (w_at y.2)) || existsb (λ a, bool_decide (a = Run y.1)) (drop x.1 sched)) &&
    (bool_decide (room_flags (w_at y.2) = None) ||
     match sy_threads (List.last l start) !! y.1 with Some w => bool_decide (room_flags (w_at w) = None) | None => false end))
    (map_to_list (sy_threads x.2))) (imap pair l).

Lemma states_length sy l ss : states sy l = Some ss → length ss = S (length l).
Proof.
  revert sy ss. induction l as [|a l IH]; intros sy ss; cbn [states]; [by intros [= <-]|]. intros (sy' & _ & (rest & Hr & [= <-])%bind_Some)%bind_Some. cbn. f_equal. by apply (IH sy').
Qed.

Lemma states_step sy l ss : states sy l = Some ss → head ss = Some sy ∧ ∀ n a s s', l !! n = Some a → ss !! n = Some s → ss !! S n = Some s' → next_state s a = Some s'.
Proof.
  revert sy ss. induction l as [|b l IH]; intros sy ss; cbn [states]; [intros [= <-]; by split|]. intros (sy' & Hn & (rest & Hr & [= <-])%bind_Some)%bind_Some.
  destruct (IH sy' rest Hr) as [Hh Hs]. split; [done|]. intros [|n] a s s' Ha Hs1 Hs2; cbn in *; [|by apply (Hs n)]. destruct rest as [|r rest]; [done|]. injection Hh as ->. injection Hs2 as <-. congruence.
Qed.

Lemma schedule_ok ss : states start sched = Some ss → sy_writers start = [] → sy_threads start = ∅ → check_schedule ss = true →
  execution icmp new_array dbname write_buffer_size (state_at ss) (λ n, sched !! n) ∧
  fair (state_at ss) (λ n, sched !! n) ∧ background_catches_up (state_at ss) (λ n, sched !! n).
Proof.
  intros Hss Hq Ht Hc. pose proof (states_length _ _ _ Hss) as Hlen. destruct (states_step _ _ _ Hss) as [Hh Hs].
  assert (∀ n s, ss !! n = Some s → state_at ss n = s) as Hat by (intros n s Hn; unfold state_at; rewrite nth_lookup, Hn; done).
  assert (∀ n, (length ss ≤ n)%nat → state_at ss n = List.last ss start) as Hend by (intros n Hn; unfold state_at; by apply nth_overflow).
  assert (ss !! length sched = Some (List.last ss start)) as Hlast.
  { destruct (lookup_lt_is_Some_2 ss (length sched)) as [x Hx]; [lia|]. rewrite Hx. f_equal. assert (last ss = Some x) as Hl by (rewrite last_lookup, Hlen; done).
    apply last_Some in Hl as [l ->]. by rewrite List.last_last. }
  assert (∀ n, ∃ k, (k ≤ n)%nat ∧ (n ≤ k ∨ k = length sched)%nat ∧ ss !! k = Some (state_at ss n)) as Hk.
  { intros n. destruct (decide (n < length ss)%nat) as [Hl|Hl].
    - exists n. destruct (lookup_lt_is_Some_2 ss n Hl) as [x Hx]. split; [lia|]. split; [lia|]. by rewrite (Hat n x Hx).
    - exists (length sched). split; [lia|]. split; [lia|]. rewrite Hend by lia. done. }
  assert (∀ n t w, sy_threads (state_at ss n) !! t = Some w → ∃ k, (k ≤ n)%nat ∧ (n ≤ k ∨ k = length sched)%nat ∧
    (runnable (w_at w) = true → ∃ m, (k ≤ m)%nat ∧ sched !! m = Some (Run t)) ∧
    (room_flags (w_at w) = None ∨ ∃ w', sy_threads (List.last ss start) !! t = Some w' ∧ room_flags (w_at w') = None)) as Hcheck.
  { intros n t w Hw. destruct (Hk n) as (k & Hkn & Hor & Hks). exists k. split; [done|]. split; [done|].
    unfold check_schedule in Hc. rewrite forallb_forall in Hc. specialize (Hc (k, state_at ss n)).
    assert (forallb (λ y : nat * Writer, (negb (runnable (w_at y.2)) || existsb (λ a, bool_decide (a = Run y.1)) (drop k sched)) &&
      (bool_decide (room_flags (w_at y.2) = None) || match sy_threads (List.last ss start) !! y.1 with Some w => bool_decide (room_flags (w_at w) = None) | None => false end))
      (map_to_list (sy_threads (state_at ss n))) = true) as Hy.
    { apply Hc. apply list_elem_of_In, list_elem_of_lookup. exists k. by rewrite list_lookup_imap, Hks. }
    rewrite forallb_forall in Hy. specialize (Hy (t, w)). cbn [fst snd] in Hy. assert (In (t, w) (map_to_list (sy_threads (state_at ss n)))) as Hin by (by apply list_elem_of_In, elem_of_map_to_list).
    apply Hy, andb_true_iff in Hin as [H1 H2]. split.
    - intros Hr. rewrite Hr in H1. cbn in H1. apply existsb_exists in H1 as (a & Ha%list_elem_of_In & ->%bool_decide_eq_true). apply list_elem_of_lookup in Ha as [i Hi].
      rewrite lookup_drop in Hi. exists (k + i)%nat. split; [lia|done].
    - apply orb_true_iff in H2 as [H2%bool_decide_eq_true|H2]; [by left|]. destruct (sy_threads (List.last ss start) !! t) as [w'|]; [|done]. right. exists w'. split; [done|]. by apply bool_decide_eq_true in H2. }
  split_and!.
  - split.
    + destruct ss as [|s ss]; [done|]. injection Hh as ->. done.
    + intros n. destruct (sched !! n) as [a|] eqn:Ha.
      * pose proof (lookup_lt_Some _ _ _ Ha) as Hn. destruct (lookup_lt_is_Some_2 ss n) as [s Hsn]; [lia|]. destruct (lookup_lt_is_Some_2 ss (S n)) as [s' Hsn']; [lia|].
        rewrite (Hat n s Hsn), (Hat (S n) s' Hsn'). pose proof (Hs n a s s' Ha Hsn Hsn') as Hnx. destruct a; cbn in Hnx; try done; by constructor.
      * apply lookup_ge_None in Ha. destruct (decide (n = length sched)) as [->|Hne]; [|rewrite !Hend by lia; done]. rewrite (Hend (S _)) by lia. symmetry. by apply Hat.
  - intros n t w Hw Hr. destruct (Hcheck n t w Hw) as (k & Hkn & Hor & Hf & _). destruct (Hf Hr) as (m & Hm & Hl). exists m. split; [|done].
    destruct Hor as [?|Hk']; [lia|]. apply lookup_lt_Some in Hl. lia.
  - intros n t w Hw [fl Hfl]. destruct (Hcheck n t w Hw) as (k & Hkn & Hor & _ & [Hno|(w' & Hw' & Hno)]); [congruence|].
    exists (n `max` length ss)%nat, w'. split; [lia|]. rewrite Hend by lia. split; [done|by left].
Qed.
End schedules.

(** A database with an empty memtable and a new log. *)
Definition example_db : option (DBImpl (C := BytewiseComparatorImpl) (E := InMemoryEnv)) :=
  db ← DBImpl_new InMemoryEnv_new;
  '(e, file, _) ← fs_NewWritableFile (LogFileName (str "/db") 1) (db_env db);
  file ← file;
  let db := set_logfile (Some file) (Some 0%nat) 1 (set_env e (db_versions db) db) in
  let '(id, db) := new_memtable version_icmp linear_new db in
  Some (set_mems (db_mems db) (db_next_mem db) (Some id) None db).

Definition example_batch (key : list byte) : option WriteBatch := WriteBatch_Put key (str "value") WriteBatch_new.

(** Two writers; the first writes both batches. *)
Definition example_schedule : list Label :=
  [Call 0 (example_batch (str "a")) false; Call 1 (example_batch (str "b")) false; Run 0; Run 0; Run 0; Run 1].

Definition example_states : option (list (System (C := BytewiseComparatorImpl) (E := InMemoryEnv))) :=
  db ← example_db;
  states version_icmp linear_new (str "/db") 65536 {| sy_db := db; sy_writers := []; sy_threads := ∅ |} example_schedule.

Definition example_checks : bool :=
  match example_db, example_states with
  | Some db, Some ss => check_schedule {| sy_db := db; sy_writers := []; sy_threads := ∅ |} example_schedule ss &&
      match ss !! 2%nat with Some sy => match w_at <$> sy_threads sy !! 1%nat with Some Waiting => true | _ => false end | None => false end
  | _, _ => false
  end.

Lemma example_checks_ok : example_checks = true.
Proof. vm_compute. reflexivity. Qed.

Lemma write_returns_witness : ∃ db ss, example_db = Some db ∧ example_states = Some ss ∧
  let σ := state_at {| sy_db := db; sy_writers := []; sy_threads := ∅ |} ss in
  (∃ w, sy_threads (σ 2%nat) !! 1%nat = Some w ∧ w_at w = Waiting) ∧
  ∃ m s w', (2 ≤ m)%nat ∧ sy_threads (σ m) !! 1%nat = Some w' ∧ w_at w' = Returned s.
Proof.
  pose proof example_checks_ok as Hc. unfold example_checks in Hc. destruct example_db as [db|] eqn:Hdb; [|discriminate Hc].
  destruct example_states as [ss|] eqn:Hss; [|discriminate Hc]. apply andb_true_iff in Hc as [Hcheck Hw]. exists db, ss. split; [done|]. split; [done|]. cbv zeta.
  unfold example_states in Hss. rewrite Hdb in Hss. cbn [mbind option_bind] in Hss.
  destruct (schedule_ok _ _ _ _ _ _ ss Hss eq_refl eq_refl Hcheck) as (Hex & Hfair & Hbg).
  destruct (ss !! 2%nat) as [sy|] eqn:H2; [|discriminate Hw]. destruct (sy_threads sy !! 1%nat) as [w|] eqn:Ht; [|discriminate Hw].
  assert (state_at {| sy_db := db; sy_writers := []; sy_threads := ∅ |} ss 2 = sy) as Hsy by (unfold state_at; by rewrite nth_lookup, H2).
  rewrite Hsy, Ht. split; [exists w; split; [done|]; cbn in Hw; by destruct (w_at w)|].
  assert (ApproximateMemoryUsage (MemTable_new linear_new version_icmp) <= 65536) as Hsize by (apply Z.leb_le; vm_compute; reflexivity).
  apply (write_returns version_icmp linear_new (str "/db") 65536 Hsize _ _ Hex Hfair Hbg 2 1%nat w). by rewrite Hsy.
Defined.
