(* ===== verification/GroupCommit.v ===== *)
(** Group commit (db/db_impl.cc, [DBImpl::Write]): what a group holds, and that the
    log always replays to the memtable. *)
From stdpp Require Import gmap.
From S2P Require Import Prelude Coding Env FileSystem MemEnv MemFs Comparator DbFormat Filename LogFormat SkipList Arena MemTable WriteBatch VersionEdit Version VersionBuilder VersionSet Manifest DbImpl DbWrite WriteLiveness.

(** ** The batch of a group *)

(** The operations a writer asks for; a writer without a batch asks for none. *)
Definition writer_ops (w : Writer) (os : list Op) : Prop :=
  match w_batch w with Some b => (∃ q, b = batch q os) ∧ Z.of_nat (length os) < 2 ^ 31 | None => os = [] end.

Definition writer_bytes (w : Writer) : Z := match w_batch w with Some b => ByteSize b | None => 0 end.
Definition group_bytes (ws : list (nat * Writer)) : Z := foldr (λ x n, writer_bytes x.2 + n) 0 ws.

Lemma encode_op_length o : (1 ≤ length (encode_op o))%nat.
Proof. destruct o; cbn; lia. Qed.

Lemma ops_bytes q os : Z.of_nat (length os) <= ByteSize (batch q os).
Proof.
  unfold ByteSize, batch. cbn [wb_rep]. rewrite !length_app. enough (length os ≤ length (os ≫= encode_op))%nat by lia.
  induction os as [|o os IH]; [done|]. cbn. rewrite length_app. pose proof (encode_op_length o). change ((fix list_bind (l : list Op) := match l with [] => [] | x :: l0 => encode_op x ++ list_bind l0 end) os) with (os ≫= encode_op). lia.
Qed.

Lemma writer_bytes_nonneg w : 0 <= writer_bytes w.
Proof. unfold writer_bytes, ByteSize. destruct (w_batch w); lia. Qed.

Lemma group_bytes_cons id w g : group_bytes ((id, w) :: g) = writer_bytes w + group_bytes g.
Proof. done. Qed.

Lemma group_limit_le size : group_limit size <= 2 ^ 20.
Proof. unfold group_limit. rewrite !Z.shiftl_mul_pow2 by lia. destruct (Z.leb_spec size (128 * 2 ^ 10)); lia. Qed.

(** Why the writers from [rest] on stay out of a group of [size] bytes: the next one
    asks for sync and the leader does not, or its batch is too big. *)
Definition group_ends (first : Writer) (max size : Z) (rest : list (nat * Writer)) : Prop :=
  match rest with
  | [] => True
  | (_, w) :: _ => w_sync w = true ∧ w_sync first = false ∨ is_Some (w_batch w) ∧ max < size + writer_bytes w
  end.

(** The loop takes a prefix [g] of the writers; the batch holds the operations of
    the group in order. *)
Lemma group_loop_spec first q0 os0 max rest : max <= 2 ^ 20 → ∀ oss size result is_tmp last_writer acc,
  Forall2 (λ x os, writer_ops x.2 os) rest oss → (∃ q, result = batch q acc) → (is_tmp = false → acc = os0) → Z.of_nat (length acc) <= size →
  ∃ g rest' result' is_tmp' q, rest = g ++ rest' ∧
    group_loop first (batch q0 os0) max rest size result is_tmp WriteBatch_Clear last_writer = Some (result', is_tmp', default last_writer (last g.*1)) ∧
    result' = batch q (acc ++ mjoin (take (length g) oss)) ∧
    Forall (λ x, w_sync x.2 = true → w_sync first = true) g ∧ (group_bytes g = 0 ∨ size + group_bytes g <= max) ∧ group_ends first max (size + group_bytes g) rest'.
Proof.
  intros Hmax. induction rest as [|[id w] rest IH]; intros oss size result is_tmp last_writer acc Hops [q ->] Htmp Hsz; cbn [group_loop].
  { exists [], [], (batch q acc), is_tmp, q. split_and!; try done; [by rewrite take_0, app_nil_r|by left]. }
  assert (group_ends first max size ((id, w) :: rest) → ∃ g rest' result' is_tmp' q', (id, w) :: rest = g ++ rest' ∧ Some (batch q acc, is_tmp, last_writer) = Some (result', is_tmp', default last_writer (last g.*1)) ∧
    result' = batch q' (acc ++ mjoin (take (length g) oss)) ∧ Forall (λ x, w_sync x.2 = true → w_sync first = true) g ∧ (group_bytes g = 0 ∨ size + group_bytes g <= max) ∧
    group_ends first max (size + group_bytes g) rest') as Hstop.
  { intros Hend. exists [], ((id, w) :: rest), (batch q acc), is_tmp, q. split_and!; try done; [by rewrite take_0, app_nil_r|by left|by rewrite Z.add_0_r]. }
  apply Forall2_cons_inv_l in Hops as (os & oss' & Hos & Hops & ->). unfold writer_ops in Hos. cbn [snd] in Hos.
  destruct (w_sync w && negb (w_sync first)) eqn:Hsync; [apply Hstop; left; by destruct (w_sync w), (w_sync first)|].
  assert (w_sync w = true → w_sync first = true) as Hsy by (destruct (w_sync w), (w_sync first); done).
  assert (∀ g : list (nat * Writer), default last_writer (last ((id, w) :: g).*1) = default id (last g.*1)) as Hlast by (intros g; rewrite fmap_cons, last_cons; by destruct (last g.*1)).
  destruct (w_batch w) as [b|] eqn:Hb.
  - destruct Hos as [[qb ->] Hosn]. assert (writer_bytes w = ByteSize (batch qb os)) as Hwb by (unfold writer_bytes; by rewrite Hb).
    cbv zeta. destruct (Z.ltb_spec max (size + ByteSize (batch qb os))) as [|Hle]; [apply Hstop; right; split; [by rewrite Hb|lia]|].
    pose proof (ops_bytes qb os) as Hbytes.
    assert (∃ q1, (if is_tmp then Some (batch q acc) else n ← Count WriteBatch_Clear; if n =? 0 then WriteBatch_Append WriteBatch_Clear (batch q0 os0) else None) = Some (batch q1 acc)) as [q1 ->].
    { destruct is_tmp; [by exists q|]. rewrite batch_empty, Count_batch by done. cbn [mbind option_bind length Z.of_nat Z.eqb]. rewrite Append_batch; [exists 0; by rewrite (Htmp eq_refl)|].
      cbn [length]. rewrite <- (Htmp eq_refl). lia. }
    cbn [mbind option_bind]. rewrite Append_batch by lia. cbn [mbind option_bind].
    destruct (IH oss' (size + ByteSize (batch qb os)) (batch q1 (acc ++ os)) true id (acc ++ os) Hops ltac:(by eexists) ltac:(done) ltac:(rewrite length_app; lia))
      as (g & rest' & r & tmp' & q' & -> & -> & Hr & Hfs & Hgb & Hend).
    exists ((id, w) :: g), rest', r, tmp', q'. rewrite group_bytes_cons, Hwb, Z.add_assoc.
    split_and!; [done|by rewrite Hlast|cbn [length take mjoin list_join]; by rewrite (assoc_L (++))|by constructor| |done]. right. destruct Hgb as [->|?]; lia.
  - subst os. assert (writer_bytes w = 0) as Hwb by (unfold writer_bytes; by rewrite Hb).
    destruct (IH oss' size (batch q acc) is_tmp id acc Hops ltac:(by eexists) Htmp Hsz) as (g & rest' & r & tmp' & q' & -> & -> & Hr & Hfs & Hgb & Hend).
    exists ((id, w) :: g), rest', r, tmp', q'. rewrite group_bytes_cons, Hwb. by split_and!; [|rewrite Hlast| |constructor|destruct Hgb; [left|right]; lia|].
Qed.

(** How many bytes a group may have: a small leader is not slowed down. *)
Definition most_bytes (first : Writer) : Z := if bool_decide (writer_bytes first <= 131072) then writer_bytes first + 131072 else 1048576.

Lemma BuildBatchGroup_spec id first rest os0 oss : is_Some (w_batch first) → writer_ops first os0 → Forall2 (λ x os, writer_ops x.2 os) rest oss →
  ∃ g rest' is_tmp q, rest = g ++ rest' ∧
    BuildBatchGroup ((id, first) :: rest) WriteBatch_Clear = Some (batch q (os0 ++ mjoin (take (length g) oss)), is_tmp, default id (last g.*1)) ∧
    Forall (λ x, w_sync x.2 = true → w_sync first = true) g ∧
    (group_bytes g = 0 ∨ writer_bytes first + group_bytes g <= most_bytes first) ∧ group_ends first (most_bytes first) (writer_bytes first + group_bytes g) rest' ∧
    Z.of_nat (length (os0 ++ mjoin (take (length g) oss))) < 2 ^ 31.
Proof.
  intros [b Hb] Hos Hops. unfold writer_ops in Hos. rewrite Hb in Hos. destruct Hos as [[q0 ->] Hn]. cbn [BuildBatchGroup]. rewrite Hb. cbn [mbind option_bind]. cbv zeta.
  pose proof (ops_bytes q0 os0) as Hbytes. pose proof (group_limit_le (ByteSize (batch q0 os0))) as Hlim.
  assert (writer_bytes first = ByteSize (batch q0 os0)) as Hfb by (unfold writer_bytes; by rewrite Hb).
  assert (most_bytes first = group_limit (ByteSize (batch q0 os0))) as ->.
  { unfold most_bytes, group_limit. rewrite Hfb. change (Z.shiftl 128 10) with 131072. change (Z.shiftl 1 20) with 1048576. destruct (Z.leb_spec (ByteSize (batch q0 os0)) 131072); [rewrite bool_decide_true by done|rewrite bool_decide_false by lia]; done. }
  rewrite Hfb. destruct (group_loop_spec first q0 os0 (group_limit (ByteSize (batch q0 os0))) rest Hlim oss (ByteSize (batch q0 os0)) (batch q0 os0) false id os0 Hops ltac:(by eexists) ltac:(done) Hbytes)
    as (g & rest' & r & tmp' & q' & Hrest & -> & -> & Hfs & Hgb & Hend).
  exists g, rest', tmp', q'. split; [done|]. split; [done|]. split; [done|].
  assert (Z.of_nat (length (mjoin (take (length g) oss))) <= group_bytes g) as Hjoin.
  { rewrite Hrest in Hops. apply Forall2_app_inv_l in Hops as (oss1 & oss2 & H1 & _ & ->). rewrite (Forall2_length _ _ _ H1), take_app_length.
    clear -H1. induction H1 as [|[i w] os g oss Hw _ IH]; [done|]. rewrite group_bytes_cons. change (mjoin (os :: oss)) with (os ++ mjoin oss). rewrite length_app.
    enough (Z.of_nat (length os) <= writer_bytes w) by lia. unfold writer_ops, writer_bytes in *. cbn in Hw. destruct (w_batch w); [destruct Hw as [[q ->] _]; apply ops_bytes|by subst]. }
  split; [done|]. split; [done|]. rewrite length_app. destruct Hgb; lia.
Qed.

(** ** The log and the memtable *)

(** Groups as they are logged: the first sequence number and the operations. *)
Notation group := (Z * list Op)%type (only parsing).

Definition group_record (x : group) : list byte := Contents (batch x.1 x.2).

Lemma group_record_eq q os : group_record (q, os) = Contents (batch q os).
Proof. unfold group_record. cbn [fst snd]. reflexivity. Qed.

(** The entries a memtable holds after the groups, newest first. *)
Definition replay (groups : list group) : list (ParsedInternalKey * list byte) :=
  foldl (λ es x, reverse (batch_entries x.1 x.2) ++ es) [] groups.

(** The groups are numbered from [q] on without gaps; [q'] is the last number. *)
Fixpoint numbered (q : Z) (groups : list group) (q' : Z) : Prop :=
  match groups with
  | [] => q = q'
  | (n, os) :: groups => n = q + 1 ∧ numbered (q + Z.of_nat (length os)) groups q'
  end.

Lemma numbered_snoc q groups q' os : numbered q groups q' → numbered q (groups ++ [(q' + 1, os)]) (q' + Z.of_nat (length os)).
Proof.
  revert q. induction groups as [|[n os'] groups IH]; intros q; cbn [numbered app]; [by intros ->|]. intros [-> H]. split; [done|by apply IH].
Qed.

Lemma replay_snoc groups x : replay (groups ++ [x]) = reverse (batch_entries x.1 x.2) ++ replay groups.
Proof. unfold replay. by rewrite foldl_app. Qed.

Lemma replay_range q groups q' : numbered q groups q' → q <= q' ∧ Forall (λ e : ParsedInternalKey * list byte, sequence e.1 <= q') (replay groups).
Proof.
  revert q'. induction groups as [|[n os] groups IH] using rev_ind; intros q'; [intros ->; by split|]. rewrite replay_snoc. cbn [fst snd].
  intros H. assert (∃ q1, numbered q groups q1 ∧ n = q1 + 1 ∧ q' = q1 + Z.of_nat (length os)) as (q1 & H1 & -> & ->).
  { clear IH. revert q H. induction groups as [|[m os'] groups IH]; intros q; cbn [numbered app]; [intros [-> <-]; by exists q|]. intros [-> H]. destruct (IH _ H) as (q1 & ? & ? & ?). by exists q1. }
  destruct (IH _ H1) as [Hle Hall]. split; [lia|]. apply Forall_app. split.
  - apply Forall_forall. intros e He%elem_of_reverse%batch_entries_range. lia.
  - eapply Forall_impl; [exact Hall|]. cbn. lia.
Qed.

Lemma groups_snoc groups x : (encode_log 0 (group_record <$> groups ++ [x])).1 =
    (encode_log 0 (group_record <$> groups)).1 ++ (encode_record (encode_log 0 (group_record <$> groups)).2 (group_record x)).1 ∧
  (encode_log 0 (group_record <$> groups ++ [x])).2 = (encode_record (encode_log 0 (group_record <$> groups)).2 (group_record x)).2.
Proof.
  rewrite fmap_app, list_fmap_singleton, encode_log_snoc. generalize (encode_record (encode_log 0 (group_record <$> groups)).2 (group_record x)), (encode_log 0 (group_record <$> groups)).1. by intros [? ?] ?.
Qed.

Lemma LogFileName_inj dbname a b : 0 <= a < 2 ^ 64 → 0 <= b < 2 ^ 64 → LogFileName dbname a = LogFileName dbname b → a = b.
Proof.
  intros Ha Hb Heq. destruct (ParseFileName_roundtrip dbname a Ha) as [[H1 _] _], (ParseFileName_roundtrip dbname b Hb) as [[H2 _] _]. cbv zeta in *.
  rewrite Heq in H1. congruence.
Qed.

Section wal.
Context {C : Type} `{!Comparator C} {uvalid : list byte → Prop} `{!ComparatorLaws C uvalid} (icmp : InternalKeyComparator C) (new_array : list piece → Z → Z).
Context {E : Type} `{!FileSystem E} {env_ok : E → Prop} {files : E → list byte → option (list byte)}
  {writing : E → WFile E → list byte → Prop} {reading : E → SFile E → list byte → Prop} {pos : SFile E → nat}
  `{!FileSystemLaws E env_ok files writing reading pos}.
Context (dbname : list byte) (write_buffer_size : Z).
Notation System := (System (C := C) (E := E)).
Notation DBImpl := (DBImpl (C := C) (E := E)).
Notation run := (run icmp new_array dbname write_buffer_size).
Notation step := (step icmp new_array dbname write_buffer_size).
Notation log_name db := (LogFileName dbname (db_logfile_number db)).
Notation last_sequence db := (vs_last_sequence_ (db_versions db)).
Implicit Types (sy : System) (t : nat) (w : Writer) (db : DBImpl).

(** The current log holds the groups, and the memtable holds their entries. *)
Record wal db (groups : list group) (first last : Z) : Prop := {
  wal_env : env_ok (db_env db);
  wal_file : ∃ h, db_logfile db = Some h ∧ writing (db_env db) h (log_name db);
  wal_content : files (db_env db) (log_name db) = Some (encode_log 0 (group_record <$> groups)).1;
  wal_offset : db_log db = Some (encode_log 0 (group_record <$> groups)).2;
  wal_block : ((encode_log 0 (group_record <$> groups)).2 ≤ LogFormat.kBlockSize)%nat;
  wal_mem : ∃ id m, db_mem db = Some id ∧ db_mems db !! id = Some m ∧ mem_repr (uvalid := uvalid) m (replay groups) ∧ MemTable.comparator_ m = icmp;
  wal_ops : Forall (λ x : group, Forall (mem_op uvalid) x.2 ∧ Z.of_nat (length x.2) < 2 ^ 31) groups;
  wal_numbers : numbered first groups last;
  wal_range : 0 <= first ∧ last <= kMaxSequenceNumber;
  wal_number : 0 <= db_logfile_number db < vs_next_file_number_ (db_versions db) ∧ vs_next_file_number_ (db_versions db) < 2 ^ 64 - 1;
}.

Lemma log_group_run db b sync h o e1 h1 o1 crc e2 id m m' : db_logfile db = Some h → db_log db = Some o →
  AddRecord (Contents b) (open_log h o (db_env db)) = Some ({| dest_ := Some (e1, h1); block_offset_ := o1; type_crc_ := crc |}, Status_OK) →
  (if sync : bool then fs_Sync h1 e1 = Some (e2, Status_OK) else e2 = e1) → db_mem db = Some id → db_mems db !! id = Some m → InsertInto new_array b m = Some (m', Status_OK) →
  log_group new_array b sync db = Some (Status_OK, false,
    set_mems (<[id := m']> (db_mems db)) (db_next_mem db) (Some id) (db_imm db) (set_logfile (Some h1) (Some o1) (db_logfile_number db) (set_env e2 (db_versions db) db))).
Proof.
  intros H1 H2 H3 H4 H5 H6 H7. unfold log_group. rewrite H1, H2. cbn [mbind option_bind]. rewrite H3. cbn [mbind option_bind dest_ block_offset_ ok state_ Status_OK andb].
  destruct sync; [rewrite H4|subst e2]; cbn [mbind option_bind ok state_ Status_OK negb set_logfile set_env db_mem db_mems]; rewrite H5; cbn [mbind option_bind]; rewrite H6; cbn [mbind option_bind]; rewrite H7; done.
Qed.

Lemma log_group_spec db groups first os sync : wal db groups first (last_sequence db) → Forall (mem_op uvalid) os → Z.of_nat (length os) < 2 ^ 31 →
  last_sequence db + Z.of_nat (length os) <= kMaxSequenceNumber →
  ∃ db', log_group new_array (batch (last_sequence db + 1) os) sync db = Some (Status_OK, false, db') ∧
    wal db' (groups ++ [(last_sequence db + 1, os)]) first (last_sequence db + Z.of_nat (length os)) ∧
    db_versions db' = db_versions db ∧ db_tmp_batch db' = db_tmp_batch db ∧ db_bg_error db' = db_bg_error db.
Proof.
  intros [Henv (h & Hlf & Hwr) Hcont Hoff Hblk (id & m & Hmem & Hm & Hrepr & Hcmp) Hops Hnum [Hf Hl] Hno] Hos Hn Hmax.
  destruct (replay_range _ _ _ Hnum) as [Hle Hall].
  destruct (append_record _ _ _ _ _ (group_record (last_sequence db + 1, os)) Henv Hwr Hcont Hblk) as (e1 & h1 & Hadd & He1 & Hw1 & Hc1 & Hu1 & Hle1).
  rewrite (group_record_eq (last_sequence db + 1) os) in Hadd at 1.
  assert (∃ e2, (if sync then fs_Sync h1 e1 = Some (e2, Status_OK) else e2 = e1) ∧ env_ok e2 ∧ writing e2 h1 (log_name db) ∧ files e2 (log_name db) = files e1 (log_name db)) as (e2 & Hsync & He2 & Hw2 & Hc2).
  { destruct sync; [|by exists e1]. destruct (fs_sync_ok e1 h1 _ He1 Hw1) as (e2 & ? & ? & ? & ? & _). by exists e2. }
  destruct (InsertInto_batch new_array os (last_sequence db + 1) m (replay groups) Hrepr) as (m' & Hins & Hrepr' & Hcmp'); [|done|done|lia|lia|].
  { eapply Forall_impl; [exact Hall|]. cbn. lia. }
  eexists. split; [eapply log_group_run; [done|done|exact Hadd|exact Hsync|done|done|done]|]. split; [|done].
  destruct (groups_snoc groups (last_sequence db + 1, os)) as [Hg1 Hg2].
  split; cbn [set_mems set_logfile set_env db_env db_versions db_mems db_mem db_logfile db_log db_logfile_number].
  - done.
  - by exists h1.
  - by rewrite Hg1, Hc2, Hc1.
  - by rewrite Hg2.
  - by rewrite Hg2.
  - exists id, m'. rewrite lookup_insert_eq, replay_snoc. split_and!; [done|done|done|congruence].
  - apply Forall_app. split; [done|]. by repeat constructor.
  - by apply numbered_snoc.
  - split; lia.
  - done.
Qed.

(** *** Other parts of the database leave the log and the memtable alone *)

(** What [others] may do to the environment: the current log stays as it is. *)
Record log_kept db db' : Prop := {
  lk_env : env_ok (db_env db');
  lk_content : files (db_env db') (log_name db) = files (db_env db) (log_name db);
  lk_writing h : writing (db_env db) h (log_name db) → writing (db_env db') h (log_name db);
  lk_next : vs_next_file_number_ (db_versions db) <= vs_next_file_number_ (db_versions db') < 2 ^ 64 - 1;
}.

Lemma wal_others db db' groups first last : wal db groups first last → others db db' → log_kept db db' → wal db' groups first last.
Proof.
  intros [Henv (h & Hlf & Hwr) Hcont Hoff Hblk (id & m & Hmem & Hm & Hrepr & Hcmp) Hops Hnum Hrange Hno] [Omem Otab Olf Olog Onum Otmp Oseq Oerr] [KE Kc Kw Kn].
  split; rewrite ?Onum; try done.
  - exists h. split; [congruence|by apply Kw].
  - congruence.
  - congruence.
  - exists id, m. rewrite Omem, (Otab id Hmem). done.
  - lia.
Qed.

Lemma switch_memtable_wal db groups first r db' : wal db groups first (last_sequence db) → vs_next_file_number_ (db_versions db') < 2 ^ 64 - 1 →
  switch_memtable icmp new_array dbname db = Some (r, db') →
  r = NewMemTable ∧ wal db' [] (last_sequence db) (last_sequence db) ∧ last_sequence db' = last_sequence db ∧ db_tmp_batch db' = db_tmp_batch db.
Proof.
  intros [Henv (h & Hlf & Hwr) Hcont Hoff Hblk _ Hops Hnum Hrange Hno] Hnext. unfold switch_memtable, NewFileNumber.
  set (n := vs_next_file_number_ (db_versions db)) in *. assert (LogFileName dbname n ≠ log_name db) as Hne by (intros Heq%LogFileName_inj; lia).
  destruct (new_writable_ok (db_env db) (LogFileName dbname n) Henv) as (e1 & h1 & -> & He1 & Hw1 & Hf1 & Hu1). cbn [mbind option_bind ok state_ Status_OK negb].
  rewrite Hlf. cbn [mbind option_bind].
  assert (writing e1 h (log_name db)) as Hwr1 by (apply (un_writing _ _ _ _ _ _ Hu1); [by intros ?%list_elem_of_singleton|done]).
  destruct (fs_close_ok e1 h _ He1 Hwr1) as (e2 & -> & He2 & Hwr2 & Hc2 & Hu2). cbn [mbind option_bind ok state_ Status_OK].
  destruct (delete_writable_ok e2 h _ He2 Hwr2) as (e3 & -> & He3 & Hc3 & Hu3). cbn [mbind option_bind].
  intros (db1 & Hms & [= <- <-])%bind_Some. split; [done|].
  assert (∀ x, x = db1 ∨ db1 = set_background (db_pending_outputs x) (db_bg_error x) true (db_manual x) x → wal x [] (last_sequence db) (last_sequence db) → last_sequence x = last_sequence db →
    db_tmp_batch x = db_tmp_batch db → wal db1 [] (last_sequence db) (last_sequence db) ∧ last_sequence db1 = last_sequence db ∧ db_tmp_batch db1 = db_tmp_batch db) as Hany.
  { intros x [->| ->] Hx Hl Ht; [done|]. destruct Hx. by split_and!. }
  apply MaybeScheduleCompaction_cases in Hms.
  assert (u64 (n + 1) < 2 ^ 64 - 1) as Hn1 by (destruct Hms as [->| ->]; exact Hnext). eapply Hany; [destruct Hms as [->| ->]; [by left|by right]| |done|done].
  assert (∀ m' : list byte, m' = LogFileName dbname n → files e3 m' = Some [] ∧ writing e3 h1 m') as Hnew.
  { intros ? ->. assert (LogFileName dbname n ∉ [log_name db]) as Hnin by (by intros ?%list_elem_of_singleton).
    split; [by rewrite (un_files _ _ _ _ _ _ Hu3), (un_files _ _ _ _ _ _ Hu2) by done|]. by apply (un_writing _ _ _ _ _ _ Hu3), (un_writing _ _ _ _ _ _ Hu2). }
  destruct (Hnew _ eq_refl) as [Hfn Hwn].
  split; cbn [set_background set_mems new_memtable set_logfile set_env db_env db_logfile db_log db_mem db_mems db_next_mem db_logfile_number db_versions snd fst].
  - done.
  - by exists h1.
  - done.
  - done.
  - cbn. lia.
  - eexists _, _. rewrite lookup_insert_eq. split; [done|]. split; [done|]. split; [apply mem_repr_new|done].
  - constructor.
  - done.
  - destruct (replay_range _ _ _ Hnum). lia.
  - cbn [set_numbers vs_next_file_number_]. rewrite u64_small in * by lia. lia.
Qed.

Lemma MakeRoom_wal db groups first a f r db' : wal db groups first (last_sequence db) → vs_next_file_number_ (db_versions db') < 2 ^ 64 - 1 →
  MakeRoom icmp new_array dbname write_buffer_size a f db = Some (r, db') →
  ∃ groups' first', wal db' groups' first' (last_sequence db') ∧ db_tmp_batch db' = db_tmp_batch db.
Proof.
  intros Hw Hnext. unfold MakeRoom. destruct (negb (ok (db_bg_error db))); [intros [= <- <-]; by exists groups, first|].
  intros (l0 & _ & (id & _ & (m & _ & H)%bind_Some)%bind_Some)%bind_Some.
  destruct (a && _); [injection H as <- <-; by exists groups, first|]. destruct (negb f && _); [injection H as <- <-; by exists groups, first|].
  destruct (bool_decide _); [injection H as <- <-; by exists groups, first|]. destruct (_ <=? l0); [injection H as <- <-; by exists groups, first|].
  destruct (_ =? 0); [|done]. destruct (switch_memtable_wal db groups first r db' Hw Hnext H) as (-> & Hw' & Hl & Ht). exists [], (last_sequence db). by rewrite Hl.
Qed.

(** *** The system *)

(** What holds of the log while the front of the queue is at [p]. *)
Definition wal_at db (p : Position) (groups : list group) (first : Z) : Prop :=
  match p with
  | Logging b _ seq _ => wal db groups first (last_sequence db) ∧
      ∃ os, b = batch (last_sequence db + 1) os ∧ Forall (mem_op uvalid) os ∧ Z.of_nat (length os) < 2 ^ 31 ∧
        seq = last_sequence db + Z.of_nat (length os) ∧ seq <= kMaxSequenceNumber
  | Logged _ s sync_error seq _ => wal db groups first seq ∧ s = Status_OK ∧ sync_error = false ∧ last_sequence db <= seq
  | _ => wal db groups first (last_sequence db)
  end.

(** What [tmp_batch_] holds then: the group that is being written, or nothing. *)
Definition tmp_at (p : Position) (tmp : WriteBatch) : Prop :=
  match p with
  | Logging b true _ _ => tmp = b
  | Logged true _ _ _ _ => True
  | _ => tmp = WriteBatch_Clear
  end.

Definition front_at sy : Position :=
  match head (sy_writers sy) with
  | Some t => match sy_threads sy !! t with Some w => w_at w | None => Waiting end
  | None => Waiting
  end.

Record wal_ok sy : Prop := {
  wo_queue : queue_ok sy;
  wo_tmp : tmp_at (front_at sy) (db_tmp_batch (sy_db sy));
  wo_batches t w : sy_threads sy !! t = Some w → ∃ os, writer_ops w os ∧ Forall (mem_op uvalid) os;
  wo_wal : ∃ groups first, wal_at (sy_db sy) (front_at sy) groups first;
}.

(** Callers give batches built with [Put] and [Delete]; other parts of the database
    leave the current log alone; the numbers do not run out. *)
Definition lawful (l : Label) sy sy' : Prop :=
  match l with
  | Call _ (Some b) _ => ∃ q os, b = batch q os ∧ Forall (mem_op uvalid) os ∧ Z.of_nat (length os) < 2 ^ 31
  | Background => log_kept (sy_db sy) (sy_db sy')
  | _ => True
  end ∧ vs_next_file_number_ (db_versions (sy_db sy')) < 2 ^ 64 - 1 ∧
  ∀ t w b tmp seq lw, sy_threads sy' !! t = Some w → w_at w = Logging b tmp seq lw → seq <= kMaxSequenceNumber.

Inductive lawful_run : System → Prop :=
  | lawful_start db groups first : wal db groups first (last_sequence db) → db_tmp_batch db = WriteBatch_Clear →
      lawful_run {| sy_db := db; sy_writers := []; sy_threads := ∅ |}
  | lawful_next l sy sy' : lawful_run sy → step l sy sy' → lawful l sy sy' → lawful_run sy'.

Definition plain (p : Position) : Prop := match p with Logging _ _ _ _ | Logged _ _ _ _ _ => False | _ => True end.

Lemma plain_wal db p groups first : plain p → wal_at db p groups first ↔ wal db groups first (last_sequence db).
Proof. by destruct p. Qed.

Lemma plain_tmp p tmp : plain p → tmp_at p tmp ↔ tmp = WriteBatch_Clear.
Proof. by destruct p. Qed.

Lemma wal_store is_tmp b db groups first last : wal db groups first last → wal (store_group is_tmp b db) groups first last.
Proof. destruct is_tmp; [|done]. by intros []. Qed.

Lemma front_at_led sy t w : led sy t → sy_threads sy !! t = Some w → front_at sy = w_at w.
Proof. intros Hl Hw. unfold front_at. unfold led in Hl. by rewrite Hl, Hw. Qed.

(** A writer keeps its batch. *)
Lemma batches_stay sy sy' : wal_ok sy → (∀ x w', sy_threads sy' !! x = Some w' → ∃ w, sy_threads sy !! x = Some w ∧ w_batch w' = w_batch w) →
  ∀ x w', sy_threads sy' !! x = Some w' → ∃ os, writer_ops w' os ∧ Forall (mem_op uvalid) os.
Proof.
  intros Hw Hsame x w' Hx. destruct (Hsame x w' Hx) as (w & Hxw & Hb). destruct (wo_batches _ Hw x w Hxw) as (os & Hos & Hok). exists os. split; [|done].
  unfold writer_ops in *. by rewrite Hb.
Qed.

Lemma finish_write_front t s lw sy sy' : queue_ok sy → led sy t → lw ∈ sy_writers sy → finish_write t s lw sy = Some sy' →
  queue_ok sy' ∧ sy_db sy' = sy_db sy ∧ plain (front_at sy').
Proof.
  intros Hq Hl Hlw Hf. destruct (finish_write_ok t s lw sy Hq Hl Hlw) as (g & r & sy1 & Hqq & Hf' & Hr & _ & Htg & Htr & Hok & Hdb & _).
  rewrite Hf in Hf'. injection Hf' as <-. split; [done|]. split; [done|]. unfold front_at. destruct (head (sy_writers sy')) as [x|] eqn:Hx; [|done].
  assert (x ∈ r) as Hxr by (rewrite <- Hr; by apply head_Some_elem_of). assert (x ≠ t) as Hne by (intros ->; done).
  destruct (qo_threads _ Hq x) as [w Hw]; [rewrite Hqq; apply elem_of_app; by right|].
  destruct (finish_write_stays _ _ _ _ _ Hf x w Hw) as (w' & -> & _ & _ & Hst). specialize (Hst Hne).
  assert (head (sy_writers sy) ≠ Some x) as Hnh by (unfold led in Hl; congruence).
  apply (qo_writer _ Hq), writer_queued in Hw as [_ [Hat|Hat]]; [| |done|rewrite Hqq; apply elem_of_app; by right].
  - destruct (st_waiting _ _ Hst Hat) as [->| ->]; done.
  - by rewrite (st_notified _ _ Hst Hat).
Qed.

(** The group the front starts to write. *)
Lemma start_group_wal t w s sy sy' groups first : wal_ok sy → led sy t → sy_threads sy !! t = Some w → plain (w_at w) →
  wal (sy_db sy) groups first (last_sequence (sy_db sy)) →
  (∀ t w b tmp seq lw, sy_threads sy' !! t = Some w → w_at w = Logging b tmp seq lw → seq <= kMaxSequenceNumber) →
  start_group t w s sy = Some sy' → wal_at (sy_db sy') (front_at sy') groups first ∧ tmp_at (front_at sy') (db_tmp_batch (sy_db sy')).
Proof.
  intros Hwo Hl Hw Hp Hwal Hlim H. pose proof (wo_queue _ Hwo) as Hq. assert (t ∈ sy_writers sy) as Ht by (by apply head_Some_elem_of).
  pose proof (wo_tmp _ Hwo) as Htmp. rewrite (front_at_led sy t w Hl Hw), plain_tmp in Htmp by done.
  assert (finish_write t s t sy = Some sy' → wal_at (sy_db sy') (front_at sy') groups first ∧ tmp_at (front_at sy') (db_tmp_batch (sy_db sy'))) as Hfin.
  { intros Hf. destruct (finish_write_front t s t sy sy' Hq Hl Ht Hf) as (_ & -> & Hpl). split; [by apply plain_wal|by apply plain_tmp]. }
  unfold start_group in H. destruct (w_batch w) as [b|] eqn:Hb; [|by apply Hfin]. destruct (ok s); [|by apply Hfin].
  apply bind_Some in H as (writers & Hm & ([[wb tmp] lw] & Hbg & (n & Hn & [= <-])%bind_Some)%bind_Some). apply queued_writers in Hm as [Hids Hths].
  assert (∃ rest, writers = (t, w) :: rest) as [rest ->].
  { destruct writers as [|[t' w'] rest]; [unfold led in Hl; by rewrite <- Hids in Hl|]. unfold led in Hl. rewrite <- Hids in Hl. injection Hl as ->.
    apply Forall_cons in Hths as [Hx _]. cbn in Hx. rewrite Hw in Hx. injection Hx as <-. by exists rest. }
  destruct (wo_batches _ Hwo t w Hw) as (os0 & Hos0 & Hok0). apply Forall_cons in Hths as [_ Hths].
  assert (∃ oss, Forall2 (λ x os, writer_ops x.2 os) rest oss ∧ Forall (Forall (mem_op uvalid)) oss) as (oss & Hoss & Hokk).
  { clear -Hths Hwo. induction Hths as [|[i wi] rest Hi _ (oss & IH1 & IH2)]; [by exists []|]. destruct (wo_batches _ Hwo i wi Hi) as (os & Hos & Hok). exists (os :: oss). split; by constructor. }
  rewrite Htmp in Hbg. destruct (BuildBatchGroup_spec t w rest os0 oss ltac:(rewrite Hb; by eexists) Hos0 Hoss) as (g & rest' & tmp' & q & _ & Hbg' & _ & _ & _ & Hcnt).
  rewrite Hbg in Hbg'. injection Hbg' as -> -> ->. rewrite SetSequence_batch in *. rewrite Count_batch in Hn by done. injection Hn as <-.
  set (os := os0 ++ mjoin (take (length g) oss)) in *.
  match goal with |- context [move_to ?p w] => set (here := p); assert (∀ db, front_at (set_thread t (move_to here w) (with_db db sy)) = here) as Hfr end.
  { intros db. unfold front_at. cbn [set_thread with_db sy_writers sy_threads]. unfold led in Hl. rewrite Hl, lookup_insert_eq. done. }
  rewrite Hfr. split; [|subst here; by destruct tmp']. subst here. cbn [wal_at set_thread with_db sy_db]. assert (last_sequence (store_group tmp' (batch (u64 (last_sequence (sy_db sy) + 1)) os) (sy_db sy)) = last_sequence (sy_db sy)) as -> by (by destruct tmp').
  split; [by apply wal_store|]. destruct (replay_range _ _ _ (wal_numbers _ _ _ _ Hwal)) as [Hle _]. destruct (wal_range _ _ _ _ Hwal) as [H0 Hmax].
  change kMaxSequenceNumber with (2 ^ 56 - 1) in *. rewrite (u64_small (_ + 1)), (u64_small (_ + Z.of_nat _)) in * by lia. exists os. split; [done|]. split.
  - apply Forall_app. split; [done|]. apply Forall_join, Forall_take. done.
  - split; [done|]. split; [done|]. eapply (Hlim t); [cbn; by rewrite lookup_insert_eq|]. reflexivity.
Qed.

Lemma wal_at_wake db w groups first : wal_at db (w_at w) groups first → wal_at db (w_at (wake w)) groups first ∧ wal_at db (w_at (background_signal w)) groups first.
Proof. unfold wake, background_signal. destruct (w_at w) eqn:Hat; cbn; rewrite ?Hat; done. Qed.

(** A step of the front of the queue. *)
Lemma run_front_wal t w sy sy' : wal_ok sy → led sy t → sy_threads sy !! t = Some w → run t sy = Some sy' → lawful (Run t) sy sy' →
  (∃ groups first, wal_at (sy_db sy') (front_at sy') groups first) ∧ tmp_at (front_at sy') (db_tmp_batch (sy_db sy')).
Proof.
  intros Hwo Hl Hw H (_ & Hnext & Hlim). pose proof (wo_queue _ Hwo) as Hq. destruct (wo_wal _ Hwo) as (groups & first & Hwal). rewrite (front_at_led sy t w Hl Hw) in Hwal.
  unfold DbWrite.run in H. rewrite Hw in H. cbn [mbind option_bind] in H.
  assert (∀ p db, front_at (set_thread t (move_to p w) (with_db db sy)) = p) as Hset.
  { intros p db. apply (front_at_led _ t (move_to p w)); [done|]. cbn. by rewrite lookup_insert_eq. }
  pose proof (wo_tmp _ Hwo) as Htmp. rewrite (front_at_led sy t w Hl Hw) in Htmp.
  destruct (w_at w) as [| |a f|f|a f|b tmp seq lw|tmp s se seq lw|s] eqn:Hat; try done; cbn [tmp_at] in Htmp.
  - injection H as <-. pose proof (proj1 (writer_front _ _ w Hl) (qo_writer _ Hq t w Hw)) as [Hd _]. unfold wait_test. rewrite Hd, bool_decide_true by done.
    erewrite (front_at_led _ t); [|done|cbn; by rewrite lookup_insert_eq]. split; [by exists groups, first|done].
  - apply bind_Some in H as ([r db] & Hroom & H). cbv beta iota in H.
    assert (vs_next_file_number_ (db_versions db) < 2 ^ 64 - 1 → (∃ g f, wal db g f (last_sequence db)) ∧ db_tmp_batch db = WriteBatch_Clear) as Hmr.
    { intros Hn. destruct (MakeRoom_wal _ _ _ _ _ _ _ Hwal Hn Hroom) as (g' & f' & ? & ->). split; [by exists g', f'|done]. }
    destruct r as [s| | |]; [|injection H as <-; destruct (Hmr Hnext) as [(g & fi & Hg) Ht]; rewrite Hset; split; [by exists g, fi|done]..].
    assert (vs_next_file_number_ (db_versions (sy_db sy')) = vs_next_file_number_ (db_versions db)) as Hdb.
    { unfold start_group in H. destruct (w_batch w); [destruct (ok s)|].
      - apply bind_Some in H as (writers & _ & ([[wb tmp] lw] & _ & (n & _ & [= <-])%bind_Some)%bind_Some). by destruct tmp.
      - by apply bind_Some in H as ([? ?] & _ & [= <-]).
      - by apply bind_Some in H as ([? ?] & _ & [= <-]). }
    rewrite <- Hdb in Hmr. destruct (Hmr Hnext) as [(g & fi & Hg) Ht].
    destruct (start_group_wal t w s (with_db db sy) sy' g fi) as [Hres Htmp']; try done; [|by rewrite Hat|split; [by exists g, fi|done]].
    split; [by destruct Hq| |apply (wo_batches _ Hwo)|]; [|exists g, fi]; rewrite (front_at_led (with_db db sy) t w) by done; by rewrite Hat.
  - injection H as <-. pose proof (Hset (MakingRoom false f) (sy_db sy)) as Hs. replace (with_db (sy_db sy) sy) with sy in Hs by (by destruct sy). rewrite Hs. split; [by exists groups, first|done].
  - destruct Hwal as (Hwal & os & -> & Hos & Hcnt & -> & Hmax). destruct (log_group_spec _ _ _ os (w_sync w) Hwal Hos Hcnt Hmax) as (db' & Hlg & Hwal' & Hvs & Hdt & _).
    rewrite Hlg in H. cbn [mbind option_bind] in H. injection H as <-. rewrite Hset. split; [|destruct tmp; [done|cbn; by rewrite Hdt]].
    exists (groups ++ [(last_sequence (sy_db sy) + 1, os)]), first. cbn [wal_at set_thread with_db sy_db]. rewrite Hvs. split_and!; [done|done|done|lia].
  - destruct Hwal as (Hwal & -> & -> & Hle). apply bind_Some in H as (vs & Hvs & H).
    unfold VersionSet_SetLastSequence in Hvs. destruct (_ <=? seq); [|done]. injection Hvs as <-.
    apply finish_write_front in H as (_ & Hdb & Hpl); [|by destruct Hq|done|].
    + assert (wal (sy_db sy') groups first (last_sequence (sy_db sy')) ∧ db_tmp_batch (sy_db sy') = WriteBatch_Clear) as [Hw' Ht'].
      { rewrite Hdb. destruct Hwal, tmp; (split; [by split|done]). }
      split; [exists groups, first; by apply plain_wal|by apply plain_tmp].
    + pose proof (proj1 (writer_front _ _ w Hl) (qo_writer _ Hq t w Hw)) as [_ Hlw]. by rewrite Hat in Hlw.
Qed.

(** A signal does not move a writer that writes. *)
Lemma tmp_at_wake w tmp : tmp_at (w_at w) tmp → tmp_at (w_at (wake w)) tmp ∧ tmp_at (w_at (background_signal w)) tmp.
Proof. unfold wake, background_signal. destruct (w_at w) eqn:Hat; cbn; rewrite ?Hat; done. Qed.

Lemma step_wal l sy sy' : wal_ok sy → step l sy sy' → lawful l sy sy' → wal_ok sy'.
Proof.
  intros Hwo Hs Hlaw. pose proof (wo_queue _ Hwo) as Hq. pose proof (step_ok _ _ _ _ _ _ _ Hq Hs) as Hq'. destruct (wo_wal _ Hwo) as (groups & first & Hwal).
  destruct Hs as [t updates sync sy sy' Hc|t sy sy' Hr|t sy|sy db' Ho].
  - destruct (Write_call_ok t updates sync sy sy' Hq Hc) as (_ & Hqq & Hnone & Hsame). unfold Write_call in Hc. rewrite Hnone in Hc. injection Hc as <-.
    assert (∀ P : Position → Prop, P (front_at sy) → (plain (front_at sy) → ∀ p, plain p → P p) → P (front_at (wait_test t {| w_batch := updates; w_sync := sync; w_status := Status_OK; w_done := false; w_at := Notified |}
      {| sy_db := sy_db sy; sy_writers := sy_writers sy ++ [t]; sy_threads := sy_threads sy |}))) as Hfront.
    { intros P HP Hplain. unfold front_at in *. rewrite Hqq, head_app. destruct (head (sy_writers sy)) as [x|] eqn:Hx; cbn [from_option option_union union].
      - destruct (qo_threads _ Hq x (head_Some_elem_of _ _ Hx)) as [w Hw]. rewrite Hsame, Hw by congruence. by rewrite Hw in HP.
      - cbn [sy_threads wait_test set_thread]. cbn. rewrite lookup_insert_eq. cbn. apply Hplain; [done|]. by destruct (bool_decide _). }
    split; [done| | |].
    + apply Hfront; [apply (wo_tmp _ Hwo)|]. intros Hp p Hpp. apply plain_tmp; [done|]. by apply (plain_tmp (front_at sy)), (wo_tmp _ Hwo).
    + intros x w Hx. destruct (decide (x = t)) as [->|Hne]; [|rewrite Hsame in Hx by done; by apply (wo_batches _ Hwo x)].
      cbn in Hx. rewrite lookup_insert_eq in Hx. injection Hx as <-. unfold writer_ops. cbn. destruct updates as [b|]; [|by exists []].
      destruct Hlaw as [(q & os & -> & Hos & Hn) _]. exists os. split; [|done]. split; [by exists q|done].
    + exists groups, first. apply (Hfront (λ p, wal_at (sy_db sy) p groups first)); [done|]. intros Hp p Hpp. apply plain_wal; [done|]. by apply plain_wal in Hwal.
  - destruct (decide (head (sy_writers sy) = Some t)) as [Hl|Hl].
    + destruct (qo_threads _ Hq t (head_Some_elem_of _ _ Hl)) as [w Hw]. destruct (run_front_wal t w sy sy' Hwo Hl Hw Hr Hlaw) as [Hres Htmp]. split; [done|done| |done].
      apply (batches_stay sy); [done|]. intros x w' Hx. destruct (sy_threads sy !! x) as [wx|] eqn:Hsx; [|by rewrite (run_none _ _ _ _ _ _ _ _ Hr Hsx) in Hx].
      destruct (run_stays _ _ _ _ _ _ _ Hr x wx Hsx) as (w2 & Hw2 & Hb & _). rewrite Hx in Hw2. injection Hw2 as <-. by exists wx.
    + unfold DbWrite.run in Hr. apply bind_Some in Hr as (w & Hw & Hr). pose proof (qo_writer _ Hq t w Hw) as Hok. unfold writer_ok in Hok. rewrite decide_False in Hok by done.
      assert (w_at w = Notified) as Hat.
      { destruct (decide (t ∈ sy_writers sy)); [destruct Hok as [_ [Hat|Hat]]|destruct Hok as [[_ Hat]|[s Hat]]]; rewrite Hat in Hr; done. }
      rewrite Hat in Hr. injection Hr as <-. assert (front_at (wait_test t w sy) = front_at sy) as Hfr.
      { unfold front_at. cbn. destruct (head (sy_writers sy)) as [x|]; [|done]. by rewrite lookup_insert_ne by congruence. }
      split; [done|rewrite Hfr; apply (wo_tmp _ Hwo)| |].
      * apply (batches_stay sy); [done|]. intros x w'. cbn. intros [[<- <-]|[_ Hx]]%lookup_insert_Some; [by exists w|by exists w'].
      * exists groups, first. by rewrite Hfr.
  - split; [done| | |].
    + pose proof (wo_tmp _ Hwo) as Htmp. unfold front_at in *. cbn. destruct (head (sy_writers sy)) as [x|]; [|done]. destruct (decide (x = t)) as [->|Hne]; [|by rewrite lookup_alter_ne].
      rewrite lookup_alter_eq. destruct (sy_threads sy !! t) as [w|]; [|done]. by apply tmp_at_wake.
    + apply (batches_stay sy); [done|]. intros x w'. cbn. destruct (decide (x = t)) as [->|Hne]; [rewrite lookup_alter_eq; intros (w & Hw & ->)%fmap_Some|rewrite lookup_alter_ne by done; by exists w'].
      exists w. split; [done|]. apply (signal_stays Status_OK w).
    + exists groups, first. unfold front_at in *. cbn. destruct (head (sy_writers sy)) as [x|]; [|done]. destruct (decide (x = t)) as [->|Hne]; [|by rewrite lookup_alter_ne].
      rewrite lookup_alter_eq. destruct (sy_threads sy !! t) as [w|]; [|done]. by apply wal_at_wake.
  - destruct Hlaw as [Hkept _]. split; [done| | |].
    + pose proof (wo_tmp _ Hwo) as Htmp. cbn [sy_db with_db]. rewrite (ot_tmp _ _ Ho). unfold front_at in *. cbn. destruct (head (sy_writers sy)) as [x|]; [|done]. rewrite lookup_fmap.
      destruct (sy_threads sy !! x) as [w|]; [|done]. by apply tmp_at_wake.
    + apply (batches_stay sy); [done|]. intros x w'. cbn. rewrite lookup_fmap. intros (w & Hw & ->)%fmap_Some. exists w. split; [done|]. apply (signal_stays Status_OK w).
    + exists groups, first. assert (wal_at db' (front_at sy) groups first) as Hwal'.
      { unfold wal_at in *. rewrite (ot_sequence _ _ Ho). destruct (front_at sy); try (by apply (wal_others (sy_db sy)));
          destruct Hwal as [Hw Hrest]; (split; [by apply (wal_others (sy_db sy))|exact Hrest]). }
      unfold front_at in *. cbn. destruct (head (sy_writers sy)) as [x|]; [|done]. rewrite lookup_fmap. destruct (sy_threads sy !! x) as [w|]; [|done]. by apply wal_at_wake.
Qed.

Lemma lawful_run_ok sy : lawful_run sy → wal_ok sy.
Proof.
  induction 1 as [db groups first Hw Ht|l sy sy' _ IH Hs Hlaw]; [|by eapply step_wal]. split; [|done|by intros t w|by exists groups, first].
  split; cbn; [apply NoDup_nil_2|by intros t ?%not_elem_of_nil|by intros t w].
Qed.

(** ** Claims *)

(** C9: the log always replays to the memtable.  Whatever threads call [Write], in
    every state any interleaving of them with background work can reach, the log
    file of the current memtable holds the records of some groups of operations,
    numbered without gaps, and the memtable holds exactly the entries of these
    groups.  Their last sequence number is the database's, or the one the writer at
    the front is about to publish: so a crash loses no write that a reader could
    have seen in the memtable. *)
Theorem log_replays_to_memtable sy : lawful_run sy →
  ∃ groups first last id m,
    files (db_env (sy_db sy)) (log_name (sy_db sy)) = Some (encode_log 0 (group_record <$> groups)).1 ∧ numbered first groups last ∧
    match front_at sy with Logged _ _ _ seq _ => last = seq | _ => last = last_sequence (sy_db sy) end ∧ last_sequence (sy_db sy) <= last ∧
    db_mem (sy_db sy) = Some id ∧ db_mems (sy_db sy) !! id = Some m ∧ mem_repr (uvalid := uvalid) m (replay groups).
Proof.
  intros Hw%lawful_run_ok. destruct (wo_wal _ Hw) as (groups & first & Hwal). unfold wal_at in Hwal.
  assert (∃ last, wal (sy_db sy) groups first last ∧ match front_at sy with Logged _ _ _ seq _ => last = seq | _ => last = last_sequence (sy_db sy) end ∧ last_sequence (sy_db sy) <= last) as (last & Hl & Hm & Hle).
  { destruct (front_at sy) as [| |a f|f|a f|b tmp seq lw|tmp s se seq lw|s]; try (exists (last_sequence (sy_db sy)); by split_and!).
    - exists (last_sequence (sy_db sy)). destruct Hwal. by split_and!.
    - destruct Hwal as (? & _ & _ & ?). eexists. by split_and!. }
  destruct (wal_mem _ _ _ _ Hl) as (id & m & Hid & Hmm & Hrepr & _). exists groups, first, last, id, m. split_and!; try done; apply Hl.
Qed.

(** C33: a group is the largest that is allowed.  [BuildBatchGroup] takes a prefix of
    the queue that starts with the caller; its batch holds the operations of these
    writers, in the order of the queue, and names the last of them.  A sync write is
    in a group only if the caller asked for sync.  Unless no other writer of the
    group has a batch, the group has at most 1 MB, or 128 KB more than the caller's
    batch when that is at most 128 KB; and the first writer left out asks for a sync
    the caller did not ask for, or would take the group over that limit. *)
Theorem batch_group_contents id first rest os0 oss : is_Some (w_batch first) → writer_ops first os0 → Forall2 (λ x os, writer_ops x.2 os) rest oss →
  ∃ g rest' is_tmp q, rest = g ++ rest' ∧
    BuildBatchGroup ((id, first) :: rest) WriteBatch_Clear = Some (batch q (os0 ++ mjoin (take (length g) oss)), is_tmp, default id (last g.*1)) ∧
    Forall (λ x, w_sync x.2 = true → w_sync first = true) g ∧
    (group_bytes g = 0 ∨ writer_bytes first + group_bytes g <= most_bytes first) ∧ group_ends first (most_bytes first) (writer_bytes first + group_bytes g) rest'.
Proof.
  intros Hb Hos Hops. destruct (BuildBatchGroup_spec id first rest os0 oss Hb Hos Hops) as (g & rest' & is_tmp & q & H1 & H2 & H3 & H4 & H5 & _). by exists g, rest', is_tmp, q.
Qed.
End wal.

(** ** Examples *)

Section schedules.
Context {C : Type} `{!Comparator C} {uvalid : list byte → Prop} (icmp : InternalKeyComparator C) (new_array : list piece → Z → Z).
Context {E : Type} `{!FileSystem E} {env_ok : E → Prop} {files : E → list byte → option (list byte)} {writing : E → WFile E → list byte → Prop}.
Context (dbname : list byte) (write_buffer_size : Z).
Notation lawful_run := (lawful_run (uvalid := uvalid) (env_ok := env_ok) (files := files) (writing := writing) icmp new_array dbname write_buffer_size).

Definition limits_ok (sy : System (C := C) (E := E)) : bool :=
  (vs_next_file_number_ (db_versions (sy_db sy)) <? 2 ^ 64 - 1) &&
  forallb (λ x : nat * Writer, match w_at x.2 with Logging _ _ seq _ => seq <=? kMaxSequenceNumber | _ => true end) (map_to_list (sy_threads sy)).

Definition label_ok (l : Label) : Prop :=
  match l with
  | Call _ (Some b) _ => ∃ q os, b = batch q os ∧ Forall (mem_op uvalid) os ∧ Z.of_nat (length os) < 2 ^ 31
  | Call _ None _ | Run _ => True
  | _ => False
  end.

Lemma states_lawful l : ∀ sy ss, states icmp new_array dbname write_buffer_size sy l = Some ss → lawful_run sy → Forall label_ok l → forallb limits_ok ss = true →
  ∀ s, s ∈ ss → lawful_run s.
Proof.
  induction l as [|a l IH]; intros sy ss; cbn [states]; [intros [= <-] Hl _ _ s ->%list_elem_of_singleton; done|].
  intros (sy' & Hn & (rest & Hr & [= <-])%bind_Some)%bind_Some Hl [Ha Hls]%Forall_cons Hlim s Hs. cbn [forallb] in Hlim. apply andb_true_iff in Hlim as [_ Hlim].
  apply elem_of_cons in Hs as [->|Hs]; [done|]. apply (IH sy' rest Hr); [|done|done|done].
  assert (limits_ok sy' = true) as [Hnx Hseq]%andb_true_iff.
  { rewrite forallb_forall in Hlim. apply Hlim. apply list_elem_of_In. destruct (states_step _ _ _ _ _ _ _ Hr) as [Hh _]. by apply head_Some_elem_of. }
  eapply (lawful_next _ _ _ _ a sy); [done| |].
  - destruct a; cbn in Hn; try done; by constructor.
  - split; [by destruct a|]. split; [lia|]. intros t w b tmp seq lw Hw Hat. rewrite forallb_forall in Hseq. specialize (Hseq (t, w)). cbn [snd] in Hseq. rewrite Hat in Hseq.
    apply Z.leb_le, Hseq. by apply list_elem_of_In, elem_of_map_to_list.
Qed.
End schedules.

Notation mem_wal := (wal (uvalid := λ _, True) (env_ok := MemFs.env_ok) (files := MemFs.files) (writing := MemFs.opened) version_icmp (str "/db")).

Lemma example_db_wal : ∃ db, example_db = Some db ∧ db_tmp_batch db = WriteBatch_Clear ∧ mem_wal db [] 0 (vs_last_sequence_ (db_versions db)).
Proof.
  destruct (VersionSet_new_ok (E := InMemoryEnv) (uvalid := λ _, True) version_icmp) as (vs & Hvs & _).
  assert (vs_next_file_number_ vs = 2 ∧ vs_last_sequence_ vs = 0) as [Hn Hl] by (unfold VersionSet_new in Hvs; by apply bind_Some in Hvs as (vl & _ & [= <-])).
  destruct (new_writable_ok InMemoryEnv_new (LogFileName (str "/db") 1) env_ok_new) as (e & h & Hnew & He & Hw & Hf & _).
  eexists. unfold example_db, DBImpl_new. rewrite Hvs. cbn [mbind option_bind db_env]. rewrite Hnew. cbn [mbind option_bind]. split; [reflexivity|]. split; [done|].
  split; cbn [new_memtable set_mems set_logfile set_env db_env db_logfile db_log db_mem db_mems db_next_mem db_logfile_number db_versions snd fst].
  - done.
  - by exists h.
  - done.
  - done.
  - cbn. lia.
  - eexists _, _. rewrite lookup_insert_eq. split; [done|]. split; [done|]. split; [apply mem_repr_new|done].
  - constructor.
  - cbn. by rewrite Hl.
  - rewrite Hl. done.
  - lia.
Qed.

Lemma example_batch_ok key : Z.of_nat (length key) + 8 < 2 ^ 32 → ∃ b, example_batch key = Some b ∧
  ∃ q os, b = batch q os ∧ Forall (mem_op (λ _, True)) os ∧ Z.of_nat (length os) < 2 ^ 31.
Proof.
  intros Hk. exists (batch 0 [OpPut key (str "value")]). split.
  - exact (apply_op_batch 0 [] (OpPut key (str "value")) eq_refl).
  - eexists _, _. split; [done|]. split; [|done]. repeat constructor; cbn; lia.
Qed.

(** The states of [example_states] are lawful. *)
Definition example_limits : bool := match example_states with Some ss => forallb limits_ok ss && (length ss =? 7)%nat | None => false end.

Lemma example_limits_ok : example_limits = true.
Proof. vm_compute. reflexivity. Qed.

Lemma log_replays_to_memtable_witness : ∃ ss sy groups first last id m, example_states = Some ss ∧ ss !! 5%nat = Some sy ∧
  MemFs.files (db_env (sy_db sy)) (LogFileName (str "/db") (db_logfile_number (sy_db sy))) = Some (encode_log 0 (group_record <$> groups)).1 ∧ numbered first groups last ∧
  db_mem (sy_db sy) = Some id ∧ db_mems (sy_db sy) !! id = Some m ∧ mem_repr (uvalid := λ _, True) m (replay groups).
Proof.
  pose proof example_limits_ok as Hc. unfold example_limits in Hc. destruct example_states as [ss|] eqn:Hss; [|discriminate Hc]. apply andb_true_iff in Hc as [Hlim Hlen%Nat.eqb_eq].
  destruct (lookup_lt_is_Some_2 ss 5) as [sy Hsy]; [lia|].
  destruct example_db_wal as (db & Hdb & Htmp & Hwal). unfold example_states in Hss. rewrite Hdb in Hss. cbn [mbind option_bind] in Hss.
  destruct (log_replays_to_memtable (FileSystem0 := mem_fs) (FileSystemLaws0 := mem_fs_laws) (uvalid := λ _, True) (env_ok := MemFs.env_ok) (files := MemFs.files) (writing := MemFs.opened) version_icmp linear_new (str "/db") 65536 sy)
    as (groups & first & last & id & m & H1 & H2 & _ & _ & H3 & H4 & H5).
  - apply (states_lawful version_icmp linear_new (str "/db") 65536 example_schedule _ ss Hss); [by eapply lawful_start| |done|by eapply list_elem_of_lookup_2].
    destruct (example_batch_ok (str "a")) as (ba & Ha & Hoa); [reflexivity|]. destruct (example_batch_ok (str "b")) as (bb & Hb & Hob); [reflexivity|].
    unfold example_schedule. rewrite Ha, Hb. repeat constructor; done.
  - exists ss, sy, groups, first, last, id, m. by split_and!.
Defined.

Lemma batch_group_contents_witness : ∃ g rest' is_tmp q,
  [(1%nat, {| w_batch := Some (batch 0 [OpDelete (str "b")]); w_sync := false; w_status := Status_OK; w_done := false; w_at := Waiting |})] = g ++ rest' ∧
  BuildBatchGroup [(0%nat, {| w_batch := Some (batch 0 [OpDelete (str "a")]); w_sync := false; w_status := Status_OK; w_done := false; w_at := MakingRoom true false |});
    (1%nat, {| w_batch := Some (batch 0 [OpDelete (str "b")]); w_sync := false; w_status := Status_OK; w_done := false; w_at := Waiting |})] WriteBatch_Clear =
  Some (batch q ([OpDelete (str "a")] ++ mjoin (take (length g) [[OpDelete (str "b")]])), is_tmp, default 0%nat (last g.*1)).
Proof.
  edestruct (batch_group_contents 0%nat {| w_batch := Some (batch 0 [OpDelete (str "a")]); w_sync := false; w_status := Status_OK; w_done := false; w_at := MakingRoom true false |}
    [(1%nat, {| w_batch := Some (batch 0 [OpDelete (str "b")]); w_sync := false; w_status := Status_OK; w_done := false; w_at := Waiting |})] [OpDelete (str "a")] [[OpDelete (str "b")]])
    as (g & rest' & is_tmp & q & H1 & H2 & _); [by eexists|split; [by exists 0|done]|constructor; [split; [by exists 0|done]|constructor]|]. by exists g, rest', is_tmp, q.
Defined.
