(* ===== verification/Obsolete.v ===== *)
(** Garbage collection of database files: [DBImpl::RemoveObsoleteFiles]
    (db/db_impl.cc). *)
From stdpp Require Import gmap.
From S2P Require Import Prelude Env FileSystem MemEnv MemFs Comparator DbFormat Logging Filename LogFormat SkipList Arena MemTable WriteBatch VersionEdit Version VersionBuilder VersionSet Manifest LiveVersions DbImpl.

(** ** Names of database files *)

Lemma consume_loop_inv p : ∀ v n v' n', consume_loop v n p = Some (v', n') →
  ∃ ds rest, p = ds ++ rest ∧ Forall (λ c, is_digit c = true) ds ∧ n' = (n + length ds)%nat.
Proof.
  induction p as [|c p IH]; intros v n v' n'; cbn [consume_loop].
  - intros [= <- <-]. exists [], []. split_and!; [done..|cbn; lia].
  - destruct ((u8 c <? 48) || (57 <? u8 c)) eqn:Hd.
    + intros [= <- <-]. exists [], (c :: p). split_and!; [done..|cbn; lia].
    + destruct ((kMaxUint64 / 10 <? v) || _); [done|]. intros (ds & rest & -> & Hds & ->)%IH. exists (c :: ds), rest. split_and!; [done| |cbn; lia].
      constructor; [|done]. apply orb_false_iff in Hd as [?%Z.ltb_ge ?%Z.ltb_ge]. unfold is_digit. by rewrite !(proj2 (Z.leb_le _ _)).
Qed.

Lemma ConsumeDecimalNumber_inv input num rest : ConsumeDecimalNumber input = Some (num, rest) →
  ∃ ds, input = ds ++ rest ∧ Forall (λ c, is_digit c = true) ds ∧ ds ≠ [].
Proof.
  unfold ConsumeDecimalNumber. destruct (consume_loop 0 0 input) as [[v n]|] eqn:Hc; [|done]. cbn.
  destruct (Nat.eqb_spec n 0) as [|Hn]; [done|]. intros [= <- <-].
  destruct (consume_loop_inv _ _ _ _ _ Hc) as (ds & rest & -> & Hds & ->). exists ds. cbn [Nat.add]. rewrite drop_app_length.
  split_and!; [done..|]. by intros ->.
Qed.

Lemma child_name_digits pre ds rest : x2f ∉ pre → x2f ∉ rest → Forall (λ c, is_digit c = true) ds → ds ≠ [] → child_name (pre ++ ds ++ rest).
Proof.
  intros Hp Hr Hds Hne. destruct ds as [|d ds]; [done|]. split_and!.
  - rewrite !elem_of_app. intros [?|[Hx|?]]; [done| |done]. by apply (proj1 (Forall_forall _ _) Hds) in Hx.
  - apply Forall_cons in Hds as [Hd _]. intros He. assert (d ∈ str ".") as ->%list_elem_of_singleton; [|done].
    rewrite <- He, !elem_of_app. right; left; left.
  - apply Forall_cons in Hds as [Hd _]. intros He. assert (d ∈ str "..") as Hx; [rewrite <- He, !elem_of_app; right; left; left|].
    repeat (apply elem_of_cons in Hx as [->|Hx]; [done|]). by apply elem_of_nil in Hx.
Qed.

(** A name that parses is the name of a file. *)
Lemma ParseFileName_child c num type : ParseFileName c = Some (num, type) → child_name c.
Proof.
  assert (∀ s, bool_decide (x2f ∈ s) = false → bool_decide (s = str ".") = false → bool_decide (s = str "..") = false → child_name s) as Hcheck.
  { intros s ?%bool_decide_eq_false ?%bool_decide_eq_false ?%bool_decide_eq_false. done. }
  unfold ParseFileName.
  destruct (slice_eqb c (str "CURRENT")) eqn:H1; [apply slice_eqb_spec in H1 as ->; intros _; by apply Hcheck; vm_compute|].
  destruct (slice_eqb c (str "LOCK")) eqn:H2; [apply slice_eqb_spec in H2 as ->; intros _; by apply Hcheck; vm_compute|].
  destruct (slice_eqb c (str "LOG") || _) eqn:H3.
  { apply orb_true_iff in H3 as [->%slice_eqb_spec| ->%slice_eqb_spec]; intros _; by apply Hcheck; vm_compute. }
  destruct (starts_with c (str "MANIFEST-")) eqn:H4.
  - apply starts_with_spec in H4 as [r ->]. unfold remove_prefix. destruct (9 <=? _)%nat; [|done]. cbn [mbind option_bind].
    change (drop 9 (str "MANIFEST-" ++ r)) with r. destruct (ConsumeDecimalNumber r) as [[v rest]|] eqn:Hc; [|done]. cbn [mbind option_bind].
    destruct rest; [|done]. intros _. apply ConsumeDecimalNumber_inv in Hc as (ds & -> & Hds & Hne).
    apply child_name_digits; [by apply (bool_decide_eq_false_1 _); vm_compute|by apply not_elem_of_nil|done..].
  - destruct (ConsumeDecimalNumber c) as [[v rest]|] eqn:Hc; [|done]. cbn [mbind option_bind].
    apply ConsumeDecimalNumber_inv in Hc as (ds & -> & Hds & Hne).
    assert (∀ s, slice_eqb rest s = true → bool_decide (x2f ∈ s) = false → child_name (ds ++ rest)) as Hs.
    { intros s ->%slice_eqb_spec ?%bool_decide_eq_false. apply (child_name_digits []); [by apply not_elem_of_nil|done..]. }
    destruct (slice_eqb rest (str ".log")) eqn:E1; [intros _; by apply (Hs _ E1)|].
    destruct (slice_eqb rest (str ".sst")) eqn:E2; [intros _; by apply (Hs _ E2)|].
    destruct (slice_eqb rest (str ".ldb")) eqn:E3; [intros _; by apply (Hs _ E3)|]. cbn [orb].
    destruct (slice_eqb rest (str ".dbtmp")) eqn:E4; [intros _; by apply (Hs _ E4)|done].
Qed.

(** ** The operation *)

Section obsolete.
Context {C : Type} `{!Comparator C} {uvalid : list byte → Prop} `{!ComparatorLaws C uvalid} (icmp : InternalKeyComparator C).
Context {E : Type} `{!FileSystem E} (dbname comparator_name : list byte) (max_file_size : Z) (reuse_logs : bool).
Notation DBImpl := (DBImpl (C := C) (E := E)).
Implicit Types db : DBImpl.

(** The switch on the type of a file. *)
Definition keep_file (live : gset Z) (vs : VersionSet (E := E)) (number : Z) (type : FileType) : bool :=
  match type with
  | kLogFile => (vs_log_number_ vs <=? number) || (number =? vs_prev_log_number_ vs)
  | kDescriptorFile => vs_manifest_file_number_ vs <=? number
  | kTableFile => bool_decide (number ∈ live)
  | kTempFile => bool_decide (number ∈ live)
  | kCurrentFile | kDBLockFile | kInfoLogFile => true
  end.

(** The files to delete, and the tables to evict from the table cache. *)
Fixpoint select_obsolete (live : gset Z) (vs : VersionSet (E := E)) (filenames : list (list byte)) : list (list byte) * list Z :=
  match filenames with
  | [] => ([], [])
  | filename :: filenames =>
      let '(files_to_delete, evicted) := select_obsolete live vs filenames in
      match ParseFileName filename with
      | Some (number, type) =>
          if keep_file live vs number type then (files_to_delete, evicted)
          else (filename :: files_to_delete, match type with kTableFile => number :: evicted | _ => evicted end)
      | None => (files_to_delete, evicted)
      end
  end.

(** Errors of [RemoveFile] are ignored. *)
Fixpoint remove_files (files_to_delete : list (list byte)) (e : E) : option E :=
  match files_to_delete with
  | [] => Some e
  | filename :: files_to_delete => '(e, _) ← fs_RemoveFile (dbname ++ str "/" ++ filename) e; remove_files files_to_delete e
  end.

(** The result names the tables evicted from the table cache. *)
Definition RemoveObsoleteFiles db : option (DBImpl * list Z) :=
  if negb (ok (db_bg_error db)) then Some (db, []) else
  live ← AddLiveFiles (db_pending_outputs db) (db_versions db);
  let '(filenames, _) := fs_GetChildren dbname (db_env db) in
  let '(files_to_delete, evicted) := select_obsolete live (db_versions db) filenames in
  e ← remove_files files_to_delete (db_env db);
  Some (set_env e (db_versions db) db, evicted).

(** ** Which files stay *)

(** Table number [num] is being written, or is in a version someone holds. *)
Definition table_in_use db (num : Z) : Prop :=
  num ∈ db_pending_outputs db ∨
  ∃ id o (f : File), vl_objects (vs_versions (db_versions db)) !! id = Some o ∧ f ∈ all_files (v_version o) ∧ number f = num.

(** The file named [n] is not a database file, or the database or its recovery
    can still need it. *)
Definition needed db (n : list byte) : Prop :=
  ∀ c num type, n = dbname ++ x2f :: c → ParseFileName c = Some (num, type) →
  match type with
  | kLogFile => vs_log_number_ (db_versions db) <= num ∨ num = vs_prev_log_number_ (db_versions db)
  | kDescriptorFile => vs_manifest_file_number_ (db_versions db) <= num
  | kTableFile | kTempFile => table_in_use db num
  | kCurrentFile | kDBLockFile | kInfoLogFile => True
  end.

Lemma live_files owners m db : vs_ok (uvalid := uvalid) icmp owners m (db_versions db) →
  ∃ live, AddLiveFiles (db_pending_outputs db) (db_versions db) = Some live ∧ ∀ num, num ∈ live ↔ table_in_use db num.
Proof.
  intros [Hl _ _].
  destruct (live_numbers_spec (vl_list (vs_versions (db_versions db))) (vl_objects (vs_versions (db_versions db))) (db_pending_outputs db)) as (live & Hlive & Hn).
  { intros id. apply (vo_live _ _ _ Hl). }
  exists live. split; [done|]. intros num. rewrite Hn. unfold table_in_use. setoid_rewrite (listed_elem _ _ _ _ Hl). split.
  - intros [?|(f & (id & o & Ho & Hf) & <-)]; [by left|]. right. by exists id, o, f.
  - intros [?|(id & o & f & Ho & Hf & <-)]; [by left|]. right. exists f. eauto.
Qed.

Lemma keep_file_spec live db c num type : (∀ num, num ∈ live ↔ table_in_use db num) → ParseFileName c = Some (num, type) →
  keep_file live (db_versions db) num type = true ↔ needed db (dbname ++ x2f :: c).
Proof.
  intros Hlive Hp. transitivity (match type with
    | kLogFile => vs_log_number_ (db_versions db) <= num ∨ num = vs_prev_log_number_ (db_versions db)
    | kDescriptorFile => vs_manifest_file_number_ (db_versions db) <= num
    | kTableFile | kTempFile => table_in_use db num
    | kCurrentFile | kDBLockFile | kInfoLogFile => True
    end).
  - destruct type; cbn [keep_file]; rewrite ?orb_true_iff, ?Z.leb_le, ?Z.eqb_eq, ?bool_decide_eq_true, ?Hlive; done.
  - split.
    + intros Hk c' num' type' Heq Hp'. apply app_inv_head in Heq as [= <-]. rewrite Hp in Hp'. by injection Hp' as <- <-.
    + intros Hn. by apply (Hn c num type).
Qed.

Lemma select_obsolete_spec live db filenames : (∀ num, num ∈ live ↔ table_in_use db num) → NoDup filenames →
  NoDup (select_obsolete live (db_versions db) filenames).1 ∧
  ∀ c, c ∈ (select_obsolete live (db_versions db) filenames).1 ↔ c ∈ filenames ∧ ¬ needed db (dbname ++ x2f :: c).
Proof.
  intros Hlive. induction filenames as [|c l IH]; cbn [select_obsolete].
  { intros _. split; [constructor|]. intros c. rewrite !elem_of_nil. tauto. }
  intros [Hc Hnd]%NoDup_cons. destruct (IH Hnd) as [Hnd' Hl]. clear IH.
  destruct (select_obsolete live (db_versions db) l) as [ds ev]. cbn [fst] in *.
  assert (∀ c', c' ∈ ds → c' ≠ c) as Hfresh. { intros c' [Hc' _]%Hl ->. done. }
  destruct (ParseFileName c) as [[num type]|] eqn:Hp.
  - pose proof (keep_file_spec live db c num type Hlive Hp) as Hk. destruct (keep_file live (db_versions db) num type).
    + split; [done|]. intros c'. rewrite Hl, elem_of_cons. destruct Hk as [Hk _]. specialize (Hk eq_refl). split; [tauto|]. intros [[->|?] ?]; [done|tauto].
    + split; [constructor; [|done]; by intros ?%Hfresh|]. intros c'. cbn [fst]. rewrite !elem_of_cons, Hl. split; [|tauto].
      intros [->|[? ?]]; [|tauto]. split; [by left|]. intros Hn. by apply Hk in Hn.
  - split; [done|]. intros c'. rewrite Hl, elem_of_cons. split; [tauto|]. intros [[->|?] Hn]; [|tauto].
    exfalso. apply Hn. intros c' num type Heq Hp'. apply app_inv_head in Heq as [= <-]. congruence.
Qed.

(** The tables evicted from the table cache are those whose files go. *)
Lemma select_evicted live db filenames num : (∀ num, num ∈ live ↔ table_in_use db num) →
  num ∈ (select_obsolete live (db_versions db) filenames).2 ↔ ¬ table_in_use db num ∧ ∃ c, c ∈ filenames ∧ ParseFileName c = Some (num, kTableFile).
Proof.
  intros Hlive. induction filenames as [|c l IH]; cbn [select_obsolete].
  { rewrite elem_of_nil. split; [done|]. by intros (_ & c & ?%not_elem_of_nil & _). }
  assert ((∃ x, x ∈ c :: l ∧ ParseFileName x = Some (num, kTableFile)) ↔ ParseFileName c = Some (num, kTableFile) ∨ ∃ x, x ∈ l ∧ ParseFileName x = Some (num, kTableFile)) as ->.
  { split; [intros (x & [->|Hx]%elem_of_cons & Hp); [by left|right; by exists x]|intros [Hp|(x & Hx & Hp)]; [exists c; split; [left|done]|exists x; split; [by right|done]]]. }
  destruct (select_obsolete live (db_versions db) l) as [ds ev]. cbn [snd] in *. destruct (ParseFileName c) as [[n type]|]; [|rewrite IH; naive_solver].
  destruct type; cbn [keep_file]; repeat case_match; cbn [snd]; rewrite ?elem_of_cons, IH; try naive_solver.
  - apply bool_decide_eq_true in H. rewrite Hlive in H. naive_solver.
  - apply bool_decide_eq_false in H. rewrite Hlive in H. naive_solver.
Qed.

Context {env_ok : E → Prop} {files : E → list byte → option (list byte)} {writing : E → WFile E → list byte → Prop}
  {reading : E → SFile E → list byte → Prop} {pos : SFile E → nat} `{!FileSystemLaws E env_ok files writing reading pos}.

Lemma remove_files_spec ds : ∀ e, env_ok e → NoDup ds → (∀ c, c ∈ ds → is_Some (files e (dbname ++ x2f :: c))) →
  ∃ e', remove_files ds e = Some e' ∧ env_ok e' ∧ (∀ c, c ∈ ds → files e' (dbname ++ x2f :: c) = None) ∧
    unchanged files writing reading ((λ c, dbname ++ x2f :: c) <$> ds) e e'.
Proof.
  induction ds as [|d ds IH]; intros e He Hnd Hs.
  { exists e. split_and!; [done..|by intros c ?%elem_of_nil|apply unchanged_refl]. }
  apply NoDup_cons in Hnd as [Hd Hnd]. destruct (Hs d ltac:(left)) as [c0 Hc0].
  destruct (remove_ok e _ c0 He Hc0) as (e1 & Hr & He1 & Hnone & Hu1).
  destruct (IH e1 He1 Hnd) as (e2 & Hr2 & He2 & Hn2 & Hu2).
  { intros c Hc. rewrite (un_files _ _ _ _ _ _ Hu1); [apply Hs; by right|]. intros Heq%list_elem_of_singleton. apply app_inv_head in Heq as [= ->]. done. }
  exists e2. cbn [remove_files fmap list_fmap]. change (str "/" ++ d) with (x2f :: d). rewrite Hr. cbn [mbind option_bind]. split_and!; [done..| |].
  - intros c [->|Hc]%elem_of_cons; [|by apply Hn2]. rewrite (un_files _ _ _ _ _ _ Hu2); [done|].
    intros (c' & Heq & Hc')%list_elem_of_fmap. apply app_inv_head in Heq as [= ->]. done.
  - eapply unchanged_trans; (eapply unchanged_weaken; [|eassumption]); [by intros x ->%list_elem_of_singleton; left|by intros x Hx; right].
Qed.

(** C11: garbage collection is exact.  In every reachable state of the versions, of
    a new or of a recovered database, and without a background error,
    [RemoveObsoleteFiles] runs to its end on a file system without failures; every
    file that is not a database file, that recovery needs (log files from the log
    number on, the current MANIFEST and newer ones, CURRENT), that is being written
    or that a held version uses keeps its bytes and its open handles, and every
    other file of the directory is gone, older MANIFESTs with them; the tables
    evicted from the table cache are those whose files are gone.  After a background
    error nothing is removed. *)
Theorem obsolete_files_removed owners m db :
  version_run (uvalid := uvalid) (env_ok := env_ok) (files := files) icmp dbname comparator_name max_file_size reuse_logs owners m (db_versions db) → env_ok (db_env db) →
  if ok (db_bg_error db) then
    ∃ e evicted, RemoveObsoleteFiles db = Some (set_env e (db_versions db) db, evicted) ∧ env_ok e ∧
      (∀ n, needed db n → files e n = files (db_env db) n ∧ ∀ h, writing (db_env db) h n → writing e h n) ∧
      (∀ n, ¬ needed db n → files e n = None) ∧
      (∀ num, num ∈ evicted ↔ ¬ table_in_use db num ∧ ∃ c, is_Some (files (db_env db) (dbname ++ x2f :: c)) ∧ ParseFileName c = Some (num, kTableFile))
  else RemoveObsoleteFiles db = Some (db, []).
Proof.
  intros Hrun He. destruct (ok (db_bg_error db)) eqn:Hbg; [|unfold RemoveObsoleteFiles; by rewrite Hbg].
  destruct (live_files owners m db) as (live & Hlive & Hin); [by eapply version_run_ok|].
  destruct (get_children_ok (env_ok := env_ok) (db_env db) dbname He) as (l & Hl & Hnd & Hel).
  destruct (select_obsolete_spec live db l Hin Hnd) as [Hnd' Hsel]. pose proof (λ num, select_evicted live db l num Hin) as Hev. unfold RemoveObsoleteFiles. rewrite Hbg, Hlive, Hl. cbn [negb mbind option_bind].
  destruct (select_obsolete live (db_versions db) l) as [ds ev]. cbn [fst snd] in *.
  assert (∀ c, ¬ needed db (dbname ++ x2f :: c) → child_name c) as Hchild.
  { intros c Hn. destruct (ParseFileName c) as [[num type]|] eqn:Hp; [by eapply ParseFileName_child|].
    exfalso. apply Hn. intros c' num type Heq Hp'. apply app_inv_head in Heq as [= <-]. congruence. }
  destruct (remove_files_spec ds (db_env db) He Hnd') as (e & Hr & He' & Hnone & Hu).
  { intros c [Hc Hn]%Hsel. apply Hel; [by apply Hchild|done]. }
  exists e, ev. rewrite Hr. split_and!; [done..| | |].
  - intros n Hn. assert (n ∉ (λ c, dbname ++ x2f :: c) <$> ds) as Hout by (intros (c & -> & [_ Hc]%Hsel)%list_elem_of_fmap; done).
    split; [by apply (un_files _ _ _ _ _ _ Hu)|]. intros h. by apply (un_writing _ _ _ _ _ _ Hu).
  - intros n Hn. destruct (decide (n ∈ (λ c, dbname ++ x2f :: c) <$> ds)) as [(c & -> & Hc)%list_elem_of_fmap|Hout]; [by apply Hnone|].
    rewrite (un_files _ _ _ _ _ _ Hu) by done. destruct (files (db_env db) n) eqn:Hf; [|done]. exfalso.
    apply Hn. intros c num type -> Hp. exfalso. apply Hout, list_elem_of_fmap. exists c. split; [done|]. apply Hsel. split; [|done].
    apply Hel; [by apply Hchild|]. by rewrite Hf.
  - intros num. rewrite Hev. split; (intros (Hu' & c & Hc & Hp); split; [done|]; exists c; split; [|done]; apply Hel; [by eapply ParseFileName_child|done]).
Qed.
End obsolete.

(** A reopened database, with an old MANIFEST still in its directory. *)
Lemma obsolete_files_removed_witness : ∃ (db : DBImpl (C := BytewiseComparatorImpl) (E := InMemoryEnv)) e evicted,
  files (db_env db) (DescriptorFileName (str "db") 1) = Some [] ∧
  RemoveObsoleteFiles (str "db") db = Some (set_env e (db_versions db) db, evicted) ∧ files e (DescriptorFileName (str "db") 1) = None.
Proof.
  destruct reopened_run as (vs & e0 & Hrun & He0 & Hman & _).
  destruct (new_writable_ok e0 (DescriptorFileName (str "db") 1) He0) as (e & h & _ & He & _ & Hf & _).
  assert (is_Some (DBImpl_new (C := BytewiseComparatorImpl) e)) as [db0 Hdb] by (unfold DBImpl_new; rewrite example_set_new; eauto).
  pose (db := set_env e vs db0). assert (db_bg_error db = Status_OK) as Hbg by (unfold DBImpl_new in Hdb; rewrite example_set_new in Hdb; by injection Hdb as <-).
  pose proof (obsolete_files_removed (FileSystem0 := mem_fs) (FileSystemLaws0 := mem_fs_laws) version_icmp (str "db") (str "cmp") 2097152 false [] (spec_edit first_edit ∅) db Hrun He) as Hthm.
  rewrite Hbg in Hthm. destruct Hthm as (e' & evicted & Hr & _ & _ & Hgone & _).
  exists db, e', evicted. split; [exact Hf|]. split; [exact Hr|]. apply Hgone. intros Hn.
  specialize (Hn (str "MANIFEST-000001") 1 kDescriptorFile). cbn in Hn. rewrite Hman in Hn. by specialize (Hn eq_refl eq_refl).
Defined.
