(* ===== verification/HandleTable.v ===== *)
(** The cache's hash table of handles (HandleTable of util/cache.cc): handles are
    objects at addresses, the buckets are chained through [next_hash]. *)
From stdpp Require Import gmap.
From S2P Require Import Prelude.

Section handles.
Context {V : Type}.

(** [LRUHandle]; the value of a list head is not initialised.  Calling the deleter
    of a handle is recorded by the cache. *)
Record LRUHandle := {
  h_value : option V;
  h_next_hash : option nat;
  h_next : option nat;
  h_prev : option nat;
  h_charge : Z;
  h_key : list byte;
  h_in_cache : bool;
  h_refs : Z;
  h_hash : Z;
}.

Notation Heap := (gmap nat LRUHandle).
Implicit Types H : Heap.

(** [LRUHandle::key]: the assertion excludes the head of an empty list. *)
Definition handle_key (l : nat) (h : LRUHandle) : option (list byte) :=
  if bool_decide (h_next h = Some l) then None else Some (h_key h).

Definition set_next_hash (p : option nat) (h : LRUHandle) : LRUHandle :=
  {| h_value := h_value h; h_next_hash := p; h_next := h_next h; h_prev := h_prev h; h_charge := h_charge h; h_key := h_key h;
     h_in_cache := h_in_cache h; h_refs := h_refs h; h_hash := h_hash h |}.

Record HandleTable := { length_ : Z; elems_ : Z; list_ : list (option nat) }.
Implicit Types T : HandleTable.

(** A pointer to a slot: an element of the bucket array or a [next_hash] field. *)
Inductive Slot := Bucket (i : nat) | NextHash (l : nat).

Definition read_slot T H (s : Slot) : option (option nat) :=
  match s with
  | Bucket i => list_ T !! i
  | NextHash l => h ← H !! l; Some (h_next_hash h)
  end.

Definition write_slot T H (s : Slot) (p : option nat) : option (HandleTable * Heap) :=
  match s with
  | Bucket i =>
      _ ← list_ T !! i;
      Some ({| length_ := length_ T; elems_ := elems_ T; list_ := <[i := p]> (list_ T) |}, H)
  | NextHash l => h ← H !! l; Some (T, <[l := set_next_hash p h]> H)
  end.

Definition bucket_of (hash length : Z) : nat := Z.to_nat (Z.land hash (u32 (length - 1))).

Definition handle_differs (key : list byte) (hash : Z) (l : nat) (h : LRUHandle) : option bool :=
  if h_hash h =? hash then k ← handle_key l h; Some (bool_decide (key ≠ k)) else Some true.

Fixpoint find_loop (fuel : nat) T H (key : list byte) (hash : Z) (ptr : Slot) : option Slot :=
  match fuel with
  | O => None
  | S fuel =>
      p ← read_slot T H ptr;
      match p with
      | None => Some ptr
      | Some l =>
          h ← H !! l;
          match handle_differs key hash l h with
          | Some true => find_loop fuel T H key hash (NextHash l)
          | Some false => Some ptr
          | None => None
          end
      end
  end.

(** A chain visits no handle twice: the handles bound the loop. *)
Definition FindPointer T H (key : list byte) (hash : Z) : option Slot :=
  find_loop (S (size H)) T H key hash (Bucket (bucket_of hash (length_ T))).

Definition table_Lookup T H (key : list byte) (hash : Z) : option (option nat) :=
  ptr ← FindPointer T H key hash; read_slot T H ptr.

(** ** Growing *)

(** The doubling loop reaches any 32-bit number of elements within 32 rounds,
    unless the length overflows. *)
Fixpoint grow_length (fuel : nat) (new_length elems : Z) : option Z :=
  match fuel with
  | O => None
  | S fuel => if new_length <? elems then grow_length fuel (u32 (new_length * 2)) elems else Some new_length
  end.

Fixpoint rehash_chain (fuel : nat) H (new_length : Z) (p : option nat) (new_list : list (option nat)) (count : Z)
    : option (Heap * list (option nat) * Z) :=
  match p with
  | None => Some (H, new_list, count)
  | Some l =>
      match fuel with
      | O => None
      | S fuel =>
          h ← H !! l;
          let i := bucket_of (h_hash h) new_length in
          first ← new_list !! i;
          rehash_chain fuel (<[l := set_next_hash first h]> H) new_length (h_next_hash h) (<[i := Some l]> new_list) (u32 (count + 1))
      end
  end.

Fixpoint rehash H (new_length : Z) (old_list : list (option nat)) (new_list : list (option nat)) (count : Z)
    : option (Heap * list (option nat) * Z) :=
  match old_list with
  | [] => Some (H, new_list, count)
  | p :: old_list =>
      '(H, new_list, count) ← rehash_chain (size H) H new_length p new_list count;
      rehash H new_length old_list new_list count
  end.

Definition Resize T H : option (HandleTable * Heap) :=
  new_length ← grow_length 33 4 (elems_ T);
  '(H, new_list, count) ← rehash H new_length (list_ T) (replicate (Z.to_nat new_length) None) 0;
  if elems_ T =? count then Some ({| length_ := new_length; elems_ := elems_ T; list_ := new_list |}, H) else None.

Definition HandleTable_new : option HandleTable :=
  '(T, _) ← Resize {| length_ := 0; elems_ := 0; list_ := [] |} ∅; Some T.

Definition set_elems (n : Z) T : HandleTable := {| length_ := length_ T; elems_ := n; list_ := list_ T |}.

(** The result is the handle that was in the table under the same key. *)
Definition table_Insert T H (l : nat) : option (HandleTable * Heap * option nat) :=
  h ← H !! l;
  key ← handle_key l h;
  ptr ← FindPointer T H key (h_hash h);
  old ← read_slot T H ptr;
  next ← match old with None => Some None | Some o => ho ← H !! o; Some (h_next_hash ho) end;
  let H := <[l := set_next_hash next h]> H in
  '(T, H) ← write_slot T H ptr (Some l);
  match old with
  | None =>
      let T := set_elems (u32 (elems_ T + 1)) T in
      '(T, H) ← (if length_ T <? elems_ T then Resize T H else Some (T, H));
      Some (T, H, None)
  | Some o => Some (T, H, Some o)
  end.

Definition table_Remove T H (key : list byte) (hash : Z) : option (HandleTable * Heap * option nat) :=
  ptr ← FindPointer T H key hash;
  result ← read_slot T H ptr;
  match result with
  | None => Some (T, H, None)
  | Some l =>
      h ← H !! l;
      '(T, H) ← write_slot T H ptr (h_next_hash h);
      Some (set_elems (u32 (elems_ T - 1)) T, H, Some l)
  end.

(** ** Chains *)

(** Equal but for the links of the chains. *)
Definition same_info H H' : Prop := ∀ l, set_next_hash None <$> H' !! l = set_next_hash None <$> H !! l.

Lemma same_info_refl H : same_info H H.
Proof. done. Qed.

Lemma same_info_trans H1 H2 H3 : same_info H1 H2 → same_info H2 H3 → same_info H1 H3.
Proof. intros H12 H23 l. by rewrite H23. Qed.

Lemma same_info_back H H' l h' : same_info H H' → H' !! l = Some h' → ∃ h, H !! l = Some h ∧ set_next_hash None h' = set_next_hash None h.
Proof. intros Hs Hl. specialize (Hs l). rewrite Hl in Hs. destruct (H !! l) as [h|]; [|done]. injection Hs as ?. exists h. split; [done|]. unfold set_next_hash. congruence. Qed.

Lemma same_info_set H l h p : H !! l = Some h → same_info H (<[l := set_next_hash p h]> H).
Proof. intros Hl x. destruct (decide (x = l)) as [->|Hne]; [by rewrite lookup_insert_eq, Hl|by rewrite lookup_insert_ne]. Qed.

(** From [p], the handles [ls] are chained and lead to [q]. *)
Fixpoint hseg H (p : option nat) (ls : list nat) (q : option nat) : Prop :=
  match ls with
  | [] => p = q
  | l :: ls => p = Some l ∧ ∃ h, H !! l = Some h ∧ hseg H (h_next_hash h) ls q
  end.
Notation hchain H p ls := (hseg H p ls None).

Definition same_hash H H' (l : nat) : Prop := h_next_hash <$> H' !! l = h_next_hash <$> H !! l.

Lemma hseg_frame H H' ls q : ∀ p, (∀ l, l ∈ ls → same_hash H H' l) → hseg H p ls q → hseg H' p ls q.
Proof.
  induction ls as [|l ls IH]; intros p Hs; cbn [hseg]; [done|]. intros [-> (h & Hl & Hc)]. split; [done|].
  specialize (Hs l ltac:(left)) as Hsl. unfold same_hash in Hsl. rewrite Hl in Hsl. destruct (H' !! l) as [h'|]; [|done].
  injection Hsl as Heq. exists h'. split; [done|]. rewrite Heq. apply IH; [|done]. intros l' Hl'. apply Hs. by right.
Qed.

Lemma hseg_live H ls q : ∀ p l, hseg H p ls q → l ∈ ls → is_Some (H !! l).
Proof.
  induction ls as [|l' ls IH]; intros p l; [by intros _ ?%elem_of_nil|]. intros [_ (h & Hl & Hc)] [->|Hin]%elem_of_cons; [by exists h|by eapply IH].
Qed.

Lemma hseg_app H a b q : ∀ p, hseg H p (a ++ b) q ↔ ∃ r, hseg H p a r ∧ hseg H r b q.
Proof.
  induction a as [|l a IH]; intros p; cbn [app hseg].
  - split; [intros Hb; by exists p|by intros (r & -> & Hb)].
  - split; [intros [-> (h & Hl & (r & Ha & Hb)%IH)]; exists r; eauto|]. intros (r & [-> (h & Hl & Ha)] & Hb). split; [done|].
    exists h. split; [done|]. apply IH. by exists r.
Qed.

Lemma hseg_snoc H a l q p : hseg H p (a ++ [l]) q ↔ hseg H p a (Some l) ∧ ∃ h, H !! l = Some h ∧ h_next_hash h = q.
Proof.
  rewrite hseg_app. cbn [hseg]. split; [intros (r & Ha & -> & Hl); done|]. intros [Ha Hl]. by exists (Some l).
Qed.

(** The slot after the handles [pre] of bucket [i]. *)
Definition slot_after (i : nat) (pre : list nat) : Slot :=
  match last pre with None => Bucket i | Some l => NextHash l end.

Lemma slot_after_snoc i pre l : slot_after i (pre ++ [l]) = NextHash l.
Proof. unfold slot_after. by rewrite last_snoc. Qed.

Lemma read_slot_after T H i p pre q : list_ T !! i = Some p → hseg H p pre q → read_slot T H (slot_after i pre) = Some q.
Proof.
  intros Hi. destruct pre as [|l pre _] using rev_ind; cbn [hseg]; [by intros ->|].
  intros [_ (h & Hl & <-)]%hseg_snoc. rewrite slot_after_snoc. cbn. by rewrite Hl.
Qed.

(** Writing a slot changes one bucket, and one [next_hash] field at most. *)
Lemma write_slot_after T H i p pre q q' : list_ T !! i = Some p → hseg H p pre q → NoDup pre →
  ∃ p' H', write_slot T H (slot_after i pre) q' = Some ({| length_ := length_ T; elems_ := elems_ T; list_ := <[i := p']> (list_ T) |}, H') ∧
    hseg H' p' pre q' ∧ (∀ l, l ∉ pre → H' !! l = H !! l) ∧ same_info H H'.
Proof.
  intros Hi. destruct pre as [|l pre _] using rev_ind; cbn [hseg].
  - intros -> _. exists q', H. cbn. by rewrite Hi.
  - intros [Hp (h & Hl & Hq)]%hseg_snoc (_ & Hl' & _)%NoDup_app. exists p, (<[l := set_next_hash q' h]> H). rewrite slot_after_snoc.
    cbn [write_slot]. rewrite Hl, list_insert_id by done. cbn [mbind option_bind]. destruct T as [len el li]. split; [done|]. split_and!.
    + apply hseg_snoc. split; [|exists (set_next_hash q' h); by rewrite lookup_insert_eq]. eapply hseg_frame; [|exact Hp].
      intros x Hx. unfold same_hash. destruct (decide (x = l)) as [->|Hne]; [|by rewrite lookup_insert_ne].
      exfalso. apply (Hl' l Hx). left.
    + intros x Hx. rewrite lookup_insert_ne; [done|]. intros <-. apply Hx, elem_of_app. right; left.
    + by apply same_info_set.
Qed.

Definition matches (key : list byte) (hash : Z) (h : LRUHandle) : Prop := h_key h = key ∧ h_hash h = hash.

#[local] Instance matches_dec key hash h : Decision (matches key hash h).
Proof. unfold matches. apply _. Defined.

Lemma handle_differs_spec key hash l h : h_next h ≠ Some l → handle_differs key hash l h = Some (bool_decide (¬ matches key hash h)).
Proof.
  intros Hn. unfold handle_differs, handle_key, matches. rewrite (bool_decide_eq_false_2 (h_next h = Some l)) by done. cbn [mbind option_bind].
  destruct (Z.eqb_spec (h_hash h) hash) as [Hh|Hh]; f_equal; [apply bool_decide_ext|symmetry; apply bool_decide_eq_true]; naive_solver.
Qed.

(** The loop stops at the first handle with the key, or at the end of the chain. *)
Lemma find_loop_spec T H key hash i p post : ∀ fuel pre, list_ T !! i = Some p → hchain H p (pre ++ post) → (length post < fuel)%nat →
  (∀ l h, l ∈ post → H !! l = Some h → h_next h ≠ Some l) →
  ∃ skip rest, post = skip ++ rest ∧ find_loop fuel T H key hash (slot_after i pre) = Some (slot_after i (pre ++ skip)) ∧
    (∀ l h, l ∈ skip → H !! l = Some h → ¬ matches key hash h) ∧
    match rest with [] => True | l :: _ => ∃ h, H !! l = Some h ∧ matches key hash h end.
Proof.
  induction post as [|l post IH]; intros [|fuel] pre Hi Hc Hf Hk; cbn [length] in Hf; try lia; pose proof Hc as (q & Hpre & Hpost)%hseg_app; cbn [find_loop].
  - rewrite (read_slot_after T H i p pre q Hi Hpre). cbn [hseg] in Hpost. subst q. cbn [mbind option_bind]. exists [], [].
    rewrite !app_nil_r. split_and!; try done. intros l h Hx. by apply elem_of_nil in Hx.
  - rewrite (read_slot_after T H i p pre q Hi Hpre). destruct Hpost as [-> (h & Hl & Hpost)]. cbn [mbind option_bind]. rewrite Hl. cbn [mbind option_bind].
    rewrite handle_differs_spec by (apply (Hk l h); [left|done]). cbn [mbind option_bind]. destruct (decide (matches key hash h)) as [Hm|Hm].
    { rewrite bool_decide_eq_false_2 by tauto. exists [], (l :: post). rewrite app_nil_r. split_and!; [done..| |by exists h]; intros x h' Hx; by apply elem_of_nil in Hx. }
    rewrite bool_decide_eq_true_2 by done.
    destruct (IH fuel (pre ++ [l])) as (skip & rest & -> & Hloop & Hskip & Hrest); [done|by rewrite <- app_assoc|lia|intros x h' Hx; apply Hk; by right|].
    exists (l :: skip), rest. rewrite slot_after_snoc in Hloop. rewrite Hloop, <- app_assoc. split_and!; [done..| |done].
    intros x h' [->|Hx]%elem_of_cons Hx'; [|by eapply Hskip]. by assert (h' = h) as -> by congruence.
Qed.
(** ** The invariant *)

(** Bucket [i] chains the handles of [B !! i], which hash to it. *)
Record buckets_ok H (len : Z) (L : list (option nat)) (B : list (list nat)) : Prop := {
  bk_list : length L = Z.to_nat len;
  bk_buckets : length B = Z.to_nat len;
  bk_chain i p ls : L !! i = Some p → B !! i = Some ls → hchain H p ls;
  bk_home i ls l h : B !! i = Some ls → l ∈ ls → H !! l = Some h → bucket_of (h_hash h) len = i;
  bk_nodup : NoDup (mjoin B);
}.

(** The table holds the handles of [mjoin B]: one for a key, and on average at
    most one in a bucket. *)
Record table_ok H T (B : list (list nat)) : Prop := {
  tb_pow : ∃ k, 2 <= k <= 31 ∧ length_ T = 2 ^ k;
  tb_buckets : buckets_ok H (length_ T) (list_ T) B;
  tb_keys l l' h h' : l ∈ mjoin B → l' ∈ mjoin B → H !! l = Some h → H !! l' = Some h' → h_key h = h_key h' → h_hash h = h_hash h' → l = l';
  tb_self l h : l ∈ mjoin B → H !! l = Some h → h_next h ≠ Some l;
  tb_elems : elems_ T = Z.of_nat (length (mjoin B));
  tb_load : elems_ T <= length_ T;
}.

Lemma bucket_range hash k : 0 <= k <= 31 → (bucket_of hash (2 ^ k) < Z.to_nat (2 ^ k))%nat.
Proof.
  intros Hk. assert (0 < 2 ^ k <= 2 ^ 31) by (split; [lia|apply Z.pow_le_mono_r; lia]). unfold bucket_of.
  rewrite u32_small, land_ones_mod by lia. pose proof (Z.mod_pos_bound hash (2 ^ k)). lia.
Qed.

Lemma mjoin_delete (B : list (list nat)) i ls : B !! i = Some ls → mjoin B ≡ₚ ls ++ mjoin (delete i B).
Proof.
  intros Hi. rewrite delete_take_drop. rewrite <- (take_drop_middle B i ls Hi) at 1. rewrite !join_app. cbn [mjoin list_join].
  rewrite !(assoc_L (++)). f_equiv; [apply Permutation_app_comm|done].
Qed.

Lemma mjoin_insert (B : list (list nat)) i ls ls' : B !! i = Some ls → mjoin (<[i := ls']> B) ≡ₚ ls' ++ mjoin (delete i B).
Proof.
  intros Hi. rewrite (mjoin_delete (<[i := ls']> B) i ls') by (rewrite list_lookup_insert_eq; [done|by eapply lookup_lt_Some]).
  assert (delete i (<[i := ls']> B) = delete i B) as ->; [|done]. apply list_eq. intros j. destruct (decide (j < i)%nat).
  - by rewrite !list_lookup_delete_lt, list_lookup_insert_ne by lia.
  - by rewrite !list_lookup_delete_ge, list_lookup_insert_ne by lia.
Qed.

Lemma bk_in H len L B i ls l : buckets_ok H len L B → B !! i = Some ls → l ∈ ls → l ∈ mjoin B.
Proof. intros _ Hi Hl. rewrite (mjoin_delete B i ls Hi), elem_of_app. by left. Qed.

Lemma bk_find H len L B l : buckets_ok H len L B → l ∈ mjoin B → ∃ i ls p h, B !! i = Some ls ∧ L !! i = Some p ∧ l ∈ ls ∧ H !! l = Some h.
Proof.
  intros Hb (ls & Hl & [i Hi]%list_elem_of_lookup)%list_elem_of_join.
  assert (is_Some (L !! i)) as [p Hp]. { apply lookup_lt_is_Some. rewrite (bk_list _ _ _ _ Hb), <- (bk_buckets _ _ _ _ Hb). by eapply lookup_lt_Some. }
  destruct (hseg_live H ls None p l (bk_chain _ _ _ _ Hb i p ls Hp Hi) Hl) as [h Hh]. by exists i, ls, p, h.
Qed.

(** One bucket changes. *)
Lemma buckets_set H H' len L B i ls p' ls' : buckets_ok H len L B → B !! i = Some ls → hchain H' p' ls' →
  (∀ x, x ∈ mjoin B → x ∉ ls → same_hash H H' x) → same_info H H' →
  (∀ x h, x ∈ ls' → H' !! x = Some h → bucket_of (h_hash h) len = i) → NoDup (ls' ++ mjoin (delete i B)) →
  buckets_ok H' len (<[i := p']> L) (<[i := ls']> B).
Proof.
  intros Hb Hi Hc Hsame Hinfo Hhome Hnd. pose proof (bk_nodup _ _ _ _ Hb) as Hnd0. rewrite (mjoin_delete B i ls Hi) in Hnd0.
  split; rewrite ?length_insert; try apply Hb.
  - intros j q qs. destruct (decide (j = i)) as [->|Hne].
    + rewrite !list_lookup_insert_eq; [by intros [= <-] [= <-]|by eapply lookup_lt_Some|].
      rewrite (bk_list _ _ _ _ Hb), <- (bk_buckets _ _ _ _ Hb). by eapply lookup_lt_Some.
    + rewrite !list_lookup_insert_ne by done. intros Hq Hqs. eapply hseg_frame; [|by eapply (bk_chain _ _ _ _ Hb j)].
      intros x Hx. apply Hsame; [by eapply bk_in|]. intros Hx'. apply NoDup_app in Hnd0 as (_ & Hdis & _). apply (Hdis x Hx').
      apply list_elem_of_join. exists qs. split; [done|]. apply list_elem_of_lookup. destruct (decide (j < i)%nat).
      * exists j. by rewrite list_lookup_delete_lt.
      * exists (j - 1)%nat. rewrite list_lookup_delete_ge by lia. by replace (S (j - 1)) with j by lia.
  - intros j qs x h'. destruct (decide (j = i)) as [->|Hne].
    + rewrite list_lookup_insert_eq by (by eapply lookup_lt_Some). intros [= <-]. apply Hhome.
    + rewrite list_lookup_insert_ne by done. intros Hqs Hx Hh'. destruct (same_info_back _ _ _ _ Hinfo Hh') as (h & Hh & Heq).
      rewrite <- (bk_home _ _ _ _ Hb j qs x h Hqs Hx Hh). by injection Heq as _ _ _ _ _ _ _ ->.
  - by rewrite (mjoin_insert B i ls ls' Hi).
Qed.

Lemma chain_size H p ls q : hseg H p ls q → NoDup ls → (length ls ≤ size H)%nat.
Proof.
  intros Hc Hnd. rewrite <- (size_list_to_set (C := gset nat) ls), <- size_dom by done.
  apply subseteq_size. intros l. rewrite elem_of_list_to_set, elem_of_dom. by apply hseg_live with (p := p) (q := q).
Qed.

(** Where a key is, or where it would go. *)
Lemma table_find H T B key hash : table_ok H T B →
  ∃ i p pre rest, i = bucket_of hash (length_ T) ∧ list_ T !! i = Some p ∧ B !! i = Some (pre ++ rest) ∧ hchain H p (pre ++ rest) ∧
    FindPointer T H key hash = Some (slot_after i pre) ∧ read_slot T H (slot_after i pre) = Some (head rest) ∧
    (∀ l h, l ∈ mjoin B → H !! l = Some h → matches key hash h → head rest = Some l) ∧
    (∀ l, head rest = Some l → ∃ h, H !! l = Some h ∧ matches key hash h).
Proof.
  intros Ht. pose proof (tb_buckets _ _ _ Ht) as Hb. destruct (tb_pow _ _ _ Ht) as (k & Hk & Hlen). set (i := bucket_of hash (length_ T)).
  assert (i < Z.to_nat (length_ T))%nat as Hi by (unfold i; rewrite Hlen; apply bucket_range; lia).
  destruct (lookup_lt_is_Some_2 (list_ T) i) as [p Hp]; [by rewrite (bk_list _ _ _ _ Hb)|].
  destruct (lookup_lt_is_Some_2 B i) as [ls Hls]; [by rewrite (bk_buckets _ _ _ _ Hb)|].
  pose proof (bk_chain _ _ _ _ Hb i p ls Hp Hls) as Hc.
  assert (length ls ≤ size H)%nat as Hsize.
  { eapply chain_size; [exact Hc|]. pose proof (bk_nodup _ _ _ _ Hb) as Hnd. rewrite (mjoin_delete B i ls Hls) in Hnd. by apply NoDup_app in Hnd as (? & _). }
  destruct (find_loop_spec T H key hash i p ls (S (size H)) []) as (pre & rest & -> & Hf & Hpre & Hrest); [done|done|lia| |].
  { intros l h Hl. apply (tb_self _ _ _ Ht). by eapply bk_in. }
  exists i, p, pre, rest. pose proof Hc as (q & Hc1 & Hc2)%hseg_app. split_and!; try done.
  - rewrite (read_slot_after T H i p pre q Hp Hc1). destruct rest as [|r rest]; cbn [hseg head] in *; [by subst|by destruct Hc2 as [-> _]].
  - intros l h Hl Hh Hm. destruct (bk_find H _ _ _ l Hb Hl) as (j & qs & p' & h' & Hj & _ & Hin & Hh'). assert (h' = h) as -> by congruence.
    assert (j = i) as ->. { rewrite <- (bk_home _ _ _ _ Hb j qs l h Hj Hin Hh). unfold i. by destruct Hm as [_ ->]. }
    assert (qs = pre ++ rest) as -> by congruence. apply elem_of_app in Hin as [Hin|Hin]; [by destruct (Hpre l h Hin Hh)|].
    destruct rest as [|r rest]; [by apply elem_of_nil in Hin|]. cbn. f_equal. destruct Hrest as (hr & Hr & Hmr). symmetry.
    destruct Hm as [Hm1 Hm2], Hmr as [Hr1 Hr2]. apply (tb_keys _ _ _ Ht l r h hr); [done| |done..|congruence|congruence].
    eapply bk_in; [done..|]. apply elem_of_app. right; left.
  - intros l. destruct rest as [|r rest]; [done|]. by intros [= <-].
Qed.

Lemma table_Lookup_spec H T B key hash : table_ok H T B →
  ∃ r, table_Lookup T H key hash = Some r ∧
    (∀ l h, l ∈ mjoin B → H !! l = Some h → matches key hash h → r = Some l) ∧
    (∀ l, r = Some l → l ∈ mjoin B ∧ ∃ h, H !! l = Some h ∧ matches key hash h).
Proof.
  intros Ht. destruct (table_find H T B key hash Ht) as (i & p & pre & rest & _ & _ & HB & _ & Hf & Hr & Hin & Hout). exists (head rest).
  unfold table_Lookup. rewrite Hf. cbn [mbind option_bind]. split_and!; [done..|]. intros l Hl. split; [|by apply Hout].
  eapply bk_in; [apply Ht|exact HB|]. destruct rest as [|r rest]; [done|]. injection Hl as ->. apply elem_of_app. right; left.
Qed.
(** ** Growing *)

Lemma grow_length_spec elems : 0 <= elems <= 2 ^ 31 → ∀ fuel k, 2 <= k <= 31 → (32 <= k + Z.of_nat fuel) →
  ∃ k', 2 <= k' <= 31 ∧ grow_length fuel (2 ^ k) elems = Some (2 ^ k') ∧ elems <= 2 ^ k'.
Proof.
  intros He. induction fuel as [|fuel IH]; intros k Hk Hf; [lia|]. cbn [grow_length]. destruct (Z.ltb_spec (2 ^ k) elems) as [Hlt|Hge]; [|by exists k].
  assert (k ≠ 31) by (intros ->; lia). assert (2 ^ k * 2 = 2 ^ (k + 1)) as -> by (rewrite Z.pow_add_r by lia; lia).
  rewrite u32_small; [apply IH; lia|]. split; [lia|]. apply Z.pow_lt_mono_r; lia.
Qed.

Lemma mjoin_replicate_nil n : mjoin (replicate n []) = ([] : list nat).
Proof. induction n; done. Qed.

Lemma buckets_empty H n : buckets_ok H (Z.of_nat n) (replicate n None) (replicate n []).
Proof.
  split; rewrite ?length_replicate; try lia.
  - by intros i p ls [-> _]%lookup_replicate_1 [-> _]%lookup_replicate_1.
  - intros i ls l h [-> _]%lookup_replicate_1 Hl. by apply elem_of_nil in Hl.
  - rewrite mjoin_replicate_nil. constructor.
Qed.

(** Moving a handle to the front of its new bucket. *)
Lemma push_bucket H k N B l h : 0 <= k <= 31 → buckets_ok H (2 ^ k) N B → H !! l = Some h → l ∉ mjoin B →
  let i := bucket_of (h_hash h) (2 ^ k) in
  ∃ first ls, N !! i = Some first ∧ B !! i = Some ls ∧
    buckets_ok (<[l := set_next_hash first h]> H) (2 ^ k) (<[i := Some l]> N) (<[i := l :: ls]> B) ∧
    mjoin (<[i := l :: ls]> B) ≡ₚ l :: mjoin B.
Proof.
  intros Hk Hb Hl Hin i. assert (i < Z.to_nat (2 ^ k))%nat as Hi by (by apply bucket_range).
  destruct (lookup_lt_is_Some_2 N i) as [first HN]; [by rewrite (bk_list _ _ _ _ Hb)|].
  destruct (lookup_lt_is_Some_2 B i) as [ls HB]; [by rewrite (bk_buckets _ _ _ _ Hb)|].
  assert (mjoin (<[i := l :: ls]> B) ≡ₚ l :: mjoin B) as Hj by (rewrite (mjoin_insert B i ls _ HB), (mjoin_delete B i ls HB); done).
  exists first, ls. split_and!; try done. eapply buckets_set; [done|exact HB| | | | |].
  - split; [done|]. exists (set_next_hash first h). rewrite lookup_insert_eq. split; [done|]. cbn.
    eapply hseg_frame; [|by eapply (bk_chain _ _ _ _ Hb i)]. intros x Hx. unfold same_hash. rewrite lookup_insert_ne; [done|].
    intros <-. apply Hin. by eapply bk_in.
  - intros x Hx _. unfold same_hash. rewrite lookup_insert_ne; [done|]. by intros <-.
  - by apply same_info_set.
  - intros x h' [->|Hx]%elem_of_cons; [rewrite lookup_insert_eq; by intros [= <-]|].
    rewrite lookup_insert_ne; [by eapply (bk_home _ _ _ _ Hb)|]. intros <-. apply Hin. by eapply bk_in.
  - rewrite <- (mjoin_insert B i ls (l :: ls) HB), Hj. constructor; [done|apply Hb].
Qed.

Lemma rehash_chain_spec k ls : 0 <= k <= 31 → ∀ fuel H p N B count, hchain H p ls → (length ls ≤ fuel)%nat → buckets_ok H (2 ^ k) N B → NoDup (ls ++ mjoin B) →
  0 <= count → count + Z.of_nat (length ls) < 2 ^ 32 →
  ∃ H' N' B', rehash_chain fuel H (2 ^ k) p N count = Some (H', N', count + Z.of_nat (length ls)) ∧ buckets_ok H' (2 ^ k) N' B' ∧
    mjoin B' ≡ₚ ls ++ mjoin B ∧ same_info H H' ∧ ∀ x, x ∉ ls → H' !! x = H !! x.
Proof.
  intros Hk. induction ls as [|l ls IH]; intros fuel H p N B count Hc Hf Hb Hnd Hc0 Hc1; cbn [hseg] in Hc.
  { subst p. exists H, N, B. split_and!; try done. destruct fuel; cbn; do 2 f_equal; lia. }
  destruct Hc as [-> (h & Hl & Hc)]. cbn [length] in *. destruct fuel as [|fuel]; [lia|]. cbn [app] in Hnd. apply NoDup_cons in Hnd as [Hl' Hnd].
  rewrite elem_of_app in Hl'. destruct (push_bucket H k N B l h Hk Hb Hl) as (first & bs & HN & HB & Hb' & Hj); [tauto|].
  cbn [rehash_chain]. rewrite Hl. cbn [mbind option_bind]. rewrite HN. cbn [mbind option_bind]. rewrite (u32_small (count + 1)) by lia.
  destruct (IH fuel (<[l := set_next_hash first h]> H) (h_next_hash h) (<[bucket_of (h_hash h) (2 ^ k) := Some l]> N) (<[bucket_of (h_hash h) (2 ^ k) := l :: bs]> B) (count + 1)) as (H' & N' & B' & Hr & Hb'' & Hj' & Hinfo & Hout); [|lia|exact Hb'| |lia|lia|].
  - eapply hseg_frame; [|exact Hc]. intros x Hx. unfold same_hash. rewrite lookup_insert_ne; [done|]. intros <-. tauto.
  - rewrite Hj. apply NoDup_app in Hnd as (Hnd1 & Hdis & Hnd2). apply NoDup_app. split_and!; [done| |constructor; tauto].
    intros x Hx [->|Hx']%elem_of_cons; [tauto|]. by apply (Hdis x).
  - exists H', N', B'. split_and!; [rewrite Hr; do 2 f_equal; lia|done| | |].
    + rewrite Hj', Hj. cbn. by rewrite Permutation_middle.
    + eapply same_info_trans; [|done]. by apply same_info_set.
    + intros x [Hx1 Hx2]%not_elem_of_cons. rewrite Hout by done. by rewrite lookup_insert_ne.
Qed.

Lemma rehash_spec k : 0 <= k <= 31 → ∀ L Bs H N B count, Forall2 (λ p ls, hchain H p ls) L Bs → buckets_ok H (2 ^ k) N B → NoDup (mjoin Bs ++ mjoin B) →
  0 <= count → count + Z.of_nat (length (mjoin Bs)) < 2 ^ 32 →
  ∃ H' N' B', rehash H (2 ^ k) L N count = Some (H', N', count + Z.of_nat (length (mjoin Bs))) ∧ buckets_ok H' (2 ^ k) N' B' ∧
    mjoin B' ≡ₚ mjoin Bs ++ mjoin B ∧ same_info H H'.
Proof.
  intros Hk. induction L as [|p L IH]; intros [|ls Bs] H N B count HF Hb Hnd Hc0 Hc1; try (by inversion HF).
  { exists H, N, B. split_and!; try done. cbn. do 2 f_equal. lia. }
  apply Forall2_cons in HF as [Hc HF]. change (mjoin (ls :: Bs)) with (ls ++ mjoin Bs) in *. rewrite length_app in Hc1. rewrite <- app_assoc in Hnd.
  pose proof Hnd as (Hnd1 & Hdis & Hnd2)%NoDup_app. pose proof Hnd2 as (Hnd3 & Hdis' & Hnd4)%NoDup_app.
  destruct (rehash_chain_spec k ls Hk (size H) H p N B count) as (H1 & N1 & B1 & Hr1 & Hb1 & Hj1 & Hi1 & Ho1); [done|by eapply chain_size|done| |lia|lia|].
  { apply NoDup_app. split_and!; [done| |done]. intros x Hx Hx'. apply (Hdis x Hx), elem_of_app. by right. }
  cbn [rehash]. rewrite Hr1. cbn [mbind option_bind].
  destruct (IH Bs H1 N1 B1 (count + Z.of_nat (length ls))) as (H2 & N2 & B2 & Hr2 & Hb2 & Hj2 & Hi2); [|done| |lia|lia|].
  - apply Forall2_same_length_lookup. split; [by eapply Forall2_length|]. intros j q qs Hq Hqs. eapply hseg_frame; [|exact (Forall2_lookup_lr _ _ _ _ _ _ HF Hq Hqs)].
    intros x Hx. unfold same_hash. rewrite Ho1; [done|]. intros Hx'. apply (Hdis x Hx'), elem_of_app. left. apply list_elem_of_join.
    exists qs. split; [done|]. by apply list_elem_of_lookup_2 in Hqs.
  - rewrite Hj1, Permutation_app_swap_app. exact Hnd.
  - exists H2, N2, B2. split_and!; [rewrite Hr2, length_app; do 2 f_equal; lia|done| |by eapply same_info_trans].
    rewrite Hj2, Hj1. rewrite Permutation_app_swap_app. by rewrite app_assoc.
Qed.

Lemma Resize_spec H T B : length (list_ T) = length B → (∀ i p ls, list_ T !! i = Some p → B !! i = Some ls → hchain H p ls) → NoDup (mjoin B) →
  elems_ T = Z.of_nat (length (mjoin B)) → elems_ T <= 2 ^ 31 →
  ∃ k H' L' B', 2 <= k <= 31 ∧ Resize T H = Some ({| length_ := 2 ^ k; elems_ := elems_ T; list_ := L' |}, H') ∧ buckets_ok H' (2 ^ k) L' B' ∧
    mjoin B' ≡ₚ mjoin B ∧ same_info H H' ∧ elems_ T <= 2 ^ k.
Proof.
  intros Hlen Hc Hnd He Hmax. destruct (grow_length_spec (elems_ T) ltac:(lia) 33 2) as (k & Hk & Hg & Hle); [lia..|].
  destruct (rehash_spec k ltac:(lia) (list_ T) B H (replicate (Z.to_nat (2 ^ k)) None) (replicate (Z.to_nat (2 ^ k)) []) 0) as (H' & N' & B' & Hr & Hb & Hj & Hi).
  - apply Forall2_same_length_lookup. split; [done|]. apply Hc.
  - assert (2 ^ k = Z.of_nat (Z.to_nat (2 ^ k))) as Heq by lia. rewrite Heq at 1. apply buckets_empty.
  - by rewrite mjoin_replicate_nil, app_nil_r.
  - done.
  - lia.
  - exists k, H', N', B'. split; [done|]. unfold Resize. change 4 with (2 ^ 2). rewrite Hg. cbn [mbind option_bind]. rewrite Hr. cbn [mbind option_bind].
    rewrite He, Z.add_0_l, Z.eqb_refl. split_and!; try done; [|lia]. rewrite Hj.
    by rewrite mjoin_replicate_nil, app_nil_r.
Qed.
(** ** Operations *)

Lemma HandleTable_new_ok : ∃ T, HandleTable_new = Some T ∧ table_ok ∅ T (replicate 4 []).
Proof.
  exists {| length_ := 4; elems_ := 0; list_ := replicate 4 None |}. split; [reflexivity|].
  split; rewrite ?mjoin_replicate_nil; try done; [by exists 2|apply (buckets_empty ∅ 4)].
Qed.

(** The keys of the handles do not depend on the chains. *)
Lemma table_ok_info H H' T T' B B' : table_ok H T B → same_info H H' → (∃ k, 2 <= k <= 31 ∧ length_ T' = 2 ^ k) → buckets_ok H' (length_ T') (list_ T') B' →
  (∀ l, l ∈ mjoin B' → l ∈ mjoin B) → elems_ T' = Z.of_nat (length (mjoin B')) → elems_ T' <= length_ T' → table_ok H' T' B'.
Proof.
  intros Ht Hi Hk Hb Hin He Hle. split; try done.
  - intros l l' h h' Hl Hl' Hh Hh'. destruct (same_info_back _ _ _ _ Hi Hh) as (g & Hg & Eg), (same_info_back _ _ _ _ Hi Hh') as (g' & Hg' & Eg').
    injection Eg as _ _ _ _ -> _ _ ->. injection Eg' as _ _ _ _ -> _ _ ->. apply (tb_keys _ _ _ Ht); auto.
  - intros l h Hl Hh. destruct (same_info_back _ _ _ _ Hi Hh) as (g & Hg & Eg). injection Eg as _ -> _ _ _ _ _ _. by apply (tb_self _ _ _ Ht); auto.
Qed.

Lemma table_Remove_spec H T B key hash : table_ok H T B → Z.of_nat (length (mjoin B)) < 2 ^ 32 →
  ∃ T' H' r B', table_Remove T H key hash = Some (T', H', r) ∧ same_info H H' ∧ table_ok H' T' B' ∧
    match r with
    | None => mjoin B' ≡ₚ mjoin B ∧ ∀ l h, l ∈ mjoin B → H !! l = Some h → ¬ matches key hash h
    | Some l => mjoin B ≡ₚ l :: mjoin B' ∧ ∃ h, H !! l = Some h ∧ matches key hash h
    end.
Proof.
  intros Ht Hmax. destruct (table_find H T B key hash Ht) as (i & p & pre & rest & Hi & Hp & HB & Hc & Hf & Hr & Hin & Hout).
  unfold table_Remove. rewrite Hf. cbn [mbind option_bind]. rewrite Hr. cbn [mbind option_bind]. destruct rest as [|l rest]; cbn [head] in *.
  { exists T, H, None, B. split_and!; try done. intros l h Hl Hh Hm. by specialize (Hin l h Hl Hh Hm). }
  destruct (Hout l eq_refl) as (h & Hl & Hm). rewrite Hl. cbn [mbind option_bind]. pose proof (tb_buckets _ _ _ Ht) as Hb.
  pose proof (bk_nodup _ _ _ _ Hb) as Hnd. rewrite (mjoin_delete B i _ HB), <- app_assoc in Hnd. pose proof Hnd as (Hnd1 & Hdis & Hnd2)%NoDup_app.
  cbn [app] in Hnd2. apply NoDup_cons in Hnd2 as [Hl2 Hnd2].
  pose proof Hc as (q & Hc1 & -> & h' & Hl' & Hc2)%hseg_app. assert (h' = h) as -> by congruence.
  destruct (write_slot_after T H i p pre (Some l) (h_next_hash h) Hp Hc1 Hnd1) as (p' & H' & Hw & Hc1' & Hsame & Hinfo).
  rewrite Hw. cbn [mbind option_bind]. set (B' := <[i := pre ++ rest]> B).
  assert (mjoin B ≡ₚ l :: mjoin B') as HBB'. { unfold B'. rewrite (mjoin_insert B i _ _ HB), (mjoin_delete B i _ HB), <- !app_assoc. symmetry. apply Permutation_middle. }
  assert (∀ x, x ∉ pre → same_hash H H' x) as Hsh by (intros x Hx; unfold same_hash; by rewrite Hsame).
  eexists _, H', (Some l), B'. split; [done|]. split_and!; [done| |done|by exists h].
  apply (table_ok_info H H' T _ B B'); cbn [length_ elems_ list_ set_elems]; try done.
  - apply Ht.
  - apply (buckets_set H H' _ _ B i (pre ++ l :: rest)); try done.
    + apply hseg_app. exists (h_next_hash h). split; [done|]. eapply hseg_frame; [|exact Hc2]. intros x Hx. apply Hsh. intros Hx'.
      apply (Hdis x Hx'). rewrite elem_of_app, elem_of_cons. tauto.
    + intros x _ Hx. apply Hsh. rewrite elem_of_app in Hx. tauto.
    + intros x h0 Hx Hh0. destruct (same_info_back _ _ _ _ Hinfo Hh0) as (g & Hg & Eg). injection Eg as _ _ _ _ _ _ _ ->.
      apply (bk_home _ _ _ _ Hb i (pre ++ l :: rest) x g HB); [|done]. rewrite elem_of_app in Hx |- *. rewrite elem_of_cons. tauto.
    + rewrite <- app_assoc. apply NoDup_app. split_and!; [done| |done]. intros x Hx Hx'. apply (Hdis x Hx). rewrite elem_of_app, elem_of_cons. rewrite elem_of_app in Hx'. tauto.
  - intros x Hx. rewrite HBB'. by right.
  - rewrite (tb_elems _ _ _ Ht), HBB' in *. cbn [length] in *. rewrite u32_small; lia.
  - rewrite (tb_elems _ _ _ Ht). pose proof (tb_load _ _ _ Ht) as Hle. rewrite (tb_elems _ _ _ Ht), HBB' in *. cbn [length] in *. rewrite u32_small; lia.
Qed.

(** Linking a new handle in front of what follows the handle it replaces. *)
Lemma insert_link H T B l h p pre rest next : table_ok H T B → H !! l = Some h → l ∉ mjoin B → let i := bucket_of (h_hash h) (length_ T) in
  list_ T !! i = Some p → B !! i = Some (pre ++ rest) → hchain H p (pre ++ rest) → hchain H next (tail rest) →
  ∃ p' H', write_slot T (<[l := set_next_hash next h]> H) (slot_after i pre) (Some l) =
      Some ({| length_ := length_ T; elems_ := elems_ T; list_ := <[i := p']> (list_ T) |}, H') ∧ same_info H H' ∧
    buckets_ok H' (length_ T) (<[i := p']> (list_ T)) (<[i := pre ++ l :: tail rest]> B).
Proof.
  intros Ht Hl Hfresh i Hp HB Hc Hnext. pose proof (tb_buckets _ _ _ Ht) as Hb.
  pose proof (bk_nodup _ _ _ _ Hb) as Hnd. rewrite (mjoin_delete B i _ HB), <- app_assoc in Hnd. pose proof Hnd as (Hnd1 & Hdis & Hnd2)%NoDup_app.
  pose proof Hc as (q & Hc1 & Hc2)%hseg_app.
  assert (l ∉ pre ++ rest) as Hlp by (intros Hx; apply Hfresh; by eapply bk_in).
  set (H1 := <[l := set_next_hash next h]> H).
  assert (same_info H H1) as Hi1 by (by apply same_info_set).
  assert (∀ x, x ≠ l → H1 !! x = H !! x) as Hs1 by (intros x Hx; unfold H1; by rewrite lookup_insert_ne).
  destruct (write_slot_after T H1 i p pre q (Some l) Hp) as (p' & H' & Hw & Hc1' & Hsame & Hinfo); [|done|].
  { eapply hseg_frame; [|exact Hc1]. intros x Hx. unfold same_hash. rewrite Hs1; [done|]. intros ->. apply Hlp, elem_of_app. by left. }
  assert (same_info H H') as Hi' by (by eapply same_info_trans).
  assert (∀ x, x ∈ tail rest → x ∈ rest) as Htail by (destruct rest; [done|intros x Hx; by right]).
  assert (∀ x, x ∉ pre → x ≠ l → same_hash H H' x) as Hsh by (intros x Hx Hx'; unfold same_hash; by rewrite Hsame, Hs1).
  exists p', H'. split_and!; [done..|]. apply (buckets_set H H' _ _ B i (pre ++ rest)); try done.
  - apply hseg_app. exists (Some l). split; [done|]. split; [done|]. exists (set_next_hash next h).
    rewrite Hsame by (intros Hx; apply Hlp, elem_of_app; by left). split; [unfold H1; by rewrite lookup_insert_eq|]. cbn.
    eapply hseg_frame; [|exact Hnext]. intros x Hx. apply Hsh; [|intros ->; apply Hlp, elem_of_app; right; by apply Htail].
    intros Hx'. apply (Hdis x Hx'), elem_of_app. left. by apply Htail.
  - intros x Hx Hx'. apply Hsh; [rewrite elem_of_app in Hx'; tauto|by intros ->].
  - intros x h0 Hx Hh0. destruct (same_info_back _ _ _ _ Hi' Hh0) as (g & Hg & Eg). injection Eg as _ _ _ _ _ _ _ ->.
    rewrite elem_of_app, elem_of_cons in Hx. destruct (decide (x = l)) as [->|Hne]; [assert (g = h) as -> by congruence; done|].
    apply (bk_home _ _ _ _ Hb i (pre ++ rest) x g HB); [|done]. apply elem_of_app. destruct Hx as [?|[?|?%Htail]]; [by left|done|by right].
  - rewrite <- app_assoc. apply NoDup_app. split_and!; [done| |].
    + intros x Hx Hx'. cbn [app] in Hx'. rewrite elem_of_cons, elem_of_app in Hx'. destruct Hx' as [->|Hx']; [apply Hlp, elem_of_app; by left|].
      apply (Hdis x Hx), elem_of_app. destruct Hx' as [?%Htail|?]; tauto.
    + cbn [app]. constructor; [|destruct rest; [done|]; cbn [tail app] in *; by apply NoDup_cons in Hnd2 as [_ ?]].
      rewrite elem_of_app. intros [Hx%Htail|Hx]; [apply Hlp, elem_of_app; by right|]. apply Hfresh. rewrite (mjoin_delete B i _ HB), elem_of_app. by right.
Qed.

(** The new handle is the only one with its key. *)
Lemma insert_keys H T B i l h pre rest T' H'' B'' : table_ok H T B → H !! l = Some h → h_next h ≠ Some l → B !! i = Some (pre ++ rest) →
  (∀ o h', o ∈ mjoin B → H !! o = Some h' → matches (h_key h) (h_hash h) h' → head rest = Some o) →
  let S := pre ++ tail rest ++ mjoin (delete i B) in
  same_info H H'' → (∃ k, 2 <= k <= 31 ∧ length_ T' = 2 ^ k) → buckets_ok H'' (length_ T') (list_ T') B'' → mjoin B'' ≡ₚ l :: S →
  elems_ T' = Z.of_nat (length (mjoin B'')) → elems_ T' <= length_ T' → table_ok H'' T' B''.
Proof.
  intros Ht Hl Hself HB Hin S Hii Hpow Hbb HSS He Hle. pose proof (tb_buckets _ _ _ Ht) as Hb.
  pose proof (bk_nodup _ _ _ _ Hb) as Hnd. rewrite (mjoin_delete B i _ HB), <- app_assoc in Hnd. apply NoDup_app in Hnd as (_ & Hdis & Hnd2).
  assert (∀ x, x ∈ tail rest → x ∈ rest) as Htail by (destruct rest; [done|intros x Hx; by right]).
  assert (∀ x, x ∈ S → x ∈ mjoin B ∧ head rest ≠ Some x) as HSB.
  { intros x Hx. rewrite (mjoin_delete B i _ HB), !elem_of_app. unfold S in Hx. rewrite !elem_of_app in Hx. split; [destruct Hx as [?|[?%Htail|?]]; tauto|].
    destruct rest as [|o rest]; [done|]. intros [= ->]. cbn [tail app] in *. apply NoDup_cons in Hnd2 as [Hx2 _]. rewrite elem_of_app in Hx2.
    destruct Hx as [Hx|Hx]; [|tauto]. apply (Hdis x Hx), elem_of_cons. by left. }
  split; try done.
  - assert (∀ y hy, y ∈ S → H !! y = Some hy → h_key hy = h_key h → h_hash hy = h_hash h → False) as Hno.
    { intros y hy [Hy Hy']%HSB Hhy Hk1 Hk2. by apply Hy', (Hin y hy). }
    intros x y hx hy. rewrite !HSS, !elem_of_cons. intros Hx Hy Hhx Hhy. destruct (same_info_back _ _ _ _ Hii Hhx) as (g & Hg & Eg), (same_info_back _ _ _ _ Hii Hhy) as (g' & Hg' & Eg').
    injection Eg as _ _ _ _ -> _ _ ->. injection Eg' as _ _ _ _ -> _ _ ->. intros Hk1 Hk2.
    destruct Hx as [->|Hx], Hy as [->|Hy]; [done| | |by apply (tb_keys _ _ _ Ht x y g g'); try apply HSB].
    + assert (g = h) as -> by congruence. by destruct (Hno y g' Hy Hg').
    + assert (g' = h) as -> by congruence. by destruct (Hno x g Hx Hg).
  - intros x hx. rewrite HSS, elem_of_cons. intros Hx Hhx. destruct (same_info_back _ _ _ _ Hii Hhx) as (g & Hg & Eg). injection Eg as _ -> _ _ _ _ _ _.
    destruct Hx as [->|[Hx _]%HSB]; [by assert (g = h) as -> by congruence|by apply (tb_self _ _ _ Ht)].
Qed.

Lemma table_Insert_spec H T B l h : table_ok H T B → H !! l = Some h → h_next h ≠ Some l → l ∉ mjoin B → Z.of_nat (length (mjoin B)) < 2 ^ 31 →
  ∃ T' H' r B', table_Insert T H l = Some (T', H', r) ∧ same_info H H' ∧ table_ok H' T' B' ∧
    match r with
    | None => mjoin B' ≡ₚ l :: mjoin B ∧ ∀ o h', o ∈ mjoin B → H !! o = Some h' → ¬ matches (h_key h) (h_hash h) h'
    | Some o => ∃ S, mjoin B ≡ₚ o :: S ∧ mjoin B' ≡ₚ l :: S ∧ ∃ h', H !! o = Some h' ∧ matches (h_key h) (h_hash h) h'
    end.
Proof.
  intros Ht Hl Hself Hfresh Hmax. destruct (table_find H T B (h_key h) (h_hash h) Ht) as (i & p & pre & rest & Hi & Hp & HB & Hc & Hf & Hr & Hin & Hout).
  unfold table_Insert. rewrite Hl. cbn [mbind option_bind]. unfold handle_key. rewrite bool_decide_eq_false_2 by done. cbn [mbind option_bind].
  rewrite Hf. cbn [mbind option_bind]. rewrite Hr. cbn [mbind option_bind].
  pose proof Hc as (q & Hc1 & Hc2)%hseg_app.
  assert (∃ next, match head rest with None => Some None | Some o => ho ← H !! o; Some (h_next_hash ho) end = Some next ∧ hchain H next (tail rest)) as (next & -> & Hnext).
  { destruct rest as [|o rest]; cbn [head tail hseg] in *; [by exists None|]. destruct Hc2 as [_ (ho & Ho & Hc2)]. exists (h_next_hash ho). by rewrite Ho. }
  cbn [mbind option_bind]. subst i.
  destruct (insert_link H T B l h p pre rest next Ht Hl Hfresh Hp HB Hc Hnext) as (p' & H' & Hw & Hi' & Hb'). rewrite Hw. cbn [mbind option_bind].
  set (i := bucket_of (h_hash h) (length_ T)) in *. set (B' := <[i := pre ++ l :: tail rest]> B) in *. set (S := pre ++ tail rest ++ mjoin (delete i B)).
  assert (mjoin B' ≡ₚ l :: S) as HS by (unfold B', S; rewrite (mjoin_insert B i _ _ HB), <- app_assoc; symmetry; apply Permutation_middle).
  assert (∀ T' H'' B'', same_info H H'' → (∃ k, 2 <= k <= 31 ∧ length_ T' = 2 ^ k) → buckets_ok H'' (length_ T') (list_ T') B'' → mjoin B'' ≡ₚ l :: S →
    elems_ T' = Z.of_nat (length (mjoin B'')) → elems_ T' <= length_ T' → table_ok H'' T' B'') as Hok by (intros T' H'' B''; by eapply insert_keys).
  pose proof (tb_elems _ _ _ Ht) as He. pose proof (tb_load _ _ _ Ht) as Hle. pose proof (mjoin_delete B i _ HB) as HBd.
  destruct rest as [|o rest]; cbn [head tail app] in *.
  - assert (mjoin B ≡ₚ S) as HBS by (by rewrite HBd, app_nil_r). unfold set_elems. cbn [length_ elems_ list_]. rewrite (u32_small (elems_ T + 1)) by lia.
    assert (elems_ T + 1 = Z.of_nat (length (mjoin B'))) as He'. { rewrite HS. cbn [length]. rewrite <- HBS. lia. }
    assert (∀ o h', o ∈ mjoin B → H !! o = Some h' → ¬ matches (h_key h) (h_hash h) h') as Hnone by (intros o h' Ho Hh' Hm; by specialize (Hin o h' Ho Hh' Hm)).
    destruct (Z.ltb_spec (length_ T) (elems_ T + 1)).
    + destruct (Resize_spec H' {| length_ := length_ T; elems_ := elems_ T + 1; list_ := <[i:=p']> (list_ T) |} B') as (k & H2 & L2 & B2 & Hk & Hrs & Hb2 & Hj & Hi2 & Hle2);
        cbn [list_ elems_] in *; [by rewrite (bk_list _ _ _ _ Hb'), (bk_buckets _ _ _ _ Hb')|apply Hb'|apply Hb'|done|lia|].
      rewrite Hrs. cbn [mbind option_bind]. eexists _, H2, None, B2. split; [done|]. split_and!; [by eapply same_info_trans| |by rewrite Hj, HS, HBS|done].
      apply Hok; cbn; try done; [by eapply same_info_trans|by exists k|by rewrite Hj, HS|by rewrite Hj].
    + cbn [mbind option_bind]. eexists _, H', None, B'. split; [done|]. split_and!; [done| |by rewrite HS, HBS|done]. apply Hok; cbn; try done. apply Ht.
  - assert (mjoin B ≡ₚ o :: S) as HBS. { rewrite HBd, <- app_assoc. symmetry. apply Permutation_middle. }
    destruct (Hout o eq_refl) as (ho & Ho & Hm). eexists _, H', (Some o), B'. split; [done|]. split_and!; [done| |exists S; eauto 10].
    assert (elems_ T = Z.of_nat (length (mjoin B'))) as He'. { rewrite He, HS, HBS. done. }
    apply Hok; cbn; try done. apply Ht.
Qed.
End handles.
