(* ===== verification/LruCache.v ===== *)
(** The sharded LRU cache (util/cache.cc): handles at addresses, the two circular
    lists linked through [next] and [prev], reference counts, eviction. *)
From stdpp Require Import gmap.
From S2P Require Import Prelude Hash HandleTable.

Section cache.
Context {V : Type}.
Notation LRUHandle := (LRUHandle (V := V)).
Notation Heap := (gmap nat LRUHandle).
Implicit Types (H : Heap) (h : LRUHandle).

(** The list heads are the members [lru_] and [in_use_], at addresses 0 and 1.
    [deleted_] lists the calls of deleters. *)
Definition lru_ : nat := 0.
Definition in_use_ : nat := 1.

Record LRUCache := {
  capacity_ : Z;
  usage_ : Z;
  heap_ : Heap;
  malloc_ : nat;
  table_ : HandleTable;
  deleted_ : list (list byte * option V);
}.
Implicit Types c : LRUCache.

Definition with_heap H c : LRUCache :=
  {| capacity_ := capacity_ c; usage_ := usage_ c; heap_ := H; malloc_ := malloc_ c; table_ := table_ c; deleted_ := deleted_ c |}.
Definition with_table (T : HandleTable) H c : LRUCache :=
  {| capacity_ := capacity_ c; usage_ := usage_ c; heap_ := H; malloc_ := malloc_ c; table_ := T; deleted_ := deleted_ c |}.
Definition with_usage (usage : Z) c : LRUCache :=
  {| capacity_ := capacity_ c; usage_ := usage; heap_ := heap_ c; malloc_ := malloc_ c; table_ := table_ c; deleted_ := deleted_ c |}.
Definition SetCapacity (capacity : Z) c : LRUCache :=
  {| capacity_ := capacity; usage_ := usage_ c; heap_ := heap_ c; malloc_ := malloc_ c; table_ := table_ c; deleted_ := deleted_ c |}.

Definition set_links (next prev : option nat) h : LRUHandle :=
  {| h_value := h_value h; h_next_hash := h_next_hash h; h_next := next; h_prev := prev; h_charge := h_charge h; h_key := h_key h;
     h_in_cache := h_in_cache h; h_refs := h_refs h; h_hash := h_hash h |}.

Definition set_refs (in_cache : bool) (refs : Z) h : LRUHandle :=
  {| h_value := h_value h; h_next_hash := h_next_hash h; h_next := h_next h; h_prev := h_prev h; h_charge := h_charge h; h_key := h_key h;
     h_in_cache := in_cache; h_refs := refs; h_hash := h_hash h |}.

(** Assignments to [p->next] and [p->prev]. *)
Definition put_next (p q : option nat) H : option Heap :=
  l ← p; h ← H !! l; Some (<[l := set_links q (h_prev h) h]> H).
Definition put_prev (p q : option nat) H : option Heap :=
  l ← p; h ← H !! l; Some (<[l := set_links (h_next h) q h]> H).

Definition list_head (l : nat) : LRUHandle :=
  {| h_value := None; h_next_hash := None; h_next := Some l; h_prev := Some l; h_charge := 0; h_key := []; h_in_cache := false; h_refs := 0; h_hash := 0 |}.

Definition LRUCache_new : option LRUCache :=
  table ← HandleTable_new (V := V);
  Some {| capacity_ := 0; usage_ := 0; heap_ := <[lru_ := list_head lru_]> (<[in_use_ := list_head in_use_]> ∅); malloc_ := 2%nat;
          table_ := table; deleted_ := [] |}.

Definition LRU_Remove (e : nat) H : option Heap :=
  h ← H !! e;
  H ← put_prev (h_next h) (h_prev h) H;
  h ← H !! e;
  put_next (h_prev h) (h_next h) H.

Definition LRU_Append (list e : nat) H : option Heap :=
  H ← put_next (Some e) (Some list) H;
  head ← H !! list;
  H ← put_prev (Some e) (h_prev head) H;
  h ← H !! e;
  H ← put_next (h_prev h) (Some e) H;
  h ← H !! e;
  put_prev (h_next h) (Some e) H.

Definition set_handle (e : nat) h c : LRUCache := with_heap (<[e := h]> (heap_ c)) c.

Definition Ref (e : nat) c : option LRUCache :=
  h ← heap_ c !! e;
  H ← (if (h_refs h =? 1) && h_in_cache h then H ← LRU_Remove e (heap_ c); LRU_Append in_use_ e H else Some (heap_ c));
  h ← H !! e;
  Some (with_heap (<[e := set_refs (h_in_cache h) (u32 (h_refs h + 1)) h]> H) c).

(** The deleter gets the key and the value; [None] where an assertion fails. *)
Definition Unref (e : nat) c : option LRUCache :=
  h ← heap_ c !! e;
  if negb (0 <? h_refs h) then None else
  let h := set_refs (h_in_cache h) (h_refs h - 1) h in
  let H := <[e := h]> (heap_ c) in
  if h_refs h =? 0 then
    if h_in_cache h then None else
    key ← handle_key e h;
    Some {| capacity_ := capacity_ c; usage_ := usage_ c; heap_ := delete e H; malloc_ := malloc_ c; table_ := table_ c;
            deleted_ := deleted_ c ++ [(key, h_value h)] |}
  else if h_in_cache h && (h_refs h =? 1) then
    H ← LRU_Remove e H; H ← LRU_Append lru_ e H; Some (with_heap H c)
  else Some (with_heap H c).

Definition cache_Lookup (key : list byte) (hash : Z) c : option (LRUCache * option nat) :=
  e ← table_Lookup (table_ c) (heap_ c) key hash;
  match e with
  | Some e => c ← Ref e c; Some (c, Some e)
  | None => Some (c, None)
  end.

Definition Release (handle : nat) c : option LRUCache := Unref handle c.

Definition FinishErase (p : option nat) c : option (LRUCache * bool) :=
  match p with
  | None => Some (c, false)
  | Some e =>
      h ← heap_ c !! e;
      if negb (h_in_cache h) then None else
      H ← LRU_Remove e (heap_ c);
      h ← H !! e;
      c ← Unref e (with_usage (u64 (usage_ c - h_charge h)) (with_heap (<[e := set_refs false (h_refs h) h]> H) c));
      Some (c, true)
  end.

(** Removing the oldest entry, as the loops of [Insert] and [Prune] do. *)
Definition evict_oldest (old : nat) c : option LRUCache :=
  h ← heap_ c !! old;
  if negb (h_refs h =? 1) then None else
  key ← handle_key old h;
  '(T, H, r) ← table_Remove (table_ c) (heap_ c) key (h_hash h);
  '(c, erased) ← FinishErase r (with_table T H c);
  match erased with true => Some c | false => None end.

(** Each round removes an entry: the handles bound the rounds. *)
Fixpoint evict_loop (fuel : nat) (over : LRUCache → bool) c : option LRUCache :=
  match fuel with
  | O => None
  | S fuel =>
      head ← heap_ c !! lru_;
      match h_next head with
      | Some old =>
          if over c && negb (old =? lru_)%nat then c ← evict_oldest old c; evict_loop fuel over c else Some c
      | None => None
      end
  end.

Definition over_capacity c : bool := capacity_ c <? usage_ c.

(** The new handle [h] at [e] enters the cache, unless caching is off. *)
Definition add_entry (e : nat) (h : LRUHandle) c : option LRUCache :=
  if 0 <? capacity_ c then
    H ← LRU_Append in_use_ e (<[e := set_refs true (u32 (h_refs h + 1)) h]> (heap_ c));
    let c := with_usage (u64 (usage_ c + h_charge h)) (with_heap H c) in
    '(T, H, old) ← table_Insert (table_ c) (heap_ c) e;
    '(c, _) ← FinishErase old (with_table T H c);
    Some c
  else Some c.

Definition cache_Insert (key : list byte) (hash : Z) (value : V) (charge : Z) c : option (LRUCache * nat) :=
  let e := malloc_ c in
  let h := {| h_value := Some value; h_next_hash := None; h_next := None; h_prev := None; h_charge := charge; h_key := key;
              h_in_cache := false; h_refs := 1; h_hash := hash |} in
  let c := {| capacity_ := capacity_ c; usage_ := usage_ c; heap_ := <[e := h]> (heap_ c); malloc_ := S e; table_ := table_ c; deleted_ := deleted_ c |} in
  c ← add_entry e h c;
  c ← evict_loop (S (size (heap_ c))) over_capacity c;
  Some (c, e).

Definition Erase (key : list byte) (hash : Z) c : option LRUCache :=
  '(T, H, r) ← table_Remove (table_ c) (heap_ c) key hash;
  '(c, _) ← FinishErase r (with_table T H c);
  Some c.

Definition Prune c : option LRUCache := evict_loop (S (size (heap_ c))) (λ _, true) c.

Definition TotalCharge c : Z := usage_ c.

(** The destructor: no entry is in use. *)
Fixpoint destroy_loop (fuel : nat) (e : nat) c : option LRUCache :=
  match fuel with
  | O => None
  | S fuel =>
      if (e =? lru_)%nat then Some c else
      h ← heap_ c !! e;
      next ← h_next h;
      if negb (h_in_cache h && (h_refs h =? 1)) then None else
      c ← Unref e (set_handle e (set_refs false (h_refs h) h) c);
      destroy_loop fuel next c
  end.

Definition LRUCache_delete c : option LRUCache :=
  use ← heap_ c !! in_use_;
  if negb (bool_decide (h_next use = Some in_use_)) then None else
  lru ← heap_ c !! lru_;
  first ← h_next lru;
  destroy_loop (S (size (heap_ c))) first c.
End cache.

(** ** Sharding *)

Definition kNumShardBits : Z := 4.
Definition kNumShards : nat := Z.to_nat (1 ≪ kNumShardBits).

Definition HashSlice (s : list byte) : Z := Hash s 0.
Definition Shard (hash : Z) : nat := Z.to_nat (hash ≫ (32 - kNumShardBits)).

Section sharded.
Context {V : Type}.
Notation LRUCache := (LRUCache (V := V)).

Record ShardedLRUCache := { shard_ : list LRUCache; last_id_ : Z }.
Implicit Types s : ShardedLRUCache.

(** Handles of different shards are different: a handle is a shard and an address
    of its handles. *)
Definition Handle : Type := nat * nat.

Definition NewLRUCache (capacity : Z) : option ShardedLRUCache :=
  shard ← LRUCache_new (V := V);
  let per_shard := u64 (capacity + 15) / 16 in
  Some {| shard_ := replicate kNumShards (SetCapacity per_shard shard); last_id_ := 0 |}.

Definition set_shard (i : nat) (c : LRUCache) s : ShardedLRUCache := {| shard_ := <[i := c]> (shard_ s); last_id_ := last_id_ s |}.

Definition sharded_Insert (key : list byte) (value : V) (charge : Z) s : option (ShardedLRUCache * Handle) :=
  let hash := HashSlice key in
  c ← shard_ s !! Shard hash;
  '(c, e) ← cache_Insert key hash value charge c;
  Some (set_shard (Shard hash) c s, (Shard hash, e)).

Definition sharded_Lookup (key : list byte) s : option (ShardedLRUCache * option Handle) :=
  let hash := HashSlice key in
  c ← shard_ s !! Shard hash;
  '(c, e) ← cache_Lookup key hash c;
  Some (set_shard (Shard hash) c s, option_map (λ e, (Shard hash, e)) e).

Definition handle_at (handle : Handle) s : option LRUHandle := c ← shard_ s !! handle.1; heap_ c !! handle.2.

Definition sharded_Release (handle : Handle) s : option ShardedLRUCache :=
  h ← handle_at handle s;
  if negb (Shard (h_hash h) =? handle.1)%nat then None else
  c ← shard_ s !! Shard (h_hash h);
  c ← Release handle.2 c;
  Some (set_shard (Shard (h_hash h)) c s).

Definition sharded_Erase (key : list byte) s : option ShardedLRUCache :=
  let hash := HashSlice key in
  c ← shard_ s !! Shard hash;
  c ← Erase key hash c;
  Some (set_shard (Shard hash) c s).

Definition Value (handle : Handle) s : option (option V) := h ← handle_at handle s; Some (h_value h).

Definition NewId s : ShardedLRUCache * Z :=
  ({| shard_ := shard_ s; last_id_ := u64 (last_id_ s + 1) |}, u64 (last_id_ s + 1)).

Definition sharded_Prune s : option ShardedLRUCache :=
  shards ← mapM Prune (shard_ s); Some {| shard_ := shards; last_id_ := last_id_ s |}.

Definition sharded_TotalCharge s : Z := foldl (λ total c, u64 (total + TotalCharge c)) 0 (shard_ s).
End sharded.
