(* ===== verification/LruInvariant.v ===== *)
(** The LRU cache keeps its lists, counts and table consistent, evicts in order of
    use and never frees a handle a client holds (util/cache.cc). *)
From stdpp Require Import gmap.
From S2P Require Import Prelude Hash HandleTable LruCache.

Section rings.
Context {V : Type}.
Notation LRUHandle := (LRUHandle (V := V)).
Notation Heap := (gmap nat LRUHandle).
Implicit Types (H : Heap) (h : LRUHandle).

(** ** Doubly linked lists *)

Definition nxt H (l : nat) : option nat := h ← H !! l; h_next h.
Definition prv H (l : nat) : option nat := h ← H !! l; h_prev h.

Fixpoint links H (xs : list nat) : Prop :=
  match xs with
  | a :: (b :: _) as xs' => nxt H a = Some b ∧ prv H b = Some a ∧ links H xs'
  | _ => True
  end.

(** The circular list with head [hd] holds [l]. *)
Definition ring H (hd : nat) (l : list nat) : Prop := links H (hd :: l ++ [hd]).

(** Equal but for the links of the lists. *)
Definition same_data H H' : Prop := ∀ l, set_links None None <$> H' !! l = set_links None None <$> H !! l.

Lemma same_data_trans H1 H2 H3 : same_data H1 H2 → same_data H2 H3 → same_data H1 H3.
Proof. intros H12 H23 l. by rewrite H23. Qed.

Lemma same_data_set H l h n p : H !! l = Some h → same_data H (<[l := set_links n p h]> H).
Proof. intros Hl x. destruct (decide (x = l)) as [->|Hne]; [by rewrite lookup_insert_eq, Hl|by rewrite lookup_insert_ne]. Qed.

Lemma same_data_back H H' l h' : same_data H H' → H' !! l = Some h' → ∃ h, H !! l = Some h ∧ set_links None None h' = set_links None None h.
Proof. intros Hs Hl. specialize (Hs l). rewrite Hl in Hs. destruct (H !! l) as [h|]; [|done]. injection Hs as ?. exists h. split; [done|]. unfold set_links. congruence. Qed.

Lemma same_data_forth H H' l h : same_data H H' → H !! l = Some h → ∃ h', H' !! l = Some h' ∧ set_links None None h' = set_links None None h.
Proof. intros Hs Hl. specialize (Hs l). rewrite Hl in Hs. destruct (H' !! l) as [h'|]; [|done]. injection Hs as ?. exists h'. split; [done|]. unfold set_links. congruence. Qed.

Lemma links_app H xs a ys : links H (xs ++ a :: ys) ↔ links H (xs ++ [a]) ∧ links H (a :: ys).
Proof.
  induction xs as [|x xs IH]; [cbn; tauto|]. destruct xs as [|y xs]; cbn [app links] in *; tauto.
Qed.

Lemma links_frame H H' xs : links H xs →
  (∀ x ys zs, xs = ys ++ x :: zs → zs ≠ [] → nxt H' x = nxt H x) → (∀ x ys zs, xs = ys ++ x :: zs → ys ≠ [] → prv H' x = prv H x) → links H' xs.
Proof.
  induction xs as [|a [|b xs] IH]; [done..|]. cbn [links]. intros (Hn & Hp & Hl) Hnx Hpv. split_and!.
  - rewrite (Hnx a [] (b :: xs)); done.
  - rewrite (Hpv b [a] xs); done.
  - apply IH; [done| |].
    + intros x ys zs Heq. apply (Hnx x (a :: ys) zs). by rewrite Heq.
    + intros x ys zs Heq _. apply (Hpv x (a :: ys) zs); [by rewrite Heq|done].
Qed.

(** An assignment to [next]. *)
Lemma put_next_spec H a b h : H !! a = Some h →
  ∃ H', put_next (Some a) b H = Some H' ∧ nxt H' a = b ∧ (∀ x, x ≠ a → H' !! x = H !! x) ∧ (∀ x, prv H' x = prv H x) ∧ same_data H H'.
Proof.
  intros Ha. exists (<[a := set_links b (h_prev h) h]> H). cbn. rewrite Ha. split; [done|]. split_and!.
  - unfold nxt. by rewrite lookup_insert_eq.
  - intros x Hx. by rewrite lookup_insert_ne.
  - intros x. unfold prv. destruct (decide (x = a)) as [->|Hne]; [by rewrite lookup_insert_eq, Ha|by rewrite lookup_insert_ne].
  - by apply same_data_set.
Qed.

Lemma put_prev_spec H a b h : H !! a = Some h →
  ∃ H', put_prev (Some a) b H = Some H' ∧ prv H' a = b ∧ (∀ x, x ≠ a → H' !! x = H !! x) ∧ (∀ x, nxt H' x = nxt H x) ∧ same_data H H'.
Proof.
  intros Ha. exists (<[a := set_links (h_next h) b h]> H). cbn. rewrite Ha. split; [done|]. split_and!.
  - unfold prv. by rewrite lookup_insert_eq.
  - intros x Hx. by rewrite lookup_insert_ne.
  - intros x. unfold nxt. destruct (decide (x = a)) as [->|Hne]; [by rewrite lookup_insert_eq, Ha|by rewrite lookup_insert_ne].
  - by apply same_data_set.
Qed.

Lemma nxt_Some H a b : nxt H a = Some b → ∃ h, H !! a = Some h ∧ h_next h = Some b.
Proof. unfold nxt. destruct (H !! a) as [h|]; [|done]. eauto. Qed.

Lemma prv_Some H a b : prv H a = Some b → ∃ h, H !! a = Some h ∧ h_prev h = Some b.
Proof. unfold prv. destruct (H !! a) as [h|]; [|done]. eauto. Qed.

Lemma ring_live H hd l x : ring H hd l → x ∈ hd :: l → is_Some (H !! x).
Proof.
  unfold ring. intros Hr Hx. change (hd :: l ++ [hd]) with ((hd :: l) ++ [hd]) in Hr. apply list_elem_of_split in Hx as (l1 & l2 & Heq).
  rewrite Heq, <- app_assoc in Hr. cbn [app] in Hr. apply links_app in Hr as [_ Hr].
  destruct (l2 ++ [hd]) as [|y l'] eqn:Hl'; [by destruct l2|]. destruct Hr as (Hn & _). destruct (nxt_Some _ _ _ Hn) as (h & Hh & _). by exists h.
Qed.

Lemma ring_frame H H' hd l : ring H hd l → (∀ x, x ∈ hd :: l → H' !! x = H !! x) → ring H' hd l.
Proof.
  intros Hr Hs. unfold ring in *. eapply links_frame; [exact Hr| |]; intros x ys zs Heq Hne; unfold nxt, prv; rewrite Hs; try done.
  - assert (x ∈ hd :: l ++ [hd]) as Hx by (rewrite Heq, elem_of_app; right; left). rewrite elem_of_cons, elem_of_app, list_elem_of_singleton in Hx. rewrite elem_of_cons. tauto.
  - assert (x ∈ hd :: l ++ [hd]) as Hx by (rewrite Heq, elem_of_app; right; left). rewrite elem_of_cons, elem_of_app, list_elem_of_singleton in Hx. rewrite elem_of_cons. tauto.
Qed.
Lemma links_keep H H' ws p : links H (ws ++ [p]) → (∀ x, x ∈ ws → nxt H' x = nxt H x) → (∀ x, x ∈ tail (ws ++ [p]) → prv H' x = prv H x) → links H' (ws ++ [p]).
Proof.
  intros Hl Hn Hp. eapply links_frame; [exact Hl| |].
  - intros x ys zs Heq Hne. apply Hn. destruct (exists_last Hne) as (zs' & z & ->). rewrite app_comm_cons, app_assoc in Heq. apply app_inj_tail in Heq as [-> _].
    apply elem_of_app. right; left.
  - intros x ys zs Heq Hne. apply Hp. rewrite Heq. destruct ys; [done|]. cbn. apply elem_of_app. right; left.
Qed.

Lemma list_snoc (hd : nat) l : ∃ xs p, hd :: l = xs ++ [p].
Proof. destruct (exists_last (l := hd :: l)) as (xs & p & Heq); [done|]. by exists xs, p. Qed.

(** [LRU_Remove] unlinks; the fields of the entry itself stay. *)
Lemma LRU_Remove_spec H hd l1 e l2 : ring H hd (l1 ++ e :: l2) → NoDup (hd :: l1 ++ e :: l2) →
  ∃ H', LRU_Remove e H = Some H' ∧ ring H' hd (l1 ++ l2) ∧ H' !! e = H !! e ∧ (∀ x, x ∉ hd :: l1 ++ e :: l2 → H' !! x = H !! x) ∧ same_data H H'.
Proof.
  intros Hr Hnd. destruct (list_snoc hd l1) as (xs & p & Hxs).
  assert (∃ n ys, l2 ++ [hd] = ys ++ [hd] ∧ l2 ++ [hd] = n :: tail (ys ++ [hd]) ∧ ys = l2) as (n & ys & _ & Hys & ->).
  { destruct l2 as [|b l2]; [by exists hd, []|]. by exists b, (b :: l2). }
  unfold ring in Hr. rewrite <- app_assoc, app_comm_cons, Hxs, <- !app_assoc in Hr. cbn [app] in Hr. rewrite Hys in Hr.
  apply links_app in Hr as [Hl1 (Hpe & Hep & Hen & Hne & Hl2)]. rewrite <- Hys in Hl2.
  change (hd :: l1 ++ e :: l2) with ((hd :: l1) ++ e :: l2) in Hnd |- *. rewrite Hxs in Hnd |- *.
  pose proof Hnd as (Hnd1 & Hdis & [Hel Hnd2]%NoDup_cons)%NoDup_app.
  assert (p ∈ xs ++ [p]) as Hp by (apply elem_of_app; right; left).
  assert (hd ∈ xs ++ [p]) as Hhd by (rewrite <- Hxs; left).
  assert (n = hd ∨ n ∈ l2) as Hn by (destruct l2; injection Hys as <-; [by left|right; left]).
  assert (p ≠ e) as Hpe' by (intros ->; apply (Hdis e Hp); left). assert (n ≠ e) as Hne' by (destruct Hn as [->|Hn]; [intros ->; apply (Hdis e Hhd); left|by intros ->]).
  destruct (nxt_Some _ _ _ Hen) as (h & He & Hhn). destruct (prv_Some _ _ _ Hep) as (h' & He' & Hhp). assert (h' = h) as -> by congruence.
  destruct (prv_Some _ _ _ Hne) as (hn & Hhn' & _). destruct (put_prev_spec H n (Some p) hn Hhn') as (H1 & Hput1 & Hv1 & Ho1 & Hx1 & Hs1).
  destruct (nxt_Some _ _ _ Hpe) as (hp & Hhp' & _). destruct (same_data_forth _ _ p hp Hs1 Hhp') as (hp1 & Hhp1 & _).
  destruct (put_next_spec H1 p (Some n) hp1 Hhp1) as (H2 & Hput2 & Hv2 & Ho2 & Hx2 & Hs2).
  exists H2. split_and!.
  - unfold LRU_Remove. rewrite He. cbn [mbind option_bind]. rewrite Hhn, Hhp, Hput1. cbn [mbind option_bind]. rewrite Ho1, He by done. cbn [mbind option_bind]. by rewrite Hhn, Hhp, Hput2.
  - unfold ring. rewrite <- app_assoc, app_comm_cons, Hxs, <- app_assoc. cbn [app]. apply links_app. split.
    + eapply links_keep; [exact Hl1| |].
      * intros x Hx. unfold nxt. rewrite Ho2; [apply (Hx1 x)|]. intros ->. apply NoDup_app in Hnd1 as (_ & Hd1 & _). apply (Hd1 p Hx). left.
      * intros x Hx. rewrite Hx2. unfold prv. rewrite Ho1; [done|]. rewrite <- Hxs in Hx. cbn in Hx. intros Heq. subst x.
        assert (n ∈ xs ++ [p]) as Hx' by (rewrite <- Hxs; by right). destruct Hn as [->|Hn].
        -- assert (NoDup (hd :: l1)) as [Hh _]%NoDup_cons by (by rewrite Hxs). done.
        -- apply (Hdis n Hx'). by right.
    + assert (links H2 (l2 ++ [hd])) as Hl2'.
      { eapply links_keep; [exact Hl2| |].
        - intros x Hx. unfold nxt. rewrite Ho2; [apply (Hx1 x)|]. intros ->. apply (Hdis p Hp). by right.
        - intros x Hx. rewrite Hx2. unfold prv. rewrite Ho1; [done|]. intros ->. rewrite Hys in Hx. cbn [tail] in Hx.
          assert (NoDup (l2 ++ [hd])) as Hnd3. { apply NoDup_app. split_and!; [done| |apply NoDup_singleton]. intros y Hy ->%list_elem_of_singleton. apply (Hdis hd Hhd). by right. }
          rewrite Hys in Hnd3. apply NoDup_cons in Hnd3 as [? _]. done. }
      rewrite Hys in Hl2' |- *. cbn [links]. split_and!; [done| |done]. by rewrite Hx2.
  - rewrite Ho2, Ho1 by done. done.
  - intros x Hx. rewrite elem_of_app, elem_of_cons in Hx. rewrite Ho2, Ho1; [done| |intros ->; tauto]. intros ->. destruct Hn as [->|Hn]; tauto.
  - by eapply same_data_trans.
Qed.

(** [LRU_Append] links an entry before the head. *)
Lemma LRU_Append_spec H hd l e h : ring H hd l → NoDup (hd :: l) → e ∉ hd :: l → H !! e = Some h →
  ∃ H', LRU_Append hd e H = Some H' ∧ ring H' hd (l ++ [e]) ∧ (∀ x, x ∉ hd :: l ++ [e] → H' !! x = H !! x) ∧ same_data H H' ∧ nxt H' e = Some hd.
Proof.
  intros Hr Hnd He Hh. destruct (list_snoc hd l) as (xs & p & Hxs).
  unfold ring in Hr. rewrite app_comm_cons, Hxs, <- app_assoc in Hr. cbn [app] in Hr. apply links_app in Hr as [Hl (Hph & Hhp & _)].
  assert (p ∈ hd :: l) as Hp by (rewrite Hxs; apply elem_of_app; right; left). assert (hd ∈ hd :: l) as Hhd by left.
  assert (p ≠ e ∧ hd ≠ e) as [Hpe Hhe] by (split; by intros ->).
  destruct (put_next_spec H e (Some hd) h Hh) as (H1 & Hp1 & Hv1 & Ho1 & Hx1 & Hs1).
  destruct (nxt_Some _ _ _ Hv1) as (h1 & Hh1 & Hn1). destruct (put_prev_spec H1 e (Some p) h1 Hh1) as (H2 & Hp2 & Hv2 & Ho2 & Hx2 & Hs2).
  destruct (nxt_Some _ _ _ Hph) as (hp & Hhp' & _). assert (H2 !! p = Some hp) as Hp2' by (by rewrite Ho2, Ho1).
  destruct (put_next_spec H2 p (Some e) hp Hp2') as (H3 & Hp3 & Hv3 & Ho3 & Hx3 & Hs3).
  destruct (prv_Some _ _ _ Hhp) as (hh & Hhh & Hhh'). destruct (same_data_forth H2 H3 hd hh Hs3) as (hh3 & Hhh3 & _); [by rewrite Ho2, Ho1|].
  destruct (put_prev_spec H3 hd (Some e) hh3 Hhh3) as (H4 & Hp4 & Hv4 & Ho4 & Hx4 & Hs4).
  destruct (prv_Some _ _ _ Hv2) as (h2 & Hh2 & Hh2p). assert (H3 !! e = Some h2) as Hh3 by (by rewrite Ho3).
  assert (h_next h2 = Some hd) as Hh2n. { pose proof (Hx2 e) as Hx. rewrite Hv1 in Hx. destruct (nxt_Some _ _ _ Hx) as (h2' & ? & ?). congruence. }
  exists H4. split_and!.
  - unfold LRU_Append. rewrite Hp1. cbn [mbind option_bind]. rewrite Ho1, Hhh by done. cbn [mbind option_bind]. rewrite Hhh', Hp2. cbn [mbind option_bind].
    rewrite Hh2. cbn [mbind option_bind]. rewrite Hh2p, Hp3. cbn [mbind option_bind]. rewrite Hh3. cbn [mbind option_bind]. by rewrite Hh2n.
  - unfold ring. rewrite <- app_assoc, app_comm_cons, Hxs, <- app_assoc. cbn [app]. apply links_app. split.
    + eapply links_keep; [exact Hl| |].
      * intros x Hx. assert (x ≠ p) as Hxp. { intros ->. rewrite Hxs in Hnd. apply NoDup_app in Hnd as (_ & Hd & _). apply (Hd p Hx). left. }
        assert (x ≠ e) as Hxe. { intros ->. apply He. rewrite Hxs, elem_of_app. by left. }
        rewrite Hx4. unfold nxt. rewrite Ho3, Ho2, Ho1 by done. done.
      * intros x Hx. rewrite <- Hxs in Hx. cbn [tail] in Hx. assert (x ≠ hd) as Hxh by (intros ->; by apply NoDup_cons in Hnd as [? _]).
        assert (x ≠ e) as Hxe by (intros ->; apply He; by right). unfold prv. rewrite Ho4 by done. change (prv H3 x = prv H x). rewrite Hx3. unfold prv. by rewrite Ho2, Ho1.
    + cbn [links]. split_and!; [by rewrite Hx4| | |done|done].
      * unfold prv. rewrite Ho4, Hh3 by done. done.
      * rewrite Hx4. unfold nxt. by rewrite Hh3.
  - intros x Hx. rewrite elem_of_cons, elem_of_app, list_elem_of_singleton in Hx. rewrite elem_of_cons in Hp. rewrite Ho4, Ho3, Ho2, Ho1; try done; try tauto. intros ->. tauto.
  - eapply same_data_trans; [|done]. eapply same_data_trans; [|done]. by eapply same_data_trans.
  - rewrite Hx4. unfold nxt. by rewrite Hh3.
Qed.
Lemma ring_not_self H hd l x : ring H hd l → NoDup (hd :: l) → x ∈ l → nxt H x ≠ Some x.
Proof.
  intros Hr [Hh Hnd]%NoDup_cons Hx Heq. apply list_elem_of_split in Hx as (l1 & l2 & ->). unfold ring in Hr.
  rewrite <- app_assoc in Hr. cbn [app] in Hr. apply (links_app H (hd :: l1) x) in Hr as [_ Hr]. destruct l2 as [|y l2]; cbn [app links] in Hr.
  - assert (hd = x) as -> by (destruct Hr as (Hn & _); congruence). apply Hh, elem_of_app. right; left.
  - assert (y = x) as -> by (destruct Hr as (Hn & _); congruence). apply NoDup_app in Hnd as (_ & _ & [Hx _]%NoDup_cons). apply Hx. left.
Qed.

(** From one list to the end of the other. *)
Lemma move_spec H hd hd' l1 e l2 l' : ring H hd (l1 ++ e :: l2) → ring H hd' l' → NoDup (hd :: hd' :: (l1 ++ e :: l2) ++ l') →
  ∃ H1 H', LRU_Remove e H = Some H1 ∧ LRU_Append hd' e H1 = Some H' ∧ ring H' hd (l1 ++ l2) ∧ ring H' hd' (l' ++ [e]) ∧ same_data H H' ∧
    (∀ x, x ∉ hd :: hd' :: (l1 ++ e :: l2) ++ l' → H' !! x = H !! x).
Proof.
  intros Hr Hr' Hnd. assert (NoDup (hd :: l1 ++ e :: l2) ∧ NoDup (hd' :: l') ∧ (∀ x, x ∈ hd :: l1 ++ e :: l2 → x ∉ hd' :: l')) as (Hnd1 & Hnd2 & Hdis).
  { apply NoDup_cons in Hnd as [Hh [Hh' (Ha & Hb & Hc)%NoDup_app]%NoDup_cons]. rewrite elem_of_cons, elem_of_app in Hh. rewrite elem_of_app in Hh'.
    split_and!; [constructor; tauto..|]. intros x [->|Hx]%elem_of_cons; rewrite elem_of_cons; [tauto|]. intros [->|Hx']; [tauto|by apply (Hb x)]. }
  destruct (LRU_Remove_spec H hd l1 e l2 Hr Hnd1) as (H1 & HR & Hr1 & He1 & Ho1 & Hs1).
  assert (e ∈ hd :: l1 ++ e :: l2) as Hein by (right; apply elem_of_app; right; left). destruct (ring_live H hd _ e Hr Hein) as [h Hh].
  assert (ring H1 hd' l') as Hr1'. { eapply ring_frame; [exact Hr'|]. intros x Hx. apply Ho1. intros Hx'. by apply (Hdis x). }
  destruct (LRU_Append_spec H1 hd' l' e h Hr1' Hnd2) as (H2 & HA & Hr2 & Ho2 & Hs2 & _); [by apply Hdis|by rewrite He1|].
  exists H1, H2. split_and!; [done..| |done|by eapply same_data_trans|].
  - eapply ring_frame; [exact Hr1|]. intros x Hx. apply Ho2. rewrite elem_of_cons, elem_of_app, list_elem_of_singleton.
    assert (x ∈ hd :: l1 ++ e :: l2 ∧ x ≠ e) as [Hx1 Hx2].
    { rewrite !elem_of_cons, !elem_of_app in Hx |- *. rewrite elem_of_cons. split; [tauto|]. intros ->. apply NoDup_cons in Hnd1 as [Hn (_ & Hd & [He _]%NoDup_cons)%NoDup_app].
      rewrite elem_of_app, elem_of_cons in Hn. destruct Hx as [->|[Hx|Hx]]; [tauto| |tauto]. apply (Hd e Hx). left. }
    specialize (Hdis x Hx1). rewrite elem_of_cons in Hdis. tauto.
  - intros x Hx. rewrite !elem_of_cons, !elem_of_app, elem_of_cons in Hx. rewrite Ho2, Ho1; [done| |].
    + rewrite elem_of_cons, elem_of_app, elem_of_cons. tauto.
    + rewrite elem_of_cons, elem_of_app, list_elem_of_singleton. tauto.
Qed.

(** ** The invariant of a shard *)

(** How often the clients hold [l]. *)
Definition cnt (l : nat) (held : list nat) : Z := Z.of_nat (length (filter (λ x, x = l) held)).

Lemma cnt_cons l x held : cnt l (x :: held) = (if decide (x = l) then 1 else 0) + cnt l held.
Proof. unfold cnt. rewrite filter_cons. destruct (decide (x = l)); cbn [length]; lia. Qed.

Lemma cnt_nonneg l held : 0 <= cnt l held.
Proof. unfold cnt. lia. Qed.

Lemma cnt_elem l held : l ∈ held ↔ 1 <= cnt l held.
Proof.
  induction held as [|x held IH]; [unfold cnt; cbn; rewrite elem_of_nil; lia|]. rewrite elem_of_cons, cnt_cons, IH. pose proof (cnt_nonneg l held).
  destruct (decide (x = l)) as [->|Hne]; [split; [lia|by left]|]. split; [intros [->|?]; [done|lia]|intros; right; lia].
Qed.

Lemma cnt_perm l held held' : held ≡ₚ held' → cnt l held = cnt l held'.
Proof. intros Hp. unfold cnt. by rewrite Hp. Qed.

(** What is not about lists and counts. *)
Definition core h : LRUHandle := set_refs false 0 (set_links None None h).
Definition same_core H H' : Prop := ∀ l, core <$> H' !! l = core <$> H !! l.

Lemma same_core_back H H' l h' : same_core H H' → H' !! l = Some h' → ∃ h, H !! l = Some h ∧ core h' = core h.
Proof. intros Hs Hl. specialize (Hs l). rewrite Hl in Hs. destruct (H !! l) as [h|]; [|done]. injection Hs as ?. exists h. split; [done|]. unfold core, set_refs, set_links; cbn. congruence. Qed.

Lemma same_core_sym H H' : same_core H H' → same_core H' H.
Proof. by intros Hs l. Qed.

Lemma same_core_trans H1 H2 H3 : same_core H1 H2 → same_core H2 H3 → same_core H1 H3.
Proof. intros H12 H23 l. by rewrite H23. Qed.

Lemma same_data_core H H' : same_data H H' → same_core H H'.
Proof.
  intros Hs l. specialize (Hs l). unfold core. destruct (H' !! l), (H !! l); cbn in *; try done. injection Hs as ?. do 2 f_equal. unfold set_links in *. congruence.
Qed.

Lemma same_core_refs H l h b r : H !! l = Some h → same_core H (<[l := set_refs b r h]> H).
Proof. intros Hl x. destruct (decide (x = l)) as [->|Hne]; [by rewrite lookup_insert_eq, Hl|by rewrite lookup_insert_ne]. Qed.

Definition charge_of H (l : nat) : Z := from_option h_charge 0 (H !! l).
Definition total H (ls : list nat) : Z := foldr (λ l n, charge_of H l + n) 0 ls.

Lemma total_cons H l ls : total H (l :: ls) = charge_of H l + total H ls.
Proof. done. Qed.

Lemma total_app H a b : total H (a ++ b) = total H a + total H b.
Proof. induction a as [|x a IH]; [done|]. cbn [app]. rewrite !total_cons. lia. Qed.

Lemma total_perm H a b : a ≡ₚ b → total H a = total H b.
Proof. induction 1; rewrite ?total_cons in *; lia. Qed.

Lemma total_core H H' ls : same_core H H' → total H' ls = total H ls.
Proof.
  intros Hs. induction ls as [|l ls IH]; [done|]. rewrite !total_cons, IH. f_equal. unfold charge_of. specialize (Hs l).
  destruct (H' !! l), (H !! l); cbn in *; try done. by injection Hs.
Qed.

Lemma total_frame H H' ls : (∀ l, l ∈ ls → charge_of H' l = charge_of H l) → total H' ls = total H ls.
Proof.
  induction ls as [|l ls IH]; intros Hs; [done|]. rewrite !total_cons, (Hs l) by left. f_equal. apply IH. intros x Hx. apply Hs. by right.
Qed.

Lemma total_nonneg H ls : (∀ l h, H !! l = Some h → 0 <= h_charge h) → 0 <= total H ls.
Proof.
  intros Hc. induction ls as [|l ls IH]; [done|]. rewrite total_cons. unfold charge_of. destruct (H !! l) as [h|] eqn:Hl; cbn; [|lia]. specialize (Hc l h Hl). lia.
Qed.

(** The table does not look at lists and counts. *)
Lemma table_ok_core H H' T B : table_ok H T B → same_core H H' → (∀ l, l ∈ mjoin B → nxt H' l ≠ Some l) → table_ok H' T B.
Proof.
  intros Ht Hs Hself. split; try apply Ht.
  - pose proof (tb_buckets _ _ _ Ht) as Hb. split; try apply Hb.
    + intros i p ls Hp Hls. eapply hseg_frame; [|by eapply (bk_chain _ _ _ _ Hb)]. intros l _. unfold same_hash. specialize (Hs l).
      destruct (H' !! l), (H !! l); cbn in *; try done. by injection Hs as _ ->.
    + intros i ls l h Hls Hl Hh. destruct (same_core_back _ _ _ _ Hs Hh) as (g & Hg & Eg). assert (h_hash h = h_hash g) as -> by (by injection Eg). by eapply (bk_home _ _ _ _ Hb).
  - intros l l' h h' Hl Hl' Hh Hh' Hk Hx. destruct (same_core_back _ _ _ _ Hs Hh) as (g & Hg & Eg), (same_core_back _ _ _ _ Hs Hh') as (g' & Hg' & Eg').
    apply (tb_keys _ _ _ Ht l l' g g'); try done; injection Eg; injection Eg'; congruence.
  - intros l h Hl Hh Hn. apply (Hself l Hl). unfold nxt. by rewrite Hh.
Qed.
End rings.

Section shard.
Context {V : Type}.
Notation LRUHandle := (LRUHandle (V := V)).
Notation LRUCache := (LRUCache (V := V)).
Notation Heap := (gmap nat LRUHandle).
Implicit Types (H : Heap) (h : LRUHandle) (c : LRUCache).

(** The clients hold the handles [held]; [lru] and [use] are the entries of the two
    lists; the table holds [tab].  A handle has a reference for each client and one
    for the cache; it is in a list when it is in the cache, and in [use] when a
    client holds it. *)
Record shard_pre c (held lru use tab : list nat) : Prop := {
  so_lru : ring (heap_ c) lru_ lru;
  so_use : ring (heap_ c) in_use_ use;
  so_nodup : NoDup (lru_ :: in_use_ :: lru ++ use);
  so_table : ∃ B, table_ok (heap_ c) (table_ c) B ∧ mjoin B ≡ₚ tab;
  so_tab l : l ∈ tab → l ∈ lru ++ use;
  so_entry l h : heap_ c !! l = Some h → l ≠ lru_ → l ≠ in_use_ →
    h_in_cache h = bool_decide (l ∈ lru ++ use) ∧ h_refs h = Z.b2z (h_in_cache h) + cnt l held ∧ 1 <= h_refs h ∧ h_next h ≠ Some l;
  so_charge l h : heap_ c !! l = Some h → 0 <= h_charge h;
  so_held l : l ∈ held → l ≠ lru_ ∧ l ≠ in_use_ ∧ is_Some (heap_ c !! l);
  so_idle l : l ∈ lru → l ∉ held;
  so_busy l : l ∈ use → l ∈ held;
  so_usage : usage_ c = total (heap_ c) (lru ++ use);
  so_range : usage_ c < 2 ^ 64;
  so_fresh l : is_Some (heap_ c !! l) → (l < malloc_ c)%nat;
}.
Notation shard_ok c held lru use := (shard_pre c held lru use (lru ++ use)).

Lemma shard_tab c held lru use tab tab' : shard_pre c held lru use tab → tab' ≡ₚ tab → shard_pre c held lru use tab'.
Proof.
  intros Hs Hp. destruct Hs as [? ? ? (B & HB & Hj) Htab ? ? ? ? ? ? ?]. split; try done; [exists B; by rewrite Hp|]. intros l. rewrite Hp. apply Htab.
Qed.

Lemma so_cached c held lru use tab l : shard_pre c held lru use tab → l ∈ lru ++ use → l ≠ lru_ ∧ l ≠ in_use_ ∧ is_Some (heap_ c !! l).
Proof.
  intros Hs Hl. pose proof (so_nodup _ _ _ _ _ Hs) as [H1 [H2 _]%NoDup_cons]%NoDup_cons. rewrite elem_of_cons in H1. split_and!; [naive_solver..|].
  apply elem_of_app in Hl as [Hl|Hl]; [apply (ring_live _ lru_ lru); [apply Hs|by right]|apply (ring_live _ in_use_ use); [apply Hs|by right]].
Qed.

Lemma lists_not_self H lru use l : ring H lru_ lru → ring H in_use_ use → NoDup (lru_ :: in_use_ :: lru ++ use) → l ∈ lru ++ use → nxt H l ≠ Some l.
Proof.
  intros Hr1 Hr2 Hnd Hl. apply NoDup_cons in Hnd as [H1 [H2 (H3 & _ & H4)%NoDup_app]%NoDup_cons]. rewrite elem_of_cons, elem_of_app in H1. rewrite elem_of_app in H2.
  apply elem_of_app in Hl as [Hl|Hl]; [apply (ring_not_self _ lru_ lru)|apply (ring_not_self _ in_use_ use)]; try done; apply NoDup_cons; tauto.
Qed.

(** New lists of the same entries, new counts. *)
Lemma relist c held lru use tab H' held' lru' use' : shard_pre c held lru use tab → same_core (heap_ c) H' →
  ring H' lru_ lru' → ring H' in_use_ use' → lru' ++ use' ≡ₚ lru ++ use →
  (∀ l h', H' !! l = Some h' → l ≠ lru_ → l ≠ in_use_ → ∃ h, heap_ c !! l = Some h ∧ h_in_cache h' = h_in_cache h ∧
    h_refs h' - h_refs h = cnt l held' - cnt l held ∧ 1 <= h_refs h' ∧ (l ∉ lru ++ use → h_next h' = h_next h)) →
  (∀ l, l ∈ held' → l ∈ held ∨ l ∈ lru ++ use) → (∀ l, l ∈ lru' → l ∉ held') → (∀ l, l ∈ use' → l ∈ held') →
  shard_pre (with_heap H' c) held' lru' use' tab.
Proof.
  intros Hs Hcore Hr1 Hr2 Hp He Hheld Hidle Hbusy.
  assert (∀ l, is_Some (H' !! l) ↔ is_Some (heap_ c !! l)) as Hdom by (intros l; by rewrite <- (fmap_is_Some core (H' !! l)), (Hcore l), fmap_is_Some).
  split; cbn [with_heap heap_ usage_ malloc_ table_]; try done.
  - rewrite Hp. apply Hs.
  - destruct (so_table _ _ _ _ _ Hs) as (B & HB & Hj). exists B. split; [|done]. apply (table_ok_core _ _ _ _ HB Hcore).
    intros l Hl. rewrite Hj in Hl. apply (lists_not_self H' lru' use'); rewrite ?Hp; try done; [apply Hs|by apply (so_tab _ _ _ _ _ Hs)].
  - intros l Hl. rewrite Hp. by apply Hs.
  - intros l h' Hl H0 H1. destruct (He l h' Hl H0 H1) as (h & Hh & Hc & Hr & Hge & Hn). destruct (so_entry _ _ _ _ _ Hs l h Hh H0 H1) as (Ec & Er & _ & En).
    split_and!; [by rewrite Hc, Ec; apply bool_decide_ext; rewrite Hp|rewrite Hc; lia|done|].
    destruct (decide (l ∈ lru ++ use)) as [Hin|Hout]; [|by rewrite Hn]. intros Hx.
    apply (lists_not_self H' lru' use' l); rewrite ?Hp; try done; [apply Hs|]. unfold nxt. by rewrite Hl.
  - intros l h' Hl. destruct (same_core_back _ _ _ _ Hcore Hl) as (h & Hh & Eh). assert (h_charge h' = h_charge h) as -> by (by injection Eh). by apply (so_charge _ _ _ _ _ Hs l).
  - intros l [Hl|Hl]%Hheld; rewrite Hdom; [by apply (so_held _ _ _ _ _ Hs)|by eapply so_cached].
  - rewrite (so_usage _ _ _ _ _ Hs), (total_core _ _ _ Hcore). by apply total_perm.
  - apply Hs.
  - intros l Hl%Hdom. by apply Hs.
Qed.
(** Another count for [e], and new lists. *)
Lemma recount_ok c held lru use tab e h r H' held' lru' use' : shard_pre c held lru use tab → heap_ c !! e = Some h → e ≠ lru_ → e ≠ in_use_ →
  same_data (<[e := set_refs (h_in_cache h) r h]> (heap_ c)) H' →
  (∀ x, x ∉ lru_ :: in_use_ :: lru ++ use → H' !! x = <[e := set_refs (h_in_cache h) r h]> (heap_ c) !! x) →
  1 <= r → r - h_refs h = cnt e held' - cnt e held → (∀ l, l ≠ e → cnt l held' = cnt l held) →
  ring H' lru_ lru' → ring H' in_use_ use' → lru' ++ use' ≡ₚ lru ++ use →
  (∀ l, l ∈ held' → l ∈ held ∨ l ∈ lru ++ use) → (∀ l, l ∈ lru' → l ∉ held') → (∀ l, l ∈ use' → l ∈ held') →
  shard_pre (with_heap H' c) held' lru' use' tab ∧ same_core (heap_ c) H'.
Proof.
  intros Hs He H0 H1 Hd Hout Hr Hcnt Hcnt' Hr1 Hr2 Hp Hheld Hidle Hbusy.
  assert (same_core (heap_ c) H') as Hcore by (eapply same_core_trans; [by apply same_core_refs|by apply same_data_core]). split; [|done].
  eapply relist; try done. intros l h' Hl Hl0 Hl1. assert (l ∉ lru ++ use → H' !! l = <[e := set_refs (h_in_cache h) r h]> (heap_ c) !! l) as Hout'.
  { intros Hx. apply Hout. rewrite !elem_of_cons. tauto. }
  destruct (same_data_back _ _ _ _ Hd Hl) as (g & Hg & Eg). destruct (decide (l = e)) as [->|Hne].
  - rewrite lookup_insert_eq in Hg. injection Hg as <-. exists h. split; [done|]. assert (h_in_cache h' = h_in_cache h ∧ h_refs h' = r) as [Ec Er] by (by injection Eg).
    split_and!; [done|lia|lia|]. intros Hx%Hout'. rewrite lookup_insert_eq, Hl in Hx. by injection Hx as ->.
  - rewrite lookup_insert_ne in Hg by done. exists g. split; [done|]. assert (h_in_cache h' = h_in_cache g ∧ h_refs h' = h_refs g) as [Ec Er] by (by injection Eg).
    destruct (so_entry _ _ _ _ _ Hs l g Hg Hl0 Hl1) as (_ & _ & Hge & _). rewrite Hcnt' by done. split_and!; [done|lia|lia|].
    intros Hx%Hout'. rewrite lookup_insert_ne, Hl, Hg in Hx by done. by injection Hx as ->.
Qed.

Lemma ring_refs H e h b r hd l : H !! e = Some h → ring H hd l → ring (<[e := set_refs b r h]> H) hd l.
Proof.
  intros He Hr. unfold ring in *. eapply links_frame; [exact Hr| |]; intros x ys zs _ _; unfold nxt, prv; (destruct (decide (x = e)) as [->|Hne]; [by rewrite lookup_insert_eq, He|by rewrite lookup_insert_ne]).
Qed.

(** [l] without [e]. *)
Definition without (e : nat) (l : list nat) : list nat := filter (λ x, x ≠ e) l.

Lemma without_out e l : e ∉ l → without e l = l.
Proof.
  unfold without. induction l as [|x l IH]; [done|]. intros [Hx Hl]%not_elem_of_cons. rewrite filter_cons_True by congruence. by rewrite IH.
Qed.

Lemma without_mid e l1 l2 : NoDup (l1 ++ e :: l2) → without e (l1 ++ e :: l2) = l1 ++ l2.
Proof.
  intros (_ & Hd & [He _]%NoDup_cons)%NoDup_app. unfold without. rewrite filter_app, filter_cons_False by tauto. f_equal; apply without_out; [|done].
  intros Hx. apply (Hd e Hx). left.
Qed.

Lemma without_elem e l x : x ∈ without e l ↔ x ∈ l ∧ x ≠ e.
Proof. unfold without. rewrite list_elem_of_filter. tauto. Qed.

(** The effects of an operation outside the lists and counts. *)
Record quiet c c' : Prop := {
  qt_core : same_core (heap_ c) (heap_ c');
  qt_capacity : capacity_ c' = capacity_ c;
  qt_deleted : deleted_ c' = deleted_ c;
  qt_usage : usage_ c' = usage_ c;
}.

Lemma Ref_ok c held lru use e : shard_ok c held lru use → e ∈ lru ++ use → Z.of_nat (length held) < 2 ^ 32 - 2 →
  ∃ c' use', Ref e c = Some c' ∧ shard_ok c' (e :: held) (without e lru) use' ∧ quiet c c' ∧ without e lru ++ use' ≡ₚ lru ++ use.
Proof.
  intros Hs He Hlen. destruct (so_cached _ _ _ _ _ e Hs He) as (H0 & H1 & h & Hh). destruct (so_entry _ _ _ _ _ Hs e h Hh H0 H1) as (Ec & Er & _ & _).
  rewrite bool_decide_eq_true_2 in Ec by done. rewrite Ec in Er. cbn [Z.b2z] in Er. unfold Ref. rewrite Hh. cbn [mbind option_bind]. rewrite Ec, andb_true_r.
  pose proof (so_nodup _ _ _ _ _ Hs) as Hnd. assert (cnt e held <= Z.of_nat (length held)) as Hle by (unfold cnt; pose proof (length_filter (λ x, x = e) held); lia).
  assert (∀ l, l ≠ e → cnt l (e :: held) = cnt l held) as Hcnt by (intros l Hl; rewrite cnt_cons, decide_False by done; lia).
  pose proof (cnt_cons e e held) as Hce. rewrite decide_True in Hce by done. pose proof (cnt_nonneg e held) as Hc0.
  assert (∀ use' : list nat, (∀ x, x ∈ use' → x ∈ use ∨ x = e) → (∀ l, l ∈ e :: held → l ∈ held ∨ l ∈ lru ++ use) ∧ (∀ l, l ∈ without e lru → l ∉ e :: held) ∧ (∀ l, l ∈ use' → l ∈ e :: held)) as Hlists.
  { intros use' Hu. split_and!.
    - intros l [->|?]%elem_of_cons; tauto.
    - intros l [Hl Hl']%without_elem. rewrite elem_of_cons. pose proof (so_idle _ _ _ _ _ Hs l Hl). tauto.
    - intros l [Hl%(so_busy _ _ _ _ _ Hs)| ->]%Hu; [by right|left]. }
  destruct (Z.eqb_spec (h_refs h) 1) as [Hr1|Hr1].
  - assert (e ∈ lru) as Hel. { apply elem_of_app in He as [?|Hu%(so_busy _ _ _ _ _ Hs)%cnt_elem]; [done|lia]. }
    apply list_elem_of_split in Hel as (l1 & l2 & ->). pose proof Hnd as [_ [_ (Hndl & Hdis & _)%NoDup_app]%NoDup_cons]%NoDup_cons.
    destruct (move_spec (heap_ c) lru_ in_use_ l1 e l2 use (so_lru _ _ _ _ _ Hs) (so_use _ _ _ _ _ Hs) Hnd) as (Ha & H' & HR & HA & Hr1' & Hr2' & Hd & Hout).
    rewrite HR. cbn [mbind option_bind]. rewrite HA. cbn [mbind option_bind]. destruct (same_data_forth _ _ e h Hd Hh) as (h' & Hh' & Eh). rewrite Hh'. cbn [mbind option_bind].
    assert (h_in_cache h' = h_in_cache h ∧ h_refs h' = h_refs h) as [-> ->] by (by injection Eh). rewrite u32_small by lia.
    rewrite without_mid by done. destruct (Hlists (use ++ [e])) as (Hl1 & Hl2 & Hl3); [intros x; rewrite elem_of_app, list_elem_of_singleton; tauto|]. rewrite without_mid in Hl2 by done.
    assert ((l1 ++ l2) ++ use ++ [e] ≡ₚ (l1 ++ e :: l2) ++ use) as Hp.
    { rewrite (assoc_L (++)), (Permutation_app_comm _ [e]), <- !(assoc_L (++)). cbn [app]. by rewrite Permutation_middle. }
    eexists _, (use ++ [e]). split; [done|].
    destruct (recount_ok c held _ use _ e h (h_refs h + 1) (<[e := set_refs (h_in_cache h) (h_refs h + 1) h']> H') (e :: held) (l1 ++ l2) (use ++ [e]) Hs Hh H0 H1) as [Hok Hcore]; try done; try lia.
    + intros x. destruct (decide (x = e)) as [->|Hne]; [rewrite !lookup_insert_eq; unfold set_links, set_refs in *; cbn; congruence|]. rewrite !lookup_insert_ne by done. apply Hd.
    + intros x Hx. destruct (decide (x = e)) as [->|Hne]; [|rewrite !lookup_insert_ne by done; by apply Hout]. exfalso. apply Hx. rewrite !elem_of_cons, !elem_of_app, elem_of_cons. tauto.
    + by apply ring_refs.
    + by apply ring_refs.
    + split_and!; [|by split|done]. by apply (shard_tab _ _ _ _ _ _ Hok).
  - assert (e ∉ lru) as Hel. { intros Hx%(so_idle _ _ _ _ _ Hs). rewrite cnt_elem in Hx. lia. }
    rewrite without_out by done. cbn [mbind option_bind]. rewrite Hh. cbn [mbind option_bind]. rewrite u32_small by lia.
    destruct (Hlists use) as (Hl1 & Hl2 & Hl3); [tauto|]. rewrite without_out in Hl2 by done. eexists _, use. split; [done|].
    destruct (recount_ok c held lru use _ e h (h_refs h + 1) (<[e := set_refs (h_in_cache h) (h_refs h + 1) h]> (heap_ c)) (e :: held) lru use Hs Hh H0 H1) as [Hok Hcore]; try done; try lia.
    + apply ring_refs; [done|apply Hs].
    + apply ring_refs; [done|apply Hs].
Qed.
(** ** Values *)

(** The keys and values of the handles. *)
Definition pair_of h : list byte * option V := (h_key h, h_value h).
Definition live H : list (list byte * option V) := (map_to_list (pair_of <$> delete in_use_ (delete lru_ H))).*2.

(** What never changes in a handle. *)
Definition info h : LRUHandle := set_next_hash None (core h).
Definition same_entry H H' : Prop := ∀ l, info <$> H' !! l = info <$> H !! l.

Lemma same_core_entry H H' : same_core H H' → same_entry H H'.
Proof. intros Hs l. specialize (Hs l). unfold info. destruct (H' !! l), (H !! l); cbn in *; try done. injection Hs as ?. do 2 f_equal. unfold core, set_refs, set_links; cbn. congruence. Qed.

Lemma live_entry H H' : same_entry H H' → live H' = live H.
Proof.
  intros Hs. unfold live. do 2 f_equal. apply map_eq. intros l. rewrite !lookup_fmap, !lookup_delete. repeat case_decide; try done.
  specialize (Hs l). destruct (H' !! l), (H !! l); cbn in *; try done. unfold pair_of. injection Hs. congruence.
Qed.

Lemma live_delete H l h : l ≠ lru_ → l ≠ in_use_ → H !! l = Some h → live H ≡ₚ pair_of h :: live (delete l H).
Proof.
  intros H0 H1 Hl. unfold live.
  rewrite <- (map_to_list_delete (pair_of <$> delete in_use_ (delete lru_ H)) l (pair_of h)).
  - assert (delete l (pair_of <$> delete in_use_ (delete lru_ H)) = pair_of <$> delete in_use_ (delete lru_ (delete l H))) as ->; [|done].
    apply map_eq. intros x. rewrite !lookup_fmap, !lookup_delete, !lookup_fmap, !lookup_delete. by repeat case_decide.
  - by rewrite lookup_fmap, !lookup_delete_ne, Hl by done.
Qed.

Lemma live_insert H l h : l ≠ lru_ → l ≠ in_use_ → H !! l = None → live (<[l := h]> H) ≡ₚ pair_of h :: live H.
Proof.
  intros H0 H1 Hl. rewrite (live_delete _ l h) by (done || by rewrite lookup_insert_eq). by rewrite delete_insert_id.
Qed.

(** An operation calls the deleter of the handles it frees, and of no others. *)
Definition accounted c c' : Prop := deleted_ c' ++ live (heap_ c') ≡ₚ deleted_ c ++ live (heap_ c).

Lemma accounted_trans c1 c2 c3 : accounted c1 c2 → accounted c2 c3 → accounted c1 c3.
Proof. unfold accounted. intros H12 H23. by rewrite H23. Qed.

Lemma quiet_accounted c c' : quiet c c' → accounted c c'.
Proof. intros [Hc _ Hd _]. unfold accounted. by rewrite Hd, (live_entry _ _ (same_core_entry _ _ Hc)). Qed.

(** ** Dropping a reference *)

Lemma table_ok_frame H H' T B : table_ok H T B → (∀ l, l ∈ mjoin B → H' !! l = H !! l) → table_ok H' T B.
Proof.
  intros Ht Hs. pose proof (tb_buckets _ _ _ Ht) as Hb. split; try apply Ht.
  - split; try apply Hb.
    + intros i p ls Hp Hls. eapply hseg_frame; [|by eapply (bk_chain _ _ _ _ Hb)]. intros l Hl. unfold same_hash. rewrite Hs; [done|by eapply bk_in].
    + intros i ls l h Hls Hl Hh. rewrite Hs in Hh by (by eapply bk_in). by eapply (bk_home _ _ _ _ Hb).
  - intros l l' h h' Hl Hl' Hh Hh'. rewrite Hs in Hh, Hh' by done. by apply (tb_keys _ _ _ Ht).
  - intros l h Hl Hh. rewrite Hs in Hh by done. by apply (tb_self _ _ _ Ht).
Qed.

Definition with_deleted H (d : list (list byte * option V)) c : LRUCache :=
  {| capacity_ := capacity_ c; usage_ := usage_ c; heap_ := H; malloc_ := malloc_ c; table_ := table_ c; deleted_ := d |}.

(** A handle that is neither held nor in the cache can go. *)
Lemma free_ok c held lru use tab e d : shard_pre c (e :: held) lru use tab → e ∉ held → e ∉ lru ++ use →
  ∀ H', (∀ x, x ≠ e → H' !! x = heap_ c !! x) → H' !! e = None → shard_pre (with_deleted H' d c) held lru use tab.
Proof.
  intros Hs He Hout H' Hsame Hnone. destruct (so_held _ _ _ _ _ Hs e ltac:(left)) as (H0 & H1 & _). rewrite elem_of_app in Hout.
  assert (∀ x, x ∈ lru_ :: in_use_ :: lru ++ use → x ≠ e) as Hne by (intros x Hx ->; rewrite !elem_of_cons, elem_of_app in Hx; naive_solver).
  split; cbn [with_deleted heap_ usage_ malloc_ table_]; try apply Hs.
  - eapply ring_frame; [apply Hs|]. intros x Hx. apply Hsame, Hne. rewrite !elem_of_cons, elem_of_app in *. tauto.
  - eapply ring_frame; [apply Hs|]. intros x Hx. apply Hsame, Hne. rewrite !elem_of_cons, elem_of_app in *. tauto.
  - destruct (so_table _ _ _ _ _ Hs) as (B & HB & Hj). exists B. split; [|done]. eapply table_ok_frame; [done|]. intros l Hl. rewrite Hj in Hl.
    apply Hsame. intros ->. apply (so_tab _ _ _ _ _ Hs), elem_of_app in Hl. tauto.
  - intros l h Hl Hl0 Hl1. destruct (decide (l = e)) as [->|Hne']; [congruence|]. rewrite Hsame in Hl by done.
    destruct (so_entry _ _ _ _ _ Hs l h Hl Hl0 Hl1) as (E1 & E2 & E3 & E4). rewrite cnt_cons, decide_False in E2 by done. done.
  - intros l h Hl. destruct (decide (l = e)) as [->|Hne']; [congruence|]. rewrite Hsame in Hl by done. by apply (so_charge _ _ _ _ _ Hs l).
  - intros l Hl. destruct (so_held _ _ _ _ _ Hs l ltac:(by right)) as (Hl0 & Hl1 & Hl2). rewrite Hsame; [done|]. by intros ->.
  - intros l Hl. pose proof (so_idle _ _ _ _ _ Hs l Hl) as Hx. rewrite elem_of_cons in Hx. tauto.
  - intros l Hl. pose proof (so_busy _ _ _ _ _ Hs l Hl) as [->|?]%elem_of_cons; [tauto|done].
  - rewrite (so_usage _ _ _ _ _ Hs). symmetry. apply total_frame. intros l Hl. unfold charge_of. rewrite Hsame; [done|]. intros ->. apply elem_of_app in Hl. tauto.
  - intros l [h Hl]. apply (so_fresh _ _ _ _ _ Hs). destruct (decide (l = e)) as [->|Hne']; [congruence|]. rewrite Hsame in Hl by done. by exists h.
Qed.

(** What a client or the cache still refers to stays. *)
Definition kept c c' (ls : list nat) : Prop := ∀ l, l ∈ ls → info <$> heap_ c' !! l = info <$> heap_ c !! l.

Lemma quiet_kept c c' ls : quiet c c' → kept c c' ls.
Proof. intros [Hc _ _ _] l _. by apply same_core_entry. Qed.

Lemma Unref_ok c held lru use tab e : shard_pre c (e :: held) lru use tab →
  ∃ c' lru' use', Unref e c = Some c' ∧ shard_pre c' held lru' use' tab ∧ lru' ++ use' ≡ₚ lru ++ use ∧
    capacity_ c' = capacity_ c ∧ usage_ c' = usage_ c ∧ accounted c c' ∧ kept c c' (held ++ lru ++ use) ∧
    (if decide (e ∈ use ∧ e ∉ held) then lru' = lru ++ [e] ∧ use' = without e use else lru' = lru ∧ use' = use).
Proof.
  intros Hs. destruct (so_held _ _ _ _ _ Hs e ltac:(left)) as (H0 & H1 & h & Hh). destruct (so_entry _ _ _ _ _ Hs e h Hh H0 H1) as (Ec & Er & _ & En).
  pose proof (cnt_cons e e held) as Hce. rewrite decide_True in Hce by done. pose proof (cnt_nonneg e held) as Hc0. rewrite Hce in Er.
  assert (e ∉ lru) as Hlru. { intros Hx%(so_idle _ _ _ _ _ Hs). apply Hx. left. }
  assert (∀ l, l ≠ e → cnt l held = cnt l (e :: held)) as Hcnt by (intros l Hl; rewrite cnt_cons, decide_False by done; lia).
  unfold Unref. rewrite Hh. cbn [mbind option_bind]. rewrite (proj2 (Z.ltb_lt _ _)) by (destruct (h_in_cache h); cbn in Er; lia). cbn [negb].
  cbn [h_refs h_in_cache set_refs].
  destruct (Z.eqb_spec (h_refs h - 1) 0) as [Hr0|Hr0].
  { assert (h_in_cache h = false ∧ cnt e held = 0) as [Hic Hc] by (destruct (h_in_cache h); cbn in Er; split; done || lia). rewrite Hic.
    assert (e ∉ held) as Hheld by (rewrite cnt_elem; lia). rewrite Hic in Ec. symmetry in Ec. apply bool_decide_eq_false in Ec.
    unfold handle_key. cbn [h_next set_refs]. rewrite bool_decide_eq_false_2 by done. cbn [mbind option_bind]. eexists _, lru, use. split; [done|].
    rewrite decide_False by (intros [Hx _]; apply Ec, elem_of_app; by right). split_and!; try done.
    - apply (free_ok c held lru use tab e _ Hs Hheld Ec); [intros x Hx; by rewrite lookup_delete_ne, lookup_insert_ne|by rewrite lookup_delete_eq].
    - unfold accounted. cbn [heap_ deleted_ h_key set_refs]. rewrite delete_insert_eq, <- (assoc_L (++)). apply Permutation_app_head. by rewrite (live_delete (heap_ c) e h).
    - intros l Hl. cbn. rewrite lookup_delete_ne, lookup_insert_ne; [done|..]; intros ->; rewrite elem_of_app in Hl; tauto. }
  destruct (decide (e ∈ use ∧ e ∉ held)) as [[Huse Hheld]|Hstay].
  - assert (cnt e held = 0) as Hc by (rewrite cnt_elem in Hheld; lia). rewrite bool_decide_eq_true_2 in Ec by (apply elem_of_app; by right). rewrite Ec in *. cbn [Z.b2z] in Er.
    rewrite (proj2 (Z.eqb_eq _ _)) by lia. cbn [andb]. apply list_elem_of_split in Huse as (u1 & u2 & ->). set (He := <[e:=set_refs true (h_refs h - 1) h]> (heap_ c)).
    assert (NoDup (in_use_ :: lru_ :: (u1 ++ e :: u2) ++ lru)) as Hnd. { pose proof (so_nodup _ _ _ _ _ Hs) as Hnd. by rewrite Permutation_swap, (Permutation_app_comm lru) in Hnd. }
    destruct (move_spec He in_use_ lru_ u1 e u2 lru) as (Ha & H' & HR & HA & Hr1 & Hr2 & Hd & Hout); [apply ring_refs; [done|apply Hs]..|done|].
    rewrite HR. cbn [mbind option_bind]. rewrite HA. cbn [mbind option_bind]. eexists _, (lru ++ [e]), (without e (u1 ++ e :: u2)). split; [done|].
    rewrite without_mid by (by apply NoDup_cons in Hnd as [_ [_ (? & _)%NoDup_app]%NoDup_cons]).
    assert ((lru ++ [e]) ++ u1 ++ u2 ≡ₚ lru ++ u1 ++ e :: u2) as Hp. { rewrite <- (assoc_L (++)). apply Permutation_app_head, (Permutation_middle u1 u2 e). }
    destruct (recount_ok c (e :: held) lru (u1 ++ e :: u2) tab e h (h_refs h - 1) H' held (lru ++ [e]) (u1 ++ u2) Hs Hh H0 H1) as [Hok Hcore]; rewrite ?Ec; try done; try lia.
    + intros x Hx. apply Hout. rewrite !elem_of_cons, !elem_of_app in Hx |- *. tauto.
    + intros l Hl. left. by right.
    + intros l [Hl| ->%list_elem_of_singleton]%elem_of_app; [|done]. pose proof (so_idle _ _ _ _ _ Hs l Hl) as Hx. rewrite elem_of_cons in Hx. tauto.
    + intros l Hl. assert (l ∈ u1 ++ e :: u2) as Hl' by (rewrite elem_of_app, elem_of_cons in *; tauto). pose proof (so_busy _ _ _ _ _ Hs l Hl') as [->|?]%elem_of_cons; [|done].
      exfalso. apply NoDup_cons in Hnd as [_ [_ ((_ & Hd1 & [Hd2 _]%NoDup_cons)%NoDup_app & _)%NoDup_app]%NoDup_cons]. apply elem_of_app in Hl as [Hl|Hl]; [|done]. apply (Hd1 e Hl). left.
    + assert (quiet c (with_heap H' c)) as Hq by (by split). split_and!; try done; [by apply quiet_accounted|by apply quiet_kept].
  - assert (h_in_cache h && (h_refs h - 1 =? 1) = false) as ->.
    { destruct (h_in_cache h) eqn:Hic; [|done]. cbn [andb]. apply Z.eqb_neq. intros Hr. cbn [Z.b2z] in Er. apply Hstay. symmetry in Ec. apply bool_decide_eq_true in Ec.
      apply elem_of_app in Ec as [?|?]; [done|]. split; [done|]. rewrite cnt_elem. lia. }
    eexists _, lru, use. split; [done|].
    destruct (recount_ok c (e :: held) lru use tab e h (h_refs h - 1) (<[e:=set_refs (h_in_cache h) (h_refs h - 1) h]> (heap_ c)) held lru use Hs Hh H0 H1) as [Hok Hcore]; try done; try lia.
    + destruct (h_in_cache h); cbn in Er; lia.
    + apply ring_refs; [done|apply Hs].
    + apply ring_refs; [done|apply Hs].
    + intros l Hl. left. by right.
    + intros l Hl. pose proof (so_idle _ _ _ _ _ Hs l Hl) as Hx. rewrite elem_of_cons in Hx. tauto.
    + intros l Hl. pose proof (so_busy _ _ _ _ _ Hs l Hl) as [->|?]%elem_of_cons; [|done]. destruct (decide (e ∈ held)); [done|tauto].
    + assert (quiet c (with_heap (<[e:=set_refs (h_in_cache h) (h_refs h - 1) h]> (heap_ c)) c)) as Hq by (by split). split_and!; try done; [by apply quiet_accounted|by apply quiet_kept].
Qed.
(** ** Removing an entry *)

Lemma kept_trans c1 c2 c3 ls ls' : kept c1 c2 ls → kept c2 c3 ls' → (∀ l, l ∈ ls' → l ∈ ls) → kept c1 c3 ls'.
Proof. intros H12 H23 Hs l Hl. rewrite (H23 l Hl). by apply H12, Hs. Qed.

Lemma kept_weaken c c' ls ls' : kept c c' ls → (∀ l, l ∈ ls' → l ∈ ls) → kept c c' ls'.
Proof. intros Hk Hs l Hl. by apply Hk, Hs. Qed.

Lemma same_info_entry H H' : same_info H H' → same_entry H H'.
Proof. intros Hs l. specialize (Hs l). unfold info, core. destruct (H' !! l), (H !! l); cbn in *; try done. injection Hs. unfold set_refs, set_links, set_next_hash; cbn. congruence. Qed.

Lemma ring_info H H' hd l : same_info H H' → ring H hd l → ring H' hd l.
Proof.
  intros Hs Hr. unfold ring in *. eapply links_frame; [exact Hr| |]; intros x ys zs _ _; unfold nxt, prv; specialize (Hs x);
    destruct (H' !! x), (H !! x); cbn in *; try done; by injection Hs.
Qed.

(** Another table over the same handles. *)
Lemma table_step c held lru use tab T' H' B' tab' : shard_pre c held lru use tab → same_info (heap_ c) H' → table_ok H' T' B' → mjoin B' ≡ₚ tab' →
  (∀ l, l ∈ tab' → l ∈ lru ++ use) → shard_pre (with_table T' H' c) held lru use tab'.
Proof.
  intros Hs Hi Ht Hj Htab. split; cbn [with_table heap_ usage_ malloc_ table_]; try apply Hs; try done.
  - eapply ring_info; [done|apply Hs].
  - eapply ring_info; [done|apply Hs].
  - by exists B'.
  - intros l h Hl H0 H1. destruct (same_info_back _ _ _ _ Hi Hl) as (g & Hg & Eg). pose proof (so_entry _ _ _ _ _ Hs l g Hg H0 H1) as He.
    assert (h_in_cache h = h_in_cache g ∧ h_refs h = h_refs g ∧ h_next h = h_next g) as (-> & -> & ->) by (by injection Eg). done.
  - intros l h Hl. destruct (same_info_back _ _ _ _ Hi Hl) as (g & Hg & Eg). assert (h_charge h = h_charge g) as -> by (by injection Eg). by apply (so_charge _ _ _ _ _ Hs l).
  - intros l Hl. destruct (so_held _ _ _ _ _ Hs l Hl) as (H0 & H1 & h & Hh). split_and!; try done. specialize (Hi l). rewrite Hh in Hi. destruct (H' !! l); [eauto|done].
  - rewrite (so_usage _ _ _ _ _ Hs). symmetry. apply total_frame. intros l _. unfold charge_of. specialize (Hi l). destruct (H' !! l), (heap_ c !! l); cbn in *; try done. by injection Hi.
  - intros l [h Hl]. apply (so_fresh _ _ _ _ _ Hs). destruct (same_info_back _ _ _ _ Hi Hl) as (g & Hg & _). by exists g.
Qed.

Lemma without_perm e l1 l2 : e ∈ l1 ++ l2 → NoDup (l1 ++ l2) → l1 ++ l2 ≡ₚ e :: without e l1 ++ without e l2.
Proof.
  intros (a & b & Heq)%list_elem_of_split Hnd. unfold without. rewrite <- filter_app. fold (without e (l1 ++ l2)). rewrite Heq in Hnd |- *.
  rewrite without_mid by done. symmetry. apply Permutation_middle.
Qed.

(** Unlinking an entry of either list. *)
Lemma unlink_spec c held lru use tab e : shard_pre c held lru use tab → e ∈ lru ++ use →
  ∃ H', LRU_Remove e (heap_ c) = Some H' ∧ ring H' lru_ (without e lru) ∧ ring H' in_use_ (without e use) ∧ H' !! e = heap_ c !! e ∧
    (∀ x, x ∉ lru_ :: in_use_ :: lru ++ use → H' !! x = heap_ c !! x) ∧ same_data (heap_ c) H'.
Proof.
  intros Hs He. pose proof (so_nodup _ _ _ _ _ Hs) as Hnd. apply NoDup_cons in Hnd as [Hn0 [Hn1 (Hnd1 & Hdis & Hnd2)%NoDup_app]%NoDup_cons].
  rewrite elem_of_cons, elem_of_app in Hn0. rewrite elem_of_app in Hn1. apply elem_of_app in He as [He|He].
  - rewrite (without_out e use) by (by apply Hdis). apply list_elem_of_split in He as (l1 & l2 & ->). rewrite without_mid by done.
    destruct (LRU_Remove_spec (heap_ c) lru_ l1 e l2 (so_lru _ _ _ _ _ Hs)) as (H' & HR & Hr & He' & Ho & Hd); [apply NoDup_cons; tauto|].
    exists H'. split_and!; try done.
    + eapply ring_frame; [apply Hs|]. intros x Hx. apply Ho. rewrite elem_of_cons in Hx |- *. intros [->|Hx']; [naive_solver|]. destruct Hx as [->|Hx]; [tauto|by apply (Hdis x)].
    + intros x Hx. apply Ho. rewrite !elem_of_cons, (elem_of_app _ use) in Hx. rewrite elem_of_cons. tauto.
  - rewrite (without_out e lru) by (intros Hx; by apply (Hdis e)). apply list_elem_of_split in He as (l1 & l2 & ->). rewrite without_mid by done.
    destruct (LRU_Remove_spec (heap_ c) in_use_ l1 e l2 (so_use _ _ _ _ _ Hs)) as (H' & HR & Hr & He' & Ho & Hd); [apply NoDup_cons; tauto|].
    exists H'. split_and!; try done.
    + eapply ring_frame; [apply Hs|]. intros x Hx. apply Ho. rewrite elem_of_cons in Hx |- *. intros [->|Hx']; [naive_solver|]. destruct Hx as [->|Hx]; [tauto|by apply (Hdis x)].
    + intros x Hx. apply Ho. rewrite !elem_of_cons, (elem_of_app lru) in Hx. rewrite elem_of_cons. tauto.
Qed.
(** Out of the lists, the cache's reference is one more to drop. *)
Lemma uncache_ok c held lru use tab e h H' : shard_pre c held lru use tab → e ∈ lru ++ use → e ∉ tab → heap_ c !! e = Some h →
  ring H' lru_ (without e lru) → ring H' in_use_ (without e use) → H' !! e = Some h →
  (∀ x, x ∉ lru_ :: in_use_ :: lru ++ use → H' !! x = heap_ c !! x) → same_data (heap_ c) H' →
  let c' := with_usage (u64 (usage_ c - h_charge h)) (with_heap (<[e := set_refs false (h_refs h) h]> H') c) in
  shard_pre c' (e :: held) (without e lru) (without e use) tab ∧ usage_ c' = usage_ c - charge_of (heap_ c) e ∧ same_core (heap_ c) (heap_ c').
Proof.
  intros Hs He Htab Hh Hr1 Hr2 Hh' Hout Hd c'. destruct (so_cached _ _ _ _ _ e Hs He) as (H0 & H1 & _).
  destruct (so_entry _ _ _ _ _ Hs e h Hh H0 H1) as (Ec & Er & _ & En). rewrite bool_decide_eq_true_2 in Ec by done. rewrite Ec in Er. cbn [Z.b2z] in Er.
  pose proof (so_nodup _ _ _ _ _ Hs) as Hnd. assert (NoDup (lru ++ use)) as Hnd' by (by apply NoDup_cons in Hnd as [_ [_ ?]%NoDup_cons]).
  pose proof (without_perm e lru use He Hnd') as Hp. pose proof (total_perm (heap_ c) _ _ Hp) as Htot. rewrite total_cons in Htot.
  assert (same_core (heap_ c) (heap_ c')) as Hcore by (eapply same_core_trans; [by apply same_data_core|by apply same_core_refs]).
  assert (charge_of (heap_ c) e = h_charge h) as Hch by (unfold charge_of; by rewrite Hh).
  pose proof (total_nonneg (heap_ c) (without e lru ++ without e use) (so_charge _ _ _ _ _ Hs)) as Hnn. pose proof (so_usage _ _ _ _ _ Hs) as Hu. pose proof (so_charge _ _ _ _ _ Hs e h Hh).
  assert (usage_ c' = usage_ c - charge_of (heap_ c) e) as Huse. { unfold c'. cbn [usage_ with_usage with_heap]. pose proof (so_range _ _ _ _ _ Hs). rewrite Hch, u64_small; lia. }
  assert (NoDup (lru_ :: in_use_ :: without e lru ++ without e use)) as Hnd2.
  { rewrite Hp in Hnd. apply NoDup_cons in Hnd as [Hn0 [Hn1 [_ Hn2]%NoDup_cons]%NoDup_cons]. rewrite !elem_of_cons in Hn0. rewrite elem_of_cons in Hn1.
    apply NoDup_cons; split; [rewrite elem_of_cons; tauto|]. apply NoDup_cons; tauto. }
  split_and!; try done. assert (∀ x, x ∈ without e lru ++ without e use ↔ x ∈ lru ++ use ∧ x ≠ e) as Hel by (intros x; rewrite !elem_of_app, !without_elem; tauto).
  split; try done; try (unfold c'; cbn [with_usage with_heap heap_ usage_ malloc_ table_]).
  - by apply ring_refs.
  - by apply ring_refs.
  - destruct (so_table _ _ _ _ _ Hs) as (B & HB & Hj). exists B. split; [|done]. apply (table_ok_core _ _ _ _ HB Hcore). intros l Hl Hn. rewrite Hj in Hl.
    assert (l ≠ e) as Hne by (by intros ->). pose proof (so_tab _ _ _ _ _ Hs l Hl) as Hl'.
    apply (lists_not_self H' (without e lru) (without e use) l); try done; [by apply Hel|]. unfold nxt in *. cbn [heap_ with_usage with_heap c'] in Hn. by rewrite lookup_insert_ne in Hn.
  - intros l Hl. apply Hel. split; [by apply (so_tab _ _ _ _ _ Hs)|by intros ->].
  - intros l g Hl Hl0 Hl1. rewrite cnt_cons. destruct (decide (l = e)) as [->|Hne].
    + rewrite lookup_insert_eq in Hl. injection Hl as <-. cbn [h_in_cache h_refs h_next set_refs]. rewrite decide_True by done. split_and!; [|cbn; lia|pose proof (cnt_nonneg e held); lia|done].
      symmetry. apply bool_decide_eq_false. rewrite Hel. tauto.
    + rewrite lookup_insert_ne in Hl by done. rewrite decide_False by done. destruct (same_data_back _ _ _ _ Hd Hl) as (g' & Hg' & Eg).
      destruct (so_entry _ _ _ _ _ Hs l g' Hg' Hl0 Hl1) as (Gc & Gr & Gp & Gn). assert (h_in_cache g = h_in_cache g' ∧ h_refs g = h_refs g') as [-> ->] by (by injection Eg).
      split_and!; [rewrite Gc; apply bool_decide_ext; rewrite Hel; tauto|lia|done|]. destruct (decide (l ∈ lru ++ use)) as [Hin|Hnin].
      * intros Hn. apply (lists_not_self H' (without e lru) (without e use) l); try done; [by apply Hel|]. unfold nxt. by rewrite Hl.
      * rewrite Hout in Hl by (rewrite !elem_of_cons; tauto). by assert (g' = g) as -> by congruence.
  - intros l g Hl. destruct (same_core_back _ _ _ _ Hcore Hl) as (g' & Hg' & Eg). assert (h_charge g = h_charge g') as -> by (by injection Eg). by apply (so_charge _ _ _ _ _ Hs l).
  - intros l [->|Hl]%elem_of_cons; [split_and!; [done..|rewrite lookup_insert_eq; eauto]|]. destruct (so_held _ _ _ _ _ Hs l Hl) as (Hl0 & Hl1 & Hl2). split_and!; try done.
    specialize (Hcore l). cbn [heap_ with_usage with_heap c'] in Hcore. destruct Hl2 as [g Hg]. rewrite Hg in Hcore. destruct (<[e:=_]> H' !! l); [eauto|done].
  - intros l [Hl Hne]%without_elem. rewrite elem_of_cons. pose proof (so_idle _ _ _ _ _ Hs l Hl). tauto.
  - intros l [Hl _]%without_elem. right. by apply (so_busy _ _ _ _ _ Hs).
  - change (usage_ c' = total (heap_ c') (without e lru ++ without e use)). rewrite (total_core _ _ _ Hcore), Huse. lia.
  - change (usage_ c' < 2 ^ 64). pose proof (so_range _ _ _ _ _ Hs). lia.
  - intros l [g Hl]. apply (so_fresh _ _ _ _ _ Hs). destruct (same_core_back _ _ _ _ Hcore Hl) as (g' & Hg' & _). by exists g'.
Qed.

Lemma FinishErase_ok c held lru use tab e : shard_pre c held lru use tab → e ∈ lru ++ use → e ∉ tab →
  ∃ c', FinishErase (Some e) c = Some (c', true) ∧ shard_pre c' held (without e lru) (without e use) tab ∧ capacity_ c' = capacity_ c ∧
    usage_ c' = usage_ c - charge_of (heap_ c) e ∧ accounted c c' ∧ kept c c' (held ++ without e lru ++ without e use).
Proof.
  intros Hs He Htab. destruct (so_cached _ _ _ _ _ e Hs He) as (H0 & H1 & h & Hh). destruct (so_entry _ _ _ _ _ Hs e h Hh H0 H1) as (Ec & _).
  rewrite bool_decide_eq_true_2 in Ec by done. destruct (unlink_spec _ _ _ _ _ e Hs He) as (H' & HR & Hr1 & Hr2 & Hh' & Hout & Hd). rewrite Hh in Hh'.
  unfold FinishErase. rewrite Hh. cbn [mbind option_bind]. rewrite Ec, HR. cbn [negb mbind option_bind]. rewrite Hh'. cbn [mbind option_bind].
  destruct (uncache_ok c held lru use tab e h H' Hs He Htab Hh Hr1 Hr2 Hh' Hout Hd) as (Hs1 & Hu & Hcore).
  destruct (Unref_ok _ _ _ _ _ e Hs1) as (c2 & lru' & use' & HU & Hs2 & _ & Hcap & Hus & Hacc & Hkept & Hlists). rewrite HU. cbn [mbind option_bind].
  rewrite decide_False in Hlists by (intros [[_ Hx]%without_elem _]; done). destruct Hlists as [-> ->]. exists c2. split_and!; try done.
  - by rewrite Hus.
  - unfold accounted in *. rewrite Hacc. cbn [deleted_ with_usage with_heap]. by rewrite (live_entry _ _ (same_core_entry _ _ Hcore)).
  - intros l Hl. rewrite (Hkept l Hl). by apply same_core_entry.
Qed.

(** Erasing from the table and the lists. *)
Definition has_key H (key : list byte) (hash : Z) (l : nat) : Prop := ∃ h, H !! l = Some h ∧ matches key hash h.

Lemma table_small H T B : table_ok H T B → Z.of_nat (length (mjoin B)) <= 2 ^ 31.
Proof.
  intros Ht. rewrite <- (tb_elems _ _ _ Ht). etrans; [apply (tb_load _ _ _ Ht)|]. destruct (tb_pow _ _ _ Ht) as (k & Hk & ->). apply Z.pow_le_mono_r; lia.
Qed.

Lemma erase_ok c held lru use key hash : shard_ok c held lru use →
  ∃ T' H' r, table_Remove (table_ c) (heap_ c) key hash = Some (T', H', r) ∧
    match r with
    | None => (∀ l, l ∈ lru ++ use → ¬ has_key (heap_ c) key hash l) ∧
        shard_ok (with_table T' H' c) held lru use ∧ accounted c (with_table T' H' c) ∧ kept c (with_table T' H' c) (held ++ lru ++ use)
    | Some e => e ∈ lru ++ use ∧ has_key (heap_ c) key hash e ∧ ∃ c', FinishErase (Some e) (with_table T' H' c) = Some (c', true) ∧
        shard_ok c' held (without e lru) (without e use) ∧ capacity_ c' = capacity_ c ∧ usage_ c' = usage_ c - charge_of (heap_ c) e ∧
        accounted c c' ∧ kept c c' (held ++ without e lru ++ without e use)
    end.
Proof.
  intros Hs. destruct (so_table _ _ _ _ _ Hs) as (B & HB & Hj). pose proof (table_small _ _ _ HB) as Hsmall.
  destruct (table_Remove_spec _ _ _ key hash HB) as (T' & H' & r & B' & HR & Hi & HB' & Hr); [lia|]. exists T', H', r. split; [done|].
  assert (accounted c (with_table T' H' c)) as Hacc by (unfold accounted; cbn; by rewrite (live_entry _ _ (same_info_entry _ _ Hi))).
  assert (∀ ls, kept c (with_table T' H' c) ls) as Hk by (intros ls l _; by apply same_info_entry).
  destruct r as [e|].
  - destruct Hr as (HBB & h & Hh & Hm). assert (e ∈ lru ++ use) as He by (rewrite <- Hj, HBB; left). split; [done|]. split; [by exists h|].
    pose proof (so_nodup _ _ _ _ _ Hs) as Hnd. assert (NoDup (lru ++ use)) as Hnd' by (by apply NoDup_cons in Hnd as [_ [_ ?]%NoDup_cons]).
    pose proof (without_perm e lru use He Hnd') as Hp. rewrite Hj, Hp in HBB. apply (inj (cons e)) in HBB.
    assert (shard_pre (with_table T' H' c) held lru use (without e lru ++ without e use)) as Hs1.
    { eapply table_step; try done. intros l. rewrite !elem_of_app, !without_elem. tauto. }
    destruct (FinishErase_ok _ _ _ _ _ e Hs1 He) as (c' & HF & Hs' & Hcap & Hu & Hacc' & Hk'); [rewrite elem_of_app, !without_elem; tauto|].
    exists c'. split_and!; try done; [| |by intros l Hl; rewrite (Hk' l Hl); apply (Hk [l]); left].
    + rewrite Hu. cbn [usage_ with_table]. f_equal. unfold charge_of. cbn [heap_ with_table]. specialize (Hi e). destruct (H' !! e), (heap_ c !! e); cbn in *; try done. by injection Hi.
    + by eapply accounted_trans.
  - destruct Hr as (HBB & Hno). split_and!; try done.
    + intros l Hl (h & Hh & Hm). rewrite <- Hj in Hl. by apply (Hno l h).
    + eapply table_step; try done. by rewrite HBB.
Qed.
End shard.
