(* ===== verification/LruOps.v ===== *)
(** What the operations of the LRU cache do (util/cache.cc): lookups, eviction in
    order of use, the bound on the charges, and deleters called exactly once. *)
From stdpp Require Import gmap.
From S2P Require Import Prelude Hash HandleTable LruCache LruInvariant.

Section ops.
Context {V : Type}.
Notation LRUHandle := (LRUHandle (V := V)).
Notation LRUCache := (LRUCache (V := V)).
Notation Heap := (gmap nat LRUHandle).
Implicit Types (H : Heap) (h : LRUHandle) (c : LRUCache).
Notation shard_ok c held lru use := (shard_pre c held lru use (lru ++ use)).

(** ** Eviction *)

Lemma drop_elem (l : list nat) k x : x ∈ drop k l → x ∈ l.
Proof. intros Hx. rewrite <- (take_drop k l), elem_of_app. by right. Qed.

Lemma without_head e l : NoDup (e :: l) → without e (e :: l) = l.
Proof. intros Hnd. by apply (without_mid e []). Qed.

Lemma so_lists c held lru use tab : shard_pre c held lru use tab → NoDup lru ∧ NoDup use ∧ (∀ l, l ∈ lru → l ∉ use).
Proof. intros Hs. pose proof (so_nodup _ _ _ _ _ Hs) as [_ [_ (? & ? & ?)%NoDup_app]%NoDup_cons]%NoDup_cons. done. Qed.

Lemma evict_oldest_ok c held e lru use : shard_ok c held (e :: lru) use →
  ∃ c', evict_oldest e c = Some c' ∧ shard_ok c' held lru use ∧ capacity_ c' = capacity_ c ∧ usage_ c' = usage_ c - charge_of (heap_ c) e ∧
    accounted c c' ∧ kept c c' (held ++ lru ++ use).
Proof.
  intros Hs. assert (e ∈ (e :: lru) ++ use) as He by left. destruct (so_cached _ _ _ _ _ e Hs He) as (H0 & H1 & h & Hh).
  destruct (so_entry _ _ _ _ _ Hs e h Hh H0 H1) as (Ec & Er & _ & En). rewrite bool_decide_eq_true_2 in Ec by done. rewrite Ec in Er. cbn [Z.b2z] in Er.
  assert (cnt e held = 0) as Hc. { pose proof (so_idle _ _ _ _ _ Hs e ltac:(left)) as Hx. rewrite cnt_elem in Hx. pose proof (cnt_nonneg e held). lia. }
  unfold evict_oldest. rewrite Hh. cbn [mbind option_bind]. rewrite (proj2 (Z.eqb_eq _ _)) by lia. cbn [negb]. unfold handle_key. rewrite bool_decide_eq_false_2 by done. cbn [mbind option_bind].
  destruct (erase_ok c held (e :: lru) use (h_key h) (h_hash h) Hs) as (T' & H' & r & HR & Hr). rewrite HR. cbn [mbind option_bind].
  assert (has_key (heap_ c) (h_key h) (h_hash h) e) as Hkey by (exists h; by split). destruct r as [e'|]; [|by destruct (proj1 Hr e)].
  destruct Hr as (He' & (h' & Hh' & Hm) & c' & HF & Hs' & Hcap & Hu & Hacc & Hk). assert (e' = e) as ->.
  { destruct (so_table _ _ _ _ _ Hs) as (B & HB & Hj). destruct Hm. apply (tb_keys _ _ _ HB e' e h' h); rewrite ?Hj; done. }
  rewrite HF. cbn [mbind option_bind]. exists c'. destruct (so_lists _ _ _ _ _ Hs) as (Hnd & _ & Hdis). rewrite without_head, without_out in * by (done || apply Hdis; left). done.
Qed.

(** The loop over the oldest entries; [over] looks at the charges only. *)
Lemma evict_loop_ok over f : (∀ c, over c = f (capacity_ c) (usage_ c)) → ∀ fuel c held lru use, shard_ok c held lru use → (length lru < fuel)%nat →
  ∃ c' k, evict_loop fuel over c = Some c' ∧ (k ≤ length lru)%nat ∧ shard_ok c' held (drop k lru) use ∧ capacity_ c' = capacity_ c ∧
    (drop k lru = [] ∨ over c' = false) ∧ (∀ j, (j < k)%nat → f (capacity_ c) (total (heap_ c) (drop j lru ++ use)) = true) ∧
    accounted c c' ∧ kept c c' (held ++ drop k lru ++ use).
Proof.
  intros Hf. induction fuel as [|fuel IH]; intros c held lru use Hs Hlen; [lia|]. cbn [evict_loop].
  destruct (ring_live _ _ _ lru_ (so_lru _ _ _ _ _ Hs) ltac:(left)) as [hd Hhd]. rewrite Hhd. cbn [mbind option_bind].
  assert (h_next hd = Some (default lru_ (head lru))) as Hn.
  { pose proof (so_lru _ _ _ _ _ Hs) as Hr. unfold ring in Hr. destruct lru as [|x l]; cbn [app links] in Hr; destruct Hr as (Hn & _); unfold nxt in Hn; by rewrite Hhd in Hn. }
  rewrite Hn. destruct lru as [|e lru]; [change (default lru_ (head [])) with lru_|change (default lru_ (head (e :: lru))) with e].
  { rewrite Nat.eqb_refl, andb_false_r. exists c, 0%nat. split_and!; [done|cbn; lia|done..|by left|intros j Hj; lia|unfold accounted; reflexivity|by intros l _]. }
  destruct (so_cached _ _ _ _ _ e Hs ltac:(left)) as (He0 & _). rewrite (proj2 (Nat.eqb_neq _ _)) by done. cbn [negb]. rewrite andb_true_r.
  destruct (over c) eqn:Hover; [|exists c, 0%nat; rewrite drop_0; split_and!; [done|cbn; lia|done..|by right|intros j Hj; lia|unfold accounted; reflexivity|by intros l _]].
  destruct (evict_oldest_ok c held e lru use Hs) as (c1 & HE & Hs1 & Hcap & Hu & Hacc & Hk). rewrite HE. cbn [mbind option_bind].
  cbn [length] in Hlen. destruct (IH c1 held lru use Hs1 ltac:(lia)) as (c' & k & HL & Hle & Hs' & Hcap' & Hend & Hmin & Hacc' & Hk').
  assert (∀ j, total (heap_ c1) (drop j lru ++ use) = total (heap_ c) (drop j lru ++ use)) as Htot.
  { intros j. apply total_frame. intros l Hl. unfold charge_of. assert (l ∈ held ++ lru ++ use) as Hl'.
    { rewrite elem_of_app in Hl. rewrite !elem_of_app. destruct Hl as [Hl|Hl]; [right; left|tauto]. by eapply drop_elem. }
    specialize (Hk l Hl'). destruct (heap_ c1 !! l), (heap_ c !! l); cbn in *; try done. by injection Hk. }
  exists c', (S k). cbn [drop length]. split_and!; try done; [lia|congruence| |by eapply accounted_trans|].
  - intros [|j] Hj; cbn [drop]; [by rewrite <- (so_usage _ _ _ _ _ Hs), <- Hf|]. rewrite <- Htot, <- Hcap. apply Hmin. lia.
  - eapply kept_trans; [exact Hk|exact Hk'|]. intros l. rewrite !elem_of_app. intros [?|[Hl|?]]; [tauto| |tauto]. right; left. by eapply drop_elem.
Qed.
(** ** Insertion *)

#[export] Instance has_key_dec H key hash l : Decision (has_key H key hash l).
Proof.
  refine (match H !! l as o return H !! l = o → _ with
          | Some h => λ Hl, match decide (h_key h = key ∧ h_hash h = hash) with left Hm => left _ | right Hm => right _ end
          | None => λ Hl, right _
          end eq_refl).
  - by exists h.
  - intros (h' & Hh' & Hm'). by assert (h' = h) as -> by congruence.
  - intros (h' & Hh' & _). congruence.
Defined.

(** The entries with other keys. *)
Definition others H (key : list byte) (hash : Z) (l : list nat) : list nat := filter (λ x, ¬ has_key H key hash x) l.

Lemma filter_ext (P Q : nat → Prop) `{!∀ x, Decision (P x), !∀ x, Decision (Q x)} (l : list nat) : (∀ x, x ∈ l → P x ↔ Q x) → filter P l = filter Q l.
Proof.
  induction l as [|x l IH]; intros HPQ; [done|]. rewrite !filter_cons, IH by (intros y Hy; apply HPQ; by right).
  pose proof (HPQ x ltac:(left)). repeat case_decide; tauto.
Qed.

(** A new handle, held by the caller. *)
Lemma alloc_ok c held lru use h : shard_ok c held lru use → h_in_cache h = false → h_refs h = 1 → h_next h = None → 0 <= h_charge h →
  let e := malloc_ c in
  let c' := {| capacity_ := capacity_ c; usage_ := usage_ c; heap_ := <[e := h]> (heap_ c); malloc_ := S e; table_ := table_ c; deleted_ := deleted_ c |} in
  shard_ok c' (e :: held) lru use ∧ heap_ c !! e = None ∧ e ≠ lru_ ∧ e ≠ in_use_ ∧ e ∉ lru ++ use ∧ e ∉ held.
Proof.
  intros Hs Hic Hr Hn Hch e c'. assert (heap_ c !! e = None) as He. { destruct (heap_ c !! e) eqn:Hx; [|done]. pose proof (so_fresh _ _ _ _ _ Hs e (ex_intro _ _ Hx)). unfold e in *. lia. }
  assert (∀ x, is_Some (heap_ c !! x) → x ≠ e) as Hne by (intros x [g Hg] ->; congruence).
  assert (∀ x, x ∈ lru_ :: in_use_ :: lru ++ use → is_Some (heap_ c !! x)) as Hlive.
  { intros x [->|[->|Hx]%elem_of_cons]%elem_of_cons; [eapply ring_live; [apply Hs|left]|apply (ring_live _ in_use_ use); [apply Hs|left]|by eapply so_cached]. }
  assert (e ∉ lru ++ use) as Hel. { intros Hx. by apply (Hne e); [apply Hlive; do 2 right|]. }
  assert (e ∉ held) as Hheld. { intros Hx. destruct (so_held _ _ _ _ _ Hs e Hx) as (_ & _ & Hx'). by apply (Hne e). }
  assert (e ≠ lru_ ∧ e ≠ in_use_) as [He0 He1]. { split; intros Hx; apply (Hne e); try done; apply Hlive; rewrite Hx; [left|right; left]. }
  assert (∀ x, x ≠ e → <[e := h]> (heap_ c) !! x = heap_ c !! x) as Hsame by (intros x Hx; by rewrite lookup_insert_ne).
  split; [|done]. split; cbn [heap_ usage_ malloc_ table_ c']; try apply Hs.
  - eapply ring_frame; [apply Hs|]. intros x Hx. apply Hsame, Hne, Hlive. rewrite !elem_of_cons, elem_of_app in *. tauto.
  - eapply ring_frame; [apply Hs|]. intros x Hx. apply Hsame, Hne, Hlive. rewrite !elem_of_cons, elem_of_app in *. tauto.
  - destruct (so_table _ _ _ _ _ Hs) as (B & HB & Hj). exists B. split; [|done]. eapply table_ok_frame; [done|]. intros l Hl. rewrite Hj in Hl. apply Hsame. by intros ->.
  - intros l g Hl Hl0 Hl1. rewrite cnt_cons. destruct (decide (l = e)) as [->|Hle].
    + rewrite lookup_insert_eq in Hl. injection Hl as <-. rewrite decide_True, Hic, Hr, Hn, bool_decide_eq_false_2 by done. rewrite cnt_elem in Hheld. pose proof (cnt_nonneg e held).
      split_and!; [done|cbn; lia|lia|done].
    + rewrite Hsame in Hl by done. rewrite decide_False by done. by apply (so_entry _ _ _ _ _ Hs).
  - intros l g. destruct (decide (l = e)) as [->|Hle]; [rewrite lookup_insert_eq; by intros [= <-]|]. rewrite Hsame by done. by apply (so_charge _ _ _ _ _ Hs).
  - intros l [->|Hl]%elem_of_cons; [split_and!; [done..|rewrite lookup_insert_eq; eauto]|]. destruct (so_held _ _ _ _ _ Hs l Hl) as (H0 & H1 & H2). rewrite Hsame by (by apply Hne). done.
  - intros l Hl. rewrite elem_of_cons. intros [->|Hx]; [apply Hel, elem_of_app; by left|]. by apply (so_idle _ _ _ _ _ Hs l).
  - intros l Hl. right. by apply (so_busy _ _ _ _ _ Hs).
  - rewrite (so_usage _ _ _ _ _ Hs). symmetry. apply total_frame. intros l Hl. unfold charge_of. rewrite Hsame; [done|]. by intros ->.
  - intros l [g Hl]. destruct (decide (l = e)) as [->|Hle]; [lia|]. rewrite Hsame in Hl by done. pose proof (so_fresh _ _ _ _ _ Hs l (ex_intro _ _ Hl)). unfold e. lia.
Qed.

(** Into the list of entries in use, with a reference for the cache. *)
Lemma enlist_ok c held lru use e h : shard_ok c (e :: held) lru use → heap_ c !! e = Some h → e ∉ lru ++ use → e ∉ held → usage_ c + h_charge h < 2 ^ 64 →
  ∃ H', LRU_Append in_use_ e (<[e := set_refs true 2 h]> (heap_ c)) = Some H' ∧ same_core (heap_ c) H' ∧ nxt H' e = Some in_use_ ∧
    let c' := with_usage (u64 (usage_ c + h_charge h)) (with_heap H' c) in
    shard_pre c' (e :: held) lru (use ++ [e]) (lru ++ use) ∧ usage_ c' = usage_ c + h_charge h.
Proof.
  intros Hs Hh Hout Hheld Hmax. destruct (so_held _ _ _ _ _ Hs e ltac:(left)) as (H0 & H1 & _). pose proof (so_nodup _ _ _ _ _ Hs) as Hnd.
  pose proof Hnd as [Hn0 [Hn1 (Hn2 & Hn3 & Hn4)%NoDup_app]%NoDup_cons]%NoDup_cons. rewrite elem_of_cons, elem_of_app in Hn0. rewrite elem_of_app in Hn1. rewrite elem_of_app in Hout.
  set (H1' := <[e := set_refs true 2 h]> (heap_ c)). assert (ring H1' lru_ lru ∧ ring H1' in_use_ use) as [Hr1 Hr2] by (split; (apply ring_refs; [done|apply Hs])).
  destruct (LRU_Append_spec H1' in_use_ use e (set_refs true 2 h) Hr2) as (H' & HA & Hr2' & Ho & Hd & Hnx); [by apply NoDup_cons; tauto|rewrite elem_of_cons; tauto|unfold H1'; by rewrite lookup_insert_eq|].
  assert (same_core (heap_ c) H') as Hcore by (eapply same_core_trans; [by apply same_core_refs|by apply same_data_core]). exists H'. split_and!; try done. intros c'.
  assert (ring H' lru_ lru) as Hr1'.
  { eapply ring_frame; [exact Hr1|]. intros x Hx. apply Ho. rewrite elem_of_cons, elem_of_app, list_elem_of_singleton. rewrite elem_of_cons in Hx. destruct Hx as [->|Hx]; [naive_solver|].
    intros [->|[?| ->]]; [tauto|by apply (Hn3 x)|tauto]. }
  assert (NoDup (lru_ :: in_use_ :: lru ++ use ++ [e])) as Hnd2.
  { rewrite (assoc_L (++)), (Permutation_app_comm _ [e]). cbn [app]. rewrite !(Permutation_swap e). apply NoDup_cons. split; [|done]. rewrite !elem_of_cons, elem_of_app. naive_solver. }
  pose proof (so_charge _ _ _ _ _ Hs e h Hh). pose proof (so_usage _ _ _ _ _ Hs) as Hu. pose proof (total_nonneg (heap_ c) (lru ++ use) (so_charge _ _ _ _ _ Hs)) as Hnn.
  assert (usage_ c' = usage_ c + h_charge h) as Hu' by (unfold c'; cbn [usage_ with_usage with_heap]; rewrite u64_small; lia). split; [|done].
  split; try (unfold c'; cbn [with_usage with_heap heap_ usage_ malloc_ table_]); try done.
  - destruct (so_table _ _ _ _ _ Hs) as (B & HB & Hj). exists B. split; [|done]. apply (table_ok_core _ _ _ _ HB Hcore). intros l Hl. rewrite Hj in Hl.
    apply (lists_not_self H' lru (use ++ [e])); try done. rewrite !elem_of_app in *. tauto.
  - intros l. rewrite !elem_of_app. tauto.
  - intros l g Hl Hl0 Hl1. assert (l ∈ lru ++ use ++ [e] → h_next g ≠ Some l) as Hself.
    { intros Hin Hx. apply (lists_not_self H' lru (use ++ [e]) l); try done. unfold nxt. by rewrite Hl. }
    destruct (same_data_back _ _ _ _ Hd Hl) as (g' & Hg' & Eg). assert (h_in_cache g = h_in_cache g' ∧ h_refs g = h_refs g') as [-> ->] by (by injection Eg).
    rewrite !elem_of_app, list_elem_of_singleton in Hself. destruct (decide (l = e)) as [->|Hne].
    + unfold H1' in Hg'. rewrite lookup_insert_eq in Hg'. injection Hg' as <-. cbn [h_in_cache h_refs set_refs]. rewrite cnt_cons, decide_True by done.
      rewrite cnt_elem in Hheld. pose proof (cnt_nonneg e held). split_and!; [|cbn; lia|lia|tauto]. symmetry. apply bool_decide_eq_true. rewrite !elem_of_app, list_elem_of_singleton. tauto.
    + unfold H1' in Hg'. rewrite lookup_insert_ne in Hg' by done. destruct (so_entry _ _ _ _ _ Hs l g' Hg' Hl0 Hl1) as (E1 & E2 & E3 & E4). split_and!; try done.
      * rewrite E1. apply bool_decide_ext. rewrite !elem_of_app, list_elem_of_singleton. tauto.
      * destruct (decide (l ∈ lru ++ use)) as [Hin|Hnin]; [apply elem_of_app in Hin; tauto|]. rewrite elem_of_app in Hnin. rewrite Ho in Hl by (rewrite elem_of_cons, elem_of_app, list_elem_of_singleton; tauto).
        unfold H1' in Hl. rewrite lookup_insert_ne in Hl by done. by assert (g' = g) as -> by congruence.
  - intros l g Hl. destruct (same_core_back _ _ _ _ Hcore Hl) as (g' & Hg' & Eg). assert (h_charge g = h_charge g') as -> by (by injection Eg). by apply (so_charge _ _ _ _ _ Hs l).
  - intros l Hl. destruct (so_held _ _ _ _ _ Hs l Hl) as (Hl0 & Hl1 & g & Hg). split_and!; try done. specialize (Hcore l). rewrite Hg in Hcore. destruct (H' !! l); [eauto|done].
  - intros l. apply (so_idle _ _ _ _ _ Hs).
  - intros l [Hl| ->%list_elem_of_singleton]%elem_of_app; [by apply (so_busy _ _ _ _ _ Hs)|left].
  - change (usage_ c' = total H' (lru ++ use ++ [e])). rewrite (total_core _ _ _ Hcore), Hu', Hu, (assoc_L (++)), (total_app _ (lru ++ use)). f_equal. rewrite total_cons. unfold charge_of. rewrite Hh. cbn. lia.
  - change (usage_ c' < 2 ^ 64). lia.
  - intros l [g Hl]. apply (so_fresh _ _ _ _ _ Hs). destruct (same_core_back _ _ _ _ Hcore Hl) as (g' & Hg' & _). by exists g'.
Qed.
Lemma others_out H key hash l : (∀ x, x ∈ l → ¬ has_key H key hash x) → others H key hash l = l.
Proof.
  unfold others. induction l as [|x l IH]; [done|]. intros Hl. rewrite filter_cons_True by (apply Hl; left). f_equal. apply IH. intros y Hy. apply Hl. by right.
Qed.

Lemma others_without H key hash o l : has_key H key hash o → (∀ x, x ∈ l → has_key H key hash x → x = o) → others H key hash l = without o l.
Proof. intros Ho Hl. unfold others, without. apply filter_ext. intros x Hx. split; [by intros Hn ->|]. intros Hne Hk. by apply Hne, Hl. Qed.

(** The table takes the new entry; the entry it replaces leaves the cache. *)
Lemma replace_ok c held lru use e h : shard_pre c (e :: held) lru (use ++ [e]) (lru ++ use) → heap_ c !! e = Some h → e ∉ lru ++ use → e ∉ held →
  Z.of_nat (length (lru ++ use)) < 2 ^ 31 → let key := h_key h in let hash := h_hash h in
  ∃ T' H' r c' b, table_Insert (table_ c) (heap_ c) e = Some (T', H', r) ∧ FinishErase r (with_table T' H' c) = Some (c', b) ∧
    shard_ok c' (e :: held) (others (heap_ c) key hash lru) (others (heap_ c) key hash use ++ [e]) ∧ capacity_ c' = capacity_ c ∧
    accounted c c' ∧ kept c c' ((e :: held) ++ others (heap_ c) key hash lru ++ others (heap_ c) key hash use ++ [e]).
Proof.
  intros Hs Hh Hout Hheld Hmax key hash. destruct (so_table _ _ _ _ _ Hs) as (B & HB & Hj).
  assert (e ∈ lru ++ use ++ [e]) as Hin by (rewrite !elem_of_app; right; right; left). destruct (so_cached _ _ _ _ _ e Hs Hin) as (H0 & H1 & _).
  destruct (so_entry _ _ _ _ _ Hs e h Hh H0 H1) as (_ & _ & _ & En).
  destruct (table_Insert_spec _ _ _ e h HB Hh En) as (T' & H' & r & B' & HI & Hi & HB' & Hr); [by rewrite Hj|by rewrite Hj|].
  assert (accounted c (with_table T' H' c)) as Hacc by (unfold accounted; cbn; by rewrite (live_entry _ _ (same_info_entry _ _ Hi))).
  assert (∀ ls, kept c (with_table T' H' c) ls) as Hk by (intros ls l _; by apply same_info_entry).
  assert (lru ++ use ++ [e] ≡ₚ e :: lru ++ use) as Hp by (by rewrite (assoc_L (++)), (Permutation_app_comm _ [e])).
  exists T', H', r. destruct r as [o|].
  - destruct Hr as (S & HBS & HBS' & ho & Hho & Hm). assert (o ∈ lru ++ use) as Ho by (rewrite <- Hj, HBS; left). assert (o ≠ e) as Hoe by (by intros ->).
    pose proof (so_nodup _ _ _ _ _ Hs) as Hnd. rewrite Hp in Hnd. apply NoDup_cons in Hnd as [_ [_ [_ Hnd]%NoDup_cons]%NoDup_cons].
    pose proof (without_perm o lru use Ho Hnd) as Hpo. rewrite Hj, Hpo in HBS. apply (inj (cons o)) in HBS.
    assert (shard_pre (with_table T' H' c) (e :: held) lru (use ++ [e]) (e :: S)) as Hs1.
    { eapply table_step; try done. intros l. rewrite Hp, !elem_of_cons, <- HBS, !elem_of_app, !without_elem. tauto. }
    destruct (FinishErase_ok _ _ _ _ _ o Hs1) as (c' & HF & Hs' & Hcap & _ & Hacc' & Hk'); [by rewrite Hp; right|rewrite elem_of_cons, <- HBS, elem_of_app, !without_elem; tauto|].
    assert (∀ l, (∀ x, x ∈ l → x ∈ lru ++ use) → others (heap_ c) key hash l = without o l) as Hoth.
    { intros l Hl. apply others_without; [by exists ho|]. intros x Hx (hx & Hhx & Hmx). destruct Hm as [Hm1 Hm2], Hmx as [Hx1 Hx2].
      apply (tb_keys _ _ _ HB x o hx ho); rewrite ?Hj; try done; [by apply Hl|by rewrite Hx1, Hm1|by rewrite Hx2, Hm2]. }
    rewrite !Hoth by (intros x Hx; apply elem_of_app; tauto).
    assert (without o (use ++ [e]) = without o use ++ [e]) as Hwe. { unfold without. rewrite filter_app. f_equal. by rewrite filter_cons_True by congruence. }
    rewrite Hwe in Hs', Hk'. exists c', true. split_and!; try done.
    + apply (shard_tab _ _ _ _ _ _ Hs'). by rewrite (assoc_L (++)), (Permutation_app_comm _ [e]), HBS.
    + by eapply accounted_trans.
    + intros l Hl. rewrite (Hk' l Hl). apply (Hk [l]). left.
  - destruct Hr as (HBS & Hno). rewrite !others_out by (intros x Hx (hx & Hhx & Hm); apply (Hno x hx); rewrite ?Hj, ?elem_of_app; tauto).
    exists (with_table T' H' c), false. split_and!; try done. eapply table_step; try done. by rewrite HBS, Hj, Hp.
Qed.

Lemma lru_size c held lru use tab : shard_pre c held lru use tab → (length lru < Datatypes.S (size (heap_ c)))%nat.
Proof.
  intros Hs. destruct (so_lists _ _ _ _ _ Hs) as (Hnd & _). apply Nat.lt_succ_r. rewrite <- (size_list_to_set (C := gset nat) lru), <- size_dom by done.
  apply subseteq_size. intros l. rewrite elem_of_list_to_set, elem_of_dom. intros Hl. eapply so_cached; [done|]. apply elem_of_app. by left.
Qed.

Lemma add_entry_ok c held lru use e h : shard_ok c (e :: held) lru use → heap_ c !! e = Some h → h_refs h = 1 → e ∉ lru ++ use → e ∉ held →
  usage_ c + h_charge h < 2 ^ 64 → Z.of_nat (length (lru ++ use)) < 2 ^ 31 →
  let on := 0 <? capacity_ c in
  let lru1 := if on then others (heap_ c) (h_key h) (h_hash h) lru else lru in
  let use1 := (if on then others (heap_ c) (h_key h) (h_hash h) use else use) ++ (if on then [e] else []) in
  ∃ c', add_entry e h c = Some c' ∧ shard_ok c' (e :: held) lru1 use1 ∧ capacity_ c' = capacity_ c ∧ accounted c c' ∧ kept c c' ((e :: held) ++ lru1 ++ use1).
Proof.
  intros Hs Hh Hr Hel Heh Hmax Hfew on lru1 use1. unfold add_entry, lru1, use1. fold on. destruct on; [|exists c; rewrite app_nil_r; split_and!; try done; unfold accounted; done].
  destruct (enlist_ok c held lru use e h Hs Hh Hel Heh Hmax) as (H' & HA & Hcore & Hnx & Hs1 & Hu1). rewrite Hr. change (u32 (1 + 1)) with 2. rewrite HA. cbn [mbind option_bind].
  set (c2 := with_usage (u64 (usage_ c + h_charge h)) (with_heap H' c)) in *. destruct (same_core_back H' (heap_ c) e h) as (h2 & Hh2 & E2); [by apply same_core_sym|done|].
  assert (h_key h2 = h_key h ∧ h_hash h2 = h_hash h) as [Ek Eh] by (by injection E2).
  destruct (replace_ok c2 held lru use e h2 Hs1 Hh2 Hel Heh Hfew) as (T' & H2 & r & c3 & b & HI & HF & Hs3 & Hcap3 & Hacc3 & Hk3). rewrite Ek, Eh in Hs3, Hk3.
  cbn zeta. rewrite HI. cbn [mbind option_bind]. rewrite HF. cbn [mbind option_bind]. exists c3.
  assert (∀ x, has_key (heap_ c2) (h_key h) (h_hash h) x ↔ has_key (heap_ c) (h_key h) (h_hash h) x) as Hkeys.
  { intros x. unfold has_key, matches. specialize (Hcore x). cbn [c2 heap_ with_usage with_heap]. destruct (H' !! x) as [g|] eqn:Eg, (heap_ c !! x) as [g'|] eqn:Eg'; cbn in Hcore; try done.
    assert (h_key g = h_key g' ∧ h_hash g = h_hash g') as [E3 E4] by (by injection Hcore). split; intros (? & [= <-] & ? & ?); eexists; (split; [done|]); split; congruence. }
  assert (∀ l, others (heap_ c2) (h_key h) (h_hash h) l = others (heap_ c) (h_key h) (h_hash h) l) as Hoth by (intros l; unfold others; apply filter_ext; intros x _; by rewrite Hkeys).
  rewrite !Hoth in Hs3, Hk3. split_and!; try done.
  - eapply accounted_trans; [|exact Hacc3]. unfold accounted. cbn [c2 deleted_ with_usage with_heap heap_]. by rewrite (live_entry _ _ (same_core_entry _ _ Hcore)).
  - intros l Hl. rewrite (Hk3 l Hl). by apply same_core_entry.
Qed.

Lemma kept_charge c c' ls l : kept c c' ls → l ∈ ls → charge_of (heap_ c') l = charge_of (heap_ c) l.
Proof. intros Hk Hl. unfold charge_of. specialize (Hk l Hl). destruct (heap_ c' !! l), (heap_ c !! l); cbn in *; try done. by injection Hk. Qed.

(** [Insert]: the new entry is in use; it replaces the entry with its key; the
    oldest unused entries go, as many as the capacity asks for. *)
Lemma Insert_ok c held lru use key hash value charge : shard_ok c held lru use → 0 <= charge → usage_ c + charge < 2 ^ 64 → Z.of_nat (length (lru ++ use)) < 2 ^ 31 →
  let e := malloc_ c in
  let on := 0 <? capacity_ c in
  let lru1 := if on then others (heap_ c) key hash lru else lru in
  let use1 := if on then others (heap_ c) key hash use else use in
  ∃ c' k h, cache_Insert key hash value charge c = Some (c', e) ∧ e ∉ held ∧ shard_ok c' (e :: held) (drop k lru1) (use1 ++ if on then [e] else []) ∧
    capacity_ c' = capacity_ c ∧ (drop k lru1 = [] ∨ usage_ c' <= capacity_ c) ∧
    (∀ j, (j < k)%nat → capacity_ c < total (heap_ c) (drop j lru1 ++ use1) + (if on then charge else 0)) ∧
    heap_ c' !! e = Some h ∧ h_key h = key ∧ h_value h = Some value ∧ h_charge h = charge ∧ h_hash h = hash ∧
    deleted_ c' ++ live (heap_ c') ≡ₚ (key, Some value) :: deleted_ c ++ live (heap_ c) ∧ kept c c' (held ++ drop k lru1 ++ use1).
Proof.
  intros Hs Hch Hmax Hfew e on lru1 use1. unfold cache_Insert. fold e.
  set (h := {| h_value := Some value; h_next_hash := None; h_next := None; h_prev := None; h_charge := charge; h_key := key; h_in_cache := false; h_refs := 1; h_hash := hash |}).
  destruct (alloc_ok c held lru use h Hs eq_refl eq_refl eq_refl Hch) as (Hs0 & He & He0 & He1 & Hel & Heh). fold e in Hs0, He, He0, He1, Hel, Heh.
  set (c0 := {| capacity_ := capacity_ c; usage_ := usage_ c; heap_ := <[e := h]> (heap_ c); malloc_ := S e; table_ := table_ c; deleted_ := deleted_ c |}) in *.
  assert (∀ x, x ≠ e → heap_ c0 !! x = heap_ c !! x) as Hne by (intros x Hx; cbn; by rewrite lookup_insert_ne).
  assert (∀ l, (∀ x, x ∈ l → x ∈ lru ++ use) → others (heap_ c0) key hash l = others (heap_ c) key hash l) as Hoth.
  { intros l Hl. unfold others. apply filter_ext. intros x Hx. unfold has_key. rewrite Hne; [done|]. intros ->. by apply Hel, Hl. }
  destruct (add_entry_ok c0 held lru use e h Hs0) as (c1 & HA & Hs1 & Hcap1 & Hacc1 & Hk1); [cbn; by rewrite lookup_insert_eq|done..|]. cbn [h_key h_hash h] in Hs1, Hk1.
  change (capacity_ c0) with (capacity_ c) in *. fold on in Hs1, Hk1. rewrite !Hoth in Hs1, Hk1 by (intros x Hx; apply elem_of_app; tauto). fold lru1 use1 in Hs1, Hk1.
  rewrite HA. cbn [mbind option_bind].
  destruct (evict_loop_ok over_capacity (λ cap u, cap <? u) (λ _, eq_refl) (S (size (heap_ c1))) c1 (e :: held) lru1 _ Hs1 (lru_size _ _ _ _ _ Hs1)) as (c' & k & HL & Hle & Hs' & Hcap' & Hend & Hmin & Hacc' & Hk').
  rewrite HL. cbn [mbind option_bind]. assert (info <$> heap_ c' !! e = Some (info h)) as Hinfo.
  { rewrite (Hk' e), (Hk1 e) by (apply elem_of_app; left; left). cbn. by rewrite lookup_insert_eq. }
  destruct (heap_ c' !! e) as [h'|] eqn:Hh'; [|done]. exists c', k, h'. injection Hinfo as Ev Ec Ek Eh.
  assert (∀ x, x ∈ lru1 ++ use1 → x ∈ lru ++ use) as Hsub.
  { intros x. unfold lru1, use1, others. destruct on; [|done]. rewrite !elem_of_app, !list_elem_of_filter. tauto. }
  assert (∀ x, x ∈ held ++ drop k lru1 ++ use1 → x ≠ e) as Hxe.
  { intros x Hx ->. apply elem_of_app in Hx as [Hx|Hx]; [done|]. apply Hel, Hsub. rewrite elem_of_app in Hx |- *. destruct Hx as [Hx%drop_elem|Hx]; tauto. }
  split_and!; try done.
  - congruence.
  - destruct Hend as [?|Hend%Z.ltb_ge]; [by left|right]. lia.
  - intros j Hj. specialize (Hmin j Hj). cbn beta in Hmin. apply Z.ltb_lt in Hmin. rewrite Hcap1 in Hmin. eapply Z.lt_le_trans; [exact Hmin|].
    assert (∀ x, x ∈ drop j lru1 ++ use1 → charge_of (heap_ c1) x = charge_of (heap_ c) x) as Hcx.
    { intros x Hx. assert (x ∈ lru1 ++ use1) as Hx' by (rewrite elem_of_app in Hx |- *; destruct Hx as [Hx%drop_elem|Hx]; tauto).
      rewrite (kept_charge _ _ _ x Hk1); [|apply elem_of_app; right; rewrite (assoc_L (++)), elem_of_app; by left]. unfold charge_of. rewrite Hne; [done|]. intros ->. by apply Hel, Hsub. }
    rewrite (assoc_L (++)), total_app, (total_frame _ _ _ Hcx). unfold on. destruct (0 <? capacity_ c) eqn:Hon; [|done]. rewrite total_cons.
    rewrite (kept_charge _ _ _ e Hk1) by (apply elem_of_app; left; left). assert (charge_of (heap_ c0) e = charge) as -> by (unfold charge_of; cbn; by rewrite lookup_insert_eq). cbn. lia.
  - pose proof (accounted_trans _ _ _ Hacc1 Hacc') as Hacc. unfold accounted in Hacc. rewrite Hacc. cbn [c0 deleted_ heap_]. rewrite live_insert by done. symmetry. apply Permutation_middle.
  - intros l Hl. rewrite (Hk' l) by (rewrite !elem_of_app, elem_of_cons in *; tauto). rewrite (Hk1 l), Hne; [done|by apply Hxe|].
    rewrite !elem_of_app, elem_of_cons in *. destruct Hl as [?|[Hl%drop_elem|?]]; tauto.
Qed.
(** ** The other operations *)

Lemma Lookup_ok c held lru use key hash : shard_ok c held lru use → Z.of_nat (length held) < 2 ^ 32 - 2 →
  ∃ c' r, cache_Lookup key hash c = Some (c', r) ∧
    match r with
    | None => c' = c ∧ ∀ l, l ∈ lru ++ use → ¬ has_key (heap_ c) key hash l
    | Some e => e ∈ lru ++ use ∧ has_key (heap_ c) key hash e ∧ quiet c c' ∧ ∃ use', shard_ok c' (e :: held) (without e lru) use' ∧ without e lru ++ use' ≡ₚ lru ++ use
    end.
Proof.
  intros Hs Hlen. destruct (so_table _ _ _ _ _ Hs) as (B & HB & Hj). destruct (table_Lookup_spec _ _ _ key hash HB) as (r & HL & Hin & Hout).
  unfold cache_Lookup. rewrite HL. cbn [mbind option_bind]. destruct r as [e|].
  - destruct (Hout e eq_refl) as [He Hkey]. rewrite Hj in He. destruct (Ref_ok c held lru use e Hs He Hlen) as (c' & use' & HR & Hs' & Hq & Hp). rewrite HR. cbn [mbind option_bind].
    exists c', (Some e). split_and!; try done. by exists use'.
  - exists c, None. split_and!; try done. intros l Hl (h & Hh & Hm). rewrite <- Hj in Hl. by specialize (Hin l h Hl Hh Hm).
Qed.

Lemma Erase_ok c held lru use key hash : shard_ok c held lru use →
  ∃ c', Erase key hash c = Some c' ∧ shard_ok c' held (others (heap_ c) key hash lru) (others (heap_ c) key hash use) ∧
    capacity_ c' = capacity_ c ∧ accounted c c' ∧ kept c c' held.
Proof.
  intros Hs. destruct (erase_ok c held lru use key hash Hs) as (T' & H' & r & HR & Hr). unfold Erase. rewrite HR. cbn [mbind option_bind]. destruct r as [e|].
  - destruct Hr as (He & Hkey & c' & HF & Hs' & Hcap & _ & Hacc & Hk). rewrite HF. cbn [mbind option_bind]. exists c'.
    assert (∀ l, (∀ x, x ∈ l → x ∈ lru ++ use) → others (heap_ c) key hash l = without e l) as Hoth.
    { intros l Hl. apply others_without; [done|]. destruct (so_table _ _ _ _ _ Hs) as (B & HB & Hj). destruct Hkey as (h & Hh & Hm1 & Hm2).
      intros x Hx (hx & Hhx & Hx1 & Hx2). apply (tb_keys _ _ _ HB x e hx h); rewrite ?Hj; try done; [by apply Hl|by rewrite Hx1, Hm1|by rewrite Hx2, Hm2]. }
    rewrite !Hoth by (intros x Hx; apply elem_of_app; tauto). split_and!; try done. eapply kept_weaken; [exact Hk|]. intros l Hl. apply elem_of_app. by left.
  - destruct Hr as (Hno & Hs' & Hacc & Hk). cbn [FinishErase mbind option_bind]. exists (with_table T' H' c). rewrite !others_out by (intros x Hx; apply Hno, elem_of_app; tauto).
    split_and!; try done. eapply kept_weaken; [exact Hk|]. intros l Hl. apply elem_of_app. by left.
Qed.

Lemma Prune_ok c held lru use : shard_ok c held lru use →
  ∃ c', Prune c = Some c' ∧ shard_ok c' held [] use ∧ capacity_ c' = capacity_ c ∧ accounted c c' ∧ kept c c' (held ++ use).
Proof.
  intros Hs. destruct (evict_loop_ok (λ _, true) (λ _ _, true) (λ _, eq_refl) (S (size (heap_ c))) c held lru use Hs (lru_size _ _ _ _ _ Hs)) as (c' & k & HL & _ & Hs' & Hcap & [Hend|Hend] & _ & Hacc & Hk); [|done].
  exists c'. rewrite Hend in *. done.
Qed.

Lemma LRUCache_new_ok capacity : ∃ c, LRUCache_new = Some c ∧ shard_ok (SetCapacity capacity c) [] [] [] ∧ deleted_ c = [] ∧ live (heap_ c) = [].
Proof.
  destruct (HandleTable_new_ok (V := V)) as (T & HT & Hok). unfold LRUCache_new. rewrite HT. cbn [mbind option_bind]. eexists. split; [done|]. split_and!; [|done|done].
  split; cbn [SetCapacity heap_ usage_ malloc_ table_]; try done.
  - refine (bool_decide_unpack _ _). by vm_compute.
  - exists (replicate 4 []). split; [|done]. eapply table_ok_frame; [exact Hok|]. intros l Hl. by apply elem_of_nil in Hl.
  - intros l h [[<- <-]|[H0 Hl]]%lookup_insert_Some; [done|]. apply lookup_insert_Some in Hl as [[<- <-]|[H1 Hl]]; [done|]. by rewrite lookup_empty in Hl.
  - intros l h [[<- <-]|[H0 Hl]]%lookup_insert_Some; [done|]. apply lookup_insert_Some in Hl as [[<- <-]|[H1 Hl]]; [done|]. by rewrite lookup_empty in Hl.
  - intros l Hl. by apply elem_of_nil in Hl.
  - intros l Hl. by apply elem_of_nil in Hl.
  - intros l [h Hl]. apply lookup_insert_Some in Hl as [[<- <-]|[H0 Hl]]; [unfold lru_, in_use_; lia|]. apply lookup_insert_Some in Hl as [[<- <-]|[H1 Hl]]; [unfold lru_, in_use_; lia|]. by rewrite lookup_empty in Hl.
Qed.

Lemma shard_perm c held held' lru use tab : held ≡ₚ held' → shard_pre c held lru use tab → shard_pre c held' lru use tab.
Proof.
  intros Hp [? ? ? ? ? He ? Hh Hi Hb ? ? ?]. split; try done.
  - intros l h. rewrite <- (cnt_perm l _ _ Hp). apply He.
  - intros l. rewrite <- Hp. apply Hh.
  - intros l. rewrite <- Hp. apply Hi.
  - intros l. rewrite <- Hp. apply Hb.
Qed.
End ops.
