(* ===== verification/CacheRun.v ===== *)
(** Runs of the sharded cache against clients that release what they hold, and
    what the cache promises them (util/cache.cc, include/leveldb/cache.h). *)
From stdpp Require Import gmap.
From S2P Require Import Prelude Env Hash HandleTable LruCache LruInvariant LruOps.

Section runs.
Context {V : Type}.
Notation LRUCache := (LRUCache (V := V)).
Notation ShardedLRUCache := (ShardedLRUCache (V := V)).
Notation shard_ok c held lru use := (shard_pre c held lru use (lru ++ use)).
Implicit Types (s : ShardedLRUCache) (c : LRUCache).

(** Handles, entries and charges stay within their machine types. *)
Definition fits (charge : Z) (held : list Handle) s : Prop :=
  Z.of_nat (length held) < 2 ^ 32 - 2 ∧ Forall (λ c, usage_ c + charge < 2 ^ 64 ∧ Z.of_nat (size (heap_ c)) < 2 ^ 31) (shard_ s).

(** The clients hold [held]; [inserted] lists the keys and values inserted. *)
Inductive cache_run (capacity : Z) : list Handle → list (list byte * option V) → ShardedLRUCache → Prop :=
  | run_new s : NewLRUCache capacity = Some s → cache_run capacity [] [] s
  | run_insert held inserted s key value charge s' h : cache_run capacity held inserted s → 0 <= charge → fits charge held s →
      sharded_Insert key value charge s = Some (s', h) → cache_run capacity (h :: held) ((key, Some value) :: inserted) s'
  | run_lookup held inserted s key s' r : cache_run capacity held inserted s → fits 0 held s →
      sharded_Lookup key s = Some (s', r) → cache_run capacity (option_list r ++ held) inserted s'
  | run_release held held' inserted s h s' : cache_run capacity held inserted s → held ≡ₚ h :: held' →
      sharded_Release h s = Some s' → cache_run capacity held' inserted s'
  | run_erase held inserted s key s' : cache_run capacity held inserted s → sharded_Erase key s = Some s' → cache_run capacity held inserted s'
  | run_prune held inserted s s' : cache_run capacity held inserted s → sharded_Prune s = Some s' → cache_run capacity held inserted s'
  | run_id held inserted s : cache_run capacity held inserted s → cache_run capacity held inserted (NewId s).1.

(** ** The invariant *)

Definition at_shard (i : nat) (held : list Handle) : list nat := (filter (λ h : Handle, h.1 = i) held).*2.

Definition accounts s : list (list byte * option V) := mjoin ((λ c, deleted_ c ++ live (heap_ c)) <$> shard_ s).

Record sharded_ok (capacity : Z) (held : list Handle) (inserted : list (list byte * option V)) s : Prop := {
  sh_length : length (shard_ s) = 16%nat;
  sh_shard i c : shard_ s !! i = Some c → capacity_ c = u64 (capacity + 15) / 16 ∧ ∃ lru use, shard_ok c (at_shard i held) lru use;
  sh_held h : h ∈ held → ∃ c e, shard_ s !! h.1 = Some c ∧ heap_ c !! h.2 = Some e ∧ Shard (h_hash e) = h.1;
  sh_accounts : accounts s ≡ₚ inserted;
}.

Lemma at_shard_elem i l held : l ∈ at_shard i held ↔ (i, l) ∈ held.
Proof.
  unfold at_shard. rewrite list_elem_of_fmap. split.
  - intros ([i' l'] & -> & [<- Hh]%list_elem_of_filter). done.
  - intros Hh. exists (i, l). split; [done|]. by apply list_elem_of_filter.
Qed.

Lemma at_shard_perm i held held' : held ≡ₚ held' → at_shard i held ≡ₚ at_shard i held'.
Proof. intros Hp. unfold at_shard. by rewrite Hp. Qed.

Lemma at_shard_cons i h held : at_shard i (h :: held) = if decide (h.1 = i) then h.2 :: at_shard i held else at_shard i held.
Proof. unfold at_shard. rewrite filter_cons. by destruct (decide (h.1 = i)). Qed.

Lemma at_shard_length i held : (length (at_shard i held) ≤ length held)%nat.
Proof. unfold at_shard. rewrite length_fmap. apply length_filter. Qed.

Lemma Shard_range key : (Shard (HashSlice key) < 16)%nat.
Proof.
  unfold Shard, HashSlice. pose proof (Hash_range key 0 ltac:(lia)). change (32 - kNumShardBits) with 28. rewrite Z.shiftr_div_pow2 by lia.
  assert (Hash key 0 / 2 ^ 28 < 16) by (apply Z.div_lt_upper_bound; lia). assert (0 <= Hash key 0 / 2 ^ 28) by (apply Z.div_pos; lia). lia.
Qed.

(** The shard of a key. *)
Lemma key_shard capacity held inserted s key : sharded_ok capacity held inserted s → ∃ c, shard_ s !! Shard (HashSlice key) = Some c.
Proof. intros Hs. apply lookup_lt_is_Some_2. rewrite (sh_length _ _ _ _ Hs). apply Shard_range. Qed.

(** An operation of one shard. *)
Lemma shard_step capacity held held' inserted inserted' s i c c' : sharded_ok capacity held inserted s → shard_ s !! i = Some c →
  capacity_ c' = capacity_ c → (∃ lru use, shard_ok c' (at_shard i held') lru use) →
  (∀ j, j ≠ i → at_shard j held' = at_shard j held ∨ at_shard j held' ≡ₚ at_shard j held) →
  (∀ l, l ∈ at_shard i held' → ∃ e, heap_ c' !! l = Some e ∧ Shard (h_hash e) = i) →
  (deleted_ c ++ live (heap_ c)) ++ inserted' ≡ₚ (deleted_ c' ++ live (heap_ c')) ++ inserted →
  sharded_ok capacity held' inserted' (set_shard i c' s).
Proof.
  intros Hs Hc Hcap Hok Hothers Hheld Hacc. assert (i < length (shard_ s))%nat as Hi by (by eapply lookup_lt_Some). split; cbn [set_shard shard_].
  - rewrite length_insert. apply Hs.
  - intros j cj. destruct (decide (j = i)) as [->|Hne].
    + rewrite list_lookup_insert_eq by done. intros [= <-]. split; [|done]. rewrite Hcap. by apply (sh_shard _ _ _ _ Hs i).
    + rewrite list_lookup_insert_ne by done. intros Hcj. destruct (sh_shard _ _ _ _ Hs j cj Hcj) as (Hcapj & lru & use & Hj). split; [done|]. exists lru, use.
      destruct (Hothers j Hne) as [->|Hp]; [done|]. eapply shard_perm; [|exact Hj]. by symmetry.
  - intros [j l] Hh. cbn [fst snd]. destruct (decide (j = i)) as [->|Hne].
    + rewrite list_lookup_insert_eq by done. destruct (Hheld l) as (e & He & Hsh); [by apply at_shard_elem|]. by exists c', e.
    + rewrite list_lookup_insert_ne by done. apply (sh_held _ _ _ _ Hs (j, l)). apply at_shard_elem. apply at_shard_elem in Hh.
      destruct (Hothers j Hne) as [Heq|Hp]; [by rewrite <- Heq|by rewrite <- Hp].
  - assert (∃ rest, accounts s ≡ₚ (deleted_ c ++ live (heap_ c)) ++ rest ∧ accounts (set_shard i c' s) ≡ₚ (deleted_ c' ++ live (heap_ c')) ++ rest) as (rest & Ha & Ha').
    { exists (mjoin ((λ c, deleted_ c ++ live (heap_ c)) <$> take i (shard_ s)) ++ mjoin ((λ c, deleted_ c ++ live (heap_ c)) <$> drop (S i) (shard_ s))).
      unfold accounts. cbn [set_shard shard_]. rewrite insert_take_drop by done. rewrite <- (take_drop_middle (shard_ s) i c Hc) at 1.
      rewrite !fmap_app, !join_app. cbn [fmap list_fmap]. split; (rewrite Permutation_app_swap_app; done). }
    change (accounts (set_shard i c' s) ≡ₚ inserted'). rewrite Ha'. pose proof (sh_accounts _ _ _ _ Hs) as Hall. rewrite Ha in Hall. rewrite <- Hall in Hacc.
    apply (Permutation_app_inv_l (deleted_ c ++ live (heap_ c))). rewrite Hacc. by rewrite Permutation_app_swap_app.
Qed.
(** ** The operations *)

Lemma kept_hash (c c' : LRUCache) (ls : list nat) l e i : kept c c' ls → l ∈ ls → heap_ c !! l = Some e → Shard (h_hash e) = i → ∃ e', heap_ c' !! l = Some e' ∧ Shard (h_hash e') = i.
Proof.
  intros Hk Hl He Hi. specialize (Hk l Hl). rewrite He in Hk. destruct (heap_ c' !! l) as [e'|]; [|done]. exists e'. split; [done|]. injection Hk as Hh. congruence.
Qed.

Lemma held_entry capacity held inserted s i c l : sharded_ok capacity held inserted s → shard_ s !! i = Some c → l ∈ at_shard i held →
  ∃ e, heap_ c !! l = Some e ∧ Shard (h_hash e) = i.
Proof.
  intros Hs Hc Hl. apply at_shard_elem in Hl. destruct (sh_held _ _ _ _ Hs _ Hl) as (c' & e & Hc' & He & Hi). cbn in *. assert (c' = c) as -> by congruence. by exists e.
Qed.

Lemma cached_size c held lru use tab : shard_pre c held lru use tab → (length (lru ++ use) ≤ size (heap_ c))%nat.
Proof.
  intros Hs. pose proof (so_nodup _ _ _ _ _ Hs) as [_ [_ Hnd]%NoDup_cons]%NoDup_cons. rewrite <- (size_list_to_set (C := gset nat) (lru ++ use)), <- size_dom by done.
  apply subseteq_size. intros l. rewrite elem_of_list_to_set, elem_of_dom. intros Hl. by eapply so_cached.
Qed.

Lemma sharded_Insert_ok capacity held inserted s key value charge : sharded_ok capacity held inserted s → 0 <= charge → fits charge held s →
  ∃ s' h, sharded_Insert key value charge s = Some (s', h) ∧ sharded_ok capacity (h :: held) ((key, Some value) :: inserted) s'.
Proof.
  intros Hs Hch [_ Hfit]. destruct (key_shard _ _ _ _ key Hs) as [c Hc]. set (hash := HashSlice key) in *. set (i := Shard hash) in *.
  destruct (sh_shard _ _ _ _ Hs i c Hc) as (Hcap & lru & use & Hok). pose proof (proj1 (Forall_lookup _ _) Hfit i c Hc) as [Hu Hn]. pose proof (cached_size _ _ _ _ _ Hok).
  destruct (Insert_ok c (at_shard i held) lru use key hash value charge Hok Hch Hu ltac:(lia)) as (c' & k & e & HI & Hnew & Hok' & Hcap' & _ & _ & He & _ & _ & _ & Hhash & Hacc & Hk).
  unfold sharded_Insert. fold hash i. rewrite Hc. cbn [mbind option_bind]. rewrite HI. cbn [mbind option_bind]. eexists _, _. split; [done|].
  eapply shard_step; try done.
  - rewrite at_shard_cons, decide_True by done. eauto.
  - intros j Hj. left. rewrite at_shard_cons, decide_False by (cbn; congruence). done.
  - intros l. rewrite at_shard_cons, decide_True by done. intros [->|Hl]%elem_of_cons; [exists e; split; [done|unfold i; congruence]|].
    destruct (held_entry _ _ _ _ _ _ _ Hs Hc Hl) as (el & Hel & Hil). eapply kept_hash; try done. apply elem_of_app. by left.
  - rewrite Hacc. cbn [app]. symmetry. apply Permutation_middle.
Qed.

Lemma sharded_Lookup_ok capacity held inserted s key : sharded_ok capacity held inserted s → fits 0 held s →
  ∃ s' r, sharded_Lookup key s = Some (s', r) ∧ sharded_ok capacity (option_list r ++ held) inserted s' ∧
    (∀ h, r = Some h → ∃ e, handle_at h s' = Some e ∧ h_key e = key).
Proof.
  intros Hs [Hlen _]. destruct (key_shard _ _ _ _ key Hs) as [c Hc]. set (hash := HashSlice key) in *. set (i := Shard hash) in *.
  destruct (sh_shard _ _ _ _ Hs i c Hc) as (Hcap & lru & use & Hok). pose proof (at_shard_length i held).
  destruct (Lookup_ok c (at_shard i held) lru use key hash Hok ltac:(lia)) as (c' & r & HL & Hr). unfold sharded_Lookup. fold hash i. rewrite Hc. cbn [mbind option_bind]. rewrite HL. cbn [mbind option_bind].
  eexists _, _. split; [done|]. destruct r as [l|]; cbn [option_map]; [change (option_list (Some (i, l)) ++ held) with ((i, l) :: held)|change (option_list (None : option Handle) ++ held) with held].
  - destruct Hr as (_ & (e & He & Hm) & Hq & use' & Hok' & _). pose proof (quiet_kept c c' (l :: at_shard i held) Hq) as Hk. split.
    + eapply shard_step; try done.
      * apply Hq.
      * rewrite at_shard_cons, decide_True by done. eauto.
      * intros j Hj. left. rewrite at_shard_cons, decide_False by (cbn; congruence). done.
      * intros x. rewrite at_shard_cons, decide_True by done. intros Hx. cbn [snd] in Hx. pose proof Hx as [->|Hx']%elem_of_cons.
        -- eapply kept_hash; try done. unfold i. by destruct Hm as [_ ->].
        -- destruct (held_entry _ _ _ _ _ _ _ Hs Hc Hx') as (el & Hel & Hil). by eapply kept_hash.
      * apply Permutation_app_tail. symmetry. exact (quiet_accounted _ _ Hq).
    + intros h [= <-]. unfold handle_at. cbn [fst snd set_shard shard_]. rewrite list_lookup_insert_eq by (by eapply lookup_lt_Some). cbn [mbind option_bind].
      specialize (Hk l ltac:(left)). rewrite He in Hk. destruct (heap_ c' !! l) as [e'|]; [|done]. exists e'. split; [done|]. destruct Hm as [<- _]. by injection Hk.
  - destruct Hr as [-> _]. split; [|done]. eapply shard_step; try done; [eauto|by left|intros l Hl; by eapply held_entry].
Qed.

Lemma sharded_Release_ok capacity held held' inserted s h : sharded_ok capacity held inserted s → held ≡ₚ h :: held' →
  ∃ s', sharded_Release h s = Some s' ∧ sharded_ok capacity held' inserted s'.
Proof.
  intros Hs Hp. destruct (sh_held _ _ _ _ Hs h) as (c & e & Hc & He & Hi); [rewrite Hp; left|]. destruct h as [i l]. cbn [fst snd] in *.
  destruct (sh_shard _ _ _ _ Hs i c Hc) as (Hcap & lru & use & Hok). pose proof (at_shard_perm i _ _ Hp) as Hpi. rewrite at_shard_cons, decide_True in Hpi by done. cbn [snd] in Hpi.
  apply (shard_perm _ _ _ _ _ _ Hpi) in Hok. destruct (Unref_ok _ _ _ _ _ l Hok) as (c' & lru' & use' & HU & Hok' & Hlists & Hcap' & _ & Hacc & Hk & _).
  unfold sharded_Release, handle_at. cbn [fst snd]. rewrite Hc. cbn [mbind option_bind]. rewrite He. cbn [mbind option_bind]. rewrite Hi, Nat.eqb_refl, Hc. cbn [negb mbind option_bind].
  unfold Release. rewrite HU. cbn [mbind option_bind]. eexists. split; [done|]. eapply shard_step; try done.
  - exists lru', use'. apply (shard_tab _ _ _ _ _ _ Hok'). by rewrite Hlists.
  - intros j Hj. right. symmetry. rewrite (at_shard_perm j _ _ Hp), at_shard_cons, decide_False by (cbn; congruence). done.
  - intros x Hx. destruct (held_entry _ _ _ _ i c x Hs Hc) as (ex & Hex & Hix); [rewrite Hpi; by right|]. eapply kept_hash; try done. apply elem_of_app. by left.
  - apply Permutation_app_tail. symmetry. exact Hacc.
Qed.

Lemma sharded_Erase_ok capacity held inserted s key : sharded_ok capacity held inserted s → ∃ s', sharded_Erase key s = Some s' ∧ sharded_ok capacity held inserted s'.
Proof.
  intros Hs. destruct (key_shard _ _ _ _ key Hs) as [c Hc]. set (hash := HashSlice key) in *. set (i := Shard hash) in *.
  destruct (sh_shard _ _ _ _ Hs i c Hc) as (Hcap & lru & use & Hok). destruct (Erase_ok c _ lru use key hash Hok) as (c' & HE & Hok' & Hcap' & Hacc & Hk).
  unfold sharded_Erase. fold hash i. rewrite Hc. cbn [mbind option_bind]. rewrite HE. cbn [mbind option_bind]. eexists. split; [done|]. eapply shard_step; try done; [eauto|by left| |apply Permutation_app_tail; symmetry; exact Hacc].
  intros l Hl. destruct (held_entry _ _ _ _ _ _ _ Hs Hc Hl) as (el & Hel & Hil). by eapply kept_hash.
Qed.

Lemma sharded_Prune_ok capacity held inserted s : sharded_ok capacity held inserted s → ∃ s', sharded_Prune s = Some s' ∧ sharded_ok capacity held inserted s'.
Proof.
  intros Hs. assert (∀ i c, shard_ s !! i = Some c → ∃ c', Prune c = Some c' ∧ capacity_ c' = capacity_ c ∧ (∃ use, shard_ok c' (at_shard i held) [] use) ∧ accounted c c' ∧ kept c c' (at_shard i held)) as Hall.
  { intros i c Hc. destruct (sh_shard _ _ _ _ Hs i c Hc) as (_ & lru & use & Hok). destruct (Prune_ok c _ lru use Hok) as (c' & HP & Hok' & Hcap & Hacc & Hk). exists c'. split_and!; eauto.
    eapply kept_weaken; [exact Hk|]. intros l Hl. apply elem_of_app. by left. }
  assert (is_Some (mapM Prune (shard_ s))) as [shards HM].
  { apply mapM_is_Some, Forall_lookup. intros i c Hc. destruct (Hall i c Hc) as (c' & HP & _). exists c'. exact HP. }
  unfold sharded_Prune. rewrite HM. cbn [mbind option_bind]. eexists. split; [done|]. apply mapM_Some in HM.
  assert (∀ i c', shards !! i = Some c' → ∃ c, shard_ s !! i = Some c ∧ Prune c = Some c') as Hback by (intros i c' Hc'; exact (Forall2_lookup_r _ _ _ _ _ HM Hc')).
  split; cbn [shard_].
  - rewrite <- (Forall2_length _ _ _ HM). apply Hs.
  - intros i c' Hc'. destruct (Hback i c' Hc') as (c & Hc & HP). destruct (Hall i c Hc) as (c2 & HP2 & Hcap & (use & Hok) & _). assert (c2 = c') as -> by congruence.
    rewrite Hcap. split; [by apply (sh_shard _ _ _ _ Hs i)|by exists [], use].
  - intros [i l] Hh. destruct (sh_held _ _ _ _ Hs _ Hh) as (c & e & Hc & He & Hi). cbn [fst snd] in *. destruct (Hall i c Hc) as (c' & HP & _ & _ & _ & Hk).
    destruct (Forall2_lookup_l _ _ _ _ _ HM Hc) as (c2 & Hc2 & HP2). cbn beta in HP2. assert (c2 = c') as -> by congruence. destruct (kept_hash c c' _ l e i Hk) as (e' & He' & Hi'); try done; [by apply at_shard_elem|]. by exists c', e'.
  - etrans; [|apply (sh_accounts _ _ _ _ Hs)]. unfold accounts. cbn [shard_]. assert (Forall2 (λ c c', accounted c c') (shard_ s) shards) as HF.
    { apply Forall2_same_length_lookup. split; [by eapply Forall2_length|]. intros i c c' Hc Hc'. destruct (Hall i c Hc) as (c2 & HP & _ & _ & Hacc & _).
      pose proof (Forall2_lookup_lr _ _ _ _ _ _ HM Hc Hc') as HP'. cbn beta in HP'. by assert (c2 = c') as -> by congruence. }
    clear -HF. induction HF as [|c c' l l' Hacc _ IH]; [done|]. cbn. unfold accounted in Hacc. rewrite Hacc. apply Permutation_app_head. exact IH.
Qed.

Lemma NewLRUCache_ok capacity : ∃ s, NewLRUCache capacity = Some s ∧ sharded_ok capacity [] [] s.
Proof.
  destruct (LRUCache_new_ok (V := V) (u64 (capacity + 15) / 16)) as (c & Hc & Hok & Hd & Hl). unfold NewLRUCache. rewrite Hc. cbn [mbind option_bind]. eexists. split; [done|].
  change kNumShards with 16%nat. split; cbn [shard_].
  - apply length_replicate.
  - intros i c' [-> _]%lookup_replicate_1. split; [done|]. by exists [], [].
  - intros h Hh. by apply elem_of_nil in Hh.
  - unfold accounts. cbn [shard_ replicate fmap list_fmap]. cbn [SetCapacity deleted_ heap_]. by rewrite Hd, Hl.
Qed.

Lemma cache_run_ok capacity held inserted s : cache_run capacity held inserted s → sharded_ok capacity held inserted s.
Proof.
  induction 1 as [s Hn|held inserted s key value charge s' h _ IH Hch Hfit HI|held inserted s key s' r _ IH Hfit HL|held held' inserted s h s' _ IH Hp HR|held inserted s key s' _ IH HE|held inserted s s' _ IH HP|held inserted s _ IH].
  - destruct (NewLRUCache_ok capacity) as (s0 & Hn0 & Hok). congruence.
  - destruct (sharded_Insert_ok _ _ _ _ key value charge IH Hch Hfit) as (s0 & h0 & HI0 & Hok). congruence.
  - destruct (sharded_Lookup_ok _ _ _ _ key IH Hfit) as (s0 & r0 & HL0 & Hok & _). congruence.
  - destruct (sharded_Release_ok _ _ _ _ _ h IH Hp) as (s0 & HR0 & Hok). congruence.
  - destruct (sharded_Erase_ok _ _ _ _ key IH) as (s0 & HE0 & Hok). congruence.
  - destruct (sharded_Prune_ok _ _ _ _ IH) as (s0 & HP0 & Hok). congruence.
  - by destruct IH.
Qed.
(** ** Claims *)

Lemma live_elem (H : gmap nat (LRUHandle (V := V))) l e : H !! l = Some e → l ≠ lru_ → l ≠ in_use_ → pair_of e ∈ live H.
Proof. intros Hl H0 H1. rewrite (live_delete H l e H0 H1 Hl). left. Qed.

Definition deleted_values s : list (list byte * option V) := mjoin (deleted_ <$> shard_ s).
Definition live_values s : list (list byte * option V) := mjoin ((λ c, live (heap_ c)) <$> shard_ s).

Lemma accounts_split s : accounts s ≡ₚ deleted_values s ++ live_values s.
Proof.
  unfold accounts, deleted_values, live_values. induction (shard_ s) as [|c l IH]; [done|]. cbn [fmap list_fmap].
  change (mjoin ((deleted_ c ++ live (heap_ c)) :: ((λ c, deleted_ c ++ live (heap_ c)) <$> l)) ≡ₚ (deleted_ c ++ mjoin (deleted_ <$> l)) ++ live (heap_ c) ++ mjoin ((λ c, live (heap_ c)) <$> l)).
  change (mjoin ((deleted_ c ++ live (heap_ c)) :: ((λ c, deleted_ c ++ live (heap_ c)) <$> l))) with ((deleted_ c ++ live (heap_ c)) ++ mjoin ((λ c, deleted_ c ++ live (heap_ c)) <$> l)).
  rewrite IH, <- !(assoc_L (++)). apply Permutation_app_head. apply Permutation_app_swap_app.
Qed.

(** C35: handles are safe.  In every run in which clients release only what they
    hold, no operation fails an assertion or runs forever; the handles a client
    holds are not freed and carry a key and value that were inserted; and every
    inserted value is either live or was given to its deleter exactly once. *)
Theorem cache_handles_safe capacity held inserted s : cache_run capacity held inserted s →
  (∀ h, h ∈ held → is_Some (sharded_Release h s) ∧ ∃ e, handle_at h s = Some e ∧ (h_key e, h_value e) ∈ live_values s) ∧
  (∀ key, is_Some (sharded_Erase key s)) ∧ is_Some (sharded_Prune s) ∧ (∀ key, fits 0 held s → is_Some (sharded_Lookup key s)) ∧
  (∀ key value charge, 0 <= charge → fits charge held s → is_Some (sharded_Insert key value charge s)) ∧
  deleted_values s ++ live_values s ≡ₚ inserted.
Proof.
  intros Hs%cache_run_ok. split_and!.
  - intros h Hh. split.
    + apply elem_of_Permutation in Hh as (held' & Hp). destruct (sharded_Release_ok _ _ _ _ _ h Hs Hp) as (s' & -> & _). eauto.
    + destruct (sh_held _ _ _ _ Hs h Hh) as (c & e & Hc & He & _). exists e. unfold handle_at. rewrite Hc. cbn [mbind option_bind]. split; [done|].
      destruct (sh_shard _ _ _ _ Hs h.1 c Hc) as (_ & lru & use & Hok). destruct (so_held _ _ _ _ _ Hok h.2) as (H0 & H1 & _); [apply at_shard_elem; by destruct h|].
      apply list_elem_of_join. exists (live (heap_ c)). split; [by apply (live_elem _ h.2)|]. apply list_elem_of_fmap. exists c. split; [done|]. by apply list_elem_of_lookup_2 in Hc.
  - intros key. destruct (sharded_Erase_ok _ _ _ _ key Hs) as (s' & -> & _). eauto.
  - destruct (sharded_Prune_ok _ _ _ _ Hs) as (s' & -> & _). eauto.
  - intros key Hf. destruct (sharded_Lookup_ok _ _ _ _ key Hs Hf) as (s' & r & -> & _). eauto.
  - intros key value charge Hch Hf. destruct (sharded_Insert_ok _ _ _ _ key value charge Hs Hch Hf) as (s' & h & -> & _). eauto.
  - rewrite <- accounts_split. apply Hs.
Qed.

(** C34: the cache stays within its capacity.  After an insertion into a cache with
    a positive capacity the new entry is found by its key, and the shard's charge,
    the sum over its entries, is at most the shard's capacity unless every entry is
    held by a client; the entries removed are the one with the same key and the
    least recently used unheld ones, no more of them than needed. *)
Theorem cache_charge_bounded capacity held inserted s key value charge : cache_run capacity held inserted s → 0 < capacity < 2 ^ 64 - 15 → 0 <= charge → fits charge held s →
  let hash := HashSlice key in let per_shard := (capacity + 15) / 16 in
  ∃ s' h c c' lru use k, sharded_Insert key value charge s = Some (s', h) ∧
    shard_ s !! h.1 = Some c ∧ ring (heap_ c) lru_ lru ∧ ring (heap_ c) in_use_ use ∧ shard_ s' !! h.1 = Some c' ∧
    let lru' := drop k (others (heap_ c) key hash lru) in let use' := others (heap_ c) key hash use in
    ring (heap_ c') lru_ lru' ∧ ring (heap_ c') in_use_ (use' ++ [h.2]) ∧ Forall (λ l, (h.1, l) ∈ h :: held) (use' ++ [h.2]) ∧
    TotalCharge c' = total (heap_ c') (lru' ++ use' ++ [h.2]) ∧ (TotalCharge c' <= per_shard ∨ lru' = []) ∧
    (∀ j, (j < k)%nat → per_shard < total (heap_ c) (drop j (others (heap_ c) key hash lru) ++ use') + charge) ∧
    (fits 0 (h :: held) s' → ∃ s'', sharded_Lookup key s' = Some (s'', Some h)).
Proof.
  intros Hs%cache_run_ok Hcapacity Hch Hf hash per_shard. pose proof Hf as [_ Hfit]. destruct (key_shard _ _ _ _ key Hs) as [c Hc]. set (i := Shard (HashSlice key)) in *.
  destruct (sh_shard _ _ _ _ Hs i c Hc) as (Hcap & lru & use & Hok). pose proof (proj1 (Forall_lookup _ _) Hfit i c Hc) as [Hu Hn]. pose proof (cached_size _ _ _ _ _ Hok).
  destruct (sharded_Insert_ok _ _ _ _ key value charge Hs Hch Hf) as (s' & h & HI' & Hs'). pose proof HI' as HI2. unfold sharded_Insert in HI2. fold i in HI2. rewrite Hc in HI2. cbn [mbind option_bind] in HI2.
  destruct (Insert_ok c (at_shard i held) lru use key hash value charge Hok Hch Hu ltac:(lia)) as (c' & k & e & HI & Hnew & Hok' & Hcap' & Hend & Hmin & He & Hkey & _ & _ & Hhash & _ & _).
  fold hash in HI2. rewrite HI in HI2. cbn [mbind option_bind] in HI2. injection HI2 as <- <-.
  assert (capacity_ c = per_shard) as Hps by (rewrite Hcap; unfold per_shard; rewrite u64_small; lia). assert (0 < per_shard) as Hpos by (unfold per_shard; apply Z.div_str_pos; lia).
  assert ((0 <? capacity_ c) = true) as Hon by (rewrite Hps; by apply Z.ltb_lt). rewrite Hon in Hok', Hend, Hmin. rewrite Hps in Hend, Hmin.
  assert (shard_ (set_shard i c' s) !! i = Some c') as Hc' by (cbn; apply list_lookup_insert_eq; by eapply lookup_lt_Some).
  eexists (set_shard i c' s), (i, malloc_ c), c, c', lru, use, k. cbn [fst snd]. split_and!; try done; try apply Hok; try apply Hok'.
  - apply Forall_forall. intros l Hl. apply (so_busy _ _ _ _ _ Hok') in Hl. apply at_shard_elem. rewrite at_shard_cons, decide_True by done. done.
  - destruct Hend as [?|Hend]; [by right|by left].
  - intros Hf'. destruct Hf' as [Hlen _]. pose proof (at_shard_length i ((i, malloc_ c) :: held)). destruct (Lookup_ok c' (malloc_ c :: at_shard i held) _ _ key hash Hok') as (c2 & r & HL & Hr).
    { rewrite at_shard_cons, decide_True in H0 by done. eapply Z.le_lt_trans; [|exact Hlen]. by apply inj_le. }
    unfold sharded_Lookup. cbn zeta. change (Shard (HashSlice key)) with i. change (HashSlice key) with hash. rewrite Hc'. cbn [mbind option_bind]. rewrite HL. cbn [mbind option_bind].
    assert (r = Some (malloc_ c)) as ->; [|eauto]. assert (malloc_ c ∈ drop k (others (heap_ c) key hash lru) ++ others (heap_ c) key hash use ++ [malloc_ c]) as Hin by (rewrite !elem_of_app; right; right; left).
    destruct r as [e'|]; [|destruct Hr as [_ Hr]; exfalso; apply (Hr _ Hin); by exists e]. destruct Hr as (Hin' & (h' & Hh' & Hm1 & Hm2) & _). f_equal.
    destruct (so_table _ _ _ _ _ Hok') as (B & HB & Hj). apply (tb_keys _ _ _ HB e' (malloc_ c) h' e); rewrite ?Hj; try done; congruence.
Qed.
End runs.

(** ** Examples *)

Lemma example_fits (s : ShardedLRUCache (V := Z)) : NewLRUCache 32 = Some s → fits 1 [] s.
Proof. intros Hs. vm_compute in Hs. injection Hs as <-. split; [done|]. repeat (constructor; [split; vm_compute; reflexivity|]). constructor. Qed.

Lemma cache_handles_safe_witness : ∃ (s s' : ShardedLRUCache (V := Z)) h, NewLRUCache 32 = Some s ∧ sharded_Insert (str "a") 7 1 s = Some (s', h) ∧
  is_Some (sharded_Release h s') ∧ deleted_values s' ++ live_values s' ≡ₚ [(str "a", Some 7)].
Proof.
  destruct (NewLRUCache_ok (V := Z) 32) as (s & Hs & Hok). pose proof (example_fits s Hs) as Hf.
  destruct (sharded_Insert_ok 32 [] [] s (str "a") 7 1 Hok ltac:(lia) Hf) as (s' & h & HI & _).
  destruct (cache_handles_safe 32 [h] [(str "a", Some 7)] s') as (Hheld & _ & _ & _ & _ & Hacc).
  { apply (run_insert 32 [] [] s (str "a") 7 1 s' h); [by apply run_new|lia|exact Hf|exact HI]. }
  exists s, s', h. split; [exact Hs|]. split; [exact HI|]. split; [|exact Hacc]. apply Hheld. left.
Defined.

Lemma cache_charge_bounded_witness : ∃ (s s' : ShardedLRUCache (V := Z)) h c', NewLRUCache 32 = Some s ∧ sharded_Insert (str "a") 7 1 s = Some (s', h) ∧
  shard_ s' !! h.1 = Some c' ∧ (TotalCharge c' <= 2 ∨ ring (heap_ c') lru_ []).
Proof.
  destruct (NewLRUCache_ok (V := Z) 32) as (s & Hs & Hok). pose proof (example_fits s Hs) as Hf.
  destruct (cache_charge_bounded 32 [] [] s (str "a") 7 1 (run_new 32 s Hs) ltac:(lia) ltac:(lia) Hf) as (s' & h & c & c' & lru & use & k & HI & _ & _ & _ & Hc' & Hr & _ & _ & _ & Hend & _).
  exists s, s', h, c'. split; [exact Hs|]. split; [exact HI|]. split; [exact Hc'|]. destruct Hend as [Hend|Hend]; [by left|right]. by rewrite Hend in Hr.
Defined.
