(* ===== verification/CacheEntries.v ===== *)
(** The entries of a sharded cache whose deleters have run: lookups of absent keys,
    insertions that may evict, and releases (util/cache.cc). *)
From stdpp Require Import gmap.
From S2P Require Import Prelude Hash HandleTable LruCache LruInvariant LruOps CacheRun.

Section entries.
Context {V : Type}.
Notation LRUCache := (LRUCache (V := V)).
Notation ShardedLRUCache := (ShardedLRUCache (V := V)).
Notation shard_ok c held lru use := (shard_pre c held lru use (lru ++ use)).
Implicit Types (s : ShardedLRUCache) (c : LRUCache).

Lemma heads_live c held lru use tab : shard_pre c held lru use tab → ∀ l, l ∈ lru_ :: in_use_ :: lru ++ use → is_Some (heap_ c !! l).
Proof.
  intros Hs l [->|[->|Hl]%elem_of_cons]%elem_of_cons; [apply (ring_live _ _ _ lru_ (so_lru _ _ _ _ _ Hs)); left|apply (ring_live _ _ _ in_use_ (so_use _ _ _ _ _ Hs)); left|].
  by eapply so_cached.
Qed.

Lemma live_size c held lru use tab : shard_pre c held lru use tab → size (heap_ c) = (2 + length (live (heap_ c)))%nat.
Proof.
  intros Hs. pose proof (heads_live _ _ _ _ _ Hs) as Hl. destruct (Hl lru_) as [h0 H0]; [left|]. destruct (Hl in_use_) as [h1 H1]; [right; left|].
  unfold live. rewrite length_fmap, length_map_to_list, map_size_fmap.
  rewrite map_size_delete, lookup_delete_ne, H1, map_size_delete, H0 by done.
  assert (2 ≤ size (heap_ c))%nat; [|lia]. rewrite <- size_dom. transitivity (size ({[lru_; in_use_]} : gset nat)); [done|].
  apply subseteq_size. intros l. rewrite elem_of_union, !elem_of_singleton, elem_of_dom. intros [->| ->]; eauto.
Qed.

Lemma shard_live s i c : shard_ s !! i = Some c → ∃ rest, live_values s ≡ₚ live (heap_ c) ++ rest.
Proof.
  intros Hc. exists (mjoin ((λ c, live (heap_ c)) <$> take i (shard_ s)) ++ mjoin ((λ c, live (heap_ c)) <$> drop (S i) (shard_ s))).
  unfold live_values. rewrite <- (take_drop_middle (shard_ s) i c Hc) at 1. rewrite fmap_app, join_app. cbn [fmap list_fmap]. apply Permutation_app_swap_app.
Qed.

Lemma live_value s i c l e : shard_ s !! i = Some c → heap_ c !! l = Some e → l ≠ lru_ → l ≠ in_use_ → pair_of e ∈ live_values s.
Proof. intros Hc He H0 H1. destruct (shard_live s i c Hc) as (rest & ->). apply elem_of_app. left. by apply (live_elem _ l). Qed.

(** Every shard's charge is within its capacity: so it is between operations of
    clients that hold at most one entry of charge 1. *)
Definition within s : Prop := Forall (λ c, usage_ c <= capacity_ c) (shard_ s).

(** The cache once the deleters called so far have returned. *)
Definition quieted s : ShardedLRUCache :=
  {| shard_ := (λ c, {| capacity_ := capacity_ c; usage_ := usage_ c; heap_ := heap_ c; malloc_ := malloc_ c; table_ := table_ c; deleted_ := [] |}) <$> shard_ s;
     last_id_ := last_id_ s |}.

Lemma quieted_live s : live_values (quieted s) = live_values s.
Proof. unfold live_values, quieted. cbn [shard_]. rewrite <- list_fmap_compose. done. Qed.

Lemma quieted_deleted s : deleted_values (quieted s) = [].
Proof. unfold deleted_values, quieted. cbn [shard_]. induction (shard_ s) as [|c l IH]; [done|]. by cbn in *. Qed.

Lemma quieted_within s : within s → within (quieted s).
Proof. intros Hw. by apply Forall_fmap. Qed.

Lemma quieted_value h s : LruCache.Value h (quieted s) = LruCache.Value h s.
Proof. unfold LruCache.Value, handle_at, quieted. cbn [shard_]. rewrite list_lookup_fmap. by destruct (shard_ s !! h.1). Qed.

Lemma quieted_ok capacity held inserted s : sharded_ok capacity held inserted s → sharded_ok capacity held (live_values s) (quieted s).
Proof.
  intros [Hlen Hsh Hheld Hacc]. split; cbn [quieted shard_].
  - by rewrite length_fmap.
  - intros i c (c0 & -> & Hc0)%list_lookup_fmap_Some. cbn [capacity_]. destruct (Hsh i c0 Hc0) as (Hcap & lru & use & Hok). split; [done|]. exists lru, use.
    destruct Hok. by split.
  - intros h Hh. destruct (Hheld h Hh) as (c & e & Hc & He & Hi). rewrite list_lookup_fmap, Hc. eexists _, e. split_and!; done.
  - rewrite accounts_split, quieted_deleted, quieted_live. done.
Qed.

Lemma entries_fit capacity inserted s : sharded_ok capacity [] inserted s → within s → 0 <= capacity < 2 ^ 64 - 15 → Z.of_nat (length (live_values s)) < 2 ^ 31 - 2 → fits 1 [] s.
Proof.
  intros Hs Hw Hcap Hn. split; [done|]. apply Forall_lookup. intros i c Hc. destruct (sh_shard _ _ _ _ Hs i c Hc) as (Hcc & lru & use & Hok).
  pose proof (live_size _ _ _ _ _ Hok). destruct (shard_live s i c Hc) as (rest & Hp). apply Permutation_length in Hp. rewrite length_app in Hp.
  pose proof (proj1 (Forall_lookup _ _) Hw i c Hc) as Hu. cbn beta in Hu. rewrite u64_small in Hcc by lia.
  assert ((capacity + 15) / 16 < 2 ^ 63) by (apply Z.div_lt_upper_bound; lia). lia.
Qed.

Lemma lookup_absent capacity inserted key s : sharded_ok capacity [] inserted s → key ∉ (live_values s).*1 → sharded_Lookup key s = Some (s, None).
Proof.
  intros Hs Hk. destruct (key_shard _ _ _ _ key Hs) as [c Hc]. unfold sharded_Lookup. rewrite Hc. cbn [mbind option_bind].
  destruct (sh_shard _ _ _ _ Hs _ c Hc) as (_ & lru & use & Hok).
  destruct (Lookup_ok c _ lru use key (HashSlice key) Hok ltac:(done)) as (c' & r & -> & Hx). destruct r as [l|].
  - exfalso. destruct Hx as (Hl & (h & Hh & Hm & _) & _). destruct (so_cached _ _ _ _ _ l Hok Hl) as (H0 & H1 & _). apply Hk.
    apply list_elem_of_fmap. exists (pair_of h). split; [by rewrite <- Hm|]. by eapply live_value.
  - destruct Hx as [-> _]. cbn. unfold set_shard. rewrite list_insert_id by done. by destruct s.
Qed.

Lemma insert_within capacity inserted key value s s' h : sharded_ok capacity [] inserted s → within s → 0 < capacity < 2 ^ 64 - 15 → fits 1 [] s →
  sharded_Insert key value 1 s = Some (s', h) → within s' ∧ LruCache.Value h s' = Some (Some value) ∧ (key, Some value) ∈ live_values s'.
Proof.
  intros Hs Hw Hcap [_ Hf] HI. destruct (key_shard _ _ _ _ key Hs) as [c Hc]. unfold sharded_Insert in HI. rewrite Hc in HI. cbn [mbind option_bind] in HI. set (i := Shard (HashSlice key)) in *.
  destruct (sh_shard _ _ _ _ Hs i c Hc) as (Hcc & lru & use & Hok). pose proof (proj1 (Forall_lookup _ _) Hf i c Hc) as [Hu Hn]. pose proof (cached_size _ _ _ _ _ Hok).
  rewrite u64_small in Hcc by lia. assert (0 < (capacity + 15) / 16) as Hpos by (apply Z.div_str_pos; lia).
  destruct (Insert_ok c _ lru use key (HashSlice key) value 1 Hok ltac:(lia) Hu ltac:(lia)) as (c' & k & e & HI' & Hnew & Hok' & Hcap' & Hend & _ & He & Hkey & Hv & Hch & _ & Hacc & _).
  rewrite HI' in HI. cbn [mbind option_bind] in HI. injection HI as <- <-. rewrite (proj2 (Z.ltb_lt 0 (capacity_ c))) in Hok', Hend by lia.
  assert (i < length (shard_ s))%nat as Hi by (by eapply lookup_lt_Some). assert (shard_ (set_shard i c' s) !! i = Some c') as Hci by (by apply list_lookup_insert_eq). split_and!.
  - apply Forall_insert; [done|]. destruct Hend as [Hend|Hend]; [|by rewrite Hcap']. assert (others (heap_ c) key (HashSlice key) use = []) as Huse.
    { destruct use as [|l use]; [done|]. exfalso. pose proof (so_busy _ _ _ _ _ Hok l ltac:(left)) as Hb. by apply elem_of_nil in Hb. }
    rewrite (so_usage _ _ _ _ _ Hok'), Hend, Huse. cbn [app total foldr]. unfold charge_of. rewrite He. cbn [from_option]. rewrite Hch. lia.
  - unfold LruCache.Value, handle_at. cbn [fst snd]. rewrite Hci. cbn [mbind option_bind]. rewrite He. cbn. by rewrite Hv.
  - destruct (so_held _ _ _ _ _ Hok' (malloc_ c)) as (H0 & H1 & _); [left|]. replace (key, Some value) with (pair_of e) by (unfold pair_of; by rewrite Hkey, Hv). by eapply live_value.
Qed.

(** An insertion: the entries before it and the new one are all still cached or have
    been given to their deleters, the new one being cached. *)
Lemma insert_entry capacity inserted key value s : sharded_ok capacity [] inserted s → within s → 0 < capacity < 2 ^ 64 - 15 → Z.of_nat (length (live_values s)) < 2 ^ 31 - 2 →
  ∃ s' h, sharded_Insert key value 1 s = Some (s', h) ∧ sharded_ok capacity [h] ((key, Some value) :: inserted) s' ∧ within s' ∧
    LruCache.Value h s' = Some (Some value) ∧ (key, Some value) ∈ live_values s' ∧ deleted_values s' ++ live_values s' ≡ₚ (key, Some value) :: inserted.
Proof.
  intros Hs Hw Hcap Hn. pose proof (entries_fit _ _ _ Hs Hw ltac:(lia) Hn) as Hf. destruct (sharded_Insert_ok _ _ _ _ key value 1 Hs ltac:(lia) Hf) as (s' & h & HI & Hs').
  destruct (insert_within _ _ _ _ _ _ _ Hs Hw Hcap Hf HI) as (Hw' & Hv & Hin). exists s', h. split_and!; try done. rewrite <- accounts_split. apply Hs'.
Qed.

Lemma release_entry capacity held inserted h s : sharded_ok capacity (h :: held) inserted s → within s →
  ∃ s', sharded_Release h s = Some s' ∧ sharded_ok capacity held inserted s' ∧ within s' ∧ deleted_values s' ++ live_values s' ≡ₚ inserted.
Proof.
  intros Hs Hw. destruct (sharded_Release_ok _ _ held _ _ h Hs) as (s' & HR & Hs'); [done|]. exists s'. split_and!; try done; [|rewrite <- accounts_split; apply Hs'].
  destruct h as [i l]. destruct (sh_held _ _ _ _ Hs (i, l)) as (c & e & Hc & He & Hi); [left|]. cbn [fst snd] in *. destruct (sh_shard _ _ _ _ Hs i c Hc) as (_ & lru & use & Hok).
  rewrite at_shard_cons, decide_True in Hok by done. destruct (Unref_ok _ _ _ _ _ _ Hok) as (c' & lru' & use' & HU & _ & _ & Hcap' & Hu' & _).
  unfold sharded_Release, handle_at in HR. cbn [fst snd] in HR. rewrite Hc in HR. cbn [mbind option_bind] in HR. rewrite He in HR. cbn [mbind option_bind] in HR.
  rewrite Hi, Nat.eqb_refl, Hc in HR. cbn [negb mbind option_bind] in HR. cbn [snd] in HU. unfold Release in HR. rewrite HU in HR. injection HR as <-.
  apply Forall_insert; [done|]. rewrite Hcap', Hu'. exact (proj1 (Forall_lookup _ _) Hw i c Hc).
Qed.

Lemma NewLRUCache_empty capacity : 0 <= capacity → ∃ s, NewLRUCache capacity = Some s ∧ sharded_ok capacity [] [] s ∧ within s ∧ deleted_values s = [] ∧ live_values s = [].
Proof.
  intros Hcap. destruct (NewLRUCache_ok (V := V) capacity) as (s & Hn & Hs). exists s. pose proof (sh_accounts _ _ _ _ Hs) as Hacc. rewrite accounts_split in Hacc.
  apply Permutation_nil_r in Hacc. apply app_nil in Hacc as [Hd Hl]. split_and!; try done. unfold NewLRUCache in Hn. apply bind_Some in Hn as (c & Hc & Hn). cbv zeta in Hn. apply (inj Some) in Hn. subst s.
  apply Forall_lookup. cbn [shard_]. intros i c' [-> _]%lookup_replicate_1. unfold LRUCache_new in Hc. apply bind_Some in Hc as (T & _ & [= <-]). cbn. apply Z.div_pos; [|lia]. unfold u64. apply Z.mod_pos_bound. lia.
Qed.
End entries.
