(* ===== verification/TableCache.v ===== *)
(** The table cache (db/table_cache.cc): open tables under their file numbers, in
    an LRU cache whose deleter closes the file. *)
From stdpp Require Import gmap.
From S2P Require Import Prelude Coding Env FileSystem Comparator FilterPolicy FilterBlock DbFormat Filename Iterator TwoLevel Block Format TableBuilder Table HandleTable LruCache LruInvariant CacheRun CacheEntries.

Section table_cache.
Context {C P E : Type} `{!Comparator C, !EqDecision C, !FilterPolicy P, !FileSystem E}.
Context (snappy zstd : Codec) (policy_name : P → list byte) (allocates : E * RFile E → bool) (addr : Z).
Context (options : Options C P) (using_direct_io has_block_cache : bool) (dbname : list byte).

(** A table reads its file in the environment of the call. *)
Record TableAndFile := { tf_file : RFile E; tf_table : Table C P (RFile E) }.

Definition attach (e : E) (t : Table C P (RFile E)) : Table C P (E * RFile E) :=
  {| t_options := t_options t; t_file := (e, t_file t); t_cache_id := t_cache_id t; t_filter := t_filter t;
     t_metaindex_handle := t_metaindex_handle t; t_index_block := t_index_block t |}.

Definition detach (t : Table C P (E * RFile E)) : Table C P (RFile E) :=
  {| t_options := t_options t; t_file := (t_file t).2; t_cache_id := t_cache_id t; t_filter := t_filter t;
     t_metaindex_handle := t_metaindex_handle t; t_index_block := t_index_block t |}.

(** [tc_block_ids] is the last id the block cache gave out. *)
Record TableCache := { tc_cache : ShardedLRUCache (V := TableAndFile); tc_block_ids : Z }.
Implicit Types tc : TableCache.

Definition TableCache_new (entries : Z) : option TableCache :=
  cache ← NewLRUCache entries; Some {| tc_cache := cache; tc_block_ids := 0 |}.

(** The calls of the deleter. *)
Definition DeleteEntry (value : option TableAndFile) (e : E) : option E :=
  tf ← value; fs_delete_random (tf_file tf) e.

Fixpoint delete_entries (calls : list (list byte * option TableAndFile)) (e : E) : option E :=
  match calls with
  | [] => Some e
  | (_, value) :: calls => e ← DeleteEntry value e; delete_entries calls e
  end.

(** The deleters a cache operation called have closed their files. *)
Definition settle (cache : ShardedLRUCache (V := TableAndFile)) (e : E) : option (ShardedLRUCache (V := TableAndFile) * E) :=
  e ← delete_entries (mjoin (deleted_ <$> shard_ cache)) e;
  Some ({| shard_ := (λ c, {| capacity_ := capacity_ c; usage_ := usage_ c; heap_ := heap_ c; malloc_ := malloc_ c; table_ := table_ c; deleted_ := [] |}) <$> shard_ cache;
           last_id_ := last_id_ cache |}, e).

Definition NewRandomAccessFileForTable (fname : list byte) (e : E) : option (E * option (RFile E) * Status) :=
  if using_direct_io then fs_NewDirectIORandomAccessFile fname e else fs_NewRandomAccessFile fname e.

(** The table's file under its name, or its name before tables were called ldb. *)
Definition open_table_file (file_number : Z) (e : E) : option (E * option (RFile E) * Status) :=
  '(e, file, s) ← NewRandomAccessFileForTable (TableFileName dbname file_number) e;
  if ok s then Some (e, file, s) else
  '(e, file, s') ← NewRandomAccessFileForTable (SSTTableFileName dbname file_number) e;
  Some (e, file, if ok s' then Status_OK else s).

Definition FindTable (file_number file_size : Z) tc (e : E) : option (TableCache * E * Status * option Handle) :=
  let key := EncodeFixed64 file_number in
  '(cache, handle) ← sharded_Lookup key (tc_cache tc);
  match handle with
  | Some h => Some ({| tc_cache := cache; tc_block_ids := tc_block_ids tc |}, e, Status_OK, Some h)
  | None =>
      '(e, file, s) ← open_table_file file_number e;
      if negb (ok s) then Some ({| tc_cache := cache; tc_block_ids := tc_block_ids tc |}, e, s, None) else
      file ← file;
      let id := if has_block_cache then u64 (tc_block_ids tc + 1) else 0 in
      '(s, table) ← Table_Open snappy zstd policy_name allocates addr options id (e, file) file_size;
      if negb (ok s) then e ← fs_delete_random file e; Some ({| tc_cache := cache; tc_block_ids := tc_block_ids tc |}, e, s, None) else
      table ← table;
      '(cache, h) ← sharded_Insert key {| tf_file := file; tf_table := detach table |} 1 cache;
      '(cache, e) ← settle cache e;
      Some ({| tc_cache := cache; tc_block_ids := if has_block_cache then id else tc_block_ids tc |}, e, s, Some h)
  end.

(** The open table a handle refers to. *)
Definition table_of (h : Handle) tc (e : E) : option (Table C P (E * RFile E)) :=
  value ← LruCache.Value h (tc_cache tc); tf ← value; Some (attach e (tf_table tf)).

Definition UnrefEntry (h : Handle) tc (e : E) : option (TableCache * E) :=
  cache ← sharded_Release h (tc_cache tc);
  '(cache, e) ← settle cache e;
  Some ({| tc_cache := cache; tc_block_ids := tc_block_ids tc |}, e).

(** An error iterator, or the iterator of a table with the handle its cleanup
    function releases. *)
Inductive CachedIterator :=
  | ErrorIterator (s : Status)
  | TableIterator (h : Handle) (t : Table C P (E * RFile E)) (it : TwoLevelIterator (EmptyIterator + BlockIter) (EmptyIterator + BlockIter)).

Definition TableCache_NewIterator (file_number file_size : Z) tc (e : E) : option (TableCache * E * CachedIterator) :=
  '(tc, e, s, handle) ← FindTable file_number file_size tc e;
  if negb (ok s) then Some (tc, e, ErrorIterator s) else
  h ← handle;
  t ← table_of h tc e;
  it ← Table_NewIterator t;
  Some (tc, e, TableIterator h t it).

(** [status] of a new iterator, and its destructor. *)
Definition cached_status (it : CachedIterator) (read : ReadOptions) : Status :=
  match it with
  | ErrorIterator s => s
  | TableIterator _ t it =>
      it_status (Iterator := two_level_iterator (Iterator0 := table_block_iterator t) (Iterator1 := table_block_iterator t)
                               (block_opener snappy zstd allocates addr None read t) 0) it
  end.

Definition delete_cached (it : CachedIterator) tc (e : E) : option (TableCache * E) :=
  match it with
  | ErrorIterator _ => Some (tc, e)
  | TableIterator h _ _ => UnrefEntry h tc e
  end.

(** The entry the handler is called with, and the block put in the block cache. *)
Definition TableCache_Get (cache : option (list byte → option Block)) (read : ReadOptions) (file_number file_size : Z) (k : list byte) tc (e : E)
    : option (TableCache * E * (Status * option kv * option (list byte * Block))) :=
  '(tc, e, s, handle) ← FindTable file_number file_size tc e;
  if ok s then
    h ← handle;
    t ← table_of h tc e;
    r ← InternalGet snappy zstd allocates addr cache read k t;
    '(tc, e) ← UnrefEntry h tc e;
    Some (tc, e, r)
  else Some (tc, e, (s, None, None)).

Definition Evict (file_number : Z) tc (e : E) : option (TableCache * E) :=
  cache ← sharded_Erase (EncodeFixed64 file_number) (tc_cache tc);
  '(cache, e) ← settle cache e;
  Some ({| tc_cache := cache; tc_block_ids := tc_block_ids tc |}, e).
End table_cache.

(** ** Names of tables *)

Lemma TableFileName_inj dbname a b : 0 <= a < 2 ^ 64 → 0 <= b < 2 ^ 64 → TableFileName dbname a = TableFileName dbname b → a = b.
Proof.
  intros Ha Hb Heq. destruct (ParseFileName_roundtrip dbname a Ha) as [(_ & H1 & _) _], (ParseFileName_roundtrip dbname b Hb) as [(_ & H2 & _) _]. cbv zeta in *.
  rewrite Heq in H1. congruence.
Qed.

Lemma table_not_log dbname a b : 0 <= a < 2 ^ 64 → 0 <= b < 2 ^ 64 → TableFileName dbname a ≠ LogFileName dbname b.
Proof.
  intros Ha Hb Heq. destruct (ParseFileName_roundtrip dbname a Ha) as [(_ & H1 & _) _], (ParseFileName_roundtrip dbname b Hb) as [(H2 & _) _]. cbv zeta in *.
  rewrite Heq in H1. congruence.
Qed.

(** ** Opening a table the cache does not have *)

(** A file open for random access. *)
Section views.
Context {E : Type} `{!FileSystem E} {env_ok : E → Prop} {files : E → list byte → option (list byte)}
  {writing : E → WFile E → list byte → Prop} {reading : E → SFile E → list byte → Prop} {viewing : E → RFile E → list byte → Prop}
  `{!RandomFileLaws E env_ok files writing reading viewing}.
Context (n : list byte).

Definition viewed (r : E * RFile E) : Prop := env_ok r.1 ∧ viewing r.1 r.2 n ∧ is_Some (files r.1 n).
Definition view_content (r : E * RFile E) : list byte := default [] (files r.1 n).

#[export] Instance view_laws : RandomAccessFileLaws (E * RFile E) viewed view_content.
Proof.
  split. intros [e h] offset k (He & Hv & [c Hc]) Hr. cbn [PRead fs_random fst snd] in *. unfold view_content in *. cbn [fst] in *. rewrite Hc in *. cbn [default id] in *.
  by rewrite (fs_pread_ok e h n c offset k He Hv Hc Hr).
Qed.
End views.

Section table_cache_proofs.
Context {C P E : Type} `{!Comparator C, !EqDecision C, !FilterPolicy P, !FileSystem E}.
Context {valid : list byte → Prop} `{!ComparatorLaws C valid}.
Context {good : P → list (list byte) → Prop} `{!FilterPolicyLaws P good}.
Context {env_ok : E → Prop} {files : E → list byte → option (list byte)} {writing : E → WFile E → list byte → Prop}
  {reading : E → SFile E → list byte → Prop} {viewing : E → RFile E → list byte → Prop} `{!RandomFileLaws E env_ok files writing reading viewing}.
Context (snappy zstd : Codec) (Hsnappy : codec_ok snappy) (Hzstd : codec_ok zstd).
Context (policy_name : P → list byte) (allocates : E * RFile E → bool) (addr : Z).
Context (options : Options C P) (using_direct_io has_block_cache : bool) (dbname : list byte) (same : list byte → list byte → Prop).
Notation TableCache := (TableCache (C := C) (P := P) (E := E)).
Notation table_file := (table_file (valid := valid) snappy zstd policy_name options same).
Notation FindTable := (FindTable snappy zstd policy_name allocates addr options using_direct_io has_block_cache dbname).
Notation NewIterator := (TableCache_NewIterator snappy zstd policy_name allocates addr options using_direct_io has_block_cache dbname).
Notation unchanged := (unchanged files writing reading).
Implicit Types tc : TableCache.

(** A file that holds a table with the entries [l]. *)
Definition holds_table (content : list byte) (l : list kv) : Prop :=
  ∃ footer blks hs ik, table_file content footer blks hs ik ∧ flat blks = l ∧ fine (valid := valid) (good := good) options l.

(** A file from which tables open, whose iterators run over [l]. *)
Definition reads_as (content : list byte) (l : list kv) : Prop :=
  ∀ n e h cache_id ro fuel, env_ok e → viewing e h n → files e n = Some content → (length l + 1 < fuel)%nat →
  ∃ t it, Table_Open snappy zstd policy_name allocates addr options cache_id (e, h) (Z.of_nat (length content)) = Some (Status_OK, Some t) ∧
    Table_NewIterator t = Some it ∧
    let iterator := two_level_iterator (Iterator0 := table_block_iterator t) (Iterator1 := table_block_iterator t)
      (block_opener snappy zstd allocates addr None ro t) fuel in
    (it ← it_SeekToFirst it; scan fuel it) = Some l.

Lemma holds_table_reads content l : holds_table content l → reads_as content l.
Proof using All.
  intros (footer & blks & hs & ik & Htf & Hfl & Hfine) n e h cache_id ro fuel He Hv Hf Hfuel.
  assert (viewed (env_ok := env_ok) (files := files) (viewing := viewing) n (e, h)) as Hview by (split_and!; [done|done|by exists content]).
  assert (view_content (files := files) n (e, h) = content) as Hvc by (unfold view_content; cbn; by rewrite Hf). rewrite <- Hfl in Hfine. rewrite <- Hvc in Htf.
  destruct (Open_spec snappy zstd Hsnappy Hzstd policy_name allocates addr options same (e, h) footer blks hs ik (wf := viewed n) (content := view_content n) Hview Htf Hfine cache_id) as (t & Ht & Hop).
  rewrite Hvc in Ht. exists t. pose proof (index_short _ _ _ _ _ _ _ _ _ _ Htf) as Hshort. rewrite Hfl in Hshort.
  destruct (Table_NewIterator_spec snappy zstd Hsnappy Hzstd policy_name allocates addr options same (e, h) footer blks hs ik (wf := viewed n) (content := view_content n)
    Hview Htf Hfine t Hop None ro ltac:(by intros L) fuel ltac:(lia)) as (it & Hit & Hat). exists it. split; [done|]. split; [done|]. intros iterator.
  pose proof (table_block_laws options (e, h) footer blks hs ik t Hop) as HJ.
  pose proof (two_level_laws (IteratorLaws0 := HJ) (IteratorLaws1 := HJ) (block_opener snappy zstd allocates addr None ro t) fuel) as Hlaws.
  destruct (@it_first _ _ _ _ _ Hlaws it _ _ Hat) as (it1 & Hf1 & Hat1). unfold iterator. rewrite Hf1. cbn [mbind option_bind].
  rewrite (scan_spec (IteratorLaws0 := Hlaws) fuel it1 _ 0 Hat1), Hfl; [by rewrite drop_0|rewrite Hfl; lia|lia].
Qed.

(** ** The tables of the cache *)

(** A cached entry of one of these tables, its file being open. *)
Definition open_entry (numbers : list Z) (e : E) (x : list byte * option (TableAndFile (C := C) (P := P) (E := E))) : Prop :=
  ∃ n tf, n ∈ numbers ∧ x = (EncodeFixed64 n, Some tf) ∧ viewing e (tf_file tf) (TableFileName dbname n).

Lemma open_entry_env numbers names e e' x : env_ok e → env_ok e' → unchanged names e e' → (∀ n, n ∈ numbers → x.1 = EncodeFixed64 n → TableFileName dbname n ∉ names) →
  open_entry numbers e x → open_entry numbers e' x.
Proof using RandomFileLaws0.
  intros He He' Hu Hnames (n & tf & Hn & -> & Hv). exists n, tf. split_and!; [done|done|]. apply (viewing_unchanged names e); auto.
Qed.

Lemma open_entry_weaken numbers numbers' e x : numbers ⊆ numbers' → open_entry numbers e x → open_entry numbers' e x.
Proof. intros Hsub (n & tf & Hn & Hx). exists n, tf. auto. Qed.

(** Deleters close the files of their own entries. *)
Lemma delete_entries_ok numbers calls rest : ∀ e, env_ok e → Forall (λ n, 0 <= n < 2 ^ 64) numbers → NoDup (calls ++ rest).*1 → Forall (open_entry numbers e) (calls ++ rest) →
  ∃ e', delete_entries calls e = Some e' ∧ env_ok e' ∧ (∀ n, files e' n = files e n) ∧ unchanged (TableFileName dbname <$> numbers) e e' ∧ Forall (open_entry numbers e') rest.
Proof using RandomFileLaws0.
  induction calls as [|x calls IH]; intros e He Hr Hnd Hall; [exists e; split_and!; try done; apply unchanged_refl|].
  cbn [app fmap list_fmap] in Hnd, Hall. apply Forall_cons in Hall as [(n & tf & Hn & -> & Hv) Hall]. apply NoDup_cons in Hnd as [Hx Hnd]. cbn [fst] in Hx.
  destruct (delete_random_ok e (tf_file tf) (TableFileName dbname n) He Hv) as (e1 & Hdel & He1 & Hf1 & Hu1). cbn [delete_entries DeleteEntry mbind option_bind]. rewrite Hdel. cbn [mbind option_bind].
  destruct (IH e1 He1 Hr Hnd) as (e2 & -> & He2 & Hf2 & Hu2 & Hrest).
  { apply Forall_forall. intros y Hy. apply (open_entry_env numbers [TableFileName dbname n] e); try done; [|by eapply Forall_forall in Hall].
    intros m Hm Hym Heq%list_elem_of_singleton. apply TableFileName_inj in Heq; [|by eapply Forall_forall in Hr..]. subst m. apply Hx. rewrite <- Hym. by apply list_elem_of_fmap_2. }
  exists e2. split_and!; try done.
  - intros m. rewrite Hf2. destruct (decide (m = TableFileName dbname n)) as [->|Hne]; [done|]. apply (un_files _ _ _ _ _ _ Hu1). by intros ?%list_elem_of_singleton.
  - eapply unchanged_trans; [|exact Hu2]. eapply unchanged_weaken; [|exact Hu1]. intros ? ->%list_elem_of_singleton. by apply list_elem_of_fmap_2.
Qed.

(** The entries of the cache are tables among [numbers], open and cached once each;
    which of these tables are cached is the cache's choice. *)
Record caches (capacity : Z) (held : list Handle) (numbers : list Z) (e : E) tc : Prop := {
  ca_ok : sharded_ok capacity held (live_values (tc_cache tc)) (tc_cache tc);
  ca_within : within (tc_cache tc);
  ca_keys : NoDup (live_values (tc_cache tc)).*1;
  ca_open : Forall (open_entry numbers e) (live_values (tc_cache tc));
}.

(** There are no more tables than a cache can count. *)
Definition table_room (capacity : Z) (numbers : list Z) : Prop :=
  0 < capacity < 2 ^ 64 - 15 ∧ Z.of_nat (length numbers) < 2 ^ 31 - 2 ∧ Forall (λ n, 0 <= n < 2 ^ 64) numbers.

Lemma TableCache_new_caches capacity numbers e : 0 <= capacity → ∃ tc, TableCache_new capacity = Some tc ∧ caches capacity [] numbers e tc.
Proof.
  intros Hcap. unfold TableCache_new. destruct (NewLRUCache_empty (V := TableAndFile (C := C) (P := P) (E := E)) capacity Hcap) as (s & -> & Hs & Hw & Hd & Hl). cbn. eexists. split; [done|].
  split; cbn [tc_cache]; rewrite ?Hl; try done. by apply NoDup_nil.
Qed.

Lemma caches_env capacity held numbers names e e' tc : env_ok e → env_ok e' → unchanged names e e' → (∀ n, n ∈ numbers → TableFileName dbname n ∉ names) →
  caches capacity held numbers e tc → caches capacity held numbers e' tc.
Proof using RandomFileLaws0.
  intros He He' Hu Hnames [Hs Hw Hk Ho]. split; try done. eapply Forall_impl; [exact Ho|]. intros x. apply (open_entry_env _ names); auto.
Qed.

(** A cache operation and the deleters it calls. *)
Lemma settle_ok capacity held inserted numbers cache ids e : sharded_ok capacity held inserted cache → within cache → Forall (λ n, 0 <= n < 2 ^ 64) numbers → env_ok e →
  let entries := deleted_values cache ++ live_values cache in NoDup entries.*1 → Forall (open_entry numbers e) entries →
  ∃ e', settle cache e = Some (quieted cache, e') ∧ env_ok e' ∧ (∀ n, files e' n = files e n) ∧ unchanged (TableFileName dbname <$> numbers) e e' ∧
    caches capacity held numbers e' {| tc_cache := quieted cache; tc_block_ids := ids |}.
Proof using RandomFileLaws0.
  intros Hs Hw Hr He entries Hnd Hall. destruct (delete_entries_ok numbers _ _ e He Hr Hnd Hall) as (e' & Hdel & He' & Hf & Hu & Hrest).
  unfold settle. change (mjoin (deleted_ <$> shard_ cache)) with (deleted_values cache). rewrite Hdel. cbn [mbind option_bind]. exists e'. split_and!; try done.
  unfold entries in Hnd. rewrite fmap_app in Hnd. apply NoDup_app in Hnd as (_ & _ & Hnd).
  split; cbn [tc_cache]; rewrite ?quieted_live; try done; [by eapply quieted_ok|by apply quieted_within].
Qed.

Lemma open_entry_key numbers e (x : list byte * option (TableAndFile (C := C) (P := P) (E := E))) : open_entry numbers e x → x.1 ∈ EncodeFixed64 <$> numbers.
Proof. intros (n & tf & Hn & -> & _). cbn [fst]. by apply list_elem_of_fmap_2. Qed.

Lemma caches_few capacity held numbers e tc : caches capacity held numbers e tc → (length (live_values (tc_cache tc)) ≤ length numbers)%nat.
Proof.
  intros Hc. rewrite <- (length_fmap fst (live_values _)), <- (length_fmap EncodeFixed64 numbers). apply submseteq_length, NoDup_submseteq; [apply Hc|].
  intros key (x & -> & Hx)%list_elem_of_fmap. eapply open_entry_key. pose proof (ca_open _ _ _ _ _ Hc) as Ho. rewrite Forall_forall in Ho. by apply Ho.
Qed.

Lemma number_fresh n numbers : 0 <= n < 2 ^ 64 → Forall (λ n, 0 <= n < 2 ^ 64) numbers → n ∉ numbers → EncodeFixed64 n ∉ EncodeFixed64 <$> numbers.
Proof.
  intros Hn Hall Hfresh (m & Heq & Hm)%list_elem_of_fmap. apply Hfresh. rewrite Forall_forall in Hall. specialize (Hall m Hm).
  apply (f_equal DecodeFixed64) in Heq. rewrite <- (app_nil_r (EncodeFixed64 n)), <- (app_nil_r (EncodeFixed64 m)) in Heq. rewrite !Decode_EncodeFixed64, !u64_small in Heq by lia. by injection Heq as ->.
Qed.

(** A table that is not cached is opened, whatever is evicted for it. *)
Lemma FindTable_new capacity numbers number content l tc e : caches capacity [] numbers e tc → table_room capacity numbers → 0 <= number < 2 ^ 64 → number ∉ numbers →
  env_ok e → files e (TableFileName dbname number) = Some content → holds_table content l →
  ∃ tc' e' h file footer blks hs ik t, FindTable number (Z.of_nat (length content)) tc e = Some (tc', e', Status_OK, Some h) ∧
    caches capacity [h] (number :: numbers) e' tc' ∧ env_ok e' ∧ (∀ n, files e' n = files e n) ∧ unchanged (TableFileName dbname <$> number :: numbers) e e' ∧
    viewing e' file (TableFileName dbname number) ∧ table_file content footer blks hs ik ∧ flat blks = l ∧ table_of h tc' e' = Some t ∧
    opened (valid := valid) options (e', file) footer blks hs ik t.
Proof using All.
  intros Hc (Hcap & Hmany & Hall) Hn Hfresh He Hf (footer & blks & hs & ik & Htf & Hfl & Hfine).
  set (fname := TableFileName dbname number) in *. pose proof (number_fresh _ _ Hn Hall Hfresh) as Hkey. pose proof (caches_few _ _ _ _ _ Hc) as Hfew. pose proof Hc as [Hs Hw Hk Ho].
  assert (EncodeFixed64 number ∉ (live_values (tc_cache tc)).*1) as Hnew.
  { intros (x & Heq & Hx)%list_elem_of_fmap. apply Hkey. rewrite Heq. eapply open_entry_key. rewrite Forall_forall in Ho. by apply Ho. }
  unfold FindTable. rewrite (lookup_absent _ _ _ _ Hs Hnew). cbn [mbind option_bind].
  destruct (new_random_ok using_direct_io e fname content He Hf) as (e1 & file & Hopen & He1 & Hv1 & Hf1 & Hu1 & Hkeep).
  assert (open_table_file using_direct_io dbname number e = Some (e1, Some file, Status_OK)) as ->.
  { unfold open_table_file, NewRandomAccessFileForTable. fold fname. destruct using_direct_io; rewrite Hopen; done. }
  cbn [mbind option_bind ok Status_OK state_ negb].
  assert (viewed (env_ok := env_ok) (files := files) (viewing := viewing) fname (e1, file)) as Hview by (split_and!; [done|done|by exists content]).
  assert (view_content (files := files) fname (e1, file) = content) as Hvc by (unfold view_content; cbn; by rewrite Hf1).
  destruct (Open_spec snappy zstd Hsnappy Hzstd policy_name allocates addr options same (e1, file) footer blks hs ik (wf := viewed fname) (content := view_content fname)
    Hview ltac:(by rewrite Hvc) ltac:(by rewrite Hfl) (if has_block_cache then u64 (tc_block_ids tc + 1) else 0)) as (t & Ht & Hop). rewrite Hvc in Ht.
  rewrite Ht. cbn [mbind option_bind ok Status_OK state_ negb].
  destruct (insert_entry capacity _ (EncodeFixed64 number) {| tf_file := file; tf_table := detach t |} _ Hs Hw Hcap ltac:(lia)) as (s' & h & -> & Hs' & Hw' & Hv & Hin & Hacc). cbn [mbind option_bind].
  destruct (settle_ok capacity [h] _ (number :: numbers) s' (if has_block_cache then (if has_block_cache then u64 (tc_block_ids tc + 1) else 0) else tc_block_ids tc) e1 Hs' Hw')
    as (e2 & -> & He2 & Hf2 & Hu2 & Hc2); [by constructor|done|by rewrite Hacc; apply NoDup_cons| |].
  { rewrite Hacc. constructor; [eexists number, _; split_and!; [left|done|done]|]. eapply Forall_impl; [exact Ho|]. intros x (m & tf & Hm & Hx & Hvx). exists m, tf. split_and!; [by right|done|auto]. }
  cbn [mbind option_bind]. eexists _, e2, h, file, footer, blks, hs, ik, (attach e2 (detach t)). split; [done|]. split_and!; try done.
  - intros n. rewrite Hf2. destruct (decide (n = fname)) as [->|Hne]; [congruence|]. apply (un_files _ _ _ _ _ _ Hu1). by intros ?%list_elem_of_singleton.
  - eapply unchanged_trans; [|exact Hu2]. eapply unchanged_weaken; [|exact Hu1]. intros ? ->%list_elem_of_singleton. left.
  - pose proof (ca_open _ _ _ _ _ Hc2) as Ho2. cbn [tc_cache] in Ho2. rewrite quieted_live, Forall_forall in Ho2. destruct (Ho2 _ Hin) as (m & tf & Hm & Heq & Hvm). pose proof (f_equal fst Heq) as Henc. pose proof (f_equal snd Heq) as Htf'. cbn [fst snd] in Henc, Htf'. injection Htf' as <-.
    assert (m = number) as ->; [|done]. apply elem_of_cons in Hm as [->|Hm]; [done|]. exfalso. apply Hkey. rewrite Henc. by apply list_elem_of_fmap_2.
  - unfold table_of. cbn [tc_cache]. by rewrite quieted_value, Hv.
  - destruct Hop as [Ho1 Ho2 Ho3 Ho4 Ho5]. split; try done. cbn. by rewrite Ho2.
Qed.

Lemma UnrefEntry_ok capacity held numbers h tc e : caches capacity (h :: held) numbers e tc → Forall (λ n, 0 <= n < 2 ^ 64) numbers → env_ok e →
  ∃ tc' e', UnrefEntry h tc e = Some (tc', e') ∧ caches capacity held numbers e' tc' ∧ env_ok e' ∧ (∀ n, files e' n = files e n) ∧
    unchanged (TableFileName dbname <$> numbers) e e'.
Proof using RandomFileLaws0.
  intros [Hs Hw Hk Ho] Hr He. unfold UnrefEntry. destruct (release_entry _ _ _ _ _ Hs Hw) as (s' & -> & Hs' & Hw' & Hacc). cbn [mbind option_bind].
  destruct (settle_ok capacity held _ numbers s' (tc_block_ids tc) e Hs' Hw' Hr He) as (e' & -> & He' & Hf & Hu & Hc); [by rewrite Hacc..|]. cbn [mbind option_bind]. eexists _, e'. split_and!; done.
Qed.
End table_cache_proofs.
