(* ===== verification/BuildTable.v ===== *)
(** Writing a table file from an iterator (db/builder.cc), through the table cache. *)
From stdpp Require Import gmap sorting.
From S2P Require Import Prelude Coding Env FileSystem Comparator FilterPolicy FilterBlock DbFormat Filename Iterator TwoLevel Block Format TableBuilder Table HandleTable LruCache CacheRun CacheEntries TableCache VersionEdit.

Section build_table.
Context {C P E : Type} `{!Comparator C, !EqDecision C, !FilterPolicy P, !FileSystem E}.
Context (snappy zstd : Codec) (policy_name : P → list byte) (allocates : E * RFile E → bool) (addr : Z).
Context (options : Options C P) (using_direct_io has_block_cache : bool) (dbname : list byte).
Context {I : Type} `{!Iterator I}.
Notation Builder := (Rep C P (open_writable E)).
Notation TableCache := (TableCache (C := C) (P := P) (E := E)).

(** The loop that adds the entries; the last key is returned. *)
Fixpoint add_entries (fuel : nat) (iter : I) (key : list byte) (builder : Builder) : option (I * list byte * Builder) :=
  match fuel with
  | O => None
  | S fuel =>
      if it_Valid iter
      then key ← it_key iter;
           value ← it_value iter;
           builder ← TableBuilder_Add snappy zstd addr key value builder;
           iter ← it_Next iter;
           add_entries fuel iter key builder
      else Some (iter, key, builder)
  end.

Definition set_size (size : Z) (m : FileMetaData) : FileMetaData :=
  {| number := number m; file_size := size; smallest := smallest m; largest := largest m |}.
Definition set_smallest (k : InternalKey) (m : FileMetaData) : FileMetaData :=
  {| number := number m; file_size := file_size m; smallest := k; largest := largest m |}.
Definition set_largest (k : InternalKey) (m : FileMetaData) : FileMetaData :=
  {| number := number m; file_size := file_size m; smallest := smallest m; largest := k |}.

(** [Sync], [Close] and the destructor of the file. *)
Definition close_table_file (s : Status) (o : open_writable E) : option (E * Status) :=
  let '(o, s) := if ok s then Sync o else (o, s) in
  let '(o, s) := if ok s then Close o else (o, s) in
  '(e, file) ← o;
  e ← fs_delete_writable file e;
  Some (e, s).

(** The entries from the iterator's place on into the new file. *)
Definition write_table (fuel : nat) (iter : I) (meta : FileMetaData) (file : WFile E) (e : E) : option (I * FileMetaData * E * Status) :=
  builder ← TableBuilder_new options (Some (e, file));
  first ← it_key iter;
  let meta := set_smallest (InternalKey_DecodeFrom first).1 meta in
  '(iter, key, builder) ← add_entries fuel iter [] builder;
  let meta := match key with [] => meta | _ => set_largest (InternalKey_DecodeFrom key).1 meta end in
  '(builder, s) ← TableBuilder_Finish snappy zstd policy_name addr builder;
  let meta := if ok s then set_size (FileSize builder) meta else meta in
  if ok s && negb (0 <? file_size meta) then None else
  '(e, s) ← close_table_file s (tb_file builder);
  Some (iter, meta, e, s).

(** The table opens. *)
Definition verify_table (meta : FileMetaData) (tc : TableCache) (e : E) : option (TableCache * E * Status) :=
  '(tc, e, it) ← TableCache_NewIterator snappy zstd policy_name allocates addr options using_direct_io has_block_cache dbname
                   (number meta) (file_size meta) tc e;
  let s := cached_status snappy zstd allocates addr it {| verify_checksums := false; fill_cache := true |} in
  '(tc, e) ← delete_cached it tc e;
  Some (tc, e, s).

Definition keep_or_remove (iter : I) (meta : FileMetaData) (s : Status) (tc : TableCache) (e : E) : option (TableCache * E * FileMetaData * Status) :=
  let s := if ok (it_status iter) then s else it_status iter in
  if ok s && (0 <? file_size meta) then Some (tc, e, meta, s)
  else '(e, _) ← fs_RemoveFile (TableFileName dbname (number meta)) e; Some (tc, e, meta, s).

Definition BuildTable (fuel : nat) (iter : I) (meta : FileMetaData) (tc : TableCache) (e : E) : option (TableCache * E * FileMetaData * Status) :=
  let meta := set_size 0 meta in
  iter ← it_SeekToFirst iter;
  if it_Valid iter
  then '(e, file, s) ← fs_NewWritableFile (TableFileName dbname (number meta)) e;
       if negb (ok s) then Some (tc, e, meta, s) else
       file ← file;
       '(iter, meta, e, s) ← write_table fuel iter meta file e;
       '(tc, e, s) ← (if ok s then verify_table meta tc e else Some (tc, e, s));
       keep_or_remove iter meta s tc e
  else keep_or_remove iter meta Status_OK tc e.
End build_table.

(** ** Tables without a filter *)

Section no_filter.
Context {C P F : Type} `{!Comparator C, !EqDecision C, !FilterPolicy P, !WritableFile F} (snappy zstd : Codec) (addr : Z).
Implicit Types r : Rep C P F.

Lemma flush_no_filter r r' : tb_filter_block r = None → TableBuilder_Flush snappy zstd addr r = Some r' → tb_filter_block r' = None.
Proof.
  intros Hn. unfold TableBuilder_Flush. destruct (tb_closed r); [done|]. destruct (negb _); [by intros [= <-]|]. destruct (BlockBuilder_empty _); [by intros [= <-]|].
  destruct (pending_index_entry r); [done|]. intros ([r1 h] & Hw & H)%bind_Some. assert (tb_filter_block r1 = None) as H1.
  { unfold WriteBlock in Hw. destruct (negb _); [done|]. destruct (BlockBuilder_Finish _), (compress _ _ _ _). injection Hw as Hw. unfold WriteRawBlock in Hw.
    destruct (Append (tb_file r) _) as [f s]. destruct (ok s); [destruct (Append f _)|]; by injection Hw as <- _. }
  cbv zeta beta in H. match type of H with start_filter _ ?x = _ => assert (tb_filter_block x = None) as Hx by (destruct (ok _); [destruct (Flush _)|]; done); unfold start_filter in H; rewrite Hx in H end.
  by injection H as <-.
Qed.

Lemma add_no_filter key value r r' : tb_filter_block r = None → TableBuilder_Add snappy zstd addr key value r = Some r' → tb_filter_block r' = None.
Proof.
  intros Hn. unfold TableBuilder_Add. destruct (tb_closed r); [done|]. destruct (negb _); [by intros [= <-]|]. destruct (_ && _); [done|].
  intros (r1 & H1 & H)%bind_Some. assert (tb_filter_block r1 = None) as Hn1.
  { destruct (pending_index_entry r); [|by injection H1 as <-]. destruct (BlockBuilder_empty _); [|done]. unfold add_index in H1.
    by apply bind_Some in H1 as (? & _ & (? & _ & [= <-])%bind_Some). }
  apply bind_Some in H as (data & _ & H). destruct (_ <=? _); [eapply flush_no_filter; [|exact H]; cbn; by rewrite Hn1|injection H as <-; cbn; by rewrite Hn1].
Qed.

Lemma no_filter_of_table (opts : Options C P) l (file : F) : filter_policy opts = None → filter_of_table snappy zstd addr opts l file = None.
Proof.
  intros Hn. unfold filter_of_table. destruct (TableBuilder_new opts file) as [r|] eqn:Hr; [|done]. cbn [mbind option_bind].
  assert (tb_filter_block r = None) as H0. { unfold TableBuilder_new, start_filter in Hr. rewrite Hn in Hr. by apply bind_Some in Hr as (? & _ & [= <-]). }
  clear Hr. revert r H0. induction l as [|x l IH]; intros r H0; cbn [TableBuilder_Add_all mbind option_bind].
  - destruct (TableBuilder_Flush _ _ _ r) as [r1|] eqn:H1; [|done]. cbn. by rewrite (flush_no_filter _ _ H0 H1).
  - destruct (TableBuilder_Add _ _ _ _ _ r) as [r1|] eqn:H1; [|done]. cbn [mbind option_bind]. apply IH. by eapply add_no_filter.
Qed.
End no_filter.

(** ** A table built from an iterator *)

Section build_proofs.
Context {C P E : Type} `{!Comparator C, !EqDecision C, !FilterPolicy P, !FileSystem E}.
Context {valid : list byte → Prop} `{!ComparatorLaws C valid}.
Context {good : P → list (list byte) → Prop} `{!FilterPolicyLaws P good}.
Context {env_ok : E → Prop} {files : E → list byte → option (list byte)} {writing : E → WFile E → list byte → Prop}
  {reading : E → SFile E → list byte → Prop} {pos : SFile E → nat} {viewing : E → RFile E → list byte → Prop}
  `{!FileSystemLaws E env_ok files writing reading pos, !RandomFileLaws E env_ok files writing reading viewing}.
Context (snappy zstd : Codec) (Hsnappy : codec_ok snappy) (Hzstd : codec_ok zstd).
Context (policy_name : P → list byte) (allocates : E * RFile E → bool) (addr : Z).
Context (options : Options C P) (using_direct_io has_block_cache : bool) (dbname : list byte) (same : list byte → list byte → Prop).
Context {I : Type} `{!Iterator I} {R : I → list kv → option nat → Prop} `{!IteratorLaws I (Compare (comparator options)) valid R}.
Notation TableCache := (TableCache (C := C) (P := P) (E := E)).
Notation c := (comparator options).
Notation holds_table := (holds_table (valid := valid) (good := good) snappy zstd policy_name options same).
Notation unchanged := (unchanged files writing reading).
Notation caches := (caches (viewing := viewing) dbname).
Implicit Types tc : TableCache.

(** Options the table code works with. *)
Record options_ok : Prop := {
  oo_interval : 1 <= block_restart_interval options;
  oo_separator a b : valid a → valid b → (length (FindShortestSeparator c a b) ≤ length a)%nat;
  oo_same a k b : valid a → valid k → valid b → Compare c a k < 0 → Compare c k b <= 0 → same k b → Compare c (FindShortestSeparator c a b) k < 0;
  oo_successor a : valid a → (length (FindShortSuccessor c a) ≤ length a)%nat;
  oo_name p : filter_policy options = Some p → Z.of_nat (length (policy_name p)) < 2 ^ 30;
  oo_key k : valid k → k ≠ [];
}.
Hypothesis Hoptions : options_ok.

(** The filter block of a table stays within its 32-bit offsets. *)
Definition filter_fits (l : list kv) : Prop :=
  ∀ (file : open_writable E) contents, filter_of_table snappy zstd addr options l file = Some contents → Z.of_nat (length contents) < 2 ^ 32.

Lemma add_entries_spec l (b b' : Rep C P (open_writable E)) : ∀ i fuel iter key, R iter l (pos_at l i) → (i ≤ length l)%nat → (length l - i < fuel)%nat →
  TableBuilder_Add_all snappy zstd addr (drop i l) b = Some b' →
  ∃ iter', add_entries snappy zstd addr fuel iter key b = Some (iter', from_option fst key (last (drop i l)), b') ∧ R iter' l None.
Proof using IteratorLaws0.
  intros i fuel. revert i b. induction fuel as [|fuel IH]; intros i b iter key Hat Hi Hf Hadd; [lia|]. cbn [add_entries]. rewrite (it_valid _ _ _ Hat).
  destruct (decide (i < length l)%nat) as [Hlt|Hge].
  - destruct (lookup_lt_is_Some_2 l i Hlt) as [x Hx]. rewrite (pos_at_lt l i Hlt) in Hat |- *. rewrite bool_decide_true by by eexists.
    destruct (it_entry _ _ _ _ Hat Hx) as [-> ->]. cbn [mbind option_bind]. rewrite (drop_S _ _ _ Hx) in Hadd |- *. cbn [TableBuilder_Add_all] in Hadd.
    apply bind_Some in Hadd as (b1 & -> & Hadd). cbn [mbind option_bind]. destruct (it_next _ _ _ Hat) as (iter1 & -> & Hat1). cbn [mbind option_bind].
    destruct (IH (S i) b1 iter1 x.1 Hat1 ltac:(lia) ltac:(lia) Hadd) as (iter' & -> & Hend). exists iter'. split; [|done]. do 3 f_equal.
    destruct (drop (S i) l) as [|y ys]; [done|]. rewrite last_cons_cons. destruct (last (y :: ys)) eqn:Hl; [done|]. by apply last_None in Hl.
  - rewrite (pos_at_ge l i) in Hat |- * by lia. rewrite bool_decide_false by by intros [? ?]. rewrite drop_ge in Hadd |- * by lia. injection Hadd as <-. by exists iter.
Qed.

Lemma verify_table_ok capacity numbers meta content l tc e : caches capacity [] numbers e tc → table_room capacity numbers → 0 <= number meta < 2 ^ 64 → number meta ∉ numbers →
  env_ok e → files e (TableFileName dbname (number meta)) = Some content → holds_table content l → file_size meta = Z.of_nat (length content) →
  ∃ tc' e', verify_table snappy zstd policy_name allocates addr options using_direct_io has_block_cache dbname meta tc e = Some (tc', e', Status_OK) ∧
    caches capacity [] (number meta :: numbers) e' tc' ∧ env_ok e' ∧ (∀ n, files e' n = files e n) ∧ unchanged (TableFileName dbname <$> number meta :: numbers) e e'.
Proof using All.
  intros Hc Hroom Hn Hfresh He Hf Hh Hsz. pose proof Hh as (_ & _ & _ & _ & _ & _ & Hfine).
  destruct (FindTable_new snappy zstd Hsnappy Hzstd policy_name allocates addr options using_direct_io has_block_cache dbname same
    capacity numbers (number meta) content l tc e Hc Hroom Hn Hfresh He Hf Hh) as (tc1 & e1 & h & file & footer & blks & hs & ik & t & Hfind & Hc1 & He1 & Hf1 & Hu1 & Hv1 & Htf & Hfl & Ht & Hop).
  unfold verify_table, TableCache_NewIterator. rewrite Hsz, Hfind. cbn [mbind option_bind ok Status_OK state_ negb]. rewrite Ht. cbn [mbind option_bind].
  set (n := TableFileName dbname (number meta)) in *.
  assert (viewed (env_ok := env_ok) (files := files) (viewing := viewing) n (e1, file)) as Hview by (split_and!; [done|done|exists content; cbn; by rewrite Hf1]).
  assert (view_content (files := files) n (e1, file) = content) as Hvc by (unfold view_content; cbn; by rewrite Hf1, Hf).
  destruct (Table_NewIterator_spec snappy zstd Hsnappy Hzstd policy_name allocates addr options same (e1, file) footer blks hs ik (wf := viewed n) (content := view_content n)
    Hview ltac:(by rewrite Hvc) ltac:(by rewrite Hfl) t Hop None {| verify_checksums := false; fill_cache := true |} ltac:(by intros L) (length ik + 2)%nat ltac:(lia)) as (it & -> & Hat).
  cbn [mbind option_bind delete_cached]. destruct (UnrefEntry_ok (env_ok := env_ok) dbname capacity [] (number meta :: numbers) h tc1 e1 Hc1) as (tc2 & e2 & -> & Hc2 & He2 & Hf2 & Hu2); [constructor; [done|apply Hroom]|done|]. cbn [mbind option_bind].
  pose proof (table_block_laws options (e1, file) footer blks hs ik t Hop) as HJ.
  pose proof (two_level_laws (IteratorLaws0 := HJ) (IteratorLaws1 := HJ) (block_opener snappy zstd allocates addr None {| verify_checksums := false; fill_cache := true |} t) (length ik + 2)) as Hlaws.
  pose proof (@it_ok _ _ _ _ _ Hlaws it _ _ Hat) as Hst. exists tc2, e2. split; [cbn [cached_status]; lazymatch type of Hst with ?a = _ => lazymatch goal with |- Some (_, _, ?b) = _ => change b with a end end; rewrite Hst; reflexivity|split_and!; try done]; [intros x; by rewrite Hf2|by eapply unchanged_trans].
Qed.

(** The table is written, closed, and opens. *)
Lemma BuildTable_spec capacity numbers fuel iter l p x y meta tc e : R iter l p → (length l < fuel)%nat → head l = Some x → last l = Some y →
  fine (valid := valid) (good := good) options l → filter_fits l → caches capacity [] numbers e tc → table_room capacity numbers → 0 <= number meta < 2 ^ 64 →
  number meta ∉ numbers → env_ok e → let n := TableFileName dbname (number meta) in
  ∃ tc' e' content, BuildTable snappy zstd policy_name allocates addr options using_direct_io has_block_cache dbname fuel iter meta tc e =
      Some (tc', e', {| number := number meta; file_size := Z.of_nat (length content); smallest := {| rep_ := x.1 |}; largest := {| rep_ := y.1 |} |}, Status_OK) ∧
    files e' n = Some content ∧ (0 < length content)%nat ∧ holds_table content l ∧ env_ok e' ∧ (∀ x, x ≠ n → files e' x = files e x) ∧
    unchanged (TableFileName dbname <$> number meta :: numbers) e e' ∧ caches capacity [] (number meta :: numbers) e' tc'.
Proof using All.
  intros Hat Hfuel Hx Hy Hfine Hfits Hc Hroom Hn Hfresh He n. unfold BuildTable. destruct (it_first _ _ _ Hat) as (iter1 & -> & Hat1). cbn [mbind option_bind].
  assert (0 < length l)%nat as Hlen by (destruct l; [done|cbn; lia]). assert (l !! 0%nat = Some x) as Hx0 by (by rewrite <- head_lookup).
  assert (pos_first l = Some 0%nat) as Hpf by (apply pos_at_lt; lia). rewrite (it_valid _ _ _ Hat1), Hpf, bool_decide_true by by eexists.
  destruct (new_writable_ok e n He) as (e1 & h & Hnew & He1 & Hw1 & Hf1 & Hu1). change (number (set_size 0 meta)) with (number meta). fold n. rewrite Hnew. cbn [mbind option_bind ok Status_OK state_ negb].
  assert (open_w (env_ok := env_ok) (files := files) (writing := writing) (reading := reading) n e (Some (e1, h))) as Hopen by (by exists e1, h).
  destruct Hoptions as [Hint Hsep Hsame Hsucc Hname Hkeys].
  destruct (build_spec (wf := open_w n e) (content := open_content (files := files) n) snappy zstd policy_name addr options same Hint Hsep Hsame Hsucc Hname l (Some (e1, h)) Hopen ltac:(cbn; by rewrite Hf1) Hfine ltac:(intros ? ?; by eapply Hfits))
    as (r & footer & blks & hs & ik & Hb & Hwf & Hsz & Hfl & Htf).
  unfold build_table in Hb. apply bind_Some in Hb as (r0 & Hr0 & (r1 & Hr1 & Hfin)%bind_Some).
  unfold write_table. rewrite Hr0. cbn [mbind option_bind]. rewrite Hpf in Hat1. destruct (it_entry _ _ _ _ Hat1 Hx0) as [-> _]. cbn [mbind option_bind].
  destruct (add_entries_spec l r0 r1 0 fuel iter1 []) as (iter2 & Hadd & Hat2); [unfold pos_first in Hpf; by rewrite Hpf|lia|lia|by rewrite drop_0|].
  rewrite Hadd, drop_0, Hy. cbn [mbind option_bind from_option]. rewrite Hfin. cbn [mbind option_bind ok Status_OK state_ andb].
  destruct (it_wf _ _ _ Hat) as (_ & Hv & _). assert (y.1 ≠ []) as Hyk. { apply Hkeys. rewrite Forall_forall in Hv. apply Hv. by apply last_Some_elem_of. }
  replace (match y.1 with [] => _ | _ => _ end) with (set_largest {| rep_ := y.1 |} (set_smallest {| rep_ := x.1 |} (set_size 0 meta))) by (by destruct y.1).
  destruct Hwf as (e2 & h2 & Htb & He2 & Hw2 & Hu2). destruct (writing_file e2 h2 n He2 Hw2) as (content & Hf2).
  rewrite Htb in Hsz, Htf. cbn [open_content] in Hsz, Htf. rewrite Hf2 in Hsz, Htf. cbn [default id] in Hsz, Htf.
  assert (0 < length content)%nat as Hpos.
  { destruct (tf_footer _ _ _ _ _ _ _ _ _ _ Htf) as (body & ->). destruct (tf_handles_ok _ _ _ _ _ _ _ _ _ _ Htf) as [Hm Hi]. rewrite length_app, footer_length by done. unfold kEncodedLength. lia. }
  cbn [set_size file_size]. rewrite Hsz, (proj2 (Z.ltb_lt _ _)) by lia. cbn [negb]. rewrite Htb.
  destruct (fs_sync_ok e2 h2 n He2 Hw2) as (e3 & Hs3 & He3 & Hw3 & Hf3 & Hu3). destruct (fs_close_ok e3 h2 n He3 Hw3) as (e4 & Hs4 & He4 & Hw4 & Hf4 & Hu4).
  destruct (delete_writable_ok e4 h2 n He4 Hw4) as (e5 & Hs5 & He5 & Hf5 & Hu5).
  assert (close_table_file Status_OK (Some (e2, h2)) = Some (e5, Status_OK)) as ->.
  { unfold close_table_file. cbn [ok Status_OK state_ Sync Close fs_writable on_writable]. rewrite Hs3. cbn [ok Status_OK state_ Sync Close fs_writable on_writable]. rewrite Hs4. cbn [mbind option_bind]. by rewrite Hs5. }
  cbn [mbind option_bind ok Status_OK state_]. assert (holds_table content l) as Hholds by (by exists footer, blks, hs, ik).
  assert (files e5 n = Some content) as Hf6 by congruence.
  assert (unchanged [n] e e5) as Hu by (do 4 (eapply unchanged_trans; [|done]); done).
  assert (caches capacity [] numbers e5 tc) as Hc5.
  { eapply (caches_env dbname capacity [] numbers [n] e); try done. intros m Hm Heq%list_elem_of_singleton. apply TableFileName_inj in Heq as ->; [done| |done]. destruct Hroom as (_ & _ & Hr). by eapply Forall_forall in Hr. }
  match goal with |- context [verify_table _ _ _ _ _ _ _ _ _ ?m tc e5] => destruct (verify_table_ok capacity numbers m content l tc e5) as (tc' & e6 & -> & Hc' & He6 & Hf7 & Hu6); try done end.
  cbn [mbind option_bind]. unfold keep_or_remove. rewrite (it_ok _ _ _ Hat2). cbn [ok Status_OK state_ andb file_size set_size]. rewrite (proj2 (Z.ltb_lt _ _)) by lia.
  exists tc', e6, content. split_and!; try done.
  - by rewrite Hf7.
  - intros x0 Hx'. rewrite Hf7. apply (un_files _ _ _ _ _ _ Hu). by intros ?%list_elem_of_singleton.
  - eapply unchanged_trans; [|exact Hu6]. eapply unchanged_weaken; [|exact Hu]. intros ? ->%list_elem_of_singleton. left.
Qed.
End build_proofs.
