(* ===== verification/DbRecover.v ===== *)
(** Creating a database, writing a memtable to a level-0 table and recovering a log
    file (db/db_impl.cc: [NewDB], [WriteLevel0Table], [RecoverLogFile]). *)
From stdpp Require Import gmap sorting.
From S2P Require Import Prelude Coding Env FileSystem Comparator FilterPolicy FilterBlock DbFormat Filename LogFormat LogReader SkipList Arena MemTable WriteBatch Iterator MemIter Format TableBuilder Table TableCache BuildTable VersionEdit Version VersionBuilder VersionSet DbImpl Obsolete.

Section db_recover.
Context {C P E : Type} `{!Comparator C, !EqDecision (InternalKeyComparator C), !FilterPolicy P, !FileSystem E}.
Context (icmp : InternalKeyComparator C) (new_array : list piece → Z → Z).
Context (snappy zstd : Codec) (policy_name : InternalFilterPolicy P → list byte) (allocates : E * RFile E → bool) (addr : Z).
Context (options : Options (InternalKeyComparator C) (InternalFilterPolicy P)) (using_direct_io has_block_cache : bool).
Context (dbname comparator_name : list byte) (max_file_size write_buffer_size : Z) (reuse_logs create_if_missing error_if_exists : bool).
Notation DBImpl := (DBImpl (C := C) (E := E)).
Notation TableCache := (TableCache (C := InternalKeyComparator C) (P := InternalFilterPolicy P) (E := E)).
Implicit Types (db : DBImpl) (tc : TableCache) (edit : VersionEdit) (s : Status).

Definition MaybeIgnoreError s : Status := if ok s || paranoid_checks options then s else Status_OK.

(** ** A new database *)

Definition new_db_edit : VersionEdit :=
  VersionEdit.SetLastSequence 0 (SetNextFile 2 (SetLogNumber 0 (SetComparatorName comparator_name VersionEdit_Clear))).

Definition NewDB (e : E) : option (E * Status) :=
  let manifest := DescriptorFileName dbname 1 in
  '(e, file, s) ← fs_NewWritableFile manifest e;
  if negb (ok s) then Some (e, s) else
  file ← file;
  record ← VersionEdit_EncodeTo [] new_db_edit;
  '(log, s) ← AddRecord record (Writer_new (Some (e, file) : open_writable E));
  '(e, s) ← close_table_file s (dest_ log);
  if ok s then SetCurrentFile dbname 1 e
  else '(e, _) ← fs_RemoveFile manifest e; Some (e, s).

(** ** Level-0 tables *)

(** [base] is the version whose levels the table may go to.  The statistics are
    left out. *)
Definition WriteLevel0Table (mem : MemTable C) edit (base : option Version) db tc : option (Status * VersionEdit * DBImpl * TableCache) :=
  let '(n, vs) := NewFileNumber (db_versions db) in
  let db := set_background ({[n]} ∪ db_pending_outputs db) (db_bg_error db) (db_scheduled db) (db_manual db) (set_env (db_env db) vs db) in
  '(tc, e, meta, s) ← BuildTable snappy zstd policy_name allocates addr options using_direct_io has_block_cache dbname
                        (S (length (nodes (MemTable.table_ mem)))) (MemTable_NewIterator mem)
                        {| number := n; file_size := 0; smallest := {| rep_ := [] |}; largest := {| rep_ := [] |} |} tc (db_env db);
  let db := set_background (db_pending_outputs db ∖ {[n]}) (db_bg_error db) (db_scheduled db) (db_manual db) (set_env e (db_versions db) db) in
  edit ← (if ok s && (0 <? file_size meta)
          then level ← (match base with
                        | Some v => PickLevelForMemTableOutput icmp max_file_size v (InternalKey_user_key (smallest meta)) (InternalKey_user_key (largest meta))
                        | None => Some 0%nat
                        end);
               Some (AddFile (Z.of_nat level) (number meta) (file_size meta) (smallest meta) (largest meta) edit)
          else Some edit);
  Some (s, edit, db, tc).

(** ** Recovering a log file *)

(** The variables of [RecoverLogFile], and what it changes.  While the log is
    open the environment is in its reader. *)
Record Recovery := {
  rc_reader : Reader (open_sequential E);
  rc_status : Status;
  rc_mem : option (MemTable C);
  rc_compactions : Z;
  rc_save_manifest : bool;
  rc_edit : VersionEdit;
  rc_max_sequence : Z;
  rc_db : DBImpl;
  rc_tc : TableCache;
}.
Implicit Types rc : Recovery.

Definition set_reader_status (r : Reader (open_sequential E)) s rc : Recovery :=
  {| rc_reader := r; rc_status := s; rc_mem := rc_mem rc; rc_compactions := rc_compactions rc; rc_save_manifest := rc_save_manifest rc;
     rc_edit := rc_edit rc; rc_max_sequence := rc_max_sequence rc; rc_db := rc_db rc; rc_tc := rc_tc rc |}.
Definition set_mem_max (mem : option (MemTable C)) (max_sequence : Z) s rc : Recovery :=
  {| rc_reader := rc_reader rc; rc_status := s; rc_mem := mem; rc_compactions := rc_compactions rc; rc_save_manifest := rc_save_manifest rc;
     rc_edit := rc_edit rc; rc_max_sequence := max_sequence; rc_db := rc_db rc; rc_tc := rc_tc rc |}.

(** [LogReporter::Corruption], whose status is null unless checks are paranoid. *)
Definition reported s (new : list (Z * Status)) : Status := if paranoid_checks options then reporter_status s new else s.

Definition reader_with_env (e : E) (r : Reader (open_sequential E)) : option (Reader (open_sequential E)) :=
  '(_, file) ← file_ r;
  Some {| file_ := Some (e, file); has_reporter := has_reporter r; reports := reports r; checksum_ := checksum_ r; buffer_ := buffer_ r; eof_ := eof_ r;
          last_record_offset_ := last_record_offset_ r; end_of_buffer_offset_ := end_of_buffer_offset_ r; initial_offset_ := initial_offset_ r;
          resyncing_ := resyncing_ r |}.

(** A memtable that has grown is written in the middle of the log. *)
Definition flush_recovered (mem : MemTable C) rc : option Recovery :=
  '(e, _) ← file_ (rc_reader rc);
  '(s, edit, db, tc) ← WriteLevel0Table mem (rc_edit rc) None (set_env e (db_versions (rc_db rc)) (rc_db rc)) (rc_tc rc);
  reader ← reader_with_env (db_env db) (rc_reader rc);
  Some {| rc_reader := reader; rc_status := s; rc_mem := None; rc_compactions := rc_compactions rc + 1; rc_save_manifest := true; rc_edit := edit;
          rc_max_sequence := rc_max_sequence rc; rc_db := db; rc_tc := tc |}.

(** One record; the result says whether the loop goes on. *)
Definition recover_record (record : list byte) rc : option (Recovery * bool) :=
  if (length record <? 12)%nat
  then Some (set_reader_status (rc_reader rc) (reported (rc_status rc) [(Z.of_nat (length record), Corruption (str "log record too small"))]) rc, true)
  else
    batch ← SetContents record;
    let mem := default (MemTable_Ref (MemTable_new new_array icmp)) (rc_mem rc) in
    '(mem, s) ← InsertInto new_array batch mem;
    let s := MaybeIgnoreError s in
    if negb (ok s) then Some (set_mem_max (Some mem) (rc_max_sequence rc) s rc, false) else
    seq ← Sequence batch;
    count ← Count batch;
    let last_seq := u64 (seq + count - 1) in
    let rc := set_mem_max (Some mem) (if rc_max_sequence rc <? last_seq then last_seq else rc_max_sequence rc) s rc in
    if write_buffer_size <? ApproximateMemoryUsage mem
    then rc ← flush_recovered mem rc; Some (rc, ok (rc_status rc))
    else Some (rc, true).

(** The loop over the records; [n] bounds their number and [fuel] the fragments
    of one record. *)
Fixpoint recover_log_loop (n fuel : nat) rc : option Recovery :=
  match n with
  | O => None
  | S n =>
      '(record, reader) ← ReadRecord fuel (rc_reader rc);
      let rc := set_reader_status reader (reported (rc_status rc) (drop (length (reports (rc_reader rc))) (reports reader))) rc in
      match record with
      | None => Some rc
      | Some record =>
          if negb (ok (rc_status rc)) then Some rc else
          '(rc, continue) ← recover_record record rc;
          if (continue : bool) then recover_log_loop n fuel rc else Some rc
      end
  end.

(** Keeping the last log file: the memtable that is left and the database. *)
Definition reuse_log (log_number : Z) (last_log : bool) rc db : option (option (MemTable C) * DBImpl) :=
  if ok (rc_status rc) && reuse_logs && last_log && (rc_compactions rc =? 0)
  then match db_logfile db, db_log db, db_mem db with
       | None, None, None =>
           let fname := LogFileName dbname log_number in
           '(lfile_size, s) ← fs_GetFileSize fname (db_env db);
           if negb (ok s) then Some (rc_mem rc, db) else
           '(e, logfile, s) ← fs_NewAppendableFile fname (db_env db);
           let db := set_env e (db_versions db) db in
           if negb (ok s) then Some (rc_mem rc, set_logfile logfile None (db_logfile_number db) db) else
           logfile ← logfile;
           let db := set_logfile (Some logfile) (Some (block_offset_ (Writer_append (Some (e, logfile) : open_writable E) lfile_size))) log_number db in
           let mem := default (MemTable_Ref (MemTable_new new_array icmp)) (rc_mem rc) in
           Some (None, set_mems (<[db_next_mem db := mem]> (db_mems db)) (S (db_next_mem db)) (Some (db_next_mem db)) (db_imm db) db)
       | _, _, _ => None
       end
  else Some (rc_mem rc, db).

Definition RecoverLogFile (n fuel : nat) (log_number : Z) (last_log : bool) (save_manifest : bool) edit (max_sequence : Z) db tc
    : option (Status * bool * VersionEdit * Z * DBImpl * TableCache) :=
  '(e, file, s) ← fs_NewSequentialFile (LogFileName dbname log_number) (db_env db);
  if negb (ok s) then Some (MaybeIgnoreError s, save_manifest, edit, max_sequence, set_env e (db_versions db) db, tc) else
  file ← file;
  rc ← recover_log_loop n fuel
         {| rc_reader := Reader_new (Some (e, file) : open_sequential E) true true 0; rc_status := s; rc_mem := None; rc_compactions := 0;
            rc_save_manifest := save_manifest; rc_edit := edit; rc_max_sequence := max_sequence; rc_db := db; rc_tc := tc |};
  '(e, file) ← file_ (rc_reader rc);
  e ← fs_delete_sequential file e;
  '(mem, db) ← reuse_log log_number last_log rc (set_env e (db_versions (rc_db rc)) (rc_db rc));
  match mem with
  | None => Some (rc_status rc, rc_save_manifest rc, rc_edit rc, rc_max_sequence rc, db, rc_tc rc)
  | Some mem =>
      if ok (rc_status rc)
      then '(s, edit, db, tc) ← WriteLevel0Table mem (rc_edit rc) None db (rc_tc rc);
           Some (s, true, edit, rc_max_sequence rc, db, tc)
      else Some (rc_status rc, rc_save_manifest rc, rc_edit rc, rc_max_sequence rc, db, rc_tc rc)
  end.
End db_recover.
