(* ===== verification/LogRecovery.v ===== *)
(** What recovering a log file restores (db/db_impl.cc, [RecoverLogFile]): the
    tables it adds hold exactly the groups whose records are complete. *)
From stdpp Require Import gmap sorting.
From S2P Require Import Prelude Coding Env FileSystem MemEnv MemFs Bloom Comparator FilterPolicy FilterBlock DbFormat Filename LogFormat LogReader SkipList Arena MemTable WriteBatch Iterator MemIter Block Format TableBuilder Table TableCache BuildTable VersionEdit Version VersionBuilder VersionSet DbImpl GroupCommit DbRecover.

(** ** Bounds of parts *)

Lemma block_bound_cons (e : kv) l : block_bound (e :: l) = block_bound [e] + (block_bound l - 8).
Proof. change (e :: l) with ([e] ++ l). rewrite block_bound_app. lia. Qed.

Lemma block_bound_perm (l l' : list kv) : l ≡ₚ l' → block_bound l = block_bound l'.
Proof.
  induction 1 as [|x l l' _ IH|x y l|l1 l2 l3 _ IH1 _ IH2]; [done| | |congruence].
  - by rewrite (block_bound_cons x l), (block_bound_cons x l'), IH.
  - rewrite (block_bound_cons y (x :: l)), (block_bound_cons x l), (block_bound_cons x (y :: l)), (block_bound_cons y l). lia.
Qed.

Lemma block_bound_part (l l' : list kv) : l ⊆+ l' → block_bound l <= block_bound l'.
Proof.
  intros (k & Hk)%submseteq_Permutation. rewrite (block_bound_perm _ _ Hk), block_bound_app. pose proof (block_bound_pos k). lia.
Qed.

Section log_recovery.
Context {C P E : Type} `{!Comparator C, !EqDecision (InternalKeyComparator C), !FilterPolicy P, !FileSystem E}.
Context {uvalid : list byte → Prop} `{!ComparatorLaws C uvalid}.
Context {good : InternalFilterPolicy P → list (list byte) → Prop} `{!FilterPolicyLaws (InternalFilterPolicy P) good}.
Context {env_ok : E → Prop} {files : E → list byte → option (list byte)} {writing : E → WFile E → list byte → Prop}
  {reading : E → SFile E → list byte → Prop} {pos : SFile E → nat} {viewing : E → RFile E → list byte → Prop}
  `{!FileSystemLaws E env_ok files writing reading pos, !RandomFileLaws E env_ok files writing reading viewing}.
Context (icmp : InternalKeyComparator C) (new_array : list piece → Z → Z).
Context (snappy zstd : Codec) (policy_name : InternalFilterPolicy P → list byte) (allocates : E * RFile E → bool) (addr : Z).
Context (options : Options (InternalKeyComparator C) (InternalFilterPolicy P)) (using_direct_io has_block_cache : bool).
Context (dbname : list byte) (max_file_size write_buffer_size : Z) (reuse_logs : bool) (same : list byte → list byte → Prop) (capacity : Z).
Notation DBImpl := (DBImpl (C := C) (E := E)).
Notation TableCache := (TableCache (C := InternalKeyComparator C) (P := InternalFilterPolicy P) (E := E)).
Notation valid := (valid_key uvalid).
Notation holds_table := (holds_table (valid := valid) (good := good) snappy zstd policy_name options same).
Notation unchanged := (unchanged files writing reading).
Notation caches := (caches (viewing := viewing) dbname).
Notation TableName n := (TableFileName dbname n).
Notation WriteLevel0Table := (WriteLevel0Table icmp snappy zstd policy_name allocates addr options using_direct_io has_block_cache dbname max_file_size).
Implicit Types (db : DBImpl) (tc : TableCache) (edit : VersionEdit) (e : E).

Hypothesis Hsnappy : codec_ok snappy.
Hypothesis Hzstd : codec_ok zstd.
Hypothesis Hcmp : comparator options = icmp.
Hypothesis Hoptions : options_ok (valid := valid) policy_name options same.
Hypothesis Hshort : ∀ u, uvalid u → Z.of_nat (length u) + 8 < 2 ^ 32.

(** The entries, and so any part of them, fit in a table. *)
Record entries_fit (all : list entry) : Prop := {
  ef_bound : block_bound (ikv <$> all) < 2 ^ 30;
  ef_good p ks : filter_policy options = Some p → ks ≠ [] → ks ⊆+ (ikey <$> all) → good p ks;
  ef_filter es : es ⊆+ all → filter_fits (E := E) snappy zstd addr options (ikv <$> es);
}.

(** A table file with the entries [es], as its meta data describes it. *)
Definition table_stored e (m : FileMetaData) (es : list entry) : Prop :=
  ∃ content l x y, files e (TableName (number m)) = Some content ∧ file_size m = Z.of_nat (length content) ∧ holds_table content l ∧
    l ≡ₚ ikv <$> es ∧ head l = Some x ∧ last l = Some y ∧ rep_ (smallest m) = x.1 ∧ rep_ (largest m) = y.1.

Lemma fine_part_of all es : entries_fit all → es ⊆+ all → Forall (entry_ok uvalid) es → sorted_kvs (internal_Compare icmp) (ikv <$> es) →
  fine (valid := valid) (good := good) options (ikv <$> es).
Proof using Hcmp.
  intros [Hb Hg _] Hsub Hok Hs. split; [by rewrite Hcmp| | |].
  - apply Forall_fmap. apply (Forall_impl _ _ _ Hok). intros x Hx. by apply ikey_valid.
  - eapply Z.le_lt_trans; [|exact Hb]. apply block_bound_part. by apply fmap_submseteq.
  - intros p ks Hp Hne Hks. apply (Hg p ks Hp Hne). transitivity ((ikv <$> es).*1); [by apply sublist_submseteq|].
    rewrite <- list_fmap_compose. by apply fmap_submseteq.
Qed.

(** The numbers of the tables cached so far are below the next file number. *)
Record can_flush (numbers : list Z) db tc : Prop := {
  cf_env : env_ok (db_env db);
  cf_next : 0 <= vs_next_file_number_ (db_versions db) < 2 ^ 64 - 1;
  cf_room : table_room capacity numbers;
  cf_caches : caches capacity [] numbers (db_env db) tc;
  cf_below : Forall (λ n, n < vs_next_file_number_ (db_versions db)) numbers;
}.

Lemma WriteLevel0Table_spec numbers all mem es edit db tc : can_flush numbers db tc → entries_fit all → es ⊆+ all → es ≠ [] →
  mem_repr (uvalid := uvalid) mem es → MemTable.comparator_ mem = icmp →
  let n := vs_next_file_number_ (db_versions db) in
  ∃ m db' tc', WriteLevel0Table mem edit None db tc = Some (Status_OK, AddFile 0 (number m) (file_size m) (smallest m) (largest m) edit, db', tc') ∧
    number m = n ∧ table_stored (db_env db') m es ∧ env_ok (db_env db') ∧ (∀ x, x ≠ TableName n → files (db_env db') x = files (db_env db) x) ∧
    unchanged (TableFileName dbname <$> n :: numbers) (db_env db) (db_env db') ∧ caches capacity [] (n :: numbers) (db_env db') tc' ∧ vs_next_file_number_ (db_versions db') = n + 1 ∧
    set_env (db_env db) (db_versions db) db' = set_background (({[n]} ∪ db_pending_outputs db) ∖ {[n]}) (db_bg_error db) (db_scheduled db) (db_manual db) db ∧
    db_versions db' = (NewFileNumber (db_versions db)).2.
Proof using All.
  intros [He Hn Hroom Hc Hbelow] Hfit Hsub Hne (Hok & es' & Hrepr & Hp) Hmc n. unfold WriteLevel0Table, NewFileNumber. fold n.
  assert (Forall (entry_ok uvalid) es') as Hok' by (by rewrite Hp). set (l := ikv <$> es').
  assert (mem_at (uvalid := uvalid) icmp (MemTable_NewIterator mem) l None) as Hat by (exists es'; split_and!; try done; by rewrite <- Hmc).
  pose proof (mem_sorted icmp _ _ _ Hat) as Hsorted.
  assert (es' ⊆+ all) as Hsub' by (by rewrite Hp).
  pose proof (fine_part_of all es' Hfit Hsub' Hok' Hsorted) as Hfine.
  destruct (head l) as [x|] eqn:Hx; [|exfalso; unfold l in Hx; destruct es'; [|done]; apply Permutation_nil_l in Hp; done].
  destruct (last l) as [y|] eqn:Hy; [|exfalso; apply last_None in Hy; by rewrite Hy in Hx].
  assert (length l < S (length (nodes (MemTable.table_ mem))))%nat as Hfuel.
  { destruct Hrepr as (L & Hinv & HL & _). apply Forall2_length in HL. rewrite length_fmap in HL. unfold l. rewrite length_fmap, (inv_length _ _ _ Hinv). lia. }
  set (meta := {| number := n; file_size := 0; smallest := {| rep_ := [] |}; largest := {| rep_ := [] |} |}).
  set (db1 := set_background _ _ _ _ _). change (db_env db1) with (db_env db).
  assert (IteratorLaws (MemTableIterator C) (Compare (comparator options)) valid (mem_at (uvalid := uvalid) icmp)) as Hlaws by (rewrite Hcmp; apply (mem_laws icmp Hshort)).
  destruct (BuildTable_spec snappy zstd Hsnappy Hzstd policy_name allocates addr options using_direct_io has_block_cache dbname same (valid := valid) (I := MemTableIterator C) (R := mem_at icmp) Hoptions
    capacity numbers (S (length (nodes (MemTable.table_ mem)))) (MemTable_NewIterator mem) l None x y meta tc (db_env db))
    as (tc' & e' & content & Hbt & Hf & Hpos & Hholds & He' & Hsame & Hu & Hc'); try done.
  { by apply (ef_filter _ Hfit). }
  { unfold meta. cbn. lia. }
  { cbn. intros Hin. rewrite Forall_forall in Hbelow. specialize (Hbelow n Hin). unfold n in Hbelow. lia. }
  rewrite Hbt. cbn [mbind option_bind ok Status_OK state_ andb file_size]. rewrite (proj2 (Z.ltb_lt _ _)) by lia. cbn [mbind option_bind].
  eexists {| number := n; file_size := Z.of_nat (length content); smallest := {| rep_ := x.1 |}; largest := {| rep_ := y.1 |} |}, _, tc'.
  split; [reflexivity|]. split; [done|]. split.
  { exists content, l, x, y. cbn. split_and!; try done. unfold l. by rewrite Hp. }
  split_and!; try done. cbn. rewrite u64_small; [done|]. unfold n in *. lia.
Qed.

(** ** The state of the recovery *)

Section recovering.
Context (edit0 : VersionEdit) (max0 : Z) (save0 : bool) (db0 : DBImpl) (numbers0 : list Z) (log_number : Z).
Notation N0 := (vs_next_file_number_ (db_versions db0)).
Notation L := (LogFileName dbname log_number).
Notation Recovery := (Recovery (C := C) (P := P) (E := E)).
Implicit Types (rc : Recovery) (segs : list (list group)) (cur done : list group) (metas : list FileMetaData).

Definition add_tables edit metas : VersionEdit := foldl (λ edit m, AddFile 0 (number m) (file_size m) (smallest m) (largest m) edit) edit metas.
Definition last_number (m : Z) (x : group) : Z := Z.max m (x.1 + Z.of_nat (length x.2) - 1).

(** The groups [done] are recovered: [segs] in the tables [metas], [cur] in the
    memtable; [e] is the environment. *)
Record progress done e segs cur metas rc : Prop := {
  pg_status : rc_status rc = Status_OK;
  pg_done : mjoin segs ++ cur = done;
  pg_nonempty : Forall (λ seg, seg ≠ []) segs;
  pg_mem : match rc_mem rc with None => cur = [] | Some m => cur ≠ [] ∧ mem_repr (uvalid := uvalid) m (replay cur) ∧ MemTable.comparator_ m = icmp end;
  pg_tables : Forall2 (λ m seg, table_stored e m (replay seg)) metas segs;
  pg_numbers i m : metas !! i = Some m → number m = N0 + Z.of_nat i;
  pg_edit : rc_edit rc = add_tables edit0 metas;
  pg_versions : db_versions (rc_db rc) = set_numbers (N0 + Z.of_nat (length metas)) (vs_manifest_file_number_ (db_versions db0)) (vs_last_sequence_ (db_versions db0))
                                           (vs_log_number_ (db_versions db0)) (vs_prev_log_number_ (db_versions db0)) (db_versions db0);
  pg_db : set_env (db_env db0) (db_versions db0) (rc_db rc) = db0;
  pg_caches : caches capacity [] (reverse (number <$> metas) ++ numbers0) e (rc_tc rc);
  pg_env : env_ok e;
  pg_files x : x ∉ (λ m, TableName (number m)) <$> metas → files e x = files (db_env db0) x;
  pg_max : rc_max_sequence rc = foldl last_number max0 done;
  pg_save : rc_save_manifest rc = save0 || bool_decide (metas ≠ []);
}.

Lemma table_stored_env e e' m es : files e' (TableName (number m)) = files e (TableName (number m)) → table_stored e m es → table_stored e' m es.
Proof. intros Hf (content & l & x & y & Hc & H). exists content, l, x, y. by rewrite Hf. Qed.

Lemma segments_length segs : Forall (λ seg : list group, seg ≠ []) segs → (length segs ≤ length (mjoin segs))%nat.
Proof. induction 1 as [|seg segs Hs _ IH]; [done|]. change (mjoin (seg :: segs)) with (seg ++ mjoin segs). rewrite length_app. destruct seg; [done|]. cbn. lia. Qed.

Lemma progress_count done e segs cur metas rc : progress done e segs cur metas rc → (length metas + length cur ≤ length done)%nat.
Proof.
  intros Hp. rewrite <- (pg_done _ _ _ _ _ _ Hp), length_app, (Forall2_length _ _ _ (pg_tables _ _ _ _ _ _ Hp)). pose proof (segments_length _ (pg_nonempty _ _ _ _ _ _ Hp)). lia.
Qed.

(** What the recovery of at most [n] groups asks for. *)
Record may_recover (n : nat) : Prop := {
  mr_next : 0 <= N0 ∧ N0 + Z.of_nat n < 2 ^ 64 - 1;
  mr_capacity : 0 < capacity < 2 ^ 64 - 15 ∧ Z.of_nat (length numbers0 + n) < 2 ^ 31 - 1;
  mr_numbers : Forall (λ x, 0 <= x < N0) numbers0;
  mr_pending : db_pending_outputs db0 = ∅;
  mr_log : 0 <= log_number < 2 ^ 64;
}.

Lemma progress_range n done e segs cur metas rc : may_recover n → progress done e segs cur metas rc →
  Forall (λ x, 0 <= x < N0 + Z.of_nat (length metas)) (reverse (number <$> metas) ++ numbers0).
Proof.
  intros Hmay Hp. destruct (mr_next _ Hmay) as [H0 _]. apply Forall_app. split; [|eapply Forall_impl; [apply (mr_numbers _ Hmay)|cbn; lia]].
  apply Forall_reverse, Forall_fmap, Forall_lookup. intros i m Hi. cbn. rewrite (pg_numbers _ _ _ _ _ _ Hp i m Hi). apply lookup_lt_Some in Hi. lia.
Qed.

(** Reading the log changes nothing else. *)
Lemma progress_env n done e e' segs cur metas rc : may_recover n → (length done ≤ n)%nat → env_ok e' → unchanged [L] e e' → files e' L = files e L →
  progress done e segs cur metas rc → progress done e' segs cur metas rc.
Proof using RandomFileLaws0.
  intros Hmay Hn He' Hu HL Hp. pose proof (progress_range _ _ _ _ _ _ _ Hmay Hp) as Hrange. pose proof (progress_count _ _ _ _ _ _ Hp). destruct (mr_next _ Hmay).
  assert (∀ x, files e' x = files e x) as Hf by (intros x; destruct (decide (x = L)) as [->|Hx]; [done|]; apply (un_files _ _ _ _ _ _ Hu); by intros ?%list_elem_of_singleton).
  destruct Hp as [? ? ? ? Ht ? ? ? ? Hc He Hfiles ? ?]. split; try done.
  - eapply Forall2_impl; [exact Ht|]. intros m seg. by apply table_stored_env.
  - eapply (caches_env dbname capacity [] _ [L] e); try done. intros k Hk Heq%list_elem_of_singleton. rewrite Forall_forall in Hrange. specialize (Hrange k Hk).
    apply (table_not_log dbname k log_number) in Heq; [done|lia|apply (mr_log _ Hmay)].
  - intros x Hx. by rewrite Hf, Hfiles.
Qed.

Lemma progress_can_flush n done e segs cur metas rc db : may_recover n → (length done ≤ n)%nat → cur ≠ [] → progress done e segs cur metas rc →
  db = set_env e (db_versions (rc_db rc)) (rc_db rc) → can_flush (reverse (number <$> metas) ++ numbers0) db (rc_tc rc).
Proof.
  intros Hmay Hn Hcur Hp ->. pose proof (progress_range _ _ _ _ _ _ _ Hmay Hp) as Hall. destruct Hmay as [Hnext (Hcap & Hmany) _ _ _].
  pose proof (progress_count _ _ _ _ _ _ Hp) as Hcount. assert (0 < length cur)%nat by (destruct cur; [done|cbn; lia]).
  split; cbn [set_env db_env db_versions]; rewrite ?(pg_versions _ _ _ _ _ _ Hp); cbn [set_numbers vs_next_file_number_].
  - apply Hp.
  - lia.
  - split; [done|]. rewrite length_app, length_reverse, length_fmap. split; [lia|]. eapply Forall_impl; [exact Hall|]. cbn. lia.
  - apply Hp.
  - eapply Forall_impl; [exact Hall|]. cbn. lia.
Qed.

Definition group_ok (x : group) : Prop := x.2 ≠ [] ∧ Forall (mem_op uvalid) x.2 ∧ Z.of_nat (length x.2) < 2 ^ 31.

Lemma replay_app (a b : list group) : replay (a ++ b) = replay b ++ replay a.
Proof. induction b as [|x b IH] using rev_ind; [by rewrite app_nil_r|]. rewrite (assoc_L (++)), !replay_snoc, IH. by rewrite (assoc_L (++)). Qed.

Lemma replay_part (a b c : list group) : replay b ⊆+ replay (a ++ b ++ c).
Proof. rewrite !replay_app, <- (assoc_L (++)). apply submseteq_middle. Qed.

Lemma batch_entries_nonempty q os : os ≠ [] → batch_entries q os ≠ [].
Proof. by destruct os. Qed.

Lemma replay_nonempty cur : Forall group_ok cur → cur ≠ [] → replay cur ≠ [].
Proof.
  intros Hok Hne. destruct (exists_last Hne) as (l & x & ->). rewrite replay_snoc. apply Forall_app in Hok as [_ [[Hx _] _]%Forall_cons].
  intros [Hr _]%app_eq_nil. apply (f_equal reverse) in Hr. rewrite reverse_involutive in Hr. by apply (batch_entries_nonempty x.1 x.2) in Hx.
Qed.

(** The memtable goes to a table. *)
Lemma flush_step n all done e segs cur metas rc mem : may_recover n → (length done ≤ n)%nat → entries_fit all → replay cur ⊆+ all → Forall group_ok cur →
  progress done e segs cur metas rc → rc_mem rc = Some mem →
  ∃ m edit' db' tc', WriteLevel0Table mem (rc_edit rc) None (set_env e (db_versions (rc_db rc)) (rc_db rc)) (rc_tc rc) = Some (Status_OK, edit', db', tc') ∧
    (∃ ks, Forall (λ k, 0 <= k < 2 ^ 64) ks ∧ unchanged (TableFileName dbname <$> ks) e (db_env db')) ∧
    ∀ reader compactions, progress done (db_env db') (segs ++ [cur]) [] (metas ++ [m])
      {| rc_reader := reader; rc_status := Status_OK; rc_mem := None; rc_compactions := compactions; rc_save_manifest := true; rc_edit := edit';
         rc_max_sequence := rc_max_sequence rc; rc_db := db'; rc_tc := tc' |}.
Proof using All.
  intros Hmay Hn Hfit Hsub Hcok Hp Hmem. pose proof (pg_mem _ _ _ _ _ _ Hp) as Hm. rewrite Hmem in Hm. destruct Hm as (Hcur & Hrepr & Hmc).
  set (db := set_env e (db_versions (rc_db rc)) (rc_db rc)).
  assert (vs_next_file_number_ (db_versions db) = N0 + Z.of_nat (length metas)) as Hnext by (cbn; by rewrite (pg_versions _ _ _ _ _ _ Hp)).
  destruct (WriteLevel0Table_spec (reverse (number <$> metas) ++ numbers0) all mem (replay cur) (rc_edit rc) db (rc_tc rc)) as (m & db' & tc' & Hw & Hnum & Hst & He' & Hsame & Hu & Hc' & Hnx & Hdb & Hvs); try done.
  { by eapply progress_can_flush. }
  { by apply replay_nonempty. }
  rewrite Hnext in *. exists m, (AddFile 0 (number m) (file_size m) (smallest m) (largest m) (rc_edit rc)), db', tc'. split; [done|].
  pose proof (progress_count _ _ _ _ _ _ Hp) as Hcount. pose proof (mr_next _ Hmay) as Hrange. assert (0 < length cur)%nat by (destruct cur; [done|cbn; lia]). split.
  { eexists. split; [|exact Hu]. constructor; [lia|]. eapply Forall_impl; [by eapply progress_range|]. cbn. lia. }
  assert (∀ i m', metas !! i = Some m' → TableName (number m') ≠ TableName (N0 + Z.of_nat (length metas))) as Hne.
  { intros i m' Hi Heq. pose proof (pg_numbers _ _ _ _ _ _ Hp i m' Hi). apply lookup_lt_Some in Hi. apply TableFileName_inj in Heq; lia. }
  intros reader compactions. split; cbn [rc_status rc_mem rc_edit rc_db rc_tc rc_max_sequence rc_save_manifest]; try done.
  - rewrite app_nil_r, join_app. rewrite <- (pg_done _ _ _ _ _ _ Hp). cbn. by rewrite app_nil_r.
  - apply Forall_app. split; [apply Hp|by repeat constructor].
  - apply Forall2_app; [|by repeat constructor]. apply Forall2_same_length_lookup. split; [by eapply Forall2_length; apply Hp|]. intros i m' seg Hi Hs.
    eapply table_stored_env; [|exact (Forall2_lookup_lr _ _ _ _ _ _ (pg_tables _ _ _ _ _ _ Hp) Hi Hs)].
    by eapply Hsame, Hne.
  - intros i m' [[_ Hi]|[-> <-]]%lookup_snoc_Some; [by apply (pg_numbers _ _ _ _ _ _ Hp)|done].
  - unfold add_tables. rewrite foldl_app, (pg_edit _ _ _ _ _ _ Hp). done.
  - rewrite Hvs. unfold NewFileNumber. cbn [snd db set_env db_versions]. rewrite (pg_versions _ _ _ _ _ _ Hp). unfold set_numbers. cbn [vs_next_file_number_ vs_manifest_file_number_ vs_last_sequence_ vs_log_number_ vs_prev_log_number_ vs_descriptor_file_ vs_descriptor_log_ vs_versions vs_compact_pointer_].
    f_equal. rewrite length_app. cbn [length]. rewrite u64_small; lia.
  - pose proof (pg_db _ _ _ _ _ _ Hp) as Hdb0. apply (f_equal (set_env (db_env db0) (db_versions db0))) in Hdb. cbn in Hdb.
    assert (db_pending_outputs (rc_db rc) = ∅) as Hpend by (rewrite <- (mr_pending _ Hmay), <- Hdb0; done).
    unfold set_env, set_background in *. cbn in Hdb. rewrite Hpend, (right_id_L ∅ (∪)), difference_diag_L, <- Hpend in Hdb. by rewrite Hdb.
  - rewrite fmap_app, list_fmap_singleton, reverse_snoc, Hnum. exact Hc'.
  - intros x Hx. rewrite fmap_app, not_elem_of_app in Hx. destruct Hx as [Hx1 Hx2]. rewrite <- (pg_files _ _ _ _ _ _ Hp) by done. apply Hsame.
    rewrite <- Hnum. intros ->. apply Hx2. left.
  - apply Hp.
  - rewrite bool_decide_true, orb_true_r; [done|]. by destruct metas.
Qed.

(** ** One record *)

Notation recover_record := (recover_record icmp new_array snappy zstd policy_name allocates addr options using_direct_io has_block_cache dbname max_file_size write_buffer_size).

Lemma progress_reader done e segs cur metas rc r : progress done e segs cur metas rc → progress done e segs cur metas (set_reader_status r Status_OK rc).
Proof. by intros []. Qed.

Lemma reader_same_env e h r : file_ r = Some (e, h) → reader_with_env (E := E) e r = Some r.
Proof. intros Hf. unfold reader_with_env. rewrite Hf. cbn. f_equal. destruct r. cbn in *. by rewrite Hf. Qed.

Lemma group_record_length q os : (12 ≤ length (group_record (q, os)))%nat.
Proof. unfold group_record, Contents, batch. cbn [wb_rep fst snd]. rewrite !length_app, length_EncodeFixed64, length_EncodeFixed32. lia. Qed.

Lemma record_step n all done e segs cur metas rc q os h : may_recover n → (length (done ++ [(q, os)]) ≤ n)%nat → entries_fit all → replay (cur ++ [(q, os)]) ⊆+ all →
  Forall group_ok (cur ++ [(q, os)]) → 0 <= q → q + Z.of_nat (length os) <= kMaxSequenceNumber + 1 → Forall (λ x : entry, sequence x.1 < q) (replay cur) →
  progress done e segs cur metas rc → file_ (rc_reader rc) = Some (e, h) →
  ∃ rc' e' segs' cur' metas' ks, recover_record (group_record (q, os)) rc = Some (rc', true) ∧ progress (done ++ [(q, os)]) e' segs' cur' metas' rc' ∧
    reader_with_env e' (rc_reader rc) = Some (rc_reader rc') ∧ Forall (λ k, 0 <= k < 2 ^ 64) ks ∧ unchanged (TableFileName dbname <$> ks) e e' ∧ (cur' = [] ∨ cur' = cur ++ [(q, os)]).
Proof using All.
  intros Hmay Hn Hfit Hsub Hcok Hq Hmax Hlt Hp Hfile. pose proof Hcok as [_ [(Hos & Hops & Hcnt) _]%Forall_cons]%Forall_app. cbn [snd] in *.
  unfold DbRecover.recover_record. pose proof (group_record_length q os) as Hlen. rewrite (proj2 (Nat.ltb_ge _ _)) by done.
  unfold SetContents. rewrite (proj2 (Nat.ltb_ge _ _)) by done. cbn [mbind option_bind]. change {| wb_rep := group_record (q, os) |} with (batch q os).
  set (mem := default (MemTable_Ref (MemTable_new new_array icmp)) (rc_mem rc)).
  assert (mem_repr (uvalid := uvalid) mem (replay cur) ∧ MemTable.comparator_ mem = icmp) as [Hrepr Hmc].
  { unfold mem. pose proof (pg_mem _ _ _ _ _ _ Hp) as Hm. destruct (rc_mem rc) as [m|]; [by destruct Hm as (_ & ? & ?)|]. rewrite Hm. split; [|done]. apply mem_repr_new. }
  destruct (InsertInto_batch new_array os q mem (replay cur) Hrepr Hlt Hops Hcnt Hq Hmax) as (mem' & -> & Hrepr' & Hmc'). cbn [mbind option_bind].
  change (MaybeIgnoreError options Status_OK) with Status_OK. cbn [ok Status_OK state_ negb]. change kMaxSequenceNumber with (2 ^ 56 - 1) in Hmax.
  rewrite Sequence_batch, Count_batch by lia. cbn [mbind option_bind]. rewrite u64_small by (destruct os; [done|cbn [length] in *; lia]).
  set (rc1 := set_mem_max _ _ _ _). assert (progress (done ++ [(q, os)]) e segs (cur ++ [(q, os)]) metas rc1) as Hp1.
  { destruct Hp as [? Hd ? ? ? ? ? ? ? ? ? ? Hm ?]. split; try done.
    - by rewrite (assoc_L (++)), Hd.
    - cbn [rc1 set_mem_max rc_mem]. split; [by destruct cur|]. rewrite replay_snoc. split; [done|congruence].
    - cbn [rc1 set_mem_max rc_max_sequence]. rewrite foldl_app, Hm. set (M := foldl last_number max0 done). cbn [foldl]. unfold last_number. cbn [fst snd].
      destruct (Z.ltb_spec M (q + Z.of_nat (length os) - 1)); lia. }
  destruct (write_buffer_size <? _).
  - unfold flush_recovered. change (rc_reader rc1) with (rc_reader rc). rewrite Hfile. cbn [mbind option_bind].
    destruct (flush_step n all _ e segs _ metas rc1 mem' Hmay Hn Hfit Hsub Hcok Hp1 eq_refl) as (m & edit' & db' & tc' & -> & (ks & Hks & Hu) & Hp2). cbn [mbind option_bind].
    assert (∃ r', reader_with_env (db_env db') (rc_reader rc) = Some r') as [r' Hr'] by (unfold reader_with_env; rewrite Hfile; cbn; by eexists).
    rewrite Hr'. cbn [mbind option_bind rc_status ok Status_OK state_]. eexists _, (db_env db'), _, _, _, ks. split; [done|]. split; [apply Hp2|]. split; [done|]. split; [done|split; [exact Hu|by left]].
  - eexists rc1, e, segs, _, metas, []. split; [done|]. split; [done|]. split; [by eapply reader_same_env|]. split; [constructor|]. split; [apply unchanged_refl|by right].
Qed.

(** The reader goes on in the environment with the new table. *)
Lemma reader_moves e0 e e' h ks r r' o R : at_ (wf := open_s (env_ok := env_ok) (files := files) (writing := writing) (reading := reading) L e0) (rest := open_rest (files := files) (pos := pos) L) r o R →
  file_ r = Some (e, h) → reader_with_env e' r = Some r' → env_ok e' → Forall (λ k, 0 <= k < 2 ^ 64) ks → 0 <= log_number < 2 ^ 64 → unchanged (TableFileName dbname <$> ks) e e' → LogReader.ready r →
  at_ (wf := open_s (env_ok := env_ok) (files := files) (writing := writing) (reading := reading) L e') (rest := open_rest (files := files) (pos := pos) L) r' o R ∧
  LogReader.ready r' ∧ file_ r' = Some (e', h) ∧ reports r' = reports r.
Proof.
  intros [Hwf Hb Hbl] Hf Hr He' Hk Hlog Hu Hrd. unfold reader_with_env in Hr. rewrite Hf in Hr. injection Hr as <-.
  assert (L ∉ TableFileName dbname <$> ks) as Hne.
  { intros (k & Heq & Hin)%list_elem_of_fmap. rewrite Forall_forall in Hk. exact (table_not_log dbname k log_number (Hk k Hin) Hlog (eq_sym Heq)). }
  destruct Hwf as (e1 & h1 & Heq & He & Hrd1 & _ & _). rewrite Hf in Heq. injection Heq as <- <-. rewrite Hf in Hb, Hbl.
  assert (open_rest (files := files) (pos := pos) L (Some (e', h)) = open_rest (files := files) (pos := pos) L (Some (e, h))) as Hrest by (cbn; by rewrite (un_files _ _ _ _ _ _ Hu)).
  split; [|done]. split; cbn [file_ buffer_ eof_]; rewrite ?Hrest; try done. exists e', h. split_and!; try done. by apply (un_reading _ _ _ _ _ _ Hu).
Qed.

(** ** The loop *)

Notation recover_log_loop := (recover_log_loop icmp new_array snappy zstd policy_name allocates addr options using_direct_io has_block_cache dbname max_file_size write_buffer_size).
Notation log_open e0 := (open_s (env_ok := env_ok) (files := files) (writing := writing) (reading := reading) L e0).
Notation log_rest := (open_rest (files := files) (pos := pos) L).

(** Which groups of a log that ends with [R] are complete. *)
Definition complete_groups (o : nat) (rest : list group) (R : list byte) (j : nat) : Prop :=
  (j ≤ length rest)%nat ∧ (length (encode_log o (group_record <$> take j rest)).1 ≤ length R)%nat ∧
  (j < length rest → length R < length (encode_log o (group_record <$> take (S j) rest)).1)%nat.

Lemma encode_log_cons o d l : length (encode_log o (d :: l)).1 = (length (encode_record o d).1 + length (encode_log (encode_record o d).2 l).1)%nat.
Proof. cbn [encode_log]. destruct (encode_record o d) as [a b]. cbn [fst snd]. destruct (encode_log b l). cbn [fst]. apply length_app. Qed.

Lemma recover_log_loop_spec n all fuel rest : ∀ count done e h segs cur metas rc o R q q', may_recover n → (length (done ++ rest) ≤ n)%nat → entries_fit all →
  (∃ pre, replay (pre ++ cur ++ rest) = all) → Forall group_ok (cur ++ rest) → numbered q rest q' → 0 <= q → q' <= kMaxSequenceNumber → Forall (λ x : entry, sequence x.1 <= q) (replay cur) →
  progress done e segs cur metas rc → file_ (rc_reader rc) = Some (e, h) → at_ (wf := log_open e) (rest := log_rest) (rc_reader rc) o R → LogReader.ready (rc_reader rc) → (o ≤ LogFormat.kBlockSize)%nat →
  R `prefix_of` (encode_log o (group_record <$> rest)).1 → (0 < fuel)%nat → Forall (λ d, (length d + 2 ≤ fuel)%nat) (group_record <$> rest) → (length rest < count)%nat →
  ∃ j rc' e' h' segs' cur' metas', recover_log_loop count fuel rc = Some rc' ∧ progress (done ++ take j rest) e' segs' cur' metas' rc' ∧ complete_groups o rest R j ∧
    file_ (rc_reader rc') = Some (e', h') ∧ reading e' h' L ∧ (∃ pre, replay (pre ++ cur' ++ drop j rest) = all) ∧ Forall group_ok cur'.
Proof using All.
  induction rest as [|[m os] rest IH]; intros count done e h segs cur metas rc o R q q' Hmay Hn Hfit [pre Hall] Hok Hnum Hq Hq' Hseq Hp Hfile Hat Hrdy Ho HR Hfuel0 Hfuel Hcount;
    (destruct count as [|count]; [cbn in Hcount; lia|]); cbn [DbRecover.recover_log_loop].
  all: assert (length done ≤ n)%nat as Hdone by (rewrite length_app in Hn; lia).
  all: destruct (read_log_step _ fuel _ o R Hat Hrdy Ho HR Hfuel0 Hfuel) as [(d & ds & r' & R' & Heq & Hrd & -> & Hat' & Hrdy' & Hsame & Ho' & HR')|(r' & Hrd & Hsame & Hcut)]; rewrite Hrd; cbn [mbind option_bind].
  all: pose proof (ReadRecord_later (rest := log_rest) _ _ _ _ (at_wf _ _ _ Hat) Hrd) as [Hlat _]; specialize (Hlat (at_wf _ _ _ Hat)).
  all: destruct Hlat as (e1 & h1 & Hf1 & He1 & Hr1 & HL1 & Hu1).
  all: destruct Hsame as (_ & _ & Hrep & _); rewrite Hrep, drop_all, (pg_status _ _ _ _ _ _ Hp).
  all: replace (reported options Status_OK []) with Status_OK by (unfold reported; by destruct (paranoid_checks options)).
  all: pose proof (progress_reader _ _ _ _ _ _ r' (progress_env _ _ _ _ _ _ _ _ Hmay Hdone He1 Hu1 HL1 Hp)) as Hp1; try done.
  - exists 0%nat, (set_reader_status r' Status_OK rc), e1, h1, segs, cur, metas. rewrite take_nil, app_nil_r in *. split; [done|]. split; [done|]. split; [split_and!; cbn; lia|]. split_and!; try done.
    exists pre. cbn. by rewrite ?app_nil_r.
  - apply Forall_cons in Hfuel as [_ Hfuel]. injection Heq as <- <-. destruct Hnum as [-> Hnum]. destruct (replay_range _ _ _ Hnum) as [Hle _].
    cbn [set_reader_status rc_status ok Status_OK state_ negb]. fold (@fmap list _ group (list byte)) in HR'.
    assert (Forall group_ok (cur ++ [(q + 1, os)]) ∧ Forall group_ok rest) as [Hok1 Hok2] by (apply Forall_app in Hok as [? [? ?]%Forall_cons]; split; [apply Forall_app; split; [done|by apply Forall_singleton]|done]).
    destruct (record_step n all done e1 segs cur metas (set_reader_status r' Status_OK rc) (q + 1) os h1) as (rc' & e' & segs' & cur' & metas' & ks & -> & Hp2 & Hrw & Hk & Hu & Hcur'); try done; try lia.
    { rewrite length_app in Hn |- *. cbn [length] in *. lia. }
    { rewrite <- Hall. change ((q + 1, os) :: rest) with ([(q + 1, os)] ++ rest). rewrite (assoc_L (++) cur). apply replay_part. }
    { eapply Forall_impl; [exact Hseq|]. cbn. lia. }
    cbn [mbind option_bind]. destruct (reader_moves e e1 e' h1 ks r' (rc_reader rc') _ _ Hat' Hf1 Hrw (pg_env _ _ _ _ _ _ Hp2) Hk (mr_log _ Hmay) Hu Hrdy') as (Hat2 & Hrdy2 & Hf2 & _).
    destruct (IH count (done ++ [(q + 1, os)]) e' h1 segs' cur' metas' rc' (encode_record o (group_record (q + 1, os))).2 R' (q + Z.of_nat (length os)) q') as (j & rc2 & e2 & h2 & segs2 & cur2 & metas2 & Hloop & Hp3 & (Hj & Hlo & Hhi) & Hf3 & Hr3 & Hall3 & Hok3); try done; try lia.
    { rewrite <- (assoc_L (++)). done. }
    { destruct Hcur' as [->| ->]; [exists (pre ++ cur ++ [(q + 1, os)])|exists pre]; rewrite <- Hall; f_equal; by rewrite <- !(assoc_L (++)). }
    { apply Forall_app. split; [|done]. destruct Hcur' as [->| ->]; done. }
    { destruct Hcur' as [->| ->]; [constructor|]. rewrite replay_snoc. apply Forall_app. split; [|eapply Forall_impl; [exact Hseq|cbn; lia]].
      apply Forall_forall. intros x Hx%elem_of_reverse%batch_entries_range. cbn beta. cbn [fst snd] in Hx. lia. }
    { cbn [length] in Hcount. lia. }
    exists (S j), rc2, e2, h2, segs2, cur2, metas2. rewrite Hloop. split; [done|]. rewrite <- (assoc_L (++)) in Hp3. split; [done|]. split; [|done].
    unfold complete_groups. cbn [take length]. rewrite !fmap_cons, !encode_log_cons, length_app. split; [lia|]. split; [lia|]. intros Hlt. specialize (Hhi ltac:(lia)). lia.
  - exists 0%nat, (set_reader_status r' Status_OK rc), e1, h1, segs, cur, metas. rewrite take_0, app_nil_r. split; [done|]. split; [done|]. specialize (Hcut _ _ eq_refl). split.
    { split_and!; [lia|cbn; lia|]. intros _. cbn [take]. rewrite fmap_cons, encode_log_cons. lia. }
    split_and!; try done; [by exists pre|by apply Forall_app in Hok as [? _]].
Qed.

(** ** The log file *)

Notation RecoverLogFile := (RecoverLogFile icmp new_array snappy zstd policy_name allocates addr options using_direct_io has_block_cache dbname max_file_size write_buffer_size reuse_logs).

Lemma RecoverLogFile_progress groups first last R count fuel last_log tc : env_ok (db_env db0) → files (db_env db0) L = Some R →
  R `prefix_of` (encode_log 0 (group_record <$> groups)).1 → may_recover (length groups) → entries_fit (replay groups) → Forall group_ok groups →
  numbered first groups last → 0 <= first → last <= kMaxSequenceNumber → caches capacity [] numbers0 (db_env db0) tc → reuse_logs && last_log = false →
  (0 < fuel)%nat → Forall (λ d, (length d + 2 ≤ fuel)%nat) (group_record <$> groups) → (length groups < count)%nat →
  ∃ j segs metas rc, RecoverLogFile count fuel log_number last_log save0 edit0 max0 db0 tc =
      Some (Status_OK, rc_save_manifest rc, rc_edit rc, rc_max_sequence rc, rc_db rc, rc_tc rc) ∧
    progress (take j groups) (db_env (rc_db rc)) segs [] metas rc ∧ complete_groups 0 groups R j.
Proof using All.
  intros He HL HR Hmay Hfit Hok Hnum Hf Hl Hc Hreuse Hfuel0 Hfuel Hcount. unfold RecoverLogFile.
  destruct (new_sequential_ok (db_env db0) L R He HL) as (e1 & h & -> & He1 & Hr1 & Hpos & HL1 & Hu1). cbn [mbind option_bind ok Status_OK state_ negb].
  set (rc0 := {| rc_reader := _ |}). assert (∀ x, files e1 x = files (db_env db0) x) as Hfs.
  { intros x. destruct (decide (x = L)) as [->|Hx]; [congruence|]. apply (un_files _ _ _ _ _ _ Hu1). by intros ?%list_elem_of_singleton. }
  assert (progress [] e1 [] [] [] rc0) as Hp0.
  { split; try done.
    - cbn [rc0 rc_db length]. rewrite Z.add_0_r. by destruct (db_versions db0).
    - by destruct db0.
    - eapply (caches_env dbname capacity [] numbers0 [L] (db_env db0)); try done. intros k Hk Heq%list_elem_of_singleton. pose proof (mr_numbers _ Hmay) as Hr. rewrite Forall_forall in Hr. specialize (Hr k Hk).
      destruct (mr_next _ Hmay). apply (table_not_log dbname k log_number) in Heq; [done|lia|apply (mr_log _ Hmay)].
    - cbn. by rewrite orb_false_r. }
  assert (log_open e1 (Some (e1, h))) as Hop by (exists e1, h; split_and!; try done; apply unchanged_refl).
  destruct (at_start (rest := log_rest) (Some (e1, h)) true true Hop) as [Hat Hrdy].
  assert (log_rest (Some (e1, h)) = R) as Hrest by (cbn; rewrite HL1, Hpos; done). rewrite Hrest in Hat.
  destruct (recover_log_loop_spec (length groups) (replay groups) fuel groups count [] e1 h [] [] [] rc0 LogFormat.kBlockSize R first last) as (j & rc & e2 & h2 & segs & cur & metas & Hloop & Hp & (Hj & Hlo & Hhi) & Hf2 & Hr2 & [pre Hall] & Hcok);
    try done; [by exists []|by rewrite encode_log_boundary|].
  rewrite Hloop. cbn [mbind option_bind]. rewrite Hf2. cbn [mbind option_bind].
  destruct (delete_sequential_ok e2 h2 L (pg_env _ _ _ _ _ _ Hp) Hr2) as (e3 & -> & He3 & HL3 & Hu3). cbn [mbind option_bind].
  apply (progress_env (length groups) _ _ e3) in Hp; [|done|rewrite length_app, length_take; cbn; lia|done..]. cbn [app] in Hp.
  assert (reuse_log icmp new_array dbname reuse_logs log_number last_log rc (set_env e3 (db_versions (rc_db rc)) (rc_db rc)) = Some (rc_mem rc, set_env e3 (db_versions (rc_db rc)) (rc_db rc))) as ->.
  { unfold reuse_log. by rewrite <- (andb_assoc (ok _)), Hreuse, andb_false_r. }
  cbn [mbind option_bind]. assert (complete_groups 0 groups R j) as Hcg by (unfold complete_groups; by rewrite !encode_log_boundary in Hlo, Hhi).
  pose proof (pg_mem _ _ _ _ _ _ Hp) as Hmem. rewrite (pg_status _ _ _ _ _ _ Hp). destruct (rc_mem rc) as [mem|] eqn:Hm.
  - cbn [ok Status_OK state_]. destruct (flush_step (length groups) (replay groups) (take j groups) e3 segs cur metas rc mem) as (m & edit' & db' & tc' & -> & _ & Hp'); try done.
    { rewrite length_take. lia. }
    { rewrite <- Hall. apply replay_part. }
    cbn [mbind option_bind]. specialize (Hp' (rc_reader rc) 0). lazymatch type of Hp' with progress _ _ ?a _ ?b ?c => exists j, a, b, c end. done.
  - subst cur. set (rc1 := {| rc_reader := rc_reader rc; rc_status := Status_OK; rc_mem := None; rc_compactions := rc_compactions rc; rc_save_manifest := rc_save_manifest rc; rc_edit := rc_edit rc;
      rc_max_sequence := rc_max_sequence rc; rc_db := set_env e3 (db_versions (rc_db rc)) (rc_db rc); rc_tc := rc_tc rc |}).
    exists j, segs, metas, rc1. split; [done|]. split; [|done]. destruct Hp. by split.
Qed.
End recovering.
End log_recovery.

(** ** Claims *)

Definition same_user_key (a b : list byte) : Prop := ExtractUserKey a = ExtractUserKey b.

Section recovery_claims.
Context {C P E : Type} `{!Comparator C, !EqDecision (InternalKeyComparator C), !FilterPolicy P, !FileSystem E}.
Context {uvalid : list byte → Prop} `{!ComparatorLaws C uvalid}.
Context {good : P → list (list byte) → Prop} `{!FilterPolicyLaws P good}.
Context {env_ok : E → Prop} {files : E → list byte → option (list byte)} {writing : E → WFile E → list byte → Prop}
  {reading : E → SFile E → list byte → Prop} {pos : SFile E → nat} {viewing : E → RFile E → list byte → Prop}
  `{!FileSystemLaws E env_ok files writing reading pos, !RandomFileLaws E env_ok files writing reading viewing}.
Context (icmp : InternalKeyComparator C) (new_array : list piece → Z → Z).
Context (snappy zstd : Codec) (policy_name : InternalFilterPolicy P → list byte) (allocates : E * RFile E → bool) (addr : Z).
Context (options : Options (InternalKeyComparator C) (InternalFilterPolicy P)) (using_direct_io has_block_cache : bool).
Context (dbname : list byte) (max_file_size write_buffer_size : Z) (reuse_logs : bool).
Notation igood := (λ (p : InternalFilterPolicy P) keys, good (user_policy_ p) (ExtractUserKey <$> keys)).
Notation reads_as := (reads_as (env_ok := env_ok) (files := files) (viewing := viewing) snappy zstd policy_name allocates addr options).
Notation DBImpl := (DBImpl (C := C) (E := E)).
Notation TableCache := (TableCache (C := InternalKeyComparator C) (P := InternalFilterPolicy P) (E := E)).

(** Settings under which tables are built: third-party code and options. *)
Record settings_ok : Prop := {
  so_snappy : codec_ok snappy;
  so_zstd : codec_ok zstd;
  so_comparator : comparator options = icmp;
  so_restarts : 1 <= block_restart_interval options;
  so_name p : filter_policy options = Some p → Z.of_nat (length (policy_name p)) < 2 ^ 30;
  so_short u : uvalid u → Z.of_nat (length u) + 8 < 2 ^ 32;
}.

Lemma settings_options : settings_ok → options_ok (valid := valid_key uvalid) policy_name options same_user_key.
Proof.
  intros [_ _ Hc Hr Hn _]. split; try done.
  - intros a b Ha _. by apply (internal_separator_length (uvalid := uvalid)).
  - intros a k b Ha Hk Hb Hlt _ Hs. by apply (internal_separator_below (uvalid := uvalid)).
  - intros a Ha. by apply (internal_separator_length (uvalid := uvalid) _ a a).
  - intros k [Hk _] ->. cbn in Hk. lia.
Qed.

(** C2: a crashed log is recovered exactly.  Let a log file hold the records of
    some groups of writes, cut anywhere, as a crash leaves it.  [RecoverLogFile]
    then succeeds, whatever the size of the write buffer; it recovers the groups
    whose records are complete and no others; it writes them in order to new
    level-0 tables, numbered upwards, that the edit adds; each table opens and
    iterates over exactly the entries of its groups; the largest sequence number
    is that of the recovered groups; and no other file changes.  The table cache
    may have any positive capacity and may evict; the log is not one that is kept
    for appending, and its entries fit in a table (below 2^30 bytes). *)
Theorem log_file_recovered groups first last R count fuel last_log log_number save edit max (db : DBImpl) (tc : TableCache) capacity numbers :
  settings_ok → env_ok (db_env db) → files (db_env db) (LogFileName dbname log_number) = Some R → R `prefix_of` (encode_log 0 (group_record <$> groups)).1 →
  Forall (group_ok (uvalid := uvalid)) groups → numbered first groups last → 0 <= first → last <= kMaxSequenceNumber →
  entries_fit (E := E) (good := igood) snappy zstd addr options (replay groups) →
  may_recover capacity db numbers log_number (length groups) → caches (viewing := viewing) dbname capacity [] numbers (db_env db) tc → reuse_logs && last_log = false →
  (0 < fuel)%nat → Forall (λ d, (length d + 2 ≤ fuel)%nat) (group_record <$> groups) → (length groups < count)%nat →
  let next := vs_next_file_number_ (db_versions db) in
  ∃ j segs metas db' tc',
    RecoverLogFile icmp new_array snappy zstd policy_name allocates addr options using_direct_io has_block_cache dbname max_file_size write_buffer_size reuse_logs
      count fuel log_number last_log save edit max db tc =
      Some (Status_OK, save || bool_decide (metas ≠ []), add_tables edit metas, foldl last_number max (take j groups), db', tc') ∧
    complete_groups 0 groups R j ∧ mjoin segs = take j groups ∧ Forall (λ seg, seg ≠ []) segs ∧
    Forall2 (λ m seg, ∃ content l, files (db_env db') (TableFileName dbname (number m)) = Some content ∧ file_size m = Z.of_nat (length content) ∧
      reads_as content l ∧ l ≡ₚ ikv <$> replay seg) metas segs ∧
    (∀ i m, metas !! i = Some m → number m = next + Z.of_nat i) ∧ vs_next_file_number_ (db_versions db') = next + Z.of_nat (length metas) ∧
    (∀ x, x ∉ (λ m, TableFileName dbname (number m)) <$> metas → files (db_env db') x = files (db_env db) x) ∧
    set_env (db_env db) (db_versions db) db' = db.
Proof.
  intros Hset He HL HR Hok Hnum Hf Hl Hfit Hmay Hc Hreuse Hfuel0 Hfuel Hcount next. pose proof (settings_options Hset) as Hopt. destruct Hset as [Hs Hz Hcmp _ _ Hshort].
  destruct (RecoverLogFile_progress (good := igood) icmp new_array snappy zstd policy_name allocates addr options using_direct_io has_block_cache dbname max_file_size write_buffer_size reuse_logs same_user_key capacity
    Hs Hz Hcmp Hopt Hshort edit max save db numbers log_number groups first last R count fuel last_log tc) as (j & segs & metas & rc & Hr & Hp & Hcg); try done.
  exists j, segs, metas, (rc_db rc), (rc_tc rc). destruct Hp as [_ Hdone Hne _ Ht Hn Hed Hvs Hdb _ _ Hfs Hmax Hsave]. rewrite app_nil_r in Hdone.
  split; [by rewrite Hr, Hsave, Hed, Hmax|]. split; [done|]. split; [done|]. split; [done|]. split; [|split; [done|]; split; [by rewrite Hvs|done]].
  eapply Forall2_impl; [exact Ht|]. intros m seg (content & l & x & y & Hc1 & Hsz & Hh & Hperm & _). exists content, l. split_and!; try done.
  by eapply holds_table_reads.
Qed.
End recovery_claims.

(** ** A log cut in its second record *)

Definition recovery_options : Options (InternalKeyComparator BytewiseComparatorImpl) (InternalFilterPolicy BloomFilterPolicy) :=
  {| comparator := example_icmp; block_size := 4096; block_restart_interval := 16; compression := kNoCompression; filter_policy := None; paranoid_checks := true |}.

Definition recovery_groups : list group := [(1, [OpPut (str "a") (str "1"); OpDelete (str "b")]); (3, [OpPut (str "c") (str "2")])].
Definition recovery_log : list byte := take 50 (encode_log 0 (group_record <$> recovery_groups)).1.

Lemma recovery_settings : settings_ok (uvalid := short_key) example_icmp plain_codec plain_codec example_name recovery_options.
Proof. split; try done; apply plain_codec_ok. Qed.

Lemma recovery_fit : entries_fit (E := InMemoryEnv) (good := λ p keys, bloom_good (user_policy_ p) (ExtractUserKey <$> keys)) plain_codec plain_codec 0 recovery_options (replay recovery_groups).
Proof. split; [vm_compute; reflexivity|done|]. intros es _ file contents Hc. by rewrite no_filter_of_table in Hc. Qed.

Lemma recovery_groups_ok : Forall (group_ok (uvalid := short_key)) recovery_groups.
Proof. repeat constructor; done. Qed.

Lemma recovery_cut j : complete_groups 0 recovery_groups recovery_log j → j = 1%nat.
Proof.
  intros (Hj & Hlo & Hhi). destruct j as [|[|[|j]]]; [|done| |cbn in Hj; lia]; exfalso.
  - specialize (Hhi ltac:(cbn; lia)). vm_compute in Hhi. lia.
  - vm_compute in Hlo. lia.
Qed.

Lemma log_file_recovered_witness : ∃ (db db' : DBImpl (C := BytewiseComparatorImpl) (E := InMemoryEnv)) tc tc' m content l,
  MemFs.files (db_env db) (LogFileName (str "/db") 5) = Some recovery_log ∧
  RecoverLogFile example_icmp linear_new plain_codec plain_codec example_name (λ _, true) 0 recovery_options false false (str "/db") 2097152 4194304 false
    3 100 5 true false VersionEdit_Clear 0 db tc = Some (Status_OK, true, add_tables VersionEdit_Clear [m], 2, db', tc') ∧
  MemFs.files (db_env db') (TableFileName (str "/db") 2) = Some content ∧ number m = 2 ∧ file_size m = Z.of_nat (length content) ∧
  l ≡ₚ ikv <$> replay (take 1 recovery_groups).
Proof.
  destruct (new_writable_ok InMemoryEnv_new (LogFileName (str "/db") 5) env_ok_new) as (e1 & h & _ & He1 & Hw & Hf & _).
  destruct (fs_append_ok e1 h _ _ recovery_log He1 Hw Hf) as (e & _ & He & _ & Hfe & _). cbn [app] in Hfe.
  assert (is_Some (DBImpl_new (C := BytewiseComparatorImpl) e)) as [db Hdb] by (unfold DBImpl_new; rewrite example_set_new; eauto).
  assert (db_env db = e ∧ db_versions db = example_set ∧ db_pending_outputs db = ∅) as (Henv & Hvs & Hp).
  { unfold DBImpl_new in Hdb. rewrite example_set_new in Hdb. by injection Hdb as <-. }
  destruct (TableCache_new_caches (C := InternalKeyComparator BytewiseComparatorImpl) (P := InternalFilterPolicy BloomFilterPolicy) (E := InMemoryEnv) (FileSystem0 := mem_fs) (viewing := MemFs.opened) (str "/db") 1 [] (db_env db) ltac:(lia)) as (tc & _ & Hc).
  assert (vs_next_file_number_ (db_versions db) = 2) as Hnext by (rewrite Hvs; vm_compute; reflexivity).
  destruct (log_file_recovered (FileSystem0 := mem_fs) (FileSystemLaws0 := mem_fs_laws) (RandomFileLaws0 := mem_random_file_laws) (ComparatorLaws0 := bytewise_short_laws) example_icmp linear_new plain_codec plain_codec example_name (λ _, true) 0
    recovery_options false false (str "/db") 2097152 4194304 false recovery_groups 0 3 recovery_log 3 100 true 5 false VersionEdit_Clear 0 db tc 1 [])
    as (j & segs & metas & db' & tc' & Hr & Hcg & Hj & Hne & Ht & Hn & _); try done.
  - apply recovery_settings.
  - by rewrite Henv.
  - by rewrite Henv.
  - apply prefix_take.
  - apply recovery_groups_ok.
  - apply recovery_fit.
  - split; rewrite ?Hnext; try done; constructor.
  - lia.
  - repeat constructor; vm_compute; lia.
  - cbn; lia.
  - apply recovery_cut in Hcg. subst j. destruct Ht as [|m seg metas segs (content & l & Hf1 & Hsz & _ & Hl) Ht]; [done|]. apply Forall_cons in Hne as [Hs Hne].
    assert (seg = take 1 recovery_groups ∧ segs = []) as [-> ->].
    { destruct seg as [|g [|g' seg]]; [done| |done]. injection Hj as -> Hj. split; [done|]. destruct segs as [|seg' segs]; [done|]. apply Forall_cons in Hne as [Hs' _]. by destruct seg'. }
    inversion Ht; subst. pose proof (Hn 0%nat m eq_refl) as Hm. rewrite Hnext in Hm. cbn in Hm. rewrite Hm in Hf1. exists db, db', tc, tc', m, content, l.
    split; [done|]. split; [exact Hr|]. by split_and!.
Defined.
