(* ===== verification/DbRead.v ===== *)
(** Reading a key ([DBImpl::Get], db/db_impl.cc): the memtables, then the current
    version. *)
From stdpp Require Import gmap.
From S2P Require Import Prelude Coding Env FileSystem MemEnv MemFs Comparator DbFormat Filename SkipList Arena MemTable WriteBatch Iterator MemIter VersionEdit Version VersionBuilder VersionSet LiveVersions Compaction DbImpl.

Section db_read.
Context {C : Type} `{!Comparator C} (icmp : InternalKeyComparator C) {E : Type} `{!FileSystem E}.

(** [table_get] is [TableCache::Get] with the table's file. *)
Context (table_get : File → list byte → option (Status * option kv)).
Notation DBImpl := (DBImpl (C := C) (E := E)).
Implicit Types db : DBImpl.

(** What [Get] reads from while the mutex is free: a sequence number, and objects
    it holds references to. *)
Record GetPlan := { gp_snapshot : Z; gp_mem : nat; gp_imm : option nat; gp_version : nat }.
Implicit Types plan : GetPlan.

Definition set_version_list (vl : VersionList) db : DBImpl :=
  set_env (db_env db) (set_versions vl (vs_compact_pointer_ (db_versions db)) (db_versions db)) db.

(** Before the mutex is released. *)
Definition Get_begin (snapshot : option Z) db : option (GetPlan * DBImpl) :=
  mem ← db_mem db;
  current ← vl_current (vs_versions (db_versions db));
  let plan := {| gp_snapshot := default (vs_last_sequence_ (db_versions db)) snapshot; gp_mem := mem; gp_imm := db_imm db; gp_version := current |} in
  db ← ref_memtable mem db;
  db ← (match gp_imm plan with Some imm => ref_memtable imm db | None => Some db end);
  vl ← Version_Ref current (vs_versions (db_versions db));
  Some (plan, set_version_list vl db).

(** With the mutex released; the statistics when the version was searched. *)
Definition Get_read plan (key value : list byte) db : option (Status * list byte * option GetStats) :=
  let lkey := LookupKey_new key (gp_snapshot plan) in
  mem ← db_mems db !! gp_mem plan;
  '(found, value, s) ← MemTable_Get mem lkey value Status_OK;
  if (found : bool) then Some (s, value, None) else
  '(found, value, s) ← (match gp_imm plan with
                        | Some imm => imm ← db_mems db !! imm; MemTable_Get imm lkey value s
                        | None => Some (false, value, s)
                        end);
  if (found : bool) then Some (s, value, None) else
  o ← vl_objects (vs_versions (db_versions db)) !! gp_version plan;
  '(s, value, stats) ← Version_Get icmp table_get (v_version o) lkey value;
  Some (s, value, Some stats).

(** The statistics of a search, and the compaction they may ask for. *)
Definition update_stats plan (stats : GetStats) db : option DBImpl :=
  let vl := vs_versions (db_versions db) in
  o ← vl_objects vl !! gp_version plan;
  '(v, h, compact) ← UpdateStats stats (v_version o) (vl_files vl);
  let db := set_version_list {| vl_list := vl_list vl; vl_objects := <[gp_version plan := {| v_version := v; v_refs := v_refs o |}]> (vl_objects vl);
                                vl_files := h; vl_current := vl_current vl |} db in
  if (compact : bool) then MaybeScheduleCompaction db else Some db.

(** With the mutex held again. *)
Definition Get_end plan (stats : option GetStats) db : option DBImpl :=
  db ← (match stats with Some stats => update_stats plan stats db | None => Some db end);
  db ← unref_memtable (gp_mem plan) db;
  db ← (match gp_imm plan with Some imm => unref_memtable imm db | None => Some db end);
  vl ← Version_Unref (gp_version plan) (vs_versions (db_versions db));
  Some (set_version_list vl db).

(** [Get] with no other thread in between. *)
Definition DBImpl_Get (snapshot : option Z) (key value : list byte) db : option (Status * list byte * DBImpl) :=
  '(plan, db) ← Get_begin snapshot db;
  '(s, value, stats) ← Get_read plan key value db;
  db ← Get_end plan stats db;
  Some (s, value, db).
End db_read.

(** ** The newest entry of all *)

Section read_proofs.
Context {C : Type} `{!Comparator C} {uvalid : list byte → Prop} `{!ComparatorLaws C uvalid} (icmp : InternalKeyComparator C).
Notation ucmp := (user_comparator_ icmp).
Implicit Types es : list entry.

(** What a read of the entry gives: its value, or not found. *)
Definition read_result (o : option entry) (value : list byte) : Status * list byte :=
  match o with
  | Some e => match type e.1 with kTypeValue => (Status_OK, e.2) | kTypeDeletion => (NotFound [], value) end
  | None => (NotFound [], value)
  end.

(** For every user key the entries of [es] that a read at [s] sees are newer than
    the entries of [es']. *)
Definition newer_than (s : Z) es es' : Prop :=
  ∀ a b, a ∈ es → b ∈ es' → sequence a.1 <= s → Compare ucmp (user_key a.1) (user_key b.1) = 0 → tag_of b < tag_of a.

Lemma newest_app u s es es' : uvalid u → Forall (entry_ok uvalid) es → Forall (entry_ok uvalid) es' → newer_than s es es' →
  newest ucmp u s (es ++ es') = match newest ucmp u s es with Some e => Some e | None => newest ucmp u s es' end.
Proof.
  intros Hu Hok Hok' Hnew. pose proof (proj1 (Forall_forall _ _) Hok) as Hall. pose proof (proj1 (Forall_forall _ _) Hok') as Hall'. induction es as [|x es IH]; [done|].
  assert (newest ucmp u s (es ++ es') = match newest ucmp u s es with Some e => Some e | None => newest ucmp u s es' end) as IH'.
  { apply IH; [by apply Forall_cons in Hok as [_ ?]|intros a b Ha; apply Hnew; by right|intros e He; apply Hall; by right]. }
  cbn [app newest]. rewrite IH'. destruct (MemTable.visible ucmp u s x) eqn:Hx; [|done]. destruct (newest ucmp u s es) as [e|]; [by destruct (_ <? _)|].
  pose proof (newest_max ucmp u s es') as Hmax. destruct (newest ucmp u s es') as [e'|]; [|done]. destruct Hmax as (He' & Hv' & _).
  unfold MemTable.visible in Hx, Hv'. apply andb_true_iff in Hx as [Hx%Z.eqb_eq Hxs%Z.leb_le]. apply andb_true_iff in Hv' as [Hv'%Z.eqb_eq _].
  assert (tag_of e' < tag_of x); [|by rewrite (proj2 (Z.ltb_ge _ _)) by lia]. apply Hnew; [left|done|done|].
  destruct (Hall x ltac:(left)) as (Hux & _). destruct (Hall' e' He') as (Hue & _).
  pose proof (compare_sym ucmp u (user_key e'.1) Hu Hue). pose proof (compare_eq_l ucmp (user_key x.1) u (user_key e'.1) Hux Hu Hue Hx). lia.
Qed.

(** ** A version as entries *)

Section version.
Context (contents : File → list kv) (v : Version) (table_get : File → list byte → option (Status * option kv)) (u : list byte) (s : Z).
Hypothesis Hv : version_ok (uvalid := uvalid) icmp contents v.
Hypothesis Hinj : ∀ a b, uvalid a → uvalid b → Compare ucmp a b = 0 → a = b.
Hypothesis Hu : uvalid u.
Hypothesis Hs : 0 <= s <= kMaxSequenceNumber.
Hypothesis Hget : ∀ level f, f ∈ level_files v level → reads_table icmp contents table_get u s f.

(** [es] are the entries of the tables of the version. *)
Definition version_entries es : Prop :=
  Forall (entry_ok uvalid) es ∧ ∀ x, (∃ e, e ∈ es ∧ x = ikv e) ↔ ∃ level f, f ∈ level_files v level ∧ x ∈ contents f.

Lemma visible_ikv e : entry_ok uvalid e → Version.visible icmp u s (ikv e) ↔ MemTable.visible ucmp u s e = true.
Proof using All.
  intros Hok. pose proof Hok as (Hue & Hseq & _). destruct (tag_of_range _ _ Hok) as [Htag Hr]. unfold Version.visible, MemTable.visible, ikv. cbn [fst].
  rewrite lookup_internal_key_app, ikey_app, ExtractUserKey_app, andb_true_iff, Z.eqb_eq, Z.leb_le. destruct (pack_value s kValueTypeForSeek Hs) as [Hp Hpr].
  change (Compare icmp) with (internal_Compare icmp). rewrite internal_Compare_app by done. cbv zeta. pose proof (ValueType_num_range (type e.1)). change (ValueType_num kValueTypeForSeek) with 1 in Hp.
  split.
  - intros [<- Hle]. pose proof (compare_refl ucmp (user_key e.1) Hue) as Hrefl. rewrite Hrefl in Hle |- *. cbn [Z.eqb] in Hle. split; [done|lia].
  - intros [Heq Hle]. apply Hinj in Heq; [|done..]. split; [done|]. rewrite Heq. pose proof (compare_refl ucmp u Hu) as Hrefl. rewrite Hrefl. cbn [Z.eqb]. lia.
Qed.

Lemma version_result es value : version_entries es →
  ∃ stats, Version_Get icmp table_get v (LookupKey_new u s) value = Some (read_result (newest ucmp u s es) value, stats).
Proof using All.
  intros [Hok Hes]. pose proof (proj1 (Forall_forall _ _) Hok) as Hall. pose proof (newest_max ucmp u s es) as Hmax. destruct (newest ucmp u s es) as [e|].
  - destruct Hmax as (Hin & Hvis & Hmax). destruct (proj1 (Hes (ikv e))) as (level & f & Hf & He); [by exists e|]. pose proof (Hall e Hin) as Hoke.
    destruct (tag_of_range _ _ Hoke) as [Htag Hr]. assert (ParseInternalKey (ikv e).1 = Some e.1) as Hparse.
    { unfold ikv. cbn [fst]. rewrite ikey_app, ParseInternalKey_app by done. rewrite Htag. destruct e as [[uk sq ty] val]. cbn [fst user_key sequence type] in *.
      replace (sq * 256 + ValueType_num ty) with (ValueType_num ty + sq * 256) by lia. rewrite Z_mod_plus_full, Z_div_plus_full by lia. by destruct ty. }
    destruct (get_newest icmp contents v Hv Hinj table_get u s Hu Hget level f (ikv e) e.1 value) as (stats & Hg); [|done|].
    + split; [done|]. split; [done|]. split; [by apply visible_ikv|]. intros level' f' x' Hf' Hx' Hvx'.
      destruct (proj2 (Hes x')) as (e' & He' & ->); [by exists level', f'|]. apply visible_ikv in Hvx'; [|by apply Hall]. specialize (Hmax e' He' Hvx').
      pose proof (Hall e' He') as Hoke'. destruct (tag_of_range _ _ Hoke') as [_ Hr']. unfold ikv. cbn [fst]. rewrite !ikey_app. change (Compare icmp) with (internal_Compare icmp). rewrite internal_Compare_app by done. cbv zeta.
      unfold MemTable.visible in Hvis, Hvx'. apply andb_true_iff in Hvis as [Hvis%Z.eqb_eq _]. apply andb_true_iff in Hvx' as [Hvx'%Z.eqb_eq _].
      pose proof Hoke as (Hue & _). pose proof Hoke' as (Hue' & _). apply Hinj in Hvis, Hvx'; [|done..]. rewrite Hvis, Hvx'. pose proof (compare_refl ucmp u Hu) as ->. cbn [Z.eqb]. lia.
    + exists stats. rewrite Hg. unfold read_result, ikv. by destruct (type e.1).
  - apply (get_nothing icmp contents v Hv Hinj table_get u s Hu Hget). intros level f x Hf Hx Hvis.
    destruct (proj2 (Hes x)) as (e & He & ->); [by exists level, f|]. apply visible_ikv in Hvis; [|by apply Hall]. by rewrite Hmax in Hvis.
Qed.

(** The file a search charges a seek to is one of the version's. *)
Lemma call_list_keeps {S : Type} (Inv : S → Prop) (f : nat → File → S → option (S * bool)) l : (∀ i g st st' b, (i, g) ∈ l → Inv st → f i g st = Some (st', b) → Inv st') →
  ∀ st st' b, Inv st → call_list f l st = Some (st', b) → Inv st'.
Proof using.
  induction l as [|[i g] l IH]; intros Hf st st' b Hst; cbn [call_list fst snd]; [by intros [= <- _]|]. intros ([st1 go] & Hg & H)%bind_Some.
  assert (Inv st1) as H1 by (eapply Hf; [left|exact Hst|exact Hg]). destruct go; [|by injection H as <- _]. eapply IH; [|exact H1|exact H]. intros i' g' *. intros Hin. apply Hf. by right.
Qed.

Lemma version_stats value r stats f : Version_Get icmp table_get v (LookupKey_new u s) value = Some (r, stats) → seek_file stats = Some f → ∃ level, f ∈ level_files v level.
Proof using All.
  rewrite Version_Get_calls. intros ([st b] & Hc & Heq)%bind_Some Hf. injection Heq as _ <-.
  assert ((∀ g, seek_file (g_stats st) = Some g ∨ last_file_read st = Some g → ∃ level, g ∈ level_files v level)) as Hinv; [|apply Hinv; by left].
  eapply (call_list_keeps (λ st, ∀ g, seek_file (g_stats st) = Some g ∨ last_file_read st = Some g → ∃ level, g ∈ level_files v level)); [| |exact Hc]; [|by intros g [?|?]].
  intros i g st1 st2 go Hin H1 Hm x Hx. apply candidates_elem in Hin as [Hg _]. unfold Get_Match in Hm. apply bind_Some in Hm as ([ts entry] & _ & Hm).
  assert ((seek_file (g_stats st2) = seek_file (g_stats st1) ∨ seek_file (g_stats st2) = last_file_read st1) ∧ last_file_read st2 = Some g) as [Hs2 Hl2].
  { assert (∀ sv, sv = seek_file (match seek_file (g_stats st1), last_file_read st1 with None, Some last => {| seek_file := Some last; seek_file_level := last_file_read_level st1 |} | _, _ => g_stats st1 end) →
      sv = seek_file (g_stats st1) ∨ sv = last_file_read st1) as Hsv by (intros sv ->; destruct (seek_file (g_stats st1)) eqn:E1, (last_file_read st1) eqn:E2; cbn; rewrite ?E1; tauto).
    destruct (match entry with Some _ => _ | None => _ end) as [state val]. destruct (negb (ok ts)); [by injection Hm as <- _; split; [apply Hsv|]|]. destruct state; injection Hm as <- _; (split; [by apply Hsv|done]). }
  destruct Hx as [Hx|Hx].
  - rewrite Hx in Hs2. destruct Hs2 as [Hs2|Hs2]; apply H1; [by left|by right].
  - rewrite Hl2 in Hx. injection Hx as <-. by exists i.
Qed.
End version.

(** ** The database *)

Context {E : Type} `{!FileSystem E} (table_get : File → list byte → option (Status * option kv)) (contents : File → list kv).
Notation DBImpl := (DBImpl (C := C) (E := E)).
Notation vlist db := (vs_versions (db_versions db)).
Implicit Types db : DBImpl.

(** The entries of the objects a read uses: the memtable, the memtable that is
    being compacted, the version. *)
Record readable plan es_m es_i (v : Version) db : Prop := {
  rd_mem : ∃ m, db_mems db !! gp_mem plan = Some m ∧ MemTable.comparator_ m = icmp ∧ mem_repr (uvalid := uvalid) m es_m;
  rd_imm : match gp_imm plan with
           | Some imm => ∃ m, db_mems db !! imm = Some m ∧ MemTable.comparator_ m = icmp ∧ mem_repr (uvalid := uvalid) m es_i
           | None => es_i = []
           end;
  rd_version : v_version <$> vl_objects (vlist db) !! gp_version plan = Some v;
}.

(** What is asked of the version and of the key. *)
Record can_read (u : list byte) (s : Z) es_m es_i es_v (v : Version) : Prop := {
  cr_version : version_ok (uvalid := uvalid) icmp contents v;
  cr_entries : version_entries contents v es_v;
  cr_tables level f : f ∈ level_files v level → reads_table icmp contents table_get u s f;
  cr_inj a b : uvalid a → uvalid b → Compare ucmp a b = 0 → a = b;
  cr_key : uvalid u ∧ Z.of_nat (length u) + 8 < 2 ^ 32;
  cr_snapshot : 0 <= s <= kMaxSequenceNumber;
  cr_order : newer_than s es_m (es_i ++ es_v) ∧ newer_than s es_i es_v;
}.

Lemma Get_read_spec plan u value es_m es_i es_v v db : readable plan es_m es_i v db → can_read u (gp_snapshot plan) es_m es_i es_v v →
  ∃ stats, Get_read icmp table_get plan u value db = Some (read_result (newest ucmp u (gp_snapshot plan) (es_m ++ es_i ++ es_v)) value, stats) ∧
    ∀ st f, stats = Some st → seek_file st = Some f → ∃ level, f ∈ level_files v level.
Proof.
  intros [(m & Hm & Hmc & Hmr) Hi Hv] [Hvok Hes Htab Hinj [Hu Hlen] Hs [Hn1 Hn2]]. set (s := gp_snapshot plan) in *. unfold Get_read. fold s.
  destruct (vl_objects (vlist db) !! gp_version plan) as [o|]; [|done]. injection Hv as Hvo.
  assert (Forall (entry_ok uvalid) es_m) as Hok1 by apply Hmr. assert (Forall (entry_ok uvalid) es_i) as Hok2.
  { destruct (gp_imm plan); [destruct Hi as (m' & _ & _ & Hr'); apply Hr'|rewrite Hi; constructor]. }
  assert (Forall (entry_ok uvalid) es_v) as Hok3 by apply Hes. rewrite (newest_app u s es_m (es_i ++ es_v)), (newest_app u s es_i es_v) by (done || by apply Forall_app).
  rewrite Hm. cbn [mbind option_bind]. rewrite (Get_repr m es_m Hmr u s Hu Hlen Hs), Hmc. cbn [mbind option_bind]. destruct (newest ucmp u s es_m) as [e|].
  { exists None. cbn [get_result]. unfold read_result. by destruct (type e.1). }
  cbn [get_result]. assert ((match gp_imm plan with Some imm => imm ← db_mems db !! imm; MemTable_Get imm (LookupKey_new u s) value Status_OK | None => Some (false, value, Status_OK) end)
    = Some (get_result (newest ucmp u s es_i) value Status_OK)) as ->.
  { destruct (gp_imm plan) as [imm|]; [|by rewrite Hi]. destruct Hi as (m' & Hm' & Hc' & Hr'). rewrite Hm'. cbn [mbind option_bind]. by rewrite (Get_repr m' es_i Hr' u s Hu Hlen Hs), Hc'. }
  cbn [mbind option_bind]. destruct (newest ucmp u s es_i) as [e|].
  { exists None. cbn [get_result]. unfold read_result. by destruct (type e.1). }
  cbn [get_result mbind option_bind]. rewrite Hvo. destruct (version_result contents v table_get u s Hvok Hinj Hu Hs Htab es_v value Hes) as (stats & Hg). rewrite Hg. cbn [mbind option_bind].
  destruct (read_result _ _) as [st val]. exists (Some stats). split; [done|]. intros st' f [= <-] Hf. by eapply (version_stats contents v table_get u s).
Qed.

(** ** References and statistics *)

(** The statistics change no reference count and no file of a version. *)
Lemma UpdateStats_ok stats v h : (∀ f, seek_file stats = Some f → is_Some (h !! f_ptr f)) →
  ∃ v' h' compact, UpdateStats stats v h = Some (v', h', compact) ∧ files_ v' = files_ v ∧ ∀ p, refs <$> h' !! p = refs <$> h !! p.
Proof.
  intros Hlive. assert (is_Some (UpdateStats stats v h)) as [[[v' h'] compact] Hu]; [|exists v', h', compact; split; [done|by eapply UpdateStats_keeps]].
  unfold UpdateStats. destruct (seek_file stats) as [f|]; [|done]. destruct (Hlive f eq_refl) as [c ->]. cbn [mbind option_bind]. by repeat case_match.
Qed.

Lemma MaybeScheduleCompaction_total db : is_Some (current_version (vlist db)) →
  ∃ db', MaybeScheduleCompaction db = Some db' ∧ db_mems db' = db_mems db ∧ db_versions db' = db_versions db ∧ db_mem db' = db_mem db ∧ db_imm db' = db_imm db.
Proof.
  intros [v Hv]. unfold MaybeScheduleCompaction. destruct (db_scheduled _); [by eexists|]. destruct (db_shutting_down _); [by eexists|]. destruct (negb _); [by eexists|].
  unfold NeedsCompaction. rewrite Hv. cbn [mbind option_bind]. destruct (_ && _); by eexists.
Qed.

(** The files of the versions, by the address of the version. *)
Definition files_of (vl : VersionList) (id : nat) : option (list (list File)) := files_ ∘ v_version <$> vl_objects vl !! id.

Lemma update_stats_ok owners X plan stats v db : vl_ok owners X (vlist db) → v_version <$> vl_objects (vlist db) !! gp_version plan = Some v →
  is_Some (vl_current (vlist db)) → (∀ f, seek_file stats = Some f → ∃ level, f ∈ level_files v level) →
  ∃ db', update_stats plan stats db = Some db' ∧ db_mems db' = db_mems db ∧ vl_ok owners X (vlist db') ∧ vl_current (vlist db') = vl_current (vlist db) ∧
    ∀ x, files_of (vlist db') x = files_of (vlist db) x.
Proof.
  intros Hvl Hv [c Hc] Hseek. unfold update_stats. destruct (vl_objects (vlist db) !! gp_version plan) as [o|] eqn:Ho; [|done]. injection Hv as Hv. cbn [mbind option_bind].
  destruct (UpdateStats_ok stats (v_version o) (vl_files (vlist db))) as (v' & h & compact & -> & Hfiles & Hh).
  { intros f [level Hf]%Hseek. apply (live_version _ _ _ _ _ Hvl Ho f). unfold level_files in Hf. rewrite Hv. apply list_elem_of_join.
    destruct (files_ v !! level) as [l|] eqn:Hl; [|by apply not_elem_of_nil in Hf]. exists l. split; [done|]. by eapply list_elem_of_lookup_2. }
  pose proof (vl_ok_replace _ _ _ _ _ v' h Hvl Ho Hfiles Hh) as Hvl1. cbn [mbind option_bind]. set (db1 := set_version_list _ _).
  assert (∀ x, files_of (vlist db1) x = files_of (vlist db) x) as Hobj.
  { intros x. subst db1. unfold files_of. cbn. destruct (decide (x = gp_version plan)) as [->|]; [rewrite lookup_insert_eq, Ho; cbn; by rewrite Hfiles|by rewrite lookup_insert_ne]. }
  destruct compact; [|by exists db1]. destruct (MaybeScheduleCompaction_total db1) as (db' & Hd & Hm & Hvs & _).
  { destruct (vo_current _ _ _ Hvl1 c Hc) as [o' Ho']. exists (v_version o'). unfold current_version. assert (vl_current (vlist db1) = Some c) as -> by done. cbn [mbind option_bind].
    change (vl_objects (vlist db1)) with (<[gp_version plan := {| v_version := v'; v_refs := v_refs o |}]> (vl_objects (vlist db))). cbn [vl_objects] in Ho'. by rewrite Ho'. }
  exists db'. rewrite Hm, Hvs. done.
Qed.

(** The references of a read to the memtables. *)
Definition held plan (M : gmap nat (MemTable C)) : gmap nat (MemTable C) :=
  match gp_imm plan with Some imm => alter MemTable_Ref imm (alter MemTable_Ref (gp_mem plan) M) | None => alter MemTable_Ref (gp_mem plan) M end.

(** The memtables of a plan are two, and both have an owner. *)
Definition referenced plan (M : gmap nat (MemTable C)) : Prop :=
  (∃ m, M !! gp_mem plan = Some m ∧ 1 <= refs_ m) ∧ ∀ imm, gp_imm plan = Some imm → imm ≠ gp_mem plan ∧ ∃ m, M !! imm = Some m ∧ 1 <= refs_ m.

Lemma ref_memtable_eq id db : is_Some (db_mems db !! id) →
  ref_memtable id db = Some (set_mems (alter MemTable_Ref id (db_mems db)) (db_next_mem db) (db_mem db) (db_imm db) db).
Proof.
  intros [m Hm]. unfold ref_memtable. rewrite Hm. cbn [mbind option_bind]. do 2 f_equal. apply map_eq. intros x.
  destruct (decide (x = id)) as [->|]; [by rewrite lookup_insert_eq, lookup_alter_eq, Hm|by rewrite lookup_insert_ne, lookup_alter_ne].
Qed.

Lemma unref_memtable_eq id m (M : gmap nat (MemTable C)) db : M !! id = Some m → 1 <= refs_ m → db_mems db = alter MemTable_Ref id M →
  unref_memtable id db = Some (set_mems M (db_next_mem db) (db_mem db) (db_imm db) db).
Proof.
  intros Hm Hr Hdb. unfold unref_memtable. rewrite Hdb, lookup_alter_eq, Hm. cbn [mbind option_bind fmap option_fmap option_map]. assert (MemTable_Unref (MemTable_Ref m) = Some m) as ->.
  { unfold MemTable_Unref, MemTable_Ref. destruct m as [c r a t]. cbn [refs_ arena_ MemTable.comparator_ MemTable.table_] in *.
    replace (r + 1 - 1) with r by lia. by rewrite (proj2 (Z.leb_gt _ _)) by lia. }
  do 2 f_equal. apply map_eq. intros x. destruct (decide (x = id)) as [->|]; [by rewrite lookup_insert_eq|by rewrite lookup_insert_ne, lookup_alter_ne].
Qed.

Definition plan_of (snapshot : option Z) (id c : nat) db : GetPlan :=
  {| gp_snapshot := default (vs_last_sequence_ (db_versions db)) snapshot; gp_mem := id; gp_imm := db_imm db; gp_version := c |}.

Lemma Get_begin_ok owners X snapshot id c db : db_mem db = Some id → vl_current (vlist db) = Some c → vl_ok owners X (vlist db) →
  referenced (plan_of snapshot id c db) (db_mems db) →
  ∃ db1, Get_begin snapshot db = Some (plan_of snapshot id c db, db1) ∧ db_mems db1 = held (plan_of snapshot id c db) (db_mems db) ∧
    vl_ok (c :: owners) X (vlist db1) ∧ vl_current (vlist db1) = Some c ∧ ∀ x, v_version <$> vl_objects (vlist db1) !! x = v_version <$> vl_objects (vlist db) !! x.
Proof.
  intros Hm Hc Hvl [(m & Hmm & _) Himm]. unfold Get_begin. rewrite Hm, Hc. cbn [mbind option_bind]. change {| gp_snapshot := _; gp_mem := id; gp_imm := _; gp_version := c |} with (plan_of snapshot id c db).
  cbn [plan_of gp_mem gp_imm] in Hmm, Himm. rewrite ref_memtable_eq by by eexists. cbn [mbind option_bind gp_imm plan_of]. set (db1 := set_mems _ _ _ _ _).
  assert (∃ db2, (match db_imm db with Some imm => ref_memtable imm db1 | None => Some db1 end) = Some db2 ∧ db_mems db2 = held (plan_of snapshot id c db) (db_mems db) ∧ db_versions db2 = db_versions db)
    as (db2 & Hd2 & Hm2 & Hv2).
  { unfold held. cbn [gp_imm gp_mem plan_of]. destruct (db_imm db) as [i|]; [|by exists db1]. destruct (Himm i eq_refl) as (Hne & mi & Hi & _).
    rewrite ref_memtable_eq by (subst db1; cbn; rewrite lookup_alter_ne by done; by eexists). by eexists. }
  rewrite Hd2. cbn [mbind option_bind]. rewrite Hv2. destruct (Version_Ref_ok owners X _ c Hvl (vo_current _ _ _ Hvl c Hc)) as (vl' & -> & Hvl' & Hc' & _ & Hobj).
  cbn [mbind option_bind]. eexists. split; [done|]. cbn. by rewrite Hm2, Hc', Hc.
Qed.

Lemma Get_end_ok owners X plan stats v M db : db_mems db = held plan M → referenced plan M → vl_ok (gp_version plan :: owners) X (vlist db) → is_Some (vl_current (vlist db)) →
  v_version <$> vl_objects (vlist db) !! gp_version plan = Some v → (∀ st f, stats = Some st → seek_file st = Some f → ∃ level, f ∈ level_files v level) →
  ∃ db', Get_end plan stats db = Some db' ∧ db_mems db' = M ∧ vl_ok owners X (vlist db') ∧ vl_current (vlist db') = vl_current (vlist db) ∧
    ∀ x, vl_current (vlist db) = Some x ∨ x ∈ owners → files_of (vlist db') x = files_of (vlist db) x.
Proof.
  intros Hmems [(m & Hm & Hr) Himm] Hvl Hcur Hv Hseek. unfold Get_end.
  assert (∃ db1, (match stats with Some st => update_stats plan st db | None => Some db end) = Some db1 ∧ db_mems db1 = db_mems db ∧
    vl_ok (gp_version plan :: owners) X (vlist db1) ∧ vl_current (vlist db1) = vl_current (vlist db) ∧ ∀ x, files_of (vlist db1) x = files_of (vlist db) x) as (db1 & -> & Hm1 & Hvl1 & Hc1 & Hf1).
  { destruct stats as [st|]; [|by exists db]. eapply update_stats_ok; [done..|]. intros f Hf. by eapply Hseek. }
  cbn [mbind option_bind].
  assert (∃ db3, (db2 ← unref_memtable (gp_mem plan) db1; match gp_imm plan with Some imm => unref_memtable imm db2 | None => Some db2 end) = Some db3 ∧ db_mems db3 = M ∧ db_versions db3 = db_versions db1)
    as (db3 & Hd3 & Hm3 & Hv3).
  { rewrite Hmems in Hm1. unfold held in Hm1. destruct (gp_imm plan) as [i|].
    - destruct (Himm i eq_refl) as (Hne & mi & Hi & Hri). rewrite alter_alter_ne in Hm1 by done.
      rewrite (unref_memtable_eq _ m (alter MemTable_Ref i M)) by (done || by rewrite lookup_alter_ne). cbn [mbind option_bind].
      rewrite (unref_memtable_eq i mi M) by done. by eexists.
    - rewrite (unref_memtable_eq _ m M) by done. by eexists. }
  apply bind_Some in Hd3 as (db2 & -> & Hd3). cbn [mbind option_bind]. rewrite Hd3. cbn [mbind option_bind]. rewrite Hv3.
  destruct (Version_Unref_ok _ _ _ _ Hvl1) as (vl' & -> & Hvl' & Hc' & _ & Hobj). cbn [mbind option_bind]. eexists. split; [done|]. split; [done|]. split; [done|]. cbn. split; [by rewrite Hc'|].
  intros x Hx. rewrite <- Hc1 in Hx. specialize (Hobj x Hx). rewrite <- Hf1. unfold files_of. rewrite !option_fmap_compose. by rewrite Hobj.
Qed.

(** The plan reads the same from the memtables with its references. *)
Lemma readable_held plan es_m es_i v db db1 : readable plan es_m es_i v db → referenced plan (db_mems db) → db_mems db1 = held plan (db_mems db) →
  v_version <$> vl_objects (vlist db1) !! gp_version plan = v_version <$> vl_objects (vlist db) !! gp_version plan → readable plan es_m es_i v db1.
Proof.
  intros [(m & Hm & Hmc & Hmr) Hi Hv] [_ Hne] Hmems Hobj. split; [| |by rewrite Hobj].
  - exists (MemTable_Ref m). split; [|done]. rewrite Hmems. unfold held. destruct (gp_imm plan) as [i|]; [destruct (Hne i eq_refl); rewrite lookup_alter_ne by done|]; by rewrite lookup_alter_eq, Hm.
  - destruct (gp_imm plan) as [i|] eqn:Himm; [|done]. destruct Hi as (mi & Hmi & Hci & Hri). destruct (Hne i eq_refl) as [? _]. exists (MemTable_Ref mi). split; [|done].
    rewrite Hmems. unfold held. by rewrite Himm, lookup_alter_eq, lookup_alter_ne, Hmi.
Qed.

(** Entries above the snapshot are not read. *)
Lemma newest_invisible u s es es' : (∀ e, e ∈ es → s < sequence e.1) → newest ucmp u s (es ++ es') = newest ucmp u s es'.
Proof.
  induction es as [|e es IH]; [done|]. intros Hall. cbn [app newest]. rewrite IH by (intros x Hx; apply Hall; by right).
  assert (MemTable.visible ucmp u s e = false) as ->; [|done]. unfold MemTable.visible. apply andb_false_iff. right. apply Z.leb_gt. apply Hall. left.
Qed.

(** A version with the same files is read the same. *)
Lemma can_read_files u s es_m es_m' es_i es_v v v' : can_read u s es_m es_i es_v v → files_ v' = files_ v → (∀ e, e ∈ es_m' → e ∈ es_m ∨ s < sequence e.1) → can_read u s es_m' es_i es_v v'.
Proof.
  intros [[H1 H2 H3 H4 H5 H6] [Hok Hes] Htab Hinj Hk Hs [Hn Hn']] Hf Hsub. assert (level_files v' = level_files v) as Hl by (unfold level_files; by rewrite Hf).
  split; [split; rewrite Hl; done|split; [done|by rewrite Hl]|by rewrite Hl|done..|]. split; [|done]. intros a b Ha Hb Hle. destruct (Hsub a Ha); [by apply Hn|lia].
Qed.

(** ** Claims *)

(** C1: [DBImpl::Get] returns, whatever the key: it gives the newest entry of the
    key at the snapshot among all of the memtable, the memtable that is being
    compacted and the files of the current version, as its value, or as not found
    for a deletion or no entry; every reference it takes is given back, and the
    versions keep their files. *)
Theorem db_get_newest owners X snapshot u value es_m es_i es_v v id c db : db_mem db = Some id → vl_current (vlist db) = Some c → vl_ok owners X (vlist db) →
  readable (plan_of snapshot id c db) es_m es_i v db → referenced (plan_of snapshot id c db) (db_mems db) →
  let s := gp_snapshot (plan_of snapshot id c db) in can_read u s es_m es_i es_v v →
  ∃ db', DBImpl_Get icmp table_get snapshot u value db = Some (read_result (newest ucmp u s (es_m ++ es_i ++ es_v)) value, db') ∧
    db_mems db' = db_mems db ∧ vl_ok owners X (vlist db') ∧ vl_current (vlist db') = Some c ∧ ∀ x, x = c ∨ x ∈ owners → files_of (vlist db') x = files_of (vlist db) x.
Proof.
  intros Hm Hc Hvl Hread Href s Hcan. destruct (Get_begin_ok owners X snapshot id c db Hm Hc Hvl Href) as (db1 & Hbegin & Hm1 & Hvl1 & Hc1 & Hobj). unfold DBImpl_Get. rewrite Hbegin. cbn [mbind option_bind].
  assert (readable (plan_of snapshot id c db) es_m es_i v db1) as Hread1 by (eapply readable_held; done).
  destruct (Get_read_spec _ u value _ _ _ _ _ Hread1 Hcan) as (stats & Hr & Hseek). rewrite Hr. cbn [mbind option_bind]. fold s. destruct (read_result _ _) as [st val].
  destruct (Get_end_ok owners X (plan_of snapshot id c db) stats v (db_mems db) db1 Hm1 Href Hvl1 ltac:(by eexists) (rd_version _ _ _ _ _ Hread1) Hseek) as (db' & -> & Hm' & Hvl' & Hc' & Hf').
  cbn [mbind option_bind]. exists db'. split_and!; [done..|by rewrite Hc'|]. intros x Hx. rewrite Hf' by (rewrite Hc1; destruct Hx as [->|]; tauto).
  unfold files_of. rewrite !option_fmap_compose. by rewrite Hobj.
Qed.

(** C3: a [Get] reads as of its snapshot, whatever other threads do after it
    releases the mutex: once it holds its references, the memtable may have got any
    entries above the snapshot and the version new statistics, and the read still
    gives the newest entry there was when it began. *)
Theorem db_get_snapshot snapshot u value es_m es_i es_v v db plan db0 : Get_begin snapshot db = Some (plan, db0) →
  readable plan es_m es_i v db → can_read u (gp_snapshot plan) es_m es_i es_v v →
  ∀ added v1 db1, readable plan (added ++ es_m) es_i v1 db1 → files_ v1 = files_ v → (∀ e, e ∈ added → gp_snapshot plan < sequence e.1) →
  gp_snapshot plan = default (vs_last_sequence_ (db_versions db)) snapshot ∧
  ∃ stats, Get_read icmp table_get plan u value db1 = Some (read_result (newest ucmp u (gp_snapshot plan) (es_m ++ es_i ++ es_v)) value, stats).
Proof.
  intros Hbegin _ Hcan added v1 db1 Hread1 Hf Hadd. split.
  { unfold Get_begin in Hbegin. apply bind_Some in Hbegin as (m & _ & (c & _ & (d1 & _ & (d2 & _ & (vl & _ & Heq)%bind_Some)%bind_Some)%bind_Some)%bind_Some). by injection Heq as <- _. }
  destruct (Get_read_spec plan u value _ _ es_v _ _ Hread1) as (stats & Hr & _).
  { eapply can_read_files; [exact Hcan|done|]. intros e [He|He]%elem_of_app; [right; by apply Hadd|by left]. }
  exists stats. by rewrite Hr, <- app_assoc, newest_invisible.
Qed.
End read_proofs.

(** ** A concrete read *)

(** The entries of [version_example]. *)
Definition read_entries : list entry :=
  (λ '(u, s, v), ({| user_key := u; sequence := s; type := kTypeValue |}, v)) <$>
    [(str "a", 9, str "x"); (str "k", 9, EncodeFixed32 5); (str "c", 5, str "x"); (str "k", 5, EncodeFixed32 4); (str "b", 3, str "x"); (str "k", 3, EncodeFixed32 2)].

Definition read_new : entry := ({| user_key := str "k"; sequence := 7; type := kTypeValue |}, str "new").

Definition read_db (m : MemTable BytewiseComparatorImpl) : DBImpl (C := BytewiseComparatorImpl) (E := InMemoryEnv) :=
  {| db_env := InMemoryEnv_new; db_versions := compaction_set; db_mems := {[0%nat := {| MemTable.comparator_ := MemTable.comparator_ m; refs_ := 1; arena_ := arena_ m; MemTable.table_ := MemTable.table_ m |}]};
     db_next_mem := 1%nat; db_mem := Some 0%nat; db_imm := None; db_logfile := None; db_log := None;
     db_logfile_number := 0; db_pending_outputs := ∅; db_bg_error := Status_OK; db_scheduled := false; db_shutting_down := false;
     db_manual := None; db_snapshots := SnapshotList_new; db_tmp_batch := WriteBatch_new |}.

Ltac solve_entry k := eexists; split; [apply (list_elem_of_lookup_2 read_entries k); reflexivity|reflexivity].

Lemma read_entries_ok : version_entries (uvalid := λ _, True) version_contents version_example read_entries.
Proof.
  split.
  - repeat (apply Forall_cons; split; [split_and!; try done; by vm_compute|]). constructor.
  - intros x. split.
    + intros (e & He & ->). cbn in He. rewrite !elem_of_cons, elem_of_nil in He. destruct_or! He; try done; subst e.
      1,2: exists 0%nat, (version_file 5 (str "a") (str "k") 9).
      3,4: exists 0%nat, (version_file 4 (str "c") (str "k") 5).
      5,6: exists 1%nat, (version_file 2 (str "b") (str "k") 3).
      all: split; [first [left|right; left]|]; unfold version_contents; first [by left|by right; left].
    + intros (level & f & Hf & Hx). version_cases.
      all: first [solve_entry 0%nat|solve_entry 1%nat|solve_entry 2%nat|solve_entry 3%nat|solve_entry 4%nat|solve_entry 5%nat].
Qed.

Lemma read_mem : ∃ m, Add_all linear_new [read_new] (MemTable_new linear_new version_icmp) = Some m ∧
  mem_repr (uvalid := λ _, True) m [read_new] ∧ MemTable.comparator_ m = version_icmp.
Proof.
  apply (Add_all_repr linear_new [read_new] _ [] (mem_repr_new linear_new version_icmp)); [|apply NoDup_singleton].
  repeat constructor; cbn; try done; by vm_compute.
Qed.

Lemma read_can es_m : es_m = [] ∨ es_m = [read_new] → can_read (uvalid := λ _, True) version_icmp version_table_get version_contents (str "k") 6 es_m [] read_entries version_example.
Proof.
  intros Hm. split; [apply version_example_ok|apply read_entries_ok| |intros a b _ _; apply slice_compare_eq|by vm_compute|by vm_compute|].
  - intros level f _. eexists. split; [done|]. split; [by right|done].
  - split; [|by intros a b ?%not_elem_of_nil]. intros a b Ha Hb Hle. destruct Hm as [->| ->]; [by apply not_elem_of_nil in Ha|]. apply list_elem_of_singleton in Ha as ->. by vm_compute in Hle.
Qed.

Lemma read_readable m es snapshot : mem_repr (uvalid := λ _, True) m es → MemTable.comparator_ m = version_icmp →
  readable (uvalid := λ _, True) version_icmp {| gp_snapshot := snapshot; gp_mem := 0%nat; gp_imm := None; gp_version := 0%nat |} es [] version_example (read_db m).
Proof. intros Hr Hc. split; [|done|done]. eexists. split; [apply lookup_singleton_eq|]. done. Qed.

(** The memtable's entry is above the snapshot, and so is the first file's. *)
Lemma db_get_newest_witness : ∃ m db', DBImpl_Get version_icmp version_table_get (Some 6) (str "k") [] (read_db m) = Some (Status_OK, EncodeFixed32 4, db').
Proof.
  destruct read_mem as (m & _ & Hr & Hc). exists m.
  destruct (db_get_newest (uvalid := λ _, True) version_icmp version_table_get version_contents [] [] (Some 6) (str "k") [] [read_new] [] read_entries version_example 0%nat 0%nat (read_db m)) as (db' & Hg & _);
    [done|done|apply compaction_set_ok|by apply read_readable| |apply read_can; by right|].
  - split; [|done]. eexists. split; [apply lookup_singleton_eq|done].
  - exists db'. rewrite Hg. f_equal.
Defined.

Lemma db_get_snapshot_witness : ∃ plan db0 m stats, Get_begin (Some 6) (read_db (MemTable_new linear_new version_icmp)) = Some (plan, db0) ∧
  Get_read version_icmp version_table_get plan (str "k") [] (read_db m) = Some (Status_OK, EncodeFixed32 4, stats).
Proof.
  destruct read_mem as (m & _ & Hr & Hc).
  destruct (Get_begin (Some 6) (read_db (MemTable_new linear_new version_icmp))) as [[plan db0]|] eqn:Hb; [|discriminate Hb].
  assert (plan = {| gp_snapshot := 6; gp_mem := 0%nat; gp_imm := None; gp_version := 0%nat |}).
  { assert (fst <$> Get_begin (Some 6) (read_db (MemTable_new linear_new version_icmp)) = Some {| gp_snapshot := 6; gp_mem := 0%nat; gp_imm := None; gp_version := 0%nat |}) as Hp by reflexivity.
    rewrite Hb in Hp. by injection Hp. }
  subst plan.
  exists {| gp_snapshot := 6; gp_mem := 0%nat; gp_imm := None; gp_version := 0%nat |}, db0, m.
  destruct (db_get_snapshot (uvalid := λ _, True) version_icmp version_table_get version_contents (Some 6) (str "k") [] [] [] read_entries version_example _ _ db0 Hb
    (read_readable _ _ _ (mem_repr_new linear_new version_icmp) eq_refl) (read_can [] ltac:(by left)) [read_new] version_example (read_db m)) as (_ & stats & Hg);
    [by apply read_readable|done|by intros e ->%list_elem_of_singleton|].
  exists stats. split; [done|]. rewrite Hg. f_equal.
Defined.
